(* ===== verification/_CoqProject ===== *)
-Q . S2P
Prelude.v
Text.v
Types.v
DemoText.v
Contracts.v
Manifests.v
Distributed.v
Disk.v
ControlPlane.v
Capabilities.v
Encoding.v
NonceStore.v
PeerValidation.v
Lease.v
Redaction.v
Records.v
Lifecycle.v
Journal.v
Idempotency.v
Operations.v
Controller.v
SyncTypes.v
SyncLog.v
SyncCheckpoint.v
SyncReceiver.v
SyncClient.v
SyncReplication.v
Timing.v
Scheduler.v
Placement.v
ServiceModel.v
ServiceGraph.v
Watchdog.v
RestartExecutor.v
Supervisor.v
Gateway.v
GatewayMesh.v
GatewayRouter.v
GatewayInvariant.v
GatewayRuns.v
Files.v
HttpText.v
Update.v
UpdateStore.v
UpdateCoordinator.v
Keyring.v
Tokens.v
HashToken.v
GatewayAuth.v
Dnt.v
DntEnvelope.v
ArgsSpec.v
ArgsParser.v
ArgsLines.v
ArgsCompletion.v
StorageTree.v
StorageWalk.v
Storage.v
StorageBackup.v
StorageVerify.v
StorageCopy.v
StorageRestore.v
StorageSnapshot.v
StorageSealed.v
HttpTransport.v
StorageRemote.v
StorageManifest.v
HttpCommand.v
HttpQuery.v
PeerRpcHost.v
PeerRpcClient.v
Coordination.v
