(* ===== verification/Prelude.v ===== *)
(** AppCore Runtime: a verification development of the Rust workspace
    [src/crates].

    * What the program is

    AppCore is a runtime for applications whose nodes, the cores, run alone or
    in a cluster. A core takes commands and queries over HTTP, keeps what it
    must not lose in local files, talks to its peers over signed envelopes,
    elects writers through a control plane, reaches browsers and workers
    through a gateway, updates itself and restarts its own services. The parts
    below follow the crates; a part of the development requires the parts its
    crate calls.

    * The shared ground

    - Prelude.v: [result] and the operations [op] on a state (Rust's
      [Result] and [&mut self] methods; an error keeps the writes made before
      it), [keeps] and [hoare] for what operations leave, machine integers as
      [N] with their saturating and checked additions, big- and little-endian
      bytes, the iteration order of [BTreeMap].
    - Text.v: the text functions of the Rust library ([lines], [split_once],
      [trim], UTF-8 validity, decimal [u64]s); HttpText.v: the texts of HTTP
      heads; Encoding.v: hexadecimal digests; Timing.v: durations and the
      xorshift generator; DemoText.v: an injective text for the values that
      witnesses serialize.
    - Disk.v: what a file system does to one file in one access (write, tear,
      fail). Files.v: several files, each access with the next outcome of a
      script (works, fails before or after its effect, the process dies before
      or after it), and the triples for it. StorageTree.v: a tree of files,
      directories and links on Files.v, where bytes reach a file one at a time.
    - Types.v, Contracts.v, Manifests.v, Distributed.v: the value types of
      [appcore-types], [appcore-contracts] and
      [appcore-distributed-contracts], with every constructor and validation.

    * The components

    - Peer RPC ([appcore-peer-rpc]): PeerValidation.v (envelopes, the signed
      pre-image) over any store of the class [PeerNonceStore] of NonceStore.v,
      which three modules implement; PeerRpcHost.v (credentials, the routes of
      the host, their histories) and PeerRpcClient.v (envelopes, attempts, the
      transport), whose example runs a client against a host over a network
      that loses answers.
    - HTTP ([appcore-api], [appcore-transport]): HttpCommand.v (the command
      handler and the interleavings of requests over Controller.v),
      HttpQuery.v (queries, status and diagnostics) and HttpTransport.v (the
      bounded client with its response parser).
    - Security ([appcore-security]): Keyring.v (secret texts, the durable
      keyring that rotates and revokes), Tokens.v (issue and validation over
      the class [TokenProvider]) and HashToken.v, the provider on the keyring.
    - Storage ([appcore-storage]): StorageWalk.v (the bounded walk), Storage.v
      (the file provider), StorageBackup.v with StorageVerify.v,
      StorageCopy.v, StorageRestore.v and StorageSnapshot.v (what backups and
      interrupted restores leave), StorageSealed.v (DNT objects on it),
      StorageRemote.v (sealing by a remote service), StorageManifest.v.
    - DNT containers ([appcore-dnt]): Dnt.v (the header codec) and
      DntEnvelope.v (sealing, opening, migration, files).
    - Updates ([appcore-update]): Update.v (artifacts, verifiers, the index),
      UpdateStore.v (the file store, under the class [ArtifactStore]) and
      UpdateCoordinator.v on the class.
    - Command lines ([appcore-args]): ArgsSpec.v, ArgsParser.v, ArgsLines.v
      (the lines a specification describes) and ArgsCompletion.v.
    - Provider ([appcore-provider]): Lease.v, file leases fenced by epochs, and
      Coordination.v, the schema metadata of control planes on StorageTree.v.
    - Core ([appcore-core]): Records.v (envelopes, results, audit records),
      Lifecycle.v, Journal.v (the hash-chained journal), Idempotency.v (the
      class [IdempotencyStore] with a map and an append-only file),
      Operations.v (audit log and event bus on journals shared by reference),
      Controller.v (decisions, dispatch and the interleavings of requests),
      Redaction.v.
    - Control plane ([appcore-control-plane], [appcore-capabilities]):
      ControlPlane.v (the planes in memory and on file, leadership,
      heartbeats) and Capabilities.v (registry, selection, resolution).
    - Synchronisation ([appcore-sync]): SyncTypes.v, SyncLog.v,
      SyncCheckpoint.v (the classes of logs and checkpoint stores with their
      implementations), SyncReceiver.v (the follower, on the classes),
      SyncClient.v (the leader's outbox and retries) and SyncReplication.v,
      which puts both sides together over a network that loses messages.
    - Scheduler ([appcore-scheduler]): Scheduler.v, the coordinator, its
      workers and callers as steps; Placement.v.
    - Supervisor ([appcore-supervisor]): ServiceModel.v, ServiceGraph.v,
      Watchdog.v, RestartExecutor.v and Supervisor.v, which composes them.
    - Gateway ([appcore-gateway]): Gateway.v (configuration, connections,
      registry, tenants), GatewayMesh.v (the frames of the mesh relay),
      GatewayAuth.v (who may connect), GatewayRouter.v (routing, sockets and
      pruning, as the steps that a task takes between two of its awaits),
      GatewayInvariant.v (what every step keeps) and GatewayRuns.v (what
      clients see of a run).

    Each file models the source file its first comment names; a definition has
    the name of the Rust item, and an operation is the whole method, guards
    and early returns in the order of the code.

    * What the theorems show

    Safety of the protocols. A credential lets the host run the envelope it
    was issued for, unchanged and once
    ([PeerRpcHost.signed_request_runs_unchanged_and_once], under the condition
    that [PeerValidation.past_request_never_replayed] needs; without it:
    [future_request_replayed]); what a client sends stays within its attempts
    ([PeerRpcClient.calls_are_sent_within_their_attempts]). Tokens permit only
    their request ([Tokens.issued_token_permits_only_its_request]), a revoked
    key is never handed out again ([Keyring.revoked_key_is_never_resolved]), a
    connection token admits one worker
    ([GatewayAuth.connection_token_admits_one_worker]). Commands and queries
    that ran had been authorized
    ([HttpCommand.executed_commands_were_authorized],
    [HttpQuery.queries_are_authorized_and_audited]), and a command runs once
    per idempotency key in every interleaving
    ([Controller.completed_command_runs_once]). A later lease fences the
    earlier one ([Lease.later_acquire_fences]), one leader per service
    ([ControlPlane.service_has_one_leader]) and one core that runs a leader's
    capability ([Capabilities.leader_capability_runs_on_one_core]); the restart
    budget and quarantine of the supervisor, the bounds of the scheduler; a
    client of the gateway is answered by the worker that was selected
    ([GatewayRuns.answers_come_from_selected_worker]) and the gateway keeps its
    limits ([GatewayRuns.gateway_keeps_its_tables]).

    Crashes. Whatever access fails and wherever the process dies: a write
    leaves the old object or the new one ([Storage.write_is_atomic]), a restore
    the old tree or the restored one after recovery
    ([StorageRestore.interrupted_restore_is_whole]), an update the version
    before or the version after
    ([UpdateCoordinator.interrupted_update_is_undone]), and coordination
    metadata is never torn ([Coordination.coordination_store_survives]).

    Refinement: each durable store implements the data type it stands for,
    across torn and failed writes and reopening: the nonce file, the lease
    files, the journal, the idempotency file, the replication log, the file
    control plane. Where a store loses data the theorem says when.

    Round trips: snapshots, DNT envelopes (with: only authentic ones open),
    HTTP responses by length or by chunks, command lines, tokens, records.

    Functional results: validation, placement, the service graph, resolution,
    shutdown order, delivery of the outbox in order, parsing and completion of
    command lines, minimal edit distances. Termination: the flush loop, the
    walk. Types: what the manifests promise. Errors: what a late heartbeat, a
    lost acknowledgement, a torn append, a retried failure or a reused request
    id lead to.

    * Inputs, bounds and fuel

    Code outside [src] is an argument: SHA-256, HMAC and XChaCha20-Poly1305,
    Ed25519, zlib and gzip, [serde_json], [semver], [cron], the HashToken
    library, clocks, random bytes, handlers, sockets, remote peers. Hypotheses
    on it state what its documentation says (decoding what was encoded,
    distinct preimages of distinct digests) and every theorem with one has a
    witness that instantiates it. A file access has an outcome as an input, so
    a theorem that quantifies over the inputs covers every failure.

    Integers are [N] ([Z] for signed scores) with the maximum of their width
    where the code can reach it. Fuel is what the code itself counts down or
    bounds:
    levels in the depth-first search of the service graph (as many as services,
    which [temporary] bounds: [ServiceGraph.validate_orders_services]), rounds
    of the flush loop (one more than the pending messages, by
    [SyncClient.flush_terminates]), directories of a walk (16,384, the limit of
    the code, by [StorageWalk.walk_from_fuel]), the input of the decoder of
    chunked bodies ([HttpTransport.decode_chunks_fuel]) and of the redactor
    ([Redaction.redact_from_Red]), records dropped from a journal and entries
    popped from a queue (their lengths, by [Operations.pop_front_while_spec]).
    Other recursion is structural, and loops of threads are steps.

    * What is not modelled

    Listeners, axum's routing and body limits, DNS, TCP and TLS, thread
    creation, process exit, file permissions and poisoned locks (except where a
    state field stands for them): they belong to libraries and the system.
    [Debug] texts, exports, the JSON projections of the supervisor, help texts
    and shell scripts of [appcore-args]: they render what other definitions
    compute. The factories of providers and the runtime builder, the adapters
    of the supervisor and of security: they connect parts that are modelled.
    The HTTP client and worker thread of the control plane, the transport and
    discovery of synchronisation, and metrics, logs and health observation of
    [appcore-ops] are left out. *)

From stdpp Require Export base list strings gmap sets sorting.
From Stdlib Require Export NArith Lia.
From Stdlib Require Export Strings.Byte.
From Stdlib Require Export Ascii.

Declare Scope appcore_scope.
Delimit Scope appcore_scope with appcore.

(** ** Fallible computations: Rust's [Result<A, E>] *)

Inductive result (E A : Type) : Type :=
| Ok (a : A)
| Err (e : E).
Arguments Ok {E A} a.
Arguments Err {E A} e.

#[export] Instance result_eq_dec {E A} `{EqDecision E, EqDecision A} :
  EqDecision (result E A).
Proof. solve_decision. Defined.

#[export] Instance result_ret {E} : MRet (result E) := λ A, Ok.
#[export] Instance result_bind {E} : MBind (result E) := λ A B k m,
  match m with Ok a => k a | Err e => Err e end.
#[export] Instance result_fmap {E} : FMap (result E) := λ A B f m,
  match m with Ok a => Ok (f a) | Err e => Err e end.

Definition is_ok {E A} (r : result E A) : bool :=
  match r with Ok _ => true | Err _ => false end.

Definition map_err {E F A} (f : E → F) (r : result E A) : result F A :=
  match r with Ok a => Ok a | Err e => Err (f e) end.

Definition ok_or {E A} (e : E) (o : option A) : result E A :=
  match o with Some a => Ok a | None => Err e end.

(** ** Stateful fallible operations

    A method that takes [&mut self] (or locks interior state) and returns a
    [Result] is a function from the state to the outcome and the new state.
    An error does not undo the writes made before it, as in Rust. *)

Definition op (S E A : Type) : Type := S → result E A * S.

#[export] Instance op_ret {S E} : MRet (op S E) := λ A a s, (Ok a, s).
#[export] Instance op_bind {S E} : MBind (op S E) := λ A B k m s,
  match m s with
  | (Ok a, s') => k a s'
  | (Err e, s') => (Err e, s')
  end.

Definition op_fail {S E A} (e : E) : op S E A := λ s, (Err e, s).
Definition op_get {S E} : op S E S := λ s, (Ok s, s).
Definition op_modify {S E} (f : S → S) : op S E () := λ s, (Ok (), f s).
Definition op_lift {S E A} (r : result E A) : op S E A := λ s, (r, s).
(** [map_err] of a call that changes the state. *)
Definition op_map_err {S E F A} (f : E → F) (o : op S E A) : op S F A := λ s,
  let '(r, s) := o s in (map_err f r, s).

(** The equations of the operations, as the rewrite database [op]. *)
Create HintDb op.
Create HintDb maps.

Lemma op_get_bind {S E B} (k : S → op S E B) s : (op_get ≫= k) s = k s s.
Proof. done. Qed.
Lemma op_modify_bind {S E B} f (k : () → op S E B) s : (op_modify f ≫= k) s = k () (f s).
Proof. done. Qed.
Lemma op_fail_bind {S E A B} e (k : A → op S E B) s : (op_fail e ≫= k) s = (Err e, s).
Proof. done. Qed.
Lemma op_lift_ok {S E A B} a (k : A → op S E B) s : (op_lift (Ok a) ≫= k) s = k a s.
Proof. done. Qed.
Lemma op_lift_err {S E A B} e (k : A → op S E B) s : (op_lift (Err e) ≫= k) s = (Err e, s).
Proof. done. Qed.
Lemma op_ret_run {S E A} (a : A) (s : S) : (mret a : op S E A) s = (Ok a, s).
Proof. done. Qed.
Lemma op_fail_run {S E A} (e : E) (s : S) : (op_fail e : op S E A) s = (Err e, s).
Proof. done. Qed.
Lemma op_bind_assoc {S E A B C} (m : op S E A) (k : A → op S E B) (h : B → op S E C) s :
  ((m ≫= k) ≫= h) s = (m ≫= λ a, k a ≫= h) s.
Proof. unfold mbind, op_bind. by destruct (m s) as [[a|e] s']. Qed.
Lemma op_ret_bind {S E A B} (a : A) (k : A → op S E B) s : (mret a ≫= k) s = k a s.
Proof. done. Qed.
Lemma op_ok_bind {S E A B} (m : op S E A) (k : A → op S E B) s s' a :
  m s = (Ok a, s') → (m ≫= k) s = k a s'.
Proof. intros Hm. unfold mbind, op_bind. by rewrite Hm. Qed.
Lemma op_err_bind {S E A B} (m : op S E A) (k : A → op S E B) s s' e :
  m s = (Err e, s') → (m ≫= k) s = (Err e, s').
Proof. intros Hm. unfold mbind, op_bind. by rewrite Hm. Qed.
Lemma op_bind_inv {S E A B} (m : op S E A) (k : A → op S E B) s s' b :
  (m ≫= k) s = (Ok b, s') → ∃ a s1, m s = (Ok a, s1) ∧ k a s1 = (Ok b, s').
Proof. unfold mbind, op_bind. destruct (m s) as [[a|e] s1]; [|done]. eauto. Qed.
Lemma op_lift_inv {S E A B} (r : result E A) (k : A → op S E B) s s' b :
  (op_lift r ≫= k) s = (Ok b, s') → ∃ a, r = Ok a ∧ k a s = (Ok b, s').
Proof. destruct r; [|done]. eauto. Qed.
Lemma op_map_err_ok {S E F A} (f : E → F) (o : op S E A) s s' a : o s = (Ok a, s') → op_map_err f o s = (Ok a, s').
Proof. intros Ho. unfold op_map_err. by rewrite Ho. Qed.
Lemma op_map_err_err {S E F A} (f : E → F) (o : op S E A) s s' e : o s = (Err e, s') → op_map_err f o s = (Err (f e), s').
Proof. intros Ho. unfold op_map_err. by rewrite Ho. Qed.
#[export] Hint Rewrite @op_ret_bind @op_get_bind @op_modify_bind @op_fail_bind @op_lift_ok @op_lift_err
  @op_ret_run @op_fail_run : op.

(** [keeps I o]: running [o] preserves [I], whether it succeeds or fails. *)
Definition keeps {S E A} (I : S → Prop) (o : op S E A) : Prop := ∀ s, I s → I (o s).2.

Create HintDb keeps.

Lemma keeps_ret {S E A} (I : S → Prop) (a : A) : keeps I (mret a : op S E A).
Proof. by intros s Hs. Qed.
Lemma keeps_fail {S E A} (I : S → Prop) (e : E) : keeps I (op_fail e : op S E A).
Proof. by intros s Hs. Qed.
Lemma keeps_lift {S E A} (I : S → Prop) (r : result E A) : keeps I (op_lift r : op S E A).
Proof. by intros s Hs. Qed.
Lemma keeps_get {S E} (I : S → Prop) : keeps I (op_get : op S E S).
Proof. by intros s Hs. Qed.
Lemma keeps_modify {S E} (I : S → Prop) f : (∀ s, I s → I (f s)) → keeps I (op_modify f : op S E ()).
Proof. intros Hf s Hs. by apply Hf. Qed.
Lemma keeps_bind {S E A B} (I : S → Prop) (m : op S E A) (k : A → op S E B) :
  keeps I m → (∀ a, keeps I (k a)) → keeps I (m ≫= k).
Proof.
  intros Hm Hk s Hs. specialize (Hm s Hs). unfold mbind, op_bind.
  destruct (m s) as [[a|e] s']; [by apply Hk|done].
Qed.
Lemma keeps_get_bind {S E B} (I : S → Prop) (k : S → op S E B) :
  (∀ s, I s → I (k s s).2) → keeps I (op_get ≫= k).
Proof. intros Hk s Hs. by apply Hk. Qed.
#[export] Hint Resolve keeps_ret keeps_fail keeps_lift keeps_get : keeps.

(** A triple of an operation: what holds of the state when it succeeds and
    when it fails. *)
Definition hoare {S E A} (P : S → Prop) (o : op S E A) (Q : A → S → Prop) (F : E → S → Prop) : Prop :=
  ∀ s, P s → match o s with (Ok a, s') => Q a s' | (Err e, s') => F e s' end.

Create HintDb hoare.

Section Hoare.
Context {S E : Type}.
Implicit Type P : S → Prop.
Implicit Type F : E → S → Prop.

Lemma hoare_ret {A} P (a : A) Q F : (∀ s, P s → Q a s) → hoare P (mret a : op S E A) Q F.
Proof. intros H s Hs. by apply H. Qed.
Lemma hoare_fail {A} P e (Q : A → S → Prop) F : (∀ s, P s → F e s) → hoare P (op_fail e) Q F.
Proof. intros H s Hs. by apply H. Qed.
Lemma hoare_lift {A} P (r : result E A) Q F :
  (∀ s, P s → match r with Ok a => Q a s | Err e => F e s end) → hoare P (op_lift r) Q F.
Proof. intros H s Hs. specialize (H s Hs). by destruct r. Qed.
Lemma hoare_modify P f (Q : () → S → Prop) F : (∀ s, P s → Q () (f s)) → hoare P (op_modify f) Q F.
Proof. intros H s Hs. by apply H. Qed.
Lemma hoare_bind {A B} P (m : op S E A) (k : A → op S E B) R Q F :
  hoare P m R F → (∀ a, hoare (R a) (k a) Q F) → hoare P (m ≫= k) Q F.
Proof.
  intros Hm Hk s Hs. unfold mbind, op_bind. specialize (Hm s Hs). destruct (m s) as [[a|e] s'].
  - by apply Hk.
  - done.
Qed.
Lemma hoare_get_bind {B} P (k : S → op S E B) Q F :
  (∀ x, P x → hoare (λ s, s = x) (k x) Q F) → hoare P (op_get ≫= k) Q F.
Proof. intros Hk s Hs. by apply (Hk s Hs). Qed.
Lemma hoare_lift_ok {A B} P (a : A) (k : A → op S E B) Q F : hoare P (k a) Q F → hoare P (op_lift (Ok a) ≫= k) Q F.
Proof. done. Qed.
Lemma hoare_lift_err {A B} P e (k : A → op S E B) Q F : (∀ s, P s → F e s) → hoare P (op_lift (Err e) ≫= k) Q F.
Proof. intros H s Hs. by apply H. Qed.
Lemma hoare_ret_bind {A B} P (a : A) (k : A → op S E B) Q F : hoare P (k a) Q F → hoare P (mret a ≫= k) Q F.
Proof. done. Qed.
Lemma hoare_weaken {A} (P P' : S → Prop) (o : op S E A) (Q Q' : A → S → Prop) (F F' : E → S → Prop) :
  hoare P' o Q' F' → (∀ s, P s → P' s) → (∀ a s, Q' a s → Q a s) → (∀ e s, F' e s → F e s) → hoare P o Q F.
Proof.
  intros Ho HP HQ HF s Hs. specialize (Ho s (HP s Hs)). destruct (o s) as [[a|e] s']; auto.
Qed.
Lemma hoare_pre {A} (P P' : S → Prop) (o : op S E A) Q F :
  hoare P' o Q F → (∀ s, P s → P' s) → hoare P o Q F.
Proof. intros Ho HP. by eapply hoare_weaken. Qed.
End Hoare.

(** A sequence of operations run for their effect on the state. *)
Fixpoint run_ops {S E A} (ops : list (op S E A)) (s : S) : list (result E A) * S :=
  match ops with
  | [] => ([], s)
  | o :: ops' =>
    let '(r, s') := o s in
    let '(rs, s'') := run_ops ops' s' in (r :: rs, s'')
  end.

(** [?] inside a loop: run [f] on each element, stop at the first error. *)
Fixpoint op_iter {S E A} (f : A → op S E ()) (l : list A) : op S E () :=
  match l with
  | [] => mret ()
  | a :: l' => f a ≫= λ _, op_iter f l'
  end.

Lemma keeps_iter {S E A} (I : S → Prop) (f : A → op S E ()) l :
  (∀ a, a ∈ l → keeps I (f a)) → keeps I (op_iter f l).
Proof.
  induction l as [|a l IH]; intros Hf; simpl; [apply keeps_ret|].
  apply keeps_bind; [apply Hf; by left|]. intros _. apply IH. intros b Hb. apply Hf. by right.
Qed.

(** ** Machine integers

    Unsigned integers are [N] with the width's maximum written where the
    code can reach it. *)

Definition u8_max : N := 255.
Definition u16_max : N := 65535.
Definition u32_max : N := 4294967295.
Definition u64_max : N := 18446744073709551615.
Definition u128_max : N := 340282366920938463463374607431768211455.

Definition sat_add (width_max a b : N) : N := N.min (a + b) width_max.
Definition sat_mul (width_max a b : N) : N := N.min (a * b) width_max.
(** [N.sub] is already saturating at zero, as [saturating_sub]. *)
Definition checked_add (width_max a b : N) : option N :=
  if (a + b <=? width_max)%N then Some (a + b)%N else None.

Abbreviation sat_add64 := (sat_add u64_max).
Abbreviation sat_add32 := (sat_add u32_max).
Abbreviation checked_add64 := (checked_add u64_max).

(** Collection sizes as [N]. *)
Abbreviation lenN l := (N.of_nat (length l)).
Abbreviation sizeN m := (N.of_nat (size m)).

Lemma sat_add_le_max w a b : (sat_add w a b ≤ w)%N.
Proof. unfold sat_add; lia. Qed.
Lemma sat_add_spec w a b :
  (a + b ≤ w)%N → sat_add w a b = (a + b)%N.
Proof. unfold sat_add; lia. Qed.
Lemma checked_add_Some w a b c :
  checked_add w a b = Some c ↔ c = (a + b)%N ∧ (a + b ≤ w)%N.
Proof.
  unfold checked_add. destruct (N.leb_spec (a + b) w); split; intros;
    destruct_and?; simplify_eq; try lia; auto.
Qed.
Lemma checked_add_None w a b :
  checked_add w a b = None ↔ (w < a + b)%N.
Proof.
  unfold checked_add. destruct (N.leb_spec (a + b) w); split; intros;
    simplify_eq; try lia; auto.
Qed.

(** ** Bytes and big-endian integers *)

Definition byte_of_N (n : N) : byte := default x00 (Byte.of_N (n `mod` 256)).

Lemma to_N_byte_of_N n : Byte.to_N (byte_of_N n) = (n `mod` 256)%N.
Proof.
  unfold byte_of_N. pose proof (N.mod_upper_bound n 256).
  pose proof (Byte.to_of_N_option_map (n `mod` 256)) as Hm.
  destruct (Byte.of_N (n `mod` 256)) eqn:E; simpl in *.
  - by apply Byte.to_of_N in E.
  - destruct (N.leb_spec (n `mod` 256) 255); [done | lia].
Qed.

Lemma byte_of_N_to_N b : byte_of_N (Byte.to_N b) = b.
Proof.
  unfold byte_of_N. pose proof (Byte.to_N_bounded b).
  rewrite N.mod_small by lia. by rewrite Byte.of_to_N.
Qed.

#[export] Instance byte_eq_dec : EqDecision byte := Byte.byte_eq_dec.

(** [n.to_be_bytes()] for an integer of [k] bytes. *)
Fixpoint be_bytes (k : nat) (n : N) : list byte :=
  match k with
  | O => []
  | S k' => byte_of_N (n / 256 ^ N.of_nat k')%N :: be_bytes k' n
  end.

(** [from_be_bytes]. *)
Fixpoint from_be_aux (acc : N) (l : list byte) : N :=
  match l with
  | [] => acc
  | b :: l' => from_be_aux (acc * 256 + Byte.to_N b) l'
  end.
Definition from_be (l : list byte) : N := from_be_aux 0 l.

(** [n.to_le_bytes()]. *)
Fixpoint le_bytes (k : nat) (n : N) : list byte :=
  match k with
  | O => []
  | S k' => byte_of_N n :: le_bytes k' (n / 256)
  end.

(** [from_le_bytes]. *)
Fixpoint from_le (l : list byte) : N :=
  match l with
  | [] => 0
  | b :: l' => Byte.to_N b + 256 * from_le l'
  end.

Lemma length_be_bytes k n : length (be_bytes k n) = k.
Proof. induction k; simpl; congruence. Qed.

Lemma length_le_bytes k n : length (le_bytes k n) = k.
Proof. revert n; induction k; intros; simpl; by rewrite ?IHk. Qed.

Lemma be_bytes_mod j m n :
  j ≤ m → be_bytes j (n `mod` 256 ^ N.of_nat m) = be_bytes j n.
Proof.
  revert m n. induction j as [|j IHj]; intros m n Hj; simpl; [done|].
  rewrite IHj by lia. f_equal.
  assert (256 ^ N.of_nat m =
    256 ^ N.of_nat j * (256 * 256 ^ N.of_nat (m - S j)))%N as ->.
  { rewrite <- N.pow_succ_r', <- N.pow_add_r. f_equal. lia. }
  set (q := (256 ^ N.of_nat j)%N).
  assert (q ≠ 0)%N by (apply N.pow_nonzero; lia).
  rewrite N.Div0.mod_mul_r, (N.mul_comm q), N.div_add by lia.
  rewrite (N.div_small (n `mod` q)) by (apply N.mod_upper_bound; lia).
  unfold byte_of_N. rewrite N.add_0_l, N.Div0.mod_mul_r.
  by rewrite (N.mul_comm 256), N.Div0.mod_add, N.Div0.mod_mod.
Qed.

Lemma from_be_aux_be_bytes k n acc :
  (n < 256 ^ N.of_nat k)%N →
  from_be_aux acc (be_bytes k n) = (acc * 256 ^ N.of_nat k + n)%N.
Proof.
  revert acc n. induction k as [|k IH]; intros acc n Hn; simpl.
  - simpl in Hn. lia.
  - rewrite Nat2N.inj_succ, N.pow_succ_r' in *.
    set (p := (256 ^ N.of_nat k)%N) in *.
    assert (p ≠ 0)%N by (apply N.pow_nonzero; lia).
    rewrite <- (be_bytes_mod k k n) by done. fold p.
    rewrite IH by (apply N.mod_upper_bound; lia).
    rewrite to_N_byte_of_N.
    rewrite (N.mod_small (n / p)) by (apply N.Div0.div_lt_upper_bound; lia).
    pose proof (N.div_mod' n p). lia.
Qed.

Lemma from_be_be_bytes k n :
  (n < 256 ^ N.of_nat k)%N → from_be (be_bytes k n) = n.
Proof. intros. unfold from_be. rewrite from_be_aux_be_bytes; lia. Qed.

Lemma be_bytes_inj k n m :
  (n < 256 ^ N.of_nat k)%N → (m < 256 ^ N.of_nat k)%N →
  be_bytes k n = be_bytes k m → n = m.
Proof.
  intros Hn Hm E. rewrite <- (from_be_be_bytes k n), <- (from_be_be_bytes k m); congruence.
Qed.

Lemma from_le_le_bytes k n :
  (n < 256 ^ N.of_nat k)%N → from_le (le_bytes k n) = n.
Proof.
  revert n. induction k as [|k IH]; intros n Hn; simpl.
  - simpl in Hn. lia.
  - rewrite Nat2N.inj_succ, N.pow_succ_r' in Hn.
    rewrite IH by (apply N.Div0.div_lt_upper_bound; lia).
    rewrite to_N_byte_of_N. pose proof (N.div_mod' n 256). lia.
Qed.

(** ** Finite maps and lists *)

Lemma map_size_delete_le `{Countable K} {A} (k : K) (m : gmap K A) :
  size (delete k m) ≤ size m.
Proof. apply map_subseteq_size, delete_subseteq. Qed.

(** ** Ordered maps

    A [BTreeMap] is its [gmap] where only lookups matter; where the code
    iterates, it is the list of its entries by increasing key. *)

Definition key_le {A} (a b : string * A) : Prop := String.le a.1 b.1.
#[export] Instance key_le_dec {A} : RelDecision (@key_le A).
Proof. intros a b. unfold key_le. apply _. Defined.
#[export] Instance key_le_total {A} : Total (@key_le A).
Proof. intros a b. apply (total String.le). Qed.
#[export] Instance key_le_trans {A} : Transitive (@key_le A).
Proof. intros a b c. unfold key_le. apply transitivity. Qed.

Definition btree_iter {A} (m : gmap string A) : list (string * A) :=
  merge_sort key_le (map_to_list m).

Lemma btree_iter_perm {A} (m : gmap string A) : btree_iter m ≡ₚ map_to_list m.
Proof. apply merge_sort_Permutation. Qed.
Lemma btree_iter_elem {A} (m : gmap string A) k a : (k, a) ∈ btree_iter m ↔ m !! k = Some a.
Proof. by rewrite btree_iter_perm, elem_of_map_to_list. Qed.
Lemma btree_iter_sorted {A} (m : gmap string A) : StronglySorted key_le (btree_iter m).
Proof. apply StronglySorted_merge_sort; apply _. Qed.
Lemma btree_iter_nodup {A} (m : gmap string A) : NoDup (btree_iter m).*1.
Proof. rewrite btree_iter_perm. apply NoDup_fst_map_to_list. Qed.
#[export] Hint Rewrite @btree_iter_elem : maps.

(** A [BTreeSet<String>], iterated. *)
Definition btree_elements (s : gset string) : list string := merge_sort String.le (elements s).
Lemma btree_elements_elem (s : gset string) x : x ∈ btree_elements s ↔ x ∈ s.
Proof. unfold btree_elements. by rewrite merge_sort_Permutation, elem_of_elements. Qed.
#[export] Hint Rewrite btree_elements_elem : maps.

(** Splitting an equation of [cons]es without reducing its parts. *)
Lemma cons_eq_inv {A} (a b : A) l m : a :: l = b :: m → a = b ∧ l = m.
Proof. by intros [= -> ->]. Qed.

(** Values of the Rust integer types fit their byte encodings. *)
Lemma u16_fits n : (n ≤ u16_max → n < 256 ^ N.of_nat 2)%N.
Proof.
  assert (256 ^ N.of_nat 2 = u16_max + 1)%N as -> by (vm_compute; reflexivity). lia.
Qed.
Lemma u64_fits n : (n ≤ u64_max → n < 256 ^ N.of_nat 8)%N.
Proof.
  assert (256 ^ N.of_nat 8 = u64_max + 1)%N as -> by (vm_compute; reflexivity). lia.
Qed.

(** A sum over the values of a map. *)
Definition map_total `{Countable K} {A} (f : A → N) (m : gmap K A) : N := map_fold (λ _ a total, f a + total)%N 0%N m.

Lemma map_total_fresh `{Countable K} {A} (f : A → N) (m : gmap K A) k a :
  m !! k = None → map_total f (<[k := a]> m) = (f a + map_total f m)%N.
Proof.
  intros Hk. unfold map_total. rewrite (map_fold_insert_L (λ _ a total, f a + total)%N); [done|lia|done].
Qed.
Lemma map_total_delete `{Countable K} {A} (f : A → N) (m : gmap K A) k a :
  m !! k = Some a → map_total f m = (f a + map_total f (delete k m))%N.
Proof.
  intros Hk. rewrite <- (map_total_fresh f (delete k m) k a) by apply lookup_delete_eq. by rewrite insert_delete_id.
Qed.
Lemma map_total_insert `{Countable K} {A} (f : A → N) (m : gmap K A) k a :
  (map_total f (<[k := a]> m) + default 0 (f <$> m !! k) = map_total f m + f a)%N.
Proof.
  destruct (m !! k) as [b|] eqn:Hk; cbn.
  - rewrite (map_total_delete f m k b Hk), <- insert_delete_eq.
    rewrite map_total_fresh by apply lookup_delete_eq. lia.
  - rewrite map_total_fresh by done. lia.
Qed.
Lemma map_total_replace `{Countable K} {A} (f : A → N) (m : gmap K A) k a b :
  m !! k = Some b → f a = f b → map_total f (<[k := a]> m) = map_total f m.
Proof. intros Hk Hf. pose proof (map_total_insert f m k a) as Ht. rewrite Hk in Ht. cbn in Ht. lia. Qed.
Lemma map_total_alter `{Countable K} {A} (f : A → N) (g : A → A) (m : gmap K A) k :
  (∀ a, f (g a) = f a) → map_total f (alter g k m) = map_total f m.
Proof.
  intros Hg. destruct (m !! k) as [a|] eqn:Hk.
  - assert (alter g k m = <[k := g a]> m) as ->.
    { apply map_eq. intros j. destruct (decide (j = k)) as [->|];
        [by rewrite lookup_alter_eq, lookup_insert_eq, Hk|by rewrite lookup_alter_ne, lookup_insert_ne]. }
    by apply map_total_replace with a.
  - assert (alter g k m = m) as ->; [|done]. apply map_eq. intros j. destruct (decide (j = k)) as [->|];
      [by rewrite lookup_alter_eq, Hk|by rewrite lookup_alter_ne].
Qed.
Lemma map_total_le `{Countable K} {A} (f g : A → N) (m : gmap K A) :
  (∀ a, f a ≤ g a)%N → (map_total f m ≤ map_total g m)%N.
Proof.
  intros Hle. induction m as [|k a m Hk IH] using map_ind; [unfold map_total; by rewrite !map_fold_empty|].
  rewrite !map_total_fresh by done. pose proof (Hle a). lia.
Qed.
