(* ===== verification/Text.v ===== *)
(** Text handling of the Rust standard library that the stores rely on:
    [str::lines], [split_once], [u64] printing and parsing, UTF-8 validity. *)

From S2P Require Import Prelude.
From Stdlib Require Import DecimalString DecimalN DecimalFacts.

Local Open Scope N_scope.

Definition LF : ascii := "010".
Definition CR : ascii := "013".

(** [s.split_once(c)]: at the first occurrence. *)
Fixpoint split_once (c : ascii) (s : string) : option (string * string) :=
  match s with
  | EmptyString => None
  | String x s' =>
    if bool_decide (x = c) then Some (EmptyString, s')
    else '(k, v) ← split_once c s'; Some (String x k, v)
  end.

(** [s.split(c)]: never empty. *)
Fixpoint split_on (c : ascii) (s : string) : list string :=
  match s with
  | EmptyString => [EmptyString]
  | String x s' =>
    if bool_decide (x = c) then EmptyString :: split_on c s'
    else match split_on c s' with
         | [] => [String x EmptyString]
         | p :: ps => String x p :: ps
         end
  end.

(** A line loses one trailing carriage return. *)
Fixpoint strip_cr (s : string) : string :=
  match s with
  | EmptyString => EmptyString
  | String x EmptyString => if bool_decide (x = CR) then EmptyString else s
  | String x s' => String x (strip_cr s')
  end.

(** [s.lines()]: the pieces between line feeds, without a last empty one. *)
Fixpoint drop_last_empty (l : list string) : list string :=
  match l with
  | [] => []
  | [s] => if bool_decide (s = EmptyString) then [] else [s]
  | s :: l' => s :: drop_last_empty l'
  end.
Definition lines (s : string) : list string := map strip_cr (drop_last_empty (split_on LF s)).

(** [u64] in decimal: [Display], and [parse] with its optional plus sign,
    leading zeros and overflow check. *)
Definition show_u64 (n : N) : string := NilEmpty.string_of_uint (N.to_uint n).

Definition parse_u64 (s : string) : option N :=
  let digits := match s with String "+" s' => s' | _ => s end in
  match digits with
  | EmptyString => None
  | _ =>
    d ← NilEmpty.uint_of_string digits;
    let n := N.of_uint d in
    if n <=? u64_max then Some n else None
  end.

(** [str::from_utf8]: well-formed UTF-8, the standard's byte ranges. *)
Definition cont (lo hi : N) (b : ascii) : bool :=
  (lo <=? Ascii.N_of_ascii b) && (Ascii.N_of_ascii b <=? hi).
Fixpoint utf8_valid (s : string) : bool :=
  match s with
  | EmptyString => true
  | String a s1 =>
    let c := Ascii.N_of_ascii a in
    if c <? 128 then utf8_valid s1
    else if (194 <=? c) && (c <=? 223) then
      match s1 with String b s2 => cont 128 191 b && utf8_valid s2 | _ => false end
    else if (224 <=? c) && (c <=? 239) then
      match s1 with
      | String b (String d s3) =>
        cont (if c =? 224 then 160 else 128) (if c =? 237 then 159 else 191) b
        && cont 128 191 d && utf8_valid s3
      | _ => false
      end
    else if (240 <=? c) && (c <=? 244) then
      match s1 with
      | String b (String d (String e s4)) =>
        cont (if c =? 240 then 144 else 128) (if c =? 244 then 143 else 191) b
        && cont 128 191 d && cont 128 191 e && utf8_valid s4
      | _ => false
      end
    else false
  end.

(** The text up to its last line feed, and what follows it. *)
Fixpoint split_last_line (s : string) : string * string :=
  match s with
  | EmptyString => (EmptyString, EmptyString)
  | String c s' =>
    match split_last_line s' with
    | (EmptyString, b) =>
      if bool_decide (c = LF) then (String c EmptyString, b) else (EmptyString, String c b)
    | (a, b) => (String c a, b)
    end
  end.

(** [char::is_whitespace]: the ASCII characters, and the UTF-8 encodings of
    U+0085 and U+00A0, then of U+1680, U+2000..U+200A, U+2028, U+2029, U+202F,
    U+205F and U+3000. *)
Definition white1 (a : ascii) : bool := cont 9 13 a || bool_decide (a = " "%char).
Definition white2 (a b : ascii) : bool :=
  bool_decide (a = "194"%char) && (bool_decide (b = "133"%char) || bool_decide (b = "160"%char)).
Definition white3 (a b c : ascii) : bool :=
  bool_decide ((a, b, c) = ("225", "154", "128")%char) ||
  (bool_decide ((a, b) = ("226", "128")%char) &&
     (cont 128 138 c || bool_decide (c ∈ ["168"; "169"; "175"]%char))) ||
  bool_decide ((a, b, c) = ("226", "129", "159")%char) ||
  bool_decide ((a, b, c) = ("227", "128", "128")%char).

(** [trim_start], [trim_end] and [trim]. *)
Fixpoint trim_start (s : string) : string :=
  match s with
  | EmptyString => s
  | String a s1 =>
    if white1 a then trim_start s1
    else match s1 with
         | EmptyString => s
         | String b s2 =>
           if white2 a b then trim_start s2
           else match s2 with
                | EmptyString => s
                | String c s3 => if white3 a b c then trim_start s3 else s
                end
         end
  end.
Fixpoint trim_end (s : string) : string :=
  match s with
  | EmptyString => s
  | String c s' =>
    if bool_decide (trim_start s = EmptyString) then EmptyString else String c (trim_end s')
  end.
Definition trim (s : string) : string := trim_end (trim_start s).

(** ** Lemmas *)

(** The character [c] does not occur in [s]. *)
Fixpoint str_free (c : ascii) (s : string) : Prop :=
  match s with
  | EmptyString => True
  | String x s' => x ≠ c ∧ str_free c s'
  end.

Definition ascii_byte (a : ascii) : Prop := Ascii.N_of_ascii a < 128.
Fixpoint str_ascii (s : string) : Prop :=
  match s with
  | EmptyString => True
  | String x s' => ascii_byte x ∧ str_ascii s'
  end.

Lemma string_app_cons x s t : String x s +:+ t = String x (s +:+ t).
Proof. done. Qed.
Lemma string_app_nil t : EmptyString +:+ t = t.
Proof. done. Qed.
Lemma string_app_assoc (s t u : string) : (s +:+ t) +:+ u = s +:+ (t +:+ u).
Proof. induction s as [|x s IH]; [done|]. by rewrite !string_app_cons, IH. Qed.
Lemma string_app_empty_r s : s +:+ EmptyString = s.
Proof. induction s as [|x s IH]; [done|]. by rewrite string_app_cons, IH. Qed.
#[export] Hint Rewrite string_app_cons string_app_nil string_app_assoc : text.

Lemma str_free_app c s t : str_free c (s +:+ t) ↔ str_free c s ∧ str_free c t.
Proof. induction s as [|x s IH]; [naive_solver|]. rewrite string_app_cons. simpl. naive_solver. Qed.
Lemma str_ascii_app s t : str_ascii (s +:+ t) ↔ str_ascii s ∧ str_ascii t.
Proof. induction s as [|x s IH]; [naive_solver|]. rewrite string_app_cons. simpl. naive_solver. Qed.

Lemma split_once_app c k v :
  str_free c k → split_once c (k +:+ String c v) = Some (k, v).
Proof.
  induction k as [|x k IH]; intros Hk.
  - rewrite string_app_nil. simpl. by rewrite bool_decide_eq_true_2.
  - rewrite string_app_cons. destruct Hk as [Hx Hk]. simpl.
    by rewrite bool_decide_eq_false_2, IH.
Qed.

Lemma split_on_free c s : str_free c s → split_on c s = [s].
Proof.
  induction s as [|x s IH]; intros Hs; [done|]. destruct Hs as [Hx Hs].
  simpl. by rewrite bool_decide_eq_false_2, IH.
Qed.

Lemma split_on_app c s t :
  str_free c s → split_on c (s +:+ String c t) = s :: split_on c t.
Proof.
  induction s as [|x s IH]; intros Hs.
  - rewrite string_app_nil. simpl. by rewrite bool_decide_eq_true_2.
  - rewrite string_app_cons. destruct Hs as [Hx Hs]. simpl.
    by rewrite bool_decide_eq_false_2, IH.
Qed.

Lemma split_on_not_nil c s : split_on c s ≠ [].
Proof. destruct s as [|x s]; simpl; [done|]. repeat case_match; done. Qed.

Lemma strip_cr_free s : str_free CR s → strip_cr s = s.
Proof.
  induction s as [|x s IH]; intros Hs; [done|]. destruct Hs as [Hx Hs]. simpl.
  destruct s as [|y s]; [by rewrite bool_decide_eq_false_2|]. by rewrite IH.
Qed.

Lemma drop_last_empty_cons s l : l ≠ [] → drop_last_empty (s :: l) = s :: drop_last_empty l.
Proof. by destruct l. Qed.

Lemma lines_nil : lines EmptyString = [].
Proof. done. Qed.

(** A line followed by its line feed. *)
Lemma lines_cons s t :
  str_free LF s → str_free CR s → lines (s +:+ String LF t) = s :: lines t.
Proof.
  intros Hlf Hcr. unfold lines. rewrite split_on_app by done.
  rewrite drop_last_empty_cons by apply split_on_not_nil.
  simpl. by rewrite strip_cr_free.
Qed.

Definition digit_char (c : ascii) : Prop := 48 ≤ Ascii.N_of_ascii c ∧ Ascii.N_of_ascii c ≤ 57.
Fixpoint str_digits (s : string) : Prop :=
  match s with
  | EmptyString => True
  | String x s' => digit_char x ∧ str_digits s'
  end.

Lemma string_of_uint_digits d : str_digits (NilEmpty.string_of_uint d).
Proof. induction d; simpl; [done|..]; (split; [vm_compute; split; discriminate|done]). Qed.
Lemma show_u64_digits n : str_digits (show_u64 n).
Proof. apply string_of_uint_digits. Qed.
Lemma str_digits_free c s :
  str_digits s → (Ascii.N_of_ascii c < 48 ∨ 57 < Ascii.N_of_ascii c) → str_free c s.
Proof.
  induction s as [|x s IH]; [done|]. intros [[H1 H2] Hs] Hc. split; [|by apply IH].
  intros ->. lia.
Qed.

Lemma N_to_uint_not_nil n : N.to_uint n ≠ Decimal.Nil.
Proof.
  intros H. pose proof (Unsigned.of_to n) as Hof. rewrite H in Hof.
  assert (n = 0) as -> by (by rewrite <- Hof). discriminate.
Qed.

Lemma parse_show_u64 n : n ≤ u64_max → parse_u64 (show_u64 n) = Some n.
Proof.
  intros Hn. unfold parse_u64. pose proof (show_u64_digits n) as Hd.
  assert (Hs : NilEmpty.uint_of_string (show_u64 n) = Some (N.to_uint n))
    by apply NilEmpty.usu.
  destruct (show_u64 n) as [|x s] eqn:E.
  { unfold show_u64 in E. pose proof (N_to_uint_not_nil n). by destruct (N.to_uint n). }
  assert (x ≠ "+"%char) as Hx by (intros ->; destruct Hd as [[H48 _] _]; clear -H48; vm_compute in H48; done).
  assert ((match String x s with String "+" s' => s' | _ => String x s end) = String x s) as ->.
  { clear -Hx. destruct x as [[] [] [] [] [] [] [] []]; done. }
  rewrite Hs. simpl. rewrite Unsigned.of_to. by rewrite (proj2 (N.leb_le _ _)).
Qed.

Lemma utf8_valid_ascii s : str_ascii s → utf8_valid s = true.
Proof.
  induction s as [|x s IH]; [done|]. intros [Hx Hs]. simpl.
  rewrite (proj2 (N.ltb_lt _ _)) by done. auto.
Qed.

(** A [u64] prints in at most 64 digits (a bound by bits is enough here). *)
Lemma little_double_digits d :
  (Decimal.nb_digits (Decimal.Little.double d) ≤ S (Decimal.nb_digits d) ∧
   Decimal.nb_digits (Decimal.Little.succ_double d) ≤ S (Decimal.nb_digits d))%nat.
Proof. induction d; simpl; lia. Qed.

Lemma to_little_uint_digits p :
  (Decimal.nb_digits (Pos.to_little_uint p) ≤ Pos.size_nat p)%nat.
Proof.
  induction p; simpl; [..|lia]; pose proof (little_double_digits (Pos.to_little_uint p)); lia.
Qed.

Lemma string_of_uint_length d :
  String.length (NilEmpty.string_of_uint d) = Decimal.nb_digits d.
Proof. induction d; simpl; congruence. Qed.

Lemma size_nat_pow p : 2 ^ N.of_nat (Pos.size_nat p) ≤ 2 * N.pos p.
Proof.
  induction p as [p IH|p IH|]; cbn [Pos.size_nat]; [..|done];
    rewrite Nat2N.inj_succ, N.pow_succ_r'; lia.
Qed.

Lemma size_nat_u64 p : N.pos p ≤ u64_max → N.of_nat (Pos.size_nat p) ≤ 64.
Proof.
  intros Hp. pose proof (size_nat_pow p) as Hs.
  assert (Hm : 2 * u64_max < 2 ^ 65) by (vm_compute; reflexivity).
  assert (Hlt : 2 ^ N.of_nat (Pos.size_nat p) < 2 ^ 65).
  { eapply N.le_lt_trans; [exact Hs|]. eapply N.le_lt_trans; [|exact Hm].
    by apply N.mul_le_mono_l. }
  apply N.pow_lt_mono_r_iff in Hlt; lia.
Qed.

Lemma show_u64_length n : n ≤ u64_max → N.of_nat (String.length (show_u64 n)) ≤ 64.
Proof.
  intros Hn. unfold show_u64. rewrite string_of_uint_length.
  destruct n as [|p]; [vm_compute; discriminate|]. cbn [N.to_uint].
  unfold Pos.to_uint. rewrite nb_digits_rev.
  pose proof (to_little_uint_digits p). pose proof (size_nat_u64 p Hn). lia.
Qed.

Lemma string_length_app (s t : string) :
  String.length (s +:+ t) = (String.length s + String.length t)%nat.
Proof. induction s as [|x s IH]; [done|]. rewrite string_app_cons. simpl. by rewrite IH. Qed.

(** ** Slices, search, case *)

Fixpoint str_take (n : nat) (s : string) : string :=
  match n, s with
  | S n', String c s' => String c (str_take n' s')
  | _, _ => EmptyString
  end.
Fixpoint str_drop (n : nat) (s : string) : string :=
  match n, s with
  | S n', String _ s' => str_drop n' s'
  | _, _ => s
  end.
Fixpoint str_prefix (p s : string) : bool :=
  match p, s with
  | EmptyString, _ => true
  | String a p', String b s' => bool_decide (a = b) && str_prefix p' s'
  | _, _ => false
  end.

(** [strip_prefix]. *)
Definition strip_prefix (p s : string) : option string :=
  if str_prefix p s then Some (str_drop (String.length p) s) else None.

(** [s.find(p)]: the offset of the first occurrence. *)
Fixpoint str_find (p s : string) : option nat :=
  if str_prefix p s then Some 0%nat
  else match s with
       | EmptyString => None
       | String _ s' => S <$> str_find p s'
       end.

Fixpoint str_map (f : ascii → ascii) (s : string) : string :=
  match s with
  | EmptyString => EmptyString
  | String c s' => String (f c) (str_map f s')
  end.

(** [to_ascii_lowercase]: other bytes are kept. *)
Definition lower_byte (c : ascii) : ascii :=
  let n := Ascii.N_of_ascii c in
  if (65 <=? n) && (n <=? 90) then Ascii.ascii_of_N (n + 32) else c.
Definition to_ascii_lowercase (s : string) : string := str_map lower_byte s.

Lemma str_take_drop n s : str_take n s +:+ str_drop n s = s.
Proof. revert s. induction n as [|n IH]; intros [|c s]; try done. simpl. by rewrite string_app_cons, IH. Qed.
Lemma str_take_app s t : str_take (String.length s) (s +:+ t) = s.
Proof. induction s as [|c s IH]; [done|]. simpl. by rewrite IH. Qed.
Lemma str_take_app_le n s t :
  (n ≤ String.length s)%nat → str_take n (s +:+ t) = str_take n s.
Proof.
  revert n. induction s as [|x s IH]; intros n Hn; simpl in Hn.
  - replace n with 0%nat by lia. by destruct t.
  - rewrite string_app_cons. destruct n as [|n]; [done|]. simpl. by rewrite IH by lia.
Qed.
Lemma str_drop_app s t : str_drop (String.length s) (s +:+ t) = t.
Proof. by induction s. Qed.
Lemma str_length_take n s : String.length (str_take n s) = (n `min` String.length s)%nat.
Proof. revert s. induction n as [|n IH]; intros [|c s]; try done. simpl. by rewrite IH. Qed.
Lemma str_length_drop n s : String.length (str_drop n s) = (String.length s - n)%nat.
Proof. revert s. induction n as [|n IH]; intros [|c s]; try done. simpl. by rewrite IH. Qed.
Lemma str_length_map f s : String.length (str_map f s) = String.length s.
Proof. induction s; simpl; congruence. Qed.
Lemma str_drop_drop m n s : str_drop m (str_drop n s) = str_drop (n + m) s.
Proof. revert s. induction n as [|n IH]; intros [|c s]; try done; [by destruct m|]. simpl. apply IH. Qed.
Lemma str_drop_all n s : (String.length s ≤ n)%nat → str_drop n s = EmptyString.
Proof. revert s. induction n as [|n IH]; intros [|c s] Hn; try done; simpl in *; [lia|]. apply IH. lia. Qed.
Lemma str_take_all n s : (String.length s ≤ n)%nat → str_take n s = s.
Proof.
  revert s. induction n as [|n IH]; intros [|c s] Hn; try done; simpl in *; [lia|].
  rewrite IH; [done|lia].
Qed.

Lemma str_prefix_spec p s : str_prefix p s = true ↔ ∃ t, s = p +:+ t.
Proof.
  revert s. induction p as [|a p IH]; intros s; simpl.
  - split; [by exists s|done].
  - destruct s as [|b s]; [split; [done|by intros [t ?]]|].
    rewrite andb_true_iff, bool_decide_eq_true, IH. split.
    + intros [-> [t ->]]. by exists t.
    + intros [t [= -> ->]]. eauto.
Qed.

Lemma strip_prefix_app p s : strip_prefix p (p +:+ s) = Some s.
Proof.
  unfold strip_prefix. rewrite (proj2 (str_prefix_spec _ _)) by by exists s. by rewrite str_drop_app.
Qed.

Lemma str_find_le p s n : str_find p s = Some n → (n + String.length p ≤ String.length s)%nat.
Proof.
  revert n. induction s as [|c s IH]; intros n; cbn [str_find].
  - destruct p; simpl; [|done]. intros [= <-]. simpl. lia.
  - destruct (str_prefix p (String c s)) eqn:Hp.
    + intros [= <-]. apply str_prefix_spec in Hp as [t ->].
      change (p ++ t)%string with (p +:+ t). rewrite string_length_app. lia.
    + destruct (str_find p s) as [k|]; [|done]. intros [= <-]. specialize (IH k eq_refl). simpl. lia.
Qed.

(** [str_find] gives an occurrence, and there is none before it. *)
Lemma str_find_Some p s n :
  str_find p s = Some n →
  str_prefix p (str_drop n s) = true ∧ ∀ k, (k < n)%nat → str_prefix p (str_drop k s) = false.
Proof.
  revert n. induction s as [|c s IH]; intros n; cbn [str_find].
  - destruct (str_prefix p "") eqn:Hp; [|done]. intros [= <-]. split; [done|lia].
  - destruct (str_prefix p (String c s)) eqn:Hp; [intros [= <-]; split; [done|lia]|].
    destruct (str_find p s) as [k|]; [|done]. intros [= <-].
    destruct (IH k eq_refl) as [H1 H2]. split; [done|]. intros [|k'] Hk; [done|]. apply H2. lia.
Qed.
Lemma str_find_None p s : str_find p s = None → ∀ k, str_prefix p (str_drop k s) = false.
Proof.
  induction s as [|c s IH]; cbn [str_find].
  - destruct (str_prefix p "") eqn:Hp; [done|]. by intros _ [|].
  - destruct (str_prefix p (String c s)) eqn:Hp; [done|].
    destruct (str_find p s) as [k|]; [done|]. intros _ [|k]; [done|]. by apply IH.
Qed.

Lemma split_last_line_free s : str_free LF s → split_last_line s = (EmptyString, s).
Proof.
  induction s as [|c s IH]; [done|]. intros [Hc Hs]. simpl. rewrite IH by done.
  by rewrite bool_decide_eq_false_2.
Qed.
Lemma split_last_line_app s t :
  split_last_line (s +:+ String LF t) =
  (s +:+ String LF (split_last_line t).1, (split_last_line t).2).
Proof.
  induction s as [|c s IH].
  - rewrite !string_app_nil. cbn [split_last_line].
    by destruct (split_last_line t) as [[|? ?] b].
  - rewrite !string_app_cons. cbn [split_last_line]. rewrite IH. by destruct s.
Qed.

Lemma str_free_take c n s : str_free c s → str_free c (str_take n s).
Proof.
  revert n. induction s as [|x s IH]; intros [|n] Hs; simpl; try done.
  destruct Hs as [? ?]. split; auto.
Qed.

(** Well-formed UTF-8 texts concatenate. *)
Lemma utf8_valid_app s t : utf8_valid s = true → utf8_valid (s +:+ t) = utf8_valid t.
Proof.
  remember (String.length s) as n eqn:Hn. revert s Hn.
  induction (lt_wf n) as [n _ IH]. intros [|a s1] Hn Hs; [done|].
  rewrite string_app_cons. cbn [utf8_valid] in *. simpl in Hn.
  repeat match type of Hs with
  | (if ?b then _ else _) = true => destruct b
  end; try done.
  - apply (IH (String.length s1)); [lia|done|done].
  - destruct s1 as [|b s2]; [done|]. rewrite string_app_cons. apply andb_true_iff in Hs as [-> Hs].
    simpl in *. apply (IH (String.length s2)); [lia|done|done].
  - destruct s1 as [|b [|d s3]]; try done. rewrite !string_app_cons.
    apply andb_true_iff in Hs as [-> Hs]. simpl in *. apply (IH (String.length s3)); [lia|done|done].
  - destruct s1 as [|b [|d [|e s4]]]; try done. rewrite !string_app_cons.
    apply andb_true_iff in Hs as [-> Hs]. simpl in *. apply (IH (String.length s4)); [lia|done|done].
Qed.

(** A text between characters that are not part of any white space. *)
Definition solid (c : ascii) : Prop := Ascii.N_of_ascii c < 128 ∧ white1 c = false.

Lemma solid_white c a b : solid c → white2 a c = false ∧ white3 a b c = false.
Proof.
  intros [Hc _]. assert (∀ d, 128 <= Ascii.N_of_ascii d → c ≠ d) as Hd by (intros d ? ->; lia).
  split.
  - unfold white2. rewrite !(bool_decide_eq_false_2 (c = _)) by (apply Hd; vm_compute; discriminate).
    by rewrite andb_false_r.
  - unfold white3, cont. rewrite (proj2 (N.leb_gt 128 (Ascii.N_of_ascii c))) by done.
    assert (∀ x y d : ascii, 128 <= Ascii.N_of_ascii d →
      bool_decide ((a, b, c) = (x, y, d)) = false) as Ht.
    { intros x y d Hx. apply bool_decide_eq_false_2. intros [= _ _ H]. by apply Hd in H. }
    rewrite !Ht, (bool_decide_eq_false_2 (c ∈ _)); [by rewrite !andb_false_r| |by vm_compute..].
    rewrite !elem_of_cons, elem_of_nil. intros [H|[H|[H|[]]]]; by apply Hd in H.
Qed.

Lemma trim_start_solid s c : solid c → trim_start (s +:+ String c EmptyString) ≠ EmptyString.
Proof.
  intros Hc. remember (String.length s) as n eqn:Hn. revert s Hn.
  induction (lt_wf n) as [n _ IH]. intros [|x s1] Hn.
  - rewrite string_app_nil. cbn [trim_start]. by rewrite (proj2 Hc).
  - rewrite string_app_cons. cbn [trim_start]. simpl in Hn.
    destruct (white1 x); [apply (IH (String.length s1)); [lia|done]|].
    destruct s1 as [|y s2].
    + rewrite string_app_nil. by rewrite (proj1 (solid_white c x x Hc)).
    + rewrite string_app_cons. simpl in Hn.
      destruct (white2 x y); [apply (IH (String.length s2)); [lia|done]|].
      destruct s2 as [|z s3].
      * rewrite string_app_nil. by rewrite (proj2 (solid_white c x y Hc)).
      * rewrite string_app_cons. simpl in Hn.
        destruct (white3 x y z); [apply (IH (String.length s3)); [lia|done]|done].
Qed.

Lemma trim_end_solid s c : solid c → trim_end (s +:+ String c EmptyString) = s +:+ String c EmptyString.
Proof.
  intros Hc. induction s as [|x s IH].
  - rewrite string_app_nil. cbn [trim_end]. rewrite bool_decide_eq_false_2; [done|].
    by apply (trim_start_solid EmptyString).
  - rewrite string_app_cons. cbn [trim_end]. rewrite IH, bool_decide_eq_false_2; [done|].
    by apply (trim_start_solid (String x s)).
Qed.

(** A text that begins with printable ASCII is not trimmed at its start. *)
Lemma trim_start_id a s : solid a → trim_start (String a s) = String a s.
Proof.
  intros [Ha Hw]. cbn [trim_start]. rewrite Hw.
  assert (∀ d, 128 <= Ascii.N_of_ascii d → a ≠ d) as Hd by (intros d ? ->; lia).
  assert (∀ b, white2 a b = false) as H2.
  { intros b. unfold white2. rewrite bool_decide_eq_false_2; [done|]. by apply Hd. }
  assert (∀ b d, white3 a b d = false) as H3.
  { assert (∀ b d x y z : ascii, 128 <= Ascii.N_of_ascii x →
      bool_decide ((a, b, d) = (x, y, z)) = false) as Ht.
    { intros b d x y z Hx. apply bool_decide_eq_false_2. intros [= H _ _]. by apply Hd in H. }
    intros b d. unfold white3. rewrite !Ht by (by vm_compute). rewrite bool_decide_eq_false_2; [done|].
    intros [= H _]. by apply Hd in H. }
  destruct s as [|b s2]; [done|]. rewrite H2. destruct s2; [done|]. by rewrite H3.
Qed.

Lemma trim_not_empty a s : solid a → trim (String a s) ≠ EmptyString.
Proof.
  intros Ha. unfold trim. rewrite trim_start_id by done. cbn [trim_end].
  fold (trim_start (String a s)). rewrite trim_start_id by done. done.
Qed.

(** A text that begins and ends with printable ASCII is not trimmed. *)
Lemma trim_solid a s c :
  solid a → solid c → trim (String a (s +:+ String c EmptyString)) = String a (s +:+ String c EmptyString).
Proof.
  intros Ha Hc. unfold trim. rewrite trim_start_id by done. apply (trim_end_solid (String a s) c Hc).
Qed.
