(* ===== verification/Types.v ===== *)
(** Runtime-wide value types: [crates/appcore-types].

    Identifiers and their validation ([ids.rs]), runtime and core identities
    with their compatibility checks ([identity.rs]), trace contexts
    ([trace.rs]) and the runtime error type ([error.rs]).  The identifier
    newtypes wrap a [String] and may come unvalidated from serde, so they are
    [string] here, a byte string as in Rust. *)

From S2P Require Import Prelude.

Local Open Scope N_scope.

(** ** [error.rs] and the statuses it refers to ([identity.rs]) *)

Inductive CompatibilityStatus :=
| Compatible
| DifferentAppId
| DifferentAppFamily
| DifferentSyncGroup
| DifferentRuntimeContract.
#[export] Instance CompatibilityStatus_eq_dec : EqDecision CompatibilityStatus.
Proof. solve_decision. Defined.

Inductive CoreCompatibilityStatus :=
| CoreCompatible
| DifferentTenant
| DifferentCluster
| IncompatibleProtocolVersion
| IncompatibleRuntime (s : CompatibilityStatus)
| MissingCapability (c : string).
#[export] Instance CoreCompatibilityStatus_eq_dec : EqDecision CoreCompatibilityStatus.
Proof. solve_decision. Defined.

Inductive RuntimeError :=
| InvalidStateTransition
| DuplicateStateTransition
| Unauthorized
| Forbidden
| InvalidAppIdentity
| IncompatibleRuntimeContract
| StorageUnavailable
| VaultLocked
| SyncRejected
| CommandRejected
| HandlerAlreadyRegistered (name : string)
| HandlerNotFound (name : string)
| PluginAlreadyRegistered
| MissingManifest
| EmptyCommandId
| EmptyEventId
| InvalidIdentifier (kind value reason : string)
| InvalidRequest (kind reason : string)
| LockPoisoned (resource : string)
| RegistryItemAlreadyRegistered (kind name : string)
| RegistryItemNotFound (kind name : string)
| MissingConfiguration (name : string)
| IncompatibleIdentity (s : CompatibilityStatus)
| IncompatibleCoreIdentity (s : CoreCompatibilityStatus)
| MissingCapabilityNamed (capability : string)
| RegistryError (message : string)
| DuplicateRegistryItem (kind : string)
| InvalidIdempotencyKey (reason : string)
| IdempotencyStoreIo (operation message : string)
| IdempotencyConflict (key : string)
| IdempotencyPending (key : string)
| OperationalJournalIo (operation message : string).
#[export] Instance RuntimeError_eq_dec : EqDecision RuntimeError.
Proof. solve_decision. Defined.

Abbreviation RuntimeResult := (result RuntimeError).

(** ** Byte classes and substrings of a [str] *)

Definition code (c : ascii) : N := Ascii.N_of_ascii c.
Definition in_range (lo hi : N) (c : ascii) : bool := (lo <=? code c) && (code c <=? hi).
Definition is_ascii_lowercase (c : ascii) : bool := in_range 97 122 c.
Definition is_ascii_uppercase (c : ascii) : bool := in_range 65 90 c.
Definition is_ascii_digit (c : ascii) : bool := in_range 48 57 c.
Definition is_ascii_alphanumeric (c : ascii) : bool :=
  is_ascii_lowercase c || is_ascii_uppercase c || is_ascii_digit c.

Fixpoint str_all (f : ascii → bool) (s : string) : bool :=
  match s with
  | EmptyString => true
  | String c s' => f c && str_all f s'
  end.
Definition str_any (f : ascii → bool) (s : string) : bool := negb (str_all (λ c, negb (f c)) s).

(** [s.chars().any(char::is_control)]: the [char]s of category Cc are the
    ASCII controls and U+0080..U+009F; the latter are encoded C2 80 .. C2 9F,
    and in well-formed UTF-8 the byte C2 only occurs as a lead byte. *)
Fixpoint any_control (s : string) : bool :=
  match s with
  | EmptyString => false
  | String c s' =>
    (code c <? 32) || (code c =? 127) ||
    ((code c =? 194) &&
      match s' with String d _ => in_range 128 159 d | EmptyString => false end) ||
    any_control s'
  end.

(** [s.contains("..")]. *)
Fixpoint contains_dotdot (s : string) : bool :=
  match s with
  | String "." ((String "." _) as s') => true
  | String _ s' => contains_dotdot s'
  | EmptyString => false
  end.

Definition str_len (s : string) : N := N.of_nat (String.length s).

(** ** [ids.rs] *)

Definition MAX_IDENTIFIER_LEN : N := 128.
Definition MAX_DISTRIBUTED_IDENTIFIER_LEN : N := 80.

Definition identifier_byte (c : ascii) : bool :=
  is_ascii_alphanumeric c || bool_decide (c = "."%char) || bool_decide (c = "_"%char)
  || bool_decide (c = ":"%char) || bool_decide (c = "-"%char).

Definition validate_identifier (kind value : string) : RuntimeResult () :=
  if bool_decide (value = "") then Err (InvalidIdentifier kind value "empty")
  else if MAX_IDENTIFIER_LEN <? str_len value then
    Err (InvalidIdentifier kind value "too_long")
  else if any_control value then
    Err (InvalidIdentifier kind value "control_characters")
  else if contains_dotdot value then
    Err (InvalidIdentifier kind value "path_traversal")
  else if str_any (λ b, negb (identifier_byte b)) value then
    Err (InvalidIdentifier kind value "invalid_char")
  else Ok ().

Definition distributed_identifier_byte (c : ascii) : bool :=
  is_ascii_lowercase c || is_ascii_digit c || bool_decide (c = "-"%char).

Definition validate_distributed_identifier (kind value : string) : RuntimeResult () :=
  if str_len value <? 2 then Err (InvalidIdentifier kind value "too_short")
  else if MAX_DISTRIBUTED_IDENTIFIER_LEN <? str_len value then
    Err (InvalidIdentifier kind value "too_long")
  else match value with
  | EmptyString => Err (InvalidIdentifier kind value "empty")
  | String first _ =>
    if negb (is_ascii_lowercase first) && negb (is_ascii_digit first) then
      Err (InvalidIdentifier kind value "invalid_start")
    else if str_any (λ b, negb (distributed_identifier_byte b)) value then
      Err (InvalidIdentifier kind value "invalid_char")
    else Ok ()
  end.

(** The two identifier families, [impl_identifier!] and
    [impl_distributed_identifier!]: construction validates and keeps the text. *)
Definition identifier_new (kind value : string) : RuntimeResult string :=
  validate_identifier kind value ≫= λ _, Ok value.
Definition distributed_identifier_new (kind value : string) : RuntimeResult string :=
  validate_distributed_identifier kind value ≫= λ _, Ok value.

Definition is_compatible_with (self other : N) : bool := self =? other.
Definition default_protocol_version : N := 1.

(** ** [identity.rs] *)

Record RuntimeIdentity := {
  app_id : string;
  app_family : string;
  sync_group : string;
  runtime_contract : N;
  node_id : string;
}.
#[export] Instance RuntimeIdentity_eq_dec : EqDecision RuntimeIdentity.
Proof. solve_decision. Defined.

Record CoreIdentity := {
  tenant_id : string;
  cluster_id : string;
  core_id : string;
  instance_id : string;
  core_kind : string;
  protocol_version : N;
  runtime : RuntimeIdentity;
}.
#[export] Instance CoreIdentity_eq_dec : EqDecision CoreIdentity.
Proof. solve_decision. Defined.

Record CoreCompatibilityPolicy := {
  require_same_cluster : bool;
  required_capability : option string;
}.

Definition runtime_check_compatibility (self other : RuntimeIdentity) : CompatibilityStatus :=
  if negb (bool_decide (app_id self = app_id other)) then DifferentAppId
  else if negb (bool_decide (app_family self = app_family other)) then DifferentAppFamily
  else if negb (bool_decide (sync_group self = sync_group other)) then DifferentSyncGroup
  else if negb (bool_decide (runtime_contract self = runtime_contract other)) then
    DifferentRuntimeContract
  else Compatible.

Definition runtime_ensure_compatible (self other : RuntimeIdentity) : RuntimeResult () :=
  let status := runtime_check_compatibility self other in
  if bool_decide (status = Compatible) then Ok () else Err (IncompatibleIdentity status).

Definition from_runtime_defaults (r : RuntimeIdentity) : RuntimeResult CoreIdentity :=
  t ← distributed_identifier_new "TenantId" (app_id r);
  c ← distributed_identifier_new "ClusterId" (sync_group r);
  k ← distributed_identifier_new "CoreId" (node_id r);
  i ← distributed_identifier_new "InstanceId" (node_id r);
  Ok {| tenant_id := t; cluster_id := c; core_id := k; instance_id := i;
        core_kind := "operational"; protocol_version := default_protocol_version;
        runtime := r |}.

Definition core_check_compatibility (self other : CoreIdentity)
    (policy : CoreCompatibilityPolicy) (other_capabilities : list string) :
    CoreCompatibilityStatus :=
  if negb (bool_decide (tenant_id self = tenant_id other)) then DifferentTenant
  else if require_same_cluster policy
          && negb (bool_decide (cluster_id self = cluster_id other)) then DifferentCluster
  else if negb (is_compatible_with (protocol_version self) (protocol_version other)) then
    IncompatibleProtocolVersion
  else
    let runtime_status := runtime_check_compatibility (runtime self) (runtime other) in
    if negb (bool_decide (runtime_status = Compatible)) then
      IncompatibleRuntime runtime_status
    else match required_capability policy with
    | Some required =>
      if bool_decide (required ∈ other_capabilities) then CoreCompatible
      else MissingCapability required
    | None => CoreCompatible
    end.

Definition core_ensure_compatible (self other : CoreIdentity)
    (policy : CoreCompatibilityPolicy) (caps : list string) : RuntimeResult () :=
  match core_check_compatibility self other policy caps with
  | CoreCompatible => Ok ()
  | status => Err (IncompatibleCoreIdentity status)
  end.

(** ** [trace.rs] *)

Record TraceContext := {
  trace_id : string;
  span_id : string;
  parent_span_id : option string;
  originating_core_id : string;
  current_core_id : string;
  trace_tenant_id : string;
  command_id : option string;
}.
#[export] Instance TraceContext_eq_dec : EqDecision TraceContext.
Proof. solve_decision. Defined.

Definition trace_new (tid sid originating current tenant : string) : RuntimeResult TraceContext :=
  _ ← validate_identifier "TraceId" tid;
  _ ← validate_identifier "SpanId" sid;
  Ok {| trace_id := tid; span_id := sid; parent_span_id := None;
        originating_core_id := originating; current_core_id := current;
        trace_tenant_id := tenant; command_id := None |}.

Definition with_command_id (self : TraceContext) (cid : string) : RuntimeResult TraceContext :=
  _ ← validate_identifier "CommandId" cid;
  Ok {| trace_id := trace_id self; span_id := span_id self;
        parent_span_id := parent_span_id self;
        originating_core_id := originating_core_id self;
        current_core_id := current_core_id self;
        trace_tenant_id := trace_tenant_id self; command_id := Some cid |}.

Definition child_span (self : TraceContext) (sid current : string) : RuntimeResult TraceContext :=
  _ ← validate_identifier "SpanId" sid;
  Ok {| trace_id := trace_id self; span_id := sid;
        parent_span_id := Some (span_id self);
        originating_core_id := originating_core_id self;
        current_core_id := current;
        trace_tenant_id := trace_tenant_id self; command_id := command_id self |}.

(** ** Facts about identifiers *)

Lemma str_all_spec f s :
  str_all f s = true ↔ ∀ c, c ∈ String.list_ascii_of_string s → f c = true.
Proof.
  induction s as [|c s IH]; simpl.
  - split; [set_solver | done].
  - rewrite andb_true_iff, IH. set_solver.
Qed.

Lemma str_any_false f s :
  str_any f s = false ↔ ∀ c, c ∈ String.list_ascii_of_string s → f c = false.
Proof.
  unfold str_any. rewrite negb_false_iff, str_all_spec.
  setoid_rewrite negb_true_iff. done.
Qed.

Lemma validate_identifier_ok kind s :
  validate_identifier kind s = Ok () ↔
  s ≠ "" ∧ str_len s ≤ MAX_IDENTIFIER_LEN ∧ contains_dotdot s = false ∧
  (∀ c, c ∈ String.list_ascii_of_string s → identifier_byte c = true).
Proof.
  assert (Hctl : str_any (λ b, negb (identifier_byte b)) s = false → any_control s = false).
  { induction s as [|c s IH]; [done|]. intros Hc.
    pose proof (proj1 (str_any_false _ _) Hc) as Hall.
    assert (str_any (λ b, negb (identifier_byte b)) s = false) as Hs
      by (apply str_any_false; intros; apply Hall; set_solver).
    assert (Hid : identifier_byte c = true)
      by (specialize (Hall c); rewrite negb_false_iff in Hall; apply Hall; set_solver).
    simpl. rewrite (IH Hs), orb_false_r.
    revert Hid. clear. destruct c as [[] [] [] [] [] [] [] []]; vm_compute; done. }
  unfold validate_identifier.
  case_bool_decide; [naive_solver|].
  destruct (N.ltb_spec MAX_IDENTIFIER_LEN (str_len s)); [split; [done|]; intros; lia|].
  destruct (str_any _ s) eqn:Hany.
  - split; [by repeat case_match|]. intros (_ & _ & _ & Hall).
    assert (str_any (λ b, negb (identifier_byte b)) s = false); [|congruence].
    apply str_any_false. intros c Hc. by rewrite Hall.
  - rewrite Hctl by done. rewrite str_any_false in Hany.
    setoid_rewrite negb_false_iff in Hany.
    destruct (contains_dotdot s) eqn:?; naive_solver.
Qed.
