(* ===== verification/DemoText.v ===== *)
(** A concrete encoding of countable values as lines of text, which the
    witnesses use for the JSON of [serde_json]: the bits of the value's code
    behind an opening brace. *)

From S2P Require Import Prelude.
From S2P Require Import Text.

Fixpoint pos_text (p : positive) : string :=
  match p with
  | xH => "}"
  | xO p' => String "0" (pos_text p')
  | xI p' => String "1" (pos_text p')
  end.
Fixpoint text_pos (s : string) : positive :=
  match s with
  | EmptyString => xH
  | String "0" s' => xO (text_pos s')
  | String "1" s' => xI (text_pos s')
  | String _ _ => xH
  end.

Section Demo.
Context {E A : Type} `{Countable A}.

Definition to_text (a : A) : result E string := Ok (String "{" (pos_text (encode a))).
Definition of_text (e : E) (s : string) : result E A :=
  match s with
  | String "{" s' => ok_or e (decode (text_pos s'))
  | _ => Err e
  end.

Lemma text_pos_text p : text_pos (pos_text p) = p.
Proof. induction p; simpl; by f_equal. Qed.

Lemma of_to_text e a s : to_text a = Ok s → of_text e s = Ok a.
Proof. intros [= <-]. unfold of_text. by rewrite text_pos_text, decode_encode. Qed.

Lemma pos_text_bits p c : c ≠ "0"%char → c ≠ "1"%char → c ≠ "}"%char → str_free c (pos_text p).
Proof. intros H0 H1 H2. induction p; simpl; auto. Qed.

Lemma pos_text_ascii p : str_ascii (pos_text p).
Proof. induction p; (split; [vm_compute; reflexivity|done]). Qed.

Lemma to_text_line a s :
  to_text a = Ok s → s ≠ EmptyString ∧ str_free LF s ∧ str_free CR s ∧ utf8_valid s = true.
Proof.
  intros [= <-]. split_and!; [done|split; [done|by apply pos_text_bits]..|].
  apply utf8_valid_ascii. split; [vm_compute; reflexivity|apply pos_text_ascii].
Qed.

Lemma pos_text_last p : ∃ s, pos_text p = s +:+ String "}" EmptyString.
Proof.
  induction p as [p [s Hs]|p [s Hs]|]; simpl; try rewrite Hs;
    [by exists (String "1" s)|by exists (String "0" s)|by exists EmptyString].
Qed.
Lemma to_text_trim a s : to_text a = Ok s → trim s = s.
Proof.
  intros [= <-]. destruct (pos_text_last (encode a)) as [t ->].
  apply trim_solid; by vm_compute.
Qed.
End Demo.
