(* ===== verification/Contracts.v ===== *)
(** The contract types of [crates/appcore-contracts]: validated text and
    identifiers ([identifiers.rs], [error.rs]), the policies an application
    declares ([policy/*.rs]), and the modes and profiles of a runtime
    ([runtime.rs], [policy/profile.rs]).

    Identifier types are strings; their constructors are [contract_identifier_new]. *)

From S2P Require Import Prelude.
From S2P Require Import Text.
From S2P Require Import Types.

Local Open Scope N_scope.

Inductive ContractError :=
| Empty (field : string)
| TooLong (field : string) (max_bytes : N)
| InvalidIdentifier (field : string)
| InvalidValue (field reason : string)
| Duplicate (field value : string)
| SecretValue (field : string)
| LocalPath (field : string).
#[export] Instance ContractError_eq_dec : EqDecision ContractError.
Proof. solve_decision. Defined.

Abbreviation ContractResult := (result ContractError).

(** ** Chains of checks *)

(** [if b { return Err(e) }]. *)
Definition reject (b : bool) (e : ContractError) : ContractResult () := if b then Err e else Ok ().
(** [for a in l { f(a)?; }]. *)
Fixpoint check_all {A} (f : A → ContractResult ()) (l : list A) : ContractResult () :=
  match l with
  | [] => Ok ()
  | a :: l' => _ ← f a; check_all f l'
  end.
Definition check_option {A} (f : A → ContractResult ()) (o : option A) : ContractResult () :=
  match o with Some a => f a | None => Ok () end.

Create HintDb accept.
Lemma reject_ok b e : reject b e = Ok () ↔ b = false.
Proof. by destruct b. Qed.
Lemma then_ok (m k : ContractResult ()) : (_ ← m; k) = Ok () ↔ m = Ok () ∧ k = Ok ().
Proof. destruct m as [[]|e]; cbn; [|split; [done|by intros [? _]]]. tauto. Qed.
Lemma check_all_ok {A} (f : A → ContractResult ()) l : check_all f l = Ok () ↔ ∀ a, a ∈ l → f a = Ok ().
Proof.
  induction l as [|a l IH]; cbn [check_all].
  - split; [|done]. intros _ a Ha. by apply elem_of_nil in Ha.
  - rewrite then_ok, IH. split; [|set_solver]. intros [H1 H2] b [->|Hb]%elem_of_cons; auto.
Qed.
Lemma check_option_ok {A} (f : A → ContractResult ()) o :
  check_option f o = Ok () ↔ ∀ a, o = Some a → f a = Ok ().
Proof. destruct o; cbn; split; try done; [|by intros H; apply H]. by intros H b [= <-]. Qed.
#[export] Hint Rewrite reject_ok then_ok @check_all_ok @check_option_ok : accept.

(** ** [identifiers.rs] *)

Definition str_contains (p s : string) : bool := if str_find p s then true else false.
Definition str_first (s : string) : option ascii := match s with String c _ => Some c | EmptyString => None end.
Fixpoint str_last (s : string) : option ascii :=
  match s with
  | EmptyString => None
  | String c EmptyString => Some c
  | String _ s' => str_last s'
  end.
Definition opt_alphanumeric (o : option ascii) : bool :=
  match o with Some c => is_ascii_alphanumeric c | None => false end.

Definition validate_text (field value : string) (max_bytes : N) : ContractResult () :=
  _ ← reject (bool_decide (trim value = EmptyString)) (Empty field);
  _ ← reject (max_bytes <? str_len value) (TooLong field max_bytes);
  reject (any_control value) (InvalidValue field "control characters are not allowed").

Definition contract_identifier_byte (c : ascii) : bool :=
  is_ascii_alphanumeric c || str_contains (String c EmptyString) "-_.:+".
Definition validate_contract_identifier (field value : string) : ContractResult () :=
  _ ← validate_text field value 128;
  reject (negb (opt_alphanumeric (str_first value)) || negb (str_all contract_identifier_byte value)
          || negb (opt_alphanumeric (str_last value))) (InvalidIdentifier field).
(** [define_identifier!]. *)
Definition contract_identifier_new (field value : string) : ContractResult string :=
  _ ← validate_contract_identifier field value; Ok value.

Definition sensitive_fragments : list string :=
  ["secret"; "password"; "passwd"; "token"; "private_key"; "credential"].
Definition is_sensitive_key (value : string) : bool :=
  existsb (λ fragment, str_contains fragment (to_ascii_lowercase value)) sensitive_fragments.
Definition looks_like_local_path (value : string) : bool :=
  str_prefix "/" value || str_prefix "./" value || str_prefix "../" value
  || match value with String _ (String c _) => bool_decide (c = ":"%char) | _ => false end.
Definition looks_like_url (value : string) : bool := str_contains "://" value.

(** ** [policy/runtime.rs], [policy/capability.rs], [policy/dependency.rs] *)

Inductive RuntimeMode := Standalone | Cluster.
#[export] Instance RuntimeMode_eq_dec : EqDecision RuntimeMode.
Proof. solve_decision. Defined.

Inductive CapabilityMode := Query | Command | Stream.
#[export] Instance CapabilityMode_eq_dec : EqDecision CapabilityMode.
Proof. solve_decision. Defined.
Inductive CapabilityClass := Infrastructure | Functional.
#[export] Instance CapabilityClass_eq_dec : EqDecision CapabilityClass.
Proof. solve_decision. Defined.
Inductive CapabilityVisibility := VisibleLocal | VisibleCluster | VisibleTenant.

Record CapabilityDeclaration := {
  capability_id : string;
  class : CapabilityClass;
  capability_version : string;
  capability_mode : CapabilityMode;
  capability_visibility : CapabilityVisibility;
  requires_leader : bool;
  idempotency_required : bool;
}.
Definition capability_validate (c : CapabilityDeclaration) : ContractResult () :=
  validate_text "capability.version" (capability_version c) 64.
Definition capability_new (id version : string) (mode : CapabilityMode) (visibility : CapabilityVisibility) :
    ContractResult CapabilityDeclaration :=
  let c := {| capability_id := id; class := Functional; capability_version := version; capability_mode := mode;
              capability_visibility := visibility; requires_leader := false; idempotency_required := false |} in
  _ ← capability_validate c; Ok c.

Record RuntimeRequirements := {
  minimum_runtime_version : string;
  maximum_runtime_version : option string;
  required_protocol_version : string;
  required_features : gset string;
}.
Definition requirements_validate (r : RuntimeRequirements) : ContractResult () :=
  _ ← validate_text "runtime.minimum_version" (minimum_runtime_version r) 64;
  _ ← validate_text "runtime.protocol_version" (required_protocol_version r) 64;
  check_option (λ v, validate_text "runtime.maximum_version" v 64) (maximum_runtime_version r).
Definition requirements_new (minimum protocol : string) : ContractResult RuntimeRequirements :=
  let r := {| minimum_runtime_version := minimum; maximum_runtime_version := None;
              required_protocol_version := protocol; required_features := ∅ |} in
  _ ← requirements_validate r; Ok r.
Definition with_maximum_runtime_version (r : RuntimeRequirements) (version : string) :
    ContractResult RuntimeRequirements :=
  _ ← validate_text "runtime.maximum_version" version 64;
  Ok {| minimum_runtime_version := minimum_runtime_version r; maximum_runtime_version := Some version;
        required_protocol_version := required_protocol_version r; required_features := required_features r |}.

Record ApplicationDependency := {
  dependency_id : string; version_requirement : string; optional : bool;
}.
Definition dependency_validate (d : ApplicationDependency) : ContractResult () :=
  validate_text "dependency.version_requirement" (version_requirement d) 128.

(** ** [policy/health.rs], [policy/job.rs], [policy/leadership.rs],
    [policy/module.rs], [policy/scheduler.rs], [policy/storage.rs], [policy/update.rs] *)

Record HealthRequirements := {
  startup_grace_ms : N; heartbeat_interval_ms : N; failure_threshold : N;
}.
Definition health_requirements_validate (h : HealthRequirements) : ContractResult () :=
  reject ((heartbeat_interval_ms h =? 0) || (failure_threshold h =? 0))
    (InvalidValue "health" "heartbeat interval and failure threshold must be greater than zero").
Definition health_requirements_new (grace heartbeat threshold : N) : ContractResult HealthRequirements :=
  _ ← reject ((heartbeat =? 0) || (threshold =? 0))
        (InvalidValue "health" "heartbeat interval and failure threshold must be greater than zero");
  Ok {| startup_grace_ms := grace; heartbeat_interval_ms := heartbeat; failure_threshold := threshold |}.

Record JobPolicy := { jobs_enabled : bool; jobs_max_concurrency : N; retry_limit : N }.
Definition job_policy_disabled : JobPolicy :=
  {| jobs_enabled := false; jobs_max_concurrency := 0; retry_limit := 0 |}.
Definition job_policy_validate (p : JobPolicy) : ContractResult () :=
  reject (jobs_enabled p && (jobs_max_concurrency p =? 0))
    (InvalidValue "jobs.max_concurrency" "must be greater than zero when jobs are enabled").
Definition job_policy_new (enabled : bool) (max_concurrency retries : N) : ContractResult JobPolicy :=
  _ ← reject (enabled && (max_concurrency =? 0))
        (InvalidValue "jobs.max_concurrency" "must be greater than zero when jobs are enabled");
  Ok {| jobs_enabled := enabled; jobs_max_concurrency := max_concurrency; retry_limit := retries |}.

Inductive LeadershipMode := Disabled | Preferred | Required.
#[export] Instance LeadershipMode_eq_dec : EqDecision LeadershipMode.
Proof. solve_decision. Defined.
Record LeadershipRequirement := {
  leadership_service : string; leadership_mode : LeadershipMode; lease_duration_ms : N;
}.
Definition leadership_validate (l : LeadershipRequirement) : ContractResult () :=
  reject (negb (bool_decide (leadership_mode l = Disabled)) && (lease_duration_ms l =? 0))
    (InvalidValue "leadership.lease_duration_ms" "must be greater than zero when leadership is enabled").
Definition leadership_new (service : string) (mode : LeadershipMode) (duration : N) :
    ContractResult LeadershipRequirement :=
  _ ← reject (negb (bool_decide (mode = Disabled)) && (duration =? 0))
        (InvalidValue "leadership.lease_duration_ms" "must be greater than zero when leadership is enabled");
  Ok {| leadership_service := service; leadership_mode := mode; lease_duration_ms := duration |}.

Record ModuleDeclaration := { module_id : string; module_version : string; module_required : bool }.
Definition module_validate (m : ModuleDeclaration) : ContractResult () :=
  validate_text "module.version" (module_version m) 64.

Record SchedulerRequirements := { scheduler_required : bool; scheduler_max_concurrency : N }.
Definition scheduler_validate (s : SchedulerRequirements) : ContractResult () :=
  reject (scheduler_required s && (scheduler_max_concurrency s =? 0))
    (InvalidValue "scheduler.max_concurrency" "must be greater than zero when a scheduler is required").
Definition scheduler_requirements_new (required : bool) (max_concurrency : N) : ContractResult SchedulerRequirements :=
  _ ← reject (required && (max_concurrency =? 0))
        (InvalidValue "scheduler.max_concurrency" "must be greater than zero when a scheduler is required");
  Ok {| scheduler_required := required; scheduler_max_concurrency := max_concurrency |}.

Inductive StorageDurability := EphemeralStorage | LocalStorage | DurableStorage.
Record StorageRequirements := { durability : StorageDurability; minimum_bytes : N; shared : bool }.

Record UpdatePolicy := { channel : string; automatic : bool }.
Definition update_validate (u : UpdatePolicy) : ContractResult () :=
  validate_text "update.channel" (channel u) 64.
Definition update_policy_new (c : string) (a : bool) : ContractResult UpdatePolicy :=
  let u := {| channel := c; automatic := a |} in _ ← update_validate u; Ok u.

(** ** [policy/profile.rs] *)

Inductive CoreRole := GeneralPurpose | Control | Worker | StorageRole | ComputeRole | Custom (role : string).

Inductive WorkloadClass := General | Interactive | Batch | Compute | Io.
#[export] Instance WorkloadClass_eq_dec : EqDecision WorkloadClass.
Proof. solve_decision. Defined.

(** [u16], [i16], [u32]. *)
Record SchedulingProfile := {
  weight : N;
  priority : Z;
  max_concurrency : N;
  available : bool;
  workload : WorkloadClass;
  affinity : gset string;
}.
Definition scheduling_error : ContractError :=
  InvalidValue "scheduling" "weight and max concurrency must be greater than zero".
Definition scheduling_new (w : N) (p : Z) (m : N) (c : WorkloadClass) : ContractResult SchedulingProfile :=
  _ ← reject ((w =? 0) || (m =? 0)) scheduling_error;
  Ok {| weight := w; priority := p; max_concurrency := m; available := true; workload := c; affinity := ∅ |}.
Definition with_affinity (s : SchedulingProfile) (a : string) : ContractResult SchedulingProfile :=
  _ ← validate_text "scheduling.affinity" a 128;
  Ok {| weight := weight s; priority := priority s; max_concurrency := max_concurrency s;
        available := available s; workload := workload s; affinity := {[a]} ∪ affinity s |}.
Definition scheduling_validate (s : SchedulingProfile) : ContractResult () :=
  _ ← reject ((weight s =? 0) || (max_concurrency s =? 0)) scheduling_error;
  check_all (λ a, validate_text "scheduling.affinity" a 128) (btree_elements (affinity s)).

Record ResourceProfile := {
  cpu_cores : option N;
  memory_bytes : option N;
  gpu_count : N;
}.
Definition resources_validate (r : ResourceProfile) : ContractResult () :=
  reject (bool_decide (cpu_cores r = Some 0) || bool_decide (memory_bytes r = Some 0))
    (InvalidValue "resources" "known CPU and memory values must be greater than zero").

Record CoreProfile := {
  role : CoreRole;
  profile_service : string;
  capabilities : gset string;
  leadership : LeadershipRequirement;
  resources : ResourceProfile;
  scheduling : SchedulingProfile;
}.
Definition profile_scope (p : CoreProfile) : ContractResult () :=
  reject (negb (bool_decide (leadership_service (leadership p) = profile_service p)))
    (InvalidValue "core_profile.leadership" "leadership must be scoped to the profile service").
Definition profile_validate (p : CoreProfile) : ContractResult () :=
  _ ← match role p with Custom r => validate_text "core_profile.role" r 128 | _ => Ok () end;
  _ ← leadership_validate (leadership p);
  _ ← resources_validate (resources p);
  _ ← scheduling_validate (scheduling p);
  profile_scope p.
Definition profile_new (r : CoreRole) (service : string) (caps : list string) (l : LeadershipRequirement)
    (res : ResourceProfile) (s : SchedulingProfile) : ContractResult CoreProfile :=
  let p := {| role := r; profile_service := service; capabilities := list_to_set caps; leadership := l;
              resources := res; scheduling := s |} in
  _ ← profile_scope p;
  _ ← profile_validate p;
  Ok p.

(** ** The modes of [runtime.rs] *)

Inductive RuntimeHealthStatus := Healthy | Degraded | Unhealthy.
#[export] Instance RuntimeHealthStatus_eq_dec : EqDecision RuntimeHealthStatus.
Proof. solve_decision. Defined.

Inductive RuntimeOperationalMode :=
| Starting | Discovering | Syncing | ReadOnly | ReadWrite | DegradedMode | Isolated.
#[export] Instance RuntimeOperationalMode_eq_dec : EqDecision RuntimeOperationalMode.
Proof. solve_decision. Defined.

Definition allows_local_queries (m : RuntimeOperationalMode) : bool :=
  match m with ReadOnly | ReadWrite | DegradedMode | Isolated => true | _ => false end.
Definition allows_writes (m : RuntimeOperationalMode) : bool :=
  match m with ReadWrite => true | _ => false end.

Definition mode_as_str (m : RuntimeOperationalMode) : string :=
  match m with
  | Starting => "starting" | Discovering => "discovering" | Syncing => "syncing" | ReadOnly => "read_only"
  | ReadWrite => "read_write" | DegradedMode => "degraded" | Isolated => "isolated"
  end.
Definition mode_try_from (value : string) : ContractResult RuntimeOperationalMode :=
  if bool_decide (value = "starting") then Ok Starting
  else if bool_decide (value = "discovering") then Ok Discovering
  else if bool_decide (value = "syncing") then Ok Syncing
  else if bool_decide (value = "read_only") then Ok ReadOnly
  else if bool_decide (value = "read_write") then Ok ReadWrite
  else if bool_decide (value = "readonly") || bool_decide (value = "readwrite") then
    Err (InvalidValue "operational_mode" "NO MORE SUPPORTED PLEASE UPDATE")
  else if bool_decide (value = "degraded") then Ok DegradedMode
  else if bool_decide (value = "isolated") then Ok Isolated
  else Err (InvalidValue "operational_mode" "unsupported operational mode").
