(* ===== verification/Manifests.v ===== *)
(** The three versioned manifests of [crates/appcore-contracts]: what an
    application declares ([application.rs]), what an installation selects
    ([deployment/manifest.rs], [deployment/config.rs]) and what a running host
    reports ([runtime.rs]), with the theorem that every manifest the public
    constructors and the decoders let through keeps the promises of its type. *)

From S2P Require Import Prelude.
From S2P Require Import Text.
From S2P Require Import Types.
From S2P Require Import Contracts.

Local Open Scope N_scope.

(** ** [ApplicationManifestV1] *)

Module Application.
Definition APPLICATION_MANIFEST_VERSION : N := 1.

Record ApplicationManifestV1 := {
  manifest_version : N;
  application_id : string;
  application_version : string;
  display_name : string;
  vendor : string;
  service_id : string;
  requirements : RuntimeRequirements;
  capabilities : list CapabilityDeclaration;
  leadership : list LeadershipRequirement;
  jobs : JobPolicy;
  dependencies : list ApplicationDependency;
  storage : StorageRequirements;
  scheduler : SchedulerRequirements;
  health : HealthRequirements;
  update : UpdatePolicy;
  modules : list ModuleDeclaration;
  feature_flags : gmap string bool;
  metadata : gmap string string;
}.

(** [ensure_unique], with the values seen so far. *)
Fixpoint ensure_unique_from (field : string) (seen : gset string) (values : list string) : ContractResult () :=
  match values with
  | [] => Ok ()
  | v :: values' =>
    if bool_decide (v ∈ seen) then Err (Duplicate field v)
    else ensure_unique_from field ({[v]} ∪ seen) values'
  end.
Definition ensure_unique (field : string) (values : list string) : ContractResult () :=
  ensure_unique_from field ∅ values.

Definition RESERVED_PREFIXES : list string := ["appcore."; "runtime."; "infrastructure."].
Definition reject_reserved_capability_namespace (capability : string) : ContractResult () :=
  reject (existsb (λ p, str_prefix p (to_ascii_lowercase capability)) RESERVED_PREFIXES)
    (InvalidValue "capabilities.id" "application capability uses a reserved Runtime namespace").

(** [key.split(['.', '_', '-'])]. *)
Definition is_separator (c : ascii) : bool :=
  bool_decide (c = "."%char) || bool_decide (c = "_"%char) || bool_decide (c = "-"%char).
Fixpoint key_parts (s : string) : list string :=
  match s with
  | EmptyString => [EmptyString]
  | String c s' =>
    if is_separator c then EmptyString :: key_parts s'
    else match key_parts s' with p :: ps => String c p :: ps | [] => [String c EmptyString] end
  end.
Definition is_location_key (key : string) : bool :=
  existsb (λ part, bool_decide (to_ascii_lowercase part ∈ ["url"; "uri"; "endpoint"])) (key_parts key).

Definition validate_application_metadata (key value : string) : ContractResult () :=
  _ ← validate_text "metadata.key" key 128;
  _ ← validate_text "metadata.value" value 2048;
  _ ← reject (is_sensitive_key key) (SecretValue ("metadata." +:+ key));
  _ ← reject (str_contains "path" (to_ascii_lowercase key) || looks_like_local_path value)
        (LocalPath ("metadata." +:+ key));
  reject (is_location_key key || looks_like_url value)
    (InvalidValue "metadata" "installation-specific URLs belong to the deployment manifest").

Definition validate_functional (c : CapabilityDeclaration) : ContractResult () :=
  _ ← capability_validate c;
  _ ← reject_reserved_capability_namespace (capability_id c);
  reject (negb (bool_decide (class c = Functional)))
    (InvalidValue "capabilities.class" "application manifests may declare only functional capabilities").

Definition lacks_leadership (m : ApplicationManifestV1) : bool :=
  existsb requires_leader (capabilities m)
  && negb (existsb (λ l, bool_decide (leadership_service l = service_id m)
                         && negb (bool_decide (leadership_mode l = Disabled))) (leadership m)).

Definition validate (m : ApplicationManifestV1) : ContractResult () :=
  _ ← reject (negb (manifest_version m =? APPLICATION_MANIFEST_VERSION))
        (InvalidValue "manifest_version" "unsupported application manifest version");
  _ ← validate_text "application_version" (application_version m) 64;
  _ ← validate_text "display_name" (display_name m) 256;
  _ ← validate_text "vendor" (vendor m) 256;
  _ ← requirements_validate (requirements m);
  _ ← job_policy_validate (jobs m);
  _ ← scheduler_validate (scheduler m);
  _ ← health_requirements_validate (health m);
  _ ← update_validate (update m);
  _ ← ensure_unique "capability" (map capability_id (capabilities m));
  _ ← check_all validate_functional (capabilities m);
  _ ← ensure_unique "leadership.service_id" (map leadership_service (leadership m));
  _ ← check_all leadership_validate (leadership m);
  _ ← reject (lacks_leadership m)
        (InvalidValue "capabilities.requires_leader" "primary service leadership must be enabled");
  _ ← ensure_unique "dependency.application_id" (map dependency_id (dependencies m));
  _ ← check_all dependency_validate (dependencies m);
  _ ← ensure_unique "module" (map module_id (modules m));
  _ ← check_all module_validate (modules m);
  check_all (λ e : string * string, validate_application_metadata e.1 e.2) (btree_iter (metadata m)).

(** Setting one field and validating, as the [with_*] methods do. *)
Definition validated (m : ApplicationManifestV1) : ContractResult ApplicationManifestV1 := _ ← validate m; Ok m.

Definition application_new (id version name vendor_name service : string) (r : RuntimeRequirements) :
    ContractResult ApplicationManifestV1 :=
  s ← scheduler_requirements_new false 0;
  h ← health_requirements_new 30000 10000 3;
  u ← update_policy_new "stable" false;
  validated {| manifest_version := APPLICATION_MANIFEST_VERSION; application_id := id; application_version := version;
     display_name := name; vendor := vendor_name; service_id := service; requirements := r; capabilities := [];
     leadership := []; jobs := job_policy_disabled; dependencies := [];
     storage := {| durability := LocalStorage; minimum_bytes := 0; shared := false |};
     scheduler := s; health := h; update := u; modules := []; feature_flags := ∅; metadata := ∅ |}.

Section Setters.
Context (m : ApplicationManifestV1).
Definition set_parts caps leaders deps mods : ApplicationManifestV1 :=
  {| manifest_version := manifest_version m; application_id := application_id m;
     application_version := application_version m; display_name := display_name m; vendor := vendor m;
     service_id := service_id m; requirements := requirements m; capabilities := caps; leadership := leaders;
     jobs := jobs m; dependencies := deps; storage := storage m; scheduler := scheduler m; health := health m;
     update := update m; modules := mods; feature_flags := feature_flags m; metadata := metadata m |}.
Definition set_policies j st sc h u : ApplicationManifestV1 :=
  {| manifest_version := manifest_version m; application_id := application_id m;
     application_version := application_version m; display_name := display_name m; vendor := vendor m;
     service_id := service_id m; requirements := requirements m; capabilities := capabilities m;
     leadership := leadership m; jobs := j; dependencies := dependencies m; storage := st; scheduler := sc;
     health := h; update := u; modules := modules m; feature_flags := feature_flags m; metadata := metadata m |}.
Definition set_maps flags meta : ApplicationManifestV1 :=
  {| manifest_version := manifest_version m; application_id := application_id m;
     application_version := application_version m; display_name := display_name m; vendor := vendor m;
     service_id := service_id m; requirements := requirements m; capabilities := capabilities m;
     leadership := leadership m; jobs := jobs m; dependencies := dependencies m; storage := storage m;
     scheduler := scheduler m; health := health m; update := update m; modules := modules m;
     feature_flags := flags; metadata := meta |}.

Definition with_capability (c : CapabilityDeclaration) : ContractResult ApplicationManifestV1 :=
  _ ← reject (existsb (λ e, bool_decide (capability_id e = capability_id c)) (capabilities m))
        (Duplicate "capability" (capability_id c));
  validated (set_parts (capabilities m ++ [c]) (leadership m) (dependencies m) (modules m)).
Definition with_leadership (l : LeadershipRequirement) : ContractResult ApplicationManifestV1 :=
  _ ← reject (existsb (λ e, bool_decide (leadership_service e = leadership_service l)) (leadership m))
        (Duplicate "leadership.service_id" (leadership_service l));
  validated (set_parts (capabilities m) (leadership m ++ [l]) (dependencies m) (modules m)).
Definition with_dependency (d : ApplicationDependency) : ContractResult ApplicationManifestV1 :=
  _ ← reject (existsb (λ e, bool_decide (dependency_id e = dependency_id d)) (dependencies m))
        (Duplicate "dependency.application_id" (dependency_id d));
  validated (set_parts (capabilities m) (leadership m) (dependencies m ++ [d]) (modules m)).
Definition with_module (x : ModuleDeclaration) : ContractResult ApplicationManifestV1 :=
  _ ← reject (existsb (λ e, bool_decide (module_id e = module_id x)) (modules m))
        (Duplicate "module" (module_id x));
  validated (set_parts (capabilities m) (leadership m) (dependencies m) (modules m ++ [x])).
Definition with_job_policy (j : JobPolicy) : ContractResult ApplicationManifestV1 :=
  validated (set_policies j (storage m) (scheduler m) (health m) (update m)).
Definition with_storage_requirements (s : StorageRequirements) : ApplicationManifestV1 :=
  set_policies (jobs m) s (scheduler m) (health m) (update m).
Definition with_scheduler_requirements (s : SchedulerRequirements) : ContractResult ApplicationManifestV1 :=
  validated (set_policies (jobs m) (storage m) s (health m) (update m)).
Definition with_health_requirements (h : HealthRequirements) : ContractResult ApplicationManifestV1 :=
  validated (set_policies (jobs m) (storage m) (scheduler m) h (update m)).
Definition with_update_policy (u : UpdatePolicy) : ContractResult ApplicationManifestV1 :=
  validated (set_policies (jobs m) (storage m) (scheduler m) (health m) u).
Definition with_feature_flag (feature : string) (enabled : bool) : ApplicationManifestV1 :=
  set_maps (<[feature := enabled]> (feature_flags m)) (metadata m).
Definition with_metadata (key value : string) : ContractResult ApplicationManifestV1 :=
  _ ← validate_application_metadata key value;
  Ok (set_maps (feature_flags m) (<[key := value]> (metadata m))).
End Setters.

(** [TryFrom<ApplicationManifestData>]: the data is the manifest before it is
    validated. *)
Definition try_from (data : ApplicationManifestV1) : ContractResult ApplicationManifestV1 := validated data.

(** A manifest value: what the module's public functions return. *)
Inductive manifest : ApplicationManifestV1 → Prop :=
| manifest_new id version name vendor_name service r m :
    application_new id version name vendor_name service r = Ok m → manifest m
| manifest_decoded data m : try_from data = Ok m → manifest m
| manifest_capability m c m' : manifest m → with_capability m c = Ok m' → manifest m'
| manifest_leadership m l m' : manifest m → with_leadership m l = Ok m' → manifest m'
| manifest_dependency m d m' : manifest m → with_dependency m d = Ok m' → manifest m'
| manifest_module m x m' : manifest m → with_module m x = Ok m' → manifest m'
| manifest_jobs m j m' : manifest m → with_job_policy m j = Ok m' → manifest m'
| manifest_storage m s : manifest m → manifest (with_storage_requirements m s)
| manifest_scheduler m s m' : manifest m → with_scheduler_requirements m s = Ok m' → manifest m'
| manifest_health m h m' : manifest m → with_health_requirements m h = Ok m' → manifest m'
| manifest_update m u m' : manifest m → with_update_policy m u = Ok m' → manifest m'
| manifest_flag m f b : manifest m → manifest (with_feature_flag m f b)
| manifest_metadata m k v m' : manifest m → with_metadata m k v = Ok m' → manifest m'.

Lemma validated_ok m m' : validated m = Ok m' → m' = m ∧ validate m = Ok ().
Proof. unfold validated. destruct (validate m) as [[]|]; [|done]. by intros [= <-]. Qed.
Lemma guarded_ok (g : ContractResult ()) m m' :
  (_ ← g; validated m) = Ok m' → m' = m ∧ validate m = Ok ().
Proof. destruct g; [apply validated_ok|done]. Qed.

Lemma manifest_validates m : manifest m → validate m = Ok ().
Proof.
  induction 1 as [id version name vendor_name service r m H|data m H|m c m' _ _ H|m l m' _ _ H|m d m' _ _ H
    |m x m' _ _ H|m j m' _ _ H|m s _ IH|m s m' _ _ H|m h m' _ _ H|m u m' _ _ H|m f b _ IH|m k v m' _ IH H].
  - unfold application_new in H. by apply validated_ok in H as [-> ?].
  - by apply validated_ok in H as [-> ?].
  - by apply guarded_ok in H as [-> ?].
  - by apply guarded_ok in H as [-> ?].
  - by apply guarded_ok in H as [-> ?].
  - by apply guarded_ok in H as [-> ?].
  - by apply validated_ok in H as [-> ?].
  - exact IH.
  - by apply validated_ok in H as [-> ?].
  - by apply validated_ok in H as [-> ?].
  - by apply validated_ok in H as [-> ?].
  - exact IH.
  - unfold with_metadata in H. destruct (validate_application_metadata k v) as [[]|] eqn:Hkv; [|done].
    injection H as <-. revert IH. unfold validate. autorewrite with accept. cbn. intros IH.
    destruct_and! IH. split_and!; try done. intros [k' v'] Hin. rewrite btree_iter_elem in Hin. cbn.
    apply lookup_insert_Some in Hin as [[<- <-]|[_ Hin]]; [done|].
    match goal with H : ∀ a, a ∈ btree_iter _ → _ |- _ => apply (H (k', v')) end. by apply btree_iter_elem.
Qed.

Lemma ensure_unique_from_ok field seen l :
  ensure_unique_from field seen l = Ok () ↔ NoDup l ∧ ∀ x, x ∈ l → x ∉ seen.
Proof.
  revert seen. induction l as [|v l IH]; intros seen; cbn [ensure_unique_from].
  - split; [|done]. intros _. split; [constructor|]. intros x Hx. by apply elem_of_nil in Hx.
  - case_bool_decide as Hv.
    + split; [done|]. intros [_ H]. exfalso. apply (H v); [by left|done].
    + rewrite IH, NoDup_cons. set_solver.
Qed.
Lemma ensure_unique_ok field l : ensure_unique field l = Ok () ↔ NoDup l.
Proof. unfold ensure_unique. rewrite ensure_unique_from_ok. set_solver. Qed.

(** *** What an application manifest promises *)

(** Metadata that names no secret, path or location of an installation. *)
Record portable (key value : string) : Prop := {
  no_secret fragment : fragment ∈ sensitive_fragments → str_find fragment (to_ascii_lowercase key) = None;
  no_path_key : str_find "path" (to_ascii_lowercase key) = None;
  no_location_key part : part ∈ key_parts key → to_ascii_lowercase part ∉ ["url"; "uri"; "endpoint"];
  no_url : str_find "://" value = None;
  not_absolute rest : value ≠ String "/" rest;
  no_drive c rest : value ≠ String c (String ":" rest);
}.

Record well_formed (m : ApplicationManifestV1) : Prop := {
  capabilities_distinct : NoDup (map capability_id (capabilities m));
  capabilities_functional c : c ∈ capabilities m → class c = Functional;
  capabilities_unreserved c p : c ∈ capabilities m → p ∈ RESERVED_PREFIXES →
    str_prefix p (to_ascii_lowercase (capability_id c)) = false;
  leaders_declared c : c ∈ capabilities m → requires_leader c = true →
    ∃ l, l ∈ leadership m ∧ leadership_service l = service_id m ∧ leadership_mode l ≠ Disabled ∧
         0 < lease_duration_ms l;
  leadership_distinct : NoDup (map leadership_service (leadership m));
  dependencies_distinct : NoDup (map dependency_id (dependencies m));
  modules_distinct : NoDup (map module_id (modules m));
  metadata_portable k v : metadata m !! k = Some v → portable k v;
}.

Lemma contains_false p s : str_contains p s = false ↔ str_find p s = None.
Proof. unfold str_contains. by destruct (str_find p s). Qed.
Lemma existsb_false {A} (f : A → bool) l : existsb f l = false ↔ ∀ x, x ∈ l → f x = false.
Proof.
  induction l as [|a l IH]; cbn.
  - split; [|done]. intros _ x Hx. by apply elem_of_nil in Hx.
  - rewrite orb_false_iff, IH. split; [|set_solver]. intros [H1 H2] x [->|Hx]%elem_of_cons; auto.
Qed.

Lemma metadata_ok k v : validate_application_metadata k v = Ok () → portable k v.
Proof.
  unfold validate_application_metadata. autorewrite with accept. intros (_ & _ & Hs & Hp & Hl).
  apply orb_false_iff in Hp as [Hpath Hlocal], Hl as [Hloc Hurl].
  unfold looks_like_local_path in Hlocal. rewrite !orb_false_iff in Hlocal.
  destruct Hlocal as (((Habs & _) & _) & Hdrive). split.
  - intros f Hf. unfold is_sensitive_key in Hs. rewrite existsb_false in Hs. by apply contains_false, Hs.
  - by apply contains_false.
  - intros part Hpart Hin. unfold is_location_key in Hloc. rewrite existsb_false in Hloc.
    specialize (Hloc part Hpart). by apply bool_decide_eq_false in Hloc.
  - by apply contains_false.
  - intros rest ->. discriminate Habs.
  - intros c rest ->. by rewrite bool_decide_eq_true_2 in Hdrive.
Qed.

Lemma validate_well_formed m : validate m = Ok () → well_formed m.
Proof.
  unfold validate. autorewrite with accept. rewrite !ensure_unique_ok. intros H. destruct_and! H.
  match goal with Hf : ∀ a, a ∈ capabilities m → validate_functional a = Ok () |- _ => rename Hf into Hcaps end.
  match goal with Hf : ∀ a, a ∈ leadership m → _ |- _ => rename Hf into Hleads end.
  match goal with Hf : lacks_leadership m = false |- _ => rename Hf into Hlacks end.
  assert (∀ c, c ∈ capabilities m → class c = Functional ∧
    ∀ p, p ∈ RESERVED_PREFIXES → str_prefix p (to_ascii_lowercase (capability_id c)) = false) as Hfun.
  { intros c Hc. specialize (Hcaps c Hc). revert Hcaps. unfold validate_functional, reject_reserved_capability_namespace.
    autorewrite with accept. intros (_ & Hres & Hcl). split.
    - by apply negb_false_iff, bool_decide_eq_true in Hcl.
    - rewrite existsb_false in Hres. exact Hres. }
  split; try done.
  - intros c Hc. apply Hfun, Hc.
  - intros c p Hc. apply Hfun, Hc.
  - intros c Hc Hlead. unfold lacks_leadership in Hlacks. apply andb_false_iff in Hlacks as [Hn|Hn].
    { rewrite existsb_false in Hn. rewrite Hn in Hlead; done. }
    apply negb_false_iff, existsb_exists in Hn as (l & Hl%list_elem_of_In & Hm).
    apply andb_true_iff in Hm as [Hserv%bool_decide_eq_true Hmode%negb_true_iff%bool_decide_eq_false].
    exists l. split_and!; try done. specialize (Hleads l Hl). revert Hleads. unfold leadership_validate.
    autorewrite with accept. rewrite bool_decide_eq_false_2 by done. cbn. intros Hz%N.eqb_neq. lia.
  - intros k v Hkv. apply metadata_ok.
    match goal with H : ∀ a, a ∈ btree_iter _ → _ |- _ => apply (H (k, v)) end. by apply btree_iter_elem.
Qed.

End Application.

(** ** [DeploymentManifestV1] *)

Module Deployment.
Definition DEPLOYMENT_MANIFEST_VERSION : N := 1.

Record DeploymentWatchdogConfig := { enabled : bool; check_interval_ms : N; stall_timeout_ms : N }.
Definition watchdog_validate (w : DeploymentWatchdogConfig) : ContractResult () :=
  _ ← reject ((check_interval_ms w =? 0) || (stall_timeout_ms w =? 0))
        (InvalidValue "supervisor.watchdog" "watchdog intervals must be greater than zero");
  reject (enabled w && (stall_timeout_ms w <=? check_interval_ms w))
    (InvalidValue "supervisor.watchdog.stall_timeout_ms" "must exceed check_interval_ms").
Definition watchdog_new (e : bool) (check stall : N) : ContractResult DeploymentWatchdogConfig :=
  let w := {| enabled := e; check_interval_ms := check; stall_timeout_ms := stall |} in
  _ ← watchdog_validate w; Ok w.
Definition watchdog_default : DeploymentWatchdogConfig :=
  {| enabled := true; check_interval_ms := 1000; stall_timeout_ms := 15000 |}.

(** [SecretRef], a validated string. *)
Definition secret_ref_new (reference : string) : ContractResult string :=
  _ ← validate_text "secret_ref" reference 512;
  match split_once ":" reference with
  | None => Err (InvalidValue "secret_ref" "a provider scheme is required")
  | Some (scheme, target) =>
    if negb (bool_decide (scheme ∈ ["env"; "file"; "vault"; "provider"])) || bool_decide (trim target = EmptyString)
    then Err (InvalidValue "secret_ref" "unsupported or empty secret reference")
    else Ok reference
  end.

Definition validate_setting (key value : string) : ContractResult () :=
  _ ← validate_text "provider.setting.key" key 128;
  _ ← validate_text "provider.setting.value" value 8192;
  reject (is_sensitive_key key) (SecretValue ("provider.settings." +:+ key)).

Record ProviderConfig := {
  provider_id : string;
  endpoint : option string;
  settings : gmap string string;
  secret_refs : gmap string string;
}.
Definition provider_new (id : string) : ProviderConfig :=
  {| provider_id := id; endpoint := None; settings := ∅; secret_refs := ∅ |}.
Definition with_endpoint (p : ProviderConfig) (e : string) : ContractResult ProviderConfig :=
  _ ← validate_text "provider.endpoint" e 2048;
  Ok {| provider_id := provider_id p; endpoint := Some e; settings := settings p; secret_refs := secret_refs p |}.
Definition with_setting (p : ProviderConfig) (key value : string) : ContractResult ProviderConfig :=
  _ ← validate_setting key value;
  Ok {| provider_id := provider_id p; endpoint := endpoint p; settings := <[key := value]> (settings p);
        secret_refs := secret_refs p |}.
Definition with_secret_ref (p : ProviderConfig) (name secret : string) : ContractResult ProviderConfig :=
  _ ← validate_text "provider.secret_ref.name" name 128;
  Ok {| provider_id := provider_id p; endpoint := endpoint p; settings := settings p;
        secret_refs := <[name := secret]> (secret_refs p) |}.
Definition provider_validate (p : ProviderConfig) : ContractResult () :=
  _ ← check_option (λ e, validate_text "provider.endpoint" e 2048) (endpoint p);
  _ ← check_all (λ e : string * string, validate_setting e.1 e.2) (btree_iter (settings p));
  check_all (λ e : string * string, validate_text "provider.secret_ref.name" e.1 128) (btree_iter (secret_refs p)).

Record TlsConfig := { tls_enabled : bool; certificate : option string; private_key : option string }.
Definition tls_disabled : TlsConfig := {| tls_enabled := false; certificate := None; private_key := None |}.
Definition tls_validate (t : TlsConfig) : ContractResult () :=
  _ ← reject (tls_enabled t && (bool_decide (certificate t = None) || bool_decide (private_key t = None)))
        (InvalidValue "network.tls" "certificate and private-key references are required");
  reject (negb (tls_enabled t)
          && (negb (bool_decide (certificate t = None)) || negb (bool_decide (private_key t = None))))
    (InvalidValue "network.tls" "disabled TLS must not retain key material references").

Record NetworkConfig := {
  listen_addresses : list string; peer_transport : string; command_transport : string; tls : TlsConfig;
}.
Definition network_validate (n : NetworkConfig) : ContractResult () :=
  _ ← check_all (λ a, validate_text "network.listen_address" a 2048) (listen_addresses n);
  tls_validate (tls n).
Definition network_new (peer command : string) : NetworkConfig :=
  {| listen_addresses := []; peer_transport := peer; command_transport := command; tls := tls_disabled |}.

Record VolumeMount := { volume_name : string; source : string; target : string; read_only : bool }.
Definition volume_validate (v : VolumeMount) : ContractResult () :=
  _ ← validate_text "volume.name" (volume_name v) 128;
  _ ← validate_text "volume.source" (source v) 2048;
  validate_text "volume.target" (target v) 2048.

Inductive EnvironmentBinding := Literal (value : string) | Secret (reference : string).

Record DeploymentManifestV1 := {
  manifest_version : N;
  installation_id : string;
  application_id : string;
  mode : RuntimeMode;
  supervisor : DeploymentWatchdogConfig;
  control_plane : option ProviderConfig;
  coordination_store : option ProviderConfig;
  secret_provider : option ProviderConfig;
  job_provider : option ProviderConfig;
  secrets : gmap string string;
  paths : gmap string string;
  volumes : list VolumeMount;
  storage : ProviderConfig;
  database : option ProviderConfig;
  update_provider : option ProviderConfig;
  network : NetworkConfig;
  peer_discovery : option ProviderConfig;
  adapters : gmap string ProviderConfig;
  environment : gmap string EnvironmentBinding;
}.

Definition environment_byte (c : ascii) : bool :=
  is_ascii_uppercase c || is_ascii_digit c || bool_decide (c = "_"%char).
Definition validate_environment_name (name : string) : ContractResult () :=
  _ ← validate_text "environment.name" name 128;
  reject (negb (str_all environment_byte name))
    (InvalidValue "environment.name" "must contain only ASCII uppercase letters, digits and underscores").
Definition validate_binding (name : string) (b : EnvironmentBinding) : ContractResult () :=
  _ ← validate_environment_name name;
  match b with
  | Literal value =>
    _ ← reject (is_sensitive_key name) (SecretValue ("environment." +:+ name));
    validate_text "environment.value" value 8192
  | Secret _ => Ok ()
  end.

Definition is_some {A} (o : option A) : bool := match o with Some _ => true | None => false end.
Definition validate_mode (m : DeploymentManifestV1) : ContractResult () :=
  match mode m with
  | Standalone =>
    reject (is_some (control_plane m) || is_some (coordination_store m) || is_some (peer_discovery m)
            || is_some (job_provider m))
      (InvalidValue "mode" "standalone mode forbids distributed coordination providers")
  | Cluster =>
    reject (negb (is_some (control_plane m)) || negb (is_some (peer_discovery m)))
      (InvalidValue "mode" "cluster mode requires control plane and peer discovery")
  end.
(** The providers of the chained iterator. *)
Definition chained_providers (m : DeploymentManifestV1) : list ProviderConfig :=
  option_list (control_plane m) ++ option_list (coordination_store m) ++ option_list (secret_provider m)
  ++ option_list (job_provider m) ++ option_list (database m) ++ option_list (update_provider m)
  ++ option_list (peer_discovery m) ++ (btree_iter (adapters m)).*2.

Definition validate (m : DeploymentManifestV1) : ContractResult () :=
  _ ← reject (negb (manifest_version m =? DEPLOYMENT_MANIFEST_VERSION))
        (InvalidValue "manifest_version" "unsupported deployment manifest version");
  _ ← validate_mode m;
  _ ← provider_validate (storage m);
  _ ← network_validate (network m);
  _ ← watchdog_validate (supervisor m);
  _ ← check_all provider_validate (chained_providers m);
  _ ← check_all (λ e : string * string,
        _ ← validate_text "deployment.path.name" e.1 128; validate_text "deployment.path" e.2 2048)
        (btree_iter (paths m));
  _ ← check_all volume_validate (volumes m);
  _ ← check_all (λ e : string * string, validate_text "deployment.secret.name" e.1 128) (btree_iter (secrets m));
  check_all (λ e : string * EnvironmentBinding, validate_binding e.1 e.2) (btree_iter (environment m)).

(** [DeploymentManifestBuilder]: the manifest under construction, any field of
    which the [with_*] methods may have set; [build] and the decoder validate it. *)
Definition builder_new (installation application : string) (md : RuntimeMode) (st : ProviderConfig)
    (net : NetworkConfig) : DeploymentManifestV1 :=
  {| manifest_version := DEPLOYMENT_MANIFEST_VERSION; installation_id := installation; application_id := application;
     mode := md; supervisor := watchdog_default; control_plane := None; coordination_store := None;
     secret_provider := None; job_provider := None; secrets := ∅; paths := ∅; volumes := []; storage := st;
     database := None; update_provider := None; network := net; peer_discovery := None; adapters := ∅;
     environment := ∅ |}.
Definition build (m : DeploymentManifestV1) : ContractResult DeploymentManifestV1 := _ ← validate m; Ok m.

(** *** What a deployment manifest promises *)

Record well_formed (m : DeploymentManifestV1) : Prop := {
  standalone_is_isolated : mode m = Standalone →
    control_plane m = None ∧ coordination_store m = None ∧ peer_discovery m = None ∧ job_provider m = None;
  cluster_is_coordinated : mode m = Cluster → is_Some (control_plane m) ∧ is_Some (peer_discovery m);
  literals_are_not_secret name value fragment : environment m !! name = Some (Literal value) →
    fragment ∈ sensitive_fragments → str_find fragment (to_ascii_lowercase name) = None;
  settings_are_not_secret p key fragment : p ∈ storage m :: chained_providers m → is_Some (settings p !! key) →
    fragment ∈ sensitive_fragments → str_find fragment (to_ascii_lowercase key) = None;
  keys_follow_tls : if tls_enabled (tls (network m)) then is_Some (private_key (tls (network m)))
                                                         ∧ is_Some (certificate (tls (network m)))
                    else private_key (tls (network m)) = None ∧ certificate (tls (network m)) = None;
  stall_exceeds_interval : enabled (supervisor m) = true →
    0 < check_interval_ms (supervisor m) < stall_timeout_ms (supervisor m);
}.

Lemma insensitive key fragment :
  is_sensitive_key key = false → fragment ∈ sensitive_fragments →
  str_find fragment (to_ascii_lowercase key) = None.
Proof.
  intros Hs Hf. unfold is_sensitive_key in Hs. rewrite Application.existsb_false in Hs.
  by apply Application.contains_false, Hs.
Qed.

Lemma provider_settings p key fragment :
  provider_validate p = Ok () → is_Some (settings p !! key) → fragment ∈ sensitive_fragments →
  str_find fragment (to_ascii_lowercase key) = None.
Proof.
  unfold provider_validate. autorewrite with accept. intros (_ & Hset & _) [v Hv] Hf.
  specialize (Hset (key, v) (proj2 (btree_iter_elem _ _ _) Hv)). revert Hset. unfold validate_setting.
  autorewrite with accept. intros (_ & _ & Hs). by apply insensitive.
Qed.

Lemma build_well_formed m m' : build m = Ok m' → m' = m ∧ well_formed m.
Proof.
  unfold build. destruct (validate m) as [[]|] eqn:Hv; [|done]. intros [= <-]. split; [done|]. revert Hv.
  unfold validate. autorewrite with accept.
  intros (_ & Hmode & Hst & Hnet & Hdog & Hprov & _ & _ & _ & Henv). split.
  - intros Hm. unfold validate_mode in Hmode. rewrite Hm, reject_ok, !orb_false_iff in Hmode.
    unfold is_some in Hmode. repeat case_match; intuition congruence.
  - intros Hm. unfold validate_mode in Hmode. rewrite Hm, reject_ok, orb_false_iff, !negb_false_iff in Hmode.
    unfold is_some in Hmode. split; repeat case_match; eauto; intuition congruence.
  - intros name value fragment Hn Hf. specialize (Henv (name, Literal value) (proj2 (btree_iter_elem _ _ _) Hn)).
    revert Henv. unfold validate_binding. cbn. autorewrite with accept. intros (_ & Hs & _). by apply insensitive.
  - intros p key fragment [->|Hp]%elem_of_cons; apply provider_settings; auto.
  - revert Hnet. unfold network_validate, tls_validate. autorewrite with accept. intros (_ & H1 & H2).
    destruct (tls_enabled _); cbn in *; apply orb_false_iff in H1 || clear H1.
    + destruct H1 as [?%bool_decide_eq_false ?%bool_decide_eq_false].
      split; by apply not_eq_None_Some.
    + apply orb_false_iff in H2 as [H1%negb_false_iff%bool_decide_eq_true H3%negb_false_iff%bool_decide_eq_true].
      done.
  - intros He. revert Hdog. unfold watchdog_validate. autorewrite with accept. rewrite He. cbn.
    intros [[?%N.eqb_neq ?%N.eqb_neq]%orb_false_iff ?%N.leb_gt]. lia.
Qed.

End Deployment.

(** ** [RuntimeManifestV1] *)

Module Host.
Definition RUNTIME_MANIFEST_VERSION : N := 1.

Record RuntimeHealth := { status : RuntimeHealthStatus; checked_at_ms : N; details : gmap string string }.
Definition validate_health_detail (key value : string) : ContractResult () :=
  _ ← validate_text "health.detail.key" key 128;
  _ ← validate_text "health.detail.value" value 2048;
  reject (is_sensitive_key key) (SecretValue ("health.details." +:+ key)).
Definition with_detail (h : RuntimeHealth) (key value : string) : ContractResult RuntimeHealth :=
  _ ← validate_health_detail key value;
  Ok {| status := status h; checked_at_ms := checked_at_ms h; details := <[key := value]> (details h) |}.
Definition health_validate (h : RuntimeHealth) : ContractResult () :=
  check_all (λ e : string * string, validate_health_detail e.1 e.2) (btree_iter (details h)).

Record RuntimeManifestV1 := {
  manifest_version : N;
  runtime_version : string;
  host_protocol_version : string;
  build_id : string;
  features : gset string;
  host_node_id : string;
  host_core_id : string;
  mode : RuntimeMode;
  platform : string;
  architecture : string;
  storage_backend : string;
  health : RuntimeHealth;
  operational_mode : RuntimeOperationalMode;
  loaded_capabilities : gset string;
  core_profile : CoreProfile;
}.
Definition validate (m : RuntimeManifestV1) : ContractResult () :=
  _ ← reject (negb (manifest_version m =? RUNTIME_MANIFEST_VERSION))
        (InvalidValue "manifest_version" "unsupported runtime manifest version");
  _ ← validate_text "runtime_version" (runtime_version m) 64;
  _ ← validate_text "protocol_version" (host_protocol_version m) 64;
  _ ← validate_text "platform" (platform m) 128;
  _ ← validate_text "architecture" (architecture m) 128;
  _ ← health_validate (health m);
  _ ← profile_validate (core_profile m);
  reject (negb (bool_decide (loaded_capabilities m ⊆ Contracts.capabilities (core_profile m))))
    (InvalidValue "loaded_capabilities" "loaded capabilities must be declared by the core profile").
Definition host_new (version protocol build node core : string) (md : RuntimeMode) (plat arch backend : string)
    (h : RuntimeHealth) (p : CoreProfile) : ContractResult RuntimeManifestV1 :=
  let m := {| manifest_version := RUNTIME_MANIFEST_VERSION; runtime_version := version;
              host_protocol_version := protocol; build_id := build; features := ∅; host_node_id := node;
              host_core_id := core; mode := md; platform := plat; architecture := arch; storage_backend := backend;
              health := h; operational_mode := Starting; loaded_capabilities := ∅; core_profile := p |} in
  _ ← validate m; Ok m.
Definition set_state (m : RuntimeManifestV1) feats h om loaded : RuntimeManifestV1 :=
  {| manifest_version := manifest_version m; runtime_version := runtime_version m;
     host_protocol_version := host_protocol_version m; build_id := build_id m; features := feats;
     host_node_id := host_node_id m; host_core_id := host_core_id m; mode := mode m; platform := platform m;
     architecture := architecture m; storage_backend := storage_backend m; health := h; operational_mode := om;
     loaded_capabilities := loaded; core_profile := core_profile m |}.
Definition with_feature (m : RuntimeManifestV1) (f : string) : RuntimeManifestV1 :=
  set_state m ({[f]} ∪ features m) (health m) (operational_mode m) (loaded_capabilities m).
Definition with_loaded_capability (m : RuntimeManifestV1) (c : string) : ContractResult RuntimeManifestV1 :=
  _ ← reject (negb (bool_decide (c ∈ Contracts.capabilities (core_profile m))))
        (InvalidValue "loaded_capabilities" "capability is not declared by the core profile");
  Ok (set_state m (features m) (health m) (operational_mode m) ({[c]} ∪ loaded_capabilities m)).
Definition with_health (m : RuntimeManifestV1) (h : RuntimeHealth) : ContractResult RuntimeManifestV1 :=
  _ ← health_validate h; Ok (set_state m (features m) h (operational_mode m) (loaded_capabilities m)).
Definition with_operational_mode (m : RuntimeManifestV1) (om : RuntimeOperationalMode) : RuntimeManifestV1 :=
  set_state m (features m) (health m) om (loaded_capabilities m).
Definition try_from (data : RuntimeManifestV1) : ContractResult RuntimeManifestV1 := _ ← validate data; Ok data.

Inductive manifest : RuntimeManifestV1 → Prop :=
| manifest_new v p b n c md pl a s h pr m : host_new v p b n c md pl a s h pr = Ok m → manifest m
| manifest_decoded data m : try_from data = Ok m → manifest m
| manifest_feature m f : manifest m → manifest (with_feature m f)
| manifest_loaded m c m' : manifest m → with_loaded_capability m c = Ok m' → manifest m'
| manifest_health m h m' : manifest m → with_health m h = Ok m' → manifest m'
| manifest_mode m om : manifest m → manifest (with_operational_mode m om).

Lemma host_manifests_validate m : manifest m → validate m = Ok ().
Proof.
  induction 1 as [v p b n c md pl a s h pr m H|data m H|m f _ IH|m c m' _ IH H|m h m' _ IH H|m om _ IH].
  - unfold host_new in H. destruct (validate _) as [[]|] eqn:E; [|done]. by injection H as <-.
  - unfold try_from in H. destruct (validate data) as [[]|] eqn:E; [|done]. by injection H as <-.
  - exact IH.
  - unfold with_loaded_capability in H. destruct (reject _ _) as [[]|] eqn:E; [|done]. injection H as <-.
    apply reject_ok, negb_false_iff, bool_decide_eq_true in E. revert IH. unfold validate.
    autorewrite with accept. cbn. intros IH. destruct_and! IH. split_and!; try done.
    apply negb_false_iff, bool_decide_eq_true.
    match goal with H : negb (bool_decide (_ ⊆ _)) = false |- _ =>
      apply negb_false_iff, bool_decide_eq_true in H end. set_solver.
  - unfold with_health in H. destruct (health_validate h) as [[]|] eqn:E; [|done]. injection H as <-.
    revert IH. unfold validate. autorewrite with accept. cbn. intros IH. destruct_and! IH. by split_and!.
  - exact IH.
Qed.

(** What a host's manifest promises. *)
Record well_formed (m : RuntimeManifestV1) : Prop := {
  loads_declared : loaded_capabilities m ⊆ Contracts.capabilities (core_profile m);
  leadership_scoped : leadership_service (Contracts.leadership (core_profile m)) = profile_service (core_profile m);
  details_not_secret key fragment : is_Some (details (health m) !! key) → fragment ∈ sensitive_fragments →
    str_find fragment (to_ascii_lowercase key) = None;
}.
Lemma host_validate_well_formed m : validate m = Ok () → well_formed m.
Proof.
  unfold validate, profile_validate, profile_scope, health_validate. autorewrite with accept.
  intros (_ & _ & _ & _ & _ & Hh & (_ & _ & _ & _ & Hscope) & Hload). split.
  - by apply negb_false_iff, bool_decide_eq_true in Hload.
  - by apply negb_false_iff, bool_decide_eq_true in Hscope.
  - intros key fragment [v Hv] Hf. specialize (Hh (key, v) (proj2 (btree_iter_elem _ _ _) Hv)).
    revert Hh. unfold validate_health_detail. autorewrite with accept. intros (_ & _ & Hs).
    by apply Deployment.insensitive.
Qed.
End Host.

(** C31: Manifests keep the promises of their types, whatever sequence of public
    constructors and decoding produced them. An application manifest declares
    only functional capabilities outside the reserved namespaces in any letter
    case, with distinct identities; a capability that needs a leader comes with
    an enabled leadership requirement of the primary service that has a lease
    duration; no metadata entry names a secret, a path or a location. A
    deployment manifest selects no coordination provider in standalone mode and
    both required ones in cluster mode, keeps no environment literal and no
    provider setting under a key that names a secret, has TLS keys exactly when
    TLS is on, and a stall timeout above the watchdog's interval. A runtime
    manifest loads only declared capabilities, and its leadership is scoped to
    its service. *)
Theorem manifests_are_sound :
  (∀ m, Application.manifest m → Application.well_formed m) ∧
  (∀ data m, Deployment.build data = Ok m → Deployment.well_formed m) ∧
  (∀ m, Host.manifest m → Host.well_formed m).
Proof.
  split_and!.
  - intros m Hm. by apply Application.validate_well_formed, Application.manifest_validates.
  - intros data m H. by apply Deployment.build_well_formed in H as [-> ?].
  - intros m Hm. by apply Host.host_validate_well_formed, Host.host_manifests_validate.
Qed.

(** ** Witnesses *)

Module ManifestDemo.
Definition application : ContractResult Application.ApplicationManifestV1 :=
  r ← requirements_new "1.0.0" "1";
  m ← Application.application_new "app.docs" "1.2.0" "Docs" "Vendor" "docs.read" r;
  l ← leadership_new "docs.read" Required 5000;
  m ← Application.with_leadership m l;
  c ← capability_new "docs.write" "1" Command VisibleCluster;
  Application.with_capability m c.
Definition deployment : Deployment.DeploymentManifestV1 :=
  Deployment.builder_new "install-1" "app.docs" Standalone (Deployment.provider_new "file")
    (Deployment.network_new "http" "http").
End ManifestDemo.

Lemma manifests_are_sound_witness :
  match ManifestDemo.application with Ok m => Application.well_formed m | Err _ => False end ∧
  Deployment.well_formed ManifestDemo.deployment.
Proof.
  split; [|apply (proj1 (proj2 manifests_are_sound) ManifestDemo.deployment); vm_compute; reflexivity].
  unfold ManifestDemo.application.
  destruct (requirements_new "1.0.0" "1") as [r|e] eqn:E1; [|vm_compute in E1; discriminate]. cbn [mbind result_bind].
  destruct (Application.application_new _ _ _ _ _ r) as [m|e] eqn:E2; cbn [mbind result_bind].
  2: { revert E2. injection E1 as <-. intros E2. vm_compute in E2. discriminate. }
  destruct (leadership_new "docs.read" Required 5000) as [l|e] eqn:E3; [|vm_compute in E3; discriminate].
  cbn [mbind result_bind].
  destruct (Application.with_leadership m l) as [m2|e] eqn:E4; cbn [mbind result_bind].
  2: { injection E1 as <-. injection E3 as <-. vm_compute in E2. injection E2 as <-. vm_compute in E4. discriminate. }
  destruct (capability_new _ _ _ _) as [c|e] eqn:E5; [|vm_compute in E5; discriminate]. cbn [mbind result_bind].
  destruct (Application.with_capability m2 c) as [m3|e] eqn:E6.
  2: { injection E1 as <-. injection E3 as <-. injection E5 as <-. vm_compute in E2. injection E2 as <-.
       vm_compute in E4. injection E4 as <-. vm_compute in E6. discriminate. }
  apply (proj1 manifests_are_sound). eapply Application.manifest_capability; [|exact E6].
  eapply Application.manifest_leadership; [|exact E4]. by eapply Application.manifest_new.
Defined.
