(* ===== verification/Distributed.v ===== *)
(** What distributed cores tell each other: the structured manifest of
    [crates/appcore-types/src/manifest.rs] and the control-plane and leadership
    contracts of [crates/appcore-distributed-contracts/src/control_plane/v1.rs]. *)

From S2P Require Import Prelude.
From S2P Require Import Text.
From S2P Require Import Types.
From S2P Require Import Contracts.
From S2P Require Import Manifests.

Local Open Scope N_scope.

(** ** [manifest.rs] *)

Inductive CapabilityMode := Query | Command | Stream.
#[export] Instance CapabilityMode_eq_dec : EqDecision CapabilityMode.
Proof. solve_decision. Defined.
Inductive CapabilityVisibility := Local | Cluster | Tenant.
#[export] Instance CapabilityVisibility_eq_dec : EqDecision CapabilityVisibility.
Proof. solve_decision. Defined.

Record CapabilityRequirements := { requires_leader : bool; read_only : bool; idempotency_required : bool }.
#[export] Instance CapabilityRequirements_eq_dec : EqDecision CapabilityRequirements.
Proof. solve_decision. Defined.

Record CapabilityDescriptor := {
  name : string;
  version : string;
  mode : CapabilityMode;
  visibility : CapabilityVisibility;
  requirements : CapabilityRequirements;
}.
#[export] Instance CapabilityDescriptor_eq_dec : EqDecision CapabilityDescriptor.
Proof. solve_decision. Defined.
Definition descriptor_new (n v : string) (m : CapabilityMode) (vis : CapabilityVisibility) : CapabilityDescriptor :=
  {| name := n; version := v; mode := m; visibility := vis;
     requirements := {| requires_leader := false; read_only := false; idempotency_required := false |} |}.
Definition with_requirements (d : CapabilityDescriptor) (r : CapabilityRequirements) : CapabilityDescriptor :=
  {| name := name d; version := version d; mode := mode d; visibility := visibility d; requirements := r |}.

Definition from_application_declaration (c : CapabilityDeclaration) : RuntimeResult CapabilityDescriptor :=
  let m := match capability_mode c with
           | Contracts.Query => Query | Contracts.Command => Command | Contracts.Stream => Stream end in
  let vis := match capability_visibility c with
             | VisibleLocal => Local | VisibleCluster => Cluster | VisibleTenant => Tenant end in
  n ← identifier_new "CapabilityName" (capability_id c);
  Ok (with_requirements (descriptor_new n (capability_version c) m vis)
        {| requires_leader := Contracts.requires_leader c;
           read_only := bool_decide (capability_mode c = Contracts.Query);
           idempotency_required := Contracts.idempotency_required c |}).

Record PeerEndpoint := {
  endpoint_name : string; url : string; protocol : string; endpoint_metadata : gmap string string;
}.
#[export] Instance PeerEndpoint_eq_dec : EqDecision PeerEndpoint.
Proof. solve_decision. Defined.

Record DistributedCoreManifest := {
  identity : CoreIdentity;
  app_name : string;
  app_version : string;
  runtime_min_version : string;
  runtime_max_version : option string;
  capabilities : list CapabilityDescriptor;
  endpoints : list PeerEndpoint;
  metadata : gmap string string;
}.
#[export] Instance DistributedCoreManifest_eq_dec : EqDecision DistributedCoreManifest.
Proof. solve_decision. Defined.

(** [collect::<Result<Vec<_>>>()]. *)
Fixpoint collect {E A B} (f : A → result E B) (l : list A) : result E (list B) :=
  match l with
  | [] => Ok []
  | a :: l' => b ← f a; bs ← collect f l'; Ok (b :: bs)
  end.
Definition from_application_manifest (m : Application.ApplicationManifestV1) (i : CoreIdentity) :
    RuntimeResult DistributedCoreManifest :=
  caps ← collect from_application_declaration (Application.capabilities m);
  Ok {| identity := i; app_name := Application.display_name m; app_version := Application.application_version m;
        runtime_min_version := minimum_runtime_version (Application.requirements m);
        runtime_max_version := maximum_runtime_version (Application.requirements m);
        capabilities := caps; endpoints := []; metadata := ∅ |}.
Definition capability_names (m : DistributedCoreManifest) : list string := map name (capabilities m).
Definition supports_capability (m : DistributedCoreManifest) (capability : string) : bool :=
  existsb (λ d, bool_decide (name d = capability)) (capabilities m).
Definition check_peer_compatibility (m peer : DistributedCoreManifest) (p : CoreCompatibilityPolicy) :
    CoreCompatibilityStatus :=
  core_check_compatibility (identity m) (identity peer) p (capability_names peer).

(** ** [control_plane/v1.rs] *)

Inductive ControlPlaneError :=
| Offline
| Timeout
| Rejected (message : string)
| Conflict (message : string)
| InvalidResponse (message : string)
| Transport (message : string)
| LeaseUnavailable.
#[export] Instance ControlPlaneError_eq_dec : EqDecision ControlPlaneError.
Proof. solve_decision. Defined.
Abbreviation ControlPlaneResult := (result ControlPlaneError).

Record CoreRegistration := {
  manifest : DistributedCoreManifest; registered_at_ms : N; operation_mode : RuntimeOperationalMode;
}.
#[export] Instance CoreRegistration_eq_dec : EqDecision CoreRegistration.
Proof. solve_decision. Defined.
Record CorePresence := {
  presence_identity : CoreIdentity; presence_mode : RuntimeOperationalMode; healthy : bool; last_seen_ms : N;
}.
#[export] Instance CorePresence_eq_dec : EqDecision CorePresence.
Proof. solve_decision. Defined.
Record HeartbeatRequest := {
  heartbeat_identity : CoreIdentity; heartbeat_mode : RuntimeOperationalMode; sent_at_ms : N;
}.
Record HeartbeatResponse := {
  accepted : bool; server_time_ms : N; response_mode : RuntimeOperationalMode;
}.
#[export] Instance HeartbeatResponse_eq_dec : EqDecision HeartbeatResponse.
Proof. solve_decision. Defined.
Record PeerRecord := {
  peer_identity : CoreIdentity;
  peer_endpoints : list PeerEndpoint;
  peer_capabilities : list CapabilityDescriptor;
  peer_healthy : bool;
  peer_last_seen_ms : N;
  peer_metadata : gmap string string;
}.
Record PeerDirectory := {
  directory_tenant : string; directory_cluster : option string; peers : list PeerRecord; refreshed_at_ms : N;
}.
Record ServiceLeaderLease := {
  service_id : string;
  lease_tenant : string;
  lease_cluster : string;
  holder_core_id : string;
  epoch : N;
  acquired_at_ms : N;
  expires_at_ms : N;
}.
#[export] Instance ServiceLeaderLease_eq_dec : EqDecision ServiceLeaderLease.
Proof. solve_decision. Defined.

Inductive LeadershipDecision := Allowed | NoLease | Expired | StaleEpoch | WrongHolder.
#[export] Instance LeadershipDecision_eq_dec : EqDecision LeadershipDecision.
Proof. solve_decision. Defined.

(** A provider of presence, discovery and leadership, over its state [P]. *)
Class ControlPlaneProvider (P : Type) := {
  plane_env : Type;
  register : plane_env → CoreRegistration → op P ControlPlaneError CorePresence;
  heartbeat : plane_env → HeartbeatRequest → op P ControlPlaneError HeartbeatResponse;
  discover_peers : plane_env → CoreIdentity → op P ControlPlaneError PeerDirectory;
  acquire_or_renew_service_lease :
    plane_env → CoreIdentity → string → N → N → op P ControlPlaneError ServiceLeaderLease;
  release_service_lease : plane_env → ServiceLeaderLease → op P ControlPlaneError ();
}.

(** A guard over its state [G]. *)
Class ServiceLeadershipGuard (G : Type) := {
  current_service_lease : G → string → option ServiceLeaderLease;
  check_service_write_permission :
    G → string → string → string → string → option N → N → LeadershipDecision;
}.

(** ** [peer_rpc/v1.rs]: the answer to a peer query or command *)

Record PeerRpcResponse := {
  rpc_ok : bool; rpc_request_id : string; rpc_payload : list byte; rpc_error : option string;
}.
#[export] Instance PeerRpcResponse_eq_dec : EqDecision PeerRpcResponse.
Proof. solve_decision. Defined.
Definition rpc_response_ok (request_id : string) (payload : list byte) : PeerRpcResponse :=
  {| rpc_ok := true; rpc_request_id := request_id; rpc_payload := payload; rpc_error := None |}.
Definition rpc_response_rejected (request_id error : string) : PeerRpcResponse :=
  {| rpc_ok := false; rpc_request_id := request_id; rpc_payload := []; rpc_error := Some error |}.

(** Application declarations keep their capabilities: the advertised descriptor
    requires a leader and a key exactly when the declaration does, and is read
    only exactly when it is a query. *)
Lemma declaration_requirements c d :
  from_application_declaration c = Ok d →
  name d = capability_id c ∧ requires_leader (requirements d) = Contracts.requires_leader c ∧
  idempotency_required (requirements d) = Contracts.idempotency_required c ∧
  (read_only (requirements d) = true ↔ capability_mode c = Contracts.Query).
Proof.
  unfold from_application_declaration, identifier_new.
  destruct (validate_identifier _ _); [|done]. cbn. intros [= <-]. cbn. by rewrite bool_decide_eq_true.
Qed.
