(* ===== verification/Disk.v ===== *)
(** What a file system does to the text of one file: the outcomes of an
    append and of an atomic replacement, which the journal and the idempotency
    store share. An outcome is an input of the model; [E] is the error type of
    the caller, built from the operation's name and the system's message. *)

From S2P Require Import Prelude.
From S2P Require Import Text.

(** Opening, writing a line and syncing the data: an append may be torn after
    some bytes, or written but not synced. *)
Inductive Append :=
| Appended
| OpenFailed (message : string)
| Torn (bytes : nat) (message : string)
| Unsynced (message : string).

(** Writing a temporary file, renaming it and syncing the directory. *)
Inductive AtomicWrite :=
| Written
| NotWritten (operation message : string)
| WrittenUnsynced (operation message : string).

Section Disk.
Context {E : Type} (error : string → string → E).

Definition append_text (open_op write_op sync_op : string) (a : Append) (bytes : string) :
    op string E () :=
  match a with
  | Appended => op_modify (λ t, t +:+ bytes)
  | OpenFailed m => op_fail (error open_op m)
  | Torn n m => _ ← op_modify (λ t, t +:+ str_take n bytes); op_fail (error write_op m)
  | Unsynced m => _ ← op_modify (λ t, t +:+ bytes); op_fail (error sync_op m)
  end.

Definition atomic_write (w : AtomicWrite) (t : string) : op string E () :=
  match w with
  | Written => op_modify (λ _, t)
  | NotWritten operation m => op_fail (error operation m)
  | WrittenUnsynced operation m => _ ← op_modify (λ _, t); op_fail (error operation m)
  end.
End Disk.

(** [complete_line_prefix] of both files: the complete lines, and whether a
    torn one follows. *)
Definition complete_line_prefix (body : string) : string * bool :=
  let '(complete, tail) := split_last_line body in
  (complete, negb (bool_decide (tail = EmptyString))).
