(* ===== verification/ControlPlane.v ===== *)
(** The control plane of [crates/appcore-control-plane]: the in-memory plane
    ([memory.rs]), the file plane that runs it on a reloaded state
    ([file.rs]), the offline plane ([offline.rs]), the heartbeat coordinator
    ([coordinator.rs]), the leadership guard of a core ([leadership.rs]) and
    the retrying client ([client.rs]).

    Service leases are fenced by epochs: the theorems say who can hold
    leadership at one time. *)

From S2P Require Import Prelude.
From S2P Require Import Text.
From S2P Require Import Types.
From S2P Require Import Contracts.
From S2P Require Import Distributed.
From S2P Require Import Disk.

Local Open Scope N_scope.

(** ** [memory.rs] *)

Record ServiceLeaseSlot := { lease : option ServiceLeaderLease; last_epoch : N }.
#[export] Instance ServiceLeaseSlot_eq_dec : EqDecision ServiceLeaseSlot.
Proof. solve_decision. Defined.
Definition slot_default : ServiceLeaseSlot := {| lease := None; last_epoch := 0 |}.
Record InMemoryState := {
  registrations : gmap string CoreRegistration;
  service_leases : gmap string ServiceLeaseSlot;
}.
#[export] Instance InMemoryState_eq_dec : EqDecision InMemoryState.
Proof. solve_decision. Defined.
Definition state_default : InMemoryState := {| registrations := ∅; service_leases := ∅ |}.
Abbreviation plane := (op InMemoryState ControlPlaneError).

Definition key_of (a b c : string) : string := a +:+ ":" +:+ b +:+ ":" +:+ c.
Definition instance_key (i : CoreIdentity) : string := key_of (tenant_id i) (cluster_id i) (instance_id i).
Definition service_lease_key (tenant cluster service : string) : string := key_of tenant cluster service.

Definition is_routable (m : RuntimeOperationalMode) : bool :=
  match m with ReadWrite | ReadOnly | Syncing => true | _ => false end.

Definition lease_expiration (now_ms ttl_ms : N) : ControlPlaneResult N :=
  if ttl_ms =? 0 then Err (Rejected "lease ttl must be greater than zero")
  else ok_or (Rejected "lease expiration exceeds the clock range") (checked_add64 now_ms ttl_ms).

Definition put_registrations (r : gmap string CoreRegistration) : plane () :=
  op_modify (λ s, {| registrations := r; service_leases := service_leases s |}).
Definition put_slot (k : string) (slot : ServiceLeaseSlot) : plane () :=
  op_modify (λ s, {| registrations := registrations s; service_leases := <[k := slot]> (service_leases s) |}).

Definition prune_registrations (cutoff_ms : N) : plane N :=
  s ← op_get;
  let kept := filter (λ e : string * CoreRegistration, cutoff_ms ≤ registered_at_ms e.2) (registrations s) in
  _ ← put_registrations kept;
  mret (sizeN (registrations s) - sizeN kept).

Definition memory_register (r : CoreRegistration) : plane CorePresence :=
  let i := identity (manifest r) in
  let presence := {| presence_identity := i; presence_mode := operation_mode r;
                     healthy := is_routable (operation_mode r); last_seen_ms := registered_at_ms r |} in
  s ← op_get;
  _ ← put_registrations (<[instance_key i := r]> (registrations s));
  mret presence.

Definition memory_heartbeat (q : HeartbeatRequest) : plane HeartbeatResponse :=
  s ← op_get;
  let k := instance_key (heartbeat_identity q) in
  _ ← match registrations s !! k with
      | Some r =>
        put_registrations (<[k := {| manifest := manifest r; registered_at_ms := sent_at_ms q;
                                     operation_mode := heartbeat_mode q |}]> (registrations s))
      | None => mret ()
      end;
  mret {| accepted := true; server_time_ms := sent_at_ms q; response_mode := heartbeat_mode q |}.

Definition is_peer_of (i : CoreIdentity) (r : CoreRegistration) : bool :=
  let p := identity (manifest r) in
  bool_decide (tenant_id p = tenant_id i) && bool_decide (cluster_id p = cluster_id i)
  && negb (bool_decide (instance_id p = instance_id i)).
Definition peer_record (r : CoreRegistration) : PeerRecord :=
  {| peer_identity := identity (manifest r); peer_endpoints := endpoints (manifest r);
     peer_capabilities := capabilities (manifest r); peer_healthy := is_routable (operation_mode r);
     peer_last_seen_ms := registered_at_ms r; peer_metadata := metadata (manifest r) |}.
Definition memory_discover_peers (i : CoreIdentity) : plane PeerDirectory :=
  s ← op_get;
  mret {| directory_tenant := tenant_id i; directory_cluster := Some (cluster_id i);
          peers := map peer_record (List.filter (is_peer_of i) (btree_iter (registrations s)).*2);
          refreshed_at_ms := 0 |}.

Definition memory_acquire (i : CoreIdentity) (service : string) (ttl_ms now_ms : N) : plane ServiceLeaderLease :=
  expires ← op_lift (lease_expiration now_ms ttl_ms);
  s ← op_get;
  let k := service_lease_key (tenant_id i) (cluster_id i) service in
  let slot := default slot_default (service_leases s !! k) in
  _ ← put_slot k slot;
  l ← match lease slot with
      | Some c =>
        if now_ms <? expires_at_ms c then
          if bool_decide (holder_core_id c = core_id i) then
            mret {| service_id := service_id c; lease_tenant := lease_tenant c; lease_cluster := lease_cluster c;
                    holder_core_id := holder_core_id c; epoch := epoch c; acquired_at_ms := acquired_at_ms c;
                    expires_at_ms := expires |}
          else op_fail LeaseUnavailable
        else
          e ← op_lift (ok_or (Conflict "service lease fencing epoch exhausted") (checked_add64 (last_epoch slot) 1));
          mret {| service_id := service; lease_tenant := tenant_id i; lease_cluster := cluster_id i;
                  holder_core_id := core_id i; epoch := e; acquired_at_ms := now_ms; expires_at_ms := expires |}
      | None =>
        e ← op_lift (ok_or (Conflict "service lease fencing epoch exhausted") (checked_add64 (last_epoch slot) 1));
        mret {| service_id := service; lease_tenant := tenant_id i; lease_cluster := cluster_id i;
                holder_core_id := core_id i; epoch := e; acquired_at_ms := now_ms; expires_at_ms := expires |}
      end;
  _ ← put_slot k {| lease := Some l; last_epoch := N.max (last_epoch slot) (epoch l) |};
  mret l.

Definition release_conflict : ControlPlaneError :=
  Conflict "service lease release does not match current epoch and holder".
Definition lease_matches (l : ServiceLeaderLease) (slot : ServiceLeaseSlot) : bool :=
  match lease slot with
  | Some c => bool_decide (holder_core_id c = holder_core_id l) && (epoch c =? epoch l)
  | None => false
  end.
Definition memory_release (l : ServiceLeaderLease) : plane () :=
  s ← op_get;
  let k := service_lease_key (lease_tenant l) (lease_cluster l) (service_id l) in
  match service_leases s !! k with
  | None => mret ()
  | Some slot =>
    if negb (lease_matches l slot) then op_fail release_conflict
    else put_slot k {| lease := None; last_epoch := last_epoch slot |}
  end.

#[export] Instance memory_plane : ControlPlaneProvider InMemoryState := {
  plane_env := ();
  register _ := memory_register;
  heartbeat _ := memory_heartbeat;
  discover_peers _ := memory_discover_peers;
  acquire_or_renew_service_lease _ := memory_acquire;
  release_service_lease _ := memory_release;
}.

(** ** [offline.rs], [coordinator.rs] *)

Inductive OfflineControlPlaneClient := offline.
#[export] Instance offline_plane : ControlPlaneProvider OfflineControlPlaneClient := {
  plane_env := ();
  register _ _ := op_fail Offline;
  heartbeat _ _ := op_fail Offline;
  discover_peers _ _ := op_fail Offline;
  acquire_or_renew_service_lease _ _ _ _ _ := op_fail Offline;
  release_service_lease _ _ := op_fail Offline;
}.

Definition heartbeat_once {P} `{ControlPlaneProvider P} (allow_degraded_on_offline : bool) (env : plane_env)
    (q : HeartbeatRequest) : op P ControlPlaneError RuntimeOperationalMode := λ p,
  match heartbeat env q p with
  | (Ok response, p') => (Ok (response_mode response), p')
  | (Err Offline, p') => (if allow_degraded_on_offline then Ok DegradedMode else Err Offline, p')
  | (Err error, p') => (Err error, p')
  end.

(** ** [leadership.rs] *)

Definition StaticServiceLeadershipGuard : Type := gmap string ServiceLeaderLease.
Definition guard_new (leases : list ServiceLeaderLease) : StaticServiceLeadershipGuard :=
  foldl (λ g l, <[service_id l := l]> g) ∅ leases.

Definition set_service_lease (service : string) (l : option ServiceLeaderLease) :
    op StaticServiceLeadershipGuard ControlPlaneError () :=
  if match l with Some l => negb (bool_decide (service_id l = service)) | None => false end then
    op_fail (Conflict "service lease identity mismatch")
  else
    leases ← op_get;
    _ ← match leases !! service, l with
        | Some existing, Some replacement =>
          let same_scope := bool_decide (lease_tenant existing = lease_tenant replacement)
                            && bool_decide (lease_cluster existing = lease_cluster replacement) in
          if same_scope && (epoch replacement <? epoch existing) then op_fail (Conflict "stale lease epoch")
          else if same_scope && (epoch replacement =? epoch existing)
                  && negb (bool_decide (holder_core_id replacement = holder_core_id existing)) then
            op_fail (Conflict "lease epoch holder conflict")
          else mret ()
        | _, _ => mret ()
        end;
    match l with
    | Some l => op_modify (λ g, <[service := l]> g)
    | None => op_modify (λ g, delete service g)
    end.

Definition check_permission (g : StaticServiceLeadershipGuard) (service tenant cluster core : string)
    (min_epoch : option N) (now_ms : N) : LeadershipDecision :=
  match g !! service with
  | None => NoLease
  | Some l =>
    if expires_at_ms l <=? now_ms then Expired
    else if negb (bool_decide (service_id l = service)) || negb (bool_decide (lease_tenant l = tenant))
            || negb (bool_decide (lease_cluster l = cluster)) || negb (bool_decide (holder_core_id l = core)) then
      WrongHolder
    else if match min_epoch with Some e => epoch l <? e | None => false end then StaleEpoch
    else Allowed
  end.

#[export] Instance static_guard : ServiceLeadershipGuard StaticServiceLeadershipGuard := {
  current_service_lease g service := g !! service;
  check_service_write_permission := check_permission;
}.

(** ** Leadership over time

    A history: the plane, the leases it has handed out and those it has taken
    back, in a run of calls in any order. *)

Inductive PlaneCall :=
| Register (r : CoreRegistration)
| Heartbeat (q : HeartbeatRequest)
| Discover (i : CoreIdentity)
| Acquire (i : CoreIdentity) (service : string) (ttl_ms now_ms : N)
| Release (l : ServiceLeaderLease)
| Prune (cutoff_ms : N).

Record History := {
  plane_state : InMemoryState;
  issued : list ServiceLeaderLease;
  released : list ServiceLeaderLease;
}.
Definition history_start : History := {| plane_state := state_default; issued := []; released := [] |}.
(** The lease is the current one of its service. *)
Definition holds (l : ServiceLeaderLease) (s : InMemoryState) : bool :=
  match service_leases s !! service_lease_key (lease_tenant l) (lease_cluster l) (service_id l) with
  | Some slot => lease_matches l slot
  | None => false
  end.
Definition exec (c : PlaneCall) (h : History) : History :=
  let quiet {A} (o : plane A) := {| plane_state := (o (plane_state h)).2; issued := issued h; released := released h |} in
  match c with
  | Register r => quiet (memory_register r)
  | Heartbeat q => quiet (memory_heartbeat q)
  | Discover i => quiet (memory_discover_peers i)
  | Prune cutoff => quiet (prune_registrations cutoff)
  | Acquire i service ttl now =>
    let '(r, s) := memory_acquire i service ttl now (plane_state h) in
    {| plane_state := s; issued := match r with Ok l => issued h ++ [l] | Err _ => issued h end;
       released := released h |}
  | Release l =>
    let '(r, s) := memory_release l (plane_state h) in
    {| plane_state := s; issued := issued h; released := if is_ok r && holds l (plane_state h) then l :: released h else released h |}
  end.
Definition run (calls : list PlaneCall) : History := foldl (λ h c, exec c h) history_start calls.

(** The clock of the plane does not go back, and each service asks for one
    lease duration. *)
Fixpoint timely (period : string → N) (clock : N) (calls : list PlaneCall) : Prop :=
  match calls with
  | [] => True
  | Acquire i service ttl now :: calls' =>
    clock ≤ now ∧ ttl = period (service_lease_key (tenant_id i) (cluster_id i) service) ∧ timely period now calls'
  | _ :: calls' => timely period clock calls'
  end.
Fixpoint last_time (clock : N) (calls : list PlaneCall) : N :=
  match calls with
  | [] => clock
  | Acquire _ _ _ now :: calls' => last_time now calls'
  | _ :: calls' => last_time clock calls'
  end.

Definition lease_key (l : ServiceLeaderLease) : string :=
  service_lease_key (lease_tenant l) (lease_cluster l) (service_id l).
(** The lease's epoch has been given back. *)
Definition given_back (h : History) (l : ServiceLeaderLease) : Prop :=
  ∃ r, r ∈ released h ∧ lease_key r = lease_key l ∧ epoch r = epoch l.

Record slot_invariant (period : string → N) (h : History) (clock : N) (l : ServiceLeaderLease)
    (slot : ServiceLeaseSlot) : Prop := {
  epoch_seen : epoch l ≤ last_epoch slot;
  expiry_bounded : expires_at_ms l ≤ clock + period (lease_key l);
  old_expired : epoch l < last_epoch slot → ¬ given_back h l → expires_at_ms l ≤ clock;
  held_now : epoch l = last_epoch slot → ¬ given_back h l →
    ∃ c, lease slot = Some c ∧ holder_core_id c = holder_core_id l ∧ expires_at_ms l ≤ expires_at_ms c;
}.
Record history_ok (period : string → N) (clock : N) (h : History) : Prop := {
  current_issued k slot c : service_leases (plane_state h) !! k = Some slot → lease slot = Some c →
    c ∈ issued h ∧ lease_key c = k ∧ epoch c = last_epoch slot ∧ ¬ given_back h c;
  issued_slots l : l ∈ issued h →
    ∃ slot, service_leases (plane_state h) !! lease_key l = Some slot ∧ slot_invariant period h clock l slot;
  epoch_holder l l' : l ∈ issued h → l' ∈ issued h → lease_key l = lease_key l' → epoch l = epoch l' →
    holder_core_id l = holder_core_id l';
  released_seen r : r ∈ released h →
    ∃ slot, service_leases (plane_state h) !! lease_key r = Some slot ∧ epoch r ≤ last_epoch slot;
}.

(** *** The calls on the leases *)

Definition renewed (c : ServiceLeaderLease) (expires : N) : ServiceLeaderLease :=
  {| service_id := service_id c; lease_tenant := lease_tenant c; lease_cluster := lease_cluster c;
     holder_core_id := holder_core_id c; epoch := epoch c; acquired_at_ms := acquired_at_ms c;
     expires_at_ms := expires |}.

Inductive acquired (i : CoreIdentity) (service : string) (now expires : N) (slot : ServiceLeaseSlot) :
    ServiceLeaderLease → Prop :=
| acquired_renewed c : lease slot = Some c → now < expires_at_ms c → holder_core_id c = core_id i →
    acquired i service now expires slot (renewed c expires)
| acquired_fresh : (∀ c, lease slot = Some c → expires_at_ms c ≤ now) →
    acquired i service now expires slot
      {| service_id := service; lease_tenant := tenant_id i; lease_cluster := cluster_id i;
         holder_core_id := core_id i; epoch := last_epoch slot + 1; acquired_at_ms := now;
         expires_at_ms := expires |}.

Lemma put_slot_same k slot s :
  service_leases s !! k = Some slot →
  {| registrations := registrations s; service_leases := <[k := slot]> (service_leases s) |} = s.
Proof. intros Hk. rewrite insert_id by done. by destruct s. Qed.

Lemma memory_acquire_spec i service ttl now s :
  let k := service_lease_key (tenant_id i) (cluster_id i) service in
  let slot := default slot_default (service_leases s !! k) in
  let '(r, s') := memory_acquire i service ttl now s in
  match r with
  | Ok l =>
    0 < ttl ∧ now + ttl ≤ u64_max ∧ acquired i service now (now + ttl) slot l ∧
    s' = {| registrations := registrations s;
            service_leases := <[k := {| lease := Some l; last_epoch := N.max (last_epoch slot) (epoch l) |}]>
                                (service_leases s) |}
  | Err _ => s' = s
  end.
Proof.
  intros k slot. unfold memory_acquire, lease_expiration. destruct (N.eqb_spec ttl 0) as [|Httl]; [by autorewrite with op|].
  destruct (checked_add64 now ttl) as [expires|] eqn:Hmax; cbn [ok_or]; autorewrite with op; [|done].
  apply checked_add_Some in Hmax as [-> Hmax]. fold k. fold slot. unfold put_slot. autorewrite with op.
  set (s1 := {| registrations := registrations s; service_leases := <[k := slot]> (service_leases s) |}).
  assert (∀ c, lease slot = Some c → s1 = s) as Hsame.
  { intros c Hc. apply put_slot_same. unfold slot in *. by destruct (service_leases s !! k). }
  assert (last_epoch slot + 1 > u64_max → s1 = s) as Hfull.
  { intros Hlast. apply put_slot_same. unfold slot in *. destruct (service_leases s !! k); [done|].
    vm_compute in Hlast. discriminate. }
  assert (∀ l, {| registrations := registrations s1; service_leases := <[k := l]> (service_leases s1) |} =
               {| registrations := registrations s; service_leases := <[k := l]> (service_leases s) |}) as Hput.
  { intros l. cbn. by rewrite insert_insert_eq. }
  destruct (lease slot) as [c|] eqn:Hc.
  - destruct (N.ltb_spec now (expires_at_ms c)) as [Hlt|Hge].
    + case_bool_decide as Hcore; autorewrite with op; [|by eapply Hsame].
      rewrite Hput. split_and!; [lia|done| |done].
      by apply acquired_renewed.
    + unfold checked_add. destruct (N.leb_spec (last_epoch slot + 1) u64_max);
        cbn [ok_or]; rewrite ?op_bind_assoc; autorewrite with op; [|apply Hfull; lia].
      rewrite Hput. split_and!; [lia|done| |done].
      apply acquired_fresh. intros c' Hc'. congruence.
  - unfold checked_add. destruct (N.leb_spec (last_epoch slot + 1) u64_max);
      cbn [ok_or]; rewrite ?op_bind_assoc; autorewrite with op; [|apply Hfull; lia].
    rewrite Hput. split_and!; [lia|done| |done].
    apply acquired_fresh. intros c' Hc'. congruence.
Qed.

Lemma memory_release_spec l s :
  let '(r, s') := memory_release l s in
  if is_ok r && holds l s then
    ∃ slot, service_leases s !! lease_key l = Some slot ∧ lease_matches l slot = true ∧
      s' = {| registrations := registrations s;
              service_leases := <[lease_key l := {| lease := None; last_epoch := last_epoch slot |}]>
                                  (service_leases s) |}
  else s' = s.
Proof.
  unfold memory_release, holds. autorewrite with op. fold (lease_key l).
  destruct (service_leases s !! lease_key l) as [slot|] eqn:E; [|done].
  destruct (lease_matches l slot) eqn:Hm; cbn; [|done]. by exists slot.
Qed.

(** *** The invariant *)

Lemma quiet_leases {A} (o : plane A) s :
  (∀ s, service_leases (o s).2 = service_leases s) → service_leases (o s).2 = service_leases s.
Proof. auto. Qed.
Lemma register_leases r s : service_leases (memory_register r s).2 = service_leases s.
Proof. done. Qed.
Lemma heartbeat_leases q s : service_leases (memory_heartbeat q s).2 = service_leases s.
Proof. unfold memory_heartbeat. autorewrite with op. by destruct (registrations s !! _). Qed.
Lemma prune_leases n s : service_leases (prune_registrations n s).2 = service_leases s.
Proof. done. Qed.

Lemma history_ok_start period clock : history_ok period clock history_start.
Proof. split; cbn; intros; try set_solver. Qed.

Lemma slot_later period h h' clock clock' l slot :
  released h' = released h → clock ≤ clock' →
  slot_invariant period h clock l slot → slot_invariant period h' clock' l slot.
Proof.
  unfold given_back. intros Hr Hc [H1 H2 H3 H4]. unfold given_back in *. rewrite <- Hr in *. split; [done|lia| |done].
  intros Hlt Hg. specialize (H3 Hlt Hg). lia.
Qed.

(** A call that leaves the leases alone keeps the invariant. *)
Lemma history_quiet period clock h s :
  service_leases s = service_leases (plane_state h) →
  history_ok period clock h →
  history_ok period clock {| plane_state := s; issued := issued h; released := released h |}.
Proof.
  intros Hs [H1 H2 H3 H4]. split; cbn [plane_state issued released]; rewrite ?Hs; try done.
  intros l Hl. destruct (H2 l Hl) as (slot & Hk & [? ? ? ?]). exists slot. by split.
Qed.

Lemma not_given_back_iff h s iss r l :
  ¬ given_back {| plane_state := s; issued := iss; released := r :: released h |} l ↔
  ¬ (lease_key r = lease_key l ∧ epoch r = epoch l) ∧ ¬ given_back h l.
Proof.
  unfold given_back. cbn [released]. split.
  - intros H. split; [intros [? ?]|intros (r' & ? & ? & ?)]; apply H; [exists r|exists r']; set_solver.
  - intros [H1 H2] (r' & [->|Hin]%elem_of_cons & ? & ?); [by apply H1|]. apply H2. by exists r'.
Qed.

Lemma history_release period clock h l s' slot :
  history_ok period clock h →
  service_leases (plane_state h) !! lease_key l = Some slot → lease_matches l slot = true →
  s' = {| registrations := registrations (plane_state h);
          service_leases := <[lease_key l := {| lease := None; last_epoch := last_epoch slot |}]>
                              (service_leases (plane_state h)) |} →
  history_ok period clock {| plane_state := s'; issued := issued h; released := l :: released h |}.
Proof.
  intros [H1 H2 H3 H4] Hk Hm ->. unfold lease_matches in Hm. destruct (lease slot) as [c|] eqn:Hc; [|done].
  apply andb_true_iff in Hm as [_ He%N.eqb_eq]. destruct (H1 _ _ _ Hk Hc) as (Hin & Hkey & Hep & Hg).
  split; cbn [plane_state issued released service_leases].
  - intros k slot' c' [[<- <-]|[Hne Hs]]%lookup_insert_Some Hc'; [done|].
    destruct (H1 k slot' c' Hs Hc') as (? & ? & ? & Hg'). split_and!; try done.
    rewrite (not_given_back_iff h). split; [|done]. intros [? _]. congruence.
  - intros l' Hl'. destruct (H2 l' Hl') as (slot' & Hk' & Hinv). destruct (decide (lease_key l = lease_key l')) as [Heq|Hne].
    + rewrite <- Heq in *. rewrite Hk in Hk'. injection Hk' as <-. destruct Hinv as [I1 I2 I3 I4].
      eexists. rewrite lookup_insert_eq. split; [done|]. split; cbn [last_epoch lease]; try done.
      * intros Hlt [_ Hg']%(not_given_back_iff h). by apply I3.
      * intros Heq' [Hn _]%(not_given_back_iff h). exfalso. apply Hn. split; [done|congruence].
    + exists slot'. rewrite lookup_insert_ne by done. split; [done|]. destruct Hinv as [I1 I2 I3 I4]. split; try done.
      * intros Hlt [_ Hg']%(not_given_back_iff h). by apply I3.
      * intros Heq [_ Hg']%(not_given_back_iff h). by apply I4.
  - exact H3.
  - intros r [->|Hr]%elem_of_cons.
    + eexists. rewrite lookup_insert_eq. split; [done|]. cbn. lia.
    + destruct (H4 r Hr) as (slot' & Hk' & Hle). destruct (decide (lease_key l = lease_key r)) as [Heq|Hne].
      * rewrite <- Heq in *. eexists. rewrite lookup_insert_eq. split; [done|]. cbn.
        rewrite Hk in Hk'. by injection Hk' as <-.
      * exists slot'. by rewrite lookup_insert_ne.
Qed.

Lemma history_acquire period clock h i service ttl now l s' :
  let k := service_lease_key (tenant_id i) (cluster_id i) service in
  let slot := default slot_default (service_leases (plane_state h) !! k) in
  history_ok period clock h → clock ≤ now → ttl = period k → 0 < ttl →
  acquired i service now (now + ttl) slot l →
  s' = {| registrations := registrations (plane_state h);
          service_leases := <[k := {| lease := Some l; last_epoch := N.max (last_epoch slot) (epoch l) |}]>
                              (service_leases (plane_state h)) |} →
  history_ok period now {| plane_state := s'; issued := issued h ++ [l]; released := released h |}.
Proof.
  intros k slot [H1 H2 H3 H4] Hclock Httl Hpos Hacq ->.
  assert (∀ l', given_back {| plane_state := {| registrations := registrations (plane_state h);
     service_leases := <[k := {| lease := Some l; last_epoch := N.max (last_epoch slot) (epoch l) |}]>
       (service_leases (plane_state h)) |}; issued := issued h ++ [l]; released := released h |} l' ↔ given_back h l')
    as Hgb by done.
  assert (∀ c, lease slot = Some c → service_leases (plane_state h) !! k = Some slot) as Hslot.
  { unfold slot. intros c. by destruct (service_leases (plane_state h) !! k). }
  assert (∀ l', l' ∈ issued h → lease_key l' = k →
    service_leases (plane_state h) !! k = Some slot ∧ slot_invariant period h clock l' slot) as Hold.
  { intros l' Hl' Hk'. destruct (H2 l' Hl') as (slot' & Hs & Hinv). rewrite Hk' in Hs.
    unfold slot. rewrite Hs. by split. }
  (* the new lease: its key and epoch, and what it means for the leases before it *)
  assert (lease_key l = k ∧ expires_at_ms l = now + ttl ∧ N.max (last_epoch slot) (epoch l) = epoch l ∧
    ¬ given_back h l ∧
    (∀ l', l' ∈ issued h → lease_key l' = k → epoch l' = epoch l → holder_core_id l' = holder_core_id l) ∧
    (∀ l', l' ∈ issued h → lease_key l' = k → epoch l' < epoch l → ¬ given_back h l' → expires_at_ms l' ≤ now))
    as (Hkey & Hexp & Hmax & Hnew & Hsame & Hexpired).
  { destruct Hacq as [c Hc Hlt Hcore|Hgone].
    - destruct (H1 k slot c (Hslot c Hc) Hc) as (Hin & Hk & Hep & Hg).
      split_and!; try done; cbn [renewed epoch].
      + rewrite Hep. lia.
      + intros l' Hl' Hk' He. apply (H3 l' c); [done|done|congruence|done].
      + intros l' Hl' Hk' He Hg'. destruct (Hold l' Hl' Hk') as [_ [_ _ I3 _]]. rewrite Hep in He.
        specialize (I3 He Hg'). lia.
    - split_and!; try done; cbn [epoch].
      + lia.
      + intros (r & Hr & Hrk & Hre). destruct (H4 r Hr) as (slot' & Hs & Hle). cbn in Hrk, Hre.
        assert (slot = slot') as <- by (unfold slot; change (lease_key r = k) in Hrk; by rewrite <- Hrk, Hs).
        lia.
      + intros l' Hl' Hk' He. destruct (Hold l' Hl' Hk') as [_ [I1 _ _ _]]. lia.
      + intros l' Hl' Hk' He Hg'. destruct (Hold l' Hl' Hk') as [Hs [I1 _ I3 I4]].
        destruct (decide (epoch l' = last_epoch slot)) as [Heq|Hne].
        * destruct (I4 Heq Hg') as (c & Hc & _ & Hle). specialize (Hgone c Hc). lia.
        * specialize (I3 ltac:(lia) Hg'). lia. }
  split; cbn [plane_state issued released service_leases].
  - intros k' slot' c' [[<- <-]|[Hne Hs]]%lookup_insert_Some Hc'.
    + injection Hc' as <-. cbn [last_epoch]. split_and!; [set_solver|done|lia|by rewrite Hgb].
    + destruct (H1 k' slot' c' Hs Hc') as (? & ? & ? & ?). split_and!; try done. set_solver.
  - intros l' [Hl'|Hl']%elem_of_app.
    + destruct (decide (lease_key l' = k)) as [Hk'|Hne].
      * destruct (Hold l' Hl' Hk') as [_ [I1 I2 I3 I4]]. rewrite Hk'. eexists. rewrite lookup_insert_eq.
        split; [done|]. rewrite Hmax. split; cbn [last_epoch lease]; [lia|lia| |].
        -- intros Hlt Hg. by apply Hexpired.
        -- intros Heq Hg. exists l. split_and!; [done|by symmetry; apply Hsame|]. rewrite Hexp.
           rewrite Hk' in I2. lia.
      * destruct (H2 l' Hl') as (slot' & Hs & Hinv). exists slot'. rewrite lookup_insert_ne by done.
        split; [done|]. by apply (slot_later _ h _ clock).
    + apply list_elem_of_singleton in Hl' as ->. rewrite Hkey. eexists. rewrite lookup_insert_eq.
      split; [done|]. split; cbn [last_epoch lease]; [lia| |lia|].
      * rewrite Hkey, Hexp. lia.
      * intros _ _. by exists l.
  - intros l1 l2 [Hl1|Hl1%list_elem_of_singleton]%elem_of_app [Hl2|Hl2%list_elem_of_singleton]%elem_of_app Hk12 He12;
      subst; [by apply H3| | |done].
    + apply Hsame; congruence.
    + symmetry. apply Hsame; congruence.
  - intros r Hr. destruct (H4 r Hr) as (slot' & Hs & Hle). destruct (decide (k = lease_key r)) as [->|Hne].
    + eexists. rewrite lookup_insert_eq. split; [done|]. cbn. unfold slot. rewrite Hs. cbn. lia.
    + exists slot'. by rewrite lookup_insert_ne.
Qed.

Lemma history_ok_exec period clock h c calls :
  history_ok period clock h → timely period clock (c :: calls) →
  history_ok period (last_time clock [c]) (exec c h) ∧ timely period (last_time clock [c]) calls.
Proof.
  intros Hh Ht. destruct c as [r|q|i|i service ttl now|l|cutoff]; cbn [exec last_time]; cbn [timely] in Ht.
  - split; [|done]. by apply history_quiet.
  - split; [|done]. apply history_quiet; [apply heartbeat_leases|done].
  - split; [|done]. by apply history_quiet.
  - destruct Ht as (Hclock & Httl & Ht). split; [|done].
    pose proof (memory_acquire_spec i service ttl now (plane_state h)) as Ha.
    destruct (memory_acquire i service ttl now (plane_state h)) as [[l|e] s'].
    + destruct Ha as (Hpos & _ & Hacq & Hs). by eapply history_acquire.
    + cbn in Ha; subst s'. destruct Hh as [H1 H2 H3 H4]. split; cbn [plane_state issued released]; try done.
      intros l Hl. destruct (H2 l Hl) as (slot & Hk & Hinv). exists slot. split; [done|].
      by apply (slot_later _ h _ clock).
  - split; [|done]. pose proof (memory_release_spec l (plane_state h)) as Hr.
    destruct (memory_release l (plane_state h)) as [r s']. destruct (is_ok r && holds l (plane_state h)).
    + destruct Hr as (slot & Hk & Hm & Hs). by eapply history_release.
    + subst s'. by apply history_quiet.
  - split; [|done]. by apply history_quiet.
Qed.

Lemma history_ok_run period calls clock h :
  history_ok period clock h → timely period clock calls →
  history_ok period (last_time clock calls) (foldl (λ h c, exec c h) h calls).
Proof.
  revert clock h. induction calls as [|c calls IH]; intros clock h Hh Ht; [done|].
  destruct (history_ok_exec period clock h c calls Hh Ht) as [Hh' Ht']. specialize (IH _ _ Hh' Ht').
  by destruct c.
Qed.

(** Distinct holders of one service have distinct epochs, and at one time at
    most one core holds a lease that is valid and not given back. *)
Lemma history_fences period clock h l l' t :
  history_ok period clock h → clock ≤ t → l ∈ issued h → l' ∈ issued h → lease_key l = lease_key l' →
  (epoch l = epoch l' → holder_core_id l = holder_core_id l') ∧
  (¬ given_back h l → ¬ given_back h l' → t < expires_at_ms l → t < expires_at_ms l' →
   holder_core_id l = holder_core_id l').
Proof.
  intros [H1 H2 H3 H4] Ht Hl Hl' Hk. split; [by apply H3|]. intros Hg Hg' He He'.
  destruct (H2 l Hl) as (slot & Hs & [I1 _ I3 I4]), (H2 l' Hl') as (slot' & Hs' & [I1' _ I3' I4']).
  rewrite <- Hk, Hs in Hs'. injection Hs' as <-.
  destruct (decide (epoch l = last_epoch slot)) as [Heq|Hne]; [|specialize (I3 ltac:(lia) Hg); lia].
  destruct (decide (epoch l' = last_epoch slot)) as [Heq'|Hne]; [|specialize (I3' ltac:(lia) Hg'); lia].
  destruct (I4 Heq Hg) as (c & Hc & <- & _), (I4' Heq' Hg') as (c' & Hc' & <- & _). congruence.
Qed.

(** The guard of a core knows a lease of the service that the plane handed out
    and has not taken back, or none. *)
Definition fed (h : History) (g : StaticServiceLeadershipGuard) (service : string) : Prop :=
  ∀ l, g !! service = Some l → l ∈ issued h ∧ ¬ given_back h l.

Lemma allowed_inv g service tenant cluster core e t :
  check_permission g service tenant cluster core e t = Allowed →
  ∃ l, g !! service = Some l ∧ t < expires_at_ms l ∧ service_id l = service ∧ lease_tenant l = tenant ∧
    lease_cluster l = cluster ∧ holder_core_id l = core ∧ (∀ m, e = Some m → m ≤ epoch l).
Proof.
  unfold check_permission. destruct (g !! service) as [l|]; [|done].
  destruct (N.leb_spec (expires_at_ms l) t); [done|].
  destruct (negb (bool_decide (service_id l = service))) eqn:E1; [done|].
  destruct (negb (bool_decide (lease_tenant l = tenant))) eqn:E2; [done|].
  destruct (negb (bool_decide (lease_cluster l = cluster))) eqn:E3; [done|].
  destruct (negb (bool_decide (holder_core_id l = core))) eqn:E4; [done|]. cbn.
  intros He. exists l. apply negb_false_iff, bool_decide_eq_true in E1, E2, E3, E4. split_and!; try done.
  intros m ->. destruct (N.ltb_spec (epoch l) m); [done|lia].
Qed.

Lemma one_leader period calls t g g' service tenant cluster core core' e e' :
  timely period 0 calls → last_time 0 calls ≤ t →
  fed (run calls) g service → fed (run calls) g' service →
  check_permission g service tenant cluster core e t = Allowed →
  check_permission g' service tenant cluster core' e' t = Allowed →
  core = core'.
Proof.
  intros Ht Hlast Hf Hf' (l & Hl & He & Hsv & Htn & Hcl & <- & _)%allowed_inv
    (l' & Hl' & He' & Hsv' & Htn' & Hcl' & <- & _)%allowed_inv.
  destruct (Hf l Hl) as [Hi Hg], (Hf' l' Hl') as [Hi' Hg'].
  refine (proj2 (history_fences period _ (run calls) l l' t _ Hlast Hi Hi' _) Hg Hg' He He').
  - by apply history_ok_run; [apply history_ok_start|].
  - unfold lease_key. congruence.
Qed.


(** ** [file.rs] *)

Definition STATE_FORMAT_VERSION : N := 1.
Definition MAX_CONTROL_PLANE_STATE_BYTES : N := 16 * 1024 * 1024.
Definition update_required : ControlPlaneError := InvalidResponse "NO MORE SUPPORTED PLEASE UPDATE".
Definition state_too_large : ControlPlaneError := Rejected "control-plane state exceeds configured limit".
Definition transport_error (operation message : string) : ControlPlaneError :=
  Transport (operation +:+ ": " +:+ message).

Record StateEnvelope := { format_version : N; envelope_state : InMemoryState }.
#[export] Instance StateEnvelope_eq_dec : EqDecision StateEnvelope.
Proof. solve_decision. Defined.

(** What a call meets: the server's clock, the lock, the reading and the
    replacement of the state file. *)
Record PlaneIo := {
  plane_now_ms : N;
  plane_locked : ControlPlaneResult ();
  plane_read : ControlPlaneResult ();
  plane_written : AtomicWrite;
}.

Section FilePlane.
(** [serde_json] on envelopes. *)
Context (to_json : StateEnvelope → ControlPlaneResult string).
Context (of_json : string → option StateEnvelope).
Context (retention_ms : N).

Definition encode_envelope (e : StateEnvelope) : ControlPlaneResult string :=
  t ← to_json e;
  if MAX_CONTROL_PLANE_STATE_BYTES <? str_len t then Err state_too_large else Ok t.
Definition decode_envelope (t : string) : ControlPlaneResult StateEnvelope :=
  e ← ok_or update_required (of_json t);
  if format_version e =? STATE_FORMAT_VERSION then Ok e else Err update_required.
Definition read_bounded (io : PlaneIo) (t : string) : ControlPlaneResult string :=
  _ ← plane_read io;
  if MAX_CONTROL_PLANE_STATE_BYTES <? str_len t then Err state_too_large else Ok t.
Definition write_atomic (io : PlaneIo) (t : string) : op string ControlPlaneError () :=
  atomic_write transport_error (plane_written io) t.

Definition load_control (io : PlaneIo) (t : string) : ControlPlaneResult InMemoryState :=
  t ← read_bounded io t; e ← decode_envelope t; Ok (envelope_state e).
Definition save_control (io : PlaneIo) (s : InMemoryState) : op string ControlPlaneError () :=
  t ← op_lift (encode_envelope {| format_version := STATE_FORMAT_VERSION; envelope_state := s |});
  write_atomic io t.

(** What every contract operation does: lock, reload, run, save. *)
Definition with_control {A} (io : PlaneIo) (o : plane A) : op string ControlPlaneError A :=
  _ ← op_lift (plane_locked io);
  t ← op_get;
  s ← op_lift (load_control io t);
  let '(r, s') := o s in
  a ← op_lift r;
  _ ← save_control io s';
  mret a.

Definition prune (now_ms : N) : plane N := prune_registrations (now_ms - retention_ms).

Definition file_register (io : PlaneIo) (r : CoreRegistration) : op string ControlPlaneError CorePresence :=
  with_control io (_ ← prune (plane_now_ms io);
    memory_register {| manifest := manifest r; registered_at_ms := plane_now_ms io;
                       operation_mode := operation_mode r |}).
Definition file_heartbeat (io : PlaneIo) (q : HeartbeatRequest) : op string ControlPlaneError HeartbeatResponse :=
  with_control io (_ ← prune (plane_now_ms io);
    memory_heartbeat {| heartbeat_identity := heartbeat_identity q; heartbeat_mode := heartbeat_mode q;
                        sent_at_ms := plane_now_ms io |}).
Definition file_discover_peers (io : PlaneIo) (i : CoreIdentity) : op string ControlPlaneError PeerDirectory :=
  with_control io (_ ← prune (plane_now_ms io);
    d ← memory_discover_peers i;
    mret {| directory_tenant := directory_tenant d; directory_cluster := directory_cluster d; peers := peers d;
            refreshed_at_ms := plane_now_ms io |}).
Definition file_acquire (io : PlaneIo) (i : CoreIdentity) (service : string) (ttl_ms _client_now_ms : N) :
    op string ControlPlaneError ServiceLeaderLease :=
  with_control io (memory_acquire i service ttl_ms (plane_now_ms io)).
Definition file_release (io : PlaneIo) (l : ServiceLeaderLease) : op string ControlPlaneError () :=
  with_control io (memory_release l).

(** [with_clock], on the state file that may not exist. *)
Definition plane_open (io : PlaneIo) : op (option string) ControlPlaneError () := λ disk,
  if retention_ms =? 0 then (Err (Rejected "control-plane retention must be greater than zero"), disk)
  else match plane_locked io with
  | Err e => (Err e, disk)
  | Ok _ =>
    match disk with
    | Some t => (_ ← load_control io t; Ok (), disk)
    | None =>
      match save_control io state_default EmptyString with
      | (Ok _, t) => (Ok (), Some t)
      | (Err e, t) => (Err e, if bool_decide (t = EmptyString) then None else Some t)
      end
    end
  end.

(** [backup_to] and [restore_from], on the state file and the backup. *)
Definition backup_to (io : PlaneIo) : op (string * string) ControlPlaneError () := λ '(t, backup),
  match (_ ← plane_locked io; t' ← read_bounded io t; e ← decode_envelope t'; encode_envelope e) with
  | Err e => (Err e, (t, backup))
  | Ok encoded => let '(r, backup') := write_atomic io encoded backup in (r, (t, backup'))
  end.
Definition restore_from (io : PlaneIo) : op (string * string) ControlPlaneError () := λ '(t, backup),
  match (encoded ← read_bounded io backup; _ ← decode_envelope encoded; _ ← plane_locked io; Ok encoded) with
  | Err e => (Err e, (t, backup))
  | Ok encoded => let '(r, t') := write_atomic io encoded t in (r, (t', backup))
  end.

#[export] Instance file_plane : ControlPlaneProvider string := {
  plane_env := PlaneIo;
  register := file_register;
  heartbeat := file_heartbeat;
  discover_peers := file_discover_peers;
  acquire_or_renew_service_lease := file_acquire;
  release_service_lease := file_release;
}.

(** *** The file plane is the memory plane *)

(** Written envelopes are read back. *)
Context (J : ∀ e t, to_json e = Ok t → of_json t = Some e).

Definition holds_state (t : string) (s : InMemoryState) : Prop :=
  encode_envelope {| format_version := STATE_FORMAT_VERSION; envelope_state := s |} = Ok t.
Definition healthy_io (io : PlaneIo) : Prop :=
  plane_locked io = Ok () ∧ plane_read io = Ok () ∧ plane_written io = Written.

Lemma plane_load_held io t s :
  holds_state t s → load_control io t = (_ ← plane_read io; Ok s).
Proof.
  unfold holds_state, encode_envelope, load_control, read_bounded, decode_envelope.
  destruct (to_json _) as [t'|] eqn:E; [|done]. cbn [mbind result_bind].
  destruct (_ <? str_len t') eqn:Hmax; [done|]. intros [= ->].
  destruct (plane_read io) as [[]|]; [|done]. cbn [mbind result_bind]. rewrite Hmax. cbn [mbind result_bind].
  by rewrite (J _ _ E).
Qed.

(** What a call on the file does to a file that holds a state, beside what the
    same call does to that state. *)
Definition implements {A} (io : PlaneIo) (fo : op string ControlPlaneError A) (mo : plane A) : Prop :=
  ∀ t s, holds_state t s →
    let '(r, t') := fo t in
    let '(m, s') := mo s in
    (r = m ∧ (if is_ok m then holds_state t' s' else t' = t) ∨
     (∃ e, r = Err e) ∧ (t' = t ∨ holds_state t' s')) ∧
    (healthy_io io → (∃ t'', holds_state t'' s') → r = m).

Lemma with_control_implements {A} io (o : plane A) : implements io (with_control io o) o.
Proof.
  intros t s Ht. unfold with_control. destruct (plane_locked io) as [[]|e] eqn:El; autorewrite with op.
  2: { destruct (o s) as [m s']. split; [right; eauto|]. unfold healthy_io. rewrite El. by intros (? & _). }
  rewrite (plane_load_held io t s Ht). destruct (plane_read io) as [[]|e] eqn:Er; cbn [mbind result_bind]; autorewrite with op.
  2: { destruct (o s) as [m s']. split; [right; eauto|]. unfold healthy_io. rewrite Er. by intros (_ & ? & _). }
  destruct (o s) as [[a|e] s']; autorewrite with op; [|split; [by left|done]].
  unfold save_control. rewrite op_bind_assoc.
  destruct (encode_envelope _) as [t'|e] eqn:Ee; autorewrite with op.
  2: { split; [right; eauto|]. intros _ [t'' Ht'']. unfold holds_state in Ht''. congruence. }
  unfold write_atomic. destruct (plane_written io) eqn:Ew; cbn [atomic_write].
  - rewrite op_modify_bind, op_ret_run. split; [by left|done].
  - autorewrite with op. split; [right; eauto|]. unfold healthy_io. rewrite Ew. by intros (_ & _ & ?).
  - rewrite op_bind_assoc. rewrite op_modify_bind. autorewrite with op. split; [right; eauto|].
    unfold healthy_io. rewrite Ew. by intros (_ & _ & ?).
Qed.

(** C30: The file plane implements the in-memory plane. On a file that holds a
    state, each of its five operations answers what the in-memory plane answers
    on that state - with the server's clock in place of the client's, after
    dropping the registrations older than the retention - and leaves the file
    holding the state that plane reaches; an operation the plane refuses leaves
    the file alone. When the lock, the reading, the size limit or the
    replacement of the file fails, the call fails and the file holds the old
    state or the new one; without such a failure it does not fail by itself. *)
Theorem file_plane_implements_memory io :
  let now := plane_now_ms io in
  (∀ r, implements io (file_register io r)
     (_ ← prune now; memory_register {| manifest := manifest r; registered_at_ms := now;
                                        operation_mode := operation_mode r |})) ∧
  (∀ q, implements io (file_heartbeat io q)
     (_ ← prune now; memory_heartbeat {| heartbeat_identity := heartbeat_identity q;
                                         heartbeat_mode := heartbeat_mode q; sent_at_ms := now |})) ∧
  (∀ i, implements io (file_discover_peers io i)
     (_ ← prune now; d ← memory_discover_peers i;
      mret {| directory_tenant := directory_tenant d; directory_cluster := directory_cluster d;
              peers := peers d; refreshed_at_ms := now |})) ∧
  (∀ i service ttl client_now, implements io (file_acquire io i service ttl client_now)
     (memory_acquire i service ttl now)) ∧
  (∀ l, implements io (file_release io l) (memory_release l)).
Proof. split_and!; intros; apply with_control_implements. Qed.

Lemma late_heartbeat_on_memory q now s r :
  registrations s !! instance_key (heartbeat_identity q) = Some r → registered_at_ms r < now - retention_ms →
  (_ ← prune now; memory_heartbeat q) s =
    (Ok {| accepted := true; server_time_ms := sent_at_ms q; response_mode := heartbeat_mode q |}, (prune now s).2) ∧
  registrations (prune now s).2 !! instance_key (heartbeat_identity q) = None.
Proof.
  intros Hr Hold.
  assert (registrations (prune now s).2 !! instance_key (heartbeat_identity q) = None) as Hnone.
  { cbn. apply map_lookup_filter_None. right. intros x Hx Hle. cbn in Hle. rewrite Hr in Hx.
    injection Hx as <-. lia. }
  split; [|done]. destruct (prune now s) as [[n|e] s'] eqn:E; [|done].
  rewrite (op_ok_bind _ _ _ _ _ E). unfold memory_heartbeat. autorewrite with op. cbn [snd] in Hnone.
  rewrite Hnone. by autorewrite with op.
Qed.

(** A heartbeat that comes too late is acknowledged and lost. When the last
    report of a core is older than the retention, its heartbeat is answered as
    accepted, but the core is not among the registrations afterwards: it has
    left discovery, and only a new registration brings it back. *)
Theorem late_heartbeat_is_lost io q t s r :
  holds_state t s → healthy_io io →
  registrations s !! instance_key (heartbeat_identity q) = Some r →
  registered_at_ms r < plane_now_ms io - retention_ms →
  (∃ t', holds_state t' (prune (plane_now_ms io) s).2) →
  let '(answer, t') := file_heartbeat io q t in
  answer = Ok {| accepted := true; server_time_ms := plane_now_ms io; response_mode := heartbeat_mode q |} ∧
  ∃ s', holds_state t' s' ∧ registrations s' !! instance_key (heartbeat_identity q) = None.
Proof.
  intros Ht Hio Hr Hold Hfits.
  set (q' := {| heartbeat_identity := heartbeat_identity q; heartbeat_mode := heartbeat_mode q;
                sent_at_ms := plane_now_ms io |}).
  destruct (late_heartbeat_on_memory q' (plane_now_ms io) s r Hr Hold) as [Hrun Hnone].
  pose proof (with_control_implements io (_ ← prune (plane_now_ms io); memory_heartbeat q') t s Ht) as Hi.
  unfold file_heartbeat. fold q'. destruct (with_control io _ t) as [answer t']. rewrite Hrun in Hi.
  destruct Hi as [Hcase Hlive]. rewrite (Hlive Hio Hfits) in *. split; [done|].
  destruct Hcase as [[_ Hh]|[[e He] _]]; [|done]. by exists (prune (plane_now_ms io) s).2.
Qed.
End FilePlane.

(** ** Witnesses *)

Module PlaneDemo.
Definition core (name : string) : CoreIdentity :=
  {| tenant_id := "tenant"; cluster_id := "cluster"; core_id := name; instance_id := name; core_kind := "operational";
     protocol_version := 1;
     runtime := {| app_id := "app"; app_family := "family"; sync_group := "cluster"; runtime_contract := 1;
                   node_id := name |} |}.
Definition registration (name : string) (at_ms : N) : CoreRegistration :=
  {| manifest := {| identity := core name; app_name := "app"; app_version := "1"; runtime_min_version := "1";
                    runtime_max_version := None; capabilities := []; endpoints := []; metadata := ∅ |};
     registered_at_ms := at_ms; operation_mode := ReadWrite |}.
(** Core a acquires, gives back, core b acquires and renews. *)
Definition lease_of (name : string) (e acquired_at expires : N) : ServiceLeaderLease :=
  {| service_id := "svc"; lease_tenant := "tenant"; lease_cluster := "cluster"; holder_core_id := name; epoch := e;
     acquired_at_ms := acquired_at; expires_at_ms := expires |}.
Definition calls : list PlaneCall :=
  [Register (registration "a" 1); Acquire (core "a") "svc" 10 1; Release (lease_of "a" 1 1 11);
   Acquire (core "b") "svc" 10 3; Acquire (core "b") "svc" 10 8].
Definition guard : StaticServiceLeadershipGuard := guard_new [lease_of "b" 2 3 18].

Definition registered : InMemoryState := (memory_register (registration "a" 0) state_default).2.
Definition leased : InMemoryState := (memory_acquire (core "a") "svc" 10 5 state_default).2.
Definition envelope (s : InMemoryState) : StateEnvelope :=
  {| format_version := STATE_FORMAT_VERSION; envelope_state := s |}.
(** An encoding of the three states the witnesses reach. *)
Definition to_json (e : StateEnvelope) : ControlPlaneResult string :=
  if bool_decide (e = envelope state_default) then Ok "none"
  else if bool_decide (e = envelope registered) then Ok "registered"
  else if bool_decide (e = envelope leased) then Ok "leased"
  else Err (InvalidResponse "unsupported").
Definition of_json (t : string) : option StateEnvelope :=
  if bool_decide (t = "none") then Some (envelope state_default)
  else if bool_decide (t = "registered") then Some (envelope registered)
  else if bool_decide (t = "leased") then Some (envelope leased)
  else None.
Lemma plane_json_roundtrip e t : to_json e = Ok t → of_json t = Some e.
Proof.
  unfold to_json. case_bool_decide as H1; [intros [= <-]; by subst|].
  case_bool_decide as H2; [intros [= <-]; by subst|]. case_bool_decide as H3; [intros [= <-]; by subst|done].
Qed.
Definition io (now : N) : PlaneIo :=
  {| plane_now_ms := now; plane_locked := Ok (); plane_read := Ok (); plane_written := Written |}.
End PlaneDemo.

Lemma plane_demo_timely : timely (λ _, 10) 0 PlaneDemo.calls.
Proof. vm_compute. split_and!; (discriminate || reflexivity || exact I). Qed.
Lemma plane_demo_fed : fed (run PlaneDemo.calls) PlaneDemo.guard "svc".
Proof.
  intros l Hl. assert (l = PlaneDemo.lease_of "b" 2 3 18) as -> by (vm_compute in Hl; injection Hl as <-; reflexivity).
  split.
  - vm_compute. do 2 right. left.
  - intros (r & Hr & _ & He). vm_compute in Hr. apply list_elem_of_singleton in Hr as ->. vm_compute in He. discriminate.
Qed.


Lemma file_plane_implements_memory_witness :
  (file_acquire PlaneDemo.to_json PlaneDemo.of_json (PlaneDemo.io 5) (PlaneDemo.core "a") "svc" 10 0 "none").1
    = Ok (PlaneDemo.lease_of "a" 1 5 15).
Proof.
  destruct (file_plane_implements_memory PlaneDemo.to_json PlaneDemo.of_json 100 PlaneDemo.plane_json_roundtrip
              (PlaneDemo.io 5)) as (_ & _ & _ & Hacq & _).
  specialize (Hacq (PlaneDemo.core "a") "svc"%string 10 0 "none"%string state_default ltac:(vm_compute; reflexivity)).
  destruct (file_acquire _ _ _ _ _ _ _ _) as [r t']. cbn [fst].
  destruct (memory_acquire _ _ _ _ state_default) as [m s'] eqn:Em.
  rewrite (proj2 Hacq); [vm_compute in Em; injection Em as <- _; reflexivity|done|].
  exists "leased"%string. assert (s' = PlaneDemo.leased) as -> by (unfold PlaneDemo.leased;
    change (plane_now_ms (PlaneDemo.io 5)) with 5 in Em; by rewrite Em). vm_compute. reflexivity.
Defined.

Lemma late_heartbeat_is_lost_witness :
  (file_heartbeat PlaneDemo.to_json PlaneDemo.of_json 100 (PlaneDemo.io 200)
    {| heartbeat_identity := PlaneDemo.core "a"; heartbeat_mode := ReadWrite; sent_at_ms := 199 |} "registered").1
  = Ok {| accepted := true; server_time_ms := 200; response_mode := ReadWrite |}.
Proof.
  pose proof (late_heartbeat_is_lost PlaneDemo.to_json PlaneDemo.of_json 100 PlaneDemo.plane_json_roundtrip (PlaneDemo.io 200)
    {| heartbeat_identity := PlaneDemo.core "a"; heartbeat_mode := ReadWrite; sent_at_ms := 199 |}
    "registered" PlaneDemo.registered (PlaneDemo.registration "a" 0)) as H.
  destruct (file_heartbeat _ _ _ _ _ _) as [answer t']. apply H.
  - vm_compute. reflexivity.
  - done.
  - vm_compute. reflexivity.
  - vm_compute. reflexivity.
  - exists "none"%string. vm_compute. reflexivity.
Defined.
