(* ===== verification/Capabilities.v ===== *)
(** Resolving and running capabilities: [crates/appcore-capabilities]. The
    registry of local handlers ([registry.rs]), the catalog ([catalog.rs]), the
    requirements of a request ([policy.rs]), selection ([selection.rs]), the
    resolver ([resolver.rs]) and the peer RPC invoker ([peer_rpc_invoker.rs]).

    Handlers and peers act on a world [W]; a guard answers for leadership. *)

From S2P Require Import Prelude.
From S2P Require Import Text.
From S2P Require Import Types.
From S2P Require Import Contracts.
From S2P Require Import Distributed.
From S2P Require Import ControlPlane.

Local Open Scope N_scope.

(** ** [contract.rs] *)

Inductive CapabilityError :=
| DescriptorAlreadyRegistered (c : string)
| CapabilityNotDeclared (c : string)
| HandlerAlreadyRegistered (c : string)
| HandlerNotFound (c : string)
| ProviderUnavailable (c : string)
| RequiresLeader (c : string)
| LeaseExpired (c : string)
| StaleLeaseEpoch (c : string)
| WritesDisabled (c : string)
| RemoteEndpointUnavailable (c : string)
| RemoteInvocationFailed (message : string)
| HandlerRejected (reason : string).
#[export] Instance CapabilityError_eq_dec : EqDecision CapabilityError.
Proof. solve_decision. Defined.
Abbreviation CapabilityResult := (result CapabilityError).

Record CapabilityRequest := {
  request_id : string;
  capability : string;
  request_mode : CapabilityMode;
  payload : list byte;
  idempotency_key : option string;
  trace : option TraceContext;
}.
Record CapabilityResponse := {
  response_accepted : bool;
  response_payload : list byte;
  provider_core_id : option string;
  response_message : option string;
}.
Definition response_ok (p : list byte) (core : option string) : CapabilityResponse :=
  {| response_accepted := true; response_payload := p; provider_core_id := core; response_message := None |}.
Definition response_rejected (m : string) : CapabilityResponse :=
  {| response_accepted := false; response_payload := []; provider_core_id := None; response_message := Some m |}.

(** [LocalCapabilityHandler]: application code of type [H]. *)
Class LocalCapabilityHandler (H W : Type) := {
  handler_descriptor : H → CapabilityDescriptor;
  is_healthy : H → W → bool;
  handler_handle : H → CapabilityRequest → op W CapabilityError CapabilityResponse;
}.
(** [RemoteCapabilityInvoker]. *)
Class RemoteCapabilityInvoker (I W : Type) := {
  invoke_remote : I → PeerRecord → CapabilityRequest → op W CapabilityError CapabilityResponse;
}.

(** ** [policy.rs] *)

Definition enforce_request_requirements (q : CapabilityRequest) (d : CapabilityDescriptor) : CapabilityResult () :=
  if negb (bool_decide (mode d = request_mode q)) then Err (HandlerRejected "capability_mode_mismatch")
  else if read_only (requirements d) && negb (bool_decide (request_mode q = Query)) then
    Err (HandlerRejected "read_only_capability")
  else if idempotency_required (requirements d) && bool_decide (idempotency_key q = None) then
    Err (HandlerRejected "missing_idempotency_key")
  else Ok ().

Definition map_leadership_decision (q : CapabilityRequest) (d : LeadershipDecision) : CapabilityResult () :=
  match d with
  | Allowed => Ok ()
  | Expired => Err (LeaseExpired (capability q))
  | StaleEpoch => Err (StaleLeaseEpoch (capability q))
  | NoLease | WrongHolder => Err (RequiresLeader (capability q))
  end.

Section Policy.
Context {G : Type} `{!ServiceLeadershipGuard G}.

Definition enforce_requirements (i : CoreIdentity) (service : string) (q : CapabilityRequest)
    (d : CapabilityDescriptor) (provider_core : string) (leadership : option G) (writes_allowed : bool)
    (now_ms : N) : CapabilityResult () :=
  _ ← enforce_request_requirements q d;
  if bool_decide (request_mode q = Command) && negb writes_allowed then Err (WritesDisabled (capability q))
  else if negb (requires_leader (requirements d)) then Ok ()
  else match leadership with
       | None => Err (RequiresLeader (capability q))
       | Some g =>
         map_leadership_decision q
           (check_service_write_permission g service (tenant_id i) (cluster_id i) provider_core None now_ms)
       end.

(** What the checks of a request leave. *)
Lemma request_requirements_ok q d :
  enforce_request_requirements q d = Ok () →
  mode d = request_mode q ∧ (read_only (requirements d) = true → request_mode q = Query) ∧
  (idempotency_required (requirements d) = true → is_Some (idempotency_key q)).
Proof.
  unfold enforce_request_requirements. case_bool_decide as Hm; cbn; [|done].
  destruct (read_only _ && _) eqn:Ero; [done|]. destruct (idempotency_required _ && _) eqn:Eid; [done|]. intros _.
  split_and!; [done| |].
  - intros Hro. rewrite Hro in Ero. by apply negb_false_iff, bool_decide_eq_true in Ero.
  - intros Hid. rewrite Hid in Eid. apply bool_decide_eq_false in Eid. by apply not_eq_None_Some.
Qed.
Lemma requirements_ok i service q d core g writes now :
  enforce_requirements i service q d core g writes now = Ok () →
  enforce_request_requirements q d = Ok () ∧ (request_mode q = Command → writes = true) ∧
  (requires_leader (requirements d) = true → ∃ guard, g = Some guard ∧
     check_service_write_permission guard service (tenant_id i) (cluster_id i) core None now = Allowed).
Proof.
  unfold enforce_requirements. destruct (enforce_request_requirements q d) as [[]|]; [|done]. cbn [mbind result_bind].
  destruct (bool_decide (request_mode q = Command) && negb writes) eqn:Ew; [done|]. intros Hl. split_and!; [done| |].
  - intros Hc. rewrite bool_decide_eq_true_2 in Ew by done. by apply negb_false_iff in Ew.
  - intros Hlead. rewrite Hlead in Hl. cbn in Hl. destruct g as [guard|]; [|done]. exists guard. split; [done|].
    by destruct (check_service_write_permission _ _ _ _ _ _ _).
Qed.

(** ** [catalog.rs] *)

Definition CapabilityCatalog : Type := gmap string CapabilityDescriptor.
Definition register_descriptor (d : CapabilityDescriptor) : op CapabilityCatalog CapabilityError () :=
  c ← op_get;
  if bool_decide (is_Some (c !! name d)) then op_fail (DescriptorAlreadyRegistered (name d))
  else op_modify (λ c, <[name d := d]> c).
Definition from_descriptors (l : list CapabilityDescriptor) : CapabilityResult CapabilityCatalog :=
  let '(r, c) := op_iter register_descriptor l ∅ in _ ← r; Ok c.
Definition catalog_descriptors (c : CapabilityCatalog) : list CapabilityDescriptor := (btree_iter c).*2.
Definition resolve_local (c : CapabilityCatalog) (q : CapabilityRequest) : CapabilityResult CapabilityDescriptor :=
  d ← ok_or (CapabilityNotDeclared (capability q)) (c !! capability q);
  _ ← enforce_request_requirements q d;
  Ok d.

Record CapabilityEnforcementContext := {
  context_identity : CoreIdentity;
  context_service : string;
  context_leadership : option G;
  context_now_ms : N;
  writes_allowed : bool;
}.
Definition authorize_local (c : CapabilityCatalog) (q : CapabilityRequest) (x : CapabilityEnforcementContext) :
    CapabilityResult () :=
  d ← resolve_local c q;
  enforce_requirements (context_identity x) (context_service x) q d (core_id (context_identity x))
    (context_leadership x) (writes_allowed x) (context_now_ms x).
End Policy.

(** ** [registry.rs] *)

Section Registry.
Context {H W : Type} `{!LocalCapabilityHandler H W}.

Record LocalCapabilityProvider := { descriptor : CapabilityDescriptor; handler : H }.
Definition CapabilityRegistry : Type := gmap string LocalCapabilityProvider.
Definition register_shared_handler (h : H) : op CapabilityRegistry CapabilityError () :=
  let d := handler_descriptor h in
  r ← op_get;
  if bool_decide (is_Some (r !! name d)) then op_fail (HandlerAlreadyRegistered (name d))
  else op_modify (λ r, <[name d := {| descriptor := d; handler := h |}]> r).
Definition registry_new (hs : list H) : CapabilityRegistry := (run_ops (map register_shared_handler hs) ∅).2.

(** ** [selection.rs] *)

Inductive CapabilityProvider :=
| LocalProvider (core : string) (d : CapabilityDescriptor)
| RemoteProvider (peer : PeerRecord) (d : CapabilityDescriptor) (preferred : bool).
Definition provider_descriptor (p : CapabilityProvider) : CapabilityDescriptor :=
  match p with LocalProvider _ d | RemoteProvider _ d _ => d end.
Definition provider_core (p : CapabilityProvider) : string :=
  match p with LocalProvider c _ => c | RemoteProvider peer _ _ => core_id (peer_identity peer) end.
Definition is_remote (p : CapabilityProvider) : bool :=
  match p with LocalProvider _ _ => false | RemoteProvider _ _ _ => true end.
Definition is_preferred (p : CapabilityProvider) : bool :=
  match p with RemoteProvider _ _ true => true | _ => false end.

Record ResolutionPolicy := { prefer_local : bool; allow_remote : bool }.
Definition resolution_default : ResolutionPolicy := {| prefer_local := true; allow_remote := true |}.

(** [Option::or_else] of the successive early returns. *)
Definition or_else {A} (o o' : option A) : option A := match o with Some a => Some a | None => o' end.
Definition default_select (p : ResolutionPolicy) (l : list CapabilityProvider) : option CapabilityProvider :=
  or_else (if prefer_local p then List.find (λ c, negb (is_remote c)) l else None)
  (or_else (if allow_remote p then or_else (List.find is_preferred l) (List.find is_remote l) else None)
  (List.find (λ c, negb (is_remote c)) l)).

(** ** [resolver.rs] *)

Context {G : Type} `{!ServiceLeadershipGuard G}.
Context {I : Type} `{!RemoteCapabilityInvoker I W}.

Record CapabilityResolver := {
  registry : CapabilityRegistry;
  resolver_peers : list PeerRecord;
  selector : list CapabilityProvider → option CapabilityProvider;
}.
Definition resolver_new (r : CapabilityRegistry) : CapabilityResolver :=
  {| registry := r; resolver_peers := []; selector := default_select resolution_default |}.
Definition with_peers (r : CapabilityResolver) (l : list PeerRecord) : CapabilityResolver :=
  {| registry := registry r; resolver_peers := l; selector := selector r |}.

Definition remote_descriptor_is_compatible (i : CoreIdentity) (p : PeerRecord) (d : CapabilityDescriptor) : bool :=
  match visibility d with
  | Local => false
  | v =>
    is_ok (core_ensure_compatible i (peer_identity p)
             {| require_same_cluster := bool_decide (v = Cluster); required_capability := Some (name d) |}
             (map name (peer_capabilities p)))
  end.

Definition local_candidates (r : CapabilityResolver) (i : CoreIdentity) (q : CapabilityRequest) (w : W) :
    list CapabilityProvider :=
  match registry r !! capability q with
  | Some p =>
    if is_healthy (handler p) w && bool_decide (mode (descriptor p) = request_mode q)
    then [LocalProvider (core_id i) (descriptor p)] else []
  | None => []
  end.
(** One round of the loop over the peers. *)
Definition remote_candidate (i : CoreIdentity) (q : CapabilityRequest) (p : PeerRecord) : list CapabilityProvider :=
  if negb (peer_healthy p) then []
  else match List.find (λ d, bool_decide (name d = capability q) && bool_decide (mode d = request_mode q))
               (peer_capabilities p) with
       | Some d =>
         if negb (remote_descriptor_is_compatible i p d) then []
         else [RemoteProvider p d (match peer_metadata p !! "preferred"%string with
                                   | Some v => bool_decide (v = "true"%string) | None => false end)]
       | None => []
       end.
Definition candidates (r : CapabilityResolver) (i : CoreIdentity) (q : CapabilityRequest) (w : W) :
    list CapabilityProvider :=
  local_candidates r i q w ++ concat (map (remote_candidate i q) (resolver_peers r)).

Definition resolve (r : CapabilityResolver) (i : CoreIdentity) (service : string) (q : CapabilityRequest)
    (leadership : option G) (now_ms : N) (w : W) : CapabilityResult CapabilityProvider :=
  match selector r (candidates r i q w) with
  | None => Err (ProviderUnavailable (capability q))
  | Some p =>
    _ ← enforce_requirements i service q (provider_descriptor p) (provider_core p) leadership true now_ms;
    Ok p
  end.

Definition run_local (r : CapabilityResolver) (q : CapabilityRequest) : op W CapabilityError CapabilityResponse :=
  match registry r !! capability q with
  | Some p => handler_handle (handler p) q
  | None => op_fail (HandlerNotFound (capability q))
  end.
Definition handle_local (r : CapabilityResolver) (i : CoreIdentity) (service : string) (q : CapabilityRequest)
    (leadership : option G) (now_ms : N) : op W CapabilityError CapabilityResponse :=
  w ← op_get;
  p ← op_lift (resolve r i service q leadership now_ms w);
  match p with
  | LocalProvider _ _ => run_local r q
  | RemoteProvider peer _ _ => mret (response_ok [] (Some (core_id (peer_identity peer))))
  end.
Definition handle (r : CapabilityResolver) (i : CoreIdentity) (service : string) (q : CapabilityRequest)
    (leadership : option G) (invoker : option I) (now_ms : N) : op W CapabilityError CapabilityResponse :=
  w ← op_get;
  p ← op_lift (resolve r i service q leadership now_ms w);
  match p with
  | LocalProvider _ _ => run_local r q
  | RemoteProvider peer _ _ =>
    match invoker with
    | None => op_fail (RemoteEndpointUnavailable (capability q))
    | Some v => invoke_remote v peer q
    end
  end.

(** *** What a resolved provider is *)

Definition registry_ok (r : CapabilityRegistry) : Prop :=
  ∀ k p, r !! k = Some p → name (descriptor p) = k ∧ descriptor p = handler_descriptor (handler p).
Lemma registry_new_ok hs : registry_ok (registry_new hs).
Proof.
  unfold registry_new.
  assert (∀ r, registry_ok r → registry_ok (run_ops (map register_shared_handler hs) r).2) as Hall.
  { induction hs as [|h hs IH]; intros r Hr; [done|]. cbn [map run_ops].
    assert (registry_ok (register_shared_handler h r).2) as Hr'.
    { unfold register_shared_handler. autorewrite with op. case_bool_decide; [done|]. cbn.
      intros k p [[<- <-]|[_ Hp]]%lookup_insert_Some; [done|]. by apply Hr. }
    destruct (register_shared_handler h r) as [x r']. specialize (IH r' Hr').
    by destruct (run_ops _ r'). }
  apply Hall. intros k p Hp. vm_compute in Hp. discriminate.
Qed.

(** A selector that only picks candidates, as the trait says. *)
Definition selects_candidates (s : list CapabilityProvider → option CapabilityProvider) : Prop :=
  ∀ l p, s l = Some p → p ∈ l.
Lemma find_elem {A} (f : A → bool) l a : List.find f l = Some a → a ∈ l ∧ f a = true.
Proof. intros Hf%find_some. by rewrite <- list_elem_of_In in Hf. Qed.
Lemma default_selects p : selects_candidates (default_select p).
Proof.
  intros l c. unfold default_select, or_else.
  destruct (if prefer_local p then _ else None) as [x|] eqn:E1.
  { intros [= <-]. destruct (prefer_local p); [|done]. by apply find_elem in E1 as []. }
  destruct (if allow_remote p then _ else None) as [x|] eqn:E2.
  { intros [= <-]. destruct (allow_remote p); [|done].
    destruct (List.find is_preferred l) eqn:E3; [injection E2 as <-; by apply find_elem in E3 as []|].
    by apply find_elem in E2 as []. }
  intros E3. by apply find_elem in E3 as [].
Qed.

(** A provider that may serve [q] for the core [i]. *)
Definition eligible (r : CapabilityResolver) (i : CoreIdentity) (q : CapabilityRequest) (w : W)
    (p : CapabilityProvider) : Prop :=
  name (provider_descriptor p) = capability q ∧ mode (provider_descriptor p) = request_mode q ∧
  match p with
  | LocalProvider c d => c = core_id i ∧ ∃ l, registry r !! capability q = Some l ∧ descriptor l = d ∧
      is_healthy (handler l) w = true
  | RemoteProvider peer d _ => peer ∈ resolver_peers r ∧ peer_healthy peer = true ∧ d ∈ peer_capabilities peer ∧
      tenant_id (peer_identity peer) = tenant_id i ∧
      (cluster_id (peer_identity peer) = cluster_id i ∨ visibility d = Tenant)
  end.

Lemma compatible_scope i p d :
  remote_descriptor_is_compatible i p d = true →
  tenant_id (peer_identity p) = tenant_id i ∧ (cluster_id (peer_identity p) = cluster_id i ∨ visibility d = Tenant).
Proof.
  unfold remote_descriptor_is_compatible, core_ensure_compatible, core_check_compatibility.
  destruct (visibility d); [done| |]; cbn [require_same_cluster required_capability];
    (case_bool_decide as Ht; cbn; [|done]).
  - rewrite bool_decide_eq_true_2 by done. case_bool_decide as Hc; cbn; [|done]. intros _. split; [done|by left].
  - intros _. split; [done|by right].
Qed.

Lemma candidates_eligible r i q w p :
  registry_ok (registry r) → p ∈ candidates r i q w → eligible r i q w p.
Proof.
  intros Hr. unfold candidates. intros [Hp|Hp]%elem_of_app.
  - unfold local_candidates in Hp. destruct (registry r !! capability q) as [l|] eqn:El.
    2: { by apply elem_of_nil in Hp. }
    destruct (is_healthy (handler l) w && bool_decide (mode (descriptor l) = request_mode q)) eqn:E.
    2: { by apply elem_of_nil in Hp. }
    apply andb_true_iff in E as [Hh Hm%bool_decide_eq_true]. apply list_elem_of_singleton in Hp as ->.
    destruct (Hr _ _ El) as [Hn _]. split_and!; cbn; try done. by exists l.
  - apply list_elem_of_In, in_concat in Hp as (c & (peer & <- & Hpeer)%in_map_iff & Hp).
    apply list_elem_of_In in Hpeer, Hp. unfold remote_candidate in Hp.
    destruct (peer_healthy peer) eqn:Eh; cbn in Hp; [|by apply elem_of_nil in Hp].
    destruct (List.find _ (peer_capabilities peer)) as [d|] eqn:Ed; [|by apply elem_of_nil in Hp].
    apply find_elem in Ed as [Hd [Hn%bool_decide_eq_true Hm%bool_decide_eq_true]%andb_true_iff].
    destruct (remote_descriptor_is_compatible i peer d) eqn:Ec; cbn in Hp; [|by apply elem_of_nil in Hp].
    apply list_elem_of_singleton in Hp as ->. destruct (compatible_scope _ _ _ Ec). by split_and!.
Qed.

Lemma resolve_inv r i service q g now w p :
  registry_ok (registry r) → selects_candidates (selector r) →
  resolve r i service q g now w = Ok p →
  eligible r i q w p ∧
  (read_only (requirements (provider_descriptor p)) = true → request_mode q = Query) ∧
  (idempotency_required (requirements (provider_descriptor p)) = true → is_Some (idempotency_key q)) ∧
  (requires_leader (requirements (provider_descriptor p)) = true →
   ∃ guard, g = Some guard ∧
     check_service_write_permission guard service (tenant_id i) (cluster_id i) (provider_core p) None now = Allowed).
Proof.
  intros Hr Hs. unfold resolve. destruct (selector r _) as [p'|] eqn:E; [|done].
  destruct (enforce_requirements _ _ _ _ _ _ _ _) as [[]|] eqn:Ee; [|done]. intros [= <-].
  split; [by apply candidates_eligible; [|apply Hs]|].
  apply requirements_ok in Ee as (Hq & _ & Hl). by apply request_requirements_ok in Hq as (_ & ? & ?).
Qed.

(** A resolved provider may serve the request. With a selector that picks
    among its candidates, the provider has the requested capability and mode
    and is healthy; a remote one is of the same tenant, and of the same cluster
    unless the capability is visible to the tenant; a read-only capability is
    only resolved for a query, a capability that needs a key only with one, and
    one that needs a leader only if the guard allows the write to the very core
    that will run it. *)
Theorem resolved_provider_is_eligible r i service q g now w p :
  registry_ok (registry r) → selects_candidates (selector r) →
  resolve r i service q g now w = Ok p →
  eligible r i q w p ∧
  (read_only (requirements (provider_descriptor p)) = true → request_mode q = Query) ∧
  (idempotency_required (requirements (provider_descriptor p)) = true → is_Some (idempotency_key q)) ∧
  (requires_leader (requirements (provider_descriptor p)) = true →
   ∃ guard, g = Some guard ∧
     check_service_write_permission guard service (tenant_id i) (cluster_id i) (provider_core p) None now = Allowed).
Proof. apply resolve_inv. Qed.

(** [handle_local] acknowledges what nobody ran. When the provider it
    resolves is a remote one, it answers that the request was accepted by that
    peer, with an empty payload: no handler ran, no peer was called, the world
    is as before. *)
Theorem handle_local_acknowledges_unrun_request r i service q g now w peer d preferred :
  resolve r i service q g now w = Ok (RemoteProvider peer d preferred) →
  handle_local r i service q g now w =
    (Ok {| response_accepted := true; response_payload := [];
           provider_core_id := Some (core_id (peer_identity peer)); response_message := None |}, w).
Proof. intros Hr. unfold handle_local. autorewrite with op. rewrite Hr. by autorewrite with op. Qed.
End Registry.

(** ** Leadership end to end *)

Section Leadership.
Context {H W : Type} `{!LocalCapabilityHandler H W}.

End Leadership.

(** ** [peer_rpc_invoker.rs] *)

Inductive PeerRpcCallKind := QueryCall | CommandCall.
Record PeerRpcOutboundRequest := {
  outbound_request_id : string;
  target_core_id : string;
  outbound_capability : string;
  outbound_payload : list byte;
  outbound_idempotency_key : option string;
  outbound_trace : option TraceContext;
}.
(** [PeerRpcClientExecutor]; an error is the text of its [Debug] form. *)
Class PeerRpcClientExecutor (C W : Type) := {
  call_peer : C → string → PeerRpcCallKind → PeerRpcOutboundRequest → op W string PeerRpcResponse;
}.

Definition peer_rpc_endpoint (p : PeerRecord) : option string :=
  url <$> List.find (λ e, bool_decide (endpoint_name e = "peer-rpc") || bool_decide (endpoint_name e = "peer_rpc")
                          || bool_decide (protocol e = "appcore-peer-rpc")) (peer_endpoints p).

(** [.map_err(..)] on a call. *)
Definition op_map_err {W E F A} (f : E → F) (o : op W E A) : op W F A := λ w, let '(x, w') := o w in (map_err f x, w').
Definition rpc_invoke_remote {C W} `{!PeerRpcClientExecutor C W} (client : C) (p : PeerRecord) (q : CapabilityRequest) :
    op W CapabilityError CapabilityResponse :=
  endpoint ← op_lift (ok_or (RemoteEndpointUnavailable (capability q)) (peer_rpc_endpoint p));
  kind ← op_lift (match request_mode q with
                  | Query => Ok QueryCall
                  | Command => Ok CommandCall
                  | Stream => Err (HandlerRejected "stream_remote_invocation_not_supported")
                  end);
  response ← op_map_err RemoteInvocationFailed (call_peer client endpoint kind
        {| outbound_request_id := request_id q; target_core_id := core_id (peer_identity p);
           outbound_capability := capability q; outbound_payload := payload q;
           outbound_idempotency_key := idempotency_key q; outbound_trace := trace q |});
  mret (if rpc_ok response then response_ok (rpc_payload response) (Some (core_id (peer_identity p)))
        else response_rejected (default "remote_rejected"%string (rpc_error response))).
#[export] Instance rpc_invoker {C W} `{!PeerRpcClientExecutor C W} : RemoteCapabilityInvoker C W :=
  {| invoke_remote := rpc_invoke_remote |}.

(** ** Witnesses *)

Module CapabilityDemo.
(** A handler that counts its calls. *)
Definition write_descriptor : CapabilityDescriptor :=
  with_requirements (descriptor_new "docs.write" "1" Command Cluster)
    {| requires_leader := true; read_only := false; idempotency_required := false |}.
#[global] Instance counting : LocalCapabilityHandler CapabilityDescriptor N := {
  handler_descriptor d := d;
  is_healthy _ _ := true;
  handler_handle _ _ := _ ← op_modify N.succ; mret (response_ok [] None);
}.
Definition request : CapabilityRequest :=
  {| request_id := "r1"; capability := "docs.write"; request_mode := Command; payload := []; idempotency_key := None;
     trace := None |}.
Definition peer : PeerRecord :=
  {| peer_identity := PlaneDemo.core "b"; peer_endpoints := []; peer_capabilities := [write_descriptor];
     peer_healthy := true; peer_last_seen_ms := 0; peer_metadata := ∅ |}.
(** Core a only knows core b; core b runs the capability itself. *)
Definition on_a : CapabilityResolver (H := CapabilityDescriptor) :=
  with_peers (resolver_new ∅) [peer].
Definition on_b : CapabilityResolver (H := CapabilityDescriptor) := resolver_new (registry_new [write_descriptor]).
End CapabilityDemo.

Lemma resolved_provider_is_eligible_witness :
  ∃ p, resolve CapabilityDemo.on_a (PlaneDemo.core "a") "svc" CapabilityDemo.request (Some PlaneDemo.guard) 9 0 = Ok p ∧
  eligible CapabilityDemo.on_a (PlaneDemo.core "a") CapabilityDemo.request 0 p.
Proof.
  exists (RemoteProvider CapabilityDemo.peer CapabilityDemo.write_descriptor false).
  split; [vm_compute; reflexivity|].
  apply (resolved_provider_is_eligible CapabilityDemo.on_a (PlaneDemo.core "a") "svc" CapabilityDemo.request
           (Some PlaneDemo.guard) 9 0).
  - intros k p Hp. vm_compute in Hp. discriminate.
  - apply default_selects.
  - vm_compute. reflexivity.
Defined.

Lemma handle_local_acknowledges_unrun_request_witness :
  handle_local CapabilityDemo.on_a (PlaneDemo.core "a") "svc" CapabilityDemo.request (Some PlaneDemo.guard) 9 0
  = (Ok {| response_accepted := true; response_payload := []; provider_core_id := Some "b"%string;
           response_message := None |}, 0).
Proof.
  apply (handle_local_acknowledges_unrun_request CapabilityDemo.on_a (PlaneDemo.core "a") "svc" CapabilityDemo.request
           (Some PlaneDemo.guard) 9 0 CapabilityDemo.peer CapabilityDemo.write_descriptor false).
  vm_compute. reflexivity.
Defined.

