(* ===== verification/Encoding.v ===== *)
(** Byte encodings shared by the components that hash: hexadecimal digests
    ([hex_encode] of the peer RPC validation, the [{:02x}] loops and [{:x}] of
    the core) and the bytes of a [str]. *)

From S2P Require Import Prelude.
From S2P Require Import Types.

Local Open Scope N_scope.

Definition hex_digit (n : N) : ascii :=
  if n <? 10 then Ascii.ascii_of_N (48 + n) else Ascii.ascii_of_N (87 + n).

Fixpoint hex_encode (bytes : list byte) : string :=
  match bytes with
  | [] => EmptyString
  | b :: bytes' =>
    String (hex_digit (N.shiftr (Byte.to_N b) 4))
      (String (hex_digit (N.land (Byte.to_N b) 15)) (hex_encode bytes'))
  end.

(** The decoders of hexadecimal texts of the security crate: both cases of
    digits, an even number of them, at least one pair. *)
Definition hex_value (c : ascii) : option N :=
  if is_ascii_digit c then Some (code c - 48)
  else if in_range 97 102 c then Some (code c - 87)
  else if in_range 65 70 c then Some (code c - 55)
  else None.
Fixpoint hex_bytes (s : string) : option (list byte) :=
  match s with
  | EmptyString => Some []
  | String a (String b s') =>
    match hex_value a, hex_value b, hex_bytes s' with
    | Some x, Some y, Some l => Some (byte_of_N (N.lor (N.shiftl x 4) y) :: l)
    | _, _, _ => None
    end
  | String _ EmptyString => None
  end.
Definition hex_decode (s : string) : option (list byte) :=
  if bool_decide (s = EmptyString) then None else hex_bytes s.

Definition str_bytes (s : string) : list byte := String.list_byte_of_string s.

(** ** Lemmas *)

Lemma length_str_bytes s : lenN (str_bytes s) = str_len s.
Proof.
  unfold str_bytes, str_len, String.list_byte_of_string. rewrite length_map.
  f_equal. induction s as [|c s IH]; simpl; congruence.
Qed.

Lemma str_bytes_inj s t : str_bytes s = str_bytes t → s = t.
Proof.
  intros H. rewrite <- (String.string_of_list_byte_of_string s),
    <- (String.string_of_list_byte_of_string t). unfold str_bytes in H. congruence.
Qed.

Lemma be_bytes_app_inj k n m (x y : list byte) :
  n < 256 ^ N.of_nat k → m < 256 ^ N.of_nat k →
  be_bytes k n ++ x = be_bytes k m ++ y → n = m ∧ x = y.
Proof.
  intros Hn Hm H. apply app_inj_1 in H as [H ->]; [|by rewrite !length_be_bytes].
  split; [|done]. by apply (be_bytes_inj k).
Qed.

(** A text framed by its length. *)
Definition fits (s : string) : Prop := str_len s ≤ u64_max.
Definition fits_opt (o : option string) : Prop := ∀ s, o = Some s → fits s.
Definition framed (s : string) : list byte := be_bytes 8 (str_len s) ++ str_bytes s.
Lemma framed_app_inj s t x y : fits s → fits t → framed s ++ x = framed t ++ y → s = t ∧ x = y.
Proof.
  unfold fits, framed. intros Hs Ht H. rewrite <- !app_assoc in H.
  apply be_bytes_app_inj in H as [Hlen H]; [|by apply u64_fits..].
  apply app_inj_1 in H as [H ->]; [|by rewrite <- !length_str_bytes in Hlen; lia].
  split; [by apply str_bytes_inj|done].
Qed.

Lemma hex_digit_inj n m : n < 16 → m < 16 → hex_digit n = hex_digit m → n = m.
Proof.
  intros Hn Hm H. apply (f_equal Ascii.N_of_ascii) in H. unfold hex_digit in H.
  destruct (N.ltb_spec n 10), (N.ltb_spec m 10); rewrite !Ascii.N_ascii_embedding in H by lia; lia.
Qed.

Lemma hex_encode_inj x y : hex_encode x = hex_encode y → x = y.
Proof.
  revert y. induction x as [|b x IH]; intros [|c y] H; try done. cbn [hex_encode] in H.
  injection H as H1 H2 H3. apply IH in H3 as ->. f_equal.
  pose proof (Byte.to_N_bounded b). pose proof (Byte.to_N_bounded c).
  rewrite !N.shiftr_div_pow2 in H1. change 15 with (N.ones 4) in H2. rewrite !N.land_ones in H2.
  apply hex_digit_inj in H1; [|apply N.Div0.div_lt_upper_bound; lia..].
  apply hex_digit_inj in H2; [|apply N.mod_upper_bound; lia..].
  rewrite <- (byte_of_N_to_N b), <- (byte_of_N_to_N c). f_equal.
  pose proof (N.div_mod' (Byte.to_N b) (2 ^ 4)). pose proof (N.div_mod' (Byte.to_N c) (2 ^ 4)). lia.
Qed.

Lemma hex_value_digit n : n < 16 → hex_value (hex_digit n) = Some n.
Proof.
  intros Hn. assert (H : ∀ k, (k < 16)%nat → hex_value (hex_digit (N.of_nat k)) = Some (N.of_nat k)).
  { intros k Hk. do 16 (destruct k as [|k]; [reflexivity|]). lia. }
  rewrite <- (N2Nat.id n). apply H. lia.
Qed.
Lemma join_nibbles n : n < 256 → N.lor (N.shiftl (N.shiftr n 4) 4) (N.land n 15) = n.
Proof.
  intros Hn. apply N.bits_inj. intros k. rewrite N.lor_spec. change 15 with (N.ones 4). rewrite N.land_spec.
  destruct (N.lt_ge_cases k 4) as [Hk|Hk].
  - rewrite N.shiftl_spec_low, N.ones_spec_low, andb_true_r by done. done.
  - rewrite N.shiftl_spec_high' by done. rewrite N.shiftr_spec', N.ones_spec_high, andb_false_r, orb_false_r by done.
    f_equal. lia.
Qed.
Lemma hex_bytes_encode b : hex_bytes (hex_encode b) = Some b.
Proof.
  induction b as [|x b IH]; [done|]. cbn [hex_encode hex_bytes]. pose proof (Byte.to_N_bounded x).
  rewrite hex_value_digit, hex_value_digit, IH.
  - rewrite join_nibbles by lia. by rewrite byte_of_N_to_N.
  - change 15 with (N.ones 4). rewrite N.land_ones. apply N.mod_upper_bound. lia.
  - rewrite N.shiftr_div_pow2. apply N.Div0.div_lt_upper_bound. lia.
Qed.
Lemma hex_decode_encode b : b ≠ [] → hex_decode (hex_encode b) = Some b.
Proof. intros Hb. unfold hex_decode. destruct b as [|x b]; [done|]. exact (hex_bytes_encode (x :: b)). Qed.
(** A digest has no other character than the sixteen digits. *)
Definition hex_char (c : ascii) : bool := if hex_value c then true else false.
Lemma hex_encode_chars b : str_all hex_char (hex_encode b) = true.
Proof.
  assert (Hd : ∀ n, n < 16 → hex_char (hex_digit n) = true).
  { intros n Hn. unfold hex_char. by rewrite hex_value_digit. }
  induction b as [|x b IH]; [done|]. cbn [hex_encode str_all]. pose proof (Byte.to_N_bounded x).
  rewrite !Hd, IH; [done| |].
  - change 15 with (N.ones 4). rewrite N.land_ones. apply N.mod_upper_bound. lia.
  - rewrite N.shiftr_div_pow2. apply N.Div0.div_lt_upper_bound. lia.
Qed.
Lemma length_hex_encode b : str_len (hex_encode b) = 2 * lenN b.
Proof. unfold str_len. induction b as [|x b IH]; [done|]. cbn [hex_encode String.length length] in *. lia. Qed.
