(* ===== verification/NonceStore.v ===== *)
(** Replay-nonce stores: [crates/appcore-peer-rpc/src/nonce.rs], [replay.rs].

    [PeerNonceStore] is the trait with its contract as a type class; the
    three implementations (process-local, durable file, bounded with TTL and
    metrics) are the modules [Memory], [FileStore] and [Bounded], each with
    its state, its operations, its invariant and its instance. *)

From S2P Require Import Prelude.
From S2P Require Import Types.

Local Open Scope N_scope.

(** Peer RPC failures ([appcore-distributed-contracts/src/peer_rpc/v1.rs]). *)
Module PeerRpcError.
Inductive t :=
| PayloadTooLarge
| Unauthorized
| Forbidden
| EndpointUnavailable
| TenantMismatch
| ClusterMismatch
| TargetMismatch
| ProtocolMismatch
| Expired
| NonceReplay
| NonceCacheFull
| InvalidBodyHash
| InvalidResponse (detail : string)
| Transport (detail : string)
| InvalidEnvelope (detail : string).
#[export] Instance eq_dec : EqDecision t.
Proof. solve_decision. Defined.
End PeerRpcError.

Definition MAX_NONCE_CACHE_ENTRIES : N := 65536.
Definition MAX_NONCE_STATE_BYTES : N := 16777216.
Definition NONCE_STORE_FORMAT : string := "appcore-peer-nonce-v1".

Definition nonce_store_error (reason : string) : PeerRpcError.t :=
  PeerRpcError.InvalidEnvelope reason.

(** ** The trait and its contract

    [check_and_record] runs under an environment [nonce_env]: what the
    operating system answers during the call (a poisoned lock, a failed
    read).  [remembers s nonce t] says that [s] blocks [nonce] at every time
    before [t]; [retention expires now] is the time up to which a nonce
    accepted at [now] with expiry [expires] is promised to be blocked. *)
Class PeerNonceStore (S : Type) := {
  nonce_env : Type;
  check_and_record : nonce_env → string → N → N → op S PeerRpcError.t ();
  retention : S → N → N → N;
  remembers : S → string → N → Prop;
}.

Class PeerNonceStoreLaws (S : Type) `{!PeerNonceStore S} := {
  accepted_remembered env nonce expires now s s' :
    check_and_record env nonce expires now s = (Ok (), s') →
    remembers s' nonce (retention s expires now);
  remembered_stable env nonce t nonce' expires' now' s :
    remembers s nonce t → now' < t →
    remembers (check_and_record env nonce' expires' now' s).2 nonce t;
  remembered_blocks env nonce t expires' now' s :
    remembers s nonce t → now' < t →
    (check_and_record env nonce expires' now' s).1 ≠ Ok ();
  retention_stable env nonce expires now s e n :
    retention (check_and_record env nonce expires now s).2 e n = retention s e n;
}.

(** ** The process-local store *)
Module Memory.

Record MemoryState := {
  seen : gmap string N;
  order : list string;
}.

Definition empty : MemoryState := {| seen := ∅; order := [] |}.

(** [retain_memory]: drop expired identities from the front of the queue,
    stopping at the first one that is still live. *)
Fixpoint retain_memory (order : list string) (seen : gmap string N) (now_ms : N) :
    MemoryState :=
  match order with
  | [] => {| seen := seen; order := [] |}
  | front :: rest =>
    let expired :=
      match seen !! front with Some expires_at_ms => expires_at_ms <=? now_ms | None => true end in
    if expired then retain_memory rest (delete front seen) now_ms
    else {| seen := seen; order := order |}
  end.

Definition check_and_record (poisoned : bool) (nonce : string) (expires_at_ms now_ms : N) :
    op MemoryState PeerRpcError.t () := λ st,
  if poisoned then (Err (nonce_store_error "nonce_store_poisoned"), st)
  else
    let st := retain_memory (order st) (seen st) now_ms in
    if bool_decide (is_Some (seen st !! nonce)) then (Err PeerRpcError.NonceReplay, st)
    else if MAX_NONCE_CACHE_ENTRIES <=? sizeN (seen st) then
      (Err PeerRpcError.NonceCacheFull, st)
    else (Ok (), {| seen := <[nonce := expires_at_ms]> (seen st);
                    order := order st ++ [nonce] |}).

(** Each seen identity is queued exactly once. *)
Definition inv (st : MemoryState) : Prop :=
  NoDup (order st) ∧ dom (seen st) = list_to_set (order st) ∧
  sizeN (seen st) ≤ MAX_NONCE_CACHE_ENTRIES.

Definition remembers (st : MemoryState) (nonce : string) (t : N) : Prop :=
  ∃ e, seen st !! nonce = Some e ∧ t ≤ e.

Lemma retain_memory_lookup order seen now n e :
  seen !! n = Some e → now < e →
  Memory.seen (retain_memory order seen now) !! n = Some e.
Proof.
  revert seen. induction order as [|f rest IH]; intros seen Hn He; simpl; [done|].
  case_match eqn:Hexp; [|done]. apply IH; [|done].
  rewrite lookup_delete_ne; [done|]. intros ->. rewrite Hn in Hexp.
  apply N.leb_le in Hexp. lia.
Qed.

Lemma retain_memory_sub order seen now :
  Memory.seen (retain_memory order seen now) ⊆ seen.
Proof.
  revert seen. induction order as [|f rest IH]; intros seen; simpl; [done|].
  case_match; [|done]. etrans; [apply IH|]. apply delete_subseteq.
Qed.

Lemma retain_memory_inv order seen now :
  inv {| seen := seen; order := order |} → inv (retain_memory order seen now).
Proof.
  revert seen. induction order as [|f rest IH]; intros seen Hinv; simpl; [done|].
  case_match eqn:Hexp; [|done]. apply IH.
  destruct Hinv as (Hnd & Hdom & Hsz); simpl in *.
  apply NoDup_cons in Hnd as [Hf Hnd]. split; [done|]. split.
  - simpl. rewrite dom_delete_L, Hdom.
    apply set_eq. intros x. rewrite elem_of_difference, elem_of_union, elem_of_singleton.
    rewrite elem_of_list_to_set. naive_solver.
  - pose proof (map_size_delete_le f seen). simpl. lia.
Qed.

Lemma empty_inv : inv empty.
Proof. split; [constructor|]. split; [set_solver|]. vm_compute. done. Qed.

(** Whatever the answer, the store stays well formed and bounded. *)
(** While the front of the queue is live, nothing is purged. *)
Lemma check_and_record_front_live nonce e now seen f o ef :
  seen !! f = Some ef → now < ef →
  check_and_record false nonce e now {| Memory.seen := seen; order := f :: o |} =
  let st := {| Memory.seen := seen; order := f :: o |} in
  if bool_decide (is_Some (seen !! nonce)) then (Err PeerRpcError.NonceReplay, st)
  else if MAX_NONCE_CACHE_ENTRIES <=? sizeN seen then (Err PeerRpcError.NonceCacheFull, st)
  else (Ok (), {| Memory.seen := <[nonce := e]> seen; order := (f :: o) ++ [nonce] |}).
Proof.
  intros Hf Hlt. unfold check_and_record. cbn [order Memory.seen retain_memory].
  by rewrite Hf, (proj2 (N.leb_gt ef now)).
Qed.

Lemma memory_step_inv p nonce e now st :
  inv st → inv (check_and_record p nonce e now st).2.
Proof.
  intros Hinv. unfold check_and_record. destruct p; [done|].
  destruct st as [sn o]; simpl.
  pose proof (retain_memory_inv o sn now Hinv) as Hr.
  revert Hr. generalize (retain_memory o sn now). intros st' (Hnd & Hdom & Hsz).
  case_bool_decide as Hin; [by split_and!|].
  destruct (N.leb_spec MAX_NONCE_CACHE_ENTRIES (sizeN (seen st'))); [by split_and!|].
  apply eq_None_not_Some in Hin.
  assert (nonce ∉ order st').
  { rewrite <- (elem_of_list_to_set (C := gset string)), <- Hdom. by apply not_elem_of_dom. }
  split_and!; simpl.
  - apply NoDup_app. split_and!; [done|set_solver|apply NoDup_singleton].
  - rewrite dom_insert_L, Hdom, list_to_set_app_L. set_solver.
  - rewrite map_size_insert_None by done. lia.
Qed.
End Memory.

#[export] Instance memory_store : PeerNonceStore Memory.MemoryState := {|
  nonce_env := bool;
  check_and_record := Memory.check_and_record;
  retention _ expires _ := expires;
  remembers := Memory.remembers;
|}.

#[export] Instance memory_store_laws : PeerNonceStoreLaws Memory.MemoryState.
Proof.
  split; simpl; unfold Memory.check_and_record, Memory.remembers.
  - intros env n e now s s' H. repeat case_match; simplify_eq/=.
    exists e. by rewrite lookup_insert_eq.
  - intros env n t n' e' now' s (e & Hn & Ht) Hlt. destruct env; simpl; [eauto|].
    assert (Memory.seen (Memory.retain_memory (Memory.order s) (Memory.seen s) now') !! n = Some e)
      as Hk by (apply Memory.retain_memory_lookup; [done|lia]).
    case_bool_decide as Hd; simpl; [eauto|]. case_match; simpl; [eauto|].
    exists e. rewrite lookup_insert_ne; [eauto|]. intros ->. by apply Hd.
  - intros env n t e' now' s (e & Hn & Ht) Hlt. destruct env; [done|].
    rewrite bool_decide_eq_true_2; [done|]. exists e.
    apply Memory.retain_memory_lookup; [done|lia].
  - done.
Qed.

(** ** The durable file store

    The file is the bytes at [path], or absent.  [serde_json] is a parameter:
    [json_encode] is [to_vec] and [json_decode] is [from_slice] on
    [PersistedNonceState].  [FileEnv] holds what the operating system answers
    during one call; [None] is success. *)
Module FileStore.

Record PersistedNonceState := {
  format : string;
  entries : gmap string N;
}.

Definition default_state : PersistedNonceState :=
  {| format := NONCE_STORE_FORMAT; entries := ∅ |}.

Record FileEnv := {
  io_lock : option string;    (** [lock_exclusive] *)
  io_state : option string;   (** validating, opening and reading the state *)
  io_write : option string;   (** [atomic_write] up to the rename *)
  io_sync : option string;    (** the directory sync after the rename *)
  io_unlock : option string;
}.

Definition quiet : FileEnv :=
  {| io_lock := None; io_state := None; io_write := None; io_sync := None;
     io_unlock := None |}.

Definition io (o : option string) : result PeerRpcError.t () :=
  match o with None => Ok () | Some reason => Err (nonce_store_error reason) end.

Definition File : Type := option (list byte).

Section FileStore.
Context (json_encode : PersistedNonceState → list byte).
Context (json_decode : list byte → option PersistedNonceState).

Definition load (env : FileEnv) (file : File) : result PeerRpcError.t PersistedNonceState :=
  match file with
  | None => Ok default_state
  | Some bytes =>
    _ ← io (io_state env);
    if (lenN bytes =? 0) || (MAX_NONCE_STATE_BYTES <? lenN bytes) then
      Err (nonce_store_error "nonce_store_state_size_invalid")
    else
      state ← ok_or (nonce_store_error "nonce_store_state_corrupt") (json_decode bytes);
      if negb (bool_decide (format state = NONCE_STORE_FORMAT))
         || (MAX_NONCE_CACHE_ENTRIES <? sizeN (entries state)) then
        Err (nonce_store_error "nonce_store_format_invalid")
      else Ok state
  end.

(** [persist] and [atomic_write]: the rename replaces the file whole, or
    the call fails before it and leaves the file alone. *)
Definition persist (env : FileEnv) (state : PersistedNonceState) :
    op File PeerRpcError.t () := λ file,
  match io_write env with
  | Some reason => (Err (nonce_store_error reason), file)
  | None => (io (io_sync env), Some (json_encode state))
  end.

Definition live_entries (state : PersistedNonceState) (now_ms : N) : gmap string N :=
  filter (λ kv, now_ms < kv.2) (entries state).

Definition check_and_record (env : FileEnv) (nonce : string) (expires_at_ms now_ms : N) :
    op File PeerRpcError.t () :=
  _ ← op_lift (io (io_lock env));
  file ← op_get;
  state ← op_lift (load env file);
  let live := live_entries state now_ms in
  if bool_decide (is_Some (live !! nonce)) then op_fail PeerRpcError.NonceReplay
  else if MAX_NONCE_CACHE_ENTRIES <=? sizeN live then op_fail PeerRpcError.NonceCacheFull
  else
    _ ← persist env {| format := format state; entries := <[nonce := expires_at_ms]> live |};
    op_lift (io (io_unlock env)).

Definition remembers (file : File) (nonce : string) (t : N) : Prop :=
  ∃ bytes state e, file = Some bytes ∧ json_decode bytes = Some state ∧
    entries state !! nonce = Some e ∧ t ≤ e.

#[export] Instance file_store : PeerNonceStore File := {|
  nonce_env := FileEnv;
  NonceStore.check_and_record := check_and_record;
  retention _ expires _ := expires;
  NonceStore.remembers := remembers;
|}.

Lemma load_decoded env bytes state :
  load env (Some bytes) = Ok state → json_decode bytes = Some state.
Proof.
  simpl. destruct (io (io_state env)); simpl; [|done].
  case_match; [done|]. destruct (json_decode bytes); simpl; [|done].
  case_match; congruence.
Qed.

#[local] Arguments load : simpl never.

Lemma live_lookup state now n e :
  live_entries state now !! n = Some e ↔ entries state !! n = Some e ∧ now < e.
Proof. unfold live_entries. by rewrite map_lookup_filter_Some. Qed.

Lemma live_lookup_None state now n :
  ¬ is_Some (live_entries state now !! n) ↔
  ∀ e, entries state !! n = Some e → e ≤ now.
Proof.
  rewrite <- eq_None_not_Some. unfold live_entries. rewrite map_lookup_filter_None.
  split.
  - intros [Hn|Hn] e He; [congruence|]. specialize (Hn e He). simpl in Hn. lia.
  - intros Hall. right. intros e He. specialize (Hall e He). simpl. lia.
Qed.

(** serde_json reads back what it wrote. *)
Context (json_roundtrip : ∀ state, json_decode (json_encode state) = Some state).

#[export] Instance file_store_laws : PeerNonceStoreLaws File.
Proof using json_roundtrip.
  split; simpl; unfold check_and_record, remembers, persist;
    unfold mbind, op_bind, op_lift, op_get, op_fail.
  - intros env n e now s s' H. repeat case_match; simplify_eq/=.
    do 3 eexists. split; [done|]. split; [apply json_roundtrip|].
    simpl. by rewrite lookup_insert_eq.
  - intros env n t n' e' now' s (bytes & state & e & -> & Hd & Hn & Ht) Hlt.
    destruct (io (io_lock env)); simpl; [|by eauto 10].
    destruct (load env (Some bytes)) as [st|] eqn:Hload; simpl; [|by eauto 10].
    apply load_decoded in Hload as Hst. rewrite Hd in Hst. simplify_eq.
    case_bool_decide as Hdup; simpl; [by eauto 10|].
    case_match; simpl; [by eauto 10|].
    destruct (io_write env); simpl; [by eauto 10|].
    enough (∃ bytes state0 e0, Some (json_encode
      {| format := format st; entries := <[n':=e']> (live_entries st now') |}) = Some bytes ∧
      json_decode bytes = Some state0 ∧ entries state0 !! n = Some e0 ∧ t ≤ e0)
      by (destruct (io (io_sync env)); simpl; done).
    do 3 eexists. split; [done|]. split; [apply json_roundtrip|]. simpl.
    rewrite lookup_insert_ne; [split; [apply live_lookup; split; [done|lia]|done]|].
    intros ->. apply Hdup. exists e. apply live_lookup. split; [done|lia].
  - intros env n t e' now' s (bytes & state & e & -> & Hd & Hn & Ht) Hlt.
    destruct (io (io_lock env)); simpl; [|done].
    destruct (load env (Some bytes)) as [st|] eqn:Hload; simpl; [|done].
    apply load_decoded in Hload as Hst. rewrite Hd in Hst. simplify_eq.
    rewrite bool_decide_eq_true_2; [done|].
    exists e. apply live_lookup. split; [done|lia].
  - done.
Qed.
End FileStore.
End FileStore.

(** ** The bounded TTL store ([replay.rs]) *)
Module Bounded.

Record ReplayStoreConfig := {
  max_entries : N;
  ttl_ms : N;
  cleanup_interval_ms : N;
}.

Definition config_new (max_entries ttl_ms cleanup_interval_ms : N) :
    result PeerRpcError.t ReplayStoreConfig :=
  if (max_entries =? 0) || (ttl_ms =? 0) || (cleanup_interval_ms =? 0) then
    Err (PeerRpcError.InvalidEnvelope "replay_store_policy_invalid")
  else Ok {| max_entries := max_entries; ttl_ms := ttl_ms;
             cleanup_interval_ms := cleanup_interval_ms |}.

Definition config_default : ReplayStoreConfig :=
  {| max_entries := MAX_NONCE_CACHE_ENTRIES; ttl_ms := 60000; cleanup_interval_ms := 1000 |}.

Record ReplayStoreMetrics := {
  m_entries : N;
  accepted : N;
  replays : N;
  expired : N;
  capacity_rejections : N;
  cleanups : N;
}.

Record ReplayState := {
  config : ReplayStoreConfig;
  entries : gmap string N;
  lru : list string;
  last_cleanup_ms : N;
  metrics : ReplayStoreMetrics;
}.

Definition new (c : ReplayStoreConfig) : ReplayState :=
  {| config := c; entries := ∅; lru := []; last_cleanup_ms := 0;
     metrics := {| m_entries := 0; accepted := 0; replays := 0; expired := 0;
                   capacity_rejections := 0; cleanups := 0 |} |}.

Definition cleanup_locked (st : ReplayState) (now_ms : N) : N * ReplayState :=
  let before := sizeN (entries st) in
  let kept := filter (λ kv, now_ms < kv.2) (entries st) in
  let removed := before - sizeN kept in
  let m := metrics st in
  (removed,
   {| config := config st;
      entries := kept;
      lru := filter (λ identity, is_Some (kept !! identity)) (lru st);
      last_cleanup_ms := now_ms;
      metrics := {| m_entries := sizeN kept; accepted := accepted m; replays := replays m;
                    expired := sat_add64 (expired m) removed;
                    capacity_rejections := capacity_rejections m;
                    cleanups := sat_add64 (cleanups m) 1 |} |}).

Definition cleanup_if_due (st : ReplayState) (now_ms : N) : ReplayState :=
  if cleanup_interval_ms (config st) <=? now_ms - last_cleanup_ms st then
    (cleanup_locked st now_ms).2
  else st.

(** [position] finds the first occurrence, [remove] takes it out. *)
Fixpoint remove_first (identity : string) (l : list string) : list string :=
  match l with
  | [] => []
  | x :: l' => if bool_decide (x = identity) then l' else x :: remove_first identity l'
  end.

Definition touch_lru (l : list string) (identity : string) : list string :=
  remove_first identity l ++ [identity].

Definition count_replay (m : ReplayStoreMetrics) : ReplayStoreMetrics :=
  {| m_entries := m_entries m; accepted := accepted m; replays := sat_add64 (replays m) 1;
     expired := expired m; capacity_rejections := capacity_rejections m;
     cleanups := cleanups m |}.
Definition count_capacity (m : ReplayStoreMetrics) : ReplayStoreMetrics :=
  {| m_entries := m_entries m; accepted := accepted m; replays := replays m;
     expired := expired m; capacity_rejections := sat_add64 (capacity_rejections m) 1;
     cleanups := cleanups m |}.
Definition count_accepted (m : ReplayStoreMetrics) (n : N) : ReplayStoreMetrics :=
  {| m_entries := n; accepted := sat_add64 (accepted m) 1; replays := replays m;
     expired := expired m; capacity_rejections := capacity_rejections m;
     cleanups := cleanups m |}.

(** The tail of [check_and_record], once the capacity test has passed. *)
Definition record (st : ReplayState) (nonce : string) (expires_at_ms now_ms : N) : ReplayState :=
  let ttl_expiry := sat_add64 now_ms (ttl_ms (config st)) in
  let effective_expiry := N.min expires_at_ms ttl_expiry in
  let es := <[nonce := effective_expiry]> (entries st) in
  {| config := config st; entries := es; lru := lru st ++ [nonce];
     last_cleanup_ms := last_cleanup_ms st;
     metrics := count_accepted (metrics st) (sizeN es) |}.

Definition check_and_record (poisoned : bool) (nonce : string) (expires_at_ms now_ms : N) :
    op ReplayState PeerRpcError.t () := λ st,
  if bool_decide (nonce = "") || (expires_at_ms <=? now_ms) then
    (Err (PeerRpcError.InvalidEnvelope "replay_identity_invalid"), st)
  else if poisoned then
    (Err (PeerRpcError.InvalidEnvelope "replay_store_poisoned"), st)
  else
    let st := cleanup_if_due st now_ms in
    if bool_decide (is_Some (entries st !! nonce)) then
      (Err PeerRpcError.NonceReplay,
       {| config := config st; entries := entries st; lru := touch_lru (lru st) nonce;
          last_cleanup_ms := last_cleanup_ms st; metrics := count_replay (metrics st) |})
    else if max_entries (config st) <=? sizeN (entries st) then
      let st := (cleanup_locked st now_ms).2 in
      if max_entries (config st) <=? sizeN (entries st) then
        (Err PeerRpcError.NonceCacheFull,
         {| config := config st; entries := entries st; lru := lru st;
            last_cleanup_ms := last_cleanup_ms st; metrics := count_capacity (metrics st) |})
      else (Ok (), record st nonce expires_at_ms now_ms)
    else (Ok (), record st nonce expires_at_ms now_ms).

(** [ReplayStore::cleanup]. *)
Definition cleanup (poisoned : bool) (now_ms : N) (st : ReplayState) :
    result PeerRpcError.t N * ReplayState :=
  if poisoned then (Err (PeerRpcError.InvalidEnvelope "replay_store_poisoned"), st)
  else let '(removed, st') := cleanup_locked st now_ms in (Ok removed, st').

(** ** Invariant: the LRU queue lists the entries, the bound holds, and the
    counters account for every identity ever accepted. *)
Record inv (st : ReplayState) : Prop := {
  inv_lru_nodup : NoDup (lru st);
  inv_lru_dom : ∀ n, n ∈ lru st ↔ is_Some (entries st !! n);
  inv_bound : sizeN (entries st) ≤ max_entries (config st);
  inv_gauge : m_entries (metrics st) = sizeN (entries st);
  inv_conserved : accepted (metrics st) < u64_max →
    accepted (metrics st) = expired (metrics st) + sizeN (entries st);
}.

Definition remembers (st : ReplayState) (nonce : string) (t : N) : Prop :=
  ∃ e, entries st !! nonce = Some e ∧ t ≤ e.

Lemma new_inv c : inv (new c).
Proof.
  split; simpl; [apply NoDup_nil_2| |apply N.le_0_l|done|done].
  intros n. rewrite lookup_empty. split; [set_solver|by intros []].
Qed.

Lemma cleanup_locked_inv st now : inv st → inv (cleanup_locked st now).2.
Proof.
  intros [Hnd Hdom Hb Hg Hc]. unfold cleanup_locked; simpl.
  set (kept := filter _ _).
  assert (size kept ≤ size (entries st))%nat
    by (apply map_subseteq_size, map_filter_subseteq).
  split; simpl; try done.
  - by apply NoDup_filter.
  - intros n. rewrite list_elem_of_filter, Hdom. split; [tauto|].
    intros [e He]. split; [by eexists|]. apply map_lookup_filter_Some in He as [He _]. eauto.
  - lia.
  - intros Hacc. specialize (Hc Hacc). unfold sat_add. lia.
Qed.

Lemma cleanup_if_due_inv st now : inv st → inv (cleanup_if_due st now).
Proof. intros H. unfold cleanup_if_due. case_match; [by apply cleanup_locked_inv|done]. Qed.

Lemma remove_first_elem x y l : NoDup l → x ∈ remove_first y l ↔ x ∈ l ∧ x ≠ y.
Proof.
  induction l as [|z l IH]; simpl; [set_solver|].
  intros [Hz Hnd]%NoDup_cons. case_bool_decide; [subst; set_solver|].
  rewrite elem_of_cons, IH by done. set_solver.
Qed.
Lemma remove_first_nodup y l : NoDup l → NoDup (remove_first y l).
Proof.
  induction l as [|z l IH]; simpl; [done|].
  intros [Hz Hnd]%NoDup_cons. case_bool_decide; [done|].
  apply NoDup_cons. split; [|by apply IH]. rewrite remove_first_elem; naive_solver.
Qed.

Lemma record_inv st n e now :
  inv st → entries st !! n = None → sizeN (entries st) < max_entries (config st) →
  inv (record st n e now).
Proof.
  intros [Hnd Hdom Hb Hg Hc] Hn Hlt. split; simpl.
  - apply NoDup_app. split_and!; [done| |apply NoDup_singleton].
    intros x Hx ->%list_elem_of_singleton. apply Hdom in Hx. rewrite Hn in Hx. by destruct Hx.
  - intros x. rewrite elem_of_app, list_elem_of_singleton, Hdom.
    rewrite lookup_insert_is_Some. destruct (decide (n = x)); naive_solver.
  - rewrite map_size_insert_None by done. lia.
  - done.
  - unfold sat_add. rewrite map_size_insert_None by done. intros. lia.
Qed.

Lemma check_and_record_inv p n e now st :
  inv st → inv (check_and_record p n e now st).2.
Proof.
  intros Hinv. unfold check_and_record. case_match; [done|]. destruct p; [done|].
  pose proof (cleanup_if_due_inv st now Hinv) as Hi.
  generalize dependent (cleanup_if_due st now). clear. intros st Hi.
  case_bool_decide as Hn.
  - destruct Hi as [Hnd Hdom Hb Hg Hc]. split; simpl; try done.
    + apply NoDup_app. split_and!; [by apply remove_first_nodup| |apply NoDup_singleton].
      intros x [_ Hx]%remove_first_elem ->%list_elem_of_singleton; done.
    + intros x. unfold touch_lru.
      rewrite elem_of_app, remove_first_elem, list_elem_of_singleton, Hdom by done.
      destruct (decide (x = n)); naive_solver.
  - apply eq_None_not_Some in Hn.
    destruct (N.leb_spec (max_entries (config st)) (sizeN (entries st))) as [|Hlt].
    + pose proof (cleanup_locked_inv st now Hi) as Hj.
      destruct (N.leb_spec (max_entries (config (cleanup_locked st now).2))
        (sizeN (entries (cleanup_locked st now).2))).
      * destruct Hj as [Hnd Hdom Hb Hg Hc]. by split.
      * apply record_inv; [done| |done]. simpl.
        apply map_lookup_filter_None. by left.
    + by apply record_inv.
Qed.

Lemma cleanup_locked_lookup st now n e :
  entries st !! n = Some e → now < e → entries (cleanup_locked st now).2 !! n = Some e.
Proof. intros. simpl. by apply map_lookup_filter_Some. Qed.
Lemma cleanup_if_due_lookup st now n e :
  entries st !! n = Some e → now < e → entries (cleanup_if_due st now) !! n = Some e.
Proof. intros. unfold cleanup_if_due. case_match; [by apply cleanup_locked_lookup|done]. Qed.
Lemma cleanup_if_due_config st now : config (cleanup_if_due st now) = config st.
Proof. unfold cleanup_if_due. by case_match. Qed.
End Bounded.

#[export] Instance bounded_store : PeerNonceStore Bounded.ReplayState := {|
  nonce_env := bool;
  check_and_record := Bounded.check_and_record;
  retention st expires now := N.min expires (sat_add64 now (Bounded.ttl_ms (Bounded.config st)));
  remembers := Bounded.remembers;
|}.

#[export] Instance bounded_store_laws : PeerNonceStoreLaws Bounded.ReplayState.
Proof.
  split; simpl; unfold Bounded.check_and_record, Bounded.remembers.
  - intros env n e now s s' H.
    repeat case_match; simplify_eq/=; rewrite Bounded.cleanup_if_due_config;
      eexists; by rewrite lookup_insert_eq.
  - intros env n t n' e' now' s (e & Hn & Ht) Hlt. case_match; simpl; [eauto|].
    clear H. destruct env; simpl; [eauto|].
    assert (Bounded.entries (Bounded.cleanup_if_due s now') !! n = Some e) as Hk
      by (apply Bounded.cleanup_if_due_lookup; [done|lia]).
    generalize dependent (Bounded.cleanup_if_due s now'). intros st Hk.
    assert (Bounded.entries (Bounded.cleanup_locked st now').2 !! n = Some e) as Hk2
      by (apply Bounded.cleanup_locked_lookup; [done|lia]).
    case_bool_decide as Hd; simpl; [eauto|].
    assert (n' ≠ n) by (intros ->; by apply Hd).
    repeat case_match; simpl; try (exists e; by rewrite ?lookup_insert_ne).
  - intros env n t e' now' s (e & Hn & Ht) Hlt. case_match; [done|]. clear H. destruct env; [done|].
    rewrite bool_decide_eq_true_2; [done|]. exists e.
    apply Bounded.cleanup_if_due_lookup; [done|lia].
  - intros env n e now s e2 n2. unfold Bounded.record.
    repeat case_match; simpl; by rewrite ?Bounded.cleanup_if_due_config.
Qed.

(** ** The exact specification of replay protection

    The ideal store remembers every nonce it accepted and refuses exactly the
    live duplicates, and new nonces when all the slots are live. *)
Module Spec.
Definition live (m : gmap string N) (now : N) : gmap string N := filter (λ kv, now < kv.2) m.

Definition check_and_record (nonce : string) (expires_at_ms now_ms : N) :
    op (gmap string N) PeerRpcError.t () := λ m,
  if bool_decide (is_Some (live m now_ms !! nonce)) then (Err PeerRpcError.NonceReplay, m)
  else if MAX_NONCE_CACHE_ENTRIES <=? sizeN (live m now_ms) then
    (Err PeerRpcError.NonceCacheFull, m)
  else (Ok (), <[nonce := expires_at_ms]> m).

Lemma live_spec m now n e : live m now !! n = Some e ↔ m !! n = Some e ∧ now < e.
Proof. unfold live. by rewrite map_lookup_filter_Some. Qed.

Lemma live_ext m1 m2 now :
  (∀ n e, now < e → m1 !! n = Some e ↔ m2 !! n = Some e) → live m1 now = live m2 now.
Proof.
  intros Heq. apply map_eq. intros n. apply option_eq. intros e.
  rewrite !live_spec. specialize (Heq n e). naive_solver.
Qed.
End Spec.

(** An answer that reports a failure of the store itself. *)
Definition store_failure (r : result PeerRpcError.t ()) : bool :=
  match r with Err (PeerRpcError.InvalidEnvelope _) => true | _ => false end.

(** Calls in the order of their times. *)
Fixpoint ordered_from (t : N) (times : list N) : Prop :=
  match times with
  | [] => True
  | now :: times' => t ≤ now ∧ ordered_from now times'
  end.

Section FileRefinement.
Import FileStore.
Context (json_encode : PersistedNonceState → list byte).
Context (json_decode : list byte → option PersistedNonceState).
Context (json_roundtrip : ∀ state, json_decode (json_encode state) = Some state).

Definition file_call : Type := FileEnv * string * N * N.
Definition run_file (l : list file_call) (file : File) :=
  run_ops (map (λ '(env, nonce, e, now),
    FileStore.check_and_record json_encode json_decode env nonce e now) l) file.
Definition run_spec (l : list file_call) (m : gmap string N) :=
  run_ops (map (λ '(_, nonce, e, now), Spec.check_and_record nonce e now) l) m.

Definition file_view (file : File) : option PersistedNonceState :=
  match file with None => Some default_state | Some bytes => json_decode bytes end.

(** From time [now] on, the file and the ideal store block the same nonces. *)
Definition agree (now : N) (m : gmap string N) (file : File) : Prop :=
  ∃ state, file_view file = Some state ∧
    ∀ n e, now < e → entries state !! n = Some e ↔ m !! n = Some e.

Lemma agree_mono t now m file : t ≤ now → agree t m file → agree now m file.
Proof. intros Hle (state & Hv & Hag). exists state. split; [done|]. intros. apply Hag. lia. Qed.

Lemma load_view env file state :
  load json_decode env file = Ok state → file_view file = Some state.
Proof.
  destruct file as [bytes|]; [apply load_decoded|]. unfold load. simpl. congruence.
Qed.

(** One call: when the store reports no failure of its own, it answers as the
    ideal store does and the two stay in agreement. *)
Lemma file_step env nonce e now m file :
  agree now m file →
  store_failure (FileStore.check_and_record json_encode json_decode env nonce e now file).1 = false →
  (FileStore.check_and_record json_encode json_decode env nonce e now file).1 =
    (Spec.check_and_record nonce e now m).1 ∧
  agree now (Spec.check_and_record nonce e now m).2
    (FileStore.check_and_record json_encode json_decode env nonce e now file).2.
Proof using json_roundtrip.
  intros (state & Hview & Hag) Hok. revert Hok.
  unfold FileStore.check_and_record, mbind, op_bind, op_lift, op_get, op_fail.
  destruct (io (io_lock env)) as [[]|r] eqn:Hlk;
    [|unfold io in Hlk; destruct (io_lock env); simplify_eq; done].
  destruct (load json_decode env file) as [st|r] eqn:Hload; cycle 1.
  { intros Hok. exfalso. revert Hok Hload. unfold load, mbind, result_bind, io, ok_or.
    destruct file; [|done]. repeat case_match; intros; simplify_eq/=. }
  apply load_view in Hload as Hst. rewrite Hview in Hst. simplify_eq.
  assert (Hlive : live_entries st now = Spec.live m now).
  { unfold live_entries. by apply Spec.live_ext. }
  unfold Spec.check_and_record. rewrite Hlive.
  case_bool_decide as Hdup; simpl; [intros _; split; [done|]; by exists st|].
  case_match; simpl; [intros _; split; [done|]; by exists st|].
  unfold persist. destruct (io_write env) as [r|]; [done|].
  destruct (io_sync env) as [r|]; [done|]. simpl.
  destruct (io_unlock env) as [r|]; [done|]. simpl. intros _. split; [done|].
  eexists. split; [apply json_roundtrip|]. simpl. intros n e' Hlt.
  rewrite !lookup_insert_Some, Spec.live_spec. naive_solver.
Qed.

Lemma run_file_agrees l t m file :
  agree t m file →
  ordered_from t (map snd l) →
  Forall (λ r, store_failure r = false) (run_file l file).1 →
  (run_file l file).1 = (run_spec l m).1.
Proof using json_roundtrip.
  unfold run_file, run_spec. revert t m file.
  induction l as [|[[[env nonce] e] now] l IH]; intros t m file Hag Hord Hok; [done|].
  destruct Hord as [Hle Hord]. apply (agree_mono t now) in Hag; [|done].
  simpl in *. pose proof (file_step env nonce e now m file Hag) as Hstep.
  destruct (FileStore.check_and_record _ _ env nonce e now file) as [r file1].
  destruct (Spec.check_and_record nonce e now m) as [r' m1].
  specialize (IH now m1 file1).
  destruct (run_ops _ file1) as [rs file2], (run_ops _ m1) as [rs' m2].
  simpl in *. apply Forall_cons in Hok as [Hr Hok].
  destruct (Hstep Hr) as [-> Hag1]. f_equal. by apply IH.
Qed.
End FileRefinement.

(** ** Properties *)

(** C4: the file store is replay protection, exactly.  Run against any
    operating-system behaviour, in the order of the calls' times and starting
    from no file, its answers are those of the ideal store that never forgets
    (purging the expired entries is invisible), unless it reports a failure of
    the store itself. *)
Theorem file_store_refines_spec json_encode json_decode (l : list file_call) :
  (∀ state, json_decode (json_encode state) = Some state) →
  ordered_from 0 (map snd l) →
  Forall (λ r, store_failure r = false) (run_file json_encode json_decode l None).1 →
  (run_file json_encode json_decode l None).1 = (run_spec l ∅).1.
Proof.
  intros Hrt. apply run_file_agrees; [done|].
  exists FileStore.default_state. split; [done|]. intros n e _. simpl. by rewrite lookup_empty.
Qed.

Inductive bounded_call :=
| Check (poisoned : bool) (nonce : string) (expires_at_ms now_ms : N)
| Cleanup (poisoned : bool) (now_ms : N).

Definition bounded_exec (st : Bounded.ReplayState) (c : bounded_call) : Bounded.ReplayState :=
  match c with
  | Check p nonce e now => (Bounded.check_and_record p nonce e now st).2
  | Cleanup p now => (Bounded.cleanup p now st).2
  end.

(** in every reachable state of the bounded store, the LRU queue lists
    each stored identity once, the configured bound holds, the gauge is the
    number of entries, and (below counter saturation) every identity ever
    accepted is either still stored or counted as expired: no live entry is
    ever evicted to make room. *)
Theorem bounded_store_accounts c (l : list bounded_call) :
  Bounded.inv (foldl bounded_exec (Bounded.new c) l).
Proof.
  assert (H : ∀ st, Bounded.inv st → Bounded.inv (foldl bounded_exec st l)).
  { induction l as [|[p n e now|p now] l IH]; intros st Hst; [done| |]; simpl; apply IH.
    - by apply Bounded.check_and_record_inv.
    - unfold Bounded.cleanup. destruct p; [done|].
      pose proof (Bounded.cleanup_locked_inv st now Hst) as Hc.
      by destruct (Bounded.cleanup_locked st now). }
  apply H, Bounded.new_inv.
Qed.

(** the process-local store purges only the front of its queue, so an
    expired nonce queued behind a live one is still refused as a replay, where
    the trait's contract ("rejects a live duplicate") has it accepted. *)
Theorem memory_refuses_expired_nonce a b ea eb t0 now :
  a ≠ b → t0 < ea → now < ea → t0 < eb → eb ≤ now →
  let calls := [(a, ea, t0); (b, eb, t0); (b, ea, now)] in
  (run_ops (map (λ '(n, e, t), Memory.check_and_record false n e t) calls) Memory.empty).1
    = [Ok (); Ok (); Err PeerRpcError.NonceReplay] ∧
  (run_ops (map (λ '(n, e, t), Spec.check_and_record n e t) calls) ∅).1 = [Ok (); Ok (); Ok ()].
Proof.
  intros Hab H1 H2 H3 H4 calls. subst calls. split.
  - assert (H5 : Memory.check_and_record false a ea t0 Memory.empty =
      (Ok (), {| Memory.seen := {[a := ea]}; Memory.order := [a] |})) by done.
    cbn [map run_ops]. rewrite H5.
    rewrite (Memory.check_and_record_front_live b eb t0 _ a [] ea)
      by (rewrite ?lookup_singleton_eq; done).
    rewrite lookup_singleton_ne by done. cbn [app]. simpl bool_decide.
    rewrite map_size_singleton.
    change (MAX_NONCE_CACHE_ENTRIES <=? N.of_nat 1) with false. cbv iota beta.
    rewrite (Memory.check_and_record_front_live b ea now _ a [b] ea)
      by (rewrite ?lookup_insert_ne, ?lookup_singleton_eq; done).
    by rewrite lookup_insert_eq.
  - assert (Hlive : ∀ (m : gmap string N) n t,
      (∀ e, m !! n = Some e → e ≤ t) → Spec.live m t !! n = None).
    { intros m n t Hm. apply eq_None_not_Some. intros [e [He Hlt]%Spec.live_spec].
      specialize (Hm e He). lia. }
    assert (Hsize : ∀ (m : gmap string N) t, (size m ≤ 2)%nat →
      (MAX_NONCE_CACHE_ENTRIES <=? sizeN (Spec.live m t)) = false).
    { intros m t Hm. apply N.leb_gt. unfold Spec.live, MAX_NONCE_CACHE_ENTRIES.
      pose proof (map_size_filter (λ kv : string * N, t < kv.2) m). lia. }
    cbn [map run_ops]. unfold Spec.check_and_record.
    rewrite Hlive, Hsize by (rewrite ?map_size_empty; try lia; set_solver). simpl bool_decide.
    cbv iota beta.
    rewrite Hlive, Hsize; cycle 1.
    { rewrite map_size_insert_None, map_size_empty; [lia|apply lookup_empty]. }
    { intros e. rewrite lookup_insert_ne, lookup_empty by done. done. }
    simpl bool_decide. cbv iota beta.
    rewrite Hlive, Hsize; [done| |].
    { rewrite !map_size_insert_None, map_size_empty; try lia;
        by rewrite ?lookup_insert_ne, ?lookup_empty. }
    { intros e. rewrite lookup_insert_eq. by intros [= <-]. }
Qed.

(** ** Witnesses *)

(** A concrete serializer: the bits of stdpp's countable encoding. *)
Module DemoJson.
Import FileStore.
Fixpoint pos_bytes (p : positive) : list byte :=
  match p with
  | xH => []
  | xO p' => x00 :: pos_bytes p'
  | xI p' => x01 :: pos_bytes p'
  end.
Fixpoint bytes_pos (l : list byte) : positive :=
  match l with
  | [] => xH
  | b :: l' => if bool_decide (b = x00) then xO (bytes_pos l') else xI (bytes_pos l')
  end.
Definition json_encode (st : PersistedNonceState) : list byte :=
  pos_bytes (encode (format st, entries st)).
Definition json_decode (l : list byte) : option PersistedNonceState :=
  '(f, m) ← decode (bytes_pos l); Some {| format := f; entries := m |}.

Lemma bytes_pos_bytes p : bytes_pos (pos_bytes p) = p.
Proof. induction p; simpl; by f_equal. Qed.
Lemma json_roundtrip st : json_decode (json_encode st) = Some st.
Proof.
  unfold json_decode, json_encode. rewrite bytes_pos_bytes, decode_encode. by destruct st.
Qed.
End DemoJson.

Lemma file_store_refines_spec_witness :
  let l := [(FileStore.quiet, "n1", 100, 1); (FileStore.quiet, "n1", 100, 99);
            (FileStore.quiet, "n1", 200, 100)] in
  (run_file DemoJson.json_encode DemoJson.json_decode l None).1 =
    [Ok (); Err PeerRpcError.NonceReplay; Ok ()] ∧
  (run_file DemoJson.json_encode DemoJson.json_decode l None).1 = (run_spec l ∅).1.
Proof.
  intros l. split; [vm_compute; reflexivity|].
  apply (file_store_refines_spec DemoJson.json_encode DemoJson.json_decode l).
  - exact DemoJson.json_roundtrip.
  - vm_compute. repeat split; discriminate.
  - repeat constructor; vm_compute; reflexivity.
Defined.

Lemma memory_refuses_expired_nonce_witness :
  (run_ops (map (λ '(n, e, t), Memory.check_and_record false n e t)
     [("a", 100, 1); ("b", 10, 1); ("b", 100, 50)]) Memory.empty).1
    = [Ok (); Ok (); Err PeerRpcError.NonceReplay].
Proof.
  apply (memory_refuses_expired_nonce "a" "b" 100 10 1 50); try lia. discriminate.
Defined.
