(* ===== verification/PeerValidation.v ===== *)
(** Peer RPC request validation: [crates/appcore-peer-rpc/src/validation.rs]
    and the envelope of [appcore-distributed-contracts/src/peer_rpc/v1.rs].

    The validator runs over any store of the [PeerNonceStore] class.  SHA-256
    is the parameter [sha256]. *)

From S2P Require Import Prelude.
From S2P Require Import Types.
From S2P Require Import Encoding.
From S2P Require Import NonceStore.

Local Open Scope N_scope.

Record PeerRpcEnvelope := {
  request_id : string;
  env_trace_id : string;
  env_protocol_version : N;
  source_core_id : string;
  target_core_id : string;
  env_tenant_id : string;
  env_cluster_id : string;
  timestamp_ms : N;
  expires_at_ms : N;
  nonce : string;
  capability : string;
  payload : list byte;
  idempotency_key : option string;
  body_hash : string;
  env_trace : option TraceContext;
}.

Record PeerRpcValidationConfig := {
  local_tenant_id : string;
  local_cluster_id : string;
  local_core_id : string;
  max_payload_bytes : N;
  nonce_window_ms : N;
}.

Definition MAX_ENVELOPE_OVERHEAD_BYTES : N := 65536.

Definition max_envelope_bytes (c : PeerRpcValidationConfig) : N :=
  sat_add64 (sat_mul u64_max (max_payload_bytes c) 4) MAX_ENVELOPE_OVERHEAD_BYTES.

Definition invalid_identifier {A} : result PeerRpcError.t A :=
  Err (PeerRpcError.InvalidEnvelope "invalid_identifier").

Definition validate_envelope_identifiers (e : PeerRpcEnvelope) : result PeerRpcError.t () :=
  let id kind value :=
    map_err (λ _, PeerRpcError.InvalidEnvelope "invalid_identifier")
      (validate_identifier kind value) in
  _ ← id "PeerRequestId" (request_id e);
  _ ← id "TraceId" (env_trace_id e);
  _ ← id "PeerNonce" (nonce e);
  _ ← match idempotency_key e with
      | Some k => map_err (λ _, PeerRpcError.InvalidEnvelope "invalid_idempotency_key")
                    (validate_identifier "IdempotencyKey" k)
      | None => Ok ()
      end;
  map_err (λ _, PeerRpcError.InvalidEnvelope "invalid_identifier")
    (_ ← validate_distributed_identifier "CoreId" (source_core_id e);
     _ ← validate_distributed_identifier "CoreId" (target_core_id e);
     _ ← validate_distributed_identifier "TenantId" (env_tenant_id e);
     _ ← validate_distributed_identifier "ClusterId" (env_cluster_id e);
     validate_identifier "CapabilityName" (capability e)).

(** ** The signed pre-image *)

(** [hash_field]: what it feeds to the hasher. *)
Definition hash_field (s : string) : list byte := be_bytes 8 (str_len s) ++ str_bytes s.

Definition hash_optional_field (o : option string) : list byte :=
  match o with
  | Some s => byte_of_N 1 :: hash_field s
  | None => [byte_of_N 0]
  end.

Definition trace_preimage (o : option TraceContext) : list byte :=
  match o with
  | Some trace =>
    byte_of_N 1 :: hash_field (trace_id trace) ++ hash_field (span_id trace)
      ++ hash_optional_field (parent_span_id trace)
      ++ hash_field (originating_core_id trace) ++ hash_field (current_core_id trace)
      ++ hash_field (trace_tenant_id trace) ++ hash_optional_field (command_id trace)
  | None => [byte_of_N 0]
  end.

(** The bytes [envelope_signing_hash] feeds to SHA-256, in order. *)
Definition signing_preimage (e : PeerRpcEnvelope) : list byte :=
  hash_field (request_id e) ++ hash_field (env_trace_id e)
  ++ be_bytes 2 (env_protocol_version e)
  ++ hash_field (source_core_id e) ++ hash_field (target_core_id e)
  ++ hash_field (env_tenant_id e) ++ hash_field (env_cluster_id e)
  ++ be_bytes 8 (timestamp_ms e) ++ be_bytes 8 (expires_at_ms e)
  ++ hash_field (nonce e) ++ hash_field (capability e) ++ hash_field (body_hash e)
  ++ hash_optional_field (idempotency_key e) ++ trace_preimage (env_trace e).

Section Validator.
Context (sha256 : list byte → list byte).
Context {S : Type} `{!PeerNonceStore S}.

Definition payload_hash (p : list byte) : string := hex_encode (sha256 p).
Definition envelope_signing_hash (e : PeerRpcEnvelope) : string :=
  hex_encode (sha256 (signing_preimage e)).

Record PeerRpcValidator := {
  config : PeerRpcValidationConfig;
  local_protocol_version : N;
}.

Definition window_ms (v : PeerRpcValidator) : N := N.max (nonce_window_ms (config v)) 1.

Definition trace_matches (e : PeerRpcEnvelope) : bool :=
  match env_trace e with
  | Some trace =>
    bool_decide (trace_id trace = env_trace_id e)
    && bool_decide (trace_tenant_id trace = env_tenant_id e)
    && bool_decide (current_core_id trace = source_core_id e)
  | None => true
  end.

(** The expiry handed to the nonce store. *)
Definition nonce_expires_at_ms (v : PeerRpcValidator) (e : PeerRpcEnvelope) (now_ms : N) : N :=
  N.min (expires_at_ms e) (sat_add64 now_ms (window_ms v)).

Definition out_of_window (v : PeerRpcValidator) (e : PeerRpcEnvelope) (now_ms : N) : bool :=
  (expires_at_ms e <=? timestamp_ms e)
  || (expires_at_ms e <=? now_ms)
  || (sat_add64 now_ms (window_ms v) <? timestamp_ms e)
  || (sat_add64 (timestamp_ms e) (window_ms v) <? now_ms).

Definition validate (v : PeerRpcValidator) (env : nonce_env) (e : PeerRpcEnvelope)
    (now_ms : N) : op S PeerRpcError.t () :=
  _ ← op_lift (validate_envelope_identifiers e);
  if max_payload_bytes (config v) <? lenN (payload e) then op_fail PeerRpcError.PayloadTooLarge
  else if negb (bool_decide (env_tenant_id e = local_tenant_id (config v))) then
    op_fail PeerRpcError.TenantMismatch
  else if negb (bool_decide (env_cluster_id e = local_cluster_id (config v))) then
    op_fail PeerRpcError.ClusterMismatch
  else if negb (bool_decide (target_core_id e = local_core_id (config v))) then
    op_fail PeerRpcError.TargetMismatch
  else if negb (is_compatible_with (local_protocol_version v) (env_protocol_version e)) then
    op_fail PeerRpcError.ProtocolMismatch
  else if out_of_window v e now_ms then op_fail PeerRpcError.Expired
  else if negb (bool_decide (body_hash e = payload_hash (payload e))) then
    op_fail PeerRpcError.InvalidBodyHash
  else if negb (trace_matches e) then
    op_fail (PeerRpcError.InvalidEnvelope "trace_context_mismatch")
  else check_and_record env (nonce e) (nonce_expires_at_ms v e now_ms) now_ms.

(** ** What acceptance means *)

Record admissible (v : PeerRpcValidator) (e : PeerRpcEnvelope) (now : N) : Prop := {
  adm_ids : validate_envelope_identifiers e = Ok ();
  adm_size : lenN (payload e) ≤ max_payload_bytes (config v);
  adm_tenant : env_tenant_id e = local_tenant_id (config v);
  adm_cluster : env_cluster_id e = local_cluster_id (config v);
  adm_target : target_core_id e = local_core_id (config v);
  adm_protocol : env_protocol_version e = local_protocol_version v;
  adm_alive : timestamp_ms e < expires_at_ms e ∧ now < expires_at_ms e;
  adm_skew : timestamp_ms e ≤ sat_add64 now (window_ms v) ∧
             now ≤ sat_add64 (timestamp_ms e) (window_ms v);
  adm_hash : body_hash e = payload_hash (payload e);
  adm_trace : ∀ t, env_trace e = Some t →
    trace_id t = env_trace_id e ∧ trace_tenant_id t = env_tenant_id e ∧
    current_core_id t = source_core_id e;
}.

Lemma out_of_window_false v e now :
  out_of_window v e now = false ↔
  (timestamp_ms e < expires_at_ms e ∧ now < expires_at_ms e) ∧
  (timestamp_ms e ≤ sat_add64 now (window_ms v) ∧
   now ≤ sat_add64 (timestamp_ms e) (window_ms v)).
Proof.
  unfold out_of_window. rewrite !orb_false_iff, !N.leb_gt, !N.ltb_ge. tauto.
Qed.

Lemma trace_matches_true e :
  trace_matches e = true ↔
  ∀ t, env_trace e = Some t →
    trace_id t = env_trace_id e ∧ trace_tenant_id t = env_tenant_id e ∧
    current_core_id t = source_core_id e.
Proof.
  unfold trace_matches. destruct (env_trace e) as [t|]; [|naive_solver].
  rewrite !andb_true_iff, !bool_decide_eq_true. naive_solver.
Qed.

Lemma validate_admissible v env e now s :
  admissible v e now →
  validate v env e now s = check_and_record env (nonce e) (nonce_expires_at_ms v e now) now s.
Proof.
  intros [Hid Hsz Ht Hc Htg Hp Ha Hs Hh Htr]. unfold validate, is_compatible_with.
  rewrite Hid. unfold mbind, op_bind, op_lift.
  rewrite (proj2 (N.ltb_ge _ _) Hsz), !bool_decide_eq_true_2 by done. simpl.
  rewrite Hp, N.eqb_refl. simpl.
  rewrite (proj2 (out_of_window_false v e now)) by done.
  by rewrite (proj2 (trace_matches_true e)).
Qed.

Lemma validate_cases v env e now s :
  admissible v e now ∧
    validate v env e now s = check_and_record env (nonce e) (nonce_expires_at_ms v e now) now s
  ∨ ¬ admissible v e now ∧ ∃ err, validate v env e now s = (Err err, s).
Proof.
  unfold validate, mbind, op_bind, op_lift, is_compatible_with, op_fail.
  destruct (validate_envelope_identifiers e) as [[]|] eqn:Hid;
    [|right; split; [intros []; congruence|eauto]].
  destruct (N.ltb_spec (max_payload_bytes (config v)) (lenN (payload e)));
    [right; split; [intros []; lia|eauto]|].
  do 3 (case_bool_decide; simpl; [|right; split; [intros []; congruence|eauto]]).
  destruct (N.eqb_spec (local_protocol_version v) (env_protocol_version e)); simpl;
    [|right; split; [intros []; congruence|eauto]].
  destruct (out_of_window v e now) eqn:Hw.
  { right. split; [|eauto]. intros []. rewrite (proj2 (out_of_window_false v e now)) in Hw; done. }
  case_bool_decide; simpl; [|right; split; [intros []; congruence|eauto]].
  destruct (trace_matches e) eqn:Htr; simpl.
  - apply out_of_window_false in Hw as [? ?]. left. split; [|done].
    split; try done. by apply trace_matches_true.
  - right. split; [|eauto]. intros [].
    rewrite (proj2 (trace_matches_true e)) in Htr; done.
Qed.

(** The trace of a validator: each call with its environment and time. *)
Definition calls := list (nonce_env * PeerRpcEnvelope * N).
Definition run (v : PeerRpcValidator) (l : calls) (s : S) : S :=
  (run_ops (map (λ '(env, e, now), validate v env e now) l) s).2.

Context {laws : PeerNonceStoreLaws S}.

Lemma validate_remembers v env e now s n t :
  remembers s n t → now < t → remembers (validate v env e now s).2 n t.
Proof using laws.
  intros Hr Hlt. destruct (validate_cases v env e now s) as [[_ ->]|[_ [err ->]]]; [|done].
  by apply remembered_stable.
Qed.

Lemma run_remembers v l s n t :
  remembers s n t → (∀ c, c ∈ l → c.2 < t) → remembers (run v l s) n t.
Proof using laws.
  unfold run. revert s. induction l as [|[[env e] now] l IH]; intros s Hr Hall; [done|].
  simpl. destruct (validate v env e now s) as [r s1] eqn:Hv.
  destruct (run_ops _ s1) as [rs s2] eqn:Hrun. simpl.
  assert (Hs1 : remembers s1 n t).
  { assert (s1 = (validate v env e now s).2) as -> by (by rewrite Hv).
    apply validate_remembers; [done|]. apply (Hall (env, e, now)). by left. }
  pose proof (IH s1 Hs1) as IH1. rewrite Hrun in IH1. apply IH1. intros c Hc. apply Hall. by right.
Qed.

Lemma remembered_nonce_refused v env e t now s :
  remembers s (nonce e) t → now < t → (validate v env e now s).1 ≠ Ok ().
Proof using laws.
  intros Hr Hlt.
  destruct (validate_cases v env e now s) as [[_ ->]|[_ [err ->]]]; [|done].
  by eapply remembered_blocks.
Qed.

Lemma validate_accepted v env e now s s' :
  validate v env e now s = (Ok (), s') →
  admissible v e now ∧
  remembers s' (nonce e) (retention s (nonce_expires_at_ms v e now) now).
Proof using laws.
  intros H. destruct (validate_cases v env e now s) as [[Ha Hc]|[_ [err Hc]]];
    rewrite Hc in H; [|done].
  split; [done|]. by eapply accepted_remembered.
Qed.
End Validator.

(** ** Properties *)


(** within the retention a store promises, a nonce is accepted once: after
    a request is accepted, no sequence of other requests, in any order of
    times before the retention's end, makes the validator accept a request
    with the same nonce before that end.  This holds for every store that
    meets the trait's contract. *)
Theorem accepted_nonce_refused sha256 {S} `{!PeerNonceStore S, !PeerNonceStoreLaws S}
    v (env env2 : nonce_env) e e2 t1 t2 (s s' : S) (between : calls (S := S)) :
  validate sha256 v env e t1 s = (Ok (), s') →
  nonce e2 = nonce e →
  (∀ c, c ∈ between → c.2 < retention s (nonce_expires_at_ms v e t1) t1) →
  t2 < retention s (nonce_expires_at_ms v e t1) t1 →
  (validate sha256 v env2 e2 t2 (run sha256 v between s')).1 ≠ Ok ().
Proof.
  intros Hv Hn Hbetween Ht2. apply validate_accepted in Hv as [_ Hr]; [|done].
  rewrite <- Hn in Hr. eapply (remembered_nonce_refused sha256); [|exact Ht2].
  by apply run_remembers.
Qed.

(** a request whose timestamp lies strictly before the time it was
    accepted can never be accepted again, however late it is replayed and
    whatever came in between: it is either blocked by its nonce or expired. *)
Theorem past_request_never_replayed sha256 {S} `{!PeerNonceStore S, !PeerNonceStoreLaws S}
    v (env env2 : nonce_env) e t1 t2 (s s' : S) (between : calls (S := S)) :
  validate sha256 v env e t1 s = (Ok (), s') →
  timestamp_ms e < t1 →
  t1 + window_ms v ≤ u64_max →
  nonce_expires_at_ms v e t1 ≤ retention s (nonce_expires_at_ms v e t1) t1 →
  (∀ c, c ∈ between → c.2 ≤ t2) →
  (validate sha256 v env2 e t2 (run sha256 v between s')).1 ≠ Ok ().
Proof.
  intros Hv Hpast Hov Hret Hbetween.
  destruct (N.lt_ge_cases t2 (nonce_expires_at_ms v e t1)) as [Hlt|Hge].
  - apply validate_accepted in Hv as [_ Hr]; [|done].
    eapply (remembered_nonce_refused sha256); [|exact (N.lt_le_trans _ _ _ Hlt Hret)].
    apply run_remembers; [done|done|]. intros c Hc. specialize (Hbetween c Hc). lia.
  - destruct (validate_cases sha256 v env2 e t2 (run sha256 v between s'))
      as [[[] _]|[_ [err ->]]]; [|done].
    unfold nonce_expires_at_ms, sat_add in *. lia.
Qed.

(** the protection stops there.  A request whose timestamp is not before
    the time it is accepted at is accepted a second time one window later, by
    the process-local store: the recorded nonce expires after one window, while
    the request stays within the skew tolerance for longer. *)
Theorem future_request_replayed sha256 v e t1 :
  admissible sha256 v e t1 →
  t1 ≤ timestamp_ms e →
  t1 + window_ms v < expires_at_ms e →
  timestamp_ms e + window_ms v ≤ u64_max →
  (run_ops [validate (S := Memory.MemoryState) sha256 v false e t1;
            validate (S := Memory.MemoryState) sha256 v false e (t1 + window_ms v)]
     Memory.empty).1 = [Ok (); Ok ()].
Proof.
  intros Ha Hfut Hexp Hov.
  assert (Ha2 : admissible sha256 v e (t1 + window_ms v)).
  { destruct Ha. split; try done; unfold sat_add in *; lia. }
  assert (Hx : nonce_expires_at_ms v e t1 = t1 + window_ms v).
  { unfold nonce_expires_at_ms, sat_add. lia. }
  simpl. rewrite (validate_admissible sha256 v _ e t1) by done.
  simpl. unfold Memory.check_and_record; simpl.
  assert (Hroom : (MAX_NONCE_CACHE_ENTRIES <=? sizeN (∅ : gmap string N)) = false) by done.
  rewrite lookup_empty, Hroom. simpl.
  rewrite (validate_admissible sha256 v _ e (t1 + window_ms v)) by done.
  simpl. unfold Memory.check_and_record; simpl.
  rewrite lookup_insert_eq, Hx, (proj2 (N.leb_le _ _)) by done. simpl.
  by rewrite delete_insert_eq, delete_empty, lookup_empty, Hroom.
Qed.

(** ** The signed pre-image determines the signed fields *)

(** The bounds Rust's types impose: [u64]/[u16] fields and string lengths. *)
Record representable_trace (t : TraceContext) : Prop := {
  rt_trace : fits (trace_id t);
  rt_span : fits (span_id t);
  rt_parent : fits_opt (parent_span_id t);
  rt_orig : fits (originating_core_id t);
  rt_current : fits (current_core_id t);
  rt_tenant : fits (trace_tenant_id t);
  rt_command : fits_opt (command_id t);
}.

Record representable (e : PeerRpcEnvelope) : Prop := {
  rep_request : fits (request_id e);
  rep_trace_id : fits (env_trace_id e);
  rep_protocol : env_protocol_version e ≤ u16_max;
  rep_source : fits (source_core_id e);
  rep_target : fits (target_core_id e);
  rep_tenant : fits (env_tenant_id e);
  rep_cluster : fits (env_cluster_id e);
  rep_timestamp : timestamp_ms e ≤ u64_max;
  rep_expires : expires_at_ms e ≤ u64_max;
  rep_nonce : fits (nonce e);
  rep_capability : fits (capability e);
  rep_hash : fits (body_hash e);
  rep_key : fits_opt (idempotency_key e);
  rep_trace : ∀ t, env_trace e = Some t → representable_trace t;
}.

Definition with_payload (p : list byte) (e : PeerRpcEnvelope) : PeerRpcEnvelope := {|
  request_id := request_id e; env_trace_id := env_trace_id e;
  env_protocol_version := env_protocol_version e; source_core_id := source_core_id e;
  target_core_id := target_core_id e; env_tenant_id := env_tenant_id e;
  env_cluster_id := env_cluster_id e; timestamp_ms := timestamp_ms e;
  expires_at_ms := expires_at_ms e; nonce := nonce e; capability := capability e;
  payload := p; idempotency_key := idempotency_key e; body_hash := body_hash e;
  env_trace := env_trace e |}.

#[local] Arguments hash_field : simpl never.
#[local] Arguments hash_optional_field : simpl never.

Lemma hash_field_app_inj s t x y :
  fits s → fits t → hash_field s ++ x = hash_field t ++ y → s = t ∧ x = y.
Proof. apply framed_app_inj. Qed.

Lemma hash_optional_field_app_inj o p x y :
  fits_opt o → fits_opt p →
  hash_optional_field o ++ x = hash_optional_field p ++ y → o = p ∧ x = y.
Proof.
  unfold fits_opt. intros Ho Hp H.
  destruct o as [s|], p as [t|]; unfold hash_optional_field in H; cbn [app] in H;
    apply cons_eq_inv in H as [Hb H]; try (vm_compute in Hb; discriminate); [|by subst].
  apply hash_field_app_inj in H as [-> ->]; auto.
Qed.

Lemma trace_preimage_inj o p :
  (∀ t, o = Some t → representable_trace t) → (∀ t, p = Some t → representable_trace t) →
  trace_preimage o = trace_preimage p → o = p.
Proof.
  intros Ho Hp E. destruct o as [t|], p as [u|]; unfold trace_preimage in E;
    cbn [app] in E; apply cons_eq_inv in E as [Hb E];
    try (vm_compute in Hb; discriminate); [|done].
  destruct (Ho t eq_refl), (Hp u eq_refl).
  do 2 (apply hash_field_app_inj in E as [? E]; [|done..]).
  apply hash_optional_field_app_inj in E as [? E]; [|done..].
  do 3 (apply hash_field_app_inj in E as [? E]; [|done..]).
  rewrite <- (app_nil_r (hash_optional_field (command_id t))),
    <- (app_nil_r (hash_optional_field (command_id u))) in E.
  apply hash_optional_field_app_inj in E as [? _]; [|done..].
  destruct t, u; simpl in *; congruence.
Qed.

(** the bytes that are signed determine every signed field: two envelopes
    with the same pre-image agree on everything except the payload itself
    (which the body hash stands for), so no field can be shifted into its
    neighbour and no optional field can be dropped under the same signature. *)
Theorem signing_preimage_inj e1 e2 :
  representable e1 → representable e2 →
  signing_preimage e1 = signing_preimage e2 →
  with_payload [] e1 = with_payload [] e2.
Proof.
  intros [] [] E. unfold signing_preimage in E.
  do 2 (apply hash_field_app_inj in E as [? E]; [|done..]).
  apply (be_bytes_app_inj 2) in E as [? E]; [|by apply u16_fits..].
  do 4 (apply hash_field_app_inj in E as [? E]; [|done..]).
  do 2 (apply (be_bytes_app_inj 8) in E as [? E]; [|by apply u64_fits..]).
  do 3 (apply hash_field_app_inj in E as [? E]; [|done..]).
  apply hash_optional_field_app_inj in E as [? E]; [|done..].
  apply trace_preimage_inj in E; [|done..].
  unfold with_payload. by f_equal.
Qed.

(** ** Witnesses *)

Module Demo.
Definition sha (_ : list byte) : list byte := [].
Definition v : PeerRpcValidator := {|
  config := {| local_tenant_id := "tenant-a"; local_cluster_id := "cluster-a";
               local_core_id := "core-b"; max_payload_bytes := 1024; nonce_window_ms := 60000 |};
  local_protocol_version := 1 |}.
Definition envelope (timestamp expires : N) : PeerRpcEnvelope := {|
  request_id := "req-1"; env_trace_id := "trace-1"; env_protocol_version := 1;
  source_core_id := "core-a"; target_core_id := "core-b"; env_tenant_id := "tenant-a";
  env_cluster_id := "cluster-a"; timestamp_ms := timestamp; expires_at_ms := expires;
  nonce := "nonce-1"; capability := "math.add"; payload := []; idempotency_key := None;
  body_hash := ""; env_trace := None |}.
Definition file_decode (s : list byte) : option FileStore.PersistedNonceState := None.
End Demo.

Lemma accepted_nonce_refused_witness :
  (validate (S := Memory.MemoryState) Demo.sha Demo.v false (Demo.envelope 900 9000) 1100
     (run (S := Memory.MemoryState) Demo.sha Demo.v [(true, Demo.envelope 950 8000, 1050)]
        (validate (S := Memory.MemoryState) Demo.sha Demo.v false (Demo.envelope 900 9000) 1000
           Memory.empty).2)).1 ≠ Ok ().
Proof.
  eapply (@accepted_nonce_refused Demo.sha Memory.MemoryState memory_store memory_store_laws
    Demo.v false false
    (Demo.envelope 900 9000) _ 1000 1100 Memory.empty).
  - vm_compute. reflexivity.
  - reflexivity.
  - intros c ->%list_elem_of_singleton. vm_compute. reflexivity.
  - vm_compute. reflexivity.
Defined.

Lemma past_request_never_replayed_witness :
  (validate (S := Memory.MemoryState) Demo.sha Demo.v false (Demo.envelope 900 200000) 61000
     (run (S := Memory.MemoryState) Demo.sha Demo.v []
        (validate (S := Memory.MemoryState) Demo.sha Demo.v false (Demo.envelope 900 200000) 1000
           Memory.empty).2)).1 ≠ Ok ().
Proof.
  eapply (@past_request_never_replayed Demo.sha Memory.MemoryState memory_store memory_store_laws
    Demo.v false false
    (Demo.envelope 900 200000) 1000 61000 Memory.empty).
  - vm_compute. reflexivity.
  - vm_compute. reflexivity.
  - vm_compute. discriminate.
  - vm_compute. discriminate.
  - intros c Hc. apply not_elem_of_nil in Hc as [].
Defined.

Lemma demo_admissible : admissible Demo.sha Demo.v (Demo.envelope 60000 200000) 0.
Proof. split; try (vm_compute; done). Qed.

Lemma future_request_replayed_witness :
  (run_ops [validate (S := Memory.MemoryState) Demo.sha Demo.v false
              (Demo.envelope 60000 200000) 0;
            validate (S := Memory.MemoryState) Demo.sha Demo.v false
              (Demo.envelope 60000 200000) 60000]
     Memory.empty).1 = [Ok (); Ok ()].
Proof.
  apply (future_request_replayed Demo.sha Demo.v (Demo.envelope 60000 200000) 0).
  - exact demo_admissible.
  - vm_compute. discriminate.
  - vm_compute. reflexivity.
  - vm_compute. discriminate.
Defined.

Lemma demo_representable t x : t ≤ u64_max → x ≤ u64_max → representable (Demo.envelope t x).
Proof.
  intros. split; unfold fits_opt; try done; unfold fits, str_len, u64_max, u16_max; simpl; lia.
Qed.

Lemma representable_payload p e : representable e → representable (with_payload p e).
Proof. by intros []. Qed.

Lemma signing_preimage_inj_witness :
  with_payload [] (Demo.envelope 1 2) = with_payload [] (with_payload [x01] (Demo.envelope 1 2)).
Proof.
  apply (signing_preimage_inj (Demo.envelope 1 2) (with_payload [x01] (Demo.envelope 1 2))).
  - apply demo_representable; vm_compute; discriminate.
  - by apply (representable_payload [x01]), demo_representable.
  - vm_compute. reflexivity.
Defined.
