(* ===== verification/Lease.v ===== *)
(** Shared-resource leases with fencing epochs:
    [crates/appcore-provider/src/shared_lease.rs] (the file repository) and
    [shared_lease_state.rs] (the durable text format).

    The filesystem is, per resource, the contents of its [.lease] and [.epoch]
    files; what the operating system answers during one call (locks, reads,
    writes that fail before or after the rename) is the argument [io], over
    which the theorems quantify. *)

From S2P Require Import Prelude.
From S2P Require Import Text.
From S2P Require Import Types.

Local Open Scope N_scope.

(** [error.rs]; [ProviderRole] is printed by its name. *)
Inductive ProviderError :=
| DuplicateFactory (role provider_id : string)
| Unavailable (role provider_id : string)
| InvalidConfiguration (message : string)
| SecretUnavailable (message : string)
| Initialization (message : string).
#[export] Instance ProviderError_eq_dec : EqDecision ProviderError.
Proof. solve_decision. Defined.

Abbreviation ProviderResult := (result ProviderError).
Definition initialization (message : string) : ProviderError := Initialization message.
Definition invalid (message : string) : ProviderError := InvalidConfiguration message.

(** ** Data *)

Record LeaseToken := {
  resource : string;
  owner : string;
  epoch : N;
}.
#[export] Instance LeaseToken_eq_dec : EqDecision LeaseToken.
Proof. solve_decision. Defined.

Record SharedResourceLease := {
  token : LeaseToken;
  acquired_at_ms : N;
  heartbeat_at_ms : N;
  expires_at_ms : N;
}.
#[export] Instance SharedResourceLease_eq_dec : EqDecision SharedResourceLease.
Proof. solve_decision. Defined.

Record LeasePolicy := {
  ttl_ms : N;
  heartbeat_ms : N;
  clock_skew_ms : N;
}.

Inductive LeaseDecision := Allowed | NoLease | Expired | WrongOwner | StaleEpoch.
#[export] Instance LeaseDecision_eq_dec : EqDecision LeaseDecision.
Proof. solve_decision. Defined.

Definition policy_validate (p : LeasePolicy) : ProviderResult () :=
  if (ttl_ms p =? 0) || (heartbeat_ms p =? 0) || (ttl_ms p <=? heartbeat_ms p)
     || (ttl_ms p <=? clock_skew_ms p) then
    Err (InvalidConfiguration "lease ttl must exceed heartbeat and clock skew")
  else Ok ().

Definition policy_new (ttl heartbeat skew : N) : ProviderResult LeasePolicy :=
  let policy := {| ttl_ms := ttl; heartbeat_ms := heartbeat; clock_skew_ms := skew |} in
  _ ← policy_validate policy; Ok policy.

Definition is_expired (l : SharedResourceLease) (now_ms : N) (p : LeasePolicy) : bool :=
  expires_at_ms l <=? now_ms - clock_skew_ms p.

Definition label_byte (c : ascii) : bool :=
  is_ascii_alphanumeric c || bool_decide (c = "."%char) || bool_decide (c = "-"%char)
  || bool_decide (c = "_"%char).

Definition valid_label (value : string) : bool :=
  negb (bool_decide (value = "") || (128 <? str_len value) || negb (str_all label_byte value)).

Definition validate_label (field value : string) : ProviderResult () :=
  if valid_label value then Ok () else Err (InvalidConfiguration ("invalid " +:+ field)).

Definition lease_owner_new (value : string) : ProviderResult string :=
  _ ← validate_label "lease owner" value; Ok value.

Definition resource_file (r : string) : ProviderResult string :=
  _ ← validate_label "lease resource" r; Ok r.

(** ** The durable format ([shared_lease_state.rs]) *)

Definition MAX_STATE_BYTES : N := 4096.
Definition LEASE_FORMAT : string := "appcore-shared-lease-v1".
Definition EPOCH_FORMAT : string := "appcore-shared-lease-epoch-v1".

Definition field (key value rest : string) : string :=
  key +:+ String "=" (value +:+ String LF rest).

Definition render_state (l : SharedResourceLease) : string :=
  field "format" LEASE_FORMAT
  (field "resource" (resource (token l))
  (field "owner" (owner (token l))
  (field "epoch" (show_u64 (epoch (token l)))
  (field "acquired_at_ms" (show_u64 (acquired_at_ms l))
  (field "heartbeat_at_ms" (show_u64 (heartbeat_at_ms l))
  (field "expires_at_ms" (show_u64 (expires_at_ms l)) EmptyString)))))).

Definition render_epoch (e : N) : string :=
  field "format" EPOCH_FORMAT (field "epoch" (show_u64 e) EmptyString).

Definition split_field (line : string) : ProviderResult (string * string) :=
  ok_or (invalid "lease state is malformed") (split_once "="%char line).

Definition parse_int (value : string) : ProviderResult N :=
  ok_or (invalid "lease integer field is malformed") (parse_u64 value).

(** The fields seen so far while reading a state file. *)
Record Partial := {
  p_format : bool;
  p_resource : option string;
  p_owner : option string;
  p_epoch : option N;
  p_acquired : option N;
  p_heartbeat : option N;
  p_expires : option N;
}.
Definition no_fields : Partial :=
  {| p_format := false; p_resource := None; p_owner := None; p_epoch := None;
     p_acquired := None; p_heartbeat := None; p_expires := None |}.

Definition is_none {A} (o : option A) : bool := match o with None => true | _ => false end.

(** One iteration of the loop of [parse_state]. *)
Definition parse_state_line (p : Partial) (line : string) : ProviderResult Partial :=
  '(key, value) ← split_field line;
  if bool_decide (key = "format") && bool_decide (value = LEASE_FORMAT) && negb (p_format p) then
    Ok {| p_format := true; p_resource := p_resource p; p_owner := p_owner p;
          p_epoch := p_epoch p; p_acquired := p_acquired p; p_heartbeat := p_heartbeat p;
          p_expires := p_expires p |}
  else if bool_decide (key = "resource") && is_none (p_resource p) then
    Ok {| p_format := p_format p; p_resource := Some value; p_owner := p_owner p;
          p_epoch := p_epoch p; p_acquired := p_acquired p; p_heartbeat := p_heartbeat p;
          p_expires := p_expires p |}
  else if bool_decide (key = "owner") && is_none (p_owner p) then
    o ← lease_owner_new value;
    Ok {| p_format := p_format p; p_resource := p_resource p; p_owner := Some o;
          p_epoch := p_epoch p; p_acquired := p_acquired p; p_heartbeat := p_heartbeat p;
          p_expires := p_expires p |}
  else if bool_decide (key = "epoch") && is_none (p_epoch p) then
    n ← parse_int value;
    Ok {| p_format := p_format p; p_resource := p_resource p; p_owner := p_owner p;
          p_epoch := Some n; p_acquired := p_acquired p; p_heartbeat := p_heartbeat p;
          p_expires := p_expires p |}
  else if bool_decide (key = "acquired_at_ms") && is_none (p_acquired p) then
    n ← parse_int value;
    Ok {| p_format := p_format p; p_resource := p_resource p; p_owner := p_owner p;
          p_epoch := p_epoch p; p_acquired := Some n; p_heartbeat := p_heartbeat p;
          p_expires := p_expires p |}
  else if bool_decide (key = "heartbeat_at_ms") && is_none (p_heartbeat p) then
    n ← parse_int value;
    Ok {| p_format := p_format p; p_resource := p_resource p; p_owner := p_owner p;
          p_epoch := p_epoch p; p_acquired := p_acquired p; p_heartbeat := Some n;
          p_expires := p_expires p |}
  else if bool_decide (key = "expires_at_ms") && is_none (p_expires p) then
    n ← parse_int value;
    Ok {| p_format := p_format p; p_resource := p_resource p; p_owner := p_owner p;
          p_epoch := p_epoch p; p_acquired := p_acquired p; p_heartbeat := p_heartbeat p;
          p_expires := Some n |}
  else Err (invalid "lease state is malformed").

Fixpoint parse_lines {A} (f : A → string → ProviderResult A) (a : A) (l : list string) :
    ProviderResult A :=
  match l with
  | [] => Ok a
  | line :: l' => a' ← f a line; parse_lines f a' l'
  end.

Definition parse_state (text expected_resource : string) : ProviderResult SharedResourceLease :=
  p ← parse_lines parse_state_line no_fields (lines text);
  if negb (p_format p) then Err (invalid "lease state has unsupported format")
  else
    r ← ok_or (invalid "lease state missing resource") (p_resource p);
    if negb (bool_decide (r = expected_resource)) then
      Err (invalid "lease state resource mismatch")
    else
      o ← ok_or (invalid "lease state missing owner") (p_owner p);
      e ← ok_or (invalid "lease state missing epoch") (p_epoch p);
      a ← ok_or (invalid "lease state missing acquired_at_ms") (p_acquired p);
      h ← ok_or (invalid "lease state missing heartbeat_at_ms") (p_heartbeat p);
      x ← ok_or (invalid "lease state missing expires_at_ms") (p_expires p);
      Ok {| token := {| resource := r; owner := o; epoch := e |};
            acquired_at_ms := a; heartbeat_at_ms := h; expires_at_ms := x |}.

Definition parse_epoch_line (p : bool * option N) (line : string) : ProviderResult (bool * option N) :=
  '(key, value) ← split_field line;
  if bool_decide (key = "format") && bool_decide (value = EPOCH_FORMAT) && negb p.1 then
    Ok (true, p.2)
  else if bool_decide (key = "epoch") && is_none p.2 then
    n ← parse_int value; Ok (p.1, Some n)
  else Err (invalid "lease epoch state is malformed").

Definition parse_epoch (text : string) : ProviderResult N :=
  p ← parse_lines parse_epoch_line (false, None) (lines text);
  if negb p.1 then Err (invalid "lease epoch state has unsupported format")
  else ok_or (invalid "lease epoch state missing epoch") p.2.

(** ** The filesystem and its answers *)

Record ResourceFiles := {
  lease_file : option string;
  epoch_file : option string;
}.
Definition no_files : ResourceFiles := {| lease_file := None; epoch_file := None |}.

Inductive WriteOutcome :=
| Written
| WrittenThenFailed (e : ProviderError)   (** replaced, then the directory sync failed *)
| NotWritten (e : ProviderError).         (** failed before the rename *)

Record LeaseIo := {
  io_root : option ProviderError;         (** inspecting the root directory *)
  io_lock : option ProviderError;         (** opening and taking the lock file *)
  io_read_state : option ProviderError;
  io_read_epoch : option ProviderError;
  io_write_epoch : WriteOutcome;
  io_write_state : WriteOutcome;
  io_remove : WriteOutcome;
  io_unlock : bool;
}.
Definition quiet : LeaseIo :=
  {| io_root := None; io_lock := None; io_read_state := None; io_read_epoch := None;
     io_write_epoch := Written; io_write_state := Written; io_remove := Written;
     io_unlock := true |}.

Definition io_check (o : option ProviderError) : ProviderResult () :=
  match o with None => Ok () | Some e => Err e end.

(** [read_optional_bounded]. *)
Definition read_optional_bounded (fail : option ProviderError) (file : option string) :
    ProviderResult (option string) :=
  _ ← io_check fail;
  match file with
  | None => Ok None
  | Some text =>
    if MAX_STATE_BYTES <? str_len text then Err (invalid "lease state exceeds size limit")
    else if utf8_valid text then Ok (Some text)
    else Err (invalid "lease state is not UTF-8")
  end.

Definition read_state (io : LeaseIo) (f : ResourceFiles) (expected_resource : string) :
    ProviderResult (option SharedResourceLease) :=
  o ← read_optional_bounded (io_read_state io) (lease_file f);
  match o with
  | None => Ok None
  | Some text => Some <$> parse_state text expected_resource
  end.

Definition read_epoch (io : LeaseIo) (f : ResourceFiles) : ProviderResult (option N) :=
  o ← read_optional_bounded (io_read_epoch io) (epoch_file f);
  match o with
  | None => Ok None
  | Some text => Some <$> parse_epoch text
  end.

(** [atomic_replace]: all or nothing. *)
Definition atomic {S} (w : WriteOutcome) (replace : S → S) : op S ProviderError () := λ s,
  match w with
  | Written => (Ok (), replace s)
  | WrittenThenFailed e => (Err e, replace s)
  | NotWritten e => (Err e, s)
  end.

Definition write_state (io : LeaseIo) (l : SharedResourceLease) : op ResourceFiles ProviderError () :=
  atomic (io_write_state io) (λ f, {| lease_file := Some (render_state l);
                                      epoch_file := epoch_file f |}).
Definition write_epoch (io : LeaseIo) (e : N) : op ResourceFiles ProviderError () :=
  atomic (io_write_epoch io) (λ f, {| lease_file := lease_file f;
                                      epoch_file := Some (render_epoch e) |}).
Definition remove_state (io : LeaseIo) : op ResourceFiles ProviderError () :=
  atomic (io_remove io) (λ f, {| lease_file := None; epoch_file := epoch_file f |}).

(** ** [FileLeaseRepository] *)

Abbreviation Repository := (gmap string ResourceFiles).

Definition files_of (repo : Repository) (r : string) : ResourceFiles :=
  default no_files (repo !! r).

Definition with_lock {A} (io : LeaseIo) (r : string) (operation : op ResourceFiles ProviderError A) :
    op Repository ProviderError A := λ repo,
  match (_ ← io_check (io_root io); _ ← resource_file r; io_check (io_lock io)) with
  | Err e => (Err e, repo)
  | Ok _ =>
    let '(res, f') := operation (files_of repo r) in
    let repo' := <[r := f']> repo in
    if io_unlock io then (res, repo') else (Err (initialization "lease unlock failed"), repo')
  end.

Definition lease_expiration (now_ms ttl : N) : ProviderResult N :=
  ok_or (initialization "lease expiration timestamp overflow") (checked_add64 now_ms ttl).

Definition ensure_same_token (current : SharedResourceLease) (t : LeaseToken) : ProviderResult () :=
  if bool_decide (token current = t) then Ok ()
  else Err (Initialization "shared resource lease fencing token mismatch").

Definition ensure_current (current : SharedResourceLease) (t : LeaseToken) (now_ms : N)
    (p : LeasePolicy) : ProviderResult () :=
  _ ← ensure_same_token current t;
  if is_expired current now_ms p then Err (Initialization "shared resource lease has expired")
  else Ok ().

Definition absent : ProviderError := Initialization "shared resource lease is absent".

(** The [previous_epoch] of [acquire]: the larger of the two records. *)
Definition previous_epoch (stored : option N) (current : option SharedResourceLease) : N :=
  N.max (default 0 stored) (default 0 (epoch ∘ token <$> current)).

Definition acquire_locked (p : LeasePolicy) (io : LeaseIo) (r o : string) (now_ms : N) :
    op ResourceFiles ProviderError SharedResourceLease :=
  f ← op_get;
  current ← op_lift (read_state io f r);
  if match current with
     | Some c => negb (is_expired c now_ms p) && negb (bool_decide (owner (token c) = o))
     | None => false
     end
  then op_fail (Initialization "shared resource lease is held by another owner")
  else
    stored ← op_lift (read_epoch io f);
    next_epoch ← op_lift (ok_or (initialization "shared resource fencing epoch exhausted")
                   (checked_add64 (previous_epoch stored current) 1));
    x ← op_lift (lease_expiration now_ms (ttl_ms p));
    let lease := {| token := {| resource := r; owner := o; epoch := next_epoch |};
                    acquired_at_ms := now_ms; heartbeat_at_ms := now_ms; expires_at_ms := x |} in
    _ ← write_epoch io next_epoch;
    _ ← write_state io lease;
    mret lease.

Definition acquire (p : LeasePolicy) (io : LeaseIo) (r o : string) (now_ms : N) :
    op Repository ProviderError SharedResourceLease :=
  with_lock io r (acquire_locked p io r o now_ms).

Definition heartbeat_locked (p : LeasePolicy) (io : LeaseIo) (t : LeaseToken) (now_ms : N) :
    op ResourceFiles ProviderError SharedResourceLease :=
  f ← op_get;
  o ← op_lift (read_state io f (resource t));
  current ← op_lift (ok_or absent o);
  _ ← op_lift (ensure_current current t now_ms p);
  if now_ms <? heartbeat_at_ms current then
    op_fail (initialization "lease heartbeat clock moved backwards")
  else
    x ← op_lift (lease_expiration now_ms (ttl_ms p));
    let l := {| token := token current; acquired_at_ms := acquired_at_ms current;
                heartbeat_at_ms := now_ms; expires_at_ms := x |} in
    _ ← write_state io l;
    mret l.

Definition heartbeat (p : LeasePolicy) (io : LeaseIo) (t : LeaseToken) (now_ms : N) :
    op Repository ProviderError SharedResourceLease :=
  with_lock io (resource t) (heartbeat_locked p io t now_ms).

Definition release_locked (io : LeaseIo) (t : LeaseToken) : op ResourceFiles ProviderError () :=
  f ← op_get;
  o ← op_lift (read_state io f (resource t));
  current ← op_lift (ok_or absent o);
  _ ← op_lift (ensure_same_token current t);
  remove_state io.

Definition release (io : LeaseIo) (t : LeaseToken) : op Repository ProviderError () :=
  with_lock io (resource t) (release_locked io t).

Definition current (io : LeaseIo) (r : string) :
    op Repository ProviderError (option SharedResourceLease) :=
  with_lock io r (f ← op_get; op_lift (read_state io f r)).

Definition check_fence_locked (p : LeasePolicy) (io : LeaseIo) (t : LeaseToken) (now_ms : N) :
    op ResourceFiles ProviderError LeaseDecision :=
  f ← op_get;
  o ← op_lift (read_state io f (resource t));
  match o with
  | None => mret NoLease
  | Some c =>
    if is_expired c now_ms p then mret Expired
    else if negb (bool_decide (owner (token c) = owner t)) then mret WrongOwner
    else if negb (bool_decide (epoch (token c) = epoch t)) then mret StaleEpoch
    else mret Allowed
  end.

Definition check_fence (p : LeasePolicy) (io : LeaseIo) (t : LeaseToken) (now_ms : N) :
    op Repository ProviderError LeaseDecision :=
  with_lock io (resource t) (check_fence_locked p io t now_ms).

(** ** Round trip of the durable format *)

(** Text that can stand as a field's value: printable bytes, one line. *)
Definition clean (s : string) : Prop := str_free LF s ∧ str_free CR s ∧ str_ascii s.

Lemma lines_field k v rest :
  clean k → clean v → lines (field k v rest) = (k +:+ String "=" v) :: lines rest.
Proof.
  intros (Hk1 & Hk2 & _) (Hv1 & Hv2 & _). unfold field.
  assert (k +:+ String "=" (v +:+ String LF rest) = (k +:+ String "=" v) +:+ String LF rest) as ->
    by (by rewrite string_app_assoc, string_app_cons).
  apply lines_cons; apply str_free_app; (split; [done|]); (split; [done|done]).
Qed.

Lemma split_field_spec k v : str_free "=" k → split_field (k +:+ String "=" v) = Ok (k, v).
Proof. intros Hk. unfold split_field. by rewrite split_once_app. Qed.

Lemma clean_digits s : str_digits s → clean s.
Proof.
  intros Hs. split_and!; [apply str_digits_free; [done|left; vm_compute; done]..|].
  induction s as [|x s IH]; [done|]. destruct Hs as [[? ?] Hs].
  split; [unfold ascii_byte; lia|auto].
Qed.
Lemma clean_show n : clean (show_u64 n).
Proof. apply clean_digits, show_u64_digits. Qed.

Lemma label_byte_clean c : label_byte c = true → c ≠ LF ∧ c ≠ CR ∧ ascii_byte c.
Proof. destruct c as [[] [] [] [] [] [] [] []]; vm_compute; done. Qed.

Lemma valid_label_spec s :
  valid_label s = true ↔ s ≠ "" ∧ str_len s ≤ 128 ∧ str_all label_byte s = true.
Proof.
  unfold valid_label. rewrite negb_true_iff, !orb_false_iff, bool_decide_eq_false, N.ltb_ge,
    negb_false_iff. tauto.
Qed.

Lemma clean_label s : valid_label s = true → clean s.
Proof.
  rewrite valid_label_spec. intros (_ & _ & Hall).
  induction s as [|c s IH]; [done|]. simpl in Hall. apply andb_true_iff in Hall as [Hc Hall].
  apply label_byte_clean in Hc as (? & ? & ?). destruct (IH Hall) as (? & ? & ?). by split_and!.
Qed.

Lemma clean_key k : str_all label_byte k = true → clean k.
Proof.
  induction k as [|c s IH]; [done|]. intros Hall. simpl in Hall.
  apply andb_true_iff in Hall as [Hc Hall].
  apply label_byte_clean in Hc as (? & ? & ?). destruct (IH Hall) as (? & ? & ?). by split_and!.
Qed.

(** Leases the repository can write. *)
Record valid_lease (l : SharedResourceLease) : Prop := {
  vl_resource : valid_label (resource (token l)) = true;
  vl_owner : valid_label (owner (token l)) = true;
  vl_epoch : epoch (token l) ≤ u64_max;
  vl_acquired : acquired_at_ms l ≤ u64_max;
  vl_heartbeat : heartbeat_at_ms l ≤ u64_max;
  vl_expires : expires_at_ms l ≤ u64_max;
}.

Ltac parse_field :=
  cbn [parse_lines]; unfold parse_state_line, parse_epoch_line;
  rewrite split_field_spec by (vm_compute; tauto || (repeat split; discriminate));
  cbn [mbind result_bind].

Lemma parse_render_state l :
  valid_lease l → parse_state (render_state l) (resource (token l)) = Ok l.
Proof.
  intros [Hr Ho He Ha Hh Hx]. unfold parse_state, render_state.
  rewrite !lines_field by
    (first [apply clean_show | apply clean_label; assumption | apply clean_key; vm_compute; done]).
  rewrite lines_nil.
  (parse_field; simpl;
    unfold lease_owner_new, validate_label, parse_int; rewrite ?Ho, ?parse_show_u64 by done; simpl).
  rewrite bool_decide_eq_true_2 by done. by destruct l as [[] ? ? ?].
Qed.

Lemma parse_render_epoch e : e ≤ u64_max → parse_epoch (render_epoch e) = Ok e.
Proof.
  intros He. unfold parse_epoch, render_epoch.
  rewrite !lines_field by (first [apply clean_show | apply clean_key; vm_compute; done]).
  rewrite lines_nil.
  (parse_field; simpl; unfold parse_int; rewrite ?parse_show_u64 by done; simpl).
  done.
Qed.

#[local] Arguments render_state : simpl never.
#[local] Arguments render_epoch : simpl never.
#[local] Arguments parse_state : simpl never.
#[local] Arguments parse_epoch : simpl never.
#[local] Arguments str_len : simpl never.
#[local] Arguments utf8_valid : simpl never.

Lemma str_len_field k v rest :
  str_len (field k v rest) = str_len k + str_len v + str_len rest + 2.
Proof. unfold field, str_len. rewrite string_length_app. simpl. rewrite string_length_app. simpl. lia. Qed.

Lemma field_ascii k v rest :
  clean k → clean v → str_ascii rest → str_ascii (field k v rest).
Proof.
  intros (_ & _ & Hk) (_ & _ & Hv) Hr. unfold field.
  apply str_ascii_app. split; [done|]. split; [vm_compute; done|].
  apply str_ascii_app. split; [done|]. split; [vm_compute; done|done].
Qed.

(** What the repository writes it reads back, whatever else it checks. *)
Lemma read_rendered_state io f l :
  valid_lease l → io_read_state io = None → lease_file f = Some (render_state l) →
  read_state io f (resource (token l)) = Ok (Some l).
Proof.
  intros Hl Hio Hf. unfold read_state, read_optional_bounded. rewrite Hio, Hf.
  cbn [io_check mbind result_bind].
  assert (Hsize : str_len (render_state l) ≤ MAX_STATE_BYTES).
  { destruct Hl as [Hr Ho He Ha Hh Hx]. apply valid_label_spec in Hr, Ho.
    destruct Hr as (_ & Hr & _), Ho as (_ & Ho & _).
    pose proof (show_u64_length _ He). pose proof (show_u64_length _ Ha).
    pose proof (show_u64_length _ Hh). pose proof (show_u64_length _ Hx).
    unfold render_state. rewrite !str_len_field.
    unfold MAX_STATE_BYTES, str_len in *. clear He Ha Hh Hx. simpl. lia. }
  assert (Hutf : utf8_valid (render_state l) = true).
  { apply utf8_valid_ascii. destruct Hl. unfold render_state.
    repeat apply field_ascii; try done;
      (first [apply clean_show | apply clean_label; assumption | apply clean_key; vm_compute; done]). }
  rewrite (proj2 (N.ltb_ge _ _)), Hutf by done.
  cbn [mbind result_bind fmap result_fmap]. by rewrite parse_render_state.
Qed.

Lemma read_rendered_epoch io f e :
  e ≤ u64_max → io_read_epoch io = None → epoch_file f = Some (render_epoch e) →
  read_epoch io f = Ok (Some e).
Proof.
  intros He Hio Hf. unfold read_epoch, read_optional_bounded. rewrite Hio, Hf.
  cbn [io_check mbind result_bind].
  assert (Hsize : str_len (render_epoch e) ≤ MAX_STATE_BYTES).
  { pose proof (show_u64_length e He). unfold render_epoch. rewrite !str_len_field.
    unfold MAX_STATE_BYTES, str_len in *. simpl. lia. }
  assert (Hutf : utf8_valid (render_epoch e) = true).
  { apply utf8_valid_ascii. unfold render_epoch.
    repeat apply field_ascii; try done;
      (first [apply clean_show | apply clean_key; vm_compute; done]). }
  rewrite (proj2 (N.ltb_ge _ _)), Hutf by done.
  cbn [mbind result_bind fmap result_fmap]. by rewrite parse_render_epoch.
Qed.

(** ** The abstract state of a resource: its lease and its epoch high-water mark *)

Definition high (eo : option N) : N := default 0 eo.

Record represents (r : string) (f : ResourceFiles) (lo : option SharedResourceLease)
    (eo : option N) : Prop := {
  rep_lease : lease_file f = render_state <$> lo;
  rep_epoch : epoch_file f = render_epoch <$> eo;
  rep_valid : ∀ l, lo = Some l → valid_lease l ∧ resource (token l) = r;
  rep_bound : high eo ≤ u64_max;
  rep_high : ∀ l, lo = Some l → epoch (token l) ≤ high eo;
}.

(** How one locked operation may move the abstract state: the high-water mark
    never falls, and a lease that was not there before has a fresh epoch. *)
Record moves (lo : option SharedResourceLease) (eo : option N)
    (lo' : option SharedResourceLease) (eo' : option N) : Prop := {
  mv_high : high eo ≤ high eo';
  mv_lease : ∀ l', lo' = Some l' →
    (∃ l, lo = Some l ∧ token l = token l') ∨ high eo < epoch (token l');
}.

Definition steps_to (r : string) (lo : option SharedResourceLease) (eo : option N)
    (f' : ResourceFiles) : Prop :=
  ∃ lo' eo', represents r f' lo' eo' ∧ moves lo eo lo' eo'.

Lemma moves_refl lo eo : moves lo eo lo eo.
Proof. split; [done|]. intros l' ->. left. eauto. Qed.

Lemma represents_none r : represents r no_files None None.
Proof. split; try done. Qed.

Lemma stays r f lo eo : represents r f lo eo → steps_to r lo eo f.
Proof. intros. exists lo, eo. split; [done|apply moves_refl]. Qed.
#[local] Hint Resolve stays moves_refl : lease.

(** The call left the files alone and returned an error. *)
Ltac refused := split; [eauto with lease | intros; simplify_eq/=].

Lemma io_check_ok o : io_check o = Ok () → o = None.
Proof. by destruct o. Qed.

Lemma read_state_spec io r f lo eo :
  represents r f lo eo →
  read_state io f r = Ok lo ∨ ∃ e, read_state io f r = Err e.
Proof.
  intros [Hl _ Hv _ _]. unfold read_state, read_optional_bounded.
  destruct (io_read_state io) eqn:Hio; [right; by eexists|]. left.
  destruct lo as [l|].
  - destruct (Hv l eq_refl) as [Hval <-].
    pose proof (read_rendered_state io f l Hval Hio Hl) as Hr.
    unfold read_state, read_optional_bounded in Hr. by rewrite Hio in Hr.
  - by rewrite Hl.
Qed.

Lemma read_epoch_spec io r f lo eo :
  represents r f lo eo →
  read_epoch io f = Ok eo ∨ ∃ e, read_epoch io f = Err e.
Proof.
  intros [_ He _ Hb _]. unfold read_epoch, read_optional_bounded.
  destruct (io_read_epoch io) eqn:Hio; [right; by eexists|]. left.
  destruct eo as [e|].
  - pose proof (read_rendered_epoch io f e Hb Hio He) as Hr.
    unfold read_epoch, read_optional_bounded in Hr. by rewrite Hio in Hr.
  - by rewrite He.
Qed.

Lemma previous_epoch_high eo lo :
  (∀ l, lo = Some l → epoch (token l) ≤ high eo) → previous_epoch eo lo = high eo.
Proof.
  intros Hh. unfold previous_epoch, high in *. destruct lo as [l|]; simpl; [|lia].
  specialize (Hh l eq_refl). lia.
Qed.

(** The state after the two writes of [acquire], whatever failed. *)
Lemma acquire_writes io r f lo eo l :
  represents r f lo eo → valid_lease l → resource (token l) = r →
  epoch (token l) = high eo + 1 →
  let res := (_ ← write_epoch io (epoch (token l)); _ ← write_state io l; mret l) f in
  steps_to r lo eo res.2 ∧
  (∀ l', res.1 = Ok l' → l' = l ∧ represents r res.2 (Some l) (Some (epoch (token l)))).
Proof.
  intros [Hl He Hv Hb Hh] Hval Hr Hep. pose proof (vl_epoch l Hval) as Hu.
  assert (R1 : represents r {| lease_file := lease_file f;
      epoch_file := Some (render_epoch (epoch (token l))) |} lo (Some (epoch (token l)))).
  { split; try done. intros l0 Hl0. specialize (Hh l0 Hl0). simpl. lia. }
  assert (R2 : represents r {| lease_file := Some (render_state l);
      epoch_file := Some (render_epoch (epoch (token l))) |} (Some l) (Some (epoch (token l)))).
  { split; try done; intros l0 [= <-]; simpl; [done|lia]. }
  assert (M1 : moves lo eo lo (Some (epoch (token l)))).
  { split; [simpl; lia|]. intros l' ->. left. eauto. }
  assert (M2 : moves lo eo (Some l) (Some (epoch (token l)))).
  { split; [simpl; lia|]. intros l' [= <-]. right. lia. }
  intros res. subst res. unfold write_epoch, write_state, atomic, mbind, op_bind.
  destruct (io_write_epoch io); [| |split; [by apply stays|done]].
  - destruct (io_write_state io); simpl.
    + split; [by exists (Some l), (Some (epoch (token l)))|]. by intros l' [= <-].
    + split; [by exists (Some l), (Some (epoch (token l)))|done].
    + split; [by exists lo, (Some (epoch (token l)))|done].
  - split; [by exists lo, (Some (epoch (token l)))|done].
Qed.

Lemma acquire_locked_spec p io r o now f lo eo :
  represents r f lo eo → valid_label r = true → valid_label o = true → now ≤ u64_max →
  let res := acquire_locked p io r o now f in
  steps_to r lo eo res.2 ∧
  (∀ l, res.1 = Ok l →
     epoch (token l) = high eo + 1 ∧ resource (token l) = r ∧ owner (token l) = o ∧
     represents r res.2 (Some l) (Some (epoch (token l)))).
Proof.
  intros Hrep Hvr Hvo Hnow res. subst res. unfold acquire_locked. autorewrite with op.
  destruct (read_state_spec io r f lo eo Hrep) as [->|[e ->]]; autorewrite with op; [|refused].
  destruct (match lo with Some _ => _ | None => _ end); autorewrite with op; [refused|].
  destruct (read_epoch_spec io r f lo eo Hrep) as [->|[e ->]]; autorewrite with op; [|refused].
  rewrite (previous_epoch_high eo lo) by apply Hrep.
  destruct (checked_add64 (high eo) 1) as [n|] eqn:Hn; cbn [ok_or]; autorewrite with op; [|refused].
  apply checked_add_Some in Hn as [-> Hn].
  unfold lease_expiration.
  destruct (checked_add64 now (ttl_ms p)) as [x|] eqn:Hx; cbn [ok_or]; autorewrite with op;
    [|refused].
  apply checked_add_Some in Hx as [-> Hx].
  edestruct (acquire_writes io r f lo eo) as [H1 H2]; [done| | | |split; [exact H1|]].
  - split; done.
  - done.
  - done.
  - intros l Hl. apply H2 in Hl as [-> Hl]. done.
Qed.

Lemma heartbeat_locked_spec p io t now f lo eo :
  represents (resource t) f lo eo → now ≤ u64_max →
  let res := heartbeat_locked p io t now f in
  steps_to (resource t) lo eo res.2 ∧
  (∀ l', res.1 = Ok l' → ∃ l, lo = Some l ∧ token l = t ∧ is_expired l now p = false ∧
     token l' = t ∧ heartbeat_at_ms l ≤ heartbeat_at_ms l' ∧ expires_at_ms l' = now + ttl_ms p ∧
     represents (resource t) res.2 (Some l') eo).
Proof.
  intros Hrep Hnow res. subst res. unfold heartbeat_locked. autorewrite with op.
  destruct (read_state_spec io (resource t) f lo eo Hrep) as [->|[e ->]]; autorewrite with op;
    [|refused].
  destruct lo as [l|]; cbn [ok_or]; autorewrite with op; [|refused].
  unfold ensure_current, ensure_same_token.
  case_bool_decide as Ht; autorewrite with op; [|refused]. cbn [mbind result_bind].
  destruct (is_expired l now p) eqn:Hexp; autorewrite with op; [refused|].
  destruct (N.ltb_spec now (heartbeat_at_ms l)) as [|Hhb]; [refused|].
  unfold lease_expiration.
  destruct (checked_add64 now (ttl_ms p)) as [x|] eqn:Hx; cbn [ok_or]; autorewrite with op;
    [|refused].
  apply checked_add_Some in Hx as [-> Hx].
  set (l' := {| token := token l; acquired_at_ms := acquired_at_ms l;
                heartbeat_at_ms := now; expires_at_ms := now + ttl_ms p |}).
  destruct Hrep as [Hl He Hv Hb Hh]. destruct (Hv l eq_refl) as [[] Hr].
  assert (R : represents (resource t) {| lease_file := Some (render_state l');
                epoch_file := epoch_file f |} (Some l') eo).
  { split; try done; intros ? [= <-]; [by split|exact (Hh l eq_refl)]. }
  assert (M : moves (Some l) eo (Some l') eo).
  { split; [done|]. intros ? [= <-]. left. by exists l. }
  assert (S0 : steps_to (resource t) (Some l) eo f) by (apply stays; by split).
  assert (S1 : steps_to (resource t) (Some l) eo {| lease_file := Some (render_state l');
                epoch_file := epoch_file f |}) by (by exists (Some l'), eo).
  unfold write_state, atomic, mbind, op_bind. destruct (io_write_state io); simpl; split; try done.
  intros ? [= <-]. exists l. by split_and!.
Qed.

Lemma release_locked_spec io t f lo eo :
  represents (resource t) f lo eo →
  let res := release_locked io t f in
  steps_to (resource t) lo eo res.2 ∧
  (res.1 = Ok () → (∃ l, lo = Some l ∧ token l = t) ∧ represents (resource t) res.2 None eo).
Proof.
  intros Hrep res. subst res. unfold release_locked. autorewrite with op.
  destruct (read_state_spec io (resource t) f lo eo Hrep) as [->|[e ->]]; autorewrite with op;
    [|refused].
  destruct lo as [l|]; cbn [ok_or]; autorewrite with op; [|refused].
  unfold ensure_same_token. case_bool_decide as Ht; autorewrite with op; [|refused].
  pose proof Hrep as [_ He _ Hb _].
  assert (R : represents (resource t) {| lease_file := None; epoch_file := epoch_file f |} None eo).
  { by split. }
  assert (S1 : steps_to (resource t) (Some l) eo {| lease_file := None; epoch_file := epoch_file f |}).
  { exists None, eo. split; [done|]. by split. }
  unfold remove_state, atomic. destruct (io_remove io); simpl; split; eauto with lease; try done.
Qed.

Lemma check_fence_locked_spec p io t now f lo eo :
  represents (resource t) f lo eo →
  let res := check_fence_locked p io t now f in
  res.2 = f ∧
  (res.1 = Ok Allowed → ∃ l, lo = Some l ∧ is_expired l now p = false ∧
     owner (token l) = owner t ∧ epoch (token l) = epoch t).
Proof.
  intros Hrep res. subst res. unfold check_fence_locked. autorewrite with op.
  destruct (read_state_spec io (resource t) f lo eo Hrep) as [->|[e ->]]; autorewrite with op;
    [|done].
  destruct lo as [l|]; [|done].
  destruct (is_expired l now p) eqn:?; [done|].
  case_bool_decide; [|done]. case_bool_decide; [|done]. simpl. split; [done|]. intros _. by exists l.
Qed.

(** ** The repository *)

Inductive LeaseCall :=
| CallAcquire (p : LeasePolicy) (io : LeaseIo) (r o : string) (now_ms : N)
| CallHeartbeat (p : LeasePolicy) (io : LeaseIo) (t : LeaseToken) (now_ms : N)
| CallRelease (io : LeaseIo) (t : LeaseToken)
| CallCurrent (io : LeaseIo) (r : string)
| CallFence (p : LeasePolicy) (io : LeaseIo) (t : LeaseToken) (now_ms : N).

Definition exec (c : LeaseCall) (repo : Repository) : Repository :=
  match c with
  | CallAcquire p io r o now => (acquire p io r o now repo).2
  | CallHeartbeat p io t now => (heartbeat p io t now repo).2
  | CallRelease io t => (release io t repo).2
  | CallCurrent io r => (current io r repo).2
  | CallFence p io t now => (check_fence p io t now repo).2
  end.

Definition exec_all (cs : list LeaseCall) (repo : Repository) : Repository :=
  foldl (λ repo c, exec c repo) repo cs.

(** [LeaseOwner] is built by [LeaseOwner::new]; timestamps are [u64]. *)
Definition call_ok (c : LeaseCall) : Prop :=
  match c with
  | CallAcquire _ _ _ o now => valid_label o = true ∧ now ≤ u64_max
  | CallHeartbeat _ _ _ now | CallFence _ _ _ now => now ≤ u64_max
  | _ => True
  end.

Definition target (c : LeaseCall) : string :=
  match c with
  | CallAcquire _ _ r _ _ | CallCurrent _ r => r
  | CallHeartbeat _ _ t _ | CallRelease _ t | CallFence _ _ t _ => resource t
  end.

(** Every resource's files represent an abstract state. *)
Definition repo_ok (repo : Repository) : Prop :=
  ∀ r, ∃ lo eo, represents r (files_of repo r) lo eo.

Lemma repo_ok_empty : repo_ok ∅.
Proof. intros r. exists None, None. unfold files_of. rewrite lookup_empty. apply represents_none. Qed.

Lemma files_of_eq (repo : Repository) r f : files_of (<[r := f]> repo) r = f.
Proof. unfold files_of. by rewrite lookup_insert_eq. Qed.
Lemma files_of_ne (repo : Repository) r r' f :
  r ≠ r' → files_of (<[r := f]> repo) r' = files_of repo r'.
Proof. intros. unfold files_of. by rewrite lookup_insert_ne. Qed.

(** [with_lock] runs the operation on the files of one resource, or nothing. *)
Lemma with_lock_spec {A} io r (o : op ResourceFiles ProviderError A) repo :
  let res := with_lock io r o repo in
  (res.2 = repo ∧ ∃ e, res.1 = Err e) ∨
  (valid_label r = true ∧ res.2 = <[r := (o (files_of repo r)).2]> repo ∧
   (res.1 = (o (files_of repo r)).1 ∨ ∃ e, res.1 = Err e)).
Proof.
  unfold with_lock, resource_file, validate_label.
  destruct (io_root io); [left; by eauto|]. cbn [io_check mbind result_bind].
  destruct (valid_label r) eqn:Hv; cbn [mbind result_bind]; [|left; by eauto].
  destruct (io_lock io); cbn [io_check]; [left; by eauto|].
  destruct (o (files_of repo r)) as [res f'] eqn:Ho. right. split; [done|].
  destruct (io_unlock io); simpl; eauto.
Qed.

Lemma exec_other c repo r : target c ≠ r → files_of (exec c repo) r = files_of repo r.
Proof.
  intros Hne.
  destruct c as [p io r' o now|p io t now|io t|io r'|p io t now]; simpl in Hne |- *;
    (unfold acquire, heartbeat, release, current, check_fence;
     match goal with |- context [with_lock ?io ?r' ?o repo] =>
       destruct (with_lock_spec io r' o repo) as [[-> _]|(_ & -> & _)] end;
     [done|by apply files_of_ne]).
Qed.

(** What a call does to the files of its resource. *)
Lemma exec_steps c repo r lo eo :
  call_ok c → represents r (files_of repo r) lo eo → steps_to r lo eo (files_of (exec c repo) r).
Proof.
  intros Hc Hrep. destruct (decide (target c = r)) as [<-|Hne];
    [|rewrite exec_other by done; by apply stays].
  destruct c as [p io r o now|p io t now|io t|io r|p io t now]; simpl in *;
    unfold acquire, heartbeat, release, current, check_fence;
    (match goal with |- context [with_lock ?io ?r' ?o repo] =>
       destruct (with_lock_spec io r' o repo) as [[-> _]|(Hv & -> & _)] end;
     [by apply stays|rewrite files_of_eq]).
  - destruct Hc. by apply acquire_locked_spec.
  - by apply heartbeat_locked_spec.
  - by apply release_locked_spec.
  - by apply stays.
  - erewrite (proj1 (check_fence_locked_spec _ _ _ _ _ _ _ Hrep)). by apply stays.
Qed.

Lemma exec_repo_ok c repo : call_ok c → repo_ok repo → repo_ok (exec c repo).
Proof.
  intros Hc Hok r. destruct (Hok r) as (lo & eo & Hrep).
  destruct (exec_steps c repo r lo eo Hc Hrep) as (lo' & eo' & ? & _). eauto.
Qed.

Lemma exec_all_repo_ok cs repo : Forall call_ok cs → repo_ok repo → repo_ok (exec_all cs repo).
Proof.
  intros Hcs. revert repo. induction Hcs as [|c cs Hc Hcs IH]; [done|].
  intros repo Hok. apply IH, exec_repo_ok; done.
Qed.

(** Epoch [e] of resource [r] has been handed out; with [live = false] it is
    moreover below every lease that can still appear. *)
Definition fenced (r : string) (e : N) (repo : Repository) : Prop :=
  ∃ lo eo, represents r (files_of repo r) lo eo ∧ e ≤ high eo ∧
    ∀ l, lo = Some l → e ≤ epoch (token l).

Definition issued (r : string) (e : N) (repo : Repository) : Prop :=
  ∃ lo eo, represents r (files_of repo r) lo eo ∧ e ≤ high eo.

Lemma exec_fenced c repo r e : call_ok c → fenced r e repo → fenced r e (exec c repo).
Proof.
  intros Hc (lo & eo & Hrep & He & Hl).
  destruct (exec_steps c repo r lo eo Hc Hrep) as (lo' & eo' & Hrep' & [Hh Hm]).
  exists lo', eo'. split; [done|]. split; [lia|].
  intros l' Hl'. destruct (Hm l' Hl') as [(l & Hl0 & <-)|]; [by apply Hl|lia].
Qed.

Lemma exec_all_fenced cs repo r e :
  Forall call_ok cs → fenced r e repo → fenced r e (exec_all cs repo).
Proof.
  intros Hcs. revert repo. induction Hcs as [|c cs Hc Hcs IH]; [done|].
  intros repo Hf. apply IH, exec_fenced; done.
Qed.

Lemma exec_all_issued cs repo r e :
  Forall call_ok cs → issued r e repo → issued r e (exec_all cs repo).
Proof.
  intros Hcs. revert repo. induction Hcs as [|c cs Hc Hcs IH]; [done|].
  intros repo (lo & eo & Hrep & He). apply IH.
  destruct (exec_steps c repo r lo eo Hc Hrep) as (lo' & eo' & Hrep' & [Hh _]).
  exists lo', eo'. split; [done|lia].
Qed.

(** A successful [acquire] takes the next epoch and leaves its lease in place. *)
Lemma acquire_ok p io r o now repo l repo' :
  repo_ok repo → valid_label o = true → now ≤ u64_max →
  acquire p io r o now repo = (Ok l, repo') →
  ∃ lo eo, represents r (files_of repo r) lo eo ∧ epoch (token l) = high eo + 1 ∧
    resource (token l) = r ∧ owner (token l) = o ∧
    represents r (files_of repo' r) (Some l) (Some (epoch (token l))).
Proof.
  intros Hok Ho Hnow Hacq. destruct (Hok r) as (lo & eo & Hrep). exists lo, eo. split; [done|].
  unfold acquire in Hacq.
  destruct (with_lock_spec io r (acquire_locked p io r o now) repo) as [[_ [e He]]|(Hv & H2 & H1)].
  { rewrite Hacq in He. done. }
  rewrite Hacq in H1, H2. simpl in H1, H2. destruct H1 as [H1|[e ?]]; [|done]. subst repo'.
  rewrite files_of_eq.
  destruct (acquire_locked_spec p io r o now (files_of repo r) lo eo) as [_ Hspec]; try done.
  symmetry in H1. destruct (Hspec l H1) as (? & ? & ? & ?). by split_and!.
Qed.

Lemma acquire_exec p io r o now repo l repo' :
  acquire p io r o now repo = (Ok l, repo') → exec (CallAcquire p io r o now) repo = repo'.
Proof. intros Hacq. simpl. by rewrite Hacq. Qed.

(** A token below the fence gets nothing done. *)
Lemma fenced_token_useless repo t e :
  fenced (resource t) e repo → epoch t < e →
  ∀ p io now, now ≤ u64_max →
    (check_fence p io t now repo).1 ≠ Ok Allowed ∧
    is_ok (heartbeat p io t now repo).1 = false ∧
    is_ok (release io t repo).1 = false.
Proof.
  intros (lo & eo & Hrep & He & Hl) Ht p io now Hnow.
  assert (Hno : ∀ l, lo = Some l → epoch (token l) = epoch t → False).
  { intros l Hlo Heq. specialize (Hl l Hlo). lia. }
  unfold check_fence, heartbeat, release. split_and!.
  - destruct (with_lock_spec io (resource t) (check_fence_locked p io t now) repo)
      as [[_ [e' ->]]|(_ & _ & [->|[e' ->]])]; try done.
    intros Heq. apply (check_fence_locked_spec _ _ _ _ _ lo eo Hrep) in Heq
      as (l & ? & _ & _ & ?). by eapply Hno.
  - destruct (with_lock_spec io (resource t) (heartbeat_locked p io t now) repo)
      as [[_ [e' ->]]|(_ & _ & [->|[e' ->]])]; try done.
    destruct (heartbeat_locked_spec p io t now _ lo eo Hrep Hnow) as [_ Hspec].
    destruct (heartbeat_locked p io t now _).1 as [l'|] eqn:Hr; [|done].
    destruct (Hspec l' eq_refl) as (l & ? & <- & _). exfalso. by eapply Hno.
  - destruct (with_lock_spec io (resource t) (release_locked io t) repo)
      as [[_ [e' ->]]|(_ & _ & [->|[e' ->]])]; try done.
    destruct (release_locked_spec io t _ lo eo Hrep) as [_ Hspec].
    destruct (release_locked io t _).1 as [[]|] eqn:Hr; [|done].
    destruct (Hspec eq_refl) as ((l & ? & <-) & _). exfalso. by eapply Hno.
Qed.

(** ** Exclusivity *)

(** [l] is the lease of its resource. *)
Definition holds (l : SharedResourceLease) (repo : Repository) : Prop :=
  ∃ eo, represents (resource (token l)) (files_of repo (resource (token l))) (Some l) eo.

(** Calls that another node may make while [l] is held and has not expired
    for the policy that node uses. *)
Definition foreign (l : SharedResourceLease) (c : LeaseCall) : Prop :=
  target c = resource (token l) →
  match c with
  | CallAcquire p _ _ o now => owner (token l) ≠ o ∧ is_expired l now p = false
  | CallHeartbeat _ _ t _ | CallRelease _ t => token l ≠ t
  | _ => True
  end.

Lemma foreign_keeps c l repo :
  foreign l c → holds l repo →
  files_of (exec c repo) (resource (token l)) = files_of repo (resource (token l)).
Proof.
  intros Hf [eo Hrep]. destruct (decide (target c = resource (token l))) as [Heq|Hne];
    [|by apply exec_other].
  specialize (Hf Heq).
  destruct c as [p io r o now|p io t now|io t|io r|p io t now]; simpl in Hf, Heq |- *; subst;
    unfold acquire, heartbeat, release, current, check_fence; rewrite ?Heq;
    (match goal with |- context [with_lock ?io ?r' ?o repo] =>
       destruct (with_lock_spec io r' o repo) as [[-> _]|(Hv & -> & _)] end; [done|]);
    rewrite files_of_eq.
  - destruct Hf as [Ho Hexp]. unfold acquire_locked. autorewrite with op.
    destruct (read_state_spec io _ _ _ _ Hrep) as [->|[e ->]]; autorewrite with op; [|done].
    rewrite Hexp, bool_decide_eq_false_2 by done. done.
  - unfold heartbeat_locked. autorewrite with op. rewrite Heq.
    destruct (read_state_spec io _ _ _ _ Hrep) as [->|[e ->]]; autorewrite with op; [|done].
    cbn [ok_or]. autorewrite with op. unfold ensure_current, ensure_same_token.
    by rewrite bool_decide_eq_false_2.
  - unfold release_locked. autorewrite with op. rewrite Heq.
    destruct (read_state_spec io _ _ _ _ Hrep) as [->|[e ->]]; autorewrite with op; [|done].
    cbn [ok_or]. autorewrite with op. unfold ensure_same_token.
    by rewrite bool_decide_eq_false_2.
  - done.
  - rewrite <- Heq in Hrep |- *. by eapply check_fence_locked_spec.
Qed.

Lemma foreign_holds cs l repo :
  Forall (foreign l) cs → holds l repo → holds l (exec_all cs repo).
Proof.
  intros Hcs. revert repo. induction Hcs as [|c cs Hc Hcs IH]; [done|].
  intros repo Hh. apply IH. pose proof (foreign_keeps c l repo Hc Hh) as Heq.
  destruct Hh as [eo Hh]. exists eo. by rewrite Heq.
Qed.

(** The holder's own view, when the operating system answers. *)
Lemma holds_quiet l repo :
  holds l repo → valid_label (resource (token l)) = true →
  (current quiet (resource (token l)) repo).1 = Ok (Some l) ∧
  ∀ p now, is_expired l now p = false → (check_fence p quiet (token l) now repo).1 = Ok Allowed.
Proof.
  intros [eo Hrep] Hv. destruct (read_state_spec quiet _ _ _ _ Hrep) as [Hr|[e Hr]].
  2: { pose proof Hrep as [Hl _ Hval _ _].
       rewrite (read_rendered_state quiet _ l) in Hr; try done. by apply Hval. }
  unfold current, check_fence, with_lock, resource_file, validate_label. rewrite Hv. simpl.
  autorewrite with op. rewrite Hr. split; [done|]. intros p now Hexp.
  unfold check_fence_locked. autorewrite with op. rewrite Hr. autorewrite with op.
  rewrite Hexp, !bool_decide_eq_true_2 by done. done.
Qed.

(** ** Properties *)

(** C5: Fencing. Starting from an empty directory, and whatever calls run
    before, between and after with whatever filesystem failures, when a second
    [acquire] of a resource succeeds after a first one did, its epoch is
    strictly larger, and from then on the first token is never allowed by
    [check_fence] and neither refreshes nor releases the lease. *)
Theorem later_acquire_fences cs0 cs1 cs2 p1 p2 io1 io2 r o1 o2 now1 now2 l1 l2 repo1 repo2 :
  Forall call_ok (cs0 ++ cs1 ++ cs2) →
  valid_label o1 = true → valid_label o2 = true → now1 ≤ u64_max → now2 ≤ u64_max →
  acquire p1 io1 r o1 now1 (exec_all cs0 ∅) = (Ok l1, repo1) →
  acquire p2 io2 r o2 now2 (exec_all cs1 repo1) = (Ok l2, repo2) →
  epoch (token l1) < epoch (token l2) ∧
  ∀ p io now, now ≤ u64_max →
    (check_fence p io (token l1) now (exec_all cs2 repo2)).1 ≠ Ok Allowed ∧
    is_ok (heartbeat p io (token l1) now (exec_all cs2 repo2)).1 = false ∧
    is_ok (release io (token l1) (exec_all cs2 repo2)).1 = false.
Proof.
  rewrite !Forall_app. intros (H0 & H1 & H2) Ho1 Ho2 Hn1 Hn2 Ha1 Ha2.
  assert (K0 : repo_ok (exec_all cs0 ∅)) by (apply exec_all_repo_ok; [done|apply repo_ok_empty]).
  assert (K1 : repo_ok repo1)
    by (rewrite <- (acquire_exec _ _ _ _ _ _ _ _ Ha1); by apply exec_repo_ok).
  destruct (acquire_ok _ _ _ _ _ _ _ _ K0 Ho1 Hn1 Ha1) as (? & ? & _ & _ & Hr1 & _ & R1).
  destruct (acquire_ok _ _ _ _ _ _ _ _ (exec_all_repo_ok cs1 repo1 H1 K1) Ho2 Hn2 Ha2)
    as (lo2 & eo2 & R2 & He2 & Hr2 & _ & R2').
  destruct (exec_all_issued cs1 repo1 r (epoch (token l1)) H1) as (lo & eo & R & He).
  { exists (Some l1), (Some (epoch (token l1))). split; [done|simpl; lia]. }
  assert (Hlt : epoch (token l1) < epoch (token l2)).
  { assert (high eo = high eo2) as Hh; [|lia].
    destruct (read_epoch_spec quiet r _ _ _ R) as [E1|[? E1]], (read_epoch_spec quiet r _ _ _ R2)
      as [E2|[? E2]]; rewrite E1 in E2; simplify_eq; try done.
    exfalso. destruct R as [_ Hef _ Hb _]. destruct eo as [e0|].
    - by rewrite (read_rendered_epoch quiet _ e0 Hb eq_refl Hef) in E1.
    - unfold read_epoch in E1. simpl in Hef. by rewrite Hef in E1. }
  split; [done|]. apply fenced_token_useless with (e := epoch (token l2)); [|done].
  rewrite Hr1. apply exec_all_fenced; [done|]. exists (Some l2), (Some (epoch (token l2))).
  split; [done|]. split; [simpl; lia|]. by intros l [= <-].
Qed.

(** Exclusivity. After a successful [acquire], as long as every other call
    on the resource is an [acquire] by a different owner made before the lease
    expires under that caller's policy, or uses a different token, the lease
    stays exactly as granted and the holder's token stays allowed until expiry. *)
Theorem held_lease_is_exclusive cs0 cs p io r o now l repo :
  Forall call_ok cs0 → valid_label r = true → valid_label o = true → now ≤ u64_max →
  acquire p io r o now (exec_all cs0 ∅) = (Ok l, repo) →
  Forall (foreign l) cs →
  token l = {| resource := r; owner := o; epoch := epoch (token l) |} ∧
  (current quiet r (exec_all cs repo)).1 = Ok (Some l) ∧
  ∀ p' now', is_expired l now' p' = false →
    (check_fence p' quiet (token l) now' (exec_all cs repo)).1 = Ok Allowed.
Proof.
  intros Hcs0 Hv Ho Hnow Ha Hcs.
  assert (K0 : repo_ok (exec_all cs0 ∅)) by (apply exec_all_repo_ok; [done|apply repo_ok_empty]).
  destruct (acquire_ok _ _ _ _ _ _ _ _ K0 Ho Hnow Ha) as (? & ? & _ & _ & Hr & Hown & R).
  split; [destruct l as [[] ? ? ?]; simpl in *; by subst|]. subst r.
  apply holds_quiet; [|done]. apply foreign_holds; [done|]. by exists (Some (epoch (token l))).
Qed.

(** What [acquire] does when the filesystem answers, on every branch: it is
    refused while another owner's lease is unexpired, when the epoch counter
    is exhausted and when the expiry would overflow; otherwise the caller gets
    the next epoch above both records, and both files are replaced. *)
Theorem acquire_on_healthy_files p r o now repo lo eo :
  represents r (files_of repo r) lo eo → valid_label r = true → valid_label o = true →
  let held := match lo with
              | Some c => negb (is_expired c now p) && negb (bool_decide (owner (token c) = o))
              | None => false
              end in
  let l := {| token := {| resource := r; owner := o; epoch := high eo + 1 |};
              acquired_at_ms := now; heartbeat_at_ms := now; expires_at_ms := now + ttl_ms p |} in
  let same := <[r := files_of repo r]> repo in
  acquire p quiet r o now repo =
    if held then (Err (Initialization "shared resource lease is held by another owner"), same)
    else if u64_max <? high eo + 1 then
      (Err (Initialization "shared resource fencing epoch exhausted"), same)
    else if u64_max <? now + ttl_ms p then
      (Err (Initialization "lease expiration timestamp overflow"), same)
    else (Ok l, <[r := {| lease_file := Some (render_state l);
                          epoch_file := Some (render_epoch (high eo + 1)) |}]> repo).
Proof.
  intros Hrep Hvr Hvo held l same. unfold acquire, with_lock, resource_file, validate_label.
  rewrite Hvr. cbn [quiet io_root io_check io_lock io_unlock mbind result_bind].
  assert (Hrs : read_state quiet (files_of repo r) r = Ok lo).
  { pose proof Hrep as [Hl _ Hv _ _]. destruct lo as [c|].
    - destruct (Hv c eq_refl) as [? <-]. by apply read_rendered_state.
    - unfold read_state, read_optional_bounded. by rewrite Hl. }
  assert (Hre : read_epoch quiet (files_of repo r) = Ok eo).
  { pose proof Hrep as [_ He _ Hb _]. destruct eo as [e|].
    - by apply read_rendered_epoch.
    - unfold read_epoch, read_optional_bounded. by rewrite He. }
  unfold acquire_locked. autorewrite with op. rewrite Hrs. autorewrite with op. fold held.
  destruct held; [done|]. autorewrite with op. rewrite Hre. autorewrite with op.
  rewrite previous_epoch_high by apply Hrep. unfold lease_expiration, checked_add.
  rewrite (N.leb_antisym u64_max), (N.leb_antisym u64_max).
  destruct (u64_max <? high eo + 1); [done|]. cbn [ok_or negb]. autorewrite with op.
  by destruct (u64_max <? now + ttl_ms p).
Qed.

(** Durable round trip. A lease with valid labels and 64-bit fields, once
    written, is read back unchanged (within the size limit, as UTF-8, every
    field present once), and likewise the epoch file. *)
Theorem lease_files_roundtrip l e f :
  valid_lease l → e ≤ u64_max →
  let f1 := (write_state quiet l f).2 in
  let f2 := (write_epoch quiet e f1).2 in
  read_state quiet f2 (resource (token l)) = Ok (Some l) ∧
  read_epoch quiet f2 = Ok (Some e) ∧
  read_state quiet (remove_state quiet f2).2 (resource (token l)) = Ok None ∧
  read_epoch quiet (remove_state quiet f2).2 = Ok (Some e).
Proof.
  intros Hl He f1 f2.
  split_and!; [by apply read_rendered_state|by apply read_rendered_epoch|done|
    by apply read_rendered_epoch].
Qed.

(** ** Witnesses *)

Module Demo.
Definition pol : LeasePolicy := {| ttl_ms := 100; heartbeat_ms := 30; clock_skew_ms := 5 |}.
Definition first : result ProviderError SharedResourceLease * Repository :=
  acquire pol quiet "db" "core-a" 1000 ∅.
Definition lease (o : string) (e now : N) : SharedResourceLease :=
  {| token := {| resource := "db"; owner := o; epoch := e |};
     acquired_at_ms := now; heartbeat_at_ms := now; expires_at_ms := now + 100 |}.
Definition repo1 : Repository := (acquire pol quiet "db" "core-a" 1000 ∅).2.
Definition repo2 : Repository := (acquire pol quiet "db" "core-b" 1200 repo1).2.
End Demo.

Ltac u64_fits := vm_compute; discriminate.

Lemma later_acquire_fences_witness :
  acquire Demo.pol quiet "db" "core-a" 1000 ∅ = (Ok (Demo.lease "core-a" 1 1000), Demo.repo1) ∧
  acquire Demo.pol quiet "db" "core-b" 1200 Demo.repo1
    = (Ok (Demo.lease "core-b" 2 1200), Demo.repo2) ∧
  (check_fence Demo.pol quiet (token (Demo.lease "core-a" 1 1000)) 1201 Demo.repo2).1 ≠ Ok Allowed.
Proof.
  assert (A1 : acquire Demo.pol quiet "db" "core-a" 1000 ∅
    = (Ok (Demo.lease "core-a" 1 1000), Demo.repo1)) by (vm_compute; reflexivity).
  assert (A2 : acquire Demo.pol quiet "db" "core-b" 1200 Demo.repo1
    = (Ok (Demo.lease "core-b" 2 1200), Demo.repo2)) by (vm_compute; reflexivity).
  split; [exact A1|]. split; [exact A2|].
  apply (later_acquire_fences [] [] [] Demo.pol Demo.pol quiet quiet "db" "core-a" "core-b"
           1000 1200 (Demo.lease "core-a" 1 1000) (Demo.lease "core-b" 2 1200)
           Demo.repo1 Demo.repo2);
    [constructor|reflexivity|reflexivity|u64_fits|u64_fits|exact A1|exact A2|u64_fits].
Defined.

Lemma held_lease_is_exclusive_witness :
  let l := Demo.lease "core-a" 1 1000 in
  let cs := [CallAcquire Demo.pol quiet "db" "core-b" 1050;
             CallRelease quiet {| resource := "db"; owner := "core-b"; epoch := 1 |}] in
  (current quiet "db" (exec_all cs Demo.repo1)).1 = Ok (Some l).
Proof.
  intros l cs.
  apply (held_lease_is_exclusive [] cs Demo.pol quiet "db" "core-a" 1000 l Demo.repo1);
    [constructor|reflexivity|reflexivity|u64_fits|vm_compute; reflexivity|].
  constructor; [|constructor; [|constructor]]; intros _; [split; [discriminate|reflexivity]|].
  discriminate.
Defined.

Lemma acquire_on_healthy_files_witness :
  (acquire Demo.pol quiet "db" "core-b" 1050 ∅).1 = Ok (Demo.lease "core-b" 1 1050).
Proof.
  rewrite (acquire_on_healthy_files Demo.pol "db" "core-b" 1050 ∅ None None);
    [reflexivity|apply represents_none|reflexivity|reflexivity].
Defined.

Lemma lease_files_roundtrip_witness :
  read_state quiet (write_state quiet (Demo.lease "core-a" 7 1000) no_files).2 "db"
    = Ok (Some (Demo.lease "core-a" 7 1000)) ∧
  read_epoch quiet (write_epoch quiet 7
    (write_state quiet (Demo.lease "core-a" 7 1000) no_files).2).2 = Ok (Some 7).
Proof.
  assert (V : valid_lease (Demo.lease "core-a" 7 1000)) by (split; [reflexivity|reflexivity|u64_fits..]).
  pose proof (lease_files_roundtrip (Demo.lease "core-a" 7 1000) 7 no_files V ltac:(u64_fits))
    as (H1 & H2 & _). split; [exact H1|exact H2].
Defined.
