(* ===== verification/Redaction.v ===== *)
(** Redaction of credentials in operational text:
    [crates/appcore-core/src/redaction.rs].

    A [str] is its list of UTF-8 bytes; slices are [take] and [drop]. *)

From S2P Require Import Prelude.
From S2P Require Import Text.
From S2P Require Import Types.
From Stdlib Require Import ZifyBool.

Definition Bytes : Type := list ascii.
Definition bytes_of (s : string) : Bytes := String.list_ascii_of_string s.

Definition REDACTED : Bytes := bytes_of "[REDACTED]".
Definition TRUNCATED : Bytes := bytes_of "[TRUNCATED]".
Definition MAX_OPERATIONAL_TEXT_BYTES : nat := 8192.

Definition MARKERS : list Bytes := map bytes_of
  ["authorization:"; "bearer "; "token="; "secret="; "password="; "api_key="; "apikey="].

(** [char::is_whitespace] outside ASCII: the encodings of U+0085, U+00A0,
    U+1680, U+2000..U+200A, U+2028, U+2029, U+202F, U+205F and U+3000. *)
Definition wide_space (s : Bytes) : bool :=
  match s with
  | a :: b :: r =>
    if (code a =? 194)%N then (code b =? 133)%N || (code b =? 160)%N
    else match r with
         | c :: _ =>
           (code a =? 225)%N && (code b =? 154)%N && (code c =? 128)%N
           || (code a =? 226)%N && (code b =? 128)%N &&
              (in_range 128 138 c || (code c =? 168)%N || (code c =? 169)%N || (code c =? 175)%N)
           || (code a =? 226)%N && (code b =? 129)%N && (code c =? 159)%N
           || (code a =? 227)%N && (code b =? 128)%N && (code c =? 128)%N
         | [] => false
         end
  | _ => false
  end.

Definition narrow_delimiter (c : ascii) : bool :=
  in_range 9 13 c || bool_decide (c ∈ [" "%char; ","%char; ";"%char; "&"%char; "034"%char; "'"%char]).

(** The text begins with a character for which [is_secret_delimiter] holds. *)
Definition is_secret_delimiter (s : Bytes) : bool :=
  match s with
  | [] => false
  | c :: _ => narrow_delimiter c || wide_space s
  end.

(** [find(is_secret_delimiter)], the length of the text if there is none. *)
Fixpoint value_len (s : Bytes) : nat :=
  match s with
  | [] => 0
  | _ :: s' => if is_secret_delimiter s then 0 else S (value_len s')
  end.

Definition has_prefix (p s : Bytes) : bool := bool_decide (take (length p) s = p).

(** [find(marker)]. *)
Fixpoint find_marker (p s : Bytes) : option nat :=
  if has_prefix p s then Some 0
  else match s with
       | [] => None
       | _ :: s' => S <$> find_marker p s'
       end.

Definition lowercase (s : Bytes) : Bytes := map lower_byte s.

(** The loop of [redact_marker] from [cursor] on. *)
Fixpoint redact_from (fuel : nat) (marker input : Bytes) : Bytes :=
  match fuel with
  | 0 => input
  | S fuel' =>
    match find_marker marker (lowercase input) with
    | None => input
    | Some marker_start =>
      let value_start := marker_start + length marker in
      let value := drop value_start input in
      let value_end := value_len value in
      let rest := drop value_end value in
      take value_start input ++ (if 0 <? value_end then REDACTED else []) ++
        match rest with
        | [] => []
        | _ => redact_from fuel' marker rest
        end
    end
  end.

(** Every round consumes the marker, so the length of the text is enough. *)
Definition redact_marker (input marker : Bytes) : Bytes :=
  redact_from (S (length input)) marker input.

Definition is_char_boundary (value : Bytes) (index : nat) : bool :=
  match index with
  | 0 => true
  | _ => (index =? length value) ||
         match value !! index with Some b => negb (in_range 128 191 b) | None => false end
  end.

Fixpoint floor_boundary (value : Bytes) (index : nat) : nat :=
  match index with
  | 0 => 0
  | S index' => if is_char_boundary value index then index else floor_boundary value index'
  end.
Definition floor_char_boundary (value : Bytes) (index : nat) : nat :=
  floor_boundary value (index `min` length value).

Definition truncate_text (value : Bytes) (max_bytes : nat) (input_was_truncated : bool) : Bytes :=
  if negb input_was_truncated && (length value <=? max_bytes) then value
  else
    let content_limit := max_bytes - length TRUNCATED in
    take (floor_char_boundary value (content_limit `min` length value)) value ++ TRUNCATED.

Definition redact_bytes (input : Bytes) (max_bytes : nat) : Bytes :=
  let max_bytes := max_bytes `max` length TRUNCATED in
  let scan_limit := (max_bytes + 1024) `min` length input in
  let scan_end := floor_char_boundary input scan_limit in
  let output := foldl redact_marker (take scan_end input) MARKERS in
  truncate_text output max_bytes (scan_end <? length input).

Definition redact_text_with_limit (input : string) (max_bytes : nat) : string :=
  String.string_of_list_ascii (redact_bytes (bytes_of input) max_bytes).
Definition redact_text (input : string) : string :=
  redact_text_with_limit input MAX_OPERATIONAL_TEXT_BYTES.

Example redacts_common_credentials :
  redact_text "request token=abc123 bearer xyz789 password=hunter2 status=failed"
  = "request token=[REDACTED] bearer [REDACTED] password=[REDACTED] status=failed".
Proof. vm_compute. reflexivity. Qed.

(** ** Search *)

Lemma has_prefix_spec p s : has_prefix p s = true ↔ ∃ t, s = p ++ t.
Proof.
  unfold has_prefix. rewrite bool_decide_eq_true. split.
  - intros Ht. exists (drop (length p) s). by rewrite <- Ht at 1; rewrite take_drop.
  - intros [t ->]. by rewrite take_app_length.
Qed.

Lemma find_marker_Some p s n :
  find_marker p s = Some n →
  (∃ t, s = take n s ++ p ++ t) ∧ ∀ a t, s = a ++ p ++ t → n ≤ length a.
Proof.
  revert n. induction s as [|c s IH]; intros n; cbn [find_marker].
  - destruct (has_prefix p []) eqn:Hp; [|done]. intros [= <-]. apply has_prefix_spec in Hp as [t Ht].
    split; [by exists t|lia].
  - destruct (has_prefix p (c :: s)) eqn:Hp.
    { intros [= <-]. apply has_prefix_spec in Hp as [t Ht]. split; [by exists t|lia]. }
    destruct (find_marker p s) as [k|]; [|done]. intros [= <-].
    destruct (IH k eq_refl) as [[t Ht] Hmin]. split.
    + exists t. cbn [take app]. by f_equal.
    + intros [|x a] t' Heq; simpl in *.
      * assert (has_prefix p (c :: s) = true) as Hq by (apply has_prefix_spec; by exists t').
        by rewrite Hp in Hq.
      * injection Heq as -> Heq. apply Hmin in Heq. lia.
Qed.

Lemma find_marker_None p s : find_marker p s = None → ∀ a t, s ≠ a ++ p ++ t.
Proof.
  induction s as [|c s IH]; cbn [find_marker];
    destruct (has_prefix p _) eqn:Hp; try done.
  - intros _ [|] t Heq; [|done]. simpl in Heq.
    assert (has_prefix p [] = true) as Hq by (apply has_prefix_spec; by exists t). by rewrite Hp in Hq.
  - destruct (find_marker p s) as [k|]; [done|]. intros _ [|x a] t Heq; simpl in Heq.
    + assert (has_prefix p (c :: s) = true) as Hq by (apply has_prefix_spec; by exists t).
      by rewrite Hp in Hq.
    + injection Heq as _ Heq. by eapply IH.
Qed.

(** ** What the loop does, as a relation *)

(** A marker occurs in [s], in any case, and is followed by [post]. *)
Definition occurs (m s post : Bytes) : Prop :=
  ∃ pre w, s = pre ++ w ++ post ∧ lowercase w = m.

(** What may follow a marker: the end, a delimiter, or the replacement. *)
Definition guarded (post : Bytes) : Prop :=
  post = [] ∨ is_secret_delimiter post = true ∨ ∃ t, post = REDACTED ++ t.

Definition safe (m s : Bytes) : Prop := ∀ post, occurs m s post → guarded post.

Inductive Red (m : Bytes) : Bytes → Bytes → Prop :=
| Red_none s : (∀ post, ¬ occurs m s post) → Red m s s
| Red_some pre w v rest rest' :
    lowercase w = m →
    (∀ post, occurs m (pre ++ w) post → post = []) →
    (rest = [] ∨ is_secret_delimiter rest = true) →
    Red m rest rest' →
    Red m (pre ++ w ++ v ++ rest) (pre ++ w ++ (if 0 <? length v then REDACTED else []) ++ rest').

Lemma lowercase_app s t : lowercase (s ++ t) = lowercase s ++ lowercase t.
Proof. apply map_app. Qed.

(** A marker found in the lowered text occurs in the text. *)
Lemma lowercase_occurs m s a t :
  lowercase s = a ++ m ++ t →
  lowercase (take (length m) (drop (length a) s)) = m ∧
  s = take (length a) s ++ take (length m) (drop (length a) s) ++ drop (length a + length m) s.
Proof.
  intros Heq. split.
  - unfold lowercase. rewrite <- firstn_map, <- skipn_map. fold (lowercase s).
    by rewrite Heq, drop_app_length, take_app_length.
  - rewrite <- drop_drop. by rewrite !take_drop.
Qed.

Lemma occurs_lowercase m s post :
  occurs m s post → ∃ a t, lowercase s = a ++ m ++ t ∧ length t = length post.
Proof.
  intros (pre & w & -> & <-). exists (lowercase pre), (lowercase post).
  rewrite !lowercase_app. split; [done|apply length_map].
Qed.

Lemma value_len_spec s :
  value_len s ≤ length s ∧
  (drop (value_len s) s = [] ∨ is_secret_delimiter (drop (value_len s) s) = true).
Proof.
  induction s as [|c s [IH1 IH2]]; [by split; [done|left]|]. cbn [value_len].
  destruct (is_secret_delimiter (c :: s)) eqn:Hd.
  - split; [simpl; lia|]. right. by rewrite drop_0.
  - split; [simpl; lia|]. done.
Qed.

Lemma redact_from_Red fuel m s : m ≠ [] → length s < fuel → Red m s (redact_from fuel m s).
Proof.
  intros Hm. revert s. induction fuel as [|fuel IH]; intros s Hlen; [lia|]. cbn [redact_from].
  destruct (find_marker m (lowercase s)) as [k|] eqn:Hf.
  2: { apply Red_none. intros post (a & t & Heq & _)%occurs_lowercase.
       by eapply find_marker_None in Hf. }
  destruct (find_marker_Some _ _ _ Hf) as [[t Ht] Hmin].
  assert (Hk : k ≤ length (lowercase s)).
  { apply (f_equal length) in Ht. rewrite !length_app, length_take in Ht.
    destruct m; [done|]. simpl in Ht. lia. }
  destruct (lowercase_occurs m s (take k (lowercase s)) t Ht) as [Hw Hs].
  rewrite length_take_le in Hw, Hs by done.
  set (w := take (length m) (drop k s)) in *. set (pre := take k s) in *.
  set (value := drop (k + length m) s) in *.
  assert (Hpw : take (k + length m) s = pre ++ w).
  { subst pre w. by rewrite take_take_drop. }
  rewrite Hpw.
  destruct (value_len_spec value) as [Hv1 Hv2]. set (rest := drop (value_len value) value) in *.
  set (v := take (value_len value) value).
  assert (Hvl : value_len value = length v) by (subst v; by rewrite length_take_le).
  assert (Hval : value = v ++ rest) by (subst v rest; by rewrite take_drop).
  assert (Hmatch : (match rest with [] => [] | _ :: _ => redact_from fuel m rest end) =
                   redact_from fuel m rest).
  { destruct rest; [|done]. destruct fuel; [done|]. simpl. destruct m; [done|]. done. }
  rewrite Hmatch, Hvl, <- app_assoc.
  replace s with (pre ++ w ++ v ++ rest) at 1 by (by rewrite <- Hval; symmetry).
  apply Red_some; [done| |done|].
  - intros post Hocc. destruct Hocc as (a & w' & Heq & Hw').
    assert (k ≤ length a) as Hle.
    { rewrite <- (length_map lower_byte a). apply Hmin with (t := lowercase (post ++ value)).
      rewrite Hs, <- Hw', app_assoc, Heq, !lowercase_app, <- !app_assoc. done. }
    apply (f_equal length) in Heq. rewrite !length_app in Heq.
    assert (length pre ≤ k) by (subst pre; rewrite length_take; lia).
    assert (length w = length w').
    { rewrite <- (length_map lower_byte w), <- (length_map lower_byte w').
      fold (lowercase w) (lowercase w'). by rewrite Hw, Hw'. }
    destruct post; [done|]. simpl in Heq. lia.
  - apply IH. apply (f_equal length) in Hs. rewrite Hval, !length_app in Hs.
    assert (length w = length m) as Hwm by (rewrite <- Hw; symmetry; apply length_map).
    destruct m; [done|]. simpl in Hwm. lia.
Qed.

Lemma redact_marker_Red m s : m ≠ [] → Red m s (redact_marker s m).
Proof. intros. apply redact_from_Red; [done|lia]. Qed.

(** ** Markers *)

Definition terminator (c : ascii) : bool := bool_decide (c ∈ [":"%char; "="%char; " "%char]).
Definition body_byte (c : ascii) : bool := is_ascii_lowercase c || bool_decide (c = "_"%char).

(** Letters and underscores, then one terminating character. *)
Record marker_ok (m : Bytes) : Prop := {
  mk_body : Bytes;
  mk_end : ascii;
  mk_split : m = mk_body ++ [mk_end];
  mk_term : terminator mk_end = true;
  mk_letters : Forall (λ c, body_byte c = true) mk_body;
  mk_len : 2 ≤ length mk_body;
}.

Definition split_last (m : Bytes) : Bytes * ascii :=
  (take (length m - 1) m, default "000"%char (last m)).
Definition marker_okb (m : Bytes) : bool :=
  let '(b, t) := split_last m in
  bool_decide (m = b ++ [t]) && terminator t && forallb body_byte b && (2 <=? length b).

Lemma marker_okb_ok m : marker_okb m = true → marker_ok m.
Proof.
  unfold marker_okb. destruct (split_last m) as [b t].
  rewrite !andb_true_iff, bool_decide_eq_true, Nat.leb_le, forallb_forall.
  intros [[[H1 H2] H3] H4]. exists b t; try done. apply Forall_forall. intros c Hc.
  apply H3. by apply list_elem_of_In.
Qed.
Lemma MARKERS_ok m : m ∈ MARKERS → marker_ok m.
Proof.
  intros Hm. apply marker_okb_ok.
  assert (forallb marker_okb MARKERS = true) as Hall by (vm_compute; reflexivity).
  rewrite forallb_forall in Hall. apply Hall. by apply list_elem_of_In.
Qed.

(** Facts about single bytes, by cases on the 256 of them. *)
Ltac each_byte c :=
  destruct c as [[] [] [] [] [] [] [] []]; vm_compute; (done || tauto || intuition discriminate).

Lemma terminator_lower c : terminator (lower_byte c) = true → lower_byte c = c.
Proof. each_byte c. Qed.
Lemma terminator_not_body c : terminator c = true → body_byte (lower_byte c) = false.
Proof. each_byte c. Qed.
Lemma terminator_not_bracketed c : terminator c = true → c ∉ REDACTED ∧ c ∉ TRUNCATED.
Proof.
  intros Hc.
  assert (existsb (Ascii.eqb c) (REDACTED ++ TRUNCATED) = false) as Hno
    by (revert Hc; each_byte c).
  rewrite <- not_elem_of_app. intros Hin. apply not_true_iff_false in Hno. apply Hno, existsb_exists.
  exists c. split; [by apply list_elem_of_In|apply Ascii.eqb_refl].
Qed.
Lemma bracket_not_body : body_byte (lower_byte "]") = false ∧ body_byte (lower_byte "[") = false.
Proof. done. Qed.
Lemma marker_byte_ascii c :
  terminator (lower_byte c) = true ∨ body_byte (lower_byte c) = true → (code c < 128)%N.
Proof. each_byte c. Qed.

(** The text [w] that matches a marker. *)
Lemma match_shape m w :
  marker_ok m → lowercase w = m →
  ∃ b t, w = b ++ [t] ∧ terminator t = true ∧ Forall (λ c, body_byte (lower_byte c) = true) b ∧
    2 ≤ length b.
Proof.
  intros [mb mt -> Ht Hb Hl] Hw. unfold lowercase in Hw.
  apply map_eq_app in Hw as (b & t0 & -> & <- & Ht0).
  destruct t0 as [|t [|]]; simplify_eq/=. exists b, t. split; [done|].
  pose proof (terminator_lower t Ht) as He. rewrite He in Ht. split_and!; [done| |by rewrite length_map in Hl].
  rewrite Forall_map in Hb. done.
Qed.

Lemma is_delimiter_take3 x y z :
  3 ≤ length x → is_secret_delimiter (x ++ y) = is_secret_delimiter (x ++ z).
Proof. intros Hx. destruct x as [|a [|b [|c x]]]; simpl in Hx; try lia. done. Qed.

Lemma is_delimiter_ascii c x : (code c < 128)%N → is_secret_delimiter (c :: x) = narrow_delimiter c.
Proof.
  intros Hc. unfold is_secret_delimiter.
  assert (wide_space (c :: x) = false) as ->; [|by rewrite orb_false_r].
  assert (∀ n, (128 ≤ n)%N → (code c =? n)%N = false) as Hne by (intros; apply N.eqb_neq; lia).
  destruct x as [|b [|d x]]; simpl; [done|..]; by rewrite !Hne by done.
Qed.

(** [A2] is the tail of a text that ends with a matched marker: what is
    guarded after it does not depend on what comes later. *)
Lemma guarded_tail pre w A2 x y :
  (∃ A1, pre ++ w = A1 ++ A2) → A2 ≠ [] →
  (∃ b t, w = b ++ [t] ∧ terminator t = true ∧ Forall (λ c, body_byte (lower_byte c) = true) b ∧
    2 ≤ length b) →
  guarded (A2 ++ x) → guarded (A2 ++ y).
Proof.
  intros [A1 HA] HA2 (b & t & -> & Ht & Hb & Hl) [Hnil|[Hd|[r Hr]]].
  - by destruct A2.
  - right; left. destruct (decide (3 ≤ length A2)) as [H3|H3].
    { by rewrite (is_delimiter_take3 A2 y x). }
    destruct (app_eq_inv _ _ _ _ HA) as [(k & -> & Hw)|(k & -> & Hk)].
    + exfalso. apply (f_equal length) in Hw. rewrite !length_app in Hw. simpl in Hw. lia.
    + destruct A2 as [|c A2]; [done|]. simpl in Hd |- *.
      assert ((code c < 128)%N) as Hc.
      { apply marker_byte_ascii. assert (c ∈ b ++ [t]) as Hin.
        { rewrite Hk. apply elem_of_app. right. by left. }
        apply elem_of_app in Hin as [Hin|Hin].
        - right. rewrite Forall_forall in Hb. by apply Hb.
        - left. apply list_elem_of_singleton in Hin as ->. clear -Ht. revert Ht. each_byte t. }
      pose proof (is_delimiter_ascii c (A2 ++ x) Hc) as H1.
      pose proof (is_delimiter_ascii c (A2 ++ y) Hc) as H2. simpl in H1, H2. congruence.
  - destruct (app_eq_inv _ _ _ _ Hr) as [(k & -> & _)|(k & HR & _)].
    + right; right. exists (k ++ y). by rewrite <- app_assoc.
    + exfalso. assert (last A2 = Some t) as Hlast.
      { assert (last (pre ++ b ++ [t]) = Some t) as H by (by rewrite app_assoc, last_snoc).
        rewrite HA, last_app in H. destruct (last A2) eqn:E; [done|]. by apply last_None in E. }
      apply last_Some in Hlast as [A2' ->]. eapply (proj1 (terminator_not_bracketed t Ht)).
      rewrite HR. apply elem_of_app; left. apply elem_of_app; right. by left.
Qed.

(** The text a pass keeps starts as its input does. *)
Lemma Red_start m s s' :
  marker_ok m → Red m s s' → (s = [] ∨ is_secret_delimiter s = true) →
  s' = [] ∨ is_secret_delimiter s' = true.
Proof.
  intros Hm HR. destruct HR as [s Hno|pre w v rest rest' Hw _ _ _]; [done|].
  destruct (match_shape m w Hm Hw) as (b & t & -> & _ & _ & Hl).
  intros [Hs|Hs]; [by destruct pre, b|]. right.
  assert (3 ≤ length (pre ++ b ++ [t])) as H3 by (rewrite !length_app; simpl; lia).
  rewrite (app_assoc pre) in Hs |- *. by rewrite (is_delimiter_take3 _ _ (v ++ rest)).
Qed.

Lemma occurs_prepend m a s post : occurs m s post → occurs m (a ++ s) post.
Proof. intros (pre & w & -> & ?). exists (a ++ pre), w. by rewrite <- app_assoc. Qed.

(** An occurrence that ends in the replacement or later lies after it. *)
Lemma occurs_after_replacement (v rest B wb post : Bytes) t :
  Forall (λ c, body_byte (lower_byte c) = true) wb → 2 ≤ length wb → terminator t = true →
  (if 0 <? length v then REDACTED else []) ++ rest = B ++ wb ++ [t] ++ post →
  ∃ B', rest = B' ++ wb ++ [t] ++ post.
Proof.
  intros Hb Hl Ht. destruct v as [|c v]; simpl; [by eauto|]. intros Heq.
  assert (Hbracket : ∀ x y, REDACTED = x ++ y → y ≠ [] →
            ¬ Forall (λ c, body_byte (lower_byte c) = true) y).
  { intros x y HR Hy. destruct y as [|z y _] using rev_ind; [done|]. rewrite app_assoc in HR.
    assert (z = "]"%char) as -> by (apply (f_equal last) in HR; rewrite last_snoc in HR; by injection HR).
    by rewrite Forall_app, Forall_singleton; intros [_ ?]. }
  destruct (app_eq_inv REDACTED rest B (wb ++ [t] ++ post)) as [(k & HR & Hk)|(k & -> & Hk)];
    [exact Heq| |by exists k].
  destruct (app_eq_inv wb ([t] ++ post) k rest) as [(j & -> & Hj)|(j & -> & Hj)]; [done| |].
  - (* the body starts inside the replacement *)
    destruct k as [|x k]; [by exists []|]. exfalso.
    apply Forall_app in Hb as [Hb _]. by eapply Hbracket.
  - (* the body ends inside the replacement *)
    destruct j as [|x j]; simpl in Hj.
    + exfalso. rewrite app_nil_r in HR. eapply Hbracket; [exact HR|intros ->; simpl in Hl; lia|done].
    + exfalso. injection Hj as -> _. apply (proj1 (terminator_not_bracketed x Ht)). rewrite HR.
      apply elem_of_app; right. apply elem_of_app; right. by left.
Qed.

(** One pass leaves nothing unredacted after its own marker, and keeps what
    earlier passes achieved for theirs. *)
Lemma Red_safe m n s s' :
  marker_ok m → marker_ok n → Red m s s' → m = n ∨ safe n s → safe n s'.
Proof.
  intros Hm Hn HR. induction HR as [s Hno|pre w v rest rest' Hw Hfirst Hrest HR IH]; intros Hpre.
  { destruct Hpre as [<-|?]; [|done]. intros post Hocc. by apply Hno in Hocc. }
  pose proof (match_shape m w Hm Hw) as Hshape.
  intros post (pn & wn & Heq & Hwn).
  destruct (match_shape n wn Hn Hwn) as (wb & t & -> & Ht & Hb & Hlb).
  set (R := if 0 <? length v then REDACTED else []) in *.
  destruct (app_eq_inv (pre ++ w) (R ++ rest') (pn ++ wb) ([t] ++ post))
    as [(k & HA & Hk)|(B & HA & HB)].
  { etrans; [|etrans; [exact Heq|]]; by rewrite <- !app_assoc. }
  - destruct k as [|c A2]; [rewrite app_nil_r in HA; rewrite app_nil_l in Hk|].
    + (* the terminator opens the rest *)
      destruct Hshape as (b & t' & -> & Ht' & _ & _). exfalso.
      rewrite app_assoc in HA. destruct wb as [|x wb _] using rev_ind.
      { unfold lowercase in Hwn. destruct Hn as [mb mt -> _ _ Hl]. simpl in Hwn.
        destruct mb as [|? [|]]; simpl in *; try lia; done. }
      rewrite app_assoc in HA. apply app_inj_tail in HA as [_ ->].
      rewrite Forall_app, Forall_singleton in Hb. destruct Hb as [_ Hb].
      by rewrite (terminator_not_body x Ht') in Hb.
    + simpl in Hk. injection Hk as -> ->.
      assert (Hocc : occurs n (pre ++ w) A2).
      { exists pn, (wb ++ [c]). split; [|done]. rewrite HA. by rewrite <- !app_assoc. }
      destruct (decide (A2 = [])) as [->|HA2].
      * simpl. subst R. destruct v as [|x v]; simpl; [|right; right; by eexists].
        destruct (Red_start m rest rest' Hm HR Hrest) as [->|?]; [by left|by right; left].
      * destruct Hpre as [<-|Hsafe]; [by apply Hfirst in Hocc|].
        apply (guarded_tail pre w A2 (v ++ rest)); [|done|done|].
        { exists (pn ++ wb ++ [c]). rewrite HA. by rewrite <- !app_assoc. }
        apply Hsafe. destruct Hocc as (a & w' & Ha & Hw'). exists a, w'. split; [|done].
        rewrite (app_assoc pre), Ha. by rewrite <- !app_assoc.
  - assert (Hin : ∃ B', B = B' ++ wb).
    { destruct (app_eq_inv pn wb (pre ++ w) B) as [(j & _ & ->)|(j & HA' & ->)];
        [done|by exists j|].
      destruct Hshape as (b & t' & -> & Ht' & _ & _).
      destruct j as [|x j _] using rev_ind; [by exists []|].
      exfalso. rewrite ?app_assoc in HA'. apply app_inj_tail in HA' as [_ ->].
      rewrite !Forall_app, Forall_singleton in Hb. destruct Hb as [[_ Hb] _].
      by rewrite (terminator_not_body x Ht') in Hb. }
    destruct Hin as [B' ->]. rewrite <- app_assoc in HB.
    apply occurs_after_replacement in HB as [B'' ->]; [|done..].
    apply IH.
    + destruct Hpre as [?|Hsafe]; [by left|right]. intros post' Hocc. apply Hsafe.
      by do 3 apply occurs_prepend.
    + exists B'', (wb ++ [t]). by rewrite <- !app_assoc.
Qed.

(** The passes one after the other. *)
Lemma passes_safe ms n s :
  Forall marker_ok ms → marker_ok n → n ∈ ms ∨ safe n s → safe n (foldl redact_marker s ms).
Proof.
  intros Hms Hn. revert s. induction Hms as [|m ms Hm Hms IH]; intros s Hs; simpl.
  { destruct Hs as [Hs|?]; [by apply not_elem_of_nil in Hs|done]. }
  apply IH. destruct Hs as [[->|?]%elem_of_cons|Hs]; [right|by left|right].
  all: eapply (Red_safe m); [done..|apply redact_marker_Red; by destruct Hm as [[] ? -> _ _ ?]|auto].
Qed.

(** ** Truncation *)

Lemma floor_boundary_spec value i :
  floor_boundary value i ≤ i ∧ is_char_boundary value (floor_boundary value i) = true.
Proof.
  induction i as [|i [IH1 IH2]]; [done|]. cbn [floor_boundary].
  destruct (is_char_boundary value (S i)) eqn:Hb; [done|]. split; [lia|done].
Qed.

Lemma floor_char_boundary_spec value i :
  floor_char_boundary value i ≤ i `min` length value ∧
  is_char_boundary value (floor_char_boundary value i) = true.
Proof. apply floor_boundary_spec. Qed.

Lemma floor_char_boundary_length value : floor_char_boundary value (length value) = length value.
Proof.
  unfold floor_char_boundary. rewrite Nat.min_id. destruct (length value) as [|n] eqn:Hn; [done|].
  cbn [floor_boundary]. unfold is_char_boundary. by rewrite Hn, Nat.eqb_refl.
Qed.

(** The bytes of a delimiter after its first are continuation bytes. *)
Lemma wide_space_shape a s :
  wide_space (a :: s) = true →
  ∃ b r, s = b :: r ∧ in_range 128 191 b = true ∧
    ((∀ r', wide_space (a :: b :: r') = true) ∨
     ∃ c r2, r = c :: r2 ∧ in_range 128 191 c = true ∧ ∀ r', wide_space (a :: b :: c :: r') = true).
Proof.
  unfold wide_space, in_range. destruct s as [|b r]; [done|].
  destruct (code a =? 194)%N eqn:Ha.
  - intros Hb. exists b, r. split; [done|]. split; [lia|]. by left.
  - destruct r as [|c r]; [done|]. intros Hb. exists b, (c :: r). split; [done|]. split; [lia|].
    right. exists c, r. split; [done|]. split; [lia|done].
Qed.

(** A cut on a character boundary does not split a delimiter. *)
Lemma delimiter_not_split x d y :
  (∀ c d', d = c :: d' → in_range 128 191 c = false) → x ≠ [] →
  is_secret_delimiter (x ++ d) = true → is_secret_delimiter (x ++ y) = true.
Proof.
  intros Hcont Hx. destruct x as [|a x]; [done|]. simpl.
  destruct (narrow_delimiter a); [done|]. simpl. intros Hw.
  destruct (wide_space_shape _ _ Hw) as (b & r & Hs & Hb & Hrest).
  destruct x as [|b' x]; simpl in Hs; [by rewrite (Hcont b r Hs) in Hb|]. injection Hs as -> Hs.
  destruct Hrest as [Hall|(c & r2 & -> & Hc & Hall)]; [apply Hall|].
  destruct x as [|c' x]; simpl in Hs; [by rewrite (Hcont c r2 Hs) in Hc|]. injection Hs as -> _.
  apply Hall.
Qed.

Lemma cut_not_continuation value e :
  is_char_boundary value e = true → e ≠ 0 →
  ∀ c d, drop e value = c :: d → in_range 128 191 c = false.
Proof.
  intros Hb He c d Hd.
  assert (value !! e = Some c) as Hv
    by (pose proof (lookup_drop value e 0) as Hl; by rewrite Nat.add_0_r, Hd in Hl).
  unfold is_char_boundary in Hb. destruct e as [|e]; [done|]. rewrite Hv in Hb.
  apply lookup_lt_Some in Hv. rewrite orb_true_iff, Nat.eqb_eq in Hb.
  destruct Hb as [Hb|Hb]; [lia|]. by apply negb_true_iff in Hb.
Qed.

(** What may follow a marker in the result: as after the passes, or a cut. *)
Definition guarded_or_cut (post : Bytes) : Prop :=
  guarded post ∨ ∃ j, post = take j REDACTED ++ TRUNCATED.

Lemma truncate_safe n value max_bytes cut :
  marker_ok n → safe n value →
  ∀ post, occurs n (truncate_text value max_bytes cut) post → guarded_or_cut post.
Proof.
  intros Hn Hsafe post. unfold truncate_text. case_match; [by left; apply Hsafe|].
  destruct (floor_char_boundary_spec value ((max_bytes - length TRUNCATED) `min` length value))
    as [_ Hb].
  set (e := floor_char_boundary _ _) in *. intros (pn & w & Heq & Hw).
  destruct (match_shape n w Hn Hw) as (b & t & -> & Ht & _ & _).
  rewrite app_assoc in Heq.
  destruct (app_eq_inv _ _ _ _ Heq) as [(k & Hk & ->)|(k & Hk & HT)].
  - assert (guarded (k ++ drop e value)) as [Hnil|[Hd|[r Hr]]].
    { apply Hsafe. exists pn, (b ++ [t]). split; [|done].
      rewrite <- (take_drop e value) at 1. rewrite Hk. by rewrite <- !app_assoc. }
    + right. exists 0. by destruct k.
    + destruct (decide (k = [])) as [->|Hne]; [right; by exists 0|]. left; right; left.
      apply (delimiter_not_split k (drop e value)); [|done|done].
      apply cut_not_continuation; [done|]. intros He. rewrite He, take_0 in Hk.
      by destruct pn, b, k.
    + destruct (app_eq_inv _ _ _ _ Hr) as [(j & -> & _)|(j & HR & _)].
      * left; right; right. exists (j ++ TRUNCATED). by rewrite <- app_assoc.
      * right. exists (length k). rewrite HR, take_app_length. done.
  - destruct k as [|x k _] using rev_ind; [right; by exists 0|]. exfalso.
    rewrite !app_assoc in Hk. apply app_inj_tail in Hk as [_ ->].
    apply (proj2 (terminator_not_bracketed x Ht)). rewrite HT.
    apply elem_of_app; left. apply elem_of_app; right. by left.
Qed.

(** ** Properties *)


(** Bounds. The result is never longer than the limit (raised to the size
    of the truncation mark), and a text within the limit that has no
    credential marker is returned unchanged. *)
Theorem redaction_bounds input max_bytes :
  length (redact_bytes input max_bytes) ≤ max_bytes `max` length TRUNCATED ∧
  (length input ≤ max_bytes → (∀ m post, m ∈ MARKERS → ¬ occurs m input post) →
   redact_bytes input max_bytes = input).
Proof.
  unfold redact_bytes. set (limit := max_bytes `max` length TRUNCATED). split.
  - unfold truncate_text. case_match eqn:Hc.
    + apply andb_true_iff in Hc as [_ Hc]. by apply Nat.leb_le.
    + rewrite length_app, length_take.
      set (v := foldl _ _ _). pose proof (floor_char_boundary_spec v
        ((limit - length TRUNCATED) `min` length v)) as [He _]. lia.
  - intros Hlen Hno. rewrite (Nat.min_r (limit + 1024)) by lia.
    rewrite floor_char_boundary_length, take_ge by done.
    assert (foldl redact_marker input MARKERS = input) as ->.
    { revert Hno. assert (Forall marker_ok MARKERS) as Hok by (apply Forall_forall; apply MARKERS_ok).
      induction Hok as [|m ms Hm _ IH]; intros Hno; [done|]. simpl.
      assert (redact_marker input m = input) as ->.
      { destruct (redact_marker_Red m input) as [|pre w v rest rest' Hw _ _ _];
          [by destruct Hm as [[] ? -> _ _ ?]|done|].
        exfalso. apply (Hno m (v ++ rest)); [by left|]. by exists pre, w. }
      apply IH. intros m' post Hm'. apply Hno. by right. }
    unfold truncate_text. rewrite Nat.ltb_irrefl, (proj2 (Nat.leb_le _ _)); [done|lia].
Qed.
Lemma redaction_bounds_witness :
  redact_bytes (bytes_of "status=failed") 20 = bytes_of "status=failed".
Proof.
  apply (redaction_bounds (bytes_of "status=failed") 20); [vm_compute; lia|].
  intros m post Hm (a & t & Heq & _)%occurs_lowercase. revert a t Heq.
  apply find_marker_None.
  assert (Forall (λ m, find_marker m (lowercase (bytes_of "status=failed")) = None) MARKERS) as Hall
    by (repeat constructor).
  rewrite Forall_forall in Hall. by apply Hall.
Defined.
