(* ===== verification/Records.v ===== *)
(** The records of the runtime core: command and event envelopes
    ([crates/appcore-core/src/envelope.rs]), command results ([handler.rs]),
    audit records and entries ([audit.rs]) and name registries
    ([registry.rs]). *)

From S2P Require Import Prelude.
From S2P Require Import Types.
From S2P Require Import Redaction.

Local Open Scope N_scope.

(** ** Envelopes *)

Record CommandEnvelope := {
  command_name : string;
  cmd_id : string;
  cmd_app_id : string;
  cmd_node_id : string;
  issued_at_ms : N;
  idempotency_key : option string;
  cmd_payload : list byte;
  cmd_trace : option TraceContext;
}.

(** The identifier types validate their text as their constructors do. *)
Definition command_envelope_new (name id app node : string) (issued : N) (key : option string)
    (payload : list byte) : RuntimeResult CommandEnvelope :=
  _ ← validate_identifier "CommandId" id;
  _ ← match key with Some k => validate_identifier "IdempotencyKey" k | None => Ok () end;
  _ ← validate_identifier "CommandName" name;
  _ ← validate_identifier "AppId" app;
  _ ← validate_identifier "NodeId" node;
  Ok {| command_name := name; cmd_id := id; cmd_app_id := app; cmd_node_id := node;
        issued_at_ms := issued; idempotency_key := key; cmd_payload := payload;
        cmd_trace := None |}.

Record EventEnvelope := {
  event_name : string;
  event_id : string;
  event_app_id : string;
  event_node_id : string;
  occurred_at_ms : N;
  event_payload : list byte;
  event_trace : option TraceContext;
}.
#[export] Instance EventEnvelope_eq_dec : EqDecision EventEnvelope.
Proof. solve_decision. Defined.

Definition event_envelope_new (name id app node : string) (occurred : N) (payload : list byte) :
    RuntimeResult EventEnvelope :=
  _ ← validate_identifier "EventId" id;
  _ ← validate_identifier "EventName" name;
  _ ← validate_identifier "AppId" app;
  _ ← validate_identifier "NodeId" node;
  Ok {| event_name := name; event_id := id; event_app_id := app; event_node_id := node;
        occurred_at_ms := occurred; event_payload := payload; event_trace := None |}.

Definition event_with_trace (e : EventEnvelope) (t : TraceContext) : EventEnvelope :=
  {| event_name := event_name e; event_id := event_id e; event_app_id := event_app_id e;
     event_node_id := event_node_id e; occurred_at_ms := occurred_at_ms e;
     event_payload := event_payload e; event_trace := Some t |}.

(** ** Command results *)

Record CommandResult := {
  accepted : bool;
  result_events : list EventEnvelope;
  result_message : option string;
}.
#[export] Instance CommandResult_eq_dec : EqDecision CommandResult.
Proof. solve_decision. Defined.

Definition result_accepted (events : list EventEnvelope) : CommandResult :=
  {| accepted := true; result_events := events; result_message := None |}.
Definition result_rejected (message : string) : CommandResult :=
  {| accepted := false; result_events := []; result_message := Some message |}.

(** ** Audit *)

Inductive AuditOutcome := Accepted | Rejected | AuditError.
#[export] Instance AuditOutcome_eq_dec : EqDecision AuditOutcome.
Proof. solve_decision. Defined.

Record AuditRecord := {
  audit_command_id : string;
  audit_command_name : string;
  audit_app_id : string;
  audit_node_id : string;
  audit_timestamp_ms : N;
  audit_outcome : AuditOutcome;
  audit_message : option string;
  audit_trace : option TraceContext;
}.

Inductive AuditCategory :=
| CategoryCommand | CategoryQuery | CategoryEvent | CategoryScheduler | CategoryControlPlane
| CategoryPeerRpc | CategoryRuntime.
#[export] Instance AuditCategory_eq_dec : EqDecision AuditCategory.
Proof. solve_decision. Defined.

Record AuditEntry := {
  category : AuditCategory;
  operation_id : string;
  operation_name : string;
  entry_app_id : option string;
  entry_node_id : option string;
  started_at_ms : N;
  completed_at_ms : N;
  latency_ms : N;
  entry_outcome : AuditOutcome;
  entry_message : option string;
  entry_trace : option TraceContext;
}.
#[export] Instance AuditEntry_eq_dec : EqDecision AuditEntry.
Proof. solve_decision. Defined.

Definition audit_entry_new (c : AuditCategory) (id name : string) (started completed : N)
    (outcome : AuditOutcome) : AuditEntry :=
  {| category := c; operation_id := id; operation_name := name; entry_app_id := None;
     entry_node_id := None; started_at_ms := started; completed_at_ms := completed;
     latency_ms := completed - started; entry_outcome := outcome; entry_message := None;
     entry_trace := None |}.

(** [with_runtime_scope], [with_message] and [with_trace]. *)
Definition entry_with_scope (e : AuditEntry) (app node : string) : AuditEntry :=
  {| category := category e; operation_id := operation_id e; operation_name := operation_name e;
     entry_app_id := Some app; entry_node_id := Some node; started_at_ms := started_at_ms e;
     completed_at_ms := completed_at_ms e; latency_ms := latency_ms e;
     entry_outcome := entry_outcome e; entry_message := entry_message e;
     entry_trace := entry_trace e |}.
Definition entry_with_message (e : AuditEntry) (m : option string) : AuditEntry :=
  {| category := category e; operation_id := operation_id e; operation_name := operation_name e;
     entry_app_id := entry_app_id e; entry_node_id := entry_node_id e;
     started_at_ms := started_at_ms e; completed_at_ms := completed_at_ms e;
     latency_ms := latency_ms e; entry_outcome := entry_outcome e;
     entry_message := redact_text <$> m; entry_trace := entry_trace e |}.
Definition entry_with_trace (e : AuditEntry) (t : option TraceContext) : AuditEntry :=
  {| category := category e; operation_id := operation_id e; operation_name := operation_name e;
     entry_app_id := entry_app_id e; entry_node_id := entry_node_id e;
     started_at_ms := started_at_ms e; completed_at_ms := completed_at_ms e;
     latency_ms := latency_ms e; entry_outcome := entry_outcome e;
     entry_message := entry_message e; entry_trace := t |}.

(** ** [NameRegistry] *)

Definition registry_register {T} `{EqDecision T} (kind : string) (item : T) :
    op (list T) RuntimeError () :=
  items ← op_get;
  if bool_decide (item ∈ items) then op_fail (DuplicateRegistryItem kind)
  else op_modify (λ l, l ++ [item]).

(** ** Countability *)

#[export] Instance byte_countable : Countable byte.
Proof. apply (inj_countable' Byte.to_N byte_of_N). apply byte_of_N_to_N. Defined.
#[export] Instance TraceContext_countable : Countable TraceContext.
Proof.
  apply (inj_countable'
    (λ t, (trace_id t, span_id t, parent_span_id t, originating_core_id t, current_core_id t,
           trace_tenant_id t, command_id t))
    (λ '(a, b, c, d, e, f, g), Build_TraceContext a b c d e f g)). by intros [].
Defined.
#[export] Instance EventEnvelope_countable : Countable EventEnvelope.
Proof.
  apply (inj_countable'
    (λ e, (event_name e, event_id e, event_app_id e, event_node_id e, occurred_at_ms e,
           event_payload e, event_trace e))
    (λ '(a, b, c, d, e, f, g), Build_EventEnvelope a b c d e f g)). by intros [].
Defined.
#[export] Instance CommandResult_countable : Countable CommandResult.
Proof.
  apply (inj_countable' (λ r, (accepted r, result_events r, result_message r))
    (λ '(a, b, c), Build_CommandResult a b c)). by intros [].
Defined.
#[export] Instance AuditOutcome_countable : Countable AuditOutcome.
Proof.
  apply (inj_countable' (λ o, match o with Accepted => 0 | Rejected => 1 | AuditError => 2 end)
    (λ n, if n =? 0 then Accepted else if n =? 1 then Rejected else AuditError)). by intros [].
Defined.
#[export] Instance AuditCategory_countable : Countable AuditCategory.
Proof.
  apply (inj_countable'
    (λ c, match c with CategoryCommand => 0 | CategoryQuery => 1 | CategoryEvent => 2
          | CategoryScheduler => 3 | CategoryControlPlane => 4 | CategoryPeerRpc => 5
          | CategoryRuntime => 6 end)
    (λ n, match n with 0 => CategoryCommand | 1 => CategoryQuery | 2 => CategoryEvent
          | 3 => CategoryScheduler | 4 => CategoryControlPlane | 5 => CategoryPeerRpc
          | _ => CategoryRuntime end)). by intros [].
Defined.
#[export] Instance AuditEntry_countable : Countable AuditEntry.
Proof.
  apply (inj_countable'
    (λ e, (category e, operation_id e, operation_name e, entry_app_id e, entry_node_id e,
           (started_at_ms e, completed_at_ms e, latency_ms e, entry_outcome e, entry_message e,
            entry_trace e)))
    (λ '(a, b, c, d, e, (f, g, h, i, j, k)), Build_AuditEntry a b c d e f g h i j k)).
  by intros [].
Defined.
