(* ===== verification/Lifecycle.v ===== *)
(** State machines over names ([crates/appcore-core/src/state.rs]) and the
    process lifecycle built on one of them ([lifecycle.rs]). *)

From S2P Require Import Prelude.
From S2P Require Import Types.

(** ** [StateMachine] *)

Record StateTransition := { from : string; event : string; to : string }.
#[export] Instance StateTransition_eq_dec : EqDecision StateTransition.
Proof. solve_decision. Defined.

Record StateMachine := { current_name : string; transitions : list StateTransition }.

Definition machine_new (initial : string) : StateMachine :=
  {| current_name := initial; transitions := [] |}.

Definition add_transition (t : StateTransition) : op StateMachine RuntimeError () :=
  m ← op_get;
  if existsb (λ x, bool_decide (from x = from t) && bool_decide (event x = event t)) (transitions m)
  then op_fail DuplicateStateTransition
  else op_modify (λ m, {| current_name := current_name m; transitions := transitions m ++ [t] |}).

(** The transition that applies to an event in the current state. *)
Definition applies (m : StateMachine) (e : string) (t : StateTransition) : bool :=
  bool_decide (from t = current_name m) && bool_decide (event t = e).
Definition can_apply (m : StateMachine) (e : string) : bool := existsb (applies m e) (transitions m).

Definition machine_apply (e : string) : op StateMachine RuntimeError string :=
  m ← op_get;
  match List.find (applies m e) (transitions m) with
  | None => op_fail InvalidStateTransition
  | Some t =>
    _ ← op_modify (λ m, {| current_name := to t; transitions := transitions m |});
    mret (to t)
  end.

(** ** [RuntimeLifecycle] *)

Inductive RuntimeLifecycleState :=
| Booting | LoadingConfig | CheckingSecurity | OpeningStorage | StartingApi
| Running | Degraded | Restricted | ShuttingDown | Stopped.
#[export] Instance RuntimeLifecycleState_eq_dec : EqDecision RuntimeLifecycleState.
Proof. solve_decision. Defined.

Inductive RuntimeLifecycleEvent :=
| ConfigLoaded | SecurityChecked | StorageOpened | ApiStarted | DegradedDetected
| RestrictedDetected | ShutdownRequested | ShutdownCompleted | RecoveryCompleted.
#[export] Instance RuntimeLifecycleEvent_eq_dec : EqDecision RuntimeLifecycleEvent.
Proof. solve_decision. Defined.

(** The names are constants that [StateName::new] accepts. *)
Definition as_state_name (s : RuntimeLifecycleState) : string :=
  match s with
  | Booting => "Booting"
  | LoadingConfig => "LoadingConfig"
  | CheckingSecurity => "CheckingSecurity"
  | OpeningStorage => "OpeningStorage"
  | StartingApi => "StartingApi"
  | Running => "Running"
  | Degraded => "Degraded"
  | Restricted => "Restricted"
  | ShuttingDown => "ShuttingDown"
  | Stopped => "Stopped"
  end.

Definition from_state_name (s : string) : RuntimeResult RuntimeLifecycleState :=
  if bool_decide (s = "Booting"%string) then Ok Booting
  else if bool_decide (s = "LoadingConfig"%string) then Ok LoadingConfig
  else if bool_decide (s = "CheckingSecurity"%string) then Ok CheckingSecurity
  else if bool_decide (s = "OpeningStorage"%string) then Ok OpeningStorage
  else if bool_decide (s = "StartingApi"%string) then Ok StartingApi
  else if bool_decide (s = "Running"%string) then Ok Running
  else if bool_decide (s = "Degraded"%string) then Ok Degraded
  else if bool_decide (s = "Restricted"%string) then Ok Restricted
  else if bool_decide (s = "ShuttingDown"%string) then Ok ShuttingDown
  else if bool_decide (s = "Stopped"%string) then Ok Stopped
  else Err InvalidStateTransition.

Definition as_event_name (e : RuntimeLifecycleEvent) : string :=
  match e with
  | ConfigLoaded => "ConfigLoaded"
  | SecurityChecked => "SecurityChecked"
  | StorageOpened => "StorageOpened"
  | ApiStarted => "ApiStarted"
  | DegradedDetected => "DegradedDetected"
  | RestrictedDetected => "RestrictedDetected"
  | ShutdownRequested => "ShutdownRequested"
  | ShutdownCompleted => "ShutdownCompleted"
  | RecoveryCompleted => "RecoveryCompleted"
  end.

Definition lifecycle_transitions :
    list (RuntimeLifecycleState * RuntimeLifecycleEvent * RuntimeLifecycleState) :=
  [ (Booting, ConfigLoaded, CheckingSecurity);
    (CheckingSecurity, SecurityChecked, OpeningStorage);
    (OpeningStorage, StorageOpened, StartingApi);
    (StartingApi, ApiStarted, Running);
    (Running, DegradedDetected, Degraded);
    (Running, RestrictedDetected, Restricted);
    (Degraded, RecoveryCompleted, Running);
    (Restricted, RecoveryCompleted, Running);
    (Running, ShutdownRequested, ShuttingDown);
    (Degraded, ShutdownRequested, ShuttingDown);
    (Restricted, ShutdownRequested, ShuttingDown);
    (ShuttingDown, ShutdownCompleted, Stopped) ].

(** [RuntimeLifecycle::new]: the results of [add_transition] are ignored. *)
Definition RuntimeLifecycle := StateMachine.
Definition lifecycle_new : RuntimeLifecycle :=
  foldl (λ m '(f, e, t),
           (add_transition {| from := as_state_name f; event := as_event_name e; to := as_state_name t |} m).2)
    (machine_new (as_state_name Booting)) lifecycle_transitions.

Definition current (m : RuntimeLifecycle) : RuntimeLifecycleState :=
  match from_state_name (current_name m) with Ok s => s | Err _ => Booting end.

Definition apply (e : RuntimeLifecycleEvent) : op RuntimeLifecycle RuntimeError RuntimeLifecycleState :=
  next ← machine_apply (as_event_name e);
  op_lift (from_state_name next).

Definition is_running (m : RuntimeLifecycle) : bool := bool_decide (current m = Running).
Definition is_stopped (m : RuntimeLifecycle) : bool := bool_decide (current m = Stopped).
Definition is_restricted (m : RuntimeLifecycle) : bool := bool_decide (current m = Restricted).

(** ** The typed machine *)

(** The successor of a state in the table. *)
Definition next_state (s : RuntimeLifecycleState) (e : RuntimeLifecycleEvent) :
    option RuntimeLifecycleState :=
  snd <$> List.find (λ '(f, e', _), bool_decide (f = s) && bool_decide (e' = e)) lifecycle_transitions.

Fixpoint apply_all (l : list RuntimeLifecycleEvent) (m : RuntimeLifecycle) : RuntimeLifecycle :=
  match l with [] => m | e :: l' => apply_all l' (apply e m).2 end.
Fixpoint next_all (l : list RuntimeLifecycleEvent) (s : RuntimeLifecycleState) : RuntimeLifecycleState :=
  match l with [] => s | e :: l' => next_all l' (default s (next_state s e)) end.

(** A machine with the lifecycle's table, in the state [s]. *)
Definition in_state (s : RuntimeLifecycleState) : RuntimeLifecycle :=
  {| current_name := as_state_name s; transitions := transitions lifecycle_new |}.

Lemma from_as_state_name s : from_state_name (as_state_name s) = Ok s.
Proof. by destruct s. Qed.

Lemma apply_in_state s e :
  apply e (in_state s) =
  match next_state s e with
  | Some s' => (Ok s', in_state s')
  | None => (Err InvalidStateTransition, in_state s)
  end.
Proof. destruct s, e; vm_compute; reflexivity. Qed.

Lemma apply_all_in_state l s : apply_all l (in_state s) = in_state (next_all l s).
Proof.
  revert s. induction l as [|e l IH]; intros s; [done|]. cbn [apply_all next_all].
  rewrite apply_in_state. destruct (next_state s e) as [s'|]; apply IH.
Qed.

Lemma next_not_loading s e : s ≠ LoadingConfig → default s (next_state s e) ≠ LoadingConfig.
Proof. intros Hs. destruct s, e; vm_compute; done. Qed.

Lemma next_all_not_loading l s : s ≠ LoadingConfig → next_all l s ≠ LoadingConfig.
Proof.
  revert s. induction l as [|e l IH]; intros s Hs; [done|]. by apply IH, next_not_loading.
Qed.

Lemma next_all_stopped l : next_all l Stopped = Stopped.
Proof. induction l as [|[] l IH]; [done|exact IH..]. Qed.

(** The lifecycle, a machine over state names, is a machine over the
    states of the enumeration: after any sequence of events its name is that
    of a state, an event moves it exactly as the table says and is refused,
    leaving it alone, where the table has no entry; [LoadingConfig] is never
    reached, [Stopped] is never left, and it is entered only by completing a
    shutdown, which can only be requested of a runtime that is running,
    degraded or restricted. *)
Theorem lifecycle_follows_table l e :
  let m := apply_all l lifecycle_new in
  let s := next_all l Booting in
  current_name m = as_state_name s ∧ current m = s ∧
  apply e m =
    match next_state s e with
    | Some s' => (Ok s', in_state s')
    | None => (Err InvalidStateTransition, m)
    end ∧
  can_apply m (as_event_name e) = bool_decide (is_Some (next_state s e)) ∧
  s ≠ LoadingConfig ∧
  (s = Stopped → ∀ l', current (apply_all l' m) = Stopped) ∧
  (next_state s e = Some Stopped → s = ShuttingDown ∧ e = ShutdownCompleted) ∧
  (next_state s e = Some ShuttingDown → s ∈ [Running; Degraded; Restricted] ∧ e = ShutdownRequested).
Proof.
  intros m s. assert (m = in_state s) as Hm by apply (apply_all_in_state l Booting).
  clearbody m. subst m. assert (s ≠ LoadingConfig) as Hl by by apply next_all_not_loading.
  split_and!; [done|unfold current; simpl; by rewrite from_as_state_name|apply apply_in_state| |done|..].
  - clearbody s. destruct s, e; vm_compute; reflexivity.
  - intros -> l'. rewrite apply_all_in_state, next_all_stopped. done.
  - clearbody s. destruct s, e; intros H; vm_compute in H; simplify_eq; done.
  - clearbody s. destruct s, e; intros H; vm_compute in H; simplify_eq; split; try done;
      repeat (by left) || right; set_solver.
Qed.
