(* ===== verification/Journal.v ===== *)
(** The operational journal:
    [crates/appcore-core/src/operational_journal.rs].

    The journal is a text file of JSON lines chained by hashes; the process
    that opened it holds its lock, so its content is a field of the journal.
    SHA-256 and the JSON of [serde_json] are parameters; what the file system
    does at each access is an input. *)

From S2P Require Import Prelude.
From S2P Require Import Text.
From S2P Require Import DemoText.
From S2P Require Import Disk.
From S2P Require Import Types.
From S2P Require Import Encoding.
From S2P Require Import Records.

Local Open Scope N_scope.

Definition OPERATIONAL_JOURNAL_FORMAT_V1 : string := "# appcore-operational-journal-v1".
Definition MAX_JOURNAL_RECORD_BYTES : N := 1048576.

Inductive OperationalJournalRecord :=
| JournalAudit (entry : AuditEntry)
| JournalEvent (event : EventEnvelope).

Record JournalEnvelope := {
  envelope_sequence : N;
  previous_hash : string;
  envelope_hash : string;
  envelope_record : OperationalJournalRecord;
}.

#[export] Instance OperationalJournalRecord_eq_dec : EqDecision OperationalJournalRecord.
Proof. solve_decision. Defined.
#[export] Instance OperationalJournalRecord_countable : Countable OperationalJournalRecord.
Proof.
  apply (inj_countable'
    (λ r, match r with JournalAudit e => inl e | JournalEvent e => inr e end)
    (λ s, match s with inl e => JournalAudit e | inr e => JournalEvent e end)). by intros [].
Defined.
#[export] Instance JournalEnvelope_eq_dec : EqDecision JournalEnvelope.
Proof. solve_decision. Defined.
#[export] Instance JournalEnvelope_countable : Countable JournalEnvelope.
Proof.
  apply (inj_countable'
    (λ e, (envelope_sequence e, previous_hash e, envelope_hash e, envelope_record e))
    (λ '(a, b, c, d), Build_JournalEnvelope a b c d)). by intros [].
Defined.

Record FileOperationalJournal := {
  max_records : N;
  max_bytes : N;
  records : list OperationalJournalRecord;
  sequence : N;
  last_hash : string;
  file : string;
}.

Definition with_state (j : FileOperationalJournal) (l : list OperationalJournalRecord) (n : N)
    (h : string) : FileOperationalJournal :=
  {| max_records := max_records j; max_bytes := max_bytes j; records := l; sequence := n;
     last_hash := h; file := file j |}.
Definition with_file (j : FileOperationalJournal) (t : string) : FileOperationalJournal :=
  {| max_records := max_records j; max_bytes := max_bytes j; records := records j;
     sequence := sequence j; last_hash := last_hash j; file := t |}.

Definition journal_message (operation message : string) : RuntimeError :=
  OperationalJournalIo operation message.

(** ** The file system *)

(** [append_sized]: the file's size can be read after the append; [rewrites]
    and [sizes] are the outcomes of a compaction's rewrites, in order. *)
Record AppendIo := {
  appended : Append;
  append_sized : bool;
  rewrites : nat → AtomicWrite;
  sizes : nat → bool;
}.

(** [open_prepare]: the parent, the symbolic link check and the lock. *)
Record OpenIo := {
  open_prepare : RuntimeResult ();
  open_create : AtomicWrite;
  open_read : RuntimeResult ();
  open_append : AppendIo;
}.

(** [append_envelope], once the envelope is serialized. *)
Definition append_line (io : AppendIo) (line : string) : op string RuntimeError () :=
  append_text journal_message "open_append" "append_record" "sync_record" (appended io)
    (line +:+ String LF EmptyString).

(** An operation on the journal's file. *)
Definition on_file {A} (o : op string RuntimeError A) : op FileOperationalJournal RuntimeError A :=
  λ j, let '(r, t) := o (file j) in (r, with_file j t).

Lemma on_file_bind {A B} (o : op string RuntimeError A) (k : A → op FileOperationalJournal RuntimeError B) j :
  (on_file o ≫= k) j =
  match o (file j) with
  | (Ok a, t) => k a (with_file j t)
  | (Err e, t) => (Err e, with_file j t)
  end.
Proof. unfold on_file, mbind, op_bind. by destruct (o (file j)) as [[?|?] ?]. Qed.

Section Journal.
Context (sha256 : list byte → list byte).
Context (record_json : OperationalJournalRecord → result string string).
Context (envelope_json : JournalEnvelope → result string string).
Context (envelope_of_json : string → result string JournalEnvelope).

Definition serialize_record (r : OperationalJournalRecord) : RuntimeResult string :=
  map_err (journal_message "serialize_record") (record_json r).
Definition serialize_envelope (e : JournalEnvelope) : RuntimeResult string :=
  map_err (journal_message "serialize_envelope") (envelope_json e).

(** The bytes [record_hash] feeds to the hasher. *)
Definition record_preimage (n : N) (previous record : string) : list byte :=
  str_bytes OPERATIONAL_JOURNAL_FORMAT_V1 ++ be_bytes 8 n ++
  be_bytes 8 (str_len previous) ++ str_bytes previous ++
  be_bytes 8 (str_len record) ++ str_bytes record.
Definition record_hash (n : N) (previous record : string) : string :=
  hex_encode (sha256 (record_preimage n previous record)).

(** ** Reading *)

Definition validate_envelope (e : JournalEnvelope) (expected_sequence : N)
    (expected_previous : string) : RuntimeResult () :=
  record ← serialize_record (envelope_record e);
  let expected_hash := record_hash (envelope_sequence e) expected_previous record in
  if negb (bool_decide (envelope_sequence e = expected_sequence)) ||
     negb (bool_decide (previous_hash e = expected_previous)) ||
     negb (bool_decide (envelope_hash e = expected_hash))
  then Err (journal_message "validate_hash_chain" "operational journal hash chain mismatch")
  else Ok ().

(** The loop of [load_state] over the lines. *)
Fixpoint load_lines (n : N) (last : string) (l : list string) :
    RuntimeResult (list OperationalJournalRecord * N * string) :=
  match l with
  | [] => Ok ([], n, last)
  | line :: l' =>
    e ← map_err (journal_message "parse_record") (envelope_of_json line);
    _ ← validate_envelope e (sat_add64 n 1) last;
    '(rs, n', h) ← load_lines (envelope_sequence e) (envelope_hash e) l';
    Ok (envelope_record e :: rs, n', h)
  end.

Definition read_bounded (text : string) (limit : N) : RuntimeResult string :=
  if limit <? str_len text then
    Err (journal_message "validate_size" "journal exceeds size limit")
  else if negb (utf8_valid text) then
    Err (journal_message "read" "stream did not contain valid UTF-8")
  else Ok text.

(** The records, the sequence, the last hash, and whether a tail was dropped. *)
Definition load_state (contents : string) (limit : N) :
    RuntimeResult (list OperationalJournalRecord * N * string * bool) :=
  text ← read_bounded contents limit;
  let header := OPERATIONAL_JOURNAL_FORMAT_V1 +:+ String LF EmptyString in
  if negb (str_prefix header text) then
    Err (journal_message "validate_format" "unsupported operational journal format")
  else
    let '(complete, recovered_tail) := complete_line_prefix (str_drop (String.length header) text) in
    '(rs, n, h) ← load_lines 0 EmptyString
                    (filter (λ line, line ≠ EmptyString) (lines complete));
    Ok (rs, n, h, recovered_tail).

(** ** Writing *)

(** The loop of [encode_records]: the lines, the sequence and the last hash. *)
Fixpoint encode_from (n : N) (last : string) (l : list OperationalJournalRecord) :
    RuntimeResult (string * N * string) :=
  match l with
  | [] => Ok (EmptyString, n, last)
  | r :: l' =>
    let n := sat_add64 n 1 in
    bytes ← serialize_record r;
    let hash := record_hash n last bytes in
    line ← serialize_envelope {| envelope_sequence := n; previous_hash := last;
                                 envelope_hash := hash; envelope_record := r |};
    '(text, n', h) ← encode_from n hash l';
    Ok (line +:+ String LF text, n', h)
  end.
Definition encode_records (l : list OperationalJournalRecord) :
    RuntimeResult (string * N * string) :=
  '(text, n, h) ← encode_from 0 EmptyString l;
  Ok (OPERATIONAL_JOURNAL_FORMAT_V1 +:+ String LF text, n, h).

Abbreviation journal A := (op FileOperationalJournal RuntimeError A).

Definition rewrite_locked (w : AtomicWrite) : journal () :=
  j ← op_get;
  '(text, n, h) ← op_lift (encode_records (records j));
  _ ← on_file (atomic_write journal_message w text);
  op_modify (λ j, with_state j (records j) n h).

(** The loop of [compact_locked]; [k] rewrites were made. *)
Fixpoint shrink (fuel k : nat) (io : AppendIo) : journal () :=
  j ← op_get;
  if sizes io k && (max_bytes j <? str_len (file j)) && (1 <? lenN (records j)) then
    match fuel with
    | O => mret ()
    | S fuel' =>
      _ ← op_modify (λ j, with_state j (drop 1 (records j)) (sequence j) (last_hash j));
      _ ← rewrite_locked (rewrites io k);
      shrink fuel' (S k) io
    end
  else mret ().

(** Each round of the loop drops a record. *)
Definition compact_locked (io : AppendIo) : journal () :=
  _ ← op_modify (λ j, with_state j
        (drop (length (records j) - N.to_nat (max_records j)) (records j))
        (sequence j) (last_hash j));
  _ ← rewrite_locked (rewrites io 0);
  j ← op_get;
  shrink (length (records j)) 1 io.

Definition exceeds_limits (sized : bool) (j : FileOperationalJournal) : bool :=
  (max_records j <? lenN (records j)) || negb sized || (max_bytes j <? str_len (file j)).

Definition append (io : AppendIo) (r : OperationalJournalRecord) : journal () :=
  bytes ← op_lift (serialize_record r);
  if MAX_JOURNAL_RECORD_BYTES <? str_len bytes then
    op_fail (journal_message "validate_record" "record exceeds size limit")
  else
    j ← op_get;
    let n := sat_add64 (sequence j) 1 in
    let hash := record_hash n (last_hash j) bytes in
    line ← op_lift (serialize_envelope
             {| envelope_sequence := n; previous_hash := last_hash j;
                envelope_hash := hash; envelope_record := r |});
    _ ← on_file (append_line io line);
    _ ← op_modify (λ j, with_state j (records j ++ [r]) n hash);
    j ← op_get;
    if exceeds_limits (append_sized io) j then compact_locked io else mret ().

(** [recovery_max_bytes]. *)
Definition recovery_limit (bytes : N) : N :=
  sat_add64 (sat_add64 bytes MAX_JOURNAL_RECORD_BYTES) 65536.

(** On the contents of the path, if it exists. *)
Definition open (io : OpenIo) (records_limit bytes_limit : N) :
    op (option string) RuntimeError FileOperationalJournal := λ disk,
  let header := OPERATIONAL_JOURNAL_FORMAT_V1 +:+ String LF EmptyString in
  match open_prepare io with
  | Err e => (Err e, disk)
  | Ok _ =>
    let '(created, disk) :=
      match disk with
      | Some t => (Ok (), Some t)
      | None =>
        let '(r, t) := atomic_write journal_message (open_create io) header EmptyString in
        (r, match open_create io with NotWritten _ _ => None | _ => Some t end)
      end in
    match (_ ← created; _ ← open_read io; load_state (default EmptyString disk)
             (recovery_limit (N.max bytes_limit 1))) with
    | Err e => (Err e, disk)
    | Ok (rs, n, h, recovered_tail) =>
      let j := {| max_records := N.max records_limit 1; max_bytes := N.max bytes_limit 1;
                  records := rs; sequence := n; last_hash := h;
                  file := default EmptyString disk |} in
      if recovered_tail || exceeds_limits (append_sized (open_append io)) j then
        let '(r, j) := compact_locked (open_append io) j in (_ ← r; Ok j, Some (file j))
      else (Ok j, Some (file j))
    end
  end.

(** [audit_entries] and [events]. *)
Definition audit_entries (j : FileOperationalJournal) : list AuditEntry :=
  omap (λ r, match r with JournalAudit e => Some e | JournalEvent _ => None end) (records j).
Definition events (j : FileOperationalJournal) : list EventEnvelope :=
  omap (λ r, match r with JournalEvent e => Some e | JournalAudit _ => None end) (records j).

(** ** Laws of the JSON encoding *)

(** [serde_json] on these types: it does not fail, reads back what it wrote,
    and writes one line of UTF-8 text. *)
Record serde_laws : Prop := {
  record_total : ∀ r, ∃ s, record_json r = Ok s;
  record_injective : ∀ r r' s, record_json r = Ok s → record_json r' = Ok s → r = r';
  envelope_total : ∀ e, ∃ s, envelope_json e = Ok s;
  envelope_roundtrip : ∀ e s, envelope_json e = Ok s → envelope_of_json s = Ok e;
  envelope_line : ∀ e s, envelope_json e = Ok s →
    s ≠ EmptyString ∧ str_free LF s ∧ str_free CR s ∧ utf8_valid s = true;
}.

Definition next_envelope (n : N) (h : string) (r : OperationalJournalRecord) (bytes : string) :
    JournalEnvelope :=
  {| envelope_sequence := sat_add64 n 1; previous_hash := h;
     envelope_hash := record_hash (sat_add64 n 1) h bytes; envelope_record := r |}.

Section Laws.
Context (L : serde_laws).

(** What is written for one record after sequence [n] and hash [h]. *)
Lemma written_line n h r :
  ∃ bytes line, record_json r = Ok bytes ∧ envelope_json (next_envelope n h r bytes) = Ok line ∧
    (line ≠ EmptyString ∧ str_free LF line ∧ str_free CR line ∧ utf8_valid line = true) ∧
    envelope_of_json line = Ok (next_envelope n h r bytes).
Proof.
  destruct (record_total L r) as [bytes Hb].
  destruct (envelope_total L (next_envelope n h r bytes)) as [line Hl].
  exists bytes, line. split_and!; try done; try apply (envelope_line L _ _ Hl).
  by apply (envelope_roundtrip L).
Qed.

Lemma encode_cons n h r l bytes line :
  record_json r = Ok bytes → envelope_json (next_envelope n h r bytes) = Ok line →
  encode_from n h (r :: l) =
  ('(text, n', h') ← encode_from (sat_add64 n 1) (record_hash (sat_add64 n 1) h bytes) l;
   Ok (line +:+ String LF text, n', h')).
Proof.
  intros Hb Hl. cbn [encode_from]. unfold serialize_record. rewrite Hb. cbn [map_err mbind result_bind].
  unfold serialize_envelope. unfold next_envelope in Hl. by rewrite Hl.
Qed.

Lemma encode_total n h l : ∃ t n' h', encode_from n h l = Ok (t, n', h').
Proof.
  revert n h. induction l as [|r l IH]; intros n h; [by do 3 eexists|].
  destruct (written_line n h r) as (bytes & line & Hb & Hl & _).
  rewrite (encode_cons _ _ _ _ _ _ Hb Hl).
  destruct (IH (sat_add64 n 1) (record_hash (sat_add64 n 1) h bytes)) as (t & n' & h' & ->).
  by do 3 eexists.
Qed.

Lemma encode_snoc n h l r t n' h' bytes line :
  encode_from n h l = Ok (t, n', h') →
  record_json r = Ok bytes → envelope_json (next_envelope n' h' r bytes) = Ok line →
  encode_from n h (l ++ [r]) =
  Ok (t +:+ line +:+ String LF EmptyString, sat_add64 n' 1, record_hash (sat_add64 n' 1) h' bytes).
Proof.
  revert n h t. induction l as [|r0 l IH]; intros n h t He Hb Hl.
  - injection He as <- <- <-. cbn [app]. by rewrite (encode_cons _ _ _ _ _ _ Hb Hl).
  - destruct (written_line n h r0) as (bytes0 & line0 & Hb0 & Hl0 & _).
    rewrite (encode_cons _ _ _ _ _ _ Hb0 Hl0) in He. cbn [app].
    rewrite (encode_cons _ _ _ _ _ _ Hb0 Hl0).
    destruct (encode_from _ _ l) as [[[t1 n1] h1]|] eqn:E; [|done].
    cbn [mbind result_bind] in He. injection He as <- <- <-.
    rewrite (IH _ _ _ E Hb Hl). cbn [mbind result_bind]. by autorewrite with text.
Qed.

(** The lines of an encoded journal are read back, whatever torn line
    follows. *)
Lemma load_encoded n h l t n' h' torn :
  encode_from n h l = Ok (t, n', h') → str_free LF torn →
  split_last_line (t +:+ torn) = (t, torn) ∧
  load_lines n h (filter (λ line, line ≠ EmptyString) (lines t)) = Ok (l, n', h') ∧
  utf8_valid t = true.
Proof.
  revert n h t. induction l as [|r l IH]; intros n h t He Ht.
  - injection He as <- <- <-. rewrite string_app_nil. by rewrite split_last_line_free.
  - destruct (written_line n h r) as (bytes & line & Hb & Hl & (Hne & Hlf & Hcr & Hu) & Hd).
    rewrite (encode_cons _ _ _ _ _ _ Hb Hl) in He.
    destruct (encode_from _ _ l) as [[[t1 n1] h1]|] eqn:E; [|done].
    cbn [mbind result_bind] in He. injection He as <- <- <-.
    destruct (IH _ _ _ E Ht) as (Hs & Hload & Hu1). autorewrite with text. split_and!.
    + rewrite split_last_line_app. by rewrite Hs.
    + rewrite lines_cons, filter_cons_True by done. cbn [load_lines]. rewrite Hd.
      cbn [map_err mbind result_bind]. unfold validate_envelope, serialize_record.
      cbn [envelope_record next_envelope]. rewrite Hb. cbn [map_err mbind result_bind].
      rewrite !bool_decide_eq_true_2 by done. cbn [negb orb envelope_sequence envelope_hash next_envelope].
      rewrite Hload. done.
    + by rewrite utf8_valid_app.
Qed.

Definition header : string := OPERATIONAL_JOURNAL_FORMAT_V1 +:+ String LF EmptyString.

Lemma load_state_encoded l t n h torn limit :
  encode_records l = Ok (t, n, h) → str_free LF torn → str_len (t +:+ torn) ≤ limit →
  load_state (t +:+ torn) limit =
  if utf8_valid torn then Ok (l, n, h, negb (bool_decide (torn = EmptyString)))
  else Err (journal_message "read" "stream did not contain valid UTF-8").
Proof.
  unfold encode_records. destruct (encode_from _ _ l) as [[[t1 n1] h1]|] eqn:E; [|done].
  cbn [mbind result_bind]. intros [= <- <- <-] Ht Hlen.
  destruct (load_encoded _ _ _ _ _ _ torn E Ht) as (Hs & Hload & Hu).
  unfold load_state, read_bounded. rewrite (proj2 (N.ltb_ge _ _) Hlen).
  assert (Hh : (OPERATIONAL_JOURNAL_FORMAT_V1 +:+ String LF t1) +:+ torn = header +:+ t1 +:+ torn)
    by (unfold header; by autorewrite with text).
  rewrite Hh, utf8_valid_app, utf8_valid_app by done.
  destruct (utf8_valid torn); [|done]. cbn [negb mbind result_bind]. fold header.
  rewrite (proj2 (str_prefix_spec header _)) by eauto. cbn [negb].
  rewrite str_drop_app. unfold complete_line_prefix. rewrite Hs, Hload. done.
Qed.

(** ** Consistent journals *)

(** The file holds exactly the records, as one chain from its start. *)
Definition consistent (j : FileOperationalJournal) : Prop :=
  encode_records (records j) = Ok (file j, sequence j, last_hash j).

Lemma encode_records_total l : ∃ t n h, encode_records l = Ok (t, n, h).
Proof.
  unfold encode_records. destruct (encode_total 0 EmptyString l) as (t & n & h & ->).
  by do 3 eexists.
Qed.

Definition all_written (io : AppendIo) : Prop :=
  appended io = Appended ∧ append_sized io = true ∧ (∀ k, rewrites io k = Written) ∧ (∀ k, sizes io k = true).

(** The limits of a journal, which the last record alone may exceed. *)
Definition in_limits (j : FileOperationalJournal) : Prop :=
  lenN (records j) ≤ max_records j ∧
  (str_len (file j) ≤ max_bytes j ∨ (length (records j) ≤ 1)%nat).

Lemma rewrite_written j :
  ∃ t n h, rewrite_locked Written j =
    (Ok (), {| max_records := max_records j; max_bytes := max_bytes j; records := records j;
               sequence := n; last_hash := h; file := t |}) ∧
    encode_records (records j) = Ok (t, n, h).
Proof.
  destruct (encode_records_total (records j)) as (t & n & h & E). exists t, n, h.
  split; [|done]. unfold rewrite_locked. autorewrite with op. rewrite E. done.
Qed.

(** What compaction may change. *)
Record compacted (j j' : FileOperationalJournal) : Prop := {
  compacted_max_records : max_records j' = max_records j;
  compacted_max_bytes : max_bytes j' = max_bytes j;
  compacted_records : records j' `suffix_of` records j;
  compacted_last : records j ≠ [] → records j' ≠ [];
  compacted_consistent : consistent j';
}.

Lemma not_nil_length {A} (l : list A) : l ≠ [] ↔ length l ≠ 0%nat.
Proof. by rewrite length_zero_iff_nil. Qed.
Lemma suffix_drop {A} n (l : list A) : drop n l `suffix_of` l.
Proof. exists (take n l). by rewrite take_drop. Qed.

Lemma shrink_spec fuel k io j :
  all_written io → consistent j → (length (records j) ≤ fuel)%nat →
  ∃ j', shrink fuel k io j = (Ok (), j') ∧ compacted j j' ∧
    (str_len (file j') ≤ max_bytes j' ∨ (length (records j') ≤ 1)%nat).
Proof.
  intros (_ & _ & Hw & Hs). revert k j. induction fuel as [|fuel IH]; intros k j Hj Hlen.
  - exists j. cbn [shrink]. autorewrite with op. split_and!; [by case_match|by split|right; lia].
  - cbn [shrink]. autorewrite with op. rewrite Hs.
    destruct (N.ltb_spec (max_bytes j) (str_len (file j))); cycle 1.
    { exists j. split_and!; [done|by split|by left]. }
    destruct (N.ltb_spec 1 (lenN (records j))); cycle 1.
    { exists j. split_and!; [done|by split|right; lia]. }
    cbn [andb]. autorewrite with op. rewrite Hw.
    set (j1 := with_state j _ _ _). destruct (rewrite_written j1) as (t & n & h & Hr & E).
    rewrite (op_ok_bind _ _ _ _ _ Hr).
    set (j2 := Build_FileOperationalJournal _ _ _ _ _ _).
    assert (length (records j2) = length (records j) - 1)%nat as Hl2
      by (subst j2 j1; simpl; by rewrite length_drop).
    destruct (IH (S k) j2) as (j' & -> & [H1 H2 H3 H4 H5] & Hb); [exact E|lia|].
    exists j'. split_and!; [done| |done]. split; try done.
    + etrans; [exact H3|]. apply suffix_drop.
    + intros _. apply H4, not_nil_length. lia.
Qed.

Lemma compact_spec io j :
  all_written io → 1 ≤ max_records j →
  ∃ j', compact_locked io j = (Ok (), j') ∧ compacted j j' ∧ in_limits j'.
Proof.
  intros Hio Hm. unfold compact_locked. autorewrite with op.
  set (j1 := with_state j _ _ _). destruct (rewrite_written j1) as (t & n & h & Hr & E).
  pose proof Hio as (_ & _ & Hw & _). rewrite Hw.
  rewrite (op_ok_bind _ _ _ _ _ Hr).
  set (j2 := Build_FileOperationalJournal _ _ _ _ _ _). autorewrite with op.
  assert (length (records j2) = length (records j) `min` N.to_nat (max_records j))%nat as Hl2
    by (subst j2 j1; simpl; rewrite length_drop; lia).
  destruct (shrink_spec (length (records j2)) 1 io j2) as (j' & Hs & [H1 H2 H3 H4 H5] & Hb);
    [done|exact E|lia|].
  exists j'. split_and!; [exact Hs| |].
  - split; try done.
    + etrans; [exact H3|]. apply suffix_drop.
    + intros Hne%not_nil_length. apply H4, not_nil_length. lia.
  - split; [|done]. rewrite H1. apply suffix_length in H3.
    change (max_records j2) with (max_records j). lia.
Qed.

Definition record_fits (r : OperationalJournalRecord) : bool :=
  match record_json r with
  | Ok bytes => str_len bytes <=? MAX_JOURNAL_RECORD_BYTES
  | Err _ => false
  end.

Lemma append_rejected io r j :
  record_fits r = false →
  append io r j = (Err (journal_message "validate_record" "record exceeds size limit"), j).
Proof.
  unfold record_fits, append, serialize_record. destruct (record_total L r) as [bytes ->].
  intros Hb. cbn [map_err]. autorewrite with op. by rewrite N.ltb_antisym, Hb.
Qed.

(** [append] up to the write of its line. *)
Lemma append_unfold io r j bytes line :
  record_fits r = true → record_json r = Ok bytes →
  envelope_json (next_envelope (sequence j) (last_hash j) r bytes) = Ok line →
  append io r j =
  (_ ← on_file (append_line io line);
   _ ← op_modify (λ j', with_state j' (records j' ++ [r]) (sat_add64 (sequence j) 1)
         (record_hash (sat_add64 (sequence j) 1) (last_hash j) bytes));
   j' ← op_get;
   if exceeds_limits (append_sized io) j' then compact_locked io else mret ()) j.
Proof.
  unfold record_fits, append, serialize_record, serialize_envelope. intros Hf Hb Hl.
  rewrite Hb in *. cbn [map_err]. autorewrite with op.
  rewrite N.ltb_antisym, Hf. cbn [negb]. autorewrite with op.
  unfold next_envelope in Hl. rewrite Hl. done.
Qed.

Lemma consistent_snoc j r bytes line :
  consistent j → record_json r = Ok bytes →
  envelope_json (next_envelope (sequence j) (last_hash j) r bytes) = Ok line →
  consistent {| max_records := max_records j; max_bytes := max_bytes j; records := records j ++ [r];
                sequence := sat_add64 (sequence j) 1;
                last_hash := record_hash (sat_add64 (sequence j) 1) (last_hash j) bytes;
                file := file j +:+ line +:+ String LF EmptyString |}.
Proof.
  unfold consistent, encode_records. simpl. destruct (encode_from _ _ _) as [[[t n] h]|] eqn:E; [|done].
  cbn [mbind result_bind]. intros [= <- <- <-] Hb Hl.
  rewrite (encode_snoc _ _ _ _ _ _ _ _ _ E Hb Hl). cbn [mbind result_bind].
  by autorewrite with text.
Qed.

Lemma append_spec io r j :
  all_written io → record_fits r = true → consistent j → 1 ≤ max_records j →
  ∃ j', append io r j = (Ok (), j') ∧ consistent j' ∧ in_limits j' ∧
    max_records j' = max_records j ∧ max_bytes j' = max_bytes j ∧
    records j' `suffix_of` records j ++ [r] ∧ records j' ≠ [].
Proof.
  intros Hio Hf Hj Hm. pose proof Hio as (H1 & H2 & _).
  destruct (written_line (sequence j) (last_hash j) r) as (bytes & line & Hb & Hl & _).
  rewrite (append_unfold io r j bytes line) by done.
  rewrite on_file_bind. unfold append_line. rewrite H1, H2. cbn [append_text op_modify].
  set (j1 := with_file j _). autorewrite with op. fold j1.
  pose proof (consistent_snoc j r bytes line Hj Hb Hl) as Hc.
  change (consistent (with_state j1 (records j1 ++ [r]) (sat_add64 (sequence j) 1)
    (record_hash (sat_add64 (sequence j) 1) (last_hash j) bytes))) in Hc.
  set (j2 := with_state j1 _ _ _) in *.
  assert (records j2 ≠ []) as Hne by by destruct (records j1).
  destruct (exceeds_limits true j2) eqn:He.
  - destruct (compact_spec io j2 Hio Hm) as (j' & -> & [? ? Hr Hl' ?] & Hlim).
    exists j'. split_and!; auto.
  - exists j2. unfold exceeds_limits in He. rewrite !orb_false_iff, !N.ltb_ge in He.
    destruct He as [[He1 _] He2]. split_and!; try done. split; [done|by left].
Qed.

Fixpoint append_all (io : AppendIo) (l : list OperationalJournalRecord) (j : FileOperationalJournal) :
    FileOperationalJournal :=
  match l with
  | [] => j
  | r :: l' => append_all io l' (append io r j).2
  end.

Lemma suffix_app_l_trans {A} (k l1 l2 l : list A) :
  k `suffix_of` l2 ++ l → l2 `suffix_of` l1 → k `suffix_of` l1 ++ l.
Proof.
  intros Hk [l0 ->]. etrans; [exact Hk|]. exists l0. by rewrite app_assoc.
Qed.

Lemma append_all_spec io l j :
  all_written io → consistent j → in_limits j → 1 ≤ max_records j →
  let j' := append_all io l j in
  let kept := filter (λ r, record_fits r = true) l in
  consistent j' ∧ in_limits j' ∧ max_records j' = max_records j ∧ max_bytes j' = max_bytes j ∧
  records j' `suffix_of` records j ++ kept ∧ (records j ≠ [] ∨ kept ≠ [] → records j' ≠ []).
Proof.
  intros Hio. revert j. induction l as [|r l IH]; intros j Hj Hlim Hm; simpl.
  { rewrite app_nil_r. split_and!; try done. by intros [?|?]. }
  destruct (record_fits r) eqn:Hf.
  - rewrite filter_cons_True by done.
    destruct (append_spec io r j Hio Hf Hj Hm) as (j1 & -> & H1 & H2 & H3 & H4 & H5 & H6).
    destruct (IH j1 H1 H2) as (? & ? & Hm1 & Hm2 & Hs & Hk); [by rewrite H3|]. simpl.
    split_and!; try done; [congruence..| |].
    + rewrite cons_middle, app_assoc. by eapply suffix_app_l_trans.
    + intros _. apply Hk. by left.
  - rewrite filter_cons_False by congruence. rewrite append_rejected by done. by apply IH.
Qed.

(** ** Reopening *)

Definition opens (io : OpenIo) : Prop :=
  open_prepare io = Ok () ∧ open_create io = Written ∧ open_read io = Ok () ∧
  all_written (open_append io).

(** Compaction of a consistent journal within its limits changes nothing. *)
Lemma compact_in_limits io j t :
  all_written io → encode_records (records j) = Ok (t, sequence j, last_hash j) →
  in_limits (with_file j t) → compact_locked io j = (Ok (), with_file j t).
Proof.
  intros (_ & _ & Hw & Hs) E [Hl Hb]. simpl in Hl, Hb. unfold compact_locked.
  autorewrite with op. rewrite Hw.
  replace (length (records j) - N.to_nat (max_records j))%nat with 0%nat by lia. rewrite drop_0.
  destruct (rewrite_written (with_state j (records j) (sequence j) (last_hash j)))
    as (t' & n' & h' & Hr & E'). cbn [records with_state] in E'. rewrite E in E'.
  injection E' as <- <- <-. rewrite (op_ok_bind _ _ _ _ _ Hr). autorewrite with op.
  cbn [max_records max_bytes records with_state]. change (Build_FileOperationalJournal _ _ _ _ _ _)
    with (with_file j t). generalize (length (records j)) at 1. intros fuel.
  destruct fuel; cbn [shrink]; autorewrite with op; rewrite Hs; simpl;
    (destruct (N.ltb_spec (max_bytes j) (str_len t)); [|done]);
    (destruct (N.ltb_spec 1 (lenN (records j))); [lia|done]).
Qed.

Lemma journal_reopen io j torn :
  opens io → consistent j → in_limits j → 1 ≤ max_records j → 1 ≤ max_bytes j →
  str_free LF torn → str_len (file j +:+ torn) ≤ recovery_limit (max_bytes j) →
  open io (max_records j) (max_bytes j) (Some (file j +:+ torn)) =
  if utf8_valid torn then (Ok j, Some (file j))
  else (Err (journal_message "read" "stream did not contain valid UTF-8"), Some (file j +:+ torn)).
Proof.
  intros (H1 & _ & H3 & H4) Hj Hlim Hr Hb Ht Hlen. unfold open. rewrite H1, H3. cbn [mbind result_bind].
  change (default EmptyString (Some (file j +:+ torn))) with (file j +:+ torn).
  rewrite (N.max_l (max_bytes j)), (N.max_l (max_records j)) by done.
  rewrite (load_state_encoded (records j) (file j) (sequence j) (last_hash j)) by done.
  destruct (utf8_valid torn); [|done].
  set (j1 := Build_FileOperationalJournal _ _ _ _ _ _).
  assert (with_file j1 (file j) = j) as Hj1 by by destruct j.
  destruct (negb _ || _) eqn:He.
  - rewrite (compact_in_limits (open_append io) j1 (file j)), Hj1; [done..|by rewrite Hj1].
  - apply orb_false_iff in He as [He _]. apply negb_false_iff, bool_decide_eq_true in He as ->.
    subst j1. rewrite string_app_empty_r. by destruct j.
Qed.

Lemma journal_open_new io n b :
  opens io → 
  ∃ j, open io n b None = (Ok j, Some (file j)) ∧ consistent j ∧ in_limits j ∧ records j = [] ∧
    max_records j = N.max n 1 ∧ max_bytes j = N.max b 1.
Proof.
  intros Hio. pose proof Hio as (H1 & H2 & H3 & H4).
  set (j := {| max_records := N.max n 1; max_bytes := N.max b 1; records := []; sequence := 0;
               last_hash := EmptyString; file := header |}).
  assert (consistent j) as Hj by done.
  assert (in_limits j) as Hlim by (split; [simpl; lia|right; simpl; lia]).
  exists j. split_and!; try done.
  pose proof (journal_reopen io j EmptyString Hio Hj Hlim ltac:(simpl; lia) ltac:(simpl; lia) I) as Ho.
  rewrite string_app_empty_r in Ho. cbn [utf8_valid max_records max_bytes file j] in Ho.
  unfold open in *. rewrite H1, H2 in *. rewrite !(N.max_l (N.max _ 1) 1) in Ho by lia.
  cbn [atomic_write op_modify]. apply Ho. unfold recovery_limit, sat_add, str_len, MAX_JOURNAL_RECORD_BYTES, u64_max.
  change (N.of_nat (String.length header)) with 33. lia.
Qed.

(** ** Hash chains *)

(** What [load_state] computes of the records it accepts. *)
Definition chain_step (nh : N * string) (r : OperationalJournalRecord) : N * string :=
  match record_json r with
  | Ok bytes => (sat_add64 nh.1 1, record_hash (sat_add64 nh.1 1) nh.2 bytes)
  | Err _ => nh
  end.
Abbreviation hash_chain l := (foldl chain_step (0, EmptyString) l).

Lemma load_lines_chain n h ls l n' h' :
  load_lines n h ls = Ok (l, n', h') → foldl chain_step (n, h) l = (n', h').
Proof.
  revert n h l. induction ls as [|line ls IH]; intros n h l; cbn [load_lines]; [by intros [= <- <- <-]|].
  destruct (envelope_of_json line) as [e|]; [|done]. cbn [map_err mbind result_bind].
  destruct (validate_envelope _ _ _) as [[]|] eqn:Hv; [|done]. cbn [mbind result_bind].
  destruct (load_lines _ _ ls) as [[[rs n1] h1]|] eqn:El; [|done]. intros [= <- <- <-].
  apply IH in El. simpl. unfold validate_envelope, serialize_record in Hv. unfold chain_step at 2.
  destruct (record_json (envelope_record e)) as [bytes|]; [|done].
  cbn [map_err mbind result_bind] in Hv. destruct (_ || _) eqn:Hc in Hv; [done|].
  rewrite !orb_false_iff, !negb_false_iff, !bool_decide_eq_true in Hc. destruct Hc as [[H1 H2] H3].
  simpl. by rewrite <- H1, <- H3.
Qed.

Lemma load_state_chain t limit l n h b :
  load_state t limit = Ok (l, n, h, b) → hash_chain l = (n, h).
Proof.
  unfold load_state. destruct (read_bounded t limit) as [text|]; [|done]. cbn [mbind result_bind].
  destruct (negb _); [done|]. destruct (complete_line_prefix _) as [complete tail].
  destruct (load_lines _ _ _) as [[[rs n'] h']|] eqn:El; [|done]. intros [= <- <- <- <-].
  by apply load_lines_chain in El.
Qed.

(** SHA-256 digests have 32 bytes. *)
Definition digests : Prop := ∀ x, length (sha256 x) = 32%nat.

(** A text that fits the memory of the machine. *)
Definition in_memory (r : OperationalJournalRecord) : Prop :=
  ∀ s, record_json r = Ok s → str_len s ≤ u64_max.

Lemma length_hex x : String.length (hex_encode x) = (2 * length x)%nat.
Proof. induction x as [|b x IH]; [done|]. simpl. rewrite IH. lia. Qed.

Lemma record_preimage_inj n m p q a b :
  n ≤ u64_max → m ≤ u64_max → str_len p ≤ u64_max → str_len q ≤ u64_max →
  str_len a ≤ u64_max → str_len b ≤ u64_max →
  record_preimage n p a = record_preimage m q b → n = m ∧ p = q ∧ a = b.
Proof.
  intros Hn Hm Hp Hq Ha Hb H. unfold record_preimage in H. apply app_inv_head in H.
  apply be_bytes_app_inj in H as [-> H]; [|by apply u64_fits..].
  apply be_bytes_app_inj in H as [Hlen H]; [|by apply u64_fits..].
  apply app_inj_1 in H as [H1 H]; [|by rewrite <- !length_str_bytes in Hlen; lia].
  apply str_bytes_inj in H1 as ->.
  apply be_bytes_app_inj in H as [_ H]; [|by apply u64_fits..].
  by apply str_bytes_inj in H as ->.
Qed.

Lemma hash_chain_snoc l r b :
  record_json r = Ok b →
  hash_chain (l ++ [r]) =
  (sat_add64 (hash_chain l).1 1, record_hash (sat_add64 (hash_chain l).1 1) (hash_chain l).2 b).
Proof. intros Hb. rewrite foldl_app. cbn [foldl]. unfold chain_step at 1. by rewrite Hb. Qed.

(** The hash a chain ends with is empty or a digest. *)
Lemma chain_bounds l :
  digests → (hash_chain l).1 ≤ u64_max ∧ str_len (hash_chain l).2 ≤ u64_max.
Proof.
  intros Hd. induction l as [|r l IH] using rev_ind; [split; vm_compute; discriminate|].
  rewrite foldl_app. simpl. unfold chain_step. destruct (record_json r); [|done].
  split; [apply sat_add_le_max|]. unfold str_len. simpl. unfold record_hash.
  rewrite length_hex, Hd. vm_compute. discriminate.
Qed.

Lemma chain_inj l l' :
  digests → (hash_chain l).2 = (hash_chain l').2 → (∀ r, r ∈ l ∨ r ∈ l' → in_memory r) →
  l = l' ∨ ∃ x y, x ≠ y ∧ sha256 x = sha256 y.
Proof.
  intros Hd.
  assert (Hne : ∀ (n : N) p b, record_hash n p b ≠ EmptyString).
  { intros n p b H. apply (f_equal String.length) in H. unfold record_hash in H.
    rewrite length_hex, Hd in H. done. }
  revert l'. induction l as [|r l IH] using rev_ind; intros l' Hh Hok.
  - destruct l' as [|r' l' _] using rev_ind; [by left|]. exfalso.
    destruct (record_total L r') as [b' Eb']. rewrite (hash_chain_snoc _ _ _ Eb') in Hh. by eapply Hne.
  - destruct (record_total L r) as [b Eb]. rewrite (hash_chain_snoc _ _ _ Eb) in Hh.
    destruct l' as [|r' l' _] using rev_ind; [by apply Hne in Hh|].
    destruct (record_total L r') as [b' Eb']. rewrite (hash_chain_snoc _ _ _ Eb') in Hh.
    cbn [snd] in Hh. unfold record_hash in Hh at 1 2. apply hex_encode_inj in Hh.
    assert (in_memory r) as Hm by (apply Hok; set_solver).
    assert (in_memory r') as Hm' by (apply Hok; set_solver).
    match type of Hh with sha256 ?x = sha256 ?y => destruct (decide (x = y)) as [E|Hxy] end;
      [|right; by do 2 eexists].
    apply record_preimage_inj in E as (_ & E & ->);
      [|apply sat_add_le_max|apply sat_add_le_max|by apply chain_bounds|by apply chain_bounds
      |by apply Hm|by apply Hm'].
    destruct (IH l' E) as [->|?]; [|left|by right].
    + intros r0 [?|?]; apply Hok; set_solver.
    + f_equal. f_equal. by apply (record_injective L _ _ b').
Qed.

(** ** Properties *)


(** C27: A torn append is recovered. When an append stops after [n] bytes of
    its line, the append fails and the journal's records are as before; and
    opening the file again gives exactly the journal before the append, the
    torn line dropped — unless the line was cut inside a character, in which
    case the journal cannot be opened any more. *)
Theorem torn_append_is_recovered io oio r n e j :
  opens oio → consistent j → in_limits j → 1 ≤ max_records j → 1 ≤ max_bytes j →
  record_fits r = true → appended io = Torn n e →
  ∃ bytes line, record_json r = Ok bytes ∧
    envelope_json (next_envelope (sequence j) (last_hash j) r bytes) = Ok line ∧
    (append io r j).1 = Err (journal_message "append_record" e) ∧
    let t := file (append io r j).2 in
    records (append io r j).2 = records j ∧
    t = file j +:+ str_take n (line +:+ String LF EmptyString) ∧
    ((n ≤ String.length line)%nat → str_len t ≤ recovery_limit (max_bytes j) →
     open oio (max_records j) (max_bytes j) (Some t) =
       if utf8_valid (str_take n line) then (Ok j, Some (file j))
       else (Err (journal_message "read" "stream did not contain valid UTF-8"), Some t)).
Proof.
  intros Ho Hj Hlim Hm Hb Hf H1.
  destruct (written_line (sequence j) (last_hash j) r) as (bytes & line & Hbs & Hl & (_ & Hlf & _) & _).
  exists bytes, line. rewrite (append_unfold io r j bytes line) by done. rewrite on_file_bind.
  unfold append_line. rewrite H1. cbn [append_text]. autorewrite with op.
  cbn [fst snd records file with_file].
  split_and!; try done. intros Hn Hlen.
  assert (str_take n (line +:+ String LF EmptyString) = str_take n line) as Ht.
  { rewrite str_take_app_le by done. done. }
  rewrite Ht in *. apply journal_reopen; try done. by apply str_free_take.
Qed.

(** The hash chain determines the records: two journal files that load
    with the same last hash hold the same records, or show two texts with the
    same SHA-256. *)
Theorem chain_determines_records t t' limit limit' l l' n n' h b b' :
  digests → load_state t limit = Ok (l, n, h, b) → load_state t' limit' = Ok (l', n', h, b') →
  (∀ r, r ∈ l ∨ r ∈ l' → in_memory r) →
  l = l' ∨ ∃ x y, x ≠ y ∧ sha256 x = sha256 y.
Proof.
  intros Hd Ht%load_state_chain Ht'%load_state_chain. apply chain_inj; [done|by rewrite Ht, Ht'].
Qed.

(** An accepted append that the file system did not sync, as the next append
    sees it. *)
Lemma append_unsynced io r e j bytes line :
  record_fits r = true → record_json r = Ok bytes →
  envelope_json (next_envelope (sequence j) (last_hash j) r bytes) = Ok line →
  appended io = Unsynced e →
  append io r j =
  (Err (journal_message "sync_record" e), with_file j (file j +:+ line +:+ String LF EmptyString)).
Proof.
  intros Hf Hb Hl H1. rewrite (append_unfold io r j bytes line) by done.
  rewrite on_file_bind. unfold append_line. by rewrite H1.
Qed.

Lemma load_lines_app n h l t n' h' rest :
  encode_from n h l = Ok (t, n', h') →
  load_lines n h (filter (λ line, line ≠ EmptyString) (lines (t +:+ rest))) =
  ('(rs, m, g) ← load_lines n' h' (filter (λ line, line ≠ EmptyString) (lines rest));
   Ok (l ++ rs, m, g)).
Proof.
  revert n h t. induction l as [|r l IH]; intros n h t He.
  - injection He as <- <- <-. rewrite string_app_nil. by destruct (load_lines _ _ _) as [[[??]?]|].
  - destruct (written_line n h r) as (bytes & line & Hb & Hl & (Hne & Hlf & Hcr & Hu) & Hd).
    rewrite (encode_cons _ _ _ _ _ _ Hb Hl) in He.
    destruct (encode_from _ _ l) as [[[t1 n1] h1]|] eqn:E; [|done].
    cbn [mbind result_bind] in He. injection He as <- <- <-. autorewrite with text.
    rewrite lines_cons, filter_cons_True by done. cbn [load_lines]. rewrite Hd.
    cbn [map_err mbind result_bind]. unfold validate_envelope, serialize_record.
    cbn [envelope_record next_envelope]. rewrite Hb. cbn [map_err mbind result_bind].
    rewrite !bool_decide_eq_true_2 by done.
    cbn [negb orb envelope_sequence envelope_hash next_envelope mbind result_bind].
    rewrite (IH _ _ _ E). by destruct (load_lines _ _ _) as [[[??]?]|].
Qed.

(** Two lines with the same sequence do not load. *)
Lemma repeated_sequence_rejected n h r r2 bytes bytes2 line line2 :
  n + 1 < u64_max →
  record_json r = Ok bytes → envelope_json (next_envelope n h r bytes) = Ok line →
  record_json r2 = Ok bytes2 → envelope_json (next_envelope n h r2 bytes2) = Ok line2 →
  load_lines n h (filter (λ line, line ≠ EmptyString)
    (lines (line +:+ String LF (line2 +:+ String LF EmptyString)))) =
  Err (journal_message "validate_hash_chain" "operational journal hash chain mismatch").
Proof.
  intros Hn Hb Hl Hb2 Hl2.
  destruct (envelope_line L _ _ Hl) as (? & ? & ? & _).
  destruct (envelope_line L _ _ Hl2) as (? & ? & ? & _).
  rewrite !lines_cons, !filter_cons_True by done. cbn [load_lines].
  rewrite (envelope_roundtrip L _ _ Hl). cbn [map_err mbind result_bind].
  unfold validate_envelope, serialize_record.
  cbn [envelope_record next_envelope]. rewrite Hb. cbn [map_err mbind result_bind].
  rewrite !bool_decide_eq_true_2 by done.
  cbn [negb orb envelope_sequence envelope_hash next_envelope mbind result_bind].
  rewrite (envelope_roundtrip L _ _ Hl2). cbn [map_err mbind result_bind envelope_record next_envelope].
  rewrite Hb2. cbn [map_err mbind result_bind envelope_sequence next_envelope].
  rewrite bool_decide_eq_false_2; [done|]. unfold sat_add. lia.
Qed.

Lemma load_state_repeated j r r2 b b2 line line2 limit :
  consistent j → sequence j + 1 < u64_max →
  record_json r = Ok b → envelope_json (next_envelope (sequence j) (last_hash j) r b) = Ok line →
  record_json r2 = Ok b2 → envelope_json (next_envelope (sequence j) (last_hash j) r2 b2) = Ok line2 →
  let t := file j +:+ line +:+ String LF (line2 +:+ String LF EmptyString) in
  str_len t ≤ limit →
  load_state t limit =
  Err (journal_message "validate_hash_chain" "operational journal hash chain mismatch").
Proof.
  intros Hj Hn Hb Hl Hb2 Hl2 t Hlen. unfold consistent, encode_records in Hj.
  destruct (encode_from _ _ _) as [[[t1 n1] h1]|] eqn:E; [|done].
  cbn [mbind result_bind] in Hj. injection Hj as Ht -> ->.
  destruct (load_encoded _ _ _ _ _ _ EmptyString E I) as (_ & _ & Hu1).
  destruct (envelope_line L _ _ Hl) as (_ & _ & _ & Hu).
  destruct (envelope_line L _ _ Hl2) as (_ & Hlf2 & _ & Hu2).
  assert (t = header +:+ t1 +:+ line +:+ String LF (line2 +:+ String LF EmptyString)) as Ht3
    by (unfold t, header; rewrite <- Ht; by autorewrite with text).
  assert (utf8_valid t = true) as Hu3.
  { rewrite Ht3, !utf8_valid_app by done.
    change (String LF (line2 +:+ String LF EmptyString))
      with (String LF EmptyString +:+ line2 +:+ String LF EmptyString).
    by rewrite !utf8_valid_app. }
  unfold load_state, read_bounded. rewrite (proj2 (N.ltb_ge _ _) Hlen), Hu3, Ht3.
  cbn [negb mbind result_bind]. fold header.
  rewrite (proj2 (str_prefix_spec header _)) by eauto. cbn [negb].
  rewrite str_drop_app. unfold complete_line_prefix.
  assert (split_last_line (t1 +:+ line +:+ String LF (line2 +:+ String LF EmptyString)) =
    (t1 +:+ line +:+ String LF (line2 +:+ String LF EmptyString), EmptyString)) as ->
    by (rewrite <- string_app_assoc, split_last_line_app, split_last_line_app; done).
  rewrite (load_lines_app _ _ _ _ _ _ _ E).
  by rewrite (repeated_sequence_rejected _ _ _ _ _ _ _ _ Hn Hb Hl Hb2 Hl2).
Qed.

(** An append that reached the file but failed to sync leaves the journal
    unaware of the line it wrote: the next append succeeds with the same
    sequence number, and from then on the journal cannot be opened. *)
Theorem unsynced_append_breaks_the_chain io io2 oio r r2 e j :
  opens oio → consistent j → record_fits r = true → record_fits r2 = true →
  appended io = Unsynced e → all_written io2 →
  sequence j + 1 < u64_max → lenN (records j) < max_records j →
  let j1 := (append io r j).2 in
  (∀ bytes line, record_json r2 = Ok bytes →
     envelope_json (next_envelope (sequence j) (last_hash j) r2 bytes) = Ok line →
     str_len (file j1 +:+ line +:+ String LF EmptyString) ≤ max_bytes j) →
  1 ≤ max_bytes j ≤ u64_max →
  let j2 := (append io2 r2 j1).2 in
  (append io r j).1 = Err (journal_message "sync_record" e) ∧
  (append io2 r2 j1).1 = Ok () ∧
  open oio (max_records j) (max_bytes j) (Some (file j2)) =
    (Err (journal_message "validate_hash_chain" "operational journal hash chain mismatch"),
     Some (file j2)).
Proof.
  intros Ho Hj Hf Hf2 H1 Hio2 Hn Hm. cbv zeta.
  destruct (written_line (sequence j) (last_hash j) r) as (b & line & Hb & Hl & (_ & _ & _ & Hu) & _).
  destruct (written_line (sequence j) (last_hash j) r2)
    as (b2 & line2 & Hb2 & Hl2 & (_ & Hlf2 & _ & Hu2) & _).
  rewrite (append_unsynced io r e j b line) by done. cbn [fst snd].
  set (j1 := with_file j _). intros Hsize Hmb. specialize (Hsize b2 line2 Hb2 Hl2).
  pose proof Hio2 as (H2 & H3 & _).
  rewrite (append_unfold io2 r2 j1 b2 line2) by done. rewrite on_file_bind.
  unfold append_line. rewrite H2, H3. cbn [append_text op_modify]. autorewrite with op.
  set (j2 := with_state _ _ _ _).
  assert (file j2 = file j +:+ line +:+ String LF (line2 +:+ String LF EmptyString)) as Hj2
    by (subst j2 j1; simpl; by autorewrite with text).
  assert (str_len (file j2) ≤ max_bytes j) as Hlen by (by rewrite Hj2; subst j1; simpl in Hsize;
    autorewrite with text in Hsize).
  replace (exceeds_limits true j2) with false; cycle 1.
  { symmetry. unfold exceeds_limits. rewrite !orb_false_iff, !N.ltb_ge. split_and!; [|done|done].
    subst j2 j1. simpl. rewrite length_app. simpl. lia. }
  autorewrite with op. cbn [fst snd]. split_and!; [done..|].
  destruct Ho as (O1 & O2 & O3 & _). unfold open. rewrite O1, O3. cbn [mbind result_bind].
  change (default EmptyString (Some (file j2))) with (file j2). rewrite (N.max_l _ 1) by lia.
  rewrite Hj2, (load_state_repeated j r r2 b b2); try done.
  rewrite <- Hj2. unfold recovery_limit, sat_add. lia.
Qed.
End Laws.
End Journal.

(** ** Witnesses *)

Module Demo.
Definition sha (x : list byte) : list byte := be_bytes 32 (lenN x).
Definition record_json : OperationalJournalRecord → result string string := to_text.
Definition envelope_json : JournalEnvelope → result string string := to_text.
Definition envelope_of_json : string → result string JournalEnvelope := of_text "not a line"%string.
Definition unwrap (r : result string string) : string :=
  match r with Ok s => s | Err _ => EmptyString end.
Definition io (a : Append) : AppendIo :=
  {| appended := a; append_sized := true; rewrites := λ _, Written; sizes := λ _, true |}.
Definition open_io : OpenIo :=
  {| open_prepare := Ok (); open_create := Written; open_read := Ok (); open_append := io Appended |}.
Definition event (id : string) : OperationalJournalRecord :=
  JournalEvent {| event_name := "e"; event_id := id; event_app_id := "a"; event_node_id := "n";
                  occurred_at_ms := 1; event_payload := []; event_trace := None |}.
Abbreviation append := (append sha record_json envelope_json).
Abbreviation open := (open sha record_json envelope_json envelope_of_json).
Definition start : FileOperationalJournal :=
  {| max_records := 2; max_bytes := 1000000; records := []; sequence := 0; last_hash := "";
     file := header |}.
Definition one : FileOperationalJournal := (append (io Appended) (event "a") start).2.
End Demo.

Lemma demo_serde : serde_laws Demo.record_json Demo.envelope_json Demo.envelope_of_json.
Proof.
  split.
  - intros r. by eexists.
  - intros r r' s H1%(of_to_text "x"%string) H2%(of_to_text "x"%string). congruence.
  - intros e. by eexists.
  - intros e s. apply of_to_text.
  - intros e s. apply to_text_line.
Qed.
Lemma demo_opens : opens Demo.open_io.
Proof. done. Qed.
Lemma demo_one : consistent Demo.sha Demo.record_json Demo.envelope_json Demo.one ∧ in_limits Demo.one.
Proof. split; [vm_compute; reflexivity|]. split; [|left]; vm_compute; discriminate. Qed.


Lemma torn_append_is_recovered_witness :
  (Demo.append (Demo.io (Torn 7 "no space")) (Demo.event "b") Demo.one).1 =
    Err (journal_message "append_record" "no space") ∧
  Demo.open Demo.open_io (max_records Demo.one) (max_bytes Demo.one)
    (Some (file (Demo.append (Demo.io (Torn 7 "no space")) (Demo.event "b") Demo.one).2)) =
  (Ok Demo.one, Some (file Demo.one)).
Proof.
  assert (record_fits Demo.record_json (Demo.event "b") = true) as Hf by (vm_compute; reflexivity).
  assert (1 ≤ max_records Demo.one ∧ 1 ≤ max_bytes Demo.one) as [Hm Hb]
    by (split; vm_compute; discriminate).
  destruct (torn_append_is_recovered Demo.sha Demo.record_json Demo.envelope_json
    Demo.envelope_of_json demo_serde (Demo.io (Torn 7 "no space")) Demo.open_io (Demo.event "b") 7 "no space"%string
    Demo.one demo_opens (proj1 demo_one) (proj2 demo_one) Hm Hb Hf eq_refl)
    as (bytes & line & Hbs & Hl & H1 & _ & _ & Hr).
  split; [exact H1|].
  assert (bytes = Demo.unwrap (Demo.record_json (Demo.event "b"))) as -> by by rewrite Hbs.
  match type of Hl with ?e = _ => assert (line = Demo.unwrap e) as -> by by rewrite Hl end.
  assert (Hn : (7 <=? String.length (Demo.unwrap (Demo.envelope_json
    (next_envelope Demo.sha (sequence Demo.one) (last_hash Demo.one) (Demo.event "b")
      (Demo.unwrap (Demo.record_json (Demo.event "b")))))))%nat = true) by (vm_compute; reflexivity).
  apply Nat.leb_le in Hn. specialize (Hr Hn). etransitivity; [apply Hr; vm_compute; discriminate|].
  vm_compute. reflexivity.
Defined.

Lemma chain_determines_records_witness :
  let t := file Demo.one in
  [Demo.event "a"] = [Demo.event "a"] ∨ ∃ x y, x ≠ y ∧ Demo.sha x = Demo.sha y.
Proof.
  intros t.
  refine (chain_determines_records Demo.sha Demo.record_json Demo.envelope_json
    Demo.envelope_of_json demo_serde t t 100000 100000 _ _ 1 1 (last_hash Demo.one) false false _ _ _ _).
  - intros x. apply length_be_bytes.
  - vm_compute. reflexivity.
  - vm_compute. reflexivity.
  - intros r Hr s Hs. assert (r = Demo.event "a") as -> by set_solver.
    assert (s = Demo.unwrap (Demo.record_json (Demo.event "a"))) as -> by by rewrite Hs.
    vm_compute. discriminate.
Defined.

Lemma unsynced_append_breaks_the_chain_witness :
  let j1 := (Demo.append (Demo.io (Unsynced "i/o error")) (Demo.event "b") Demo.start).2 in
  let j2 := (Demo.append (Demo.io Appended) (Demo.event "c") j1).2 in
  (Demo.append (Demo.io (Unsynced "i/o error")) (Demo.event "b") Demo.start).1 =
    Err (journal_message "sync_record" "i/o error") ∧
  (Demo.append (Demo.io Appended) (Demo.event "c") j1).1 = Ok () ∧
  Demo.open Demo.open_io 2 1000000 (Some (file j2)) =
    (Err (journal_message "validate_hash_chain" "operational journal hash chain mismatch"),
     Some (file j2)).
Proof.
  apply (unsynced_append_breaks_the_chain Demo.sha Demo.record_json Demo.envelope_json
    Demo.envelope_of_json demo_serde (Demo.io (Unsynced "i/o error")) (Demo.io Appended) Demo.open_io (Demo.event "b")
    (Demo.event "c") "i/o error"%string Demo.start demo_opens).
  - vm_compute. reflexivity.
  - vm_compute. reflexivity.
  - vm_compute. reflexivity.
  - reflexivity.
  - split_and!; done.
  - vm_compute. reflexivity.
  - vm_compute. reflexivity.
  - intros bytes line Hb Hl.
    assert (bytes = Demo.unwrap (Demo.record_json (Demo.event "c"))) as -> by by rewrite Hb.
    match type of Hl with ?e = _ => assert (line = Demo.unwrap e) as -> by by rewrite Hl end.
    vm_compute. discriminate.
  - split; vm_compute; discriminate.
Defined.
