(* ===== verification/Idempotency.v ===== *)
(** Idempotency stores ([crates/appcore-core/src/idempotency.rs]): the
    interface the controller uses, the process-local map, and the append-only
    file with its compaction and recovery. JSON, the clock and the outcomes of
    the file system are inputs. *)

From S2P Require Import Prelude.
From S2P Require Import Text.
From S2P Require Import Types.
From S2P Require Import DemoText.
From S2P Require Import Disk.

Local Open Scope N_scope.

Definition IDEMPOTENCY_FORMAT_V1 : string := "# appcore-idempotency-v1".
Definition MAX_IDEMPOTENCY_FILE_BYTES : N := 64 * 1024 * 1024.

Inductive IdempotencyStatus :=
| Pending
| Resolved (response_status : N) (response_body : string).
#[export] Instance IdempotencyStatus_eq_dec : EqDecision IdempotencyStatus.
Proof. solve_decision. Defined.

Record IdempotencyRecord := {
  key : string;
  request_hash : string;
  status : IdempotencyStatus;
  created_at_ms : N;
}.
#[export] Instance IdempotencyRecord_eq_dec : EqDecision IdempotencyRecord.
Proof. solve_decision. Defined.
#[export] Instance IdempotencyRecord_countable : Countable IdempotencyRecord.
Proof.
  apply (inj_countable'
    (λ r, (key r, request_hash r,
           match status r with Pending => None | Resolved n b => Some (n, b) end, created_at_ms r))
    (λ '(k, h, s, n), Build_IdempotencyRecord k h
       match s with None => Pending | Some (m, b) => Resolved m b end n)). by intros [?? [] ?].
Defined.

Definition is_resolved (r : IdempotencyRecord) : bool :=
  match status r with Pending => false | Resolved _ _ => true end.

Definition map_idempotency_io (operation message : string) : RuntimeError :=
  IdempotencyStoreIo operation message.
Definition corrupt_idempotency (message : string) : RuntimeError :=
  IdempotencyStoreIo "validate_store" message.

Definition validate_key (k : string) : RuntimeResult () :=
  match validate_identifier "IdempotencyKey" k with
  | Ok _ => Ok ()
  | Err (InvalidIdentifier _ _ "empty") => Err (InvalidIdempotencyKey "empty")
  | Err _ => Err (InvalidIdempotencyKey "invalid_char")
  end.

Definition is_expired (created : N) (ttl : option N) (now : N) : bool :=
  if created =? 0 then false
  else match ttl with Some ttl => ttl <? now - created | None => false end.

(** ** The interface

    What a call meets outside the store (the clock, the file system) is an
    element of [store_env]. *)

Class IdempotencyStore (S : Type) := {
  store_env : Type;
  store_get : store_env → S → string → RuntimeResult (option IdempotencyRecord);
  store_insert : store_env → IdempotencyRecord → op S RuntimeError ();
  store_remove : store_env → string → op S RuntimeError ();
  store_len : store_env → S → N;
}.

(** What the controller relies on: the store is a map of valid keys, an insert
    that fails leaves it alone, and a removal takes effect in memory even when
    it cannot be made durable. *)
Class IdempotencyLaws (S : Type) `{IdempotencyStore S} := {
  store_ok : S → Prop;
  store_view : S → gmap string IdempotencyRecord;
  law_get e s k : store_ok s → store_get e s k = Ok (store_view s !! k);
  law_insert e r s : store_ok s →
    let '(res, s') := store_insert e r s in
    store_ok s' ∧ store_view s' = if is_ok res then <[key r := r]> (store_view s) else store_view s;
  law_remove e k s : store_ok s →
    let '(_, s') := store_remove e k s in
    store_ok s' ∧ store_view s' = delete k (store_view s);
}.

(** ** [InMemoryIdempotencyStore] *)

Module Memory.
Abbreviation t := (gmap string IdempotencyRecord).

Definition get (s : t) (k : string) : RuntimeResult (option IdempotencyRecord) := Ok (s !! k).
Definition insert (r : IdempotencyRecord) : op t RuntimeError () :=
  _ ← op_lift (validate_key (key r));
  op_modify (λ s, <[key r := r]> s).
Definition remove (k : string) : op t RuntimeError () := op_modify (λ s, delete k s).
Definition len (s : t) : N := sizeN s.
End Memory.

#[export] Instance memory_store : IdempotencyStore Memory.t := {
  store_env := ();
  store_get _ := Memory.get;
  store_insert _ := Memory.insert;
  store_remove _ := Memory.remove;
  store_len _ := Memory.len;
}.

#[export] Instance memory_laws : IdempotencyLaws Memory.t.
Proof.
  refine {| store_ok := λ _, True; store_view := λ s, s |}.
  - done.
  - intros [] r s _. cbn [store_insert memory_store]. unfold Memory.insert.
    by destruct (validate_key (key r)) as [[]|?].
  - done.
Defined.

(** ** [FileIdempotencyStore] *)

Module FileStore.
Record t := {
  ttl_ms : option N;
  seen : gmap string IdempotencyRecord;
  file : string;
}.
Definition with_seen (s : t) (m : gmap string IdempotencyRecord) : t :=
  {| ttl_ms := ttl_ms s; seen := m; file := file s |}.

(** The steps of [rewrite_entries] that can fail: up to the format line, each
    row, and from the sync of the temporary file on. *)
Record RewriteIo := {
  prepared : RuntimeResult ();
  row_written : nat → RuntimeResult ();
  finished : AtomicWrite;
}.
Record Io := {
  now : N;
  appended : Append;
  rewritten : RewriteIo;
}.
(** Opening: the parent directory, the metadata (with the symbolic link
    check), and the read itself. *)
Record OpenIo := {
  ensure_parent_dir : RuntimeResult ();
  inspected : RuntimeResult ();
  read : RuntimeResult ();
  create : RewriteIo;
  recover : RewriteIo;
}.

Section FileStore.
Context (to_json : IdempotencyRecord → result string string).
Context (of_json : string → option IdempotencyRecord).

Definition serialize (r : IdempotencyRecord) : RuntimeResult string :=
  map_err (map_idempotency_io "serialize_store_entry") (to_json r).

Definition parse_idempotency_record (line : string) : RuntimeResult IdempotencyRecord :=
  if str_prefix "{" line then ok_or (corrupt_idempotency "invalid JSON record") (of_json line)
  else Err (corrupt_idempotency "NO MORE SUPPORTED PLEASE UPDATE").

Definition split_idempotency_format (text : string) : RuntimeResult string :=
  let header := IDEMPOTENCY_FORMAT_V1 +:+ String LF EmptyString in
  if str_prefix header text then Ok (str_drop (String.length header) text)
  else if bool_decide (text = IDEMPOTENCY_FORMAT_V1) then Ok EmptyString
  else Err (corrupt_idempotency "NO MORE SUPPORTED PLEASE UPDATE").

(** The loop of [load_entries]. *)
Fixpoint load_rows (rows : list string) (m : gmap string IdempotencyRecord) :
    RuntimeResult (gmap string IdempotencyRecord) :=
  match rows with
  | [] => Ok m
  | line :: rows' =>
    let trimmed := trim line in
    if bool_decide (trimmed = EmptyString) then load_rows rows' m
    else
      r ← parse_idempotency_record trimmed;
      _ ← validate_key (key r);
      load_rows rows' (if is_resolved r then <[key r := r]> m else m)
  end.

(** The records, and whether a torn line was dropped. *)
Definition load_entries (io : OpenIo) (text : string) :
    RuntimeResult (gmap string IdempotencyRecord * bool) :=
  _ ← inspected io;
  if MAX_IDEMPOTENCY_FILE_BYTES <? str_len text then
    Err (corrupt_idempotency "store exceeds size limit")
  else
    _ ← read io;
    if negb (utf8_valid text) then
      Err (map_idempotency_io "read_store" "stream did not contain valid UTF-8")
    else
      body ← split_idempotency_format text;
      let '(complete, recovered_tail) := complete_line_prefix body in
      m ← load_rows (lines complete) ∅;
      Ok (m, recovered_tail).

Definition append_entry (a : Append) (r : IdempotencyRecord) : op string RuntimeError () :=
  match a with
  | OpenFailed m => op_fail (map_idempotency_io "open_store_for_append" m)
  | _ =>
    line ← op_lift (serialize r);
    append_text map_idempotency_io "open_store_for_append" "append_store_entry" "sync_store_entry" a
      (line +:+ String LF EmptyString)
  end.

(** The rows after the format line. *)
Fixpoint rows_text (io : RewriteIo) (i : nat) (rows : list IdempotencyRecord) : RuntimeResult string :=
  match rows with
  | [] => Ok EmptyString
  | r :: rows' =>
    line ← serialize r;
    _ ← row_written io i;
    text ← rows_text io (S i) rows';
    Ok (line +:+ String LF text)
  end.
Definition rewrite_entries (io : RewriteIo) (m : gmap string IdempotencyRecord) :
    op string RuntimeError () :=
  _ ← op_lift (prepared io);
  text ← op_lift (rows_text io 0 (btree_iter m).*2);
  atomic_write map_idempotency_io (finished io) (IDEMPOTENCY_FORMAT_V1 +:+ String LF text).

(** The file at the path, which a rewrite creates: it never writes an empty
    text. *)
Definition at_path (o : op string RuntimeError ()) : op (option string) RuntimeError () := λ disk,
  let '(res, text) := o (default EmptyString disk) in
  (res, if bool_decide (text = EmptyString) then disk else Some text).

Definition new_with_ttl (io : OpenIo) (ttl : option N) : op (option string) RuntimeError t :=
  _ ← op_lift (ensure_parent_dir io);
  disk ← op_get;
  _ ← match disk with None => at_path (rewrite_entries (create io) ∅) | Some _ => mret () end;
  disk ← op_get;
  '(m, needs_rewrite) ← op_lift (load_entries io (default EmptyString disk));
  _ ← if needs_rewrite : bool then at_path (rewrite_entries (recover io) m) else mret ();
  disk ← op_get;
  mret {| ttl_ms := match ttl with Some 0 => None | other => other end;
          seen := m; file := default EmptyString disk |}.

Definition on_file (o : op string RuntimeError ()) : op t RuntimeError () := λ s,
  let '(res, text) := o (file s) in (res, {| ttl_ms := ttl_ms s; seen := seen s; file := text |}).

Definition get (n : N) (s : t) (k : string) : RuntimeResult (option IdempotencyRecord) :=
  match seen s !! k with
  | Some r => if is_expired (created_at_ms r) (ttl_ms s) n then Ok None else Ok (Some r)
  | None => Ok None
  end.

Definition insert (io : Io) (r : IdempotencyRecord) : op t RuntimeError () :=
  _ ← op_lift (validate_key (key r));
  _ ← on_file (append_entry (appended io) r);
  op_modify (λ s, with_seen s (<[key r := r]> (seen s))).

Definition len (n : N) (s : t) : N :=
  sizeN (filter (λ '(_, r), is_expired (created_at_ms r) (ttl_ms s) n = false) (seen s)).

Definition remove (io : Io) (k : string) : op t RuntimeError () :=
  s ← op_get;
  match seen s !! k with
  | Some _ =>
    let m := delete k (seen s) in
    _ ← op_modify (λ s, with_seen s m);
    on_file (rewrite_entries (rewritten io) m)
  | None => mret ()
  end.

Definition compact (io : Io) (now_ms : N) : op t RuntimeError N :=
  s ← op_get;
  let before := sizeN (seen s) in
  let m := filter (λ '(_, r), is_expired (created_at_ms r) (ttl_ms s) now_ms = false) (seen s) in
  _ ← op_modify (λ s, with_seen s m);
  _ ← on_file (rewrite_entries (rewritten io) m);
  mret (before - sizeN m).

Definition store : IdempotencyStore t := {|
  store_env := Io;
  store_get io := get (now io);
  store_insert := insert;
  store_remove := remove;
  store_len io := len (now io);
|}.

(** ** The interface, when records do not expire *)

Lemma on_file_run o s :
  on_file o s = ((o (file s)).1, {| ttl_ms := ttl_ms s; seen := seen s; file := (o (file s)).2 |}).
Proof. unfold on_file. by destruct (o (file s)). Qed.

Lemma insert_run io r s :
  ∃ text res, insert io r s =
    (res, {| ttl_ms := ttl_ms s; file := text;
             seen := if is_ok res then <[key r := r]> (seen s) else seen s |}).
Proof.
  unfold insert. destruct (validate_key (key r)) as [[]|e]; autorewrite with op;
    [|by exists (file s), (Err e); destruct s].
  destruct (append_entry (appended io) r (file s)) as [[[]|e] text] eqn:E; exists text.
  - exists (Ok ()). erewrite op_ok_bind by (rewrite on_file_run, E; reflexivity). done.
  - exists (Err e). erewrite op_err_bind by (rewrite on_file_run, E; reflexivity). done.
Qed.

Lemma remove_run io k s :
  ∃ text res, remove io k s = (res, {| ttl_ms := ttl_ms s; file := text; seen := delete k (seen s) |}).
Proof.
  unfold remove. autorewrite with op. destruct (seen s !! k) eqn:E; autorewrite with op.
  - rewrite on_file_run. eauto.
  - exists (file s), (Ok ()). rewrite delete_id by done. by destruct s.
Qed.

Definition laws : @IdempotencyLaws t store.
Proof.
  refine {| store_ok := λ s, ttl_ms s = None; store_view := seen |}.
  - intros io s k Hs. unfold store_get, store, get. rewrite Hs. unfold is_expired.
    destruct (seen s !! k); [by destruct (_ =? 0)|done].
  - intros io r s Hs. cbn [store_insert store].
    destruct (insert_run io r s) as (text & res & ->). done.
  - intros io k s Hs. cbn [store_remove store].
    destruct (remove_run io k s) as (text & res & ->). done.
Defined.

(** ** Durability *)

Inductive StoreCall :=
| CallInsert (r : IdempotencyRecord)
| CallRemove (k : string)
| CallCompact (now_ms : N).

Definition run_call (io : Io) (c : StoreCall) : op t RuntimeError () :=
  match c with
  | CallInsert r => insert io r
  | CallRemove k => remove io k
  | CallCompact n => _ ← compact io n; mret ()
  end.

(** What the calls mean: the records in memory, and those a restart keeps.
    Only resolved records are kept; one that is followed by a pending record
    of its key is forgotten when the file is next rewritten. *)
Record Contents := { live : gmap string IdempotencyRecord; durable : gmap string IdempotencyRecord }.

Definition resolved_only (m : gmap string IdempotencyRecord) : gmap string IdempotencyRecord :=
  filter (λ '(_, r), is_resolved r = true) m.
Definition rewritten_to (m : gmap string IdempotencyRecord) : Contents :=
  {| live := m; durable := resolved_only m |}.

Definition spec_call (ttl : option N) (c : StoreCall) (x : Contents) : Contents :=
  match c with
  | CallInsert r =>
    if is_ok (validate_key (key r)) then
      {| live := <[key r := r]> (live x);
         durable := if is_resolved r then <[key r := r]> (durable x) else durable x |}
    else x
  | CallRemove k => if live x !! k then rewritten_to (delete k (live x)) else x
  | CallCompact n =>
    rewritten_to (filter (λ '(_, r), is_expired (created_at_ms r) ttl n = false) (live x))
  end.

Definition healthy_rewrite (io : RewriteIo) : Prop :=
  prepared io = Ok () ∧ (∀ i, row_written io i = Ok ()) ∧ finished io = Written.
Definition healthy (io : Io) : Prop := appended io = Appended ∧ healthy_rewrite (rewritten io).
Definition opens (io : OpenIo) : Prop :=
  ensure_parent_dir io = Ok () ∧ inspected io = Ok () ∧ read io = Ok () ∧
  healthy_rewrite (create io) ∧ healthy_rewrite (recover io).

(** [serde_json] on records: it does not fail, reads back what it wrote, and
    writes one line, an object, of UTF-8 text. *)
Record serde_laws : Prop := {
  json_total : ∀ r, ∃ s, to_json r = Ok s;
  json_roundtrip : ∀ r s, to_json r = Ok s → of_json s = Some r;
  json_line : ∀ r s, to_json r = Ok s →
    str_prefix "{" s = true ∧ str_free LF s ∧ str_free CR s ∧ utf8_valid s = true ∧ trim s = s;
}.

Section Durable.
Context (L : serde_laws).

Definition all_written : RewriteIo :=
  {| prepared := Ok (); row_written := λ _, Ok (); finished := Written |}.

Lemma rows_text_healthy io i rs :
  healthy_rewrite io → rows_text io i rs = rows_text all_written 0 rs.
Proof.
  intros (_ & Hw & _). generalize 0%nat. revert i. induction rs as [|r rs IH]; intros i j; [done|].
  cbn [rows_text]. destruct (serialize r); [|done]. cbn [mbind result_bind]. rewrite Hw.
  cbn [mbind result_bind row_written all_written]. by rewrite (IH (S i) (S j)).
Qed.

Abbreviation text_of := (rows_text all_written 0).

Lemma text_of_cons r rs line :
  to_json r = Ok line → text_of (r :: rs) = (t ← text_of rs; Ok (line +:+ String LF t)).
Proof.
  intros Hl. cbn [rows_text]. unfold serialize. rewrite Hl. cbn [map_err mbind result_bind row_written all_written].
  by rewrite (rows_text_healthy all_written 1 rs).
Qed.

Lemma text_of_total rs : ∃ t, text_of rs = Ok t.
Proof.
  induction rs as [|r rs [t IH]]; [by eexists|]. destruct (json_total L r) as [line Hl].
  rewrite (text_of_cons r rs line Hl), IH. by eexists.
Qed.

Lemma text_of_snoc rs r t line :
  text_of rs = Ok t → to_json r = Ok line →
  text_of (rs ++ [r]) = Ok (t +:+ line +:+ String LF EmptyString).
Proof.
  revert t. induction rs as [|r0 rs IH]; intros t Ht Hl; cbn [app].
  - injection Ht as <-. by rewrite (text_of_cons _ _ line).
  - destruct (json_total L r0) as [line0 Hl0]. rewrite (text_of_cons _ rs line0) in Ht by done.
    rewrite (text_of_cons _ (rs ++ [r]) line0) by done.
    destruct (text_of rs) as [t0|]; [|done]. injection Ht as <-.
    rewrite (IH t0) by done. cbn [mbind result_bind]. by autorewrite with text.
Qed.

(** What reading a list of records makes of a map. *)
Definition replay (rs : list IdempotencyRecord) (m : gmap string IdempotencyRecord) :
    gmap string IdempotencyRecord :=
  foldl (λ m r, if is_resolved r then <[key r := r]> m else m) m rs.

Definition keyed (rs : list IdempotencyRecord) : Prop :=
  ∀ r, r ∈ rs → validate_key (key r) = Ok ().

Lemma load_text rs t torn :
  text_of rs = Ok t → keyed rs → str_free LF torn →
  split_last_line (t +:+ torn) = (t, torn) ∧ utf8_valid t = true ∧
  ∀ m, load_rows (lines t) m = Ok (replay rs m).
Proof.
  revert t. induction rs as [|r rs IH]; intros t Ht Hk Hf.
  - injection Ht as <-. rewrite string_app_nil. by rewrite split_last_line_free.
  - destruct (json_total L r) as [line Hl]. rewrite (text_of_cons _ _ line) in Ht by done.
    destruct (text_of rs) as [t1|]; [|done]. injection Ht as <-.
    destruct (IH t1 eq_refl) as (Hs & Hu & Hm); [intros r' ?; apply Hk; by right|done|].
    destruct (json_line L _ _ Hl) as (Hp & Hlf & Hcr & Hu' & Htr). autorewrite with text. split_and!.
    + rewrite split_last_line_app. by rewrite Hs.
    + by rewrite utf8_valid_app.
    + intros m. rewrite lines_cons by done. cbn [load_rows]. rewrite Htr.
      rewrite bool_decide_eq_false_2 by (intros ->; vm_compute in Hp; done).
      unfold parse_idempotency_record. rewrite Hp, (json_roundtrip L _ _ Hl).
      cbn [ok_or mbind result_bind]. rewrite (Hk r) by (by left). cbn [mbind result_bind]. apply Hm.
Qed.

Lemma replay_lookup (l : list (string * IdempotencyRecord)) m k :
  NoDup l.*1 → (∀ k r, (k, r) ∈ l → key r = k) →
  replay l.*2 m !! k =
  match list_to_map (M := gmap string IdempotencyRecord) l !! k with
  | Some r => if is_resolved r then Some r else m !! k
  | None => m !! k
  end.
Proof.
  revert m. induction l as [|[k1 r1] l IH]; intros m Hn Hk; [done|].
  apply NoDup_cons in Hn as [Hn1 Hn]. cbn [fmap list_fmap snd fst replay foldl list_to_map foldr].
  fold (replay l.*2 (if is_resolved r1 then <[key r1 := r1]> m else m)).
  rewrite IH; [|done|intros k' r' ?; apply Hk; by right].
  rewrite (Hk k1 r1) by (by left). cbn [uncurry]. destruct (decide (k = k1)) as [->|Hne].
  - rewrite lookup_insert_eq. rewrite not_elem_of_list_to_map_1 by done.
    destruct (is_resolved r1); [by rewrite lookup_insert_eq|done].
  - rewrite lookup_insert_ne by done. destruct (is_resolved r1); [|done].
    by rewrite lookup_insert_ne.
Qed.

Definition keyed_map (m : gmap string IdempotencyRecord) : Prop :=
  ∀ k r, m !! k = Some r → key r = k ∧ validate_key k = Ok ().

Lemma replay_rows m : keyed_map m → replay (btree_iter m).*2 ∅ = resolved_only m.
Proof.
  intros Hm. apply map_eq. intros k. rewrite replay_lookup; cycle 1.
  { apply btree_iter_nodup. }
  { intros k' r. rewrite btree_iter_elem. apply Hm. }
  rewrite (list_to_map_proper (btree_iter m) (map_to_list m)); cycle 1.
  { apply btree_iter_nodup. }
  { apply btree_iter_perm. }
  rewrite list_to_map_to_list, lookup_empty. unfold resolved_only. rewrite map_lookup_filter.
  destruct (m !! k) as [r|]; [|done]. cbn [mbind option_bind].
  case_guard; destruct (is_resolved r); done.
Qed.

(** The file of [s] is a list of rows that a restart reads as [x]. *)
Record holds (s : t) (x : Contents) : Prop := {
  holds_live : seen s = live x;
  holds_keyed : keyed_map (live x);
  holds_file : ∃ rs text, text_of rs = Ok text ∧ keyed rs ∧ replay rs ∅ = durable x ∧
    file s = IDEMPOTENCY_FORMAT_V1 +:+ String LF text;
}.

Lemma rewrite_run io m text :
  healthy_rewrite io → keyed_map m →
  ∃ rs t, text_of rs = Ok t ∧ keyed rs ∧ replay rs ∅ = resolved_only m ∧
    rewrite_entries io m text = (Ok (), IDEMPOTENCY_FORMAT_V1 +:+ String LF t).
Proof.
  intros Hio Hm. pose proof Hio as (H1 & _ & H3). exists (btree_iter m).*2.
  destruct (text_of_total (btree_iter m).*2) as [t Ht]. exists t. split_and!; [done| |by apply replay_rows|].
  - intros r. rewrite list_elem_of_fmap. intros ([k r'] & -> & Hr). apply btree_iter_elem in Hr.
    simpl. by destruct (Hm _ _ Hr) as [-> ?].
  - unfold rewrite_entries. rewrite H1. autorewrite with op.
    rewrite (rows_text_healthy io), Ht by done. autorewrite with op. by rewrite H3.
Qed.

Lemma keyed_map_filter P `{∀ x, Decision (P x)} m : keyed_map m → keyed_map (filter P m).
Proof. intros Hm k r [Hr _]%map_lookup_filter_Some. by apply Hm. Qed.
Lemma keyed_map_delete k m : keyed_map m → keyed_map (delete k m).
Proof. intros Hm k' r [_ Hr]%lookup_delete_Some. by apply Hm. Qed.

Lemma rewrite_holds io m s :
  healthy_rewrite io → keyed_map m →
  ∃ s', on_file (rewrite_entries io m) (with_seen s m) = (Ok (), s') ∧
    holds s' (rewritten_to m) ∧ ttl_ms s' = ttl_ms s.
Proof.
  intros Hio Hm. destruct (rewrite_run io m (file s) Hio Hm) as (rs & t & Ht & Hk & Hr & E).
  rewrite on_file_run. cbn [file with_seen ttl_ms seen]. rewrite E. eexists. split; [done|].
  split; [|done]. split; [done|done|]. exists rs, t. done.
Qed.

Lemma call_holds io c s x :
  healthy io → holds s x →
  holds (run_call io c s).2 (spec_call (ttl_ms s) c x) ∧ ttl_ms (run_call io c s).2 = ttl_ms s.
Proof.
  intros [Ha Hw] Hs. pose proof Hs as [Hl Hk (rs & text & Ht & Hrs & Hd & Hf)].
  destruct c as [r|k|n]; cbn [run_call spec_call].
  - unfold insert. destruct (validate_key (key r)) as [[]|e] eqn:Hv; autorewrite with op; [|done].
    destruct (json_total L r) as [line Hj].
    erewrite op_ok_bind; cycle 1.
    { rewrite on_file_run. unfold append_entry. rewrite Ha. unfold serialize. rewrite Hj. cbn [map_err].
      autorewrite with op. cbn [append_text op_modify]. reflexivity. }
    cbn [op_modify snd is_ok fst]. split; [|done]. split; cbn [live durable].
    + cbn [seen with_seen]. by rewrite Hl.
    + intros k r'. destruct (decide (k = key r)) as [->|?].
      * rewrite lookup_insert_eq. by intros [= <-].
      * rewrite lookup_insert_ne by done. apply Hk.
    + exists (rs ++ [r]), (text +:+ line +:+ String LF EmptyString). split_and!.
      * by apply text_of_snoc.
      * intros r' [?|Hr']%elem_of_app; [by apply Hrs|]. by apply list_elem_of_singleton in Hr' as ->.
      * unfold replay. rewrite foldl_app. cbn [foldl]. fold (replay rs ∅). by rewrite Hd.
      * cbn [file with_seen]. rewrite Hf. by autorewrite with text.
  - unfold remove. autorewrite with op. rewrite Hl. destruct (live x !! k) eqn:E; [|by autorewrite with op].
    autorewrite with op.
    destruct (rewrite_holds (rewritten io) (delete k (live x)) s) as (s' & Hr & Hh & ?);
      [done|by apply keyed_map_delete|]. rewrite Hr. done.
  - unfold compact. rewrite op_bind_assoc, op_get_bind, op_bind_assoc, op_modify_bind, op_bind_assoc, Hl.
    destruct (rewrite_holds (rewritten io) (filter (λ '(_, r), is_expired (created_at_ms r) (ttl_ms s) n = false) (live x)) s)
      as (s' & Hr & Hh & ?); [done|by apply keyed_map_filter|].
    rewrite (op_ok_bind _ _ _ _ _ Hr). done.
Qed.

Fixpoint run_calls (io : Io) (l : list StoreCall) (s : t) : t :=
  match l with [] => s | c :: l' => run_calls io l' (run_call io c s).2 end.
Fixpoint spec_calls (ttl : option N) (l : list StoreCall) (x : Contents) : Contents :=
  match l with [] => x | c :: l' => spec_calls ttl l' (spec_call ttl c x) end.

Lemma calls_hold io l s x :
  healthy io → holds s x →
  holds (run_calls io l s) (spec_calls (ttl_ms s) l x) ∧ ttl_ms (run_calls io l s) = ttl_ms s.
Proof.
  intros Hio. revert s x. induction l as [|c l IH]; intros s x Hs; [done|]. cbn [run_calls spec_calls].
  destruct (call_holds io c s x Hio Hs) as [H1 H2].
  destruct (IH _ _ H1) as [H3 H4]. rewrite H2 in H3. split; [done|congruence].
Qed.

Lemma replay_keyed rs m : keyed rs → keyed_map m → keyed_map (replay rs m).
Proof.
  revert m. induction rs as [|r rs IH]; intros m Hrs Hm; [done|]. apply IH.
  { intros r' ?. apply Hrs. by right. }
  destruct (is_resolved r); [|done]. intros k r'. destruct (decide (k = key r)) as [->|?].
  - rewrite lookup_insert_eq. intros [= <-]. split; [done|]. apply Hrs. by left.
  - rewrite lookup_insert_ne by done. apply Hm.
Qed.

Lemma replay_resolved rs m : resolved_only m = m → resolved_only (replay rs m) = replay rs m.
Proof.
  revert m. induction rs as [|r rs IH]; intros m Hm; [done|]. apply IH.
  destruct (is_resolved r) eqn:E; [|done]. unfold resolved_only in *.
  rewrite map_filter_insert_True by done. by rewrite Hm.
Qed.

Lemma at_path_run o disk t :
  (o (default EmptyString disk)).2 = t → t ≠ EmptyString → at_path o disk = ((o (default EmptyString disk)).1, Some t).
Proof.
  intros Ht Hne. unfold at_path. destruct (o _) as [res t']. simpl in *. subst t'.
  by rewrite bool_decide_eq_false_2.
Qed.

Definition normal_ttl (ttl : option N) : option N :=
  match ttl with Some 0 => None | other => other end.

Lemma load_held io s x torn :
  inspected io = Ok () → read io = Ok () → holds s x → str_free LF torn →
  str_len (file s +:+ torn) ≤ MAX_IDEMPOTENCY_FILE_BYTES →
  load_entries io (file s +:+ torn) =
  if utf8_valid torn then Ok (durable x, negb (bool_decide (torn = EmptyString)))
  else Err (map_idempotency_io "read_store" "stream did not contain valid UTF-8").
Proof.
  intros H1 H2 [_ _ (rs & text & Ht & Hrs & Hd & Hf)] Hfree Hlen.
  unfold load_entries. rewrite H1, H2. cbn [mbind result_bind]. rewrite (proj2 (N.ltb_ge _ _) Hlen).
  set (header := IDEMPOTENCY_FORMAT_V1 +:+ String LF EmptyString).
  assert (file s +:+ torn = header +:+ text +:+ torn) as ->
    by (subst header; rewrite Hf; by autorewrite with text).
  destruct (load_text rs text torn Ht Hrs Hfree) as (Hs & Hu & Hm).
  rewrite utf8_valid_app, utf8_valid_app by done. destruct (utf8_valid torn); [|done].
  cbn [negb]. unfold split_idempotency_format. fold header.
  rewrite (proj2 (str_prefix_spec header _)) by eauto. cbn [mbind result_bind].
  rewrite str_drop_app. unfold complete_line_prefix. rewrite Hs, Hm. cbn [mbind result_bind]. by rewrite Hd.
Qed.

Lemma reopen oio ttl s x torn :
  opens oio → holds s x → str_free LF torn → str_len (file s +:+ torn) ≤ MAX_IDEMPOTENCY_FILE_BYTES →
  utf8_valid torn = true →
  ∃ s2, new_with_ttl oio ttl (Some (file s +:+ torn)) = (Ok s2, Some (file s2)) ∧
    holds s2 (rewritten_to (durable x)) ∧ ttl_ms s2 = normal_ttl ttl.
Proof.
  intros (O1 & O2 & O3 & _ & O5) Hs Hfree Hlen Hu.
  pose proof (load_held oio s x torn O2 O3 Hs Hfree Hlen) as Hload. rewrite Hu in Hload.
  pose proof Hs as [_ _ (rs & text & Ht & Hrs & Hd & Hf)].
  assert (keyed_map (durable x)) as Hkm by (rewrite <- Hd; by apply replay_keyed).
  assert (resolved_only (durable x) = durable x) as Hro by (rewrite <- Hd; by apply replay_resolved).
  unfold new_with_ttl. rewrite O1. autorewrite with op.
  change (default EmptyString (Some (file s +:+ torn))) with (file s +:+ torn). rewrite Hload.
  autorewrite with op. destruct (bool_decide_reflect (torn = EmptyString)) as [->|Hne]; cbn [negb].
  - autorewrite with op. rewrite string_app_empty_r. exists {| ttl_ms := normal_ttl ttl; seen := durable x; file := file s |}.
    split; [done|]. split; [|done].
    split; [done|done|]. exists rs, text. split_and!; [done|done| |done].
    cbn [durable rewritten_to]. by rewrite Hd.
  - destruct (rewrite_run (recover oio) (durable x) (file s +:+ torn) O5 Hkm) as (rs' & t' & Ht' & Hrs' & Hd' & E).
    erewrite op_ok_bind; cycle 1.
    { rewrite (at_path_run _ _ (IDEMPOTENCY_FORMAT_V1 +:+ String LF t')); [|by cbn; rewrite E|done].
      cbn. by rewrite E. }
    autorewrite with op. exists {| ttl_ms := normal_ttl ttl; seen := durable x; file := IDEMPOTENCY_FORMAT_V1 +:+ String LF t' |}.
    split; [done|]. split; [|done]. split; [done|done|].
    exists rs', t'. done.
Qed.

Lemma open_new oio ttl :
  opens oio →
  ∃ s, new_with_ttl oio ttl None = (Ok s, Some (file s)) ∧ holds s (rewritten_to ∅) ∧
    ttl_ms s = normal_ttl ttl.
Proof.
  intros Hio. pose proof Hio as (O1 & O2 & O3 & O4 & O5).
  destruct (rewrite_run (create oio) ∅ EmptyString O4) as (rs & t1 & Ht & Hrs & Hd & E).
  { by intros k r. }
  assert (Hempty : resolved_only ∅ = ∅) by apply map_filter_empty. rewrite Hempty in Hd.
  set (s := {| ttl_ms := normal_ttl ttl; seen := ∅; file := IDEMPOTENCY_FORMAT_V1 +:+ String LF t1 |}).
  assert (holds s (rewritten_to ∅)) as Hs.
  { split; [done|by intros k r|]. exists rs, t1. cbn [durable rewritten_to]. by rewrite Hempty. }
  exists s. split; [|done].
  assert (t1 = EmptyString) as Ht1.
  { pose proof E as E'. unfold rewrite_entries in E'. destruct O4 as (P1 & _ & P3). rewrite P1 in E'.
    autorewrite with op in E'. change (btree_iter ∅).*2 with (@nil IdempotencyRecord) in E'.
    cbn [rows_text] in E'. autorewrite with op in E'. rewrite P3 in E'. cbn [atomic_write op_modify] in E'.
    by injection E' as <-. }
  pose proof (load_held oio s (rewritten_to ∅) EmptyString O2 O3 Hs I) as Hload.
  rewrite string_app_empty_r in Hload. unfold new_with_ttl. rewrite O1. autorewrite with op.
  erewrite op_ok_bind; cycle 1.
  { rewrite (at_path_run _ _ (file s)); [|by cbn; rewrite E|done]. cbn. by rewrite E. }
  autorewrite with op. change (default _ (Some _)) with (file s).
  rewrite Hload; [|subst s t1; vm_compute; discriminate]. autorewrite with op. cbn [rewritten_to durable].
  by rewrite Hempty.
Qed.


Lemma load_rows_app rs t m rows :
  text_of rs = Ok t → keyed rs → load_rows (lines t ++ rows) m = load_rows rows (replay rs m).
Proof.
  revert t m. induction rs as [|r rs IH]; intros t m Ht Hk.
  - injection Ht as <-. done.
  - destruct (json_total L r) as [line Hl]. rewrite (text_of_cons _ _ line) in Ht by done.
    destruct (text_of rs) as [t1|]; [|done]. injection Ht as <-.
    destruct (json_line L _ _ Hl) as (Hp & Hlf & Hcr & _ & Htr).
    rewrite lines_cons by done. cbn [app load_rows]. rewrite Htr.
    rewrite bool_decide_eq_false_2 by (intros ->; vm_compute in Hp; done).
    unfold parse_idempotency_record. rewrite Hp, (json_roundtrip L _ _ Hl).
    cbn [ok_or mbind result_bind]. rewrite (Hk r) by (by left). cbn [mbind result_bind].
    apply IH; [done|]. intros r' ?. apply Hk. by right.
Qed.

Lemma lines_text_app rs t u :
  text_of rs = Ok t → lines (t +:+ u) = lines t ++ lines u.
Proof.
  revert t. induction rs as [|r rs IH]; intros t Ht.
  - injection Ht as <-. done.
  - destruct (json_total L r) as [line Hl]. rewrite (text_of_cons _ _ line) in Ht by done.
    destruct (text_of rs) as [t1|]; [|done]. injection Ht as <-.
    destruct (json_line L _ _ Hl) as (_ & Hlf & Hcr & _). autorewrite with text.
    rewrite !lines_cons by done. cbn [app]. f_equal. by apply IH.
Qed.

(** A failed append poisons the file. When an insert fails after writing
    part of its line and a later insert succeeds, the later line is glued to
    the torn one; unless the two happen to form a record together, the store
    cannot be opened any more, and every record in it is lost. *)
Theorem insert_after_torn_append_loses_file io io2 oio ttl s x r r2 n e :
  opens oio → holds s x →
  validate_key (key r) = Ok () → validate_key (key r2) = Ok () →
  appended io = Torn n e → appended io2 = Appended →
  ∃ line line2, to_json r = Ok line ∧ to_json r2 = Ok line2 ∧
    let s1 := (insert io r s).2 in
    let s2 := (insert io2 r2 s1).2 in
    let glued := str_take n line +:+ line2 in
    (insert io r s).1 = Err (map_idempotency_io "append_store_entry" e) ∧
    (insert io2 r2 s1).1 = Ok () ∧
    ((0 < n ≤ String.length line)%nat → utf8_valid glued = true → trim glued = glued → of_json glued = None →
     str_len (file s2) ≤ MAX_IDEMPOTENCY_FILE_BYTES →
     new_with_ttl oio ttl (Some (file s2)) =
       (Err (corrupt_idempotency "invalid JSON record"), Some (file s2))).
Proof.
  intros (O1 & O2 & O3 & _) [_ _ (rs & text & Ht & Hrs & _ & Hf)] Hv Hv2 Ha Ha2.
  destruct (json_total L r) as [line Hl], (json_total L r2) as [line2 Hl2].
  exists line, line2. split; [done|]. split; [done|]. intros s1 s2 glued.
  assert (E1 : insert io r s = (Err (map_idempotency_io "append_store_entry" e),
    {| ttl_ms := ttl_ms s; seen := seen s;
       file := file s +:+ str_take n (line +:+ String LF EmptyString) |})).
  { unfold insert. rewrite Hv. autorewrite with op. erewrite op_err_bind; [done|].
    rewrite on_file_run. unfold append_entry. rewrite Ha. unfold serialize. rewrite Hl.
    cbn [map_err]. by autorewrite with op. }
  assert (E2 : insert io2 r2 s1 = (Ok (), {| ttl_ms := ttl_ms s; seen := <[key r2 := r2]> (seen s);
       file := (file s +:+ str_take n (line +:+ String LF EmptyString)) +:+
               line2 +:+ String LF EmptyString |})).
  { subst s1. rewrite E1. unfold insert. rewrite Hv2. autorewrite with op. erewrite op_ok_bind; cycle 1.
    { rewrite on_file_run. unfold append_entry. rewrite Ha2. unfold serialize. rewrite Hl2.
      cbn [map_err]. by autorewrite with op. }
    done. }
  split; [by rewrite E1|]. split; [by rewrite E2|]. intros Hn Hu Htr Hbad Hlen.
  subst s2. rewrite E2 in *. cbn [snd file] in *.
  rewrite str_take_app_le in * by lia. set (header := IDEMPOTENCY_FORMAT_V1 +:+ String LF EmptyString).
  assert (Hfile : (file s +:+ str_take n line) +:+ line2 +:+ String LF EmptyString =
    header +:+ text +:+ glued +:+ String LF EmptyString)
    by (subst header glued; rewrite Hf; by autorewrite with text).
  rewrite Hfile in *. destruct (json_line L _ _ Hl) as (Hp & Hlf & Hcr & _).
  destruct (json_line L _ _ Hl2) as (_ & Hlf2 & Hcr2 & _).
  assert (str_free LF glued ∧ str_free CR glued) as [Hg1 Hg2]
    by (subst glued; rewrite !str_free_app; auto using str_free_take).
  destruct (load_text rs text EmptyString Ht Hrs I) as (_ & Hut & _).
  unfold new_with_ttl. rewrite O1. autorewrite with op.
  change (default EmptyString (Some ?t)) with t.
  assert (load_entries oio (header +:+ text +:+ glued +:+ String LF EmptyString) =
    Err (corrupt_idempotency "invalid JSON record")) as ->; [|by autorewrite with op].
  unfold load_entries. rewrite O2, O3. cbn [mbind result_bind]. rewrite (proj2 (N.ltb_ge _ _) Hlen).
  rewrite !utf8_valid_app by done. cbn [utf8_valid negb]. unfold split_idempotency_format. fold header.
  rewrite (proj2 (str_prefix_spec header _)) by eauto. cbn [mbind result_bind].
  rewrite str_drop_app. unfold complete_line_prefix.
  destruct (split_last_line (text +:+ glued +:+ String LF EmptyString)) as [a b] eqn:Es.
  assert (a = text +:+ glued +:+ String LF EmptyString) as ->.
  { rewrite <- string_app_assoc, split_last_line_app in Es. injection Es as <- <-.
    by autorewrite with text. }
  rewrite (lines_text_app rs) by done. rewrite (load_rows_app rs text) by done.
  rewrite lines_cons by done. cbn [load_rows]. rewrite Htr.
  assert (str_prefix "{" glued = true) as Hpg.
  { subst glued. apply str_prefix_spec in Hp as [t ->]. destruct n; [lia|].
    rewrite string_app_cons. done. }
  rewrite (bool_decide_eq_false_2 (glued = EmptyString)) by (intros Hg; by rewrite Hg in Hpg).
  unfold parse_idempotency_record. rewrite Hpg, Hbad. done.
Qed.
End Durable.
End FileStore.
End FileStore.

(** ** Witnesses *)

Module Demo.
Import FileStore.
Definition to_json : IdempotencyRecord → result string string := to_text.
Definition of_json (s : string) : option IdempotencyRecord :=
  match of_text EmptyString s with Ok r => Some r | Err _ => None end.
Definition rewrite_io : RewriteIo :=
  {| prepared := Ok (); row_written := λ _, Ok (); finished := Written |}.
Definition io (a : Append) : Io := {| now := 5; appended := a; rewritten := rewrite_io |}.
Definition open_io : OpenIo :=
  {| ensure_parent_dir := Ok (); inspected := Ok (); read := Ok (); create := rewrite_io;
     recover := rewrite_io |}.
Definition record (k : string) (st : IdempotencyStatus) : IdempotencyRecord :=
  {| key := k; request_hash := "00"; status := st; created_at_ms := 1 |}.
Definition empty : t := {| ttl_ms := None; seen := ∅; file := "# appcore-idempotency-v1" +:+ String LF "" |}.
Definition calls : list StoreCall :=
  [CallInsert (record "a" Pending); CallInsert (record "a" (Resolved 200 "ok"));
   CallInsert (record "b" Pending)].
Lemma serde : serde_laws to_json of_json.
Proof.
  split.
  - intros r. by eexists.
  - intros r s Hs. unfold of_json. by rewrite (of_to_text EmptyString _ _ Hs).
  - intros r s Hs. destruct (to_text_line _ _ Hs) as (_ & ? & ? & ?). split_and!; try done.
    + by injection Hs as <-.
    + by apply (to_text_trim (E := string) r).
Qed.
Lemma empty_holds : holds to_json empty (rewritten_to ∅).
Proof. split; [done|by intros k r|]. exists [], EmptyString. split_and!; try done. by intros r ?%elem_of_nil. Qed.
Lemma opens_io : opens open_io.
Proof. done. Qed.
End Demo.


Lemma insert_after_torn_append_loses_file_witness :
  let s1 := (FileStore.insert Demo.to_json (Demo.io (Torn 4 "no space")) (Demo.record "a" Pending) Demo.empty).2 in
  let s2 := (FileStore.insert Demo.to_json (Demo.io Appended) (Demo.record "b" Pending) s1).2 in
  FileStore.new_with_ttl Demo.to_json Demo.of_json Demo.open_io None (Some (FileStore.file s2)) =
    (Err (corrupt_idempotency "invalid JSON record"), Some (FileStore.file s2)).
Proof.
  destruct (FileStore.insert_after_torn_append_loses_file Demo.to_json Demo.of_json Demo.serde
    (Demo.io (Torn 4 "no space")) (Demo.io Appended) Demo.open_io None Demo.empty (FileStore.rewritten_to ∅)
    (Demo.record "a" Pending) (Demo.record "b" Pending) 4 "no space"%string
    Demo.opens_io Demo.empty_holds eq_refl eq_refl eq_refl eq_refl) as (line & line2 & H1 & H2 & _ & _ & H).
  injection H1 as <-. injection H2 as <-.
  apply H.
  - split; apply Nat.leb_le; vm_compute; reflexivity.
  - vm_compute. reflexivity.
  - vm_compute. reflexivity.
  - vm_compute. reflexivity.
  - vm_compute. discriminate.
Defined.
