(* ===== verification/Operations.v ===== *)
(** The operational records of a runtime instance: the audit log
    ([crates/appcore-core/src/audit.rs]) and the event bus ([event_bus.rs]),
    with the durable journals they may be attached to. A journal is shared by
    reference, so the journals form a store of their own. *)

From S2P Require Import Prelude.
From S2P Require Import Types.
From S2P Require Import Redaction.
From S2P Require Import Records.
From S2P Require Import Journal.

Local Open Scope N_scope.

Definition MAX_AUDIT_RECORDS : nat := N.to_nat 10000.
Definition MAX_EVENTS : nat := N.to_nat 10000.

Record AuditLog := {
  audit_records : list AuditRecord;
  audit_entries : list AuditEntry;
  audit_journal : option nat;
  audit_journal_error : option string;
}.
Record EventBus := {
  bus_events : list EventEnvelope;
  bus_journal : option nat;
  bus_journal_error : option string;
}.
Record Operations := {
  audit_log : AuditLog;
  event_bus : EventBus;
  journals : gmap nat FileOperationalJournal;
}.
Definition audit_log_new : AuditLog :=
  {| audit_records := []; audit_entries := []; audit_journal := None; audit_journal_error := None |}.
Definition event_bus_new : EventBus :=
  {| bus_events := []; bus_journal := None; bus_journal_error := None |}.
Definition operations_new : Operations :=
  {| audit_log := audit_log_new; event_bus := event_bus_new; journals := ∅ |}.

Definition with_audit (o : Operations) (a : AuditLog) : Operations :=
  {| audit_log := a; event_bus := event_bus o; journals := journals o |}.
Definition with_bus (o : Operations) (b : EventBus) : Operations :=
  {| audit_log := audit_log o; event_bus := b; journals := journals o |}.

(** [pop_front] while the queue is full, then [push_back]. *)
Fixpoint pop_front_while {A} (fuel bound : nat) (l : list A) : list A :=
  match fuel with
  | O => l
  | S fuel' => if (bound <=? length l)%nat then pop_front_while fuel' bound (drop 1 l) else l
  end.
Definition push_bounded {A} (bound : nat) (a : A) (l : list A) : list A :=
  pop_front_while (length l) bound l ++ [a].

(** What an operation meets outside: the clock, and the file system of each
    journal append. *)
Record AuditIo := { completed_at : N; audit_append : AppendIo }.

Section Operations.
Context (sha256 : list byte → list byte).
Context (record_json : OperationalJournalRecord → result string string).
Context (envelope_json : JournalEnvelope → result string string).
(** [{error:?}]. *)
Context (debug : RuntimeError → string).

(** An append to the journal [j], and the failure to report. *)
Definition journal_append (io : AppendIo) (j : option nat) (r : OperationalJournalRecord)
    (js : gmap nat FileOperationalJournal) : option string * gmap nat FileOperationalJournal :=
  match j with
  | Some i =>
    match js !! i with
    | Some jr =>
      match append sha256 record_json envelope_json io r jr with
      | (Ok _, jr') => (None, <[i := jr']> js)
      | (Err e, jr') => (Some (redact_text (debug e)), <[i := jr']> js)
      end
    | None => (None, js)
    end
  | None => (None, js)
  end.

Definition push_entry (io : AuditIo) (e : AuditEntry) (o : Operations) : Operations :=
  let e := entry_with_message e (entry_message e) in
  let a := audit_log o in
  let '(failure, js) := journal_append (audit_append io) (audit_journal a) (JournalAudit e) (journals o) in
  {| audit_log :=
       {| audit_records := audit_records a;
          audit_entries := push_bounded MAX_AUDIT_RECORDS e (audit_entries a);
          audit_journal := audit_journal a;
          audit_journal_error := match failure with Some m => Some m | None => audit_journal_error a end |};
     event_bus := event_bus o; journals := js |}.

Definition redacted_record (r : AuditRecord) : AuditRecord :=
  {| audit_command_id := audit_command_id r; audit_command_name := audit_command_name r;
     audit_app_id := audit_app_id r; audit_node_id := audit_node_id r;
     audit_timestamp_ms := audit_timestamp_ms r; audit_outcome := audit_outcome r;
     audit_message := redact_text <$> audit_message r; audit_trace := audit_trace r |}.

(** The generic entry of a command record. *)
Definition command_entry (completed : N) (r : AuditRecord) : AuditEntry :=
  entry_with_trace
    (entry_with_message
       (entry_with_scope
          (audit_entry_new CategoryCommand (audit_command_id r) (audit_command_name r)
             (audit_timestamp_ms r) completed (audit_outcome r))
          (audit_app_id r) (audit_node_id r))
       (audit_message r))
    (audit_trace r).

Definition push (io : AuditIo) (r : AuditRecord) (o : Operations) : Operations :=
  let r := redacted_record r in
  let a := audit_log o in
  push_entry io (command_entry (completed_at io) r)
    (with_audit o
       {| audit_records := push_bounded MAX_AUDIT_RECORDS r (audit_records a);
          audit_entries := audit_entries a; audit_journal := audit_journal a;
          audit_journal_error := audit_journal_error a |}).

(** [AuditLog::attach_journal] and [EventBus::attach_journal]. *)
Definition attach_audit (i : nat) (o : Operations) : Operations :=
  match journals o !! i with
  | None => o
  | Some j =>
    let es := Journal.audit_entries j in
    with_audit o
      {| audit_records := audit_records (audit_log o);
         audit_entries := drop (length es - MAX_AUDIT_RECORDS) es;
         audit_journal := Some i; audit_journal_error := None |}
  end.
Definition attach_bus (i : nat) (o : Operations) : Operations :=
  match journals o !! i with
  | None => o
  | Some j =>
    let es := Journal.events j in
    with_bus o {| bus_events := drop (length es - MAX_EVENTS) es; bus_journal := Some i;
                  bus_journal_error := None |}
  end.

(** [EventBus::persist]. *)
Definition persist (io : AppendIo) (e : EventEnvelope) (o : Operations) : Operations :=
  let b := event_bus o in
  let '(failure, js) := journal_append io (bus_journal b) (JournalEvent e) (journals o) in
  {| audit_log := audit_log o;
     event_bus :=
       {| bus_events := bus_events b; bus_journal := bus_journal b;
          bus_journal_error := match failure with Some m => Some m | None => bus_journal_error b end |};
     journals := js |}.

Definition with_events (o : Operations) (l : list EventEnvelope) : Operations :=
  with_bus o {| bus_events := l; bus_journal := bus_journal (event_bus o);
                bus_journal_error := bus_journal_error (event_bus o) |}.

Definition emit (io : AppendIo) (e : EventEnvelope) (o : Operations) : Operations :=
  let o := persist io e o in
  let l := bus_events (event_bus o) in
  let l := if (MAX_EVENTS <=? length l)%nat then drop (length l - (MAX_EVENTS - 1)) l else l in
  with_events o (l ++ [e]).

Fixpoint persist_all (io : nat → AppendIo) (i : nat) (l : list EventEnvelope) (o : Operations) :
    Operations :=
  match l with
  | [] => o
  | e :: l' => persist_all io (S i) l' (persist (io i) e o)
  end.
Definition emit_many (io : nat → AppendIo) (es : list EventEnvelope) (o : Operations) : Operations :=
  let o := persist_all io 0 es o in
  let l := bus_events (event_bus o) ++ es in
  with_events o (if (MAX_EVENTS <? length l)%nat then drop (length l - MAX_EVENTS) l else l).

Definition clear (o : Operations) : Operations := with_events o [].

(** ** Bounded histories *)

(** The last [n] elements. *)
Definition last_of {A} (n : nat) (l : list A) : list A := drop (length l - n) l.

Lemma pop_front_while_spec {A} fuel bound (l : list A) :
  (0 < bound)%nat → (length l ≤ fuel)%nat → pop_front_while fuel bound l = last_of (bound - 1) l.
Proof.
  intros Hb. unfold last_of. revert l. induction fuel as [|fuel IH]; intros l Hl; cbn [pop_front_while].
  - destruct l; [done|simpl in Hl; lia].
  - destruct (Nat.leb_spec bound (length l)) as [H|H].
    + rewrite IH by (rewrite length_drop; lia). rewrite drop_drop, length_drop. f_equal. lia.
    + by replace (length l - (bound - 1))%nat with 0%nat by lia.
Qed.

Lemma last_of_snoc {A} n (l : list A) a :
  (0 < n)%nat → last_of n (l ++ [a]) = last_of (n - 1) (last_of n l) ++ [a].
Proof.
  intros Hn. unfold last_of. rewrite length_app, drop_drop, length_drop. simpl.
  rewrite drop_app_le by lia. f_equal. f_equal. lia.
Qed.

Lemma push_last_of {A} n (l : list A) a :
  (0 < n)%nat → push_bounded n a (last_of n l) = last_of n (l ++ [a]).
Proof.
  intros Hn. unfold push_bounded. rewrite pop_front_while_spec, last_of_snoc by done. done.
Qed.

Lemma last_of_app {A} n (l k : list A) : last_of n (last_of n l ++ k) = last_of n (l ++ k).
Proof.
  unfold last_of. rewrite !length_app, !length_drop.
  destruct (decide (length l ≤ n)%nat) as [H|H].
  - replace (length l - n)%nat with 0%nat by lia. rewrite drop_0. f_equal. lia.
  - rewrite <- drop_app_le, drop_drop by lia. f_equal. lia.
Qed.

Lemma drop_if_longer {A} n (l : list A) :
  (if (n <? length l)%nat then drop (length l - n) l else l) = last_of n l.
Proof.
  unfold last_of. destruct (Nat.ltb_spec n (length l)); [done|].
  by replace (length l - n)%nat with 0%nat by lia.
Qed.
Lemma drop_if_full {A} n (l : list A) :
  (0 < n)%nat → (if (n <=? length l)%nat then drop (length l - (n - 1)) l else l) = last_of (n - 1) l.
Proof.
  intros Hn. unfold last_of. destruct (Nat.leb_spec n (length l)); [done|].
  by replace (length l - (n - 1))%nat with 0%nat by lia.
Qed.

(** ** Calls *)

Inductive OperationCall :=
| PushRecord (io : AuditIo) (r : AuditRecord)
| PushEntry (io : AuditIo) (e : AuditEntry)
| Emit (io : AppendIo) (e : EventEnvelope)
| EmitMany (io : nat → AppendIo) (es : list EventEnvelope).

Definition run_operation (c : OperationCall) (o : Operations) : Operations :=
  match c with
  | PushRecord io r => push io r o
  | PushEntry io e => push_entry io e o
  | Emit io e => emit io e o
  | EmitMany io es => emit_many io es o
  end.

(** Everything a list of calls recorded. *)
Definition recorded_records (l : list OperationCall) : list AuditRecord :=
  c ← l; match c with PushRecord _ r => [redacted_record r] | _ => [] end.
Definition redacted_entry (e : AuditEntry) : AuditEntry := entry_with_message e (entry_message e).
Definition recorded_entries (l : list OperationCall) : list AuditEntry :=
  c ← l;
  match c with
  | PushRecord io r => [redacted_entry (command_entry (completed_at io) (redacted_record r))]
  | PushEntry _ e => [redacted_entry e]
  | _ => []
  end.
Definition recorded_events (l : list OperationCall) : list EventEnvelope :=
  c ← l; match c with Emit _ e => [e] | EmitMany _ es => es | _ => [] end.

Definition recent (l : list OperationCall) (o : Operations) : Prop :=
  audit_records (audit_log o) = last_of MAX_AUDIT_RECORDS (recorded_records l) ∧
  audit_entries (audit_log o) = last_of MAX_AUDIT_RECORDS (recorded_entries l) ∧
  bus_events (event_bus o) = last_of MAX_EVENTS (recorded_events l).

Lemma persist_events io e o :
  bus_events (event_bus (persist io e o)) = bus_events (event_bus o) ∧ audit_log (persist io e o) = audit_log o.
Proof. unfold persist. by destruct (journal_append _ _ _ _). Qed.
Lemma persist_all_events io i l o :
  bus_events (event_bus (persist_all io i l o)) = bus_events (event_bus o) ∧
  audit_log (persist_all io i l o) = audit_log o.
Proof.
  revert i o. induction l as [|e l IH]; intros i o; [done|]. cbn [persist_all].
  destruct (IH (S i) (persist (io i) e o)) as [-> ->]. apply persist_events.
Qed.
Lemma push_entry_run io e o :
  audit_records (audit_log (push_entry io e o)) = audit_records (audit_log o) ∧
  audit_entries (audit_log (push_entry io e o)) =
    push_bounded MAX_AUDIT_RECORDS (redacted_entry e) (audit_entries (audit_log o)) ∧
  event_bus (push_entry io e o) = event_bus o.
Proof. unfold push_entry. by destruct (journal_append _ _ _ _). Qed.

Lemma max_positive : (0 < MAX_AUDIT_RECORDS ∧ 0 < MAX_EVENTS)%nat.
Proof. unfold MAX_AUDIT_RECORDS, MAX_EVENTS. lia. Qed.

Lemma recent_snoc l c o : recent l o → recent (l ++ [c]) (run_operation c o).
Proof.
  pose proof max_positive as [HA HE]. intros (Hr & He & Hb). unfold recent.
  assert (∀ A (f : OperationCall → list A), (l ++ [c]) ≫= f = (l ≫= f) ++ f c) as Hs.
  { intros A f. rewrite bind_app. simpl. by rewrite app_nil_r. }
  unfold recorded_records, recorded_entries, recorded_events in *. rewrite !Hs.
  destruct c as [io r|io e|io e|io es]; cbn [run_operation]; rewrite ?app_nil_r.
  - unfold push. edestruct (push_entry_run io (command_entry (completed_at io) (redacted_record r)))
      as (-> & -> & ->). cbn [audit_log audit_records audit_entries event_bus with_audit].
    rewrite Hr, He, !push_last_of by done. done.
  - destruct (push_entry_run io e o) as (-> & -> & ->). rewrite He, push_last_of by done. done.
  - unfold emit. destruct (persist_events io e o) as [H1 H2].
    cbn [with_events with_bus event_bus bus_events audit_log]. rewrite H1, H2. split_and!; [done|done|].
    rewrite drop_if_full, Hb, last_of_snoc by done. done.
  - unfold emit_many. destruct (persist_all_events io 0 es o) as [H1 H2].
    cbn [with_events with_bus event_bus bus_events audit_log]. rewrite H1, H2. split_and!; [done|done|].
    rewrite drop_if_longer, Hb. apply last_of_app.
Qed.

(** The operational history is bounded and recent: whatever is recorded,
    and whatever its journals do, the audit log holds exactly the last 10,000
    command records and the last 10,000 entries, in order and with their
    messages redacted, and the event bus the last 10,000 events. *)
Theorem operational_history_is_recent l :
  let o := foldl (λ o c, run_operation c o) operations_new l in
  recent l o ∧
  (length (audit_records (audit_log o)) ≤ MAX_AUDIT_RECORDS)%nat ∧
  (length (audit_entries (audit_log o)) ≤ MAX_AUDIT_RECORDS)%nat ∧
  (length (bus_events (event_bus o)) ≤ MAX_EVENTS)%nat.
Proof.
  intros o. assert (recent l o) as Hr.
  { subst o. induction l as [|c l IH] using rev_ind; [done|].
    rewrite foldl_app. by apply recent_snoc. }
  split; [done|]. destruct Hr as (-> & -> & ->). unfold last_of. rewrite !length_drop. lia.
Qed.
End Operations.
