(* ===== verification/Controller.v ===== *)
(** Command dispatch: the decision engine and the command bus
    ([crates/appcore-core/src/decision.rs], [bus.rs]), the runtime instance
    ([runtime.rs]) and the controller around it ([controller.rs]), with the
    interleavings of the HTTP requests that call it
    ([crates/appcore-api/src/http/command.rs]). *)

From S2P Require Import Prelude.
From S2P Require Import Types.
From S2P Require Import DemoText.
From S2P Require Import Encoding.
From S2P Require Import Records.
From S2P Require Import Journal.
From S2P Require Import Lifecycle.
From S2P Require Import Idempotency.
From S2P Require Import Operations.

Local Open Scope N_scope.

Inductive DecisionOutcome :=
| Allow
| Deny (message : string)
| Defer (message : string).
#[export] Instance DecisionOutcome_eq_dec : EqDecision DecisionOutcome.
Proof. solve_decision. Defined.

(** ** Decisions, handlers, the instance

    [Ctx] is what a [RuntimeContext] gives; decision nodes only read, handlers
    may change the state [W] of the application. *)

Section Instance.
Context {Ctx W : Type}.

Definition DecisionNode : Type := CommandEnvelope → Ctx → RuntimeResult DecisionOutcome.
Definition CommandHandler : Type := CommandEnvelope → Ctx → op W RuntimeError CommandResult.

Record DecisionEngine := { nodes : list DecisionNode; node_names : list string }.
Definition decision_engine_new : DecisionEngine := {| nodes := []; node_names := [] |}.
Definition register_node (name : string) (n : DecisionNode) (e : DecisionEngine) : DecisionEngine :=
  {| nodes := nodes e ++ [n]; node_names := node_names e ++ [name] |}.

Fixpoint evaluate (l : list DecisionNode) (c : CommandEnvelope) (ctx : Ctx) :
    RuntimeResult DecisionOutcome :=
  match l with
  | [] => Ok Allow
  | n :: l' =>
    outcome ← n c ctx;
    match outcome with
    | Allow => evaluate l' c ctx
    | Deny m => Ok (Deny m)
    | Defer m => Ok (Defer m)
    end
  end.

Abbreviation CommandBus := (gmap string CommandHandler).

Definition register_handler (name : string) (h : CommandHandler) : op CommandBus RuntimeError () :=
  b ← op_get;
  match b !! name with
  | Some _ => op_fail (HandlerAlreadyRegistered name)
  | None => op_modify (λ b, <[name := h]> b)
  end.

Definition dispatch (b : CommandBus) (c : CommandEnvelope) (ctx : Ctx) : op W RuntimeError CommandResult :=
  match b !! command_name c with
  | None => op_fail (HandlerNotFound (command_name c))
  | Some h => h c ctx
  end.

(** The parts of a [RuntimeInstance] that dispatch uses and does not change. *)
Record RuntimeInstance := { decision_engine : DecisionEngine; command_bus : CommandBus }.

Definition instance_dispatch_command (i : RuntimeInstance) (c : CommandEnvelope) (ctx : Ctx) :
    op W RuntimeError CommandResult :=
  outcome ← op_lift (evaluate (nodes (decision_engine i)) c ctx);
  match outcome with
  | Allow => dispatch (command_bus i) c ctx
  | Deny m | Defer m => mret (result_rejected m)
  end.
End Instance.
Arguments DecisionEngine : clear implicits.
Arguments RuntimeInstance : clear implicits.

(** ** The controller *)

(** Its mutable parts: the lifecycle, the records of the instance, and the
    idempotency store. *)
Record RuntimeController (S : Type) := {
  lifecycle : RuntimeLifecycle;
  operations : Operations;
  idempotency : S;
}.
Arguments lifecycle {S}.
Arguments operations {S}.
Arguments idempotency {S}.

Section Controller.
Context {S : Type} `{!IdempotencyStore S}.
Context (sha256 : list byte → list byte).
Context (record_json : OperationalJournalRecord → result string string).
Context (envelope_json : JournalEnvelope → result string string).
Context (debug : RuntimeError → string).
(** [serde_json] on command results. *)
Context (result_json : CommandResult → result string string).
Context (result_of_json : string → result string CommandResult).

Abbreviation push := (push sha256 record_json envelope_json debug).
Abbreviation push_entry := (push_entry sha256 record_json envelope_json debug).
Abbreviation emit_many := (emit_many sha256 record_json envelope_json debug).
Abbreviation controller A := (op (RuntimeController S) RuntimeError A).

(** What a dispatch meets outside: each access to the store, the clock, the
    audit. *)
Record DispatchIo := {
  get_env : store_env;
  write_env : store_env;
  record_created_at : N;
  audit_io : AuditIo;
  event_audit_io : nat → AuditIo;
  emit_io : nat → AppendIo;
}.

Definition with_lifecycle (t : RuntimeController S) (l : RuntimeLifecycle) : RuntimeController S :=
  {| lifecycle := l; operations := operations t; idempotency := idempotency t |}.
Definition with_operations (t : RuntimeController S) (o : Operations) : RuntimeController S :=
  {| lifecycle := lifecycle t; operations := o; idempotency := idempotency t |}.

Definition on_store {A} (o : op S RuntimeError A) : controller A := λ t,
  let '(r, s) := o (idempotency t) in
  (r, {| lifecycle := lifecycle t; operations := operations t; idempotency := s |}).

(** [RuntimeController::with_idempotency_store] around a fresh instance. *)
Definition controller_new (s : S) : RuntimeController S :=
  {| lifecycle := lifecycle_new; operations := operations_new; idempotency := s |}.

Definition apply_lifecycle_event (e : RuntimeLifecycleEvent) : controller RuntimeLifecycleState := λ t,
  let '(r, l) := Lifecycle.apply e (lifecycle t) in (r, with_lifecycle t l).

Definition hash_payload (payload : list byte) : string := hex_encode (sha256 payload).

Definition check_lifecycle_readiness (l : RuntimeLifecycle) : option CommandResult :=
  match current l with
  | Running | Degraded => None
  | Restricted => Some (result_rejected "runtime is restricted")
  | _ => Some (result_rejected "runtime is not ready")
  end.

(** The record [record_audit] pushes. *)
Definition audit_of (c : CommandEnvelope) (r : RuntimeResult CommandResult) : AuditRecord :=
  {| audit_command_id := cmd_id c; audit_command_name := command_name c; audit_app_id := cmd_app_id c;
     audit_node_id := cmd_node_id c; audit_timestamp_ms := issued_at_ms c;
     audit_outcome := match r with
                      | Ok res => if accepted res then Accepted else Rejected
                      | Err _ => AuditError
                      end;
     audit_message := match r with Ok res => result_message res | Err e => Some (debug e) end;
     audit_trace := cmd_trace c |}.
Definition record_audit (io : DispatchIo) (c : CommandEnvelope) (r : RuntimeResult CommandResult) :
    controller () :=
  op_modify (λ t, with_operations t (push (audit_io io) (audit_of c r) (operations t))).

(** [Some r]: answered without running the handler. *)
Definition pre_dispatch (io : DispatchIo) (c : CommandEnvelope) :
    controller (option (RuntimeResult CommandResult)) :=
  t ← op_get;
  match check_lifecycle_readiness (lifecycle t) with
  | Some rejection =>
    _ ← record_audit io c (Ok rejection);
    mret (Some (Ok rejection))
  | None =>
    match idempotency_key c with
    | None => mret None
    | Some k =>
      found ← op_lift (store_get (get_env io) (idempotency t) k);
      match found with
      | Some record =>
        if negb (bool_decide (request_hash record = hash_payload (cmd_payload c))) then
          _ ← record_audit io c (Err (IdempotencyConflict k));
          op_fail (IdempotencyConflict k)
        else
          match status record with
          | Pending =>
            _ ← record_audit io c (Err (IdempotencyPending k));
            op_fail (IdempotencyPending k)
          | Resolved response_status response_body =>
            if 400 <=? response_status then
              _ ← on_store (store_remove (write_env io) k);
              mret None
            else
              result ←
                (if bool_decide (response_body = EmptyString) then mret (result_accepted [])
                 else op_lift (map_err (IdempotencyStoreIo "deserialize_replay") (result_of_json response_body)));
              _ ← record_audit io c (Ok result);
              mret (Some (Ok result))
          end
      | None =>
        _ ← on_store (store_insert (write_env io)
              {| key := k; request_hash := hash_payload (cmd_payload c); status := Pending;
                 created_at_ms := record_created_at io |});
        mret None
      end
    end
  end.

(** An event without a trace takes that of the command. *)
Definition traced (c : CommandEnvelope) (e : EventEnvelope) : EventEnvelope :=
  match event_trace e, cmd_trace c with
  | None, Some t => event_with_trace e t
  | _, _ => e
  end.
Definition event_entry (completed : N) (e : EventEnvelope) : AuditEntry :=
  entry_with_trace
    (entry_with_scope
       (audit_entry_new CategoryEvent (event_id e) (event_name e) (occurred_at_ms e) completed Accepted)
       (event_app_id e) (event_node_id e))
    (event_trace e).
Fixpoint audit_events (io : nat → AuditIo) (i : nat) (l : list EventEnvelope) (o : Operations) : Operations :=
  match l with
  | [] => o
  | e :: l' => audit_events io (Datatypes.S i) l' (push_entry (io i) (event_entry (completed_at (io i)) e) o)
  end.

Definition emit_events_and_audit (io : DispatchIo) (c : CommandEnvelope) (r : RuntimeResult CommandResult) :
    controller () :=
  _ ← match r with
      | Ok res =>
        if accepted res then
          let events := map (traced c) (result_events res) in
          op_modify (λ t, with_operations t
            (emit_many (emit_io io) events (audit_events (event_audit_io io) 0 events (operations t))))
        else mret ()
      | Err _ => mret ()
      end;
  record_audit io c r.

Definition post_dispatch (io : DispatchIo) (c : CommandEnvelope) (r : RuntimeResult CommandResult) :
    controller () :=
  _ ← match idempotency_key c with
      | Some k =>
        match r with
        | Ok res =>
          body ← op_lift (map_err (IdempotencyStoreIo "serialize_response") (result_json res));
          on_store (store_insert (write_env io)
            {| key := k; request_hash := hash_payload (cmd_payload c); status := Resolved 200 body;
               created_at_ms := record_created_at io |})
        | Err _ => on_store (store_remove (write_env io) k)
        end
      | None => mret ()
      end;
  emit_events_and_audit io c r.

Context {Ctx W : Type}.

Definition on_controller {A} (o : controller A) : op (RuntimeController S * W) RuntimeError A :=
  λ '(t, w), let '(r, t') := o t in (r, (t', w)).
Definition on_world {A} (o : op W RuntimeError A) : op (RuntimeController S * W) RuntimeError (RuntimeResult A) :=
  λ '(t, w), let '(r, w') := o w in (Ok r, (t, w')).

Definition dispatch_command (pre_io post_io : DispatchIo) (i : RuntimeInstance Ctx W) (c : CommandEnvelope)
    (ctx : Ctx) : op (RuntimeController S * W) RuntimeError CommandResult :=
  outcome ← on_controller (pre_dispatch pre_io c);
  match outcome with
  | Some r => op_lift r
  | None =>
    r ← on_world (instance_dispatch_command i c ctx);
    _ ← on_controller (post_dispatch post_io c r);
    op_lift r
  end.

(** ** Requests in flight

    The HTTP layer holds the controller's lock for [pre_dispatch] and for
    [post_dispatch], and runs the handler in between without it. *)

Record Request := { command : CommandEnvelope; answer : option (RuntimeResult CommandResult) }.
Record System := {
  core : RuntimeController S;
  world : W;
  in_flight : gmap nat Request;
  (** the commands whose handler ran, in order *)
  executed : list CommandEnvelope;
}.
Definition start (s : S) (w : W) : System :=
  {| core := controller_new s; world := w; in_flight := ∅; executed := [] |}.

Inductive Step :=
| LifecycleEvent (e : RuntimeLifecycleEvent)
| PreDispatch (id : nat) (io : DispatchIo) (c : CommandEnvelope)
| RunHandler (id : nat) (ctx : Ctx)
| HandlerPanics (id : nat) (w : W)
| PostDispatch (id : nat) (io : DispatchIo).

Definition step (i : RuntimeInstance Ctx W) (x : Step) (s : System) : System :=
  match x with
  | LifecycleEvent e =>
    {| core := (apply_lifecycle_event e (core s)).2; world := world s; in_flight := in_flight s;
       executed := executed s |}
  | PreDispatch id io c =>
    match in_flight s !! id with
    | Some _ => s
    | None =>
      let '(r, t) := pre_dispatch io c (core s) in
      {| core := t; world := world s;
         in_flight := match r with
                      | Ok None => <[id := {| command := c; answer := None |}]> (in_flight s)
                      | _ => in_flight s
                      end;
         executed := executed s |}
    end
  | RunHandler id ctx =>
    match in_flight s !! id with
    | Some {| command := c; answer := None |} =>
      let '(r, w) := instance_dispatch_command i c ctx (world s) in
      {| core := core s; world := w;
         in_flight := <[id := {| command := c; answer := Some r |}]> (in_flight s);
         executed := executed s ++ [c] |}
    | _ => s
    end
  | HandlerPanics id w =>
    match in_flight s !! id with
    | Some {| command := c; answer := None |} =>
      {| core := core s; world := w; in_flight := delete id (in_flight s); executed := executed s ++ [c] |}
    | _ => s
    end
  | PostDispatch id io =>
    match in_flight s !! id with
    | Some {| command := c; answer := Some r |} =>
      {| core := (post_dispatch io c r (core s)).2; world := world s;
         in_flight := delete id (in_flight s); executed := executed s |}
    | _ => s
    end
  end.
Definition run (i : RuntimeInstance Ctx W) (l : list Step) (s : System) : System :=
  foldl (λ s x, step i x s) s l.

(** ** Lemmas *)

Context `{!IdempotencyLaws S}.

Abbreviation view t := (store_view (idempotency t)).
Abbreviation valid t := (store_ok (idempotency t)).

(** No record of a failed response: [post_dispatch] never writes one. *)
Definition no_failures (m : gmap string IdempotencyRecord) : Prop :=
  ∀ k r n b, m !! k = Some r → status r = Resolved n b → n < 400.

Definition pending (c : CommandEnvelope) (k : string) (at_ms : N) : IdempotencyRecord :=
  {| key := k; request_hash := hash_payload (cmd_payload c); status := Pending; created_at_ms := at_ms |}.
Definition completed (c : CommandEnvelope) (k body : string) (at_ms : N) : IdempotencyRecord :=
  {| key := k; request_hash := hash_payload (cmd_payload c); status := Resolved 200 body;
     created_at_ms := at_ms |}.

Lemma on_store_run {A} (o : op S RuntimeError A) t :
  on_store o t = ((o (idempotency t)).1,
    {| lifecycle := lifecycle t; operations := operations t; idempotency := (o (idempotency t)).2 |}).
Proof. unfold on_store. by destruct (o _). Qed.

Lemma emit_events_run io c r t :
  ∃ o, emit_events_and_audit io c r t = (Ok (), with_operations t o).
Proof.
  unfold emit_events_and_audit, record_audit.
  destruct r as [res|e]; [destruct (accepted res)|]; autorewrite with op; eexists; done.
Qed.

(** What [pre_dispatch] answers on a given view of the store. *)
Lemma pre_dispatch_spec io c t :
  valid t → no_failures (view t) →
  let '(r, t') := pre_dispatch io c t in
  valid t' ∧ lifecycle t' = lifecycle t ∧
  match r, idempotency_key c with
  | Ok None, Some k => view t !! k = None ∧ view t' = <[k := pending c k (record_created_at io)]> (view t)
  | _, _ => view t' = view t
  end.
Proof.
  intros Hv Hn. unfold pre_dispatch, record_audit. autorewrite with op.
  destruct (check_lifecycle_readiness (lifecycle t)); autorewrite with op; [done|].
  destruct (idempotency_key c) as [k|]; autorewrite with op; [|done].
  rewrite law_get by done. autorewrite with op. destruct (view t !! k) as [r|] eqn:E.
  - destruct (negb _); autorewrite with op; [done|].
    destruct (status r) as [|n b] eqn:Hs; autorewrite with op; [done|].
    rewrite (proj2 (N.leb_gt 400 n)) by (by eapply Hn).
    case_bool_decide; autorewrite with op; [done|].
    destruct (result_of_json b); cbn [map_err]; autorewrite with op; done.
  - pose proof (law_insert (write_env io) (pending c k (record_created_at io)) (idempotency t) Hv) as Hi.
    fold (pending c k (record_created_at io)).
    destruct (store_insert _ _ _) as [[[]|e] s'] eqn:Ei; destruct Hi as [H1 H2]; cbn [is_ok] in H2.
    + erewrite op_ok_bind by (rewrite on_store_run, Ei; reflexivity). autorewrite with op. done.
    + erewrite op_err_bind by (rewrite on_store_run, Ei; reflexivity). done.
Qed.

Lemma post_dispatch_spec io c r t :
  valid t →
  let '(x, t') := post_dispatch io c r t in
  valid t' ∧ lifecycle t' = lifecycle t ∧
  match idempotency_key c, r with
  | None, _ => x = Ok () ∧ view t' = view t
  | Some k, Ok res =>
    match x with
    | Ok _ => ∃ body, result_json res = Ok body ∧
        view t' = <[k := completed c k body (record_created_at io)]> (view t)
    | Err _ => view t' = view t
    end
  | Some k, Err _ => view t' = delete k (view t)
  end.
Proof.
  intros Hv. unfold post_dispatch. destruct (idempotency_key c) as [k|]; cycle 1.
  { autorewrite with op. destruct (emit_events_run io c r t) as [o ->]. done. }
  destruct r as [res|e].
  - destruct (result_json res) as [body|e] eqn:Ej; cbn [map_err]; [|done].
    rewrite op_bind_assoc, op_lift_ok. fold (completed c k body (record_created_at io)).
    pose proof (law_insert (write_env io) (completed c k body (record_created_at io)) (idempotency t) Hv) as Hi.
    destruct (store_insert _ _ _) as [[[]|e] s'] eqn:Ei; destruct Hi as [H1 H2]; cbn [is_ok] in H2.
    + erewrite op_ok_bind by (rewrite on_store_run, Ei; reflexivity).
      edestruct emit_events_run as [o ->]. cbn [idempotency with_operations lifecycle snd]. eauto.
    + erewrite op_err_bind by (rewrite on_store_run, Ei; reflexivity). done.
  - pose proof (law_remove (write_env io) k (idempotency t) Hv) as Hi.
    destruct (store_remove _ _ _) as [[[]|e'] s'] eqn:Ei; destruct Hi as [H1 H2].
    + erewrite op_ok_bind by (rewrite on_store_run, Ei; reflexivity).
      edestruct emit_events_run as [o ->]. done.
    + erewrite op_err_bind by (rewrite on_store_run, Ei; reflexivity). done.
Qed.

(** ** The invariant of the interleavings *)

Record inv (s : System) : Prop := {
  inv_valid : valid (core s);
  inv_clean : no_failures (view (core s));
  inv_pending id q k :
    in_flight s !! id = Some q → idempotency_key (command q) = Some k →
    ∃ at_ms, view (core s) !! k = Some (pending (command q) k at_ms);
  inv_unique id1 id2 q1 q2 k :
    in_flight s !! id1 = Some q1 → in_flight s !! id2 = Some q2 →
    idempotency_key (command q1) = Some k → idempotency_key (command q2) = Some k → id1 = id2;
}.

Lemma no_failures_insert k r m :
  (∀ n b, status r = Resolved n b → n < 400) → no_failures m → no_failures (<[k := r]> m).
Proof.
  intros Hr Hm k' r' n b. destruct (decide (k' = k)) as [->|?].
  - rewrite lookup_insert_eq. intros [= <-]. apply Hr.
  - rewrite lookup_insert_ne by done. apply Hm.
Qed.
Lemma no_failures_delete k m : no_failures m → no_failures (delete k m).
Proof. intros Hm k' r' n b [_ H]%lookup_delete_Some. by eapply Hm. Qed.

(** Steps that leave the store alone and drop or update requests. *)
Lemma inv_frame s s' :
  inv s → valid (core s') → view (core s') = view (core s) →
  (∀ id q, in_flight s' !! id = Some q → ∃ q', in_flight s !! id = Some q' ∧ command q' = command q) →
  inv s'.
Proof.
  intros [H1 H2 H3 H4] Hv Hw Hq. split; rewrite ?Hw; try done.
  - intros id q k Hin Hk. destruct (Hq id q Hin) as (q' & Hin' & Hc). rewrite <- Hc in *. by eapply H3.
  - intros id1 id2 q1 q2 k (q1' & Hi1 & Hc1)%Hq (q2' & Hi2 & Hc2)%Hq Hk1 Hk2.
    rewrite <- Hc1 in Hk1. rewrite <- Hc2 in Hk2. by eapply H4.
Qed.

Lemma step_pre_inv i id io c s : inv s → inv (step i (PreDispatch id io c) s).
Proof.
  intros Hs. pose proof Hs as [H1 H2 H3 H4]. cbn [step]. destruct (in_flight s !! id) eqn:Hid; [done|].
  pose proof (pre_dispatch_spec io c (core s) H1 H2) as Hp.
  destruct (pre_dispatch io c (core s)) as [r t]. destruct Hp as (Hv & _ & Hw).
  assert (∀ id', id' ≠ id → (<[id := {| command := c; answer := None |}]> (in_flight s)) !! id' = in_flight s !! id')
    as Hne by (intros ??; by rewrite lookup_insert_ne).
  destruct r as [[r|]|e]; [by eapply inv_frame; eauto| |by eapply inv_frame; eauto].
  destruct (idempotency_key c) as [k|] eqn:Hk.
  - destruct Hw as [Hnone Hw]. split; cbn [core in_flight]; rewrite ?Hw.
    + done.
    + by apply no_failures_insert.
    + intros id' q k' Hin Hk'. destruct (decide (id' = id)) as [->|Hd].
      * rewrite lookup_insert_eq in Hin. injection Hin as <-. cbn [command] in *.
        rewrite Hk in Hk'. injection Hk' as <-. rewrite lookup_insert_eq. eauto.
      * rewrite Hne in Hin by done. destruct (H3 _ _ _ Hin Hk') as [at_ms Hat].
        rewrite lookup_insert_ne; [eauto|]. intros ->. congruence.
    + intros id1 id2 q1 q2 k' Hi1 Hi2 Hk1 Hk2.
      assert (∀ id' q, id' ≠ id → in_flight s !! id' = Some q → idempotency_key (command q) ≠ Some k) as Hfresh.
      { intros id' q _ Hin Hq. destruct (H3 _ _ _ Hin Hq) as [at_ms Hat]. congruence. }
      destruct (decide (id1 = id)) as [->|Hd1], (decide (id2 = id)) as [->|Hd2]; try done.
      * rewrite lookup_insert_eq in Hi1. injection Hi1 as <-. cbn [command] in Hk1.
        rewrite Hne in Hi2 by done. exfalso. eapply Hfresh; [done..|]. congruence.
      * rewrite lookup_insert_eq in Hi2. injection Hi2 as <-. cbn [command] in Hk2.
        rewrite Hne in Hi1 by done. exfalso. eapply Hfresh; [done..|]. congruence.
      * rewrite Hne in Hi1, Hi2 by done. by eapply H4.
  - split; cbn [core in_flight]; rewrite ?Hw; try done.
    + intros id' q k' Hin Hk'. destruct (decide (id' = id)) as [->|Hd].
      * rewrite lookup_insert_eq in Hin. injection Hin as <-. cbn [command] in *. congruence.
      * rewrite Hne in Hin by done. by eapply H3.
    + intros id1 id2 q1 q2 k' Hi1 Hi2 Hk1 Hk2.
      destruct (decide (id1 = id)) as [->|Hd1].
      { rewrite lookup_insert_eq in Hi1. injection Hi1 as <-. cbn [command] in *. congruence. }
      destruct (decide (id2 = id)) as [->|Hd2].
      { rewrite lookup_insert_eq in Hi2. injection Hi2 as <-. cbn [command] in *. congruence. }
      rewrite Hne in Hi1, Hi2 by done. by eapply H4.
Qed.

(** What a completed request does to the view of the others. *)
Lemma step_post_view i id io c r s :
  inv s → in_flight s !! id = Some {| command := c; answer := Some r |} →
  let s' := step i (PostDispatch id io) s in
  valid (core s') ∧ no_failures (view (core s')) ∧ lifecycle (core s') = lifecycle (core s) ∧
  ∀ k, idempotency_key c ≠ Some k → view (core s') !! k = view (core s) !! k.
Proof.
  intros [H1 H2 H3 H4] Hid. cbn [step]. rewrite Hid. cbn [core].
  pose proof (post_dispatch_spec io c r (core s) H1) as Hp.
  destruct (post_dispatch io c r (core s)) as [x t]. destruct Hp as (Hv & Hl & Hw). cbn [snd].
  split; [done|].
  match goal with |- ?A ∧ ?B ∧ ?C => cut (A ∧ C); [by intros [??]|] end.
  destruct (idempotency_key c) as [k|] eqn:Hk; [|destruct Hw as [_ ->]; split; [done|by intros]].
  destruct r as [res|e].
  - destruct x as [[]|e]; [|by rewrite Hw].
    destruct Hw as (body & _ & ->). split.
    + apply no_failures_insert; [|done]. by intros n b [= <- <-].
    + intros k' Hne. rewrite lookup_insert_ne by congruence. done.
  - rewrite Hw. split; [by apply no_failures_delete|]. intros k' Hne.
    rewrite lookup_delete_ne by congruence. done.
Qed.

Lemma step_post_inv i id io s : inv s → inv (step i (PostDispatch id io) s).
Proof.
  intros Hs. pose proof Hs as [H1 H2 H3 H4].
  destruct (in_flight s !! id) as [[c [r|]]|] eqn:Hid; [|by cbn [step]; rewrite Hid..].
  destruct (step_post_view i id io c r s Hs Hid) as (Hv & Hc & _ & Hk).
  assert (in_flight (step i (PostDispatch id io) s) = delete id (in_flight s)) as Hf
    by (cbn [step]; by rewrite Hid).
  split; try done; rewrite Hf.
  - intros id' q k [Hne Hin]%lookup_delete_Some Hq. rewrite Hk; [by eapply H3|].
    intros Hck. apply Hne. by eapply H4.
  - intros id1 id2 q1 q2 k [_ Hi1]%lookup_delete_Some [_ Hi2]%lookup_delete_Some. by eapply H4.
Qed.

Lemma request_step_inv i x s : inv s → inv (step i x s).
Proof.
  intros Hs. destruct x as [e|id io c|id ctx|id w|id io].
  - cbn [step]. unfold apply_lifecycle_event. destruct (Lifecycle.apply e _) as [r l].
    eapply inv_frame; [done|apply Hs|done|]. intros id q H. by exists q.
  - by apply step_pre_inv.
  - cbn [step]. destruct (in_flight s !! id) as [[c [r|]]|] eqn:Hid; try done.
    destruct (instance_dispatch_command i c ctx (world s)) as [r w].
    eapply inv_frame; [done|apply Hs|done|]. intros id' q Hin. cbn [in_flight] in Hin.
    destruct (decide (id' = id)) as [->|Hne].
    + rewrite lookup_insert_eq in Hin. injection Hin as <-. eauto.
    + rewrite lookup_insert_ne in Hin by done. eauto.
  - cbn [step]. destruct (in_flight s !! id) as [[c [r|]]|] eqn:Hid; try done.
    eapply inv_frame; [done|apply Hs|done|]. intros id' q Hin. cbn [in_flight] in Hin.
    apply lookup_delete_Some in Hin as [_ Hin]. eauto.
  - by apply step_post_inv.
Qed.

Lemma run_inv i l s : inv s → inv (run i l s).
Proof.
  revert s. induction l as [|x l IH]; intros s Hs; [done|]. by apply IH, request_step_inv.
Qed.

Lemma start_inv s w : store_ok s → no_failures (store_view s) → inv (start s w).
Proof. intros H1 H2. split; try done. Qed.

(** ** Completed keys *)

Definition with_key (k : string) : list CommandEnvelope → list CommandEnvelope :=
  filter (λ c, idempotency_key c = Some k).

Lemma with_key_snoc k l c : idempotency_key c ≠ Some k → with_key k (l ++ [c]) = with_key k l.
Proof. intros Hc. unfold with_key. rewrite filter_app, filter_cons_False by done. by rewrite app_nil_r. Qed.

(** The key [k] holds the answer [body] to [c]. *)
Definition settled (c : CommandEnvelope) (k body : string) (s : System) : Prop :=
  ∃ at_ms, view (core s) !! k = Some (completed c k body at_ms).

Lemma settled_not_in_flight c k body s id q :
  inv s → settled c k body s → in_flight s !! id = Some q → idempotency_key (command q) ≠ Some k.
Proof.
  intros Hs [at_ms Hat] Hid Hk. destruct (inv_pending s Hs _ _ _ Hid Hk) as [at' Hat'].
  rewrite Hat in Hat'. by injection Hat'.
Qed.

Lemma step_settled i x c k body s :
  inv s → settled c k body s →
  settled c k body (step i x s) ∧ with_key k (executed (step i x s)) = with_key k (executed s).
Proof.
  intros Hs Hset. pose proof Hset as [at_ms Hat].
  destruct x as [e|id io c'|id ctx|id w|id io]; cbn [step].
  - unfold apply_lifecycle_event. by destruct (Lifecycle.apply e _).
  - destruct (in_flight s !! id); [done|].
    pose proof (pre_dispatch_spec io c' (core s) (inv_valid s Hs) (inv_clean s Hs)) as Hp.
    destruct (pre_dispatch io c' (core s)) as [r t]. destruct Hp as (_ & _ & Hw). split; [|done].
    exists at_ms. cbn [core]. destruct r as [[r|]|e]; [by rewrite Hw| |by rewrite Hw].
    destruct (idempotency_key c') as [k'|]; [|by rewrite Hw]. destruct Hw as [Hn ->].
    rewrite lookup_insert_ne; [done|]. intros ->. congruence.
  - destruct (in_flight s !! id) as [[c' [r|]]|] eqn:Hid; try done.
    destruct (instance_dispatch_command i c' ctx (world s)) as [r w]. split; [done|]. cbn [executed].
    apply with_key_snoc. exact (settled_not_in_flight c k body s id _ Hs Hset Hid).
  - destruct (in_flight s !! id) as [[c' [r|]]|] eqn:Hid; try done. split; [done|]. cbn [executed].
    apply with_key_snoc. exact (settled_not_in_flight c k body s id _ Hs Hset Hid).
  - destruct (in_flight s !! id) as [[c' [r|]]|] eqn:Hid; try done.
    destruct (step_post_view i id io c' r s Hs Hid) as (_ & _ & _ & Hk). cbn [step] in Hk. rewrite Hid in Hk.
    split; [|done]. exists at_ms. cbn [core executed] in *. rewrite Hk; [done|].
    exact (settled_not_in_flight c k body s id _ Hs Hset Hid).
Qed.

Lemma run_settled i l c k body s :
  inv s → settled c k body s →
  settled c k body (run i l s) ∧ with_key k (executed (run i l s)) = with_key k (executed s).
Proof.
  revert s. induction l as [|x l IH]; intros s Hs Hset; [done|].
  destruct (step_settled i x c k body s Hs Hset) as [H1 H2].
  destruct (IH (step i x s) (request_step_inv _ _ _ Hs) H1) as [H3 H4]. split; [done|]. by rewrite <- H2.
Qed.

(** [serde_json] on command results: it does not fail, does not write an empty
    text, and reads back what it wrote. *)
Definition result_laws : Prop :=
  (∀ r, ∃ s, result_json r = Ok s) ∧
  (∀ r s, result_json r = Ok s → s ≠ EmptyString ∧ result_of_json s = Ok r).

Lemma settled_replays io c k body c' s res :
  result_laws → inv s → settled c k body s → result_json res = Ok body →
  idempotency_key c' = Some k →
  (pre_dispatch io c' (core s)).1 =
  match check_lifecycle_readiness (lifecycle (core s)) with
  | Some rejection => Ok (Some (Ok rejection))
  | None =>
    if bool_decide (hash_payload (cmd_payload c) = hash_payload (cmd_payload c'))
    then Ok (Some (Ok res)) else Err (IdempotencyConflict k)
  end.
Proof.
  intros [_ L] Hs [at_ms Hat] Hbody Hk. destruct (L _ _ Hbody) as [Hne Hdec].
  unfold pre_dispatch, record_audit. autorewrite with op.
  destruct (check_lifecycle_readiness _); autorewrite with op; [done|]. rewrite Hk.
  rewrite law_get by apply Hs. autorewrite with op. rewrite Hat. cbn [request_hash status completed].
  case_bool_decide; cbn [negb]; autorewrite with op; [|done].
  change (400 <=? 200) with false. rewrite bool_decide_eq_false_2 by done.
  rewrite Hdec. cbn [map_err]. by autorewrite with op.
Qed.

(** ** Properties *)


(** What a node's decision makes of a command: [None] lets it pass. *)
Definition verdict (x : RuntimeResult DecisionOutcome) : option (RuntimeResult CommandResult) :=
  match x with
  | Ok Allow => None
  | Ok (Deny m) | Ok (Defer m) => Some (Ok (result_rejected m))
  | Err e => Some (Err e)
  end.

Lemma evaluate_cases (l : list (DecisionNode (Ctx := Ctx))) c ctx :
  (∀ n, n ∈ l → verdict (n c ctx) = None) ∧ evaluate l c ctx = Ok Allow ∨
  ∃ before n after r, l = before ++ n :: after ∧ (∀ m, m ∈ before → verdict (m c ctx) = None) ∧
    verdict (n c ctx) = Some r ∧ verdict (evaluate l c ctx) = Some r.
Proof.
  induction l as [|n l IH]; [left; split; [by intros n ?%elem_of_nil|done]|].
  destruct (verdict (n c ctx)) as [r|] eqn:Hn.
  - right. exists [], n, l, r. split_and!; [done|by intros ? ?%elem_of_nil|done|].
    cbn [evaluate]. by destruct (n c ctx) as [[]|].
  - assert (Hev : evaluate (n :: l) c ctx = evaluate l c ctx)
      by (cbn [evaluate]; by destruct (n c ctx) as [[]|]).
    rewrite Hev. destruct IH as [[H1 H2]|(b & n' & a & r & -> & H1 & H2 & H3)].
    + left. split; [|done]. by intros n' [->|?]%elem_of_cons; [|apply H1].
    + right. exists (n :: b), n', a, r. split_and!; try done.
      by intros n2 [->|?]%elem_of_cons; [|apply H1].
Qed.

(** The policy decides before the handler: when every node allows the
    command its handler runs, and a command nobody handles is an error;
    otherwise the first node that does not allow it decides the answer (a
    rejection with its reason, or its error), no handler runs and the state of
    the application is untouched. *)
Theorem denied_command_has_no_effect (i : RuntimeInstance Ctx W) c ctx w :
  (∀ n, n ∈ nodes (decision_engine i) → verdict (n c ctx) = None) ∧
    instance_dispatch_command i c ctx w =
      match command_bus i !! command_name c with
      | Some h => h c ctx w
      | None => (Err (HandlerNotFound (command_name c)), w)
      end ∨
  ∃ before n after r, nodes (decision_engine i) = before ++ n :: after ∧
    (∀ m, m ∈ before → verdict (m c ctx) = None) ∧ verdict (n c ctx) = Some r ∧
    instance_dispatch_command i c ctx w = (r, w).
Proof.
  unfold instance_dispatch_command.
  destruct (evaluate_cases (nodes (decision_engine i)) c ctx) as [[H1 H2]|(b & n & a & r & H0 & H1 & H2 & H3)].
  - left. split; [done|]. rewrite H2. autorewrite with op. unfold dispatch. by destruct (_ !! _).
  - right. exists b, n, a, r. split_and!; try done.
    destruct (evaluate _ _ _) as [[|m|m]|e]; try done; injection H3 as <-; by autorewrite with op.
Qed.

(** A recorded failure is retried without a reservation: when the store
    holds a response of status 400 or more for the key, [pre_dispatch] forgets
    it and admits the command without recording it as pending, so that a
    second request with the key is admitted while the first is in flight. *)
Theorem failed_response_retry_is_unreserved i io io2 id1 id2 c k record n body s :
  id1 ≠ id2 → valid (core s) → check_lifecycle_readiness (lifecycle (core s)) = None →
  in_flight s !! id1 = None → in_flight s !! id2 = None →
  idempotency_key c = Some k → view (core s) !! k = Some record →
  request_hash record = hash_payload (cmd_payload c) → status record = Resolved n body → 400 ≤ n →
  (∀ s1, (store_remove (write_env io) k s1).1 = Ok ()) →
  (∀ s1, (store_insert (write_env io2) (pending c k (record_created_at io2)) s1).1 = Ok ()) →
  let s' := step i (PreDispatch id2 io2 c) (step i (PreDispatch id1 io c) s) in
  in_flight s' !! id1 = Some {| command := c; answer := None |} ∧
  in_flight s' !! id2 = Some {| command := c; answer := None |}.
Proof.
  intros Hne Hv Hready H1 H2 Hk Hrec Hh Hst Hn Hrm Hins. cbn [step]. rewrite H1.
  pose proof (law_remove (write_env io) k (idempotency (core s)) Hv) as Hl.
  specialize (Hrm (idempotency (core s))).
  destruct (store_remove (write_env io) k (idempotency (core s))) as [x st] eqn:Ex.
  cbn [fst] in Hrm. subst x. destruct Hl as [Hv' Hw'].
  assert (pre_dispatch io c (core s) = (Ok None,
    {| lifecycle := lifecycle (core s); operations := operations (core s); idempotency := st |})) as ->.
  { unfold pre_dispatch, record_audit. autorewrite with op. rewrite Hready, Hk.
    rewrite law_get, Hrec by done. autorewrite with op. rewrite Hh, bool_decide_eq_true_2, Hst by done.
    cbn [negb]. rewrite (proj2 (N.leb_le _ _) Hn). erewrite op_ok_bind; [by autorewrite with op|].
    rewrite on_store_run, Ex. done. }
  cbn [in_flight core]. rewrite lookup_insert_ne, H2 by done.
  set (t := Build_RuntimeController _ _ _ _).
  assert (∃ t', pre_dispatch io2 c t = (Ok None, t')) as [t' ->].
  { unfold pre_dispatch, record_audit. autorewrite with op. cbn [lifecycle t]. rewrite Hready, Hk.
    rewrite law_get by done. cbn [idempotency t]. rewrite Hw', lookup_delete_eq. autorewrite with op.
    erewrite op_ok_bind; [by autorewrite with op; eexists|].
    rewrite on_store_run. cbn [idempotency t]. by rewrite Hins. }
  cbn [in_flight]. split; [by rewrite lookup_insert_ne, lookup_insert_eq by done|apply lookup_insert_eq].
Qed.
End Controller.

(** ** Witnesses *)

Module Demo.
Definition sha (x : list byte) : list byte := be_bytes 32 (lenN x).
Definition record_json : OperationalJournalRecord → result string string := to_text.
Definition envelope_json : JournalEnvelope → result string string := to_text.
Definition result_json : CommandResult → result string string := to_text.
Definition result_of_json : string → result string CommandResult := of_text "invalid"%string.
Definition debug (e : RuntimeError) : string := "error".
Definition append_io : AppendIo :=
  {| appended := Disk.Appended; append_sized := true; rewrites := λ _, Disk.Written; sizes := λ _, true |}.
Definition audit : AuditIo := {| completed_at := 9; audit_append := append_io |}.
Definition io : DispatchIo (S := Memory.t) :=
  {| get_env := (); write_env := (); record_created_at := 7; audit_io := audit;
     event_audit_io := λ _, audit; emit_io := λ _, append_io |}.
Definition command (name key : string) (payload : list byte) : CommandEnvelope :=
  {| command_name := name; cmd_id := "c"; cmd_app_id := "app"; cmd_node_id := "node"; issued_at_ms := 1;
     idempotency_key := Some key; cmd_payload := payload; cmd_trace := None |}.
(** A handler that counts its calls. *)
Definition count : CommandHandler (Ctx := ()) (W := nat) := λ _ _,
  _ ← op_modify Datatypes.S; mret (result_rejected "counted").
Definition instance : RuntimeInstance () nat :=
  {| decision_engine := decision_engine_new; command_bus := {["pay"%string := count]} |}.
Abbreviation step := (step sha record_json envelope_json debug result_json result_of_json instance).
Abbreviation run := (run sha record_json envelope_json debug result_json result_of_json instance).
Abbreviation pre_dispatch := (pre_dispatch sha record_json envelope_json debug result_of_json).
Abbreviation post_dispatch := (post_dispatch sha record_json envelope_json debug result_json).
Definition boot : list (Step (S := Memory.t) (Ctx := ()) (W := nat)) :=
  map LifecycleEvent [ConfigLoaded; SecurityChecked; StorageOpened; ApiStarted].
Definition first_run : list Step :=
  boot ++ [PreDispatch 0 io (command "pay" "k" [x01]); PreDispatch 1 io (command "pay" "k" [x01]);
           RunHandler 0 ()].
(** A store with the record of a failure, which an older file may hold. *)
Definition failed : IdempotencyRecord :=
  {| key := "k"; request_hash := hash_payload sha [x01]; status := Resolved 500 "boom"; created_at_ms := 1 |}.
Lemma laws : result_laws result_json result_of_json.
Proof.
  split; [intros r; by eexists|]. intros r s Hs. split.
  - by destruct (to_text_line _ _ Hs).
  - by apply of_to_text.
Qed.
Lemma empty_ok : store_ok (∅ : Memory.t).
Proof. vm_compute. exact I. Qed.
Lemma empty_clean : no_failures (∅ : Memory.t).
Proof. by intros k r n b ?. Qed.
End Demo.


Lemma failed_response_retry_is_unreserved_witness :
  let s := Demo.run Demo.boot (start {["k"%string := Demo.failed]} 0%nat) in
  let c := Demo.command "pay" "k" [x01] in
  let s' := Demo.step (PreDispatch 1 Demo.io c) (Demo.step (PreDispatch 0 Demo.io c) s) in
  in_flight s' !! 0%nat = Some {| command := c; answer := None |} ∧
  in_flight s' !! 1%nat = Some {| command := c; answer := None |}.
Proof.
  apply (failed_response_retry_is_unreserved Demo.sha Demo.record_json Demo.envelope_json Demo.debug
    Demo.result_json Demo.result_of_json (S := Memory.t) (Ctx := ()) (W := nat) Demo.instance Demo.io Demo.io
    0 1 (Demo.command "pay" "k" [x01]) "k" Demo.failed 500 "boom").
  - discriminate.
  - exact I.
  - vm_compute. reflexivity.
  - vm_compute. reflexivity.
  - vm_compute. reflexivity.
  - reflexivity.
  - vm_compute. reflexivity.
  - reflexivity.
  - reflexivity.
  - vm_compute. discriminate.
  - reflexivity.
  - reflexivity.
Defined.
