(* ===== verification/SyncTypes.v ===== *)
(** Shared parts of the synchronisation crate ([crates/appcore-sync/src/sync]):
    its errors ([error.rs]), the hexadecimal codec ([codec.rs]), the durable
    text files ([persistence.rs]) and the replication message with its hash
    ([types.rs]). *)

From S2P Require Import Prelude.
From S2P Require Import Text.
From S2P Require Import Types.
From S2P Require Import Encoding.
From S2P Require Import Disk.

Local Open Scope N_scope.

Inductive SyncError :=
| IncompatiblePeer
| TransportFailed (reason : string)
| TransportTimeout (reason : string)
| HttpStatus (status : N)
| EmptyHttpResponse
| EmptyRequestBody
| RequestBodyTooLarge (size max : N)
| ResponseTooLarge (max : N)
| TooManyEvents (count max : N)
| InvalidSequence (sequence : N)
| SequenceConflict (sequence : N)
| SnapshotUnsupported
| InvalidSnapshot (reason : string)
| InvalidPeerId
| InvalidPeerAddress
| UnsupportedPeerScheme
| DnsResolutionFailed (reason : string)
| TlsFailed (reason : string)
| LogIndexOutOfBounds (index len : N)
| LockPoisoned (what : string)
| InvalidSyncMessage (reason : string)
| InvalidEventHex
| CorruptReplicationLog (line : N) (reason : string)
| CorruptOutbox (line : N)
| ElectionFailed (reason : string)
| ReplicationFailed (reason : string)
| PeerNotFound (peer : string).
#[export] Instance SyncError_eq_dec : EqDecision SyncError.
Proof. solve_decision. Defined.
Abbreviation SyncResult := (result SyncError).

Definition UPDATE_REQUIRED_MESSAGE : string := "NO MORE SUPPORTED PLEASE UPDATE".

(** ** Hexadecimal *)

Definition hex_nibble (value : N) : ascii :=
  if value <=? 9 then Ascii.ascii_of_N (48 + value)
  else if value <=? 15 then Ascii.ascii_of_N (97 + (value - 10))
  else "0".
Fixpoint bytes_to_hex (bytes : list byte) : string :=
  match bytes with
  | [] => EmptyString
  | b :: bytes' =>
    String (hex_nibble (N.shiftr (Byte.to_N b) 4))
      (String (hex_nibble (N.land (Byte.to_N b) 15)) (bytes_to_hex bytes'))
  end.

Definition from_hex_char (c : ascii) : SyncResult N :=
  let v := Ascii.N_of_ascii c in
  if (48 <=? v) && (v <=? 57) then Ok (v - 48)
  else if (97 <=? v) && (v <=? 102) then Ok (v - 97 + 10)
  else if (65 <=? v) && (v <=? 70) then Ok (v - 65 + 10)
  else Err InvalidEventHex.
(** The chunks of two bytes. *)
Fixpoint hex_chunks (s : string) : SyncResult (list byte) :=
  match s with
  | String a (String b s') =>
    high ← from_hex_char a;
    low ← from_hex_char b;
    bytes ← hex_chunks s';
    Ok (byte_of_N (N.lor (N.shiftl high 4) low) :: bytes)
  | _ => Ok []
  end.
Definition hex_to_bytes (value : string) : SyncResult (list byte) :=
  if negb (str_len value mod 2 =? 0) then Err InvalidEventHex else hex_chunks value.

(** ** Durable text files *)

Definition replication_failed (_ message : string) : SyncError := ReplicationFailed message.

Definition split_format (text marker : string) : SyncResult string :=
  let header := marker +:+ String LF EmptyString in
  if str_prefix header text then Ok (str_drop (String.length header) text)
  else if bool_decide (text = marker) then Ok EmptyString
  else Err (ReplicationFailed UPDATE_REQUIRED_MESSAGE).

(** [opened] is the outcome of the checks and the read before the text is
    looked at. *)
Definition read_bounded_text (opened : SyncResult ()) (text : string) (max_bytes : N) :
    SyncResult string :=
  _ ← opened;
  if max_bytes <? str_len text then
    Err (ReplicationFailed "persistent file exceeds configured limit")
  else if negb (utf8_valid text) then
    Err (ReplicationFailed "stream did not contain valid UTF-8")
  else Ok text.

(** [atomic_write]: from the creation of the parent to its sync. *)
Definition sync_atomic_write : AtomicWrite → string → op string SyncError () :=
  atomic_write replication_failed.

(** ** Messages *)

Record SyncMessage := {
  batch_id : string;
  source_node_id : string;
  sequence_start : N;
  sequence_end : N;
  event_count : N;
  events_hash : string;
  created_at_ms : N;
  previous_batch_hash : option string;
  events : list (list byte);
}.
#[export] Instance SyncMessage_eq_dec : EqDecision SyncMessage.
Proof. solve_decision. Defined.

(** [bytes.len() as u32] wraps. *)
Definition write_prefixed (bytes : list byte) : list byte :=
  be_bytes 4 (lenN bytes mod 2 ^ 32) ++ bytes.

Definition events_preimage (id node : string) (first last created : N) (previous : option string)
    (evs : list (list byte)) : list byte :=
  write_prefixed (str_bytes id) ++ write_prefixed (str_bytes node) ++
  be_bytes 8 first ++ be_bytes 8 last ++ be_bytes 8 created ++
  match previous with
  | Some p => x01 :: write_prefixed (str_bytes p)
  | None => [x00]
  end ++
  concat (map write_prefixed evs).

Definition compute_events_hash (sha256 : list byte → list byte) (id node : string)
    (first last created : N) (previous : option string) (evs : list (list byte)) : string :=
  hex_encode (sha256 (events_preimage id node first last created previous evs)).

Definition message_new (sha256 : list byte → list byte) (id node : string) (first last created : N)
    (previous : option string) (evs : list (list byte)) : SyncMessage :=
  {| batch_id := id; source_node_id := node; sequence_start := first; sequence_end := last;
     event_count := lenN evs;
     events_hash := compute_events_hash sha256 id node first last created previous evs;
     created_at_ms := created; previous_batch_hash := previous; events := evs |}.

Definition new_simple (sha256 : list byte → list byte) (node : string) (sequence : N)
    (evs : list (list byte)) : SyncMessage :=
  message_new sha256 ("batch-" +:+ node +:+ "-" +:+ show_u64 sequence) node sequence
    (if 0 <? lenN evs then sat_add64 sequence (lenN evs - 1) else sequence) 0 None evs.

(** ** The codec reads what it writes *)

Lemma from_hex_nibble n : n < 16 → from_hex_char (hex_nibble n) = Ok n.
Proof.
  intros Hn. unfold hex_nibble, from_hex_char.
  destruct (N.leb_spec n 9).
  - rewrite Ascii.N_ascii_embedding by lia.
    rewrite (proj2 (N.leb_le 48 _)), (proj2 (N.leb_le _ 57)) by lia. simpl. f_equal. lia.
  - rewrite (proj2 (N.leb_le n 15)) by lia. rewrite Ascii.N_ascii_embedding by lia.
    rewrite (proj2 (N.leb_gt _ 57)), andb_false_r by lia.
    rewrite (proj2 (N.leb_le 97 _)), (proj2 (N.leb_le _ 102)) by lia. simpl. f_equal. lia.
Qed.

Lemma nibbles b :
  let n := Byte.to_N b in
  N.shiftr n 4 < 16 ∧ N.land n 15 < 16 ∧
  byte_of_N (N.lor (N.shiftl (N.shiftr n 4) 4) (N.land n 15)) = b.
Proof. destruct b; vm_compute; split_and!; reflexivity. Qed.

Lemma hex_chunks_roundtrip l : hex_chunks (bytes_to_hex l) = Ok l.
Proof.
  induction l as [|b l IH]; [done|]. cbn [bytes_to_hex hex_chunks].
  destruct (nibbles b) as (H1 & H2 & H3). rewrite !from_hex_nibble by done.
  cbn [mbind result_bind]. rewrite IH. cbn [mbind result_bind]. by rewrite H3.
Qed.

Lemma bytes_to_hex_length l : str_len (bytes_to_hex l) = 2 * lenN l.
Proof.
  unfold str_len. induction l as [|b l IH]; [done|]. cbn [bytes_to_hex String.length length]. lia.
Qed.

Lemma hex_roundtrip l : hex_to_bytes (bytes_to_hex l) = Ok l.
Proof.
  unfold hex_to_bytes. rewrite bytes_to_hex_length, N.mul_comm, N.Div0.mod_mul. apply hex_chunks_roundtrip.
Qed.

(** Hexadecimal text is plain: a digit or one of [a] to [f]. *)
Definition hex_char (c : ascii) : Prop :=
  48 ≤ Ascii.N_of_ascii c ≤ 57 ∨ 97 ≤ Ascii.N_of_ascii c ≤ 102.
Fixpoint str_every (P : ascii → Prop) (s : string) : Prop :=
  match s with EmptyString => True | String c s' => P c ∧ str_every P s' end.

Lemma hex_nibble_char n : n < 16 → hex_char (hex_nibble n).
Proof.
  intros Hn. unfold hex_char, hex_nibble. destruct (N.leb_spec n 9).
  - rewrite Ascii.N_ascii_embedding by lia. lia.
  - rewrite (proj2 (N.leb_le n 15)) by lia. rewrite Ascii.N_ascii_embedding by lia. lia.
Qed.
Lemma bytes_to_hex_chars l : str_every hex_char (bytes_to_hex l).
Proof.
  induction l as [|b l IH]; [done|]. cbn [bytes_to_hex str_every].
  destruct (nibbles b) as (H1 & H2 & _). auto using hex_nibble_char.
Qed.
Lemma str_every_free P c s : ¬ P c → str_every P s → str_free c s.
Proof. intros Hc. induction s as [|x s IH]; simpl; [done|]. intros [? ?]. split; [by intros ->|auto]. Qed.
Lemma str_every_ascii P s : (∀ c, P c → Ascii.N_of_ascii c < 128) → str_every P s → str_ascii s.
Proof.
  intros HP. induction s as [|x s IH]; [done|]. intros [Hx Hs].
  split; [by apply HP in Hx|by apply IH].
Qed.
Lemma hex_char_free c s : ¬ hex_char c → str_every hex_char s → str_free c s.
Proof. apply str_every_free. Qed.
Lemma hex_ascii s : str_every hex_char s → str_ascii s.
Proof. apply str_every_ascii. unfold hex_char. lia. Qed.
Lemma str_every_app P s t : str_every P (s +:+ t) ↔ str_every P s ∧ str_every P t.
Proof. induction s as [|c s IH]; [simpl; tauto|]. rewrite string_app_cons. simpl. rewrite IH. tauto. Qed.
