(* ===== verification/SyncLog.v ===== *)
(** Replication logs ([crates/appcore-sync/src/sync/log.rs]) and their
    snapshots ([snapshot.rs]): the contract as a class, the in-memory log and
    the hash-chained file log with its recovery. *)

From S2P Require Import Prelude.
From S2P Require Import Text.
From S2P Require Import Types.
From S2P Require Import Encoding.
From S2P Require Import Disk.
From S2P Require Import SyncTypes.
From Stdlib Require Import DecimalString.

Local Open Scope N_scope.

Definition REPLICATION_LOG_FORMAT_V1 : string := "# appcore-replication-log-v1".
Definition MAX_REPLICATION_LOG_BYTES : N := 256 * 1024 * 1024.
Definition MAX_REPLICATION_RECORD_BYTES : N := 1024 * 1024.
Definition SYNC_SNAPSHOT_FORMAT_V1 : N := 1.
Definition TAB : ascii := "009".

Record ReplicationRecord := {
  index : N;
  sequence : N;
  payload : list byte;
  previous_hash : string;
  record_hash : string;
}.

Record ReplicationSnapshotRecord := { snapshot_sequence : N; snapshot_payload : list byte }.
Record ReplicationSnapshot := {
  format_version : N;
  last_index : N;
  snapshot_records : list ReplicationSnapshotRecord;
  checksum : string;
}.

(** [ReplicationLog]: what a call meets outside is in [log_env]. *)
Class ReplicationLog (L : Type) := {
  log_env : Type;
  append_with_sequence : log_env → list byte → N → op L SyncError N;
  event_at_sequence : L → N → SyncResult (option (list byte));
  events_since : L → N → SyncResult (list (list byte));
  log_len : L → N;
  create_snapshot : L → SyncResult ReplicationSnapshot;
  restore_snapshot : log_env → ReplicationSnapshot → op L SyncError ();
}.

Section Log.
Context (sha256 : list byte → list byte).

Definition validate_record_size (p : list byte) : SyncResult () :=
  if MAX_REPLICATION_RECORD_BYTES <? lenN p then
    Err (ReplicationFailed "replication record exceeds size limit")
  else Ok ().

Definition record_preimage (previous : string) (seq : N) (p : list byte) : list byte :=
  str_bytes REPLICATION_LOG_FORMAT_V1 ++ be_bytes 8 (str_len previous) ++ str_bytes previous ++
  be_bytes 8 seq ++ be_bytes 8 (lenN p) ++ p.
Definition replication_record_hash (previous : string) (seq : N) (p : list byte) : string :=
  bytes_to_hex (sha256 (record_preimage previous seq p)).

(** ** Snapshots *)

Definition snapshot_preimage (version last : N) (l : list ReplicationSnapshotRecord) : list byte :=
  be_bytes 2 version ++ be_bytes 8 last ++ be_bytes 8 (lenN l) ++
  concat (map (λ r, be_bytes 8 (snapshot_sequence r) ++ be_bytes 8 (lenN (snapshot_payload r)) ++
                    snapshot_payload r) l).
Definition snapshot_checksum (version last : N) (l : list ReplicationSnapshotRecord) : string :=
  bytes_to_hex (sha256 (snapshot_preimage version last l)).

Definition snapshot_from_records (l : list ReplicationRecord) : ReplicationSnapshot :=
  let rs := map (λ r, {| snapshot_sequence := sequence r; snapshot_payload := payload r |}) l in
  {| format_version := SYNC_SNAPSHOT_FORMAT_V1; last_index := lenN rs; snapshot_records := rs;
     checksum := snapshot_checksum SYNC_SNAPSHOT_FORMAT_V1 (lenN rs) rs |}.

(** The loop of [snapshot_records], from offset [n]. *)
Fixpoint rebuild_records (n : N) (seen : gset N) (previous : string) (l : list ReplicationSnapshotRecord) :
    SyncResult (list ReplicationRecord) :=
  match l with
  | [] => Ok []
  | r :: l' =>
    let seq := snapshot_sequence r in
    let p := snapshot_payload r in
    _ ← validate_record_size p;
    if (0 <? seq) && bool_decide (seq ∈ seen) then Err (InvalidSnapshot "duplicate sequence")
    else
      let hash := replication_record_hash previous seq p in
      rs ← rebuild_records (n + 1) (if 0 <? seq then {[seq]} ∪ seen else seen) hash l';
      Ok ({| index := n + 1; sequence := seq; payload := p; previous_hash := previous;
             record_hash := hash |} :: rs)
  end.

Definition validate_snapshot (s : ReplicationSnapshot) : SyncResult (list ReplicationRecord) :=
  if negb (format_version s =? SYNC_SNAPSHOT_FORMAT_V1) then
    Err (InvalidSnapshot "unsupported format version")
  else if negb (last_index s =? lenN (snapshot_records s)) then
    Err (InvalidSnapshot "last index mismatch")
  else if negb (bool_decide (checksum s =
                  snapshot_checksum (format_version s) (last_index s) (snapshot_records s))) then
    Err (InvalidSnapshot "checksum mismatch")
  else rebuild_records 0 ∅ EmptyString (snapshot_records s).

(** ** [InMemoryReplicationLog] *)

Record InMemoryReplicationLog := {
  log_events : list ReplicationRecord;
  sequence_indices : gmap N nat;
}.
Definition memory_new : InMemoryReplicationLog := {| log_events := []; sequence_indices := ∅ |}.

(** [sequence_indices] of a list: the last offset of each sequence. *)
Definition indices_of (l : list ReplicationRecord) : gmap N nat :=
  foldl (λ m '(i, r), <[sequence r := i]> m) ∅ (imap pair l).

(** The record of a sequence, as both logs look it up. *)
Definition find_sequence (l : list ReplicationRecord) (m : gmap N nat) (seq : N) : option ReplicationRecord :=
  offset ← m !! seq; l !! offset.

Definition last_hash (l : list ReplicationRecord) : string :=
  match last l with Some r => record_hash r | None => EmptyString end.

Definition next_record (l : list ReplicationRecord) (p : list byte) (seq : N) : ReplicationRecord :=
  {| index := lenN l + 1; sequence := seq; payload := p; previous_hash := last_hash l;
     record_hash := replication_record_hash (last_hash l) seq p |}.

Definition memory_append (p : list byte) (seq : N) : op InMemoryReplicationLog SyncError N :=
  _ ← op_lift (validate_record_size p);
  t ← op_get;
  match (if 0 <? seq then find_sequence (log_events t) (sequence_indices t) seq else None) with
  | Some existing =>
    if bool_decide (payload existing = p) then mret (index existing) else op_fail (SequenceConflict seq)
  | None =>
    let r := next_record (log_events t) p seq in
    _ ← op_modify (λ t, {| log_events := log_events t ++ [r];
                           sequence_indices := <[seq := length (log_events t)]> (sequence_indices t) |});
    mret (index r)
  end.

Definition find_event (l : list ReplicationRecord) (m : gmap N nat) (seq : N) :
    SyncResult (option (list byte)) :=
  Ok (if 0 <? seq then payload <$> find_sequence l m seq else None).
Definition payloads_since (l : list ReplicationRecord) (n : N) : SyncResult (list (list byte)) :=
  if lenN l <? n then Err (LogIndexOutOfBounds n (lenN l))
  else Ok (map payload (drop (N.to_nat n) l)).

Definition memory_restore (s : ReplicationSnapshot) : op InMemoryReplicationLog SyncError () :=
  rs ← op_lift (validate_snapshot s);
  op_modify (λ _, {| log_events := rs; sequence_indices := indices_of rs |}).

#[export] Instance memory_log : ReplicationLog InMemoryReplicationLog := {
  log_env := ();
  append_with_sequence _ := memory_append;
  event_at_sequence t := find_event (log_events t) (sequence_indices t);
  events_since t := payloads_since (log_events t);
  log_len t := lenN (log_events t);
  create_snapshot t := Ok (snapshot_from_records (log_events t));
  restore_snapshot _ := memory_restore;
}.

(** ** [FileReplicationLog] *)

(** The file is part of the state; other processes may change it between the
    calls, which take a lock. *)
Record FileReplicationLog := {
  file_events : list ReplicationRecord;
  file_indices : gmap N nat;
  log_file : string;
}.

(** The outcomes of the file system in one call: the lock, the read and the
    rewrite of [reload_unlocked], the size, the append. *)
Record LogIo := {
  locked : SyncResult ();
  opened : SyncResult ();
  recovered : AtomicWrite;
  measured : SyncResult ();
  written : Append;
  replaced : AtomicWrite;
}.

Definition corrupt_log (line_number : N) (reason : string) : SyncError :=
  CorruptReplicationLog (line_number + 1) reason.

Definition record_line (r : ReplicationRecord) : string :=
  show_u64 (sequence r) +:+ String TAB (bytes_to_hex (payload r) +:+
    String TAB (previous_hash r +:+ String TAB (record_hash r +:+ String LF EmptyString))).

(** The loop of [parse_replication_records] from line [n] after the records
    [rs]. *)
Fixpoint parse_lines (n : N) (rs : list ReplicationRecord) (sequences : gmap N nat) (ls : list string) :
    SyncResult (list ReplicationRecord) :=
  match ls with
  | [] => Ok rs
  | line :: ls' =>
    if bool_decide (trim line = EmptyString) then parse_lines (n + 1) rs sequences ls'
    else
      match split_on TAB line with
      | [f0; f1; f2; f3] =>
        seq ← ok_or (corrupt_log n "invalid sequence") (parse_u64 f0);
        p ← map_err (λ _, corrupt_log n "invalid event hex") (hex_to_bytes f1);
        _ ← validate_record_size p;
        let head := last_hash rs in
        let hash := replication_record_hash head seq p in
        if negb (bool_decide (f2 = head)) || negb (bool_decide (f3 = hash)) then
          Err (corrupt_log n "hash chain mismatch")
        else
          match (if 0 <? seq then find_sequence rs sequences seq else None) with
          | Some r =>
            if bool_decide (payload r = p) then Err (corrupt_log n "duplicate sequence")
            else Err (SequenceConflict seq)
          | None =>
            parse_lines (n + 1) (rs ++ [next_record rs p seq]) (<[seq := length rs]> sequences) ls'
          end
      | [_] => Err (corrupt_log n "missing separator")
      | _ => Err (corrupt_log n "invalid field count")
      end
  end.

Definition parse_replication_records (body : string) : SyncResult (list ReplicationRecord * bool) :=
  let '(complete, recovered_tail) := complete_line_prefix body in
  rs ← parse_lines 0 [] ∅ (lines complete);
  Ok (rs, recovered_tail).

(** The loop of [write_replication_records]. *)
Fixpoint records_text (output : string) (previous : string) (l : list ReplicationRecord) : SyncResult string :=
  match l with
  | [] => Ok output
  | r :: l' =>
    _ ← validate_record_size (payload r);
    let hash := replication_record_hash previous (sequence r) (payload r) in
    let output := output +:+ record_line {| index := index r; sequence := sequence r; payload := payload r;
                                            previous_hash := previous; record_hash := hash |} in
    if MAX_REPLICATION_LOG_BYTES <? str_len output then
      Err (ReplicationFailed "replication log exceeds configured limit")
    else records_text output hash l'
  end.
Definition write_replication_records (w : AtomicWrite) (l : list ReplicationRecord) :
    op string SyncError () :=
  text ← op_lift (records_text (REPLICATION_LOG_FORMAT_V1 +:+ String LF EmptyString) EmptyString l);
  sync_atomic_write w text.

Definition on_log_file {A} (o : op string SyncError A) : op FileReplicationLog SyncError A := λ t,
  let '(r, text) := o (log_file t) in
  (r, {| file_events := file_events t; file_indices := file_indices t; log_file := text |}).

Definition set_records (rs : list ReplicationRecord) : op FileReplicationLog SyncError () :=
  op_modify (λ t, {| file_events := rs; file_indices := indices_of rs; log_file := log_file t |}).

Definition reload_unlocked (io : LogIo) : op FileReplicationLog SyncError () :=
  t ← op_get;
  text ← op_lift (read_bounded_text (opened io) (log_file t) MAX_REPLICATION_LOG_BYTES);
  body ← op_lift (split_format text REPLICATION_LOG_FORMAT_V1);
  '(rs, recovered_tail) ← op_lift (parse_replication_records body);
  _ ← (if recovered_tail : bool then on_log_file (write_replication_records (recovered io) rs) else mret ());
  set_records rs.

Definition reload (io : LogIo) : op FileReplicationLog SyncError () :=
  _ ← op_lift (locked io);
  reload_unlocked io.

(** The path checks of [FileReplicationLog::new], on Unix paths. *)
Definition invalid_relative_path (p : string) : bool :=
  bool_decide (p = EmptyString) || str_prefix "/" p || bool_decide (".."%string ∈ split_on "/" p).
Definition file_log_new (io : LogIo) (relative_path : string) :
    op (option string) SyncError FileReplicationLog := λ disk,
  if invalid_relative_path relative_path then
    (Err (ReplicationFailed "invalid replication log path"), disk)
  else
    match locked io with
    | Err e => (Err e, disk)
    | Ok _ =>
      let '(created, disk) :=
        match disk with
        | Some t => (Ok (), Some t)
        | None =>
          let '(r, t) := sync_atomic_write (replaced io)
                           (REPLICATION_LOG_FORMAT_V1 +:+ String LF EmptyString) EmptyString in
          (r, if bool_decide (t = EmptyString) then None else Some t)
        end in
      match created with
      | Err e => (Err e, disk)
      | Ok _ =>
        let '(r, t) := reload_unlocked io {| file_events := []; file_indices := ∅;
                                             log_file := default EmptyString disk |} in
        (_ ← r; Ok t, Some (log_file t))
      end
    end.

Definition file_append (io : LogIo) (p : list byte) (seq : N) : op FileReplicationLog SyncError N :=
  _ ← op_lift (locked io);
  _ ← reload_unlocked io;
  _ ← op_lift (validate_record_size p);
  t ← op_get;
  match (if 0 <? seq then find_sequence (file_events t) (file_indices t) seq else None) with
  | Some existing =>
    if bool_decide (payload existing = p) then mret (index existing) else op_fail (SequenceConflict seq)
  | None =>
    let r := next_record (file_events t) p seq in
    let line := record_line r in
    _ ← op_lift (measured io);
    if match checked_add64 (str_len (log_file t)) (str_len line) with
       | None => true
       | Some bytes => MAX_REPLICATION_LOG_BYTES <? bytes
       end
    then op_fail (ReplicationFailed "replication log exceeds configured limit")
    else
      _ ← on_log_file (append_text replication_failed "" "" "" (written io) line);
      _ ← op_modify (λ t, {| file_events := file_events t ++ [r];
                             file_indices := <[seq := length (file_events t)]> (file_indices t);
                             log_file := log_file t |});
      mret (index r)
  end.

Definition file_restore (io : LogIo) (s : ReplicationSnapshot) : op FileReplicationLog SyncError () :=
  _ ← op_lift (locked io);
  rs ← op_lift (validate_snapshot s);
  _ ← on_log_file (write_replication_records (replaced io) rs);
  set_records rs.

#[export] Instance file_log : ReplicationLog FileReplicationLog := {
  log_env := LogIo;
  append_with_sequence := file_append;
  event_at_sequence t := find_event (file_events t) (file_indices t);
  events_since t := payloads_since (file_events t);
  log_len t := lenN (file_events t);
  create_snapshot t := Ok (snapshot_from_records (file_events t));
  restore_snapshot := file_restore;
}.

(** ** The log as a list

    The abstract log is the list of the sequences and payloads; everything
    else in a log is determined by it. *)

Abbreviation entry := (N * list byte)%type.

Definition spec_append (p : list byte) (seq : N) (L : list entry) : SyncResult N * list entry :=
  match validate_record_size p with
  | Err e => (Err e, L)
  | Ok _ =>
    match (if 0 <? seq then list_find (λ e, e.1 = seq) L else None) with
    | Some (i, (_, p')) =>
      (if bool_decide (p' = p) then Ok (N.of_nat i + 1) else Err (SequenceConflict seq), L)
    | None => (Ok (lenN L + 1), L ++ [(seq, p)])
    end
  end.

Definition records_of (L : list entry) : list ReplicationRecord :=
  foldl (λ rs '(seq, p), rs ++ [next_record rs p seq]) [] L.

(** Sequences are [u64]s, positive ones occur once, payloads fit. *)
Record valid_entries (L : list entry) : Prop := {
  entries_fit seq p : (seq, p) ∈ L → seq ≤ u64_max ∧ validate_record_size p = Ok ();
  entries_unique : NoDup (filter (λ seq, 0 < seq) L.*1);
}.

Lemma records_of_snoc L seq p :
  records_of (L ++ [(seq, p)]) = records_of L ++ [next_record (records_of L) p seq].
Proof. unfold records_of. by rewrite foldl_app. Qed.

Lemma records_of_entries L : map (λ r, (sequence r, payload r)) (records_of L) = L.
Proof.
  induction L as [|[seq p] L IH] using rev_ind; [done|]. by rewrite records_of_snoc, map_app, IH.
Qed.
Lemma records_of_length L : length (records_of L) = length L.
Proof. by rewrite <- (records_of_entries L) at 2; rewrite length_map. Qed.
Lemma records_of_lookup L i seq p :
  L !! i = Some (seq, p) →
  ∃ r, records_of L !! i = Some r ∧ index r = N.of_nat i + 1 ∧ sequence r = seq ∧ payload r = p.
Proof.
  induction L as [|[seq0 p0] L IH] using rev_ind; [done|]. rewrite records_of_snoc.
  rewrite !lookup_app, records_of_length. destruct (L !! i) as [e|] eqn:E.
  - intros [= ->]. destruct (IH eq_refl) as (r & Hr & H). exists r. by rewrite Hr.
  - apply lookup_ge_None in E. rewrite (proj2 (lookup_ge_None (records_of L) i)) by (by rewrite records_of_length).
    destruct (i - length L)%nat eqn:Hi; [|done]. simpl. intros [= <- <-]. eexists. split; [done|].
    cbn [next_record index sequence payload]. rewrite records_of_length. split_and!; [lia|done..].
Qed.

Lemma indices_of_snoc rs r : indices_of (rs ++ [r]) = <[sequence r := length rs]> (indices_of rs).
Proof. unfold indices_of. rewrite imap_app, foldl_app. simpl. by rewrite Nat.add_0_r. Qed.

Lemma valid_prefix L e : valid_entries (L ++ [e]) → valid_entries L.
Proof.
  intros [H1 H2]. split.
  - intros seq p Hin. apply H1. set_solver.
  - rewrite fmap_app, filter_app in H2. by apply NoDup_app in H2 as (? & _).
Qed.

Lemma valid_fresh L seq p : valid_entries (L ++ [(seq, p)]) → 0 < seq → seq ∉ L.*1.
Proof.
  intros [_ H] Hs Hin. rewrite fmap_app, filter_app in H. apply NoDup_app in H as (_ & H & _).
  apply (H seq); [by apply list_elem_of_filter|]. cbn [fmap list_fmap].
  rewrite filter_cons_True by done. by left.
Qed.

Lemma valid_snoc L seq p :
  valid_entries L → seq ≤ u64_max → validate_record_size p = Ok () → (0 < seq → seq ∉ L.*1) →
  valid_entries (L ++ [(seq, p)]).
Proof.
  intros [H1 H2] Hs Hp Hf. split.
  - intros s' p' [Hin|Hin]%elem_of_app; [by apply H1|]. apply list_elem_of_singleton in Hin. by simplify_eq.
  - rewrite fmap_app, filter_app. cbn [fmap list_fmap]. destruct (decide (0 < seq)) as [Hpos|Hz].
    + rewrite filter_cons_True by done. apply NoDup_app. split_and!; [done| |apply NoDup_singleton].
      intros x [_ Hx]%list_elem_of_filter Hx'. apply list_elem_of_singleton in Hx' as ->. by apply Hf.
    + rewrite filter_cons_False by done. by rewrite app_nil_r.
Qed.

(** Looking a sequence up by its index finds its entry. *)
Lemma find_indexed L seq :
  valid_entries L → 0 < seq →
  find_sequence (records_of L) (indices_of (records_of L)) seq =
    ('(i, _) ← list_find (λ e : entry, e.1 = seq) L; records_of L !! i).
Proof.
  intros Hv Hs. induction L as [|[seq0 p0] L IH] using rev_ind; [done|].
  specialize (IH (valid_prefix _ _ Hv)). rewrite records_of_snoc, indices_of_snoc. cbn [next_record sequence].
  unfold find_sequence in *. destruct (decide (seq0 = seq)) as [->|Hne].
  - rewrite lookup_insert_eq. cbn [mbind option_bind].
    rewrite (list_find_app_r _ L) by
      (apply list_find_None, Forall_forall; intros [s' p'] Hin Heq; simpl in Heq; subst s';
       apply (valid_fresh _ _ _ Hv Hs); by apply (list_elem_of_fmap_2 fst _ (seq, p'))).
    cbn [list_find]. rewrite decide_True by done. cbn [fmap option_fmap option_map mbind option_bind prod_map].
    by rewrite records_of_length.
  - rewrite lookup_insert_ne by done. destruct (list_find _ L) as [[i e]|] eqn:E.
    + rewrite (list_find_app_l _ _ _ _ _ E). cbn [mbind option_bind] in *.
      apply list_find_Some in E as (Hi & _ & _). apply lookup_lt_Some in Hi.
      rewrite (lookup_app_l (records_of L) _ i) by (by rewrite records_of_length). rewrite <- IH.
      destruct (indices_of (records_of L) !! seq) as [j|]; [|done]. cbn [mbind option_bind] in *.
      destruct (records_of L !! j) as [r|] eqn:Ej; [by apply lookup_app_l_Some|].
      symmetry in IH. apply lookup_ge_None in IH. rewrite records_of_length in IH. lia.
    + rewrite (list_find_app_r _ _ _ E). cbn [list_find]. rewrite decide_False by done.
      cbn [fmap option_fmap option_map mbind option_bind] in *.
      destruct (indices_of (records_of L) !! seq) as [j|] eqn:Ej; [|done]. cbn [mbind option_bind] in *.
      exfalso. assert (∀ rs s j', indices_of rs !! s = Some j' → (j' < length rs)%nat) as Hlt.
      { clear. induction rs as [|r rs IH] using rev_ind; [done|]. intros s j'.
        rewrite indices_of_snoc, length_app. simpl. destruct (decide (s = sequence r)) as [->|?].
        - rewrite lookup_insert_eq. intros [= <-]. lia.
        - rewrite lookup_insert_ne by done. intros H%IH. lia. }
      apply lookup_ge_None in IH. apply Hlt in Ej. lia.
Qed.

Lemma find_cases L seq :
  valid_entries L →
  let found := if 0 <? seq then find_sequence (records_of L) (indices_of (records_of L)) seq else None in
  match (if 0 <? seq then list_find (λ e : entry, e.1 = seq) L else None) with
  | Some (i, (_, p')) => ∃ r, found = Some r ∧ index r = N.of_nat i + 1 ∧ payload r = p'
  | None => found = None ∧ (0 < seq → seq ∉ L.*1)
  end.
Proof.
  intros Hv. destruct (N.ltb_spec 0 seq) as [Hs|Hs]; [|split; [done|lia]].
  rewrite find_indexed by done. destruct (list_find _ L) as [[i [s' p']]|] eqn:E.
  - apply list_find_Some in E as (Hi & _ & _). cbn [mbind option_bind].
    destruct (records_of_lookup _ _ _ _ Hi) as (r & -> & ? & _ & ?). eauto.
  - split; [done|]. intros _ Hin. apply list_elem_of_fmap in Hin as (e & -> & He).
    apply list_find_None in E. rewrite Forall_forall in E. by apply (E e).
Qed.

Lemma spec_append_cases p seq L :
  (spec_append p seq L).2 = L ∨
  ∃ i, (spec_append p seq L).2 = L ++ [(seq, p)] ∧ (spec_append p seq L).1 = Ok i.
Proof. unfold spec_append. repeat case_match; eauto. Qed.

Lemma spec_append_valid p seq L :
  valid_entries L → seq ≤ u64_max → valid_entries (spec_append p seq L).2.
Proof.
  intros Hv Hs. unfold spec_append. destruct (validate_record_size p) as [[]|e] eqn:Hp; [|done].
  pose proof (find_cases L seq Hv) as Hf. destruct (if 0 <? seq then list_find _ _ else None) as [[i [s' p']]|]; [done|].
  apply valid_snoc; [done..|apply Hf].
Qed.

Definition memory_of (L : list entry) : InMemoryReplicationLog :=
  {| log_events := records_of L; sequence_indices := indices_of (records_of L) |}.

Lemma memory_append_run p seq L :
  valid_entries L → memory_append p seq (memory_of L) =
    ((spec_append p seq L).1, memory_of (spec_append p seq L).2).
Proof.
  intros Hv. unfold memory_append, spec_append.
  destruct (validate_record_size p) as [[]|e]; autorewrite with op; [|done].
  pose proof (find_cases L seq Hv) as Hf. cbn [log_events sequence_indices memory_of].
  destruct (if 0 <? seq then list_find _ _ else None) as [[i [s' p']]|].
  - destruct Hf as (r & -> & Hi & ->). rewrite Hi. case_bool_decide; by autorewrite with op.
  - destruct Hf as [-> _]. autorewrite with op. cbn [fst snd]. unfold memory_of.
    rewrite records_of_snoc, indices_of_snoc. cbn [index sequence next_record log_events sequence_indices].
    by rewrite !records_of_length.
Qed.

(** ** The text of a log *)

Definition lines_from (L0 L : list entry) : string :=
  (fix go (L0 L : list entry) : string :=
     match L with
     | [] => EmptyString
     | (seq, p) :: L' => record_line (next_record (records_of L0) p seq) +:+ go (L0 ++ [(seq, p)]) L'
     end) L0 L.
Definition log_header : string := REPLICATION_LOG_FORMAT_V1 +:+ String LF EmptyString.
Definition log_text (L : list entry) : string := log_header +:+ lines_from [] L.

Lemma lines_from_cons L0 seq p L :
  lines_from L0 ((seq, p) :: L) =
  record_line (next_record (records_of L0) p seq) +:+ lines_from (L0 ++ [(seq, p)]) L.
Proof. done. Qed.
Lemma lines_from_snoc L0 L seq p :
  lines_from L0 (L ++ [(seq, p)]) =
  lines_from L0 L +:+ record_line (next_record (records_of (L0 ++ L)) p seq).
Proof.
  revert L0. induction L as [|[seq0 p0] L IH]; intros L0; cbn [app].
  - rewrite lines_from_cons. cbn [lines_from]. by rewrite app_nil_r, string_app_empty_r.
  - rewrite !lines_from_cons, IH, <- app_assoc. cbn [app]. by autorewrite with text.
Qed.
Lemma log_text_snoc L seq p :
  log_text (L ++ [(seq, p)]) = log_text L +:+ record_line (next_record (records_of L) p seq).
Proof. unfold log_text. rewrite lines_from_snoc. by autorewrite with text. Qed.

Lemma last_hash_hex L : str_every hex_char (last_hash (records_of L)).
Proof.
  induction L as [|[seq p] L IH] using rev_ind; [done|]. rewrite records_of_snoc.
  unfold last_hash. rewrite last_snoc. apply bytes_to_hex_chars.
Qed.

(** A line without its line feed. *)
Definition line_body (r : ReplicationRecord) : string :=
  show_u64 (sequence r) +:+ String TAB (bytes_to_hex (payload r) +:+
    String TAB (previous_hash r +:+ String TAB (record_hash r))).
Lemma record_line_body r : record_line r = line_body r +:+ String LF EmptyString.
Proof. unfold record_line, line_body. by autorewrite with text. Qed.

Definition plain_char (c : ascii) : Prop := hex_char c ∨ c = TAB.
Lemma digits_hex s : str_digits s → str_every hex_char s.
Proof. induction s as [|c s IH]; simpl; [done|]. intros [[? ?] ?]. split; [left; lia|auto]. Qed.
Lemma str_every_mono (P Q : ascii → Prop) s : (∀ c, P c → Q c) → str_every P s → str_every Q s.
Proof. intros H. induction s as [|c s IH]; simpl; naive_solver. Qed.

Lemma line_plain rs p seq :
  str_every hex_char (last_hash rs) → str_every plain_char (line_body (next_record rs p seq)).
Proof.
  intros Hh. unfold line_body. cbn [next_record sequence payload previous_hash record_hash].
  assert (∀ s, str_every hex_char s → str_every plain_char s) as Hm by (intros s; apply str_every_mono; by left).
  assert (∀ s, str_every plain_char s → str_every plain_char (String TAB s)) as Ht by (split; [by right|done]).
  rewrite str_every_app. split; [apply Hm, digits_hex, show_u64_digits|]. apply Ht.
  rewrite str_every_app. split; [apply Hm, bytes_to_hex_chars|]. apply Ht.
  rewrite str_every_app. split; [by apply Hm|]. apply Ht. apply Hm, bytes_to_hex_chars.
Qed.

Lemma plain_not c : ¬ hex_char c → c ≠ TAB → ¬ plain_char c.
Proof. intros ? ? [?|?]; done. Qed.
Lemma hex_char_TAB : ¬ hex_char TAB.
Proof. unfold hex_char, TAB. vm_compute. intuition congruence. Qed.
Lemma plain_char_LF : ¬ plain_char LF.
Proof. apply plain_not; [|done]. unfold hex_char. vm_compute. intuition congruence. Qed.
Lemma plain_char_CR : ¬ plain_char CR.
Proof. apply plain_not; [|done]. unfold hex_char. vm_compute. intuition congruence. Qed.
Lemma plain_ascii s : str_every plain_char s → str_ascii s.
Proof. apply str_every_ascii. intros c [?| ->]; [unfold hex_char in *; lia|done]. Qed.

Lemma show_u64_solid n : ∃ c s, show_u64 n = String c s ∧ solid c.
Proof.
  pose proof (show_u64_digits n) as Hd. unfold show_u64 in *.
  destruct (N.to_uint n) eqn:E; [by apply N_to_uint_not_nil in E|..];
    cbn [NilEmpty.string_of_uint] in *; eexists _, _; (split; [reflexivity|split; by vm_compute]).
Qed.

Lemma line_not_blank r : trim (line_body r) ≠ EmptyString.
Proof.
  unfold line_body. destruct (show_u64_solid (sequence r)) as (c & s & -> & Hc).
  rewrite string_app_cons. by apply trim_not_empty.
Qed.

Lemma line_fields rs p seq :
  str_every hex_char (last_hash rs) →
  split_on TAB (line_body (next_record rs p seq)) =
  [show_u64 seq; bytes_to_hex p; last_hash rs; replication_record_hash (last_hash rs) seq p].
Proof.
  intros Hh. unfold line_body. cbn [next_record sequence payload previous_hash record_hash].
  assert (∀ s, str_every hex_char s → str_free TAB s) as Hf by (intros s; apply hex_char_free, hex_char_TAB).
  rewrite !split_on_app, split_on_free; eauto using bytes_to_hex_chars, digits_hex, show_u64_digits.
Qed.

(** ** Reading a log file *)

Lemma parse_lines_spec n L0 L torn :
  valid_entries (L0 ++ L) → str_free LF torn →
  split_last_line (lines_from L0 L +:+ torn) = (lines_from L0 L, torn) ∧
  parse_lines n (records_of L0) (indices_of (records_of L0)) (lines (lines_from L0 L)) =
    Ok (records_of (L0 ++ L)) ∧
  str_ascii (lines_from L0 L).
Proof.
  revert n L0. induction L as [|[seq p] L IH]; intros n L0 Hv Ht.
  - cbn [lines_from]. rewrite string_app_nil, split_last_line_free, app_nil_r by done. done.
  - assert (L0 ++ (seq, p) :: L = (L0 ++ [(seq, p)]) ++ L) as Happ by by rewrite <- app_assoc.
    rewrite Happ in *. destruct (IH (n + 1) (L0 ++ [(seq, p)]) Hv Ht) as (Hs & Hp & Ha).
    assert (Hv0 : valid_entries (L0 ++ [(seq, p)])).
    { clear -sha256 Hv. induction L as [|e L IH] using rev_ind; [by rewrite app_nil_r in Hv|].
      apply IH. rewrite app_assoc in Hv. by apply valid_prefix in Hv. }
    set (rs := records_of L0) in *. pose proof (last_hash_hex L0) as Hh. fold rs in Hh.
    pose proof (line_plain rs p seq Hh) as Hpl.
    rewrite lines_from_cons, record_line_body. fold rs. set (body := line_body _) in *.
    autorewrite with text. split_and!.
    + rewrite split_last_line_app. by rewrite Hs.
    + rewrite lines_cons by (eapply str_every_free; [|exact Hpl]; auto using plain_char_LF, plain_char_CR).
      cbn [parse_lines]. rewrite bool_decide_eq_false_2 by apply line_not_blank.
      subst body. rewrite line_fields by done.
      destruct (entries_fit _ Hv0 seq p) as [Hseq Hsize]; [set_solver|].
      rewrite parse_show_u64 by done. cbn [ok_or mbind result_bind]. rewrite hex_roundtrip.
      cbn [map_err mbind result_bind]. rewrite Hsize. cbn [mbind result_bind].
      rewrite !bool_decide_eq_true_2 by done. cbn [negb orb].
      pose proof (find_cases L0 seq (valid_prefix _ _ Hv0)) as Hf. cbv zeta in Hf. fold rs in Hf.
      destruct (if 0 <? seq then list_find _ _ else None) as [[i [s' p']]|] eqn:E.
      * exfalso. destruct (N.ltb_spec 0 seq) as [Hpos|]; [|done].
        apply list_find_Some in E as (Hi & Heq & _). simpl in Heq. subst s'.
        apply (valid_fresh _ _ _ Hv0 Hpos). apply (list_elem_of_fmap_2 fst _ (seq, p')).
        by eapply list_elem_of_lookup_2.
      * destruct Hf as [Hf _]. rewrite Hf. subst rs.
        rewrite records_of_snoc, indices_of_snoc in Hp. cbn [sequence next_record] in Hp. exact Hp.
    + rewrite str_ascii_app. split; [by apply plain_ascii|]. split; [by vm_compute|done].
Qed.

Lemma records_text_spec L0 L :
  valid_entries (L0 ++ L) → str_len (log_text (L0 ++ L)) ≤ MAX_REPLICATION_LOG_BYTES →
  records_text (log_text L0) (last_hash (records_of L0)) (drop (length L0) (records_of (L0 ++ L))) =
  Ok (log_text (L0 ++ L)).
Proof.
  revert L0. induction L as [|[seq p] L IH]; intros L0 Hv Hlen.
  - rewrite app_nil_r, drop_ge by (by rewrite records_of_length). done.
  - assert (L0 ++ (seq, p) :: L = (L0 ++ [(seq, p)]) ++ L) as Happ by by rewrite <- app_assoc.
    rewrite Happ in *.
    destruct (records_of_lookup ((L0 ++ [(seq, p)]) ++ L) (length L0) seq p) as (r & Hr & _ & Hrs & Hrp).
    { rewrite <- Happ, lookup_app_r, Nat.sub_diag by lia. done. }
    rewrite (drop_S _ _ _ Hr). cbn [records_text]. rewrite Hrs, Hrp.
    destruct (entries_fit _ Hv seq p) as [_ ->]; [set_solver|]. cbn [mbind result_bind].
    assert (log_text L0 +:+ record_line {| index := index r; sequence := seq; payload := p;
      previous_hash := last_hash (records_of L0);
      record_hash := replication_record_hash (last_hash (records_of L0)) seq p |} =
      log_text (L0 ++ [(seq, p)])) as -> by by rewrite log_text_snoc.
    assert (str_len (log_text (L0 ++ [(seq, p)])) ≤ str_len (log_text ((L0 ++ [(seq, p)]) ++ L))) as Hle.
    { unfold log_text. assert (∀ K M, str_len (lines_from [] K) ≤ str_len (lines_from [] (K ++ M))) as H.
      { clear -sha256. intros K M. induction M as [|[s q] M IH] using rev_ind; [by rewrite app_nil_r|].
        rewrite app_assoc, lines_from_snoc. unfold str_len in *. rewrite string_length_app. lia. }
      unfold str_len in *. rewrite !string_length_app. specialize (H (L0 ++ [(seq, p)]) L). lia. }
    rewrite (proj2 (N.ltb_ge _ _)) by lia.
    specialize (IH (L0 ++ [(seq, p)]) Hv Hlen). rewrite records_of_snoc in IH.
    unfold last_hash in IH at 1. rewrite last_snoc in IH. cbn [record_hash next_record] in IH.
    rewrite length_app in IH. simpl in IH. by rewrite Nat.add_1_r in IH.
Qed.

(** The file holds the entries [L], then perhaps a torn line. *)
Definition holds (t : FileReplicationLog) (L : list entry) : Prop :=
  valid_entries L ∧ str_len (log_file t) ≤ MAX_REPLICATION_LOG_BYTES ∧
  ∃ torn, log_file t = log_text L +:+ torn ∧ str_every plain_char torn.

Definition file_of (L : list entry) : FileReplicationLog :=
  {| file_events := records_of L; file_indices := indices_of (records_of L); log_file := log_text L |}.

(** Everything but the append itself succeeds. *)
Definition readable (io : LogIo) : Prop :=
  locked io = Ok () ∧ opened io = Ok () ∧ recovered io = Written ∧ measured io = Ok ().

Lemma str_len_app_le s t : str_len s ≤ str_len (s +:+ t).
Proof. unfold str_len. rewrite string_length_app. lia. Qed.

Lemma on_log_file_run {A} (o : op string SyncError A) t :
  on_log_file o t = ((o (log_file t)).1,
    {| file_events := file_events t; file_indices := file_indices t; log_file := (o (log_file t)).2 |}).
Proof. unfold on_log_file. by destruct (o _). Qed.

Lemma reload_spec io t L : readable io → holds t L → reload_unlocked io t = (Ok (), file_of L).
Proof.
  intros (_ & H2 & H3 & _) (Hv & Hlen & torn & Ht & Hp).
  assert (Hf : str_free LF torn) by (eapply str_every_free; [apply plain_char_LF|done]).
  destruct (parse_lines_spec 0 [] L torn Hv Hf) as (Hs & Hparse & Ha).
  unfold reload_unlocked, read_bounded_text. autorewrite with op. rewrite H2. cbn [mbind result_bind].
  rewrite (proj2 (N.ltb_ge _ _) Hlen), Ht. unfold log_text.
  assert ((log_header +:+ lines_from [] L) +:+ torn = log_header +:+ lines_from [] L +:+ torn) as ->
    by by autorewrite with text.
  rewrite utf8_valid_ascii; cycle 1.
  { rewrite !str_ascii_app. split_and!; [by vm_compute|done|by apply plain_ascii]. }
  cbn [negb]. autorewrite with op. unfold split_format. fold log_header.
  rewrite (proj2 (str_prefix_spec log_header _)) by eauto. autorewrite with op. rewrite str_drop_app.
  unfold parse_replication_records, complete_line_prefix. rewrite Hs.
  change (@nil ReplicationRecord) with (records_of []). change (∅ : gmap N nat) with (indices_of (records_of [])).
  rewrite Hparse. cbn [mbind result_bind app]. autorewrite with op.
  destruct (bool_decide_reflect (torn = EmptyString)) as [->|Hne]; cbn [negb]; autorewrite with op.
  - unfold set_records, op_modify, file_of, log_text. by rewrite Ht, string_app_empty_r.
  - pose proof (records_text_spec [] L Hv) as Hr. cbn [app length] in Hr. rewrite drop_0 in Hr.
    change (log_text []) with (REPLICATION_LOG_FORMAT_V1 +:+ String LF EmptyString) in Hr.
    change (last_hash (records_of [])) with EmptyString in Hr.
    erewrite op_ok_bind; cycle 1.
    { rewrite on_log_file_run. unfold write_replication_records.
      rewrite Hr; cycle 1. { rewrite Ht in Hlen. pose proof (str_len_app_le (log_text L) torn). lia. }
      autorewrite with op. rewrite H3. reflexivity. }
    done.
Qed.

(** What the abstract log becomes when the file system does [a]. *)
Definition survives (a : Append) (line : string) (L L1 : list entry) : list entry :=
  match a with
  | Appended | Unsynced _ => L1
  | OpenFailed _ => L
  | Torn n _ => if (String.length line <=? n)%nat then L1 else L
  end.
Definition append_failure (a : Append) : option SyncError :=
  match a with
  | Appended => None
  | OpenFailed m | Torn _ m | Unsynced m => Some (ReplicationFailed m)
  end.
Definition over_limit (L L1 : list entry) : bool :=
  negb (length L1 =? length L)%nat && (MAX_REPLICATION_LOG_BYTES <? str_len (log_text L1)).

Lemma str_every_take P n s : str_every P s → str_every P (str_take n s).
Proof. revert n. induction s as [|c s IH]; intros [|n]; simpl; try done. intros [??]. split; [done|auto]. Qed.

Lemma file_append_refines io t L p seq :
  readable io → holds t L → seq ≤ u64_max →
  let '(r, t') := file_append io p seq t in
  let '(spec, L1) := spec_append p seq L in
  if over_limit L L1 then
    r = Err (ReplicationFailed "replication log exceeds configured limit") ∧ t' = file_of L ∧ holds t' L
  else if (length L1 =? length L)%nat then r = spec ∧ t' = file_of L ∧ holds t' L
  else
    match append_failure (written io) with
    | None => r = spec ∧ t' = file_of L1 ∧ holds t' L1
    | Some e => r = Err e ∧ holds t' (survives (written io) (record_line (next_record (records_of L) p seq)) L L1) ∧
                file_events t' = records_of L ∧ file_indices t' = indices_of (records_of L)
    end.
Proof.
  intros Hio Ht Hseq. pose proof Ht as (Hv & Hlen & torn & Htx & _).
  pose proof Hio as (H1 & _ & _ & H4).
  assert (Hbase : holds (file_of L) L).
  { split; [done|]. split; [|exists EmptyString; by rewrite string_app_empty_r].
    cbn [log_file file_of]. rewrite Htx in Hlen. pose proof (str_len_app_le (log_text L) torn). lia. }
  pose proof (spec_append_valid p seq L Hv Hseq) as Hv1.
  unfold file_append. rewrite H1. autorewrite with op.
  rewrite (op_ok_bind _ _ _ _ _ (reload_spec io t L Hio Ht)). unfold spec_append in *.
  destruct (validate_record_size p) as [[]|e]; autorewrite with op; cycle 1.
  { unfold over_limit. rewrite Nat.eqb_refl. done. }
  pose proof (find_cases L seq Hv) as Hf. cbv zeta in Hf. cbn [file_events file_indices file_of].
  destruct (if 0 <? seq then list_find _ _ else None) as [[i [s' p']]|].
  { destruct Hf as (r & -> & Hi & ->). unfold over_limit. rewrite Nat.eqb_refl. cbn [negb andb].
    case_bool_decide; autorewrite with op; rewrite ?Hi; done. }
  destruct Hf as [-> _]. rewrite H4. autorewrite with op. cbn [log_file file_of].
  set (L1 := L ++ [(seq, p)]) in *. set (line := record_line _) in *.
  assert (log_text L1 = log_text L +:+ line) as Hl1 by apply log_text_snoc.
  assert (length L1 =? length L = false)%nat as Hne by (subst L1; rewrite length_app; apply Nat.eqb_neq; simpl; lia).
  unfold over_limit. rewrite Hne, Hl1. cbn [negb andb].
  assert (str_len (log_text L +:+ line) = str_len (log_text L) + str_len line) as Hsum
    by (unfold str_len; rewrite string_length_app; lia).
  assert (match checked_add64 (str_len (log_text L)) (str_len line) with
    | None => true | Some bytes => MAX_REPLICATION_LOG_BYTES <? bytes end =
    (MAX_REPLICATION_LOG_BYTES <? str_len (log_text L +:+ line))) as ->.
  { rewrite Hsum. destruct (checked_add64 _ _) as [b|] eqn:E.
    - by apply checked_add_Some in E as [-> _].
    - apply checked_add_None in E. symmetry. apply N.ltb_lt.
      unfold MAX_REPLICATION_LOG_BYTES, u64_max in *. lia. }
  destruct (N.ltb_spec MAX_REPLICATION_LOG_BYTES (str_len (log_text L +:+ line))) as [|Hfit];
    autorewrite with op; [done|].
  assert (Hnext : ∀ rs m, holds {| file_events := rs; file_indices := m; log_file := log_text L +:+ line |} L1).
  { intros rs m. split; [done|]. split; [done|]. exists EmptyString.
    rewrite string_app_empty_r. cbn [log_file]. by rewrite Hl1. }
  destruct (written io) as [|m|n m|m] eqn:Hw; cbn [append_failure survives].
  - erewrite op_ok_bind by (rewrite on_log_file_run; reflexivity). autorewrite with op.
    cbn [file_events file_indices log_file file_of append_text op_modify snd index next_record].
    assert (Build_FileReplicationLog (records_of L ++ [next_record (records_of L) p seq])
      (<[seq:=length (records_of L)]> (indices_of (records_of L))) (log_text L +:+ line) = file_of L1) as Hfile.
    { unfold file_of. rewrite Hl1. subst L1. by rewrite records_of_snoc, indices_of_snoc. }
    unfold next_record at 1 in Hfile. cbn [fst snd]. unfold next_record in *. rewrite Hfile, records_of_length.
    split; [done|]. split; [done|]. unfold file_of. rewrite Hl1. apply Hnext.
  - erewrite op_err_bind by (rewrite on_log_file_run; reflexivity). done.
  - erewrite op_err_bind by (rewrite on_log_file_run; reflexivity). split; [done|].
    cbn [file_events file_indices log_file file_of append_text mbind op_bind op_modify op_fail snd].
    split; [|done]. fold line. destruct (Nat.leb_spec (String.length line) n).
    { rewrite str_take_all by done. apply Hnext. }
    assert (str_every plain_char (str_take n line)) as Hpl.
    { subst line. rewrite record_line_body in *. rewrite string_length_app in *. simpl in *.
      rewrite str_take_app_le by lia. apply str_every_take, line_plain, last_hash_hex. }
    split; [done|]. split; [|by exists (str_take n line)].
    etransitivity; [|exact Hfit].
    change (str_len (log_text L +:+ str_take n line) ≤ str_len (log_text L +:+ line)).
    unfold str_len. rewrite !string_length_app, str_length_take. lia.
  - erewrite op_err_bind by (rewrite on_log_file_run; reflexivity). split; [done|].
    split; [apply Hnext|done].
Qed.


(** ** Snapshots *)

Definition snapshot_entries (L : list entry) : list ReplicationSnapshotRecord :=
  map (λ '(seq, p), {| snapshot_sequence := seq; snapshot_payload := p |}) L.

Definition used (L : list entry) : gset N := list_to_set (filter (λ seq, 0 < seq) L.*1).

Lemma used_snoc L seq p :
  used (L ++ [(seq, p)]) = if 0 <? seq then {[seq]} ∪ used L else used L.
Proof.
  unfold used. rewrite fmap_app, filter_app. cbn [fmap list_fmap fst].
  destruct (N.ltb_spec 0 seq).
  - rewrite filter_cons_True by done. set_solver.
  - rewrite filter_cons_False by lia. by rewrite app_nil_r.
Qed.
Lemma elem_of_used L seq : seq ∈ used L ↔ 0 < seq ∧ seq ∈ L.*1.
Proof. unfold used. by rewrite elem_of_list_to_set, list_elem_of_filter. Qed.

(** The loop succeeds exactly on valid entries, and rebuilds their log. *)
Lemma rebuild_spec L0 L rs :
  valid_entries L0 → (∀ seq p, (seq, p) ∈ L → seq ≤ u64_max) →
  rebuild_records (lenN L0) (used L0) (last_hash (records_of L0)) (snapshot_entries L) = Ok rs ↔
  valid_entries (L0 ++ L) ∧ rs = drop (length L0) (records_of (L0 ++ L)).
Proof.
  revert L0 rs. induction L as [|[seq p] L IH]; intros L0 rs Hv Hfit.
  { cbn [snapshot_entries map rebuild_records]. rewrite app_nil_r, drop_ge by (by rewrite records_of_length).
    split; [intros [= <-]; done|intros [_ ->]; done]. }
  cbn [snapshot_entries map rebuild_records snapshot_sequence snapshot_payload]. fold (snapshot_entries L).
  assert (Hcons : L0 ++ (seq, p) :: L = (L0 ++ [(seq, p)]) ++ L) by by rewrite <- app_assoc.
  destruct (validate_record_size p) as [[]|e] eqn:Hp; cycle 1.
  { cbn [mbind result_bind]. split; [done|]. intros [Hval _].
    destruct (entries_fit _ Hval seq p) as [_ Hp']; [set_solver|]. congruence. }
  cbn [mbind result_bind].
  destruct ((0 <? seq) && bool_decide (seq ∈ used L0)) eqn:Hdup.
  { split; [done|]. intros [Hval _]. exfalso. apply andb_true_iff in Hdup as [Hpos%N.ltb_lt Hin%bool_decide_eq_true].
    apply elem_of_used in Hin as [_ Hin]. rewrite Hcons in Hval.
    assert (Hv0 : valid_entries (L0 ++ [(seq, p)])).
    { clear -sha256 Hval. induction L as [|e L IH] using rev_ind; [by rewrite app_nil_r in Hval|].
      apply IH. rewrite app_assoc in Hval. by apply valid_prefix in Hval. }
    by apply (valid_fresh _ _ _ Hv0 Hpos). }
  assert (Hv1 : valid_entries (L0 ++ [(seq, p)])).
  { apply valid_snoc; [done|by eapply Hfit; left|done|]. intros Hpos Hin.
    rewrite (proj2 (N.ltb_lt _ _) Hpos) in Hdup. apply bool_decide_eq_false in Hdup.
    apply Hdup, elem_of_used. done. }
  rewrite <- (used_snoc L0 seq p). replace (lenN L0 + 1) with (lenN (L0 ++ [(seq, p)]))
    by (rewrite length_app; simpl; lia).
  assert (Hlast : last_hash (records_of (L0 ++ [(seq, p)])) = replication_record_hash (last_hash (records_of L0)) seq p).
  { rewrite records_of_snoc. unfold last_hash at 1. by rewrite last_snoc. }
  rewrite <- Hlast, Hcons.
  assert (Hr : ∃ r, records_of ((L0 ++ [(seq, p)]) ++ L) !! length L0 = Some r ∧
    r = next_record (records_of L0) p seq).
  { assert (∀ K M i, (i < length K)%nat → records_of (K ++ M) !! i = records_of K !! i) as Hpre.
    { clear. intros K M i Hi. induction M as [|[s q] M IH] using rev_ind; [by rewrite app_nil_r|].
      rewrite app_assoc, records_of_snoc, lookup_app_l; [done|].
      rewrite records_of_length, length_app. lia. }
    rewrite Hpre by (rewrite length_app; simpl; lia). rewrite records_of_snoc, lookup_app_r by (by rewrite records_of_length).
    rewrite records_of_length, Nat.sub_diag. eauto. }
  destruct Hr as (r & Hr & Hreq).
  assert (Hidx : {| index := lenN (L0 ++ [(seq, p)]); sequence := seq; payload := p;
    previous_hash := last_hash (records_of L0); record_hash := last_hash (records_of (L0 ++ [(seq, p)])) |} = r).
  { rewrite Hreq, Hlast. unfold next_record. f_equal. rewrite records_of_length, length_app. simpl. lia. }
  specialize (IH (L0 ++ [(seq, p)])). rewrite Hidx. rewrite (drop_S _ _ _ Hr).
  assert (Hlen : length (L0 ++ [(seq, p)]) = S (length L0)) by (rewrite length_app; simpl; lia).
  destruct (rebuild_records _ _ _ _) as [rs'|e] eqn:E; cbn [mbind result_bind].
  - destruct (proj1 (IH rs' Hv1 ltac:(intros s q Hin; by eapply Hfit; right)) eq_refl) as [Hval Hrs'].
    rewrite Hlen in Hrs'. subst rs'. split; [intros [= <-]; done|intros [_ ->]; done].
  - split; [done|]. intros [Hval Hrs]. exfalso.
    pose proof (proj2 (IH (drop (length (L0 ++ [(seq, p)])) (records_of ((L0 ++ [(seq, p)]) ++ L))) Hv1
      ltac:(intros s q Hin; by eapply Hfit; right)) (conj Hval eq_refl)). done.
Qed.

Lemma snapshot_of_log L :
  map (λ r, {| snapshot_sequence := sequence r; snapshot_payload := payload r |}) (records_of L) =
  snapshot_entries L.
Proof.
  unfold snapshot_entries. rewrite <- (records_of_entries L) at 2. rewrite map_map. done.
Qed.

Lemma log_text_records L :
  valid_entries L → str_len (log_text L) ≤ MAX_REPLICATION_LOG_BYTES →
  records_text (REPLICATION_LOG_FORMAT_V1 +:+ String LF EmptyString) EmptyString (records_of L) = Ok (log_text L).
Proof. intros Hv Hlen. pose proof (records_text_spec [] L Hv Hlen) as Hr. by rewrite drop_0 in Hr. Qed.

(** Snapshots are exact. The snapshot of a log, restored into any log in
    memory or on a healthy disk, gives that log back with its whole hash
    chain; and a snapshot that is accepted is the snapshot of the log it
    gives, so that nothing else than such a log can be restored. *)
Theorem snapshots_restore_logs io s :
  locked io = Ok () → replaced io = Written →
  (∀ r, r ∈ snapshot_records s → snapshot_sequence r ≤ u64_max) →
  (∀ L t t', valid_entries L → s = snapshot_from_records (records_of L) →
     memory_restore s t = (Ok (), memory_of L) ∧
     (str_len (log_text L) ≤ MAX_REPLICATION_LOG_BYTES → file_restore io s t' = (Ok (), file_of L))) ∧
  (∀ rs, validate_snapshot s = Ok rs →
     ∃ L, valid_entries L ∧ rs = records_of L ∧ s = snapshot_from_records rs).
Proof.
  intros Hl Hw Hfit.
  assert (Hval : ∀ L, valid_entries L → validate_snapshot (snapshot_from_records (records_of L)) = Ok (records_of L)).
  { intros L Hv. unfold snapshot_from_records. rewrite snapshot_of_log. unfold validate_snapshot.
    cbn [format_version last_index checksum snapshot_records]. rewrite !N.eqb_refl, bool_decide_eq_true_2 by done.
    cbn [negb].
    apply (rebuild_spec [] L); [by split; [intros ?? ?%elem_of_nil|constructor]| |done].
    intros seq p Hin. by apply (entries_fit _ Hv seq p). }
  split.
  - intros L t t' Hv ->. split.
    + unfold memory_restore. rewrite Hval by done. by autorewrite with op.
    + intros Hlen. unfold file_restore. rewrite Hl. autorewrite with op. rewrite Hval by done.
      autorewrite with op. erewrite op_ok_bind; cycle 1.
      { rewrite on_log_file_run. unfold write_replication_records. rewrite log_text_records by done.
        autorewrite with op. rewrite Hw. reflexivity. }
      done.
  - intros rs. unfold validate_snapshot. destruct s as [v n l c]. cbn [format_version last_index checksum snapshot_records] in *.
    destruct (N.eqb_spec v SYNC_SNAPSHOT_FORMAT_V1) as [->|]; [|done].
    destruct (N.eqb_spec n (lenN l)) as [->|]; [|done]. case_bool_decide as Hc; [|done]. cbn [negb]. intros Hr.
    set (L := map (λ r, (snapshot_sequence r, snapshot_payload r)) l).
    assert (l = snapshot_entries L) as HlL.
    { subst L. unfold snapshot_entries. rewrite map_map. symmetry. rewrite <- (map_id l) at 2.
      apply map_ext. by intros []. }
    assert (∀ seq p, (seq, p) ∈ L → seq ≤ u64_max) as HfitL.
    { intros seq p. subst L. intros (r & [= -> ->] & Hin)%list_elem_of_fmap. by apply Hfit. }
    rewrite HlL in Hr. apply (rebuild_spec [] L rs) in Hr; [|by split; [intros ?? ?%elem_of_nil|constructor]|done].
    destruct Hr as [Hv ->]. cbn [app length] in *. rewrite drop_0. exists L. split_and!; [done..|].
    unfold snapshot_from_records. rewrite snapshot_of_log, <- HlL. by rewrite Hc.
Qed.

(** ** The interface of a log *)

(** What a client of a log may rely on: its view is a valid list of entries,
    looking a sequence up finds its entry, and an append first takes in what
    others appended and then answers as the list does, or fails. *)
Class ReplicationLogLaws (T : Type) (H : ReplicationLog T) := {
  log_ok : T → Prop;
  log_env_ok : @log_env T H → Prop;
  log_view : T → list entry;
  law_valid t : log_ok t → valid_entries (log_view t);
  law_event t seq : log_ok t → 0 < seq →
    event_at_sequence t seq = Ok (snd ∘ snd <$> list_find (λ e : entry, e.1 = seq) (log_view t));
  law_append e p seq t : log_env_ok e → log_ok t → seq ≤ u64_max →
    let '(r, t') := append_with_sequence e p seq t in
    log_ok t' ∧ ∃ L, log_view t `prefix_of` L ∧
      match r with
      | Ok i => spec_append p seq L = (Ok i, log_view t')
      | Err _ => log_view t' = L
      end;
}.

Definition view_of (rs : list ReplicationRecord) : list entry := map (λ r, (sequence r, payload r)) rs.

Lemma find_event_spec L seq :
  valid_entries L → 0 < seq →
  find_event (records_of L) (indices_of (records_of L)) seq =
    Ok (snd ∘ snd <$> list_find (λ e : entry, e.1 = seq) L).
Proof.
  intros Hv Hs. unfold find_event. pose proof (find_cases L seq Hv) as Hf. cbv zeta in Hf.
  rewrite (proj2 (N.ltb_lt 0 seq) Hs) in *.
  destruct (list_find _ L) as [[i [s' p']]|]; cbn [fmap option_fmap option_map compose snd].
  - destruct Hf as (r & -> & _ & <-). done.
  - by destruct Hf as [-> _].
Qed.

Lemma prefix_valid L L' : L `prefix_of` L' → valid_entries L' → valid_entries L.
Proof.
  intros [M ->]. induction M as [|e M IH] using rev_ind; [by rewrite app_nil_r|].
  rewrite app_assoc. intros H%valid_prefix. by apply IH.
Qed.

Definition memory_laws : ReplicationLogLaws InMemoryReplicationLog memory_log.
Proof.
  refine {|
    log_ok := λ t, ∃ L, valid_entries L ∧ t = memory_of L;
    log_env_ok := λ _, True;
    log_view := λ t, view_of (log_events t) |}.
  - intros t (L & Hv & ->). unfold view_of, memory_of. cbn [log_events]. by rewrite records_of_entries.
  - intros t seq (L & Hv & ->) Hs. unfold view_of. cbn [event_at_sequence memory_log memory_of log_events sequence_indices].
    rewrite records_of_entries. by apply find_event_spec.
  - intros e p seq t _ (L & Hv & ->) Hs. cbn [append_with_sequence memory_log].
    rewrite memory_append_run by done. split; [eauto using spec_append_valid|].
    exists L. unfold view_of. cbn [log_events memory_of]. rewrite !records_of_entries.
    split; [done|]. pose proof (surjective_pairing (spec_append p seq L)) as Hsp.
    destruct (spec_append p seq L) as [[i|er] L'] eqn:E; [done|]. cbn [snd].
    unfold spec_append in E. repeat case_match; by simplify_eq.
Defined.

(** For a file, as long as only the append itself can fail. *)
Definition file_laws : ReplicationLogLaws FileReplicationLog file_log.
Proof.
  refine {|
    log_ok := λ t, ∃ L Lf, holds t Lf ∧ L `prefix_of` Lf ∧ file_events t = records_of L ∧
                           file_indices t = indices_of (records_of L);
    log_env_ok := λ io : @log_env _ file_log, readable io;
    log_view := λ t, view_of (file_events t) |}.
  - intros t (L & Lf & (Hv & _) & Hp & -> & _). unfold view_of. rewrite records_of_entries.
    by eapply prefix_valid.
  - intros t seq (L & Lf & (Hv & _) & Hp & He & Hi) Hs. unfold view_of.
    cbn [event_at_sequence file_log]. rewrite He, Hi, records_of_entries.
    apply find_event_spec; [by eapply prefix_valid|done].
  - intros io p seq t Hio (L & Lf & Hh & Hp & He & Hi) Hs.
    cbn [append_with_sequence file_log]. unfold view_of. rewrite He, records_of_entries.
    pose proof (file_append_refines io t Lf p seq Hio Hh Hs) as Hr.
    destruct (file_append io p seq t) as [r t'].
    pose proof (spec_append_cases p seq Lf) as Hc.
    destruct (spec_append p seq Lf) as [spec L1] eqn:Esp. cbn [fst snd] in Hc.
    destruct (over_limit Lf L1); [|destruct (length L1 =? length Lf)%nat eqn:Elen].
    + destruct Hr as (-> & -> & Hh'). split; [exists Lf, Lf; done|]. exists Lf. split; [done|].
      cbn [file_events file_of]. by rewrite records_of_entries.
    + destruct Hr as (-> & -> & Hh'). split; [exists Lf, Lf; done|]. exists Lf. split; [done|].
      cbn [file_events file_of]. rewrite records_of_entries. destruct spec as [i|e]; [|done].
      destruct Hc as [->|(e & -> & _)]; [by rewrite Esp|]. rewrite length_app in Elen. simpl in Elen.
      apply Nat.eqb_eq in Elen. lia.
    + destruct (append_failure (written io)) as [e|].
      * destruct Hr as (-> & Hh' & He' & Hi'). rewrite He', records_of_entries.
        split; [|by exists Lf]. eexists Lf, _. split_and!; [exact Hh'| |done|done].
        assert (Lf `prefix_of` L1) as HL1 by (destruct Hc as [->|(e' & -> & _)]; [done|by eexists]).
        destruct (written io); simpl; try case_match; done.
      * destruct Hr as (-> & -> & Hh'). split; [exists L1, L1; done|]. exists Lf. split; [done|].
        cbn [file_events file_of]. rewrite records_of_entries. destruct spec as [i|e]; [done|].
        by destruct Hc as [->|(e' & -> & Hok)].
Defined.
End Log.

(** ** Witnesses *)

Module Demo.
Definition sha (x : list byte) : list byte := be_bytes 32 (lenN x).
Definition io (a : Append) : LogIo :=
  {| locked := Ok (); opened := Ok (); recovered := Written; measured := Ok (); written := a;
     replaced := Written |}.
Definition L : list (N * list byte) := [(1, [x61])].
(** The file of [L] with a torn line behind it, and nothing in memory yet. *)
Definition torn : FileReplicationLog :=
  {| file_events := []; file_indices := ∅; log_file := log_text sha L +:+ "2" |}.
Lemma L_valid : valid_entries L.
Proof.
  split; [|vm_compute; apply NoDup_singleton].
  intros seq p Hin. apply list_elem_of_singleton in Hin. by injection Hin as -> ->.
Qed.
Lemma torn_holds : holds sha torn L.
Proof.
  split; [exact L_valid|]. split; [vm_compute; discriminate|]. exists "2"%string.
  split; [reflexivity|]. split; [|done]. left. left. vm_compute. split; discriminate.
Qed.
End Demo.


Lemma snapshots_restore_logs_witness :
  memory_restore Demo.sha (snapshot_from_records Demo.sha (records_of Demo.sha Demo.L)) memory_new =
    (Ok (), memory_of Demo.sha Demo.L).
Proof.
  destruct (snapshots_restore_logs Demo.sha (Demo.io Appended)
    (snapshot_from_records Demo.sha (records_of Demo.sha Demo.L))) as [H _]; [done|done| |].
  - intros r Hin. vm_compute in Hin. apply list_elem_of_singleton in Hin as ->. vm_compute. discriminate.
  - apply (H Demo.L memory_new Demo.torn Demo.L_valid eq_refl).
Defined.
