(* ===== verification/SyncCheckpoint.v ===== *)
(** Per-peer checkpoints ([crates/appcore-sync/src/sync/checkpoint.rs]): the
    contract as a class with its laws, the in-memory store and the
    line-based file, which holds [peer=sequence,hash] lines. *)

From S2P Require Import Prelude.
From S2P Require Import Text.
From S2P Require Import Types.
From S2P Require Import Disk.
From S2P Require Import SyncTypes.
From Stdlib Require Import DecimalString.

Local Open Scope N_scope.

Definition SYNC_CHECKPOINT_FORMAT_V1 : string := "# appcore-sync-checkpoint-v1".
Definition MAX_CHECKPOINT_FILE_BYTES : N := 8 * 1024 * 1024.
Definition MAX_CHECKPOINT_PEER_ID_BYTES : N := 256.

Abbreviation Checkpoint := (N * string)%type.
Abbreviation CheckpointMap := (gmap string (N * string)).

Definition peer_char (c : ascii) : bool :=
  is_ascii_alphanumeric c || bool_decide (c ∈ ["."; "_"; ":"; "-"]%char).
Definition validate_peer_id (peer_id : string) : SyncResult () :=
  if bool_decide (peer_id = EmptyString) || (MAX_CHECKPOINT_PEER_ID_BYTES <? str_len peer_id) then
    Err InvalidPeerId
  else if negb (str_all peer_char peer_id) then Err InvalidPeerId
  else Ok ().

Definition is_ascii_hexdigit (c : ascii) : bool :=
  is_ascii_digit c || in_range 97 102 c || in_range 65 70 c.
Definition validate_checkpoint_hash (hash : string) : SyncResult () :=
  if bool_decide (hash = EmptyString) || ((str_len hash =? 64) && str_all is_ascii_hexdigit hash) then Ok ()
  else Err (ReplicationFailed "invalid checkpoint hash").

Class SyncCheckpointStore (C : Type) := {
  checkpoint_env : Type;
  get_checkpoint : checkpoint_env → C → string → SyncResult (option Checkpoint);
  set_checkpoint : checkpoint_env → string → N → string → op C SyncError ();
}.

(** The provided methods. *)
Section Provided.
Context {C : Type} `{!SyncCheckpointStore C}.
Definition get_last_sequence (io : checkpoint_env) (c : C) (peer_id : string) : SyncResult N :=
  found ← get_checkpoint io c peer_id;
  Ok (match found with Some (sequence, _) => sequence | None => 0 end).
Definition set_last_sequence (io io' : checkpoint_env) (peer_id : string) (sequence : N) :
    op C SyncError () :=
  c ← op_get;
  found ← op_lift (get_checkpoint io c peer_id);
  set_checkpoint io' peer_id sequence (match found with Some (_, h) => h | None => EmptyString end).
End Provided.

(** What a client may rely on: reading gives the map's entry or fails; a
    write takes effect when it succeeds, and may take effect when it fails. *)
Class SyncCheckpointLaws (C : Type) `{SyncCheckpointStore C} := {
  checkpoint_ok : C → Prop;
  checkpoint_view : C → CheckpointMap;
  law_get_checkpoint io c peer found :
    checkpoint_ok c → get_checkpoint io c peer = Ok found → found = checkpoint_view c !! peer;
  law_set_checkpoint io peer sequence hash c : checkpoint_ok c → sequence ≤ u64_max →
    let '(r, c') := set_checkpoint io peer sequence hash c in
    checkpoint_ok c' ∧
    (checkpoint_view c' = <[peer := (sequence, hash)]> (checkpoint_view c) ∨
     (∃ e, r = Err e) ∧ checkpoint_view c' = checkpoint_view c);
}.

(** ** [InMemorySyncCheckpointStore] *)

Definition memory_get_checkpoint (c : CheckpointMap) (peer_id : string) : SyncResult (option Checkpoint) :=
  _ ← validate_peer_id peer_id; Ok (c !! peer_id).
Definition memory_set_checkpoint (peer_id : string) (sequence : N) (hash : string) :
    op CheckpointMap SyncError () :=
  _ ← op_lift (validate_peer_id peer_id);
  _ ← op_lift (validate_checkpoint_hash hash);
  op_modify (λ c, <[peer_id := (sequence, hash)]> c).

#[export] Instance memory_checkpoints : SyncCheckpointStore CheckpointMap := {
  checkpoint_env := ();
  get_checkpoint _ := memory_get_checkpoint;
  set_checkpoint _ := memory_set_checkpoint;
}.
#[export] Instance memory_checkpoint_laws : SyncCheckpointLaws CheckpointMap.
Proof.
  refine {| checkpoint_ok := λ _, True; checkpoint_view := λ c, c |}.
  - intros [] c peer found _. cbn [get_checkpoint memory_checkpoints]. unfold memory_get_checkpoint.
    destruct (validate_peer_id peer); [|done]. by intros [= <-].
  - intros [] peer sequence hash c _ _. cbn [set_checkpoint memory_checkpoints]. unfold memory_set_checkpoint.
    destruct (validate_peer_id peer) as [[]|e]; autorewrite with op; [|split; [done|right; eauto]].
    destruct (validate_checkpoint_hash hash) as [[]|e]; autorewrite with op; [|split; [done|right; eauto]].
    split; [done|by left].
Defined.

(** ** [FileSyncCheckpointStore] *)

Record CheckpointIo := {
  checkpoint_locked : SyncResult ();
  checkpoint_opened : SyncResult ();
  checkpoint_written : AtomicWrite;
}.

(** The loop of [parse_checkpoint_map]. *)
Fixpoint parse_checkpoint_lines (ls : list string) (m : CheckpointMap) : SyncResult CheckpointMap :=
  match ls with
  | [] => Ok m
  | line :: ls' =>
    if bool_decide (trim line = EmptyString) then parse_checkpoint_lines ls' m
    else
      '(peer_id, rest) ← ok_or (ReplicationFailed "invalid checkpoint line") (split_once "=" line);
      _ ← validate_peer_id peer_id;
      let '(sequence_text, hash) :=
        match split_once "," rest with Some (s, h) => (s, h) | None => (rest, EmptyString) end in
      sequence ← ok_or (ReplicationFailed "invalid checkpoint sequence") (parse_u64 sequence_text);
      _ ← validate_checkpoint_hash hash;
      parse_checkpoint_lines ls' (<[peer_id := (sequence, hash)]> m)
  end.
Definition parse_checkpoint_map (text : string) : SyncResult CheckpointMap :=
  parse_checkpoint_lines (lines text) ∅.

Definition read_map (io : CheckpointIo) (text : string) : SyncResult CheckpointMap :=
  text ← read_bounded_text (checkpoint_opened io) text MAX_CHECKPOINT_FILE_BYTES;
  body ← split_format text SYNC_CHECKPOINT_FORMAT_V1;
  parse_checkpoint_map body.

Definition checkpoint_line (peer_id : string) (c : Checkpoint) : string :=
  peer_id +:+ String "=" (show_u64 c.1 +:+ String "," (c.2 +:+ String LF EmptyString)).
Fixpoint checkpoint_lines (l : list (string * Checkpoint)) : string :=
  match l with
  | [] => EmptyString
  | (peer_id, c) :: l' => checkpoint_line peer_id c +:+ checkpoint_lines l'
  end.
Definition write_map (w : AtomicWrite) (m : CheckpointMap) : op string SyncError () :=
  sync_atomic_write w (SYNC_CHECKPOINT_FORMAT_V1 +:+ String LF (checkpoint_lines (btree_iter m))).

(** The file is all the state there is. *)
Record FileSyncCheckpointStore := { checkpoint_file : string }.
Definition on_checkpoint_file {A} (o : op string SyncError A) : op FileSyncCheckpointStore SyncError A :=
  λ c, let '(r, t) := o (checkpoint_file c) in (r, {| checkpoint_file := t |}).

Definition file_checkpoints_new (io : CheckpointIo) : op (option string) SyncError FileSyncCheckpointStore :=
  λ disk,
  match checkpoint_locked io with
  | Err e => (Err e, disk)
  | Ok _ =>
    let '(created, disk) :=
      match disk with
      | Some t => (Ok (), Some t)
      | None =>
        let '(r, t) := sync_atomic_write (checkpoint_written io)
                         (SYNC_CHECKPOINT_FORMAT_V1 +:+ String LF EmptyString) EmptyString in
        (r, if bool_decide (t = EmptyString) then None else Some t)
      end in
    let text := default EmptyString disk in
    (_ ← created; _ ← read_map io text; Ok {| checkpoint_file := text |}, disk)
  end.

Definition file_get_checkpoint (io : CheckpointIo) (c : FileSyncCheckpointStore) (peer_id : string) :
    SyncResult (option Checkpoint) :=
  _ ← validate_peer_id peer_id;
  _ ← checkpoint_locked io;
  m ← read_map io (checkpoint_file c);
  Ok (m !! peer_id).
Definition file_set_checkpoint (io : CheckpointIo) (peer_id : string) (sequence : N) (hash : string) :
    op FileSyncCheckpointStore SyncError () :=
  _ ← op_lift (validate_peer_id peer_id);
  _ ← op_lift (validate_checkpoint_hash hash);
  _ ← op_lift (checkpoint_locked io);
  c ← op_get;
  m ← op_lift (read_map io (checkpoint_file c));
  on_checkpoint_file (write_map (checkpoint_written io) (<[peer_id := (sequence, hash)]> m)).

#[export] Instance file_checkpoints : SyncCheckpointStore FileSyncCheckpointStore := {
  checkpoint_env := CheckpointIo;
  get_checkpoint := file_get_checkpoint;
  set_checkpoint := file_set_checkpoint;
}.

(** ** Written maps are read back *)

Definition valid_checkpoint (peer_id : string) (c : Checkpoint) : Prop :=
  validate_peer_id peer_id = Ok () ∧ validate_checkpoint_hash c.2 = Ok () ∧ c.1 ≤ u64_max.
Definition valid_map (m : CheckpointMap) : Prop := map_Forall valid_checkpoint m.

Lemma str_all_every f s : str_all f s = true ↔ str_every (λ c, f c = true) s.
Proof. induction s as [|c s IH]; [done|]. cbn [str_all str_every]. by rewrite andb_true_iff, IH. Qed.

Lemma peer_valid peer_id :
  validate_peer_id peer_id = Ok () → peer_id ≠ EmptyString ∧ str_every (λ c, peer_char c = true) peer_id.
Proof.
  unfold validate_peer_id. destruct (_ || _) eqn:E; [done|]. destruct (str_all _ _) eqn:Ea; [|done]. intros _.
  apply orb_false_iff in E as [E _]. split; [by apply bool_decide_eq_false in E|by apply str_all_every].
Qed.
Lemma hash_valid hash :
  validate_checkpoint_hash hash = Ok () → str_every (λ c, is_ascii_hexdigit c = true) hash.
Proof.
  unfold validate_checkpoint_hash. destruct (_ || _) eqn:E; [|done]. intros _.
  apply orb_true_iff in E as [->%bool_decide_eq_true|[_ E]%andb_true_iff]; [done|by apply str_all_every].
Qed.

(** The characters of a line. *)
Definition checkpoint_char (c : ascii) : bool :=
  peer_char c || bool_decide (c ∈ ["="; ","]%char).
Lemma peer_char_cases c :
  peer_char c = true → solid c ∧ c ≠ "="%char ∧ checkpoint_char c = true.
Proof.
  intros H. assert (∀ d, peer_char d = true → bool_decide (Ascii.N_of_ascii d < 128) && negb (white1 d) &&
    negb (bool_decide (d = "="%char)) = true) as Hall.
  { intros [[] [] [] [] [] [] [] []]; vm_compute; intros; congruence. }
  specialize (Hall c H). rewrite !andb_true_iff, !negb_true_iff in Hall.
  destruct Hall as [[H1%bool_decide_eq_true H2] H3%bool_decide_eq_false].
  split_and!; [done|done|]. unfold checkpoint_char. by rewrite H.
Qed.
Lemma hexdigit_char c : is_ascii_hexdigit c = true → checkpoint_char c = true.
Proof. destruct c as [[] [] [] [] [] [] [] []]; vm_compute; congruence. Qed.
Lemma digit_checkpoint_char c : digit_char c → checkpoint_char c = true ∧ c ≠ ","%char.
Proof. intros [H1 H2]. destruct c as [[] [] [] [] [] [] [] []]; vm_compute in H1, H2; done. Qed.
Lemma checkpoint_char_line c : checkpoint_char c = true → c ≠ LF ∧ c ≠ CR ∧ Ascii.N_of_ascii c < 128.
Proof. destruct c as [[] [] [] [] [] [] [] []]; vm_compute; done. Qed.

Lemma every_mono (P Q : ascii → Prop) s : (∀ c, P c → Q c) → str_every P s → str_every Q s.
Proof. intros H. induction s as [|c s IH]; simpl; naive_solver. Qed.
Lemma every_free P c s : (∀ x, P x → x ≠ c) → str_every P s → str_free c s.
Proof. intros H. apply str_every_free. intros Hc. by apply (H c Hc). Qed.
Lemma digits_every s : str_digits s → str_every digit_char s.
Proof. induction s as [|c s IH]; simpl; [done|]. intros [??]. auto. Qed.

Lemma checkpoint_line_spec peer_id c t :
  valid_checkpoint peer_id c →
  ∃ body, checkpoint_line peer_id c = body +:+ String LF EmptyString ∧
    str_free LF body ∧ str_free CR body ∧ str_ascii body ∧ trim body ≠ EmptyString ∧
    split_once "=" body = Some (peer_id, show_u64 c.1 +:+ String "," c.2) ∧
    split_once "," (show_u64 c.1 +:+ String "," c.2) = Some (show_u64 c.1, c.2) ∧
    lines (checkpoint_line peer_id c +:+ t) = body :: lines t.
Proof.
  intros (Hp & Hh & _). apply peer_valid in Hp as [Hne Hp]. apply hash_valid in Hh.
  set (body := peer_id +:+ String "=" (show_u64 c.1 +:+ String "," c.2)).
  assert (checkpoint_line peer_id c = body +:+ String LF EmptyString) as Hb
    by (unfold checkpoint_line, body; by autorewrite with text).
  assert (str_every (λ c, checkpoint_char c = true) body) as Hall.
  { subst body. rewrite str_every_app. split; [by eapply every_mono; [|exact Hp]; apply peer_char_cases|].
    split; [by vm_compute|]. rewrite str_every_app. split.
    - eapply every_mono; [|apply digits_every, show_u64_digits]. apply digit_checkpoint_char.
    - split; [by vm_compute|]. by eapply every_mono; [|exact Hh]; apply hexdigit_char. }
  assert (str_free LF body ∧ str_free CR body) as [Hlf Hcr].
  { split; (eapply every_free; [|exact Hall]); intros x Hx; apply (checkpoint_char_line _ Hx). }
  exists body. split_and!; [done|done|done| | | | |].
  - eapply str_every_ascii; [|exact Hall]. intros x Hx. apply (checkpoint_char_line _ Hx).
  - subst body. destruct peer_id as [|x s]; [done|]. rewrite string_app_cons.
    apply trim_not_empty. apply (peer_char_cases x), Hp.
  - subst body. apply split_once_app. eapply every_free; [|exact Hp]. intros x Hx. apply (peer_char_cases x Hx).
  - apply split_once_app. eapply every_free; [|apply digits_every, show_u64_digits].
    intros x Hx. apply (digit_checkpoint_char x Hx).
  - rewrite Hb. autorewrite with text. by apply lines_cons.
Qed.

Lemma parse_checkpoints l m :
  Forall (λ '(peer_id, c), valid_checkpoint peer_id c) l →
  parse_checkpoint_lines (lines (checkpoint_lines l)) m = Ok (foldl (λ m '(k, c), <[k := c]> m) m l) ∧
  str_ascii (checkpoint_lines l).
Proof.
  revert m. induction l as [|[k c] l IH]; intros m Hl; [done|]. apply Forall_cons in Hl as [Hc Hl].
  cbn [checkpoint_lines foldl].
  destruct (checkpoint_line_spec k c (checkpoint_lines l) Hc) as (body & Hb & Hlf & Hcr & Ha & Ht & H1 & H2 & ->).
  destruct (IH (<[k := c]> m) Hl) as [Hp Hasc]. split.
  - cbn [parse_checkpoint_lines]. rewrite bool_decide_eq_false_2 by done. rewrite H1.
    cbn [ok_or mbind result_bind]. destruct Hc as (Hk & Hh & Hn). rewrite Hk. cbn [mbind result_bind].
    rewrite H2, parse_show_u64 by done. cbn [ok_or mbind result_bind]. rewrite Hh. cbn [mbind result_bind].
    rewrite <- surjective_pairing. exact Hp.
  - rewrite Hb. rewrite !str_ascii_app. split_and!; [done|by split; [vm_compute|]|done].
Qed.

Lemma foldl_insert_map (m : CheckpointMap) : foldl (λ m '(k, c), <[k := c]> m) ∅ (btree_iter m) = m.
Proof.
  assert (∀ l (m0 : CheckpointMap), NoDup l.*1 →
    ∀ k, foldl (λ m '(k, c), <[k := c]> m) m0 l !! k =
         match list_to_map (M := CheckpointMap) l !! k with Some c => Some c | None => m0 !! k end) as Hf.
  { induction l as [|[k1 c1] l IH]; intros m0 Hn k; [done|]. apply NoDup_cons in Hn as [Hk1 Hn].
    cbn [foldl]. rewrite IH by done. cbn [list_to_map foldr uncurry]. destruct (decide (k = k1)) as [->|].
    - rewrite lookup_insert_eq. rewrite not_elem_of_list_to_map_1 by done. by rewrite lookup_insert_eq.
    - by rewrite !lookup_insert_ne by done. }
  apply map_eq. intros k. rewrite Hf by apply btree_iter_nodup.
  rewrite (list_to_map_proper (btree_iter m) (map_to_list m)), list_to_map_to_list;
    [|apply btree_iter_nodup|apply btree_iter_perm].
  rewrite lookup_empty. by destruct (m !! k).
Qed.

Definition checkpoint_text (m : CheckpointMap) : string :=
  SYNC_CHECKPOINT_FORMAT_V1 +:+ String LF (checkpoint_lines (btree_iter m)).

Lemma read_checkpoint_text io m :
  valid_map m → checkpoint_opened io = Ok () → str_len (checkpoint_text m) ≤ MAX_CHECKPOINT_FILE_BYTES →
  read_map io (checkpoint_text m) = Ok m.
Proof.
  intros Hm Ho Hlen.
  assert (Forall (λ '(peer_id, c), valid_checkpoint peer_id c) (btree_iter m)) as Hl.
  { apply Forall_forall. intros [k c] Hin%btree_iter_elem. by apply Hm. }
  destruct (parse_checkpoints (btree_iter m) ∅ Hl) as [Hp Ha].
  unfold read_map, read_bounded_text. rewrite Ho. cbn [mbind result_bind].
  rewrite (proj2 (N.ltb_ge _ _) Hlen).
  set (header := SYNC_CHECKPOINT_FORMAT_V1 +:+ String LF EmptyString).
  assert (checkpoint_text m = header +:+ checkpoint_lines (btree_iter m)) as ->
    by (unfold checkpoint_text, header; by autorewrite with text).
  rewrite utf8_valid_ascii by (rewrite str_ascii_app; split; [by vm_compute|done]).
  cbn [negb mbind result_bind]. unfold split_format. fold header.
  rewrite (proj2 (str_prefix_spec header _)) by eauto. cbn [mbind result_bind].
  rewrite str_drop_app. unfold parse_checkpoint_map. by rewrite Hp, foldl_insert_map.
Qed.

Lemma valid_map_insert m peer_id c : valid_map m → valid_checkpoint peer_id c → valid_map (<[peer_id := c]> m).
Proof. intros Hm Hc. by apply map_Forall_insert_2. Qed.

Definition file_view (c : FileSyncCheckpointStore) : CheckpointMap :=
  match parse_checkpoint_map
          (str_drop (String.length (SYNC_CHECKPOINT_FORMAT_V1 +:+ String LF EmptyString)) (checkpoint_file c)) with
  | Ok m => m
  | Err _ => ∅
  end.
Definition file_ok (c : FileSyncCheckpointStore) : Prop :=
  ∃ m, valid_map m ∧ checkpoint_file c = checkpoint_text m.

Lemma file_view_text m : valid_map m → file_view {| checkpoint_file := checkpoint_text m |} = m.
Proof.
  intros Hm. unfold file_view. cbn [checkpoint_file].
  assert (Forall (λ '(peer_id, c), valid_checkpoint peer_id c) (btree_iter m)) as Hl.
  { apply Forall_forall. intros [k c] Hin%btree_iter_elem. by apply Hm. }
  destruct (parse_checkpoints (btree_iter m) ∅ Hl) as [Hp _].
  set (header := SYNC_CHECKPOINT_FORMAT_V1 +:+ String LF EmptyString).
  assert (checkpoint_text m = header +:+ checkpoint_lines (btree_iter m)) as ->
    by (unfold checkpoint_text, header; by autorewrite with text).
  rewrite str_drop_app. unfold parse_checkpoint_map. by rewrite Hp, foldl_insert_map.
Qed.

(** A successful read is of the map the file holds. *)
Lemma read_map_ok io c m :
  file_ok c → read_map io (checkpoint_file c) = Ok m → valid_map m ∧ c = {| checkpoint_file := checkpoint_text m |}.
Proof.
  intros (m0 & Hm0 & Hc) Hr. destruct c as [t]. simpl in *. subst t.
  assert (checkpoint_opened io = Ok () ∧ str_len (checkpoint_text m0) ≤ MAX_CHECKPOINT_FILE_BYTES) as [Ho Hlen].
  { unfold read_map, read_bounded_text in Hr. destruct (checkpoint_opened io) as [[]|]; [|done].
    split; [done|]. cbn [mbind result_bind] in Hr.
    destruct (N.ltb_spec MAX_CHECKPOINT_FILE_BYTES (str_len (checkpoint_text m0))); [done|done]. }
  rewrite read_checkpoint_text in Hr by done. by injection Hr as <-.
Qed.

#[export] Instance file_checkpoint_laws : SyncCheckpointLaws FileSyncCheckpointStore.
Proof.
  refine {| checkpoint_ok := file_ok; checkpoint_view := file_view |}.
  - intros io c peer found Hc. cbn [get_checkpoint file_checkpoints]. unfold file_get_checkpoint.
    destruct (validate_peer_id peer), (checkpoint_locked io); try done. cbn [mbind result_bind].
    destruct (read_map io (checkpoint_file c)) as [m|] eqn:E; [|done]. intros [= <-].
    destruct (read_map_ok io c m Hc E) as [Hm ->]. by rewrite file_view_text.
  - intros io peer sequence hash c Hc Hn. cbn [set_checkpoint file_checkpoints]. unfold file_set_checkpoint.
    destruct (validate_peer_id peer) as [[]|e] eqn:Hp; autorewrite with op; [|split; [done|right; eauto]].
    destruct (validate_checkpoint_hash hash) as [[]|e] eqn:Hh; autorewrite with op; [|split; [done|right; eauto]].
    destruct (checkpoint_locked io) as [[]|e]; autorewrite with op; [|split; [done|right; eauto]].
    destruct (read_map io (checkpoint_file c)) as [m|e] eqn:E; autorewrite with op; [|split; [done|right; eauto]].
    destruct (read_map_ok io c m Hc E) as [Hm ->].
    assert (valid_map (<[peer := (sequence, hash)]> m)) as Hm' by (by apply valid_map_insert; [|repeat split]).
    unfold on_checkpoint_file, write_map, sync_atomic_write.
    destruct (checkpoint_written io) as [|o e|o e];
      cbn [checkpoint_file atomic_write op_modify op_fail mbind op_bind]; fold (checkpoint_text (<[peer := (sequence, hash)]> m)).
    + split; [by exists (<[peer := (sequence, hash)]> m)|]. left. by rewrite !file_view_text.
    + split; [by exists m|]. right. eauto.
    + split; [by exists (<[peer := (sequence, hash)]> m)|]. left. by rewrite !file_view_text.
Defined.

(** Checkpoints round-trip. A checkpoint file in its format is read as
    the map it was written from; a successful [set_checkpoint] of a healthy
    store, which accepts exactly the valid peers and hashes, makes the file
    that of the updated map; and what is then read back for any valid peer,
    by this or by a freshly opened store, is that map's entry. *)
Theorem checkpoint_file_roundtrip io io' m peer sequence hash peer' :
  valid_map m → sequence ≤ u64_max →
  checkpoint_locked io = Ok () → checkpoint_opened io = Ok () → checkpoint_written io = Written →
  checkpoint_locked io' = Ok () → checkpoint_opened io' = Ok () →
  str_len (checkpoint_text m) ≤ MAX_CHECKPOINT_FILE_BYTES →
  let m' := <[peer := (sequence, hash)]> m in
  let '(r, c') := file_set_checkpoint io peer sequence hash {| checkpoint_file := checkpoint_text m |} in
  match validate_peer_id peer, validate_checkpoint_hash hash with
  | Ok _, Ok _ =>
    r = Ok () ∧ checkpoint_file c' = checkpoint_text m' ∧ valid_map m' ∧
    (str_len (checkpoint_text m') ≤ MAX_CHECKPOINT_FILE_BYTES → validate_peer_id peer' = Ok () →
     file_get_checkpoint io' c' peer' = Ok (m' !! peer') ∧
     file_checkpoints_new io' (Some (checkpoint_file c')) = (Ok c', Some (checkpoint_file c')))
  | Err e, _ | Ok _, Err e => r = Err e ∧ checkpoint_file c' = checkpoint_text m
  end.
Proof.
  intros Hm Hn H1 H2 H3 H4 H5 Hlen m'. unfold file_set_checkpoint.
  destruct (validate_peer_id peer) as [[]|e] eqn:Hp; autorewrite with op; [|done].
  destruct (validate_checkpoint_hash hash) as [[]|e] eqn:Hh; autorewrite with op; [|done].
  rewrite H1. autorewrite with op. cbn [checkpoint_file]. rewrite read_checkpoint_text by done.
  autorewrite with op. unfold on_checkpoint_file, write_map, sync_atomic_write. rewrite H3.
  cbn [checkpoint_file atomic_write op_modify]. fold (checkpoint_text m').
  assert (valid_map m') as Hm' by (by apply valid_map_insert; [|repeat split]).
  split_and!; [done..|]. intros Hlen' Hp'.
  pose proof (read_checkpoint_text io' m' Hm' H5 Hlen') as Hr. unfold file_get_checkpoint, file_checkpoints_new.
  rewrite Hp', H4. cbn [mbind result_bind checkpoint_file fst snd].
  change (SYNC_CHECKPOINT_FORMAT_V1 +:+ _) with (checkpoint_text m').
  change (default EmptyString (Some (checkpoint_text m'))) with (checkpoint_text m'). split; by rewrite Hr.
Qed.

Module Demo.
Definition io : CheckpointIo :=
  {| checkpoint_locked := Ok (); checkpoint_opened := Ok (); checkpoint_written := Written |}.
End Demo.

Lemma checkpoint_file_roundtrip_witness :
  let '(r, c) := file_set_checkpoint Demo.io "node-1" 7 "" {| checkpoint_file := checkpoint_text ∅ |} in
  r = Ok () ∧ file_get_checkpoint Demo.io c "node-1" = Ok (Some (7, ""%string)).
Proof.
  pose proof (checkpoint_file_roundtrip Demo.io Demo.io ∅ "node-1" 7 "" "node-1" (map_Forall_empty _)) as H.
  specialize (H ltac:(vm_compute; discriminate) eq_refl eq_refl eq_refl eq_refl eq_refl
    ltac:(vm_compute; discriminate)). cbv zeta in H.
  destruct (file_set_checkpoint Demo.io "node-1" 7 "" _) as [r c]. destruct H as (H1 & _ & _ & H2).
  split; [exact H1|]. destruct H2 as [H2 _]; [vm_compute; discriminate|reflexivity|].
  rewrite H2. vm_compute. reflexivity.
Defined.
