(* ===== verification/SyncReceiver.v ===== *)
(** The follower's receiver ([crates/appcore-sync/src/sync/receiver.rs]) and
    the wire envelope it checks ([wire.rs]), against any replication log and
    any checkpoint store that satisfy the laws of their interfaces. *)

From S2P Require Import Prelude.
From S2P Require Import Text.
From S2P Require Import Types.
From S2P Require Import SyncTypes.
From S2P Require Import SyncLog.
From S2P Require Import SyncCheckpoint.

Local Open Scope N_scope.

Definition DEFAULT_MAX_EVENTS : N := 10000.
Definition MAX_PROCESSED : N := 10000.

Record ProcessedBatches := { processed_set : gset string; processed_queue : list string }.
Definition processed_new : ProcessedBatches := {| processed_set := ∅; processed_queue := [] |}.

Record SyncReceiveAck := { ack_accepted : bool; received : N; skipped : N; ack_last_sequence : N }.
#[export] Instance SyncReceiveAck_eq_dec : EqDecision SyncReceiveAck.
Proof. solve_decision. Defined.

Record SyncReceiverState (T C : Type) := {
  replication_log : T;
  checkpoint_store : C;
  processed_batches : ProcessedBatches;
  local_identity : option CoreIdentity;
}.
Arguments replication_log {T C}.
Arguments checkpoint_store {T C}.
Arguments processed_batches {T C}.
Arguments local_identity {T C}.

(** ** [wire.rs] *)

Definition SYNC_WIRE_SCHEMA_V1 : string := "appcore.sync.v1".
Record SyncEnvelopeV1 := { schema : string; source_identity : CoreIdentity; message : SyncMessage }.

Definition envelope_new (identity : CoreIdentity) (m : SyncMessage) : SyncResult SyncEnvelopeV1 :=
  if negb (bool_decide (node_id (runtime identity) = source_node_id m)) then
    Err (InvalidSyncMessage "source identity does not match message node")
  else Ok {| schema := SYNC_WIRE_SCHEMA_V1; source_identity := identity; message := m |}.

Definition validate_for (e : SyncEnvelopeV1) (local : CoreIdentity) : SyncResult () :=
  if negb (bool_decide (schema e = SYNC_WIRE_SCHEMA_V1)) then
    Err (InvalidSyncMessage "unsupported sync wire schema")
  else if negb (bool_decide (node_id (runtime (source_identity e)) = source_node_id (message e))) then
    Err (InvalidSyncMessage "source identity does not match message node")
  else
    map_err (λ _, IncompatiblePeer)
      (core_ensure_compatible local (source_identity e)
         {| require_same_cluster := true; required_capability := None |} []).

(** [decode_sync_envelope], around the JSON decoder. *)
Definition decode_sync_envelope (of_json : string → option SyncEnvelopeV1) (input : string) :
    SyncResult SyncEnvelopeV1 :=
  if bool_decide (input = EmptyString) then Err EmptyRequestBody
  else if negb (str_prefix "{" (trim_start input)) then Err (InvalidSyncMessage UPDATE_REQUIRED_MESSAGE)
  else
    e ← ok_or (InvalidSyncMessage "invalid sync wire envelope") (of_json input);
    if negb (bool_decide (schema e = SYNC_WIRE_SCHEMA_V1)) then
      Err (InvalidSyncMessage UPDATE_REQUIRED_MESSAGE)
    else if negb (bool_decide (node_id (runtime (source_identity e)) = source_node_id (message e))) then
      Err (InvalidSyncMessage "source identity does not match message node")
    else Ok e.

Section Receiver.
Context (sha256 : list byte → list byte).
Context {T C : Type} `{HT : !ReplicationLog T} `{HC : !SyncCheckpointStore C}.

Abbreviation state := (SyncReceiverState T C).
Abbreviation receiver A := (op (SyncReceiverState T C) SyncError A).

(** What one call meets outside. *)
Record ReceiveIo := {
  read_sequence : checkpoint_env;
  read_hash : checkpoint_env;
  append_io : nat → @log_env T HT;
  write_checkpoint : checkpoint_env;
}.

Definition with_log (s : state) (t : T) : state :=
  {| replication_log := t; checkpoint_store := checkpoint_store s;
     processed_batches := processed_batches s; local_identity := local_identity s |}.
Definition on_log {A} (o : op T SyncError A) : receiver A := λ s,
  let '(r, t) := o (replication_log s) in (r, with_log s t).
Definition on_checkpoints {A} (o : op C SyncError A) : receiver A := λ s,
  let '(r, c) := o (checkpoint_store s) in
  (r, {| replication_log := replication_log s; checkpoint_store := c;
         processed_batches := processed_batches s; local_identity := local_identity s |}).

Definition receiver_new (t : T) (c : C) : state :=
  {| replication_log := t; checkpoint_store := c; processed_batches := processed_new; local_identity := None |}.

Fixpoint validate_sizes (l : list (list byte)) : SyncResult () :=
  match l with [] => Ok () | e :: l' => _ ← validate_record_size e; validate_sizes l' end.

Definition validate_message (m : SyncMessage) (p : ProcessedBatches) : SyncResult () :=
  if sequence_start m =? 0 then Err (InvalidSequence (sequence_start m))
  else if bool_decide (events m = []) || (event_count m =? 0) then
    Err (InvalidSyncMessage "empty batch events")
  else if negb (event_count m =? lenN (events m)) then Err (InvalidSyncMessage "event count mismatch")
  else if DEFAULT_MAX_EVENTS <? lenN (events m) then
    Err (TooManyEvents (lenN (events m)) DEFAULT_MAX_EVENTS)
  else
    _ ← validate_sizes (events m);
    if sequence_end m <? sequence_start m then Err (InvalidSyncMessage "invalid sequence range")
    else
      expected_end ← ok_or (InvalidSyncMessage "sequence range overflow")
                       (checked_add64 (sequence_start m) (event_count m - 1));
      if negb (sequence_end m =? expected_end) then Err (InvalidSyncMessage "inconsistent sequence range")
      else if negb (bool_decide (compute_events_hash sha256 (batch_id m) (source_node_id m) (sequence_start m)
                (sequence_end m) (created_at_ms m) (previous_batch_hash m) (events m) = events_hash m)) then
        Err (InvalidSyncMessage "invalid events hash")
      else if bool_decide (batch_id m ∈ processed_set p) then Err (InvalidSyncMessage "duplicate batch_id")
      else Ok ().

(** The loop of [append_events_to_log] from offset [i]: the numbers of
    appended and of skipped events. *)
Fixpoint append_events (io : nat → log_env) (start last_sequence : N) (i : nat) (evs : list (list byte))
    (received skipped : N) : op T SyncError (N * N) :=
  match evs with
  | [] => mret (received, skipped)
  | event :: evs' =>
    seq ← op_lift (ok_or (InvalidSyncMessage "sequence range overflow") (checked_add64 start (N.of_nat i)));
    t ← op_get;
    found ← op_lift (event_at_sequence t seq);
    match found with
    | Some existing =>
      if bool_decide (existing = event) then append_events io start last_sequence (S i) evs' received (skipped + 1)
      else op_fail (SequenceConflict seq)
    | None =>
      if seq <=? last_sequence then op_fail (InvalidSequence seq)
      else
        _ ← append_with_sequence (io i) event seq;
        append_events io start last_sequence (S i) evs' (received + 1) skipped
    end
  end.

Definition append_events_to_log (io : ReceiveIo) (m : SyncMessage) (last_sequence : N) : receiver (N * N) :=
  counts ← on_log (append_events (append_io io) (sequence_start m) last_sequence 0 (events m) 0 0);
  _ ← on_checkpoints (set_checkpoint (write_checkpoint io) (source_node_id m) (sequence_end m) (events_hash m));
  mret counts.

Definition record_processed_batch (id : string) (p : ProcessedBatches) : ProcessedBatches :=
  let s := {[id]} ∪ processed_set p in
  let q := processed_queue p ++ [id] in
  if MAX_PROCESSED <? sizeN s then
    match q with
    | oldest :: q' => {| processed_set := s ∖ {[oldest]}; processed_queue := q' |}
    | [] => {| processed_set := s; processed_queue := q |}
    end
  else {| processed_set := s; processed_queue := q |}.

(** The chain check, on the checkpoint the store gives. *)
Definition check_previous (m : SyncMessage) (found : option Checkpoint) : SyncResult () :=
  match found with
  | Some (_, last_hash) =>
    if bool_decide (last_hash = EmptyString) then Ok ()
    else if bool_decide (default EmptyString (previous_batch_hash m) = last_hash) then Ok ()
    else Err (InvalidSyncMessage "previous batch hash mismatch")
  | None => Ok ()
  end.

Definition apply_sync_message (io : ReceiveIo) (m : SyncMessage) : receiver SyncReceiveAck :=
  s ← op_get;
  _ ← op_lift (validate_message m (processed_batches s));
  let peer_id := source_node_id m in
  last_sequence ← op_lift (get_last_sequence (read_sequence io) (checkpoint_store s) peer_id);
  if sequence_end m <=? last_sequence then
    mret {| ack_accepted := true; received := 0; skipped := lenN (events m);
            ack_last_sequence := last_sequence |}
  else
    next_sequence ← op_lift (ok_or (InvalidSyncMessage "checkpoint sequence is exhausted")
                               (checked_add64 last_sequence 1));
    if next_sequence <? sequence_start m then op_fail (InvalidSequence (sequence_start m))
    else
      _ ← (if (0 <? last_sequence) && (sequence_start m =? next_sequence) then
             found ← op_lift (get_checkpoint (read_hash io) (checkpoint_store s) peer_id);
             op_lift (check_previous m found)
           else mret ());
      '(n, k) ← append_events_to_log io m last_sequence;
      _ ← op_modify (λ s,
            {| replication_log := replication_log s; checkpoint_store := checkpoint_store s;
               processed_batches := record_processed_batch (batch_id m) (processed_batches s);
               local_identity := local_identity s |});
      mret {| ack_accepted := true; received := n; skipped := k; ack_last_sequence := sequence_end m |}.

Definition apply_sync_envelope (io : ReceiveIo) (e : SyncEnvelopeV1) : receiver SyncReceiveAck :=
  s ← op_get;
  local ← op_lift (ok_or (InvalidSyncMessage "local sync identity is not configured") (local_identity s));
  _ ← op_lift (validate_for e local);
  apply_sync_message io (message e).

(** ** The replica

    From here on the log and the store satisfy their laws. *)

Context `{HL : !ReplicationLogLaws T HT} `{HK : !SyncCheckpointLaws C}.

Definition entries (s : state) : list (N * list byte) := log_view (replication_log s).
Definition checkpoints (s : state) : CheckpointMap := checkpoint_view (checkpoint_store s).
Definition checkpoint_of (peer : string) (m : CheckpointMap) : N :=
  match m !! peer with Some (n, _) => n | None => 0 end.

(** The events of [evs] are in [L] at consecutive sequences from [first]. *)
Definition stored (first : N) (evs : list (list byte)) (L : list (N * list byte)) : Prop :=
  ∀ j e, evs !! j = Some e → (first + N.of_nat j, e) ∈ L.

Lemma stored_cons first e evs L :
  (first, e) ∈ L → stored (first + 1) evs L → stored first (e :: evs) L.
Proof.
  intros He Hs [|j] e' Hj.
  - injection Hj as <-. by rewrite N.add_0_r.
  - replace (first + N.of_nat (S j)) with (first + 1 + N.of_nat j) by lia. by apply Hs.
Qed.
Lemma stored_prefix first evs L L' : L `prefix_of` L' → stored first evs L → stored first evs L'.
Proof. intros [k ->] Hs j e Hj. apply elem_of_app. left. by apply Hs. Qed.

Lemma spec_append_ok p seq L i L' :
  spec_append p seq L = (Ok i, L') → L `prefix_of` L' ∧ (seq, p) ∈ L'.
Proof.
  unfold spec_append. destruct (validate_record_size p); [|done].
  destruct (if 0 <? seq then list_find _ _ else None) as [[j [s' p']]|] eqn:E.
  - case_bool_decide as Hp; [|done]. intros [= _ <-]. split; [done|]. subst p'.
    destruct (0 <? seq); [|done]. apply list_find_Some in E as (Hj & Heq & _). simpl in Heq. subst s'.
    by eapply list_elem_of_lookup_2.
  - intros [= _ <-]. split; [by eexists|]. apply elem_of_app. right. by left.
Qed.

Definition io_ok (io : ReceiveIo) : Prop := ∀ i, log_env_ok (append_io io i).

Lemma append_events_spec io first last i evs n k t :
  (∀ i, log_env_ok (io i)) → log_ok t → 0 < first →
  let '(r, t') := append_events io first last i evs n k t in
  log_ok t' ∧ log_view t `prefix_of` log_view t' ∧
  match r with
  | Ok (n', k') => n' + k' = n + k + lenN evs ∧ stored (first + N.of_nat i) evs (log_view t')
  | Err _ => True
  end.
Proof.
  intros Hio Hok Hpos. revert i n k t Hok. induction evs as [|e evs IH]; intros i n k t Hok.
  { cbn [append_events]. autorewrite with op. split_and!; [done|done|simpl; lia|]. by intros j e'. }
  cbn [append_events]. destruct (checked_add64 first (N.of_nat i)) as [seq|] eqn:Hseq; cbn [ok_or];
    autorewrite with op; [|done].
  apply checked_add_Some in Hseq as [-> Hmax].
  rewrite law_event by (done || lia). autorewrite with op.
  assert (first + N.of_nat (S i) = first + N.of_nat i + 1) as Hnext by lia.
  destruct (list_find _ (log_view t)) as [[j [s' p']]|] eqn:E; cbn [fmap option_fmap option_map compose snd].
  - case_bool_decide as Hp; autorewrite with op; [|done]. subst p'.
    specialize (IH (S i) n (k + 1) t Hok). destruct (append_events _ _ _ _ _ _ _ t) as [r t'].
    destruct IH as (H1 & H2 & H3). split_and!; [done|done|]. destruct r as [[n' k']|]; [|done].
    destruct H3 as [H3 H4]. split; [simpl; lia|]. apply stored_cons; [|by rewrite <- Hnext].
    apply list_find_Some in E as (Hj & Heq & _). simpl in Heq. subst s'.
    destruct H2 as [M ->]. apply elem_of_app. left. by eapply list_elem_of_lookup_2.
  - destruct (first + N.of_nat i <=? last); autorewrite with op; [done|].
    pose proof (law_append (io i) e (first + N.of_nat i) t (Hio i) Hok Hmax) as Ha.
    destruct (append_with_sequence (io i) e (first + N.of_nat i) t) as [[x|er] t1] eqn:Et;
      destruct Ha as (Hok1 & L & HL1 & Hr).
    + apply spec_append_ok in Hr as [HL2 Hin].
      rewrite (op_ok_bind _ _ _ _ _ Et). specialize (IH (S i) (n + 1) k t1 Hok1).
      destruct (append_events _ _ _ _ _ _ _ t1) as [r t'].
      destruct IH as (H1 & H2 & H3). split_and!; [done|by do 2 (etrans; [done|])|].
      destruct r as [[n' k']|]; [|done]. destruct H3 as [H3 H4]. split; [simpl; lia|].
      apply stored_cons; [|by rewrite <- Hnext]. destruct H2 as [M ->]. apply elem_of_app. by left.
    + rewrite (op_err_bind _ _ _ _ _ Et). split_and!; [done|by rewrite Hr|done].
Qed.

Lemma on_log_run {A} (o : op T SyncError A) s :
  on_log o s = ((o (replication_log s)).1, with_log s (o (replication_log s)).2).
Proof. unfold on_log. by destruct (o _). Qed.
Lemma on_checkpoints_run {A} (o : op C SyncError A) s :
  on_checkpoints o s = ((o (checkpoint_store s)).1,
    {| replication_log := replication_log s; checkpoint_store := (o (checkpoint_store s)).2;
       processed_batches := processed_batches s; local_identity := local_identity s |}).
Proof. unfold on_checkpoints. by destruct (o _). Qed.

Definition consistent (s : state) : Prop := log_ok (replication_log s) ∧ checkpoint_ok (checkpoint_store s).

(** Appending a batch: the log grows; the checkpoint moves only when all the
    events are in the log, and does when the call succeeds. *)
Lemma append_to_log_spec io m last s :
  io_ok io → consistent s → 0 < sequence_start m → sequence_end m ≤ u64_max →
  let '(r, s') := append_events_to_log io m last s in
  consistent s' ∧ entries s `prefix_of` entries s' ∧ processed_batches s' = processed_batches s ∧
  (checkpoints s' = checkpoints s ∨
   checkpoints s' = <[source_node_id m := (sequence_end m, events_hash m)]> (checkpoints s) ∧
   stored (sequence_start m) (events m) (entries s')) ∧
  match r with
  | Ok (n, k) => n + k = lenN (events m) ∧
      checkpoints s' = <[source_node_id m := (sequence_end m, events_hash m)]> (checkpoints s) ∧
      stored (sequence_start m) (events m) (entries s')
  | Err _ => True
  end.
Proof.
  intros Hio [Hlog Hck] Hpos Hend. unfold append_events_to_log.
  pose proof (append_events_spec (append_io io) (sequence_start m) last 0 (events m) 0 0 (replication_log s) Hio Hlog Hpos) as Ha.
  destruct (append_events _ _ _ _ _ _ _ (replication_log s)) as [[[n k]|e] t] eqn:Et; destruct Ha as (H1 & H2 & H3).
  - destruct H3 as [H3 H4]. rewrite N.add_0_r in H4.
    erewrite op_ok_bind by (rewrite on_log_run, Et; reflexivity).
    pose proof (law_set_checkpoint (write_checkpoint io) (source_node_id m) (sequence_end m) (events_hash m)
      (checkpoint_store s) Hck Hend) as Hc.
    destruct (set_checkpoint _ _ _ _ (checkpoint_store s)) as [[[]|e] c] eqn:Ec; destruct Hc as [Hc1 Hc2].
    + erewrite op_ok_bind by (rewrite on_checkpoints_run; cbn [snd with_log checkpoint_store]; rewrite Ec; reflexivity).
      autorewrite with op. destruct Hc2 as [Hc2|[[? ?] _]]; [|done].
      split_and!; [done|done|done|by right|lia|done|done].
    + erewrite op_err_bind by (rewrite on_checkpoints_run; cbn [snd with_log checkpoint_store]; rewrite Ec; reflexivity).
      split_and!; [done|done|done| |done]. destruct Hc2 as [Hc2|[_ Hc2]]; [by right|by left].
  - erewrite op_err_bind by (rewrite on_log_run, Et; reflexivity).
    split_and!; [done|done|done|by left|done].
Qed.

Lemma validate_message_ok m p :
  validate_message m p = Ok () →
  0 < sequence_start m ∧ events m ≠ [] ∧ lenN (events m) ≤ DEFAULT_MAX_EVENTS ∧
  sequence_end m = sequence_start m + lenN (events m) - 1 ∧ sequence_end m ≤ u64_max ∧
  events_hash m = compute_events_hash sha256 (batch_id m) (source_node_id m) (sequence_start m)
    (sequence_end m) (created_at_ms m) (previous_batch_hash m) (events m) ∧
  batch_id m ∉ processed_set p.
Proof.
  unfold validate_message. destruct (N.eqb_spec (sequence_start m) 0); [done|].
  destruct (bool_decide_reflect (events m = [])); [done|].
  destruct (N.eqb_spec (event_count m) 0); [done|]. cbn [orb].
  destruct (N.eqb_spec (event_count m) (lenN (events m))) as [Hc|]; [|done]. cbn [negb].
  destruct (N.ltb_spec DEFAULT_MAX_EVENTS (lenN (events m))); [done|].
  destruct (validate_sizes (events m)); [|done]. cbn [mbind result_bind].
  destruct (N.ltb_spec (sequence_end m) (sequence_start m)); [done|].
  destruct (checked_add64 _ _) as [e|] eqn:E; [|done]. cbn [ok_or mbind result_bind].
  apply checked_add_Some in E as [-> ?].
  destruct (N.eqb_spec (sequence_end m) (sequence_start m + (event_count m - 1))); [|done]. cbn [negb].
  case_bool_decide; [|done]. cbn [negb]. case_bool_decide; [done|]. intros _.
  split_and!; [lia|done|done|lia|lia|done|done].
Qed.

(** The checkpoint of the message's source moves to its end, and its events
    are in the log. *)
Definition moved (m : SyncMessage) (s s' : state) : Prop :=
  let last := checkpoint_of (source_node_id m) (checkpoints s) in
  last < sequence_end m ∧ sequence_start m ≤ last + 1 ∧
  checkpoints s' = <[source_node_id m := (sequence_end m, events_hash m)]> (checkpoints s) ∧
  stored (sequence_start m) (events m) (entries s').

Lemma last_sequence_spec env c peer n :
  checkpoint_ok c → get_last_sequence env c peer = Ok n → n = checkpoint_of peer (checkpoint_view c).
Proof.
  intros Hc. unfold get_last_sequence. destruct (get_checkpoint env c peer) as [found|] eqn:E; [|done].
  apply law_get_checkpoint in E as ->; [|done]. unfold checkpoint_of.
  cbn [mbind result_bind]. intros [= <-]. by destruct (_ !! _) as [[]|].
Qed.

Lemma apply_spec io m s :
  io_ok io → consistent s →
  let '(r, s') := apply_sync_message io m s in
  consistent s' ∧ entries s `prefix_of` entries s' ∧ (checkpoints s' = checkpoints s ∨ moved m s s') ∧
  match r with
  | Ok ack =>
    validate_message m (processed_batches s) = Ok () ∧ ack_accepted ack = true ∧
    received ack + skipped ack = lenN (events m) ∧
    let last := checkpoint_of (source_node_id m) (checkpoints s) in
    (sequence_end m ≤ last ∧ s' = s ∧ received ack = 0 ∧ ack_last_sequence ack = last ∨
     moved m s s' ∧ ack_last_sequence ack = sequence_end m ∧
     processed_batches s' = record_processed_batch (batch_id m) (processed_batches s))
  | Err _ => processed_batches s' = processed_batches s
  end.
Proof.
  intros Hio Hs. pose proof Hs as [_ Hck]. unfold apply_sync_message. autorewrite with op.
  destruct (validate_message m (processed_batches s)) as [[]|e] eqn:Hv; autorewrite with op; [|by auto].
  destruct (validate_message_ok _ _ Hv) as (Hpos & Hne & _ & Hend & Hmax & _).
  destruct (get_last_sequence _ _ _) as [last|e] eqn:El; autorewrite with op; [|auto].
  apply last_sequence_spec in El; [|done]. fold (checkpoints s) in El.
  destruct (N.leb_spec (sequence_end m) last) as [Hle|Hgt]; autorewrite with op.
  { split; [done|]. split; [done|]. split; [by left|]. split_and!; [done|done|simpl; lia|left]. by rewrite <- El. }
  destruct (checked_add64 last 1) as [next|] eqn:En; cbn [ok_or]; autorewrite with op; [|auto].
  apply checked_add_Some in En as [-> _].
  destruct (N.ltb_spec (last + 1) (sequence_start m)) as [|Hstart]; autorewrite with op; [auto|].
  set (check := if (0 <? last) && _ then _ else _).
  assert (∃ r, check s = (r, s)) as [[[]|e] Hcheck].
  { subst check. destruct ((0 <? last) && _); autorewrite with op; [|by eexists].
    destruct (get_checkpoint _ _ _); autorewrite with op; by eexists. }
  2: { rewrite (op_err_bind _ _ _ _ _ Hcheck). auto. }
  rewrite (op_ok_bind _ _ _ _ _ Hcheck).
  pose proof (append_to_log_spec io m last s Hio Hs Hpos Hmax) as Ha.
  destruct (append_events_to_log io m last s) as [[[n k]|e] s1] eqn:Ea; destruct Ha as (H1 & H2 & H3 & H4 & H5).
  - rewrite (op_ok_bind _ _ _ _ _ Ea). autorewrite with op. destruct H5 as (Hn & Hc & Hst).
    assert (moved m s s1) as Hm by (unfold moved; rewrite <- El; done).
    split_and!; [done|done|by right|done|done|done|].
    right. split_and!; [done|done|]. cbn [processed_batches]. by rewrite H3.
  - rewrite (op_err_bind _ _ _ _ _ Ea). split_and!; [done|done| |done].
    destruct H4 as [H4|[H4 H6]]; [by left|right]. unfold moved. rewrite <- El. done.
Qed.

(** Every sequence up to a checkpoint is in the log. *)
Definition no_gaps (s : state) : Prop :=
  ∀ peer n h seq, checkpoints s !! peer = Some (n, h) → 1 ≤ seq ≤ n → seq ∈ (entries s).*1.

Lemma moved_no_gaps m p s s' :
  validate_message m p = Ok () → no_gaps s → entries s `prefix_of` entries s' → moved m s s' → no_gaps s'.
Proof.
  intros Hv Hg [M HM] (Hlast & Hstart & Hc & Hst) peer n h seq.
  destruct (validate_message_ok _ _ Hv) as (Hpos & Hne & _ & Hend & _).
  assert (∀ seq, seq ∈ (entries s).*1 → seq ∈ (entries s').*1) as Hmono
    by (intros x Hx; rewrite HM, fmap_app; by apply elem_of_app; left).
  rewrite Hc. destruct (decide (peer = source_node_id m)) as [->|Hd].
  - rewrite lookup_insert_eq. intros [= <- <-] Hseq.
    destruct (N.lt_ge_cases seq (sequence_start m)) as [Hlt|Hge].
    + apply Hmono. unfold checkpoint_of in *. destruct (checkpoints s !! source_node_id m) as [[n' h']|] eqn:E; [|lia].
      eapply Hg; [done|lia].
    + assert (N.to_nat (seq - sequence_start m) < length (events m))%nat as Hlt by lia.
      apply lookup_lt_is_Some in Hlt as [e He]. specialize (Hst _ _ He).
      replace (sequence_start m + N.of_nat (N.to_nat (seq - sequence_start m))) with seq in Hst by lia.
      by apply (list_elem_of_fmap_2 fst _ (seq, e)).
  - rewrite lookup_insert_ne by done. intros Hp Hseq. apply Hmono. by eapply Hg.
Qed.

Definition deliver (s : state) (x : ReceiveIo * SyncMessage) : state := (apply_sync_message x.1 x.2 s).2.

Lemma moved_grows m s s' peer :
  moved m s s' → checkpoint_of peer (checkpoints s) ≤ checkpoint_of peer (checkpoints s').
Proof.
  intros (Hlast & _ & Hc & _). rewrite Hc. unfold checkpoint_of. destruct (decide (peer = source_node_id m)) as [->|].
  - rewrite lookup_insert_eq. unfold checkpoint_of in Hlast. destruct (checkpoints s !! source_node_id m) as [[]|]; lia.
  - by rewrite lookup_insert_ne by done.
Qed.

Lemma deliver_spec x s :
  io_ok x.1 → consistent s → no_gaps s →
  consistent (deliver s x) ∧ no_gaps (deliver s x) ∧ entries s `prefix_of` entries (deliver s x) ∧
  (∀ peer, checkpoint_of peer (checkpoints s) ≤ checkpoint_of peer (checkpoints (deliver s x))).
Proof.
  intros Hio Hs Hg. unfold deliver. pose proof (apply_spec x.1 x.2 s Hio Hs) as Ha.
  destruct (validate_message x.2 (processed_batches s)) as [[]|e] eqn:Hv.
  - destruct (apply_sync_message x.1 x.2 s) as [r s']. destruct Ha as (H1 & H2 & H3 & _). cbn [snd].
    split; [done|]. destruct H3 as [H3|H3].
    + split_and!; [|done|by intros; rewrite H3]. intros peer n h seq. rewrite H3. intros Hp Hseq.
      destruct H2 as [M ->]. rewrite fmap_app. apply elem_of_app. left. by eapply Hg.
    + split_and!; [by eapply moved_no_gaps|done|]. intros peer. by eapply moved_grows.
  - unfold apply_sync_message. autorewrite with op. rewrite Hv. autorewrite with op. cbn [snd]. done.
Qed.


(** A batch that moved the replica is remembered ... *)
Lemma applied_batch_is_processed io m s ack s' :
  io_ok io → consistent s → sizeN (processed_set (processed_batches s)) < MAX_PROCESSED →
  apply_sync_message io m s = (Ok ack, s') → 0 < received ack →
  stored (sequence_start m) (events m) (entries s') ∧
  batch_id m ∈ processed_set (processed_batches s') ∧
  validate_message m (processed_batches s) = Ok ().
Proof.
  intros Hio Hs Hsize Happ Hrec. pose proof (apply_spec io m s Hio Hs) as Ha. rewrite Happ in Ha.
  destruct Ha as (_ & _ & _ & Hv & _ & _ & [(_ & _ & ? & _)|((_ & _ & _ & Hst) & _ & Hp)]); [lia|].
  split; [done|]. split; [|done]. rewrite Hp. unfold record_processed_batch.
  rewrite (proj2 (N.ltb_ge MAX_PROCESSED _)); [cbn [processed_set]; set_solver|].
  destruct (validate_message_ok _ _ Hv) as (_ & _ & _ & _ & _ & _ & Hnew).
  rewrite size_union by set_solver. rewrite size_singleton. lia.
Qed.

(** ... and a batch that is remembered is refused. *)
Lemma processed_batch_refused io m s :
  batch_id m ∈ processed_set (processed_batches s) →
  ∃ e, apply_sync_message io m s = (Err e, s) ∧ validate_message m (processed_batches s) = Err e.
Proof.
  intros Hin. destruct (validate_message m (processed_batches s)) as [[]|e] eqn:Hv.
  - by destruct (validate_message_ok _ _ Hv) as (_ & _ & _ & _ & _ & _ & Hnew).
  - exists e. split; [|done]. unfold apply_sync_message. autorewrite with op. by rewrite Hv.
Qed.
Lemma duplicate_error m p p' :
  validate_message m p = Ok () → batch_id m ∈ processed_set p' →
  validate_message m p' = Err (InvalidSyncMessage "duplicate batch_id").
Proof.
  intros Hv Hin. revert Hv. unfold validate_message. repeat (case_match; [done|]).
  destruct (validate_sizes _); [|done]. cbn [mbind result_bind]. case_match; [done|].
  destruct (ok_or _ _); [|done]. cbn [mbind result_bind]. do 2 (case_match; [done|]).
  intros _. by rewrite bool_decide_eq_true_2.
Qed.

(** A batch that is sent again is refused. Once a batch has advanced its
    source's checkpoint, sending the very same batch again - as a sender does
    that has not seen the acknowledgement - is an error, and leaves the
    replica alone, although the batch has been applied. *)
Theorem resent_batch_is_refused io io' m s ack s' :
  io_ok io → consistent s → sizeN (processed_set (processed_batches s)) < MAX_PROCESSED →
  apply_sync_message io m s = (Ok ack, s') → 0 < received ack →
  stored (sequence_start m) (events m) (entries s') ∧
  apply_sync_message io' m s' = (Err (InvalidSyncMessage "duplicate batch_id"), s').
Proof.
  intros Hio Hs Hsize Happ Hrec.
  destruct (applied_batch_is_processed io m s ack s' Hio Hs Hsize Happ Hrec) as (Hst & Hin & Hv).
  split; [done|]. destruct (processed_batch_refused io' m s' Hin) as (e & -> & Herr).
  rewrite (duplicate_error _ _ _ Hv Hin) in Herr. by injection Herr as <-.
Qed.
End Receiver.

(** ** Witnesses *)

Module Demo.
Definition sha (x : list byte) : list byte := be_bytes 32 (lenN x).
#[global] Instance demo_log : ReplicationLog InMemoryReplicationLog := memory_log sha.
#[global] Instance demo_laws : ReplicationLogLaws InMemoryReplicationLog demo_log := memory_laws sha.
Abbreviation state := (SyncReceiverState InMemoryReplicationLog CheckpointMap).
Definition io : ReceiveIo (HT := demo_log) (HC := memory_checkpoints) :=
  Build_ReceiveIo (HT := demo_log) (HC := memory_checkpoints) () () (λ _, ()) ().
Definition start : state := receiver_new memory_new ∅.
Definition batch : SyncMessage := message_new sha "b1" "node-1" 1 2 0 None [[x61]; [x62]].
Lemma io_fine : io_ok io.
Proof. by intros i. Qed.
Lemma start_consistent : consistent start.
Proof.
  split; [|exact I]. exists []. split; [|reflexivity].
  split; [by intros seq p ?%elem_of_nil|constructor].
Qed.
Lemma start_no_gaps : no_gaps start.
Proof. by intros peer n h seq ?. Qed.
End Demo.


Lemma resent_batch_is_refused_witness :
  let '(r, s) := apply_sync_message Demo.sha Demo.io Demo.batch Demo.start in
  is_ok r = true ∧
  (apply_sync_message Demo.sha Demo.io Demo.batch s).1 = Err (InvalidSyncMessage "duplicate batch_id").
Proof.
  destruct (apply_sync_message Demo.sha Demo.io Demo.batch Demo.start) as [r s] eqn:E.
  destruct r as [ack|e]; [|vm_compute in E; discriminate]. split; [reflexivity|].
  destruct (resent_batch_is_refused Demo.sha Demo.io Demo.io Demo.batch Demo.start ack s) as [_ H].
  - exact Demo.io_fine.
  - exact Demo.start_consistent.
  - vm_compute. reflexivity.
  - exact E.
  - assert (ack = {| ack_accepted := true; received := 2; skipped := 0; ack_last_sequence := 2 |}) as ->
      by (vm_compute in E; congruence). vm_compute. reflexivity.
  - by rewrite H.
Defined.
