(* ===== verification/SyncClient.v ===== *)
(** The leader's side of replication: the outboxes
    ([crates/appcore-sync/src/sync/outbox.rs]), the retry policy and counters
    ([retry.rs]), and the client that pushes batches in order ([client.rs]).
    The transport is an operation on the state of the peer. *)

From S2P Require Import Prelude.
From S2P Require Import Text.
From S2P Require Import Types.
From S2P Require Import Disk.
From S2P Require Import SyncTypes.
From S2P Require Import SyncLog.
From S2P Require Import SyncCheckpoint.
From S2P Require Import SyncReceiver.

Local Open Scope N_scope.

Definition SYNC_OUTBOX_FORMAT_V1 : string := "# appcore-sync-outbox-v1".
Definition MAX_OUTBOX_FILE_BYTES : N := 64 * 1024 * 1024.

Class SyncOutbox (O : Type) := {
  outbox_env : Type;
  try_enqueue : outbox_env → SyncMessage → N → op O SyncError bool;
  front : outbox_env → op O SyncError (option SyncMessage);
  acknowledge_front : outbox_env → string → op O SyncError ();
  outbox_len : outbox_env → op O SyncError N;
}.

(** An outbox is a queue; a call may fail, and then leaves the queue alone or,
    when it was writing, may have written it. *)
Class SyncOutboxLaws (O : Type) `{SyncOutbox O} := {
  outbox_ok : O → Prop;
  queue : O → list SyncMessage;
  law_enqueue io m max o : outbox_ok o →
    let '(r, o') := try_enqueue io m max o in
    outbox_ok o' ∧
    match r with
    | Ok true => lenN (queue o) < max ∧ queue o' = queue o ++ [m]
    | Ok false => max ≤ lenN (queue o) ∧ queue o' = queue o
    | Err _ => queue o' = queue o ∨ queue o' = queue o ++ [m]
    end;
  law_front io o : outbox_ok o →
    let '(r, o') := front io o in
    outbox_ok o' ∧ queue o' = queue o ∧ match r with Ok f => f = head (queue o) | Err _ => True end;
  law_acknowledge io id o : outbox_ok o →
    let '(r, o') := acknowledge_front io id o in
    outbox_ok o' ∧
    match r with
    | Ok _ => batch_id <$> head (queue o) = Some id ∧ queue o' = tail (queue o)
    | Err _ => queue o' = queue o ∨ queue o' = tail (queue o)
    end;
}.

Definition acknowledgement_mismatch : SyncError := InvalidSyncMessage "outbox acknowledgement mismatch".

(** ** [InMemorySyncOutbox] *)

Definition InMemorySyncOutbox : Type := list SyncMessage.
Definition memory_try_enqueue (m : SyncMessage) (max_len : N) : op InMemorySyncOutbox SyncError bool :=
  l ← op_get;
  if max_len <=? lenN l then mret false
  else _ ← op_modify (λ l, l ++ [m]); mret true.
Definition memory_front : op InMemorySyncOutbox SyncError (option SyncMessage) :=
  l ← op_get; mret (head l).
Definition memory_acknowledge_front (id : string) : op InMemorySyncOutbox SyncError () :=
  l ← op_get;
  if bool_decide (batch_id <$> head l = Some id) then op_modify tail
  else op_fail acknowledgement_mismatch.

#[export] Instance memory_outbox : SyncOutbox InMemorySyncOutbox := {
  outbox_env := ();
  try_enqueue _ := memory_try_enqueue;
  front _ := memory_front;
  acknowledge_front _ := memory_acknowledge_front;
  outbox_len _ := l ← op_get; mret (lenN l);
}.
#[export] Instance memory_outbox_laws : SyncOutboxLaws InMemorySyncOutbox.
Proof.
  refine {| outbox_ok := λ _, True; queue := λ l, l |}.
  - intros [] m max l _. cbn [try_enqueue memory_outbox]. unfold memory_try_enqueue. autorewrite with op.
    destruct (N.leb_spec max (lenN l)); by autorewrite with op.
  - intros [] l _. done.
  - intros [] id l _. cbn [acknowledge_front memory_outbox]. unfold memory_acknowledge_front.
    autorewrite with op. case_bool_decide; [done|]. split; [done|by left].
Defined.

(** ** [FileSyncOutbox] *)

Record OutboxIo := {
  outbox_locked : SyncResult ();
  outbox_opened : SyncResult ();
  outbox_written : AtomicWrite;
}.
(** The queue in memory is replaced by that of the file in every call. *)
Record FileSyncOutbox := { outbox_messages : list SyncMessage; outbox_file : string }.

Section FileOutbox.
(** [serde_json] on messages, as bytes. *)
Context (to_json : SyncMessage → SyncResult (list byte)).
Context (of_json : list byte → option SyncMessage).

(** The loop of [load_messages], from line [n]. *)
Fixpoint load_lines (n : N) (ls : list string) : SyncResult (list SyncMessage) :=
  match ls with
  | [] => Ok []
  | line :: ls' =>
    if bool_decide (line = EmptyString) then load_lines (n + 1) ls'
    else
      bytes ← map_err (λ _, CorruptOutbox (n + 1)) (hex_to_bytes line);
      match bytes with
      | x7b :: _ =>
        m ← ok_or (CorruptOutbox (n + 1)) (of_json bytes);
        ms ← load_lines (n + 1) ls';
        Ok (m :: ms)
      | _ => Err (ReplicationFailed UPDATE_REQUIRED_MESSAGE)
      end
  end.
Definition load_messages (io : OutboxIo) (text : string) : SyncResult (list SyncMessage) :=
  contents ← read_bounded_text (outbox_opened io) text MAX_OUTBOX_FILE_BYTES;
  body ← split_format contents SYNC_OUTBOX_FORMAT_V1;
  load_lines 0 (lines body).

(** The loop of [replace]. *)
Fixpoint encode_messages (output : string) (l : list SyncMessage) : SyncResult string :=
  match l with
  | [] => Ok output
  | m :: l' =>
    bytes ← to_json m;
    let output := output +:+ bytes_to_hex bytes +:+ String LF EmptyString in
    if MAX_OUTBOX_FILE_BYTES <? str_len output then
      Err (ReplicationFailed "sync outbox exceeds configured limit")
    else encode_messages output l'
  end.
Definition replace (io : OutboxIo) (l : list SyncMessage) : op FileSyncOutbox SyncError () := λ o,
  let '(r, t) := (text ← op_lift (encode_messages (SYNC_OUTBOX_FORMAT_V1 +:+ String LF EmptyString) l);
                  sync_atomic_write (outbox_written io) text) (outbox_file o) in
  (r, {| outbox_messages := outbox_messages o; outbox_file := t |}).

Definition set_messages (l : list SyncMessage) : op FileSyncOutbox SyncError () :=
  op_modify (λ o, {| outbox_messages := l; outbox_file := outbox_file o |}).

(** What every call starts with: the lock and the reload. *)
Definition reload (io : OutboxIo) : op FileSyncOutbox SyncError (list SyncMessage) :=
  _ ← op_lift (outbox_locked io);
  o ← op_get;
  l ← op_lift (load_messages io (outbox_file o));
  _ ← set_messages l;
  mret l.

Definition file_try_enqueue (io : OutboxIo) (m : SyncMessage) (max_len : N) : op FileSyncOutbox SyncError bool :=
  l ← reload io;
  if max_len <=? lenN l then mret false
  else
    _ ← replace io (l ++ [m]);
    _ ← set_messages (l ++ [m]);
    mret true.
Definition file_front (io : OutboxIo) : op FileSyncOutbox SyncError (option SyncMessage) :=
  l ← reload io; mret (head l).
Definition file_acknowledge_front (io : OutboxIo) (id : string) : op FileSyncOutbox SyncError () :=
  l ← reload io;
  if bool_decide (batch_id <$> head l = Some id) then
    _ ← replace io (tail l);
    set_messages (tail l)
  else op_fail acknowledgement_mismatch.

Definition file_outbox_new (io : OutboxIo) : op (option string) SyncError FileSyncOutbox := λ disk,
  match outbox_locked io with
  | Err e => (Err e, disk)
  | Ok _ =>
    match disk with
    | Some t => (l ← load_messages io t; Ok {| outbox_messages := l; outbox_file := t |}, disk)
    | None =>
      let '(r, o) := replace io [] {| outbox_messages := []; outbox_file := EmptyString |} in
      (_ ← r; Ok o, if bool_decide (outbox_file o = EmptyString) then None else Some (outbox_file o))
    end
  end.

#[export] Instance file_outbox : SyncOutbox FileSyncOutbox := {
  outbox_env := OutboxIo;
  try_enqueue := file_try_enqueue;
  front := file_front;
  acknowledge_front := file_acknowledge_front;
  outbox_len io := l ← reload io; mret (lenN l);
}.

(** *** Written queues are read back *)

Record outbox_json_laws : Prop := {
  outbox_total m : ∃ b, to_json m = Ok (x7b :: b);
  outbox_roundtrip m b : to_json m = Ok b → of_json b = Some m;
}.

Section OutboxLaws.
Context (J : outbox_json_laws).

Fixpoint outbox_lines (l : list SyncMessage) : string :=
  match l with
  | [] => EmptyString
  | m :: l' =>
    match to_json m with
    | Ok b => bytes_to_hex b +:+ String LF (outbox_lines l')
    | Err _ => EmptyString
    end
  end.
Definition outbox_header : string := SYNC_OUTBOX_FORMAT_V1 +:+ String LF EmptyString.
Definition outbox_text (l : list SyncMessage) : string := outbox_header +:+ outbox_lines l.

Lemma encode_messages_spec output l t :
  encode_messages output l = Ok t → t = output +:+ outbox_lines l.
Proof.
  revert output. induction l as [|m l IH]; intros output; cbn [encode_messages outbox_lines].
  - intros [= <-]. by rewrite string_app_empty_r.
  - destruct (to_json m) as [b|]; [|done]. cbn [mbind result_bind]. case_match; [done|]. intros Hrec%IH.
    rewrite Hrec. by autorewrite with text.
Qed.

Lemma load_outbox n l : load_lines n (lines (outbox_lines l)) = Ok l ∧ str_ascii (outbox_lines l).
Proof.
  revert n. induction l as [|m l IH]; intros n; [done|]. cbn [outbox_lines].
  destruct (outbox_total J m) as [b Hb]. rewrite Hb. destruct (IH (n + 1)) as [Hl Ha].
  pose proof (bytes_to_hex_chars (x7b :: b)) as Hh.
  split.
  - rewrite lines_cons; cycle 1.
    { eapply hex_char_free; [|done]. unfold hex_char. vm_compute. intuition congruence. }
    { eapply hex_char_free; [|done]. unfold hex_char. vm_compute. intuition congruence. }
    cbn [load_lines]. rewrite bool_decide_eq_false_2 by done.
    rewrite hex_roundtrip. cbn [map_err mbind result_bind].
    rewrite (outbox_roundtrip J _ _ Hb). cbn [ok_or mbind result_bind]. by rewrite Hl.
  - rewrite str_ascii_app. split; [by apply hex_ascii|]. split; [by vm_compute|done].
Qed.

Lemma load_messages_spec io l r :
  load_messages io (outbox_text l) = r → (∃ e, r = Err e) ∨ r = Ok l.
Proof.
  unfold load_messages, read_bounded_text. destruct (outbox_opened io); [|intros <-; left; eauto].
  cbn [mbind result_bind]. case_match; [intros <-; left; eauto|].
  destruct (load_outbox 0 l) as [Hl Ha].
  rewrite utf8_valid_ascii by (unfold outbox_text; rewrite str_ascii_app; split; [by vm_compute|done]).
  cbn [negb mbind result_bind]. unfold split_format. fold outbox_header. unfold outbox_text.
  rewrite (proj2 (str_prefix_spec outbox_header _)) by eauto. cbn [mbind result_bind].
  rewrite str_drop_app, Hl. intros <-. by right.
Qed.

Definition held (o : FileSyncOutbox) (l : list SyncMessage) : Prop := outbox_file o = outbox_text l.

Lemma outbox_reload_spec io o l :
  held o l →
  let '(r, o') := reload io o in
  held o' l ∧ match r with Ok l' => l' = l | Err _ => True end.
Proof.
  intros Ho. unfold reload. destruct (outbox_locked io) as [[]|e]; autorewrite with op; [|done].
  destruct (load_messages io (outbox_file o)) as [l'|e] eqn:E; autorewrite with op; [|done].
  rewrite Ho in E. apply load_messages_spec in E as [[? ?]|[= ->]]; [done|]. done.
Qed.

Lemma replace_spec io l l' o :
  held o l →
  let '(r, o') := replace io l' o in
  match r with Ok _ => held o' l' | Err _ => held o' l ∨ held o' l' end.
Proof.
  intros Ho. unfold replace. destruct (encode_messages _ l') as [t|e] eqn:E; autorewrite with op; [|by left].
  apply encode_messages_spec in E. fold outbox_header in E. fold (outbox_text l') in E. subst t.
  unfold sync_atomic_write. destruct (outbox_written io); cbn [atomic_write op_modify op_fail mbind op_bind];
    [done|by left|by right].
Qed.

(** The file's queue, computed from its text. *)
Definition file_queue (o : FileSyncOutbox) : list SyncMessage :=
  match load_lines 0 (lines (str_drop (String.length outbox_header) (outbox_file o))) with
  | Ok l => l
  | Err _ => []
  end.
Lemma held_queue o l : held o l → file_queue o = l.
Proof.
  intros Ho. unfold file_queue. rewrite Ho. unfold outbox_text. rewrite str_drop_app.
  by rewrite (proj1 (load_outbox 0 l)).
Qed.

Definition file_outbox_laws : SyncOutboxLaws FileSyncOutbox.
Proof.
  refine {| outbox_ok := λ o, ∃ l, held o l; queue := file_queue |}.
  - intros io m max o [l Ho]. cbn [try_enqueue file_outbox]. unfold file_try_enqueue.
    pose proof (outbox_reload_spec io o l Ho) as Hr. rewrite (held_queue o l Ho).
    destruct (reload io o) as [[l'|e] o1] eqn:E; destruct Hr as [Ho1 Hl].
    2: { rewrite (op_err_bind _ _ _ _ _ E). split; [eauto|left]. by apply held_queue. }
    rewrite (op_ok_bind _ _ _ _ _ E). subst l'. destruct (N.leb_spec max (lenN l)); autorewrite with op.
    { split; [eauto|]. split; [done|by apply held_queue]. }
    pose proof (replace_spec io l (l ++ [m]) o1 Ho1) as Hr.
    destruct (replace io (l ++ [m]) o1) as [[[]|e] o2] eqn:E2.
    + rewrite (op_ok_bind _ _ _ _ _ E2). autorewrite with op.
      split; [by exists (l ++ [m])|]. split; [done|]. by apply held_queue.
    + rewrite (op_err_bind _ _ _ _ _ E2). destruct Hr as [Hr|Hr]; (split; [eauto|]);
        rewrite (held_queue _ _ Hr); auto.
  - intros io o [l Ho]. cbn [front file_outbox]. unfold file_front.
    pose proof (outbox_reload_spec io o l Ho) as Hr. rewrite (held_queue o l Ho).
    destruct (reload io o) as [[l'|e] o1] eqn:E; destruct Hr as [Ho1 Hl].
    + rewrite (op_ok_bind _ _ _ _ _ E). autorewrite with op. subst l'.
      split_and!; [eauto|by apply held_queue|done].
    + rewrite (op_err_bind _ _ _ _ _ E). split_and!; [eauto|by apply held_queue|done].
  - intros io id o [l Ho]. cbn [acknowledge_front file_outbox]. unfold file_acknowledge_front.
    pose proof (outbox_reload_spec io o l Ho) as Hr. rewrite (held_queue o l Ho).
    destruct (reload io o) as [[l'|e] o1] eqn:E; destruct Hr as [Ho1 Hl].
    2: { rewrite (op_err_bind _ _ _ _ _ E). split; [eauto|left]. by apply held_queue. }
    rewrite (op_ok_bind _ _ _ _ _ E). subst l'. case_bool_decide as Hid; autorewrite with op.
    2: { split; [eauto|left]. by apply held_queue. }
    pose proof (replace_spec io l (tail l) o1 Ho1) as Hr.
    destruct (replace io (tail l) o1) as [[[]|e] o2] eqn:E2.
    + rewrite (op_ok_bind _ _ _ _ _ E2). unfold set_messages, op_modify.
      split; [by exists (tail l)|]. split; [done|]. by apply held_queue.
    + rewrite (op_err_bind _ _ _ _ _ E2). destruct Hr as [Hr|Hr]; (split; [eauto|]);
        rewrite (held_queue _ _ Hr); auto.
Defined.
End OutboxLaws.
End FileOutbox.

(** ** The retry policy and the counters *)

Record SyncRetryPolicy := { max_attempts : N; backoff_ms : N; max_queue_len : N }.
Definition retry_policy_default : SyncRetryPolicy :=
  {| max_attempts := 3; backoff_ms := 50; max_queue_len := 64 |}.

Record SyncPushMetrics := {
  push_attempt : N; push_success : N; push_failed : N; push_dropped : N;
}.
Definition metrics_default : SyncPushMetrics :=
  {| push_attempt := 0; push_success := 0; push_failed := 0; push_dropped := 0 |}.
(** [+= 1] on a [u64] of a release build. *)
Definition wrapping_incr (n : N) : N := (n + 1) mod (u64_max + 1).

(** What the client uses of [HttpSyncTransport] and its cancellation token:
    the network and the clock decide. *)
Class SyncPeer (W : Type) := {
  is_cancelled : W → bool;
  post_sync_events : SyncMessage → op W SyncError ();
  wait_timeout : N → W → bool * W;
}.

Record FollowerSyncClient (O W : Type) := {
  client_outbox : O;
  client_metrics : SyncPushMetrics;
  client_peer : W;
}.
Arguments client_outbox {O W} _.
Arguments client_metrics {O W} _.
Arguments client_peer {O W} _.
Arguments Build_FollowerSyncClient {O W} _ _ _.

Definition sync_push_cancelled : SyncError := TransportFailed "sync push cancelled".
Definition sync_push_exhausted : SyncError := TransportFailed "sync push retry exhausted".
Definition sync_queue_full : SyncError := TransportFailed "sync queue full".

Section Client.
Context {O W : Type} `{HO : !SyncOutbox O} `{HW : !SyncPeer W}.
Context (policy : SyncRetryPolicy).

Abbreviation state := (FollowerSyncClient O W).
Abbreviation client := (op state SyncError).

Definition on_outbox {A} (o : op O SyncError A) : client A := λ s,
  let '(r, q) := o (client_outbox s) in
  (r, {| client_outbox := q; client_metrics := client_metrics s; client_peer := client_peer s |}).
Definition on_peer {A} (f : W → A * W) : client A := λ s,
  let '(a, w) := f (client_peer s) in
  (Ok a, {| client_outbox := client_outbox s; client_metrics := client_metrics s; client_peer := w |}).
Definition count (f : SyncPushMetrics → SyncPushMetrics) : client () :=
  op_modify (λ s, {| client_outbox := client_outbox s; client_metrics := f (client_metrics s);
                     client_peer := client_peer s |}).

Definition count_attempt (c : SyncPushMetrics) : SyncPushMetrics :=
  {| push_attempt := wrapping_incr (push_attempt c); push_success := push_success c;
     push_failed := push_failed c; push_dropped := push_dropped c |}.
Definition count_success (c : SyncPushMetrics) : SyncPushMetrics :=
  {| push_attempt := push_attempt c; push_success := wrapping_incr (push_success c);
     push_failed := push_failed c; push_dropped := push_dropped c |}.
Definition count_failed (c : SyncPushMetrics) : SyncPushMetrics :=
  {| push_attempt := push_attempt c; push_success := push_success c;
     push_failed := wrapping_incr (push_failed c); push_dropped := push_dropped c |}.
Definition count_dropped (c : SyncPushMetrics) : SyncPushMetrics :=
  {| push_attempt := push_attempt c; push_success := push_success c;
     push_failed := push_failed c; push_dropped := wrapping_incr (push_dropped c) |}.

(** The loop of [try_send_with_retry], with [left] attempts to go. *)
Fixpoint attempts (left : nat) (m : SyncMessage) : client () :=
  match left with
  | 0%nat => op_fail sync_push_exhausted
  | S left' =>
    s ← op_get;
    if is_cancelled (client_peer s) then op_fail sync_push_cancelled
    else
      _ ← count count_attempt;
      posted ← on_peer (post_sync_events m);
      if is_ok posted then mret ()
      else
        waited ← (if bool_decide (left' ≠ 0%nat) && (0 <? backoff_ms policy)
                  then on_peer (wait_timeout (backoff_ms policy)) else mret false);
        if (waited : bool) then op_fail sync_push_cancelled else attempts left' m
  end.
Definition try_send_with_retry (m : SyncMessage) : client () :=
  attempts (N.to_nat (N.max (max_attempts policy) 1)) m.

(** A call whose error the caller only tests. *)
Definition attempt {A} (o : client A) : client bool := λ s, let '(r, s') := o s in (Ok (is_ok r), s').

(** What the calls of round [i] of the loop meet. *)
Record FlushIo := { front_io : nat → outbox_env; acknowledge_io : nat → outbox_env }.

(** The loop of [flush_queue]; [Ok None] says that the fuel ran out. *)
Fixpoint flush_loop (fuel : nat) (io : FlushIo) (i : nat) : client (option ()) :=
  match fuel with
  | 0%nat => mret None
  | S fuel' =>
    next ← on_outbox (front (front_io io i));
    match next with
    | None => mret (Some ())
    | Some m =>
      sent ← attempt (try_send_with_retry m);
      if (sent : bool) then
        _ ← on_outbox (acknowledge_front (acknowledge_io io i) (batch_id m));
        _ ← count count_success;
        flush_loop fuel' io (S i)
      else
        _ ← count count_failed;
        op_fail sync_push_exhausted
    end
  end.
Definition flush_queue (fuel : nat) (io : FlushIo) : client (option ()) := flush_loop fuel io 0.
Definition flush_pending : nat → FlushIo → client (option ()) := flush_queue.

Definition push_events (fuel : nat) (enqueue_io : outbox_env) (io : FlushIo) (m : SyncMessage) :
    client (option ()) :=
  accepted ← on_outbox (try_enqueue enqueue_io m (max_queue_len policy));
  if (accepted : bool) then flush_queue fuel io
  else _ ← count count_dropped; op_fail sync_queue_full.

(** ** Delivery *)

(** What the peer has been through, and the batches it took, in order. *)
Inductive peer_run : W → list SyncMessage → W → Prop :=
| run_stop w : peer_run w [] w
| run_taken m w w1 l w2 :
    post_sync_events m w = (Ok (), w1) → peer_run w1 l w2 → peer_run w (m :: l) w2
| run_refused m e w w1 l w2 :
    post_sync_events m w = (Err e, w1) → peer_run w1 l w2 → peer_run w l w2
| run_waited n b w w1 l w2 :
    wait_timeout n w = (b, w1) → peer_run w1 l w2 → peer_run w l w2.
#[local] Hint Constructors peer_run : core.

Lemma peer_run_app w l w1 l' w2 : peer_run w l w1 → peer_run w1 l' w2 → peer_run w (l ++ l') w2.
Proof. induction 1; simpl; eauto. Qed.

Lemma on_peer_bind {A B} (f : W → A * W) (k : A → client B) s :
  (on_peer f ≫= k) s = k (f (client_peer s)).1
    {| client_outbox := client_outbox s; client_metrics := client_metrics s;
       client_peer := (f (client_peer s)).2 |}.
Proof. unfold on_peer, mbind, op_bind. by destruct (f _). Qed.

(** The attempts touch the peer and the counters only. *)
Lemma attempts_spec left m s :
  let '(r, s') := attempts left m s in
  client_outbox s' = client_outbox s ∧
  peer_run (client_peer s) (if is_ok r then [m] else []) (client_peer s').
Proof.
  revert s. induction left as [|left IH]; intros s; cbn [attempts]; [by split|]. autorewrite with op.
  destruct (is_cancelled _); [by split|]. unfold count. rewrite op_modify_bind, on_peer_bind.
  cbn [client_peer client_outbox client_metrics].
  destruct (post_sync_events m (client_peer s)) as [[[]|e] w] eqn:Hpost; cbn [is_ok fst snd].
  { split; [done|]. cbn. eauto. }
  set (waiting := _ && _). destruct waiting; rewrite ?on_peer_bind, ?op_ret_bind; cbn [client_peer client_outbox client_metrics].
  - destruct (wait_timeout (backoff_ms policy) w) as [b w'] eqn:Hwait. cbn [fst snd].
    destruct b; [split; [done|]; cbn; eauto|].
    match goal with |- context [attempts left m ?s1] => specialize (IH s1); destruct (attempts left m s1) end.
    destruct IH as [-> Hrun]. split; [done|]. cbn in Hrun. eauto.
  - match goal with |- context [attempts left m ?s1] => specialize (IH s1); destruct (attempts left m s1) end.
    destruct IH as [-> Hrun]. split; [done|]. cbn in Hrun. eauto.
Qed.

Context `{HL : !SyncOutboxLaws O (H := HO)}.

Definition pending (s : state) : list SyncMessage := queue (client_outbox s).
Definition consistent (s : state) : Prop := outbox_ok (client_outbox s).

Lemma on_outbox_run {A} (o : op O SyncError A) s :
  on_outbox o s = ((o (client_outbox s)).1,
    {| client_outbox := (o (client_outbox s)).2; client_metrics := client_metrics s;
       client_peer := client_peer s |}).
Proof. unfold on_outbox. by destruct (o _). Qed.
Lemma attempt_run {A} (o : client A) s : attempt o s = (Ok (is_ok (o s).1), (o s).2).
Proof. unfold attempt. by destruct (o s). Qed.

(** One round: the batch in front is offered; a batch the peer took leaves the
    queue, unless the acknowledgement could not be written. *)
Inductive round (s : state) : result SyncError (option ()) → state → Prop :=
| round_idle s' : pending s = [] → pending s' = [] → consistent s' → client_peer s' = client_peer s →
    round s (Ok (Some ())) s'
| round_unread e s' : pending s' = pending s → consistent s' → client_peer s' = client_peer s →
    round s (Err e) s'
| round_refused e s' : pending s' = pending s → consistent s' → peer_run (client_peer s) [] (client_peer s') →
    round s (Err e) s'
| round_unacknowledged e m s' : head (pending s) = Some m →
    (pending s' = pending s ∨ pending s' = tail (pending s)) → consistent s' →
    peer_run (client_peer s) [m] (client_peer s') → round s (Err e) s'.

Lemma flush_step io i s :
  consistent s →
  (∃ r s', round s r s' ∧ r ≠ Ok None ∧ ∀ fuel, flush_loop (S fuel) io i s = (r, s')) ∨
  ∃ m s1, pending s = m :: pending s1 ∧ consistent s1 ∧ peer_run (client_peer s) [m] (client_peer s1) ∧
    ∀ fuel, flush_loop (S fuel) io i s = flush_loop fuel io (S i) s1.
Proof.
  intros Hs. pose proof (law_front (front_io io i) (client_outbox s) Hs) as Hf.
  destruct (front (front_io io i) (client_outbox s)) as [[next|e] q] eqn:E; destruct Hf as (Hq & Hsame & Hnext);
    set (s1 := {| client_outbox := q; client_metrics := client_metrics s; client_peer := client_peer s |}).
  2: { left. exists (Err e), s1. split; [by apply round_unread|]. split; [done|]. intros fuel. cbn [flush_loop].
       by erewrite op_err_bind by (rewrite on_outbox_run, E; reflexivity). }
  assert (on_outbox (front (front_io io i)) s = (Ok next, s1)) as Hrun by by rewrite on_outbox_run, E.
  destruct next as [m|].
  2: { left. exists (Ok (Some ())), s1. split; [|split; [done|]].
       - apply round_idle; unfold pending, consistent; cbn; try done; [|rewrite Hsame];
           by destruct (queue (client_outbox s)).
       - intros fuel. cbn [flush_loop]. by rewrite (op_ok_bind _ _ _ _ _ Hrun). }
  pose proof (attempts_spec (N.to_nat (N.max (max_attempts policy) 1)) m s1) as Ha.
  fold (try_send_with_retry m) in Ha. destruct (try_send_with_retry m s1) as [sent s2] eqn:Esent.
  destruct Ha as [Hout Hpeer].
  assert (attempt (try_send_with_retry m) s1 = (Ok (is_ok sent), s2)) as Hrun2 by by rewrite attempt_run, Esent.
  destruct sent as [[]|e]; cbn [is_ok] in *.
  2: { left. eexists (Err sync_push_exhausted), _. split; [|split; [done|]]; cycle 1.
       - intros fuel. cbn [flush_loop]. by rewrite (op_ok_bind _ _ _ _ _ Hrun), (op_ok_bind _ _ _ _ _ Hrun2).
       - apply round_refused; unfold pending, consistent; cbn; by rewrite ?Hout. }
  assert (outbox_ok (client_outbox s2)) as Hs2 by by rewrite Hout.
  pose proof (law_acknowledge (acknowledge_io io i) (batch_id m) (client_outbox s2) Hs2) as Hk.
  destruct (acknowledge_front _ _ (client_outbox s2)) as [[[]|e] q3] eqn:E3; destruct Hk as [Hq3 Hk];
    rewrite Hout in Hk; cbn [s1 client_outbox] in Hk; rewrite Hsame in Hk.
  - right. set (s3 := {| client_outbox := q3; client_metrics := client_metrics s2; client_peer := client_peer s2 |}).
    assert (on_outbox (acknowledge_front (acknowledge_io io i) (batch_id m)) s2 = (Ok (), s3)) as Hrun3
      by by rewrite on_outbox_run, E3.
    eexists m, _. split; [|split; [|split]]; cycle 3.
    { intros fuel. cbn [flush_loop]. rewrite (op_ok_bind _ _ _ _ _ Hrun), (op_ok_bind _ _ _ _ _ Hrun2).
      cbn [is_ok]. rewrite (op_ok_bind _ _ _ _ _ Hrun3). reflexivity. }
    + unfold pending. cbn [client_outbox s3]. destruct Hk as [_ ->].
      destruct (queue (client_outbox s)) as [|m' l]; [done|]. cbn in Hnext. by injection Hnext as ->.
    + done.
    + done.
  - left. eexists (Err e), _. split; [|split; [done|]]; cycle 1.
    { intros fuel. cbn [flush_loop]. rewrite (op_ok_bind _ _ _ _ _ Hrun), (op_ok_bind _ _ _ _ _ Hrun2).
      cbn [is_ok]. erewrite op_err_bind by (rewrite on_outbox_run, E3; reflexivity). reflexivity. }
    apply (round_unacknowledged s e m); unfold pending, consistent; cbn; done.
Qed.

(** C33: A flush terminates. With more fuel than there are pending batches the
    loop does not run out of fuel, and any more fuel gives the same outcome and
    the same state: the code's unbounded [loop] returns, whatever the peer
    answers and however the outbox's writes fail. *)
Theorem flush_terminates fuel io i s :
  consistent s → (length (pending s) < fuel)%nat →
  (flush_loop fuel io i s).1 ≠ Ok None ∧
  ∀ more, flush_loop (fuel + more) io i s = flush_loop fuel io i s.
Proof.
  revert i s. induction fuel as [|fuel IH]; intros i s Hs Hlen; [lia|].
  destruct (flush_step io i s Hs) as [(r & s' & _ & Hr & Hrun)|(m & s1 & Hp & Hs1 & _ & Hrun)].
  - split; [by rewrite Hrun|]. intros more. by rewrite Nat.add_succ_l, !Hrun.
  - rewrite Hp in Hlen. destruct (IH (S i) s1 Hs1) as [Hr Hmore]; [cbn in Hlen; lia|].
    split; [by rewrite Hrun|]. intros more. by rewrite Nat.add_succ_l, !Hrun.
Qed.

(** Batches are delivered in order, and leave the outbox only when the peer
    took them. After a flush the batches that left the queue are the first
    ones of it; the peer took exactly these, in that order - or these and the
    one that is now in front, whose acknowledgement could not be recorded. A
    flush that reports success has emptied the queue. *)
Theorem flush_delivers_in_order fuel io i s :
  consistent s →
  let '(r, s') := flush_loop fuel io i s in
  consistent s' ∧
  ∃ gone, pending s = gone ++ pending s' ∧
    (peer_run (client_peer s) gone (client_peer s') ∨
     is_ok r = false ∧ ∃ m, head (pending s') = Some m ∧
       peer_run (client_peer s) (gone ++ [m]) (client_peer s')) ∧
    (r = Ok (Some ()) → pending s' = []).
Proof.
  revert i s. induction fuel as [|fuel IH]; intros i s Hs.
  { cbn [flush_loop]. autorewrite with op. split; [done|]. exists []. split; [done|]. split; [left; constructor|done]. }
  destruct (flush_step io i s Hs) as [(r & s' & Hround & Hr & Hrun)|(m & s1 & Hp & Hs1 & Hpeer & Hrun)];
    rewrite Hrun.
  - destruct Hround as [s' Hp Hp' Hs' Hw|e s' Hp Hs' Hw|e s' Hp Hs' Hw|e m s' Hp Hq Hs' Hw].
    + split; [done|]. exists []. rewrite Hp, Hp', Hw. eauto.
    + split; [done|]. exists []. rewrite Hp, Hw. split; [done|]. split; [by left|done].
    + split; [done|]. exists []. rewrite Hp. split; [done|]. split; [by left|done].
    + split; [done|]. destruct Hq as [Hq|Hq].
      * exists []. rewrite Hq. split; [done|]. split; [|done]. right. split; [done|]. by exists m.
      * exists [m]. rewrite Hq. split; [destruct (pending s) as [|? ?]; [done|]; cbn in Hp; by injection Hp as ->|]. split; [by left|done].
  - specialize (IH (S i) s1 Hs1). destruct (flush_loop fuel io (S i) s1) as [r s'].
    destruct IH as (Hs' & gone & Hg & Hw & Hdone). split; [done|]. exists (m :: gone).
    rewrite Hp, Hg. split; [done|]. split; [|done].
    destruct Hw as [Hw|(Hr & m' & Hm & Hw)].
    + left. by apply (peer_run_app _ [m] _ gone _ Hpeer).
    + right. split; [done|]. exists m'. split; [done|]. by apply (peer_run_app _ [m] _ (gone ++ [m']) _ Hpeer).
Qed.
End Client.

(** ** Witnesses *)

Module Demo.
(** A peer whose answers are scripted; it refuses when the script ends. *)
Definition scripted_post (m : SyncMessage) : op (list bool) SyncError () := λ answers,
  match answers with
  | true :: answers' => (Ok (), answers')
  | false :: answers' => (Err (HttpStatus 503), answers')
  | [] => (Err (HttpStatus 503), [])
  end.
#[global] Instance scripted_peer : SyncPeer (list bool) :=
  {| is_cancelled := λ _, false; post_sync_events := scripted_post; wait_timeout := λ _ w, (false, w) |}.
Definition batch (id : string) : SyncMessage :=
  {| batch_id := id; source_node_id := "node-1"; sequence_start := 1; sequence_end := 1; event_count := 1;
     events_hash := EmptyString; created_at_ms := 0; previous_batch_hash := None; events := [[x61]] |}.
Definition io : FlushIo (O := InMemorySyncOutbox) := {| front_io := λ _, (); acknowledge_io := λ _, () |}.
(** Two batches wait; the first is taken at the second attempt, the second at the first. *)
Definition start : FollowerSyncClient InMemorySyncOutbox (list bool) :=
  Build_FollowerSyncClient [batch "b1"; batch "b2"] metrics_default [false; true; true].
Lemma client_start_consistent : consistent start.
Proof. exact I. Qed.
End Demo.

Lemma flush_terminates_witness :
  (flush_loop retry_policy_default 3 Demo.io 0 Demo.start).1 ≠ Ok None ∧
  flush_loop retry_policy_default (3 + 7) Demo.io 0 Demo.start
    = flush_loop retry_policy_default 3 Demo.io 0 Demo.start.
Proof.
  destruct (flush_terminates retry_policy_default 3 Demo.io 0 Demo.start) as [H Hmore].
  - exact Demo.client_start_consistent.
  - cbn. lia.
  - split; [exact H|exact (Hmore 7%nat)].
Defined.

Lemma flush_delivers_in_order_witness :
  pending (flush_loop retry_policy_default 3 Demo.io 0 Demo.start).2 = [].
Proof.
  pose proof (flush_delivers_in_order retry_policy_default 3 Demo.io 0 Demo.start Demo.client_start_consistent) as H.
  destruct (flush_loop retry_policy_default 3 Demo.io 0 Demo.start) as [r s'] eqn:E.
  destruct H as (_ & gone & _ & _ & Hdone). apply Hdone.
  vm_compute in E. injection E as <- _. reflexivity.
Defined.
