(* ===== verification/SyncReplication.v ===== *)
(** The two sides of replication together: the client of SyncClient.v pushing
    to a peer whose endpoint hands batches to the receiver of SyncReceiver.v,
    over a network that may lose the request or the answer. *)

From S2P Require Import Prelude.
From S2P Require Import Text.
From S2P Require Import Types.
From S2P Require Import Disk.
From S2P Require Import Encoding.
From S2P Require Import SyncTypes.
From S2P Require Import SyncLog.
From S2P Require Import SyncCheckpoint.
From S2P Require Import SyncReceiver.
From S2P Require Import SyncClient.

Local Open Scope N_scope.

(** A peer whose endpoint runs a receiver. A post that fails before the
    receiver saw it leaves the receiver alone; a post that reaches it applies
    the batch, and is answered 2xx only if the receiver accepted it. *)
Class ReceiverPeer (sha256 : list byte → list byte) (T C W : Type)
    `{ReplicationLog T, !SyncCheckpointStore C, !SyncPeer W, !ReplicationLogLaws T _} := {
  remote : W → SyncReceiverState T C;
  law_post m w r w' : post_sync_events m w = (r, w') →
    remote w' = remote w ∧ is_ok r = false ∨
    ∃ io a, io_ok io ∧ apply_sync_message sha256 io m (remote w) = (a, remote w') ∧
      (is_ok r = true → is_ok a = true);
  law_wait n w : remote (wait_timeout n w).2 = remote w;
}.

Section Replication.
Context (sha256 : list byte → list byte) {O T C W : Type}.
Context `{HO : !SyncOutbox O} `{HL : !SyncOutboxLaws O (H := HO)}.
Context `{HT : !ReplicationLog T} `{HC : !SyncCheckpointStore C} `{HTL : !ReplicationLogLaws T HT}.
Context `{HCL : !SyncCheckpointLaws C}.
Context `{HW : !SyncPeer W} `{HP : !ReceiverPeer sha256 T C W}.
Context (policy : SyncRetryPolicy).

Abbreviation state := (FollowerSyncClient O W).
Abbreviation remembers m w := (batch_id m ∈ processed_set (processed_batches (remote w))).

Inductive ClientCall :=
| FlushPending (fuel : nat) (io : FlushIo)
| PushEvents (fuel : nat) (enqueue_io : outbox_env) (io : FlushIo) (m : SyncMessage).
Definition run_call (c : ClientCall) : op state SyncError (option ()) :=
  match c with
  | FlushPending fuel io => flush_pending policy fuel io
  | PushEvents fuel eio io m => push_events policy fuel eio io m
  end.

(** ** A batch the receiver has already processed is never taken again *)

Lemma post_remembered m w :
  remembers m w →
  (∃ e, (post_sync_events m w).1 = Err e) ∧ remote (post_sync_events m w).2 = remote w.
Proof.
  intros Hin. destruct (post_sync_events m w) as [r w'] eqn:E. cbn [fst snd].
  destruct (law_post _ _ _ _ E) as [[Hr He]|(io & a & _ & Ha & Hok)].
  - split; [|done]. destruct r; [done|eauto].
  - destruct (processed_batch_refused sha256 io m _ Hin) as (e & Happ & _).
    rewrite Happ in Ha. injection Ha as <- Hr. split; [|done].
    destruct r as [[]|e']; [by specialize (Hok eq_refl)|eauto].
Qed.

Lemma attempts_remembered left m (s : state) :
  remembers m (client_peer s) →
  let '(r, s') := attempts policy left m s in
  is_ok r = false ∧ remote (client_peer s') = remote (client_peer s).
Proof.
  revert s. induction left as [|left IH]; intros s Hin; cbn [attempts]; [by split|]. autorewrite with op.
  destruct (is_cancelled _); [by split|]. unfold count. rewrite op_modify_bind, on_peer_bind.
  cbn [client_peer client_outbox client_metrics].
  destruct (post_remembered m (client_peer s) Hin) as [[e ->] Hw]. cbn [is_ok].
  set (waiting := _ && _). destruct waiting;
    rewrite ?on_peer_bind, ?op_ret_bind; cbn [client_peer client_outbox client_metrics].
  - pose proof (law_wait (backoff_ms policy) (post_sync_events m (client_peer s)).2) as Hn.
    destruct (wait_timeout _ _) as [b w']. cbn [fst snd] in *. destruct b; [split; cbn; congruence|].
    match goal with |- context [attempts policy left m ?s1] =>
      specialize (IH s1); destruct (attempts policy left m s1) end.
    cbn [client_peer] in IH. rewrite Hn, Hw in IH. by apply IH.
  - match goal with |- context [attempts policy left m ?s1] =>
      specialize (IH s1); destruct (attempts policy left m s1) end.
    cbn [client_peer] in IH. rewrite Hw in IH. by apply IH.
Qed.

(** What holds from the moment the acknowledgement is lost. *)
Definition blocked (m : SyncMessage) (w : SyncReceiverState T C) (s : state) : Prop :=
  consistent s ∧ head (pending s) = Some m ∧ remote (client_peer s) = w ∧ remembers m (client_peer s).

Lemma blocked_flush fuel io i m w (s : state) :
  blocked m w s →
  let '(r, s') := flush_loop policy fuel io i s in
  r ≠ Ok (Some ()) ∧ blocked m w s' ∧ pending s' = pending s.
Proof.
  intros (Hs & Hm & Hw & Hin). destruct fuel as [|fuel]; [done|]. cbn [flush_loop].
  pose proof (law_front (front_io io i) (client_outbox s) Hs) as Hf.
  destruct (front (front_io io i) (client_outbox s)) as [[next|e] q] eqn:E; destruct Hf as (Hq & Hsame & Hnext).
  2: { erewrite op_err_bind by (rewrite on_outbox_run, E; reflexivity).
       unfold blocked, consistent, pending. cbn. by rewrite Hsame. }
  erewrite op_ok_bind by (rewrite on_outbox_run, E; reflexivity). cbn [client_metrics client_peer fst snd].
  assert (next = Some m) as -> by by rewrite Hnext.
  set (s1 := Build_FollowerSyncClient q (client_metrics s) (client_peer s)).
  pose proof (attempts_remembered (N.to_nat (N.max (max_attempts policy) 1)) m s1 Hin) as Ha.
  pose proof (attempts_spec policy (N.to_nat (N.max (max_attempts policy) 1)) m s1) as Ho.
  fold (try_send_with_retry (O:=O) (W:=W) policy m) in Ha, Ho.
  destruct (try_send_with_retry policy m s1) as [r s2] eqn:Es. destruct Ha as [Hr Hw2], Ho as [Hout _].
  erewrite op_ok_bind by (rewrite attempt_run, Es; reflexivity). cbn [fst snd]. rewrite Hr.
  unfold count. rewrite op_modify_bind, op_fail_run. split; [done|].
  unfold blocked, consistent, pending. cbn [client_outbox client_peer]. rewrite Hout, Hw2.
  cbn [s1 client_outbox client_peer]. rewrite Hsame. auto.
Qed.

Lemma blocked_enqueue eio io fuel m m' w (s : state) :
  blocked m w s →
  let '(r, s') := push_events policy fuel eio io m' s in r ≠ Ok (Some ()) ∧ blocked m w s'.
Proof.
  intros (Hs & Hm & Hw & Hin). unfold push_events.
  pose proof (law_enqueue eio m' (max_queue_len policy) (client_outbox s) Hs) as Hq.
  destruct (try_enqueue eio m' _ (client_outbox s)) as [[b|e] q] eqn:E; destruct Hq as [Hq Hcase].
  - erewrite op_ok_bind by (rewrite on_outbox_run, E; reflexivity). cbn [fst snd].
    assert (blocked m w (Build_FollowerSyncClient q (client_metrics s) (client_peer s))) as Hb.
    { split; [done|]. split; [|done]. unfold pending. cbn [client_outbox].
      destruct b; destruct Hcase as [_ ->]; [|done]. unfold pending in Hm.
      by destruct (queue (client_outbox s)). }
    destruct b.
    + pose proof (blocked_flush fuel io 0 m w _ Hb) as Hf. unfold flush_queue.
      destruct (flush_loop _ _ _ _ _). destruct Hf as (? & ? & _). by split.
    + unfold count. by rewrite op_modify_bind, op_fail_run.
  - erewrite op_err_bind by (rewrite on_outbox_run, E; reflexivity). split; [done|]. split; [done|].
    split; [|done]. unfold pending. cbn [client_outbox snd]. unfold pending in Hm.
    destruct Hcase as [->| ->]; [done|]. by destruct (queue (client_outbox s)).
Qed.

(** A lost acknowledgement stops replication. When the receiver has applied
    the batch in front of the outbox and the answer did not reach the client,
    then, as long as the receiver keeps its memory of the batch, no flush and no
    push of the client ever succeeds again: the batch stays in front - whatever
    is queued behind it - and the replica does not move. *)
Theorem lost_ack_blocks_outbox calls io m before ack (s : state) :
  io_ok io → SyncReceiver.consistent before →
  sizeN (processed_set (processed_batches before)) < MAX_PROCESSED →
  apply_sync_message sha256 io m before = (Ok ack, remote (client_peer s)) → 0 < received ack →
  consistent s → head (pending s) = Some m →
  let '(rs, s') := run_ops (map run_call calls) s in
  Ok (Some ()) ∉ rs ∧ head (pending s') = Some m ∧ remote (client_peer s') = remote (client_peer s).
Proof.
  intros Hio Hb Hsize Happ Hrec Hs Hm.
  destruct (applied_batch_is_processed sha256 io m before ack _ Hio Hb Hsize Happ Hrec) as (_ & Hin & _).
  assert (blocked m (remote (client_peer s)) s) as Hblocked by done.
  clear -Hblocked HP HL. remember (remote (client_peer s)) as w eqn:Hw. clear Hw. revert s Hblocked.
  induction calls as [|c calls IH]; intros s Hs; cbn [map run_ops].
  { destruct Hs as (? & ? & ? & ?). split; [apply not_elem_of_nil|done]. }
  assert (let '(r, s') := run_call c s in r ≠ Ok (Some ()) ∧ blocked m w s') as Hc.
  { destruct c as [fuel io|fuel eio io m']; cbn [run_call].
    - pose proof (blocked_flush fuel io 0 m w s Hs) as Hf. unfold flush_pending, flush_queue.
      destruct (flush_loop _ _ _ _ _). destruct Hf as (? & ? & _). by split.
    - by apply blocked_enqueue. }
  destruct (run_call c s) as [r s1]. destruct Hc as [Hr Hs1]. specialize (IH s1 Hs1).
  destruct (run_ops (map run_call calls) s1) as [rs s']. destruct IH as (Hrs & Hm & Hw).
  split; [|done]. rewrite not_elem_of_cons. by split.
Qed.
End Replication.

(** ** Witness *)

Module ReplicationDemo.
(** A network that delivers every request and loses the answers of its script. *)
Definition network : Type := SyncReceiver.Demo.state * list bool.
Definition lossy_post (m : SyncMessage) : op network SyncError () := λ w,
  let '(a, r) := apply_sync_message SyncReceiver.Demo.sha SyncReceiver.Demo.io m w.1 in
  match w.2 with
  | true :: script => (Err (TransportTimeout "read"), (r, script))
  | script => (match a with Ok _ => Ok () | Err _ => Err (HttpStatus 400) end, (r, tail script))
  end.
#[global] Instance lossy_peer : SyncPeer network :=
  {| is_cancelled := λ _, false; post_sync_events := lossy_post; wait_timeout := λ _ w, (false, w) |}.
#[global] Instance lossy_receiver :
  ReceiverPeer SyncReceiver.Demo.sha InMemoryReplicationLog CheckpointMap network.
Proof.
  refine {| remote := fst : network → SyncReceiverState InMemoryReplicationLog CheckpointMap |}; [|done].
  intros m w r w' Hpost. right. exists SyncReceiver.Demo.io. unfold post_sync_events, lossy_peer, lossy_post in Hpost.
  destruct (apply_sync_message _ _ m w.1) as [a r'] eqn:E. exists a.
  split; [exact SyncReceiver.Demo.io_fine|].
  destruct w.2 as [|[] script]; injection Hpost as <- <-; split; try exact E; by destruct a.
Defined.
Definition io := SyncReceiver.Demo.io.
Definition batch := SyncReceiver.Demo.batch.
(** The client after its first post: the receiver has applied the batch, the answer is lost. *)
Definition start : FollowerSyncClient InMemorySyncOutbox network :=
  Build_FollowerSyncClient [batch] metrics_default (lossy_post batch (SyncReceiver.Demo.start, [true])).2.
Definition flush : ClientCall (O := InMemorySyncOutbox) :=
  FlushPending 5 ({| front_io := λ _, (); acknowledge_io := λ _, () |}).
End ReplicationDemo.

Lemma lost_ack_blocks_outbox_witness :
  head (pending (run_ops (map (run_call retry_policy_default) [ReplicationDemo.flush; ReplicationDemo.flush])
                   ReplicationDemo.start).2) = Some ReplicationDemo.batch.
Proof.
  destruct (apply_sync_message SyncReceiver.Demo.sha ReplicationDemo.io ReplicationDemo.batch
              SyncReceiver.Demo.start) as [r s] eqn:E.
  destruct r as [ack|e]; [|vm_compute in E; discriminate].
  pose proof (lost_ack_blocks_outbox SyncReceiver.Demo.sha retry_policy_default
    [ReplicationDemo.flush; ReplicationDemo.flush] ReplicationDemo.io ReplicationDemo.batch
    SyncReceiver.Demo.start ack ReplicationDemo.start) as H.
  destruct (run_ops _ ReplicationDemo.start) as [rs s'].
  apply H.
  - exact SyncReceiver.Demo.io_fine.
  - exact SyncReceiver.Demo.start_consistent.
  - vm_compute. reflexivity.
  - rewrite E. f_equal. apply (f_equal snd) in E. cbn [snd] in E. rewrite <- E. vm_compute. reflexivity.
  - vm_compute in E. injection E as <- _. vm_compute. reflexivity.
  - exact I.
  - reflexivity.
Defined.
