(* ===== verification/Timing.v ===== *)
(** Time and the xorshift generator, shared by the components that schedule:
    [Duration] and [SystemTime] in nanoseconds, their millisecond views, and
    the 64-bit xorshift step that the scheduler and the supervisor both use
    for jitter. *)

From S2P Require Import Prelude.

Local Open Scope N_scope.

Abbreviation time := N.
Abbreviation duration := N.
Definition as_millis (d : duration) : N := d / 1000000.
Definition from_millis (ms : N) : duration := ms * 1000000.

(** [x << n] on [u64]. *)
Definition u64_shl (x n : N) : N := N.land (N.shiftl x n) u64_max.

Definition xorshift64 (state : N) : N :=
  let a := N.lxor state (u64_shl state 13) in
  let b := N.lxor a (N.shiftr a 7) in
  N.lxor b (u64_shl b 17).

Lemma u64_shl_bits x n k :
  N.testbit (u64_shl x n) k = (n <=? k) && (k <? 64) && N.testbit x (k - n).
Proof.
  unfold u64_shl. rewrite N.land_spec. change u64_max with (N.ones 64).
  destruct (N.ltb_spec k 64).
  - rewrite N.ones_spec_low by done. rewrite andb_true_r.
    destruct (N.leb_spec n k); [by rewrite N.shiftl_spec_high'|by rewrite N.shiftl_spec_low].
  - by rewrite N.ones_spec_high, andb_false_r, andb_false_r by done.
Qed.

(** A word equal to itself shifted left, or right, is zero. *)
Lemma xor_shl_zero x n : 0 < n → x ≤ u64_max → N.lxor x (u64_shl x n) = 0 → x = 0.
Proof.
  intros Hn Hx Hxor. apply N.lxor_eq in Hxor. apply N.bits_inj_0. intros k.
  induction k as [k IH] using (well_founded_induction N.lt_wf_0).
  rewrite Hxor, u64_shl_bits. destruct (N.leb_spec n k); [|done].
  destruct (k <? 64); [|done]. simpl. apply IH. lia.
Qed.
Lemma xor_shr_zero x n : 0 < n → x ≤ u64_max → N.lxor x (N.shiftr x n) = 0 → x = 0.
Proof.
  intros Hn Hx Hxor. apply N.lxor_eq in Hxor.
  assert (Hhigh : ∀ d k, 64 - d ≤ k → N.testbit x k = false).
  { intros d. induction d as [|d IH] using N.peano_ind; intros k Hk.
    - apply N.bits_above_log2. destruct (decide (x = 0)) as [->|]; [simpl; lia|].
      apply N.log2_lt_pow2; [lia|]. unfold u64_max in Hx.
      apply (N.lt_le_trans _ (2 ^ 64)); [lia|]. apply N.pow_le_mono_r; lia.
    - destruct (decide (64 - d ≤ k)); [by apply IH|].
      rewrite Hxor, N.shiftr_spec'. apply IH. lia. }
  apply N.bits_inj_0. intros k. apply (Hhigh 64). lia.
Qed.

Lemma lxor_fits x y : x ≤ u64_max → y ≤ u64_max → N.lxor x y ≤ u64_max.
Proof.
  intros Hx Hy. change u64_max with (N.ones 64) in *.
  assert (N.lxor x y = N.land (N.lxor x y) (N.ones 64)) as ->.
  { rewrite !N.land_ones. rewrite <- N.land_ones.
    apply N.bits_inj. intros k. rewrite N.land_spec, N.lxor_spec.
    destruct (N.ltb_spec k 64); [by rewrite N.ones_spec_low, andb_true_r|].
    rewrite N.ones_spec_high, andb_false_r by done.
    assert (Hz : ∀ z, z ≤ N.ones 64 → N.testbit z k = false); [|by rewrite !Hz].
    intros z Hz. rewrite <- (N.mod_small z (2 ^ 64)), <- N.land_ones, N.land_spec;
      [by rewrite N.ones_spec_high, andb_false_r|]. rewrite N.ones_equiv in Hz. lia. }
  rewrite N.land_ones, N.ones_equiv. pose proof (N.mod_upper_bound (N.lxor x y) (2 ^ 64)). lia.
Qed.
Lemma u64_shl_fits x n : u64_shl x n ≤ u64_max.
Proof.
  unfold u64_shl. change u64_max with (N.ones 64). rewrite N.land_ones, N.ones_equiv.
  pose proof (N.mod_upper_bound (N.shiftl x n) (2 ^ 64)). lia.
Qed.
Lemma shiftr_fits x n : x ≤ u64_max → N.shiftr x n ≤ u64_max.
Proof.
  intros Hx. rewrite N.shiftr_div_pow2. etrans; [|exact Hx].
  apply N.Div0.div_le_upper_bound. assert (2 ^ n ≠ 0) by (apply N.pow_nonzero; lia). nia.
Qed.

(** The jitter generator never reaches its fixed point zero. *)
Lemma xorshift64_nonzero x :
  0 < x ≤ u64_max → 0 < xorshift64 x ≤ u64_max.
Proof.
  intros [H0 Hx]. unfold xorshift64.
  set (a := N.lxor x (u64_shl x 13)). set (b := N.lxor a (N.shiftr a 7)).
  assert (Ha : a ≤ u64_max) by (apply lxor_fits; [done|apply u64_shl_fits]).
  assert (Hb : b ≤ u64_max) by (apply lxor_fits; [done|by apply shiftr_fits]).
  assert (a ≠ 0) by (intros Hz; apply (xor_shl_zero x 13) in Hz; lia).
  assert (b ≠ 0) by (intros Hz; apply (xor_shr_zero a 7) in Hz; lia).
  split; [|apply lxor_fits; [done|apply u64_shl_fits]].
  apply N.neq_0_lt_0. intros Hz. apply (xor_shl_zero b 17) in Hz; lia.
Qed.

