(* ===== verification/Scheduler.v ===== *)
(** The bounded local scheduler:
    [crates/appcore-scheduler/src/task.rs] and [runtime.rs].

    The coordinator thread, the worker threads and the callers interleave:
    the state is what they share, with the coordinator's program point and the
    workers that are alive, and a [event] is one section that the code runs
    atomically (a lock section, or one access to an atomic variable). What the
    callbacks return, the clock and the operating system's answer to
    [thread::spawn] come with the events. The [cron] crate is a parameter. *)

From S2P Require Import Prelude.
From S2P Require Import Text.
From S2P Require Import Types.
From S2P Require Import Redaction.
From S2P Require Import Timing.

Local Open Scope N_scope.

(** ** Data ([task.rs]) *)

Inductive SchedulerError :=
| InvalidConfig (message : string)
| InvalidTaskId
| InvalidSchedule (message : string)
| InvalidCron (message : string)
| DuplicateTask (id : string)
| CapacityExceeded (max_tasks : N)
| Shutdown
| WorkerPanicked.
#[export] Instance SchedulerError_eq_dec : EqDecision SchedulerError.
Proof. solve_decision. Defined.

Record SchedulerConfig := {
  max_tasks : N;
  max_concurrent_tasks : N;
  poll_interval : duration;
}.

Inductive TaskSchedule :=
| OnceAt (run_at : time)
| IntervalOf (every : duration) (start_at : option time)
| CronOf (expression : string).

Record RetryPolicy := {
  max_attempts : N;
  initial_backoff : duration;
  max_backoff : duration;
  multiplier : N;
  jitter : duration;
}.

Record ScheduledTask := {
  task_id : string;
  task_schedule : TaskSchedule;
  task_retry : RetryPolicy;
  task_priority : N;
  task_trace : option TraceContext;
}.

Definition MAX_TASK_ID_BYTES : N := 128.

Definition validate_config (c : SchedulerConfig) : result SchedulerError () :=
  if max_tasks c =? 0 then Err (InvalidConfig "max_tasks must be positive")
  else if max_concurrent_tasks c =? 0 then
    Err (InvalidConfig "max_concurrent_tasks must be positive")
  else if poll_interval c =? 0 then Err (InvalidConfig "poll_interval must be positive")
  else Ok ().

Definition validate_retry (policy : RetryPolicy) : result SchedulerError () :=
  if max_attempts policy =? 0 then Err (InvalidSchedule "max_attempts must be positive")
  else if multiplier policy =? 0 then Err (InvalidSchedule "retry multiplier must be positive")
  else if max_backoff policy <? initial_backoff policy then
    Err (InvalidSchedule "initial_backoff exceeds max_backoff")
  else Ok ().

Definition task_id_byte (c : ascii) : bool :=
  is_ascii_alphanumeric c || bool_decide (c ∈ ["."%char; "_"%char; "-"%char]).

Definition validate_task_id (id : string) : result SchedulerError () :=
  if bool_decide (id = "") || (MAX_TASK_ID_BYTES <? str_len id) || negb (str_all task_id_byte id)
  then Err InvalidTaskId
  else Ok ().

(** ** Retry delay *)

(** [next_random]; the compare-and-swap loop stores the value it returns. *)
Definition next_random (state : N) : N := xorshift64 state.

Definition sat_pow128 (base exponent : N) : N := N.min (base ^ exponent) u128_max.

(** The delay and the new jitter state. *)
Definition retry_delay (policy : RetryPolicy) (attempt jitter_state : N) : duration * N :=
  let exponent := N.min (attempt - 1) 31 in
  let factor := sat_pow128 (multiplier policy) exponent in
  let base_ms := sat_mul u128_max (as_millis (initial_backoff policy)) factor in
  let capped_ms := N.min base_ms (as_millis (max_backoff policy)) in
  let jitter_max := N.min (as_millis (jitter policy)) u64_max in
  let '(j, jitter_state') :=
    if jitter_max =? 0 then (0, jitter_state)
    else let r := next_random jitter_state in (r mod sat_add64 jitter_max 1, r) in
  (from_millis (N.min (sat_add u128_max (N.min capped_ms u64_max) j) u64_max), jitter_state').

Section Scheduler.
Context {Cron : Type}.
(** [Schedule::from_str] and [after(..).next()] of the [cron] crate. *)
Variable cron_from_str : string → result string Cron.
Variable cron_after : Cron → time → option time.
(** The largest instant [SystemTime::checked_add] can return. *)
Variable clock_max : time.

Definition time_add (t : time) (d : duration) : option time := checked_add clock_max t d.

Inductive ParsedSchedule :=
| Once
| Interval (every : duration)
| CronSchedule (c : Cron).

Definition validate_schedule (s : TaskSchedule) : result SchedulerError () :=
  match s with
  | OnceAt _ => Ok ()
  | IntervalOf every _ =>
    if every =? 0 then Err (InvalidSchedule "zero interval") else Ok ()
  | CronOf expression => _ ← map_err InvalidCron (cron_from_str expression); Ok ()
  end.

Definition validate_task (t : ScheduledTask) : result SchedulerError () :=
  _ ← validate_task_id (task_id t);
  _ ← validate_retry (task_retry t);
  validate_schedule (task_schedule t).

Definition parse_schedule (now : time) (s : TaskSchedule) :
    result SchedulerError (ParsedSchedule * time) :=
  match s with
  | OnceAt run_at => Ok (Once, run_at)
  | IntervalOf every start_at =>
    if every =? 0 then Err (InvalidSchedule "zero interval")
    else
      next_run ← match start_at with
                 | Some t => Ok t
                 | None => ok_or (InvalidSchedule "interval exceeds clock range") (time_add now every)
                 end;
      Ok (Interval every, next_run)
  | CronOf expression =>
    c ← map_err InvalidCron (cron_from_str expression);
    next ← ok_or (InvalidSchedule "cron has no next occurrence") (cron_after c now);
    Ok (CronSchedule c, next)
  end.

(** The next run, or [None] where the code returns [false]. *)
Definition schedule_next (s : ParsedSchedule) (now : time) : option time :=
  match s with
  | Once => None
  | Interval every => time_add now every
  | CronSchedule c => cron_after c now
  end.

(** ** The shared state ([runtime.rs]) *)

(** [cancelled] is the cell of the task's [Arc<AtomicBool>], shared with its
    handles and its callback's context. *)
Record TaskEntry := {
  schedule : ParsedSchedule;
  retry : RetryPolicy;
  priority : N;
  cancelled : nat;
  next_run : time;
  running : bool;
  attempts : N;
  order : N;
  last_error : option string;
  trace : option TraceContext;
}.

(** The entry after its mutable fields were written. *)
Definition entry_with (t : TaskEntry) (is_running : bool) (next : time) (n : N) (error : option string) :
    TaskEntry :=
  {| schedule := schedule t; retry := retry t; priority := priority t; cancelled := cancelled t;
     next_run := next; running := is_running; attempts := n; order := order t;
     last_error := error; trace := trace t |}.

(** A worker thread: in its callback, or past the lock section of
    [complete_task] and before [active.fetch_sub]. *)
Inductive Worker :=
| Calling (id : string) (attempt : N) (cell : nat)
| Finishing.

(** The coordinator's program point. *)
Inductive Phase :=
| LoopTop
| Loading
| Scanning (available : N)
| Spawning (due : list string)
| Counting (id : string) (attempt : N) (cell : nat) (due : list string)
| Starting (id : string) (attempt : N) (cell : nat) (due : list string)
| StartFailed (id : string) (due : list string)
| StartFailedSub (due : list string)
| Joining
| Stopped.

Record SchedulerInner := {
  config : SchedulerConfig;
  tasks : gmap string TaskEntry;
  is_shutdown : bool;
  active : N;
  sequence : N;
  jitter_state : N;
  flags : list bool;
  workers : list Worker;
  coordinator : Phase;
}.

Definition with_tasks (s : SchedulerInner) (m : gmap string TaskEntry) : SchedulerInner :=
  {| config := config s; tasks := m; is_shutdown := is_shutdown s; active := active s;
     sequence := sequence s; jitter_state := jitter_state s; flags := flags s;
     workers := workers s; coordinator := coordinator s |}.
Definition with_flags (s : SchedulerInner) (f : list bool) : SchedulerInner :=
  {| config := config s; tasks := tasks s; is_shutdown := is_shutdown s; active := active s;
     sequence := sequence s; jitter_state := jitter_state s; flags := f;
     workers := workers s; coordinator := coordinator s |}.
Definition with_phase (s : SchedulerInner) (p : Phase) : SchedulerInner :=
  {| config := config s; tasks := tasks s; is_shutdown := is_shutdown s; active := active s;
     sequence := sequence s; jitter_state := jitter_state s; flags := flags s;
     workers := workers s; coordinator := p |}.
Definition with_workers (s : SchedulerInner) (n : N) (w : list Worker) : SchedulerInner :=
  {| config := config s; tasks := tasks s; is_shutdown := is_shutdown s; active := n;
     sequence := sequence s; jitter_state := jitter_state s; flags := flags s;
     workers := w; coordinator := coordinator s |}.

Definition is_cancelled (s : SchedulerInner) (t : TaskEntry) : bool :=
  default false (flags s !! cancelled t).

(** [Scheduler::new]; [seed] is [now_seed()]. *)
Definition new (c : SchedulerConfig) (seed : N) : result SchedulerError SchedulerInner :=
  _ ← validate_config c;
  Ok {| config := c; tasks := ∅; is_shutdown := false; active := 0; sequence := 1;
        jitter_state := N.max seed 1; flags := []; workers := []; coordinator := LoopTop |}.

(** ** Calls *)

(** [Scheduler::schedule]. [early] is what the first look at [shutdown] saw;
    the rest happens under the lock. The result is the handle's cell. *)
Definition schedule_task (early : bool) (now : time) (task : ScheduledTask) :
    op SchedulerInner SchedulerError nat := λ s,
  if early then (Err Shutdown, s)
  else
    match (_ ← validate_task task; parse_schedule now (task_schedule task)) with
    | Err e => (Err e, s)
    | Ok (parsed, next) =>
      if is_shutdown s then (Err Shutdown, s)
      else if bool_decide (is_Some (tasks s !! task_id task)) then
        (Err (DuplicateTask (task_id task)), s)
      else if max_tasks (config s) <=? sizeN (tasks s) then
        (Err (CapacityExceeded (max_tasks (config s))), s)
      else
        let cell := length (flags s) in
        let entry :=
          {| schedule := parsed; retry := task_retry task; priority := task_priority task;
             cancelled := cell; next_run := next; running := false; attempts := 0;
             order := sequence s; last_error := None; trace := task_trace task |} in
        (Ok cell,
         {| config := config s; tasks := <[task_id task := entry]> (tasks s);
            is_shutdown := is_shutdown s; active := active s;
            sequence := (sequence s + 1) mod (u64_max + 1); jitter_state := jitter_state s;
            flags := flags s ++ [false]; workers := workers s; coordinator := coordinator s |})
    end.

(** [Scheduler::cancel] and [TaskHandle::cancel]. *)
Definition cancel (s : SchedulerInner) (id : string) : bool * SchedulerInner :=
  match tasks s !! id with
  | None => (false, s)
  | Some t => (true, with_flags s (<[cancelled t := true]> (flags s)))
  end.
Definition handle_cancel (s : SchedulerInner) (cell : nat) : SchedulerInner :=
  with_flags s (<[cell := true]> (flags s)).

(** [Scheduler::snapshot]. *)
Record TaskSnapshot := {
  snap_id : string;
  snap_priority : N;
  snap_running : bool;
  snap_attempts : N;
  snap_next_run : time;
  snap_last_error : option string;
  snap_trace : option TraceContext;
}.
Record SchedulerSnapshot := {
  snap_shutdown : bool;
  active_tasks : N;
  snap_tasks : list TaskSnapshot;
}.
Definition snapshot (s : SchedulerInner) : SchedulerSnapshot :=
  {| snap_shutdown := is_shutdown s; active_tasks := active s;
     snap_tasks := (λ '(id, t),
       {| snap_id := id; snap_priority := priority t; snap_running := running t;
          snap_attempts := attempts t; snap_next_run := next_run t;
          snap_last_error := last_error t; snap_trace := trace t |}) <$> btree_iter (tasks s) |}.

(** The two sections of [Scheduler::shutdown]. *)
Definition shutdown_store (s : SchedulerInner) : SchedulerInner :=
  {| config := config s; tasks := tasks s; is_shutdown := true; active := active s;
     sequence := sequence s; jitter_state := jitter_state s; flags := flags s;
     workers := workers s; coordinator := coordinator s |}.
Definition shutdown_cancel_all (s : SchedulerInner) : SchedulerInner :=
  with_flags s (foldr (λ kt f, <[cancelled kt.2 := true]> f) (flags s) (map_to_list (tasks s))).

(** ** The coordinator's scan *)

(** The order of [due.sort_by]: priority first (higher before), then the
    planned instant, then the order of registration. *)
Definition before (a b : string * TaskEntry) : Prop :=
  priority b.2 < priority a.2 ∨
  priority a.2 = priority b.2 ∧
    (next_run a.2 < next_run b.2 ∨ next_run a.2 = next_run b.2 ∧ order a.2 ≤ order b.2).
#[local] Instance before_dec a b : Decision (before a b).
Proof. unfold before. apply _. Defined.

(** [tasks.retain(..)]. *)
Definition retain_live (s : SchedulerInner) : gmap string TaskEntry :=
  filter (λ kt, running kt.2 || negb (is_cancelled s kt.2)) (tasks s).

Definition is_due (now : time) (t : TaskEntry) : bool := negb (running t) && (next_run t <=? now).

(** The identities selected from the tasks [l], listed in any order. *)
Definition select_due (now : time) (available : N) (l : list (string * TaskEntry)) : list string :=
  (take (N.to_nat available) (merge_sort before (filter (λ kt, is_due now kt.2) l))).*1.

Definition mark_running (id : string) (m : gmap string TaskEntry) : gmap string TaskEntry :=
  match m !! id with
  | Some t => <[id := entry_with t true (next_run t) (sat_add32 (attempts t) 1) (last_error t)]> m
  | None => m
  end.

Definition scan (available : N) (now : time) (s : SchedulerInner) : SchedulerInner :=
  let kept := retain_live s in
  let due := select_due now available (map_to_list kept) in
  with_phase (with_tasks s (foldr mark_running kept due)) (Spawning due).

(** ** [complete_task], its lock section *)

Definition TaskResult : Type := result string ().

(** The entry that stays registered, if any, and the jitter state. *)
Definition complete_entry (stop : bool) (t : TaskEntry) (now : time) (res : TaskResult) (js : N) :
    option TaskEntry * N :=
  if stop then (None, js)
  else
    match res with
    | Err error =>
      if attempts t <? max_attempts (retry t) then
        let '(delay, js') := retry_delay (retry t) (attempts t) js in
        (next ← time_add now delay;
         Some (entry_with t false next (attempts t) (Some (redact_text error))), js')
      else
        (next ← schedule_next (schedule t) now;
         Some (entry_with t false next 0 (Some (redact_text error))), js)
    | Ok _ => (next ← schedule_next (schedule t) now; Some (entry_with t false next 0 None), js)
    end.

Definition complete_task (s : SchedulerInner) (id : string) (now : time) (res : TaskResult) :
    SchedulerInner :=
  match tasks s !! id with
  | None => s
  | Some t =>
    let '(o, js) := complete_entry (is_shutdown s || is_cancelled s t) t now res (jitter_state s) in
    {| config := config s; tasks := partial_alter (λ _, o) id (tasks s);
       is_shutdown := is_shutdown s; active := active s; sequence := sequence s;
       jitter_state := js; flags := flags s; workers := workers s; coordinator := coordinator s |}
  end.

(** ** Interleaving *)

Inductive event :=
| ECallSchedule (early : bool) (now : time) (task : ScheduledTask)
| ECallCancel (id : string)
| EHandleCancel (cell : nat)
| EShutdownStore
| EShutdownCancelAll
| ELoopCheck
| ELoadActive
| EScan (now : time)
| ESpawnNext
| EFetchAdd
| EThreadSpawn (started : bool)
| EFailComplete (now : time)
| EFailSub
| ECallbackReturned (worker : nat) (now : time) (res : TaskResult)
| EWorkerSub (worker : nat)
| EJoinAll.

(** [None]: the section cannot run now. *)
Definition step (e : event) (s : SchedulerInner) : option SchedulerInner :=
  match e with
  | ECallSchedule early now task =>
    if early && negb (is_shutdown s) then None else Some (schedule_task early now task s).2
  | ECallCancel id => Some (cancel s id).2
  | EHandleCancel cell => if (cell <? length (flags s))%nat then Some (handle_cancel s cell) else None
  | EShutdownStore => Some (shutdown_store s)
  | EShutdownCancelAll => if is_shutdown s then Some (shutdown_cancel_all s) else None
  | ELoopCheck =>
    match coordinator s with
    | LoopTop => Some (with_phase s (if is_shutdown s then Joining else Loading))
    | _ => None
    end
  | ELoadActive =>
    match coordinator s with
    | Loading => Some (with_phase s (Scanning (max_concurrent_tasks (config s) - active s)))
    | _ => None
    end
  | EScan now =>
    match coordinator s with
    | Scanning available => Some (scan available now s)
    | _ => None
    end
  | ESpawnNext =>
    match coordinator s with
    | Spawning [] => Some (with_phase s LoopTop)
    | Spawning (id :: due) =>
      match tasks s !! id with
      | None => Some (with_phase s (Spawning due))
      | Some t => Some (with_phase s (Counting id (attempts t) (cancelled t) due))
      end
    | _ => None
    end
  | EFetchAdd =>
    match coordinator s with
    | Counting id attempt cell due =>
      Some (with_phase (with_workers s (active s + 1) (workers s)) (Starting id attempt cell due))
    | _ => None
    end
  | EThreadSpawn started =>
    match coordinator s with
    | Starting id attempt cell due =>
      if started then
        Some (with_phase (with_workers s (active s) (workers s ++ [Calling id attempt cell]))
                (Spawning due))
      else Some (with_phase s (StartFailed id due))
    | _ => None
    end
  | EFailComplete now =>
    match coordinator s with
    | StartFailed id due =>
      Some (with_phase (complete_task s id now (Err "worker could not start")) (StartFailedSub due))
    | _ => None
    end
  | EFailSub =>
    match coordinator s with
    | StartFailedSub due =>
      Some (with_phase (with_workers s (active s - 1) (workers s)) (Spawning due))
    | _ => None
    end
  | ECallbackReturned i now res =>
    match workers s !! i with
    | Some (Calling id _ _) =>
      let s' := complete_task s id now res in
      Some (with_workers s' (active s') (<[i := Finishing]> (workers s')))
    | _ => None
    end
  | EWorkerSub i =>
    match workers s !! i with
    | Some Finishing => Some (with_workers s (active s - 1) (delete i (workers s)))
    | _ => None
    end
  | EJoinAll =>
    match coordinator s, workers s with
    | Joining, [] => Some (with_phase (with_tasks s ∅) Stopped)
    | _, _ => None
    end
  end.

(** States reached from [s0] by any interleaving. *)
Inductive reachable (s0 : SchedulerInner) : SchedulerInner → Prop :=
| reach_refl : reachable s0 s0
| reach_step s s' e : reachable s0 s → step e s = Some s' → reachable s0 s'.

(** ** Invariant *)

Definition calling_id (w : Worker) : list string :=
  match w with Calling id _ _ => [id] | Finishing => [] end.

Definition calling (s : SchedulerInner) : list string := workers s ≫= calling_id.

(** Identities the coordinator has marked running and not handed to a worker. *)
Definition pending (p : Phase) : list string :=
  match p with
  | Spawning due => due
  | Counting id _ _ due | Starting id _ _ due | StartFailed id due => id :: due
  | StartFailedSub due => due
  | _ => []
  end.
Definition owned (s : SchedulerInner) : list string := calling s ++ pending (coordinator s).

(** What the coordinator contributes to [active], and may still add to it. *)
Definition counted (p : Phase) : N :=
  match p with Starting _ _ _ _ | StartFailed _ _ | StartFailedSub _ => 1 | _ => 0 end.
Definition budget (p : Phase) : N :=
  match p with
  | Scanning available => available
  | Spawning due => lenN due
  | Counting _ _ _ due => lenN due + 1
  | Starting _ _ _ due | StartFailed _ due | StartFailedSub due => lenN due
  | _ => 0
  end.

(** The attempt number handed out for [id] is the one in its entry. *)
Definition hands (s : SchedulerInner) (id : string) (attempt : N) (cell : nat) : Prop :=
  ∃ t, tasks s !! id = Some t ∧ attempts t = attempt ∧ cancelled t = cell.
Definition handed (s : SchedulerInner) : Prop :=
  (∀ id a c, Calling id a c ∈ workers s → hands s id a c) ∧
  match coordinator s with
  | Counting id a c _ | Starting id a c _ => hands s id a c
  | _ => True
  end.

Definition entry_ok (t : TaskEntry) : Prop :=
  1 ≤ max_attempts (retry t) ∧
  if running t then 1 ≤ attempts t ≤ max_attempts (retry t) else attempts t < max_attempts (retry t).

Record inv (s : SchedulerInner) : Prop := {
  inv_active : active s = lenN (workers s) + counted (coordinator s);
  inv_budget : active s + budget (coordinator s) ≤ max_concurrent_tasks (config s);
  inv_nodup : NoDup (owned s);
  inv_running : ∀ id, id ∈ owned s ↔ ∃ t, tasks s !! id = Some t ∧ running t = true;
  inv_entries : ∀ id t, tasks s !! id = Some t → entry_ok t;
  inv_handed : handed s;
  inv_size : sizeN (tasks s) ≤ max_tasks (config s);
}.

(** ** The invariant is preserved *)

Lemma inv_ext s s' :
  config s' = config s → tasks s' = tasks s → active s' = active s → workers s' = workers s →
  coordinator s' = coordinator s → inv s → inv s'.
Proof.
  intros Hc Ht Ha Hw Hp [H1 H2 H3 H4 H5 H6 H7].
  unfold owned, handed, calling, hands in *.
  split; unfold owned, handed, calling, hands; rewrite ?Hc, ?Ht, ?Ha, ?Hw, ?Hp; done.
Qed.

Lemma new_scheduler_inv c seed s : new c seed = Ok s → inv s.
Proof.
  unfold new, validate_config. repeat case_match; intros [= <-].
  split; unfold owned, handed, calling; simpl; try done; try lia.
  - constructor.
  - intros id. split; [by intros ?%not_elem_of_nil|intros (t & Ht & _)]. by rewrite lookup_empty in Ht.
  - split; [|done]. by intros ? ? ? ?%not_elem_of_nil.
  - rewrite map_size_empty. lia.
Qed.

Lemma schedule_task_inv early now task s : inv s → inv (schedule_task early now task s).2.
Proof.
  intros Hs. unfold schedule_task. destruct early; [done|].
  destruct (validate_task task) as [[]|] eqn:Hval; simpl; [|done].
  destruct (parse_schedule now _) as [[parsed next]|]; simpl; [|done].
  destruct (is_shutdown s); [done|]. case_bool_decide as Hid; [done|].
  destruct (N.leb_spec (max_tasks (config s)) (sizeN (tasks s))) as [|Hcap]; [done|]. simpl.
  apply eq_None_not_Some in Hid.
  assert (Hretry : 1 ≤ max_attempts (task_retry task)).
  { unfold validate_task, validate_retry in Hval.
    destruct (validate_task_id _); simpl in Hval; [|done]. repeat case_match; try done. lia. }
  destruct Hs as [H1 H2 H3 H4 H5 [H6 H6'] H7].
  split; unfold owned, handed, calling, hands in *; simpl; try done.
  - intros id. rewrite H4. split; intros (t & Ht & Hr).
    + exists t. split; [|done]. rewrite lookup_insert_ne; [done|]. intros <-. by rewrite Hid in Ht.
    + destruct (decide (id = task_id task)) as [->|Hne].
      * rewrite lookup_insert_eq in Ht. by injection Ht as <-.
      * rewrite lookup_insert_ne in Ht by done. eauto.
  - intros id t. rewrite lookup_insert_Some. intros [[_ <-]|[_ Ht]]; [|by eapply H5].
    split; [done|]. simpl. lia.
  - assert (Hkeep : ∀ e id (a : N) (c : nat),
      (∃ t, tasks s !! id = Some t ∧ attempts t = a ∧ cancelled t = c) →
      ∃ t, <[task_id task := e]> (tasks s) !! id = Some t ∧ attempts t = a ∧ cancelled t = c).
    { intros e id a c (t & Ht & ?). exists t. split; [|done]. rewrite lookup_insert_ne; [exact Ht|].
      intros <-. by rewrite Hid in Ht. }
    split; [intros; by apply Hkeep, H6|]. destruct (coordinator s); try done; by apply Hkeep.
  - rewrite map_size_insert_None by done. lia.
Qed.

(** *** Completion *)

(** What the lock section of [complete_task] does to the registered tasks. *)
Lemma complete_entry_ok stop t now res js t' js' :
  complete_entry stop t now res js = (Some t', js') → entry_ok t → running t = true →
  running t' = false ∧ entry_ok t' ∧ cancelled t' = cancelled t.
Proof.
  unfold complete_entry, entry_ok. intros Hc [Hm Ha] Hr. rewrite Hr in Ha.
  destruct stop; [done|]. destruct res as [[]|error].
  - destruct (schedule_next _ _); simpl in Hc; [|done]. injection Hc as <- <-. simpl.
    split_and!; [done..|lia|done].
  - destruct (N.ltb_spec (attempts t) (max_attempts (retry t))) as [Hlt|].
    + destruct (retry_delay _ _ _) as [d j]. destruct (time_add now d); simpl in Hc; [|done].
      injection Hc as <- <-. simpl. by split_and!.
    + destruct (schedule_next _ _); simpl in Hc; [|done]. injection Hc as <- <-. simpl.
      split_and!; [done..|lia|done].
Qed.

Lemma complete_task_spec s id now res t :
  tasks s !! id = Some t → entry_ok t → running t = true →
  ∃ o, tasks (complete_task s id now res) = partial_alter (λ _, o) id (tasks s) ∧
    (∀ t', o = Some t' → running t' = false ∧ entry_ok t' ∧ cancelled t' = cancelled t).
Proof.
  intros Ht Hok Hr. unfold complete_task. rewrite Ht.
  destruct (complete_entry _ t now res _) as [o js] eqn:Hc. exists o. split; [done|].
  intros t' ->. by eapply complete_entry_ok.
Qed.

Lemma complete_task_frame s id now res :
  let s' := complete_task s id now res in
  config s' = config s ∧ active s' = active s ∧ workers s' = workers s ∧
  coordinator s' = coordinator s ∧ flags s' = flags s ∧ is_shutdown s' = is_shutdown s.
Proof.
  unfold complete_task. destruct (tasks s !! id); [|done].
  by destruct (complete_entry _ _ _ _ _).
Qed.

(** A state that lost [id] from the owned ones while its entry was completed. *)
Lemma complete_inv s s' id o :
  inv s → config s' = config s → active s' = active s →
  tasks s' = partial_alter (λ _, o) id (tasks s) →
  (∀ t', o = Some t' → running t' = false ∧ entry_ok t') →
  owned s ≡ₚ id :: owned s' →
  active s' = lenN (workers s') + counted (coordinator s') →
  active s' + budget (coordinator s') ≤ max_concurrent_tasks (config s') →
  (∀ i a c, Calling i a c ∈ workers s' → Calling i a c ∈ workers s ∧ i ∈ owned s') →
  (match coordinator s' with
   | Counting i _ _ _ | Starting i _ _ _ => coordinator s' = coordinator s ∧ i ∈ owned s'
   | _ => True
   end) →
  inv s'.
Proof.
  intros [H1 H2 H3 H4 H5 [H6 H6'] H7] Hc Ha Ht Ho Hperm Hact Hbud Hw Hp.
  assert (Hnd : NoDup (id :: owned s')) by (by rewrite <- Hperm).
  apply NoDup_cons in Hnd as [Hid Hnd].
  assert (Hlook : ∀ i, i ≠ id → tasks s' !! i = tasks s !! i).
  { intros i Hne. rewrite Ht. by apply lookup_partial_alter_ne. }
  assert (Hlid : tasks s' !! id = o) by (rewrite Ht; apply lookup_partial_alter_eq).
  split; [done|done|done| | | |].
  - intros i. destruct (decide (i = id)) as [->|Hne].
    + rewrite Hlid. split; [done|]. intros (t & -> & Hr). destruct (Ho t eq_refl) as [Hf _].
      by rewrite Hf in Hr.
    + rewrite Hlook, <- H4, Hperm, elem_of_cons by done. naive_solver.
  - intros i t. destruct (decide (i = id)) as [->|Hne].
    + rewrite Hlid. intros ->. by destruct (Ho t eq_refl).
    + rewrite Hlook by done. apply H5.
  - assert (Hkeep : ∀ i a c, hands s i a c → i ∈ owned s' → hands s' i a c).
    { intros i a c (t & Hti & ?) Hin. exists t. rewrite Hlook; [done|]. by intros ->. }
    split.
    + intros i a c Hin. destruct (Hw i a c Hin). by apply Hkeep; [apply H6|].
    + destruct (coordinator s') eqn:Hcs; try done; destruct Hp as [Hp ?]; rewrite <- Hp in H6';
        by apply Hkeep.
  - rewrite Hc. etrans; [|exact H7].
    destruct (tasks s !! id) as [t|] eqn:Ht0.
    + destruct o as [t'|].
      * assert (partial_alter (λ _, Some t') id (tasks s) = <[id := t']> (tasks s)) as E by done.
        rewrite Ht, E, map_size_insert_Some; [done|by eexists].
      * assert (partial_alter (λ _, None) id (tasks s) = delete id (tasks s)) as E by done.
        rewrite Ht, E. pose proof (map_size_delete_le id (tasks s)). lia.
    + exfalso. assert (id ∈ owned s) as Hin by (rewrite Hperm; by left).
      apply H4 in Hin as (t & Hin & _). by rewrite Ht0 in Hin.
Qed.

Lemma calling_insert (ws : list Worker) i id a c :
  ws !! i = Some (Calling id a c) →
  ws ≫= calling_id ≡ₚ id :: (<[i := Finishing]> ws ≫= calling_id).
Proof.
  revert i. induction ws as [|w ws IH]; intros [|i] Hi; simplify_eq/=; [done|].
  rewrite (IH i Hi). by rewrite Permutation_middle.
Qed.
Lemma calling_delete (ws : list Worker) i :
  ws !! i = Some Finishing → ws ≫= calling_id = delete i ws ≫= calling_id.
Proof.
  revert i. induction ws as [|w ws IH]; intros [|i] Hi; simplify_eq/=; [done|]. by rewrite (IH i Hi).
Qed.
Lemma calling_elem (ws : list Worker) id a c : Calling id a c ∈ ws → id ∈ ws ≫= calling_id.
Proof. intros Hin. apply list_elem_of_bind. exists (Calling id a c). split; [by left|done]. Qed.

(** A callback returned. *)
Lemma returned_inv s i now res id a c :
  inv s → workers s !! i = Some (Calling id a c) →
  let s' := complete_task s id now res in
  inv (with_workers s' (active s') (<[i := Finishing]> (workers s'))).
Proof.
  intros Hs Hi s'.
  destruct (complete_task_frame s id now res) as (Fc & Fa & Fw & Fp & _). fold s' in Fc, Fa, Fw, Fp.
  assert (Hown : owned s ≡ₚ
    id :: owned (with_workers s' (active s') (<[i := Finishing]> (workers s')))).
  { unfold owned, calling. simpl. by rewrite Fw, Fp, (calling_insert (workers s) i id a c). }
  assert (id ∈ owned s) as Hin by (rewrite Hown; by left).
  apply (inv_running s Hs) in Hin as (t & Ht & Hr).
  destruct (complete_task_spec s id now res t Ht (inv_entries s Hs id t Ht) Hr) as (o & Hto & Ho).
  eapply complete_inv; [exact Hs|exact Fc|exact Fa|exact Hto| |exact Hown|..]; simpl.
  - intros t' Ht'. by destruct (Ho t' Ht') as (? & ? & _).
  - rewrite Fa, Fw, Fp, length_insert. apply (inv_active s Hs).
  - rewrite Fa, Fc, Fp. apply (inv_budget s Hs).
  - rewrite Fw. intros i' a' c' Hin'.
    split; [|unfold owned, calling; simpl; apply elem_of_app; left; by eapply calling_elem].
    apply list_elem_of_lookup in Hin' as [j Hj]. apply list_elem_of_lookup. exists j.
    destruct (decide (j = i)) as [->|Hne]; [|by rewrite list_lookup_insert_ne in Hj].
    rewrite list_lookup_insert_eq in Hj; [done|by eapply lookup_lt_Some].
  - rewrite Fp. destruct (coordinator s) eqn:Hp; try done; (split; [done|]);
      unfold owned; simpl; rewrite ?Fp, ?Hp; apply elem_of_app; right; by left.
Qed.

(** The coordinator completes a task whose thread could not start. *)
Lemma failed_inv s now id due :
  inv s → coordinator s = StartFailed id due →
  inv (with_phase (complete_task s id now (Err "worker could not start"%string)) (StartFailedSub due)).
Proof.
  intros Hs Hp. set (s' := complete_task s id now _).
  destruct (complete_task_frame s id now (Err "worker could not start"%string)) as (Fc & Fa & Fw & _).
  fold s' in Fc, Fa, Fw.
  assert (Hown : owned s ≡ₚ id :: owned (with_phase s' (StartFailedSub due))).
  { unfold owned, calling. simpl. rewrite Fw, Hp. simpl. by rewrite Permutation_middle. }
  assert (id ∈ owned s) as Hin by (rewrite Hown; by left).
  apply (inv_running s Hs) in Hin as (t & Ht & Hr).
  destruct (complete_task_spec s id now (Err "worker could not start"%string) t Ht (inv_entries s Hs id t Ht) Hr)
    as (o & Hto & Ho).
  pose proof (inv_active s Hs) as Ha. pose proof (inv_budget s Hs) as Hb. rewrite Hp in Ha, Hb.
  eapply complete_inv; [exact Hs|exact Fc|exact Fa|exact Hto| |exact Hown|..]; simpl in *.
  - intros t' Ht'. by destruct (Ho t' Ht') as (? & ? & _).
  - by rewrite Fa, Fw.
  - by rewrite Fa, Fc.
  - rewrite Fw. intros i' a' c' Hin'. split; [done|].
    unfold owned, calling; simpl; rewrite Fw; apply elem_of_app; left; by eapply calling_elem.
  - done.
Qed.

(** *** The scan *)

Lemma select_due_elem now available l id :
  id ∈ select_due now available l → ∃ t, (id, t) ∈ l ∧ is_due now t = true.
Proof.
  unfold select_due. intros ([i t] & -> & Hin)%list_elem_of_fmap. exists t. simpl.
  assert ((i, t) ∈ merge_sort before (filter (λ kt, is_due now kt.2) l)) as Hin'
    by (eapply elem_of_submseteq; [exact Hin|apply sublist_submseteq, sublist_take]).
  rewrite merge_sort_Permutation, list_elem_of_filter in Hin'. simpl in Hin'. destruct Hin'; by split; [|apply Is_true_true].
Qed.

Lemma select_due_nodup now available l : NoDup l.*1 → NoDup (select_due now available l).
Proof.
  intros Hnd. unfold select_due. eapply sublist_NoDup; [|apply fmap_sublist, sublist_take].
  rewrite merge_sort_Permutation. eapply sublist_NoDup; [exact Hnd|].
  apply fmap_sublist, sublist_filter.
Qed.

Lemma select_due_length now available l : lenN (select_due now available l) ≤ available.
Proof. unfold select_due. rewrite length_fmap, length_take. lia. Qed.

Lemma mark_running_lookup m id i :
  mark_running id m !! i =
    if decide (i = id) then
      (λ t, entry_with t true (next_run t) (sat_add32 (attempts t) 1) (last_error t)) <$> m !! i
    else m !! i.
Proof.
  unfold mark_running. destruct (m !! id) as [t|] eqn:Hm; case_decide as Hi; subst.
  - by rewrite lookup_insert_eq, Hm.
  - by rewrite lookup_insert_ne.
  - by rewrite Hm.
  - done.
Qed.

Lemma mark_all_lookup m due i :
  NoDup due →
  foldr mark_running m due !! i =
    if decide (i ∈ due) then
      (λ t, entry_with t true (next_run t) (sat_add32 (attempts t) 1) (last_error t)) <$> m !! i
    else m !! i.
Proof.
  induction 1 as [|id due Hid Hnd IH]; cbn [foldr].
  { rewrite decide_False; [done|apply not_elem_of_nil]. }
  rewrite mark_running_lookup, IH. destruct (decide (i = id)) as [->|Hne].
  - rewrite (decide_False (P := id ∈ due)) by done. rewrite decide_True by (by left). done.
  - destruct (decide (i ∈ due)) as [Hin|Hin].
    + rewrite decide_True by (by right). done.
    + rewrite decide_False; [done|]. by rewrite elem_of_cons; intros [?|?].
Qed.

Lemma retain_live_lookup s id t :
  retain_live s !! id = Some t ↔
    tasks s !! id = Some t ∧ (running t = true ∨ is_cancelled s t = false).
Proof.
  unfold retain_live. rewrite map_lookup_filter_Some. simpl.
  rewrite Is_true_true, orb_true_iff, negb_true_iff. done.
Qed.

Lemma mark_running_size id m : size (mark_running id m) = size m.
Proof.
  unfold mark_running. destruct (m !! id) eqn:Hm; [|done]. by apply map_size_insert_Some; eexists.
Qed.
Lemma mark_all_size m due : size (foldr mark_running m due) = size m.
Proof. induction due as [|id due IH]; [done|]. cbn [foldr]. by rewrite mark_running_size. Qed.

(** What the scan selects: registered, live, idle and due, each once. *)
Lemma scan_due_spec s now available id :
  id ∈ select_due now available (map_to_list (retain_live s)) →
  ∃ t, tasks s !! id = Some t ∧ running t = false ∧ is_cancelled s t = false ∧ next_run t ≤ now.
Proof.
  intros (t & Hin & Hdue)%select_due_elem.
  apply elem_of_map_to_list, retain_live_lookup in Hin as [Ht Hl].
  unfold is_due in Hdue. apply andb_true_iff in Hdue as [Hr Hn].
  apply negb_true_iff in Hr. apply N.leb_le in Hn. rewrite Hr in Hl.
  exists t. split_and!; try done. by destruct Hl.
Qed.

Lemma scan_lookup s now available i :
  tasks (scan available now s) !! i =
    if decide (i ∈ select_due now available (map_to_list (retain_live s))) then
      (λ t, entry_with t true (next_run t) (sat_add32 (attempts t) 1) (last_error t)) <$>
        retain_live s !! i
    else retain_live s !! i.
Proof.
  unfold scan. simpl. apply mark_all_lookup, select_due_nodup, NoDup_fst_map_to_list.
Qed.

Lemma scan_inv s now available :
  inv s → coordinator s = Scanning available → inv (scan available now s).
Proof.
  intros [H1 H2 H3 H4 H5 [H6 _] H7] Hp.
  set (due := select_due now available (map_to_list (retain_live s))).
  assert (Hdue : ∀ id, id ∈ due → ∃ t, tasks s !! id = Some t ∧ running t = false ∧
            is_cancelled s t = false ∧ next_run t ≤ now) by apply scan_due_spec.
  assert (Hnd : NoDup due) by apply select_due_nodup, NoDup_fst_map_to_list.
  assert (Hown : ∀ id, id ∈ owned s → id ∉ due ∧ ∃ t, retain_live s !! id = Some t ∧ running t = true
            ∧ tasks s !! id = Some t).
  { intros id (t & Ht & Hr)%H4. split.
    - intros (t' & Ht' & Hr' & _)%Hdue. simplify_eq. by rewrite Hr in Hr'.
    - exists t. rewrite retain_live_lookup. auto. }
  unfold owned in H3, Hown. rewrite Hp in H1, H2, H3, Hown. simpl in H1, H2, H3, Hown.
  rewrite app_nil_r in H3, Hown.
  assert (Hlook : ∀ id, tasks (scan available now s) !! id =
      if decide (id ∈ due) then
        (λ t, entry_with t true (next_run t) (sat_add32 (attempts t) 1) (last_error t)) <$>
          retain_live s !! id
      else retain_live s !! id) by (intros id; apply scan_lookup).
  assert (Ec : calling (scan available now s) = calling s) by done.
  assert (Ep : coordinator (scan available now s) = Spawning due) by done.
  assert (Eo : owned (scan available now s) = calling s ++ due) by done.
  split; rewrite ?Eo, ?Ep.
  - exact H1.
  - pose proof (select_due_length now available (map_to_list (retain_live s))) as Hlen.
    fold due in Hlen. change (active s + lenN due ≤ max_concurrent_tasks (config s)). lia.
  - apply NoDup_app. split_and!; [done| |done]. intros id Hin. by apply Hown.
  - intros id. rewrite elem_of_app, Hlook. split.
    + intros [Hin|Hin].
      * destruct (Hown id Hin) as (Hn & t & Ht & Hr & _). exists t. by rewrite decide_False.
      * rewrite decide_True by done. destruct (Hdue id Hin) as (t & Ht & Hr & Hca & _).
        assert (retain_live s !! id = Some t) as -> by (apply retain_live_lookup; auto).
        simpl. by eexists.
    + intros (t & Ht & Hr). case_decide as Hd; [by right|left].
      apply retain_live_lookup in Ht as [Ht _].
      assert (id ∈ owned s) as Ho by (apply H4; eauto).
      unfold owned in Ho. rewrite Hp in Ho. simpl in Ho. by rewrite app_nil_r in Ho.
  - intros id t. rewrite Hlook. case_decide as Hd.
    + intros (t0 & Ht0 & ->)%fmap_Some. apply retain_live_lookup in Ht0 as [Ht0 _].
      destruct (Hdue id Hd) as (t1 & Ht1 & Hr & _).
      rewrite Ht0 in Ht1. injection Ht1 as <-. destruct (H5 id t0 Ht0) as [Hm Ha]. rewrite Hr in Ha.
      split; [done|]. simpl. unfold sat_add. unfold u32_max. lia.
    + intros [Ht _]%retain_live_lookup. by apply H5 in Ht.
  - split; [|by rewrite Ep]. intros id a c Hin. destruct (H6 id a c Hin) as (t & Ht & Hat).
    destruct (Hown id) as (Hn & t' & Ht' & _ & Ht''); [by eapply calling_elem|].
    exists t. split; [|done]. rewrite Hlook, decide_False by done. congruence.
  - change (sizeN (foldr mark_running (retain_live s) due) ≤ max_tasks (config s)).
    rewrite mark_all_size. etrans; [|exact H7].
    assert (size (retain_live s) ≤ size (tasks s))%nat; [|lia].
    apply map_subseteq_size. unfold retain_live. apply map_filter_subseteq.
Qed.

(** *** Every step *)

(** A step that only moves the coordinator or the workers. *)
Lemma same_tasks_inv s s' :
  inv s → config s' = config s → tasks s' = tasks s → owned s' ≡ₚ owned s →
  active s' = lenN (workers s') + counted (coordinator s') →
  active s' + budget (coordinator s') ≤ max_concurrent_tasks (config s) →
  (∀ id a c, Calling id a c ∈ workers s' → hands s id a c) →
  match coordinator s' with
  | Counting id a c _ | Starting id a c _ => hands s id a c
  | _ => True
  end → inv s'.
Proof.
  intros [H1 H2 H3 H4 H5 H6 H7] Hc Ht Ho Ha Hb Hw Hp.
  assert (Hands : ∀ id a c, hands s id a c → hands s' id a c) by (unfold hands; by rewrite Ht).
  split; rewrite ?Hc, ?Ht, ?Ho; try done.
  - intros id. by rewrite Ho, H4.
  - split; [intros; by apply Hands, Hw|]. destruct (coordinator s'); try done; by apply Hands.
Qed.

Lemma workers_hands s : inv s → ∀ id a c, Calling id a c ∈ workers s → hands s id a c.
Proof. intros Hs. apply (inv_handed s Hs). Qed.

Ltac move_only Hs :=
  pose proof (inv_active _ Hs) as Ha; pose proof (inv_budget _ Hs) as Hb;
  pose proof (workers_hands _ Hs) as Hw;
  match goal with H : coordinator _ = _ |- _ => rewrite H in Ha, Hb end;
  simpl in Ha, Hb; apply (same_tasks_inv _ _ Hs); simpl;
  [done|done|unfold owned, calling; simpl;
   match goal with H : coordinator _ = _ |- _ => rewrite H end; simpl; try done|lia|lia|exact Hw|try done].

Lemma loop_check_inv s :
  inv s → coordinator s = LoopTop → inv (with_phase s (if is_shutdown s then Joining else Loading)).
Proof. intros Hs Hp. destruct (is_shutdown s); move_only Hs. Qed.

Lemma load_active_inv s :
  inv s → coordinator s = Loading →
  inv (with_phase s (Scanning (max_concurrent_tasks (config s) - active s))).
Proof. intros Hs Hp. move_only Hs. Qed.

Lemma spawn_next_inv s id due :
  inv s → coordinator s = Spawning (id :: due) →
  ∃ t, tasks s !! id = Some t ∧ inv (with_phase s (Counting id (attempts t) (cancelled t) due)).
Proof.
  intros Hs Hp. assert (id ∈ owned s) as Hin.
  { unfold owned. rewrite Hp. apply elem_of_app. right. by left. }
  apply (inv_running _ Hs) in Hin as (t & Ht & Hr). exists t. split; [done|]. move_only Hs.
  by exists t.
Qed.

Lemma handed_starting s id a c due :
  inv s → coordinator s = Counting id a c due ∨ coordinator s = Starting id a c due →
  hands s id a c.
Proof. intros Hs Hp. destruct (inv_handed _ Hs) as [_ H]. by destruct Hp as [Hp|Hp]; rewrite Hp in H. Qed.

Lemma fetch_add_inv s id a c due :
  inv s → coordinator s = Counting id a c due →
  inv (with_phase (with_workers s (active s + 1) (workers s)) (Starting id a c due)).
Proof.
  intros Hs Hp. pose proof (handed_starting s id a c due Hs (or_introl Hp)). move_only Hs.
Qed.

Lemma started_inv s id a c due :
  inv s → coordinator s = Starting id a c due →
  inv (with_phase (with_workers s (active s) (workers s ++ [Calling id a c])) (Spawning due)).
Proof.
  intros Hs Hp. pose proof (handed_starting s id a c due Hs (or_intror Hp)) as Hh.
  pose proof (inv_active _ Hs) as Ha. pose proof (inv_budget _ Hs) as Hb.
  rewrite Hp in Ha, Hb. simpl in Ha, Hb. apply (same_tasks_inv _ _ Hs); simpl; try done.
  - unfold owned, calling. simpl. rewrite Hp, bind_app, <- app_assoc. done.
  - rewrite length_app. simpl. lia.
  - intros i a' c' [Hin|Hin]%elem_of_app; [by apply (workers_hands s Hs)|].
    apply list_elem_of_singleton in Hin. by simplify_eq.
Qed.

Lemma fail_sub_inv s due :
  inv s → coordinator s = StartFailedSub due →
  inv (with_phase (with_workers s (active s - 1) (workers s)) (Spawning due)).
Proof. intros Hs Hp. move_only Hs. Qed.

Lemma worker_sub_inv s i :
  inv s → workers s !! i = Some Finishing →
  inv (with_workers s (active s - 1) (delete i (workers s))).
Proof.
  intros Hs Hi. pose proof (inv_active _ Hs) as Ha. pose proof (inv_budget _ Hs) as Hb.
  pose proof (workers_hands _ Hs) as Hw. destruct (inv_handed _ Hs) as [_ Hh].
  assert (Hlen : length (workers s) = S (length (delete i (workers s)))).
  { pose proof (lookup_lt_Some _ _ _ Hi). rewrite length_delete; [lia|by eexists]. }
  apply (same_tasks_inv _ _ Hs); simpl; try done; try lia.
  - unfold owned, calling. simpl. by rewrite <- calling_delete.
  - intros id a c Hin. apply Hw. eapply elem_of_submseteq; [exact Hin|].
    apply sublist_submseteq, sublist_delete.
Qed.

Lemma join_inv s :
  inv s → coordinator s = Joining → workers s = [] → inv (with_phase (with_tasks s ∅) Stopped).
Proof.
  intros Hs Hp Hw. pose proof (inv_active _ Hs) as Ha. pose proof (inv_budget _ Hs) as Hb.
  rewrite Hp in Ha, Hb.
  split; unfold owned, calling, handed; simpl; rewrite ?Hw; try done.
  - by rewrite Ha, Hw.
  - constructor.
  - intros id. split; [by intros ?%not_elem_of_nil|intros (t & Ht & _)]. by rewrite lookup_empty in Ht.
  - split; [|done]. by intros ? ? ? ?%not_elem_of_nil.
  - rewrite map_size_empty. lia.
Qed.

Lemma step_inv e s s' : inv s → step e s = Some s' → inv s'.
Proof.
  intros Hs He. destruct e; simpl in He.
  - case_match; [done|]. injection He as <-. by apply schedule_task_inv.
  - injection He as <-. unfold cancel. case_match; [|done]. by apply (inv_ext s).
  - case_match; [|done]. injection He as <-. by apply (inv_ext s).
  - injection He as <-. by apply (inv_ext s).
  - case_match; [|done]. injection He as <-. by apply (inv_ext s).
  - destruct (coordinator s) eqn:Hp; try done. injection He as <-. by apply loop_check_inv.
  - destruct (coordinator s) eqn:Hp; try done. injection He as <-. by apply load_active_inv.
  - destruct (coordinator s) eqn:Hp; try done. injection He as <-. by apply scan_inv.
  - destruct (coordinator s) as [| | |[|id due]| | | | | |] eqn:Hp; try done.
    + injection He as <-. move_only Hs.
    + destruct (spawn_next_inv s id due Hs Hp) as (t & Ht & Hi). rewrite Ht in He. by injection He as <-.
  - destruct (coordinator s) eqn:Hp; try done. injection He as <-. by apply fetch_add_inv.
  - destruct (coordinator s) eqn:Hp; try done. destruct started; injection He as <-;
      [by apply started_inv|move_only Hs].
  - destruct (coordinator s) eqn:Hp; try done. injection He as <-. by apply failed_inv.
  - destruct (coordinator s) eqn:Hp; try done. injection He as <-. by apply fail_sub_inv.
  - destruct (workers s !! worker) as [[id a c|]|] eqn:Hi; try done. injection He as <-.
    by eapply returned_inv.
  - destruct (workers s !! worker) as [[id a c|]|] eqn:Hi; try done. injection He as <-.
    by apply worker_sub_inv.
  - destruct (coordinator s) eqn:Hp; try done. destruct (workers s) eqn:Hw; [|done].
    injection He as <-. by apply join_inv.
Qed.

Lemma reachable_inv s0 s : inv s0 → reachable s0 s → inv s.
Proof. intros H0. induction 1 as [|s s' e _ IH He]; [done|]. by eapply step_inv. Qed.

(** *** The configuration never changes; shutdown is for good *)

Lemma complete_task_config s id now res : config (complete_task s id now res) = config s.
Proof. apply complete_task_frame. Qed.

Lemma step_frame e s s' :
  step e s = Some s' → config s' = config s ∧ (is_shutdown s = true → is_shutdown s' = true).
Proof.
  intros He. destruct e; simpl in He;
    try (repeat case_match; simplify_eq; simpl; try done;
         match goal with |- context [complete_task ?s ?i ?n ?r] =>
           destruct (complete_task_frame s i n r) as (Hc & _ & _ & _ & _ & Hd); by rewrite ?Hc, ?Hd end).
  - case_match; [done|]. injection He as <-. unfold schedule_task.
    destruct early; [done|]. case_match; [|done]. repeat case_match; done.
  - injection He as <-. unfold cancel. by case_match.
Qed.

Lemma reachable_config s0 s : reachable s0 s → config s = config s0.
Proof. induction 1 as [|s s' e _ IH He]; [done|]. apply step_frame in He as [-> _]. done. Qed.

Lemma reachable_trans s0 s s' : reachable s0 s → reachable s s' → reachable s0 s'.
Proof. intros H. induction 1; [done|by econstructor]. Qed.

Lemma length_calling (ws : list Worker) : (length (ws ≫= calling_id) ≤ length ws)%nat.
Proof.
  induction ws as [|w ws IH]; [done|]. rewrite bind_cons, length_app.
  destruct w; cbn [calling_id length]; lia.
Qed.

(** *** Cancelled cells *)

(** Cell [c] is set and no running entry uses it. *)
Definition dead (c : nat) (s : SchedulerInner) : Prop :=
  flags s !! c = Some true ∧
  ∀ id t, tasks s !! id = Some t → cancelled t = c → running t = false.

Lemma set_flag_keeps (f : list bool) c c' : f !! c = Some true → <[c' := true]> f !! c = Some true.
Proof.
  intros Hc. destruct (decide (c = c')) as [->|?]; [|by rewrite list_lookup_insert_ne].
  apply list_lookup_insert_eq. by eapply lookup_lt_Some.
Qed.

Lemma dead_ext c s s' :
  tasks s' = tasks s → flags s' = flags s → dead c s → dead c s'.
Proof. unfold dead. by intros -> ->. Qed.

Lemma dead_complete c s id now res :
  inv s → dead c s → dead c (complete_task s id now res).
Proof.
  intros Hs [Hf Hd]. destruct (complete_task_frame s id now res) as (_ & _ & _ & _ & Hfl & _).
  split; [by rewrite Hfl|]. intros i t Ht Hc. revert Ht.
  unfold complete_task. destruct (tasks s !! id) as [t0|] eqn:Ht0; [|intros Ht; by eapply Hd].
  destruct (complete_entry _ t0 now res _) as [o js] eqn:Ho. simpl.
  destruct (decide (i = id)) as [->|Hne]; [|rewrite lookup_partial_alter_ne by done; intros; by eapply Hd].
  rewrite lookup_partial_alter_eq. intros ->.
  unfold complete_entry in Ho. repeat case_match; simplify_eq;
    match goal with H : mbind _ ?o = Some _ |- _ => destruct o; simplify_eq/= end; done.
Qed.

Lemma dead_scan c s available now :
  dead c s → dead c (scan available now s).
Proof.
  intros [Hf Hd]. split; [done|]. intros i t Ht Hc. rewrite scan_lookup in Ht. case_decide as Hin.
  - exfalso. apply fmap_Some in Ht as (t0 & Ht0 & ->). simpl in Hc.
    apply scan_due_spec in Hin as (t1 & Ht1 & _ & Hnc & _).
    apply retain_live_lookup in Ht0 as [Ht0 _]. rewrite Ht0 in Ht1. injection Ht1 as <-.
    unfold is_cancelled in Hnc. by rewrite Hc, Hf in Hnc.
  - apply retain_live_lookup in Ht as [Ht _]. by eapply Hd.
Qed.

Lemma dead_step c e s s' : inv s → step e s = Some s' → dead c s → dead c s'.
Proof.
  intros Hs He Hd. destruct e; simpl in He;
    try (repeat case_match; simplify_eq; first
      [ by apply (dead_ext c s) | by apply dead_scan
      | by apply dead_complete | by apply (dead_ext c (complete_task s id now res)); [..|apply dead_complete]
      | destruct Hd as [Hf Hd]; split; [by apply set_flag_keeps|done] ]).
  - case_match; [done|]. injection He as <-. unfold schedule_task. destruct early; [done|].
    case_match; [|done]. repeat case_match; try done. destruct Hd as [Hf Hd]. split; simpl.
    + by apply lookup_app_l_Some.
    + intros i t'. rewrite lookup_insert_Some. intros [[_ <-]|[_ Ht]] Hc; [done|by eapply Hd].
  - injection He as <-. unfold cancel. case_match; [|done]. destruct Hd as [Hf Hd].
    split; [by apply set_flag_keeps|done].
  - case_match; [|done]. injection He as <-. destruct Hd as [Hf Hd]. split; [|done].
    simpl. induction (map_to_list (tasks s)) as [|kt l IH]; [done|]. by apply set_flag_keeps.
  - repeat case_match; simplify_eq. destruct Hd as [Hf Hd]. split; [done|]. intros i t Ht.
    simpl in Ht. by rewrite lookup_empty in Ht.
Qed.

Lemma dead_not_calling c s id a : inv s → dead c s → Calling id a c ∉ workers s.
Proof.
  intros Hs [_ Hd] Hin. destruct (workers_hands s Hs id a c Hin) as (t & Ht & _ & Hc).
  assert (id ∈ owned s) as Ho by (apply elem_of_app; left; by eapply calling_elem).
  apply (inv_running s Hs) in Ho as (t' & Ht' & Hr). rewrite Ht in Ht'. injection Ht' as <-.
  by rewrite (Hd id t Ht Hc) in Hr.
Qed.

Lemma dead_reachable c s s' : inv s → reachable s s' → dead c s → inv s' ∧ dead c s'.
Proof.
  intros Hs. induction 1 as [|s1 s2 e _ IH He]; [done|]. intros Hd. destruct (IH Hd) as [Hi Hdd].
  split; [by eapply step_inv|by eapply dead_step].
Qed.

(** *** Shutdown *)

Definition halted (s : SchedulerInner) : Prop :=
  match coordinator s with
  | Joining => is_shutdown s = true
  | Stopped => is_shutdown s = true ∧ workers s = [] ∧ tasks s = ∅
  | _ => True
  end.

Lemma schedule_task_shutdown early now task s :
  coordinator (schedule_task early now task s).2 = coordinator s ∧
  (is_shutdown s = true → (schedule_task early now task s).2 = s).
Proof.
  unfold schedule_task. destruct early; [done|].
  destruct (_ ← validate_task task; _) as [[parsed next]|]; [|done].
  destruct (is_shutdown s); [done|]. by repeat case_match.
Qed.

Lemma halted_ext s s' :
  coordinator s' = coordinator s → (is_shutdown s = true → is_shutdown s' = true) →
  workers s' = workers s → tasks s' = tasks s → halted s → halted s'.
Proof.
  unfold halted. intros -> Hs -> ->. destruct (coordinator s); try done. intros (? & ? & ?).
  by split_and!; [apply Hs|..].
Qed.

(** Only the last two phases are constrained. *)
Lemma halted_phase s p :
  p ≠ Joining → p ≠ Stopped → coordinator s = p → halted s.
Proof. unfold halted. intros ? ? ->. by destruct p. Qed.

Lemma halted_worker s i :
  is_Some (workers s !! i) → halted s → coordinator s = Joining ∧ is_shutdown s = true ∨
    coordinator s ≠ Joining ∧ coordinator s ≠ Stopped.
Proof.
  unfold halted. intros [w Hw] Hh. destruct (coordinator s); auto.
  destruct Hh as (_ & Hnil & _). by rewrite Hnil in Hw.
Qed.

Lemma halted_step e s s' : step e s = Some s' → halted s → halted s'.
Proof.
  intros He Hh. destruct (step_frame e s s' He) as [_ Hsd].
  destruct e; simpl in He;
    try (repeat case_match; simplify_eq; by (eapply halted_phase; [..|done])).
  - case_match; [done|]. injection He as <-.
    destruct (schedule_task_shutdown early now task s) as [Hc Hsame].
    destruct (is_shutdown s) eqn:Hs; [by rewrite Hsame|]. unfold halted in *. rewrite Hc.
    destruct (coordinator s); try done; [congruence|destruct Hh; congruence].
  - injection He as <-. unfold cancel. case_match; [|done]. by apply (halted_ext s).
  - case_match; [|done]. injection He as <-. by apply (halted_ext s).
  - injection He as <-. by apply (halted_ext s).
  - case_match; [|done]. injection He as <-. by apply (halted_ext s).
  - destruct (coordinator s); try done. injection He as <-. unfold halted. simpl.
    by destruct (is_shutdown s) eqn:?.
  - destruct (workers s !! worker) as [[id a c|]|] eqn:Hw; simplify_eq.
    destruct (complete_task_frame s id now res) as (_ & _ & _ & Fp & _ & Fd).
    destruct (halted_worker s worker) as [[Hp Hd]|[Hp1 Hp2]]; [by eexists|done|..].
    + unfold halted. simpl. by rewrite Fp, Hp, Fd.
    + eapply halted_phase; [..|reflexivity]; simpl; by rewrite Fp.
  - destruct (workers s !! worker) as [[id a c|]|] eqn:Hw; simplify_eq.
    destruct (halted_worker s worker) as [[Hp Hd]|[Hp1 Hp2]]; [by eexists|done|..].
    + unfold halted. simpl. by rewrite Hp.
    + by eapply halted_phase; [..|reflexivity].
  - destruct (coordinator s) eqn:Hp; try done. destruct (workers s) eqn:Hw; [|done].
    injection He as <-. unfold halted in *. rewrite Hp in Hh. by rewrite <- Hw.
Qed.

Lemma halted_reachable s0 s : halted s0 → reachable s0 s → halted s.
Proof. intros H0. induction 1; [done|]. by eapply halted_step. Qed.

(** Once shutdown was requested, the coordinator and the workers can always
    run to the end. *)
Definition can_stop (s : SchedulerInner) : Prop := ∃ s', reachable s s' ∧ coordinator s' = Stopped.

Lemma can_stop_step e s s' : step e s = Some s' → can_stop s' → can_stop s.
Proof.
  intros He (s2 & Hr & Hs). exists s2. split; [|done].
  eapply reachable_trans; [|exact Hr]. econstructor; [constructor|exact He].
Qed.

Lemma joining_can_stop s : coordinator s = Joining → can_stop s.
Proof.
  remember (workers s) as ws eqn:Hws. revert s Hws.
  induction ws as [|w ws IH]; intros s Hws Hp.
  { apply (can_stop_step EJoinAll s (with_phase (with_tasks s ∅) Stopped)).
    - simpl. by rewrite Hp, <- Hws.
    - eexists. split; [constructor|done]. }
  assert (Hsub : ∀ s, coordinator s = Joining → workers s = Finishing :: ws → can_stop s).
  { intros s1 Hp1 Hw1. eapply (can_stop_step (EWorkerSub 0)); [simpl; by rewrite Hw1|].
    by apply IH. }
  destruct w as [id a c|]; [|by apply Hsub].
  eapply (can_stop_step (ECallbackReturned 0 0 (Ok ()))); [simpl; by rewrite <- Hws|].
  destruct (complete_task_frame s id 0 (Ok ())) as (_ & _ & Fw & Fp & _).
  apply Hsub; simpl; [by rewrite Fp|by rewrite Fw, <- Hws].
Qed.

Lemma top_can_stop s : is_shutdown s = true → coordinator s = LoopTop → can_stop s.
Proof.
  intros Hsd Hp. eapply (can_stop_step ELoopCheck); [simpl; by rewrite Hp|]. rewrite Hsd.
  by apply joining_can_stop.
Qed.

Lemma spawning_can_stop due s : is_shutdown s = true → coordinator s = Spawning due → can_stop s.
Proof.
  revert s. induction due as [|id due IH]; intros s Hsd Hp.
  { eapply (can_stop_step ESpawnNext); [simpl; by rewrite Hp|]. by apply top_can_stop. }
  destruct (tasks s !! id) as [t|] eqn:Ht.
  - eapply (can_stop_step ESpawnNext); [simpl; by rewrite Hp, Ht|].
    eapply (can_stop_step EFetchAdd); [done|]. eapply (can_stop_step (EThreadSpawn true)); [done|].
    by apply IH.
  - eapply (can_stop_step ESpawnNext); [simpl; by rewrite Hp, Ht|]. by apply IH.
Qed.

Lemma shutdown_can_stop s : is_shutdown s = true → can_stop s.
Proof.
  intros Hsd. destruct (coordinator s) as [| |av|due|id a c due|id a c due|id due|due| |] eqn:Hp.
  - by apply top_can_stop.
  - eapply (can_stop_step ELoadActive); [simpl; by rewrite Hp|].
    eapply (can_stop_step (EScan 0)); [done|]. by eapply spawning_can_stop.
  - eapply (can_stop_step (EScan 0)); [simpl; by rewrite Hp|]. by eapply spawning_can_stop.
  - by eapply spawning_can_stop.
  - eapply (can_stop_step EFetchAdd); [simpl; by rewrite Hp|].
    eapply (can_stop_step (EThreadSpawn true)); [done|]. by eapply spawning_can_stop.
  - eapply (can_stop_step (EThreadSpawn true)); [simpl; by rewrite Hp|]. by eapply spawning_can_stop.
  - eapply (can_stop_step (EFailComplete 0)); [simpl; by rewrite Hp|].
    eapply (can_stop_step EFailSub); [done|]. eapply spawning_can_stop; [|done]. simpl.
    destruct (complete_task_frame s id 0 (Err "worker could not start"%string)) as (_ & _ & _ & _ & _ & Hd).
    by rewrite Hd.
  - eapply (can_stop_step EFailSub); [simpl; by rewrite Hp|]. by eapply spawning_can_stop.
  - by apply joining_can_stop.
  - exists s. split; [constructor|done].
Qed.

(** *** The order of the scan *)

#[local] Instance before_total : Total before.
Proof. intros a b. unfold before. lia. Qed.
#[local] Instance before_trans : Transitive before.
Proof. intros a b c. unfold before. lia. Qed.

Section Selection.
Context (now available : N) (m : gmap string TaskEntry) (l : list (string * TaskEntry)).
Hypothesis Hl : l ≡ₚ map_to_list m.

Let sorted := merge_sort before (filter (λ kt, is_due now kt.2) l).

Lemma sorted_elem i t : (i, t) ∈ sorted ↔ m !! i = Some t ∧ is_due now t = true.
Proof.
  unfold sorted. rewrite merge_sort_Permutation, list_elem_of_filter, Hl, elem_of_map_to_list.
  simpl. rewrite Is_true_true. split; by intros [? ?].
Qed.

Lemma select_due_unfold : select_due now available l = (take (N.to_nat available) sorted).*1.
Proof. done. Qed.

Lemma selected_elem i :
  i ∈ select_due now available l → ∃ t, (i, t) ∈ take (N.to_nat available) sorted.
Proof. rewrite select_due_unfold. intros ([i' t] & -> & ?)%list_elem_of_fmap. eauto. Qed.

Lemma not_selected_elem j u :
  (j, u) ∈ sorted → j ∉ select_due now available l → (j, u) ∈ drop (N.to_nat available) sorted.
Proof.
  intros Hin Hout. rewrite <- (take_drop (N.to_nat available) sorted) in Hin.
  apply elem_of_app in Hin as [Hin|?]; [|done]. destruct Hout.
  rewrite select_due_unfold. apply list_elem_of_fmap. by exists (j, u).
Qed.

Lemma select_due_first i t j u :
  m !! i = Some t → i ∈ select_due now available l →
  (j, u) ∈ sorted → j ∉ select_due now available l → before (i, t) (j, u).
Proof.
  intros Hi (t' & Hin)%selected_elem Hj Hout.
  pose proof (not_selected_elem j u Hj Hout) as Hd.
  assert ((i, t') ∈ sorted) as Hs.
  { rewrite <- (take_drop (N.to_nat available) sorted). apply elem_of_app. by left. }
  apply sorted_elem in Hs as [Hs _]. rewrite Hi in Hs. injection Hs as <-.
  assert (StronglySorted before sorted) as Hss by (apply StronglySorted_merge_sort; apply _).
  rewrite <- (take_drop (N.to_nat available) sorted) in Hss.
  by eapply StronglySorted_app_1_elem_of.
Qed.

Lemma select_due_full j u :
  (j, u) ∈ sorted → j ∉ select_due now available l →
  lenN (select_due now available l) = available.
Proof.
  intros Hj Hout. pose proof (not_selected_elem j u Hj Hout) as Hd.
  rewrite select_due_unfold, length_fmap, length_take.
  assert (N.to_nat available < length sorted)%nat; [|lia].
  destruct (drop (N.to_nat available) sorted) eqn:E; [by apply not_elem_of_nil in Hd|].
  apply (f_equal length) in E. rewrite length_drop in E. simpl in E. lia.
Qed.
End Selection.

Lemma select_due_any_order now available m l :
  l ≡ₚ map_to_list m →
  (∀ i j t u, m !! i = Some t → m !! j = Some u → order t = order u → i = j) →
  select_due now available l = select_due now available (map_to_list m).
Proof.
  intros Hl Hord. rewrite !select_due_unfold. do 2 f_equal.
  apply (StronglySorted_unique_strong before).
  - intros [i t] [j u] [Hi _]%(sorted_elem now m l Hl) [Hj _]%(sorted_elem now m _ (reflexivity _)) Hb1 Hb2.
    assert (order t = order u) as Ho by (unfold before in *; simpl in *; lia).
    pose proof (Hord i j t u Hi Hj Ho) as ->. by simplify_eq.
  - apply StronglySorted_merge_sort; apply _.
  - apply StronglySorted_merge_sort; apply _.
  - by rewrite !merge_sort_Permutation, Hl.
Qed.

Lemma pending_length s : lenN (pending (coordinator s)) ≤ counted (coordinator s) + budget (coordinator s).
Proof. destruct (coordinator s); simpl; lia. Qed.

(** The entries a snapshot shows as running are all owned. *)
Lemma snapshot_running s :
  inv s → (length (filter (λ t, snap_running t = true) (snap_tasks (snapshot s))) ≤ length (owned s))%nat.
Proof.
  intros Hs. set (shown := filter _ _).
  rewrite <- (length_fmap snap_id shown). apply submseteq_length, NoDup_submseteq.
  - eapply sublist_NoDup; [|apply fmap_sublist, sublist_filter].
    assert (snap_id <$> snap_tasks (snapshot s) = (btree_iter (tasks s)).*1) as ->;
      [|apply btree_iter_nodup].
    simpl. rewrite <- list_fmap_compose. apply list_fmap_ext. by intros ? [].
  - intros id (t & -> & Hin)%list_elem_of_fmap.
    subst shown. apply list_elem_of_filter in Hin as [Hr Hin].
    apply list_elem_of_fmap in Hin as ([i e] & -> & Hin). rewrite btree_iter_elem in Hin.
    apply (inv_running s Hs). by exists e.
Qed.

(** ** Properties *)

(** C38: Bounds and exclusion. In every interleaving of callers, coordinator and
    workers from a fresh scheduler: at most [max_concurrent_tasks] callbacks
    run at once, no task has two, [active] never exceeds the bound, at most
    [max_tasks] are registered, and the attempt number a callback sees is
    between one and its task's [max_attempts]; a snapshot never shows more
    running tasks than the bound. *)
Theorem scheduler_stays_in_bounds c seed s0 s :
  new c seed = Ok s0 → reachable s0 s →
  lenN (calling s) ≤ max_concurrent_tasks c ∧ active s ≤ max_concurrent_tasks c ∧
  NoDup (calling s) ∧ sizeN (tasks s) ≤ max_tasks c ∧
  lenN (filter (λ t, snap_running t = true) (snap_tasks (snapshot s))) ≤ max_concurrent_tasks c ∧
  ∀ id a cell, Calling id a cell ∈ workers s →
    ∃ t, tasks s !! id = Some t ∧ cancelled t = cell ∧ 1 ≤ a ≤ max_attempts (retry t).
Proof.
  intros Hnew Hr. assert (config s = c) as Hc.
  { rewrite (reachable_config s0 s Hr). unfold new in Hnew.
    destruct (validate_config c); simpl in Hnew; [by injection Hnew as <-|done]. }
  pose proof (reachable_inv s0 s (new_scheduler_inv c seed s0 Hnew) Hr) as Hs.
  pose proof (inv_active s Hs) as Ha. pose proof (inv_budget s Hs) as Hb. rewrite Hc in Hb.
  pose proof (length_calling (workers s)) as Hlen. unfold calling. split_and!; [lia|lia| | | |].
  - pose proof (inv_nodup s Hs) as Hnd. by apply NoDup_app in Hnd as [? _].
  - rewrite <- Hc. apply (inv_size s Hs).
  - pose proof (snapshot_running s Hs) as Hrun. unfold owned, calling in Hrun.
    rewrite length_app in Hrun. pose proof (pending_length s). lia.
  - intros id a cell Hin. destruct (workers_hands s Hs id a cell Hin) as (t & Ht & <- & <-).
    exists t. split; [done|]. split; [done|]. destruct (inv_entries s Hs id t Ht) as [_ He].
    assert (id ∈ owned s) as Ho by (apply elem_of_app; left; by eapply calling_elem).
    apply (inv_running s Hs) in Ho as (t' & Ht' & Hrun). rewrite Ht in Ht'. injection Ht' as <-.
    by rewrite Hrun in He.
Qed.

(** C39: Shutdown drains. Once [shutdown] was requested the coordinator can always
    reach its end, whatever state it was in; and when it is there no callback
    runs, no task is registered, nothing counts as active, and nothing that
    callers do afterwards changes that. *)
Theorem shutdown_drains c seed s0 s :
  new c seed = Ok s0 → reachable s0 s →
  (is_shutdown s = true → ∃ s', reachable s s' ∧ coordinator s' = Stopped) ∧
  (∀ s', coordinator s = Stopped → reachable s s' →
     coordinator s' = Stopped ∧ workers s' = [] ∧ tasks s' = ∅ ∧ active s' = 0).
Proof.
  intros Hnew Hr. split; [apply shutdown_can_stop|]. intros s' Hp Hr'.
  assert (Hh0 : halted s0).
  { unfold new in Hnew. destruct (validate_config c); simpl in Hnew; [by injection Hnew as <-|done]. }
  pose proof (halted_reachable s0 s Hh0 Hr) as Hh.
  assert (Hi : inv s) by (apply (reachable_inv s0); [by eapply new_scheduler_inv|done]).
  pose proof (reachable_inv s s' Hi Hr') as Hi'. pose proof (halted_reachable s s' Hh Hr') as Hh'.
  assert (Hp' : coordinator s' = Stopped).
  { clear Hi' Hh'. induction Hr' as [|s1 s2 e Hr1 IH He]; [done|].
    pose proof (halted_reachable s s1 Hh Hr1) as Hh1.
    destruct e; simpl in He; rewrite ?IH in He; try done; unfold halted in Hh1; rewrite IH in Hh1;
      destruct Hh1 as (Hs1 & Hw1 & _); rewrite ?Hw1 in He; try done;
      repeat case_match; simplify_eq; try done.
    - by rewrite (proj1 (schedule_task_shutdown early now task s1)).
    - unfold cancel. by case_match. }
  unfold halted in Hh'. rewrite Hp' in Hh'. destruct Hh' as (_ & Hw' & Ht').
  split_and!; [done..|]. rewrite (inv_active s' Hi'), Hp', Hw'. done.
Qed.

(** Cancellation. When the cancellation cell of a task is set while the task
    is not running, no callback of that task is ever started again, by any
    route, even if its identity is registered anew. *)
Theorem cancelled_task_never_starts c seed s0 s s' cell :
  new c seed = Ok s0 → reachable s0 s → flags s !! cell = Some true →
  (∀ id t, tasks s !! id = Some t → cancelled t = cell → running t = false) →
  reachable s s' → ∀ id a, Calling id a cell ∉ workers s'.
Proof.
  intros Hnew Hr Hf Ht Hr' id a. assert (inv s) as Hs by (apply (reachable_inv s0); [by eapply new_scheduler_inv|done]).
  destruct (dead_reachable cell s s' Hs Hr') as [Hi Hd]; [by split|]. by apply dead_not_calling.
Qed.

(** What the scan selects. Whatever the order in which the hash map lists the
    tasks: each identity once, only registered tasks that are idle, due and
    not cancelled; a due task is left out only when the free capacity is used
    up, and only for tasks that come before it by priority, planned instant
    and registration; with distinct registration numbers the selection does
    not depend on the map's order at all. *)
Theorem scan_selects_first s now available l :
  l ≡ₚ map_to_list (retain_live s) →
  let due := select_due now available l in
  let eligible id t := tasks s !! id = Some t ∧ running t = false ∧ is_cancelled s t = false ∧
                       next_run t ≤ now in
  NoDup due ∧ lenN due ≤ available ∧ (∀ id, id ∈ due → ∃ t, eligible id t) ∧
  (∀ j u, eligible j u → j ∉ due →
     lenN due = available ∧ ∀ i t, i ∈ due → tasks s !! i = Some t → before (i, t) (j, u)) ∧
  ((∀ i j t u, tasks s !! i = Some t → tasks s !! j = Some u → order t = order u → i = j) →
   due = select_due now available (map_to_list (retain_live s))).
Proof using Type.
  clear cron_from_str cron_after clock_max.
  intros Hl due eligible.
  assert (Hel : ∀ id t, eligible id t ↔ retain_live s !! id = Some t ∧ is_due now t = true).
  { intros id t. unfold eligible, is_due. rewrite retain_live_lookup, andb_true_iff, negb_true_iff, N.leb_le.
    naive_solver congruence. }
  split_and!.
  - apply select_due_nodup. rewrite Hl. apply NoDup_fst_map_to_list.
  - apply select_due_length.
  - intros id (t & Hin & Hd)%select_due_elem. exists t. apply Hel.
    by rewrite Hl, elem_of_map_to_list in Hin.
  - intros j u Hj%Hel Hout. apply (sorted_elem now _ l Hl) in Hj.
    split; [by eapply select_due_full|]. intros i t Hi Ht.
    apply (select_due_first now available _ l Hl); try done.
    apply select_due_elem in Hi as (t' & Hin & _).
    rewrite Hl, elem_of_map_to_list in Hin.
    pose proof Hin as Hin'. apply retain_live_lookup in Hin' as [Hin' _]. congruence.
  - intros Hord. apply select_due_any_order; [done|]. intros i j t u Hi Hj.
    apply retain_live_lookup in Hi as [Hi _], Hj as [Hj _]. by apply Hord.
Qed.

(** A run of given steps. *)
Fixpoint run_events (es : list event) (s : SchedulerInner) : option SchedulerInner :=
  match es with
  | [] => Some s
  | e :: es' => s' ← step e s; run_events es' s'
  end.

Lemma run_events_reachable es s s' : run_events es s = Some s' → reachable s s'.
Proof.
  revert s. induction es as [|e es IH]; intros s; simpl; [intros [= <-]; constructor|].
  destruct (step e s) as [s1|] eqn:He; simpl; [|done]. intros Hr.
  eapply reachable_trans; [|by apply IH]. econstructor; [constructor|done].
Qed.
End Scheduler.

(** ** Retry delays *)

(** The saturated product and power lose nothing below the cap. *)
Lemma saturated_backoff initial m e cap :
  cap ≤ u128_max →
  N.min (sat_mul u128_max initial (sat_pow128 m e)) cap = N.min (initial * m ^ e) cap.
Proof.
  intros Hcap. unfold sat_mul, sat_pow128. generalize dependent (m ^ e). intros f.
  destruct (decide (initial = 0)) as [->|]; [lia|].
  destruct (N.le_ge_cases f u128_max) as [Hf|Hf]; [rewrite (N.min_l f) by done; lia|].
  rewrite (N.min_r f) by done. assert (u128_max ≤ initial * u128_max) by nia.
  assert (u128_max ≤ initial * f) by nia. lia.
Qed.

(** Backoff. The delay before a retry is [initial * multiplier ^ (attempt - 1)]
    milliseconds with the exponent capped at 31, cut at [max_backoff] without
    any effect of the saturating arithmetic, plus a jitter of at most the
    configured one, cut at 64 bits; without jitter it is a function of the
    policy and the attempt alone; and the generator stays at a nonzero 64-bit
    state, so jitter never dies out. *)
Theorem retry_delay_is_bounded_backoff policy attempt js :
  as_millis (max_backoff policy) ≤ u128_max → 0 < js ≤ u64_max →
  let backoff := N.min (as_millis (initial_backoff policy) *
                        multiplier policy ^ N.min (attempt - 1) 31)
                       (as_millis (max_backoff policy)) in
  let '(delay, js') := retry_delay policy attempt js in
  (∃ j, j ≤ as_millis (jitter policy) ∧
        delay = from_millis (N.min (backoff + j) u64_max)) ∧
  (as_millis (jitter policy) = 0 → js' = js ∧ delay = from_millis (N.min backoff u64_max)) ∧
  0 < js' ≤ u64_max.
Proof.
  intros Hcap Hjs backoff. unfold retry_delay.
  rewrite saturated_backoff by done. fold backoff.
  set (jm := N.min (as_millis (jitter policy)) u64_max).
  assert (Hmin : ∀ j, j ≤ u64_max →
    N.min (sat_add u128_max (N.min backoff u64_max) j) u64_max = N.min (backoff + j) u64_max).
  { intros j Hj. unfold sat_add, u128_max, u64_max in *. lia. }
  destruct (N.eqb_spec jm 0) as [Hz|Hz].
  - rewrite Hmin by (unfold u64_max; lia). rewrite N.add_0_r. split_and!; [|done|lia..].
    exists 0. split; [lia|]. by rewrite N.add_0_r.
  - set (r := next_random js). set (j := r mod sat_add64 jm 1).
    assert (Hj : j ≤ jm).
    { subst j. pose proof (N.mod_upper_bound r (sat_add64 jm 1)) as Hb.
      unfold sat_add in *. assert (N.min (jm + 1) u64_max ≠ 0); [|lia].
      unfold u64_max. lia. }
    rewrite Hmin by lia. split_and!; [exists j; split; [lia|done]|lia| |]; by apply xorshift64_nonzero.
Qed.

(** ** Witnesses *)

Module Demo.
Definition cron_from_str (_ : string) : result string Empty_set := Err "unsupported".
Definition cron_after (_ : Empty_set) (_ : time) : option time := None.
Definition cfg : SchedulerConfig :=
  {| max_tasks := 2; max_concurrent_tasks := 1; poll_interval := 1 |}.
Definition policy : RetryPolicy :=
  {| max_attempts := 2; initial_backoff := 100000000; max_backoff := 30000000000;
     multiplier := 2; jitter := 10000000 |}.
Definition task (id : string) : ScheduledTask :=
  {| task_id := id; task_schedule := IntervalOf 1000 (Some 5); task_retry := policy;
     task_priority := 1; task_trace := None |}.
Definition start : @SchedulerInner Empty_set :=
  {| config := cfg; tasks := ∅; is_shutdown := false; active := 0; sequence := 1;
     jitter_state := 7; flags := []; workers := []; coordinator := LoopTop |}.
Abbreviation run := (run_events cron_from_str cron_after u64_max).
Definition after (es : list event) : @SchedulerInner Empty_set := default start (run es start).
Definition calls : list event :=
  [ECallSchedule false 0 (task "a"); ECallSchedule false 0 (task "b"); ELoopCheck; ELoadActive;
   EScan 10; ESpawnNext; EFetchAdd; EThreadSpawn true].
Definition stop : list event :=
  [EShutdownStore; EShutdownCancelAll; ELoopCheck; EJoinAll].
Definition cancels : list event :=
  [ECallSchedule false 0 (task "a"); EHandleCancel 0].
Definition scans : list event := [ELoopCheck; ELoadActive; EScan 10].
End Demo.

Lemma scheduler_stays_in_bounds_witness :
  calling (Demo.after Demo.calls) = ["a"%string] ∧ lenN (calling (Demo.after Demo.calls)) ≤ 1.
Proof.
  split; [vm_compute; reflexivity|].
  refine (proj1 (scheduler_stays_in_bounds Demo.cron_from_str Demo.cron_after u64_max Demo.cfg 7
    Demo.start (Demo.after Demo.calls) _ _)); [vm_compute; reflexivity|].
  apply (run_events_reachable Demo.cron_from_str Demo.cron_after u64_max Demo.calls).
  vm_compute. reflexivity.
Defined.

Lemma shutdown_drains_witness :
  workers (Demo.after Demo.stop) = [].
Proof.
  assert (R : reachable Demo.cron_from_str Demo.cron_after u64_max Demo.start (Demo.after Demo.stop)).
  { apply (run_events_reachable Demo.cron_from_str Demo.cron_after u64_max Demo.stop).
    vm_compute. reflexivity. }
  refine (proj1 (proj2 (proj2 (shutdown_drains Demo.cron_from_str Demo.cron_after u64_max Demo.cfg 7
    Demo.start (Demo.after Demo.stop) _ R) _ _ _)));
    [vm_compute; reflexivity|vm_compute; reflexivity|constructor].
Defined.

Lemma cancelled_task_never_starts_witness :
  tasks (Demo.after (Demo.cancels ++ Demo.scans)) = ∅ ∧
  Calling "a" 1 0 ∉ workers (Demo.after (Demo.cancels ++ Demo.scans)).
Proof.
  split; [vm_compute; reflexivity|].
  assert (R : reachable Demo.cron_from_str Demo.cron_after u64_max Demo.start (Demo.after Demo.cancels)).
  { apply (run_events_reachable Demo.cron_from_str Demo.cron_after u64_max Demo.cancels).
    vm_compute. reflexivity. }
  assert (R2 : reachable Demo.cron_from_str Demo.cron_after u64_max (Demo.after Demo.cancels)
    (Demo.after (Demo.cancels ++ Demo.scans))).
  { apply (run_events_reachable Demo.cron_from_str Demo.cron_after u64_max Demo.scans).
    vm_compute. reflexivity. }
  refine (cancelled_task_never_starts Demo.cron_from_str Demo.cron_after u64_max Demo.cfg 7
    Demo.start (Demo.after Demo.cancels) (Demo.after (Demo.cancels ++ Demo.scans)) 0 _ R _ _ R2 _ _);
    [vm_compute; reflexivity|vm_compute; reflexivity|].
  assert (forallb (λ kt, negb (running kt.2)) (map_to_list (tasks (Demo.after Demo.cancels))) = true)
    as Hall by (vm_compute; reflexivity).
  intros id t Ht _. apply elem_of_map_to_list, list_elem_of_In in Ht.
  rewrite forallb_forall in Hall. apply Hall, negb_true_iff in Ht. exact Ht.
Defined.

Lemma scan_selects_first_witness :
  lenN (select_due 10 1 (map_to_list (retain_live (Demo.after Demo.cancels)))) ≤ 1.
Proof.
  refine (proj1 (proj2 (scan_selects_first (Demo.after Demo.cancels) 10 1
    (map_to_list (retain_live (Demo.after Demo.cancels))) _))). reflexivity.
Defined.

Lemma retry_delay_is_bounded_backoff_witness :
  0 < (retry_delay Demo.policy 2 7).2 ≤ u64_max.
Proof.
  pose proof (retry_delay_is_bounded_backoff Demo.policy 2 7) as H.
  assert (as_millis (max_backoff Demo.policy) ≤ u128_max) as H1 by (vm_compute; discriminate).
  assert (0 < 7 ≤ u64_max) as H2 by (split; [reflexivity|vm_compute; discriminate]).
  specialize (H H1 H2). destruct (retry_delay Demo.policy 2 7). exact (proj2 (proj2 H)).
Defined.
