(* ===== verification/Placement.v ===== *)
(** Capability placement:
    [crates/appcore-scheduler/src/placement.rs], on the profiles and modes of
    Contracts.v.

    Scores are [i64]: they are [Z], and the properties bound them. *)

From S2P Require Import Prelude.
From S2P Require Import Types.
From S2P Require Import Contracts.

Local Open Scope N_scope.

(** ** Data *)

Record ResourceRequest := {
  req_cpu_cores : option N;
  req_memory_bytes : option N;
  req_gpu_count : N;
}.

Record PlacementRequest := {
  capability : string;
  service_id : string;
  req_runtime_mode : RuntimeMode;
  requires_write : bool;
  requires_leader : bool;
  req_workload : WorkloadClass;
  req_affinity : gset string;
  req_resources : ResourceRequest;
}.

Record PlacementCandidate := {
  core_id : string;
  runtime_mode : RuntimeMode;
  operational_mode : RuntimeOperationalMode;
  health : RuntimeHealthStatus;
  current_load : N;
  leader_services : gset string;
  profile : CoreProfile;
}.

Inductive PlacementRejection :=
| CapabilityUnavailable | RuntimeModeMismatch | UnhealthyCore | OperationalMode | Unavailable
| LeadershipRequired | AtCapacity | AffinityMismatch | InsufficientCpu | InsufficientMemory
| InsufficientGpu.

Record PlacementEvaluation := {
  eval_core_id : string;
  eligible : bool;
  score : Z;
  rejection : option PlacementRejection;
}.

Record PlacementDecision := {
  selected_core_id : option string;
  evaluations : list PlacementEvaluation;
}.

Definition i64_min : Z := -9223372036854775808.
Definition i64_max : Z := 9223372036854775807.

(** ** Evaluation of one candidate *)

(** [required.is_some_and(|r| have.is_none_or(|a| a < r))]. *)
Definition lacks (required have : option N) : bool :=
  match required, have with
  | Some r, Some a => a <? r
  | Some _, None => true
  | None, _ => false
  end.

Definition rejection_reason (request : PlacementRequest) (candidate : PlacementCandidate) :
    option PlacementRejection :=
  let scheduling := scheduling (profile candidate) in
  let resources := resources (profile candidate) in
  if negb (bool_decide (capability request ∈ capabilities (profile candidate))) then
    Some CapabilityUnavailable
  else if negb (bool_decide (runtime_mode candidate = req_runtime_mode request)) then
    Some RuntimeModeMismatch
  else if bool_decide (health candidate = Unhealthy) then Some UnhealthyCore
  else if negb (allows_local_queries (operational_mode candidate)) ||
          (requires_write request && negb (allows_writes (operational_mode candidate))) then
    Some OperationalMode
  else if negb (available scheduling) then Some Unavailable
  else if requires_leader request &&
          negb (bool_decide (service_id request ∈ leader_services candidate)) then
    Some LeadershipRequired
  else if max_concurrency scheduling <=? current_load candidate then Some AtCapacity
  else if negb (bool_decide (req_affinity request ⊆ affinity scheduling)) then
    Some AffinityMismatch
  else if lacks (req_cpu_cores (req_resources request)) (cpu_cores resources) then
    Some InsufficientCpu
  else if lacks (req_memory_bytes (req_resources request)) (memory_bytes resources) then
    Some InsufficientMemory
  else if gpu_count resources <? req_gpu_count (req_resources request) then Some InsufficientGpu
  else None.

(** [i64::try_from(len).unwrap_or(i64::MAX / 100) * 100]. *)
Definition affinity_score (request : PlacementRequest) : Z :=
  let n := Z.of_nat (size (req_affinity request)) in
  ((if n <=? i64_max then n else i64_max / 100) * 100)%Z.

Definition candidate_score (request : PlacementRequest) (candidate : PlacementCandidate) : Z :=
  let scheduling := scheduling (profile candidate) in
  let health_score := match health candidate with
                      | Healthy => 2000 | Degraded => 250 | Unhealthy => 0
                      end%Z in
  let workload_score :=
    (if bool_decide (workload scheduling = req_workload request) then 1000 else 0)%Z in
  let spare_capacity := max_concurrency scheduling - current_load candidate in
  (priority scheduling * 10000 + Z.of_N (weight scheduling) * 100 + Z.of_N spare_capacity * 10
   + health_score + workload_score + affinity_score request)%Z.

Definition evaluate_candidate (request : PlacementRequest) (candidate : PlacementCandidate) :
    PlacementEvaluation :=
  match rejection_reason request candidate with
  | Some r =>
    {| eval_core_id := core_id candidate; eligible := false; score := i64_min; rejection := Some r |}
  | None =>
    {| eval_core_id := core_id candidate; eligible := true;
       score := candidate_score request candidate; rejection := None |}
  end.

(** ** Selection *)

Definition by_core_id (a b : PlacementEvaluation) : Prop := String.le (eval_core_id a) (eval_core_id b).
#[export] Instance by_core_id_dec : RelDecision by_core_id.
Proof. intros a b. unfold by_core_id. apply _. Defined.
#[export] Instance by_core_id_total : Total by_core_id.
Proof. intros a b. apply (total String.le). Qed.
#[export] Instance by_core_id_trans : Transitive by_core_id.
Proof. intros a b c. unfold by_core_id. apply transitivity. Qed.

(** The comparison of [max_by]: by score, then the smaller identity is larger. *)
Definition ranks (a b : PlacementEvaluation) : Prop :=
  (score a < score b)%Z ∨
  score a = score b ∧ String.le (eval_core_id b) (eval_core_id a).
#[export] Instance ranks_dec : RelDecision ranks.
Proof. intros a b. unfold ranks. apply _. Defined.

(** [Iterator::max_by] keeps the later of two equal elements. *)
Definition max_by (l : list PlacementEvaluation) : option PlacementEvaluation :=
  foldl (λ best e, match best with
                   | None => Some e
                   | Some b => if decide (ranks b e) then Some e else Some b
                   end) None l.

Definition select (request : PlacementRequest) (candidates : list PlacementCandidate) :
    PlacementDecision :=
  let evals := merge_sort by_core_id (evaluate_candidate request <$> candidates) in
  {| selected_core_id := eval_core_id <$> max_by (filter (λ e, eligible e = true) evals);
     evaluations := evals |}.

(** ** Lemmas *)

#[export] Instance ranks_total : Total ranks.
Proof.
  intros a b. unfold ranks.
  destruct (Z.lt_trichotomy (score a) (score b)) as [|[Heq|]]; [auto| |auto].
  destruct (total String.le (eval_core_id b) (eval_core_id a)); auto.
Qed.
#[export] Instance ranks_trans : Transitive ranks.
Proof.
  intros a b c. unfold ranks. intros [?|[? Hab]] [?|[? Hbc]]; [left; lia..|right].
  split; [lia|]. by transitivity (eval_core_id b).
Qed.

(** Two evaluations that rank equal have the same score and identity. *)
Lemma ranks_both a b : ranks a b → ranks b a → score a = score b ∧ eval_core_id a = eval_core_id b.
Proof.
  unfold ranks. intros [?|[? Hab]] [?|[? Hba]]; [lia..|]. split; [done|].
  by apply (anti_symm String.le).
Qed.

Lemma max_by_from best l :
  let best' := foldl (λ best e, match best with
                   | None => Some e
                   | Some b => if decide (ranks b e) then Some e else Some b
                   end) (Some best) l in
  ∃ m, best' = Some m ∧ (m = best ∨ m ∈ l) ∧ ranks best m ∧ ∀ e, e ∈ l → ranks e m.
Proof.
  revert best. induction l as [|e l IH]; intros best; simpl.
  - exists best. split_and!; auto; [destruct (total ranks best best); done|].
    by intros ? ?%not_elem_of_nil.
  - destruct (decide (ranks best e)) as [Hr|Hr].
    + destruct (IH e) as (m & -> & Hm & Hem & Hall). exists m. split; [done|]. split.
      { right. rewrite elem_of_cons. naive_solver. }
      split; [by transitivity e|]. intros x [->|Hx]%elem_of_cons; auto.
    + destruct (IH best) as (m & -> & Hm & Hbm & Hall). exists m. split; [done|]. split.
      { rewrite elem_of_cons. naive_solver. }
      split; [done|]. intros x [->|Hx]%elem_of_cons; [|by apply Hall].
      transitivity best; [|done]. by destruct (total ranks e best).
Qed.

Lemma max_by_spec l :
  match max_by l with
  | None => l = []
  | Some m => m ∈ l ∧ ∀ e, e ∈ l → ranks e m
  end.
Proof.
  unfold max_by. destruct l as [|e l]; [done|]. simpl.
  destruct (max_by_from e l) as (m & -> & Hm & Hem & Hall).
  split; [rewrite elem_of_cons; naive_solver|]. intros x [->|Hx]%elem_of_cons; auto.
Qed.

Lemma evaluations_elem request candidates e :
  e ∈ evaluations (select request candidates) ↔
    ∃ c, c ∈ candidates ∧ e = evaluate_candidate request c.
Proof.
  unfold select. cbn [evaluations]. rewrite merge_sort_Permutation, list_elem_of_fmap. naive_solver.
Qed.

(** The hard constraints, all at once. *)
Record satisfies (request : PlacementRequest) (c : PlacementCandidate) : Prop := {
  sat_capability : capability request ∈ capabilities (profile c);
  sat_mode : runtime_mode c = req_runtime_mode request;
  sat_health : health c ≠ Unhealthy;
  sat_queries : allows_local_queries (operational_mode c) = true;
  sat_writes : requires_write request = true → operational_mode c = ReadWrite;
  sat_available : available (scheduling (profile c)) = true;
  sat_leader : requires_leader request = true → service_id request ∈ leader_services c;
  sat_load : current_load c < max_concurrency (scheduling (profile c));
  sat_affinity : req_affinity request ⊆ affinity (scheduling (profile c));
  sat_cpu : ∀ n, req_cpu_cores (req_resources request) = Some n →
    ∃ a, cpu_cores (resources (profile c)) = Some a ∧ n ≤ a;
  sat_memory : ∀ n, req_memory_bytes (req_resources request) = Some n →
    ∃ a, memory_bytes (resources (profile c)) = Some a ∧ n ≤ a;
  sat_gpu : req_gpu_count (req_resources request) ≤ gpu_count (resources (profile c));
}.

Lemma lacks_false required have :
  lacks required have = false ↔ ∀ n, required = Some n → ∃ a, have = Some a ∧ n ≤ a.
Proof.
  unfold lacks. destruct required as [r|], have as [a|]; rewrite ?N.ltb_ge; split; try done.
  - intros ? n [= <-]. eauto.
  - intros H. destruct (H r eq_refl) as (? & [= <-] & ?). done.
  - intros H. by destruct (H r eq_refl) as (? & ? & _).
Qed.

Lemma not_rejected request c : rejection_reason request c = None ↔ satisfies request c.
Proof.
  unfold rejection_reason. split.
  - repeat case_match; try done.
    repeat match goal with
    | H : negb _ = false |- _ => apply negb_false_iff in H
    | H : _ || _ = false |- _ => apply orb_false_iff in H as [? ?]
    | H : bool_decide _ = true |- _ => apply bool_decide_eq_true in H
    | H : bool_decide _ = false |- _ => apply bool_decide_eq_false in H
    | H : (_ <=? _) = false |- _ => apply N.leb_gt in H
    | H : (_ <? _) = false |- _ => apply N.ltb_ge in H
    | H : lacks _ _ = false |- _ => rewrite lacks_false in H
    end.
    intros _. split; try done.
    + intros Hw. rewrite Hw in *. simpl in *.
      match goal with H : negb (allows_writes _) = false |- _ => revert H end.
      by destruct (operational_mode c).
    + intros Hl. rewrite Hl in *. simpl in *.
      match goal with H : negb (bool_decide _) = false |- _ =>
        apply negb_false_iff, bool_decide_eq_true in H end. done.
  - intros [H1 H2 H3 H4 H5 H6 H7 H8 H9 H10 H11 H12].
    rewrite !bool_decide_eq_true_2, bool_decide_eq_false_2 by done. simpl. rewrite H4, H6. simpl.
    assert (requires_write request && negb (allows_writes (operational_mode c)) = false) as ->.
    { destruct (requires_write request); [|done]. by rewrite H5. }
    assert (requires_leader request && negb (bool_decide (service_id request ∈ leader_services c))
            = false) as ->.
    { destruct (requires_leader request); [|done]. by rewrite bool_decide_eq_true_2 by auto. }
    rewrite (proj2 (N.leb_gt _ _)) by done. rewrite bool_decide_eq_true_2 by done. simpl.
    rewrite (proj2 (lacks_false _ _)), (proj2 (lacks_false _ _)) by done.
    by rewrite (proj2 (N.ltb_ge _ _)) by done.
Qed.

(** The score of a candidate whose profile has the widths of the code. *)
Record profile_fits (c : PlacementCandidate) : Prop := {
  fits_weight : weight (scheduling (profile c)) ≤ u16_max;
  fits_priority : (-32768 ≤ priority (scheduling (profile c)) ≤ 32767)%Z;
  fits_concurrency : max_concurrency (scheduling (profile c)) ≤ u32_max;
}.

Lemma candidate_score_fits request c :
  profile_fits c → (Z.of_nat (size (req_affinity request)) * 100 ≤ 4611686018427387904)%Z →
  (i64_min < candidate_score request c ≤ i64_max)%Z.
Proof.
  intros [Hw Hp Hc] Ha. unfold candidate_score, affinity_score, i64_min, i64_max, u16_max, u32_max in *.
  set (n := Z.of_nat (size (req_affinity request))) in *.
  assert (0 ≤ n)%Z by lia. rewrite (proj2 (Z.leb_le _ _)) by lia.
  assert (0 ≤ (if bool_decide (workload (scheduling (profile c)) = req_workload request)
               then 1000 else 0) ≤ 1000)%Z by (case_bool_decide; lia).
  destruct (health c); lia.
Qed.

(** ** Properties *)

(** Placement. A core is selected exactly when some candidate meets every hard
    constraint of the request; the selected one does, no eligible candidate
    scores higher, and among equal scores it has the smallest identity. The
    decision reports every candidate once, by increasing identity. *)
Theorem placement_selects_best request candidates :
  let d := select request candidates in
  match selected_core_id d with
  | None => ∀ c, c ∈ candidates → ¬ satisfies request c
  | Some id => ∃ c, c ∈ candidates ∧ core_id c = id ∧ satisfies request c ∧
      ∀ c', c' ∈ candidates → satisfies request c' →
        (candidate_score request c' < candidate_score request c)%Z ∨
        candidate_score request c' = candidate_score request c ∧ String.le id (core_id c')
  end ∧
  evaluations d ≡ₚ evaluate_candidate request <$> candidates ∧
  StronglySorted by_core_id (evaluations d).
Proof.
  intros d. split; [|split; [apply merge_sort_Permutation|apply StronglySorted_merge_sort; apply _]].
  assert (Helig : ∀ c, c ∈ candidates → satisfies request c →
    evaluate_candidate request c ∈ filter (λ e, eligible e = true) (evaluations d)).
  { intros c Hc Hs%not_rejected. apply list_elem_of_filter. split.
    - unfold evaluate_candidate. by rewrite Hs.
    - apply evaluations_elem. eauto. }
  assert (Hscore : ∀ c, satisfies request c → evaluate_candidate request c =
    {| eval_core_id := core_id c; eligible := true; score := candidate_score request c; rejection := None |}).
  { intros c Hs%not_rejected. unfold evaluate_candidate. by rewrite Hs. }
  unfold d, select. cbn [selected_core_id]. fold (evaluations d).
  pose proof (max_by_spec (filter (λ e, eligible e = true) (evaluations d))) as Hmax.
  change (merge_sort by_core_id (evaluate_candidate request <$> candidates)) with (evaluations d).
  destruct (max_by _) as [m|]; simpl.
  - destruct Hmax as [Hin Hall]. apply list_elem_of_filter in Hin as [He Hin].
    apply evaluations_elem in Hin as (c & Hc & ->). exists c.
    assert (Hs : satisfies request c).
    { apply not_rejected. unfold evaluate_candidate in He. by destruct (rejection_reason request c). }
    split_and!; [done|by rewrite Hscore|done|]. intros c' Hc' Hs'.
    specialize (Hall _ (Helig c' Hc' Hs')). rewrite (Hscore c'), (Hscore c) in Hall by done.
    rewrite (Hscore c) by done. exact Hall.
  - intros c Hc Hs. specialize (Helig c Hc Hs). rewrite Hmax in Helig.
    by apply not_elem_of_nil in Helig.
Qed.

(** Determinism. The selection depends on the set of candidates only, not on
    the order in which they are given. *)
Theorem placement_ignores_order request candidates candidates' :
  candidates ≡ₚ candidates' →
  selected_core_id (select request candidates) = selected_core_id (select request candidates').
Proof.
  intros Hp. unfold select. cbn [selected_core_id].
  set (l := filter _ (merge_sort by_core_id (evaluate_candidate request <$> candidates))).
  set (l' := filter _ (merge_sort by_core_id (evaluate_candidate request <$> candidates'))).
  assert (Hl : l ≡ₚ l') by (subst l l'; by rewrite !merge_sort_Permutation, Hp).
  pose proof (max_by_spec l) as H. pose proof (max_by_spec l') as H'.
  destruct (max_by l) as [m|], (max_by l') as [m'|]; simpl.
  - destruct H as [Hin Hall], H' as [Hin' Hall'].
    destruct (ranks_both m m') as [_ ->]; [| |done].
    + apply Hall'. by rewrite <- Hl.
    + apply Hall. by rewrite Hl.
  - destruct H as [Hin _]. rewrite Hl, H' in Hin. by apply not_elem_of_nil in Hin.
  - destruct H' as [Hin _]. rewrite <- Hl, H in Hin. by apply not_elem_of_nil in Hin.
  - done.
Qed.

(** No overflow. With the profile fields at their machine widths and fewer
    than 2^62 / 100 affinity labels, every score an eligible candidate gets
    is strictly between [i64::MIN], which marks the rejected, and [i64::MAX]. *)
Theorem placement_scores_fit request c :
  profile_fits c → (Z.of_nat (size (req_affinity request)) * 100 ≤ 4611686018427387904)%Z →
  rejection (evaluate_candidate request c) = None →
  (i64_min < score (evaluate_candidate request c) ≤ i64_max)%Z.
Proof.
  intros Hp Ha. unfold evaluate_candidate. destruct (rejection_reason request c); [done|].
  intros _. by apply candidate_score_fits.
Qed.

(** ** Witnesses *)

Module Demo.
Definition request : PlacementRequest :=
  {| capability := "doc.read"; service_id := "doc"; req_runtime_mode := Cluster;
     requires_write := true; requires_leader := false; req_workload := Compute;
     req_affinity := {["eu"]};
     req_resources := {| req_cpu_cores := Some 4; req_memory_bytes := None; req_gpu_count := 0 |} |}.
Definition core (id : string) (load : N) : PlacementCandidate :=
  {| core_id := id; runtime_mode := Cluster; operational_mode := ReadWrite; health := Healthy;
     current_load := load; leader_services := ∅;
     profile := {| role := GeneralPurpose; profile_service := "docs"; capabilities := {["doc.read"]};
                  leadership := {| leadership_service := "docs"; leadership_mode := Disabled;
                                   lease_duration_ms := 0 |};
                   resources := {| cpu_cores := Some 8; memory_bytes := None; gpu_count := 0 |};
                   scheduling := {| weight := 10; priority := 1; max_concurrency := 8;
                                    available := true; workload := Compute;
                                    affinity := {["eu"]} |} |} |}.
End Demo.

Example demo_selects :
  selected_core_id (select Demo.request [Demo.core "b" 1; Demo.core "c" 5; Demo.core "a" 1]) = Some "a"%string.
Proof. vm_compute. reflexivity. Qed.

Lemma placement_ignores_order_witness :
  selected_core_id (select Demo.request [Demo.core "b" 1; Demo.core "a" 1]) = Some "a"%string.
Proof.
  rewrite (placement_ignores_order Demo.request [Demo.core "b" 1; Demo.core "a" 1]
             [Demo.core "a" 1; Demo.core "b" 1]); [vm_compute; reflexivity|apply Permutation_swap].
Defined.

Lemma placement_scores_fit_witness :
  (i64_min < score (evaluate_candidate Demo.request (Demo.core "a" 1)) ≤ i64_max)%Z.
Proof.
  apply (placement_scores_fit Demo.request (Demo.core "a" 1));
    [split; [vm_compute; discriminate|simpl; lia|vm_compute; discriminate]
    |vm_compute; discriminate|vm_compute; reflexivity].
Defined.
