(* ===== verification/ServiceModel.v ===== *)
(** Managed services as the supervisor sees them:
    [crates/appcore-supervisor/src/service.rs], [health.rs], [policy.rs],
    [error.rs], [events.rs] and [snapshot.rs].

    A managed service itself is code outside the supervisor: the class
    [ManagedServices] is the trait [ManagedService], whose methods act on a
    world that the supervisor only sees through their answers. *)

From S2P Require Import Prelude.
From S2P Require Import Types.
From S2P Require Import Timing.

Local Open Scope N_scope.

Inductive SupervisorError :=
| InvalidConfiguration (message : string)
| ServiceAlreadyRegistered (service : string)
| ServiceNotFound (service : string)
| DependencyNotFound (service dependency : string)
| DependencyCycle (path : list string)
| DependencyUnavailable (service dependency : string)
| ServiceFailure (service reason : string)
| ShutdownTimeout (service : string)
| ServiceOrphanedError (service : string)
| RestartBudgetExceeded (service : string)
| RestartQueueFull
| RestartExecutorStopped
| StatePoisoned.
#[export] Instance SupervisorError_eq_dec : EqDecision SupervisorError.
Proof. solve_decision. Defined.
Abbreviation SupervisorResult := (result SupervisorError).

(** ** Health and execution states *)

Inductive ServiceHealth := Ready | Healthy | Degraded | Failed | StartingUp | ShuttingDown | Unknown.
#[export] Instance ServiceHealth_eq_dec : EqDecision ServiceHealth.
Proof. solve_decision. Defined.

Definition dependency_ready (h : ServiceHealth) : bool :=
  match h with Ready | Healthy | Degraded => true | _ => false end.
Definition is_failed (h : ServiceHealth) : bool := bool_decide (h = Failed).

Inductive ServiceActivationState := Enabled | Disabled | NotConfigured.
#[export] Instance ServiceActivationState_eq_dec : EqDecision ServiceActivationState.
Proof. solve_decision. Defined.
Definition is_enabled (a : ServiceActivationState) : bool := bool_decide (a = Enabled).
Definition is_configured (a : ServiceActivationState) : bool := negb (bool_decide (a = NotConfigured)).

Inductive ServiceRuntimeState :=
| Starting | Running | StopRequested | Stopping | Stopped | RestartScheduled | Restarting
| Orphaned | Quarantined | RuntimeFailed.
#[export] Instance ServiceRuntimeState_eq_dec : EqDecision ServiceRuntimeState.
Proof. solve_decision. Defined.
Definition owns_resource (s : ServiceRuntimeState) : bool :=
  match s with
  | Starting | Running | StopRequested | Stopping | Restarting | Orphaned => true
  | _ => false
  end.

Inductive DependencyRequirement := NeedReady | NeedHealthy | DegradedAllowed | Optional.
#[export] Instance DependencyRequirement_eq_dec : EqDecision DependencyRequirement.
Proof. solve_decision. Defined.
Definition accepts (r : DependencyRequirement) (h : ServiceHealth) : bool :=
  match r with
  | NeedReady => match h with Ready | Healthy => true | _ => false end
  | NeedHealthy => bool_decide (h = Healthy)
  | DegradedAllowed => dependency_ready h
  | Optional => true
  end.

(** ** Policies *)

Inductive RestartMode := Never | OnFailure | Always.
#[export] Instance RestartMode_eq_dec : EqDecision RestartMode.
Proof. solve_decision. Defined.

Record RestartPolicy := {
  mode : RestartMode;
  restart_budget : N;
  restart_window : duration;
  backoff : duration;
  jitter : duration;
  shutdown_timeout : duration;
}.

Definition policy_validate (p : RestartPolicy) : SupervisorResult () :=
  if negb (bool_decide (mode p = Never)) && ((restart_budget p =? 0) || (restart_window p =? 0)) then
    Err (InvalidConfiguration "automatic restart requires a non-zero budget and window")
  else if shutdown_timeout p =? 0 then
    Err (InvalidConfiguration "shutdown_timeout must be greater than zero")
  else Ok ().

Definition secs (n : N) : duration := n * 1000000000.
Definition policy_never : RestartPolicy :=
  {| mode := Never; restart_budget := 0; restart_window := secs 600; backoff := 0; jitter := 0;
     shutdown_timeout := secs 10 |}.
Definition policy_default : RestartPolicy :=
  {| mode := OnFailure; restart_budget := 5; restart_window := secs 600;
     backoff := from_millis 100; jitter := from_millis 50; shutdown_timeout := secs 10 |}.
Definition policy_bounded (budget : N) (window : duration) : SupervisorResult RestartPolicy :=
  let p := {| mode := OnFailure; restart_budget := budget; restart_window := window;
              backoff := from_millis 100; jitter := from_millis 50; shutdown_timeout := secs 10 |} in
  _ ← policy_validate p; Ok p.

(** ** Descriptors *)

Record ServiceDependency := {
  dep_id : string;
  requirement : DependencyRequirement;
}.

Record ServiceDescriptor := {
  name : string;
  dependencies : list ServiceDependency;
  restart_policy : RestartPolicy;
  activation : ServiceActivationState;
  critical : bool;
}.

Definition name_byte (c : ascii) : bool :=
  is_ascii_alphanumeric c || bool_decide (c ∈ ["."%char; "-"%char; "_"%char]).

Definition validate_name (s : string) : SupervisorResult () :=
  if bool_decide (s = "") || (128 <? str_len s) || negb (str_all name_byte s) then
    Err (InvalidConfiguration "service name is invalid")
  else Ok ().

Definition dependency_new (id : string) (r : DependencyRequirement) :
    SupervisorResult ServiceDependency :=
  _ ← validate_name id; Ok {| dep_id := id; requirement := r |}.

Definition descriptor_validate (d : ServiceDescriptor) : SupervisorResult () :=
  _ ← validate_name (name d); policy_validate (restart_policy d).

Definition descriptor_new (n : string) (p : RestartPolicy) : SupervisorResult ServiceDescriptor :=
  let d := {| name := n; dependencies := []; restart_policy := p; activation := Enabled;
              critical := true |} in
  _ ← descriptor_validate d; Ok d.

Definition dep_le (a b : ServiceDependency) : Prop := String.le (dep_id a) (dep_id b).
#[export] Instance dep_le_dec : RelDecision dep_le.
Proof. intros a b. unfold dep_le. apply _. Defined.

Definition add_dependency (d : ServiceDescriptor) (dep : ServiceDependency) :
    SupervisorResult ServiceDescriptor :=
  if bool_decide (dep_id dep = name d) then
    Err (InvalidConfiguration "a service cannot depend on itself")
  else if existsb (λ c, bool_decide (dep_id c = dep_id dep)) (dependencies d) then Ok d
  else Ok {| name := name d; dependencies := merge_sort dep_le (dependencies d ++ [dep]);
             restart_policy := restart_policy d; activation := activation d;
             critical := critical d |}.

(** ** The service boundary *)

(** [trait ManagedService], for the services registered under each name; the
    answers may depend on, and change, anything outside the supervisor. *)
Class ManagedServices (W : Type) := {
  svc_start : string → W → SupervisorResult () * W;
  svc_stop : string → duration → W → SupervisorResult () * W;
  svc_health : string → W → ServiceHealth * W;
  svc_runtime_state : string → W → ServiceRuntimeState * W;
}.

(** The trait's default [runtime_state]. *)
Definition default_runtime_state (h : ServiceHealth) : ServiceRuntimeState :=
  match h with
  | StartingUp => Starting
  | Ready | Healthy | Degraded => Running
  | ShuttingDown => Stopping
  | Failed => RuntimeFailed
  | Unknown => Stopped
  end.

(** ** Events *)

Inductive SupervisorEventKind :=
| ServiceStarted | ServiceStopped | ServiceRestartScheduled | ServiceRestarted | ServiceFailed
| ServiceRecovered | ServiceOrphaned | RestartBudgetExceededEvent | ServiceQuarantined
| SupervisorProgressed | SupervisorStalled | SupervisorRecovered.
#[export] Instance SupervisorEventKind_eq_dec : EqDecision SupervisorEventKind.
Proof. solve_decision. Defined.

(** [trace_id] is the number in ["supervisor-{n}"]. *)
Record SupervisorEvent := {
  ev_service : string;
  ev_kind : SupervisorEventKind;
  ev_timestamp_ms : N;
  ev_attempt : N;
  ev_reason : string;
  ev_previous_state : string;
  ev_new_state : string;
  ev_trace : N;
}.

Definition health_name (h : ServiceHealth) : string :=
  match h with
  | Ready => "Ready" | Healthy => "Healthy" | Degraded => "Degraded" | Failed => "Failed"
  | StartingUp => "Starting" | ShuttingDown => "Stopping" | Unknown => "Unknown"
  end.
Definition states (previous : option ServiceHealth) (next : ServiceHealth) : string * string :=
  (match previous with Some h => health_name h | None => "Unknown"%string end, health_name next).

(** ** Lemmas *)

#[export] Instance dep_le_total : Total dep_le.
Proof. intros a b. apply (total String.le). Qed.
#[export] Instance dep_le_trans : Transitive dep_le.
Proof. intros a b c. unfold dep_le. apply transitivity. Qed.

(** Descriptors built by the constructors name each dependency once and not
    themselves. *)
Record descriptor_ok (d : ServiceDescriptor) : Prop := {
  dok_nodup : NoDup (dep_id <$> dependencies d);
  dok_self : name d ∉ (dep_id <$> dependencies d);
}.

Lemma descriptor_new_ok n p d : descriptor_new n p = Ok d → descriptor_ok d.
Proof.
  unfold descriptor_new. destruct (descriptor_validate _); simpl; [|done]. intros [= <-].
  split; simpl; [constructor|apply not_elem_of_nil].
Qed.

Lemma add_dependency_ok d dep d' :
  descriptor_ok d → add_dependency d dep = Ok d' → descriptor_ok d'.
Proof.
  intros [Hn Hs]. unfold add_dependency. case_bool_decide as Hself; [done|].
  destruct (existsb _ _) eqn:He; intros [= <-]; [by split|].
  assert (Hnew : dep_id dep ∉ (dep_id <$> dependencies d)).
  { intros (c & Hc & Hin)%list_elem_of_fmap. apply not_true_iff_false in He. apply He.
    apply existsb_exists. exists c. split; [by apply list_elem_of_In|].
    apply bool_decide_eq_true. congruence. }
  split; simpl; rewrite merge_sort_Permutation, fmap_app; simpl.
  - apply NoDup_app. split_and!; [done| |apply NoDup_singleton].
    intros x Hx Hx'. apply list_elem_of_singleton in Hx' as ->. done.
  - rewrite elem_of_app, list_elem_of_singleton. intros [?|?]; [done|by apply Hself].
Qed.
