(* ===== verification/ServiceGraph.v ===== *)
(** The dependency graph of the registered services:
    [crates/appcore-supervisor/src/graph.rs].

    [visit] is a depth-first search over mutable sets; here they are the state
    of an [op]. The recursion has fuel: the number of services is enough,
    because every level adds a service to [temporary]. *)

From S2P Require Import Prelude.
From S2P Require Import ServiceModel.

Abbreviation Services := (gmap string ServiceDescriptor).

(** The body of the inner loop of [validate_dependencies]. *)
Definition check_dependency (services : Services) (n : string) (dep : ServiceDependency) :
    op () SupervisorError () :=
  if bool_decide (services !! dep_id dep = None) && negb (bool_decide (requirement dep = Optional))
  then op_fail (DependencyNotFound n (dep_id dep))
  else mret ().

Definition check_service (services : Services) (nd : string * ServiceDescriptor) :
    op () SupervisorError () :=
  op_iter (check_dependency services nd.1) (dependencies nd.2).

Definition validate_dependencies (services : Services) : SupervisorResult () :=
  (op_iter (check_service services) (btree_iter services) ()).1.

(** The locals of [topological_order]; [path] is fresh at each root. *)
Record Dfs := {
  temporary : gset string;
  permanent : gset string;
  order : list string;
  path : list string;
}.

Fixpoint visit (fuel : nat) (services : Services) (n : string) : op Dfs SupervisorError () :=
  match fuel with
  | 0 => op_fail StatePoisoned
  | S fuel' =>
    s ← op_get;
    if bool_decide (n ∈ permanent s) then mret ()
    else if bool_decide (n ∈ temporary s) then op_fail (DependencyCycle (path s ++ [n]))
    else
      _ ← op_modify (λ s, {| temporary := {[n]} ∪ temporary s; permanent := permanent s;
                             order := order s; path := path s ++ [n] |});
      service ← op_lift (ok_or (ServiceNotFound n) (services !! n));
      _ ← op_iter (λ dep,
            if bool_decide (is_Some (services !! dep_id dep)) then visit fuel' services (dep_id dep)
            else mret ()) (dependencies service);
      op_modify (λ s, {| temporary := temporary s ∖ {[n]}; permanent := {[n]} ∪ permanent s;
                         order := order s ++ [n]; path := removelast (path s) |})
  end.

Definition topological_order (services : Services) : SupervisorResult (list string) :=
  let '(r, s) :=
    op_iter (λ n, _ ← op_modify (λ s, {| temporary := temporary s; permanent := permanent s;
                                         order := order s; path := [] |});
                  visit (S (size services)) services n)
      (btree_iter services).*1
      {| temporary := ∅; permanent := ∅; order := []; path := [] |} in
  _ ← r; Ok (order s).

(** [Supervisor::validate]. *)
Definition validate (services : Services) : SupervisorResult (list string) :=
  _ ← validate_dependencies services; topological_order services.

(** ** Edges, chains and cycles *)

Section Graph.
Context (services : Services).

(** [n] declares [d], and [d] is registered. *)
Definition depends (n d : string) : Prop :=
  ∃ s, services !! n = Some s ∧ d ∈ (dep_id <$> dependencies s) ∧ is_Some (services !! d).

(** Each element of the list declares the next one. *)
Fixpoint chain (l : list string) : Prop :=
  match l with
  | x :: ((y :: _) as l') => depends x y ∧ chain l'
  | _ => True
  end.

Definition is_cycle (l : list string) : Prop :=
  chain l ∧ ∃ l0 x, l = l0 ++ [x] ∧ x ∈ l0.

Definition acyclic : Prop := ∀ n, ¬ tc depends n n.

(** Dependencies before dependents. *)
Definition topological (l : list string) : Prop :=
  ∀ l1 n l2, l = l1 ++ n :: l2 → ∀ d, depends n d → d ∈ l1.

Lemma chain_snoc l x y : chain (l ++ [x]) → depends x y → chain ((l ++ [x]) ++ [y]).
Proof.
  induction l as [|z l IH]; simpl; [done|]. destruct (l ++ [x]) as [|w l'] eqn:E; simpl.
  - by destruct l.
  - intros [Hzw Hc] Hxy. split; [done|]. by apply IH.
Qed.
Lemma chain_app_r l k : chain (l ++ k) → chain k.
Proof.
  induction l as [|x l IH]; [done|]. simpl. destruct (l ++ k) eqn:E.
  - apply app_eq_nil in E as [-> ->]. done.
  - intros [_ ?]. by apply IH.
Qed.

Lemma chain_tc x l y : chain (x :: l ++ [y]) → tc depends x y.
Proof.
  revert x. induction l as [|z l IH]; intros x; simpl.
  - intros [? _]. by apply tc_once.
  - intros [Hxz Hc]. eapply tc_l; [done|]. by apply IH.
Qed.

Lemma cycle_not_acyclic l : is_cycle l → ¬ acyclic.
Proof.
  intros [Hc (l0 & x & -> & Hin)] Hac. apply list_elem_of_split in Hin as (l1 & l2 & ->).
  rewrite <- app_assoc in Hc. apply chain_app_r in Hc. apply (Hac x). by apply chain_tc in Hc.
Qed.

(** A topological order of all services excludes cycles. *)
Lemma topological_acyclic l :
  NoDup l → (∀ n, is_Some (services !! n) → n ∈ l) → topological l → acyclic.
Proof.
  intros Hnd Hall Ht n Hcyc.
  assert (Hpos : ∀ x y, tc depends x y → ∀ i, l !! i = Some x → ∃ j, (j < i)%nat ∧ l !! j = Some y).
  { assert (Hone : ∀ x y, depends x y → ∀ i, l !! i = Some x → ∃ j, (j < i)%nat ∧ l !! j = Some y).
    { intros x y Hxy i Hi. apply list_elem_of_split_length in Hi as (l1 & l2 & -> & Hlen).
      assert (y ∈ l1) as Hy by (by eapply Ht). apply list_elem_of_lookup in Hy as [j Hj].
      exists j. split; [apply lookup_lt_Some in Hj; lia|]. by apply lookup_app_l_Some. }
    induction 1 as [x y Hxy|x y z Hxy Hyz IH]; [by apply Hone|].
    intros i Hi. destruct (Hone x y Hxy i Hi) as (j & Hj & Hy).
    destruct (IH j Hy) as (k & Hk & Hz). exists k. split; [lia|done]. }
  assert (is_Some (services !! n)) as Hn.
  { inversion Hcyc as [? ? (s & Hs & _)|? ? ? (s & Hs & _)]; by rewrite Hs. }
  apply Hall, list_elem_of_lookup in Hn as [i Hi].
  destruct (Hpos n n Hcyc i Hi) as (j & Hj & Hn). pose proof (NoDup_lookup l i j n Hnd Hi Hn). lia.
Qed.

(** ** The search *)

Record dfs_ok (s : Dfs) : Prop := {
  dfs_path : temporary s = list_to_set (path s);
  dfs_path_nodup : NoDup (path s);
  dfs_chain : chain (path s);
  dfs_perm : permanent s = list_to_set (order s);
  dfs_order_nodup : NoDup (order s);
  dfs_disjoint : temporary s ## permanent s;
  dfs_known : ∀ n, n ∈ path s ∨ n ∈ order s → is_Some (services !! n);
  dfs_topological : topological (order s);
}.

Lemma topological_snoc l n :
  topological l → (∀ d, depends n d → d ∈ l) → topological (l ++ [n]).
Proof.
  intros Ht Hn l1 x l2 Heq d Hd. destruct l2 as [|y l2 _] using rev_ind.
  - apply app_inj_tail in Heq as [<- <-]. by apply Hn.
  - rewrite app_comm_cons, app_assoc in Heq. apply app_inj_tail in Heq as [-> ->]. by eapply Ht.
Qed.

(** What a visit promises: the search state is restored but for the services
    it completed, or the path is a cycle. *)
Definition visited (n : option string) (s : Dfs) (res : SupervisorResult () * Dfs) : Prop :=
  match res with
  | (Ok _, s') => dfs_ok s' ∧ path s' = path s ∧ order s `prefix_of` order s' ∧
      (∀ m, n = Some m → m ∈ order s')
  | (Err e, _) => ∃ p, e = DependencyCycle p ∧ is_cycle p
  end.

(** [n] may be visited now: it extends the path. *)
Definition may_visit (s : Dfs) (n : string) : Prop :=
  is_Some (services !! n) ∧ ∀ p x, path s = p ++ [x] → depends x n.

Lemma path_size s : dfs_ok s → length (path s) ≤ size services.
Proof.
  intros Hs. rewrite <- (size_dom (D := gset string)).
  rewrite <- (size_list_to_set (C := gset string) (path s)) by apply Hs.
  apply subseteq_size. intros n Hn. apply elem_of_list_to_set in Hn. apply elem_of_dom.
  apply (dfs_known s Hs). by left.
Qed.

(** Visiting a list of dependencies of the service at the end of the path. *)
Lemma visit_list fuel ds s :
  (∀ n s, dfs_ok s → may_visit s n → size services < fuel + length (path s) →
     visited (Some n) s (visit fuel services n s)) →
  dfs_ok s → size services < fuel + length (path s) →
  (∀ dep, dep ∈ ds → is_Some (services !! dep_id dep) → may_visit s (dep_id dep)) →
  let res := op_iter (λ dep,
      if bool_decide (is_Some (services !! dep_id dep)) then visit fuel services (dep_id dep)
      else mret ()) ds s in
  visited None s res ∧
  (∀ s', res = (Ok (), s') → ∀ dep, dep ∈ ds → is_Some (services !! dep_id dep) →
     dep_id dep ∈ order s').
Proof.
  intros Hvisit. revert s. induction ds as [|dep ds IH]; intros s Hs Hfuel Hmay res.
  { subst res. simpl. split; [by split_and!|]. intros s' _ dep Hdep. by apply not_elem_of_nil in Hdep. }
  subst res. cbn [op_iter]. unfold mbind, op_bind. case_bool_decide as Hin.
  - assert (may_visit s (dep_id dep)) as Hm by (apply Hmay; [by left|done]).
    pose proof (Hvisit (dep_id dep) s Hs Hm Hfuel) as Hv.
    destruct (visit fuel services (dep_id dep) s) as [[[]|e] s1]; simpl in Hv.
    + destruct Hv as (Hs1 & Hp1 & Hpre1 & Hn1).
      destruct (IH s1 Hs1) as [Hv2 Hdeps].
      { by rewrite Hp1. }
      { intros d Hd Hsome. unfold may_visit. rewrite Hp1. apply Hmay; [by right|done]. }
      destruct (op_iter _ ds s1) as [[[]|e] s2]; simpl in Hv2 |- *.
      * destruct Hv2 as (Hs2 & Hp2 & Hpre2 & _). split.
        { split_and!; [done|by rewrite Hp2|by etrans|done]. }
        intros s' [= <-] d [->|Hd]%elem_of_cons Hsome; [|by eapply Hdeps].
        eapply elem_of_prefix; [|exact Hpre2]. by apply Hn1.
      * split; [done|done].
    + split; [done|done].
  - destruct (IH s Hs Hfuel) as [Hv2 Hdeps]; [intros d Hd; apply Hmay; by right|].
    simpl. split; [exact Hv2|]. intros s' Hres d [->|Hd]%elem_of_cons Hsome; [done|by eapply Hdeps].
Qed.

(** Entering [n] and leaving it again. *)
Lemma enter_ok s n :
  dfs_ok s → may_visit s n → n ∉ temporary s → n ∉ permanent s →
  dfs_ok {| temporary := {[n]} ∪ temporary s; permanent := permanent s;
            order := order s; path := path s ++ [n] |}.
Proof.
  intros [H1 H2 H3 H4 H5 H6 H7 H8] [Hn Hm] Ht Hp. split; simpl; try done.
  - rewrite list_to_set_app_L, H1. set_solver.
  - apply NoDup_app. split_and!; [done| |apply NoDup_singleton].
    intros x Hx Hx'. apply list_elem_of_singleton in Hx' as ->. apply Ht. rewrite H1.
    by apply elem_of_list_to_set.
  - destruct (path s) as [|x p _] eqn:E using rev_ind; [done|]. apply chain_snoc; [done|].
    by eapply Hm.
  - set_solver.
  - intros m. rewrite elem_of_app, list_elem_of_singleton. naive_solver.
Qed.

Lemma leave_ok s n p :
  dfs_ok s → path s = p ++ [n] → (∀ d, depends n d → d ∈ order s) →
  dfs_ok {| temporary := temporary s ∖ {[n]}; permanent := {[n]} ∪ permanent s;
            order := order s ++ [n]; path := removelast (path s) |}.
Proof.
  intros [H1 H2 H3 H4 H5 H6 H7 H8] Hp Hd. rewrite Hp in *.
  apply NoDup_app in H2 as (Hp2 & Hdis & _).
  assert (Hn : n ∉ p) by (intros Hin; by apply (Hdis n Hin), list_elem_of_singleton).
  assert (Hno : n ∉ order s).
  { intros Hin. apply (H6 n); [rewrite H1, list_to_set_app_L; set_solver|].
    rewrite H4. by apply elem_of_list_to_set. }
  split; simpl; rewrite ?removelast_last.
  - assert (n ∉ (list_to_set p : gset string)) by (by rewrite elem_of_list_to_set).
    rewrite H1, list_to_set_app_L. set_solver.
  - done.
  - assert (Hpre : ∀ l x, chain (l ++ [x]) → chain l); [|by eapply Hpre].
    intros l x. induction l as [|y l IH]; [done|]. simpl. destruct l as [|z l]; [done|].
    intros [? Hc]. split; [done|]. by apply IH.
  - rewrite list_to_set_app_L, H4. set_solver.
  - apply NoDup_app. split_and!; [done| |apply NoDup_singleton].
    intros x Hx Hx'. by apply list_elem_of_singleton in Hx' as ->.
  - rewrite H1, list_to_set_app_L in *. set_solver.
  - intros m [Hin|Hin].
    + apply H7. left. apply elem_of_app. by left.
    + apply elem_of_app in Hin as [Hin|Hin]; apply H7; [by right|left].
      apply list_elem_of_singleton in Hin as ->. apply elem_of_app. right. by left.
  - by apply topological_snoc.
Qed.

Lemma visit_spec fuel n s :
  dfs_ok s → may_visit s n → size services < fuel + length (path s) →
  visited (Some n) s (visit fuel services n s).
Proof.
  revert n s. induction fuel as [|fuel IH]; intros n s Hs Hm Hfuel.
  { pose proof (path_size s Hs). lia. }
  cbn [visit]. autorewrite with op. case_bool_decide as Hperm.
  { split_and!; [done..|]. intros m [= <-]. rewrite (dfs_perm s Hs) in Hperm.
    by apply elem_of_list_to_set in Hperm. }
  case_bool_decide as Htemp.
  { exists (path s ++ [n]). split; [done|]. rewrite (dfs_path s Hs) in Htemp.
    apply elem_of_list_to_set in Htemp. split.
    - destruct Hm as [_ Hm]. pose proof (dfs_chain s Hs) as Hc.
      destruct (path s) as [|x p _] eqn:E using rev_ind; [by apply not_elem_of_nil in Htemp|].
      apply chain_snoc; [done|]. by eapply Hm.
    - by exists (path s), n. }
  autorewrite with op. pose proof (enter_ok s n Hs Hm Htemp Hperm) as Hs1.
  set (s1 := {| path := path s ++ [n] |}) in *.
  destruct Hm as [[sv Hsv] _]. rewrite Hsv. cbn [ok_or]. autorewrite with op.
  destruct (visit_list fuel (dependencies sv) s1 IH Hs1) as [Hv Hdeps].
  { subst s1. simpl. rewrite length_app. simpl. lia. }
  { intros dep Hdep Hsome. split; [done|]. intros p x Hp. subst s1. simpl in Hp.
    apply app_inj_tail in Hp as [_ <-]. exists sv. split_and!; [done| |done].
    by apply list_elem_of_fmap_2. }
  unfold mbind at 1, op_bind at 1.
  destruct (op_iter _ (dependencies sv) s1) as [[[]|e] s2]; [|exact Hv].
  destruct Hv as (Hs2 & Hp2 & Hpre & _). unfold op_modify. simpl.
  assert (Hleave := leave_ok s2 n (path s) Hs2 Hp2). split_and!.
  - apply Hleave. intros d (sv' & Hsv' & Hd & Hsome). rewrite Hsv in Hsv'. injection Hsv' as <-.
    apply list_elem_of_fmap in Hd as (dep & -> & Hdep). by eapply Hdeps.
  - rewrite Hp2. subst s1. simpl. by rewrite removelast_last.
  - etrans; [exact Hpre|]. by apply prefix_app_r.
  - intros m [= <-]. apply elem_of_app. right. by left.
Qed.

(** The loop over the roots. *)
Lemma visit_roots roots s :
  dfs_ok s → path s = [] → (∀ n, n ∈ roots → is_Some (services !! n)) →
  match op_iter (λ n, _ ← op_modify (λ s, {| temporary := temporary s; permanent := permanent s;
                                             order := order s; path := [] |});
                      visit (S (size services)) services n) roots s with
  | (Ok _, s') => dfs_ok s' ∧ order s `prefix_of` order s' ∧ ∀ n, n ∈ roots → n ∈ order s'
  | (Err e, _) => ∃ p, e = DependencyCycle p ∧ is_cycle p
  end.
Proof.
  revert s. induction roots as [|n roots IH]; intros s Hs Hp Hroots.
  { simpl. split_and!; [done..|]. by intros ? ?%not_elem_of_nil. }
  cbn [op_iter]. unfold mbind at 1, op_bind at 1. autorewrite with op.
  assert ({| temporary := temporary s; permanent := permanent s; order := order s; path := [] |} = s)
    as Hsame by (destruct s; simpl in Hp; by rewrite Hp).
  rewrite Hsame.
  assert (Hv : visited (Some n) s (visit (S (size services)) services n s)).
  { apply visit_spec; [done| |lia]. split; [apply Hroots; by left|].
    intros p x Hpx. rewrite Hp in Hpx. by destruct p. }
  destruct (visit _ services n s) as [[[]|e] s1]; [|exact Hv].
  destruct Hv as (Hs1 & Hp1 & Hpre & Hn). rewrite Hp in Hp1.
  specialize (IH s1 Hs1 Hp1). destruct (op_iter _ roots s1) as [[[]|e] s2].
  - destruct IH as (Hs2 & Hpre2 & Hall); [intros m Hm; apply Hroots; by right|].
    split_and!; [done|by etrans|]. intros m [->|Hm]%elem_of_cons; [|by apply Hall].
    eapply elem_of_prefix; [|exact Hpre2]. by apply Hn.
  - apply IH. intros m Hm; apply Hroots; by right.
Qed.

Lemma topological_order_cases :
  match topological_order services with
  | Ok l => NoDup l ∧ (∀ n, n ∈ l ↔ is_Some (services !! n)) ∧ topological l
  | Err e => ∃ p, e = DependencyCycle p ∧ is_cycle p
  end.
Proof.
  unfold topological_order.
  assert (Hroots : ∀ n, n ∈ (btree_iter services).*1 ↔ is_Some (services !! n)).
  { intros n. rewrite list_elem_of_fmap. split.
    - intros ([k d] & -> & Hin). rewrite btree_iter_elem in Hin. by eexists.
    - intros [d Hd]. exists (n, d). split; [done|]. by rewrite btree_iter_elem. }
  set (s0 := {| temporary := ∅; permanent := ∅; order := []; path := [] |}).
  assert (Hs0 : dfs_ok s0).
  { split; simpl; try done; try constructor.
    - by intros n [?%not_elem_of_nil|?%not_elem_of_nil].
    - by intros [|] n l2 ?. }
  pose proof (visit_roots (btree_iter services).*1 s0 Hs0 eq_refl (λ n, proj1 (Hroots n))) as Hv.
  destruct (op_iter _ _ s0) as [[[]|e] s']; simpl; [|exact Hv].
  destruct Hv as ([H1 H2 H3 H4 H5 H6 H7 H8] & _ & Hall). split_and!; [done| |done].
  intros n. split; [intros Hn; apply H7; by right|]. intros Hn. by apply Hall, Hroots.
Qed.

(** Every dependency that is not optional is registered. *)
Definition dependencies_present : Prop :=
  ∀ n sv dep, services !! n = Some sv → dep ∈ dependencies sv → requirement dep ≠ Optional →
    is_Some (services !! dep_id dep).

Definition missing (n d : string) : Prop :=
  ∃ sv dep, services !! n = Some sv ∧ dep ∈ dependencies sv ∧ dep_id dep = d ∧
    requirement dep ≠ Optional ∧ services !! d = None.

(** A loop of checks stops at the first that fails. *)
Lemma op_iter_checks {A} (check : A → op () SupervisorError ()) l :
  (∀ a, (check a ()).1 = Ok () ∨ ∃ e, (check a ()).1 = Err e) →
  ((op_iter check l ()).1 = Ok () ∧ ∀ a, a ∈ l → (check a ()).1 = Ok ()) ∨
  (∃ a e, a ∈ l ∧ (check a ()).1 = Err e ∧ (op_iter check l ()).1 = Err e).
Proof.
  intros Hc. induction l as [|a l IH]; [left; split; [done|by intros ? ?%not_elem_of_nil]|].
  cbn [op_iter]. unfold mbind, op_bind. specialize (Hc a) as Ha.
  destruct (check a ()) as [r []] eqn:E. simpl in Ha. destruct Ha as [->|[e ->]].
  - destruct IH as [[Hl Hall]|(b & e & Hb & Hbe & Hl)].
    + left. split; [done|]. intros b [->|Hb]%elem_of_cons; [by rewrite E|by apply Hall].
    + right. exists b, e. split_and!; [by right|done|done].
  - right. exists a, e. split_and!; [by left|by rewrite E|done].
Qed.

Lemma check_dependencies n sv :
  ((check_service services (n, sv) ()).1 = Ok () ∧
   ∀ dep, dep ∈ dependencies sv → requirement dep ≠ Optional → is_Some (services !! dep_id dep)) ∨
  (∃ dep, dep ∈ dependencies sv ∧ requirement dep ≠ Optional ∧ services !! dep_id dep = None ∧
     (check_service services (n, sv) ()).1 = Err (DependencyNotFound n (dep_id dep))).
Proof.
  unfold check_service. simpl.
  destruct (op_iter_checks (check_dependency services n) (dependencies sv))
    as [[-> Hall]|(dep & e & Hdep & He & ->)].
  - intros dep. unfold check_dependency. case_match; [right; by eexists|by left].
  - left. split; [done|]. intros dep Hdep Hreq. specialize (Hall dep Hdep).
    unfold check_dependency in Hall.
    rewrite (bool_decide_eq_false_2 (requirement dep = Optional)), andb_true_r in Hall by done.
    case_bool_decide as Hnone; [done|]. by apply not_eq_None_Some.
  - right. exists dep. unfold check_dependency in He. case_match eqn:Hc; [|done].
    simpl in He. injection He as <-.
    apply andb_true_iff in Hc as [Hc1 Hc2]. apply bool_decide_eq_true in Hc1.
    by apply negb_true_iff, bool_decide_eq_false in Hc2.
Qed.

Lemma validate_dependencies_cases :
  (validate_dependencies services = Ok () ∧ dependencies_present) ∨
  (∃ n d, validate_dependencies services = Err (DependencyNotFound n d) ∧ missing n d).
Proof.
  unfold validate_dependencies.
  destruct (op_iter_checks (check_service services) (btree_iter services))
    as [[-> Hall]|([n sv] & e & Hin & He & ->)].
  - intros [n sv]. destruct (check_dependencies n sv) as [[-> _]|(dep & _ & _ & _ & ->)]; eauto.
  - left. split; [done|]. intros n sv dep Hn Hdep Hreq. rewrite <- btree_iter_elem in Hn.
    specialize (Hall (n, sv) Hn).
    destruct (check_dependencies n sv) as [[_ Hp]|(dep' & _ & _ & _ & He)]; [by apply Hp|].
    by rewrite He in Hall.
  - right. rewrite btree_iter_elem in Hin.
    destruct (check_dependencies n sv) as [[Hok _]|(dep & Hdep & Hreq & Hnone & Herr)].
    { by rewrite Hok in He. }
    rewrite Herr in He. injection He as <-. exists n, (dep_id dep). split; [done|].
    by exists sv, dep.
Qed.

Lemma validated_order l :
  validate services = Ok l → NoDup l ∧ (∀ n, n ∈ l ↔ is_Some (services !! n)) ∧ topological l.
Proof.
  unfold validate. destruct (validate_dependencies services) as [[]|]; [|done].
  cbn [mbind result_bind]. intros Ht. pose proof topological_order_cases as H. by rewrite Ht in H.
Qed.

(** ** Properties *)

(** C37: Ordering. [validate] either returns every registered service exactly once
    with each service after all its registered dependencies, or names a
    required dependency that is not registered, or gives a path that follows
    declared dependencies and ends at a service it already visited; it never
    runs out of fuel. *)
Theorem validate_orders_services :
  match validate services with
  | Ok l => NoDup l ∧ (∀ n, n ∈ l ↔ is_Some (services !! n)) ∧ topological l ∧ dependencies_present
  | Err (DependencyNotFound n d) => missing n d
  | Err (DependencyCycle p) => dependencies_present ∧ is_cycle p
  | Err _ => False
  end.
Proof.
  unfold validate. destruct validate_dependencies_cases as [[-> Hp]|(n & d & -> & Hm)]; [|exact Hm].
  cbn [mbind result_bind]. pose proof topological_order_cases as Ht.
  destruct (topological_order services) as [l|e].
  - destruct Ht as (? & ? & ?). by split_and!.
  - by destruct Ht as (p & -> & ?).
Qed.

(** Completeness. [validate] succeeds exactly when every required dependency
    is registered and no service depends on itself, directly or not. *)
Theorem validate_succeeds_iff :
  is_ok (validate services) = true ↔ dependencies_present ∧ acyclic.
Proof.
  unfold validate. destruct validate_dependencies_cases as [[-> Hp]|(n & d & -> & sv & dep & Hm)].
  - cbn [mbind result_bind]. pose proof topological_order_cases as Ht.
    destruct (topological_order services) as [l|e].
    + destruct Ht as (Hnd & Hall & Ht). split; [|done]. intros _. split; [done|].
      apply (topological_acyclic l); [done| |done]. intros n. apply Hall.
    + destruct Ht as (p & -> & Hc). split; [done|]. intros [_ Ha]. by apply cycle_not_acyclic in Hc.
  - split; [done|]. intros [Hp _]. destruct Hm as (Hn & Hdep & <- & Hreq & Hnone).
    destruct (Hp n sv dep Hn Hdep Hreq) as [? Hs]. by rewrite Hnone in Hs.
Qed.
End Graph.
