(* ===== verification/Watchdog.v ===== *)
(** The reconciliation watchdog: [crates/appcore-supervisor/src/watchdog.rs].

    Its fields are atomics shared by the reconciling thread, the watching
    thread and whoever shuts the supervisor down. The operations are first
    functions of the whole state; [step] then splits them into their single
    atomic accesses, so that the interleavings can be studied. *)

From S2P Require Import Prelude.
From S2P Require Import ServiceModel.

Local Open Scope N_scope.

Definition DEFAULT_WATCHDOG_CHECK_INTERVAL_MS : N := 1000.
Definition DEFAULT_WATCHDOG_STALL_TIMEOUT_MS : N := 15000.

Record WatchdogConfig := {
  enabled : bool;
  check_interval_ms : N;
  stall_timeout_ms : N;
}.

Definition config_validate (c : WatchdogConfig) : SupervisorResult WatchdogConfig :=
  if (check_interval_ms c =? 0) || (stall_timeout_ms c =? 0) then
    Err (InvalidConfiguration "watchdog intervals must be greater than zero")
  else if enabled c && (stall_timeout_ms c <=? check_interval_ms c) then
    Err (InvalidConfiguration "watchdog stall timeout must exceed its check interval")
  else Ok c.

Definition config_default : WatchdogConfig :=
  {| enabled := true; check_interval_ms := DEFAULT_WATCHDOG_CHECK_INTERVAL_MS;
     stall_timeout_ms := DEFAULT_WATCHDOG_STALL_TIMEOUT_MS |}.

Module WatchdogState.
Inductive t := Starting | Healthy | Stalled | Failed | Stopping.
#[export] Instance eq_dec : EqDecision t.
Proof. solve_decision. Defined.
End WatchdogState.
#[export] Existing Instance WatchdogState.eq_dec.
Import WatchdogState (Stalled).
Abbreviation WatchdogState := WatchdogState.t.

Definition as_u8 (s : WatchdogState) : N :=
  match s with
  | WatchdogState.Starting => 0
  | WatchdogState.Healthy => 1
  | WatchdogState.Stalled => 2
  | WatchdogState.Failed => 3
  | WatchdogState.Stopping => 4
  end.
Definition from_u8 (value : N) : WatchdogState :=
  match value with
  | 1 => WatchdogState.Healthy
  | 2 => WatchdogState.Stalled
  | 3 => WatchdogState.Failed
  | 4 => WatchdogState.Stopping
  | _ => WatchdogState.Starting
  end.

(** [state_u8] is the [AtomicU8]. *)
Record Watchdog := {
  config : WatchdogConfig;
  created_at_ms : N;
  last_reconcile_at_ms : N;
  reconcile_sequence : N;
  last_progress_at_ms : N;
  state_u8 : N;
}.

Definition from_validated (c : WatchdogConfig) (created : N) : Watchdog :=
  {| config := c; created_at_ms := created; last_reconcile_at_ms := 0; reconcile_sequence := 0;
     last_progress_at_ms := 0; state_u8 := as_u8 WatchdogState.Starting |}.
Definition new (c : WatchdogConfig) (created : N) : SupervisorResult Watchdog :=
  c ← config_validate c; Ok (from_validated c created).

Definition state (w : Watchdog) : WatchdogState := from_u8 (state_u8 w).
Definition set_state (s : WatchdogState) (w : Watchdog) : Watchdog :=
  {| config := config w; created_at_ms := created_at_ms w;
     last_reconcile_at_ms := last_reconcile_at_ms w; reconcile_sequence := reconcile_sequence w;
     last_progress_at_ms := last_progress_at_ms w; state_u8 := as_u8 s |}.

Definition store_reconcile (ts : N) (w : Watchdog) : Watchdog :=
  {| config := config w; created_at_ms := created_at_ms w;
     last_reconcile_at_ms := ts; reconcile_sequence := reconcile_sequence w;
     last_progress_at_ms := last_progress_at_ms w; state_u8 := state_u8 w |}.
Definition store_progress (ts : N) (w : Watchdog) : Watchdog :=
  {| config := config w; created_at_ms := created_at_ms w;
     last_reconcile_at_ms := last_reconcile_at_ms w; reconcile_sequence := reconcile_sequence w;
     last_progress_at_ms := ts; state_u8 := state_u8 w |}.
(** [fetch_add] wraps. *)
Definition bump_sequence (w : Watchdog) : Watchdog :=
  {| config := config w; created_at_ms := created_at_ms w;
     last_reconcile_at_ms := last_reconcile_at_ms w;
     reconcile_sequence := (reconcile_sequence w + 1) mod (u64_max + 1);
     last_progress_at_ms := last_progress_at_ms w; state_u8 := state_u8 w |}.

Definition is_final (s : WatchdogState) : bool :=
  match s with WatchdogState.Stopping | WatchdogState.Failed => true | _ => false end.

Definition record_reconcile_started (ts : N) (w : Watchdog) : Watchdog := store_reconcile ts w.

(** Returns the new sequence. *)
Definition record_reconcile_completed (ts : N) (w : Watchdog) : N * Watchdog :=
  let sequence := sat_add64 (reconcile_sequence w) 1 in
  let w := bump_sequence (store_progress ts (store_reconcile ts w)) in
  (sequence, if is_final (state w) then w else set_state WatchdogState.Healthy w).

Definition stalled_for_ms (ts : N) (w : Watchdog) : N :=
  ts - (if last_progress_at_ms w =? 0 then created_at_ms w else last_progress_at_ms w).

(** The state [evaluate] computes, before it compares. *)
Definition next_state (ts : N) (w : Watchdog) : WatchdogState :=
  if negb (enabled (config w)) then WatchdogState.Healthy
  else if stall_timeout_ms (config w) <? stalled_for_ms ts w then WatchdogState.Stalled
  else if reconcile_sequence w =? 0 then WatchdogState.Starting
  else WatchdogState.Healthy.

Definition evaluate (ts : N) (w : Watchdog) : option (WatchdogState * WatchdogState) * Watchdog :=
  let previous := state w in
  if is_final previous then (None, w)
  else
    let next := next_state ts w in
    if bool_decide (previous = next) then (None, w)
    else (Some (previous, next), set_state next w).

Definition mark_stopping (w : Watchdog) : Watchdog := set_state WatchdogState.Stopping w.
Definition mark_failed (w : Watchdog) : Watchdog := set_state WatchdogState.Failed w.

(** ** Lemmas *)

Lemma from_as_u8 s : from_u8 (as_u8 s) = s.
Proof. by destruct s. Qed.
Lemma state_set_state s w : state (set_state s w) = s.
Proof. apply from_as_u8. Qed.

(** ** Interleaving *)

(** The watching thread inside [evaluate], the reconciling one inside
    [record_reconcile_completed]. *)
Inductive Watcher := Idle | Compared (ts : N) (previous : WatchdogState) | Storing (next : WatchdogState).
Inductive Reconciler := Outside | Progressed (ts : N) | Counted | Allowed.

Record Shared := {
  cell : Watchdog;
  watcher : Watcher;
  reconciler : Reconciler;
}.

Inductive access :=
| WLoad (ts : N)        (** [evaluate] loads the state *)
| WCompute              (** and the counters, and compares *)
| WStore                (** and stores *)
| RStores (ts : N)      (** [record_reconcile_completed] stores the instants *)
| RCount                (** and counts *)
| RLoad                 (** and loads the state *)
| RStore                (** and stores *)
| MarkStopping
| MarkFailed.

Definition access_step (a : access) (s : Shared) : option Shared :=
  let with_watcher p w := Some {| cell := w; watcher := p; reconciler := reconciler s |} in
  let with_reconciler p w := Some {| cell := w; watcher := watcher s; reconciler := p |} in
  match a with
  | WLoad ts =>
    match watcher s with
    | Idle => with_watcher (if is_final (state (cell s)) then Idle
                            else Compared ts (state (cell s))) (cell s)
    | _ => None
    end
  | WCompute =>
    match watcher s with
    | Compared ts previous =>
      let next := next_state ts (cell s) in
      with_watcher (if bool_decide (previous = next) then Idle else Storing next) (cell s)
    | _ => None
    end
  | WStore =>
    match watcher s with
    | Storing next => with_watcher Idle (set_state next (cell s))
    | _ => None
    end
  | RStores ts =>
    match reconciler s with
    | Outside => with_reconciler (Progressed ts) (store_progress ts (store_reconcile ts (cell s)))
    | _ => None
    end
  | RCount =>
    match reconciler s with
    | Progressed _ => with_reconciler Counted (bump_sequence (cell s))
    | _ => None
    end
  | RLoad =>
    match reconciler s with
    | Counted => with_reconciler (if is_final (state (cell s)) then Outside else Allowed) (cell s)
    | _ => None
    end
  | RStore =>
    match reconciler s with
    | Allowed => with_reconciler Outside (set_state WatchdogState.Healthy (cell s))
    | _ => None
    end
  | MarkStopping => Some {| cell := mark_stopping (cell s); watcher := watcher s; reconciler := reconciler s |}
  | MarkFailed => Some {| cell := mark_failed (cell s); watcher := watcher s; reconciler := reconciler s |}
  end.

Fixpoint run_accesses (l : list access) (s : Shared) : option Shared :=
  match l with
  | [] => Some s
  | a :: l' => s' ← access_step a s; run_accesses l' s'
  end.

(** Neither thread is between its check of the state and its store. *)
Definition no_pending_store (s : Shared) : Prop :=
  watcher s = Idle ∧ reconciler s ≠ Allowed.

Lemma access_keeps_final a s s' :
  access_step a s = Some s' → no_pending_store s → is_final (state (cell s)) = true →
  is_final (state (cell s')) = true ∧ no_pending_store s'.
Proof.
  intros Ha [Hw Hr] Hf. unfold no_pending_store. destruct a; simpl in Ha; rewrite ?Hw in Ha; try done;
    try (destruct (reconciler s) eqn:Er; try done); rewrite ?Hf in Ha; simplify_eq/=;
    rewrite ?Hf; by rewrite ?Er.
Qed.

(** ** Properties *)

(** Evaluation. [evaluate] leaves a stopping or failed watchdog alone and
    reports nothing; otherwise the state becomes [Stalled] exactly when the
    watchdog is enabled and more than the stall timeout passed since the last
    completed reconciliation (since creation, before the first), [Starting]
    or [Healthy] otherwise, and a transition is reported exactly when the
    state changed. A completed reconciliation makes the state [Healthy] and
    restarts the count. *)
Theorem evaluate_detects_stall ts w :
  let '(transition, w') := evaluate ts w in
  (is_final (state w) = true → transition = None ∧ w' = w) ∧
  (is_final (state w) = false →
     (state w' = Stalled ↔ enabled (config w) = true ∧ stall_timeout_ms (config w) < stalled_for_ms ts w) ∧
     is_final (state w') = false ∧
     transition = if decide (state w = state w') then None else Some (state w, state w')) ∧
  (let '(n, w2) := record_reconcile_completed ts w in
   state w2 = (if is_final (state w) then state w else WatchdogState.Healthy) ∧
   (0 < ts → stalled_for_ms ts w2 = 0)).
Proof.
  destruct (evaluate ts w) as [transition w'] eqn:He. unfold evaluate in He. split_and!.
  - intros Hf. rewrite Hf in He. by injection He as <- <-.
  - intros Hf. rewrite Hf in He. unfold next_state in He.
    destruct (enabled (config w)) eqn:Hen; simpl in He;
      [destruct (N.ltb_spec (stall_timeout_ms (config w)) (stalled_for_ms ts w));
       [|destruct (reconcile_sequence w =? 0)]|];
      (case_bool_decide as Hs; injection He as <- <-; rewrite ?state_set_state, ?Hs;
       case_decide; split_and!; try done; try (by rewrite Hs in *; congruence);
       split; try done; intros [? ?]; try done; lia).
  - unfold record_reconcile_completed.
    assert (state (bump_sequence (store_progress ts (store_reconcile ts w))) = state w) as -> by done.
    split; [by destruct (is_final (state w)); rewrite ?state_set_state|].
    intros Hts. unfold stalled_for_ms. destruct (is_final (state w)); simpl;
      rewrite (proj2 (N.eqb_neq ts 0)) by lia; lia.
Qed.

(** Finality. Once the watchdog is stopping or failed, and no thread is
    between its check of the state and its store, no interleaving of the
    threads' accesses leaves those two states again. *)
Theorem final_state_is_kept l s s' :
  no_pending_store s → is_final (state (cell s)) = true → run_accesses l s = Some s' →
  is_final (state (cell s')) = true.
Proof.
  revert s. induction l as [|a l IH]; intros s Hn Hf; simpl; [by intros [= <-]|].
  destruct (access_step a s) as [s1|] eqn:Ha; [|done]. simpl.
  destruct (access_keeps_final a s s1 Ha Hn Hf) as [Hf1 Hn1]. by apply IH.
Qed.

(** Lost shutdown. [evaluate] and [record_reconcile_completed] check the
    state and store it in two separate accesses: when [mark_stopping] falls
    between them the stopping state is overwritten, and the watchdog of a
    supervisor that is shutting down reports [Healthy] again. *)
Theorem stopping_can_be_overwritten c created ts :
  let s := {| cell := from_validated c created; watcher := Idle; reconciler := Outside |} in
  ∃ s', run_accesses [RStores ts; RCount; RLoad; MarkStopping; RStore] s = Some s' ∧
    state (cell s') = WatchdogState.Healthy ∧ reconciler s' = Outside.
Proof. eexists. split; [reflexivity|]. by split. Qed.

(** ** Witnesses *)

Lemma final_state_is_kept_witness :
  let s := {| cell := mark_stopping (from_validated config_default 5); watcher := Idle;
              reconciler := Outside |} in
  ∃ s', run_accesses [WLoad 90000; RStores 90000; RCount; RLoad] s = Some s' ∧
    is_final (state (cell s')) = true.
Proof.
  eexists. split; [reflexivity|].
  refine (final_state_is_kept [WLoad 90000; RStores 90000; RCount; RLoad]
    {| cell := mark_stopping (from_validated config_default 5); watcher := Idle;
       reconciler := Outside |} _ _ _ _);
    [split; [reflexivity|discriminate]|reflexivity|reflexivity].
Defined.
