(* ===== verification/RestartExecutor.v ===== *)
(** The bounded restart executor:
    [crates/appcore-supervisor/src/restart_executor.rs].

    The command and completion channels are lists with their bounds; a worker
    thread that holds a command is an element of [busy]. The workers' accesses
    interleave with the calls of the supervisor as [worker_step]s; what a
    service answers to [stop], [start] and [runtime_state] comes from the
    world. The executor keeps both channel ends, so its channels are never
    disconnected. *)

From S2P Require Import Prelude.
From S2P Require Import Timing.
From S2P Require Import ServiceModel.

Local Open Scope N_scope.

Definition DEFAULT_RESTART_QUEUE_CAPACITY : N := 64.
Definition DEFAULT_RESTART_WORKERS : N := 2.

Inductive RestartState :=
| NoRestart
| Scheduled (execute_at_ms : N)
| StoppingOld
| StartingNew
| Backoff
| RestartFailed.
#[export] Instance RestartState_eq_dec : EqDecision RestartState.
Proof. solve_decision. Defined.

(** [service] is identified by its name; [timeout] is its policy's. *)
Record RestartCommand := {
  cmd_service : string;
  cmd_timeout : duration;
  cmd_attempt : N;
}.

Inductive RestartOutcome := RestartedOk | LeftOrphan | RestartError | Cancelled.
#[export] Instance RestartOutcome_eq_dec : EqDecision RestartOutcome.
Proof. solve_decision. Defined.

Record RestartCompletion := {
  done_service : string;
  done_attempt : N;
  done_outcome : RestartOutcome;
}.

(** What a worker holds between [recv] and [decrement_pending]. *)
Inductive BusyWorker :=
| Executing (c : RestartCommand)
| Sending (c : RestartCompletion)
| Decrementing.

Record RestartExecutor := {
  sender_open : bool;
  commands : list RestartCommand;
  busy : list BusyWorker;
  completions : list RestartCompletion;
  cancellation : bool;
  healthy : bool;
  pending : N;
  queue_capacity : N;
  worker_count : N;
}.

Definition new (capacity workers : N) : RestartExecutor :=
  {| sender_open := true; commands := []; busy := []; completions := []; cancellation := false;
     healthy := true; pending := 0; queue_capacity := N.max capacity 1;
     worker_count := N.max workers 1 |}.

Definition completion_capacity (x : RestartExecutor) : N := queue_capacity x + worker_count x.

Definition with_queues (x : RestartExecutor) (cs : list RestartCommand) (b : list BusyWorker)
    (ds : list RestartCompletion) (n : N) : RestartExecutor :=
  {| sender_open := sender_open x; commands := cs; busy := b; completions := ds;
     cancellation := cancellation x; healthy := healthy x; pending := n;
     queue_capacity := queue_capacity x; worker_count := worker_count x |}.

Definition schedule (c : RestartCommand) : op RestartExecutor SupervisorError () := λ x,
  if cancellation x then (Err RestartExecutorStopped, x)
  else if negb (sender_open x) then (Err RestartExecutorStopped, x)
  else if lenN (commands x) <? queue_capacity x then
    (Ok (), with_queues x (commands x ++ [c]) (busy x) (completions x) (pending x + 1))
  else (Err RestartQueueFull, x).

Definition drain_completions (x : RestartExecutor) : list RestartCompletion * RestartExecutor :=
  (completions x, with_queues x (commands x) (busy x) [] (pending x)).

(** [shutdown] up to its wait for the workers, and after it. *)
Definition shutdown_begin (x : RestartExecutor) : RestartExecutor :=
  {| sender_open := false; commands := commands x; busy := busy x; completions := completions x;
     cancellation := true; healthy := healthy x; pending := pending x;
     queue_capacity := queue_capacity x; worker_count := worker_count x |}.
Definition shutdown_end (x : RestartExecutor) : RestartExecutor :=
  {| sender_open := sender_open x; commands := []; busy := busy x; completions := [];
     cancellation := cancellation x; healthy := false; pending := 0;
     queue_capacity := queue_capacity x; worker_count := worker_count x |}.

(** ** Workers *)

Section Workers.
Context {W : Type} `{!ManagedServices W}.

Definition execute_restart (c : RestartCommand) (cancelled : bool) (w : W) : RestartCompletion * W :=
  let finish outcome w :=
    ({| done_service := cmd_service c; done_attempt := cmd_attempt c; done_outcome := outcome |}, w) in
  match svc_stop (cmd_service c) (cmd_timeout c) w with
  | (Err _, w) =>
    let '(rs, w) := svc_runtime_state (cmd_service c) w in
    finish (if bool_decide (rs = Orphaned) then LeftOrphan else RestartError) w
  | (Ok _, w) =>
    if cancelled then finish Cancelled w
    else match svc_start (cmd_service c) w with
         | (Ok _, w) => finish RestartedOk w
         | (Err _, w) => finish RestartError w
         end
  end.

Inductive WorkerEvent :=
| WorkerTake                                (** an idle worker receives a command *)
| WorkerExecute (i : nat) (panicked : bool) (** worker [i] runs it *)
| WorkerSend (i : nat)
| WorkerDecrement (i : nat).

Definition worker_step (e : WorkerEvent) (xw : RestartExecutor * W) : option (RestartExecutor * W) :=
  let '(x, w) := xw in
  match e with
  | WorkerTake =>
    match commands x with
    | c :: cs =>
      if lenN (busy x) <? worker_count x then
        Some (with_queues x cs (busy x ++ [Executing c]) (completions x) (pending x), w)
      else None
    | [] => None
    end
  | WorkerExecute i panicked =>
    match busy x !! i with
    | Some (Executing c) =>
      let '(d, w') :=
        if panicked then
          ({| done_service := cmd_service c; done_attempt := cmd_attempt c;
              done_outcome := RestartError |}, w)
        else execute_restart c (cancellation x) w in
      Some (with_queues x (commands x) (<[i := Sending d]> (busy x)) (completions x) (pending x), w')
    | _ => None
    end
  | WorkerSend i =>
    match busy x !! i with
    | Some (Sending d) =>
      if cancellation x then
        Some (with_queues x (commands x) (<[i := Decrementing]> (busy x)) (completions x) (pending x), w)
      else if lenN (completions x) <? completion_capacity x then
        Some (with_queues x (commands x) (<[i := Decrementing]> (busy x)) (completions x ++ [d])
                (pending x), w)
      else None
    | _ => None
    end
  | WorkerDecrement i =>
    match busy x !! i with
    | Some Decrementing =>
      Some (with_queues x (commands x) (delete i (busy x)) (completions x) (pending x - 1), w)
    | _ => None
    end
  end.

(** A step that cannot happen does nothing. *)
Definition worker_exec (e : WorkerEvent) (xw : RestartExecutor * W) : RestartExecutor * W :=
  default xw (worker_step e xw).
Definition worker_run (es : list WorkerEvent) (xw : RestartExecutor * W) : RestartExecutor * W :=
  foldl (λ xw e, worker_exec e xw) xw es.

(** ** Invariant *)

Record executor_ok (x : RestartExecutor) : Prop := {
  xok_queue : lenN (commands x) ≤ queue_capacity x;
  xok_busy : lenN (busy x) ≤ worker_count x;
  xok_completions : lenN (completions x) ≤ completion_capacity x;
  xok_pending : healthy x = true → pending x = lenN (commands x) + lenN (busy x);
}.

Lemma new_ok capacity workers : executor_ok (new capacity workers).
Proof. split; simpl; lia. Qed.

Lemma schedule_ok c x : executor_ok x → executor_ok (schedule c x).2.
Proof.
  intros [H1 H2 H3 H4]. unfold schedule. destruct (cancellation x); [by split|].
  destruct (sender_open x); [|by split]. simpl.
  destruct (N.ltb_spec (lenN (commands x)) (queue_capacity x)); [|by split].
  split; simpl; rewrite ?length_app; simpl; try done; [lia|]. intros Hh. rewrite H4 by done. lia.
Qed.

Lemma drain_ok x : executor_ok x → executor_ok (drain_completions x).2.
Proof. intros [H1 H2 H3 H4]. split; simpl; try done. lia. Qed.

Lemma shutdown_ok x : executor_ok x → executor_ok (shutdown_begin x) ∧ executor_ok (shutdown_end x).
Proof. intros [H1 H2 H3 H4]. split; split; simpl; try done; lia. Qed.

Lemma worker_step_ok e x w x' w' :
  executor_ok x → worker_step e (x, w) = Some (x', w') → executor_ok x'.
Proof.
  intros [H1 H2 H3 H4]. unfold worker_step. destruct e as [|i p|i|i].
  - destruct (commands x) as [|c cs] eqn:Hc; [done|].
    destruct (N.ltb_spec (lenN (busy x)) (worker_count x)); [|done]. intros [= <- _].
    simpl in *. split; simpl; rewrite ?length_app; simpl; try done; [lia..|].
    intros Hh. rewrite H4 by done. lia.
  - destruct (busy x !! i) as [[c| |]|]; try done.
    destruct (if p then _ else _) as [d w1]. intros [= <- _].
    split; simpl; rewrite ?length_insert; done.
  - destruct (busy x !! i) as [[|d|]|]; try done. destruct (cancellation x).
    + intros [= <- _]. split; simpl; rewrite ?length_insert; done.
    + destruct (N.ltb_spec (lenN (completions x)) (completion_capacity x)); [|done].
      intros [= <- _]. split; simpl; rewrite ?length_insert, ?length_app; simpl; try done.
      unfold completion_capacity in *. simpl. lia.
  - destruct (busy x !! i) as [[| |]|] eqn:Hi; try done. intros [= <- _].
    assert (length (busy x) = S (length (delete i (busy x)))) as Hlen.
    { pose proof (lookup_lt_Some _ _ _ Hi). rewrite length_delete; [lia|by eexists]. }
    split; simpl; try done; [lia|]. intros Hh. rewrite H4 by done. lia.
Qed.

Lemma worker_exec_ok e xw : executor_ok xw.1 → executor_ok (worker_exec e xw).1.
Proof.
  intros Hok. unfold worker_exec. destruct xw as [x w].
  destruct (worker_step e (x, w)) as [[x' w']|] eqn:He; [|done]. by eapply worker_step_ok.
Qed.
Lemma worker_run_ok es xw : executor_ok xw.1 → executor_ok (worker_run es xw).1.
Proof.
  revert xw. induction es as [|e es IH]; intros xw Hok; [done|]. by apply IH, worker_exec_ok.
Qed.

(** Workers never add commands. *)
Lemma worker_exec_commands e xw c :
  c ∈ commands (worker_exec e xw).1 → c ∈ commands xw.1.
Proof.
  destruct xw as [x w]. unfold worker_exec, worker_step. destruct e as [|i p|i|i].
  - destruct (commands x) as [|c' cs] eqn:Hc; [by simpl; rewrite Hc|].
    destruct (_ <? _); simpl; rewrite ?Hc; [intros; by right|done].
  - destruct (busy x !! i) as [[c'| |]|]; try done. by destruct (if p then _ else _).
  - destruct (busy x !! i) as [[|d|]|]; try done. destruct (cancellation x); [done|].
    by destruct (_ <? _).
  - by destruct (busy x !! i) as [[| |]|].
Qed.
Lemma worker_run_commands es xw c : c ∈ commands (worker_run es xw).1 → c ∈ commands xw.1.
Proof.
  revert xw. induction es as [|e es IH]; intros xw; [done|]. simpl.
  intros Hin%IH. by eapply worker_exec_commands.
Qed.
End Workers.
