(* ===== verification/Supervisor.v ===== *)
(** The process-local supervisor:
    [crates/appcore-supervisor/src/supervisor.rs], [supervisor_lifecycle.rs],
    [supervisor_restart.rs] and [supervisor_diagnostics.rs].

    Each method is an operation on the shared state; the methods run one at a
    time, and the restart workers take their steps between them (and inside
    [shutdown], while it waits for them). Poisoned locks are not modelled. *)

From S2P Require Import Prelude.
From S2P Require Import Types.
From S2P Require Import Timing.
From S2P Require Import Watchdog.
From S2P Require Import RestartExecutor.
From S2P Require Import ServiceModel.
From S2P Require Import ServiceGraph.

Local Open Scope N_scope.

Definition DEFAULT_EVENT_CAPACITY : N := 1024.

Record RuntimeRecord := {
  health : option ServiceHealth;
  runtime_state : ServiceRuntimeState;
  restart_state : RestartState;
  restart_times_ms : list N;
  restart_count : N;
  operator_required : bool;
  quarantined : bool;
}.
Definition record_default : RuntimeRecord :=
  {| health := None; runtime_state := Stopped; restart_state := NoRestart; restart_times_ms := [];
     restart_count := 0; operator_required := false; quarantined := false |}.

(** The record with the fields that most writers touch replaced. *)
Definition record_with (r : RuntimeRecord) (h : option ServiceHealth) (rs : ServiceRuntimeState)
    (st : RestartState) : RuntimeRecord :=
  {| health := h; runtime_state := rs; restart_state := st;
     restart_times_ms := restart_times_ms r; restart_count := restart_count r;
     operator_required := operator_required r; quarantined := quarantined r |}.

Definition DURATION_MAX : duration := u64_max * 1000000000 + 999999999.
Definition duration_ms (d : duration) : N := N.min (as_millis d) u64_max.

Section Supervisor.
Context {W : Type} `{!ManagedServices W}.

(** [SupervisorInner]; [world] is everything outside. *)
Record Supervisor := {
  services : Services;
  records : gmap string RuntimeRecord;
  events : list SupervisorEvent;
  event_capacity : N;
  event_sequence : N;
  jitter_state : N;
  watchdog : Watchdog;
  restart_executor : RestartExecutor;
  world : W;
}.

Abbreviation sup A := (op Supervisor SupervisorError A).

Definition assemble (capacity created : N) (wd : Watchdog) (w : W) : Supervisor :=
  {| services := ∅; records := ∅; events := []; event_capacity := N.max capacity 1;
     event_sequence := 0; jitter_state := N.max created 1; watchdog := wd;
     restart_executor :=
       RestartExecutor.new DEFAULT_RESTART_QUEUE_CAPACITY DEFAULT_RESTART_WORKERS;
     world := w |}.

(** ** Field writes *)

Definition with_records (m : gmap string RuntimeRecord) (s : Supervisor) : Supervisor :=
  {| services := services s; records := m; events := events s; event_capacity := event_capacity s;
     event_sequence := event_sequence s; jitter_state := jitter_state s; watchdog := watchdog s;
     restart_executor := restart_executor s; world := world s |}.
Definition with_watchdog (wd : Watchdog) (s : Supervisor) : Supervisor :=
  {| services := services s; records := records s; events := events s;
     event_capacity := event_capacity s; event_sequence := event_sequence s;
     jitter_state := jitter_state s; watchdog := wd;
     restart_executor := restart_executor s; world := world s |}.
Definition with_executor (x : RestartExecutor) (w : W) (s : Supervisor) : Supervisor :=
  {| services := services s; records := records s; events := events s;
     event_capacity := event_capacity s; event_sequence := event_sequence s;
     jitter_state := jitter_state s; watchdog := watchdog s; restart_executor := x; world := w |}.
Definition with_jitter (j : N) (s : Supervisor) : Supervisor :=
  {| services := services s; records := records s; events := events s;
     event_capacity := event_capacity s; event_sequence := event_sequence s;
     jitter_state := j; watchdog := watchdog s; restart_executor := restart_executor s;
     world := world s |}.
Definition with_events (es : list SupervisorEvent) (n : N) (s : Supervisor) : Supervisor :=
  {| services := services s; records := records s; events := es;
     event_capacity := event_capacity s; event_sequence := n;
     jitter_state := jitter_state s; watchdog := watchdog s;
     restart_executor := restart_executor s; world := world s |}.
Definition with_service (n : string) (d : ServiceDescriptor) (s : Supervisor) : Supervisor :=
  {| services := <[n := d]> (services s); records := <[n := record_default]> (records s);
     events := events s; event_capacity := event_capacity s; event_sequence := event_sequence s;
     jitter_state := jitter_state s; watchdog := watchdog s;
     restart_executor := restart_executor s; world := world s |}.

(** A call into a service. *)
Definition ask {A} (f : W → A * W) : sup A := λ s,
  let '(a, w) := f (world s) in (Ok a, with_executor (restart_executor s) w s).
(** The same, for a method that may fail: the failure is a value here. *)
Definition ask_result (f : W → SupervisorResult () * W) : sup (SupervisorResult ()) := ask f.

(** [record_mut] and a write through it. *)
Definition update (n : string) (f : RuntimeRecord → RuntimeRecord) : sup () := λ s,
  match records s !! n with
  | None => (Err (ServiceNotFound n), s)
  | Some r => (Ok (), with_records (<[n := f r]> (records s)) s)
  end.

Definition get_record (n : string) : sup RuntimeRecord :=
  s ← op_get; op_lift (ok_or (ServiceNotFound n) (records s !! n)).

Definition service (n : string) : sup ServiceDescriptor :=
  s ← op_get; op_lift (ok_or (ServiceNotFound n) (services s !! n)).

(** [emit]: the oldest events make room. *)
Definition emit (n : string) (kind : SupervisorEventKind) (ts attempt : N)
    (transition : string * string) (reason : string) : sup () :=
  op_modify (λ s,
    let e := {| ev_service := n; ev_kind := kind; ev_timestamp_ms := ts; ev_attempt := attempt;
                ev_reason := reason; ev_previous_state := transition.1;
                ev_new_state := transition.2; ev_trace := sat_add64 (event_sequence s) 1 |} in
    let room := N.to_nat (event_capacity s - 1) in
    with_events (drop (length (events s) - room) (events s) ++ [e])
      ((event_sequence s + 1) mod (u64_max + 1)) s).

(** Returns the previous health. *)
Definition update_record (n : string) (h : ServiceHealth) (rs : ServiceRuntimeState) :
    sup (option ServiceHealth) :=
  r ← get_record n;
  _ ← update n (λ r, record_with r (Some h) rs (restart_state r));
  mret (health r).

Definition record_health (n : string) : sup (option ServiceHealth) :=
  r ← get_record n; mret (health r).

Definition restart_attempt (n : string) : sup N :=
  s ← op_get; mret (default 0 (restart_count <$> records s !! n)).

Definition jitter_of (maximum : duration) : sup duration :=
  let maximum_ms := duration_ms maximum in
  if maximum_ms =? 0 then mret 0
  else
    s ← op_get;
    let next := xorshift64 (jitter_state s) in
    _ ← op_modify (with_jitter next);
    mret (from_millis (next mod sat_add64 maximum_ms 1)).

(** ** Registration *)

Definition register (d : ServiceDescriptor) : sup () :=
  _ ← op_lift (descriptor_validate d);
  s ← op_get;
  if bool_decide (is_Some (services s !! name d)) then op_fail (ServiceAlreadyRegistered (name d))
  else op_modify (with_service (name d) d).

Definition register_or_replace_inactive (d : ServiceDescriptor) : sup () :=
  _ ← op_lift (descriptor_validate d);
  s ← op_get;
  if match services s !! name d with
     | Some c => is_enabled (activation c)
     | None => false
     end
  then op_fail (ServiceAlreadyRegistered (name d))
  else op_modify (with_service (name d) d).

Definition validate : sup (list string) :=
  s ← op_get; op_lift (ServiceGraph.validate (services s)).

(** ** Dependencies *)

Fixpoint first_unavailable (deps : list ServiceDependency) : sup (option string) :=
  match deps with
  | [] => mret None
  | dep :: deps' =>
    s ← op_get;
    match services s !! dep_id dep with
    | None =>
      if bool_decide (requirement dep = Optional) then first_unavailable deps'
      else op_fail (ServiceNotFound (dep_id dep))
    | Some _ =>
      h ← ask (svc_health (dep_id dep));
      if negb (accepts (requirement dep) h) then mret (Some (dep_id dep))
      else first_unavailable deps'
    end
  end.
Definition first_unavailable_dependency (d : ServiceDescriptor) : sup (option string) :=
  first_unavailable (dependencies d).

Definition require_dependencies (d : ServiceDescriptor) : sup () :=
  o ← first_unavailable_dependency d;
  match o with
  | Some dependency => op_fail (DependencyUnavailable (name d) dependency)
  | None => mret ()
  end.

(** ** Restart scheduling ([supervisor_restart.rs]) *)

Definition restart_is_active (n : string) : sup bool :=
  r ← get_record n;
  mret (quarantined r ||
        match restart_state r with
        | Scheduled _ | StoppingOld | StartingNew | Backoff => true
        | _ => false
        end).

Definition consume_restart_budget (d : ServiceDescriptor) (ts : N) : sup N :=
  let n := name d in
  let policy := restart_policy d in
  let cutoff := ts - duration_ms (restart_window policy) in
  r ← get_record n;
  let recent := filter (λ attempt, cutoff < attempt) (restart_times_ms r) in
  if restart_budget policy <=? lenN recent then
    _ ← update n (λ r, {| health := Some Failed; runtime_state := Quarantined;
                          restart_state := restart_state r; restart_times_ms := recent;
                          restart_count := restart_count r; operator_required := true;
                          quarantined := true |});
    _ ← emit n RestartBudgetExceededEvent ts (restart_count r) ("Failed", "Quarantined")%string
          "restart_budget_exceeded";
    _ ← emit n ServiceQuarantined ts (restart_count r) ("Failed", "Quarantined")%string
          "operator_required";
    op_fail (RestartBudgetExceeded n)
  else
    let count := sat_add64 (restart_count r) 1 in
    _ ← update n (λ r, {| health := health r; runtime_state := runtime_state r;
                          restart_state := restart_state r; restart_times_ms := recent ++ [ts];
                          restart_count := count; operator_required := operator_required r;
                          quarantined := quarantined r |});
    mret count.

Definition schedule_restart (d : ServiceDescriptor) (ts : N) : sup () :=
  let n := name d in
  let policy := restart_policy d in
  if bool_decide (mode policy = Never) then mret ()
  else
    active ← restart_is_active n;
    if (active : bool) then mret ()
    else
      attempt ← consume_restart_budget d ts;
      j ← jitter_of (jitter policy);
      let delay := sat_add DURATION_MAX (backoff policy) j in
      let execute_at_ms := sat_add64 ts (duration_ms delay) in
      _ ← update n (λ r, record_with r (health r) RestartScheduled (Scheduled execute_at_ms));
      emit n ServiceRestartScheduled ts attempt ("Failed", "RestartScheduled")%string "restart_policy".

Definition is_due (ts : N) (r : RuntimeRecord) : bool :=
  match restart_state r with Scheduled at_ms => at_ms <=? ts | _ => false end.

(** One iteration of the loop of [dispatch_due_restarts]. *)
Definition dispatch_one (na : string * N) : sup () :=
  let '(n, attempt) := na in
  d ← service n;
  s ← op_get;
  let c := {| cmd_service := n; cmd_timeout := shutdown_timeout (restart_policy d);
              cmd_attempt := attempt |} in
  match RestartExecutor.schedule c (restart_executor s) with
  | (Ok _, x) =>
    _ ← op_modify (with_executor x (world s));
    update n (λ r, record_with r (health r) Restarting StoppingOld)
  | (Err RestartQueueFull, _) => mret ()
  | (Err e, _) => op_fail e
  end.

Definition dispatch_due_restarts (ts : N) : sup () :=
  s ← op_get;
  let due := filter (λ nr, is_due ts nr.2 = true) (btree_iter (records s)) in
  op_iter dispatch_one ((λ nr, (nr.1, restart_count nr.2)) <$> due).

Definition quarantine_orphan (n : string) (attempt ts : N) : sup () :=
  _ ← update n (λ r, {| health := Some Failed; runtime_state := Orphaned;
                        restart_state := RestartFailed; restart_times_ms := restart_times_ms r;
                        restart_count := restart_count r; operator_required := true;
                        quarantined := true |});
  _ ← emit n ServiceOrphaned ts attempt ("Stopping", "Orphaned")%string "shutdown_timeout";
  emit n ServiceQuarantined ts attempt ("Orphaned", "Quarantined")%string "orphaned_instance".

Definition apply_restart_completion (ts : N) (c : RestartCompletion) : sup () :=
  let n := done_service c in
  _ ← service n;
  match done_outcome c with
  | RestartedOk =>
    h ← ask (svc_health n);
    rs ← ask (svc_runtime_state n);
    _ ← update n (λ r, record_with r (Some h) rs NoRestart);
    emit n ServiceRestarted ts (done_attempt c) ("Restarting"%string, health_name h) "restart_completed"
  | LeftOrphan => quarantine_orphan n (done_attempt c) ts
  | RestartError | Cancelled =>
    rs ← ask (svc_runtime_state n);
    _ ← update n (λ r, record_with r (Some Failed) rs RestartFailed);
    emit n ServiceFailed ts (done_attempt c) ("Restarting", "Failed")%string "restart_failed"
  end.

Definition apply_restart_completions (ts : N) : sup () :=
  s ← op_get;
  let '(l, x) := drain_completions (restart_executor s) in
  _ ← op_modify (with_executor x (world s));
  op_iter (apply_restart_completion ts) l.

(** ** Lifecycle ([supervisor.rs], [supervisor_lifecycle.rs]) *)

Definition start (n : string) (ts : N) : sup () :=
  d ← service n;
  if negb (is_enabled (activation d)) then mret ()
  else
    _ ← require_dependencies d;
    previous ← record_health n;
    res ← ask_result (svc_start n);
    match res with
    | Ok _ =>
      h ← ask (svc_health n);
      rs ← ask (svc_runtime_state n);
      _ ← update_record n h rs;
      emit n ServiceStarted ts 0 (states previous h) "lifecycle_start"
    | Err error =>
      rs ← ask (svc_runtime_state n);
      _ ← update_record n Failed rs;
      _ ← emit n ServiceFailed ts 0 (states previous Failed) "start_failed";
      op_fail error
    end.

(** [now] gives the clock reading at each service's turn. *)
Definition start_all (now : string → N) : sup () :=
  order ← validate;
  op_iter (λ n, d ← service n;
                if is_enabled (activation d) then start n (now n) else mret ()) order.

Definition record_stopped (n : string) (ts : N) : sup () :=
  _ ← update_record n Unknown Stopped;
  attempt ← restart_attempt n;
  emit n ServiceStopped ts attempt ("Running", "Stopped")%string "lifecycle_stop".

Definition record_stop_failure (d : ServiceDescriptor) (ts : N) : sup () :=
  let n := name d in
  rs ← ask (svc_runtime_state n);
  if bool_decide (rs = Orphaned) then
    attempt ← restart_attempt n;
    quarantine_orphan n attempt ts
  else
    rs' ← ask (svc_runtime_state n);
    _ ← update_record n Failed rs';
    mret ().

Definition stop (n : string) (ts : N) : sup () :=
  d ← service n;
  if negb (is_enabled (activation d)) then mret ()
  else
    res ← ask_result (svc_stop n (shutdown_timeout (restart_policy d)));
    match res with
    | Ok _ => record_stopped n ts
    | Err error => _ ← record_stop_failure d ts; op_fail error
    end.

Definition restart (n : string) (ts : N) : sup () :=
  d ← service n;
  _ ← require_dependencies d;
  schedule_restart d ts.

(** The restart of a service found failed; an exhausted budget is not an error. *)
Definition schedule_restart_unless_exhausted (d : ServiceDescriptor) (ts : N) : sup () := λ s,
  match schedule_restart d ts s with
  | (Err (RestartBudgetExceeded _), s') => (Ok (), s')
  | other => other
  end.

Definition reconcile_service (ts : N) (n : string) : sup () :=
  d ← service n;
  if negb (is_enabled (activation d)) then mret ()
  else
    o ← first_unavailable_dependency d;
    match o with
    | Some _ =>
      rs ← ask (svc_runtime_state n);
      _ ← update_record n Degraded rs;
      mret ()
    | None =>
      h ← ask (svc_health n);
      rs ← ask (svc_runtime_state n);
      previous ← update_record n h rs;
      if is_failed h then
        _ ← (if bool_decide (previous = Some Failed) then mret ()
             else
               attempt ← restart_attempt n;
               emit n ServiceFailed ts attempt (states previous h) "health_failed");
        schedule_restart_unless_exhausted d ts
      else if bool_decide (previous = Some Failed ∨ previous = Some Degraded) then
        attempt ← restart_attempt n;
        emit n ServiceRecovered ts attempt (states previous h) "health_recovered"
      else mret ()
    end.

Definition watchdog_name (s : WatchdogState) : string :=
  match s with
  | WatchdogState.Starting => "Starting"
  | WatchdogState.Healthy => "Healthy"
  | WatchdogState.Stalled => "Stalled"
  | WatchdogState.Failed => "Failed"
  | WatchdogState.Stopping => "Stopping"
  end.

Definition reconcile (ts : N) : sup () :=
  _ ← op_modify (λ s, with_watchdog (record_reconcile_started ts (watchdog s)) s);
  _ ← apply_restart_completions ts;
  order ← validate;
  _ ← op_iter (reconcile_service ts) order;
  _ ← dispatch_due_restarts ts;
  s ← op_get;
  let previous := Watchdog.state (watchdog s) in
  let '(sequence, wd) := record_reconcile_completed ts (watchdog s) in
  _ ← op_modify (with_watchdog wd);
  emit "supervisor" SupervisorProgressed ts sequence
    (watchdog_name previous, watchdog_name WatchdogState.Healthy) "reconcile_completed".

(** The transition part of [evaluate_watchdog]. *)
Definition evaluate_watchdog (ts : N) : sup () :=
  s ← op_get;
  let '(transition, wd) := evaluate ts (watchdog s) in
  _ ← op_modify (with_watchdog wd);
  match transition with
  | None => mret ()
  | Some (previous, next) =>
    let kind :=
      match next with
      | WatchdogState.Stalled => SupervisorStalled
      | WatchdogState.Healthy =>
        if bool_decide (previous = WatchdogState.Stalled) then SupervisorRecovered
        else SupervisorProgressed
      | _ => SupervisorProgressed
      end in
    emit "supervisor" kind ts (reconcile_sequence wd)
      (watchdog_name previous, watchdog_name next) "watchdog_evaluation"
  end.

(** One service of the loop of [shutdown]; returns [stop]'s failure. *)
Definition shutdown_one (ts : N) (n : string) : sup (option SupervisorError) :=
  d ← service n;
  if negb (is_enabled (activation d)) then mret None
  else
    res ← ask_result (svc_stop n (shutdown_timeout (restart_policy d)));
    match res with
    | Ok _ => _ ← record_stopped n ts; mret None
    | Err error => _ ← record_stop_failure d ts; mret (Some error)
    end.

Fixpoint shutdown_loop (ts : N) (l : list string) (first_error : option SupervisorError) :
    sup (option SupervisorError) :=
  match l with
  | [] => mret first_error
  | n :: l' =>
    o ← shutdown_one ts n;
    shutdown_loop ts l' (match first_error with Some _ => first_error | None => o end)
  end.

(** [ws]: the steps the workers take while [shutdown] waits for them. *)
Definition shutdown (ws : list WorkerEvent) (ts : N) : sup () :=
  _ ← op_modify (λ s, with_watchdog (mark_stopping (watchdog s)) s);
  s ← op_get;
  let '(x, w) := worker_run ws (shutdown_begin (restart_executor s), world s) in
  _ ← op_modify (with_executor (shutdown_end x) w);
  order ← validate;
  o ← shutdown_loop ts (reverse order) None;
  match o with Some error => op_fail error | None => mret () end.

(** ** Diagnosis *)

Definition critical_service_healthy (s : Supervisor) (n : string) (d : ServiceDescriptor) : bool :=
  let r := records s !! n in
  let h := match r ≫= health with Some h => h | None => (svc_health n (world s)).1 end in
  negb (is_enabled (activation d)) || negb (critical d) ||
  (match h with Ready | Healthy => true | _ => false end &&
   negb (match r with Some r => quarantined r | None => false end)).

Definition critical_services_healthy (s : Supervisor) : bool :=
  forallb (λ nd, critical_service_healthy s nd.1 nd.2) (btree_iter (services s)).

(** The executor's [workers_healthy] is an input. *)
Definition is_healthy (s : Supervisor) (workers_healthy : bool) : bool :=
  is_ok (ServiceGraph.validate (services s)) &&
  (negb (Watchdog.enabled (Watchdog.config (watchdog s))) ||
   bool_decide (Watchdog.state (watchdog s) = WatchdogState.Healthy)) &&
  (RestartExecutor.healthy (restart_executor s) && workers_healthy &&
   negb (cancellation (restart_executor s))) &&
  critical_services_healthy s.

(** ** Calls *)

Inductive call :=
| CRegister (d : ServiceDescriptor)
| CReplace (d : ServiceDescriptor)
| CStart (n : string) (ts : N)
| CStartAll (now : string → N)
| CStop (n : string) (ts : N)
| CRestart (n : string) (ts : N)
| CReconcile (ts : N)
| CEvaluateWatchdog (ts : N)
| CShutdown (ws : list WorkerEvent) (ts : N)
| CWorker (e : WorkerEvent).

Definition run_call (c : call) : sup () :=
  match c with
  | CRegister d => register d
  | CReplace d => register_or_replace_inactive d
  | CStart n ts => start n ts
  | CStartAll now => start_all now
  | CStop n ts => stop n ts
  | CRestart n ts => restart n ts
  | CReconcile ts => reconcile ts
  | CEvaluateWatchdog ts => evaluate_watchdog ts
  | CShutdown ws ts => shutdown ws ts
  | CWorker e =>
    op_modify (λ s, let '(x, w) := worker_exec e (restart_executor s, world s) in with_executor x w s)
  end.

Definition exec (c : call) (s : Supervisor) : Supervisor := (run_call c s).2.
Definition exec_all (cs : list call) (s : Supervisor) : Supervisor := foldl (λ s c, exec c s) s cs.

(** The readings of the clock a call schedules restarts with. *)
Definition schedules_at (c : call) (ts : N) : Prop :=
  match c with
  | CRestart _ t | CReconcile t => t = ts
  | _ => False
  end.

(** ** Transitions

    What the calls do to the records and the executor, as single steps. *)

Definition idle (r : RuntimeRecord) : Prop :=
  restart_state r = NoRestart ∨ restart_state r = RestartFailed.
Definition active (r : RuntimeRecord) : bool :=
  quarantined r ||
  match restart_state r with
  | Scheduled _ | StoppingOld | StartingNew | Backoff => true
  | _ => false
  end.
Definition recent (d : ServiceDescriptor) (ts : N) (r : RuntimeRecord) : list N :=
  filter (λ attempt, ts - duration_ms (restart_window (restart_policy d)) < attempt)
    (restart_times_ms r).

Definition orphaned_record (r : RuntimeRecord) : RuntimeRecord :=
  {| health := Some Failed; runtime_state := Orphaned; restart_state := RestartFailed;
     restart_times_ms := restart_times_ms r; restart_count := restart_count r;
     operator_required := true; quarantined := true |}.
Definition exhausted_record (times : list N) (r : RuntimeRecord) : RuntimeRecord :=
  {| health := Some Failed; runtime_state := Quarantined; restart_state := restart_state r;
     restart_times_ms := times; restart_count := restart_count r;
     operator_required := true; quarantined := true |}.
Definition scheduled_record (times : list N) (ts at_ms : N) (r : RuntimeRecord) : RuntimeRecord :=
  {| health := health r; runtime_state := RestartScheduled; restart_state := Scheduled at_ms;
     restart_times_ms := times ++ [ts]; restart_count := sat_add64 (restart_count r) 1;
     operator_required := operator_required r; quarantined := quarantined r |}.

Definition put (n : string) (r : RuntimeRecord) (s : Supervisor) : Supervisor :=
  with_records (<[n := r]> (records s)) s.

(** [times] are the clock readings restarts may be scheduled with. *)
Inductive transition (times : N → Prop) (s : Supervisor) : Supervisor → Prop :=
| t_frame s' :
    services s' = services s → records s' = records s →
    restart_executor s' = restart_executor s → event_capacity s' = event_capacity s →
    (lenN (events s) ≤ event_capacity s → 1 ≤ event_capacity s →
     lenN (events s') ≤ event_capacity s) →
    transition times s s'
| t_register d :
    descriptor_validate d = Ok () →
    (∀ c, services s !! name d = Some c → is_enabled (activation c) = false) →
    transition times s (with_service (name d) d s)
| t_observe n r h rs :
    records s !! n = Some r →
    transition times s (put n (record_with r h rs (restart_state r)) s)
| t_finish n r h rs st :
    records s !! n = Some r → (st = NoRestart ∨ st = RestartFailed) →
    transition times s (put n (record_with r h rs st) s)
| t_orphan n r :
    records s !! n = Some r →
    transition times s (put n (orphaned_record r) s)
| t_exhaust n d r ts :
    times ts → services s !! n = Some d → records s !! n = Some r → active r = false →
    restart_budget (restart_policy d) ≤ lenN (recent d ts r) →
    transition times s (put n (exhausted_record (recent d ts r) r) s)
| t_schedule n d r ts at_ms :
    times ts → services s !! n = Some d → records s !! n = Some r → active r = false →
    lenN (recent d ts r) < restart_budget (restart_policy d) →
    transition times s (put n (scheduled_record (recent d ts r) ts at_ms r) s)
| t_dispatch n d r ts x :
    services s !! n = Some d → records s !! n = Some r → is_due ts r = true →
    RestartExecutor.schedule
      {| cmd_service := n; cmd_timeout := shutdown_timeout (restart_policy d);
         cmd_attempt := restart_count r |} (restart_executor s) = (Ok (), x) →
    transition times s
      (put n (record_with r (health r) Restarting StoppingOld) (with_executor x (world s) s))
| t_executor x w :
    (executor_ok (restart_executor s) → executor_ok x) →
    (∀ c, c ∈ commands x → c ∈ commands (restart_executor s)) →
    transition times s (with_executor x w s).

(** Descriptors are stored under their names, each with its record. *)
Definition keyed (s : Supervisor) : Prop :=
  dom (records s) = dom (services s) ∧ ∀ n d, services s !! n = Some d → name d = n.

Definition reaches (times : N → Prop) (s0 s : Supervisor) : Prop :=
  rtc (transition times) s0 s ∧ keyed s.

Lemma transition_keyed times s s' : transition times s s' → keyed s → keyed s'.
Proof.
  intros Ht [Hd Hn].
  assert (Hput : ∀ n r r', records s !! n = Some r → dom (<[n := r']> (records s)) = dom (services s)).
  { intros n r r' Hr. rewrite dom_insert_lookup_L; [done|by eexists]. }
  destruct Ht as [s' Hs Hr|d Hv Hc| | | | | | |]; unfold keyed; simpl.
  - by rewrite Hs, Hr.
  - split; [by rewrite !dom_insert_L, Hd|].
    intros n d'. destruct (decide (n = name d)) as [->|Hne].
    + rewrite lookup_insert_eq. by intros [= ->].
    + rewrite lookup_insert_ne by done. apply Hn.
  - split; [by eapply Hput|done].
  - split; [by eapply Hput|done].
  - split; [by eapply Hput|done].
  - split; [by eapply Hput|done].
  - split; [by eapply Hput|done].
  - split; [by eapply Hput|done].
  - done.
Qed.

Lemma reaches_step times s0 s s' : reaches times s0 s → transition times s s' → reaches times s0 s'.
Proof. intros [Hr Hk] Ht. split; [by eapply rtc_r|by eapply transition_keyed]. Qed.

(** *** Evaluation *)

Lemma get_record_bind {B} n r (k : RuntimeRecord → sup B) s :
  records s !! n = Some r → (get_record n ≫= k) s = k r s.
Proof. intros Hr. unfold get_record, mbind, op_bind, op_get, op_lift, ok_or. by rewrite Hr. Qed.
Lemma update_bind {B} n f r (k : () → sup B) s :
  records s !! n = Some r → (update n f ≫= k) s = k () (put n (f r) s).
Proof. intros Hr. unfold update, mbind, op_bind. by rewrite Hr. Qed.
Lemma service_bind {B} n d (k : ServiceDescriptor → sup B) s :
  services s !! n = Some d → (service n ≫= k) s = k d s.
Proof. intros Hr. unfold service, mbind, op_bind, op_get, op_lift, ok_or. by rewrite Hr. Qed.
Lemma restart_is_active_bind {B} n r (k : bool → sup B) s :
  records s !! n = Some r → (restart_is_active n ≫= k) s = k (active r) s.
Proof.
  intros Hr. unfold restart_is_active. rewrite op_bind_assoc, (get_record_bind _ r) by done. done.
Qed.
Lemma put_put n r r' s : put n r' (put n r s) = put n r' s.
Proof. unfold put, with_records. simpl. by rewrite insert_insert_eq. Qed.
Lemma jitter_run {B} maximum (k : duration → sup B) s :
  ∃ j x, (jitter_of maximum ≫= k) s = k j (with_jitter x s).
Proof.
  unfold jitter_of. destruct (_ =? 0).
  - exists 0, (jitter_state s). by destruct s.
  - by do 2 eexists.
Qed.

Definition exhausted_events (n : string) (ts attempt : N) : sup () :=
  _ ← emit n RestartBudgetExceededEvent ts attempt ("Failed", "Quarantined")%string
        "restart_budget_exceeded";
  _ ← emit n ServiceQuarantined ts attempt ("Failed", "Quarantined")%string "operator_required";
  op_fail (RestartBudgetExceeded n).

(** [schedule_restart], evaluated up to its events. *)
Lemma schedule_restart_inactive d ts s r :
  mode (restart_policy d) = Never ∨ active r = true → records s !! name d = Some r →
  schedule_restart d ts s = (Ok (), s).
Proof.
  intros Hm Hr. unfold schedule_restart. case_bool_decide; [done|].
  destruct Hm as [?|Ha]; [done|]. rewrite (restart_is_active_bind _ r) by done. by rewrite Ha.
Qed.
Lemma schedule_restart_exhausted d ts s r :
  mode (restart_policy d) ≠ Never → records s !! name d = Some r → active r = false →
  restart_budget (restart_policy d) ≤ lenN (recent d ts r) →
  schedule_restart d ts s =
  exhausted_events (name d) ts (restart_count r) (put (name d) (exhausted_record (recent d ts r) r) s).
Proof.
  intros Hm Hr Ha Hb. unfold schedule_restart. rewrite bool_decide_eq_false_2 by done.
  rewrite (restart_is_active_bind _ r), Ha by done. unfold consume_restart_budget.
  rewrite op_bind_assoc, (get_record_bind _ r) by done. fold (recent d ts r).
  rewrite (proj2 (N.leb_le _ _) Hb), op_bind_assoc. by rewrite (update_bind _ _ r).
Qed.
Lemma schedule_restart_accepted d ts s r :
  mode (restart_policy d) ≠ Never → records s !! name d = Some r → active r = false →
  lenN (recent d ts r) < restart_budget (restart_policy d) →
  ∃ at_ms x, sat_add64 ts 0 ≤ at_ms ∧
    schedule_restart d ts s =
    emit (name d) ServiceRestartScheduled ts (sat_add64 (restart_count r) 1)
      ("Failed", "RestartScheduled")%string "restart_policy"
      (put (name d) (scheduled_record (recent d ts r) ts at_ms r) (with_jitter x s)).
Proof.
  intros Hm Hr Ha Hb. unfold schedule_restart. rewrite bool_decide_eq_false_2 by done.
  rewrite (restart_is_active_bind _ r), Ha by done. unfold consume_restart_budget.
  rewrite op_bind_assoc, (get_record_bind _ r) by done. fold (recent d ts r).
  rewrite (proj2 (N.leb_gt _ _) Hb), op_bind_assoc, (update_bind _ _ r) by done.
  rewrite op_ret_bind.
  destruct (jitter_run (jitter (restart_policy d))
    (λ j, _ ← update (name d) (λ r, record_with r (health r) RestartScheduled
       (Scheduled (sat_add64 ts (duration_ms (sat_add DURATION_MAX (backoff (restart_policy d)) j)))));
       emit (name d) ServiceRestartScheduled ts (sat_add64 (restart_count r) 1)
         ("Failed", "RestartScheduled")%string "restart_policy")
    (put (name d) {| health := health r; runtime_state := runtime_state r;
                     restart_state := restart_state r; restart_times_ms := recent d ts r ++ [ts];
                     restart_count := sat_add64 (restart_count r) 1;
                     operator_required := operator_required r; quarantined := quarantined r |} s))
    as (j & x & ->).
  eexists _, x. split; cycle 1.
  - erewrite update_bind; [|apply lookup_insert_eq]. f_equal.
    match goal with
    | |- put ?n ?r2 (with_jitter ?x (put ?n ?r1 ?s)) = _ => exact (put_put n r1 r2 (with_jitter x s))
    end.
  - unfold sat_add. lia.
Qed.

(** *** Every call is a sequence of transitions *)

Section Within.
Variables (times : N → Prop) (s0 : Supervisor) (sv : Services).

(** Reachable without a registration. *)
Definition within (s : Supervisor) : Prop := reaches times s0 s ∧ services s = sv.

Lemma within_step s s' : within s → transition times s s' → services s' = services s → within s'.
Proof. intros [Hr Hs] Ht He. split; [by eapply reaches_step|congruence]. Qed.

Lemma within_name s n d : within s → sv !! n = Some d → name d = n.
Proof. intros [[_ [_ Hn]] <-]. apply Hn. Qed.

Lemma keeps_service {B} n (k : ServiceDescriptor → sup B) :
  (∀ d, sv !! n = Some d → name d = n → keeps within (k d)) → keeps within (service n ≫= k).
Proof.
  intros Hk s Hs. unfold service. autorewrite with op.
  unfold mbind, op_bind, op_get, op_lift, ok_or. pose proof (proj2 Hs) as He. rewrite He.
  destruct (sv !! n) as [d|] eqn:Hd; [|done]. apply Hk; [done| |done]. by eapply within_name.
Qed.
Lemma keeps_service_only n : keeps within (service n).
Proof. intros s Hs. exact Hs. Qed.

Lemma keeps_frame f :
  (∀ s, services (f s) = services s ∧ records (f s) = records s ∧
        restart_executor (f s) = restart_executor s ∧ event_capacity (f s) = event_capacity s ∧
        events (f s) = events s) →
  keeps within (op_modify f : sup ()).
Proof.
  intros Hf. apply keeps_modify. intros s Hs. destruct (Hf s) as (H1 & H2 & H3 & H4 & H5).
  eapply within_step; [done| |done]. apply t_frame; try done. by rewrite H5.
Qed.

Lemma keeps_ask {A} (f : W → A * W) : keeps within (ask f).
Proof.
  intros s Hs. unfold ask. destruct (f (world s)) as [a w]. simpl.
  eapply within_step; [done| |done]. by apply t_frame.
Qed.
Lemma keeps_ask_result f : keeps within (ask_result f).
Proof. apply keeps_ask. Qed.

Lemma keeps_emit n k ts a tr rs : keeps within (emit n k ts a tr rs).
Proof.
  apply keeps_modify. intros s Hs. eapply within_step; [done| |done].
  apply t_frame; try done. simpl. intros H1 H2. rewrite length_app, length_drop. simpl. lia.
Qed.

Lemma keeps_get_record n : keeps within (get_record n).
Proof. intros s Hs. exact Hs. Qed.
Lemma keeps_restart_attempt n : keeps within (restart_attempt n).
Proof. intros s Hs. exact Hs. Qed.
Lemma keeps_restart_is_active n : keeps within (restart_is_active n).
Proof.
  unfold restart_is_active. apply keeps_bind; [apply keeps_get_record|]. intros r. apply keeps_ret.
Qed.
Lemma keeps_validate : keeps within validate.
Proof. intros s Hs. exact Hs. Qed.

(** A write by [update] is one transition. *)
Lemma keeps_update n f :
  (∀ s r, within s → records s !! n = Some r → transition times s (put n (f r) s)) →
  keeps within (update n f).
Proof.
  intros Hf s Hs. unfold update. destruct (records s !! n) as [r|] eqn:Hr; [|done].
  eapply within_step; [done|by apply Hf|done].
Qed.
Lemma keeps_finish n h rs st : (st = NoRestart ∨ st = RestartFailed) →
  keeps within (update n (λ r, record_with r h rs st)).
Proof. intros Hst. apply keeps_update. intros s r _ Hr. by apply t_finish. Qed.
Lemma keeps_update_record n h rs : keeps within (update_record n h rs).
Proof.
  unfold update_record. apply keeps_bind; [apply keeps_get_record|]. intros r0.
  apply keeps_bind; [|intros; apply keeps_ret].
  apply keeps_update. intros s r _ Hr. by apply t_observe.
Qed.
Lemma keeps_record_health n : keeps within (record_health n).
Proof. apply keeps_bind; [apply keeps_get_record|]. intros. apply keeps_ret. Qed.
End Within.
#[local] Hint Resolve keeps_service_only keeps_ask keeps_ask_result keeps_emit keeps_get_record
  keeps_restart_attempt keeps_restart_is_active keeps_validate keeps_update_record
  keeps_record_health : keeps.

(** Walks through the binds, branches and known operations of a call. *)
Ltac keep :=
  repeat first
    [ solve [auto with keeps]
    | apply keeps_service; intros ? ? ?
    | apply keeps_bind; [|intros ?]
    | case_match ].

Section Calls.
Variables (times : N → Prop) (s0 : Supervisor) (sv : Services).
Abbreviation inv := (within times s0 sv).

Lemma keeps_first_unavailable deps : keeps inv (first_unavailable deps).
Proof.
  induction deps as [|dep deps IH]; simpl; [apply keeps_ret|].
  apply keeps_get_bind. intros s Hs. revert s Hs.
  assert (Hk : keeps inv (h ← ask (svc_health (dep_id dep));
    if negb (accepts (requirement dep) h) then mret (Some (dep_id dep))
    else first_unavailable deps)) by keep.
  intros s Hs. destruct (services s !! dep_id dep); [by apply Hk|].
  destruct (bool_decide _); [by apply IH|done].
Qed.
#[local] Hint Resolve keeps_first_unavailable : keeps.
Lemma keeps_require_dependencies d : keeps inv (require_dependencies d).
Proof. unfold require_dependencies, first_unavailable_dependency. keep. Qed.
#[local] Hint Resolve keeps_require_dependencies : keeps.

Lemma keeps_quarantine_orphan n a ts : keeps inv (quarantine_orphan n a ts).
Proof.
  unfold quarantine_orphan. apply keeps_bind; [|intros; keep].
  apply keeps_update. intros s r _ Hr. by apply t_orphan.
Qed.
#[local] Hint Resolve keeps_quarantine_orphan : keeps.

Lemma keeps_apply_restart_completion ts c : keeps inv (apply_restart_completion ts c).
Proof.
  unfold apply_restart_completion. keep; apply keeps_finish; auto.
Qed.

Lemma keeps_apply_restart_completions ts : keeps inv (apply_restart_completions ts).
Proof.
  intros s Hs. unfold apply_restart_completions. autorewrite with op. cbn [drain_completions].
  autorewrite with op. apply keeps_iter; [intros; apply keeps_apply_restart_completion|].
  eapply within_step; [done| |done]. apply t_executor; [apply drain_ok|done].
Qed.
#[local] Hint Resolve keeps_apply_restart_completions : keeps.

Lemma keeps_record_stopped n ts : keeps inv (record_stopped n ts).
Proof. unfold record_stopped. keep. Qed.
Lemma keeps_record_stop_failure d ts : keeps inv (record_stop_failure d ts).
Proof. unfold record_stop_failure. keep. Qed.
#[local] Hint Resolve keeps_record_stopped keeps_record_stop_failure : keeps.

Lemma keeps_start n ts : keeps inv (start n ts).
Proof. unfold start. keep. Qed.
Lemma keeps_stop n ts : keeps inv (stop n ts).
Proof. unfold stop. keep. Qed.
#[local] Hint Resolve keeps_start keeps_stop : keeps.
Lemma keeps_start_all now : keeps inv (start_all now).
Proof. unfold start_all. keep. apply keeps_iter. intros. keep. Qed.
#[local] Hint Resolve keeps_start_all : keeps.

Lemma keeps_exhausted_events n ts a : keeps inv (exhausted_events n ts a).
Proof. unfold exhausted_events. keep. Qed.

Lemma keeps_schedule_restart d ts :
  times ts → sv !! name d = Some d → keeps inv (schedule_restart d ts).
Proof.
  intros Hts Hd s Hs. rewrite <- (proj2 Hs) in Hd.
  destruct (records s !! name d) as [r|] eqn:Hr; cycle 1.
  { unfold schedule_restart. destruct (bool_decide _); [done|].
    unfold restart_is_active, get_record, mbind, op_bind, op_get, op_lift, ok_or. by rewrite Hr. }
  destruct (decide (mode (restart_policy d) = Never)) as [Hm|Hm].
  { rewrite (schedule_restart_inactive d ts s r); auto. }
  destruct (active r) eqn:Ha.
  { rewrite (schedule_restart_inactive d ts s r); auto. }
  destruct (N.lt_ge_cases (lenN (recent d ts r)) (restart_budget (restart_policy d))).
  - destruct (schedule_restart_accepted d ts s r) as (at_ms & x & _ & ->); try done.
    apply keeps_emit. apply within_step with (with_jitter x s); [|by eapply t_schedule|done].
    apply within_step with s; [done| |done]. by apply t_frame.
  - rewrite (schedule_restart_exhausted d ts s r) by done. apply keeps_exhausted_events.
    apply within_step with s; [done| |done]. by eapply t_exhaust.
Qed.

Lemma keeps_schedule_unless_exhausted d ts :
  times ts → sv !! name d = Some d → keeps inv (schedule_restart_unless_exhausted d ts).
Proof.
  intros Hts Hd s Hs. unfold schedule_restart_unless_exhausted.
  pose proof (keeps_schedule_restart d ts Hts Hd s Hs) as Hk.
  by destruct (schedule_restart d ts s) as [[?|[]] ?].
Qed.

Lemma keeps_reconcile_service ts n : times ts → keeps inv (reconcile_service ts n).
Proof.
  intros Hts. unfold reconcile_service, first_unavailable_dependency. keep;
    apply keeps_schedule_unless_exhausted; by subst.
Qed.

(** Each scheduled restart is still due when its turn comes. *)
Lemma dispatch_loop ts l s :
  NoDup l.*1 → inv s →
  (∀ n a, (n, a) ∈ l → ∃ r, records s !! n = Some r ∧ is_due ts r = true ∧ a = restart_count r) →
  inv (op_iter dispatch_one l s).2.
Proof.
  revert s. induction l as [|[n a] l IH]; intros s Hn Hs Hl; [done|].
  apply NoDup_cons in Hn as [Hnew Hn]. simpl in Hnew.
  assert (Hrest : ∀ n' a', (n', a') ∈ l → n' ≠ n ∧
    ∃ r, records s !! n' = Some r ∧ is_due ts r = true ∧ a' = restart_count r).
  { intros n' a' Hin. split; [|by apply Hl; right]. intros ->. apply Hnew.
    apply list_elem_of_fmap. by exists (n, a'). }
  destruct (Hl n a) as (r & Hr & Hdue & ->); [by left|].
  change (inv ((dispatch_one (n, restart_count r) ≫= λ _, op_iter dispatch_one l) s).2).
  unfold dispatch_one. rewrite op_bind_assoc.
  destruct (services s !! n) as [d|] eqn:Hd; cycle 1.
  { unfold service, mbind, op_bind, op_get, op_lift, ok_or. by rewrite Hd. }
  rewrite (service_bind _ d), op_bind_assoc by done. autorewrite with op.
  destruct (RestartExecutor.schedule _ _) as [[[]|e] x] eqn:Hx.
  - rewrite op_bind_assoc. autorewrite with op. rewrite (update_bind _ _ r) by done.
    apply IH; [done| |].
    + apply within_step with s; [done| |done]. by eapply t_dispatch.
    + intros n' a' Hin. destruct (Hrest n' a' Hin) as (Hne & r' & ? & ? & ?).
      exists r'. simpl. by rewrite lookup_insert_ne.
  - destruct e; autorewrite with op; try done.
    apply IH; [done..|]. intros n' a' Hin. by apply Hrest in Hin as [_ ?].
Qed.

Lemma keeps_dispatch_due_restarts ts : keeps inv (dispatch_due_restarts ts).
Proof.
  intros s Hs. unfold dispatch_due_restarts. autorewrite with op. apply (dispatch_loop ts); [|done|].
  - rewrite <- list_fmap_compose. simpl.
    eapply sublist_NoDup; [apply (btree_iter_nodup (records s))|].
    apply fmap_sublist, sublist_filter.
  - intros n a ([n' r] & [= -> ->] & Hin)%list_elem_of_fmap.
    apply list_elem_of_filter in Hin as [Hd Hin]. autorewrite with maps in Hin. by exists r.
Qed.
#[local] Hint Resolve keeps_dispatch_due_restarts : keeps.

Lemma keeps_restart n ts : times ts → keeps inv (restart n ts).
Proof. intros Hts. unfold restart. keep. apply keeps_schedule_restart; by subst. Qed.

Lemma keeps_reconcile ts : times ts → keeps inv (reconcile ts).
Proof.
  intros Hts. unfold reconcile.
  apply keeps_bind; [by apply keeps_frame|intros _].
  apply keeps_bind; [apply keeps_apply_restart_completions|intros _].
  apply keeps_bind; [apply keeps_validate|intros order].
  apply keeps_bind; [apply keeps_iter; intros; by apply keeps_reconcile_service|intros _].
  apply keeps_bind; [apply keeps_dispatch_due_restarts|intros _].
  apply keeps_get_bind. intros s Hs. destruct (record_reconcile_completed _ _) as [q wd].
  generalize (Watchdog.state (watchdog s)) as previous. intros previous. revert s Hs. apply keeps_bind; [by apply keeps_frame|intros _]. apply keeps_emit.
Qed.

Lemma keeps_evaluate_watchdog ts : keeps inv (evaluate_watchdog ts).
Proof.
  unfold evaluate_watchdog. apply keeps_get_bind. intros s Hs.
  destruct (evaluate ts (watchdog s)) as [t wd]. revert s Hs.
  apply keeps_bind; [by apply keeps_frame|intros _].
  destruct t as [[previous next]|]; [apply keeps_emit|apply keeps_ret].
Qed.

Lemma keeps_shutdown_one ts n : keeps inv (shutdown_one ts n).
Proof. unfold shutdown_one. keep. Qed.
Lemma keeps_shutdown_loop ts l o : keeps inv (shutdown_loop ts l o).
Proof.
  revert o. induction l as [|n l IH]; intros o; simpl; [apply keeps_ret|].
  apply keeps_bind; [apply keeps_shutdown_one|]. intros o'. apply IH.
Qed.
Lemma keeps_shutdown ws ts : keeps inv (shutdown ws ts).
Proof.
  unfold shutdown. apply keeps_bind; [by apply keeps_frame|intros _].
  apply keeps_get_bind. intros s Hs. destruct (worker_run _ _) as [x w] eqn:Hw.
  rewrite op_modify_bind.
  assert (inv (with_executor (shutdown_end x) w s)) as Hs'.
  { apply within_step with s; [done| |done]. apply t_executor; [|by intros c Hc%not_elem_of_nil].
    intros Hok. apply shutdown_ok. change x with (x, w).1. rewrite <- Hw.
    apply worker_run_ok. by apply shutdown_ok. }
  revert Hs'. generalize (with_executor (shutdown_end x) w s). clear.
  change (keeps inv (order ← validate; o ← shutdown_loop ts (reverse order) None;
    match o with Some error => op_fail error | None => mret () end)).
  apply keeps_bind; [apply keeps_validate|intros order].
  apply keeps_bind; [apply keeps_shutdown_loop|intros []]; auto with keeps.
Qed.

Lemma keeps_worker e : keeps inv (run_call (CWorker e)).
Proof.
  apply keeps_modify. intros s Hs. destruct (worker_exec _ _) as [x w] eqn:Hw.
  apply within_step with s; [done| |done].
  assert (x = (worker_exec e (restart_executor s, world s)).1) as -> by by rewrite Hw.
  apply t_executor.
  - apply (worker_exec_ok e (restart_executor s, world s)).
  - intros c. apply (worker_exec_commands e (restart_executor s, world s)).
Qed.
End Calls.

Lemma keeps_register times s0 d : keeps (reaches times s0) (register d).
Proof.
  intros s Hs. unfold register. destruct (descriptor_validate d) as [[]|] eqn:Hd; [|done].
  autorewrite with op. case_bool_decide as Hc; [done|].
  eapply reaches_step; [done|]. apply t_register; [done|].
  intros c Hl. exfalso. apply Hc. by eexists.
Qed.
Lemma keeps_replace times s0 d : keeps (reaches times s0) (register_or_replace_inactive d).
Proof.
  intros s Hs. unfold register_or_replace_inactive.
  destruct (descriptor_validate d) as [[]|] eqn:Hd; [|done].
  autorewrite with op. destruct (services s !! name d) as [c|] eqn:Hc.
  - destruct (is_enabled _) eqn:He; [done|]. eapply reaches_step; [done|].
    apply t_register; [done|]. by intros c' [= <-]%(eq_trans (eq_sym Hc)).
  - eapply reaches_step; [done|]. apply t_register; [done|]. by rewrite Hc.
Qed.

Lemma keeps_within {A} times s0 (o : sup A) :
  (∀ sv, keeps (within times s0 sv) o) → keeps (reaches times s0) o.
Proof. intros Ho s Hs. by apply (Ho (services s) s). Qed.

(** Every call, failed or not, is a sequence of transitions. *)
Lemma run_call_keeps times s0 c :
  (∀ ts, schedules_at c ts → times ts) → keeps (reaches times s0) (run_call c).
Proof.
  intros Ht. destruct c as [d|d|n ts|now|n ts|n ts|ts|ts|ws ts|e]; cbn [run_call].
  - apply keeps_register.
  - apply keeps_replace.
  - apply keeps_within. intros. apply keeps_start.
  - apply keeps_within. intros. apply keeps_start_all.
  - apply keeps_within. intros. apply keeps_stop.
  - apply keeps_within. intros. by apply keeps_restart, Ht.
  - apply keeps_within. intros. by apply keeps_reconcile, Ht.
  - apply keeps_within. intros. apply keeps_evaluate_watchdog.
  - apply keeps_within. intros. apply keeps_shutdown.
  - apply keeps_within. intros. apply keeps_worker.
Qed.

Lemma exec_all_reaches times cs s :
  keyed s → (∀ c ts, c ∈ cs → schedules_at c ts → times ts) → reaches times s (exec_all cs s).
Proof.
  intros Hk. assert (Hs : reaches times s s) by by split. revert Hs.
  generalize s at 2 4 as s1. induction cs as [|c cs IH]; intros s1 Hs Ht; [done|].
  apply IH; [|intros; by eapply Ht; [right|]].
  apply run_call_keeps; [|done]. intros ts. apply Ht. by left.
Qed.

(** ** Invariants of the transitions *)

Record record_ok (s : Supervisor) (n : string) (r : RuntimeRecord) : Prop := {
  rok_quarantined : quarantined r = true → operator_required r = true ∧ idle r;
  rok_times : ∀ d, services s !! n = Some d →
    lenN (restart_times_ms r) ≤ restart_budget (restart_policy d);
}.
Record supervisor_ok (s : Supervisor) : Prop := {
  sok_keyed : keyed s;
  sok_capacity : 1 ≤ event_capacity s;
  sok_events : lenN (events s) ≤ event_capacity s;
  sok_executor : executor_ok (restart_executor s);
  sok_records : ∀ n r, records s !! n = Some r → record_ok s n r;
}.

Lemma assemble_ok capacity created wd w : supervisor_ok (assemble capacity created wd w).
Proof.
  split; simpl; try lia.
  - split; simpl; [by rewrite !dom_empty_L|]. intros n d. by rewrite lookup_empty.
  - apply new_ok.
  - intros n r. by rewrite lookup_empty.
Qed.

Lemma put_ok n r s :
  supervisor_ok s → is_Some (records s !! n) → record_ok s n r → supervisor_ok (put n r s).
Proof.
  intros [[Hd Hn] H1 H2 H3 H4] Hs Hr. split; simpl; try done.
  - split; simpl; [|done]. by rewrite dom_insert_lookup_L.
  - intros n' r' [[<- <-]|[_ Hl]]%lookup_insert_Some.
    + by destruct Hr.
    + destruct (H4 _ _ Hl). by split.
Qed.

Lemma active_false r : active r = false ↔ quarantined r = false ∧ idle r.
Proof.
  unfold active, idle. destruct (quarantined r), (restart_state r); simpl; intuition discriminate.
Qed.

Lemma recent_le d ts r : lenN (recent d ts r) ≤ lenN (restart_times_ms r).
Proof.
  pose proof (length_filter (λ attempt, ts - duration_ms (restart_window (restart_policy d)) < attempt)
    (restart_times_ms r)). unfold recent. lia.
Qed.

Lemma transition_ok times s s' : transition times s s' → supervisor_ok s → supervisor_ok s'.
Proof.
  intros Ht Hok. pose proof Hok as [Hk H1 H2 H3 H4].
  destruct Ht as [s' Es Er Ex Ec Ee|d Hv Hc|n r h rs Hr|n r h rs st Hr Hst|n r Hr|n d r ts _ Hd Hr Ha Hb
    |n d r ts a _ Hd Hr Ha Hb|n d r ts x Hd Hr Hdue Hx|x w Hx _].
  - split; [|by rewrite Ec|rewrite Ec; auto|by rewrite Ex|].
    + unfold keyed. by rewrite Es, Er.
    + intros n r. rewrite Er. intros Hl. destruct (H4 _ _ Hl). split; [done|]. by rewrite Es.
  - split; simpl; try done; [by eapply transition_keyed, Hk; apply (t_register times)|].
    intros n r [[<- <-]|[Hne Hl]]%lookup_insert_Some; split; simpl; try done.
    + intros. lia.
    + apply H4 in Hl. apply Hl.
    + intros d'. rewrite lookup_insert_ne by done. by apply H4.
  - apply put_ok; [done|by eexists|]. destruct (H4 _ _ Hr). by split.
  - apply put_ok; [done|by eexists|]. destruct (H4 _ _ Hr) as [Hq Ht]. split; simpl; [|done].
    intros [? _]%Hq. by split.
  - apply put_ok; [done|by eexists|]. destruct (H4 _ _ Hr) as [Hq Ht]. split; simpl; [|done].
    intros _. split; [done|by right].
  - apply put_ok; [done|by eexists|]. destruct (H4 _ _ Hr) as [Hq Ht]. split; simpl.
    + intros _. split; [done|]. by apply active_false in Ha as [_ ?].
    + intros d' Hd'. specialize (Ht _ Hd'). pose proof (recent_le d ts r). lia.
  - apply put_ok; [done|by eexists|]. destruct (H4 _ _ Hr) as [Hq Ht].
    apply active_false in Ha as [Ha _]. split; simpl; [congruence|].
    intros d' Hd'. rewrite Hd in Hd'. injection Hd' as <-. rewrite length_app. simpl. lia.
  - apply put_ok; [|by eexists|].
    + split; simpl; try done; [|intros n' r' Hl; destruct (H4 _ _ Hl); by split].
      change x with (Ok () : SupervisorResult (), x).2. rewrite <- Hx. by apply schedule_ok.
    + destruct (H4 _ _ Hr) as [Hq Ht]. split; simpl; [|done]. intros Hq'.
      destruct (Hq Hq') as [_ Hi]. unfold is_due in Hdue. by destruct Hi as [Hi|Hi]; rewrite Hi in Hdue.
  - split; simpl; auto. intros n r Hl. destruct (H4 _ _ Hl). by split.
Qed.

Lemma reaches_invariant times (I : Supervisor → Prop) s s' :
  (∀ s1 s2, transition times s1 s2 → I s1 → I s2) → reaches times s s' → I s → I s'.
Proof. intros HI [Hr _]. induction Hr; eauto. Qed.

(** C36: whatever calls are made and however they interleave with the restart
    workers, the supervisor keeps its events within their capacity, one
    record per service, each record's restart times within its service's
    budget, quarantined services without pending restarts, and the executor's
    queues within their bounds and its count of pending commands exact. *)
Theorem supervisor_stays_consistent capacity created wd w cs :
  supervisor_ok (exec_all cs (assemble capacity created wd w)).
Proof.
  eapply (reaches_invariant (λ _, True)); [apply transition_ok| |apply assemble_ok].
  apply exec_all_reaches; [apply (assemble_ok _ _ _ _)|done].
Qed.

(** ** One service's record *)

(** What a transition does to the record of a service registered as [d]. *)
Inductive record_step (times : N → Prop) (d : ServiceDescriptor) (r : RuntimeRecord) :
    RuntimeRecord → Prop :=
| r_same : record_step times d r r
| r_observe h rs : record_step times d r (record_with r h rs (restart_state r))
| r_finish h rs st :
    (st = NoRestart ∨ st = RestartFailed) → record_step times d r (record_with r h rs st)
| r_orphan : record_step times d r (orphaned_record r)
| r_exhaust ts :
    times ts → active r = false → restart_budget (restart_policy d) ≤ lenN (recent d ts r) →
    record_step times d r (exhausted_record (recent d ts r) r)
| r_schedule ts at_ms :
    times ts → active r = false → lenN (recent d ts r) < restart_budget (restart_policy d) →
    record_step times d r (scheduled_record (recent d ts r) ts at_ms r)
| r_dispatch ts :
    is_due ts r = true → record_step times d r (record_with r (health r) Restarting StoppingOld).

Lemma schedule_commands c x x' :
  RestartExecutor.schedule c x = (Ok (), x') → commands x' = commands x ++ [c].
Proof.
  unfold RestartExecutor.schedule. destruct (cancellation x); [done|].
  destruct (negb _); [done|]. destruct (_ <? _); [|done]. by intros [= <-].
Qed.

Lemma transition_record times s s' n d r :
  transition times s s' → services s !! n = Some d → is_enabled (activation d) = true →
  records s !! n = Some r →
  services s' !! n = Some d ∧
  ∃ r', records s' !! n = Some r' ∧ record_step times d r r' ∧
    ∀ c, cmd_service c = n → c ∈ commands (restart_executor s') →
      c ∈ commands (restart_executor s) ∨ ∃ ts, is_due ts r = true.
Proof.
  intros Ht Hd Hen Hr.
  assert (Hput : ∀ m r1 r2, records s !! m = Some r1 → (m = n → r1 = r → record_step times d r r2) →
    ∃ r', <[m := r2]> (records s) !! n = Some r' ∧ record_step times d r r' ∧
      ∀ c, cmd_service c = n → c ∈ commands (restart_executor s) →
        c ∈ commands (restart_executor s) ∨ ∃ ts, is_due ts r = true).
  { intros m r1 r2 Hm Hs. destruct (decide (m = n)) as [->|Hne].
    - exists r2. rewrite lookup_insert_eq. split_and!; auto. apply Hs; congruence.
    - exists r. rewrite lookup_insert_ne by done. split_and!; auto. constructor. }
  destruct Ht as [s' Es Er Ex Ec Ee|d' Hv Hc|m r' h rs Hr'|m r' h rs st Hr' Hst|m r' Hr'
    |m d' r' ts Hts Hd' Hr' Ha Hb|m d' r' ts a Hts Hd' Hr' Ha Hb|m d' r' ts x Hd' Hr' Hdue Hx|x w Hx Hcs].
  - rewrite Es, Er, Ex. split; [done|]. exists r. split_and!; auto. constructor.
  - assert (name d' ≠ n) as Hne by (intros <-; apply Hc in Hd; congruence). simpl.
    rewrite !lookup_insert_ne by done. split; [done|]. exists r. split_and!; auto. constructor.
  - split; [done|]. eapply Hput; [done|]. intros -> ->. constructor.
  - split; [done|]. eapply Hput; [done|]. intros -> ->. by constructor.
  - split; [done|]. eapply Hput; [done|]. intros -> ->. constructor.
  - split; [done|]. eapply Hput; [done|]. intros -> ->. simplify_eq. by constructor.
  - split; [done|]. eapply Hput; [done|]. intros -> ->. simplify_eq. by constructor.
  - split; [done|]. simpl. apply schedule_commands in Hx as ->.
    destruct (Hput m r' (record_with r' (health r') Restarting StoppingOld)) as (r2 & H1 & H2 & _);
      [done|intros -> ->; by econstructor|].
    exists r2. split_and!; [done..|]. intros c Hc [Hin|Hin%list_elem_of_singleton]%elem_of_app;
      [by left|]. subst c. simpl in Hc. subst m. right. exists ts. congruence.
  - split; [done|]. exists r. split_and!; [done|constructor|]. intros c _ Hin. left. auto.
Qed.

(** An invariant of one enabled service's record and of its commands. *)
Lemma exec_all_record times cs s n d r (I : RuntimeRecord → Prop) :
  supervisor_ok s → services s !! n = Some d → is_enabled (activation d) = true →
  records s !! n = Some r → I r →
  (∀ c ts, c ∈ cs → schedules_at c ts → times ts) →
  (∀ r1 r2, I r1 → record_step times d r1 r2 → I r2) →
  ∃ r', records (exec_all cs s) !! n = Some r' ∧ I r' ∧
    ((∀ r1 ts, I r1 → is_due ts r1 = false) → ∀ c, cmd_service c = n →
       c ∈ commands (restart_executor (exec_all cs s)) → c ∈ commands (restart_executor s)).
Proof.
  intros Hok Hd Hen Hr HI Ht Hstep.
  set (J s' := services s' !! n = Some d ∧ ∃ r', records s' !! n = Some r' ∧ I r' ∧
    ((∀ r1 ts, I r1 → is_due ts r1 = false) → ∀ c, cmd_service c = n →
       c ∈ commands (restart_executor s') → c ∈ commands (restart_executor s))).
  apply (reaches_invariant times J s (exec_all cs s)).
  - intros s1 s2 Htr (Hd1 & r1 & Hr1 & HI1 & Hc1).
    destruct (transition_record _ _ _ _ _ _ Htr Hd1 Hen Hr1) as (Hd2 & r2 & Hr2 & Hs & Hc2).
    split; [done|]. exists r2. split_and!; [done|by eapply Hstep|].
    intros Hdue c Hc Hin. destruct (Hc2 c Hc Hin) as [?|[ts Hts]]; [auto|].
    by rewrite Hdue in Hts.
  - apply exec_all_reaches; [apply Hok|done].
  - split; [done|]. exists r. split_and!; auto.
Qed.

Definition later (t0 : N) (r : RuntimeRecord) : list N :=
  filter (λ a, t0 < a) (restart_times_ms r).


(** quarantine is for good: nothing that is called afterwards restarts a
    quarantined service, clears its flags, or queues a command for it. *)
Theorem quarantined_service_stays_down n d r cs s :
  supervisor_ok s → services s !! n = Some d → is_enabled (activation d) = true →
  records s !! n = Some r → quarantined r = true →
  ∃ r', records (exec_all cs s) !! n = Some r' ∧
    quarantined r' = true ∧ operator_required r' = true ∧ restart_count r' = restart_count r ∧
    ∀ c, cmd_service c = n →
      c ∈ commands (restart_executor (exec_all cs s)) → c ∈ commands (restart_executor s).
Proof.
  intros Hok Hd Hen Hr Hq.
  destruct (rok_quarantined _ _ _ (sok_records _ Hok _ _ Hr) Hq) as [Ho Hi].
  set (I r1 := quarantined r1 = true ∧ operator_required r1 = true ∧ idle r1 ∧
    restart_count r1 = restart_count r).
  destruct (exec_all_record (λ _, True) cs s n d r I) as (r' & Hr' & (? & ? & ? & ?) & Hc);
    try done.
  - intros r1 r2 (H1 & H2 & H3 & H4) Hs.
    assert (active r1 = true) as Ha by (unfold active; by rewrite H1).
    destruct Hs as [|h rs|h rs st Hst| |ts _ Ha' _|ts at_ms _ Ha' _|ts Hdue]; try congruence.
    + by split_and!.
    + by split_and!.
    + by split_and!.
    + split_and!; try done. by right.
    + unfold is_due in Hdue. destruct H3 as [E|E]; by rewrite E in Hdue.
  - exists r'. split_and!; try done. apply Hc.
    intros r1 ts (_ & _ & [E|E] & _); unfold is_due; by rewrite E.
Qed.

(** ** Shutdown *)

(** What one service of the loop does outside the supervisor, and the failure
    of its [stop]. *)
Definition stop_one (d : ServiceDescriptor) (w : W) : option SupervisorError * W :=
  match svc_stop (name d) (shutdown_timeout (restart_policy d)) w with
  | (Ok _, w) => (None, w)
  | (Err e, w) =>
    let '(rs, w) := svc_runtime_state (name d) w in
    (Some e, if bool_decide (rs = Orphaned) then w else (svc_runtime_state (name d) w).2)
  end.

(** The services stopped one after the other, each exactly once, whatever the
    others answer; the first failure is the result. *)
Fixpoint stop_each (l : list ServiceDescriptor) (w : W) : option SupervisorError * W :=
  match l with
  | [] => (None, w)
  | d :: l =>
    let '(o, w) := stop_one d w in
    let '(o', w) := stop_each l w in
    (match o with Some _ => o | None => o' end, w)
  end.

Definition enabled_of (sv : Services) (order : list string) : list ServiceDescriptor :=
  filter (λ d, is_enabled (activation d) = true) (omap (sv !!.) order).

(** The state after an operation that only wrote records and events. *)
Record wrote (s : Supervisor) (w : W) (s' : Supervisor) : Prop := {
  wrote_services : services s' = services s;
  wrote_records : dom (records s') = dom (records s);
  wrote_world : world s' = w;
}.

Lemma dom_put n r r' s : records s !! n = Some r → dom (records (put n r' s)) = dom (records s).
Proof. intros Hr. simpl. by rewrite dom_insert_lookup_L by by eexists. Qed.

Lemma update_record_bind {B} n r h rs (k : option ServiceHealth → sup B) s :
  records s !! n = Some r →
  (update_record n h rs ≫= k) s =
  k (health r) (put n (record_with r (Some h) rs (restart_state r)) s).
Proof.
  intros Hr. unfold update_record. rewrite op_bind_assoc, (get_record_bind _ r) by done.
  by rewrite op_bind_assoc, (update_bind _ _ r).
Qed.

Lemma record_stopped_run n ts r s :
  records s !! n = Some r →
  ∃ s', record_stopped n ts s = (Ok (), s') ∧ wrote s (world s) s'.
Proof.
  intros Hr. unfold record_stopped. rewrite (update_record_bind _ r) by done.
  eexists. split; [reflexivity|]. split; [done| |done]. by eapply dom_put.
Qed.

Lemma quarantine_orphan_run n a ts r s :
  records s !! n = Some r →
  ∃ s', quarantine_orphan n a ts s = (Ok (), s') ∧ wrote s (world s) s'.
Proof.
  intros Hr. unfold quarantine_orphan. rewrite (update_bind _ _ r) by done.
  eexists. split; [reflexivity|]. split; [done| |done]. by eapply dom_put.
Qed.

Lemma ask_bind {A B} (f : W → A * W) (k : A → sup B) s :
  (ask f ≫= k) s = k (f (world s)).1 (with_executor (restart_executor s) (f (world s)).2 s).
Proof. unfold ask, mbind, op_bind. by destruct (f (world s)). Qed.

Lemma record_stop_failure_run d ts r s :
  records s !! name d = Some r →
  ∃ s', record_stop_failure d ts s = (Ok (), s') ∧
    wrote s (let '(rs, w) := svc_runtime_state (name d) (world s) in
             if bool_decide (rs = Orphaned) then w else (svc_runtime_state (name d) w).2) s'.
Proof.
  intros Hr. unfold record_stop_failure. rewrite ask_bind.
  destruct (svc_runtime_state (name d) (world s)) as [rs w] eqn:Hw. cbn [fst snd].
  case_bool_decide.
  - unfold restart_attempt. rewrite op_bind_assoc. autorewrite with op.
    set (s1 := with_executor _ _ s).
    destruct (quarantine_orphan_run (name d) (default 0 (restart_count <$> records s1 !! name d))
      ts r s1) as (s' & -> & [? ? ?]); [done|]. by exists s'.
  - rewrite ask_bind. rewrite (update_record_bind _ r) by done.
    eexists. split; [reflexivity|]. split; [done| |done].
    cbn. rewrite dom_insert_lookup_L; [done|by eexists].
Qed.

Lemma shutdown_one_run ts n d s :
  keyed s → services s !! n = Some d →
  ∃ s', if is_enabled (activation d) then
          shutdown_one ts n s = (Ok (stop_one d (world s)).1, s') ∧
          wrote s (stop_one d (world s)).2 s'
        else shutdown_one ts n s = (Ok None, s).
Proof.
  intros [Hk Hn] Hd. unfold shutdown_one. rewrite (service_bind _ d) by done.
  destruct (is_enabled _); simpl; [|by exists s].
  assert (is_Some (records s !! n)) as [r Hr] by (apply elem_of_dom; rewrite Hk; by eapply elem_of_dom_2).
  unfold ask_result. rewrite ask_bind. unfold stop_one. apply Hn in Hd as <-.
  destruct (svc_stop _ _ (world s)) as [[[]|e] w]; cbn [fst snd].
  - set (s1 := with_executor _ _ s).
    destruct (record_stopped_run (name d) ts r s1) as (s' & Hs & [? ? ?]); [done|].
    exists s'. unfold mbind, op_bind. rewrite Hs. by split.
  - set (s1 := with_executor _ _ s).
    destruct (record_stop_failure_run d ts r s1) as (s' & Hs & [? ? Hw]); [done|].
    exists s'. unfold mbind, op_bind. rewrite Hs. simpl in Hw.
    destruct (svc_runtime_state (name d) w) as [rs w']. by split.
Qed.

Lemma shutdown_loop_run ts l o s :
  keyed s → Forall (λ n, is_Some (services s !! n)) l →
  ∃ s', shutdown_loop ts l o s =
      (Ok (match o with
           | Some _ => o
           | None => (stop_each (enabled_of (services s) l) (world s)).1
           end), s') ∧
    world s' = (stop_each (enabled_of (services s) l) (world s)).2.
Proof.
  revert o s. induction l as [|n l IH]; intros o s Hk Hl; [exists s; by destruct o|].
  apply Forall_cons in Hl as [[d Hd] Hl]. unfold enabled_of. simpl. rewrite Hd, filter_cons.
  unfold mbind, op_bind.
  destruct (shutdown_one_run ts n d s Hk Hd) as [s1 H1].
  destruct (is_enabled (activation d)) eqn:He; simpl.
  - destruct H1 as [-> [Hs Hr Hw]].
    destruct (IH (match o with Some _ => o | None => (stop_one d (world s)).1 end) s1)
      as (s' & -> & Hw').
    { destruct Hk as [Hk Hn]. split; rewrite ?Hs, ?Hr; done. }
    { by rewrite Hs. }
    exists s'. rewrite Hw', Hs, Hw. unfold enabled_of.
    destruct (stop_one d (world s)) as [o1 w1]. simpl.
    destruct (stop_each _ w1) as [o2 w2]. by destruct o, o1.
  - rewrite H1. destruct (IH o s Hk Hl) as (s' & H2 & Hw').
    destruct o; exists s'; by rewrite H2.
Qed.

(** [shutdown] stops the enabled services in the reverse of their
    topological order, each exactly once even when others fail to stop, and
    returns the first failure; but when the dependency graph is not valid it
    returns that error and stops none of them. *)
Theorem shutdown_stops_in_reverse_order ws ts s :
  supervisor_ok s →
  let w := (worker_run ws (shutdown_begin (restart_executor s), world s)).2 in
  match ServiceGraph.validate (services s) with
  | Ok order =>
    let '(o, w') := stop_each (enabled_of (services s) (reverse order)) w in
    (shutdown ws ts s).1 = (match o with Some e => Err e | None => Ok () end) ∧
    world (shutdown ws ts s).2 = w'
  | Err e => (shutdown ws ts s).1 = Err e ∧ world (shutdown ws ts s).2 = w
  end.
Proof.
  intros Hok w. subst w. unfold shutdown. autorewrite with op. cbn [restart_executor world with_watchdog].
  destruct (worker_run _ _) as [x w]. cbn [snd]. autorewrite with op.
  set (s1 := with_executor _ w _).
  unfold validate. rewrite op_bind_assoc. autorewrite with op.
  change (services s1) with (services s).
  destruct (ServiceGraph.validate (services s)) as [order|e] eqn:Hv; autorewrite with op; [|done].
  assert (Forall (λ n, is_Some (services s1 !! n)) (reverse order)) as Hl.
  { apply Forall_forall. intros n Hn. rewrite elem_of_reverse in Hn.
    destruct (validated_order (services s) order Hv) as (_ & Ho & _).
    exact (proj1 (Ho n) Hn). }
  destruct (shutdown_loop_run ts (reverse order) None s1) as (s' & Hs & Hw); [apply Hok|done|].
  unfold mbind, op_bind. rewrite Hs. change (services s1) with (services s) in *.
  change (world s1) with w in *.
  destruct (stop_each _ w) as [o w']. simpl in *. by destruct o.
Qed.
End Supervisor.

Section Activation.
Context {W : Type} `{!ManagedServices W}.

(** [restart] schedules a restart of a service whatever its activation
    state, where [start] and [stop] leave a service that is not enabled
    alone. *)
Theorem restart_ignores_activation n d r ts (s : Supervisor) :
  supervisor_ok s → services s !! n = Some d → is_enabled (activation d) = false →
  dependencies d = [] → mode (restart_policy d) ≠ Never →
  records s !! n = Some r → active r = false →
  lenN (recent d ts r) < restart_budget (restart_policy d) →
  start n ts s = (Ok (), s) ∧ stop n ts s = (Ok (), s) ∧
  ∃ s' at_ms, restart n ts s = (Ok (), s') ∧
    records s' !! n = Some (scheduled_record (recent d ts r) ts at_ms r).
Proof.
  intros Hok Hd Hen Hdeps Hm Hr Ha Hb.
  unfold start, stop. rewrite !(service_bind _ d), Hen by done. split_and!; [done..|].
  unfold restart. rewrite (service_bind _ d) by done.
  unfold require_dependencies, first_unavailable_dependency. rewrite Hdeps, op_bind_assoc.
  cbn [first_unavailable]. autorewrite with op.
  assert (name d = n) as <- by by apply Hok.
  destruct (schedule_restart_accepted d ts s r) as (at_ms & x & _ & ->); try done.
  eexists _, at_ms. split; [reflexivity|]. cbn. by rewrite lookup_insert_eq.
Qed.
End Activation.

(** ** Witnesses *)

(** A world that records what is called; ["bad"] fails to stop. *)
Definition demo_world : ManagedServices (list string) :=
  {| svc_start := λ n w, (Ok (), w ++ [("start " +:+ n)%string]);
     svc_stop := λ n _ w,
       (if bool_decide (n = "bad"%string) then Err (ServiceFailure n "stuck") else Ok (),
        w ++ [("stop " +:+ n)%string]);
     svc_health := λ n w, (if bool_decide (n = "bad"%string) then Failed else Healthy, w);
     svc_runtime_state := λ n w, (Running, w) |}.

Definition demo_policy : RestartPolicy :=
  {| mode := OnFailure; restart_budget := 1; restart_window := secs 1; backoff := 0; jitter := 0;
     shutdown_timeout := secs 1 |}.
Definition demo_service (n : string) (deps : list string) (a : ServiceActivationState) :
    ServiceDescriptor :=
  {| name := n; dependencies := (λ m, {| dep_id := m; requirement := Optional |}) <$> deps;
     restart_policy := demo_policy; activation := a; critical := true |}.
Definition demo_watchdog : Watchdog := from_validated config_default 1.

Definition demo_start : Supervisor :=
  @exec_all _ demo_world
    [CRegister (demo_service "bad" [] Enabled); CRegister (demo_service "web" ["bad"] Enabled);
     CRegister (demo_service "off" [] Disabled)]%string
    (assemble 8 1 demo_watchdog []).
Lemma demo_start_ok : supervisor_ok demo_start.
Proof.
  unfold demo_start. eapply (reaches_invariant (λ _, True)); [apply transition_ok| |apply assemble_ok].
  apply (@exec_all_reaches _ demo_world); [apply (assemble_ok _ _ _ _)|done].
Qed.

Definition demo_record (n : string) (s : @Supervisor (list string)) : RuntimeRecord :=
  default record_default (records s !! n).

(** Two reconciliations in one window: the second failure finds the budget of
    one restart used up. *)
Definition demo_restarts : list call := [CReconcile 5; CWorker WorkerTake; CWorker (WorkerExecute 0 false);
  CWorker (WorkerSend 0); CWorker (WorkerDecrement 0); CReconcile 900].

Definition demo_quarantined : @Supervisor (list string) := @exec_all _ demo_world demo_restarts demo_start.
Lemma demo_quarantined_ok : supervisor_ok demo_quarantined.
Proof.
  unfold demo_quarantined. eapply (reaches_invariant (λ _, True)); [apply transition_ok| |apply demo_start_ok].
  apply (@exec_all_reaches _ demo_world); [apply demo_start_ok|done].
Qed.

Lemma quarantined_service_stays_down_witness :
  ∃ r', records (@exec_all _ demo_world [CRestart "bad" 5000; CReconcile 9000] demo_quarantined)
          !! "bad"%string = Some r' ∧
    quarantined r' = true ∧ operator_required r' = true ∧ restart_count r' = 1 ∧
    ∀ c, cmd_service c = "bad"%string →
      c ∈ commands (restart_executor
            (@exec_all _ demo_world [CRestart "bad" 5000; CReconcile 9000] demo_quarantined)) →
      c ∈ commands (restart_executor demo_quarantined).
Proof.
  apply (@quarantined_service_stays_down _ demo_world "bad" (demo_service "bad" [] Enabled)
    (demo_record "bad" demo_quarantined) _ demo_quarantined demo_quarantined_ok);
    vm_compute; reflexivity.
Defined.

Lemma shutdown_stops_in_reverse_order_witness :
  (@shutdown _ demo_world [] 7 demo_start).1 = Err (ServiceFailure "bad" "stuck") ∧
  world (@shutdown _ demo_world [] 7 demo_start).2 = ["stop web"; "stop bad"]%string.
Proof. exact (@shutdown_stops_in_reverse_order _ demo_world [] 7 demo_start demo_start_ok). Defined.

(** The restart of a disabled service goes on to start it. *)
Lemma restart_ignores_activation_witness :
  (∃ s' at_ms, @restart _ demo_world "off" 5 demo_start = (Ok (), s') ∧
     records s' !! "off"%string =
       Some (scheduled_record (recent (demo_service "off" [] Disabled) 5 record_default) 5 at_ms
               record_default)) ∧
  world (@exec_all _ demo_world
    [CRestart "off" 5; CReconcile 6; CWorker WorkerTake; CWorker (WorkerExecute 0 false);
     CWorker WorkerTake; CWorker (WorkerExecute 1 false)] demo_start) =
  ["stop bad"; "stop off"; "start off"]%string.
Proof.
  split; [|vm_compute; reflexivity].
  apply (@restart_ignores_activation _ demo_world "off" (demo_service "off" [] Disabled)
    record_default 5 demo_start demo_start_ok); try (vm_compute; reflexivity). done.
Defined.
