(* ===== verification/Gateway.v ===== *)
(** The state of the gateway ([crates/appcore-gateway/src]): its configuration
    ([config.rs]), connections ([connection.rs]), the capability registry of a
    tenant ([registry.rs], [resolver.rs]), the tenant partitions ([tenant.rs]),
    sessions ([session.rs]) and counters ([metrics.rs]).

    A connection holds the sender of a channel and a heartbeat that its clones
    share; both are names of cells that GatewayRouter.v keeps. *)

From S2P Require Import Prelude.
From S2P Require Import Text.
From S2P Require Import Types.
From S2P Require Import Timing.
From S2P Require Import Contracts.
From S2P Require Import Manifests.

Local Open Scope N_scope.

(** ** [error.rs], [config.rs] *)

Inductive GatewayError :=
| Config (reason : string)
| Authentication (reason : string)
| Forbidden (reason : string)
| TenantMismatch (reason : string)
| WorkerUnavailable (reason : string)
| Transport (reason : string)
| Serialization (reason : string)
| Protocol (reason : string)
| Runtime (e : RuntimeError).
#[export] Instance GatewayError_eq_dec : EqDecision GatewayError.
Proof. solve_decision. Defined.
Abbreviation GatewayResult := (result GatewayError).

Definition GATEWAY_PROVIDER_ID : string := "appcore-gateway".
Definition MAX_GATEWAY_MESSAGE_BYTES : N := 4194304.
Definition MAX_GATEWAY_CAPABILITIES : nat := 64.
Definition MAX_GATEWAY_WORKERS_PER_TENANT : N := 1024.
Definition MAX_GATEWAY_CLIENTS_PER_TENANT : N := 4096.
Definition MAX_GATEWAY_CONNECTIONS : N := 8192.
Definition MAX_GATEWAY_PENDING_PER_TENANT : N := 2048.
Definition MAX_GATEWAY_TENANTS : N := 1024.
Definition MAX_GATEWAY_REQUEST_TIMEOUT : duration := from_millis 30000.

(** [IpAddr] and [SocketAddr]: an address is its bytes. *)
Inductive IpAddr := V4 (octets : list N) | V6 (octets : list N).
Record SocketAddr := { ip : IpAddr; port : N }.
Definition is_loopback (a : IpAddr) : bool :=
  match a with
  | V4 (first :: _) => first =? 127
  | V4 [] => false
  | V6 octets => bool_decide (octets = replicate 15 0 ++ [1])
  end.

Record GatewayConfig := {
  bind_address : SocketAddr;
  domain_suffix : string;
  require_auth : bool;
  heartbeat_interval : duration;
  heartbeat_timeout : duration;
}.

Definition config_new (address : SocketAddr) (suffix : string) : GatewayConfig :=
  {| bind_address := address; domain_suffix := suffix; require_auth := true;
     heartbeat_interval := from_millis 30000; heartbeat_timeout := from_millis 90000 |}.

Definition insecure_local_for_testing (c : GatewayConfig) : GatewayResult GatewayConfig :=
  if negb (is_loopback (ip (bind_address c))) then
    Err (Config "insecure gateway mode requires a loopback bind address")
  else
    Ok {| bind_address := bind_address c; domain_suffix := domain_suffix c; require_auth := false;
          heartbeat_interval := heartbeat_interval c; heartbeat_timeout := heartbeat_timeout c |}.

(** [label.starts_with('-')], [label.ends_with('-')]. *)
Fixpoint str_last (s : string) : option ascii :=
  match s with
  | EmptyString => None
  | String c EmptyString => Some c
  | String _ s' => str_last s'
  end.
Definition valid_label (label : string) : bool :=
  negb (bool_decide (label = EmptyString)) && (str_len label <=? 63)
  && negb (bool_decide (str_first label = Some "-"%char)) && negb (bool_decide (str_last label = Some "-"%char))
  && str_all (λ c, is_ascii_alphanumeric c || bool_decide (c = "-"%char)) label.
Definition valid_domain_suffix (value : string) : bool :=
  if bool_decide (value = EmptyString) || (253 <? str_len value) || negb (bool_decide (value = trim value))
  then false else forallb valid_label (split_on "." value).

Definition config_validate (c : GatewayConfig) : GatewayResult () :=
  if negb (valid_domain_suffix (domain_suffix c)) then
    Err (Config "domain_suffix must be an explicit valid DNS suffix")
  else if heartbeat_interval c =? 0 then Err (Config "heartbeat_interval must be greater than zero")
  else if heartbeat_timeout c <=? heartbeat_interval c then
    Err (Config "heartbeat_timeout must be strictly greater than heartbeat_interval")
  else if negb (require_auth c) && negb (is_loopback (ip (bind_address c))) then
    Err (Config "gateway authentication cannot be disabled on a non-loopback bind address")
  else Ok ().

Definition gateway_settings : list string :=
  ["bind_address"; "domain_suffix"; "heartbeat_interval_ms"; "heartbeat_timeout_ms"]%string.
Definition validate_provider_shape (p : Deployment.ProviderConfig) : GatewayResult () :=
  if negb (bool_decide (Deployment.provider_id p = GATEWAY_PROVIDER_ID)) then
    Err (Config "gateway adapter requires provider_id=appcore-gateway")
  else if bool_decide (Deployment.endpoint p ≠ None) then
    Err (Config "gateway adapter does not accept a provider endpoint")
  else if bool_decide (Deployment.secret_refs p ≠ ∅) then
    Err (Config "gateway adapter reuses Runtime security and accepts no secret refs")
  else
    match List.find (λ e : string * string, negb (bool_decide (e.1 ∈ gateway_settings)))
            (btree_iter (Deployment.settings p)) with
    | Some e => Err (Config ("unsupported gateway setting: " +:+ e.1))
    | None => Ok ()
    end.

Definition required_setting (settings : gmap string string) (name : string) : GatewayResult string :=
  match settings !! name with
  | Some value => if bool_decide (value = EmptyString) then Err (Config ("gateway requires " +:+ name)) else Ok value
  | None => Err (Config ("gateway requires " +:+ name))
  end.
Definition duration_setting (settings : gmap string string) (name : string) (dflt : duration) :
    GatewayResult duration :=
  match settings !! name with
  | None => Ok dflt
  | Some value => from_millis <$> ok_or (Config (name +:+ " must be a u64")) (parse_u64 value)
  end.

(** [value.parse::<SocketAddr>()] is the argument [parse_address]; an error is
    its text. *)
Definition from_provider_config (parse_address : string → result string SocketAddr) (p : Deployment.ProviderConfig) :
    GatewayResult GatewayConfig :=
  _ ← validate_provider_shape p;
  let settings := Deployment.settings p in
  text ← required_setting settings "bind_address";
  address ← map_err (λ e, Config ("invalid bind_address: " +:+ e)) (parse_address text);
  suffix ← required_setting settings "domain_suffix";
  let c := config_new address suffix in
  interval ← duration_setting settings "heartbeat_interval_ms" (heartbeat_interval c);
  timeout ← duration_setting settings "heartbeat_timeout_ms" (heartbeat_timeout c);
  let c := {| bind_address := bind_address c; domain_suffix := domain_suffix c; require_auth := require_auth c;
              heartbeat_interval := interval; heartbeat_timeout := timeout |} in
  _ ← config_validate c;
  Ok c.

(** ** [connection.rs], [session.rs] *)

Definition CONNECTION_BUFFER_CAPACITY : N := 128.

Record WorkerConnectionKey := { key_tenant : string; key_installation : string; key_core : string }.
#[export] Instance WorkerConnectionKey_eq_dec : EqDecision WorkerConnectionKey.
Proof. solve_decision. Defined.
#[export] Program Instance WorkerConnectionKey_countable : Countable WorkerConnectionKey :=
  inj_countable' (λ k, (key_tenant k, key_installation k, key_core k))
    (λ t, {| key_tenant := t.1.1; key_installation := t.1.2; key_core := t.2 |}) _.
Next Obligation. by intros []. Qed.

Record WorkerConnection := {
  worker_key : WorkerConnectionKey;
  worker_sender : nat;
  worker_cluster : option string;
  worker_generation : N;
  last_heartbeat_ms : nat;
}.
#[export] Instance WorkerConnection_eq_dec : EqDecision WorkerConnection.
Proof. solve_decision. Defined.

Record ClientConnection := {
  client_connection_id : string;
  client_tenant : string;
  client_session : string;
  client_sender : nat;
}.
#[export] Instance ClientConnection_eq_dec : EqDecision ClientConnection.
Proof. solve_decision. Defined.

Record GatewaySession := {
  session_id : string;
  session_tenant : string;
  created_at_ms : N;
  session_expires_at_ms : N;
  session_subject : option string;
}.
Definition session_is_expired (s : GatewaySession) (now_ms : N) : bool := session_expires_at_ms s <=? now_ms.

(** ** [registry.rs], [resolver.rs] *)

Record CapabilityRegistry := {
  capability_to_workers : gmap string (gset WorkerConnectionKey);
  worker_to_capabilities : gmap WorkerConnectionKey (gset string);
}.
Definition registry_new : CapabilityRegistry := {| capability_to_workers := ∅; worker_to_capabilities := ∅ |}.

(** The loop of [deregister], over the capabilities of the worker. *)
Definition drop_advertisement (worker : WorkerConnectionKey) (cap : string)
    (m : gmap string (gset WorkerConnectionKey)) : gmap string (gset WorkerConnectionKey) :=
  match m !! cap with
  | Some workers =>
    let workers := workers ∖ {[worker]} in
    if bool_decide (workers = ∅) then delete cap m else <[cap := workers]> m
  | None => m
  end.
Definition deregister (worker : WorkerConnectionKey) (r : CapabilityRegistry) : CapabilityRegistry :=
  match worker_to_capabilities r !! worker with
  | Some caps =>
    {| capability_to_workers := foldr (drop_advertisement worker) (capability_to_workers r) (elements caps);
       worker_to_capabilities := delete worker (worker_to_capabilities r) |}
  | None => r
  end.

Definition add_advertisement (worker : WorkerConnectionKey) (m : gmap string (gset WorkerConnectionKey))
    (cap : string) : gmap string (gset WorkerConnectionKey) :=
  <[cap := {[worker]} ∪ default ∅ (m !! cap)]> m.
Definition register (worker : WorkerConnectionKey) (capabilities : list string) (r : CapabilityRegistry) :
    CapabilityRegistry :=
  let r := deregister worker r in
  {| capability_to_workers := foldl (add_advertisement worker) (capability_to_workers r) capabilities;
     worker_to_capabilities := <[worker := list_to_set capabilities]> (worker_to_capabilities r) |}.

Definition registry_resolve (cap : string) (r : CapabilityRegistry) : option (gset WorkerConnectionKey) :=
  capability_to_workers r !! cap.
Definition all_capabilities (r : CapabilityRegistry) : list string := (map_to_list (capability_to_workers r)).*1.

Inductive SelectionPolicy := FirstAvailable.
(** [candidates.iter().next()]: a [HashSet] yields its elements in some order,
    [order]. *)
Definition resolver_resolve (policy : SelectionPolicy) (order : gset WorkerConnectionKey → list WorkerConnectionKey)
    (cap : string) (r : CapabilityRegistry) : option WorkerConnectionKey :=
  candidates ← registry_resolve cap r;
  match policy with FirstAvailable => head (order candidates) end.

(** ** [tenant.rs] *)

Record TenantState := {
  tenant_id : string;
  workers : gmap (string * string) WorkerConnection;
  clients : gmap string ClientConnection;
  registry : CapabilityRegistry;
  resolver : SelectionPolicy;
  sessions : gmap string GatewaySession;
  pending_requests : gmap string nat;
  pending_mesh_requests : gmap string nat;
}.
Definition tenant_new (id : string) : TenantState :=
  {| tenant_id := id; workers := ∅; clients := ∅; registry := registry_new; resolver := FirstAvailable;
     sessions := ∅; pending_requests := ∅; pending_mesh_requests := ∅ |}.

Definition set_workers (ws : gmap (string * string) WorkerConnection) (r : CapabilityRegistry) (t : TenantState) :
    TenantState :=
  {| tenant_id := tenant_id t; workers := ws; clients := clients t; registry := r; resolver := resolver t;
     sessions := sessions t; pending_requests := pending_requests t;
     pending_mesh_requests := pending_mesh_requests t |}.
Definition set_clients (cs : gmap string ClientConnection) (ss : gmap string GatewaySession) (t : TenantState) :
    TenantState :=
  {| tenant_id := tenant_id t; workers := workers t; clients := cs; registry := registry t; resolver := resolver t;
     sessions := ss; pending_requests := pending_requests t; pending_mesh_requests := pending_mesh_requests t |}.
(** The table of pending requests of one kind. *)
Definition pending (mesh : bool) (t : TenantState) : gmap string nat :=
  if mesh then pending_mesh_requests t else pending_requests t.
Definition set_pending (mesh : bool) (p : gmap string nat) (t : TenantState) : TenantState :=
  {| tenant_id := tenant_id t; workers := workers t; clients := clients t; registry := registry t;
     resolver := resolver t; sessions := sessions t;
     pending_requests := if mesh then pending_requests t else p;
     pending_mesh_requests := if mesh then p else pending_mesh_requests t |}.

Definition map_key (k : WorkerConnectionKey) : string * string := (key_installation k, key_core k).

Definition add_worker (conn : WorkerConnection) (capabilities : list string) : op TenantState GatewayError () := λ t,
  let key := worker_key conn in
  if bool_decide (workers t !! map_key key = None) && (MAX_GATEWAY_WORKERS_PER_TENANT <=? sizeN (workers t)) then
    (Err (Transport "worker connection limit reached"), t)
  else
    let r := match workers t !! map_key key with
             | Some previous => deregister (worker_key previous) (registry t)
             | None => registry t
             end in
    (Ok (), set_workers (<[map_key key := conn]> (workers t)) (register key capabilities r) t).

Definition remove_worker (installation core : string) (t : TenantState) : TenantState :=
  match workers t !! (installation, core) with
  | Some conn => set_workers (delete (installation, core) (workers t)) (deregister (worker_key conn) (registry t)) t
  | None => t
  end.

Definition remove_worker_if_current (installation core : string) (generation : N) (t : TenantState) :
    bool * TenantState :=
  match workers t !! (installation, core) with
  | Some worker => if worker_generation worker =? generation then (true, remove_worker installation core t)
                   else (false, t)
  | None => (false, t)
  end.

Definition add_client (conn : ClientConnection) (t : TenantState) : TenantState :=
  set_clients (<[client_connection_id conn := conn]> (clients t)) (sessions t) t.
Definition try_add_client (conn : ClientConnection) : op TenantState GatewayError () := λ t,
  if bool_decide (clients t !! client_connection_id conn = None)
     && (MAX_GATEWAY_CLIENTS_PER_TENANT <=? sizeN (clients t)) then
    (Err (Transport "client connection limit reached"), t)
  else (Ok (), add_client conn t).
Definition remove_client (connection_id : string) (t : TenantState) : TenantState :=
  set_clients (delete connection_id (clients t)) (sessions t) t.

Definition resolve_worker (order : gset WorkerConnectionKey → list WorkerConnectionKey) (cap : string)
    (t : TenantState) : option WorkerConnectionKey :=
  resolver_resolve (resolver t) order cap (registry t).
Definition get_worker (installation core : string) (t : TenantState) : option WorkerConnection :=
  workers t !! (installation, core).

(** The order in which a [HashMap] of workers yields its entries. *)
Record iteration := {
  iterate : gmap (string * string) WorkerConnection → list ((string * string) * WorkerConnection);
  iterate_perm m : iterate m ≡ₚ map_to_list m;
}.
Definition get_worker_by_core (it : iteration) (core : string) (t : TenantState) : option WorkerConnection :=
  snd <$> List.find (λ e : (string * string) * WorkerConnection, bool_decide (e.1.2 = core)) (iterate it (workers t)).

Definition can_register_pending (request_id : string) (mesh : bool) (t : TenantState) : bool :=
  (sizeN (pending mesh t) <? MAX_GATEWAY_PENDING_PER_TENANT) && bool_decide (pending mesh t !! request_id = None).

(** ** [metrics.rs] *)

Record GatewayMetrics := {
  active_workers : N; active_clients : N; messages_routed : N; routing_failures : N;
}.
Definition metrics_new : GatewayMetrics :=
  {| active_workers := 0; active_clients := 0; messages_routed := 0; routing_failures := 0 |}.
(** [fetch_add(1)] wraps around. *)
Definition fetch_inc (n : N) : N := (n + 1) mod (u64_max + 1).
Definition worker_connected (m : GatewayMetrics) : GatewayMetrics :=
  {| active_workers := fetch_inc (active_workers m); active_clients := active_clients m;
     messages_routed := messages_routed m; routing_failures := routing_failures m |}.
Definition worker_disconnected (m : GatewayMetrics) : GatewayMetrics :=
  {| active_workers := active_workers m - 1; active_clients := active_clients m;
     messages_routed := messages_routed m; routing_failures := routing_failures m |}.
Definition client_connected (m : GatewayMetrics) : GatewayMetrics :=
  {| active_workers := active_workers m; active_clients := fetch_inc (active_clients m);
     messages_routed := messages_routed m; routing_failures := routing_failures m |}.
Definition client_disconnected (m : GatewayMetrics) : GatewayMetrics :=
  {| active_workers := active_workers m; active_clients := active_clients m - 1;
     messages_routed := messages_routed m; routing_failures := routing_failures m |}.
Definition message_routed (m : GatewayMetrics) : GatewayMetrics :=
  {| active_workers := active_workers m; active_clients := active_clients m;
     messages_routed := fetch_inc (messages_routed m); routing_failures := routing_failures m |}.
Definition routing_failure (m : GatewayMetrics) : GatewayMetrics :=
  {| active_workers := active_workers m; active_clients := active_clients m;
     messages_routed := messages_routed m; routing_failures := fetch_inc (routing_failures m) |}.

(** ** The registry: two maps that say the same *)

Create HintDb gateway.

Definition advertises (r : CapabilityRegistry) (k : WorkerConnectionKey) (c : string) : Prop :=
  k ∈ default ∅ (capability_to_workers r !! c).

Record registry_wf (r : CapabilityRegistry) : Prop := {
  registry_inverse k c : advertises r k c ↔ c ∈ default ∅ (worker_to_capabilities r !! k);
  registry_no_empty c : capability_to_workers r !! c ≠ Some ∅;
}.

Lemma drop_advertisement_elem worker cap m c k :
  k ∈ default ∅ (drop_advertisement worker cap m !! c) ↔
  k ∈ default ∅ (m !! c) ∧ ¬ (c = cap ∧ k = worker).
Proof.
  unfold drop_advertisement. destruct (m !! cap) as [ws|] eqn:Hm.
  - case_bool_decide as He; destruct (decide (c = cap)) as [->|Hc];
      rewrite ?lookup_delete_eq, ?lookup_insert_eq, ?lookup_delete_ne, ?lookup_insert_ne, ?Hm by done;
      cbn [default from_option id]; set_solver.
  - split; [|tauto]. intros Hk. split; [done|]. intros [-> ->]. by rewrite Hm in Hk.
Qed.
Lemma drop_advertisement_no_empty worker cap m :
  (∀ c, m !! c ≠ Some ∅) → ∀ c, drop_advertisement worker cap m !! c ≠ Some ∅.
Proof.
  intros Hm c. unfold drop_advertisement. destruct (m !! cap); [|done].
  case_bool_decide; destruct (decide (c = cap)) as [->|];
    rewrite ?lookup_delete_eq, ?lookup_insert_eq, ?lookup_delete_ne, ?lookup_insert_ne by done; congruence || done.
Qed.
Lemma drop_advertisements_elem worker caps m c k :
  k ∈ default ∅ (foldr (drop_advertisement worker) m caps !! c) ↔
  k ∈ default ∅ (m !! c) ∧ ¬ (c ∈ caps ∧ k = worker).
Proof.
  induction caps as [|cap caps IH]; cbn [foldr]; [set_solver|]. rewrite drop_advertisement_elem, IH. set_solver.
Qed.

Lemma deregister_advertises worker r k c :
  registry_wf r → advertises (deregister worker r) k c ↔ advertises r k c ∧ k ≠ worker.
Proof.
  intros [Hinv _]. unfold deregister. destruct (worker_to_capabilities r !! worker) as [caps|] eqn:Hw.
  - unfold advertises at 1. cbn [capability_to_workers]. rewrite drop_advertisements_elem, elem_of_elements.
    fold (advertises r k c). split; [|tauto]. intros [Hk Hn]. split; [done|]. intros ->. apply Hn.
    split; [|done]. apply Hinv in Hk. by rewrite Hw in Hk.
  - split; [|tauto]. intros Hk. split; [done|]. intros ->. apply Hinv in Hk. by rewrite Hw in Hk.
Qed.
Lemma deregister_workers worker r :
  worker_to_capabilities (deregister worker r) = delete worker (worker_to_capabilities r).
Proof.
  unfold deregister. destruct (worker_to_capabilities r !! worker) eqn:Hw; [done|]. by rewrite delete_id.
Qed.
Lemma deregister_wf worker r : registry_wf r → registry_wf (deregister worker r).
Proof.
  intros Hwf. split.
  - intros k c. rewrite deregister_advertises, deregister_workers by done.
    rewrite (registry_inverse _ Hwf). destruct (decide (k = worker)) as [->|];
      [rewrite lookup_delete_eq|rewrite lookup_delete_ne by done]; set_solver.
  - unfold deregister. destruct (worker_to_capabilities r !! worker) as [caps|]; [|apply Hwf].
    cbn [capability_to_workers]. generalize (elements caps). intros l.
    induction l as [|cap l IH]; cbn [foldr]; [apply Hwf|by apply drop_advertisement_no_empty].
Qed.

Lemma add_advertisements_elem worker caps m c k :
  k ∈ default ∅ (foldl (add_advertisement worker) m caps !! c) ↔
  k ∈ default ∅ (m !! c) ∨ (c ∈ caps ∧ k = worker).
Proof.
  revert m. induction caps as [|cap caps IH]; intros m; cbn [foldl]; [set_solver|]. rewrite IH. clear IH.
  unfold add_advertisement. destruct (decide (c = cap)) as [->|];
    [rewrite lookup_insert_eq|rewrite lookup_insert_ne by done]; cbn [default from_option id]; set_solver.
Qed.
Lemma add_advertisements_no_empty worker caps m :
  (∀ c, m !! c ≠ Some ∅) → ∀ c, foldl (add_advertisement worker) m caps !! c ≠ Some ∅.
Proof.
  revert m. induction caps as [|cap caps IH]; intros m Hm; cbn [foldl]; [done|]. apply IH. intros c.
  unfold add_advertisement. destruct (decide (c = cap)) as [->|];
    [rewrite lookup_insert_eq; intros [= He]; set_solver|by rewrite lookup_insert_ne].
Qed.
Lemma register_advertises worker caps r k c :
  registry_wf r →
  advertises (register worker caps r) k c ↔ (advertises r k c ∧ k ≠ worker) ∨ (c ∈ caps ∧ k = worker).
Proof.
  intros Hwf. unfold advertises at 1, register. cbn [capability_to_workers].
  rewrite add_advertisements_elem. fold (advertises (deregister worker r) k c). by rewrite deregister_advertises.
Qed.
Lemma register_workers worker caps r :
  worker_to_capabilities (register worker caps r) = <[worker := list_to_set caps]> (worker_to_capabilities r).
Proof. unfold register. cbn. by rewrite deregister_workers, insert_delete_eq. Qed.
Lemma register_wf worker caps r : registry_wf r → registry_wf (register worker caps r).
Proof.
  intros Hwf. split.
  - intros k c. rewrite register_advertises, register_workers, (registry_inverse _ Hwf) by done.
    destruct (decide (k = worker)) as [->|];
      [rewrite lookup_insert_eq|rewrite lookup_insert_ne by done]; cbn [default from_option id]; set_solver.
  - unfold register. cbn [capability_to_workers]. apply add_advertisements_no_empty.
    apply (deregister_wf worker r Hwf).
Qed.

(** ** Tenant partitions *)

Record tenant_wf (t : TenantState) : Prop := {
  tenant_workers_keyed mk c :
    workers t !! mk = Some c →
    worker_key c = {| key_tenant := tenant_id t; key_installation := mk.1; key_core := mk.2 |};
  tenant_registry : registry_wf (registry t);
  tenant_registered k :
    is_Some (worker_to_capabilities (registry t) !! k) ↔
    ∃ c, workers t !! map_key k = Some c ∧ worker_key c = k;
  tenant_workers_bound : sizeN (workers t) ≤ MAX_GATEWAY_WORKERS_PER_TENANT;
  tenant_clients_bound : sizeN (clients t) ≤ MAX_GATEWAY_CLIENTS_PER_TENANT;
  tenant_pending_bound mesh : sizeN (pending mesh t) ≤ MAX_GATEWAY_PENDING_PER_TENANT;
}.

(** Only a worker that is connected is advertised. *)
Lemma advertised_is_connected t k c :
  tenant_wf t → advertises (registry t) k c → ∃ w, workers t !! map_key k = Some w ∧ worker_key w = k.
Proof.
  intros Ht Ha. apply (registry_inverse _ (tenant_registry _ Ht)) in Ha.
  apply (tenant_registered _ Ht). destruct (worker_to_capabilities _ !! k); [by eexists|set_solver].
Qed.

Lemma tenant_new_wf id : tenant_wf (tenant_new id).
Proof.
  split; cbn; try done.
  - intros k. split; [by intros [? ?]|by intros (c & ? & _)].
  - by intros [].
Qed.

Lemma size_insert_le `{Countable K} {A} (m : gmap K A) k a (bound : N) :
  (m !! k = None → sizeN m < bound) → sizeN m ≤ bound → sizeN (<[k := a]> m) ≤ bound.
Proof.
  intros Hn Hb. destruct (m !! k) eqn:Hk.
  - rewrite map_size_insert_Some by eauto. done.
  - rewrite map_size_insert_None by done. specialize (Hn eq_refl). lia.
Qed.
Lemma size_delete_le `{Countable K} {A} (m : gmap K A) k (bound : N) :
  sizeN m ≤ bound → sizeN (delete k m) ≤ bound.
Proof. pose proof (map_size_delete_le k m). lia. Qed.

Lemma set_workers_wf ws r t :
  tenant_wf t → registry_wf r → sizeN ws ≤ MAX_GATEWAY_WORKERS_PER_TENANT →
  (∀ mk c, ws !! mk = Some c →
    worker_key c = {| key_tenant := tenant_id t; key_installation := mk.1; key_core := mk.2 |}) →
  (∀ k, is_Some (worker_to_capabilities r !! k) ↔ ∃ c, ws !! map_key k = Some c ∧ worker_key c = k) →
  tenant_wf (set_workers ws r t).
Proof. intros [] ????. by split. Qed.

Lemma add_worker_wf conn caps t :
  tenant_wf t → key_tenant (worker_key conn) = tenant_id t → tenant_wf (add_worker conn caps t).2.
Proof.
  intros Ht Hk. unfold add_worker. destruct (bool_decide _ && _) eqn:Hlimit; [done|]. cbn [snd].
  set (mk := map_key (worker_key conn)) in *.
  assert (Hr : ∀ o, o = workers t !! mk →
    registry_wf match o with Some p => deregister (worker_key p) (registry t) | None => registry t end ∧
    ∀ k, k ≠ worker_key conn → worker_to_capabilities
      match o with Some p => deregister (worker_key p) (registry t) | None => registry t end !! k
      = worker_to_capabilities (registry t) !! k).
  { intros [p|] Hp; [|split; [apply Ht|done]]. symmetry in Hp.
    split; [apply deregister_wf, Ht|]. intros k Hne. rewrite deregister_workers.
    apply (tenant_workers_keyed _ Ht) in Hp. rewrite lookup_delete_ne; [done|]. rewrite Hp. intros <-. apply Hne.
    unfold mk, map_key. destruct (worker_key conn). cbn in *. by subst. }
  destruct (Hr _ eq_refl) as [Hwf Hother]. apply set_workers_wf; [done|by apply register_wf| | |].
  - apply size_insert_le; [|apply Ht]. intros Hn. rewrite bool_decide_eq_true_2 in Hlimit by done.
    cbn in Hlimit. by apply N.leb_gt in Hlimit.
  - intros mk' c. destruct (decide (mk' = mk)) as [->|].
    + rewrite lookup_insert_eq. intros [= <-]. unfold mk, map_key. destruct (worker_key conn). cbn in *. by subst.
    + rewrite lookup_insert_ne by done. apply Ht.
  - intros k. rewrite register_workers. destruct (decide (k = worker_key conn)) as [->|Hne].
    + rewrite lookup_insert_eq. fold mk. rewrite lookup_insert_eq. split; [by eexists|by eexists].
    + rewrite lookup_insert_ne, Hother by done. rewrite (tenant_registered _ Ht).
      destruct (decide (map_key k = mk)) as [E|].
      * rewrite E, lookup_insert_eq. split; [|intros (c & [= <-] & ?); by subst].
        intros (c & Hc & Hck). apply (tenant_workers_keyed _ Ht) in Hc. exfalso. apply Hne.
        rewrite <- Hck, Hc. unfold mk, map_key. destruct (worker_key conn). cbn in *. by subst.
      * by rewrite lookup_insert_ne by done.
Qed.

Lemma remove_worker_wf installation core t : tenant_wf t → tenant_wf (remove_worker installation core t).
Proof.
  intros Ht. unfold remove_worker. destruct (workers t !! (installation, core)) as [conn|] eqn:Hc; [|done].
  apply set_workers_wf; [done|apply deregister_wf, Ht|apply size_delete_le, Ht| |].
  - intros mk c [_ Hm]%lookup_delete_Some. by apply Ht.
  - intros k. rewrite deregister_workers. pose proof (tenant_workers_keyed _ Ht _ _ Hc) as Hk. cbn in Hk.
    destruct (decide (k = worker_key conn)) as [->|Hne].
    + rewrite lookup_delete_eq. split; [by intros [? [=]]|]. intros (c & Hl & _).
      rewrite Hk in Hl. unfold map_key in Hl. cbn in Hl. by rewrite lookup_delete_eq in Hl.
    + rewrite lookup_delete_ne by done. rewrite (tenant_registered _ Ht).
      split; intros (c & Hl & Hck); exists c; (split; [|done]).
      * apply lookup_delete_Some. split; [|done]. intros E. rewrite <- E in Hl. simplify_eq.
      * by apply lookup_delete_Some in Hl as [_ ?].
Qed.
Lemma remove_worker_if_current_wf installation core g t :
  tenant_wf t → tenant_wf (remove_worker_if_current installation core g t).2.
Proof.
  intros Ht. unfold remove_worker_if_current. destruct (workers t !! _) as [w|]; [|done].
  destruct (_ =? _); [by apply remove_worker_wf|done].
Qed.

Lemma set_clients_wf cs ss t :
  tenant_wf t → sizeN cs ≤ MAX_GATEWAY_CLIENTS_PER_TENANT → tenant_wf (set_clients cs ss t).
Proof. intros [] ?. by split. Qed.
Lemma set_pending_wf mesh p t :
  tenant_wf t → sizeN p ≤ MAX_GATEWAY_PENDING_PER_TENANT → tenant_wf (set_pending mesh p t).
Proof.
  intros Ht Hp. pose proof (tenant_pending_bound _ Ht) as Hb. destruct Ht. split; cbn; try done.
  pose proof (Hb true). pose proof (Hb false). by destruct mesh; intros [].
Qed.
Lemma try_add_client_wf conn t : tenant_wf t → tenant_wf (try_add_client conn t).2.
Proof.
  intros Ht. unfold try_add_client. destruct (bool_decide _ && _) eqn:Hlimit; [done|].
  apply set_clients_wf; [done|]. apply size_insert_le; [|apply Ht]. intros Hn.
  rewrite bool_decide_eq_true_2 in Hlimit by done. cbn in Hlimit. by apply N.leb_gt in Hlimit.
Qed.
#[export] Hint Resolve tenant_new_wf add_worker_wf remove_worker_wf remove_worker_if_current_wf set_clients_wf
  set_pending_wf try_add_client_wf : gateway.
