(* ===== verification/GatewayMesh.v ===== *)
(** The mesh relay of the gateway ([crates/appcore-gateway/src/mesh.rs]):
    logical peer RPC requests that travel through the gateway to a worker, and
    their answers. JSON and SHA-256 are arguments. *)

From S2P Require Import Prelude.
From S2P Require Import Text.
From S2P Require Import Types.
From S2P Require Import Timing.
From S2P Require Import Encoding.
From S2P Require Import NonceStore.
From S2P Require Import Manifests.
From S2P Require Import Distributed.
From S2P Require Import PeerValidation.
From S2P Require Import Gateway.

Local Open Scope N_scope.

Definition MESH_HTTP_SCHEMA_V1 : string := "appcore.gateway.mesh-http.v1".
Definition PEER_HEALTH_PATH : string := "/v1/peer/health".
Definition PEER_MANIFEST_PATH : string := "/v1/peer/manifest".
Definition PEER_QUERY_PATH : string := "/v1/peer/query".
Definition PEER_COMMAND_PATH : string := "/v1/peer/command".

(** A logical peer RPC exchange over HTTP
    ([crates/appcore-peer-rpc/src/client.rs]). *)
Record PeerRpcHttpRequest := {
  http_method : string;
  http_path : string;
  http_body : list byte;
  http_bearer_token : option string;
  http_timeout_ms : N;
  http_max_response_bytes : N;
}.
Record PeerRpcHttpResponse := { http_status_code : N; http_response_body : list byte }.

Record MeshPeerRequest := {
  mesh_schema : string;
  mesh_request_id : string;
  mesh_target_tenant_id : string;
  mesh_target_core_id : string;
  mesh_method : string;
  mesh_path : string;
  mesh_body : list byte;
  mesh_bearer_token : option string;
  mesh_timeout_ms : N;
  mesh_max_response_bytes : N;
}.
#[export] Instance MeshPeerRequest_eq_dec : EqDecision MeshPeerRequest.
Proof. solve_decision. Defined.

Record MeshPeerResponse := {
  mesh_response_schema : string;
  mesh_response_id : string;
  mesh_status_code : N;
  mesh_response_body : list byte;
  mesh_error : option string;
}.
#[export] Instance MeshPeerResponse_eq_dec : EqDecision MeshPeerResponse.
Proof. solve_decision. Defined.

(** The serde of the gateway: what encodes and decodes the messages it
    exchanges; an encoding error is its text. *)
Class GatewayJson := {
  envelope_to_json : PeerRpcEnvelope → result string string;
  envelope_of_json : list byte → option PeerRpcEnvelope;
  mesh_request_to_json : MeshPeerRequest → result string string;
  mesh_response_of_json : string → option MeshPeerResponse;
  response_to_json : PeerRpcResponse → result string string;
  response_of_json : string → option PeerRpcResponse;
  heartbeat_kind_of_json : string → option string;
}.

(** ** Requests *)

Definition mesh_request_new (id tenant core : string) (r : PeerRpcHttpRequest) : MeshPeerRequest :=
  {| mesh_schema := MESH_HTTP_SCHEMA_V1; mesh_request_id := id; mesh_target_tenant_id := tenant;
     mesh_target_core_id := core; mesh_method := http_method r; mesh_path := http_path r; mesh_body := http_body r;
     mesh_bearer_token := http_bearer_token r; mesh_timeout_ms := http_timeout_ms r;
     mesh_max_response_bytes := http_max_response_bytes r |}.

Section Requests.
Context (sha256 : list byte → list byte) `{!GatewayJson}.

Definition peer_envelope (q : MeshPeerRequest) : result PeerRpcError.t PeerRpcEnvelope :=
  e ← ok_or (PeerRpcError.InvalidEnvelope "mesh_peer_envelope_invalid") (envelope_of_json (mesh_body q));
  if negb (bool_decide (request_id e = mesh_request_id q))
     || negb (bool_decide (env_tenant_id e = mesh_target_tenant_id q))
     || negb (bool_decide (target_core_id e = mesh_target_core_id q)) then
    Err (PeerRpcError.InvalidEnvelope "mesh_routing_metadata_mismatch")
  else if negb (bool_decide (body_hash e = payload_hash sha256 (payload e))) then Err PeerRpcError.InvalidBodyHash
  else Ok e.

Definition expected_request_hash (q : MeshPeerRequest) : result PeerRpcError.t (option string) :=
  if bool_decide (mesh_method q = "GET") && bool_decide (mesh_path q ∈ [PEER_HEALTH_PATH; PEER_MANIFEST_PATH])
     && bool_decide (mesh_body q = []) then Ok None
  else if bool_decide (mesh_method q = "POST") && bool_decide (mesh_path q ∈ [PEER_QUERY_PATH; PEER_COMMAND_PATH]) then
    e ← peer_envelope q; Ok (Some (envelope_signing_hash sha256 e))
  else Err (PeerRpcError.InvalidEnvelope "mesh_route_not_allowed").

Definition validate_schema (q : MeshPeerRequest) : result PeerRpcError.t () :=
  if negb (bool_decide (mesh_schema q = MESH_HTTP_SCHEMA_V1)) then Err PeerRpcError.ProtocolMismatch
  else if bool_decide (mesh_request_id q = EmptyString) || (MAX_GATEWAY_MESSAGE_BYTES <? lenN (mesh_body q))
          || (mesh_timeout_ms q =? 0) || (as_millis MAX_GATEWAY_REQUEST_TIMEOUT <? mesh_timeout_ms q)
          || (mesh_max_response_bytes q =? 0) || (MAX_GATEWAY_MESSAGE_BYTES <? mesh_max_response_bytes q) then
    Err PeerRpcError.PayloadTooLarge
  else (λ _, ()) <$> expected_request_hash q.

Definition into_peer_request (q : MeshPeerRequest) : result PeerRpcError.t PeerRpcHttpRequest :=
  _ ← validate_schema q;
  Ok {| http_method := mesh_method q; http_path := mesh_path q; http_body := mesh_body q;
        http_bearer_token := mesh_bearer_token q; http_timeout_ms := mesh_timeout_ms q;
        http_max_response_bytes := mesh_max_response_bytes q |}.
End Requests.

(** ** Responses *)

Definition mesh_response_ok (id : string) (r : PeerRpcHttpResponse) : MeshPeerResponse :=
  {| mesh_response_schema := MESH_HTTP_SCHEMA_V1; mesh_response_id := id; mesh_status_code := http_status_code r;
     mesh_response_body := http_response_body r; mesh_error := None |}.
Definition mesh_response_rejected (id error : string) : MeshPeerResponse :=
  {| mesh_response_schema := MESH_HTTP_SCHEMA_V1; mesh_response_id := id; mesh_status_code := 503;
     mesh_response_body := []; mesh_error := Some error |}.
Definition into_peer_response (r : MeshPeerResponse) : result PeerRpcError.t PeerRpcHttpResponse :=
  if negb (bool_decide (mesh_response_schema r = MESH_HTTP_SCHEMA_V1)) then Err PeerRpcError.ProtocolMismatch
  else match mesh_error r with
       | Some e => Err (PeerRpcError.Transport e)
       | None => Ok {| http_status_code := mesh_status_code r; http_response_body := mesh_response_body r |}
       end.
Definition validate_for_request (r : MeshPeerResponse) (id : string) (max_response_bytes : N) :
    result PeerRpcError.t () :=
  if negb (bool_decide (mesh_response_schema r = MESH_HTTP_SCHEMA_V1)) || negb (bool_decide (mesh_response_id r = id))
  then Err (PeerRpcError.InvalidResponse "mesh response identity mismatch")
  else if max_response_bytes <? lenN (mesh_response_body r) then Err PeerRpcError.PayloadTooLarge
  else Ok ().

(** ** The client side of the relay *)

Definition validate_peer_http_request (r : PeerRpcHttpRequest) : result PeerRpcError.t () :=
  if (http_timeout_ms r =? 0) || (as_millis MAX_GATEWAY_REQUEST_TIMEOUT <? http_timeout_ms r)
     || (MAX_GATEWAY_MESSAGE_BYTES <? lenN (http_body r)) || (http_max_response_bytes r =? 0)
     || (MAX_GATEWAY_MESSAGE_BYTES <? http_max_response_bytes r) then Err PeerRpcError.PayloadTooLarge
  else Ok ().

Record MeshPeerTarget := { mesh_tenant : string; mesh_core : string }.

(** [format!("{error:?}")] of an identifier error is the argument [debug]. *)
Definition parse_mesh_target (debug : RuntimeError → string) (base_url : string) :
    result PeerRpcError.t MeshPeerTarget :=
  value ← ok_or (PeerRpcError.Transport "invalid mesh peer URL")
            (match strip_prefix "mesh://" base_url with
             | Some v => Some v
             | None => strip_prefix "appcore-mesh://" base_url
             end);
  parts ← ok_or (PeerRpcError.Transport "invalid mesh peer URL") (split_once "/" value);
  tenant ← map_err (λ e, PeerRpcError.Transport (debug e)) (distributed_identifier_new "TenantId" parts.1);
  core ← map_err (λ e, PeerRpcError.Transport (debug e)) (distributed_identifier_new "CoreId" parts.2);
  Ok {| mesh_tenant := tenant; mesh_core := core |}.

(** The identity of a relayed request: the one of its envelope, or a fresh one
    from the clock, the process and a counter. *)
Definition mesh_request_id_for `{!GatewayJson} (r : PeerRpcHttpRequest) (t : MeshPeerTarget) (now_ms pid counter : N) :
    string :=
  match envelope_of_json (http_body r) with
  | Some e => request_id e
  | None => "mesh-" +:+ mesh_tenant t +:+ "-" +:+ mesh_core t +:+ "-" +:+ show_u64 now_ms +:+ "-"
              +:+ show_u64 pid +:+ "-" +:+ show_u64 counter
  end.

(** ** Lemmas *)

Section Facts.
Context (sha256 : list byte → list byte) `{!GatewayJson}.

Lemma peer_envelope_ok q e :
  peer_envelope sha256 q = Ok e →
  envelope_of_json (mesh_body q) = Some e ∧ request_id e = mesh_request_id q ∧
  env_tenant_id e = mesh_target_tenant_id q ∧ target_core_id e = mesh_target_core_id q ∧
  body_hash e = payload_hash sha256 (payload e).
Proof.
  unfold peer_envelope. destruct (envelope_of_json (mesh_body q)) as [e'|]; [cbn|done].
  destruct (_ || _) eqn:Hm; [done|]. destruct (bool_decide (body_hash e' = _)) eqn:Hh; [|done].
  cbn. intros [= <-].
  apply orb_false_iff in Hm as [Hm H3]. apply orb_false_iff in Hm as [H1 H2].
  rewrite negb_false_iff, bool_decide_eq_true in *. done.
Qed.

(** What a relayed request satisfies: bounded, and an envelope that agrees with
    its routing data for the routes that carry one. *)
Lemma validate_schema_ok q :
  validate_schema sha256 q = Ok () →
  mesh_request_id q ≠ EmptyString ∧ lenN (mesh_body q) ≤ MAX_GATEWAY_MESSAGE_BYTES ∧
  0 < mesh_timeout_ms q ≤ 30000 ∧ 0 < mesh_max_response_bytes q ≤ MAX_GATEWAY_MESSAGE_BYTES ∧
  (mesh_method q = "GET"%string ∧ mesh_body q = [] ∨
   mesh_method q = "POST"%string ∧ ∃ e, peer_envelope sha256 q = Ok e).
Proof.
  unfold validate_schema. destruct (negb _); [done|]. destruct (_ || _) eqn:Hb; [done|].
  rewrite !orb_false_iff, bool_decide_eq_false, !N.ltb_ge, !N.eqb_neq in Hb.
  destruct Hb as [[[[[Hid Hbody] Ht0] Ht] Hm0] Hm]. change (as_millis _) with 30000 in Ht.
  unfold expected_request_hash.
  destruct (bool_decide (mesh_method q = "GET"%string) && _ && _) eqn:Hg.
  - intros _. rewrite !andb_true_iff, !bool_decide_eq_true in Hg. destruct Hg as [[? _] ?].
    split_and!; try done; try lia. by left.
  - clear Hg. destruct (_ && _) eqn:Hp; [|by cbn]. rewrite andb_true_iff, !bool_decide_eq_true in Hp.
    destruct Hp as [? _]. destruct (peer_envelope _ _) as [e|] eqn:He; [|by cbn]. intros _.
    split_and!; try done; try lia. right. eauto.
Qed.

(** A request comes out of the relay as it went in. *)
Lemma mesh_request_roundtrip id tenant core r q :
  into_peer_request sha256 (mesh_request_new id tenant core r) = Ok q → q = r.
Proof.
  unfold into_peer_request. destruct (validate_schema _ _); [|done]. cbn. intros [= <-]. by destruct r.
Qed.
Lemma mesh_response_roundtrip id r : into_peer_response (mesh_response_ok id r) = Ok r.
Proof. by destruct r. Qed.
End Facts.
