(* ===== verification/GatewayRouter.v ===== *)
(** The running gateway ([crates/appcore-gateway/src]): the router that
    correlates requests with the answers of workers ([router.rs]), the loops of
    worker and client sockets ([socket.rs]), the pruning of silent workers
    ([heartbeat.rs]) and the shared state ([state.rs]).

    The tasks of a gateway run on one thread ([runtime.rs]), so a step is what
    a task does between two of its awaits. Channels, heartbeats and one-shot
    senders are cells named by numbers; the sender a request leaves in the
    table is the name of its task. What arrives on sockets, the clock, elapsed
    timeouts and the iteration order of hash maps come with the events. *)

From S2P Require Import Prelude.
From S2P Require Import Text.
From S2P Require Import Types.
From S2P Require Import Timing.
From S2P Require Import Encoding.
From S2P Require Import NonceStore.
From S2P Require Import Distributed.
From S2P Require Import PeerValidation.
From S2P Require Import Gateway.
From S2P Require Import GatewayMesh.

Local Open Scope N_scope.

Definition MAX_IN_FLIGHT_CLIENT_REQUESTS : N := 4096.

(** ** The shared state and the tasks *)

(** WebSocket messages. *)
Inductive Message :=
| TextFrame (text : string)
| BinaryFrame (data : list byte)
| Ping (data : list byte)
| Pong (data : list byte)
| Close.
#[export] Instance Message_eq_dec : EqDecision Message.
Proof. solve_decision. Defined.

(** A bounded channel towards the writer of a socket. A watch receiver sees
    only what is sent after it subscribed: [writer_subscribed] tells whether the
    writer did before the shutdown. *)
Record channel := { queue : list Message; receiver_alive : bool; writer_subscribed : bool }.

Record PendingKey := {
  key_state_id : N; pending_tenant : string; pending_request : string; pending_mesh : bool;
}.
#[export] Instance PendingKey_eq_dec : EqDecision PendingKey.
Proof. solve_decision. Defined.
#[export] Program Instance PendingKey_countable : Countable PendingKey :=
  inj_countable' (λ k, (key_state_id k, pending_tenant k, pending_request k, pending_mesh k))
    (λ t, {| key_state_id := t.1.1.1; pending_tenant := t.1.1.2; pending_request := t.1.2; pending_mesh := t.2 |}) _.
Next Obligation. by intros []. Qed.

Record PendingMetadata := { expected_generation : N; response_limit : option N }.

(** What a routing task carries: the request it was called with, the worker it
    selected and the receiver it awaits. *)
Inductive call := PeerCall (e : PeerRpcEnvelope) | MeshCall (q : MeshPeerRequest).
Inductive answer := PeerAnswer (r : PeerRpcResponse) | MeshAnswer (r : MeshPeerResponse).
Inductive oneshot := Empty | Delivered (a : answer) | SenderDropped.
Record waiting := { wait_call : call; wait_worker : WorkerConnection; wait_rx : oneshot }.

Inductive task_owner := FromClient (socket : nat) (connection : ClientConnection) | FromRelay.
Inductive task_progress := Spawned (e : PeerRpcEnvelope) | Waiting (w : waiting).
Record task := { owner : task_owner; progress : task_progress }.

(** A socket loop that ended awaits the end of its tasks: a worker's then knows
    whether its connection was still current ([ws_closing]). *)
Record WorkerSocket := {
  ws_connection : WorkerConnection; ws_expires_at_ms : N; ws_subscribed : bool; ws_closing : option bool;
}.
Record ClientSocket := {
  cs_connection : ClientConnection; cs_cluster : string; cs_expires_at_ms : N; cs_subscribed : bool;
  cs_closing : bool;
}.

Record world := {
  config : GatewayConfig;
  state_id : N;
  tenants : gmap string TenantState;
  metrics : GatewayMetrics;
  shutdown : bool;
  pending_metadata : gmap PendingKey PendingMetadata;
  connection_generation : N;
  id_counter : N;
  request_slots : N;
  channels : gmap nat channel;
  heartbeats : gmap nat N;
  worker_sockets : gmap nat WorkerSocket;
  client_sockets : gmap nat ClientSocket;
  tasks : gmap nat task;
  fresh : nat;
}.

(** [GatewayState::new] after a successful validation. *)
Definition world_new (c : GatewayConfig) (id : N) : world :=
  {| config := c; state_id := id; tenants := ∅; metrics := metrics_new; shutdown := false; pending_metadata := ∅;
     connection_generation := 1; id_counter := 0; request_slots := MAX_IN_FLIGHT_CLIENT_REQUESTS; channels := ∅;
     heartbeats := ∅; worker_sockets := ∅; client_sockets := ∅; tasks := ∅; fresh := 0 |}.

Definition set_tables (ts : gmap string TenantState) (pm : gmap PendingKey PendingMetadata) (w : world) : world :=
  {| config := config w; state_id := state_id w; tenants := ts; metrics := metrics w; shutdown := shutdown w;
     pending_metadata := pm; connection_generation := connection_generation w; id_counter := id_counter w;
     request_slots := request_slots w; channels := channels w; heartbeats := heartbeats w;
     worker_sockets := worker_sockets w; client_sockets := client_sockets w; tasks := tasks w; fresh := fresh w |}.
Definition set_metrics (m : GatewayMetrics) (w : world) : world :=
  {| config := config w; state_id := state_id w; tenants := tenants w; metrics := m; shutdown := shutdown w;
     pending_metadata := pending_metadata w; connection_generation := connection_generation w;
     id_counter := id_counter w; request_slots := request_slots w; channels := channels w;
     heartbeats := heartbeats w; worker_sockets := worker_sockets w; client_sockets := client_sockets w;
     tasks := tasks w; fresh := fresh w |}.
Definition set_shutdown (w : world) : world :=
  {| config := config w; state_id := state_id w; tenants := tenants w; metrics := metrics w; shutdown := true;
     pending_metadata := pending_metadata w; connection_generation := connection_generation w;
     id_counter := id_counter w; request_slots := request_slots w; channels := channels w;
     heartbeats := heartbeats w; worker_sockets := worker_sockets w; client_sockets := client_sockets w;
     tasks := tasks w; fresh := fresh w |}.
(** The counters: connection generation, identities, free request slots and
    fresh cells. *)
Definition set_counters (g ids slots : N) (f : nat) (w : world) : world :=
  {| config := config w; state_id := state_id w; tenants := tenants w; metrics := metrics w; shutdown := shutdown w;
     pending_metadata := pending_metadata w; connection_generation := g; id_counter := ids; request_slots := slots;
     channels := channels w; heartbeats := heartbeats w; worker_sockets := worker_sockets w;
     client_sockets := client_sockets w; tasks := tasks w; fresh := f |}.
Definition set_cells (cs : gmap nat channel) (hs : gmap nat N) (w : world) : world :=
  {| config := config w; state_id := state_id w; tenants := tenants w; metrics := metrics w; shutdown := shutdown w;
     pending_metadata := pending_metadata w; connection_generation := connection_generation w;
     id_counter := id_counter w; request_slots := request_slots w; channels := cs; heartbeats := hs;
     worker_sockets := worker_sockets w; client_sockets := client_sockets w; tasks := tasks w; fresh := fresh w |}.
Definition set_sockets (ws : gmap nat WorkerSocket) (cs : gmap nat ClientSocket) (w : world) : world :=
  {| config := config w; state_id := state_id w; tenants := tenants w; metrics := metrics w; shutdown := shutdown w;
     pending_metadata := pending_metadata w; connection_generation := connection_generation w;
     id_counter := id_counter w; request_slots := request_slots w; channels := channels w;
     heartbeats := heartbeats w; worker_sockets := ws; client_sockets := cs; tasks := tasks w; fresh := fresh w |}.
Definition set_tasks (ts : gmap nat task) (w : world) : world :=
  {| config := config w; state_id := state_id w; tenants := tenants w; metrics := metrics w; shutdown := shutdown w;
     pending_metadata := pending_metadata w; connection_generation := connection_generation w;
     id_counter := id_counter w; request_slots := request_slots w; channels := channels w;
     heartbeats := heartbeats w; worker_sockets := worker_sockets w; client_sockets := client_sockets w;
     tasks := ts; fresh := fresh w |}.

Definition count (f : GatewayMetrics → GatewayMetrics) (w : world) : world := set_metrics (f (metrics w)) w.
Definition put_tenant (id : string) (t : TenantState) (w : world) : world :=
  set_tables (<[id := t]> (tenants w)) (pending_metadata w) w.
(** [tenants.entry(id).or_insert_with(..)]. *)
Definition tenant_entry (id : string) (w : world) : TenantState := default (tenant_new id) (tenants w !! id).

(** ** Channels, heartbeats, one-shot senders *)

(** [WorkerConnection::send], [ClientConnection::send]: [try_send]. *)
Definition send_message (what : string) (sender : nat) (m : Message) : op world GatewayError () := λ w,
  match channels w !! sender with
  | Some c =>
    if receiver_alive c && (lenN (queue c) <? CONNECTION_BUFFER_CAPACITY) then
      (Ok (), set_cells (<[sender := {| queue := queue c ++ [m]; receiver_alive := true;
                                   writer_subscribed := writer_subscribed c |}]> (channels w)) (heartbeats w) w)
    else (Err (Transport (what +:+ " connection closed")), w)
  | None => (Err (Transport (what +:+ " connection closed")), w)
  end.
Definition worker_send (c : WorkerConnection) (m : Message) : op world GatewayError () :=
  send_message "worker" (worker_sender c) m.
Definition client_send (c : ClientConnection) (m : Message) : op world GatewayError () :=
  send_message "client" (client_sender c) m.
Definition channel_new (w : world) : channel :=
  {| queue := []; receiver_alive := true; writer_subscribed := negb (shutdown w) |}.
Definition close_channel (sender : nat) (w : world) : world :=
  set_cells (<[sender := {| queue := []; receiver_alive := false; writer_subscribed := false |}]> (channels w)) (heartbeats w) w.
Definition update_heartbeat (c : WorkerConnection) (now_ms : N) (w : world) : world :=
  set_cells (channels w) (<[last_heartbeat_ms c := now_ms]> (heartbeats w)) w.
Definition last_heartbeat (c : WorkerConnection) (w : world) : N := default 0 (heartbeats w !! last_heartbeat_ms c).

(** The receiver of a task, if it is still waiting on an empty channel. *)
Definition resolve_oneshot (rx : oneshot) (t : task) : task :=
  match progress t with
  | Waiting wt =>
    match wait_rx wt with
    | Empty => {| owner := owner t;
                  progress := Waiting {| wait_call := wait_call wt; wait_worker := wait_worker wt; wait_rx := rx |} |}
    | _ => t
    end
  | Spawned _ => t
  end.
Definition send_oneshot (sender : nat) (a : answer) (w : world) : world :=
  set_tasks (alter (resolve_oneshot (Delivered a)) sender (tasks w)) w.
Definition drop_sender (sender : nat) (w : world) : world :=
  set_tasks (alter (resolve_oneshot SenderDropped) sender (tasks w)) w.

(** ** Pending requests *)

Definition pending_key (tenant request : string) (mesh : bool) (w : world) : PendingKey :=
  {| key_state_id := state_id w; pending_tenant := tenant; pending_request := request; pending_mesh := mesh |}.
Definition register_pending_metadata (tenant request : string) (mesh : bool) (generation : N) (limit : option N)
    (w : world) : world :=
  set_tables (tenants w) (<[pending_key tenant request mesh w :=
    {| expected_generation := generation; response_limit := limit |}]> (pending_metadata w)) w.
Definition remove_pending_metadata (tenant request : string) (mesh : bool) (w : world) : world :=
  set_tables (tenants w) (delete (pending_key tenant request mesh w) (pending_metadata w)) w.

(** [cleanup_pending_request], [cleanup_pending_mesh_request]. *)
Definition cleanup_pending (mesh : bool) (tenant request : string) (w : world) : world :=
  let w := match tenants w !! tenant with
           | Some t =>
             let w' := put_tenant tenant (set_pending mesh (delete request (pending mesh t)) t) w in
             match pending mesh t !! request with
             | Some tx => drop_sender tx w'
             | None => w'
             end
           | None => w
           end in
  remove_pending_metadata tenant request mesh w.

Definition orphaned_response (tenant request : string) (mesh : bool) : GatewayError :=
  Protocol ("orphaned " +:+ (if mesh then "worker mesh " else "worker ") +:+ "response or timeout for tenant "
            +:+ tenant +:+ " request: " +:+ request).

Definition answer_id (a : answer) : string :=
  match a with PeerAnswer r => rpc_request_id r | MeshAnswer r => mesh_response_id r end.
Definition answer_mesh (a : answer) : bool := match a with PeerAnswer _ => false | MeshAnswer _ => true end.
(** The condition on the metadata of the pending request. *)
Definition expected_from (generation : option N) (a : answer) (m : PendingMetadata) : bool :=
  match generation with Some g => g =? expected_generation m | None => true end
  && match a with
     | PeerAnswer _ => true
     | MeshAnswer r => match response_limit m with
                       | Some limit => is_ok (validate_for_request r (mesh_response_id r) limit)
                       | None => false
                       end
     end.
(** [dispatch_worker_response], [dispatch_worker_mesh_response]. *)
Definition dispatch_worker_answer (tenant : string) (generation : option N) (a : answer) : op world GatewayError () :=
  λ w,
  let request := answer_id a in
  let mesh := answer_mesh a in
  match tenants w !! tenant with
  | Some t =>
    match pending_metadata w !! pending_key tenant request mesh w with
    | Some m =>
      if expected_from generation a m then
        let w := remove_pending_metadata tenant request mesh w in
        match pending mesh t !! request with
        | Some tx =>
          (Ok (), send_oneshot tx a (put_tenant tenant (set_pending mesh (delete request (pending mesh t)) t) w))
        | None => (Err (orphaned_response tenant request mesh), w)
        end
      else (Err (orphaned_response tenant request mesh), w)
    | None => (Err (orphaned_response tenant request mesh), w)
    end
  | None => (Err (orphaned_response tenant request mesh), w)
  end.

(** ** Routing *)

Section Routing.
Context (sha256 : list byte → list byte) `{!GatewayJson}.

Definition validate_routing_envelope (e : PeerRpcEnvelope) (now_ms : N) : option string :=
  if negb (env_protocol_version e =? default_protocol_version) then Some "protocol_version_unsupported"%string
  else if expires_at_ms e <=? timestamp_ms e then Some "envelope_expiry_invalid"%string
  else if expires_at_ms e <=? now_ms then Some "envelope_expired"%string
  else if negb (bool_decide (body_hash e = payload_hash sha256 (payload e))) then Some "body_hash_invalid"%string
  else if MAX_GATEWAY_MESSAGE_BYTES <? lenN (payload e) then Some "payload_too_large"%string
  else None.

Definition call_tenant (c : call) : string :=
  match c with PeerCall e => env_tenant_id e | MeshCall q => mesh_target_tenant_id q end.
Definition call_request (c : call) : string :=
  match c with PeerCall e => request_id e | MeshCall q => mesh_request_id q end.
Definition call_core (c : call) : string :=
  match c with PeerCall e => target_core_id e | MeshCall q => mesh_target_core_id q end.
Definition call_mesh (c : call) : bool := match c with PeerCall _ => false | MeshCall _ => true end.
Definition call_limit (c : call) : option N :=
  match c with PeerCall _ => None | MeshCall q => Some (mesh_max_response_bytes q) end.
Definition call_json (c : call) : result string string :=
  match c with PeerCall e => envelope_to_json e | MeshCall q => mesh_request_to_json q end.
Definition rejected (c : call) (reason : string) : answer :=
  match c with
  | PeerCall e => PeerAnswer (rpc_response_rejected (request_id e) reason)
  | MeshCall q => MeshAnswer (mesh_response_rejected (mesh_request_id q) reason)
  end.

(** The filter on the worker: the cluster and an advertised capability. *)
Definition serves (t : TenantState) (e : PeerRpcEnvelope) (worker : WorkerConnection) : bool :=
  bool_decide (worker_cluster worker = Some (env_cluster_id e))
  && match registry_resolve (capability e) (registry t) with
     | Some ws => bool_decide (worker_key worker ∈ ws)
     | None => false
     end.
Definition compatible (t : TenantState) (c : call) (worker : WorkerConnection) : bool :=
  match c with
  | PeerCall e => serves t e worker
  | MeshCall q => match peer_envelope sha256 q with Ok e => serves t e worker | Err _ => true end
  end.

(** [GatewayError]'s [Debug] form of the only error of [send]. *)
Definition forward_failed (what : string) : string :=
  "forward_failed: Transport(" +:+ String "034" (what +:+ " connection closed" +:+ String "034" ")").

Definition fail (c : call) (reason : string) (w : world) : answer * world :=
  (rejected c reason, count routing_failure w).

(** The second half of a route before its await: the request is registered
    under [tid] and forwarded. A failure cleans up, and the guard that is
    dropped on return cleans up again. *)
Definition register_and_forward (c : call) (worker : WorkerConnection) (tid : nat) (t : TenantState) (w : world) :
    (answer + waiting) * world :=
  let mesh := call_mesh c in
  let w := put_tenant (call_tenant c) (set_pending mesh (<[call_request c := tid]> (pending mesh t)) t) w in
  let w := register_pending_metadata (call_tenant c) (call_request c) mesh (worker_generation worker)
             (call_limit c) w in
  let failed reason w :=
    let '(a, w) := fail c reason w in
    (inl a, cleanup_pending mesh (call_tenant c) (call_request c)
              (cleanup_pending mesh (call_tenant c) (call_request c) w)) in
  match call_json c with
  | Err e => failed ("serialization_failed: " +:+ e) w
  | Ok text =>
    match worker_send worker (TextFrame text) w with
    | (Err _, w) => failed (forward_failed "worker") w
    | (Ok (), w) => (inr {| wait_call := c; wait_worker := worker; wait_rx := Empty |}, w)
    end
  end.

(** [route_request] up to its await. *)
Definition route_request (e : PeerRpcEnvelope) (tid : nat) (now_ms : N) (it : iteration) (w : world) :
    (answer + waiting) * world :=
  let c := PeerCall e in
  match validate_routing_envelope e now_ms with
  | Some reason => let '(a, w) := fail c reason w in (inl a, w)
  | None =>
    let t := tenant_entry (env_tenant_id e) w in
    let w := put_tenant (env_tenant_id e) t w in
    match get_worker_by_core it (target_core_id e) t with
    | Some worker =>
      if compatible t c worker then
        if negb (can_register_pending (request_id e) false t) then
          let '(a, w) := fail c "pending_request_rejected" w in (inl a, w)
        else register_and_forward c worker tid t w
      else let '(a, w) := fail c ("compatible_worker_unavailable: " +:+ capability e) w in (inl a, w)
    | None => let '(a, w) := fail c ("compatible_worker_unavailable: " +:+ capability e) w in (inl a, w)
    end
  end.

(** [route_mesh_request] up to its await; [error] prints a [PeerRpcError]. *)
Definition route_mesh_request (error : PeerRpcError.t → string) (q : MeshPeerRequest) (tid : nat) (it : iteration)
    (w : world) : (answer + waiting) * world :=
  let c := MeshCall q in
  match validate_schema sha256 q with
  | Err e => let '(a, w) := fail c (error e) w in (inl a, w)
  | Ok () =>
    match tenants w !! mesh_target_tenant_id q with
    | None => let '(a, w) := fail c "tenant_unavailable" w in (inl a, w)
    | Some t =>
      match get_worker_by_core it (mesh_target_core_id q) t with
      | Some worker =>
        if compatible t c worker then
          if negb (can_register_pending (mesh_request_id q) true t) then
            let '(a, w) := fail c "pending_request_rejected" w in (inl a, w)
          else register_and_forward c worker tid t w
        else let '(a, w) := fail c "worker_offline" w in (inl a, w)
      | None => let '(a, w) := fail c "worker_offline" w in (inl a, w)
      end
    end
  end.

(** The [select!] of both routes: [None] while nothing is ready. *)
Definition poll_route (wt : waiting) (elapsed : bool) (w : world) : option (answer * world) :=
  if shutdown w then Some (fail (wait_call wt) "gateway_shutting_down" w)
  else
    match wait_rx wt with
    | Delivered a => Some (a, count message_routed w)
    | SenderDropped => Some (fail (wait_call wt) "worker_connection_lost" w)
    | Empty => if elapsed then Some (fail (wait_call wt) "worker_response_timeout" w) else None
    end.

(** Dropping a routing task: the guard [PendingCleanup] runs once the request
    was registered. *)
Definition drop_task (tk : task) (w : world) : world :=
  match progress tk with
  | Waiting wt => cleanup_pending (call_mesh (wait_call wt)) (call_tenant (wait_call wt)) (call_request (wait_call wt)) w
  | Spawned _ => w
  end.
(** A client's task ends: it gives back its slot. *)
Definition release_slot (o : task_owner) (w : world) : world :=
  match o with
  | FromClient _ _ =>
    set_counters (connection_generation w) (id_counter w) (request_slots w + 1) (fresh w) w
  | FromRelay => w
  end.
Definition remove_task (tid : nat) (w : world) : world := set_tasks (delete tid (tasks w)) w.

(** What the closure of [handle_client_message] does with the answer. *)
Definition deliver_answer (o : task_owner) (a : answer) (w : world) : world :=
  match o, a with
  | FromClient _ connection, PeerAnswer r =>
    match response_to_json r with
    | Ok text => (client_send connection (TextFrame text) w).2
    | Err _ => w
    end
  | _, _ => w
  end.
Definition finish_task (tid : nat) (o : task_owner) (a : answer) (w : world) : world :=
  release_slot o (deliver_answer o a (remove_task tid w)).

(** [abort_all] was called on the tasks of the client's socket. *)
Definition aborted (o : task_owner) (w : world) : bool :=
  match o with
  | FromClient socket _ => match client_sockets w !! socket with Some s => cs_closing s | None => true end
  | FromRelay => false
  end.
Definition start_task (tid : nat) (now_ms : N) (it : iteration) (w : world) : world * option answer :=
  match tasks w !! tid with
  | Some {| owner := o; progress := Spawned e |} =>
    if aborted o w then (w, None) else
    match route_request e tid now_ms it w with
    | (inl a, w) => (finish_task tid o a w, Some a)
    | (inr wt, w) => (set_tasks (<[tid := {| owner := o; progress := Waiting wt |}]> (tasks w)) w, None)
    end
  | _ => (w, None)
  end.
Definition wake_task (tid : nat) (elapsed : bool) (w : world) : world * option answer :=
  match tasks w !! tid with
  | Some tk =>
    match progress tk with
    | Waiting wt =>
      if aborted (owner tk) w then (w, None) else
      match poll_route wt elapsed w with
      | Some (a, w) => (finish_task tid (owner tk) a (drop_task tk w), Some a)
      | None => (w, None)
      end
    | Spawned _ => (w, None)
    end
  | None => (w, None)
  end.
Definition abort_task (tid : nat) (w : world) : world :=
  match tasks w !! tid with
  | Some tk => release_slot (owner tk) (drop_task tk (remove_task tid w))
  | None => w
  end.

(** ** Sockets *)

Record WorkerSocketContext := {
  ctx_tenant_id : string; ctx_cluster_id : string; ctx_installation_id : string; ctx_core_id : string;
  ctx_capabilities : list string; ctx_expires_at_ms : N;
}.

Definition connection_count (ts : gmap string TenantState) : N :=
  map_total (λ t, sizeN (workers t) + sizeN (clients t)) ts.
Definition tenant_limit_reached (tenant : string) (w : world) : bool :=
  bool_decide (tenants w !! tenant = None) && (MAX_GATEWAY_TENANTS <=? sizeN (tenants w)).

(** [fetch_add(1)] on the generation and the identity counter. *)
Definition take_generation (w : world) : N * world :=
  (connection_generation w,
   set_counters (fetch_inc (connection_generation w)) (id_counter w) (request_slots w) (fresh w) w).
Definition unique_id (prefix : string) (pid now_ms : N) (w : world) : string * world :=
  (prefix +:+ "-" +:+ show_u64 pid +:+ "-" +:+ show_u64 now_ms +:+ "-" +:+ show_u64 (id_counter w),
   set_counters (connection_generation w) (fetch_inc (id_counter w)) (request_slots w) (fresh w) w).
(** A fresh cell: a channel, a heartbeat, a socket or a task. *)
Definition fresh_cell (w : world) : nat * world :=
  (fresh w, set_counters (connection_generation w) (id_counter w) (request_slots w) (S (fresh w)) w).

(** The head of [handle_worker_socket]. *)
Definition worker_connect (ctx : WorkerSocketContext) (now_ms : N) (w : world) : world :=
  let '(cell, w) := fresh_cell w in
  let w := set_cells (<[cell := channel_new w]> (channels w))
             (<[cell := now_ms]> (heartbeats w)) w in
  let '(generation, w) := take_generation w in
  let key := {| key_tenant := ctx_tenant_id ctx; key_installation := ctx_installation_id ctx;
                key_core := ctx_core_id ctx |} in
  let conn := {| worker_key := key; worker_sender := cell; worker_cluster := Some (ctx_cluster_id ctx);
                 worker_generation := generation; last_heartbeat_ms := cell |} in
  if tenant_limit_reached (ctx_tenant_id ctx) w then close_channel cell w
  else if MAX_GATEWAY_CONNECTIONS <=? connection_count (tenants w) then close_channel cell w
  else
    let t := tenant_entry (ctx_tenant_id ctx) w in
    let replaced := bool_decide (get_worker (ctx_installation_id ctx) (ctx_core_id ctx) t ≠ None) in
    match add_worker conn (ctx_capabilities ctx) t with
    | (Err _, t) => close_channel cell (put_tenant (ctx_tenant_id ctx) t w)
    | (Ok (), t) =>
      let w := put_tenant (ctx_tenant_id ctx) t w in
      let w := if replaced then w else count worker_connected w in
      set_sockets (<[cell := {| ws_connection := conn; ws_expires_at_ms := ctx_expires_at_ms ctx;
                              ws_subscribed := negb (shutdown w); ws_closing := None |}]>
                     (worker_sockets w)) (client_sockets w) w
    end.

(** [remove_worker_if_current] on the tenant of a connection. *)
Definition take_worker (c : WorkerConnection) (w : world) : bool * world :=
  let tenant := key_tenant (worker_key c) in
  match tenants w !! tenant with
  | Some t =>
    let '(removed, t) := remove_worker_if_current (key_installation (worker_key c)) (key_core (worker_key c))
                           (worker_generation c) t in
    (removed, put_tenant tenant t w)
  | None => (false, w)
  end.
(** The tail of [handle_worker_socket], up to its await and after it. *)
Definition close_worker_socket (socket : nat) (s : WorkerSocket) (w : world) : world :=
  let '(removed, w) := take_worker (ws_connection s) w in
  let w := close_channel (worker_sender (ws_connection s)) w in
  set_sockets (<[socket := {| ws_connection := ws_connection s; ws_expires_at_ms := ws_expires_at_ms s;
                              ws_subscribed := ws_subscribed s; ws_closing := Some removed |}]> (worker_sockets w))
    (client_sockets w) w.
Definition worker_closed (socket : nat) (w : world) : world :=
  match worker_sockets w !! socket with
  | Some s =>
    match ws_closing s with
    | Some removed =>
      let w := if removed then count worker_disconnected w else w in
      set_sockets (delete socket (worker_sockets w)) (client_sockets w) w
    | None => w
    end
  | None => w
  end.

(** [.is_ok()] of a call whose effect stays. *)
Definition succeeds (o : op world GatewayError ()) (w : world) : bool * world :=
  let '(r, w) := o w in (is_ok r, w).

Definition handle_worker_message (c : WorkerConnection) (now_ms : N) (m : Message) (w : world) : bool * world :=
  let tenant := key_tenant (worker_key c) in
  match m with
  | TextFrame text =>
    if str_len text <=? MAX_GATEWAY_MESSAGE_BYTES then
      if bool_decide (heartbeat_kind_of_json text = Some "heartbeat"%string) then (true, update_heartbeat c now_ms w)
      else
        match mesh_response_of_json text with
        | Some r => succeeds (dispatch_worker_answer tenant (Some (worker_generation c)) (MeshAnswer r))
                      (update_heartbeat c now_ms w)
        | None =>
          match response_of_json text with
          | Some r => succeeds (dispatch_worker_answer tenant (Some (worker_generation c)) (PeerAnswer r))
                        (update_heartbeat c now_ms w)
          | None => (false, w)
          end
        end
    else (false, w)
  | Ping data => succeeds (worker_send c (Pong data)) (update_heartbeat c now_ms w)
  | Pong _ => (true, update_heartbeat c now_ms w)
  | Close | BinaryFrame _ => (false, w)
  end.

(** One turn of the loop of [handle_worker_socket]; no message stands for the
    end of the stream, an error or the timeout. *)
Definition worker_socket_step (socket : nat) (now_ms : N) (input : option Message) (w : world) : world :=
  match worker_sockets w !! socket with
  | Some s =>
    if bool_decide (ws_closing s ≠ None) then w
    else if shutdown w && ws_subscribed s then close_worker_socket socket s w
    else
      match input with
      | Some m =>
        let '(continues, w) := handle_worker_message (ws_connection s) now_ms m w in
        if continues then w else close_worker_socket socket s w
      | None => close_worker_socket socket s w
      end
  | None => w
  end.

(** The head of [handle_client_socket]. *)
Definition client_connect (tenant cluster : string) (expires_at_ms : N) (subject : option string) (pid now_ms : N)
    (w : world) : world :=
  let '(session, w) := unique_id "sess" pid now_ms w in
  let '(connection_id, w) := unique_id "conn" pid now_ms w in
  let '(cell, w) := fresh_cell w in
  let w := set_cells (<[cell := channel_new w]> (channels w)) (heartbeats w) w in
  let conn := {| client_connection_id := connection_id; client_tenant := tenant; client_session := session;
                 client_sender := cell |} in
  if tenant_limit_reached tenant w then close_channel cell w
  else if MAX_GATEWAY_CONNECTIONS <=? connection_count (tenants w) then close_channel cell w
  else
    match try_add_client conn (tenant_entry tenant w) with
    | (Err _, t) => close_channel cell (put_tenant tenant t w)
    | (Ok (), t) =>
      let s := {| session_id := session; session_tenant := tenant; created_at_ms := now_ms;
                  session_expires_at_ms := expires_at_ms; session_subject := subject |} in
      let w := put_tenant tenant (set_clients (clients t) (<[session := s]> (sessions t)) t) w in
      let w := count client_connected w in
      set_sockets (worker_sockets w)
        (<[cell := {| cs_connection := conn; cs_cluster := cluster; cs_expires_at_ms := expires_at_ms;
                     cs_subscribed := negb (shutdown w); cs_closing := false |}]>
           (client_sockets w)) w
    end.

(** The tasks of a client socket. *)
Definition owned_by (socket : nat) (tk : task) : bool :=
  match owner tk with FromClient s _ => bool_decide (s = socket) | FromRelay => false end.
Definition tasks_of (socket : nat) (w : world) : list nat :=
  (map_to_list (filter (λ e, owned_by socket e.2 = true) (tasks w))).*1.

(** The tail of [handle_client_socket], up to its await: the tasks are aborted,
    each is dropped at its next turn; and after all of them are gone. *)
Definition close_client_socket (socket : nat) (s : ClientSocket) (w : world) : world :=
  let c := cs_connection s in
  let w := match tenants w !! client_tenant c with
           | Some t =>
             let t := remove_client (client_connection_id c) t in
             put_tenant (client_tenant c) (set_clients (clients t) (delete (client_session c) (sessions t)) t) w
           | None => w
           end in
  set_sockets (worker_sockets w)
    (<[socket := {| cs_connection := c; cs_cluster := cs_cluster s; cs_expires_at_ms := cs_expires_at_ms s;
                    cs_subscribed := cs_subscribed s; cs_closing := true |}]> (client_sockets w)) w.
Definition client_closed (socket : nat) (w : world) : world :=
  match client_sockets w !! socket with
  | Some s =>
    if cs_closing s && bool_decide (tasks_of socket w = []) then
      let w := close_channel (client_sender (cs_connection s)) w in
      count client_disconnected (set_sockets (worker_sockets w) (delete socket (client_sockets w)) w)
    else w
  | None => w
  end.

Definition send_rejection (c : ClientConnection) (request reason : string) (w : world) : world :=
  match response_to_json (rpc_response_rejected request reason) with
  | Ok text => (client_send c (TextFrame text) w).2
  | Err _ => w
  end.

Definition handle_client_message (socket : nat) (s : ClientSocket) (now_ms : N) (m : Message) (w : world) :
    bool * world :=
  let c := cs_connection s in
  if cs_expires_at_ms s <=? now_ms then (false, w)
  else
    match m with
    | TextFrame text =>
      if MAX_GATEWAY_MESSAGE_BYTES <? str_len text then (false, w)
      else
        match envelope_of_json (str_bytes text) with
        | None => (false, w)
        | Some e =>
          if negb (bool_decide (env_tenant_id e = client_tenant c)) || negb (bool_decide (env_cluster_id e = cs_cluster s))
          then (true, send_rejection c (request_id e) "session_boundary_violation" w)
          else if request_slots w =? 0 then (true, send_rejection c (request_id e) "gateway_overloaded" w)
          else
            let '(tid, w) := fresh_cell w in
            let w := set_counters (connection_generation w) (id_counter w) (request_slots w - 1) (fresh w) w in
            (true, set_tasks (<[tid := {| owner := FromClient socket c; progress := Spawned e |}]> (tasks w)) w)
        end
    | Ping data => succeeds (client_send c (Pong data)) w
    | Pong _ => (true, w)
    | Close | BinaryFrame _ => (false, w)
    end.

Definition client_socket_step (socket : nat) (now_ms : N) (input : option Message) (w : world) : world :=
  match client_sockets w !! socket with
  | Some s =>
    if cs_closing s then w
    else if shutdown w && cs_subscribed s then close_client_socket socket s w
    else
      match input with
      | Some m =>
        let '(continues, w) := handle_client_message socket s now_ms m w in
        if continues then w else close_client_socket socket s w
      | None => close_client_socket socket s w
      end
  | None => w
  end.

(** [spawn_socket_writer]: one turn; [sent] is the outcome of the sink. *)
Definition writer_step (sender : nat) (sent : bool) (w : world) : world :=
  match channels w !! sender with
  | Some c =>
    if shutdown w && writer_subscribed c then close_channel sender w
    else
      match queue c with
      | _ :: rest =>
        if sent then
          set_cells (<[sender := {| queue := rest; receiver_alive := receiver_alive c;
                                  writer_subscribed := writer_subscribed c |}]> (channels w)) (heartbeats w) w
        else close_channel sender w
      | [] => w
      end
  | None => w
  end.

(** ** [heartbeat.rs]: one tick *)

Definition stale_workers (now_ms : N) (w : world) : list WorkerConnection :=
  flat_map (λ e : string * TenantState,
    filter (λ c, as_millis (heartbeat_timeout (config w)) < now_ms - last_heartbeat c w)
      (map_to_list (workers e.2)).*2) (map_to_list (tenants w)).
Definition prune_worker (w : world) (c : WorkerConnection) : world :=
  let '(removed, w) := take_worker c w in if removed then count worker_disconnected w else w.
Definition prune (now_ms : N) (w : world) : world := foldl prune_worker w (stale_workers now_ms w).

(** The mesh relay after its authentication ([mesh_peer_relay_handler]). *)
Definition relay_request (error : PeerRpcError.t → string) (q : MeshPeerRequest) (it : iteration) (w : world) :
    world * option answer :=
  let '(tid, w) := fresh_cell w in
  match route_mesh_request error q tid it w with
  | (inl a, w) => (w, Some a)
  | (inr wt, w) => (set_tasks (<[tid := {| owner := FromRelay; progress := Waiting wt |}]> (tasks w)) w, None)
  end.

(** ** Runs *)

Inductive event :=
| WorkerConnect (ctx : WorkerSocketContext) (now_ms : N)
| WorkerInput (socket : nat) (now_ms : N) (input : option Message)
| ClientConnect (tenant cluster : string) (expires_at_ms : N) (subject : option string) (pid now_ms : N)
| ClientInput (socket : nat) (now_ms : N) (input : option Message)
| StartTask (tid : nat) (now_ms : N) (it : iteration)
| WakeTask (tid : nat) (elapsed : bool)
| RelayRequest (q : MeshPeerRequest) (it : iteration)
| DropTask (tid : nat)
| WorkerClosed (socket : nat)
| ClientClosed (socket : nat)
| Write (sender : nat) (sent : bool)
| Prune (now_ms : N)
| RequestShutdown.

(** A step, and the answer of the task that it ended. *)
Definition step (error : PeerRpcError.t → string) (e : event) (w : world) : world * option answer :=
  match e with
  | WorkerConnect ctx now => (worker_connect ctx now w, None)
  | WorkerInput s now m => (worker_socket_step s now m w, None)
  | ClientConnect tenant cluster expires subject pid now =>
    (client_connect tenant cluster expires subject pid now w, None)
  | ClientInput s now m => (client_socket_step s now m w, None)
  | StartTask tid now it => start_task tid now it w
  | WakeTask tid elapsed => wake_task tid elapsed w
  | RelayRequest q it => relay_request error q it w
  | DropTask tid => (match tasks w !! tid with
                     | Some {| owner := FromRelay |} => abort_task tid w
                     | Some tk => if aborted (owner tk) w then abort_task tid w else w
                     | None => w
                     end, None)
  | WorkerClosed s => (worker_closed s w, None)
  | ClientClosed s => (client_closed s w, None)
  | Write sender sent => (writer_step sender sent w, None)
  | Prune now => (prune now w, None)
  | RequestShutdown => (set_shutdown w, None)
  end.
Definition run (error : PeerRpcError.t → string) (es : list event) (w : world) : world :=
  foldl (λ w e, (step error e w).1) w es.
End Routing.
