(* ===== verification/GatewayInvariant.v ===== *)
(** What holds in every run of the gateway: its tables agree with each other
    and with the tasks, its limits hold, and an answer that a task received
    came from the worker connection the task had selected. *)

From S2P Require Import Prelude.
From S2P Require Import Text.
From S2P Require Import Types.
From S2P Require Import Timing.
From S2P Require Import Encoding.
From S2P Require Import NonceStore.
From S2P Require Import Distributed.
From S2P Require Import PeerValidation.
From S2P Require Import Gateway.
From S2P Require Import GatewayMesh.
From S2P Require Import GatewayRouter.

Local Open Scope N_scope.

(** ** The invariant *)

Definition worker_total (ts : gmap string TenantState) : N := map_total (λ t, sizeN (workers t)) ts.
(** Sockets that took their worker out but have not counted it yet. *)
Definition leaving (s : WorkerSocket) : N := if bool_decide (ws_closing s = Some true) then 1 else 0.
Definition is_client_task (tk : task) : N := match owner tk with FromClient _ _ => 1 | FromRelay => 0 end.

(** A connection that the tenants, a socket or a task refers to. *)
Definition connection_in (w : world) (c : WorkerConnection) : Prop :=
  (∃ id t mk, tenants w !! id = Some t ∧ workers t !! mk = Some c)
  ∨ (∃ s ws, worker_sockets w !! s = Some ws ∧ ws_connection ws = c)
  ∨ (∃ tid o wt, tasks w !! tid = Some {| owner := o; progress := Waiting wt |} ∧ wait_worker wt = c).

(** The entry of the table of pending requests that belongs to a call. *)
Definition registered (w : world) (c : call) (tid : nat) : Prop :=
  ∃ t, tenants w !! call_tenant c = Some t ∧ pending (call_mesh c) t !! call_request c = Some tid.
Definition metadata_of (wt : waiting) : PendingMetadata :=
  {| expected_generation := worker_generation (wait_worker wt); response_limit := call_limit (wait_call wt) |}.
Definition within_limit (c : call) (a : answer) : Prop :=
  match c, a with
  | PeerCall _, PeerAnswer _ => True
  | MeshCall q, MeshAnswer r => lenN (mesh_response_body r) ≤ mesh_max_response_bytes q
  | _, _ => False
  end.
(** The worker fits the request it was selected for. *)
Definition selected (c : call) (worker : WorkerConnection) : Prop :=
  key_tenant (worker_key worker) = call_tenant c ∧ key_core (worker_key worker) = call_core c ∧
  ∀ e, c = PeerCall e → worker_cluster worker = Some (env_cluster_id e).

(** [came c worker a]: what is known of an answer that was delivered. *)
Record wf (came : call → WorkerConnection → answer → Prop) (w : world) : Prop := {
  wf_tenants id t : tenants w !! id = Some t → tenant_id t = id ∧ tenant_wf t;
  wf_tenant_count : sizeN (tenants w) ≤ MAX_GATEWAY_TENANTS;
  wf_connections : connection_count (tenants w) ≤ MAX_GATEWAY_CONNECTIONS;
  wf_active : active_workers (metrics w) = worker_total (tenants w) + map_total leaving (worker_sockets w);
  wf_gauge : active_workers (metrics w) < connection_generation w;
  wf_socket_fresh s : is_Some (worker_sockets w !! s) → (s < fresh w)%nat;
  wf_slots : map_total is_client_task (tasks w) + request_slots w = MAX_IN_FLIGHT_CLIENT_REQUESTS;
  wf_clients s cs : client_sockets w !! s = Some cs → is_Some (tenants w !! client_tenant (cs_connection cs));
  wf_spawned tid o e :
    tasks w !! tid = Some {| owner := o; progress := Spawned e |} → is_Some (tenants w !! env_tenant_id e);
  wf_fresh tid : is_Some (tasks w !! tid) → (tid < fresh w)%nat;
  wf_pending id t mesh r tx :
    tenants w !! id = Some t → pending mesh t !! r = Some tx →
    ∃ o wt, tasks w !! tx = Some {| owner := o; progress := Waiting wt |} ∧ wait_rx wt = Empty ∧
      call_tenant (wait_call wt) = id ∧ call_request (wait_call wt) = r ∧ call_mesh (wait_call wt) = mesh ∧
      pending_metadata w !! pending_key id r mesh w = Some (metadata_of wt);
  wf_metadata id r mesh :
    is_Some (pending_metadata w !! pending_key id r mesh w) →
    ∃ t, tenants w !! id = Some t ∧ is_Some (pending mesh t !! r);
  wf_waiting tid o wt :
    tasks w !! tid = Some {| owner := o; progress := Waiting wt |} → wait_rx wt = Empty →
    registered w (wait_call wt) tid;
  wf_selected tid o wt :
    tasks w !! tid = Some {| owner := o; progress := Waiting wt |} → selected (wait_call wt) (wait_worker wt);
  wf_delivered tid o wt a :
    tasks w !! tid = Some {| owner := o; progress := Waiting wt |} → wait_rx wt = Delivered a →
    answer_id a = call_request (wait_call wt) ∧ within_limit (wait_call wt) a ∧
    came (wait_call wt) (wait_worker wt) a;
  wf_generation c : connection_in w c → worker_generation c < connection_generation w;
  wf_unique c c' : connection_in w c → connection_in w c' → worker_generation c = worker_generation c' → c = c';
}.

Section Invariant.
Context (came : call → WorkerConnection → answer → Prop) {json : GatewayJson}.
Local Abbreviation wf := (wf came).
Implicit Type w : world.

(** Parts of the world that the invariant does not read. *)
Lemma wf_frame w w' :
  wf w → state_id w' = state_id w → tenants w' = tenants w → pending_metadata w' = pending_metadata w →
  tasks w' = tasks w → worker_sockets w' = worker_sockets w → client_sockets w' = client_sockets w →
  connection_generation w' = connection_generation w → fresh w' = fresh w → request_slots w' = request_slots w →
  active_workers (metrics w') = active_workers (metrics w) → wf w'.
Proof.
  intros Hw Hid Ht Hm Htk Hws Hcs Hg Hf Hs Ha. destruct Hw.
  split; unfold connection_in, registered, pending_key in *; rewrite ?Hid, ?Ht, ?Hm, ?Htk, ?Hws, ?Hcs, ?Hg, ?Hf, ?Hs, ?Ha;
    assumption.
Qed.

Lemma wf_set_cells cs hs w : wf w → wf (set_cells cs hs w).
Proof. intros Hw. by apply (wf_frame w). Qed.
Lemma wf_close_channel s w : wf w → wf (close_channel s w).
Proof. apply wf_set_cells. Qed.
Lemma wf_update_heartbeat c now w : wf w → wf (update_heartbeat c now w).
Proof. apply wf_set_cells. Qed.
Lemma wf_count f w :
  (∀ m, active_workers (f m) = active_workers m) → wf w → wf (count f w).
Proof. intros Hf Hw. apply (wf_frame w); try done. apply Hf. Qed.
Lemma send_message_cells what s m w : ∃ cs, (send_message what s m w).2 = set_cells cs (heartbeats w) w.
Proof.
  unfold send_message. assert (w = set_cells (channels w) (heartbeats w) w) as Hw by by destruct w.
  destruct (channels w !! s) as [c|]; [destruct (_ && _)|]; eauto.
Qed.
Lemma wf_send_message what s m w : wf w → wf (send_message what s m w).2.
Proof. destruct (send_message_cells what s m w) as [cs ->]. apply wf_set_cells. Qed.
Lemma wf_set_shutdown w : wf w → wf (set_shutdown w).
Proof. intros Hw. by apply (wf_frame w). Qed.

(** Counters only grow; the generations have room. *)
Lemma wf_set_counters g ids f w :
  connection_generation w ≤ g → (fresh w ≤ f)%nat → wf w → wf (set_counters g ids (request_slots w) f w).
Proof.
  intros Hg Hf Hw. destruct Hw. split; try assumption.
  - cbn. lia.
  - intros s Hs. apply wf_socket_fresh0 in Hs. cbn. lia.
  - intros tid Htid. apply wf_fresh0 in Htid. cbn. lia.
  - intros c Hc. apply wf_generation0 in Hc. cbn. lia.
Qed.

Lemma wf_tenant_entry id w : wf w → tenant_id (tenant_entry id w) = id ∧ tenant_wf (tenant_entry id w).
Proof.
  intros Hw. unfold tenant_entry. destruct (tenants w !! id) as [t|] eqn:Ht; cbn.
  - by apply (wf_tenants _ _ Hw).
  - split; [done|apply tenant_new_wf].
Qed.
Lemma pending_tenant_new mesh id : pending mesh (tenant_new id) = ∅.
Proof. by destruct mesh. Qed.

(** Sockets come and go. *)
Lemma wf_set_sockets ws cs w :
  (∀ s x, ws !! s = Some x → connection_in w (ws_connection x)) →
  (∀ s x, cs !! s = Some x → is_Some (tenants w !! client_tenant (cs_connection x))) →
  map_total leaving ws = map_total leaving (worker_sockets w) →
  (∀ s, is_Some (ws !! s) → (s < fresh w)%nat) →
  wf w → wf (set_sockets ws cs w).
Proof.
  intros Hws Hcs Hl Hf Hw. destruct Hw.
  assert (Hin : ∀ c, connection_in (set_sockets ws cs w) c → connection_in w c).
  { intros c [Hc|[(s & x & Hs & <-)|Hc]]; [by left|by eapply Hws|right; by right]. }
  split; try assumption; eauto. cbn. by rewrite Hl.
Qed.

(** A tenant partition changes, but not its pending requests; it may hold one
    new connection. *)
Lemma wf_put_tenant id t m new w :
  wf w → tenant_id t = id → tenant_wf t → (∀ mesh, pending mesh t = pending mesh (tenant_entry id w)) →
  (∀ mk c, workers t !! mk = Some c → connection_in w c ∨ new = Some c) →
  (∀ c, new = Some c → worker_generation c < connection_generation w ∧
    ∀ c', connection_in w c' → worker_generation c' ≠ worker_generation c) →
  (tenants w !! id = None → sizeN (tenants w) < MAX_GATEWAY_TENANTS) →
  connection_count (<[id := t]> (tenants w)) ≤ MAX_GATEWAY_CONNECTIONS →
  active_workers m = worker_total (<[id := t]> (tenants w)) + map_total leaving (worker_sockets w) →
  active_workers m < connection_generation w →
  wf (set_metrics m (put_tenant id t w)).
Proof.
  intros Hw Hid Ht Hp Hc Hnew Hn Hcount Hm Hgauge. pose proof Hw as Hw0. destruct Hw.
  assert (Hlk : ∀ id' t' mesh r tx, <[id := t]> (tenants w) !! id' = Some t' → pending mesh t' !! r = Some tx →
    ∃ t0, tenants w !! id' = Some t0 ∧ pending mesh t0 !! r = Some tx).
  { intros id' t' mesh r tx. destruct (decide (id' = id)) as [->|]; [|rewrite lookup_insert_ne by done; eauto].
    rewrite lookup_insert_eq. intros [= <-]. rewrite Hp. unfold tenant_entry.
    destruct (tenants w !! id); cbn; [eauto|]. by rewrite pending_tenant_new, lookup_empty. }
  assert (Hlk' : ∀ id' t0, tenants w !! id' = Some t0 →
    ∃ t', <[id := t]> (tenants w) !! id' = Some t' ∧ ∀ mesh, pending mesh t' = pending mesh t0).
  { intros id' t0 H0. destruct (decide (id' = id)) as [->|].
    - exists t. rewrite lookup_insert_eq. split; [done|]. intros mesh. rewrite Hp. unfold tenant_entry. by rewrite H0.
    - exists t0. by rewrite lookup_insert_ne. }
  assert (Hin : ∀ c, connection_in (set_metrics m (put_tenant id t w)) c → connection_in w c ∨ new = Some c).
  { intros c [(id' & t' & mk & Ht' & Hmk)|Hc']; [|left; right; exact Hc']. cbn in Ht'.
    destruct (decide (id' = id)) as [->|]; [rewrite lookup_insert_eq in Ht'; simplify_eq; by eapply Hc|].
    rewrite lookup_insert_ne in Ht' by done. left. left. eauto. }
  assert (Hsome : ∀ id', is_Some (tenants w !! id') → is_Some (<[id := t]> (tenants w) !! id')).
  { intros id' [t0 H0]. apply Hlk' in H0 as (? & ? & _). eauto. }
  split; try assumption; cbn; eauto.
  - intros id' t'. destruct (decide (id' = id)) as [->|]; [|rewrite lookup_insert_ne by done; eauto].
    rewrite lookup_insert_eq. by intros [= <-].
  - apply size_insert_le; eauto.
  - intros id' t' mesh r tx H1 H2. destruct (Hlk _ _ _ _ _ H1 H2) as (t0 & H3 & H4). eauto.
  - intros id' r mesh H1. apply wf_metadata0 in H1 as (t0 & H1 & H2). apply Hlk' in H1 as (t' & H1 & H3).
    exists t'. by rewrite H3.
  - intros tid o wt H1 H2. apply wf_waiting0 in H1 as (t0 & H1 & H3); [|done].
    apply Hlk' in H1 as (t' & H1 & H4). exists t'. cbn. by rewrite H4.
  - intros c [Hc'|Hc']%Hin; [by apply wf_generation0|by apply Hnew].
  - intros c c' [H1|H1]%Hin [H2|H2]%Hin E; [by apply wf_unique0| | |congruence].
    + by destruct (proj2 (Hnew _ H2) _ H1).
    + by destruct (proj2 (Hnew _ H1) _ H2).
Qed.

(** Resolving the one-shot of one task. *)
Lemma resolve_owner rx tk : owner (resolve_oneshot rx tk) = owner tk.
Proof. unfold resolve_oneshot. destruct (progress tk) as [|wt]; [done|]. by destruct (wait_rx wt). Qed.
Lemma alter_resolve_lookup rx tx (ts : gmap nat task) tid tk :
  alter (resolve_oneshot rx) tx ts !! tid = Some tk ↔
  ∃ tk0, ts !! tid = Some tk0 ∧ tk = if decide (tid = tx) then resolve_oneshot rx tk0 else tk0.
Proof.
  destruct (decide (tid = tx)) as [->|]; [rewrite lookup_alter_eq|rewrite lookup_alter_ne by done].
  - rewrite fmap_Some. naive_solver.
  - naive_solver.
Qed.
Lemma resolve_waiting rx o wt :
  wait_rx wt = Empty → resolve_oneshot rx {| owner := o; progress := Waiting wt |} =
  {| owner := o; progress := Waiting {| wait_call := wait_call wt; wait_worker := wait_worker wt; wait_rx := rx |} |}.
Proof. intros Hrx. unfold resolve_oneshot. cbn. by rewrite Hrx. Qed.
Lemma resolve_id rx tk :
  (∀ wt, progress tk = Waiting wt → wait_rx wt ≠ Empty) → resolve_oneshot rx tk = tk.
Proof.
  intros Hp. unfold resolve_oneshot. destruct (progress tk) as [e|wt]; [done|].
  specialize (Hp wt eq_refl). by destruct (wait_rx wt).
Qed.

(** What a task is after a one-shot was resolved. *)
Lemma alter_resolve_waiting rx tx (ts : gmap nat task) tid o wt :
  alter (resolve_oneshot rx) tx ts !! tid = Some {| owner := o; progress := Waiting wt |} →
  ∃ wt0, ts !! tid = Some {| owner := o; progress := Waiting wt0 |} ∧ wait_call wt = wait_call wt0 ∧
    wait_worker wt = wait_worker wt0 ∧
    (tid = tx ∧ wait_rx wt0 = Empty ∧ wait_rx wt = rx ∨ (tid ≠ tx ∨ wait_rx wt0 ≠ Empty) ∧ wt = wt0).
Proof.
  intros (tk0 & Hk & E)%alter_resolve_lookup. destruct (decide (tid = tx)) as [->|Hne].
  - unfold resolve_oneshot in E. destruct tk0 as [o0 [e|wt0]]; cbn in E; [done|].
    destruct (wait_rx wt0) eqn:Hrx; simplify_eq; exists wt0; split_and!; try done.
    + by left.
    + right. split; [|done]. right. by rewrite Hrx.
    + right. split; [|done]. right. by rewrite Hrx.
  - subst tk0. exists wt. split_and!; try done. right. auto.
Qed.

(** The entry of a task leaves the tables and its one-shot is resolved. *)
Definition resolve_entry (T R : string) (M : bool) (t : TenantState) (tx : nat) (rx : oneshot) (w : world) : world :=
  set_tasks (alter (resolve_oneshot rx) tx (tasks w))
    (set_tables (<[T := set_pending M (delete R (pending M t)) t]> (tenants w))
       (delete (pending_key T R M w) (pending_metadata w)) w).

Lemma pending_set_pending M M' p t : pending M' (set_pending M p t) = if Bool.eqb M M' then p else pending M' t.
Proof. by destruct M, M'. Qed.
Lemma pending_key_inj T R M T' R' M' w :
  pending_key T R M w = pending_key T' R' M' w → T = T' ∧ R = R' ∧ M = M'.
Proof. unfold pending_key. by intros [= -> -> ->]. Qed.

(** An entry of the new table is another entry of the old one. *)
Lemma lookup_removed_entry (ts : gmap string TenantState) T R M t id t' mesh r tx :
  ts !! T = Some t → <[T := set_pending M (delete R (pending M t)) t]> ts !! id = Some t' →
  pending mesh t' !! r = Some tx →
  ∃ t0, ts !! id = Some t0 ∧ pending mesh t0 !! r = Some tx ∧ (id, r, mesh) ≠ (T, R, M).
Proof.
  intros HT. destruct (decide (id = T)) as [->|]; [|rewrite lookup_insert_ne by done; naive_solver].
  rewrite lookup_insert_eq. intros [= <-]. rewrite pending_set_pending.
  destruct (Bool.eqb M mesh) eqn:HM; [apply eqb_prop in HM as <-|apply eqb_false_iff in HM; naive_solver].
  intros [Hr Hp]%lookup_delete_Some. exists t. naive_solver.
Qed.
Lemma lookup_kept_entry (ts : gmap string TenantState) T R M t id t0 mesh r tx :
  ts !! T = Some t → ts !! id = Some t0 → pending mesh t0 !! r = Some tx → (id, r, mesh) ≠ (T, R, M) →
  ∃ t', <[T := set_pending M (delete R (pending M t)) t]> ts !! id = Some t' ∧ pending mesh t' !! r = Some tx.
Proof.
  intros HT H0 Hp Hne. destruct (decide (id = T)) as [->|]; [|exists t0; by rewrite lookup_insert_ne].
  simplify_eq. eexists. rewrite lookup_insert_eq. split; [done|]. rewrite pending_set_pending.
  destruct (Bool.eqb M mesh) eqn:HM; [apply eqb_prop in HM as <-|done].
  rewrite lookup_delete_ne; [done|]. intros ->. by apply Hne.
Qed.

Lemma total_set_pending (f : TenantState → N) (ts : gmap string TenantState) T M p t :
  (∀ x M p, f (set_pending M p x) = f x) → ts !! T = Some t →
  map_total f (<[T := set_pending M p t]> ts) = map_total f ts.
Proof. intros Hf HT. apply (map_total_replace f ts T (set_pending M p t) t); [done|apply Hf]. Qed.

Lemma resolve_entry_connections T R M t tx rx w c :
  tenants w !! T = Some t → connection_in (resolve_entry T R M t tx rx w) c → connection_in w c.
Proof.
  intros HT [(id & t' & mk & H1 & H2)|[Hs|(tid & o & wt & H1 & <-)]].
  - left. cbn in H1. destruct (decide (id = T)) as [->|];
      [rewrite lookup_insert_eq in H1; injection H1 as <-; eauto 6|rewrite lookup_insert_ne in H1 by done; eauto 6].
  - right. by left.
  - right. right. apply alter_resolve_waiting in H1 as (wt0 & H1 & _ & Hwk & _). rewrite Hwk. eauto.
Qed.

Lemma wf_resolve_entry T R M t tx rx w :
  wf w → tenants w !! T = Some t → pending M t !! R = Some tx → rx ≠ Empty →
  (∀ a o wt, rx = Delivered a → tasks w !! tx = Some {| owner := o; progress := Waiting wt |} →
    wait_rx wt = Empty → call_tenant (wait_call wt) = T → call_request (wait_call wt) = R →
    call_mesh (wait_call wt) = M → pending_metadata w !! pending_key T R M w = Some (metadata_of wt) →
    answer_id a = R ∧ within_limit (wait_call wt) a ∧ came (wait_call wt) (wait_worker wt) a) →
  wf (resolve_entry T R M t tx rx w).
Proof.
  intros Hw HT HR Hrx Hdel. pose proof Hw as Hw0. destruct Hw.
  destruct (wf_pending0 _ _ _ _ _ HT HR) as (o & wt & Htx & Hempty & HcT & HcR & HcM & Hmeta).
  assert (Hsome : ∀ id, is_Some (tenants w !! id) →
    is_Some (<[T := set_pending M (delete R (pending M t)) t]> (tenants w) !! id)).
  { intros id H. destruct (decide (id = T)) as [->|]; [rewrite lookup_insert_eq; eauto|by rewrite lookup_insert_ne]. }
  split; unfold resolve_entry; cbn [tenants tasks metrics pending_metadata request_slots client_sockets fresh
    set_tasks set_tables]; eauto.
  - intros id t'. destruct (decide (id = T)) as [->|]; [|rewrite lookup_insert_ne by done; eauto].
    rewrite lookup_insert_eq. intros [= <-]. destruct (wf_tenants0 T t HT) as [<- Ht]. split; [done|].
    apply set_pending_wf; [done|]. apply size_delete_le, Ht.
  - apply size_insert_le; [|done]. intros Hn. congruence.
  - unfold connection_count. rewrite total_set_pending; [done|by intros ? [] ?|done].
  - unfold worker_total. rewrite total_set_pending; [done|by intros ? [] ?|done].
  - rewrite map_total_alter; [done|]. intros tk. unfold is_client_task. by rewrite resolve_owner.
  - intros tid o' e (tk0 & Hk & E)%alter_resolve_lookup. apply Hsome. destruct (decide (tid = tx)) as [->|].
    + rewrite Htx in Hk. injection Hk as <-. by rewrite resolve_waiting in E.
    + subst tk0. eauto.
  - intros tid [tk (tk0 & Hk & _)%alter_resolve_lookup]. eauto.
  - intros id t' mesh r tx' H1 H2. destruct (lookup_removed_entry _ _ _ _ _ _ _ _ _ _ HT H1 H2) as (t0 & H3 & H4 & Hne).
    destruct (wf_pending0 _ _ _ _ _ H3 H4) as (o' & wt' & Hk & He & <- & <- & <- & Hm).
    exists o', wt'. split_and!; try done.
    + apply alter_resolve_lookup. eexists. split; [exact Hk|]. destruct (decide (tx' = tx)) as [->|]; [|done].
      exfalso. rewrite Htx in Hk. injection Hk as <- <-. apply Hne. by rewrite HcT, HcR, HcM.
    + change (pending_key ?a ?b ?c _) with (pending_key a b c w). rewrite lookup_delete_ne; [done|].
      intros E%pending_key_inj. apply Hne. by destruct E as (<- & <- & <-).
  - intros id r mesh [m Hm]. change (pending_key id r mesh _) with (pending_key id r mesh w) in Hm.
    apply lookup_delete_Some in Hm as [Hne Hm].
    destruct (wf_metadata0 id r mesh (ltac:(eauto))) as (t0 & H0 & [tx' Hp]).
    destruct (lookup_kept_entry _ T R M t _ _ _ _ _ HT H0 Hp) as (t' & ? & ?); [|eauto].
    intros [= -> -> ->]. by apply Hne.
  - intros tid o' wt' H1 H2. apply alter_resolve_waiting in H1 as (wt0 & H1 & _ & _ & [(_ & _ & E)|[Hor ->]]);
      [congruence|]. destruct (wf_waiting0 _ _ _ H1 H2) as (t0 & H3 & H4).
    assert (Hne : (call_tenant (wait_call wt0), call_request (wait_call wt0), call_mesh (wait_call wt0)) ≠ (T, R, M)).
    { intros E. injection E as E1 E2 E3. rewrite E1, HT in H3. injection H3 as <-.
      rewrite E2, E3, HR in H4. injection H4 as ->. by destruct Hor. }
    destruct (lookup_kept_entry _ _ _ _ _ _ _ _ _ _ HT H3 H4 Hne) as (t' & ? & ?). by exists t'.
  - intros tid o' wt' H1. apply alter_resolve_waiting in H1 as (wt0 & H1 & -> & -> & _). eauto.
  - intros tid o' wt' a H1 Ha. apply alter_resolve_waiting in H1 as (wt0 & H1 & E1 & E2 & [(-> & H0 & H2)|[_ ->]]);
      [|by eapply wf_delivered0]. rewrite E1, E2. rewrite Htx in H1. injection H1 as <- <-.
    rewrite HcR. eapply Hdel; [congruence|eauto..].
  - intros c Hc. apply wf_generation0. by eapply resolve_entry_connections.
  - intros c c' Hc Hc'. apply wf_unique0; by eapply resolve_entry_connections.
Qed.

(** A cleanup removes the entry under its key, whoever registered it. *)
Lemma set_tables_id w : set_tables (tenants w) (pending_metadata w) w = w.
Proof. by destruct w. Qed.
Lemma cleanup_found T R M w t tx :
  tenants w !! T = Some t → pending M t !! R = Some tx →
  cleanup_pending M T R w = resolve_entry T R M t tx SenderDropped w.
Proof. intros HT HR. unfold cleanup_pending. by rewrite HT, HR. Qed.
Lemma cleanup_absent T R M w :
  (∀ t, tenants w !! T = Some t → pending M t !! R = None) →
  pending_metadata w !! pending_key T R M w = None → cleanup_pending M T R w = w.
Proof.
  intros HT Hm. unfold cleanup_pending. destruct (tenants w !! T) as [t|] eqn:Ht.
  - rewrite (HT t eq_refl). rewrite delete_id by auto.
    assert (put_tenant T (set_pending M (pending M t) t) w = w) as Hput.
    { unfold put_tenant. rewrite insert_id; [apply set_tables_id|]. rewrite Ht. by destruct t, M. }
    rewrite Hput. unfold remove_pending_metadata. rewrite delete_id by done. apply set_tables_id.
  - unfold remove_pending_metadata. rewrite delete_id by done. apply set_tables_id.
Qed.
Lemma cleanup_cases T R M w :
  wf w → cleanup_pending M T R w = w ∧ (∀ t, tenants w !! T = Some t → pending M t !! R = None) ∨
  ∃ t tx, tenants w !! T = Some t ∧ pending M t !! R = Some tx ∧
    cleanup_pending M T R w = resolve_entry T R M t tx SenderDropped w.
Proof.
  intros Hw. destruct (tenants w !! T) as [t|] eqn:HT; [destruct (pending M t !! R) as [tx|] eqn:HR|].
  - right. exists t, tx. split_and!; [done|done|by apply cleanup_found].
  - assert (Habs : ∀ t', tenants w !! T = Some t' → pending M t' !! R = None) by (intros; congruence).
    left. split; [|by rewrite <- HT]. apply cleanup_absent; [done|]. apply eq_None_not_Some.
    intros (t' & H1 & [tx H2])%(wf_metadata _ _ Hw). rewrite Habs in H2; done.
  - left. split; [|done]. apply cleanup_absent; [by rewrite HT|]. apply eq_None_not_Some.
    intros (t' & H1 & _)%(wf_metadata _ _ Hw). congruence.
Qed.
Lemma wf_cleanup T R M w : wf w → wf (cleanup_pending M T R w).
Proof.
  intros Hw. destruct (cleanup_cases T R M w Hw) as [[-> _]|(t & tx & HT & HR & ->)]; [done|].
  by apply wf_resolve_entry.
Qed.

(** Once its key is cleaned up, a task waits on nothing. *)
Lemma cleanup_resolves tid o wt w wt' o' :
  wf w → tasks w !! tid = Some {| owner := o; progress := Waiting wt |} →
  tasks (cleanup_pending (call_mesh (wait_call wt)) (call_tenant (wait_call wt)) (call_request (wait_call wt)) w) !! tid
    = Some {| owner := o'; progress := Waiting wt' |} →
  wait_rx wt' ≠ Empty.
Proof.
  intros Hw Htid Htid' He.
  destruct (cleanup_cases (call_tenant (wait_call wt)) (call_request (wait_call wt)) (call_mesh (wait_call wt)) w Hw)
    as [[E Habs]|(t & tx & HT & HR & E)]; rewrite E in Htid'.
  - rewrite Htid in Htid'. injection Htid' as <- <-.
    destruct (wf_waiting _ _ Hw _ _ _ Htid He) as (t & Ht & Hp). rewrite (Habs t Ht) in Hp. done.
  - apply alter_resolve_waiting in Htid' as (wt0 & H1 & _ & _ & [(_ & _ & Hrx)|[Hor ->]]); [congruence|].
    rewrite Htid in H1. injection H1 as <- <-. destruct (wf_waiting _ _ Hw _ _ _ Htid He) as (t' & Ht & Hp).
    rewrite HT in Ht. injection Ht as <-. rewrite HR in Hp. injection Hp as ->. by destruct Hor.
Qed.

(** A task that waits on nothing may go. *)
Lemma wf_remove_task tid tk w :
  wf w → tasks w !! tid = Some tk → (∀ wt, progress tk = Waiting wt → wait_rx wt ≠ Empty) →
  wf (release_slot (owner tk) (remove_task tid w)).
Proof.
  intros Hw Htid Hne. pose proof Hw as Hw0. destruct Hw.
  set (w' := release_slot _ _).
  assert (Hin : ∀ c, connection_in w' c → connection_in w c).
  { unfold w'. destruct tk as [[] p]; cbn.
    all: intros c [Hc|[Hc|(tid' & o & wt & H1 & H2)]]; [by left|right; by left|].
    all: cbn in H1; apply lookup_delete_Some in H1 as [_ H1]; right; right; eauto. }
  assert (Hproj : tenants w' = tenants w ∧ pending_metadata w' = pending_metadata w ∧ metrics w' = metrics w ∧
    tasks w' = delete tid (tasks w) ∧ client_sockets w' = client_sockets w ∧ fresh w' = fresh w ∧
    connection_generation w' = connection_generation w ∧ state_id w' = state_id w ∧
    request_slots w' = request_slots w + is_client_task tk).
  { unfold w'. destruct tk as [[] p]; cbn; split_and!; done || lia. }
  assert (E10 : worker_sockets w' = worker_sockets w) by (unfold w'; by destruct tk as [[] p]).
  clearbody w'. destruct Hproj as (E1 & E2 & E3 & E4 & E5 & E6 & E7 & E8 & E9).
  split; unfold registered, pending_key in *;
    rewrite ?E1, ?E2, ?E3, ?E4, ?E5, ?E6, ?E7, ?E8, ?E9, ?E10; try done.
  - rewrite (map_total_delete is_client_task _ _ _ Htid) in wf_slots0. lia.
  - intros tid' o e [_ H]%lookup_delete_Some. eauto.
  - intros tid' [tk' [_ H]%lookup_delete_Some]. eauto.
  - intros id t mesh r tx H1 H2. destruct (wf_pending0 _ _ _ _ _ H1 H2) as (o & wt & H3 & H4 & ?).
    exists o, wt. split; [|done]. rewrite lookup_delete_ne; [done|]. intros ->. rewrite Htid in H3.
    injection H3 as ->. by apply (Hne wt).
  - intros tid' o wt [_ H]%lookup_delete_Some. eauto.
  - intros tid' o wt [_ H]%lookup_delete_Some. eauto.
  - intros tid' o wt a [_ H]%lookup_delete_Some. eauto.
  - intros c Hc. auto.
  - intros c c' Hc Hc'. auto.
Qed.

(** Dropping a task, waiting or not. *)
Lemma remove_cleanup_comm tid T R M w :
  remove_task tid (cleanup_pending M T R w) = cleanup_pending M T R (remove_task tid w).
Proof.
  unfold cleanup_pending. cbn [tenants remove_task set_tasks]. destruct (tenants w !! T) as [t|]; [|done].
  destruct (pending M t !! R) as [tx|]; [|done].
  unfold remove_task, remove_pending_metadata, drop_sender, put_tenant, set_tasks, set_tables, pending_key. cbn.
  f_equal. apply map_eq. intros i. destruct (decide (i = tid)) as [->|].
  - rewrite lookup_delete_eq. destruct (decide (tid = tx)) as [->|];
      [by rewrite lookup_alter_eq, lookup_delete_eq|by rewrite lookup_alter_ne, lookup_delete_eq].
  - rewrite lookup_delete_ne by done. destruct (decide (i = tx)) as [->|];
      [by rewrite !lookup_alter_eq, lookup_delete_ne|by rewrite !lookup_alter_ne, lookup_delete_ne].
Qed.
Lemma wf_drop tid tk w :
  wf w → tasks w !! tid = Some tk → wf (release_slot (owner tk) (remove_task tid (drop_task tk w))).
Proof.
  intros Hw Htid. unfold drop_task. destruct tk as [o [e|wt]]; cbn [progress].
  - by apply (wf_remove_task tid {| owner := o; progress := Spawned e |}).
  - set (w' := cleanup_pending _ _ _ w).
    assert (Hw' : wf w') by by apply wf_cleanup.
    assert (∃ tk', tasks w' !! tid = Some tk' ∧ owner tk' = o ∧
      ∀ wt', progress tk' = Waiting wt' → wait_rx wt' ≠ Empty) as (tk' & H1 & <- & H3);
      [|exact (wf_remove_task tid tk' w' Hw' H1 H3)].
    assert (Hkeep : ∃ tk', tasks w' !! tid = Some tk' ∧ owner tk' = o).
    { unfold w'. destruct (cleanup_cases (call_tenant (wait_call wt)) (call_request (wait_call wt))
        (call_mesh (wait_call wt)) w Hw) as [[-> _]|(t & tx & _ & _ & ->)]; [by eexists|]. cbn.
      eexists. rewrite alter_resolve_lookup. split; [eauto|]. case_decide; [apply resolve_owner|done]. }
    destruct Hkeep as ([o' p'] & Hk & Ho). exists {| owner := o'; progress := p' |}. split_and!; [done..|].
    intros wt' Hp. cbn in Hp. subst p'. by eapply (cleanup_resolves tid o wt w).
Qed.
Lemma wf_abort_task tid w : wf w → wf (abort_task tid w).
Proof.
  intros Hw. unfold abort_task. destruct (tasks w !! tid) as [tk|] eqn:Htid; [|done].
  assert (drop_task tk (remove_task tid w) = remove_task tid (drop_task tk w)) as ->; [|by apply wf_drop].
  unfold drop_task. destruct (progress tk); [done|]. by rewrite remove_cleanup_comm.
Qed.

(** Answering a client touches its channel only. *)
Lemma deliver_answer_cells o a w : ∃ cs, deliver_answer o a w = set_cells cs (heartbeats w) w.
Proof.
  assert (w = set_cells (channels w) (heartbeats w) w) as Hw by by destruct w.
  unfold deliver_answer. destruct o, a; eauto. destruct (response_to_json r); [|eauto]. apply send_message_cells.
Qed.

Lemma wf_count_metrics w :
  wf w → wf (count routing_failure w) ∧ wf (count message_routed w) ∧ wf (count client_connected w) ∧
  wf (count client_disconnected w).
Proof. intros Hw. split_and!; by apply wf_count. Qed.

(** A task that finished: its key is cleaned up, it gives back its slot. *)
Lemma finish_frame tid o a w : wf (release_slot o (remove_task tid w)) → wf (finish_task tid o a w).
Proof.
  intros Hw. unfold finish_task. destruct (deliver_answer_cells o a (remove_task tid w)) as [cs ->].
  destruct o; apply (wf_frame _ _ Hw); done.
Qed.
Lemma poll_route_inv wt elapsed w a w' :
  poll_route wt elapsed w = Some (a, w') →
  (w' = count routing_failure w ∧ ∃ reason, a = rejected (wait_call wt) reason) ∨
  (w' = count message_routed w ∧ wait_rx wt = Delivered a).
Proof.
  unfold poll_route. destruct (shutdown w); [intros [= <- <-]; left; eauto|].
  destruct (wait_rx wt) as [|a'|]; [destruct elapsed; [|done]|..]; intros [= <- <-]; eauto.
Qed.
Lemma poll_wf wt elapsed w a w' :
  wf w → poll_route wt elapsed w = Some (a, w') → wf w' ∧ tasks w' = tasks w.
Proof.
  intros Hw Hp. destruct (wf_count_metrics w Hw) as (H1 & H2 & _).
  apply poll_route_inv in Hp as [[-> _]|[-> _]]; done.
Qed.
Lemma wf_wake_task tid elapsed w : wf w → wf (wake_task tid elapsed w).1.
Proof.
  intros Hw. unfold wake_task. destruct (tasks w !! tid) as [tk|] eqn:Htid; [|done].
  destruct (progress tk) as [e|wt]; [done|]. destruct (aborted _ w); [done|].
  destruct (poll_route wt elapsed w) as [[a w']|] eqn:Hp; [|done]. cbn [fst].
  destruct (poll_wf _ _ _ _ _ Hw Hp) as [Hw' Ht]. apply finish_frame, wf_drop; [done|by rewrite Ht].
Qed.

(** A worker's answer, from a connection that is in use. *)
Lemma validate_for_request_ok r id limit :
  validate_for_request r id limit = Ok () → lenN (mesh_response_body r) ≤ limit.
Proof.
  unfold validate_for_request. destruct (_ || _); [done|]. destruct (N.ltb_spec limit (lenN (mesh_response_body r))); done.
Qed.
Lemma expected_within_limit g a wt :
  answer_mesh a = call_mesh (wait_call wt) → expected_from (Some g) a (metadata_of wt) = true →
  g = worker_generation (wait_worker wt) ∧ within_limit (wait_call wt) a.
Proof.
  intros Hm. unfold expected_from, metadata_of. cbn [expected_generation response_limit].
  rewrite andb_true_iff, N.eqb_eq. intros [-> Hl]. split; [done|].
  destruct a as [r|r], (wait_call wt) as [e|q]; try done. cbn in Hl |- *.
  destruct (validate_for_request r (mesh_response_id r) (mesh_max_response_bytes q)) as [[]|] eqn:E; [|done].
  by eapply validate_for_request_ok.
Qed.
Lemma wf_dispatch c a w :
  wf w → connection_in w c →
  (∀ cl, call_tenant cl = key_tenant (worker_key c) → answer_id a = call_request cl → within_limit cl a →
    came cl c a) →
  wf (dispatch_worker_answer (key_tenant (worker_key c)) (Some (worker_generation c)) a w).2.
Proof.
  intros Hw Hc Hcame. unfold dispatch_worker_answer. set (T := key_tenant (worker_key c)) in *.
  destruct (tenants w !! T) as [t|] eqn:HT; [|done].
  destruct (pending_metadata w !! _) as [m|] eqn:Hm; [|done].
  destruct (expected_from _ a m) eqn:Hex; [|done].
  destruct (wf_metadata _ _ Hw T (answer_id a) (answer_mesh a) (ltac:(eauto))) as (t' & Ht' & [tx HR]).
  rewrite HT in Ht'. injection Ht' as <-. rewrite HR. cbn [snd].
  change (wf (resolve_entry T (answer_id a) (answer_mesh a) t tx (Delivered a) w)).
  apply wf_resolve_entry; [done..|]. intros a' o wt [= <-] Htx Hrx H1 H2 H3 Hmeta.
  rewrite Hm in Hmeta. injection Hmeta as ->.
  apply expected_within_limit in Hex as [Hg Hl]; [|done]. split_and!; [done|done|].
  assert (wait_worker wt = c) as ->; [|by apply Hcame].
  eapply (wf_unique _ _ Hw); [|exact Hc|done]. right; right. eauto.
Qed.

(** Selecting a worker. *)
Lemma get_worker_by_core_inv it core t c :
  tenant_wf t → get_worker_by_core it core t = Some c →
  ∃ mk, workers t !! mk = Some c ∧ key_tenant (worker_key c) = tenant_id t ∧ key_core (worker_key c) = core.
Proof.
  intros Ht. unfold get_worker_by_core. destruct (List.find _ _) as [[mk c']|] eqn:Hf; [|done]. intros [= ->].
  apply List.find_some in Hf as [Hin Hc]. cbn in Hc. apply bool_decide_eq_true in Hc.
  apply list_elem_of_In in Hin. rewrite (iterate_perm it), elem_of_map_to_list in Hin.
  exists mk. split; [done|]. by rewrite (tenant_workers_keyed _ Ht _ _ Hin).
Qed.
Lemma compatible_cluster sha256 t e c :
  compatible sha256 t (PeerCall e) c = true → worker_cluster c = Some (env_cluster_id e).
Proof. cbn. unfold serves. by rewrite andb_true_iff, bool_decide_eq_true; intros [? _]. Qed.
Lemma can_register_inv r mesh t :
  negb (can_register_pending r mesh t) = false →
  sizeN (pending mesh t) < MAX_GATEWAY_PENDING_PER_TENANT ∧ pending mesh t !! r = None.
Proof. rewrite negb_false_iff. unfold can_register_pending. by rewrite andb_true_iff, N.ltb_lt, bool_decide_eq_true. Qed.

(** The task that routes: spawned by a client, or a relay that just began. *)
Definition routing_task (tid : nat) (o : task_owner) (w : world) : Prop :=
  (∃ e, tasks w !! tid = Some {| owner := o; progress := Spawned e |}) ∨
  (tasks w !! tid = None ∧ o = FromRelay ∧ (tid < fresh w)%nat).

Definition register_entry (c : call) (worker : WorkerConnection) (tid : nat) (t : TenantState) (w : world) : world :=
  set_tables
    (<[call_tenant c := set_pending (call_mesh c) (<[call_request c := tid]> (pending (call_mesh c) t)) t]> (tenants w))
    (<[pending_key (call_tenant c) (call_request c) (call_mesh c) w :=
       {| expected_generation := worker_generation worker; response_limit := call_limit c |}]> (pending_metadata w)) w.
Definition new_waiting (c : call) (worker : WorkerConnection) : waiting :=
  {| wait_call := c; wait_worker := worker; wait_rx := Empty |}.

Lemma cleanup_keeps_spawned T R M tid o e w :
  tasks w !! tid = Some {| owner := o; progress := Spawned e |} →
  tasks (cleanup_pending M T R w) !! tid = Some {| owner := o; progress := Spawned e |}.
Proof.
  intros Htid. unfold cleanup_pending. cbn [tasks remove_pending_metadata set_tables].
  destruct (tenants w !! T) as [t|]; [|done]. destruct (pending M t !! R) as [tx|]; [|done].
  cbn. apply alter_resolve_lookup. eexists. split; [exact Htid|]. by case_decide.
Qed.

(** Registering and then cleaning up changes nothing the invariant reads. *)
Lemma cleanup_registered c worker tid o t cs w :
  wf w → routing_task tid o w → tenants w !! call_tenant c = Some t → pending (call_mesh c) t !! call_request c = None →
  let w' := cleanup_pending (call_mesh c) (call_tenant c) (call_request c)
              (count routing_failure (set_cells cs (heartbeats w) (register_entry c worker tid t w))) in
  wf w' ∧ tasks w' = tasks w.
Proof.
  intros Hw Htask HT HR w'. unfold w'.
  assert (Hmeta : pending_metadata w !! pending_key (call_tenant c) (call_request c) (call_mesh c) w = None).
  { apply eq_None_not_Some. intros (t' & H1 & [x H2])%(wf_metadata _ _ Hw). congruence. }
  erewrite (cleanup_found (call_tenant c) (call_request c) (call_mesh c)); cbn;
    [|by rewrite lookup_insert_eq|by rewrite pending_set_pending, eqb_reflx, lookup_insert_eq].
  assert (Htasks : alter (resolve_oneshot SenderDropped) tid (tasks w) = tasks w).
  { apply map_eq. intros i. destruct (decide (i = tid)) as [->|]; [|by rewrite lookup_alter_ne].
    rewrite lookup_alter_eq. by destruct Htask as [[e ->]|[-> _]]. }
  assert (Hput : set_pending (call_mesh c) (delete (call_request c) (pending (call_mesh c)
      (set_pending (call_mesh c) (<[call_request c := tid]> (pending (call_mesh c) t)) t)))
      (set_pending (call_mesh c) (<[call_request c := tid]> (pending (call_mesh c) t)) t) = t).
  { rewrite pending_set_pending, eqb_reflx, delete_insert_id by done. by destruct t, c. }
  assert (Hdel : delete (pending_key (call_tenant c) (call_request c) (call_mesh c) w)
    (<[pending_key (call_tenant c) (call_request c) (call_mesh c) w :=
       {| expected_generation := worker_generation worker; response_limit := call_limit c |}]> (pending_metadata w))
    = pending_metadata w) by by apply delete_insert_id.
  split; [|done]. apply (wf_frame w); try done; cbn; try done.
  rewrite Hput, insert_insert_eq. by apply insert_id.
Qed.

Lemma wf_register c worker tid o t mk w :
  wf w → routing_task tid o w → tenants w !! call_tenant c = Some t → workers t !! mk = Some worker →
  selected c worker → pending (call_mesh c) t !! call_request c = None →
  sizeN (pending (call_mesh c) t) < MAX_GATEWAY_PENDING_PER_TENANT →
  wf (set_tasks (<[tid := {| owner := o; progress := Waiting (new_waiting c worker) |}]> (tasks w))
       (register_entry c worker tid t w)).
Proof.
  intros Hw Htask HT Hmk Hsel HR Hsize. pose proof Hw as Hw0. destruct Hw.
  set (T := call_tenant c) in *. set (R := call_request c) in *. set (M := call_mesh c) in *.
  assert (Hnot : ∀ o' wt', tasks w !! tid ≠ Some {| owner := o'; progress := Waiting wt' |})
    by (intros o' wt' H; destruct Htask as [[e E]|[E _]]; congruence).
  set (w' := set_tasks _ _).
  assert (Hin : ∀ x, connection_in w' x → connection_in w x).
  { intros x [(id & t' & mk' & H1 & H2)|[Hs|(tid' & o' & wt & H1 & H2)]]; cbn in H1 || idtac.
    - left. destruct (decide (id = T)) as [->|]; [rewrite lookup_insert_eq in H1; injection H1 as <-; eauto|].
      rewrite lookup_insert_ne in H1 by done. eauto.
    - right; by left.
    - destruct (decide (tid' = tid)) as [->|]; [|rewrite lookup_insert_ne in H1 by done; right; right; eauto].
      rewrite lookup_insert_eq in H1. injection H1 as <- <-. cbn in H2. subst x. left. eauto. }
  assert (Hkeep : ∀ id t0 mesh r tx, tenants w !! id = Some t0 → pending mesh t0 !! r = Some tx →
    ∃ t', tenants w' !! id = Some t' ∧ pending mesh t' !! r = Some tx).
  { intros id t0 mesh r tx H0 Hp. cbn. destruct (decide (id = T)) as [->|]; [|rewrite lookup_insert_ne by done; eauto].
    rewrite lookup_insert_eq. eexists. split; [done|]. rewrite pending_set_pending. simplify_eq. fold M R.
    destruct (Bool.eqb M mesh) eqn:HM; [apply eqb_prop in HM as <-|done].
    rewrite lookup_insert_ne; [done|]. intros <-. congruence. }
  assert (Hsome : ∀ id, is_Some (tenants w !! id) → is_Some (tenants w' !! id)).
  { intros id H. cbn. destruct (decide (id = T)) as [->|]; [rewrite lookup_insert_eq; eauto|by rewrite lookup_insert_ne]. }
  split; cbn [tasks metrics request_slots client_sockets fresh w' set_tasks register_entry set_tables]; eauto.
  - intros id t'. cbn. destruct (decide (id = T)) as [->|]; [|rewrite lookup_insert_ne by done; eauto].
    rewrite lookup_insert_eq. intros [= <-]. destruct (wf_tenants0 T t HT) as [<- Ht]. split; [done|].
    apply set_pending_wf; [done|]. apply size_insert_le; [done|]. apply Ht.
  - cbn. fold T. apply size_insert_le; [|done]. intros Hn. congruence.
  - cbn. fold T R M. unfold connection_count. rewrite total_set_pending; [done|by intros ? [] ?|done].
  - cbn. fold T R M. unfold worker_total. rewrite total_set_pending; [done|by intros ? [] ?|done].
  - destruct Htask as [[e E]|(E & -> & _)].
    + by rewrite (map_total_replace is_client_task _ _ _ _ E).
    + by rewrite map_total_fresh.
  - intros tid' o' e. destruct (decide (tid' = tid)) as [->|]; [by rewrite lookup_insert_eq|].
    rewrite lookup_insert_ne by done. eauto.
  - intros tid'. destruct (decide (tid' = tid)) as [->|]; [|rewrite lookup_insert_ne by done; eauto].
    intros _. destruct Htask as [[e E]|(_ & _ & ?)]; [|done]. eauto.
  - intros id t' mesh r tx H1 H2.
    assert (tenants w !! id = Some t' ∧ id ≠ T ∨ id = T ∧ t' = set_pending M (<[R := tid]> (pending M t)) t) as Hid.
    { cbn in H1. destruct (decide (id = T)) as [->|]; [rewrite lookup_insert_eq in H1; by injection H1 as <-; right|].
      rewrite lookup_insert_ne in H1 by done. by left. }
    assert ((id, r, mesh) = (T, R, M) ∧ tx = tid ∨
      (id, r, mesh) ≠ (T, R, M) ∧ ∃ t0, tenants w !! id = Some t0 ∧ pending mesh t0 !! r = Some tx) as Hcase.
    { destruct Hid as [[H3 Hne]|[-> ->]]; [right; split; [congruence|eauto]|].
      rewrite pending_set_pending in H2. destruct (Bool.eqb M mesh) eqn:HM.
      - apply eqb_prop in HM as <-. destruct (decide (r = R)) as [->|]; [rewrite lookup_insert_eq in H2; left; naive_solver|].
        rewrite lookup_insert_ne in H2 by done. right. split; [congruence|eauto].
      - apply eqb_false_iff in HM. right. split; [congruence|eauto]. }
    destruct Hcase as [[[= -> -> ->] ->]|[Hne (t0 & H3 & H4)]].
    + exists o, (new_waiting c worker). rewrite lookup_insert_eq. split_and!; try done.
      cbn. change (pending_key T R M _) with (pending_key T R M w). by rewrite lookup_insert_eq.
    + destruct (wf_pending0 _ _ _ _ _ H3 H4) as (o' & wt & H5 & H6 & H7 & H8 & H9 & H10).
      exists o', wt. rewrite lookup_insert_ne by (intros <-; by eapply Hnot). split_and!; try done. cbn.
      change (pending_key ?a ?b ?d _) with (pending_key a b d w). rewrite lookup_insert_ne; [done|].
      intros (E1 & E2 & E3)%pending_key_inj. apply Hne. by rewrite <- E1, <- E2, <- E3.
  - intros id r mesh [m Hm]. cbn in Hm.
    change (pending_key id r mesh w') with (pending_key id r mesh w) in Hm. fold T R M in Hm.
    destruct (decide ((id, r, mesh) = (T, R, M))) as [[= -> -> ->]|Hne].
    + eexists. cbn. rewrite lookup_insert_eq. split; [done|]. rewrite pending_set_pending, eqb_reflx, lookup_insert_eq. eauto.
    + rewrite lookup_insert_ne in Hm.
      * destruct (wf_metadata0 id r mesh (ltac:(eauto))) as (t0 & H1 & [x H2]).
        destruct (Hkeep _ _ _ _ _ H1 H2) as (t' & ? & ?). eauto.
      * intros (E1 & E2 & E3)%pending_key_inj. apply Hne. by rewrite <- E1, <- E2, <- E3.
  - intros tid' o' wt. destruct (decide (tid' = tid)) as [->|].
    + rewrite lookup_insert_eq. intros [= <- <-] _. eexists. cbn. fold T R M. rewrite lookup_insert_eq. split; [done|].
      by rewrite pending_set_pending, eqb_reflx, lookup_insert_eq.
    + rewrite lookup_insert_ne by done. intros H1 H2. destruct (wf_waiting0 _ _ _ H1 H2) as (t0 & H3 & H4).
      destruct (Hkeep _ _ _ _ _ H3 H4) as (t' & ? & ?). by exists t'.
  - intros tid' o' wt. destruct (decide (tid' = tid)) as [->|]; [|rewrite lookup_insert_ne by done; eauto].
    rewrite lookup_insert_eq. by intros [= <- <-].
  - intros tid' o' wt a. destruct (decide (tid' = tid)) as [->|]; [|rewrite lookup_insert_ne by done; eauto].
    rewrite lookup_insert_eq. by intros [= <- <-].
Qed.

(** What a route leaves before its await: a registered waiting task, or an
    answer and a world the invariant sees as it was. *)
Definition routed (tid : nat) (o : task_owner) (tasks0 : gmap nat task) (r : (answer + waiting) * world) : Prop :=
  match r.1 with
  | inl a => wf r.2 ∧ ∀ e, tasks0 !! tid = Some {| owner := o; progress := Spawned e |} →
                            tasks r.2 !! tid = tasks0 !! tid
  | inr wt => wf (set_tasks (<[tid := {| owner := o; progress := Waiting wt |}]> (tasks r.2)) r.2)
  end.

Lemma fail_routed c reason tid o w : wf w → routed tid o (tasks w) (let '(a, w) := fail c reason w in (inl a, w)).
Proof. intros Hw. split; [|done]. by apply wf_count_metrics. Qed.

Lemma register_and_forward_routed c worker tid o t mk w :
  wf w → routing_task tid o w → tenants w !! call_tenant c = Some t → workers t !! mk = Some worker →
  selected c worker → pending (call_mesh c) t !! call_request c = None →
  sizeN (pending (call_mesh c) t) < MAX_GATEWAY_PENDING_PER_TENANT →
  routed tid o (tasks w) (register_and_forward c worker tid t w).
Proof.
  intros Hw Htask HT Hmk Hsel HR Hsize. unfold register_and_forward.
  change (register_pending_metadata _ _ _ _ _ _) with (register_entry c worker tid t w).
  assert (Hfail : ∀ reason cs, routed tid o (tasks w)
    (let '(a, w') := fail c reason (set_cells cs (heartbeats w) (register_entry c worker tid t w)) in
     (inl a, cleanup_pending (call_mesh c) (call_tenant c) (call_request c)
               (cleanup_pending (call_mesh c) (call_tenant c) (call_request c) w')))).
  { intros reason cs. destruct (cleanup_registered c worker tid o t cs w Hw Htask HT HR) as [Hw' Ht'].
    split; [by apply wf_cleanup|]. intros e He. cbn [snd fail]. rewrite He. apply cleanup_keeps_spawned. by rewrite Ht'. }
  destruct (call_json c) as [text|e].
  - unfold worker_send. pose proof (send_message_cells "worker" (worker_sender worker) (TextFrame text)
      (register_entry c worker tid t w)) as [cs Hcs].
    destruct (send_message _ _ _ _) as [[[]|e] w']; cbn in Hcs; subst w'; [|apply Hfail].
    unfold routed. cbn [fst snd]. pose proof (wf_register c worker tid o t mk w Hw Htask HT Hmk Hsel HR Hsize) as Hr.
    by apply (wf_frame _ _ Hr).
  - assert (register_entry c worker tid t w = set_cells (channels w) (heartbeats w) (register_entry c worker tid t w))
      as -> by by destruct w. apply Hfail.
Qed.

Lemma wf_put_entry id w : wf w → is_Some (tenants w !! id) → put_tenant id (tenant_entry id w) w = w.
Proof.
  intros Hw [t Ht]. unfold put_tenant, tenant_entry. rewrite Ht. cbn. rewrite insert_id by done. apply set_tables_id.
Qed.
Lemma selected_inv sha256 c worker t it :
  tenant_wf t → tenant_id t = call_tenant c → get_worker_by_core it (call_core c) t = Some worker →
  compatible sha256 t c worker = true → ∃ mk, workers t !! mk = Some worker ∧ selected c worker.
Proof.
  intros Ht Hid Hg Hc. apply get_worker_by_core_inv in Hg as (mk & Hmk & Hk1 & Hk2); [|done].
  exists mk. split; [done|]. split_and!; [congruence|done|]. intros e ->. by eapply compatible_cluster.
Qed.

Lemma route_request_routed sha256 e tid o now it w :
  wf w → tasks w !! tid = Some {| owner := o; progress := Spawned e |} →
  routed tid o (tasks w) (route_request sha256 e tid now it w).
Proof.
  intros Hw Htid. unfold route_request. destruct (validate_routing_envelope _ _ _); [by apply fail_routed|].
  pose proof (wf_spawned _ _ Hw _ _ _ Htid) as Hsome. rewrite wf_put_entry by done.
  destruct (wf_tenant_entry (env_tenant_id e) w Hw) as [Hid Ht].
  destruct (get_worker_by_core _ _ _) as [worker|] eqn:Hg; [|by apply fail_routed].
  destruct (compatible _ _ _ _) eqn:Hc; [|by apply fail_routed].
  destruct (negb _) eqn:Hp; [by apply fail_routed|]. apply can_register_inv in Hp as [Hs Hn].
  destruct (selected_inv sha256 (PeerCall e) worker _ it Ht Hid Hg Hc) as (mk & Hmk & Hsel).
  apply (register_and_forward_routed (PeerCall e) worker tid o _ mk); try done.
  - left. eauto.
  - cbn. unfold tenant_entry. destruct Hsome as [t ->]. done.
Qed.
Lemma route_mesh_request_routed sha256 error q tid it w :
  wf w → tasks w !! tid = None → (tid < fresh w)%nat →
  routed tid FromRelay (tasks w) (route_mesh_request sha256 error q tid it w).
Proof.
  intros Hw Htid Hf. unfold route_mesh_request. destruct (validate_schema _ _) as [[]|e]; [|by apply fail_routed].
  destruct (tenants w !! mesh_target_tenant_id q) as [t|] eqn:HT; [|by apply fail_routed].
  destruct (wf_tenants _ _ Hw _ _ HT) as [Hid Ht].
  destruct (get_worker_by_core _ _ _) as [worker|] eqn:Hg; [|by apply fail_routed].
  destruct (compatible _ _ _ _) eqn:Hc; [|by apply fail_routed].
  destruct (negb _) eqn:Hp; [by apply fail_routed|]. apply can_register_inv in Hp as [Hs Hn].
  destruct (selected_inv sha256 (MeshCall q) worker _ it Ht Hid Hg Hc) as (mk & Hmk & Hsel).
  apply (register_and_forward_routed (MeshCall q) worker tid FromRelay _ mk); try done. by right.
Qed.

Lemma wf_start_task sha256 tid now it w : wf w → wf (start_task sha256 tid now it w).1.
Proof.
  intros Hw. unfold start_task. destruct (tasks w !! tid) as [[o [e|wt]]|] eqn:Htid; [|done|done].
  destruct (aborted o w); [done|]. pose proof (route_request_routed sha256 e tid o now it w Hw Htid) as Hr. unfold routed in Hr.
  destruct (route_request sha256 e tid now it w) as [[a|wt] w']; cbn [fst snd] in *; [|done].
  destruct Hr as [Hw' Hk]. specialize (Hk e Htid). rewrite Htid in Hk. apply finish_frame.
  by apply (wf_remove_task tid {| owner := o; progress := Spawned e |}).
Qed.
Lemma wf_fresh_cell w : wf w → wf (fresh_cell w).2.
Proof. intros Hw. apply wf_set_counters; [done|cbn; lia|done]. Qed.
Lemma wf_relay_request sha256 error q it w : wf w → wf (relay_request sha256 error q it w).1.
Proof.
  intros Hw. unfold relay_request. cbn [fresh_cell].
  pose proof (wf_fresh_cell w Hw) as Hw1. cbn in Hw1. set (w1 := set_counters _ _ _ _ w) in *.
  assert (tasks w1 !! fresh w = None) as Hn.
  { apply eq_None_not_Some. intros H. apply (wf_fresh _ _ Hw) in H. lia. }
  pose proof (route_mesh_request_routed sha256 error q (fresh w) it w1 Hw1 Hn (ltac:(cbn; lia))) as Hr.
  unfold routed in Hr. destruct (route_mesh_request _ _ _ _ _ _) as [[a|wt] w']; cbn [fst snd] in *; [|done].
  by destruct Hr.
Qed.

(** *** Workers come and go *)

Lemma add_worker_inv conn caps t r t' :
  add_worker conn caps t = (r, t') →
  r ≠ Ok () ∧ t' = t ∨
  r = Ok () ∧ tenant_id t' = tenant_id t ∧ workers t' = <[map_key (worker_key conn) := conn]> (workers t) ∧
  clients t' = clients t ∧ ∀ mesh, pending mesh t' = pending mesh t.
Proof.
  unfold add_worker. destruct (_ && _); intros [= <- <-]; [by left|right]. split_and!; try done.
Qed.

(** The load of a partition, before and after. *)
Definition load (t : TenantState) : N := sizeN (workers t) + sizeN (clients t).
Definition entry_load (f : TenantState → N) id w : N := default 0 (f <$> tenants w !! id).
Lemma entry_load_tenant (f : TenantState → N) id w : f (tenant_new id) = 0 → entry_load f id w = f (tenant_entry id w).
Proof. intros Hf. unfold entry_load, tenant_entry. by destruct (tenants w !! id). Qed.
Lemma load_insert (f : TenantState → N) id t w :
  f (tenant_new id) = 0 →
  map_total f (<[id := t]> (tenants w)) + f (tenant_entry id w) = map_total f (tenants w) + f t.
Proof. intros Hf. rewrite <- (entry_load_tenant f) by done. apply map_total_insert. Qed.
Lemma load_le_total (f : TenantState → N) id w : f (tenant_new id) = 0 → f (tenant_entry id w) ≤ map_total f (tenants w).
Proof.
  intros Hf. unfold tenant_entry. destruct (tenants w !! id) as [t|] eqn:Ht; cbn; [|lia].
  rewrite (map_total_delete f _ _ _ Ht). lia.
Qed.

Lemma tenant_limit_inv id w : wf w → tenant_limit_reached id w = false →
  tenants w !! id = None → sizeN (tenants w) < MAX_GATEWAY_TENANTS.
Proof.
  intros Hw Hl Hn. unfold tenant_limit_reached in Hl. rewrite Hn, bool_decide_eq_true_2 in Hl by done.
  cbn in Hl. by apply N.leb_gt in Hl.
Qed.
(** Replacing a partition by one with the same workers. *)
Lemma wf_put_clients id t w :
  wf w → tenant_id t = id → tenant_wf t → (∀ mesh, pending mesh t = pending mesh (tenant_entry id w)) →
  workers t = workers (tenant_entry id w) → (tenants w !! id = None → sizeN (tenants w) < MAX_GATEWAY_TENANTS) →
  connection_count (<[id := t]> (tenants w)) ≤ MAX_GATEWAY_CONNECTIONS → wf (put_tenant id t w).
Proof.
  intros Hw Hid Ht Hp Hws Hn Hcount.
  assert (put_tenant id t w = set_metrics (metrics w) (put_tenant id t w)) as -> by by destruct w.
  apply (wf_put_tenant _ _ _ None); try done.
  - rewrite Hws. unfold tenant_entry. destruct (tenants w !! id) as [t0|] eqn:E; cbn; [|intros ?? H; by rewrite lookup_empty in H].
    intros mk c Hc. left. left. eauto.
  - rewrite (wf_active _ _ Hw). pose proof (load_insert (λ t, sizeN (workers t)) id t w eq_refl) as Hl.
    unfold worker_total. cbn in Hl. rewrite Hws in Hl. lia.
  - apply (wf_gauge _ _ Hw).
Qed.
Lemma wf_put_same id w : wf w → tenant_limit_reached id w = false → wf (put_tenant id (tenant_entry id w) w).
Proof.
  intros Hw Hl. destruct (wf_tenant_entry id w Hw) as [Hid Ht]. apply wf_put_clients; try done.
  - by apply tenant_limit_inv.
  - pose proof (load_insert load id (tenant_entry id w) w eq_refl) as E. pose proof (wf_connections _ _ Hw) as Hc.
    unfold connection_count in *. unfold load in E at 1 3. lia.
Qed.

Lemma wf_worker_connect ctx now w :
  wf w → connection_generation w < u64_max → wf (worker_connect ctx now w).
Proof.
  intros Hw Hg. unfold worker_connect. cbn [fresh_cell take_generation set_cells set_counters fst snd].
  set (w1 := set_counters (fetch_inc _) _ _ _ _). set (conn := {| worker_key := _ |}).
  set (T := ctx_tenant_id ctx).
  assert (Hinc : connection_generation w1 = connection_generation w + 1).
  { cbn. unfold fetch_inc. apply N.mod_small. lia. }
  assert (Hw1 : wf w1).
  { apply wf_set_counters; [change (connection_generation w ≤ connection_generation w1); lia|done|].
    apply wf_set_cells. by apply (wf_fresh_cell w). }
  destruct (tenant_limit_reached T w1) eqn:Hl; [by apply wf_close_channel|].
  destruct (MAX_GATEWAY_CONNECTIONS <=? connection_count (tenants w1)) eqn:Hcc; [by apply wf_close_channel|].
  apply N.leb_gt in Hcc. destruct (wf_tenant_entry T w1 Hw1) as [Hid Ht].
  pose proof (add_worker_wf conn (ctx_capabilities ctx) (tenant_entry T w1) Ht (eq_sym Hid)) as Ht'.
  destruct (add_worker conn _ _) as [r t'] eqn:Hadd. cbn [snd] in Ht'.
  apply add_worker_inv in Hadd as [[Hr ->]|(-> & Hid' & Hws & Hcs & Hp)].
  { destruct r as [[]|]; [done|]. by apply wf_close_channel, wf_put_same. }
  unfold get_worker. change (workers (tenant_entry T w1) !! (ctx_installation_id ctx, ctx_core_id ctx))
    with (workers (tenant_entry T w1) !! map_key (worker_key conn)).
  set (replaced := bool_decide _).
  set (m := if replaced then metrics w1 else worker_connected (metrics w1)).
  assert (Hput : wf (set_metrics m (put_tenant T t' w1))).
  { pose proof (load_insert load T t' w1 eq_refl) as HL. pose proof (load_insert (λ t, sizeN (workers t)) T t' w1 eq_refl) as HW.
    cbn beta in HW.
    assert (Hsize : sizeN (workers t') = sizeN (workers (tenant_entry T w1)) + if replaced then 0 else 1).
    { rewrite Hws. unfold replaced. case_bool_decide as Hrep.
      - apply not_eq_None_Some in Hrep. rewrite map_size_insert_Some by done. lia.
      - rewrite map_size_insert_None by done. lia. }
    apply (wf_put_tenant _ _ _ (Some conn)); try done.
    - congruence.
    - intros mk c. rewrite Hws. intros [[_ <-]|[_ Hc]]%lookup_insert_Some; [by right|left; left].
      revert Hc. unfold tenant_entry. destruct (tenants w1 !! T) as [t0|] eqn:E; [|cbn; by rewrite lookup_empty].
      cbn. eauto.
    - intros c [= <-]. rewrite Hinc. split; [cbn; lia|]. intros c' Hc'%(wf_generation _ _ Hw). cbn. lia.
    - by apply tenant_limit_inv.
    - unfold connection_count, load in *. rewrite Hcs in HL. destruct replaced; lia.
    - pose proof (wf_active _ _ Hw1) as Ha. unfold worker_total, m in *. destruct replaced; [lia|].
      cbn [active_workers worker_connected]. unfold fetch_inc. pose proof (wf_gauge _ _ Hw).
      rewrite N.mod_small; [lia|]. change (active_workers (metrics w) + 1 < u64_max + 1). lia.
    - rewrite Hinc. unfold m. pose proof (wf_gauge _ _ Hw). destruct replaced; cbn [active_workers worker_connected].
      + change (active_workers (metrics w) < connection_generation w + 1). lia.
      + unfold fetch_inc. pose proof (N.Div0.mod_le (active_workers (metrics w1) + 1) (u64_max + 1)).
        change (active_workers (metrics w1)) with (active_workers (metrics w)) in *. lia. }
  assert (Hm : (if replaced then put_tenant T t' w1 else count worker_connected (put_tenant T t' w1))
    = set_metrics m (put_tenant T t' w1)) by by destruct replaced, w1.
  assert (Hnew : worker_sockets w1 !! fresh w = None).
  { apply eq_None_not_Some. intros H. apply (wf_socket_fresh _ _ Hw) in H. lia. }
  rewrite Hm. apply wf_set_sockets; [| | | |done].
  - intros s x. cbn. intros [[_ <-]|[_ Hs]]%lookup_insert_Some.
    + left. exists T, t', (map_key (worker_key conn)). cbn. rewrite lookup_insert_eq, Hws, lookup_insert_eq. done.
    + right. left. exists s, x. done.
  - intros s x Hs. by apply (wf_clients _ _ Hput) in Hs.
  - cbn. by rewrite map_total_fresh.
  - cbn. intros s [x [[<- _]|[_ Hs]]%lookup_insert_Some]; [lia|].
    assert (s < fresh w)%nat by (apply (wf_socket_fresh _ _ Hw); eauto). lia.
Qed.

Lemma remove_worker_inv installation core g t removed t' :
  remove_worker_if_current installation core g t = (removed, t') →
  tenant_id t' = tenant_id t ∧ clients t' = clients t ∧ (∀ mesh, pending mesh t' = pending mesh t) ∧
  (∀ mk c, workers t' !! mk = Some c → workers t !! mk = Some c) ∧
  sizeN (workers t) = sizeN (workers t') + if removed then 1 else 0.
Proof.
  unfold remove_worker_if_current, remove_worker. destruct (workers t !! (installation, core)) as [c|] eqn:Hc.
  - destruct (_ =? _); intros [= <- <-]; [|by rewrite N.add_0_r]. split_and!; try done.
    + cbn. by intros mk c' [_ ?]%lookup_delete_Some.
    + cbn. rewrite map_size_delete, Hc.
      assert (size (workers t) ≠ 0%nat); [|lia]. intros E%map_size_empty_iff. rewrite E, lookup_empty in Hc. done.
  - intros [= <- <-]. by rewrite N.add_0_r.
Qed.
(** Taking a worker out: the gauge follows at once, or when the socket is gone. *)
Lemma wf_take_worker c w removed w' :
  wf w → take_worker c w = (removed, w') →
  wf (if removed then count worker_disconnected w' else w') ∧ metrics w' = metrics w ∧
  worker_sockets w' = worker_sockets w ∧ client_sockets w' = client_sockets w ∧ fresh w' = fresh w ∧
  (removed = true → 0 < active_workers (metrics w)).
Proof.
  intros Hw. unfold take_worker. set (T := key_tenant (worker_key c)).
  destruct (tenants w !! T) as [t|] eqn:HT; [|by intros [= <- <-]; split_and!].
  destruct (wf_tenants _ _ Hw _ _ HT) as [Hid Ht].
  destruct (remove_worker_if_current _ _ _ t) as [rm t'] eqn:Hr. intros [= <- <-].
  pose proof (remove_worker_if_current_wf (key_installation (worker_key c)) (key_core (worker_key c))
    (worker_generation c) t Ht) as Ht'. rewrite Hr in Ht'. cbn [snd] in Ht'.
  apply remove_worker_inv in Hr as (Hid' & Hcs & Hp & Hws & Hsize).
  assert (HE : tenant_entry T w = t) by (unfold tenant_entry; by rewrite HT).
  pose proof (load_insert load T t' w eq_refl) as HL. pose proof (load_insert (λ t, sizeN (workers t)) T t' w eq_refl) as HW.
  rewrite HE in HL, HW. cbn beta in HW. pose proof (wf_active _ _ Hw) as Ha. pose proof (wf_gauge _ _ Hw) as Hg.
  split; [|by split_and!; try done; intros ->; unfold worker_total in Ha; lia].
  assert (Hgoal : wf (set_metrics (if rm then worker_disconnected (metrics w) else metrics w) (put_tenant T t' w))).
  { apply (wf_put_tenant _ _ _ None); try done.
    - congruence.
    - intros mesh. by rewrite HE, Hp.
    - intros mk c' Hc. left. left. eauto 7.
    - congruence.
    - pose proof (wf_connections _ _ Hw). unfold connection_count, load in *. rewrite Hcs in HL. lia.
    - unfold worker_total in *. destruct rm; cbn [active_workers worker_disconnected]; lia.
    - destruct rm; cbn [active_workers worker_disconnected]; lia. }
  assert ((if rm then count worker_disconnected (put_tenant T t' w) else put_tenant T t' w)
    = set_metrics (if rm then worker_disconnected (metrics w) else metrics w) (put_tenant T t' w)) as ->
    by by destruct rm, w.
  done.
Qed.

(** A socket whose loop ended keeps its connection until it is gone. *)
Lemma wf_mark_closing socket (s : WorkerSocket) (removed : bool) w :
  wf (if removed then count worker_disconnected w else w) → (removed = true → 0 < active_workers (metrics w)) →
  active_workers (metrics w) < connection_generation w →
  worker_sockets w !! socket = Some s → ws_closing s = None →
  wf (set_sockets (<[socket := {| ws_connection := ws_connection s; ws_expires_at_ms := ws_expires_at_ms s;
                                  ws_subscribed := ws_subscribed s; ws_closing := Some removed |}]> (worker_sockets w))
        (client_sockets w) w).
Proof.
  intros Hw Hpos Hg Hs Hc. set (s' := {| ws_connection := _ |}). set (w' := set_sockets _ _ w).
  assert (Hin : ∀ c, connection_in w' c → connection_in (if removed then count worker_disconnected w else w) c).
  { intros c Hc'. assert (connection_in w c); [|by destruct removed].
    destruct Hc' as [H|[(i & x & H & <-)|H]]; [by left| |by right; right]. right. left.
    cbn in H; apply lookup_insert_Some in H as [[_ <-]|[_ H]]; eauto. }
  assert (Htotal : map_total leaving (worker_sockets w')
    = map_total leaving (worker_sockets w) + if removed then 1 else 0).
  { cbn. pose proof (map_total_insert leaving (worker_sockets w) socket s') as E. rewrite Hs in E. cbn in E.
    unfold leaving at 2 4 in E. rewrite Hc in E. cbn in E. rewrite N.add_0_r in E. rewrite E. by destruct removed. }
  destruct Hw. split; try (destruct removed; assumption).
  - rewrite Htotal. destruct removed; cbn in wf_active0 |- *; [|lia]. specialize (Hpos eq_refl). lia.
  - intros i [x H]. cbn in H. apply lookup_insert_Some in H as [[<- _]|[_ H]].
    + destruct removed; apply wf_socket_fresh0; cbn; eauto.
    + destruct removed; apply wf_socket_fresh0; cbn; eauto.
  - intros c H%Hin. destruct removed; by apply wf_generation0.
  - intros c c' H%Hin H'%Hin. by apply wf_unique0.
Qed.
Lemma wf_close_worker_socket socket s w :
  wf w → worker_sockets w !! socket = Some s → ws_closing s = None → wf (close_worker_socket socket s w).
Proof.
  intros Hw Hs Hc. unfold close_worker_socket. destruct (take_worker _ w) as [removed w'] eqn:Ht.
  destruct (wf_take_worker _ _ _ _ Hw Ht) as (Hw' & Em & Es & Ec & Ef & Hpos).
  set (w2 := close_channel _ w').
  assert (Hw2 : wf (if removed then count worker_disconnected w2 else w2)).
  { apply (wf_close_channel (worker_sender (ws_connection s))) in Hw'. destruct removed; exact Hw'. }
  apply (wf_mark_closing socket s removed w2); [done| | |by rewrite <- Es in Hs|done].
  - intros Hr. change (metrics w2) with (metrics w'). rewrite Em. auto.
  - change (metrics w2) with (metrics w'). rewrite Em.
    assert (connection_generation w2 = connection_generation w) as ->; [|apply Hw].
    revert Ht. unfold w2, take_worker. cbn. destruct (tenants w !! _); [|by intros [= _ <-]].
    destruct (remove_worker_if_current _ _ _ _). by intros [= _ <-].
Qed.
Lemma wf_worker_closed socket w : wf w → wf (worker_closed socket w).
Proof.
  intros Hw. unfold worker_closed. destruct (worker_sockets w !! socket) as [s|] eqn:Hs; [|done].
  destruct (ws_closing s) as [removed|] eqn:Hc; [|done].
  pose proof (map_total_delete leaving _ _ _ Hs) as E.
  match goal with |- wf ?x => set (w' := x) end.
  assert (Hin : ∀ c, connection_in w' c → connection_in w c).
  { intros c [H|[(i & x & H & <-)|H]].
    - left. by destruct removed.
    - right. left. destruct removed; cbn in H; apply lookup_delete_Some in H as [_ H]; eauto.
    - right. right. by destruct removed. }
  destruct Hw. split; try (destruct removed; assumption).
  - rewrite E in wf_active0. unfold leaving at 1 in wf_active0. rewrite Hc in wf_active0. unfold w'.
    destruct removed; [rewrite bool_decide_eq_true_2 in wf_active0 by done|
      rewrite bool_decide_eq_false_2 in wf_active0 by done]; cbn [active_workers count set_metrics metrics
      worker_disconnected set_sockets worker_sockets tenants]; lia.
  - unfold w'. destruct removed; cbn; lia.
  - intros i. unfold w'. destruct removed; cbn; intros [x [_ H]%lookup_delete_Some]; eauto.
  - intros c H%Hin. unfold w'. destruct removed; cbn; by apply wf_generation0.
  - intros c c' H%Hin H'%Hin. by apply wf_unique0.
Qed.

(** A message from a worker; [came] is known of the answers it carries. *)
Definition answers_text (text : string) (a : answer) : Prop :=
  match a with
  | MeshAnswer r => mesh_response_of_json text = Some r
  | PeerAnswer r => mesh_response_of_json text = None ∧ response_of_json text = Some r
  end.
Definition comes (socket : WorkerSocket) (text : string) : Prop :=
  ∀ a cl, answers_text text a → call_tenant cl = key_tenant (worker_key (ws_connection socket)) →
    answer_id a = call_request cl → within_limit cl a → came cl (ws_connection socket) a.

Lemma succeeds_snd o w : (succeeds o w).2 = (o w).2.
Proof. unfold succeeds. by destruct (o w). Qed.
Lemma wf_handle_worker_message s now m w :
  wf w → connection_in w (ws_connection s) → (∀ text, m = TextFrame text → comes s text) →
  wf (handle_worker_message (ws_connection s) now m w).2.
Proof.
  intros Hw Hc Hm. unfold handle_worker_message.
  assert (Hh : wf (update_heartbeat (ws_connection s) now w)) by by apply wf_update_heartbeat.
  assert (Hd : ∀ text a, m = TextFrame text → answers_text text a →
    wf (succeeds (dispatch_worker_answer (key_tenant (worker_key (ws_connection s)))
      (Some (worker_generation (ws_connection s))) a) (update_heartbeat (ws_connection s) now w)).2).
  { intros text a Htext Ha. rewrite succeeds_snd. apply wf_dispatch; [done|exact Hc|].
    intros cl H1 H2 H3. by apply (Hm text Htext). }
  destruct m as [text|data|data|data|]; try done.
  - destruct (_ <=? _); [|done]. case_bool_decide; [done|].
    destruct (mesh_response_of_json text) eqn:E1; [by eapply Hd|].
    destruct (response_of_json text) eqn:E2; [by eapply Hd|done].
  - rewrite succeeds_snd. by apply wf_send_message.
Qed.
Lemma dispatch_sockets T g a w : worker_sockets (dispatch_worker_answer T g a w).2 = worker_sockets w.
Proof.
  unfold dispatch_worker_answer. destruct (tenants w !! T); [|done]. destruct (pending_metadata w !! _); [|done].
  destruct (expected_from _ _ _); [|done]. by destruct (pending _ _ !! _).
Qed.
Lemma handle_worker_message_sockets c now m w :
  worker_sockets (handle_worker_message c now m w).2 = worker_sockets w.
Proof.
  unfold handle_worker_message. destruct m as [text|data|data|data|]; try done.
  - destruct (_ <=? _); [|done]. case_bool_decide; [done|].
    destruct (mesh_response_of_json text); [by rewrite succeeds_snd, dispatch_sockets|].
    destruct (response_of_json text); [by rewrite succeeds_snd, dispatch_sockets|done].
  - rewrite succeeds_snd. destruct (send_message_cells "worker" (worker_sender c) (Pong data)
      (update_heartbeat c now w)) as [cs E]. unfold worker_send. by rewrite E.
Qed.
Lemma wf_worker_socket_step socket now input w :
  wf w →
  (∀ s text, worker_sockets w !! socket = Some s → input = Some (TextFrame text) → comes s text) →
  wf (worker_socket_step socket now input w).
Proof.
  intros Hw Hcomes. unfold worker_socket_step. destruct (worker_sockets w !! socket) as [s|] eqn:Hs; [|done].
  case_bool_decide as Hopen; [done|].
  destruct (_ && _); [by apply wf_close_worker_socket|].
  destruct input as [m|]; [|by apply wf_close_worker_socket].
  assert (Hh : wf (handle_worker_message (ws_connection s) now m w).2).
  { apply wf_handle_worker_message; [done|right; left; eauto|]. intros text ->. eauto. }
  pose proof (handle_worker_message_sockets (ws_connection s) now m w) as Es.
  destruct (handle_worker_message _ _ _ _) as [[] w']; cbn [snd] in *; [done|].
  apply wf_close_worker_socket; [done|by rewrite Es|done].
Qed.
Lemma wf_prune now w : wf w → wf (prune now w).
Proof.
  unfold prune. generalize (stale_workers now w). intros l. revert w.
  induction l as [|c l IH]; intros w Hw; [done|]. cbn. apply IH. unfold prune_worker.
  destruct (take_worker c w) as [removed w'] eqn:Ht. by destruct (wf_take_worker _ _ _ _ Hw Ht) as [? _].
Qed.

(** *** Clients come and go *)

Lemma try_add_client_inv conn t r t' :
  try_add_client conn t = (r, t') →
  r ≠ Ok () ∧ t' = t ∨
  r = Ok () ∧ t' = set_clients (<[client_connection_id conn := conn]> (clients t)) (sessions t) t.
Proof. unfold try_add_client. destruct (_ && _); intros [= <- <-]; [by left|by right]. Qed.
Lemma pending_set_clients mesh cs ss t : pending mesh (set_clients cs ss t) = pending mesh t.
Proof. by destruct mesh. Qed.

Lemma wf_client_connect tenant cluster expires subject pid now w :
  wf w → wf (client_connect tenant cluster expires subject pid now w).
Proof.
  intros Hw. unfold client_connect. cbn [unique_id fresh_cell set_cells set_counters fst snd].
  set (w1 := set_cells _ _ _). set (conn := {| client_connection_id := _ |}).
  assert (Hw1 : wf w1).
  { apply wf_set_cells, wf_set_counters; [done|cbn; lia|].
    by do 2 (apply wf_set_counters; [done|done|]). }
  destruct (tenant_limit_reached tenant w1) eqn:Hl; [by apply wf_close_channel|].
  destruct (MAX_GATEWAY_CONNECTIONS <=? connection_count (tenants w1)) eqn:Hcc; [by apply wf_close_channel|].
  apply N.leb_gt in Hcc. destruct (wf_tenant_entry tenant w1 Hw1) as [Hid Ht].
  pose proof (try_add_client_wf conn _ Ht) as Ht'.
  destruct (try_add_client conn _) as [r t'] eqn:Hadd. cbn [snd] in Ht'.
  apply try_add_client_inv in Hadd as [[Hr ->]|(-> & Et)].
  { destruct r as [[]|]; [done|]. by apply wf_close_channel, wf_put_same. }
  set (t2 := set_clients _ _ t').
  assert (Hput : wf (put_tenant tenant t2 w1)).
  { apply wf_put_clients; try done.
    - by subst t'.
    - apply set_clients_wf; [done|]. apply Ht'.
    - intros mesh. subst t2 t'. by rewrite !pending_set_clients.
    - by subst t'.
    - by apply tenant_limit_inv.
    - pose proof (load_insert load tenant t2 w1 eq_refl) as HL.
      assert (load t2 ≤ load (tenant_entry tenant w1) + 1).
      { unfold load, t2. subst t'. cbn. destruct (clients (tenant_entry tenant w1) !! client_connection_id conn) eqn:E.
        - rewrite map_size_insert_Some by eauto. lia.
        - rewrite map_size_insert_None by done. lia. }
      unfold connection_count, load in *. lia. }
  apply wf_set_sockets; [| |done|apply (wf_socket_fresh _ _ Hput)|by apply wf_count_metrics].
  - intros s x Hs. right. left. exists s, x. done.
  - intros s x. cbn. intros [[_ <-]|[_ Hs]]%lookup_insert_Some; [cbn; by rewrite lookup_insert_eq|].
    by apply (wf_clients _ _ Hput) in Hs.
Qed.

Lemma wf_remove_client c w :
  wf w →
  wf match tenants w !! client_tenant c with
     | Some t =>
       let t := remove_client (client_connection_id c) t in
       put_tenant (client_tenant c) (set_clients (clients t) (delete (client_session c) (sessions t)) t) w
     | None => w
     end.
Proof.
  intros Hw. destruct (tenants w !! client_tenant c) as [t|] eqn:HT; [|done]. cbv zeta.
  destruct (wf_tenants _ _ Hw _ _ HT) as [Hid Ht].
  assert (HE : tenant_entry (client_tenant c) w = t) by (unfold tenant_entry; by rewrite HT).
  apply wf_put_clients; rewrite ?HE; try done.
  - apply set_clients_wf; [apply set_clients_wf; [done|]|]; apply size_delete_le, Ht.
  - congruence.
  - set (t2 := set_clients _ _ _). pose proof (load_insert load (client_tenant c) t2 w eq_refl) as HL. rewrite HE in HL.
    pose proof (wf_connections _ _ Hw) as Hc. pose proof (map_size_delete_le (client_connection_id c) (clients t)).
    assert (load t2 ≤ load t) by (unfold load, t2, remove_client; cbn; lia). unfold connection_count, load in *. lia.
Qed.
Lemma wf_close_client_socket socket s w :
  wf w → client_sockets w !! socket = Some s → wf (close_client_socket socket s w).
Proof.
  intros Hw Hs. unfold close_client_socket. cbv zeta.
  pose proof (wf_remove_client (cs_connection s) w Hw) as H1. cbv zeta in H1. revert H1.
  destruct (wf_clients _ _ Hw _ _ Hs) as [t Ht]. rewrite Ht. set (w1 := put_tenant _ _ w). intros H1.
  apply wf_set_sockets; [| |done|apply (wf_socket_fresh _ _ H1)|done].
  - intros s' x Hs'. right. left. eauto.
  - intros s' x [[_ <-]|[_ Hs']]%lookup_insert_Some; [cbn; by rewrite lookup_insert_eq|].
    by apply (wf_clients _ _ H1) in Hs'.
Qed.
Lemma wf_client_closed socket w : wf w → wf (client_closed socket w).
Proof.
  intros Hw. unfold client_closed. destruct (client_sockets w !! socket) as [s|]; [|done].
  destruct (_ && _); [|done]. apply (wf_close_channel (client_sender (cs_connection s))) in Hw.
  apply wf_count_metrics, wf_set_sockets; [| |done|apply (wf_socket_fresh _ _ Hw)|done].
  - intros s' x Hs. right. left. eauto.
  - intros s' x [_ Hs]%lookup_delete_Some. by apply (wf_clients _ _ Hw) in Hs.
Qed.

Lemma wf_send_rejection c request reason w : wf w → wf (send_rejection c request reason w).
Proof. intros Hw. unfold send_rejection. destruct (response_to_json _); [by apply wf_send_message|done]. Qed.

(** A spawned request takes a slot. *)
Lemma wf_spawn socket c e w :
  wf w → is_Some (tenants w !! env_tenant_id e) → request_slots w ≠ 0 →
  let w1 := set_counters (connection_generation w) (id_counter w) (request_slots w - 1) (S (fresh w)) w in
  wf (set_tasks (<[fresh w := {| owner := FromClient socket c; progress := Spawned e |}]> (tasks w)) w1).
Proof.
  intros Hw Hte Hslots w1. pose proof Hw as Hw0. destruct Hw.
  assert (Hn : tasks w !! fresh w = None).
  { apply eq_None_not_Some. intros H%wf_fresh0. lia. }
  set (w2 := set_tasks _ w1).
  assert (Hwait : ∀ tid o wt, tasks w2 !! tid = Some {| owner := o; progress := Waiting wt |} →
    tasks w !! tid = Some {| owner := o; progress := Waiting wt |}).
  { intros tid o wt. cbn. intros [[_ H]|[_ H]]%lookup_insert_Some; [done|exact H]. }
  assert (Hin : ∀ x, connection_in w2 x → connection_in w x).
  { intros x [Hx|[Hx|(tid & o & wt & H1 & H2)]]; [by left|right; by left|right; right]. apply Hwait in H1. eauto. }
  split; try assumption; try (intros; eauto; fail).
  - cbn. intros s Hs. apply wf_socket_fresh0 in Hs. lia.
  - cbn. rewrite map_total_fresh by done. cbn. lia.
  - cbn. intros tid o e'. intros [[_ [= <- <-]]|[_ H]]%lookup_insert_Some; eauto.
  - cbn. intros tid [tk [[<- _]|[_ H]]%lookup_insert_Some]; [lia|].
    assert (tid < fresh w)%nat by eauto. lia.
  - intros id t mesh r tx H1 H2. destruct (wf_pending0 _ _ _ _ _ H1 H2) as (o & wt & H3 & ?).
    exists o, wt. split; [|done]. cbn. rewrite lookup_insert_ne; [done|]. intros <-. congruence.
Qed.
Lemma wf_handle_client_message socket s now m w :
  wf w → client_sockets w !! socket = Some s → wf (handle_client_message socket s now m w).2.
Proof.
  intros Hw Hs. unfold handle_client_message. destruct (_ <=? now); [done|]. destruct m as [text|data|data|data|]; try done.
  - destruct (_ <? _); [done|]. destruct (envelope_of_json _) as [e|]; [|done].
    destruct (_ || _) eqn:Hb; [by apply wf_send_rejection|].
    destruct (request_slots w =? 0) eqn:Hz; [by apply wf_send_rejection|]. apply N.eqb_neq in Hz.
    cbn [fresh_cell snd]. apply (wf_spawn socket (cs_connection s) e w); [done| |done].
    apply orb_false_iff in Hb as [Hb _]. rewrite negb_false_iff, bool_decide_eq_true in Hb.
    rewrite Hb. by apply (wf_clients _ _ Hw) in Hs.
  - rewrite succeeds_snd. by apply wf_send_message.
Qed.
Lemma send_message_sockets what c m w : client_sockets (send_message what c m w).2 = client_sockets w.
Proof. by destruct (send_message_cells what c m w) as [cs ->]. Qed.
Lemma handle_client_message_sockets socket s now m w :
  client_sockets (handle_client_message socket s now m w).2 = client_sockets w.
Proof.
  unfold handle_client_message. destruct (_ <=? now); [done|].
  assert (Hr : ∀ r x, client_sockets (send_rejection (cs_connection s) r x w) = client_sockets w).
  { intros r x. unfold send_rejection. destruct (response_to_json _); [apply send_message_sockets|done]. }
  destruct m as [text|data|data|data|]; try done.
  - destruct (_ <? _); [done|]. destruct (envelope_of_json _); [|done].
    destruct (_ || _); [apply Hr|]. by destruct (request_slots w =? 0); [apply Hr|].
  - rewrite succeeds_snd. apply send_message_sockets.
Qed.
Lemma wf_client_socket_step socket now input w : wf w → wf (client_socket_step socket now input w).
Proof.
  intros Hw. unfold client_socket_step. destruct (client_sockets w !! socket) as [s|] eqn:Hs; [|done].
  destruct (cs_closing s); [done|]. destruct (_ && _); [by apply wf_close_client_socket|].
  destruct input as [m|]; [|by apply wf_close_client_socket].
  pose proof (wf_handle_client_message socket s now m w Hw Hs) as Hh.
  pose proof (handle_client_message_sockets socket s now m w) as Es.
  destruct (handle_client_message _ _ _ _ _) as [[] w']; cbn [snd] in *; [done|].
  apply wf_close_client_socket; [done|by rewrite Es].
Qed.
Lemma wf_writer_step sender sent w : wf w → wf (writer_step sender sent w).
Proof.
  intros Hw. unfold writer_step. destruct (channels w !! sender) as [c|]; [|done].
  destruct (_ && _); [by apply wf_close_channel|]. destruct (queue c); [done|].
  destruct sent; [by apply wf_set_cells|by apply wf_close_channel].
Qed.
Lemma wf_world_new c id : wf (world_new c id).
Proof.
  assert (Hnone : ∀ {K A} `{Countable K} (k : K) (a : A), (∅ : gmap K A) !! k ≠ Some a)
    by (intros; by rewrite lookup_empty).
  assert (Hin : ∀ x, ¬ connection_in (world_new c id) x).
  { intros x [(?&?&?&H&_)|[(?&?&H&_)|(?&?&?&H&_)]]; by apply Hnone in H. }
  split; cbn; try done; try (intros; exfalso; by eapply Hnone).
  - intros s [x H]. by apply Hnone in H.
  - intros tid [tk H]. by apply Hnone in H.
  - intros T R M [m H]. by apply Hnone in H.
  - intros x H. by apply Hin in H.
  - intros x x' H. by apply Hin in H.
Qed.

(** ** Every step keeps the invariant *)

Lemma wf_step sha256 error e w :
  wf w → connection_generation w < u64_max →
  (∀ socket now text s, e = WorkerInput socket now (Some (TextFrame text)) → worker_sockets w !! socket = Some s →
    comes s text) →
  wf (step sha256 error e w).1.
Proof.
  intros Hw Hg Hcomes. destruct e; cbn [step fst].
  - by apply wf_worker_connect.
  - apply wf_worker_socket_step; [done|]. intros s text Hs ->. by eapply Hcomes.
  - by apply wf_client_connect.
  - by apply wf_client_socket_step.
  - by apply wf_start_task.
  - by apply wf_wake_task.
  - by apply wf_relay_request.
  - destruct (tasks w !! tid) as [[[|] p]|]; [|by apply wf_abort_task|done].
    destruct (aborted _ w); [by apply wf_abort_task|done].
  - by apply wf_worker_closed.
  - by apply wf_client_closed.
  - by apply wf_writer_step.
  - by apply wf_prune.
  - by apply wf_set_shutdown.
Qed.
End Invariant.
#[export] Hint Resolve wf_set_cells wf_close_channel wf_update_heartbeat wf_send_message wf_set_shutdown : gateway.
