(* ===== verification/GatewayRuns.v ===== *)
(** Runs of the gateway: what the invariant of GatewayInvariant.v means for
    the answers that clients get, and the behaviours at its edges. *)

From S2P Require Import Prelude.
From S2P Require Import Text.
From S2P Require Import Types.
From S2P Require Import Timing.
From S2P Require Import Encoding.
From S2P Require Import NonceStore.
From S2P Require Import Distributed.
From S2P Require Import PeerValidation.
From S2P Require Import Gateway.
From S2P Require Import GatewayMesh.
From S2P Require Import GatewayRouter.
From S2P Require Import GatewayInvariant.

Local Open Scope N_scope.

(** ** What no step undoes *)

(** Tenants stay; at most [n] generations are used. *)
Definition grows (n : N) (w w' : world) : Prop :=
  connection_generation w' ≤ connection_generation w + n ∧
  ∀ id, is_Some (tenants w !! id) → is_Some (tenants w' !! id).

Lemma grows_refl w : grows 0 w w.
Proof. split; [lia|done]. Qed.
Lemma grows_trans w1 w2 w3 : grows 0 w1 w2 → grows 0 w2 w3 → grows 0 w1 w3.
Proof. intros [H1 H2] [H3 H4]. split; [lia|auto]. Qed.
Lemma grows_more w w' : grows 0 w w' → grows 1 w w'.
Proof. intros [H1 H2]. split; [lia|done]. Qed.
Lemma grows_frame w w' :
  connection_generation w' = connection_generation w → tenants w' = tenants w → grows 0 w w'.
Proof. intros Hg Ht. split; [lia|by rewrite Ht]. Qed.
Lemma grows_put id t w : grows 0 w (put_tenant id t w).
Proof.
  split; [cbn; lia|]. intros id' H. cbn. destruct (decide (id' = id)) as [->|];
    [rewrite lookup_insert_eq; eauto|by rewrite lookup_insert_ne].
Qed.
Lemma grows_set_tables ts pm w :
  (∀ id, is_Some (tenants w !! id) → is_Some (ts !! id)) → grows 0 w (set_tables ts pm w).
Proof. intros H. split; [cbn; lia|exact H]. Qed.

Section Grows.
Context (sha256 : list byte → list byte) {json : GatewayJson} (error : PeerRpcError.t → string).
Implicit Type w : world.

Lemma grows_cleanup M T R w : grows 0 w (cleanup_pending M T R w).
Proof.
  unfold cleanup_pending. destruct (tenants w !! T) as [t|]; [|by apply grows_frame].
  eapply grows_trans; [apply (grows_put T)|]. destruct (pending M t !! R); by apply grows_frame.
Qed.
Lemma grows_dispatch T g a w : grows 0 w (dispatch_worker_answer T g a w).2.
Proof.
  unfold dispatch_worker_answer. destruct (tenants w !! T) as [t|]; [|apply grows_refl].
  destruct (pending_metadata w !! _) as [m|]; [|apply grows_refl].
  destruct (expected_from g a m); [|apply grows_refl].
  destruct (pending _ t !! _); [|by apply grows_frame]. eapply grows_trans; [by apply (grows_put T)|].
  by apply grows_frame.
Qed.
Lemma grows_send what s m w : grows 0 w (send_message what s m w).2.
Proof. destruct (send_message_cells what s m w) as [cs ->]. by apply grows_frame. Qed.
Lemma grows_release o w : grows 0 w (release_slot o w).
Proof. destruct o; by apply grows_frame. Qed.
Lemma grows_drop_task tk w : grows 0 w (drop_task tk w).
Proof. unfold drop_task. destruct (progress tk); [apply grows_refl|apply grows_cleanup]. Qed.
Lemma grows_finish tid o a w : grows 0 w (finish_task tid o a w).
Proof.
  unfold finish_task. destruct (deliver_answer_cells o a (remove_task tid w)) as [cs ->].
  eapply grows_trans; [|apply grows_release]. by apply grows_frame.
Qed.
Lemma grows_abort tid w : grows 0 w (abort_task tid w).
Proof.
  unfold abort_task. destruct (tasks w !! tid) as [tk|]; [|apply grows_refl].
  eapply grows_trans; [|apply grows_release]. eapply grows_trans; [|apply grows_drop_task]. by apply grows_frame.
Qed.
Lemma grows_register c worker tid t w : grows 0 w (register_and_forward c worker tid t w).2.
Proof.
  unfold register_and_forward. set (w1 := register_pending_metadata _ _ _ _ _ _).
  assert (H1 : grows 0 w w1) by (eapply grows_trans; [apply grows_put|]; by apply grows_frame).
  assert (Hf : ∀ w2, grows 0 w w2 → grows 0 w (cleanup_pending (call_mesh c) (call_tenant c) (call_request c)
    (cleanup_pending (call_mesh c) (call_tenant c) (call_request c) (count routing_failure w2)))).
  { intros w2 H2. eapply grows_trans; [|apply grows_cleanup]. eapply grows_trans; [|apply grows_cleanup].
    eapply grows_trans; [exact H2|]. by apply grows_frame. }
  destruct (call_json c); [|by apply Hf]. unfold worker_send.
  pose proof (grows_trans _ _ _ H1 (grows_send "worker" (worker_sender worker) (TextFrame a) w1)) as H2.
  destruct (send_message _ _ _ w1) as [[[]|e] w2]; [done|by apply Hf].
Qed.
Lemma grows_route e tid now it w : grows 0 w (route_request sha256 e tid now it w).2.
Proof.
  unfold route_request. destruct (validate_routing_envelope _ _ _); [by apply grows_frame|].
  set (w1 := put_tenant _ _ _). assert (H1 : grows 0 w w1) by apply grows_put.
  assert (Hf : grows 0 w (count routing_failure w1)) by (eapply grows_trans; [exact H1|]; by apply grows_frame).
  destruct (get_worker_by_core _ _ _); [|done]. destruct (compatible _ _ _ _); [|done]. destruct (negb _); [done|].
  eapply grows_trans; [exact H1|]. apply grows_register.
Qed.
Lemma grows_route_mesh q tid it w : grows 0 w (route_mesh_request sha256 error q tid it w).2.
Proof.
  unfold route_mesh_request. assert (Hf : grows 0 w (count routing_failure w)) by by apply grows_frame.
  destruct (validate_schema _ _) as [[]|]; [|done]. destruct (tenants w !! _) as [t|]; [|done].
  destruct (get_worker_by_core _ _ _); [|done]. destruct (compatible _ _ _ _); [|done]. destruct (negb _); [done|].
  apply grows_register.
Qed.
Lemma grows_take_worker c w removed w' : take_worker c w = (removed, w') → grows 0 w w'.
Proof.
  unfold take_worker. destruct (tenants w !! _) as [t|]; [|intros [= _ <-]; apply grows_refl].
  destruct (remove_worker_if_current _ _ _ t) as [r t']. intros [= _ <-]. apply grows_put.
Qed.
Lemma grows_close_worker socket s w : grows 0 w (close_worker_socket socket s w).
Proof.
  unfold close_worker_socket. destruct (take_worker _ w) as [removed w'] eqn:Ht.
  eapply grows_trans; [by eapply grows_take_worker|by apply grows_frame].
Qed.
Lemma grows_prune_worker w c : grows 0 w (prune_worker w c).
Proof.
  unfold prune_worker. destruct (take_worker c w) as [removed w'] eqn:Ht. apply grows_take_worker in Ht.
  destruct removed; [|done]. eapply grows_trans; [exact Ht|by apply grows_frame].
Qed.
Lemma grows_worker_closed socket w : grows 0 w (worker_closed socket w).
Proof.
  unfold worker_closed. destruct (worker_sockets w !! socket) as [s|]; [|apply grows_refl].
  destruct (ws_closing s) as [[]|]; by apply grows_frame.
Qed.
Lemma grows_worker_step socket now m w : grows 0 w (worker_socket_step socket now m w).
Proof.
  unfold worker_socket_step. destruct (worker_sockets w !! socket) as [s|]; [|apply grows_refl].
  destruct (bool_decide _); [apply grows_refl|]. destruct (_ && _); [apply grows_close_worker|]. destruct m as [m|]; [|apply grows_close_worker].
  assert (Hh : grows 0 w (handle_worker_message (ws_connection s) now m w).2).
  { unfold handle_worker_message.
    assert (Hd : ∀ a, grows 0 w (succeeds (dispatch_worker_answer (key_tenant (worker_key (ws_connection s)))
      (Some (worker_generation (ws_connection s))) a) (update_heartbeat (ws_connection s) now w)).2).
    { intros a. rewrite succeeds_snd. eapply grows_trans; [|apply grows_dispatch]. by apply grows_frame. }
    destruct m as [text|data|data|data|]; try apply grows_refl; try by apply grows_frame.
    - destruct (_ <=? _); [|apply grows_refl]. case_bool_decide; [by apply grows_frame|].
      destruct (mesh_response_of_json text); [apply Hd|]. destruct (response_of_json text); [apply Hd|apply grows_refl].
    - rewrite succeeds_snd. eapply grows_trans; [|apply grows_send]. by apply grows_frame. }
  destruct (handle_worker_message _ _ _ _) as [[] w']; [done|]. eapply grows_trans; [exact Hh|apply grows_close_worker].
Qed.
Lemma grows_close_client socket s w : grows 0 w (close_client_socket socket s w).
Proof.
  unfold close_client_socket. cbv zeta. match goal with |- context [set_sockets _ _ ?x] => set (w1 := x) end.
  assert (H1 : grows 0 w w1) by (unfold w1; destruct (tenants w !! _); [apply grows_put|apply grows_refl]).
  eapply grows_trans; [exact H1|by apply grows_frame].
Qed.
Lemma grows_client_closed socket w : grows 0 w (client_closed socket w).
Proof.
  unfold client_closed. destruct (client_sockets w !! socket) as [s|]; [|apply grows_refl].
  destruct (_ && _); by apply grows_frame.
Qed.
Lemma grows_client_step socket now m w : grows 0 w (client_socket_step socket now m w).
Proof.
  unfold client_socket_step. destruct (client_sockets w !! socket) as [s|]; [|apply grows_refl].
  destruct (cs_closing s); [apply grows_refl|]. destruct (_ && _); [apply grows_close_client|]. destruct m as [m|]; [|apply grows_close_client].
  assert (Hh : grows 0 w (handle_client_message socket s now m w).2).
  { unfold handle_client_message. destruct (_ <=? now); [apply grows_refl|].
    assert (Hr : ∀ r x, grows 0 w (send_rejection (cs_connection s) r x w)).
    { intros r x. unfold send_rejection. destruct (response_to_json _); [apply grows_send|apply grows_refl]. }
    destruct m as [text|data|data|data|]; try apply grows_refl.
    - destruct (_ <? _); [apply grows_refl|]. destruct (envelope_of_json _); [|apply grows_refl].
      destruct (_ || _); [apply Hr|]. destruct (request_slots w =? 0); [apply Hr|by apply grows_frame].
    - rewrite succeeds_snd. apply grows_send. }
  destruct (handle_client_message _ _ _ _ _) as [[] w']; [done|]. eapply grows_trans; [exact Hh|apply grows_close_client].
Qed.
Lemma grows_worker_connect ctx now w : grows 1 w (worker_connect ctx now w).
Proof.
  unfold worker_connect. cbn [fresh_cell take_generation set_cells set_counters fst snd].
  set (w1 := set_counters (fetch_inc _) _ _ _ _). set (conn := {| worker_key := _ |}).
  assert (H1 : grows 1 w w1).
  { split; [|done]. cbn. unfold fetch_inc. apply N.Div0.mod_le. }
  assert (Ht : ∀ w', grows 0 w1 w' → grows 1 w w').
  { intros w' [Hg Hs]. destruct H1 as [Hg1 Hs1]. split; [lia|auto]. }
  destruct (tenant_limit_reached _ w1); [by apply Ht, grows_frame|].
  destruct (_ <=? _); [by apply Ht, grows_frame|].
  destruct (add_worker _ _ _) as [[[]|] t]; apply Ht; (eapply grows_trans; [apply (grows_put (ctx_tenant_id ctx) t)|]).
  - destruct (bool_decide _); by apply grows_frame.
  - by apply grows_frame.
Qed.
Lemma grows_client_connect tenant cluster expires subject pid now w :
  grows 0 w (client_connect tenant cluster expires subject pid now w).
Proof.
  unfold client_connect. cbn [unique_id fresh_cell set_cells set_counters fst snd].
  set (w1 := set_cells _ _ _). assert (H1 : grows 0 w w1) by by apply grows_frame.
  eapply grows_trans; [exact H1|].
  destruct (tenant_limit_reached _ w1); [by apply grows_frame|]. destruct (_ <=? _); [by apply grows_frame|].
  destruct (try_add_client _ _) as [[[]|] t]; (eapply grows_trans; [apply (grows_put tenant)|]); by apply grows_frame.
Qed.
Lemma grows_step e w : grows 1 w (step sha256 error e w).1.
Proof.
  destruct e; cbn [step fst]; [apply grows_worker_connect|apply grows_more..].
  - apply grows_worker_step.
  - apply grows_client_connect.
  - apply grows_client_step.
  - unfold start_task. destruct (tasks w !! tid) as [[o [e|wt]]|]; try apply grows_refl.
    destruct (aborted o w); [apply grows_refl|]. pose proof (grows_route e tid now_ms it w) as Hr.
    destruct (route_request _ _ _ _ _ _) as [[a|wt] w']; (eapply grows_trans; [exact Hr|]);
      [apply grows_finish|by apply grows_frame].
  - unfold wake_task. destruct (tasks w !! tid) as [tk|]; [|apply grows_refl].
    destruct (progress tk) as [|wt]; [apply grows_refl|]. destruct (aborted _ w); [apply grows_refl|].
    destruct (poll_route wt elapsed w) as [[a w']|] eqn:Hp; [|apply grows_refl].
    assert (H1 : grows 0 w w') by (apply poll_route_inv in Hp as [[-> _]|[-> _]]; by apply grows_frame).
    eapply grows_trans; [exact H1|]. eapply grows_trans; [apply grows_drop_task|apply grows_finish].
  - unfold relay_request. cbn [fresh_cell].
    pose proof (grows_route_mesh q (fresh w) it
      (set_counters (connection_generation w) (id_counter w) (request_slots w) (S (fresh w)) w)) as Hr.
    destruct (route_mesh_request _ _ _ _ _ _) as [[a|wt] w']; cbn [fst snd] in *;
      (eapply grows_trans; [|eapply grows_trans; [exact Hr|]]); by apply grows_frame.
  - destruct (tasks w !! tid) as [[[|] p]|]; [|apply grows_abort|apply grows_refl].
    destruct (aborted _ w); [apply grows_abort|apply grows_refl].
  - apply grows_worker_closed.
  - apply grows_client_closed.
  - unfold writer_step. destruct (channels w !! sender) as [c|]; [|apply grows_refl].
    destruct (_ && _); [by apply grows_frame|]. destruct (queue c); [apply grows_refl|].
    destruct sent; by apply grows_frame.
  - unfold prune. generalize (stale_workers now_ms w). intros l. revert w.
    induction l as [|c l IH]; intros w; [apply grows_refl|]. cbn. eapply grows_trans; [apply grows_prune_worker|apply IH].
  - by apply grows_frame.
Qed.
End Grows.

(** ** Every run *)

Section Runs.
Context (sha256 : list byte → list byte) {json : GatewayJson} (error : PeerRpcError.t → string).
Context (cfg : GatewayConfig) (id : N).

Definition trace (es : list event) : world := run sha256 error es (world_new cfg id).
Lemma trace_snoc es e : trace (es ++ [e]) = (step sha256 error e (trace es)).1.
Proof. unfold trace, run. by rewrite foldl_app. Qed.

(** The answer is a frame that the connection's socket received in the run. *)
Definition came_from (es : list event) (c : call) (worker : WorkerConnection) (a : answer) : Prop :=
  ∃ before socket now text s,
    before ++ [WorkerInput socket now (Some (TextFrame text))] `prefix_of` es ∧
    worker_sockets (trace before) !! socket = Some s ∧ ws_connection s = worker ∧ answers_text text a.

Lemma wf_weaken (came came' : call → WorkerConnection → answer → Prop) w :
  (∀ c k a, came c k a → came' c k a) → wf came w → wf came' w.
Proof.
  intros Hcame []. split; try assumption. intros tid o wt a H1 H2.
  destruct (wf_delivered _ _ _ _ H1 H2) as (? & ? & ?). auto.
Qed.
Lemma trace_wf es :
  lenN es < u64_max → wf (came_from es) (trace es) ∧ connection_generation (trace es) ≤ 1 + lenN es.
Proof.
  induction es as [|e es IH] using rev_ind; intros Hlen; [split; [apply wf_world_new|done]|].
  rewrite length_app in Hlen. cbn [length] in Hlen. destruct IH as [Hw Hg]; [lia|]. rewrite trace_snoc.
  pose proof (grows_step sha256 error e (trace es)) as [Hgrow _].
  split; [|rewrite length_app; cbn [length]; lia].
  assert (Hw' : wf (came_from (es ++ [e])) (trace es)).
  { revert Hw. apply wf_weaken. intros c k a (before & socket & now & text & s & Hp & ?).
    exists before, socket, now, text, s. split; [|done]. by apply prefix_app_r. }
  apply wf_step; [done|lia|]. intros socket now text s -> Hs a cl Ha _ _ _.
  exists es, socket, now, text, s. done.
Qed.


(** C23: In every run the gateway stays within its limits and its tables agree: at
    most 1,024 tenants, 8,192 connections and 4,096 requests of clients in
    flight, per tenant at most 1,024 workers, 4,096 clients and 2,048 pending
    requests of a kind; the worker gauge counts the connected workers and those
    whose closed socket still awaits its writer; only a connected worker is advertised; and a task waits on an empty channel
    exactly when the table of pending requests names it under its own key. *)
Theorem gateway_keeps_its_tables es :
  lenN es < u64_max →
  let w := trace es in
  sizeN (tenants w) ≤ 1024 ∧ connection_count (tenants w) ≤ 8192 ∧
  map_total is_client_task (tasks w) + request_slots w = 4096 ∧
  active_workers (metrics w) = worker_total (tenants w) + map_total leaving (worker_sockets w) ∧
  (∀ T t, tenants w !! T = Some t →
    sizeN (workers t) ≤ 1024 ∧ sizeN (clients t) ≤ 4096 ∧ (∀ mesh, sizeN (pending mesh t) ≤ 2048) ∧
    ∀ k c, advertises (registry t) k c → ∃ x, workers t !! map_key k = Some x ∧ worker_key x = k) ∧
  ∀ tid c, registered w c tid ↔
    ∃ o wt, tasks w !! tid = Some {| owner := o; progress := Waiting wt |} ∧ wait_rx wt = Empty ∧
      call_tenant (wait_call wt) = call_tenant c ∧ call_request (wait_call wt) = call_request c ∧
      call_mesh (wait_call wt) = call_mesh c.
Proof.
  intros Hlen w. destruct (trace_wf es Hlen) as [Hw _]. fold w in Hw. split_and!; try apply Hw.
  - intros T t Ht. destruct (wf_tenants _ _ Hw _ _ Ht) as [_ Hwf]. split_and!; try apply Hwf.
    intros k c. by apply advertised_is_connected.
  - intros tid c. split.
    + intros (t & H1 & H2). destruct (wf_pending _ _ Hw _ _ _ _ _ H1 H2) as (o & wt & ? & ? & ? & ? & ? & _).
      exists o, wt. auto.
    + intros (o & wt & H1 & H2 & E1 & E2 & E3). destruct (wf_waiting _ _ Hw _ _ _ H1 H2) as (t & H3 & H4).
      exists t. by rewrite <- E1, <- E2, <- E3.
Qed.

(** ** A reused request id *)

Definition same_key (c c' : call) : Prop :=
  call_tenant c = call_tenant c' ∧ call_request c = call_request c' ∧ call_mesh c = call_mesh c'.

Lemma finish_tasks tid o a w : tasks (finish_task tid o a w) = delete tid (tasks w).
Proof.
  unfold finish_task. destruct (deliver_answer_cells o a (remove_task tid w)) as [cs ->]. by destruct o.
Qed.
Lemma finish_tables tid o a w :
  tenants (finish_task tid o a w) = tenants w ∧ pending_metadata (finish_task tid o a w) = pending_metadata w ∧
  shutdown (finish_task tid o a w) = shutdown w ∧ state_id (finish_task tid o a w) = state_id w ∧
  client_sockets (finish_task tid o a w) = client_sockets w.
Proof.
  unfold finish_task. destruct (deliver_answer_cells o a (remove_task tid w)) as [cs ->]. by destruct o.
Qed.
(** An answer for a key that is not pending is refused and changes nothing. *)
Lemma dispatch_absent T g a w :
  pending_metadata w !! pending_key T (answer_id a) (answer_mesh a) w = None →
  dispatch_worker_answer T g a w = (Err (orphaned_response T (answer_id a) (answer_mesh a)), w).
Proof. intros Hn. unfold dispatch_worker_answer. rewrite Hn. by destruct (tenants w !! T). Qed.

(** A request that was answered but has not been polled yet still cleans up its
    key when it finishes. If a second request with the same id was registered in
    between, that cleanup removes the second one: its client is answered
    [worker_connection_lost] although its worker is connected, and the worker's
    answer to it is refused as orphaned. *)
Theorem finished_request_cancels_reused_id es tid tid' o o' wt wt' a :
  lenN es < u64_max → shutdown (trace es) = false →
  tasks (trace es) !! tid = Some {| owner := o; progress := Waiting wt |} → wait_rx wt = Delivered a →
  tasks (trace es) !! tid' = Some {| owner := o'; progress := Waiting wt' |} → wait_rx wt' = Empty →
  same_key (wait_call wt) (wait_call wt') → aborted o (trace es) = false → aborted o' (trace es) = false →
  let w := trace (es ++ [WakeTask tid false]) in
  (step sha256 error (WakeTask tid' false) w).2 = Some (rejected (wait_call wt') "worker_connection_lost") ∧
  ∀ g a', answer_id a' = call_request (wait_call wt') → answer_mesh a' = call_mesh (wait_call wt') →
    dispatch_worker_answer (call_tenant (wait_call wt')) g a' w
      = (Err (orphaned_response (call_tenant (wait_call wt')) (answer_id a') (answer_mesh a')), w).
Proof.
  intros Hlen Hsd Htid Hrx Htid' Hrx' (E1 & E2 & E3) Hao Hao' w. destruct (trace_wf es Hlen) as [Hw _].
  assert (Hne : tid' ≠ tid) by (intros ->; congruence).
  destruct (wf_waiting _ _ Hw _ _ _ Htid' Hrx') as (t & HT & HR).
  set (w1 := count message_routed (trace es)).
  assert (Hw1 : w = finish_task tid o a (resolve_entry (call_tenant (wait_call wt')) (call_request (wait_call wt'))
    (call_mesh (wait_call wt')) t tid' SenderDropped w1)).
  { unfold w. rewrite trace_snoc. cbn [step]. unfold wake_task. rewrite Htid. cbn [progress owner].
    rewrite Hao. unfold poll_route. rewrite Hsd, Hrx. cbn [fst]. unfold drop_task. cbn [progress].
    rewrite E1, E2, E3. by rewrite (cleanup_found _ _ _ _ t tid'). }
  assert (Hlost : tasks w !! tid' = Some {| owner := o'; progress :=
    Waiting {| wait_call := wait_call wt'; wait_worker := wait_worker wt'; wait_rx := SenderDropped |} |}).
  { rewrite Hw1, finish_tasks, lookup_delete_ne by done. cbn. rewrite lookup_alter_eq, Htid'. cbn.
    unfold resolve_oneshot. cbn. by rewrite Hrx'. }
  destruct (finish_tables tid o a (resolve_entry (call_tenant (wait_call wt')) (call_request (wait_call wt'))
    (call_mesh (wait_call wt')) t tid' SenderDropped w1)) as (_ & Hm & Hs & Hid & Hcs).
  rewrite <- Hw1 in Hm, Hs, Hid, Hcs. split.
  - cbn [step]. unfold wake_task. rewrite Hlost. cbn [progress owner].
    assert (aborted o' w = false) as -> by (revert Hao'; unfold aborted; by rewrite Hcs).
    unfold poll_route. rewrite Hs. cbn. by rewrite Hsd.
  - intros g a' Ha Hmesh. apply dispatch_absent. unfold pending_key. rewrite Hid, Hm, Ha, Hmesh. cbn.
    apply lookup_delete_eq.
Qed.

(** ** A late answer *)

Lemma take_worker_gone c w removed w' t :
  take_worker c w = (removed, w') → tenants w' !! key_tenant (worker_key c) = Some t →
  workers t !! map_key (worker_key c) ≠ Some c.
Proof.
  unfold take_worker. destruct (tenants w !! _) as [t1|] eqn:HT; [|intros [= _ <-]; congruence].
  destruct (remove_worker_if_current _ _ _ t1) as [r t2] eqn:Hr. intros [= _ <-]. cbn. rewrite lookup_insert_eq.
  intros [= <-] Hc. unfold remove_worker_if_current, remove_worker in Hr. unfold map_key in Hc.
  destruct (workers t1 !! (key_installation (worker_key c), key_core (worker_key c))) as [x|] eqn:Hx.
  - destruct (worker_generation x =? worker_generation c) eqn:Hg; injection Hr as <- <-.
    + cbn in Hc. by rewrite lookup_delete_eq in Hc.
    + rewrite Hx in Hc. injection Hc as ->. by rewrite N.eqb_refl in Hg.
  - injection Hr as <- <-. congruence.
Qed.

(** The answer of a worker to a request that is no longer pending closes the
    worker's socket: the worker is taken out of its tenant, unless it has
    reconnected, so every later request to it is refused. *)
Theorem late_answer_disconnects_worker es socket now text s a :
  lenN es < u64_max → worker_sockets (trace es) !! socket = Some s → ws_closing s = None →
  str_len text ≤ MAX_GATEWAY_MESSAGE_BYTES → heartbeat_kind_of_json text ≠ Some "heartbeat"%string →
  answers_text text a →
  (∀ tid o wt, tasks (trace es) !! tid = Some {| owner := o; progress := Waiting wt |} →
    call_request (wait_call wt) = answer_id a → wait_rx wt ≠ Empty) →
  let w := trace (es ++ [WorkerInput socket now (Some (TextFrame text))]) in
  (worker_sockets w !! socket ≫= ws_closing) ≠ None ∧
  ∀ t, tenants w !! key_tenant (worker_key (ws_connection s)) = Some t →
    workers t !! map_key (worker_key (ws_connection s)) ≠ Some (ws_connection s).
Proof.
  intros Hlen Hs Hopen Hsize Hhb Ha Hnone w. destruct (trace_wf es Hlen) as [Hw _].
  set (c := ws_connection s) in *. set (T := key_tenant (worker_key c)).
  assert (Hn : pending_metadata (trace es) !! pending_key T (answer_id a) (answer_mesh a) (trace es) = None).
  { apply eq_None_not_Some. intros (t & H1 & [tx H2])%(wf_metadata _ _ Hw).
    destruct (wf_pending _ _ Hw _ _ _ _ _ H1 H2) as (o & wt & H3 & H4 & _ & H5 & _). by eapply Hnone. }
  assert (Hclosed : ∃ w1, w = close_worker_socket socket s w1).
  { unfold w. rewrite trace_snoc. cbn [step fst]. unfold worker_socket_step. rewrite Hs.
    rewrite Hopen, bool_decide_eq_false_2 by auto.
    destruct (_ && _); [eauto|]. unfold handle_worker_message. fold c T.
    rewrite (proj2 (N.leb_le _ _) Hsize), bool_decide_eq_false_2 by done.
    set (wh := update_heartbeat c now (trace es)).
    assert (Hd : succeeds (dispatch_worker_answer T (Some (worker_generation c)) a) wh = (false, wh)).
    { unfold succeeds. by rewrite dispatch_absent. }
    destruct a as [r|r]; cbn in Ha; [destruct Ha as [-> ->]|rewrite Ha]; rewrite Hd; eauto. }
  destruct Hclosed as [w1 ->]. unfold close_worker_socket. fold c.
  destruct (take_worker c w1) as [removed w2] eqn:Hr. cbn [set_sockets worker_sockets tenants].
  split; [by rewrite lookup_insert_eq|]. intros t Ht. by eapply take_worker_gone.
Qed.

(** ** Tenants are for life *)

Lemma trace_tenants es es' T : is_Some (tenants (trace es) !! T) → is_Some (tenants (trace (es ++ es')) !! T).
Proof.
  intros Hs. induction es' as [|e es' IH] using rev_ind; [by rewrite app_nil_r|].
  rewrite app_assoc, trace_snoc. by apply (grows_step sha256 error e).
Qed.
(** Once 1,024 tenants have connected, no worker of another tenant is ever
    accepted again, even when nobody is connected any more. *)
Theorem full_gateway_refuses_new_tenants es es' ctx now :
  lenN (es ++ es') < u64_max → sizeN (tenants (trace es)) = MAX_GATEWAY_TENANTS →
  tenants (trace es) !! ctx_tenant_id ctx = None →
  let w := trace (es ++ es') in
  worker_sockets (worker_connect ctx now w) = worker_sockets w ∧ tenants (worker_connect ctx now w) = tenants w.
Proof.
  intros Hlen Hfull Hnew w.
  assert (Hsub : dom (tenants (trace es)) ⊆ dom (tenants w)).
  { intros T HT. apply elem_of_dom. apply elem_of_dom in HT. by apply trace_tenants. }
  destruct (trace_wf _ Hlen) as [Hw _]. fold w in Hw. pose proof (wf_tenant_count _ _ Hw) as Hcount.
  assert (Hdom : dom (tenants w) = dom (tenants (trace es))).
  { apply set_eq. intros T. split; [|apply Hsub]. intros HT. destruct (decide (T ∈ dom (tenants (trace es)))); [done|].
    pose proof (subseteq_size ({[T]} ∪ dom (tenants (trace es))) (dom (tenants w)) (ltac:(set_solver))) as Hsz.
    rewrite size_union, size_singleton in Hsz by set_solver. rewrite !size_dom in Hsz.
    unfold MAX_GATEWAY_TENANTS in *. lia. }
  assert (Hn : tenants w !! ctx_tenant_id ctx = None).
  { apply not_elem_of_dom. rewrite Hdom. by apply not_elem_of_dom. }
  unfold worker_connect. cbn [fresh_cell take_generation set_cells set_counters fst snd].
  set (w1 := set_counters (fetch_inc _) _ _ _ _).
  assert (Hl : tenant_limit_reached (ctx_tenant_id ctx) w1 = true).
  { unfold tenant_limit_reached. cbn. rewrite bool_decide_eq_true_2 by done. cbn. apply N.leb_le.
    rewrite <- Hfull, <- !size_dom, Hdom. lia. }
  rewrite Hl. done.
Qed.
End Runs.

(** ** Witnesses *)

Module Demo.
Definition sha256 (_ : list byte) : list byte := [].
Definition envelope : PeerRpcEnvelope :=
  {| request_id := "req-1"; env_trace_id := "trace-1"; env_protocol_version := 1; source_core_id := "source";
     target_core_id := "core-a"; env_tenant_id := "tenant-a"; env_cluster_id := "cluster-a"; timestamp_ms := 1;
     expires_at_ms := 100; nonce := "nonce-1"; capability := "compute"; payload := []; idempotency_key := None;
     body_hash := ""; env_trace := None |}.
Definition response : PeerRpcResponse := rpc_response_ok "req-1" [x01].
#[local] Instance json : GatewayJson := {|
  envelope_to_json _ := Ok "envelope"%string;
  envelope_of_json b := if bool_decide (b = str_bytes "envelope") then Some envelope else None;
  mesh_request_to_json _ := Ok "mesh"%string;
  mesh_response_of_json _ := None;
  response_to_json _ := Ok "response"%string;
  response_of_json t := if bool_decide (t = "response"%string) then Some response else None;
  heartbeat_kind_of_json _ := None;
|}.
Definition error (_ : PeerRpcError.t) : string := "error".
Definition cfg : GatewayConfig := config_new {| ip := V4 [127; 0; 0; 1]; port := 8080 |} "gateway.test".
Definition order : iteration := {| iterate m := map_to_list m; iterate_perm m := Permutation_refl _ |}.
Definition context (tenant : string) : WorkerSocketContext :=
  {| ctx_tenant_id := tenant; ctx_cluster_id := "cluster-a"; ctx_installation_id := "inst-a"; ctx_core_id := "core-a";
     ctx_capabilities := ["compute"%string]; ctx_expires_at_ms := 1000 |}.
(** A worker and a client connect, the client's request reaches the worker and
    the worker answers. *)
Definition answered : list event :=
  [WorkerConnect (context "tenant-a") 5; ClientConnect "tenant-a" "cluster-a" 1000 None 7 6;
   ClientInput 1 10 (Some (TextFrame "envelope")); StartTask 2 10 order;
   WorkerInput 0 11 (Some (TextFrame "response"))].
(** The client repeats its request before the first one was polled. *)
Definition repeated : list event :=
  answered ++ [ClientInput 1 11 (Some (TextFrame "envelope")); StartTask 3 11 order].
Definition run_of (es : list event) : world := trace sha256 error cfg 1 es.
Definition waiting_of (tid : nat) (w : world) : option (task_owner * waiting) :=
  tk ← tasks w !! tid; match progress tk with Waiting wt => Some (owner tk, wt) | Spawned _ => None end.
Lemma waiting_of_task tid w o wt :
  waiting_of tid w = Some (o, wt) → tasks w !! tid = Some {| owner := o; progress := Waiting wt |}.
Proof.
  unfold waiting_of. destruct (tasks w !! tid) as [[o' [e|wt']]|]; [done| |done]. cbn. by intros [= -> ->].
Qed.
End Demo.


Lemma gateway_keeps_its_tables_witness :
  lenN Demo.repeated < u64_max ∧ sizeN (tenants (Demo.run_of Demo.repeated)) ≤ 1024.
Proof.
  assert (Hlen : lenN Demo.repeated < u64_max) by by vm_compute. split; [exact Hlen|].
  unfold Demo.run_of. exact (proj1 (@gateway_keeps_its_tables Demo.sha256 Demo.json Demo.error Demo.cfg 1 Demo.repeated Hlen)).
Defined.

Lemma finished_request_cancels_reused_id_witness :
  (@step Demo.sha256 Demo.json Demo.error (WakeTask 3 false)
     (Demo.run_of (Demo.repeated ++ [WakeTask 2 false]))).2
    = Some (rejected (PeerCall Demo.envelope) "worker_connection_lost").
Proof.
  unfold Demo.run_of.
  destruct (Demo.waiting_of 2 (@trace Demo.sha256 Demo.json Demo.error Demo.cfg 1 Demo.repeated)) as [[o wt]|] eqn:H2;
    [|vm_compute in H2; discriminate H2].
  destruct (Demo.waiting_of 3 (@trace Demo.sha256 Demo.json Demo.error Demo.cfg 1 Demo.repeated)) as [[o' wt']|] eqn:H3;
    [|vm_compute in H3; discriminate H3].
  pose proof (Demo.waiting_of_task _ _ _ _ H2) as T2. pose proof (Demo.waiting_of_task _ _ _ _ H3) as T3.
  assert (Hc : wait_call wt' = PeerCall Demo.envelope) by (vm_compute in H3; injection H3 as _ <-; reflexivity).
  rewrite <- Hc.
  assert (Hd : wait_rx wt = Delivered (PeerAnswer Demo.response)) by (vm_compute in H2; injection H2 as _ <-; reflexivity).
  assert (He : wait_rx wt' = Empty) by (vm_compute in H3; injection H3 as _ <-; reflexivity).
  assert (Hk : same_key (wait_call wt) (wait_call wt')).
  { rewrite Hc. vm_compute in H2. injection H2 as _ <-. split_and!; reflexivity. }
  assert (Hlen : lenN Demo.repeated < u64_max) by (vm_compute; reflexivity).
  assert (Hsd : shutdown (@trace Demo.sha256 Demo.json Demo.error Demo.cfg 1 Demo.repeated) = false) by (vm_compute; reflexivity).
  assert (Ha : aborted o (@trace Demo.sha256 Demo.json Demo.error Demo.cfg 1 Demo.repeated) = false)
    by (vm_compute in H2; injection H2 as <- _; vm_compute; reflexivity).
  assert (Ha' : aborted o' (@trace Demo.sha256 Demo.json Demo.error Demo.cfg 1 Demo.repeated) = false)
    by (vm_compute in H3; injection H3 as <- _; vm_compute; reflexivity).
  exact (proj1 (@finished_request_cancels_reused_id Demo.sha256 Demo.json Demo.error Demo.cfg 1 Demo.repeated
    2%nat 3%nat o o' wt wt' (PeerAnswer Demo.response) Hlen Hsd T2 Hd T3 He Hk Ha Ha')).
Defined.

Lemma late_answer_disconnects_worker_witness :
  ∃ s, worker_sockets (Demo.run_of [WorkerConnect (Demo.context "tenant-a") 5]) !! 0%nat = Some s ∧
  let w := Demo.run_of ([WorkerConnect (Demo.context "tenant-a") 5] ++ [WorkerInput 0 7 (Some (TextFrame "response"))]) in
  (worker_sockets w !! 0%nat ≫= ws_closing) ≠ None ∧
  ∀ t, tenants w !! key_tenant (worker_key (ws_connection s)) = Some t →
    workers t !! map_key (worker_key (ws_connection s)) ≠ Some (ws_connection s).
Proof.
  unfold Demo.run_of. destruct (worker_sockets (@trace Demo.sha256 Demo.json Demo.error Demo.cfg 1 [WorkerConnect (Demo.context "tenant-a") 5]) !! 0%nat) as [s|] eqn:Hs;
    [|vm_compute in Hs; discriminate Hs].
  exists s. split; [reflexivity|].
  assert (Ho : ws_closing s = None) by (vm_compute in Hs; injection Hs as <-; reflexivity).
  refine (@late_answer_disconnects_worker Demo.sha256 Demo.json Demo.error Demo.cfg 1
    [WorkerConnect (Demo.context "tenant-a") 5] 0%nat 7 "response" s (PeerAnswer Demo.response) _ Hs Ho _ _ _ _);
    [vm_compute; reflexivity|vm_compute; discriminate|discriminate|split; vm_compute; reflexivity|].
  intros tid o wt Ht. assert (tasks (@trace Demo.sha256 Demo.json Demo.error Demo.cfg 1 [WorkerConnect (Demo.context "tenant-a") 5]) = ∅)
    as E by (vm_compute; reflexivity). by rewrite E, lookup_empty in Ht.
Defined.
