(* ===== verification/Files.v ===== *)
(** Files whose accesses may fail: the ground of the stores that keep several
    files (update artifacts, the secret keyring).

    A file access takes the next outcome of a script: it works, fails before or
    after its effect, or the process dies before or after it; nothing happens
    any more once the process is dead. When the script is used up, accesses
    work. *)

From S2P Require Import Prelude.

Local Open Scope N_scope.

Inductive access := Works | Fails (reason : string) | FailsLate (reason : string) | Dies | DiesLate.

Section Files.
Context {K Val : Type} `{Countable K}.
Abbreviation contents := (gmap K Val).

Record gdisk := { files : contents; script : list access; dead : bool }.
Definition disk_new : gdisk := {| files := ∅; script := []; dead := false |}.
(** A new process on the files that are there. *)
Definition restart (accesses : list access) (d : gdisk) : gdisk :=
  {| files := files d; script := accesses; dead := false |}.

(** One access with an effect on the files. *)
Definition access_files (effect : contents → contents) : op gdisk string () := λ d,
  if dead d then (Err "the process ended"%string, d)
  else
    let after rest fs ended := {| files := fs; script := rest; dead := ended |} in
    match script d with
    | [] => (Ok (), after [] (effect (files d)) false)
    | Works :: rest => (Ok (), after rest (effect (files d)) false)
    | Fails e :: rest => (Err e, after rest (files d) false)
    | FailsLate e :: rest => (Err e, after rest (effect (files d)) false)
    | Dies :: rest => (Err "the process ended"%string, after rest (files d) true)
    | DiesLate :: rest => (Err "the process ended"%string, after rest (effect (files d)) true)
    end.

Section Errors.
Context {E : Type} (failed : string → E).

Definition update_files (effect : contents → contents) : op gdisk E () := λ d,
  let '(r, d) := access_files effect d in (map_err failed r, d).
(** An access that changes no file that the model keeps. *)
Definition probe : op gdisk E () := update_files id.
Fixpoint probes (n : nat) : op gdisk E () :=
  match n with
  | O => mret ()
  | S n' => _ ← probe; probes n'
  end.
(** The content of a file, if it is there. *)
Definition read_file (f : K) : op gdisk E (option Val) := _ ← probe; d ← op_get; mret (files d !! f).
(** Removing a file that may be absent; then the directory is synced. *)
Definition remove_file_synced (f : K) : op gdisk E () :=
  d ← op_get;
  match files d !! f with
  | Some _ => _ ← update_files (delete f); probe
  | None => probe
  end.
(** Replacing a file through a temporary one: [n] accesses before the rename,
    and the sync of the directory after it. *)
Definition replace_file (n : nat) (f : K) (bytes : Val) : op gdisk E () :=
  _ ← probes n;
  _ ← update_files <[f := bytes]>;
  probe.
End Errors.

(** ** Triples *)

Definition on (V : contents → Prop) : gdisk → Prop := λ d, V (files d).

Section Triples.
Context {E : Type} {failed : string → E} (X : contents → Prop).
Implicit Type V W : contents → Prop.
(** Every failure leaves [X], which every state passed through must satisfy. *)
Abbreviation triple V o Q := (hoare (on V) o (λ r, on (Q r)) (λ _ : E, on X)).

Lemma triple_update V W eff :
  (∀ fs, V fs → X fs ∧ X (eff fs) ∧ W (eff fs)) → triple V (update_files failed eff) (λ _, W).
Proof.
  intros Hv d Hd. destruct (Hv _ Hd) as (H1 & H2 & H3). unfold update_files, access_files.
  destruct (dead d); [done|]. destruct (script d) as [|[] rest]; done.
Qed.
Lemma triple_probe V : (∀ fs, V fs → X fs) → triple V (probe failed) (λ _, V).
Proof. intros HV. apply triple_update. intros fs Hf. split_and!; [by apply HV..|done]. Qed.
Lemma triple_bind {A B} V (m : op gdisk E A) (k : A → op gdisk E B) R Q :
  triple V m R → (∀ a, triple (R a) (k a) Q) → triple V (m ≫= k) Q.
Proof. apply hoare_bind. Qed.
Lemma triple_probes V n : (∀ fs, V fs → X fs) → triple V (probes failed n) (λ _, V).
Proof.
  intros HV. induction n as [|n IH]; [by apply hoare_ret|].
  apply (triple_bind _ _ _ (λ _, V)); [by apply triple_probe|intros []; exact IH].
Qed.
Lemma triple_replace V W n f b :
  (∀ fs, V fs → X fs ∧ X (<[f := b]> fs) ∧ W (<[f := b]> fs)) → (∀ fs, W fs → X fs) →
  triple V (replace_file failed n f b) (λ _, W).
Proof.
  intros Hv HW. unfold replace_file. assert (HV : ∀ fs, V fs → X fs) by (intros fs Hf; by destruct (Hv _ Hf)).
  apply (triple_bind _ _ _ (λ _, V)); [by apply triple_probes|intros []].
  apply (triple_bind _ _ _ (λ _, W)); [by apply triple_update|intros []]. by apply triple_probe.
Qed.
Lemma triple_remove V W f :
  (∀ fs, V fs → X fs ∧ X (delete f fs) ∧ W (delete f fs)) → (∀ fs, W fs → X fs) →
  triple V (remove_file_synced failed f) (λ _, W).
Proof.
  intros Hv HW. unfold remove_file_synced. apply hoare_get_bind. intros d Hd.
  destruct (files d !! f) as [b|] eqn:Hf.
  - apply (hoare_bind _ _ _ (λ _, on W)); [|intros []; by apply triple_probe].
    apply (hoare_pre _ (on V)); [by apply triple_update|]. by intros ? ->.
  - apply (hoare_pre _ (on W)); [by apply triple_probe|]. intros ? ->. unfold on in *.
    destruct (Hv _ Hd) as (_ & _ & Hw). by rewrite delete_id in Hw.
Qed.
Lemma triple_read V f :
  (∀ fs, V fs → X fs) → triple V (read_file failed f) (λ r fs, V fs ∧ fs !! f = r).
Proof.
  intros HV. unfold read_file. apply (triple_bind _ _ _ (λ _, V)); [by apply triple_probe|intros []].
  apply hoare_get_bind. intros d Hd. apply hoare_ret. by intros ? ->.
Qed.
Lemma triple_lift {A} V (r : result E A) :
  (∀ fs, V fs → X fs) → triple V (op_lift r) (λ a fs, V fs ∧ r = Ok a).
Proof. intros HV. apply hoare_lift. intros s Hs. destruct r; [done|by apply HV]. Qed.
Lemma triple_fail {A} V (Q : A → contents → Prop) (e : E) :
  (∀ fs, V fs → X fs) → triple V (op_fail e : op gdisk E A) Q.
Proof. intros HV. apply hoare_fail. intros s Hs. by apply HV. Qed.
(** A fact that the assertion implies in every state may be assumed. *)
Lemma triple_assume {A} V (o : op gdisk E A) Q (φ : Prop) :
  (∀ fs, V fs → φ) → (φ → triple V o Q) → triple V o Q.
Proof. intros HV Ho s Hs. by apply Ho; [eapply HV|]. Qed.
Lemma triple_pre {A} V W (o : op gdisk E A) Q : triple W o Q → (∀ fs, V fs → W fs) → triple V o Q.
Proof. intros Ho HV. eapply hoare_pre; [exact Ho|]. intros s. apply HV. Qed.
End Triples.

(** ** A process whose accesses all work *)

Definition calm (fs : contents) : gdisk := {| files := fs; script := []; dead := false |}.

Section Calm.
Context {E : Type} (failed : string → E).
Lemma calm_probe fs : probe failed (calm fs) = (Ok (), calm fs).
Proof. done. Qed.
Lemma calm_probes n fs : probes failed n (calm fs) = (Ok (), calm fs).
Proof. induction n as [|n IH]; [done|]. cbn [probes]. by erewrite op_ok_bind by apply calm_probe. Qed.
Lemma calm_read fs f : read_file failed f (calm fs) = (Ok (fs !! f), calm fs).
Proof. done. Qed.
Lemma calm_replace n fs f b : replace_file failed n f b (calm fs) = (Ok (), calm (<[f := b]> fs)).
Proof. unfold replace_file. by erewrite op_ok_bind by apply calm_probes. Qed.
Lemma calm_remove fs f : remove_file_synced failed f (calm fs) = (Ok (), calm (delete f fs)).
Proof.
  unfold remove_file_synced. rewrite op_get_bind. cbn [files calm]. destruct (fs !! f) eqn:Hf; [done|]. by rewrite delete_id.
Qed.
End Calm.
End Files.
#[global] Arguments gdisk K Val {_ _}.
(** Files with bytes. *)
Abbreviation disk K := (gdisk K (list byte)).
Abbreviation triple X V o Q := (hoare (on V) o (λ r, on (Q r)) (λ _, on X)).
