(* ===== verification/HttpText.v ===== *)
(** The texts of HTTP heads: lines that end with CR LF, the empty line that ends
    a head, words, and values without control characters. *)

From S2P Require Import Prelude.
From S2P Require Import Types.
From S2P Require Import Text.

Local Open Scope N_scope.

Definition CRLF : string := String CR (String LF EmptyString).
(** [text.split_once(sep)]: at the first occurrence. *)
Fixpoint split_at (sep s : string) : option (string * string) :=
  match s with
  | EmptyString => None
  | String c s' =>
    match strip_prefix sep s with
    | Some rest => Some (EmptyString, rest)
    | None => '(head, rest) ← split_at sep s'; Some (String c head, rest)
    end
  end.
(** Before and after the empty line. *)
Definition split_blank_line (s : string) : option (string * string) := split_at (CRLF +:+ CRLF) s.
(** [split_whitespace] with the word read so far. *)
Definition with_word (word : string) (l : list string) : list string :=
  if bool_decide (word = EmptyString) then l else word :: l.
Fixpoint split_words (word s : string) : list string :=
  match s with
  | EmptyString => with_word word []
  | String a s1 =>
    let more := split_words (word +:+ String a EmptyString) s1 in
    if white1 a then with_word word (split_words EmptyString s1)
    else match s1 with
         | EmptyString => more
         | String b s2 =>
           if white2 a b then with_word word (split_words EmptyString s2)
           else match s2 with
                | EmptyString => more
                | String c s3 => if white3 a b c then with_word word (split_words EmptyString s3) else more
                end
         end
  end.
Definition parse_u16 (s : string) : option N :=
  n ← parse_u64 s; if n <=? 65535 then Some n else None.
(** [trim_end_matches('/')]. *)
Fixpoint trim_slashes (s : string) : string :=
  match s with
  | EmptyString => EmptyString
  | String c s' =>
    let t := trim_slashes s' in
    if bool_decide (t = EmptyString) && bool_decide (c = "/"%char) then EmptyString else String c t
  end.

(** ** Lemmas *)

Lemma any_control_cons c s : any_control (String c s) = false → code c <? 32 = false ∧ any_control s = false.
Proof. cbn [any_control]. rewrite !orb_false_iff. tauto. Qed.
Lemma any_control_free c s : code c < 32 → any_control s = false → str_free c s.
Proof.
  intros Hc. induction s as [|x s IH]; [done|]. intros [Hx Hs]%any_control_cons. split; [|by apply IH].
  intros ->. apply N.ltb_ge in Hx. lia.
Qed.
(** A head of lines that are not empty ends at the first empty one. *)
Lemma split_blank_step c s :
  str_prefix (CRLF +:+ CRLF) (String c s) = false →
  split_blank_line (String c s) = (λ p, (String c p.1, p.2)) <$> split_blank_line s.
Proof.
  intros Hp. unfold split_blank_line. cbn [split_at]. unfold strip_prefix. rewrite Hp. by destruct (split_at _ s) as [[]|].
Qed.
Lemma no_blank_here y s : y ≠ CR → str_prefix (CRLF +:+ CRLF) (String y s) = false.
Proof. intros Hy. cbv -[bool_decide CR]. by rewrite (bool_decide_eq_false_2 (CR = y)) by congruence. Qed.
Lemma no_blank_line x s : x ≠ CR → str_prefix (CRLF +:+ CRLF) (String CR (String LF (String x s))) = false.
Proof. intros Hx. cbv -[bool_decide CR]. rewrite (bool_decide_eq_false_2 (CR = x)) by congruence. by repeat case_bool_decide. Qed.
Lemma split_skip_line a x t :
  str_free CR a → x ≠ CR →
  split_blank_line (a +:+ CRLF +:+ String x t) = (λ p, (a +:+ CRLF +:+ p.1, p.2)) <$> split_blank_line (String x t).
Proof.
  intros Ha Hx. induction a as [|y a IH].
  - rewrite !string_app_nil. unfold CRLF at 1. rewrite !string_app_cons, string_app_nil.
    rewrite (split_blank_step CR), (split_blank_step LF) by (by apply no_blank_line || by apply no_blank_here).
    by destruct (split_blank_line (String x t)) as [[]|].
  - destruct Ha as [Hy Ha]. rewrite !string_app_cons, split_blank_step, IH by (done || by apply no_blank_here).
    by destruct (split_blank_line (String x t)) as [[]|].
Qed.
Lemma split_at_blank a t : str_free CR a → split_blank_line (a +:+ CRLF +:+ CRLF +:+ t) = Some (a, t).
Proof.
  intros Ha. induction a as [|y a IH].
  - rewrite string_app_nil, <- string_app_assoc. pose proof (strip_prefix_app (CRLF +:+ CRLF) t) as Hp. unfold split_blank_line.
    set (sep := CRLF +:+ CRLF) in *. change (sep +:+ t) with (String CR (String LF (CRLF +:+ t))) in *. cbn [split_at]. by rewrite Hp.
  - destruct Ha as [Hy Ha]. rewrite !string_app_cons, split_blank_step, IH by (done || by apply no_blank_here). done.
Qed.


Lemma str_prefix_grow p s t : str_prefix p s = true → str_prefix p (s +:+ t) = true.
Proof. rewrite !str_prefix_spec. intros [u ->]. exists (u +:+ t). by rewrite string_app_assoc. Qed.
Lemma strip_prefix_Some p s t : strip_prefix p s = Some t ↔ s = p +:+ t.
Proof.
  split; [|intros ->; apply strip_prefix_app]. unfold strip_prefix. destruct (str_prefix p s) eqn:Hp; [|done].
  apply str_prefix_spec in Hp as [u ->]. intros [= <-]. by rewrite str_drop_app.
Qed.
Lemma split_at_Some sep s a b : split_at sep s = Some (a, b) → s = a +:+ sep +:+ b.
Proof.
  revert a. induction s as [|c s IH]; intros a; cbn [split_at]; [done|].
  destruct (strip_prefix sep (String c s)) as [rest|] eqn:Hp.
  - intros [= <- <-]. by apply strip_prefix_Some in Hp.
  - destruct (split_at sep s) as [[h r]|]; [|done]. cbn. intros [= <- <-]. by rewrite (IH h).
Qed.
Lemma split_at_grow sep s t a b : split_at sep s = Some (a, b) → split_at sep (s +:+ t) = Some (a, b +:+ t).
Proof.
  revert a. induction s as [|c s IH]; intros a; rewrite ?string_app_cons; cbn [split_at]; [done|].
  destruct (strip_prefix sep (String c s)) as [rest|] eqn:Hp.
  - intros [= <- <-]. apply strip_prefix_Some in Hp. rewrite <- string_app_cons, Hp, string_app_assoc. by rewrite strip_prefix_app.
  - destruct (split_at sep s) as [[h r]|] eqn:Hs; [|done]. cbn. intros [= <- <-].
    destruct (strip_prefix sep (String c (s +:+ t))) as [rest|] eqn:Hq; [|by rewrite (IH h)].
    (* a separator that starts here would have to end after the first one does *)
    exfalso. apply strip_prefix_Some in Hq. rewrite <- string_app_cons in Hq.
    apply split_at_Some in Hs. assert (str_prefix sep (String c s) = true) as Hpre.
    { apply str_prefix_spec. assert (String.length sep ≤ String.length (String c s))%nat as Hl.
      { rewrite Hs. cbn. rewrite !string_length_app. lia. }
      exists (str_drop (String.length sep) (String c s)). rewrite <- (str_take_drop (String.length sep) (String c s)) at 1.
      f_equal. transitivity (str_take (String.length sep) (String c s +:+ t)); [by rewrite str_take_app_le|].
      by rewrite Hq, str_take_app. }
    unfold strip_prefix in Hp. by rewrite Hpre in Hp.
Qed.
(** The separator is not found in a text that ends before it does. *)
Lemma split_at_cut sep p q a b :
  split_at sep (p +:+ q) = Some (a, b) → (String.length p < String.length a + String.length sep)%nat → split_at sep p = None.
Proof.
  intros Hs Hl. destruct (split_at sep p) as [[a' b']|] eqn:Hp; [|done]. exfalso.
  pose proof (split_at_grow _ _ q _ _ Hp) as Hg. rewrite Hs in Hg. injection Hg as <- ->.
  apply split_at_Some in Hp. rewrite Hp, !string_length_app in Hl. lia.
Qed.
Lemma string_app_inv_head (s a b : string) : s +:+ a = s +:+ b → a = b.
Proof. induction s as [|c s IH]; rewrite ?string_app_nil, ?string_app_cons; [done|]. intros [= ?]. auto. Qed.
(** Two ways to cut a text. *)
Lemma string_app_cases (p q a b : string) :
  p +:+ q = a +:+ b → (∃ p', p = a +:+ p' ∧ b = p' +:+ q) ∨ (∃ a', a' ≠ EmptyString ∧ a = p +:+ a' ∧ q = a' +:+ b).
Proof.
  revert a. induction p as [|c p IH]; intros a; rewrite ?string_app_nil, ?string_app_cons.
  - intros ->. destruct a as [|x a]; [left; by exists EmptyString|right; by exists (String x a)].
  - destruct a as [|x a]; rewrite ?string_app_nil, ?string_app_cons.
    + intros <-. left. by exists (String c p).
    + intros [= <- [(p' & -> & ->)|(a' & ? & -> & ->)]%IH]; [left; exists p'|right; exists a'];
        by rewrite ?string_app_cons.
Qed.

(** ** Heads of lines *)

Definition clean (s : string) : Prop := str_free CR s ∧ str_free LF s.
Fixpoint crlf_lines (l : list string) : string :=
  match l with [] => EmptyString | s :: l' => s +:+ CRLF +:+ crlf_lines l' end.

Lemma clean_app s t : clean (s +:+ t) ↔ clean s ∧ clean t.
Proof. unfold clean. rewrite !str_free_app. tauto. Qed.
Lemma clean_control s : any_control s = false → clean s.
Proof. intros H. split; (apply any_control_free; [vm_compute; reflexivity|done]). Qed.
Lemma str_all_misses f c s : f c = false → str_all f s = true → str_free c s.
Proof.
  intros Hc. induction s as [|x s IH]; [done|]. cbn [str_all str_free]. intros [Hx Hs]%andb_true_iff. split; [|auto].
  intros ->. congruence.
Qed.
Lemma clean_all f s : f CR = false → f LF = false → str_all f s = true → clean s.
Proof. intros. split; by eapply str_all_misses. Qed.
(** For the texts of a program. *)
Lemma clean_text s : str_all (λ c, negb (bool_decide (c = CR) || bool_decide (c = LF))) s = true → clean s.
Proof. by apply clean_all. Qed.
Lemma clean_u64 n : clean (show_u64 n).
Proof. split; (apply str_digits_free; [apply show_u64_digits|by vm_compute; left]). Qed.
Lemma strip_cr_end s : str_free CR s → strip_cr (s +:+ String CR EmptyString) = s.
Proof.
  induction s as [|x s IH]; [done|]. intros [Hx Hs]. rewrite string_app_cons. cbn [strip_cr]. rewrite IH by done.
  by destruct s.
Qed.
Lemma lines_crlf s t : clean s → lines (s +:+ CRLF +:+ t) = s :: lines t.
Proof.
  intros [Hcr Hlf]. change (CRLF +:+ t) with (String CR EmptyString +:+ String LF t). rewrite <- string_app_assoc.
  unfold lines. rewrite split_on_app by (rewrite str_free_app; done). rewrite drop_last_empty_cons by apply split_on_not_nil.
  cbn [map]. by rewrite strip_cr_end.
Qed.
(** The lines of a head, and where it ends. *)
Lemma crlf_lines_read l t : Forall clean l → lines (crlf_lines l +:+ t) = l ++ lines t.
Proof.
  induction 1 as [|s l Hs Hl IH]; [done|]. cbn [crlf_lines app]. by rewrite !string_app_assoc, lines_crlf, IH.
Qed.
Lemma crlf_lines_end s l :
  Forall (λ s, clean s ∧ s ≠ EmptyString) (s :: l) →
  ∃ head, ∀ t, crlf_lines (s :: l) +:+ CRLF +:+ t = head +:+ CRLF +:+ CRLF +:+ t ∧
    split_blank_line (crlf_lines (s :: l) +:+ CRLF +:+ t) = Some (head, t).
Proof.
  revert s. induction l as [|s' l IH]; intros s Hl; apply Forall_cons_1 in Hl as [[[Hcr _] _] Hl].
  - exists s. intros t. cbn [crlf_lines]. rewrite string_app_empty_r, !string_app_assoc. split; [done|]. by apply split_at_blank.
  - destruct (IH _ Hl) as (head & Hhead). apply Forall_cons_1 in Hl as [[[Hcr' _] Hne] _].
    exists (s +:+ CRLF +:+ head). intros t. destruct (Hhead t) as [Heq Hsplit].
    change (crlf_lines (s :: s' :: l)) with (s +:+ CRLF +:+ crlf_lines (s' :: l)).
    rewrite !string_app_assoc, Heq. split; [done|]. rewrite <- Heq in *.
    destruct s' as [|x s']; [done|]. destruct Hcr' as [Hx _].
    change (crlf_lines (String x s' :: l) +:+ CRLF +:+ t) with (String x (s' +:+ (CRLF +:+ crlf_lines l)) +:+ CRLF +:+ t) in *.
    rewrite string_app_cons in *. rewrite split_skip_line, Hsplit by done. done.
Qed.
