(* ===== verification/Update.v ===== *)
(** Application updates, the values ([crates/appcore-update/src]): artifact
    descriptors ([artifact.rs]), errors ([error.rs]), the verifiers of an
    artifact's origin and signature ([authenticity.rs]) and the provider that
    reads an index file ([provider.rs]).

    Semantic versions ([semver]) and Ed25519 ([ed25519-dalek]) are classes of
    operations, SHA-256 is an argument. *)

From S2P Require Import Prelude.
From S2P Require Import Text.
From S2P Require Import HttpText.
From S2P Require Import Types.
From S2P Require Import Contracts.
From S2P Require Import Encoding.

Local Open Scope N_scope.

(** ** [error.rs] *)

Inductive UpdateFaultPoint := AfterSelection | AfterVerification | AfterStaging | AfterActivation | BeforeCommit.

Inductive UpdateError :=
| InvalidArtifact (reason : string)
| Incompatible (reason : string)
| ProviderFailed (reason : string)
| ArtifactTooLarge (max_bytes : N)
| ChecksumMismatch
| Authenticity (reason : string)
| StoreFailed (reason : string)
| HealthFailed (reason : string)
| InjectedFault (point : UpdateFaultPoint)
| RollbackFailed (cause rollback : string).
Abbreviation UpdateResult := (result UpdateError).

Definition fault_point_name (p : UpdateFaultPoint) : string :=
  match p with
  | AfterSelection => "AfterSelection"
  | AfterVerification => "AfterVerification"
  | AfterStaging => "AfterStaging"
  | AfterActivation => "AfterActivation"
  | BeforeCommit => "BeforeCommit"
  end.
Definition update_error_text (e : UpdateError) : string :=
  match e with
  | InvalidArtifact r => "invalid artifact metadata: " +:+ r
  | Incompatible r => "incompatible artifact: " +:+ r
  | ProviderFailed r => "update provider failed: " +:+ r
  | ArtifactTooLarge m => "artifact exceeds maximum size of " +:+ show_u64 m +:+ " bytes"
  | ChecksumMismatch => "artifact checksum mismatch"
  | Authenticity r => "artifact authenticity verification failed: " +:+ r
  | StoreFailed r => "artifact store failed: " +:+ r
  | HealthFailed r => "activated artifact failed health verification: " +:+ r
  | InjectedFault p => "injected update fault at " +:+ fault_point_name p
  | RollbackFailed cause rollback => "rollback failed after " +:+ cause +:+ ": " +:+ rollback
  end.

(** ** Code outside the repository *)

(** [semver]: versions with their order and requirements. *)
Class Semver := {
  version : Type;
  version_parse : string → result string version;
  version_compare : version → version → comparison;
  version_text : version → string;
  requirement : Type;
  requirement_parse : string → result string requirement;
  requirement_matches : requirement → version → bool;
}.
Definition version_le `{Semver} (a b : version) : bool :=
  match version_compare a b with Gt => false | _ => true end.

(** [ed25519-dalek]: public keys and detached signatures. *)
Class Ed25519 := {
  VerifyingKey : Type;
  key_from_bytes : list byte → result string VerifyingKey;
  signature_verifies : VerifyingKey → list byte → list byte → bool;
}.

Definition sha256_hex (sha256 : list byte → list byte) (bytes : list byte) : string := hex_encode (sha256 bytes).

(** ** [artifact.rs] *)

Record ArtifactDescriptor := {
  application_id : string;
  application_version : string;
  build_id : string;
  channel : string;
  runtime_requirement : string;
  protocol_version : string;
  artifact_reference : string;
  sha256 : string;
  size_bytes : N;
  signing_key_id : option string;
  ed25519_signature : option string;
}.
#[export] Instance ArtifactDescriptor_eq_dec : EqDecision ArtifactDescriptor.
Proof. solve_decision. Defined.
#[export] Instance ArtifactDescriptor_countable : Countable ArtifactDescriptor.
Proof.
  apply (inj_countable'
    (λ d, (application_id d, application_version d, build_id d, channel d, runtime_requirement d,
           (protocol_version d, artifact_reference d, sha256 d, size_bytes d, (signing_key_id d, ed25519_signature d))))
    (λ '(a, v, b, c, r, (p, f, s, n, (k, e))), Build_ArtifactDescriptor a v b c r p f s n k e)).
  by intros [].
Defined.

(** [value.trim().is_empty() || value.len() > max || any(is_control)]. *)
Definition bad_text (value : string) (max : N) : bool :=
  bool_decide (trim value = EmptyString) || (max <? str_len value) || any_control value.
Definition lower_hex_byte (c : ascii) : bool := is_ascii_digit c || in_range 97 102 c.

Section Artifact.
Context `{Semver}.

Definition check_text (name value : string) (max : N) : UpdateResult () :=
  if bad_text value max then Err (InvalidArtifact (name +:+ " is empty, too long or contains control characters"))
  else Ok ().
Definition validate_signature (key_id signature : option string) : UpdateResult () :=
  match key_id, signature with
  | None, None => Ok ()
  | Some k, Some s =>
    if bad_text k 128 then
      Err (InvalidArtifact "signing_key_id is empty, too long or contains control characters")
    else if negb (str_len s =? 128) || negb (str_all lower_hex_byte s) then
      Err (InvalidArtifact "ed25519_signature must be 128 lowercase hexadecimal characters")
    else Ok ()
  | _, _ => Err (InvalidArtifact "signing_key_id and ed25519_signature must be provided together")
  end.
Definition artifact_validate (d : ArtifactDescriptor) : UpdateResult () :=
  _ ← check_text "application_version" (application_version d) 64;
  _ ← check_text "channel" (channel d) 64;
  _ ← check_text "runtime_requirement" (runtime_requirement d) 128;
  _ ← check_text "protocol_version" (protocol_version d) 64;
  _ ← check_text "artifact_reference" (artifact_reference d) 2048;
  _ ← map_err (λ e, InvalidArtifact ("invalid application version: " +:+ e)) (version_parse (application_version d));
  _ ← map_err (λ e, InvalidArtifact ("invalid runtime requirement: " +:+ e)) (requirement_parse (runtime_requirement d));
  if size_bytes d =? 0 then Err (InvalidArtifact "size_bytes must be greater than zero")
  else if negb (str_len (sha256 d) =? 64) || negb (str_all lower_hex_byte (sha256 d)) then
    Err (InvalidArtifact "sha256 must be 64 lowercase hexadecimal characters")
  else validate_signature (signing_key_id d) (ed25519_signature d).

Definition artifact_new (application version build chan requirement protocol reference checksum : string) (size : N) :
    UpdateResult ArtifactDescriptor :=
  let d := {| application_id := application; application_version := version; build_id := build; channel := chan;
              runtime_requirement := requirement; protocol_version := protocol; artifact_reference := reference;
              sha256 := checksum; size_bytes := size; signing_key_id := None; ed25519_signature := None |} in
  _ ← artifact_validate d; Ok d.
Definition with_ed25519_signature (d : ArtifactDescriptor) (key_id signature : string) :
    UpdateResult ArtifactDescriptor :=
  let d := {| application_id := application_id d; application_version := application_version d;
              build_id := build_id d; channel := channel d; runtime_requirement := runtime_requirement d;
              protocol_version := protocol_version d; artifact_reference := artifact_reference d;
              sha256 := sha256 d; size_bytes := size_bytes d; signing_key_id := Some key_id;
              ed25519_signature := Some signature |} in
  _ ← artifact_validate d; Ok d.

Definition ensure_compatible (d : ArtifactDescriptor) (runtime_version host_protocol : string) : UpdateResult () :=
  runtime ← map_err (λ e, Incompatible ("invalid runtime version: " +:+ e)) (version_parse runtime_version);
  req ← map_err (λ e, InvalidArtifact ("invalid runtime requirement: " +:+ e))
          (requirement_parse (runtime_requirement d));
  if negb (requirement_matches req runtime) then
    Err (Incompatible ("runtime " +:+ version_text runtime +:+ " does not satisfy " +:+ runtime_requirement d))
  else if negb (bool_decide (protocol_version d = host_protocol)) then
    Err (Incompatible ("protocol " +:+ protocol_version d +:+ " is required, host provides " +:+ host_protocol))
  else Ok ().

(** What the types of a descriptor's fields ensure: the identities are
    identifiers, the size is a [u64]. *)
Definition descriptor_typed (d : ArtifactDescriptor) : Prop :=
  validate_contract_identifier "application_id" (application_id d) = Ok () ∧
  validate_contract_identifier "build_id" (build_id d) = Ok () ∧ size_bytes d ≤ u64_max.
Definition descriptor_ok (d : ArtifactDescriptor) : Prop := descriptor_typed d ∧ artifact_validate d = Ok ().
End Artifact.

(** ** [authenticity.rs] *)

(** [u8::from_str_radix] on two characters: a sign may stand for the first. *)
Definition hex_pair (a b : ascii) : option N :=
  if bool_decide (a = "+"%char) then hex_value b
  else match hex_value a, hex_value b with Some x, Some y => Some (16 * x + y) | _, _ => None end.
Fixpoint hex_pairs (s : string) : option (list byte) :=
  match s with
  | String a (String b s') =>
    match hex_pair a b, hex_pairs s' with Some n, Some l => Some (byte_of_N n :: l) | _, _ => None end
  | _ => Some []
  end.
Definition decode_hex (n : N) (value : string) : UpdateResult (list byte) :=
  if negb (str_len value =? 2 * n) then Err (Authenticity "signature has an invalid length")
  else ok_or (Authenticity "signature is not hexadecimal") (hex_pairs value).

(** [artifact_signing_payload]. *)
Definition signed_fields (d : ArtifactDescriptor) : list (string * string) :=
  [("application_id", application_id d); ("application_version", application_version d); ("build_id", build_id d);
   ("channel", channel d); ("runtime_requirement", runtime_requirement d); ("protocol_version", protocol_version d);
   ("artifact_reference", artifact_reference d); ("sha256", sha256 d); ("size_bytes", show_u64 (size_bytes d))]%string.
Definition signing_line (f : string * string) : string := f.1 +:+ "=" +:+ f.2 +:+ String LF EmptyString.
Fixpoint signing_text (l : list (string * string)) : string :=
  match l with
  | [] => EmptyString
  | f :: l' => signing_line f +:+ signing_text l'
  end.
Definition artifact_signing_payload (d : ArtifactDescriptor) : list byte := str_bytes (signing_text (signed_fields d)).

Definition validate_key_id (key_id : string) : UpdateResult () :=
  if bad_text key_id 128 then Err (Authenticity "trust root key identity is invalid") else Ok ().
Definition validate_policy_value (name value : string) : UpdateResult () :=
  if bad_text value 2048 then Err (Authenticity ("artifact policy " +:+ name +:+ " is invalid")) else Ok ().

Definition str_has (c : ascii) (s : string) : bool := str_any (λ x, bool_decide (x = c)) s.
Definition artifact_origin (reference : string) : UpdateResult string :=
  match split_once ":" reference with
  | None => Err (Authenticity "artifact reference has no scheme")
  | Some (scheme, rest) =>
    if bool_decide (scheme = "file"%string) then Ok "file:"%string
    else if bool_decide (scheme = "https"%string) then
      if str_prefix "//" rest then
        let authority := default EmptyString (head (split_on "/" (str_drop 2 rest))) in
        if bool_decide (authority = EmptyString) || str_has "@" authority then
          Err (Authenticity "HTTPS artifact authority is invalid")
        else Ok ("https://" +:+ to_ascii_lowercase authority)
      else Err (Authenticity "HTTPS artifact reference has no authority")
    else Err (Authenticity ("artifact scheme `" +:+ scheme +:+ "` is not production-supported"))
  end.
Definition normalize_origin (origin : string) : UpdateResult string :=
  _ ← validate_policy_value "origin" origin;
  if bool_decide (origin = "file:"%string) then Ok origin
  else
    normalized ← artifact_origin origin;
    if bool_decide (normalized = to_ascii_lowercase (trim_slashes origin)) then Ok normalized
    else Err (Authenticity "allowed origin must contain only scheme and authority").

Record ArtifactTrustPolicy := { allowed_channels : gset string; allowed_origins : gset string }.
Definition policy_new : ArtifactTrustPolicy := {| allowed_channels := ∅; allowed_origins := ∅ |}.
Definition allow_channel (p : ArtifactTrustPolicy) (c : string) : UpdateResult ArtifactTrustPolicy :=
  _ ← validate_policy_value "channel" c;
  Ok {| allowed_channels := {[c]} ∪ allowed_channels p; allowed_origins := allowed_origins p |}.
Definition allow_origin (p : ArtifactTrustPolicy) (o : string) : UpdateResult ArtifactTrustPolicy :=
  origin ← normalize_origin o;
  Ok {| allowed_channels := allowed_channels p; allowed_origins := {[origin]} ∪ allowed_origins p |}.
Definition policy_verify (p : ArtifactTrustPolicy) (d : ArtifactDescriptor) : UpdateResult () :=
  if negb (bool_decide (channel d ∈ allowed_channels p)) then
    Err (Authenticity ("update channel `" +:+ channel d +:+ "` is not allowed"))
  else
    origin ← artifact_origin (artifact_reference d);
    if negb (bool_decide (origin ∈ allowed_origins p)) then
      Err (Authenticity ("artifact origin `" +:+ origin +:+ "` is not allowed"))
    else Ok ().

(** [ArtifactAuthenticityVerifier]. *)
Abbreviation Verifier := (ArtifactDescriptor → UpdateResult ()).
(** [PolicyArtifactVerifier::verify]. *)
Definition policy_artifact_verify (p : ArtifactTrustPolicy) (v : Verifier) : Verifier := λ d,
  _ ← policy_verify p d; v d.

Inductive SigningKeyStatus := KeyActive | KeyDeprecated | KeyRevoked.
#[export] Instance SigningKeyStatus_eq_dec : EqDecision SigningKeyStatus.
Proof. solve_decision. Defined.

Section Ed25519Verifier.
Context `{Ed25519}.

Record TrustedSigningKey := { trusted_key : VerifyingKey; key_status : SigningKeyStatus }.
Abbreviation trust_roots := (gmap string TrustedSigningKey).

Definition add_trust_root (key_id : string) (public_key : list byte) : op trust_roots UpdateError () :=
  _ ← op_lift (validate_key_id key_id);
  k ← op_lift (map_err Authenticity (key_from_bytes public_key));
  op_modify <[key_id := {| trusted_key := k; key_status := KeyActive |}]>.
Definition add_trust_root_hex (key_id public_key : string) : op trust_roots UpdateError () :=
  bytes ← op_lift (decode_hex 32 public_key); add_trust_root key_id bytes.
Definition set_trust_root_status (key_id : string) (s : SigningKeyStatus) : op trust_roots UpdateError () :=
  roots ← op_get;
  match roots !! key_id with
  | Some k => op_modify <[key_id := {| trusted_key := trusted_key k; key_status := s |}]>
  | None => op_fail (Authenticity ("signing key `" +:+ key_id +:+ "` is not configured"))
  end.

(** [Ed25519ArtifactVerifier::verify]. *)
Definition ed25519_verify (roots : trust_roots) : Verifier := λ d,
  key_id ← ok_or (Authenticity "signed artifact metadata is required") (signing_key_id d);
  signature ← ok_or (Authenticity "signed artifact metadata is required") (ed25519_signature d);
  k ← ok_or (Authenticity ("signing key `" +:+ key_id +:+ "` is not trusted")) (roots !! key_id);
  if bool_decide (key_status k = KeyRevoked) then
    Err (Authenticity ("signing key `" +:+ key_id +:+ "` is revoked"))
  else
    bytes ← decode_hex 64 signature;
    if signature_verifies (trusted_key k) (artifact_signing_payload d) bytes then Ok ()
    else Err (Authenticity "signature is invalid").
End Ed25519Verifier.
#[global] Arguments TrustedSigningKey : clear implicits.
#[global] Arguments TrustedSigningKey {_}.

(** ** [provider.rs] *)

Record UpdateRequest := { request_application : string; current_version : string; request_channel : string }.

Section Provider.
Context `{Semver}.

Definition newer_first (a b : version * ArtifactDescriptor) : Prop := version_compare b.1 a.1 ≠ Gt.
#[export] Instance newer_first_dec : RelDecision newer_first.
Proof. intros a b. unfold newer_first. apply _. Defined.

Definition eligible (q : UpdateRequest) (current : version) (d : ArtifactDescriptor) : option (version * ArtifactDescriptor) :=
  if bool_decide (application_id d = request_application q) && bool_decide (channel d = request_channel q) then
    match version_parse (application_version d) with
    | Ok v => if version_le v current then None else Some (v, d)
    | Err _ => None
    end
  else None.
Fixpoint validate_all (l : list ArtifactDescriptor) : UpdateResult () :=
  match l with
  | [] => Ok ()
  | d :: l' => _ ← artifact_validate d; validate_all l'
  end.
(** [read_index] on the content of the file: reading and decoding it is the
    argument. *)
Definition read_index (index : result string (list ArtifactDescriptor)) : UpdateResult (list ArtifactDescriptor) :=
  l ← map_err ProviderFailed index; _ ← validate_all l; Ok l.
(** [FileUpdateProvider::latest]. *)
Definition file_latest (index : result string (list ArtifactDescriptor)) (q : UpdateRequest) :
    UpdateResult (option ArtifactDescriptor) :=
  current ← map_err (λ e, ProviderFailed ("invalid installed application version: " +:+ e))
              (version_parse (current_version q));
  l ← read_index index;
  Ok (snd <$> head (merge_sort newer_first (omap (eligible q current) l))).

(** [FileUpdateProvider::fetch]; [file] reads a path: a read limit that is
    exceeded is [None]. *)
Definition file_fetch (file : string → N → result (option string) (list byte)) (d : ArtifactDescriptor) (max_bytes : N) :
    UpdateResult (list byte) :=
  if str_prefix "file:" (artifact_reference d) then
    match file (str_drop 5 (artifact_reference d)) max_bytes with
    | Ok bytes => Ok bytes
    | Err None => Err (ArtifactTooLarge max_bytes)
    | Err (Some e) => Err (ProviderFailed e)
    end
  else Err (ProviderFailed "file-update artifact reference must use file:").
End Provider.

(** ** What a signature covers *)

Lemma any_control_line s : any_control s = false → str_free LF s.
Proof. by apply any_control_free. Qed.
Lemma bad_text_line v m : bad_text v m = false → str_free LF v.
Proof. unfold bad_text. rewrite !orb_false_iff. intros [_ H]. by apply any_control_line. Qed.
Lemma validate_text_line field v m : validate_text field v m = Ok () → str_free LF v.
Proof.
  unfold validate_text. destruct (reject _ (Empty _)); [|done]. cbn. destruct (reject _ (TooLong _ _)); [|done]. cbn.
  intros H%reject_ok. by apply any_control_line.
Qed.
Lemma contract_identifier_line field v : validate_contract_identifier field v = Ok () → str_free LF v.
Proof.
  unfold validate_contract_identifier. destruct (validate_text field v 128) as [[]|] eqn:E; [|done].
  intros _. by apply validate_text_line in E.
Qed.
Lemma show_u64_line n : str_free LF (show_u64 n).
Proof. apply str_digits_free; [apply show_u64_digits|by left]. Qed.

(** Removes the signature: what is left is signed. *)
Definition unsigned (d : ArtifactDescriptor) : ArtifactDescriptor :=
  {| application_id := application_id d; application_version := application_version d; build_id := build_id d;
     channel := channel d; runtime_requirement := runtime_requirement d; protocol_version := protocol_version d;
     artifact_reference := artifact_reference d; sha256 := sha256 d; size_bytes := size_bytes d;
     signing_key_id := None; ed25519_signature := None |}.

Lemma check_text_ok name v m : check_text name v m = Ok () → bad_text v m = false.
Proof. unfold check_text. by destruct (bad_text v m). Qed.
Lemma lower_hex_line s : str_all lower_hex_byte s = true → str_free LF s.
Proof.
  induction s as [|c s IH]; [done|]. cbn [str_all]. intros [Hc Hs]%andb_true_iff. split; [|by apply IH].
  intros ->. vm_compute in Hc. discriminate Hc.
Qed.

Lemma artifact_validate_lines `{Semver} d : descriptor_ok d → Forall (λ f, str_free LF f.2) (signed_fields d).
Proof.
  intros [(Ha & Hb & _) Hv]. unfold artifact_validate in Hv.
  destruct (check_text "application_version" _ _) as [[]|] eqn:E1; [|done]. cbn in Hv.
  destruct (check_text "channel" _ _) as [[]|] eqn:E2; [|done]. cbn in Hv.
  destruct (check_text "runtime_requirement" _ _) as [[]|] eqn:E3; [|done]. cbn in Hv.
  destruct (check_text "protocol_version" _ _) as [[]|] eqn:E4; [|done]. cbn in Hv.
  destruct (check_text "artifact_reference" _ _) as [[]|] eqn:E5; [|done]. cbn in Hv.
  destruct (version_parse _); [|done]. destruct (requirement_parse _); [|done]. cbn in Hv.
  destruct (_ =? 0); [done|]. destruct (_ || _) eqn:Hx; [done|].
  apply orb_false_iff in Hx as [_ Hx]. apply negb_false_iff in Hx.
  unfold signed_fields. repeat constructor; cbn;
    eauto using contract_identifier_line, bad_text_line, check_text_ok, lower_hex_line, show_u64_line.
Qed.

Lemma signing_text_inj l l' :
  l.*1 = l'.*1 → Forall (λ f, str_free LF f.2) l → Forall (λ f, str_free LF f.2) l' →
  signing_text l = signing_text l' → l = l'.
Proof.
  revert l'. induction l as [|[n v] l IH]; intros [|[n' v'] l'] Hn Hl Hl' H; try done.
  apply Forall_cons in Hl as [Hv Hl]. apply Forall_cons in Hl' as [Hv' Hl'].
  injection Hn as <- Hn. cbn [signing_text] in H. unfold signing_line in H. cbn [fst snd] in *.
  rewrite <- !string_app_assoc in H.
  apply (f_equal (str_drop (String.length (n +:+ "=")))) in H. rewrite !string_app_assoc in H.
  rewrite <- (string_app_assoc n), <- (string_app_assoc n), !str_drop_app in H.
  apply (f_equal (split_once LF)) in H. rewrite !string_app_cons, !string_app_nil, !split_once_app in H by done.
  injection H as <- H. f_equal. by apply IH.
Qed.
Lemma signing_payload_inj `{Semver} d d' :
  descriptor_ok d → descriptor_ok d' → artifact_signing_payload d = artifact_signing_payload d' →
  unsigned d = unsigned d'.
Proof.
  intros Hd Hd' Hp. apply str_bytes_inj, signing_text_inj in Hp; [|done|by apply artifact_validate_lines..].
  destruct d, d'. unfold signed_fields, unsigned in *. cbn in *. injection Hp as <- <- <- <- <- <- <- <- Hs.
  apply (f_equal parse_u64) in Hs. destruct Hd as [(_ & _ & Hd) _], Hd' as [(_ & _ & Hd') _]. cbn in Hd, Hd'.
  rewrite !parse_show_u64 in Hs by done. congruence.
Qed.

(** An artifact that passes the allowlists and the signature check comes from
    an allowed origin on an allowed channel, and a trusted key that was not
    revoked verified its signature over bytes that no other valid descriptor
    has: the signature fixes every field but the signature itself. *)
Theorem accepted_artifact_is_published `{Semver} `{Ed25519} p roots d :
  descriptor_ok d → policy_artifact_verify p (ed25519_verify roots) d = Ok () →
  channel d ∈ allowed_channels p ∧
  (∃ o, artifact_origin (artifact_reference d) = Ok o ∧ o ∈ allowed_origins p) ∧
  ∃ id k signature bytes, signing_key_id d = Some id ∧ roots !! id = Some k ∧ key_status k ≠ KeyRevoked ∧
    ed25519_signature d = Some signature ∧ decode_hex 64 signature = Ok bytes ∧
    signature_verifies (trusted_key k) (artifact_signing_payload d) bytes = true ∧
    ∀ d', descriptor_ok d' → artifact_signing_payload d' = artifact_signing_payload d → unsigned d' = unsigned d.
Proof.
  intros Hd. unfold policy_artifact_verify, policy_verify, ed25519_verify. case_bool_decide as Hc; [|done]. cbn.
  destruct (artifact_origin _) as [o|] eqn:Ho; [|done]. cbn. case_bool_decide as Hin; [|done]. cbn.
  destruct (signing_key_id d) as [id|] eqn:Hid; [|done]. cbn.
  destruct (ed25519_signature d) as [signature|] eqn:Hsig; [|done]. cbn.
  destruct (roots !! id) as [k|] eqn:Hk; [|done]. cbn. case_bool_decide as Hr; [done|].
  destruct (decode_hex 64 signature) as [bytes|] eqn:Hb; [|done]. cbn.
  destruct (signature_verifies _ _ _) eqn:Hs; [|done]. intros _.
  split; [done|]. split; [eauto|]. exists id, k, signature, bytes. split_and!; try done.
  intros d' Hd' He. by apply signing_payload_inj.
Qed.

(** ** The index *)

(** The order of semantic versions, as documented. *)
Definition version_order `{Semver} : Prop :=
  (∀ a b, version_compare a b = CompOpp (version_compare b a)) ∧
  ∀ a b c, version_compare a b ≠ Gt → version_compare b c ≠ Gt → version_compare a c ≠ Gt.

Lemma newest_first `{Semver} (l : list (version * ArtifactDescriptor)) x y :
  version_order → head (merge_sort newer_first l) = Some x → y ∈ l → newer_first x y.
Proof.
  intros [Ha Ht] Hx Hy.
  assert (Total newer_first) as Htotal.
  { intros u v. unfold newer_first. rewrite (Ha v.1 u.1).
    destruct (version_compare u.1 v.1); cbn; [left|right|left]; done. }
  assert (Transitive newer_first) as Htrans by (intros u v z H1 H2; unfold newer_first in *; eauto).
  pose proof (StronglySorted_merge_sort newer_first l) as Hs.
  assert (y ∈ merge_sort newer_first l) as Hin by by rewrite merge_sort_Permutation.
  destruct (merge_sort newer_first l) as [|z l']; [done|]. injection Hx as ->.
  apply StronglySorted_inv in Hs as [_ Hs]. apply elem_of_cons in Hin as [->|Hin].
  - unfold newer_first. specialize (Ha x.1 x.1). by destruct (version_compare x.1 x.1).
  - by eapply Forall_forall in Hs.
Qed.

(** The file provider offers the newest artifact of its index for the
    application and channel that is newer than the installed version, and none
    only if there is none. *)
Theorem file_latest_is_newest `{Semver} index q current r :
  version_order → version_parse (current_version q) = Ok current → file_latest (Ok index) q = Ok r →
  match r with
  | Some d => d ∈ index ∧ artifact_validate d = Ok () ∧
      ∃ v, eligible q current d = Some (v, d) ∧ version_compare v current = Gt ∧
        ∀ d' v', d' ∈ index → eligible q current d' = Some (v', d') → version_compare v' v ≠ Gt
  | None => ∀ d, d ∈ index → eligible q current d = None
  end.
Proof.
  intros Ho Hc. unfold file_latest. rewrite Hc. cbn. destruct (validate_all index) as [[]|] eqn:Hv; [|done]. cbn.
  intros [= <-]. assert (Hall : ∀ d, d ∈ index → artifact_validate d = Ok ()).
  { clear -Hv. intros d Hd. induction Hd as [x l|x y l Hd IH]; cbn in Hv.
    - by destruct (artifact_validate x) as [[]|].
    - destruct (artifact_validate y) as [[]|]; [|done]. by apply IH. }
  assert (He : ∀ d p, eligible q current d = Some p → p.2 = d ∧ version_compare p.1 current = Gt).
  { intros d p. unfold eligible. destruct (_ && _); [|done]. destruct (version_parse (application_version d)) as [v|]; [|done].
    unfold version_le. destruct (version_compare v current) eqn:E; try done. by intros [= <-]. }
  destruct (head (merge_sort newer_first (omap (eligible q current) index))) as [[v d]|] eqn:Hh; cbn.
  - assert (Hin : (v, d) ∈ omap (eligible q current) index).
    { rewrite <- (merge_sort_Permutation newer_first). destruct (merge_sort _ _); [done|]. injection Hh as ->. by left. }
    apply list_elem_of_omap in Hin as (d0 & Hd0 & E). destruct (He _ _ E) as [Ed Hg]. cbn in Ed, Hg. subst d0.
    split; [done|]. split; [by apply Hall|]. exists v. split_and!; [done|done|].
    intros d' v' Hd' E'. pose proof (newest_first _ _ (v', d') Ho Hh) as Hn. apply Hn.
    apply list_elem_of_omap. eauto.
  - intros d Hd. destruct (eligible q current d) as [p|] eqn:E; [|done]. exfalso.
    assert (Hin : p ∈ merge_sort newer_first (omap (eligible q current) index)).
    { rewrite merge_sort_Permutation. apply list_elem_of_omap. eauto. }
    destruct (merge_sort _ _); [by apply elem_of_nil in Hin|done].
Qed.

(** ** Witnesses *)

Module Demo.
Definition number (t : string) : result string N := ok_or "not a number"%string (parse_u64 t).
#[export] Instance semver : Semver := {|
  version := N; version_parse := number; version_compare := N.compare; version_text := show_u64;
  requirement := N; requirement_parse := number; requirement_matches r v := r <=? v;
|}.
#[export] Instance ed25519 : Ed25519 := {|
  VerifyingKey := list byte; key_from_bytes b := Ok b; signature_verifies k _ s := bool_decide (s = k ++ k);
|}.
Definition hash (bytes : list byte) : list byte := repeat (byte_of_N (lenN bytes)) 32.
Definition key : list byte := repeat x00 32.
Definition artifact (v build : string) : ArtifactDescriptor :=
  {| application_id := "app"; application_version := v; build_id := build; channel := "stable";
     runtime_requirement := "1"; protocol_version := "1"; artifact_reference := "https://updates.test/app";
     sha256 := sha256_hex hash [x01]; size_bytes := 1; signing_key_id := Some "release";
     ed25519_signature := Some (hex_encode (key ++ key)) |}.
Lemma artifact_ok v build :
  validate_contract_identifier "build_id" build = Ok () → artifact_validate (artifact v build) = Ok () →
  descriptor_ok (artifact v build).
Proof. intros Hb Hv. split; [|exact Hv]. split; [vm_compute; reflexivity|]. split; [exact Hb|vm_compute; discriminate]. Qed.
Definition policy : ArtifactTrustPolicy :=
  {| allowed_channels := {["stable"%string]}; allowed_origins := {["https://updates.test"%string]} |}.
Definition roots : gmap string TrustedSigningKey := {["release"%string := {| trusted_key := key; key_status := KeyActive |}]}.
End Demo.
#[local] Existing Instances Demo.semver Demo.ed25519.

Lemma accepted_artifact_is_published_witness :
  let d := Demo.artifact "2" "build-2" in
  policy_artifact_verify Demo.policy (ed25519_verify Demo.roots) d = Ok () ∧
  channel d ∈ allowed_channels Demo.policy ∧
  (∃ o, artifact_origin (artifact_reference d) = Ok o ∧ o ∈ allowed_origins Demo.policy) ∧
  ∃ id k signature bytes, signing_key_id d = Some id ∧ Demo.roots !! id = Some k ∧ key_status k ≠ KeyRevoked ∧
    ed25519_signature d = Some signature ∧ decode_hex 64 signature = Ok bytes ∧
    signature_verifies (trusted_key k) (artifact_signing_payload d) bytes = true ∧
    ∀ d', descriptor_ok d' → artifact_signing_payload d' = artifact_signing_payload d → unsigned d' = unsigned d.
Proof.
  assert (Hok : descriptor_ok (Demo.artifact "2" "build-2")) by (apply Demo.artifact_ok; vm_compute; reflexivity).
  assert (Hv : policy_artifact_verify Demo.policy (ed25519_verify Demo.roots) (Demo.artifact "2" "build-2") = Ok ())
    by (vm_compute; reflexivity).
  exact (conj Hv (accepted_artifact_is_published Demo.policy Demo.roots (Demo.artifact "2" "build-2") Hok Hv)).
Defined.
