(* ===== verification/UpdateStore.v ===== *)
(** The artifact stores of application updates
    ([crates/appcore-update/src/store.rs]): the interface of the coordinator and
    the file store with its pointers, staged and retained artifacts.

    The files are those of Files.v. A temporary file is not part of the state,
    since its name is never read. *)

From S2P Require Import Prelude.
From S2P Require Import Text.
From S2P Require Import Types.
From S2P Require Import Contracts.
From S2P Require Import Encoding.
From S2P Require Import Files.
From S2P Require Import Update.

Local Open Scope N_scope.

(** ** The interface *)

Record StagedArtifact := { staged_descriptor : ArtifactDescriptor; staging_reference : string }.
Record ActivationReceipt := { activated : ArtifactDescriptor; previous : option ArtifactDescriptor }.
#[export] Instance ActivationReceipt_eq_dec : EqDecision ActivationReceipt.
Proof. solve_decision. Defined.
#[export] Instance ActivationReceipt_countable : Countable ActivationReceipt.
Proof.
  apply (inj_countable' (λ r, (activated r, previous r)) (λ '(a, p), Build_ActivationReceipt a p)). by intros [].
Defined.

Class ArtifactStore (S : Type) := {
  recover : op S UpdateError ();
  current : op S UpdateError (option ArtifactDescriptor);
  stage : ArtifactDescriptor → list byte → op S UpdateError StagedArtifact;
  discard_staged : StagedArtifact → op S UpdateError ();
  activate : StagedArtifact → op S UpdateError ActivationReceipt;
  rollback : ActivationReceipt → op S UpdateError ();
  commit : ActivationReceipt → op S UpdateError ();
}.

(** What a store promises. [settled] is the artifact that a recovery leaves
    active: an activation does not count until it is committed. *)
Class ArtifactStoreLaws (S : Type) `{Semver} `{!ArtifactStore S} := {
  sound : S → Prop;
  settled : S → option ArtifactDescriptor;
  idle : S → Prop;
  trying : ActivationReceipt → S → Prop;
  recover_spec a :
    hoare (λ s, sound s ∧ settled s = a) recover
      (λ _ s, sound s ∧ idle s ∧ settled s = a) (λ _ s, sound s ∧ settled s = a);
  current_spec a :
    hoare (λ s, sound s ∧ idle s ∧ settled s = a) current
      (λ r s, sound s ∧ idle s ∧ settled s = a ∧ r = a) (λ _ s, sound s ∧ settled s = a);
  stage_spec a d bytes :
    hoare (λ s, sound s ∧ idle s ∧ settled s = a) (stage d bytes)
      (λ st s, sound s ∧ idle s ∧ settled s = a ∧ staged_descriptor st = d) (λ _ s, sound s ∧ settled s = a);
  activate_spec a st :
    descriptor_ok (staged_descriptor st) →
    hoare (λ s, sound s ∧ idle s ∧ settled s = a) (activate st)
      (λ r s, sound s ∧ trying r s ∧ settled s = a ∧ activated r = staged_descriptor st ∧ previous r = a)
      (λ _ s, sound s ∧ settled s = a);
  commit_spec r :
    hoare (λ s, sound s ∧ trying r s ∧ settled s = previous r) (commit r)
      (λ _ s, sound s ∧ idle s ∧ settled s = Some (activated r))
      (λ _ s, sound s ∧ trying r s ∧ (settled s = previous r ∨ settled s = Some (activated r)));
  rollback_spec r x :
    hoare (λ s, sound s ∧ trying r s ∧ settled s = x) (rollback r)
      (λ _ s, sound s ∧ idle s ∧ settled s = previous r)
      (λ _ s, sound s ∧ (settled s = previous r ∨ settled s = x));
}.

(** ** The files of the file store *)

Definition UPDATE_METADATA_FORMAT_VERSION : N := 1.
Definition METADATA_LIMIT : N := 1048576.

Inductive store_file :=
| ActivePointer
| PreviousPointer
| PendingActivation
| StagedFile (build : string)
| ArtifactFile (build : string).
#[export] Instance store_file_eq_dec : EqDecision store_file.
Proof. solve_decision. Defined.
#[export] Instance store_file_countable : Countable store_file.
Proof.
  apply (inj_countable'
    (λ f, match f with
          | ActivePointer => inl 0
          | PreviousPointer => inl 1
          | PendingActivation => inl 2
          | StagedFile b => inr (true, b)
          | ArtifactFile b => inr (false, b)
          end)
    (λ x : N + bool * string,
      match x with
      | inl n => if n =? 0 then ActivePointer else if n =? 1 then PreviousPointer else PendingActivation
      | inr (s, b) => if s then StagedFile b else ArtifactFile b
      end)).
  by intros [].
Defined.
Abbreviation store_files := (gmap store_file (list byte)).
Abbreviation store_disk := (disk store_file).

Record ArtifactPointer := { pointer_version : N; pointer_descriptor : ArtifactDescriptor }.
Record PendingActivationRecord := { record_version : N; record_receipt : ActivationReceipt }.

(** The records that the store writes. *)
Definition pointer_for (d : ArtifactDescriptor) : ArtifactPointer :=
  {| pointer_version := UPDATE_METADATA_FORMAT_VERSION; pointer_descriptor := d |}.
Definition record_for (r : ActivationReceipt) : PendingActivationRecord :=
  {| record_version := UPDATE_METADATA_FORMAT_VERSION; record_receipt := r |}.

(** [serde_json] on the two records. *)
Class UpdateJson := {
  pointer_to_json : ArtifactPointer → result string (list byte);
  pointer_of_json : list byte → result string ArtifactPointer;
  record_to_json : PendingActivationRecord → result string (list byte);
  record_of_json : list byte → result string PendingActivationRecord;
}.

(** ** [filesystem.rs] and the helpers of [store.rs] *)

(** [read_regular_file_bounded]; no bytes when the file is not there. *)
Definition read_regular_file_bounded (f : store_file) (max_bytes : N) : op store_disk UpdateError (option (list byte)) :=
  bytes ← read_file StoreFailed f;
  match bytes with
  | Some b =>
    if max_bytes <? lenN b then op_fail (StoreFailed "regular file exceeds configured read limit")
    else mret (Some b)
  | None => mret None
  end.
(** [atomic_write]: the parent, the two checks and the temporary file come
    before the rename. *)
Definition atomic_write (f : store_file) (bytes : list byte) : op store_disk UpdateError () :=
  replace_file StoreFailed 4 f bytes.
Definition sync_parent_directory : op store_disk UpdateError () := probe StoreFailed.
Definition remove_if_exists (f : store_file) : op store_disk UpdateError () := remove_file_synced StoreFailed f.

Section Store.
Context {semver : Semver} {json : UpdateJson} (hash : list byte → list byte) (root : string).

(** Two directories are created and three checked. *)
Definition initialize : op store_disk UpdateError () := probes StoreFailed 5.

(** The file belongs to the descriptor. *)
Definition matches_descriptor (d : ArtifactDescriptor) (bytes : list byte) : bool :=
  (lenN bytes =? size_bytes d) && bool_decide (sha256_hex hash bytes = sha256 d).
Definition verify_artifact (f : store_file) (d : ArtifactDescriptor) : op store_disk UpdateError () :=
  bytes ← read_regular_file_bounded f (size_bytes d);
  match bytes with
  | None => op_fail (StoreFailed "No such file or directory")
  | Some bytes => if matches_descriptor d bytes then mret () else op_fail ChecksumMismatch
  end.
(** [hard_link] takes the staged file into the retained ones. *)
Definition install_artifact (staged artifact : store_file) (d : ArtifactDescriptor) : op store_disk UpdateError () :=
  w ← op_get;
  _ ← match files w !! staged, files w !! artifact with
      | None, _ => _ ← probe StoreFailed; op_fail (StoreFailed "No such file or directory")
      | Some _, Some _ => _ ← probe StoreFailed; verify_artifact artifact d
      | Some bytes, None => update_files StoreFailed <[artifact := bytes]>
      end;
  remove_if_exists staged.

(** ** [FileArtifactStore] *)

Definition artifact_path (build : string) : store_file := ArtifactFile build.
Definition staged_path (build : string) : store_file := StagedFile build.

(** [Path::join]; [staged_text] is the text of a staged file's path. *)
Definition path_join (base name : string) : string :=
  match str_last base with
  | None => name
  | Some c => if bool_decide (c = "/"%char) then base +:+ name else base +:+ "/" +:+ name
  end.
Definition staged_text (build : string) : string :=
  path_join (path_join root "staged") (build +:+ ".artifact").
(** Equality of paths: by their components. *)
Definition path_components (p : string) : bool * list string :=
  let parts := split_on "/" p in
  (str_prefix "/" p,
   match parts with
   | first :: rest =>
     (if bool_decide (first = EmptyString) then [] else [first])
     ++ List.filter (λ c, negb (bool_decide (c = EmptyString)) && negb (bool_decide (c = "."%string))) rest
   | [] => []
   end).
Definition same_path (a b : string) : bool := bool_decide (path_components a = path_components b).

Definition read_pointer (f : store_file) : op store_disk UpdateError (option ArtifactDescriptor) :=
  bytes ← read_regular_file_bounded f METADATA_LIMIT;
  match bytes with
  | None => mret None
  | Some bytes =>
    p ← op_lift (map_err StoreFailed (pointer_of_json bytes));
    if negb (pointer_version p =? UPDATE_METADATA_FORMAT_VERSION) then
      op_fail (StoreFailed "unsupported artifact pointer format")
    else
      _ ← op_lift (artifact_validate (pointer_descriptor p));
      mret (Some (pointer_descriptor p))
  end.
Definition write_pointer (f : store_file) (d : ArtifactDescriptor) : op store_disk UpdateError () :=
  bytes ← op_lift (map_err StoreFailed
    (pointer_to_json (pointer_for d)));
  atomic_write f bytes.

Definition check_previous (p : option ArtifactDescriptor) : UpdateResult () :=
  match p with Some d => artifact_validate d | None => Ok () end.
Definition read_pending_activation : op store_disk UpdateError (option ActivationReceipt) :=
  bytes ← read_regular_file_bounded PendingActivation METADATA_LIMIT;
  match bytes with
  | None => mret None
  | Some bytes =>
    r ← op_lift (map_err (λ _, StoreFailed "NO MORE SUPPORTED PLEASE UPDATE") (record_of_json bytes));
    if negb (record_version r =? UPDATE_METADATA_FORMAT_VERSION) then
      op_fail (StoreFailed "NO MORE SUPPORTED PLEASE UPDATE")
    else
      _ ← op_lift (artifact_validate (activated (record_receipt r)));
      _ ← op_lift (check_previous (previous (record_receipt r)));
      mret (Some (record_receipt r))
  end.
Definition write_pending_activation (r : ActivationReceipt) : op store_disk UpdateError () :=
  bytes ← op_lift (map_err StoreFailed
    (record_to_json (record_for r)));
  atomic_write PendingActivation bytes.

Definition file_current : op store_disk UpdateError (option ArtifactDescriptor) := read_pointer ActivePointer.

Definition file_stage (d : ArtifactDescriptor) (bytes : list byte) : op store_disk UpdateError StagedArtifact :=
  _ ← initialize;
  if negb (matches_descriptor d bytes) then op_fail ChecksumMismatch
  else
    _ ← atomic_write (staged_path (build_id d)) bytes;
    mret {| staged_descriptor := d; staging_reference := staged_text (build_id d) |}.

Definition file_discard_staged (s : StagedArtifact) : op store_disk UpdateError () :=
  if negb (bool_decide (staging_reference s = staged_text (build_id (staged_descriptor s)))) then
    op_fail (StoreFailed "staged artifact reference does not belong to this store")
  else remove_if_exists (staged_path (build_id (staged_descriptor s))).

(** [activate_inner] without an injected fault. *)
Definition file_activate (s : StagedArtifact) : op store_disk UpdateError ActivationReceipt :=
  let d := staged_descriptor s in
  _ ← initialize;
  if negb (same_path (staging_reference s) (staged_text (build_id d))) then
    op_fail (StoreFailed "staging reference does not belong to this store")
  else
    previous ← file_current;
    _ ← verify_artifact (staged_path (build_id d)) d;
    _ ← install_artifact (staged_path (build_id d)) (artifact_path (build_id d)) d;
    _ ← sync_parent_directory;
    _ ← match previous with
        | Some p => write_pointer PreviousPointer p
        | None => remove_if_exists PreviousPointer
        end;
    let receipt := {| activated := d; previous := previous |} in
    _ ← write_pending_activation receipt;
    _ ← write_pointer ActivePointer d;
    mret receipt.

(** The active artifact has the build of the receipt. *)
Definition require_active (r : ActivationReceipt) (missing changed : string) : op store_disk UpdateError () :=
  c ← file_current;
  match c with
  | None => op_fail (StoreFailed missing)
  | Some c => if negb (bool_decide (build_id c = build_id (activated r))) then op_fail (StoreFailed changed) else mret ()
  end.
Definition file_rollback (r : ActivationReceipt) : op store_disk UpdateError () :=
  _ ← require_active r "cannot rollback without an active artifact" "active artifact changed after activation";
  _ ← match previous r with
      | Some p => write_pointer ActivePointer p
      | None => remove_if_exists ActivePointer
      end;
  _ ← remove_if_exists PreviousPointer;
  remove_if_exists PendingActivation.
Definition file_commit (r : ActivationReceipt) : op store_disk UpdateError () :=
  _ ← require_active r "cannot commit without an active artifact" "active artifact changed before commit";
  _ ← remove_if_exists PreviousPointer;
  remove_if_exists PendingActivation.
Definition file_recover : op store_disk UpdateError () :=
  p ← read_pending_activation;
  match p with
  | None => remove_if_exists PreviousPointer
  | Some r =>
    c ← file_current;
    match c with
    | Some c =>
      if bool_decide (build_id c = build_id (activated r)) then file_rollback r
      else _ ← remove_if_exists PreviousPointer; remove_if_exists PendingActivation
    | None => _ ← remove_if_exists PreviousPointer; remove_if_exists PendingActivation
    end
  end.

#[export] Instance file_store : ArtifactStore store_disk := {
  recover := file_recover;
  current := file_current;
  stage := file_stage;
  discard_staged := file_discard_staged;
  activate := file_activate;
  rollback := file_rollback;
  commit := file_commit;
}.
End Store.

(** ** What the files say *)

Section View.
Context {semver : Semver} {json : UpdateJson} (hash : list byte → list byte).

(** What [serde_json] ensures for the records that the store writes: they can
    be written, reading gives them back, and the bounded fields of a valid
    descriptor keep the text short. *)
Definition receipt_ok (r : ActivationReceipt) : Prop :=
  descriptor_ok (activated r) ∧ ∀ d, previous r = Some d → descriptor_ok d.
Definition json_ok : Prop :=
  (∀ d, is_ok (pointer_to_json (pointer_for d)) = true) ∧
  (∀ d b, descriptor_ok d → pointer_to_json (pointer_for d) = Ok b →
    pointer_of_json b = Ok (pointer_for d) ∧ lenN b ≤ METADATA_LIMIT) ∧
  (∀ r b, receipt_ok r → record_to_json (record_for r) = Ok b →
    record_of_json b = Ok (record_for r) ∧ lenN b ≤ METADATA_LIMIT).

(** The retained artifact of a descriptor has its size and checksum. *)
Definition intact (fs : store_files) (d : ArtifactDescriptor) : Prop :=
  ∃ b, fs !! ArtifactFile (build_id d) = Some b ∧ matches_descriptor hash d b = true.
Definition usable (fs : store_files) (d : ArtifactDescriptor) : Prop := descriptor_ok d ∧ intact fs d.

Definition pointer_at (fs : store_files) (a : option ArtifactDescriptor) : Prop :=
  match a with
  | None => fs !! ActivePointer = None
  | Some d => usable fs d ∧ ∃ b, fs !! ActivePointer = Some b ∧
      pointer_to_json (pointer_for d) = Ok b
  end.
Definition receipt_usable (fs : store_files) (r : ActivationReceipt) : Prop :=
  usable fs (activated r) ∧ ∀ d, previous r = Some d → usable fs d.
Definition receipt_at (fs : store_files) (p : option ActivationReceipt) : Prop :=
  match p with
  | None => fs !! PendingActivation = None
  | Some r => receipt_usable fs r ∧ ∃ b, fs !! PendingActivation = Some b ∧
      record_to_json (record_for r) = Ok b
  end.
Definition view (fs : store_files) (a : option ArtifactDescriptor) (p : option ActivationReceipt) : Prop :=
  pointer_at fs a ∧ receipt_at fs p.

(** The artifact that counts: a pending activation of the active artifact is
    undone by a recovery. *)
Definition settled_of (a : option ArtifactDescriptor) (p : option ActivationReceipt) : option ArtifactDescriptor :=
  match p, a with
  | Some r, Some d => if bool_decide (build_id d = build_id (activated r)) then previous r else a
  | _, _ => a
  end.
Definition active_of (fs : store_files) : option ArtifactDescriptor :=
  b ← fs !! ActivePointer; match pointer_of_json b with Ok p => Some (pointer_descriptor p) | Err _ => None end.
Definition pending_of (fs : store_files) : option ActivationReceipt :=
  b ← fs !! PendingActivation; match record_of_json b with Ok r => Some (record_receipt r) | Err _ => None end.

Lemma receipt_usable_ok fs r : receipt_usable fs r → receipt_ok r.
Proof. intros [[Hd _] Hu]. split; [done|]. intros d Hx. by apply Hu in Hx as [? _]. Qed.
Lemma view_of fs a p : json_ok → view fs a p → active_of fs = a ∧ pending_of fs = p.
Proof.
  intros (_ & H1 & H2) [Ha Hp]. unfold active_of, pending_of. split.
  - destruct a as [d|]; cbn in Ha; [destruct Ha as ([Hd _] & b & -> & Hb)|by rewrite Ha]. cbn.
    by destruct (H1 _ _ Hd Hb) as [-> _].
  - destruct p as [r|]; cbn in Hp; [destruct Hp as (Hr & b & -> & Hb)|by rewrite Hp]. cbn.
    by destruct (H2 _ _ (receipt_usable_ok _ _ Hr) Hb) as [-> _].
Qed.

(** Two file systems with the same pointers, of which the second still has the
    retained artifacts. *)
Lemma usable_mono fs fs' d :
  (∀ b x, fs !! ArtifactFile b = Some x → fs' !! ArtifactFile b = Some x) → usable fs d → usable fs' d.
Proof. intros H [Hd (b & Hb & Hm)]. split; [done|]. exists b. split; [by apply H|done]. Qed.
Lemma view_mono fs fs' a p :
  fs' !! ActivePointer = fs !! ActivePointer → fs' !! PendingActivation = fs !! PendingActivation →
  (∀ b x, fs !! ArtifactFile b = Some x → fs' !! ArtifactFile b = Some x) → view fs a p → view fs' a p.
Proof.
  intros Ha Hp Hf [H1 H2]. split.
  - destruct a as [d|]; cbn in *; [|congruence]. destruct H1 as (Hu & b & Hb & Hj).
    split; [by eapply usable_mono|]. exists b. by rewrite Ha.
  - destruct p as [r|]; cbn in *; [|congruence]. destruct H2 as ([Hu Hv] & b & Hb & Hj).
    split; [split; [|intros d Hd]; eapply usable_mono; eauto|]. exists b. by rewrite Hp.
Qed.

(** The effects of the store's accesses. *)
Definition harmless (f : store_file) : Prop :=
  match f with PreviousPointer | StagedFile _ => True | _ => False end.
Lemma usable_insert f b fs d : (∀ x, f ≠ ArtifactFile x) → usable fs d → usable (<[f := b]> fs) d.
Proof. intros Hf. apply usable_mono. intros x y Hx. by rewrite lookup_insert_ne. Qed.
Lemma usable_delete f fs d : (∀ x, f ≠ ArtifactFile x) → usable fs d → usable (delete f fs) d.
Proof. intros Hf. apply usable_mono. intros x y Hx. by rewrite lookup_delete_ne. Qed.
Lemma view_insert f b fs a p : harmless f → view fs a p → view (<[f := b]> fs) a p.
Proof.
  intros Hf. apply view_mono; [| |intros x y Hx]; rewrite lookup_insert_ne; try done; by intros ->.
Qed.
Lemma view_delete f fs a p : harmless f → view fs a p → view (delete f fs) a p.
Proof.
  intros Hf. apply view_mono; [| |intros x y Hx]; rewrite lookup_delete_ne; try done; by intros ->.
Qed.
Lemma view_retain build b fs a p :
  fs !! ArtifactFile build = None → view fs a p → view (<[ArtifactFile build := b]> fs) a p.
Proof.
  intros Hn. apply view_mono; [by rewrite lookup_insert_ne..|]. intros x y Hx.
  rewrite lookup_insert_ne; [done|]. intros [= ->]. congruence.
Qed.
Lemma view_set_active fs a p d b :
  usable fs d → pointer_to_json (pointer_for d) = Ok b →
  view fs a p → view (<[ActivePointer := b]> fs) (Some d) p.
Proof.
  intros Hu Hj [_ Hp]. split; cbn.
  - split; [by apply usable_insert|]. exists b. by rewrite lookup_insert_eq.
  - destruct p as [r|]; cbn in *; [|by rewrite lookup_insert_ne].
    destruct Hp as ([H1 H2] & x & Hx & Hr). split; [split; [by apply usable_insert|]|].
    + intros d' Hd'. apply usable_insert; [done|by apply H2].
    + exists x. by rewrite lookup_insert_ne.
Qed.
Lemma view_clear_active fs a p : view fs a p → view (delete ActivePointer fs) None p.
Proof.
  intros [_ Hp]. split; cbn; [apply lookup_delete_eq|].
  destruct p as [r|]; cbn in *; [|by rewrite lookup_delete_ne].
  destruct Hp as ([H1 H2] & x & Hx & Hr). split; [split; [by apply usable_delete|]|].
  - intros d' Hd'. apply usable_delete; [done|by apply H2].
  - exists x. by rewrite lookup_delete_ne.
Qed.
Lemma view_set_pending fs a p r b :
  receipt_usable fs r →
  record_to_json (record_for r) = Ok b →
  view fs a p → view (<[PendingActivation := b]> fs) a (Some r).
Proof.
  intros [Hu Hv] Hj [Ha _]. split; cbn.
  - destruct a as [d|]; cbn in *; [|by rewrite lookup_insert_ne]. destruct Ha as (H1 & x & Hx & Hd).
    split; [by apply usable_insert|]. exists x. by rewrite lookup_insert_ne.
  - split; [split; [by apply usable_insert|]|exists b; by rewrite lookup_insert_eq].
    intros d Hd. apply usable_insert; [done|by apply Hv].
Qed.
Lemma view_clear_pending fs a p : view fs a p → view (delete PendingActivation fs) a None.
Proof.
  intros [Ha _]. split; cbn; [|apply lookup_delete_eq].
  destruct a as [d|]; cbn in *; [|by rewrite lookup_delete_ne]. destruct Ha as (H1 & x & Hx & Hd).
  split; [by apply usable_delete|]. exists x. by rewrite lookup_delete_ne.
Qed.
End View.

(** ** The file store keeps its promises *)

Section Laws.
Context {semver : Semver} {json : UpdateJson} (hash : list byte → list byte) (root : string) (Hjson : json_ok).
Local Abbreviation view := (view hash).
Local Abbreviation usable := (usable hash).
Local Abbreviation receipt_usable := (receipt_usable hash).
Implicit Type V W X : store_files → Prop.

Lemma triple_read_bounded X V f max :
  (∀ fs, V fs → X fs) → triple X V (read_regular_file_bounded f max) (λ r fs, V fs ∧ fs !! f = r).
Proof.
  intros HV. unfold read_regular_file_bounded. eapply triple_bind; [by apply triple_read|]. intros [b|].
  - destruct (max <? lenN b); [apply triple_fail; by intros fs [Hf _]; apply HV|by apply hoare_ret].
  - by apply hoare_ret.
Qed.

Lemma triple_current X V a :
  (∀ fs, V fs → X fs ∧ pointer_at hash fs a) → triple X V file_current (λ r fs, V fs ∧ r = a).
Proof.
  intros HV. unfold file_current, read_pointer. destruct Hjson as (_ & J & _).
  eapply triple_bind; [apply triple_read_bounded; by intros fs [? _]%HV|]. intros [bytes|].
  - apply (triple_assume _ _ _ _ (∃ d, a = Some d ∧ descriptor_ok d ∧
      pointer_to_json (pointer_for d) = Ok bytes)).
    { intros fs [[_ Ha]%HV Hb]. destruct a as [d|]; cbn in Ha; [|congruence].
      destruct Ha as ([Hd _] & b & Hb' & Hj). exists d. split_and!; [done|done|congruence]. }
    intros (d & -> & Hd & Hj). destruct (J _ _ Hd Hj) as [-> _]. apply hoare_lift_ok. cbn. destruct Hd as [_ Hd]. rewrite Hd.
    apply hoare_lift_ok, hoare_ret. by intros s [Hs _].
  - apply (triple_assume _ _ _ _ (a = None)).
    { intros fs [[_ Ha]%HV Hb]. destruct a as [d|]; [|done]. destruct Ha as (_ & b & Hb' & _). congruence. }
    intros ->. apply hoare_ret. by intros s [Hs _].
Qed.
Lemma triple_pending X V p :
  (∀ fs, V fs → X fs ∧ receipt_at hash fs p) → triple X V read_pending_activation (λ r fs, V fs ∧ r = p).
Proof.
  intros HV. unfold read_pending_activation. destruct Hjson as (_ & _ & J).
  eapply triple_bind; [apply triple_read_bounded; by intros fs [? _]%HV|]. intros [bytes|].
  - apply (triple_assume _ _ _ _ (∃ r, p = Some r ∧ receipt_ok r ∧
      record_to_json (record_for r) = Ok bytes)).
    { intros fs [[_ Ha]%HV Hb]. destruct p as [r|]; cbn in Ha; [|congruence].
      destruct Ha as (Hr & b & Hb' & Hj). exists r. split; [done|].
      split; [by apply (receipt_usable_ok _ _ _ Hr)|congruence]. }
    intros (r & -> & Hr & Hj). destruct (J _ _ Hr Hj) as [-> _]. destruct Hr as [[_ Hd] Hp]. apply hoare_lift_ok. cbn. rewrite Hd. apply hoare_lift_ok.
    assert (check_previous (previous r) = Ok ()) as ->.
    { destruct (previous r) as [d|]; [|done]. by destruct (Hp d eq_refl). }
    apply hoare_lift_ok, hoare_ret. by intros s [Hs _].
  - apply (triple_assume _ _ _ _ (p = None)).
    { intros fs [[_ Ha]%HV Hb]. destruct p as [r|]; [|done]. destruct Ha as (_ & b & Hb' & _). congruence. }
    intros ->. apply hoare_ret. by intros s [Hs _].
Qed.

(** Writing a pointer or the receipt. *)
Lemma triple_write_pointer X V W f d :
  (∀ fs b, V fs → pointer_to_json (pointer_for d) = Ok b →
    X (<[f := b]> fs) ∧ W (<[f := b]> fs)) → (∀ fs, V fs → X fs) → (∀ fs, W fs → X fs) →
  triple X V (write_pointer f d) (λ _, W).
Proof.
  intros H HV HW. unfold write_pointer. eapply triple_bind; [by apply triple_lift|]. intros b.
  apply triple_replace; [|done]. intros fs [Hf Hb].
  destruct (pointer_to_json _) as [b'|] eqn:E; cbn in Hb; [|done]. injection Hb as ->.
  destruct (H fs b Hf eq_refl). split_and!; [by apply HV|done|done].
Qed.
Lemma triple_write_pending X V W r :
  (∀ fs b, V fs → record_to_json (record_for r) = Ok b →
    X (<[PendingActivation := b]> fs) ∧ W (<[PendingActivation := b]> fs)) → (∀ fs, V fs → X fs) → (∀ fs, W fs → X fs) →
  triple X V (write_pending_activation r) (λ _, W).
Proof.
  intros H HV HW. unfold write_pending_activation. eapply triple_bind; [by apply triple_lift|]. intros b.
  apply triple_replace; [|done]. intros fs [Hf Hb].
  destruct (record_to_json _) as [b'|] eqn:E; cbn in Hb; [|done]. injection Hb as ->.
  destruct (H fs b Hf eq_refl). split_and!; [by apply HV|done|done].
Qed.

(** *** The operations *)

Lemma triple_initialize X V : (∀ fs, V fs → X fs) → triple X V initialize (λ _, V).
Proof.
  apply triple_probes.
Qed.
Lemma triple_verify X V f d :
  (∀ fs, V fs → X fs) →
  triple X V (verify_artifact hash f d)
    (λ _ fs, V fs ∧ ∃ b, fs !! f = Some b ∧ matches_descriptor hash d b = true).
Proof.
  intros HV. unfold verify_artifact. eapply triple_bind; [by apply triple_read_bounded|]. intros [b|].
  - destruct (matches_descriptor hash d b) eqn:Hm.
    + apply hoare_ret. intros s [Hs Hf]. split; [done|]. by exists b.
    + apply triple_fail. intros fs [Hf _]. by apply HV.
  - apply triple_fail. intros fs [Hf _]. by apply HV.
Qed.

Definition settles (x : option ArtifactDescriptor) (fs : store_files) : Prop :=
  ∃ a p, view fs a p ∧ settled_of a p = x.
Lemma settles_view fs a p : view fs a p → settles (settled_of a p) fs.
Proof. intros Hv. by exists a, p. Qed.
Lemma settled_previous r p : p = None ∨ p = Some r → settled_of (previous r) p = previous r.
Proof. intros [->| ->]; [by destruct (previous r)|]. cbn. destruct (previous r) as [d|] eqn:E; [|done]. by case_bool_decide. Qed.

Lemma triple_stage a d bytes :
  triple (settles a) (λ fs, view fs a None) (file_stage hash root d bytes)
    (λ st fs, view fs a None ∧ staged_descriptor st = d).
Proof.
  assert (HV : ∀ fs, view fs a None → settles a fs) by (intros fs; apply (settles_view fs a None)).
  unfold file_stage. eapply triple_bind; [by apply (triple_initialize (settles a) (λ fs, view fs a None))|intros []].
  destruct (matches_descriptor hash d bytes); cbn [negb]; [|by apply triple_fail].
  eapply triple_bind; [apply (triple_replace _ _ (λ fs, view fs a None)); [|done]|intros []].
  - intros fs Hf. split; [by apply HV|]. split; [apply HV|]; by apply view_insert.
  - by apply hoare_ret.
Qed.
Lemma triple_discard a p st :
  triple (settles (settled_of a p)) (λ fs, view fs a p) (file_discard_staged root st) (λ _ fs, view fs a p).
Proof.
  assert (HV : ∀ fs, view fs a p → settles (settled_of a p) fs) by (intros fs; apply settles_view).
  unfold file_discard_staged. case_bool_decide; cbn [negb]; [|by apply triple_fail].
  apply triple_remove; [|done]. intros fs Hf. split; [by apply HV|]. split; [apply HV|]; by apply view_delete.
Qed.

Lemma triple_install a d :
  descriptor_ok d →
  triple (settles a)
    (λ fs, view fs a None ∧ ∃ b, fs !! StagedFile (build_id d) = Some b ∧ matches_descriptor hash d b = true)
    (install_artifact hash (StagedFile (build_id d)) (ArtifactFile (build_id d)) d)
    (λ _ fs, view fs a None ∧ usable fs d).
Proof.
  intros Hd. assert (HV : ∀ fs, view fs a None → settles a fs) by (intros fs; apply (settles_view fs a None)).
  unfold install_artifact. apply hoare_get_bind. intros w (Hw & b & Hb & Hm).
  apply (hoare_bind _ _ _ (λ _, on (λ fs, view fs a None ∧ usable fs d))).
  - rewrite Hb. destruct (files w !! ArtifactFile _) as [x|] eqn:Hx.
    + eapply (hoare_bind _ _ _ (λ _, on (λ fs, view fs a None))).
      { eapply hoare_pre; [by apply (triple_probe (settles a) (λ fs, view fs a None))|]. by intros ? ->. }
      intros []. eapply hoare_weaken; [by apply (triple_verify (settles a) (λ fs, view fs a None))|done| |done].
      intros [] s [Hv (y & Hy & Hmy)]. split; [done|]. split; [done|]. by exists y.
    + eapply hoare_pre; [apply (triple_update (settles a) (λ fs, fs = files w) (λ fs, view fs a None ∧ usable fs d))|by intros ? ->].
      intros fs ->. split; [by apply HV|]. assert (view (<[ArtifactFile (build_id d) := b]> (files w)) a None) by by apply view_retain.
      split; [by apply HV|]. split; [done|]. split; [done|]. exists b. by rewrite lookup_insert_eq.
  - intros []. apply (triple_remove (settles a) _ (λ fs, view fs a None ∧ usable fs d)); [|by intros fs [? _]; apply HV].
    intros fs [Hv Hu]. split; [by apply HV|]. assert (view (delete (StagedFile (build_id d)) fs) a None) by by apply view_delete.
    split; [by apply HV|]. split; [done|]. by apply usable_delete.
Qed.

Lemma triple_activate a st :
  descriptor_ok (staged_descriptor st) →
  triple (settles a) (λ fs, view fs a None) (file_activate hash root st)
    (λ r fs, r = {| activated := staged_descriptor st; previous := a |} ∧
             view fs (Some (activated r)) (Some r) ∧ receipt_usable fs r).
Proof.
  intros Hd. unfold file_activate. set (d := staged_descriptor st) in *.
  assert (HV : ∀ fs, view fs a None → settles a fs) by (intros fs; apply (settles_view fs a None)).
  assert (HU : ∀ fs, view fs a None ∧ usable fs d → settles a fs) by (intros fs [? _]; by apply HV).
  eapply triple_bind; [by apply (triple_initialize (settles a) (λ fs, view fs a None))|intros []].
  destruct (same_path _ _); cbn [negb]; [|by apply triple_fail].
  eapply triple_bind; [apply (triple_current _ _ a); intros fs Hf; split; [by apply HV|by destruct Hf]|].
  intros prev. apply (triple_assume _ _ _ _ (prev = a)); [by intros fs [_ ->]|intros ->].
  eapply triple_bind; [apply triple_verify; by intros fs [Hf _]; apply HV|intros []].
  eapply triple_bind; [eapply hoare_pre; [by apply (triple_install a d)|by intros fs [[? _] ?]]|intros []].
  eapply triple_bind; [by apply (triple_probe (settles a) (λ fs, view fs a None ∧ usable fs d))|intros []].
  set (r := {| activated := d; previous := a |}).
  eapply (triple_bind _ _ _ _ (λ _ fs, view fs a None ∧ usable fs d)); [|intros []].
  { destruct a as [p|]; [apply triple_write_pointer|apply triple_remove]; try done.
    - intros fs b [Hf Hu] _. assert (view (<[PreviousPointer := b]> fs) (Some p) None ∧ usable (<[PreviousPointer := b]> fs) d)
        by (split; [by apply view_insert|by apply usable_insert]). split; [by apply HU|done].
    - intros fs [Hf Hu]. assert (view (delete PreviousPointer fs) None None ∧ usable (delete PreviousPointer fs) d)
        by (split; [by apply view_delete|by apply usable_delete]). split; [by apply HV|]. split; [by apply HU|done]. }
  assert (Hr : ∀ fs, view fs a None → usable fs d → receipt_usable fs r).
  { intros fs [Ha _] Hu. split; [done|]. intros x Hx. cbn in Hx. subst a. cbn in Ha. by destruct Ha. }
  assert (HR : ∀ fs, view fs a (Some r) → settles a fs).
  { intros fs Hf. exists a, (Some r). split; [done|]. by apply (settled_previous r (Some r)); right. }
  eapply (triple_bind _ _ _ _ (λ _ fs, view fs a (Some r) ∧ receipt_usable fs r)); [|intros []].
  { apply triple_write_pending; [|done|by intros fs [? _]; apply HR].
    intros fs b [Hf Hu] Hb. assert (view (<[PendingActivation := b]> fs) a (Some r)) as Hv.
    { by apply (view_set_pending hash fs a None r b); [apply Hr| |]. }
    split; [by apply HR|]. split; [done|]. destruct Hv as [_ [? _]]. done. }
  assert (HA : ∀ fs, view fs (Some d) (Some r) → settles a fs).
  { intros fs Hf. exists (Some d), (Some r). split; [done|]. cbn. by rewrite bool_decide_eq_true_2. }
  eapply (triple_bind _ _ _ _ (λ _ fs, view fs (Some d) (Some r) ∧ receipt_usable fs r)); [|intros []].
  { apply triple_write_pointer; [|by intros fs [? _]; apply HR|by intros fs [? _]; apply HA].
    intros fs b [Hf [Hu Hp]] Hb. assert (view (<[ActivePointer := b]> fs) (Some d) (Some r)) as Hv
      by by apply (view_set_active hash fs a (Some r) d b).
    split; [by apply HA|]. split; [done|]. destruct Hv as [_ [? _]]. done. }
  apply hoare_ret. intros s [Hs Hu]. done.
Qed.

Lemma triple_require_active X V c r missing changed :
  (∀ fs, V fs → X fs ∧ pointer_at hash fs (Some c)) → build_id c = build_id (activated r) →
  triple X V (require_active r missing changed) (λ _, V).
Proof.
  intros HV Hb. unfold require_active. eapply triple_bind; [by apply (triple_current X V (Some c))|].
  intros x. apply (triple_assume _ _ _ _ (x = Some c)); [by intros fs [_ ->]|intros ->].
  rewrite Hb, bool_decide_eq_true_2 by done. apply hoare_ret. by intros s [Hs _].
Qed.
(** Clearing what is left of an activation whose outcome is decided. *)
Lemma triple_clear X a p :
  (∀ fs, view fs a p → X fs) → (∀ fs, view fs a None → X fs) →
  triple X (λ fs, view fs a p) (_ ← remove_if_exists PreviousPointer; remove_if_exists PendingActivation)
    (λ _ fs, view fs a None).
Proof.
  intros H1 H2. eapply (triple_bind _ _ _ _ (λ _ fs, view fs a p)).
  - apply triple_remove; [|done]. intros fs Hf. split; [by apply H1|]. split; [apply H1|]; by apply view_delete.
  - intros []. apply triple_remove; [|done]. intros fs Hf. split; [by apply H1|].
    split; [apply H2|]; by apply (view_clear_pending hash _ _ p).
Qed.

(** The states of a rollback: the previous artifact counts again, or still
    what counted before. *)
Definition undone (r : ActivationReceipt) (x : option ArtifactDescriptor) (fs : store_files) : Prop :=
  settles (previous r) fs ∨ settles x fs.
Lemma triple_rollback c p r :
  build_id c = build_id (activated r) → p = None ∨ p = Some r →
  triple (undone r (settled_of (Some c) p)) (λ fs, view fs (Some c) p ∧ ∀ d, previous r = Some d → usable fs d)
    (file_rollback r) (λ _ fs, view fs (previous r) None).
Proof.
  intros Hb Hp. unfold file_rollback. set (X := undone r (settled_of (Some c) p)).
  assert (H0 : ∀ fs, view fs (Some c) p → X fs) by (intros fs Hf; right; by apply settles_view).
  assert (H1 : ∀ fs, view fs (previous r) p → X fs).
  { intros fs Hf. left. exists (previous r), p. split; [done|]. by apply settled_previous. }
  assert (H2 : ∀ fs, view fs (previous r) None → X fs) by (intros fs Hf; left; by apply (settles_view fs (previous r) None)).
  set (V := λ fs, view fs (Some c) p ∧ _).
  eapply (triple_bind _ _ _ _ (λ _, V)); [apply (triple_require_active X V c); [|done]|intros []].
  { intros fs [Hf _]. split; [by apply H0|by destruct Hf]. }
  eapply (triple_bind _ _ _ _ (λ _ fs, view fs (previous r) p)); [|intros []; by apply triple_clear].
  destruct (previous r) as [d|] eqn:Hd.
  - apply triple_write_pointer; [|by intros fs [? _]; apply H0|done].
    intros fs b [Hf Hu] Hj. assert (view (<[ActivePointer := b]> fs) (Some d) p)
      by (apply (view_set_active hash fs (Some c) p d b); [by apply Hu|done|done]).
    split; [by apply H1|done].
  - apply triple_remove; [|done]. intros fs [Hf Hu]. split; [by apply H0|].
    split; [apply H1|]; by apply (view_clear_active hash fs (Some c) p).
Qed.

Lemma triple_commit p r :
  p = None ∨ p = Some r →
  triple (λ fs, (view fs (Some (activated r)) (Some r) ∨ view fs (Some (activated r)) None) ∧
               ∀ d, previous r = Some d → usable fs d)
    (λ fs, view fs (Some (activated r)) p ∧ ∀ d, previous r = Some d → usable fs d)
    (file_commit r) (λ _ fs, view fs (Some (activated r)) None).
Proof.
  intros Hp. set (U := λ fs, ∀ d, previous r = Some d → usable fs d).
  set (X := λ fs, (view fs (Some (activated r)) (Some r) ∨ view fs (Some (activated r)) None) ∧ U fs).
  set (V := λ fs, view fs (Some (activated r)) p ∧ U fs). fold X V.
  change (triple X V (file_commit r) (λ _ fs, view fs (Some (activated r)) None)).
  assert (HV : ∀ fs, V fs → X fs) by (intros fs [Hf Hu]; split; [destruct Hp as [-> | ->]; [by right|by left]|done]).
  assert (HU : ∀ f fs, (∀ x, f ≠ ArtifactFile x) → U fs → U (delete f fs)).
  { intros f fs Hn Hu d Hd. apply usable_delete; [done|by apply Hu]. }
  unfold file_commit. eapply (triple_bind _ _ _ _ (λ _, V)); [apply (triple_require_active X V (activated r)); [|done]|intros []].
  { intros fs Hf. split; [by apply HV|by destruct Hf as [[? _] _]]. }
  eapply (triple_bind _ _ _ _ (λ _, V)); [|intros []].
  - apply triple_remove; [|done]. intros fs [Hf Hu].
    assert (V (delete PreviousPointer fs)) as Hv by (split; [by apply view_delete|by apply HU]).
    split; [by apply HV|]. split; [by apply HV|done].
  - eapply hoare_weaken; [|done| |].
    + apply (triple_remove X V (λ fs, view fs (Some (activated r)) None ∧ U fs)); [|intros fs [Hf Hu]; split; [by right|done]].
      intros fs [Hf Hu]. assert (view (delete PendingActivation fs) (Some (activated r)) None) as Hv
        by by apply (view_clear_pending hash _ _ p). assert (U (delete PendingActivation fs)) by by apply HU.
      split; [by apply HV|]. split; [split; [by right|done]|done].
    + intros [] s. by intros [Hs _].
    + done.
Qed.

Lemma receipt_usable_of fs a r : view fs a (Some r) → receipt_usable fs r.
Proof. by intros [_ [Hr _]]. Qed.

Lemma triple_recover a p :
  triple (settles (settled_of a p)) (λ fs, view fs a p) file_recover
    (λ _ fs, view fs (settled_of a p) None).
Proof.
  assert (HV : ∀ fs, view fs a p → settles (settled_of a p) fs) by (intros fs; apply settles_view).
  unfold file_recover. eapply triple_bind; [apply (triple_pending _ _ p)|].
  { intros fs Hf. split; [by apply HV|by destruct Hf]. }
  intros x. apply (triple_assume _ _ _ _ (x = p)); [by intros fs [_ ->]|intros ->].
  apply (hoare_pre _ (on (λ fs, view fs a p))); [|by intros s [? _]].
  destruct p as [r|].
  - eapply triple_bind; [apply (triple_current _ _ a)|].
    { intros fs Hf. split; [by apply HV|by destruct Hf]. }
    intros y. apply (triple_assume _ _ _ _ (y = a)); [by intros fs [_ ->]|intros ->].
    apply (hoare_pre _ (on (λ fs, view fs a (Some r)))); [|by intros s [? _]].
    assert (Hclear : settled_of a (Some r) = a →
      triple (settles (settled_of a (Some r))) (λ fs, view fs a (Some r))
        (_ ← remove_if_exists PreviousPointer; remove_if_exists PendingActivation)
        (λ _ fs, view fs (settled_of a (Some r)) None)).
    { intros E. rewrite E. apply triple_clear; intros fs Hf; [exists a, (Some r)|exists a, None]; done. }
    destruct a as [c|]; [|by apply Hclear].
    case_bool_decide as Hb; [|apply Hclear; cbn; by rewrite bool_decide_eq_false_2].
    assert (Es : settled_of (Some c) (Some r) = previous r) by (cbn; by rewrite bool_decide_eq_true_2).
    rewrite Es in *. eapply hoare_weaken; [apply (triple_rollback c (Some r) r); [done|by right]| |done|].
    + intros s Hs. split; [done|]. apply receipt_usable_of in Hs as [_ Hu]. exact Hu.
    + intros e s [Hs|Hs]; [exact Hs|]. by rewrite Es in Hs.
  - assert (Es : settled_of a None = a) by by destruct a. rewrite Es in *.
    apply triple_remove; [|exact HV]. intros fs Hf. split; [by apply HV|].
    split; [apply HV|]; by apply view_delete.
Qed.

(** *** The interface's promises *)

Definition file_sound (d : store_disk) : Prop := ∃ a p, view (files d) a p.
Definition file_settled (d : store_disk) : option ArtifactDescriptor :=
  settled_of (active_of (files d)) (pending_of (files d)).
Definition file_idle (d : store_disk) : Prop := pending_of (files d) = None.
Definition file_trying (r : ActivationReceipt) (d : store_disk) : Prop :=
  active_of (files d) = Some (activated r) ∧ (pending_of (files d) = None ∨ pending_of (files d) = Some r) ∧
  ∀ x, previous r = Some x → usable (files d) x.

Lemma view_facts d a p :
  view (files d) a p →
  file_sound d ∧ file_settled d = settled_of a p ∧ active_of (files d) = a ∧ pending_of (files d) = p.
Proof.
  intros Hv. destruct (view_of _ _ _ _ Hjson Hv) as [Ha Hp]. unfold file_settled. rewrite Ha, Hp. split; [by exists a, p|done].
Qed.
Lemma view_idle d a : view (files d) a None → file_sound d ∧ file_idle d ∧ file_settled d = a.
Proof. intros (H1 & H2 & _ & H3)%view_facts. split_and!; [done|done|]. rewrite H2. by destruct a. Qed.
Lemma settles_facts d x : settles x (files d) → file_sound d ∧ file_settled d = x.
Proof. intros (a & p & (H1 & H2 & _)%view_facts & <-). done. Qed.
Lemma idle_view d a : file_sound d → file_idle d → file_settled d = a → view (files d) a None.
Proof.
  intros (a' & p & Hv) Hi <-. destruct (view_facts _ _ _ Hv) as (_ & Hs & _ & Hp).
  unfold file_idle in Hi. rewrite Hp in Hi. subst p. rewrite Hs. by destruct a'.
Qed.
Lemma trying_view d r :
  file_sound d → file_trying r d →
  ∃ p, (p = None ∨ p = Some r) ∧ view (files d) (Some (activated r)) p ∧ ∀ x, previous r = Some x → usable (files d) x.
Proof.
  intros (a & p & Hv) (Ha & Hp & Hu). destruct (view_facts _ _ _ Hv) as (_ & _ & Ha' & Hp').
  rewrite Ha' in Ha. rewrite Hp' in Hp. subst a. by exists p.
Qed.

Lemma file_recover_spec a :
  hoare (λ s, file_sound s ∧ file_settled s = a) file_recover
    (λ _ s, file_sound s ∧ file_idle s ∧ file_settled s = a) (λ _ s, file_sound s ∧ file_settled s = a).
Proof.
  intros s [(a' & p & Hv) <-]. pose proof (triple_recover a' p s Hv) as Ht.
  destruct (view_facts _ _ _ Hv) as (_ & Es & _). rewrite Es.
  destruct (file_recover s) as [[[]|e] s']; [by apply view_idle|by apply settles_facts].
Qed.
Lemma file_current_spec a :
  hoare (λ s, file_sound s ∧ file_idle s ∧ file_settled s = a) file_current
    (λ r s, file_sound s ∧ file_idle s ∧ file_settled s = a ∧ r = a) (λ _ s, file_sound s ∧ file_settled s = a).
Proof.
  intros s (Hs & Hi & Ha). pose proof (idle_view _ _ Hs Hi Ha) as Hv.
  assert (Ht := triple_current (settles a) (λ fs, view fs a None) a). specialize (Ht ltac:(intros fs Hf; split; [by apply (settles_view fs a None)|by destruct Hf]) s Hv).
  destruct (file_current s) as [[r|e] s']; [|by apply settles_facts].
  destruct Ht as [Hv' ->]. by destruct (view_idle _ _ Hv') as (? & ? & ?).
Qed.
Lemma file_stage_spec a d bytes :
  hoare (λ s, file_sound s ∧ file_idle s ∧ file_settled s = a) (file_stage hash root d bytes)
    (λ st s, file_sound s ∧ file_idle s ∧ file_settled s = a ∧ staged_descriptor st = d)
    (λ _ s, file_sound s ∧ file_settled s = a).
Proof.
  intros s (Hs & Hi & Ha). pose proof (triple_stage a d bytes s (idle_view _ _ Hs Hi Ha)) as Ht.
  destruct (file_stage hash root d bytes s) as [[st|e] s']; [|by apply settles_facts].
  destruct Ht as [Hv' E]. by destruct (view_idle _ _ Hv') as (? & ? & ?).
Qed.
Lemma file_activate_spec a st :
  descriptor_ok (staged_descriptor st) →
  hoare (λ s, file_sound s ∧ file_idle s ∧ file_settled s = a) (file_activate hash root st)
    (λ r s, file_sound s ∧ file_trying r s ∧ file_settled s = a ∧ activated r = staged_descriptor st ∧ previous r = a)
    (λ _ s, file_sound s ∧ file_settled s = a).
Proof.
  intros Hd s (Hs & Hi & Ha). pose proof (triple_activate a st Hd s (idle_view _ _ Hs Hi Ha)) as Ht.
  destruct (file_activate hash root st s) as [[r|e] s']; [|by apply settles_facts].
  destruct Ht as (-> & Hv' & Hu). destruct (view_facts _ _ _ Hv') as (H1 & H2 & H3 & H4).
  refine (conj H1 (conj (conj H3 (conj (or_intror H4) (proj2 Hu))) (conj _ (conj eq_refl eq_refl)))).
  rewrite H2. cbn. by rewrite bool_decide_eq_true_2.
Qed.
Lemma file_commit_spec r :
  hoare (λ s, file_sound s ∧ file_trying r s ∧ file_settled s = previous r) (file_commit r)
    (λ _ s, file_sound s ∧ file_idle s ∧ file_settled s = Some (activated r))
    (λ _ s, file_sound s ∧ file_trying r s ∧ (file_settled s = previous r ∨ file_settled s = Some (activated r))).
Proof.
  intros s (Hs & Ht & He). destruct (trying_view _ _ Hs Ht) as (p & Hp & Hv & Hu).
  pose proof (triple_commit p r Hp s (conj Hv Hu)) as Hc.
  destruct (file_commit r s) as [[[]|e] s']; [by apply view_idle|]. destruct Hc as [[Hv'|Hv'] Hu'];
    destruct (view_facts _ _ _ Hv') as (H1 & H2 & H3 & H4); (split; [exact H1|]).
  + split; [exact (conj H3 (conj (or_intror H4) Hu'))|]. left. rewrite H2. cbn. by rewrite bool_decide_eq_true_2.
  + split; [exact (conj H3 (conj (or_introl H4) Hu'))|]. right. by rewrite H2.
Qed.
Lemma file_rollback_spec r x :
  hoare (λ s, file_sound s ∧ file_trying r s ∧ file_settled s = x) (file_rollback r)
    (λ _ s, file_sound s ∧ file_idle s ∧ file_settled s = previous r)
    (λ _ s, file_sound s ∧ (file_settled s = previous r ∨ file_settled s = x)).
Proof.
  intros s (Hs & Ht & Hx). destruct (trying_view _ _ Hs Ht) as (p & Hp & Hv & Hu).
  pose proof (triple_rollback (activated r) p r eq_refl Hp s (conj Hv Hu)) as Hr.
  destruct (view_facts _ _ _ Hv) as (_ & Ex & _). rewrite Ex in Hx. rewrite Hx in Hr.
  destruct (file_rollback r s) as [[[]|e] s']; [by apply view_idle|].
  destruct Hr as [[H1 H2]%settles_facts|[H1 H2]%settles_facts]; (split; [done|]); [by left|by right].
Qed.

(** The file store implements the interface, whatever its accesses do. *)
#[export] Instance file_store_laws : @ArtifactStoreLaws store_disk semver (file_store hash root) :=
  @Build_ArtifactStoreLaws store_disk semver (file_store hash root) file_sound file_settled file_idle file_trying
    file_recover_spec file_current_spec file_stage_spec file_activate_spec file_commit_spec file_rollback_spec.
End Laws.

(** ** A process whose accesses all work *)

Section Calm.
Context {semver : Semver} {json : UpdateJson} (hash : list byte → list byte) (Hjson : json_ok).

Lemma calm_clear fs :
  (_ ← remove_if_exists PreviousPointer; remove_if_exists PendingActivation) (calm fs)
    = (Ok (), calm (delete PendingActivation (delete PreviousPointer fs))).
Proof. erewrite op_ok_bind by apply calm_remove. apply calm_remove. Qed.
Lemma calm_read_bounded fs f max :
  read_regular_file_bounded f max (calm fs)
    = (match fs !! f with
       | Some b => if max <? lenN b then Err (StoreFailed "regular file exceeds configured read limit") else Ok (Some b)
       | None => Ok None
       end, calm fs).
Proof.
  unfold read_regular_file_bounded. erewrite op_ok_bind by apply calm_read.
  destruct (fs !! f) as [b|]; [|done]. by destruct (max <? lenN b).
Qed.
Lemma calm_write_pointer fs f d :
  ∃ b, pointer_to_json (pointer_for d) = Ok b ∧
    write_pointer f d (calm fs) = (Ok (), calm (<[f := b]> fs)).
Proof.
  destruct Hjson as [Hw _]. unfold write_pointer. specialize (Hw d).
  destruct (pointer_to_json _) as [b|]; [|done]. exists b. split; [done|]. apply calm_replace.
Qed.
Lemma calm_current fs a : pointer_at hash fs a → file_current (calm fs) = (Ok a, calm fs).
Proof.
  intros Ha. destruct Hjson as (_ & J & _). unfold file_current, read_pointer.
  unfold mbind at 1, op_bind at 1. rewrite calm_read_bounded. destruct a as [d|]; cbn in Ha; [|by rewrite Ha].
  destruct Ha as ([Hd _] & b & -> & Hj). destruct (J _ _ Hd Hj) as [Hof Hl]. apply N.ltb_ge in Hl. rewrite Hl, Hof.
  destruct Hd as [_ Hd]. cbn. unfold mbind at 1, op_bind at 1. cbn. by rewrite Hd.
Qed.
Lemma calm_pending fs p : receipt_at hash fs p → read_pending_activation (calm fs) = (Ok p, calm fs).
Proof.
  intros Hp. destruct Hjson as (_ & _ & J). unfold read_pending_activation.
  unfold mbind at 1, op_bind at 1. rewrite calm_read_bounded. destruct p as [x|]; cbn in Hp; [|by rewrite Hp].
  destruct Hp as (Hr & b & -> & Hj). destruct (J _ _ (receipt_usable_ok _ _ _ Hr) Hj) as [Hof Hl].
  apply N.ltb_ge in Hl. rewrite Hl, Hof. destruct Hr as [[[_ Hd] _] Hu]. cbn. unfold mbind at 1, op_bind at 1. cbn. rewrite Hd. cbn.
  unfold mbind at 1, op_bind at 1. cbn. assert (check_previous (previous x) = Ok ()) as ->; [|done].
  destruct (previous x) as [d|]; [|done]. by destruct (Hu d eq_refl) as [[_ ?] _].
Qed.
Lemma calm_rollback fs c x :
  pointer_at hash fs (Some c) → build_id c = build_id (activated x) →
  ∃ fs', file_rollback x (calm fs) = (Ok (), calm fs').
Proof.
  intros Ha Hb. unfold file_rollback.
  assert (Hr : ∀ m e, require_active x m e (calm fs) = (Ok (), calm fs)).
  { intros m e. unfold require_active. erewrite op_ok_bind by by apply calm_current. cbn.
    by rewrite Hb, bool_decide_eq_true_2. }
  erewrite op_ok_bind by apply Hr.
  destruct (previous x) as [d|].
  - destruct (calm_write_pointer fs ActivePointer d) as (b & _ & Hw). erewrite op_ok_bind by exact Hw.
    eexists. apply calm_clear.
  - erewrite op_ok_bind by apply calm_remove. eexists. apply calm_clear.
Qed.
(** Recovery then succeeds. *)
Lemma calm_recover fs a p : view hash fs a p → ∃ fs', file_recover (calm fs) = (Ok (), calm fs').
Proof.
  intros [Ha Hp]. unfold file_recover. erewrite op_ok_bind by by apply calm_pending.
  destruct p as [x|]; [|eexists; apply calm_remove]. erewrite op_ok_bind by by apply calm_current.
  destruct a as [c|]; [|eexists; apply calm_clear]. case_bool_decide; [by eapply calm_rollback|].
  eexists. apply calm_clear.
Qed.
End Calm.
