(* ===== verification/UpdateCoordinator.v ===== *)
(** The update coordinator ([crates/appcore-update/src/coordinator.rs]):
    selection, verification, staging, activation, health check, commit and
    rollback of one update, over any store of the class [ArtifactStore].

    Provider, verifier, health check and injected faults are functions: one
    attempt asks each of them at most once per question. *)

From S2P Require Import Prelude.
From S2P Require Import Text.
From S2P Require Import HttpText.
From S2P Require Import Types.
From S2P Require Import Contracts.
From S2P Require Import Encoding.
From S2P Require Import Files.
From S2P Require Import Update.
From S2P Require Import UpdateStore.

Local Open Scope N_scope.

Inductive UpdateOutcome :=
| NoUpdate
| Applied (d : ArtifactDescriptor)
| RolledBack (attempted : ArtifactDescriptor) (reason : string).
Inductive UpdatePreparation := NothingToPrepare | AwaitingHealth (d : ArtifactDescriptor).
Inductive UpdateStaging := NothingToStage | StagedCandidate (st : StagedArtifact).

Definition Faults := UpdateFaultPoint → UpdateResult ().
Definition no_faults : Faults := λ _, Ok ().

Record UpdateCoordinator := {
  provider_latest : UpdateRequest → UpdateResult (option ArtifactDescriptor);
  provider_fetch : ArtifactDescriptor → N → UpdateResult (list byte);
  health_check : option (ArtifactDescriptor → UpdateResult ());
  authenticity : Verifier;
  max_artifact_bytes : N;
}.
Definition checked_bound (c : UpdateCoordinator) : UpdateResult UpdateCoordinator :=
  if max_artifact_bytes c =? 0 then Err (InvalidArtifact "max_artifact_bytes must be greater than zero") else Ok c.
Definition new_with_authenticity latest fetch health verifier max : UpdateResult UpdateCoordinator :=
  checked_bound {| provider_latest := latest; provider_fetch := fetch; health_check := Some health;
                   authenticity := verifier; max_artifact_bytes := max |}.
Definition new_for_preparation latest fetch verifier max : UpdateResult UpdateCoordinator :=
  checked_bound {| provider_latest := latest; provider_fetch := fetch; health_check := None;
                   authenticity := verifier; max_artifact_bytes := max |}.

Section Coordinator.
Context {semver : Semver} {S : Type} {store : ArtifactStore S} (hash : list byte → list byte).
Abbreviation attempt := (op S UpdateError).

Definition ensure_upgrade (q : UpdateRequest) (candidate : ArtifactDescriptor) : attempt () :=
  installed ← op_lift (map_err (λ e, Incompatible ("invalid installed application version: " +:+ e))
                (version_parse (current_version q)));
  v ← op_lift (map_err (λ e, InvalidArtifact ("invalid candidate application version: " +:+ e))
        (version_parse (application_version candidate)));
  if version_le v installed then
    op_fail (Incompatible ("candidate version " +:+ version_text v +:+ " does not advance installed version "
                           +:+ version_text installed))
  else
    active ← current;
    match active with
    | None => mret ()
    | Some a =>
      if negb (bool_decide (application_id a = application_id candidate)) then
        op_fail (Incompatible "active artifact application identity differs from the candidate")
      else if bool_decide (build_id a = build_id candidate) then
        op_fail (Incompatible "candidate reuses the active build identity")
      else
        active_version ← op_lift (map_err (λ e, StoreFailed ("active artifact version is invalid: " +:+ e))
                           (version_parse (application_version a)));
        if version_le v active_version then
          op_fail (Incompatible ("candidate version " +:+ version_text v +:+ " does not advance active version "
                                 +:+ version_text active_version))
        else mret ()
    end.

Definition select_candidate (c : UpdateCoordinator) (q : UpdateRequest) (runtime_version host_protocol : string) :
    attempt (option ArtifactDescriptor) :=
  latest ← op_lift (provider_latest c q);
  match latest with
  | None => mret None
  | Some candidate =>
    if negb (bool_decide (application_id candidate = request_application q)) then
      op_fail (Incompatible "artifact application identity differs from the request")
    else if negb (bool_decide (channel candidate = request_channel q)) then
      op_fail (Incompatible "artifact update channel differs from the request")
    else
      _ ← ensure_upgrade q candidate;
      _ ← op_lift (ensure_compatible candidate runtime_version host_protocol);
      mret (Some candidate)
  end.

Definition fetch_verified (c : UpdateCoordinator) (candidate : ArtifactDescriptor) : UpdateResult (list byte) :=
  if max_artifact_bytes c <? size_bytes candidate then Err (ArtifactTooLarge (max_artifact_bytes c))
  else
    bytes ← provider_fetch c candidate (max_artifact_bytes c);
    if (max_artifact_bytes c <? lenN bytes) || negb (lenN bytes =? size_bytes candidate) then
      Err (ArtifactTooLarge (max_artifact_bytes c))
    else if negb (bool_decide (sha256_hex hash bytes = sha256 candidate)) then Err ChecksumMismatch
    else _ ← authenticity c candidate; Ok bytes.

Definition rollback_after_failure (d : ArtifactDescriptor) (r : ActivationReceipt) (cause : UpdateError) :
    attempt UpdateOutcome := λ s,
  match rollback r s with
  | (Ok (), s) => (Ok (RolledBack d (update_error_text cause)), s)
  | (Err e, s) => (Err (RollbackFailed (update_error_text cause) (update_error_text e)), s)
  end.
Definition finish_activation (c : UpdateCoordinator) (faults : Faults) (d : ArtifactDescriptor) (r : ActivationReceipt) :
    attempt UpdateOutcome :=
  match health_check c with
  | None => op_fail (HealthFailed "activation health check is not configured")
  | Some health => λ s,
    match (_ ← op_lift (faults AfterActivation); _ ← op_lift (health d); _ ← op_lift (faults BeforeCommit); commit r) s with
    | (Ok (), s) => (Ok (Applied d), s)
    | (Err cause, s) => rollback_after_failure d r cause s
    end
  end.
Definition stage_and_activate (faults : Faults) (d : ArtifactDescriptor) (bytes : list byte) : attempt ActivationReceipt :=
  st ← stage d bytes;
  _ ← op_lift (faults AfterStaging);
  activate st.

Definition apply_with_faults (c : UpdateCoordinator) (q : UpdateRequest) (runtime_version host_protocol : string)
    (faults : Faults) : attempt UpdateOutcome :=
  _ ← recover;
  candidate ← select_candidate c q runtime_version host_protocol;
  match candidate with
  | None => mret NoUpdate
  | Some d =>
    _ ← op_lift (faults AfterSelection);
    bytes ← op_lift (fetch_verified c d);
    _ ← op_lift (faults AfterVerification);
    r ← stage_and_activate faults d bytes;
    finish_activation c faults d r
  end.
Definition apply_update (c : UpdateCoordinator) (q : UpdateRequest) (runtime_version host_protocol : string) :
    attempt UpdateOutcome := apply_with_faults c q runtime_version host_protocol no_faults.

Definition stage_candidate (c : UpdateCoordinator) (q : UpdateRequest) (runtime_version host_protocol : string) :
    attempt UpdateStaging :=
  _ ← recover;
  candidate ← select_candidate c q runtime_version host_protocol;
  match candidate with
  | None => mret NothingToStage
  | Some d =>
    bytes ← op_lift (fetch_verified c d);
    st ← stage d bytes;
    mret (StagedCandidate st)
  end.
Definition prepare (c : UpdateCoordinator) (q : UpdateRequest) (runtime_version host_protocol : string) :
    attempt UpdatePreparation :=
  staging ← stage_candidate c q runtime_version host_protocol;
  match staging with
  | NothingToStage => mret NothingToPrepare
  | StagedCandidate st => r ← activate st; mret (AwaitingHealth (activated r))
  end.
End Coordinator.

(** ** What an attempt does to the store *)

Section Attempts.
Context {semver : Semver} {S : Type} {store : ArtifactStore S} {laws : ArtifactStoreLaws S}.
Context (hash : list byte → list byte) (c : UpdateCoordinator) (q : UpdateRequest).
Context (runtime_version host_protocol : string).
(** What the provider offers has passed [validate], as what [FileUpdateProvider]
    offers has. *)
Context (Hvalid : ∀ d, provider_latest c q = Ok (Some d) → descriptor_ok d).

(** The artifact is newer than both the installed and the active version, fits
    the host, and its bytes have the declared size, checksum and publisher. *)
Definition upgrades (active : option ArtifactDescriptor) (d : ArtifactDescriptor) : Prop :=
  (∃ v i, version_parse (application_version d) = Ok v ∧ version_parse (current_version q) = Ok i ∧
          version_compare v i = Gt) ∧
  ∀ a, active = Some a → application_id a = application_id d ∧ build_id a ≠ build_id d ∧
    ∃ v u, version_parse (application_version d) = Ok v ∧ version_parse (application_version a) = Ok u ∧
           version_compare v u = Gt.
Definition chosen (active : option ArtifactDescriptor) (d : ArtifactDescriptor) : Prop :=
  provider_latest c q = Ok (Some d) ∧ application_id d = request_application q ∧ channel d = request_channel q ∧
  upgrades active d ∧ ensure_compatible d runtime_version host_protocol = Ok ().
Definition verified (d : ArtifactDescriptor) (bytes : list byte) : Prop :=
  provider_fetch c d (max_artifact_bytes c) = Ok bytes ∧ lenN bytes = size_bytes d ∧
  lenN bytes ≤ max_artifact_bytes c ∧ sha256_hex hash bytes = sha256 d ∧ authenticity c d = Ok ().
Definition healthy (d : ArtifactDescriptor) : Prop := ∃ h, health_check c = Some h ∧ h d = Ok ().
Definition approved (active : option ArtifactDescriptor) (d : ArtifactDescriptor) : Prop :=
  chosen active d ∧ (∃ bytes, verified d bytes) ∧ healthy d.

Definition at_rest (a : option ArtifactDescriptor) (s : S) : Prop := sound s ∧ idle s ∧ settled s = a.
Definition counts (a : option ArtifactDescriptor) (s : S) : Prop := sound s ∧ settled s = a.
Lemma at_rest_counts a s : at_rest a s → counts a s.
Proof. by intros (? & _ & ?). Qed.

Lemma version_le_false `{Semver} u v : version_le u v = false → version_compare u v = Gt.
Proof. unfold version_le. by destruct (version_compare u v). Qed.

Lemma version_ok {A} (r : result string A) (f : string → UpdateError) v : map_err f r = Ok v → r = Ok v.
Proof. by destruct r as [x|]; [intros [= ->]|]. Qed.

(** A triple whose precondition is pure in part. *)
Lemma hoare_and {A} (P : S → Prop) (φ : Prop) (o : op S UpdateError A) Q F :
  (φ → hoare P o Q F) → hoare (λ s, P s ∧ φ) o Q F.
Proof. intros H s [Hs Hφ]. by apply (H Hφ). Qed.
Lemma lift_rest {A} a (r : UpdateResult A) :
  hoare (at_rest a) (op_lift r) (λ x s, at_rest a s ∧ r = Ok x) (λ _, counts a).
Proof. apply hoare_lift. intros s Hs. destruct r; [done|by apply at_rest_counts]. Qed.
Lemma fail_rest {A} a e (Q : A → S → Prop) : hoare (at_rest a) (op_fail e) Q (λ _ : UpdateError, counts a).
Proof. apply hoare_fail. intros s Hs. by apply at_rest_counts. Qed.

Lemma ensure_upgrade_spec a d :
  hoare (at_rest a) (ensure_upgrade q d) (λ _ s, at_rest a s ∧ upgrades a d) (λ _, counts a).
Proof.
  unfold ensure_upgrade.
  eapply hoare_bind; [apply lift_rest|]. intros i. apply hoare_and. intros Hi%version_ok.
  eapply hoare_bind; [apply lift_rest|]. intros v. apply hoare_and. intros Hv%version_ok.
  destruct (version_le v i) eqn:Hle; [apply fail_rest|]. apply version_le_false in Hle.
  eapply (hoare_bind _ _ _ (λ r s, at_rest a s ∧ r = a)).
  { eapply hoare_weaken; [apply (current_spec a)|done| |done]. intros r s (? & ? & ? & ?). done. }
  intros x. apply hoare_and. intros ->.
  assert (H1 : ∃ v i, version_parse (application_version d) = Ok v ∧ version_parse (current_version q) = Ok i ∧
    version_compare v i = Gt) by eauto.
  destruct a as [x|].
  - case_bool_decide as Ha; [|apply fail_rest]. cbn. case_bool_decide as Hb; [apply fail_rest|].
    eapply hoare_bind; [apply lift_rest|]. intros u. apply hoare_and. intros Hu%version_ok.
    destruct (version_le v u) eqn:Hlu; [apply fail_rest|]. apply version_le_false in Hlu.
    apply hoare_ret. intros s Hs. split; [done|]. split; [done|]. intros y [= <-]. eauto 10.
  - apply hoare_ret. intros s Hs. split; [done|]. by split.
Qed.
Lemma select_spec a :
  hoare (at_rest a) (select_candidate c q runtime_version host_protocol)
    (λ r s, at_rest a s ∧ match r with None => provider_latest c q = Ok None | Some d => chosen a d end)
    (λ _, counts a).
Proof.
  unfold select_candidate. eapply hoare_bind; [apply lift_rest|]. intros [d|]; apply hoare_and; intros Hl.
  - case_bool_decide as Ha; [|apply fail_rest]. cbn. case_bool_decide as Hc; [|apply fail_rest]. cbn.
    eapply hoare_bind; [apply ensure_upgrade_spec|]. intros []. apply hoare_and. intros Hu.
    eapply hoare_bind; [apply lift_rest|]. intros []. apply hoare_and. intros Hk.
    apply hoare_ret. intros s Hs. done.
  - apply hoare_ret. intros s Hs. done.
Qed.
Lemma fetch_verified_spec d bytes : fetch_verified hash c d = Ok bytes → verified d bytes.
Proof.
  unfold fetch_verified, verified. destruct (_ <? _) eqn:H1; [done|]. destruct (provider_fetch c d _) as [b|]; [|done]. cbn.
  destruct (_ || _) eqn:H2; [done|]. case_bool_decide as H3; [|done]. cbn.
  destruct (authenticity c d) as [[]|]; [|done]. intros [= ->].
  apply orb_false_iff in H2 as [H2 H4]. apply negb_false_iff, N.eqb_eq in H4. apply N.ltb_ge in H2. done.
Qed.

(** The store after an attempt. *)
Definition outcome_of (a : option ArtifactDescriptor) (o : UpdateOutcome) (s : S) : Prop :=
  match o with
  | NoUpdate => provider_latest c q = Ok None ∧ at_rest a s
  | Applied d => approved a d ∧ at_rest (Some d) s
  | RolledBack d _ => chosen a d ∧ at_rest a s
  end.
Definition failed_attempt (a : option ArtifactDescriptor) (s : S) : Prop :=
  sound s ∧ (settled s = a ∨ ∃ d, approved a d ∧ settled s = Some d).
Lemma counts_failed a s : counts a s → failed_attempt a s.
Proof. intros [Hs Ha]. split; [done|by left]. Qed.

Lemma rollback_after_spec a d r cause x :
  previous r = a → chosen a d → (x = a ∨ approved a d ∧ x = Some d) →
  hoare (λ s, sound s ∧ trying r s ∧ settled s = x) (rollback_after_failure d r cause)
    (outcome_of a) (λ _, failed_attempt a).
Proof.
  intros Hp Hc Hx s Hs. unfold rollback_after_failure. pose proof (rollback_spec r x s Hs) as Hr.
  destruct (rollback r s) as [[[]|e] s'].
  - destruct Hr as (H1 & H2 & H3). split; [done|]. by rewrite Hp in H3.
  - destruct Hr as [H1 [H2|H2]]; (split; [done|]); [left; congruence|].
    destruct Hx as [->|[Hx ->]]; [by left|right; by exists d].
Qed.
Lemma finish_spec a faults d r :
  activated r = d → previous r = a → chosen a d → (∃ bytes, verified d bytes) →
  hoare (λ s, sound s ∧ trying r s ∧ settled s = a) (finish_activation c faults d r)
    (outcome_of a) (λ _, failed_attempt a).
Proof.
  intros Hd Hp Hc Hv. unfold finish_activation. destruct (health_check c) as [h|] eqn:Hh.
  2: { apply hoare_fail. intros s (H1 & _ & H2). by apply counts_failed. }
  intros s Hs.
  assert (Hback : ∀ cause x s', (x = a ∨ approved a d ∧ x = Some d) → sound s' → trying r s' → settled s' = x →
    match rollback_after_failure d r cause s' with
    | (Ok o, s'') => outcome_of a o s'' | (Err _, s'') => failed_attempt a s'' end).
  { intros cause x s' Hx H1 H2 H3. by apply (rollback_after_spec a d r cause x). }
  destruct Hs as (H1 & H2 & H3).
  destruct (faults AfterActivation) as [[]|e]; [|by eapply (Hback e a); [left| | |]].
  destruct (h d) as [[]|e] eqn:Hhd; [|by eapply (Hback e a); [left| | |]].
  destruct (faults BeforeCommit) as [[]|e]; [|by eapply (Hback e a); [left| | |]].
  cbn. assert (Happ : approved a d) by (split_and!; [done|done|by exists h]).
  pose proof (commit_spec r s (conj H1 (conj H2 (eq_trans H3 (eq_sym Hp))))) as Hcm.
  unfold mbind, op_bind. cbn. destruct (commit r s) as [[[]|e] s'].
  - destruct Hcm as (? & ? & ?). split; [done|]. split_and!; [done|done|congruence].
  - destruct Hcm as (Hs1 & Ht1 & [He|He]); [eapply (Hback e a)|eapply (Hback e (Some d))]; try done;
      [by left|congruence|by right|congruence].
Qed.

Lemma attempt_spec a faults :
  hoare (counts a) (apply_with_faults hash c q runtime_version host_protocol faults)
    (outcome_of a) (λ _, failed_attempt a).
Proof.
  unfold apply_with_faults.
  eapply (hoare_bind _ _ _ (λ _, at_rest a)).
  { eapply hoare_weaken; [apply (recover_spec a)|done|done|]. intros e s Hs. by apply counts_failed. }
  intros []. eapply hoare_bind; [eapply hoare_weaken; [apply (select_spec a)|done..|]; intros e s; apply counts_failed|].
  assert (HL : ∀ A (r : UpdateResult A), hoare (at_rest a) (op_lift r) (λ x s, at_rest a s ∧ r = Ok x) (λ _, failed_attempt a)).
  { intros A r. eapply hoare_weaken; [apply (lift_rest a)|done..|]. intros e s. apply counts_failed. }
  intros [d|]; apply hoare_and; intros Hc; [|by apply hoare_ret; intros s Hs].
  eapply hoare_bind; [apply HL|intros []]. apply hoare_and. intros _.
  eapply hoare_bind; [apply HL|intros bytes]. apply hoare_and. intros Hv%fetch_verified_spec.
  eapply hoare_bind; [apply HL|intros []]. apply hoare_and. intros _.
  eapply (hoare_bind _ _ _ (λ r s, (sound s ∧ trying r s ∧ settled s = a) ∧ activated r = d ∧ previous r = a)).
  - unfold stage_and_activate. eapply (hoare_bind _ _ _ (λ st s, at_rest a s ∧ staged_descriptor st = d)).
    { eapply hoare_weaken; [apply (stage_spec a)|done| |]; [by intros st s (? & ? & ? & ?)|].
      intros e s. apply counts_failed. }
    intros st. apply hoare_and. intros Hst. eapply hoare_bind; [apply HL|intros []]. apply hoare_and. intros _.
    eapply hoare_weaken; [apply (activate_spec a)|done| |].
    + rewrite Hst. by apply Hvalid, Hc.
    + intros r s (? & ? & ? & ? & ?). rewrite <- Hst. done.
    + intros e s. apply counts_failed.
  - intros r. apply hoare_and. intros [Hd Hp]. apply finish_spec; [done|done|done|by exists bytes].
Qed.
End Attempts.

(** ** Updates on files *)

Section Files.
Context {semver : Semver} {json : UpdateJson} (hash : list byte → list byte) (root : string) (Hjson : json_ok).
Context (c : UpdateCoordinator) (q : UpdateRequest) (runtime_version host_protocol : string).
#[local] Instance store : ArtifactStore store_disk := file_store hash root.
#[local] Instance laws : ArtifactStoreLaws store_disk := file_store_laws hash root Hjson.

Definition attempt_on (faults : Faults) (accesses : list access) (d : store_disk) : result UpdateError UpdateOutcome * store_disk :=
  apply_with_faults hash c q runtime_version host_protocol faults (restart accesses d).

(** A recovery on working accesses leaves the settled artifact active. *)
Lemma recovered d a :
  file_sound hash d → file_settled d = a →
  ∃ d', file_recover (restart [] d) = (Ok (), d') ∧ file_current d' = (Ok a, d') ∧
    ∀ n, a = Some n → intact hash (files d') n.
Proof.
  intros (a' & p & Hv) Ha. destruct (view_facts hash Hjson _ _ _ Hv) as (_ & Es & _). rewrite Es in Ha.
  change (restart [] d) with (calm (files d)).
  destruct (calm_recover hash Hjson (files d) a' p Hv) as [fs' Hr]. exists (calm fs').
  pose proof (triple_recover hash Hjson a' p (calm (files d)) Hv) as Ht. rewrite Hr in Ht.
  unfold on in Ht. cbn [files calm] in Ht. rewrite Ha in Ht. destruct Ht as [Hp _].
  split; [exact Hr|]. split; [by apply (calm_current hash Hjson)|].
  intros n ->. cbn in Hp. by destruct Hp as [[_ Hi] _].
Qed.

(** C8: An update leaves either the artifact that was active before, or one that
    was chosen for the host, whose bytes, checksum and publisher were verified
    and that passed its health check: the new one if it reports it as applied,
    the old one if it reports no update or a rollback. Whatever fails during the
    attempt and wherever the process dies, the next recovery on working files
    leaves that artifact active with its bytes intact. *)
Theorem interrupted_update_is_undone d accesses faults :
  file_sound hash d → (∀ n, provider_latest c q = Ok (Some n) → descriptor_ok n) →
  let before := file_settled d in
  let attempted := attempt_on faults accesses d in
  ∃ after x, file_recover (restart [] attempted.2) = (Ok (), after) ∧ file_current after = (Ok x, after) ∧
    (∀ n, x = Some n → intact hash (files after) n) ∧
    match attempted.1 with
    | Ok (Applied n) => x = Some n ∧ approved hash c q runtime_version host_protocol before n
    | Ok NoUpdate | Ok (RolledBack _ _) => x = before
    | Err _ => x = before ∨ ∃ n, x = Some n ∧ approved hash c q runtime_version host_protocol before n
    end.
Proof.
  intros Hs Hvalid before attempted.
  assert (Hstart : counts before (restart accesses d)) by (split; [exact Hs|reflexivity]).
  pose proof (attempt_spec hash c q runtime_version host_protocol Hvalid before faults _ Hstart) as Ha.
  change (match attempted with (Ok o, s') => outcome_of hash c q runtime_version host_protocol before o s'
          | (Err _, s') => failed_attempt hash c q runtime_version host_protocol before s' end) in Ha.
  destruct attempted as [r s']. cbn [fst snd].
  assert (Hsound : file_sound hash s').
  { destruct r as [[]|]; [by destruct Ha as [_ [? _]]..|by destruct Ha]. }
  destruct (recovered s' (file_settled s') Hsound eq_refl) as (after & H1 & H2 & H3).
  exists after, (file_settled s'). refine (conj H1 (conj H2 (conj H3 _))). destruct r as [[|n|n e]|e].
  - by destruct Ha as [_ (_ & _ & ?)].
  - destruct Ha as [Ha (_ & _ & He)]. done.
  - by destruct Ha as [_ (_ & _ & ?)].
  - destruct Ha as [_ [He|(n & Hn & He)]]; [by left|right]. by exists n.
Qed.

(** Staging a candidate first recovers the store: an update that was prepared
    and still awaits its health check is taken back, so what is active changes. *)
Theorem staging_drops_unconfirmed_update r d :
  file_sound hash d → file_trying hash r d → pending_of (files d) = Some r →
  (∀ n, provider_latest c q = Ok (Some n) → descriptor_ok n) →
  match stage_candidate hash c q runtime_version host_protocol d with
  | (Ok _, d') => active_of (files d) = Some (activated r) ∧ file_settled d' = previous r ∧ file_idle d'
  | (Err _, _) => True
  end.
Proof.
  intros Hs Ht Hp Hvalid. destruct Ht as (Ha & _ & _).
  assert (E : file_settled d = previous r).
  { unfold file_settled. rewrite Ha, Hp. cbn. by rewrite bool_decide_eq_true_2. }
  assert (Hspec : hoare (counts (previous r)) (stage_candidate hash c q runtime_version host_protocol)
    (λ _, at_rest (previous r)) (λ _, counts (previous r))).
  { unfold stage_candidate. eapply hoare_bind; [apply (recover_spec (previous r))|]. intros [].
    eapply hoare_bind; [apply select_spec|]. intros [n|]; apply hoare_and; intros Hn; [|by apply hoare_ret].
    eapply hoare_bind; [apply lift_rest|]. intros bytes. apply hoare_and. intros _.
    eapply hoare_bind; [apply (stage_spec (previous r))|]. intros st. apply hoare_ret. by intros s (? & ? & ? & _). }
  specialize (Hspec d (conj Hs E)). destruct (stage_candidate _ _ _ _ _ d) as [[st|e] d']; [|done].
  destruct Hspec as (_ & ? & ?). done.
Qed.
End Files.

(** ** Witnesses *)

Module UpdateDemo.
#[local] Existing Instance Demo.semver.

(** The records as lines: the fields of a descriptor contain no line ends. *)
Definition optional (o : option string) : string := match o with Some s => String "+" s | None => EmptyString end.
Definition of_optional (s : string) : option string := match s with String _ s' => Some s' | EmptyString => None end.
Definition fields (d : ArtifactDescriptor) : list string :=
  [application_id d; application_version d; build_id d; channel d; runtime_requirement d; protocol_version d;
   artifact_reference d; sha256 d; show_u64 (size_bytes d); optional (signing_key_id d);
   optional (ed25519_signature d)].
Definition of_fields (l : list string) : option (ArtifactDescriptor * list string) :=
  match l with
  | a :: v :: b :: c :: r :: p :: f :: s :: n :: k :: e :: rest =>
    size ← parse_u64 n;
    Some ({| application_id := a; application_version := v; build_id := b; channel := c; runtime_requirement := r;
             protocol_version := p; artifact_reference := f; sha256 := s; size_bytes := size;
             signing_key_id := of_optional k; ed25519_signature := of_optional e |}, rest)
  | _ => None
  end.
Fixpoint text (l : list string) : string :=
  match l with [] => EmptyString | s :: l' => s +:+ String LF (text l') end.
Definition of_text (b : list byte) : list string := lines (String.string_of_list_byte b).
#[export] Instance json : UpdateJson := {|
  pointer_to_json p := Ok (str_bytes (text (fields (pointer_descriptor p))));
  pointer_of_json b := match of_fields (of_text b) with Some (d, []) => Ok (pointer_for d) | _ => Err "invalid"%string end;
  record_to_json r :=
    Ok (str_bytes (text (fields (activated (record_receipt r)) ++
                         match previous (record_receipt r) with Some d => fields d | None => [] end)));
  record_of_json b :=
    match of_fields (of_text b) with
    | Some (d, []) => Ok (record_for {| activated := d; previous := None |})
    | Some (d, rest) =>
      match of_fields rest with
      | Some (p, []) => Ok (record_for {| activated := d; previous := Some p |})
      | _ => Err "invalid"%string
      end
    | None => Err "invalid"%string
    end;
|}.

(** A line of a record. *)
Definition line_ok (s : string) : Prop := str_free LF s ∧ str_free CR s ∧ str_len s ≤ 2048.
Lemma lines_text l : Forall line_ok l → lines (text l) = l.
Proof.
  induction 1 as [|s l (H1 & H2 & _) Hl IH]; [done|]. cbn [text]. by rewrite lines_cons, IH.
Qed.
Lemma text_length l : Forall line_ok l → str_len (text l) ≤ lenN l * 2049.
Proof.
  induction 1 as [|s l (_ & _ & H1) Hl IH]; [done|]. cbn [text]. unfold str_len in *.
  rewrite string_length_app. cbn [String.length length]. lia.
Qed.
Lemma of_text_text l : Forall line_ok l → of_text (str_bytes (text l)) = l.
Proof. intros Hl. unfold of_text, str_bytes. by rewrite String.string_of_list_byte_of_string, lines_text. Qed.

Lemma bad_text_line_ok v m : bad_text v m = false → m ≤ 2048 → line_ok v.
Proof.
  unfold bad_text. rewrite !orb_false_iff. intros [[_ Hl] Hc] Hm. apply N.ltb_ge in Hl.
  split_and!; [by apply any_control_free..|lia].
Qed.
Lemma identifier_line_ok field v : validate_contract_identifier field v = Ok () → line_ok v.
Proof.
  unfold validate_contract_identifier, validate_text. destruct (reject _ (Empty _)); [|done]. cbn.
  destruct (reject _ (TooLong _ _)) as [[]|] eqn:E1; [|done]. cbn.
  destruct (reject _ (InvalidValue _ _)) as [[]|] eqn:E2; [|done]. intros _.
  apply reject_ok, N.ltb_ge in E1. apply reject_ok in E2. split_and!; [by apply any_control_free..|lia].
Qed.
Lemma hex_line_ok s n : (str_len s =? n) = true → str_all lower_hex_byte s = true → n ≤ 2048 → line_ok s.
Proof.
  intros Hn%N.eqb_eq Hs Hl. assert (Hf : ∀ c, lower_hex_byte c = false → str_free c s).
  { intros c Hc. clear Hn. induction s as [|x s IH]; [done|]. cbn [str_all] in Hs. apply andb_true_iff in Hs as [Hx Hs].
    split; [|by apply IH]. intros ->. congruence. }
  split_and!; [by apply Hf..|lia].
Qed.
Lemma number_line_ok n : n ≤ u64_max → line_ok (show_u64 n).
Proof.
  intros Hn. pose proof (show_u64_length n Hn). unfold line_ok, str_len.
  split_and!; [apply str_digits_free; [apply show_u64_digits|by left]..|lia].
Qed.
Lemma optional_line_ok o : (∀ s, o = Some s → line_ok s ∧ str_len s ≤ 128) → line_ok (optional o).
Proof.
  intros H. destruct o as [s|]; [|split_and!; [done..|vm_compute; discriminate]]. destruct (H s eq_refl) as [(H1 & H2 & _) H3].
  split_and!; [by split..|]. unfold str_len in *. cbn [optional String.length]. lia.
Qed.

Lemma fields_ok d : descriptor_ok d → Forall line_ok (fields d).
Proof.
  intros [(Ha & Hb & Hn) Hv]. unfold artifact_validate in Hv.
  destruct (check_text "application_version" _ _) as [[]|] eqn:E1; [|done]. cbn in Hv.
  destruct (check_text "channel" _ _) as [[]|] eqn:E2; [|done]. cbn in Hv.
  destruct (check_text "runtime_requirement" _ _) as [[]|] eqn:E3; [|done]. cbn in Hv.
  destruct (check_text "protocol_version" _ _) as [[]|] eqn:E4; [|done]. cbn in Hv.
  destruct (check_text "artifact_reference" _ _) as [[]|] eqn:E5; [|done]. cbn in Hv.
  destruct (Demo.number (application_version d)); [|done]. destruct (Demo.number (runtime_requirement d)); [|done]. cbn in Hv.
  destruct (size_bytes d =? 0); [done|]. destruct (_ || _) eqn:Hx; [done|].
  apply orb_false_iff in Hx as [Hl Hx]. rewrite negb_false_iff in Hl, Hx.
  assert (Hsig : (∀ s, signing_key_id d = Some s → line_ok s ∧ str_len s ≤ 128) ∧
    ∀ s, ed25519_signature d = Some s → line_ok s ∧ str_len s ≤ 128).
  { unfold validate_signature in Hv. destruct (signing_key_id d) as [k|], (ed25519_signature d) as [e|]; try done.
    destruct (bad_text k 128) eqn:Hk; [done|]. destruct (_ || _) eqn:He; [done|].
    apply orb_false_iff in He as [He1 He2]. rewrite negb_false_iff in He1, He2. split; intros s [= <-].
    - split; [by apply (bad_text_line_ok _ 128)|]. unfold bad_text in Hk. rewrite !orb_false_iff in Hk.
      destruct Hk as [[_ Hk] _]. by apply N.ltb_ge in Hk.
    - split; [by apply (hex_line_ok _ 128)|]. apply N.eqb_eq in He1. lia. }
  unfold fields. repeat apply Forall_cons_2; try apply Forall_nil_2.
  all: try (eapply identifier_line_ok; eassumption).
  all: try (eapply bad_text_line_ok; [eapply check_text_ok; eassumption|lia]).
  - by apply (hex_line_ok _ 64).
  - by apply number_line_ok.
  - by apply optional_line_ok, Hsig.
  - by apply optional_line_ok, Hsig.
Qed.
Lemma of_fields_fields d rest : size_bytes d ≤ u64_max → of_fields (fields d ++ rest) = Some (d, rest).
Proof.
  intros Hn. destruct d as [a v b c r p f s n k e]. cbn in *. rewrite parse_show_u64 by done. cbn.
  destruct k as [k|], e as [e|]; done.
Qed.
Lemma text_short l : Forall line_ok l → lenN l ≤ 22 → lenN (str_bytes (text l)) ≤ METADATA_LIMIT.
Proof. intros Hl Hn. rewrite length_str_bytes. pose proof (text_length l Hl). unfold METADATA_LIMIT. lia. Qed.
Lemma json_is_ok : @json_ok Demo.semver json.
Proof.
  split; [done|]. split.
  - intros d b Hd E. assert (b = str_bytes (text (fields d))) as -> by (injection E; done). clear E.
    pose proof (fields_ok d Hd) as Hf. split; [|by apply text_short].
    cbn [pointer_of_json json]. rewrite of_text_text by done. destruct Hd as [(_ & _ & Hn) _].
    pose proof (of_fields_fields d [] Hn) as E. rewrite app_nil_r in E. by rewrite E.
  - intros [d prev] b [Hd Hp] E. set (rest := match prev with Some x => fields x | None => [] end).
    assert (b = str_bytes (text (fields d ++ rest))) as -> by (injection E; done). clear E.
    cbn [activated previous] in *. pose proof (fields_ok d Hd) as Hf.
    assert (Hl : Forall line_ok (fields d ++ rest)).
    { apply Forall_app_2; [done|]. unfold rest. destruct prev as [x|]; [by apply fields_ok, Hp|apply Forall_nil_2]. }
    split; [|apply text_short; [done|unfold rest; by destruct prev]].
    cbn [record_of_json json]. rewrite of_text_text by done. destruct Hd as [(_ & _ & Hn) _].
    rewrite of_fields_fields by done. unfold rest. destruct prev as [x|]; [|done].
    destruct (Hp x eq_refl) as [(_ & _ & Hx) _]. pose proof (of_fields_fields x [] Hx) as E.
    rewrite app_nil_r in E. rewrite E. by destruct (fields x) eqn:Ex.
Qed.

(** Version 1 is installed and committed, version 2 is offered. *)
Definition root : string := "/srv/app".
Definition install (n : ArtifactDescriptor) : op store_disk UpdateError () :=
  st ← file_stage Demo.hash root n [x01]; r ← file_activate Demo.hash root st; file_commit r.
Definition v1 : ArtifactDescriptor := Demo.artifact "1" "build-1".
Definition v2 : ArtifactDescriptor := Demo.artifact "2" "build-2".
Definition installed : store_disk := (install v1 disk_new).2.
Definition coordinator : UpdateCoordinator :=
  {| provider_latest _ := Ok (Some v2); provider_fetch _ _ := Ok [x01]; health_check := Some (λ _, Ok ());
     authenticity _ := Ok (); max_artifact_bytes := 1024 |}.
Definition request : UpdateRequest :=
  {| request_application := "app"; current_version := "1"; request_channel := "stable" |}.
Lemma v2_ok : descriptor_ok v2.
Proof. apply Demo.artifact_ok; vm_compute; reflexivity. Qed.
Lemma installed_sound : file_sound Demo.hash installed ∧ file_settled installed = Some v1.
Proof.
  assert (Hok : descriptor_ok v1) by (apply Demo.artifact_ok; vm_compute; reflexivity).
  assert (Hs : file_sound Demo.hash disk_new) by (exists None, None; split; reflexivity).
  split; [|vm_compute; reflexivity].
  pose proof (file_stage_spec Demo.hash root json_is_ok None v1 [x01] disk_new (conj Hs (conj eq_refl eq_refl))) as H1.
  unfold installed, install, mbind, op_bind.
  destruct (file_stage Demo.hash root v1 [x01] disk_new) as [[st|e] d1] eqn:E1; [|exact (proj1 H1)].
  destruct H1 as (A1 & A2 & A3 & A4). rewrite <- A4 in Hok.
  pose proof (file_activate_spec Demo.hash root json_is_ok None st Hok d1 (conj A1 (conj A2 A3))) as H2.
  destruct (file_activate Demo.hash root st d1) as [[r|e] d2] eqn:E2; [|exact (proj1 H2)].
  destruct H2 as (B1 & B2 & B3 & B4 & B5).
  pose proof (file_commit_spec Demo.hash json_is_ok r d2 (conj B1 (conj B2 (eq_trans B3 (eq_sym B5))))) as H3.
  destruct (file_commit r d2) as [[[]|e] d3]; exact (proj1 H3).
Qed.
(** Nothing fails: the update is applied. *)
Example update_applies : (attempt_on Demo.hash root coordinator request "1" "1" no_faults [] installed).1 = Ok (Applied v2).
Proof. vm_compute. reflexivity. Qed.
End UpdateDemo.
#[local] Existing Instances Demo.semver UpdateDemo.json.

(** The process dies after it wrote the active pointer. *)
Lemma interrupted_update_is_undone_witness :
  let attempted := attempt_on Demo.hash UpdateDemo.root UpdateDemo.coordinator UpdateDemo.request "1" "1" no_faults
    (replicate 41 Works ++ [DiesLate]) UpdateDemo.installed in
  (∃ e, attempted.1 = Err e) ∧ active_of (files attempted.2) = Some UpdateDemo.v2 ∧
  ∃ after x, file_recover (restart [] attempted.2) = (Ok (), after) ∧ file_current after = (Ok x, after) ∧
    (∀ n, x = Some n → intact Demo.hash (files after) n) ∧
    match attempted.1 with
    | Ok (Applied n) => x = Some n ∧ approved Demo.hash UpdateDemo.coordinator UpdateDemo.request "1" "1" (file_settled UpdateDemo.installed) n
    | Ok NoUpdate | Ok (RolledBack _ _) => x = file_settled UpdateDemo.installed
    | Err _ => x = file_settled UpdateDemo.installed ∨
        ∃ n, x = Some n ∧ approved Demo.hash UpdateDemo.coordinator UpdateDemo.request "1" "1" (file_settled UpdateDemo.installed) n
    end.
Proof.
  assert (Hvalid : ∀ n, provider_latest UpdateDemo.coordinator UpdateDemo.request = Ok (Some n) → descriptor_ok n).
  { intros n E. injection E as <-. exact UpdateDemo.v2_ok. }
  split; [eexists; vm_compute; reflexivity|]. split; [vm_compute; reflexivity|].
  exact (interrupted_update_is_undone Demo.hash UpdateDemo.root UpdateDemo.json_is_ok UpdateDemo.coordinator UpdateDemo.request "1" "1"
    UpdateDemo.installed (replicate 41 Works ++ [DiesLate]) no_faults (proj1 UpdateDemo.installed_sound) Hvalid).
Defined.
