(* ===== verification/Keyring.v ===== *)
(** Secrets of the security crate ([crates/appcore-security/src]): the text
    format of secret material ([secret.rs]) and the durable keyring that rotates
    and revokes keys ([secret_keyring.rs], [secret_keyring_fs.rs]).

    The keyring's files are those of Files.v; its lock is held during a whole
    operation, so an operation is one function of the files. *)

From S2P Require Import Prelude.
From S2P Require Import Text.
From S2P Require Import Types.
From S2P Require Import Contracts.
From S2P Require Import Encoding.
From S2P Require Import Files.

Local Open Scope N_scope.

(** ** [secret.rs] *)

Inductive SecuritySecretStatus := Active | Deprecated | Revoked.
#[export] Instance SecuritySecretStatus_eq_dec : EqDecision SecuritySecretStatus.
Proof. solve_decision. Defined.
Record SecuritySecretMetadata := {
  key_id : string; created_at_ms : N; expires_at_ms : option N; key_status : SecuritySecretStatus;
}.
Record SecuritySecretMaterial := { secret : list byte; metadata : SecuritySecretMetadata }.
#[export] Instance SecuritySecretMetadata_eq_dec : EqDecision SecuritySecretMetadata.
Proof. solve_decision. Defined.
#[export] Instance SecuritySecretMaterial_eq_dec : EqDecision SecuritySecretMaterial.
Proof. solve_decision. Defined.

Inductive SecretFormatError := InvalidFormat (reason : string) | InvalidSecret | RandomUnavailable.

Definition status_label (s : SecuritySecretStatus) : string :=
  match s with Active => "active" | Deprecated => "deprecated" | Revoked => "revoked" end.
Definition is_expired (m : SecuritySecretMaterial) (now_ms : N) : bool :=
  match expires_at_ms (metadata m) with Some e => e <=? now_ms | None => false end.

Definition line (name value : string) : string := name +:+ "=" +:+ value +:+ String LF EmptyString.
Definition format_secret_material (m : SecuritySecretMaterial) : string :=
  let d := metadata m in
  line "key_id" (key_id d)
  +:+ line "created_at_ms" (show_u64 (created_at_ms d))
  +:+ line "expires_at_ms" (match expires_at_ms d with Some e => show_u64 e | None => "none" end)
  +:+ line "status" (status_label (key_status d))
  +:+ line "secret" (hex_encode (secret m)).

(** The fields seen so far. *)
Record parsed := {
  p_key_id : option string; p_created : option N; p_expires : option (option N);
  p_status : option SecuritySecretStatus; p_secret : option (list byte);
}.
Definition nothing_parsed : parsed :=
  {| p_key_id := None; p_created := None; p_expires := None; p_status := None; p_secret := None |}.

Definition looks_like_hex (v : string) : bool :=
  negb (bool_decide (v = EmptyString)) && (str_len v mod 2 =? 0) && str_all hex_char v.
Definition parse_secret_value (v : string) : result SecretFormatError (list byte) :=
  if str_prefix "hex:" v then ok_or InvalidSecret (hex_decode (str_drop 4 v))
  else if looks_like_hex v then Ok (default (str_bytes v) (hex_decode v))
  else Ok (str_bytes v).
Definition parse_status (v : string) : result SecretFormatError SecuritySecretStatus :=
  if bool_decide (v = "active"%string) then Ok Active
  else if bool_decide (v = "deprecated"%string) then Ok Deprecated
  else if bool_decide (v = "revoked"%string) then Ok Revoked
  else Err (InvalidFormat "invalid status").
Definition parse_field (k v : string) (p : parsed) : result SecretFormatError parsed :=
  if bool_decide (k = "key_id"%string) then
    Ok {| p_key_id := Some v; p_created := p_created p; p_expires := p_expires p; p_status := p_status p;
          p_secret := p_secret p |}
  else if bool_decide (k = "created_at_ms"%string) then
    n ← ok_or (InvalidFormat "invalid created_at_ms") (parse_u64 v);
    Ok {| p_key_id := p_key_id p; p_created := Some n; p_expires := p_expires p; p_status := p_status p;
          p_secret := p_secret p |}
  else if bool_decide (k = "expires_at_ms"%string) then
    e ← (if bool_decide (v = "none"%string) then Ok None
         else n ← ok_or (InvalidFormat "invalid expires_at_ms") (parse_u64 v); Ok (Some n));
    Ok {| p_key_id := p_key_id p; p_created := p_created p; p_expires := Some e; p_status := p_status p;
          p_secret := p_secret p |}
  else if bool_decide (k = "status"%string) then
    s ← parse_status v;
    Ok {| p_key_id := p_key_id p; p_created := p_created p; p_expires := p_expires p; p_status := Some s;
          p_secret := p_secret p |}
  else if bool_decide (k = "secret"%string) then
    b ← parse_secret_value v;
    Ok {| p_key_id := p_key_id p; p_created := p_created p; p_expires := p_expires p; p_status := p_status p;
          p_secret := Some b |}
  else Ok p.
Definition parse_line (l : string) (p : parsed) : result SecretFormatError parsed :=
  let l := trim l in
  if bool_decide (l = EmptyString) || str_prefix "#" l then Ok p
  else
    match split_once "=" l with
    | None => Ok p
    | Some (k, v) => parse_field (trim k) (trim v) p
    end.
Fixpoint parse_lines (ls : list string) (p : parsed) : result SecretFormatError parsed :=
  match ls with
  | [] => Ok p
  | l :: ls' => p' ← parse_line l p; parse_lines ls' p'
  end.
Definition parse_structured_secret (text : string) : result SecretFormatError SecuritySecretMaterial :=
  p ← parse_lines (lines text) nothing_parsed;
  id ← ok_or (InvalidFormat "missing key_id") (p_key_id p);
  created ← ok_or (InvalidFormat "missing created_at_ms") (p_created p);
  let expires := default None (p_expires p) in
  s ← ok_or (InvalidFormat "missing status") (p_status p);
  b ← ok_or (InvalidFormat "missing secret") (p_secret p);
  if lenN b <? 16 then Err InvalidSecret
  else Ok {| secret := b; metadata := {| key_id := id; created_at_ms := created; expires_at_ms := expires;
                                         key_status := s |} |}.
Definition parse_secret_material (input : list byte) : result SecretFormatError SecuritySecretMaterial :=
  let text := String.string_of_list_byte input in
  if negb (utf8_valid text) then Err (InvalidFormat "NO MORE SUPPORTED PLEASE UPDATE")
  else if negb (str_contains "secret=" text) then Err (InvalidFormat "NO MORE SUPPORTED PLEASE UPDATE")
  else parse_structured_secret text.

(** [new_rotated_secret]: the clock and the random source are arguments. *)
Definition new_rotated_secret (now_ms : N) (random : option (list byte)) (expires : option N) :
    result SecretFormatError SecuritySecretMaterial :=
  match random with
  | None => Err RandomUnavailable
  | Some b =>
    Ok {| secret := b;
          metadata := {| key_id := "k-" +:+ show_u64 now_ms +:+ "-" +:+ hex_encode (take 4 b);
                         created_at_ms := now_ms; expires_at_ms := expires; key_status := Active |} |}
  end.

(** ** [secret_keyring.rs] *)

Inductive SecretAccessError :=
| InvalidPath | InsecurePermissions | Unavailable | InvalidMaterial | Expired | KeyDeprecated | KeyRevoked
| Conflict | Io.
#[export] Instance SecretAccessError_eq_dec : EqDecision SecretAccessError.
Proof. solve_decision. Defined.

Inductive keyring_file := FormatMarker | ActiveKey | KeyFile (id : string).
#[export] Instance keyring_file_eq_dec : EqDecision keyring_file.
Proof. solve_decision. Defined.
#[export] Instance keyring_file_countable : Countable keyring_file.
Proof.
  apply (inj_countable'
    (λ f, match f with FormatMarker => inl true | ActiveKey => inl false | KeyFile i => inr i end)
    (λ x : bool + string, match x with inl true => FormatMarker | inl false => ActiveKey | inr i => KeyFile i end)).
  by intros [].
Defined.
Abbreviation keyring := (disk keyring_file).
Abbreviation key_op A := (op keyring SecretAccessError A).

Definition FILE_SECRET_KEYRING_FORMAT : string := "appcore-secret-keyring-v1".

Definition key_id_byte (c : ascii) : bool :=
  is_ascii_alphanumeric c || bool_decide (c = "-"%char) || bool_decide (c = "_"%char) || bool_decide (c = "."%char).
Definition validate_key_id (id : string) : result SecretAccessError () :=
  if bool_decide (id = EmptyString) || (128 <? str_len id) || negb (str_all key_id_byte id) then Err InvalidPath
  else Ok ().
Definition validate_for_validation (m : SecuritySecretMaterial) (now_ms : N) : result SecretAccessError () :=
  if bool_decide (key_status (metadata m) = Revoked) then Err KeyRevoked
  else if is_expired m now_ms then Err Expired
  else Ok ().
Definition validate_for_issue (m : SecuritySecretMaterial) (now_ms : N) : result SecretAccessError () :=
  _ ← validate_for_validation m now_ms;
  if bool_decide (key_status (metadata m) = Deprecated) then Err KeyDeprecated else Ok ().
Definition validate_new_active (m : SecuritySecretMaterial) (now_ms : N) : result SecretAccessError () :=
  _ ← validate_key_id (key_id (metadata m));
  if lenN (secret m) <? 16 then Err InvalidMaterial else validate_for_issue m now_ms.

(** What a failed access is reported as: the checks of permissions and links,
    and the missing files, have errors of their own. *)
Definition failed (reason : string) : SecretAccessError :=
  if bool_decide (reason = "permissions"%string) then InsecurePermissions
  else if bool_decide (reason = "link"%string) then InvalidPath
  else if bool_decide (reason = "missing"%string) then Unavailable
  else Io.

(** [read_private_file]: a file that is not there has no metadata. *)
Definition read_private_file (f : keyring_file) (max_bytes : N) : key_op (list byte) :=
  b ← read_file failed f;
  match b with
  | None => op_fail Unavailable
  | Some b => if max_bytes <? lenN b then op_fail InvalidMaterial else mret b
  end.
(** [atomic_write]: the parent, the target and the temporary file come before
    the rename. *)
Definition atomic_write (f : keyring_file) (b : list byte) : key_op () := replace_file failed 5 f b.

Definition read_material (f : keyring_file) : key_op SecuritySecretMaterial :=
  b ← read_private_file f 65536;
  op_lift (map_err (λ _, InvalidMaterial) (parse_secret_material b)).
Definition read_key (id : string) : key_op SecuritySecretMaterial :=
  _ ← op_lift (validate_key_id id); read_material (KeyFile id).
Definition persist_key (m : SecuritySecretMaterial) : key_op () :=
  _ ← op_lift (validate_key_id (key_id (metadata m)));
  atomic_write (KeyFile (key_id (metadata m))) (str_bytes (format_secret_material m)).
Definition persist_active (id : string) : key_op () :=
  _ ← op_lift (validate_key_id id);
  atomic_write ActiveKey (str_bytes (id +:+ String LF EmptyString)).
Definition read_active_id : key_op string :=
  b ← read_private_file ActiveKey 256;
  let text := String.string_of_list_byte b in
  if utf8_valid text then _ ← op_lift (validate_key_id (trim text)); mret (trim text)
  else op_fail InvalidMaterial.

(** [validate_layout] and taking the lock: five accesses. *)
Definition lock : key_op () := probes failed 5.
Definition unlock : key_op () := probe failed.
(** [.ok()]: the error is forgotten, its effects are not. *)
Definition attempt {A} (o : key_op A) : key_op (option A) := λ d,
  match o d with (Ok a, d) => (Ok (Some a), d) | (Err _, d) => (Ok None, d) end.

Definition write_format_marker : key_op () :=
  d ← op_get;
  match files d !! FormatMarker with
  | Some _ =>
    b ← read_private_file FormatMarker 128;
    if bool_decide (b = str_bytes (FILE_SECRET_KEYRING_FORMAT +:+ String LF EmptyString)) then mret ()
    else op_fail InvalidMaterial
  | None => atomic_write FormatMarker (str_bytes (FILE_SECRET_KEYRING_FORMAT +:+ String LF EmptyString))
  end.
Definition open_keyring : key_op () :=
  _ ← probes failed 12;
  _ ← write_format_marker;
  probes failed 3.

Definition install_initial (m : SecuritySecretMaterial) (now_ms : N) : key_op () :=
  _ ← op_lift (validate_new_active m now_ms);
  _ ← lock;
  d ← op_get;
  match files d !! ActiveKey with
  | Some _ => op_fail Conflict
  | None =>
    _ ← persist_key m;
    _ ← persist_active (key_id (metadata m));
    unlock
  end.

Definition with_status (s : SecuritySecretStatus) (m : SecuritySecretMaterial) : SecuritySecretMaterial :=
  {| secret := secret m;
     metadata := {| key_id := key_id (metadata m); created_at_ms := created_at_ms (metadata m);
                    expires_at_ms := expires_at_ms (metadata m); key_status := s |} |}.
Definition deprecate (id : string) : key_op () :=
  old ← read_key id;
  if bool_decide (key_status (metadata old) = Revoked) then mret () else persist_key (with_status Deprecated old).
Definition rotate (next : SecuritySecretMaterial) (now_ms : N) : key_op (option string) :=
  _ ← op_lift (validate_new_active next now_ms);
  _ ← lock;
  previous ← attempt read_active_id;
  if bool_decide (previous = Some (key_id (metadata next))) then op_fail Conflict
  else
    _ ← persist_key next;
    _ ← persist_active (key_id (metadata next));
    _ ← match previous with Some p => deprecate p | None => mret () end;
    _ ← unlock;
    mret previous.
Definition revoke (id : string) : key_op () :=
  _ ← op_lift (validate_key_id id);
  _ ← lock;
  m ← read_key id;
  _ ← persist_key (with_status Revoked m);
  active ← attempt read_active_id;
  _ ← (if bool_decide (active = Some id) then remove_file_synced failed ActiveKey else mret ());
  unlock.
Definition resolve_active (now_ms : N) : key_op SecuritySecretMaterial :=
  _ ← lock;
  id ← read_active_id;
  m ← read_key id;
  _ ← op_lift (validate_for_issue m now_ms);
  _ ← unlock;
  mret m.
Definition resolve_for_validation (id : string) (now_ms : N) : key_op SecuritySecretMaterial :=
  _ ← op_lift (validate_key_id id);
  _ ← lock;
  m ← read_key id;
  _ ← op_lift (validate_for_validation m now_ms);
  _ ← unlock;
  mret m.

(** The key files of the directory, and the ids of those that may issue. *)
Definition key_names (d : keyring) : list string :=
  omap (λ e : keyring_file * list byte, match e.1 with KeyFile i => Some i | _ => None end) (map_to_list (files d)).
Fixpoint usable_keys (names : list string) (now_ms : N) : key_op (list string) :=
  match names with
  | [] => mret []
  | n :: rest =>
    m ← read_material (KeyFile n);
    ids ← usable_keys rest now_ms;
    mret (if is_ok (validate_for_issue m now_ms) then key_id (metadata m) :: ids else ids)
  end.
Definition active_candidates (now_ms : N) : key_op (list string) :=
  _ ← probe failed;
  d ← op_get;
  ids ← usable_keys (key_names d) now_ms;
  mret (merge_sort String.le ids).
Definition recover (now_ms : N) : key_op string :=
  _ ← lock;
  active ← attempt read_active_id;
  match active with
  | Some id =>
    m ← read_key id;
    _ ← op_lift (validate_for_issue m now_ms);
    mret id
  | None =>
    candidates ← active_candidates now_ms;
    match candidates with
    | [id] =>
      _ ← persist_active id;
      _ ← unlock;
      mret id
    | _ => op_fail Conflict
    end
  end.

(** [SecretResolver::resolve]: a key by its reference. *)
Definition resolve (reference : string) (now_ms : N) : key_op (list byte) := λ d,
  let o := if bool_decide (reference = "active"%string) then resolve_active now_ms
           else resolve_for_validation reference now_ms in
  let '(r, d) := o d in
  (match r with Ok m => Ok (secret m) | Err _ => Err Unavailable end, d).

(** The calls of the users of a keyring; only two of them hand out a key. *)
Inductive command :=
| Install (m : SecuritySecretMaterial) (now_ms : N)
| Rotate (m : SecuritySecretMaterial) (now_ms : N)
| Revoke (id : string)
| ResolveActive (now_ms : N)
| ResolveForValidation (id : string) (now_ms : N)
| Recover (now_ms : N)
| Open.
Definition no_key {A} (o : key_op A) : key_op (option SecuritySecretMaterial) := _ ← o; mret None.
Definition run_command (c : command) : key_op (option SecuritySecretMaterial) :=
  match c with
  | Install m now => no_key (install_initial m now)
  | Rotate m now => no_key (rotate m now)
  | Revoke id => no_key (revoke id)
  | ResolveActive now => m ← resolve_active now; mret (Some m)
  | ResolveForValidation id now => m ← resolve_for_validation id now; mret (Some m)
  | Recover now => no_key (recover now)
  | Open => no_key open_keyring
  end.
(** Commands one after the other, each with the outcomes of its accesses: a
    process that dies is followed by the next one. *)
Definition answer : Type := result SecretAccessError (option SecuritySecretMaterial).
Fixpoint run (cs : list (command * list access)) (d : keyring) : list answer * keyring :=
  match cs with
  | [] => ([], d)
  | (c, accesses) :: cs' =>
    let '(r, d) := run_command c (restart accesses d) in
    let '(rs, d) := run cs' d in (r :: rs, d)
  end.
(** The material that a command brings in. *)
Definition installed (c : command) : option SecuritySecretMaterial :=
  match c with Install m _ | Rotate m _ => Some m | _ => None end.

(** ** The text format *)

(** Visible ASCII. *)
Definition graphic (c : ascii) : bool := in_range 33 126 c.
Definition plain (s : string) : Prop := s ≠ EmptyString ∧ str_all graphic s = true.

Lemma graphic_solid c : graphic c = true → solid c.
Proof.
  unfold graphic, solid, in_range, white1, cont, code. intros [H1%N.leb_le H2%N.leb_le]%andb_true_iff. split; [lia|].
  rewrite (proj2 (N.leb_gt (Ascii.N_of_ascii c) 13)), andb_false_r by lia.
  rewrite bool_decide_eq_false_2; [done|]. intros ->. by vm_compute in H1.
Qed.
Lemma graphic_free c s : graphic c = false → str_all graphic s = true → str_free c s.
Proof.
  intros Hc. induction s as [|x s IH]; [done|]. cbn [str_all str_free]. intros [Hx Hs]%andb_true_iff.
  split; [|auto]. intros ->. congruence.
Qed.
Lemma graphic_ascii s : str_all graphic s = true → str_ascii s.
Proof.
  induction s as [|x s IH]; [done|]. cbn [str_all str_ascii]. intros [Hx Hs]%andb_true_iff.
  split; [by destruct (graphic_solid _ Hx)|auto].
Qed.
Lemma graphic_app s t : str_all graphic (s +:+ t) = str_all graphic s && str_all graphic t.
Proof. induction s as [|x s IH]; [done|]. rewrite string_app_cons. cbn [str_all]. by rewrite IH, andb_assoc. Qed.
Lemma trim_graphic s : str_all graphic s = true → trim s = s.
Proof.
  intros Hs. unfold trim. replace (trim_start s) with s.
  - induction s as [|x s IH]; [done|]. cbn [str_all] in Hs. apply andb_true_iff in Hs as [Hx Hs].
    cbn [trim_end]. rewrite trim_start_id by by apply graphic_solid. rewrite bool_decide_eq_false_2 by done.
    by rewrite IH.
  - destruct s as [|x s]; [done|]. cbn [str_all] in Hs. apply andb_true_iff in Hs as [Hx _].
    by rewrite trim_start_id by by apply graphic_solid.
Qed.
Lemma str_all_impl (f g : ascii → bool) s :
  (∀ c, f c = true → g c = true) → str_all f s = true → str_all g s = true.
Proof.
  intros Hfg. induction s as [|x s IH]; [done|]. cbn [str_all]. intros [Hx Hs]%andb_true_iff.
  by rewrite Hfg, IH.
Qed.
Lemma byte_class (f g : ascii → bool) :
  forallb (λ n, implb (f (Ascii.ascii_of_N n)) (g (Ascii.ascii_of_N n))) (map N.of_nat (seq 0 256)) = true →
  ∀ c, f c = true → g c = true.
Proof.
  intros Hall c Hc. rewrite forallb_forall in Hall. specialize (Hall (Ascii.N_of_ascii c)).
  rewrite Ascii.ascii_N_embedding, Hc in Hall. apply Hall. apply in_map_iff. exists (N.to_nat (Ascii.N_of_ascii c)).
  split; [lia|]. apply in_seq. pose proof (Ascii.N_ascii_bounded c). lia.
Qed.
Lemma plain_digits n : plain (show_u64 n).
Proof.
  split.
  - unfold show_u64. pose proof (N_to_uint_not_nil n). by destruct (N.to_uint n).
  - pose proof (show_u64_digits n) as H. induction (show_u64 n) as [|c s IH]; [done|]. destruct H as [[H1 H2] Hs].
    cbn [str_all]. rewrite IH by done. unfold graphic, in_range, code. rewrite !(proj2 (N.leb_le _ _)) by lia. done.
Qed.
Lemma plain_hex b : b ≠ [] → plain (hex_encode b).
Proof.
  intros Hb. split; [by destruct b|]. apply (str_all_impl hex_char); [|apply hex_encode_chars].
  apply byte_class. vm_compute. reflexivity.
Qed.

Lemma lines_line n v rest :
  str_all graphic n = true → str_all graphic v = true →
  lines (line n v +:+ rest) = (n +:+ String "=" v) :: lines rest.
Proof.
  intros Hn Hv. unfold line. autorewrite with text.
  replace (n +:+ String "=" (v +:+ String LF rest)) with ((n +:+ String "=" v) +:+ String LF rest)
    by by autorewrite with text.
  assert (str_all graphic (n +:+ String "=" v) = true) as Hg by (rewrite graphic_app; cbn [str_all]; by rewrite Hn, Hv).
  apply lines_cons; by apply graphic_free.
Qed.
Lemma parse_line_field n v p :
  plain n → str_all graphic v = true → str_free "=" n → str_prefix "#" n = false →
  parse_line (n +:+ String "=" v) p = parse_field n v p.
Proof.
  intros [Hne Hn] Hv Hfree Hc. unfold parse_line.
  assert (str_all graphic (n +:+ String "=" v) = true) as Hg by (rewrite graphic_app; cbn [str_all]; by rewrite Hn, Hv).
  rewrite trim_graphic by done. rewrite bool_decide_eq_false_2 by by destruct n.
  assert (str_prefix "#" (n +:+ String "=" v) = false) as -> by (destruct n; [done|exact Hc]).
  cbn [orb]. rewrite split_once_app by done. by rewrite !trim_graphic.
Qed.

Lemma parse_lines_field n v ls p p' :
  plain n → str_all graphic v = true → str_free "=" n → str_prefix "#" n = false → parse_field n v p = Ok p' →
  parse_lines ((n +:+ String "=" v) :: ls) p = parse_lines ls p'.
Proof. intros Hn Hv Hf Hp He. cbn [parse_lines]. rewrite parse_line_field by done. by rewrite He. Qed.

Lemma str_contains_app p s t : str_contains p (s +:+ p +:+ t) = true.
Proof.
  unfold str_contains. destruct (str_find p _) eqn:E; [done|].
  pose proof (str_find_None _ _ E (String.length s)) as H. rewrite str_drop_app in H.
  rewrite (proj2 (str_prefix_spec _ _)) in H; [done|]. by exists t.
Qed.

(** A material that the keyring may write: its id is a valid one, its secret
    long enough, its times fit their type. *)
Record storable (m : SecuritySecretMaterial) : Prop := {
  storable_id : validate_key_id (key_id (metadata m)) = Ok ();
  storable_secret : 16 ≤ lenN (secret m);
  storable_created : created_at_ms (metadata m) ≤ u64_max;
  storable_expires : match expires_at_ms (metadata m) with Some e => e ≤ u64_max | None => True end;
}.

Lemma valid_key_id_plain id : validate_key_id id = Ok () → plain id.
Proof.
  unfold validate_key_id. destruct (_ || _) eqn:E; [done|]. intros _. apply orb_false_iff in E as [E Hall].
  apply orb_false_iff in E as [Hne _]. apply bool_decide_eq_false in Hne. apply negb_false_iff in Hall.
  split; [done|]. revert Hall. apply str_all_impl. apply byte_class. vm_compute. reflexivity.
Qed.
Lemma parse_hex_secret b : b ≠ [] → parse_secret_value (hex_encode b) = Ok b.
Proof.
  intros Hb. unfold parse_secret_value. assert (str_prefix "hex:" (hex_encode b) = false) as ->.
  { pose proof (hex_encode_chars b) as Hall. destruct (hex_encode b) as [|c s]; [done|]. cbn [str_prefix].
    rewrite bool_decide_eq_false_2; [done|]. intros <-. discriminate. }
  assert (looks_like_hex (hex_encode b) = true) as ->; [|by rewrite hex_decode_encode].
  unfold looks_like_hex. rewrite hex_encode_chars, length_hex_encode. destruct (plain_hex b Hb) as [Hne _].
  rewrite bool_decide_eq_false_2 by done. replace (2 * lenN b mod 2) with 0; [done|].
  rewrite N.mul_comm, N.mod_mul; done.
Qed.

Lemma parse_created n p :
  n ≤ u64_max →
  parse_field "created_at_ms" (show_u64 n) p
  = Ok {| p_key_id := p_key_id p; p_created := Some n; p_expires := p_expires p; p_status := p_status p;
          p_secret := p_secret p |}.
Proof. intros Hn. cbv -[parse_u64 show_u64 N.le]. by rewrite parse_show_u64. Qed.
Lemma show_u64_not_none n : show_u64 n ≠ "none"%string.
Proof. intros E. pose proof (show_u64_digits n) as H. rewrite E in H. destruct H as [[_ H] _]. by vm_compute in H. Qed.
Lemma parse_expires e p :
  match e with Some n => n ≤ u64_max | None => True end →
  parse_field "expires_at_ms" (match e with Some n => show_u64 n | None => "none" end) p
  = Ok {| p_key_id := p_key_id p; p_created := p_created p; p_expires := Some e; p_status := p_status p;
          p_secret := p_secret p |}.
Proof.
  intros Hn. change (parse_field "expires_at_ms" ?v p) with
    (e ← (if bool_decide (v = "none"%string) then Ok None
          else n ← ok_or (InvalidFormat "invalid expires_at_ms") (parse_u64 v); Ok (Some n));
     Ok {| p_key_id := p_key_id p; p_created := p_created p; p_expires := Some e; p_status := p_status p;
           p_secret := p_secret p |}).
  destruct e as [n|]; [|done]. rewrite bool_decide_eq_false_2 by apply show_u64_not_none. by rewrite parse_show_u64.
Qed.
Lemma parse_secret_field b p :
  b ≠ [] →
  parse_field "secret" (hex_encode b) p
  = Ok {| p_key_id := p_key_id p; p_created := p_created p; p_expires := p_expires p; p_status := p_status p;
          p_secret := Some b |}.
Proof.
  intros Hb. change (parse_field "secret" ?v p) with
    (b ← parse_secret_value v;
     Ok {| p_key_id := p_key_id p; p_created := p_created p; p_expires := p_expires p; p_status := p_status p;
           p_secret := Some b |}).
  by rewrite parse_hex_secret.
Qed.

Lemma parse_format m : storable m → parse_secret_material (str_bytes (format_secret_material m)) = Ok m.
Proof.
  intros [Hid Hsec Hcr Hex]. pose proof (valid_key_id_plain _ Hid) as [Hidne Hidg].
  pose proof (plain_digits (created_at_ms (metadata m))) as [_ Hcrg].
  assert (secret m ≠ []) as Hsne by (intros E; rewrite E in Hsec; unfold lenN in Hsec; simpl in Hsec; lia).
  pose proof (plain_hex _ Hsne) as [_ Hsg].
  set (ex := match expires_at_ms (metadata m) with Some e => show_u64 e | None => "none"%string end).
  assert (str_all graphic ex = true) as Hexg
    by (unfold ex; destruct (expires_at_ms (metadata m)); [apply plain_digits|done]).
  assert (str_all graphic (status_label (key_status (metadata m))) = true) as Hstg by by destruct (key_status (metadata m)).
  unfold parse_secret_material, str_bytes. rewrite String.string_of_list_byte_of_string.
  unfold format_secret_material. fold ex. cbv zeta.
  assert (utf8_valid (line "key_id" (key_id (metadata m)) +:+ line "created_at_ms" (show_u64 (created_at_ms (metadata m)))
     +:+ line "expires_at_ms" ex +:+ line "status" (status_label (key_status (metadata m)))
     +:+ line "secret" (hex_encode (secret m))) = true) as ->.
  { apply utf8_valid_ascii. unfold line. rewrite !str_ascii_app. by repeat split; try apply graphic_ascii. }
  rewrite <- !string_app_assoc.
  unfold line at 5. change ("secret" +:+ "=" +:+ hex_encode (secret m) +:+ String LF EmptyString)
    with ("secret=" +:+ (hex_encode (secret m) +:+ String LF EmptyString)).
  rewrite str_contains_app. cbn [negb].
  change ("secret=" +:+ (hex_encode (secret m) +:+ String LF EmptyString)) with (line "secret" (hex_encode (secret m))).
  rewrite !string_app_assoc. unfold parse_structured_secret.
  rewrite <- (string_app_empty_r (line "secret" (hex_encode (secret m)))).
  rewrite !lines_line by done. rewrite lines_nil.
  erewrite parse_lines_field by done.
  erewrite parse_lines_field; [|done|done|by repeat split|done|by apply parse_created].
  erewrite parse_lines_field; [|done|done|by repeat split|done|by apply parse_expires].
  erewrite (parse_lines_field "status" _ _ _
    {| p_key_id := _; p_created := _; p_expires := _; p_status := Some (key_status (metadata m)); p_secret := None |});
    [|done|done|by repeat split|done|by destruct (key_status (metadata m))].
  erewrite parse_lines_field; [|done|done|by repeat split|done|by apply parse_secret_field].
  cbn. rewrite (proj2 (N.ltb_ge _ _)) by done. by destruct m as [? []].
Qed.

(** ** Revocation *)

Definition holds_key (fs : gmap keyring_file (list byte)) (id : string) (m : SecuritySecretMaterial) : Prop :=
  ∃ b, fs !! KeyFile id = Some b ∧ parse_secret_material b = Ok m.
(** Every key file holds a material of its own id; those of [R] are revoked. *)
Record sound (R : gset string) (fs : gmap keyring_file (list byte)) : Prop := {
  sound_files : ∀ id b, fs !! KeyFile id = Some b →
    ∃ m, parse_secret_material b = Ok m ∧ storable m ∧ key_id (metadata m) = id;
  sound_revoked : ∀ id, id ∈ R → ∃ m, holds_key fs id m ∧ key_status (metadata m) = Revoked;
}.

Lemma sound_empty : sound ∅ ∅.
Proof. split; intros *; [by rewrite lookup_empty|set_solver]. Qed.
Lemma sound_other R fs fs' : (∀ id, fs' !! KeyFile id = fs !! KeyFile id) → sound R fs → sound R fs'.
Proof.
  intros Hfs [Hf Hr]. split; [intros id b; rewrite Hfs; apply Hf|].
  intros id Hid. destruct (Hr id Hid) as (m & (b & Hb & Hm) & Hs). exists m. split; [|done]. exists b. by rewrite Hfs.
Qed.
Lemma sound_subset R R' fs : R' ⊆ R → sound R fs → sound R' fs.
Proof. intros HR [Hf Hr]. split; [done|]. intros id Hid. apply Hr. set_solver. Qed.
(** Writing a key file: a revoked one joins [R], another must not be of [R]. *)
Lemma sound_insert R fs m :
  storable m → sound R fs → (key_id (metadata m) ∈ R → key_status (metadata m) = Revoked) →
  sound (if bool_decide (key_status (metadata m) = Revoked) then R ∪ {[key_id (metadata m)]} else R)
    (<[KeyFile (key_id (metadata m)) := str_bytes (format_secret_material m)]> fs).
Proof.
  intros Hm [Hf Hr] Hstatus. set (fs' := <[_ := _]> fs).
  assert (holds_key fs' (key_id (metadata m)) m) as Hown
    by (exists (str_bytes (format_secret_material m)); unfold fs'; by rewrite lookup_insert_eq, parse_format).
  split.
  - intros id b. destruct (decide (id = key_id (metadata m))) as [->|Hne].
    + destruct Hown as (b' & -> & Hp). intros [= <-]. by exists m.
    + unfold fs'. rewrite lookup_insert_ne by congruence. apply Hf.
  - assert (∀ id, id ∈ R → ∃ m', holds_key fs' id m' ∧ key_status (metadata m') = Revoked) as Hold.
    { intros id Hid. destruct (decide (id = key_id (metadata m))) as [->|Hne]; [exists m; auto|].
      destruct (Hr id Hid) as (m' & (b & Hb & Hp) & Hs). exists m'. split; [|done]. exists b.
      unfold fs'. by rewrite lookup_insert_ne by congruence. }
    intros id Hid. case_bool_decide as Hs; [|by apply Hold].
    apply elem_of_union in Hid as [Hid| ->%elem_of_singleton]; [by apply Hold|exists m; auto].
Qed.
Lemma holds_key_unique fs id m m' : holds_key fs id m → holds_key fs id m' → m = m'.
Proof. intros (b & Hb & Hp) (b' & Hb' & Hp'). rewrite Hb in Hb'. injection Hb' as <-. congruence. Qed.
Lemma holds_key_sound R fs id m :
  sound R fs → holds_key fs id m →
  storable m ∧ key_id (metadata m) = id ∧ (id ∈ R → key_status (metadata m) = Revoked).
Proof.
  intros [Hf Hr] Hm. pose proof Hm as (b & Hb & Hp). destruct (Hf _ _ Hb) as (m' & Hp' & Hs & Hi).
  assert (m' = m) as -> by congruence. split_and!; [done..|].
  intros Hid. destruct (Hr _ Hid) as (m' & Hm' & Hst). by rewrite (holds_key_unique _ _ _ _ Hm Hm').
Qed.

Abbreviation keyring_files := (gmap keyring_file (list byte)).
Implicit Type V X : keyring_files → Prop.

Lemma read_private_file_spec X V f n :
  (∀ fs, V fs → X fs) → triple X V (read_private_file f n) (λ b fs, V fs ∧ fs !! f = Some b).
Proof.
  intros HV. unfold read_private_file.
  apply (triple_bind _ _ _ _ (λ r fs, V fs ∧ fs !! f = r)); [by apply triple_read|].
  intros [b|]; [|apply triple_fail; intros fs [? _]; auto].
  destruct (n <? lenN b); [apply triple_fail; intros fs [? _]; auto|]. by apply hoare_ret.
Qed.
Lemma read_material_spec X V id :
  (∀ fs, V fs → X fs) → triple X V (read_material (KeyFile id)) (λ m fs, V fs ∧ holds_key fs id m).
Proof.
  intros HV. unfold read_material.
  apply (triple_bind _ _ _ _ (λ b fs, V fs ∧ fs !! KeyFile id = Some b)); [by apply read_private_file_spec|].
  intros b. apply hoare_lift. intros d [Hd Hb]. unfold on.
  destruct (parse_secret_material b) eqn:Hp; [|by apply HV]. split; [done|]. by exists b.
Qed.
Lemma read_key_spec X V id :
  (∀ fs, V fs → X fs) → triple X V (read_key id) (λ m fs, V fs ∧ holds_key fs id m).
Proof.
  intros HV. unfold read_key. destruct (validate_key_id id) as [[]|e].
  - apply hoare_lift_ok. by apply read_material_spec.
  - apply hoare_lift_err. intros d. apply HV.
Qed.
Lemma read_active_id_spec X V : (∀ fs, V fs → X fs) → triple X V read_active_id (λ _, V).
Proof.
  intros HV. unfold read_active_id.
  apply (triple_bind _ _ _ _ (λ _, V)).
  { eapply hoare_weaken; [by apply (read_private_file_spec X V)|done|by intros ? ? [? _]|done]. }
  intros b. cbv zeta. destruct (utf8_valid _); [|by apply triple_fail]. destruct (validate_key_id _) as [[]|e].
  - apply hoare_lift_ok. by apply hoare_ret.
  - apply hoare_lift_err. intros d. apply HV.
Qed.
(** A forgotten error leaves what the failure leaves. *)
Lemma attempted_spec {A} V (o : key_op A) : triple V V o (λ _, V) → triple V V (attempt o) (λ _, V).
Proof. intros Ho d Hd. specialize (Ho d Hd). unfold attempt. by destruct (o d) as [[a|e] d']. Qed.

Lemma triple_bind_same {A B} V (o : key_op A) (k : A → key_op B) Q :
  triple V V o (λ _, V) → (∀ a, triple V V (k a) Q) → triple V V (o ≫= k) Q.
Proof. apply (triple_bind _ _ _ _ (λ _, V)). Qed.
Lemma triple_checked {A B} V (r : result SecretAccessError A) (k : A → key_op B) Q :
  (∀ a, r = Ok a → triple V V (k a) Q) → triple V V (op_lift r ≫= k) Q.
Proof. intros Hk. destruct r as [a|e]; [by apply hoare_lift_ok, Hk|]. by apply hoare_lift_err. Qed.

Lemma triple_lift_bind {A B} X V (r : result SecretAccessError A) (k : A → key_op B) Q :
  (∀ fs, V fs → X fs) → (∀ a, r = Ok a → triple X V (k a) Q) → triple X V (op_lift r ≫= k) Q.
Proof.
  intros HV Hk. destruct r as [a|e]; [apply hoare_lift_ok; by apply Hk|].
  apply hoare_lift_err. intros d. apply HV.
Qed.

(** The times of the material of a program fit their type. *)
Definition times_fit (m : SecuritySecretMaterial) : Prop :=
  created_at_ms (metadata m) ≤ u64_max ∧
  match expires_at_ms (metadata m) with Some e => e ≤ u64_max | None => True end.

Lemma validate_new_active_storable m now :
  times_fit m → validate_new_active m now = Ok () → storable m ∧ key_status (metadata m) = Active.
Proof.
  intros [H1 H2]. unfold validate_new_active. destruct (validate_key_id _) as [[]|] eqn:Hid; [|done].
  cbn. destruct (N.ltb_spec (lenN (secret m)) 16); [done|]. unfold validate_for_issue, validate_for_validation.
  destruct (bool_decide (key_status (metadata m) = Revoked)) eqn:Hr; [done|]. destruct (is_expired m now); [done|]. cbn.
  apply bool_decide_eq_false in Hr. case_bool_decide as Hd; [done|].
  intros _. split; [by split|]. by destruct (key_status (metadata m)).
Qed.
Lemma storable_with_status s m : storable m → storable (with_status s m).
Proof. by intros []; split. Qed.

Section Sound.
Context (R : gset string).

Lemma lock_sound : triple (sound R) (sound R) lock (λ _, sound R).
Proof. by apply triple_probes. Qed.
Lemma unlock_sound : triple (sound R) (sound R) unlock (λ _, sound R).
Proof. by apply triple_probe. Qed.
Lemma replace_sound f b :
  (∀ id, f ≠ KeyFile id) → triple (sound R) (sound R) (atomic_write f b) (λ _, sound R).
Proof.
  intros Hf. apply triple_replace; [|done]. intros fs Hfs. split_and!; [done|..];
    (eapply sound_other; [|exact Hfs]; intros id; by rewrite lookup_insert_ne).
Qed.
Lemma persist_active_sound id : triple (sound R) (sound R) (persist_active id) (λ _, sound R).
Proof. apply triple_checked. intros [] _. by apply replace_sound. Qed.
Lemma persist_key_sound m :
  storable m → (key_id (metadata m) ∈ R → key_status (metadata m) = Revoked) →
  triple (sound R) (sound R) (persist_key m)
    (λ _, sound (if bool_decide (key_status (metadata m) = Revoked) then R ∪ {[key_id (metadata m)]} else R)).
Proof.
  intros Hm Hr. apply triple_checked. intros [] _. apply triple_replace.
  - intros fs Hfs. pose proof (sound_insert R fs m Hm Hfs Hr) as Hi. split_and!; [done| |done].
    eapply sound_subset, Hi. case_bool_decide; set_solver.
  - intros fs. apply sound_subset. case_bool_decide; set_solver.
Qed.
Lemma key_sound id m fs : sound R fs ∧ holds_key fs id m →
  storable m ∧ key_id (metadata m) = id ∧ (id ∈ R → key_status (metadata m) = Revoked).
Proof. intros [Hs Hm]. by eapply holds_key_sound. Qed.
(** A key that was read. *)
Lemma read_key_sound {B} id (k : SecuritySecretMaterial → key_op B) Q :
  (∀ m, storable m → key_id (metadata m) = id → (id ∈ R → key_status (metadata m) = Revoked) →
     triple (sound R) (sound R) (k m) Q) →
  triple (sound R) (sound R) (read_key id ≫= k) Q.
Proof.
  intros Hk. apply (triple_bind _ _ _ _ (λ m fs, sound R fs ∧ holds_key fs id m)); [by apply read_key_spec|].
  intros m. eapply triple_assume; [intros fs; by apply key_sound|]. intros (Hm & Hid & Hr).
  eapply triple_pre; [by apply Hk|]. by intros fs [? _].
Qed.

Lemma install_keys_sound m now {B} (k : key_op B) Q :
  times_fit m → key_id (metadata m) ∉ R → validate_new_active m now = Ok () →
  triple (sound R) (sound R) k Q →
  triple (sound R) (sound R) (_ ← persist_key m; _ ← persist_active (key_id (metadata m)); k) Q.
Proof.
  intros Ht Hid Hv Hk. destruct (validate_new_active_storable m now Ht Hv) as [Hm Hs].
  apply (triple_bind_same (sound R)); [|intros []; apply (triple_bind_same (sound R)); [apply persist_active_sound|by intros []]].
  eapply hoare_weaken; [by apply persist_key_sound|done| |done]. intros [] d. unfold on. by rewrite Hs.
Qed.
Lemma install_initial_sound m now :
  times_fit m → key_id (metadata m) ∉ R → triple (sound R) (sound R) (install_initial m now) (λ _, sound R).
Proof.
  intros Ht Hid. apply triple_checked. intros [] Hv. apply triple_bind_same; [apply lock_sound|intros []].
  apply hoare_get_bind. intros d Hd. apply (hoare_pre _ (on (sound R))); [|by intros ? ->].
  destruct (files d !! ActiveKey); [by apply triple_fail|].
  apply (install_keys_sound _ now); [done..|]. apply unlock_sound.
Qed.
Lemma deprecate_sound id : triple (sound R) (sound R) (deprecate id) (λ _, sound R).
Proof.
  apply read_key_sound. intros m Hm Hid Hr. case_bool_decide as Hs; [by apply hoare_ret|].
  eapply hoare_weaken; [apply (persist_key_sound (with_status Deprecated m))|done| |done].
  - by apply storable_with_status.
  - cbn. rewrite Hid. intros ?. by destruct Hs; apply Hr.
  - by intros [] d.
Qed.
Lemma rotate_sound m now :
  times_fit m → key_id (metadata m) ∉ R → triple (sound R) (sound R) (rotate m now) (λ _, sound R).
Proof.
  intros Ht Hid. apply triple_checked. intros [] Hv. apply triple_bind_same; [apply lock_sound|intros []].
  apply triple_bind_same; [apply attempted_spec; by apply read_active_id_spec|intros previous].
  case_bool_decide; [by apply triple_fail|]. apply (install_keys_sound _ now); [done..|].
  apply triple_bind_same.
  { destruct previous; [apply deprecate_sound|by apply hoare_ret]. }
  intros []. apply triple_bind_same; [apply unlock_sound|intros []; by apply hoare_ret].
Qed.
Lemma withdraw_sound id :
  triple (sound R) (sound R)
    (active ← attempt read_active_id;
     _ ← (if bool_decide (active = Some id) then remove_file_synced failed ActiveKey else mret ());
     unlock) (λ _, sound R).
Proof.
  apply triple_bind_same; [apply attempted_spec; by apply read_active_id_spec|intros active].
  apply triple_bind_same; [|intros []; apply unlock_sound].
  case_bool_decide; [|by apply hoare_ret]. apply triple_remove; [|done]. intros fs Hfs.
  split_and!; [done|..]; (eapply sound_other; [|exact Hfs]; intros i; by rewrite lookup_delete_ne).
Qed.
Lemma resolve_active_sound now :
  triple (sound R) (sound R) (resolve_active now) (λ m fs, sound R fs ∧ key_id (metadata m) ∉ R).
Proof.
  apply triple_bind_same; [apply lock_sound|intros []].
  apply triple_bind_same; [by apply read_active_id_spec|intros id].
  apply read_key_sound. intros m Hm Hid Hr. apply triple_checked. intros [] Hv.
  apply triple_bind_same; [apply unlock_sound|intros []]. apply hoare_ret. intros d Hd. split; [done|].
  rewrite Hid. intros HR. unfold validate_for_issue, validate_for_validation in Hv. by rewrite Hr in Hv.
Qed.
Lemma resolve_for_validation_sound id now :
  triple (sound R) (sound R) (resolve_for_validation id now) (λ m fs, sound R fs ∧ key_id (metadata m) ∉ R).
Proof.
  apply triple_checked. intros [] _. apply triple_bind_same; [apply lock_sound|intros []].
  apply read_key_sound. intros m Hm Hid Hr. apply triple_checked. intros [] Hv.
  apply triple_bind_same; [apply unlock_sound|intros []]. apply hoare_ret. intros d Hd. split; [done|].
  rewrite Hid. intros HR. unfold validate_for_validation in Hv. by rewrite Hr in Hv.
Qed.
Lemma usable_keys_sound names now : triple (sound R) (sound R) (usable_keys names now) (λ _, sound R).
Proof.
  induction names as [|n names IH]; [by apply hoare_ret|]. cbn [usable_keys].
  apply triple_bind_same.
  { eapply hoare_weaken; [by apply (read_material_spec (sound R) (sound R))|done|by intros ? ? [? _]|done]. }
  intros m. apply triple_bind_same; [exact IH|intros ids; by apply hoare_ret].
Qed.
Lemma recover_sound now : triple (sound R) (sound R) (recover now) (λ _, sound R).
Proof.
  apply triple_bind_same; [apply lock_sound|intros []].
  apply triple_bind_same; [apply attempted_spec; by apply read_active_id_spec|intros [id|]].
  - apply read_key_sound. intros m _ _ _. apply triple_checked. intros [] _. by apply hoare_ret.
  - apply triple_bind_same.
    { apply triple_bind_same; [by apply triple_probe|intros []]. apply hoare_get_bind. intros d Hd.
      apply (hoare_pre _ (on (sound R))); [|by intros ? ->].
      apply triple_bind_same; [apply usable_keys_sound|intros ids; by apply hoare_ret]. }
    intros [|id [|? ?]]; [by apply triple_fail| |by apply triple_fail].
    apply triple_bind_same; [apply persist_active_sound|intros []].
    apply triple_bind_same; [apply unlock_sound|intros []; by apply hoare_ret].
Qed.
Lemma open_sound : triple (sound R) (sound R) open_keyring (λ _, sound R).
Proof.
  apply triple_bind_same; [by apply triple_probes|intros []].
  apply triple_bind_same; [|intros []; by apply triple_probes].
  apply hoare_get_bind. intros d Hd. apply (hoare_pre _ (on (sound R))); [|by intros ? ->].
  destruct (files d !! FormatMarker); [|by apply replace_sound].
  apply triple_bind_same.
  { eapply hoare_weaken; [by apply (read_private_file_spec (sound R) (sound R))|done|by intros ? ? [? _]|done]. }
  intros b. case_bool_decide; [by apply hoare_ret|by apply triple_fail].
Qed.
End Sound.
Lemma revoke_sound R id : triple (sound R) (sound R) (revoke id) (λ _, sound (R ∪ {[id]})).
Proof.
  apply triple_checked. intros [] Hv. apply triple_bind_same; [apply lock_sound|intros []].
  apply read_key_sound. intros m Hm Hid Hr.
  apply (triple_bind _ _ _ _ (λ _, sound (R ∪ {[id]}))).
  { rewrite <- Hid. by apply (persist_key_sound R (with_status Revoked m)); [apply storable_with_status|]. }
  intros []. eapply hoare_weaken; [apply (withdraw_sound (R ∪ {[id]}))|done|done|].
  intros e d. apply sound_subset. set_solver.
Qed.
(** What a command may bring in: well-typed, and no key of [R]. *)
Definition brings (R : gset string) (c : command * list access) : Prop :=
  match installed c.1 with Some m => times_fit m ∧ key_id (metadata m) ∉ R | None => True end.
Lemma no_key_sound {A} R (o : key_op A) :
  triple (sound R) (sound R) o (λ _, sound R) →
  triple (sound R) (sound R) (no_key o)
    (λ a fs, sound R fs ∧ match a with Some m => key_id (metadata m) ∉ R | None => True end).
Proof. intros Ho. apply triple_bind_same; [exact Ho|]. intros a. by apply hoare_ret. Qed.
Lemma run_command_sound R c :
  match installed c with Some m => times_fit m ∧ key_id (metadata m) ∉ R | None => True end →
  triple (sound R) (sound R) (run_command c)
    (λ a fs, sound R fs ∧ match a with Some m => key_id (metadata m) ∉ R | None => True end).
Proof.
  destruct c; cbn [run_command installed]; intros Hc; try apply no_key_sound.
  - by apply install_initial_sound; destruct Hc.
  - by apply rotate_sound; destruct Hc.
  - eapply hoare_weaken; [apply revoke_sound|done| |done]. intros [] d. apply sound_subset. set_solver.
  - apply (triple_bind _ _ _ _ (λ m fs, sound R fs ∧ key_id (metadata m) ∉ R)); [apply resolve_active_sound|].
    intros m. by apply hoare_ret.
  - apply (triple_bind _ _ _ _ (λ m fs, sound R fs ∧ key_id (metadata m) ∉ R)); [apply resolve_for_validation_sound|].
    intros m. by apply hoare_ret.
  - apply recover_sound.
  - apply open_sound.
Qed.
Lemma run_sound R cs d :
  sound R (files d) → Forall (brings R) cs →
  sound R (files (run cs d).2) ∧ ∀ m, Ok (Some m) ∈ (run cs d).1 → key_id (metadata m) ∉ R.
Proof.
  revert d. induction cs as [|[c accesses] cs IH]; intros d Hd Hcs.
  { split; [done|]. intros m Hm. by apply elem_of_nil in Hm. }
  apply Forall_cons in Hcs as [Hc Hcs]. cbn [run].
  pose proof (run_command_sound R c Hc (restart accesses d) Hd) as Hr. unfold on in Hr.
  destruct (run_command c (restart accesses d)) as [r d1].
  assert (sound R (files d1)) as Hd1 by (destruct r; [by destruct Hr|done]).
  specialize (IH d1 Hd1 Hcs). destruct (run cs d1) as [rs d2]. destruct IH as [IH1 IH2]. split; [done|].
  intros m [<-|Hm]%elem_of_cons; [by destruct Hr|by apply IH2].
Qed.

(** The key [id] is on file, and revoked. *)
Definition is_revoked (d : keyring) (id : string) : Prop :=
  ∃ m, holds_key (files d) id m ∧ key_status (metadata m) = Revoked.
Lemma sound_with_revoked fs id :
  sound ∅ fs → (∃ m, holds_key fs id m ∧ key_status (metadata m) = Revoked) → sound {[id]} fs.
Proof. intros [Hf _] Hr. split; [done|]. intros i ->%elem_of_singleton. done. Qed.

(** What is resolved was on file. *)
Lemma resolve_for_validation_reads id now (d d' : keyring) m :
  resolve_for_validation id now d = (Ok m, d') → holds_key (files d) id m.
Proof.
  intros Hr. assert (triple (λ _, True) (λ fs, fs = files d) (resolve_for_validation id now)
    (λ m fs, holds_key (files d) id m)) as Ht.
  { apply triple_lift_bind; [done|]. intros [] _.
    apply (triple_bind _ _ _ _ (λ _ fs, fs = files d)); [by apply triple_probes|intros []].
    apply (triple_bind _ _ _ _ (λ m fs, fs = files d ∧ holds_key fs id m)); [by apply read_key_spec|intros r].
    apply (triple_assume _ _ _ _ (holds_key (files d) id r)); [by intros fs [-> ?]|intros Hr'].
    apply triple_lift_bind; [done|]. intros [] _.
    apply (triple_bind _ _ _ _ (λ _ _, True)); [|intros []; by apply hoare_ret].
    apply (triple_pre _ _ (λ _, True)); [by apply triple_probe|done]. }
  specialize (Ht d eq_refl). by rewrite Hr in Ht.
Qed.

(** C12: After any calls, with any failures and deaths of the process: a call of
    [revoke] that succeeds leaves the key on file as revoked, and once a key is
    on file as revoked (also after a call that died half way) no later calls
    change that or hand the key out again, unless one of them installs a
    material under the very same id. *)
Theorem revoked_key_is_never_resolved id earlier later :
  Forall (brings ∅) earlier → Forall (brings {[id]}) later →
  let d := (run earlier disk_new).2 in
  (∀ accesses d', revoke id (restart accesses d) = (Ok (), d') → is_revoked d' id) ∧
  (is_revoked d id →
   is_revoked (run later d).2 id ∧ ∀ m, Ok (Some m) ∈ (run later d).1 → key_id (metadata m) ≠ id).
Proof.
  intros He Hl d. destruct (run_sound ∅ earlier disk_new sound_empty He) as [Hd _]. fold d in Hd. split.
  - intros accesses d' Hr. pose proof (revoke_sound ∅ id (restart accesses d) Hd) as Hs. rewrite Hr in Hs.
    apply (sound_revoked _ _ Hs). set_solver.
  - intros Hr. destruct (run_sound {[id]} later d (sound_with_revoked _ _ Hd Hr) Hl) as [Hs Hk]. split.
    + apply (sound_revoked _ _ Hs). set_solver.
    + intros m Hm Hid. apply (Hk m Hm). rewrite Hid. set_solver.
Qed.

(** ** Rotation *)

Definition selects (fs : keyring_files) (id : string) : Prop :=
  fs !! ActiveKey = Some (str_bytes (id +:+ String LF EmptyString)) ∧ validate_key_id id = Ok ().
Definition stores (fs : keyring_files) (m : SecuritySecretMaterial) : Prop :=
  fs !! KeyFile (key_id (metadata m)) = Some (str_bytes (format_secret_material m)) ∧ storable m ∧
  lenN (secret m) ≤ 32000.
(** The key that a keyring issues with. *)
Definition issuing (fs : keyring_files) (m : SecuritySecretMaterial) : Prop :=
  selects fs (key_id (metadata m)) ∧ stores fs m.

Lemma valid_key_id_len id : validate_key_id id = Ok () → str_len id ≤ 128.
Proof.
  unfold validate_key_id. destruct (_ || _) eqn:E; [done|]. apply orb_false_iff in E as [E _].
  apply orb_false_iff in E as [_ E]. by apply N.ltb_ge in E.
Qed.
Lemma format_secret_length m :
  storable m → lenN (secret m) ≤ 32000 → str_len (format_secret_material m) ≤ 65536.
Proof.
  intros [Hid _ Hc He] Hs. unfold format_secret_material, line, str_len. cbv zeta.
  rewrite !string_length_app. pose proof (valid_key_id_len _ Hid) as Hl. pose proof (show_u64_length _ Hc) as Hcl.
  pose proof (length_hex_encode (secret m)) as Hh. unfold str_len in *.
  assert (N.of_nat (String.length match expires_at_ms (metadata m) with Some e => show_u64 e | None => "none" end) ≤ 64)
    by (destruct (expires_at_ms (metadata m)); [by apply show_u64_length|done]).
  assert (String.length (status_label (key_status (metadata m))) ≤ 10)%nat
    by (destruct (key_status (metadata m)); simpl; lia).
  cbn [String.length]. lia.
Qed.
Lemma read_private_file_calm fs f n b :
  fs !! f = Some b → lenN b ≤ n → read_private_file f n (calm fs) = (Ok b, calm fs).
Proof.
  intros Hf Hn. unfold read_private_file. erewrite op_ok_bind by apply calm_read. rewrite Hf.
  by rewrite (proj2 (N.ltb_ge _ _)).
Qed.
Lemma trim_key_id id : validate_key_id id = Ok () → trim (id +:+ String LF EmptyString) = id.
Proof.
  intros Hid. destruct (valid_key_id_plain _ Hid) as [Hne Hg]. unfold trim.
  destruct id as [|c id]; [done|]. assert (solid c) as Hc by (apply andb_true_iff in Hg as [? _]; by apply graphic_solid).
  rewrite string_app_cons, trim_start_id by done. rewrite <- string_app_cons. clear Hne Hid Hc.
  revert Hg. generalize (String c id). intros s. induction s as [|x s IH]; [done|].
  cbn [str_all]. intros [Hx Hs]%andb_true_iff. rewrite string_app_cons. cbn [trim_end].
  rewrite trim_start_id by by apply graphic_solid. by rewrite bool_decide_eq_false_2, IH.
Qed.
Lemma read_active_id_calm fs id : selects fs id → read_active_id (calm fs) = (Ok id, calm fs).
Proof.
  intros [Hf Hid]. unfold read_active_id. erewrite op_ok_bind; cycle 1.
  { apply read_private_file_calm; [exact Hf|]. pose proof (valid_key_id_len _ Hid) as Hl.
    rewrite length_str_bytes. unfold str_len in *. rewrite string_length_app. simpl. lia. }
  unfold str_bytes. rewrite String.string_of_list_byte_of_string. rewrite trim_key_id by done.
  rewrite utf8_valid_ascii; [by rewrite Hid|]. apply str_ascii_app. split; [|by repeat split].
  apply graphic_ascii. by destruct (valid_key_id_plain _ Hid).
Qed.
Lemma read_key_calm fs m : stores fs m → read_key (key_id (metadata m)) (calm fs) = (Ok m, calm fs).
Proof.
  intros (Hf & Hm & Hl). unfold read_key. rewrite (storable_id _ Hm). unfold read_material.
  erewrite op_ok_bind by done. erewrite op_ok_bind; cycle 1.
  { apply read_private_file_calm; [exact Hf|]. rewrite length_str_bytes. by apply format_secret_length. }
  by rewrite parse_format.
Qed.
Lemma resolve_active_calm fs m now :
  issuing fs m → validate_for_issue m now = Ok () → resolve_active now (calm fs) = (Ok m, calm fs).
Proof.
  intros [Hs Hm] Hv. unfold resolve_active. erewrite op_ok_bind by apply calm_probes.
  erewrite op_ok_bind by by apply read_active_id_calm. erewrite op_ok_bind by by apply read_key_calm.
  by rewrite Hv.
Qed.
Lemma resolve_for_validation_calm fs m now :
  stores fs m → validate_for_validation m now = Ok () →
  resolve_for_validation (key_id (metadata m)) now (calm fs) = (Ok m, calm fs).
Proof.
  intros Hm Hv. unfold resolve_for_validation. rewrite (storable_id m) by by destruct Hm as (_ & ? & _).
  erewrite op_ok_bind by done. erewrite op_ok_bind by apply calm_probes.
  erewrite op_ok_bind by by apply read_key_calm. by rewrite Hv.
Qed.

Section Rotation.
Context (old next : SecuritySecretMaterial).
Abbreviation old_id := (key_id (metadata old)).
Abbreviation next_id := (key_id (metadata next)).
Definition one_issues (fs : keyring_files) : Prop := issuing fs old ∨ issuing fs next.
Definition next_written (fs : keyring_files) : Prop :=
  one_issues fs ∧ stores fs next ∧ (old_id ≠ next_id → stores fs old).
Definition next_selected (fs : keyring_files) : Prop := issuing fs next ∧ (old_id ≠ next_id → stores fs old).

Lemma one_issues_written fs : next_written fs → one_issues fs.
Proof. by intros [? _]. Qed.
Lemma one_issues_selected fs : next_selected fs → one_issues fs.
Proof. intros [? _]. by right. Qed.
Lemma stores_insert fs m : storable m → lenN (secret m) ≤ 32000 →
  stores (<[KeyFile (key_id (metadata m)) := str_bytes (format_secret_material m)]> fs) m.
Proof. intros Hm Hl. split; [by rewrite lookup_insert_eq|done]. Qed.
Lemma stores_other fs f b m : f ≠ KeyFile (key_id (metadata m)) → stores fs m → stores (<[f := b]> fs) m.
Proof. intros Hf [H1 H2]. split; [by rewrite lookup_insert_ne|done]. Qed.
Lemma selects_other fs f b id : f ≠ ActiveKey → selects fs id → selects (<[f := b]> fs) id.
Proof. intros Hf [H1 H2]. split; [by rewrite lookup_insert_ne|done]. Qed.

Context (Hnext : storable next) (Hsize : lenN (secret next) ≤ 32000).

Lemma persist_next : triple one_issues (λ fs, issuing fs old) (persist_key next) (λ _, next_written).
Proof.
  unfold persist_key. rewrite (storable_id _ Hnext). apply hoare_lift_ok.
  apply triple_replace; [|apply one_issues_written]. intros fs [Hsel Hst].
  assert (next_written (<[KeyFile next_id := str_bytes (format_secret_material next)]> fs)) as Hw.
  { pose proof (stores_insert fs next Hnext Hsize) as Hn. unfold next_written, one_issues.
    destruct (decide (old_id = next_id)) as [He|He].
    - split_and!; [right|done|done]. split; [|done]. rewrite <- He at 2. by apply selects_other.
    - assert (stores (<[KeyFile next_id := str_bytes (format_secret_material next)]> fs) old) as Ho
        by (apply stores_other; congruence).
      split_and!; [left|done|done]. split; [by apply selects_other|done]. }
  split_and!; [by left|by apply one_issues_written|done].
Qed.
Lemma select_next : triple one_issues next_written (persist_active next_id) (λ _, next_selected).
Proof.
  unfold persist_active. rewrite (storable_id _ Hnext). apply hoare_lift_ok.
  apply triple_replace; [|apply one_issues_selected]. intros fs (Ho & Hn & Hold).
  assert (next_selected (<[ActiveKey := str_bytes (next_id +:+ String LF EmptyString)]> fs)) as Hs.
  { split; [split|].
    - split; [by rewrite lookup_insert_eq|apply storable_id, Hnext].
    - by apply stores_other.
    - intros Hne. by apply stores_other, Hold. }
  split_and!; [done|by apply one_issues_selected|done].
Qed.
Lemma deprecate_old : key_status (metadata old) = Active → old_id ≠ next_id →
  triple one_issues next_selected (deprecate old_id)
    (λ _ fs, issuing fs next ∧ stores fs (with_status Deprecated old)).
Proof.
  intros Hact Hne. unfold deprecate.
  apply (triple_bind _ _ _ _ (λ m fs, next_selected fs ∧ holds_key fs old_id m)).
  { apply read_key_spec, one_issues_selected. }
  intros m. apply (triple_assume _ _ _ _ (m = old ∧ storable old ∧ lenN (secret old) ≤ 32000)).
  { intros fs [[_ Hst] Hm]. destruct (Hst Hne) as (Hf & Ho & Hl). split; [|done].
    apply (holds_key_unique fs old_id); [done|]. eexists. split; [exact Hf|]. by apply parse_format. }
  intros (-> & Ho & Hl). rewrite Hact. rewrite bool_decide_eq_false_2 by done.
  unfold persist_key. rewrite (storable_id _ (storable_with_status Deprecated _ Ho)). apply hoare_lift_ok.
  apply triple_replace.
  - intros fs [Hs _]. pose proof Hs as [[Hsel Hst] _].
    assert (issuing (<[KeyFile old_id := str_bytes (format_secret_material (with_status Deprecated old))]> fs) next)
      as Hi by (split; [by apply selects_other|apply stores_other; [congruence|done]]).
    split_and!; [by apply one_issues_selected|by right|done|].
    apply stores_insert; [by apply storable_with_status|done].
  - intros fs [? _]. by right.
Qed.
Lemma read_active_old :
  triple (λ fs, issuing fs old) (λ fs, issuing fs old) read_active_id (λ id fs, issuing fs old ∧ id = old_id).
Proof.
  unfold read_active_id.
  apply (triple_bind _ _ _ _ (λ b fs, issuing fs old ∧ fs !! ActiveKey = Some b)).
  { by apply read_private_file_spec. }
  intros b. apply (triple_assume _ _ _ _ (b = str_bytes (old_id +:+ String LF EmptyString) ∧ validate_key_id old_id = Ok ())).
  { intros fs [[[Hf Hid] _] Hb]. split; [congruence|done]. }
  intros [-> Hid]. unfold str_bytes. rewrite String.string_of_list_byte_of_string, trim_key_id by done.
  cbv zeta. destruct (utf8_valid _); [|apply triple_fail; by intros fs [? _]].
  rewrite Hid. apply hoare_lift_ok. apply hoare_ret. by intros d [Hd _].
Qed.
Lemma rotate_spec now : key_status (metadata old) = Active → validate_new_active next now = Ok () →
  triple one_issues (λ fs, issuing fs old) (rotate next now)
    (λ previous fs, issuing fs next ∧
       (previous = None ∨ previous = Some old_id ∧ stores fs (with_status Deprecated old))).
Proof.
  intros Hact Hv. unfold rotate. rewrite Hv. apply hoare_lift_ok.
  apply (triple_bind _ _ _ _ (λ _ fs, issuing fs old)); [apply triple_probes; by left|intros []].
  apply (triple_bind _ _ _ _ (λ r fs, issuing fs old ∧ (r = None ∨ r = Some old_id))).
  { intros d Hd. pose proof (read_active_old d Hd) as Hr. unfold attempt.
    destruct (read_active_id d) as [[id|e] d']; [|by split; [|left]].
    destruct Hr as [Ho ->]. split; [done|by right]. }
  intros previous. apply (triple_assume _ _ _ _ (previous = None ∨ previous = Some old_id)); [by intros fs [_ ?]|].
  intros Hp. apply (triple_pre _ _ (λ fs, issuing fs old)); [|by intros fs [? _]].
  case_bool_decide as Hc; [apply triple_fail; by left|].
  apply (triple_bind _ _ _ _ (λ _, next_written)); [apply persist_next|intros []].
  apply (triple_bind _ _ _ _ (λ _, next_selected)); [apply select_next|intros []].
  apply (triple_bind _ _ _ _ (λ _ fs, issuing fs next ∧
    (previous = None ∨ previous = Some old_id ∧ stores fs (with_status Deprecated old)))).
  - destruct Hp as [->| ->]; [apply hoare_ret; intros d [Hd _]; split; [done|by left]|].
    eapply hoare_weaken; [apply deprecate_old; [done|congruence]|done| |done].
    intros [] d [Hi Hd]. split; [done|by right].
  - intros []. apply (triple_bind _ _ _ _ (λ _ fs, issuing fs next ∧
      (previous = None ∨ previous = Some old_id ∧ stores fs (with_status Deprecated old)))).
    + apply triple_probe. intros fs [? _]. by right.
    + intros []. by apply hoare_ret.
Qed.
End Rotation.
(** The active key is the one that is handed out, whatever fails. *)
Lemma resolve_active_spec m now :
  triple (λ fs, issuing fs m) (λ fs, issuing fs m) (resolve_active now) (λ r fs, issuing fs m ∧ r = m).
Proof.
  apply triple_bind_same; [by apply triple_probes|intros []].
  apply (triple_bind _ _ _ _ (λ id fs, issuing fs m ∧ id = key_id (metadata m))); [apply read_active_old|].
  intros id. apply (triple_assume _ _ _ _ (id = key_id (metadata m))); [by intros fs [_ ?]|]. intros ->.
  apply (triple_pre _ _ (λ fs, issuing fs m)); [|by intros fs [? _]].
  apply (triple_bind _ _ _ _ (λ r fs, issuing fs m ∧ holds_key fs (key_id (metadata m)) r)); [by apply read_key_spec|].
  intros r. apply (triple_assume _ _ _ _ (r = m)).
  { intros fs [(_ & Hf & Hm & _) Hr]. apply (holds_key_unique fs (key_id (metadata m))); [done|].
    eexists. split; [exact Hf|]. by apply parse_format. }
  intros ->. apply (triple_pre _ _ (λ fs, issuing fs m)); [|by intros fs [? _]].
  apply triple_checked. intros [] _. apply triple_bind_same; [by apply triple_probe|intros []]. by apply hoare_ret.
Qed.

(** Whatever fails in a rotation, and wherever the process dies, the keyring
    still issues: with the previous key or with the next one. A rotation that
    returns has selected the next key, and the previous one, when the call
    returns its id, validates as deprecated; when the pointer could not be read
    the call returns no id and the previous key stays as it was. *)
Theorem interrupted_rotation_keeps_issuing old next now accesses (d : keyring) later :
  issuing (files d) old → times_fit next → lenN (secret next) ≤ 32000 →
  validate_for_issue old later = Ok () → validate_for_issue next later = Ok () →
  let '(r, d') := rotate next now (restart accesses d) in
  let resolved := (resolve_active later (calm (files d'))).1 in
  (resolved = Ok old ∨ resolved = Ok next) ∧
  ∀ previous, r = Ok previous →
    resolved = Ok next ∧
    (previous = None ∨
     previous = Some (key_id (metadata old)) ∧
     (resolve_for_validation (key_id (metadata old)) later (calm (files d'))).1 = Ok (with_status Deprecated old)).
Proof.
  intros Ho Ht Hsize Hvo Hvn. destruct (validate_new_active next now) as [[]|e] eqn:Hv.
  - destruct (validate_new_active_storable next now Ht Hv) as [Hn _].
    assert (key_status (metadata old) = Active ∧ is_expired old later = false) as [Hact Hexp].
    { unfold validate_for_issue, validate_for_validation in Hvo.
      destruct (key_status (metadata old)), (is_expired old later); done. }
    pose proof (rotate_spec old next Hn Hsize now Hact Hv (restart accesses d) Ho) as Hr.
    destruct (rotate next now (restart accesses d)) as [[previous|e] d']; cbn [on] in Hr; unfold on in Hr.
    + destruct Hr as [Hi Hp]. rewrite (resolve_active_calm _ next) by done. split; [by right|].
      intros p [= <-]. split; [done|]. destruct Hp as [->|[-> Hst]]; [by left|right]. split; [done|].
      rewrite (resolve_for_validation_calm _ (with_status Deprecated old)); [done..|].
      unfold validate_for_validation. change (is_expired (with_status _ _)) with (is_expired old). by rewrite Hexp.
    + split; [|done]. destruct Hr as [Hi|Hi]; [left|right]; by rewrite (resolve_active_calm _ _ _ Hi).
  - unfold rotate. rewrite Hv. erewrite op_err_bind by done. split; [left|done]. by rewrite (resolve_active_calm _ old).
Qed.
Module Demo.
Definition material (id : string) (byte : Byte.byte) : SecuritySecretMaterial :=
  {| secret := repeat byte 16;
     metadata := {| key_id := id; created_at_ms := 5; expires_at_ms := Some 100; key_status := Active |} |}.
(** The revocation of the active key dies before the pointer is removed. *)
Definition earlier : list (command * list access) :=
  [(Open, []); (Install (material "a" Byte.x41) 10, []); (Revoke "a", replicate 14 Works ++ [Dies])].
Definition later : list (command * list access) :=
  [(ResolveActive 20, []); (ResolveForValidation "a" 20, []); (Rotate (material "b" Byte.x42) 21, []);
   (ResolveActive 22, []); (ResolveForValidation "a" 22, [])].
Definition final : keyring := (run earlier disk_new).2.
End Demo.

Lemma revoked_key_is_never_resolved_witness :
  is_revoked Demo.final "a" ∧
  (run Demo.later Demo.final).1
  = [Err KeyRevoked; Err KeyRevoked; Ok None; Ok (Some (Demo.material "b" Byte.x42)); Err KeyRevoked] ∧
  ∀ m, Ok (Some m) ∈ (run Demo.later Demo.final).1 → key_id (metadata m) ≠ "a"%string.
Proof.
  assert (is_revoked Demo.final "a") as Hr.
  { eexists. split; [eexists; split; [vm_compute; reflexivity|vm_compute; reflexivity]|reflexivity]. }
  split; [exact Hr|]. split; [vm_compute; reflexivity|].
  refine (proj2 (proj2 (revoked_key_is_never_resolved "a" Demo.earlier Demo.later _ _) Hr)).
  - repeat constructor; try (vm_compute; discriminate).
  - repeat constructor; vm_compute; discriminate.
Defined.

(** The process dies between the pointer's rename and the previous key's file. *)
Lemma interrupted_rotation_keeps_issuing_witness :
  let d := (run (take 2 Demo.earlier) disk_new).2 in
  let '(r, d') := rotate (Demo.material "b" Byte.x42) 21 (restart (replicate 21 Works ++ [Dies]) d) in
  r = Err Io ∧ (resolve_active 30 (calm (files d'))).1 = Ok (Demo.material "b" Byte.x42) ∧
  ((resolve_active 30 (calm (files d'))).1 = Ok (Demo.material "a" Byte.x41) ∨
   (resolve_active 30 (calm (files d'))).1 = Ok (Demo.material "b" Byte.x42)).
Proof.
  assert (issuing (files (run (take 2 Demo.earlier) disk_new).2) (Demo.material "a" Byte.x41)) as Hi.
  { split; split; [vm_compute; reflexivity..|]. split; [|vm_compute; discriminate].
    split; [vm_compute; reflexivity|vm_compute; discriminate..]. }
  split; [vm_compute; reflexivity|]. split; [vm_compute; reflexivity|].
  assert (times_fit (Demo.material "b" Byte.x42)) as Ht by (split; vm_compute; discriminate).
  assert (lenN (secret (Demo.material "b" Byte.x42)) ≤ 32000) as Hl by (vm_compute; discriminate).
  exact (proj1 (interrupted_rotation_keeps_issuing _ _ 21 (replicate 21 Works ++ [Dies]) _ 30 Hi Ht Hl eq_refl eq_refl)).
Defined.
