(* ===== verification/Tokens.v ===== *)
(** Runtime tokens ([crates/appcore-security/src/token.rs], [request_hash.rs]):
    how they are issued, parsed and validated, and the hash that binds one to a
    request.

    Signing is the class [TokenProvider], which HashToken.v implements; JSON is
    the class [ClaimsJson]; SHA-256 is a parameter. *)

From S2P Require Import Prelude.
From S2P Require Import Text.
From S2P Require Import Types.
From S2P Require Import Encoding.
From S2P Require Import DemoText.

Local Open Scope N_scope.

Definition DEFAULT_RUNTIME_TOKEN_TTL_MS : N := 60000.
Definition LOCAL_ADMIN_SUBJECT : string := "local-admin".

Inductive SecurityError :=
| Unsupported (what : string) | InvalidToken | VerificationFailed | InvalidSecretRef | SecretUnavailable.
#[export] Instance SecurityError_eq_dec : EqDecision SecurityError.
Proof. solve_decision. Defined.
Inductive CommandTokenError := InvalidFormat | Unauthorized | Forbidden.
#[export] Instance CommandTokenError_eq_dec : EqDecision CommandTokenError.
Proof. solve_decision. Defined.

Record TokenClaims := { issuer : string; audience : string; salt : string; ttl_ms : N }.
Record RuntimeTokenClaims := {
  version : string;
  purpose : string;
  command_name : option string;
  scope : option string;
  subject : option string;
  issued_at_ms : N;
  expires_at_ms : N;
  jti : option string;
  request_hash : option string;
}.
#[export] Instance RuntimeTokenClaims_eq_dec : EqDecision RuntimeTokenClaims.
Proof. solve_decision. Defined.

(** What a provider does with payloads, on its state. *)
Class TokenProvider (S : Type) := {
  seal : list byte → TokenClaims → op S SecurityError (list byte);
  open : list byte → TokenClaims → op S SecurityError (list byte);
  sign : list byte → TokenClaims → op S SecurityError (list byte);
  verify : list byte → list byte → TokenClaims → op S SecurityError ();
}.

(** [serde_json] on the claims; [to_vec] of them does not fail. *)
Class ClaimsJson := {
  claims_to_vec : RuntimeTokenClaims → list byte;
  claims_from_slice : list byte → option RuntimeTokenClaims;
}.
Class ClaimsJsonLaws `{ClaimsJson} := {
  claims_roundtrip c : claims_from_slice (claims_to_vec c) = Some c;
  claims_not_empty c : claims_to_vec c ≠ [];
}.

(** ** Scopes *)

Definition is_admin (subject : option string) : bool := bool_decide (subject = Some LOCAL_ADMIN_SUBJECT).
Definition wildcard (scope : option string) : bool := bool_decide (scope = Some "*"%string).
Definition names_resource (purpose : string) : bool :=
  bool_decide (purpose = "command"%string) || bool_decide (purpose = "query"%string).

Definition validate_generated_claims (purpose : string) (command_name scope subject : option string) :
    result CommandTokenError () :=
  if names_resource purpose then
    if wildcard scope && is_admin subject then Ok ()
    else match command_name, scope with Some _, None => Ok () | _, _ => Err InvalidFormat end
  else if bool_decide (purpose = "sync"%string) && bool_decide (command_name = None) && bool_decide (scope = None)
  then Ok ()
  else if bool_decide (purpose = "peer"%string) then
    if wildcard scope && is_admin subject then Ok ()
    else match command_name, scope with None, None => Ok () | _, _ => Err InvalidFormat end
  else Err InvalidFormat.

Definition validate_claim_scope (c : RuntimeTokenClaims) (expected_name : option string) :
    result CommandTokenError () :=
  if names_resource (purpose c) then
    if wildcard (scope c) then if is_admin (subject c) then Ok () else Err Unauthorized
    else if bool_decide (scope c ≠ None) then Err Unauthorized
    else
      name ← ok_or Unauthorized (command_name c);
      expected ← ok_or Unauthorized expected_name;
      if bool_decide (name ≠ expected) then Err Forbidden else Ok ()
  else if bool_decide (purpose c = "sync"%string) && bool_decide (command_name c = None) && bool_decide (scope c = None)
  then Ok ()
  else if bool_decide (purpose c = "peer"%string) then
    if wildcard (scope c) then if is_admin (subject c) then Ok () else Err Unauthorized
    else if bool_decide (command_name c = None) && bool_decide (scope c = None) then Ok ()
    else Err Unauthorized
  else Err Unauthorized.

(** ** Tokens *)

Definition token_text (payload signature : list byte) : string :=
  "v1." +:+ hex_encode payload +:+ "." +:+ hex_encode signature.
Definition parse_v1_token (token : string) : option (list byte * list byte) :=
  token ← strip_prefix "v1." token;
  '(payload_hex, signature_hex) ← split_once "." token;
  payload ← hex_decode payload_hex;
  signature ← hex_decode signature_hex;
  Some (payload, signature).

Section Factory.
Context {S : Type} `{TokenProvider S} `{ClaimsJson} (claims : TokenClaims).

Definition issue (c : RuntimeTokenClaims) : op S CommandTokenError string :=
  signature ← op_map_err (λ _, Unauthorized) (sign (claims_to_vec c) claims);
  mret (token_text (claims_to_vec c) signature).
Definition create_v1_with_jti_and_hash (purpose : string) (command_name scope subject : option string)
    (issued_at_ms ttl_ms : N) (jti request_hash : option string) : op S CommandTokenError string :=
  _ ← op_lift (validate_generated_claims purpose command_name scope subject);
  issue {| version := "v1"; purpose := purpose; command_name := command_name; scope := scope; subject := subject;
           issued_at_ms := issued_at_ms; expires_at_ms := sat_add64 issued_at_ms ttl_ms; jti := jti;
           request_hash := request_hash |}.
Definition create_v1_for_purpose_scoped (purpose : string) (command_name scope subject : option string)
    (issued_at_ms ttl_ms : N) : op S CommandTokenError string :=
  _ ← op_lift (validate_generated_claims purpose command_name scope subject);
  issue {| version := "v1"; purpose := purpose; command_name := command_name; scope := scope; subject := subject;
           issued_at_ms := issued_at_ms; expires_at_ms := sat_add64 issued_at_ms ttl_ms; jti := None;
           request_hash := None |}.
Definition create_v1_for_purpose (purpose : string) (command_name subject : option string) (issued_at_ms ttl_ms : N) :
    op S CommandTokenError string :=
  create_v1_for_purpose_scoped purpose command_name None subject issued_at_ms ttl_ms.
Definition create_v1_scoped (command_name scope subject : option string) (issued_at_ms ttl_ms : N) :
    op S CommandTokenError string :=
  create_v1_for_purpose_scoped "command" command_name scope subject issued_at_ms ttl_ms.
Definition create_v1 (command_name subject : option string) (issued_at_ms ttl_ms : N) : op S CommandTokenError string :=
  create_v1_scoped command_name None subject issued_at_ms ttl_ms.

Definition check_request_hash (c : RuntimeTokenClaims) (expected : option string) : result CommandTokenError () :=
  match request_hash c with
  | None => Ok ()
  | Some hash =>
    match expected with
    | Some e => if bool_decide (hash ≠ e) then Err Forbidden else Ok ()
    | None => Err Unauthorized
    end
  end.
Definition validate_and_get_claims (token expected_purpose : string) (command_name : option string) (now_ms : N)
    (expected_request_hash : option string) : op S CommandTokenError RuntimeTokenClaims :=
  match parse_v1_token token with
  | None => op_fail InvalidFormat
  | Some (payload, signature) =>
    _ ← op_map_err (λ _, Unauthorized) (verify payload signature claims);
    c ← op_lift (ok_or InvalidFormat (claims_from_slice payload));
    if bool_decide (version c ≠ "v1"%string) || bool_decide (purpose c ≠ expected_purpose) then op_fail Unauthorized
    else if expires_at_ms c <=? now_ms then op_fail Unauthorized
    else
      _ ← op_lift (validate_claim_scope c command_name);
      _ ← op_lift (check_request_hash c expected_request_hash);
      mret c
  end.
Definition validate_for_purpose (token expected_purpose : string) (command_name : option string) (now_ms : N) :
    op S CommandTokenError () :=
  _ ← validate_and_get_claims token expected_purpose command_name now_ms None; mret ().
Definition validate (token command_name : string) (now_ms : N) : op S CommandTokenError () :=
  validate_for_purpose token "command" (Some command_name) now_ms.
End Factory.

(** ** [request_hash.rs] *)

Record RequestValidationDetails := {
  req_purpose : string;
  req_name : string;
  req_id : string;
  req_idempotency_key : option string;
  req_payload : string;
  req_subject : option string;
  req_audience : option string;
}.
Definition REQUEST_HASH_DOMAIN_V2 : list byte := str_bytes "appcore.request-hash.v2" ++ [byte_of_N 0].
Definition REQUEST_HASH_PREFIX_V2 : string := "v2:".

Definition update_required (tag : N) (value : string) : list byte := byte_of_N tag :: framed value.
Definition update_optional (tag : N) (value : option string) : list byte :=
  byte_of_N tag :: match value with Some v => byte_of_N 1 :: framed v | None => [byte_of_N 0] end.
Definition request_preimage (d : RequestValidationDetails) : list byte :=
  REQUEST_HASH_DOMAIN_V2
  ++ update_required 1 (req_purpose d) ++ update_required 2 (req_name d) ++ update_required 3 (req_id d)
  ++ update_optional 4 (req_idempotency_key d) ++ update_required 5 (req_payload d)
  ++ update_optional 6 (req_subject d) ++ update_optional 7 (req_audience d).
Definition compute_request_hash (sha256 : list byte → list byte) (d : RequestValidationDetails) : string :=
  REQUEST_HASH_PREFIX_V2 +:+ hex_encode (sha256 (request_preimage d)).

(** ** Parsing *)

Lemma hex_encode_free c b : hex_char c = false → str_free c (hex_encode b).
Proof.
  intros Hc. pose proof (hex_encode_chars b) as Hall. revert Hall. induction (hex_encode b) as [|x s IH]; [done|].
  cbn [str_all str_free]. intros [Hx Hs]%andb_true_iff. split; [|auto]. intros ->. congruence.
Qed.
Lemma parse_token_text p s : p ≠ [] → s ≠ [] → parse_v1_token (token_text p s) = Some (p, s).
Proof.
  intros Hp Hs. unfold parse_v1_token, token_text. rewrite strip_prefix_app. cbn [mbind option_bind].
  change ("." +:+ hex_encode s) with (String "." (hex_encode s)).
  rewrite split_once_app by by apply hex_encode_free. cbn. by rewrite !hex_decode_encode.
Qed.

Lemma parse_token_text_payload payload signature p' sig :
  payload ≠ [] → parse_v1_token (token_text payload signature) = Some (p', sig) → p' = payload.
Proof.
  intros Hp. destruct signature as [|b signature].
  - unfold parse_v1_token, token_text. rewrite strip_prefix_app. cbn [mbind option_bind].
    change ("." +:+ hex_encode []) with (String "." EmptyString).
    rewrite split_once_app by by apply hex_encode_free. cbn. by rewrite hex_decode_encode.
  - rewrite parse_token_text by done. by intros [= <- _].
Qed.

(** ** What a token permits *)

(** The resource [name] is within what the claims grant. *)
Inductive permits (c : RuntimeTokenClaims) (name : option string) : Prop :=
| permits_admin : purpose c ∈ ["command"; "query"; "peer"]%string → scope c = Some "*"%string →
    subject c = Some LOCAL_ADMIN_SUBJECT → permits c name
| permits_named n : purpose c ∈ ["command"; "query"]%string → scope c = None → command_name c = Some n →
    name = Some n → permits c name
| permits_unnamed : purpose c ∈ ["sync"; "peer"]%string → scope c = None → command_name c = None → permits c name.

Lemma names_resource_spec p : names_resource p = true ↔ p ∈ ["command"; "query"]%string.
Proof. unfold names_resource. rewrite orb_true_iff, !bool_decide_eq_true. set_solver. Qed.

Ltac purposes :=
  repeat match goal with
  | H : _ ∈ _ :: _ |- _ => apply elem_of_cons in H as [H|H]
  | H : _ ∈ [] |- _ => apply elem_of_nil in H; destruct H
  end.

Lemma names_resource_elem p : names_resource p = true → p ∈ ["command"; "query"; "peer"]%string.
Proof. rewrite names_resource_spec. set_solver. Qed.

Lemma validate_claim_scope_spec c name : validate_claim_scope c name = Ok () ↔ permits c name.
Proof.
  unfold validate_claim_scope, wildcard, is_admin.
  destruct (decide (scope c = Some "*"%string)) as [Hw|Hw], (decide (subject c = Some LOCAL_ADMIN_SUBJECT)) as [Ha|Ha];
    rewrite ?(bool_decide_eq_true_2 (scope c = _)), ?(bool_decide_eq_false_2 (scope c = Some _)),
      ?(bool_decide_eq_true_2 (subject c = _)), ?(bool_decide_eq_false_2 (subject c = _)) by done.
  1: { rewrite (bool_decide_eq_false_2 (scope c = None)), andb_false_r by congruence.
       destruct (names_resource (purpose c)) eqn:Hp; [|case_bool_decide as Hq]; split; try done.
       - intros _. apply permits_admin; [by apply names_resource_elem|done|done].
       - intros _. apply permits_admin; [set_solver|done|done].
       - intros []; [|congruence|congruence]. apply not_true_iff_false in Hp. rewrite names_resource_spec in Hp. set_solver. }
  1: { rewrite (bool_decide_eq_false_2 (scope c = None)), andb_false_r by congruence.
       destruct (names_resource (purpose c)); [|case_bool_decide]; (split; [done|intros []; congruence]). }
  all: destruct (names_resource (purpose c)) eqn:Hp.
  1, 3: apply names_resource_spec in Hp; case_bool_decide as Hs;
    [split; [done|intros []; congruence]|];
    destruct (command_name c) as [n|] eqn:Hn, name as [e|]; cbn; rewrite ?Hn;
    try (split; [done|intros []; purposes; congruence]);
    case_bool_decide as He;
    [split; [done|intros []; purposes; congruence]|subst];
    (split; [intros _; by apply (permits_named _ _ e)|done]).
  all: apply not_true_iff_false in Hp; rewrite names_resource_spec in Hp.
  all: destruct (decide (command_name c = None)) as [Hn|Hn], (decide (scope c = None)) as [Hs|Hs];
    rewrite ?(bool_decide_eq_true_2 (command_name c = None)), ?(bool_decide_eq_false_2 (command_name c = None)),
      ?(bool_decide_eq_true_2 (scope c = None)), ?(bool_decide_eq_false_2 (scope c = None)), ?andb_true_r, ?andb_false_r by done.
  all: repeat case_bool_decide; split; try done; try (intros _; apply permits_unnamed; [set_solver|done|done]).
  all: intros []; try congruence; set_solver.
Qed.

(** ** Validation *)

Section Validation.
Context {S : Type} `{TokenProvider S} `{ClaimsJson} (claims : TokenClaims).

(** What makes the claims [c] of a verified payload acceptable. *)
Record acceptable (c : RuntimeTokenClaims) (expected_purpose : string) (name : option string) (now : N)
    (hash : option string) : Prop := {
  acc_version : version c = "v1"%string;
  acc_purpose : purpose c = expected_purpose;
  acc_alive : now < expires_at_ms c;
  acc_permits : permits c name;
  acc_hash : request_hash c = None ∨ request_hash c = hash;
}.

Lemma check_request_hash_spec c hash :
  check_request_hash c hash = Ok () ↔ request_hash c = None ∨ request_hash c = hash.
Proof.
  unfold check_request_hash. destruct (request_hash c) as [h|]; [|by split; [left|]].
  destruct hash as [e|]; [|by split; [|intros []]]. case_bool_decide as He.
  - split; [done|]. intros [|[= ->]]; done.
  - subst. split; [by right|done].
Qed.

Lemma check_claims_spec c p name now hash (d : S) :
  ((if bool_decide (version c ≠ "v1"%string) || bool_decide (purpose c ≠ p) then op_fail Unauthorized
    else if expires_at_ms c <=? now then op_fail Unauthorized
    else _ ← op_lift (validate_claim_scope c name); _ ← op_lift (check_request_hash c hash); mret c) d).1
  = Ok c ↔ acceptable c p name now hash.
Proof.
  destruct (decide (version c = "v1"%string ∧ purpose c = p)) as [[Hv Hp]|Hno].
  - rewrite !bool_decide_eq_false_2 by auto. cbn [orb]. destruct (N.leb_spec (expires_at_ms c) now) as [Hx|Hx].
    { split; [done|]. intros []; lia. }
    pose proof (validate_claim_scope_spec c name) as Hs. pose proof (check_request_hash_spec c hash) as Hh.
    destruct (validate_claim_scope c name) as [[]|]; [|split; [done|by intros [? ? ? Hc%Hs ?]]].
    destruct (check_request_hash c hash) as [[]|]; [|split; [done|by intros [? ? ? ? Hc%Hh]]].
    split; [|done]. intros _. split; [done..|by apply Hs|by apply Hh].
  - destruct (bool_decide _ || bool_decide _) eqn:E; [split; [done|by intros []; destruct Hno]|].
    apply orb_false_iff in E as [E1 E2]. apply bool_decide_eq_false in E1, E2.
    by destruct Hno; split; apply dec_stable.
Qed.

(** A token is accepted exactly when it is a well-formed text whose payload
    the provider verifies against its signature, and the claims of that payload
    are of version v1 and of the expected purpose, have not expired, permit the
    named resource (by the wildcard of the local administrator, by naming it, or
    because their purpose names none) and are bound to no other request; then
    the claims of the payload are returned. *)
Lemma token_accepted_iff token p name now hash c (d : S) :
  (validate_and_get_claims claims token p name now hash d).1 = Ok c ↔
  ∃ payload signature,
    parse_v1_token token = Some (payload, signature) ∧
    (verify payload signature claims d).1 = Ok () ∧
    claims_from_slice payload = Some c ∧
    acceptable c p name now hash.
Proof.
  unfold validate_and_get_claims. destruct (parse_v1_token token) as [[payload signature]|]; cycle 1.
  { split; [done|]. by intros (? & ? & [=] & _). }
  unfold op_map_err. destruct (verify payload signature claims d) as [[[]|e] d'] eqn:Hv; cycle 1.
  { erewrite op_err_bind by by rewrite Hv. split; [done|]. intros (? & ? & [= -> ->] & Hv' & _). by rewrite Hv in Hv'. }
  erewrite op_ok_bind by by rewrite Hv. destruct (claims_from_slice payload) as [c'|] eqn:Hc; cycle 1.
  { split; [done|]. intros (? & ? & [= -> ->] & _ & Hc' & _). congruence. }
  cbn [ok_or]. rewrite op_lift_ok. split.
  - intros He. assert (c' = c) as ->; [|apply check_claims_spec in He; exists payload, signature; by rewrite Hv].
    destruct (bool_decide _ || _); [done|]. destruct (_ <=? _); [done|].
    destruct (validate_claim_scope c' name) as [[]|]; [|done]. by destruct (check_request_hash c' hash) as [[]|]; simplify_eq/=.
  - intros (? & ? & [= -> ->] & _ & Hc' & Ha). assert (c' = c) as -> by congruence. by apply check_claims_spec.
Qed.
End Validation.

(** ** Issuing *)

Section Issuing.
Context {S : Type} `{TokenProvider S} `{ClaimsJson} `{!ClaimsJsonLaws} (claims : TokenClaims).

(** The claims of an issued token. *)
Definition issued_claims (purpose : string) (command_name scope subject : option string) (issued ttl : N)
    (jti request_hash : option string) : RuntimeTokenClaims :=
  {| version := "v1"; purpose := purpose; command_name := command_name; scope := scope; subject := subject;
     issued_at_ms := issued; expires_at_ms := sat_add64 issued ttl; jti := jti; request_hash := request_hash |}.

Lemma create_v1_issues p name sc sub issued ttl jti hash (d d' : S) token :
  create_v1_with_jti_and_hash claims p name sc sub issued ttl jti hash d = (Ok token, d') →
  validate_generated_claims p name sc sub = Ok () ∧
  ∃ signature, sign (claims_to_vec (issued_claims p name sc sub issued ttl jti hash)) claims d = (Ok signature, d') ∧
    token = token_text (claims_to_vec (issued_claims p name sc sub issued ttl jti hash)) signature.
Proof.
  unfold create_v1_with_jti_and_hash. destruct (validate_generated_claims p name sc sub) as [[]|]; [|done].
  rewrite op_lift_ok. unfold issue, op_map_err, mbind, op_bind. fold (issued_claims p name sc sub issued ttl jti hash).
  destruct (sign _ claims d) as [[signature|] d1]; [|done]. cbn. intros [= <- <-]. split; [done|]. by exists signature.
Qed.

(** What generation lets through: the wildcard of the administrator, one
    resource, or a purpose without resources. *)
Lemma generated_permits p name sc sub issued ttl jti hash other :
  validate_generated_claims p name sc sub = Ok () →
  permits (issued_claims p name sc sub issued ttl jti hash) other ↔
  sc = Some "*"%string ∨ p ∈ ["sync"; "peer"]%string ∨ other = name.
Proof.
  unfold validate_generated_claims, wildcard, is_admin. destruct (names_resource p) eqn:Hp.
  - apply names_resource_spec in Hp. assert (p ∉ ["sync"; "peer"]%string) as Hno by set_solver.
    destruct (bool_decide _ && bool_decide _) eqn:E.
    + apply andb_true_iff in E as [E1%bool_decide_eq_true E2%bool_decide_eq_true]. intros _. split; [by left|].
      intros _. apply permits_admin; [cbn; set_solver|done..].
    + destruct name as [n|], sc as [?|]; try done. intros _. split.
      * intros [Hq Hs _|m Hq Hs Hn Ho|Hq Hs Hn]; cbn in *; [done| |done]. right. right. congruence.
      * intros [?|[?| ->]]; [done..|]. by apply (permits_named _ _ n).
  - destruct (bool_decide (p = "sync"%string) && _ && _) eqn:Hs.
    + apply andb_true_iff in Hs as [[E1%bool_decide_eq_true E2%bool_decide_eq_true]%andb_true_iff E3%bool_decide_eq_true].
      subst. intros _. split; [right; left; set_solver|]. intros _. apply permits_unnamed; cbn; [set_solver|done|done].
    + destruct (bool_decide (p = "peer"%string)) eqn:Hq; [|done]. apply bool_decide_eq_true in Hq as ->.
      destruct (bool_decide (sc = Some "*"%string) && bool_decide (sub = _)) eqn:E.
      * apply andb_true_iff in E as [E1%bool_decide_eq_true E2%bool_decide_eq_true]. intros _. split; [by left|].
        intros _. apply permits_admin; [cbn; set_solver|done..].
      * destruct name, sc; try done. intros _. split; [right; left; set_solver|].
        intros _. apply permits_unnamed; cbn; [set_solver|done|done].
Qed.

(** C13: A token that was issued, and whose signature the provider still verifies,
    is accepted for its own purpose and until its expiry only; for the resource
    it names, unless it carries the administrator's wildcard or a purpose that
    names none; and, when it is bound to a request, for that request only. The
    accepted claims are the issued ones. *)
Theorem issued_token_permits_only_its_request p name sc sub issued ttl jti hash (d d1 d2 : S) token
    p' name' now hash' c :
  create_v1_with_jti_and_hash claims p name sc sub issued ttl jti hash d = (Ok token, d1) →
  (∀ payload signature, sign payload claims d = (Ok signature, d1) →
     signature ≠ [] ∧ (verify payload signature claims d2).1 = Ok ()) →
  (validate_and_get_claims claims token p' name' now hash' d2).1 = Ok c ↔
  c = issued_claims p name sc sub issued ttl jti hash ∧
  p' = p ∧ now < sat_add64 issued ttl ∧
  (sc = Some "*"%string ∨ p ∈ ["sync"; "peer"]%string ∨ name' = name) ∧
  (hash = None ∨ hash' = hash).
Proof.
  intros Hc Hsign. apply create_v1_issues in Hc as [Hg (signature & Hs & ->)].
  destruct (Hsign _ _ Hs) as [Hne Hv]. pose proof (generated_permits p name sc sub issued ttl jti hash name' Hg) as Hp.
  rewrite token_accepted_iff, parse_token_text by (done || apply claims_not_empty). split.
  - intros (payload & signature' & [= <- <-] & _ & Hd & [_ Hq Ha Hr Hh]). rewrite claims_roundtrip in Hd.
    injection Hd as <-. cbn in *. apply Hp in Hr. split_and!; try done. destruct Hh as [->| ->]; [by left|by right].
  - intros (-> & -> & Ha & Hr & Hh). do 2 eexists. split; [reflexivity|]. rewrite claims_roundtrip.
    split_and!; [done..|]. split; cbn; [done..|by apply Hp|]. destruct Hh as [->| ->]; [by left|by right].
Qed.
End Issuing.

(** ** The request hash *)

Record representable (d : RequestValidationDetails) : Prop := {
  rep_purpose : fits (req_purpose d);
  rep_name : fits (req_name d);
  rep_id : fits (req_id d);
  rep_idempotency_key : fits_opt (req_idempotency_key d);
  rep_payload : fits (req_payload d);
  rep_subject : fits_opt (req_subject d);
  rep_audience : fits_opt (req_audience d);
}.

Lemma update_required_inj tag s t x y :
  fits s → fits t → update_required tag s ++ x = update_required tag t ++ y → s = t ∧ x = y.
Proof. intros Hs Ht H. apply cons_eq_inv in H as [_ H]. by apply framed_app_inj. Qed.
Lemma update_optional_inj tag o p x y :
  fits_opt o → fits_opt p → update_optional tag o ++ x = update_optional tag p ++ y → o = p ∧ x = y.
Proof.
  unfold fits_opt. intros Ho Hp H. apply cons_eq_inv in H as [_ H].
  destruct o as [s|], p as [t|]; apply cons_eq_inv in H as [Hb H]; try (vm_compute in Hb; discriminate); [|by subst].
  apply framed_app_inj in H as [-> ->]; auto.
Qed.
Lemma request_preimage_inj d d' : representable d → representable d' → request_preimage d = request_preimage d' → d = d'.
Proof.
  intros [P1 P2 P3 P4 P5 P6 P7] [Q1 Q2 Q3 Q4 Q5 Q6 Q7] H. unfold request_preimage in H. apply app_inv_head in H.
  apply update_required_inj in H as [E1 H]; [|done..]. apply update_required_inj in H as [E2 H]; [|done..].
  apply update_required_inj in H as [E3 H]; [|done..]. apply update_optional_inj in H as [E4 H]; [|done..].
  apply update_required_inj in H as [E5 H]; [|done..]. apply update_optional_inj in H as [E6 H]; [|done..].
  rewrite <- (app_nil_r (update_optional 7 (req_audience d))), <- (app_nil_r (update_optional 7 (req_audience d'))) in H.
  apply update_optional_inj in H as [E7 _]; [|done..]. destruct d, d'; simpl in *. congruence.
Qed.
(** Equal hashes mean equal requests, or a SHA-256 collision. *)
Lemma compute_request_hash_inj sha256 d d' :
  representable d → representable d' →
  compute_request_hash sha256 d = compute_request_hash sha256 d' →
  d = d' ∨ ∃ x y, x ≠ y ∧ sha256 x = sha256 y.
Proof.
  intros Hd Hd' H. unfold compute_request_hash in H. cbn in H. injection H as H.
  apply hex_encode_inj in H. destruct (decide (request_preimage d = request_preimage d')) as [E|E].
  - left. by apply request_preimage_inj.
  - right. eauto.
Qed.

Module Demo.
#[export] Instance claims_countable : Countable RuntimeTokenClaims.
Proof.
  apply (inj_countable'
    (λ c, (version c, purpose c, command_name c, scope c, (subject c, issued_at_ms c, expires_at_ms c, (jti c, request_hash c))))
    (λ '(v, p, n, s, (u, i, e, (j, h))), Build_RuntimeTokenClaims v p n s u i e j h)).
  by intros [].
Defined.
#[export] Instance claims_json : ClaimsJson := {|
  claims_to_vec c := str_bytes (String "{" (pos_text (encode c)));
  claims_from_slice b :=
    match String.string_of_list_byte b with String "{" t => decode (text_pos t) | _ => None end;
|}.
#[export] Instance claims_json_laws : ClaimsJsonLaws.
Proof.
  split; [|done]. intros c. unfold claims_from_slice, claims_to_vec, claims_json, str_bytes.
  rewrite String.string_of_list_byte_of_string, text_pos_text. apply decode_encode.
Qed.
End Demo.
