(* ===== verification/HashToken.v ===== *)
(** The token provider of the runtime ([crates/appcore-security/src/hashtoken.rs]):
    tokens of the HashToken library under a static secret or under the keys of
    the keyring of Keyring.v.

    The library is the class [HashTokenLibrary].  A provider at a time [now] is
    an instance of [Tokens.TokenProvider] on the files of the keyring. *)

From S2P Require Import Prelude.
From S2P Require Import Text.
From S2P Require Import Types.
From S2P Require Import Encoding.
From S2P Require Import DemoText.
From S2P Require Import Files.
From S2P Require Import Keyring.
From S2P Require Import Tokens.

Local Open Scope N_scope.

Record GenerateTokenOptions := { gen_expires_in : option N; gen_issuer : string; gen_audience : string }.
Record ValidateTokenOptions := { val_issuer : string; val_audience : string }.

(** [hash_token_rust]: managers made of a secret and salts; tokens are texts.
    [token_alive] is the library's own notion of a token that has not expired. *)
Class HashTokenLibrary := {
  Algorithm : Type;
  Sha256 : Algorithm;
  AdvancedTokenManager : Type;
  manager_new : list byte → list (list byte) → Algorithm → option AdvancedTokenManager;
  generate_token_bytes : AdvancedTokenManager → list byte → GenerateTokenOptions → N → option string;
  validate_token_bytes : AdvancedTokenManager → string → ValidateTokenOptions → N → option (list byte);
  seal_token_bytes : AdvancedTokenManager → list byte → GenerateTokenOptions → N → option string;
  open_token_bytes : AdvancedTokenManager → string → ValidateTokenOptions → N → option (list byte);
  token_alive : GenerateTokenOptions → N → N → Prop;
}.
Class HashTokenLaws `{HashTokenLibrary} := {
  generated_text m p o t s : generate_token_bytes m p o t = Some s → s ≠ EmptyString ∧ utf8_valid s = true;
  generated_validates m p o t s t' :
    generate_token_bytes m p o t = Some s → token_alive o t t' →
    validate_token_bytes m s {| val_issuer := gen_issuer o; val_audience := gen_audience o |} t' = Some p;
}.

Definition KEYRING_TOKEN_PREFIX : string := "appcore-keyring-v1.".
Definition MIN_TOKEN_SECRET_BYTES : N := 16.

Definition wrap_keyring_token (key_id : option string) (token : list byte) : list byte :=
  match key_id with
  | None => token
  | Some id => str_bytes KEYRING_TOKEN_PREFIX ++ str_bytes id ++ str_bytes "." ++ token
  end.
Definition unwrap_keyring_token (token : list byte) : result SecurityError (string * list byte) :=
  remainder ← ok_or InvalidToken (strip_prefix KEYRING_TOKEN_PREFIX (String.string_of_list_byte token));
  '(id, inner) ← ok_or InvalidToken (split_once "." remainder);
  if negb (utf8_valid id) then Err InvalidToken
  else if bool_decide (id = EmptyString) || bool_decide (inner = EmptyString) then Err InvalidToken
  else Ok (id, str_bytes inner).
Definition validate_material (secret : list byte) (salts : list (list byte)) : result SecurityError () :=
  if (lenN secret <? MIN_TOKEN_SECRET_BYTES) || bool_decide (salts = []) || existsb (λ s, bool_decide (s = [])) salts
  then Err InvalidToken else Ok ().

(** [ttl_ms.div_ceil(1_000)]. *)
Definition generate_options (c : TokenClaims) : GenerateTokenOptions :=
  {| gen_expires_in := if ttl_ms c =? 0 then None else Some ((ttl_ms c + 999) / 1000);
     gen_issuer := issuer c; gen_audience := audience c |}.
Definition validate_options (c : TokenClaims) : ValidateTokenOptions :=
  {| val_issuer := issuer c; val_audience := audience c |}.

Section Provider.
Context `{HashTokenLibrary}.

Inductive SecretSource := Static (secret : list byte) | KeyringSource.
Record HashTokenProvider := { source : SecretSource; salts : list (list byte); algorithm : Algorithm }.

Definition with_material (secret : list byte) (salts : list (list byte)) (a : Algorithm) :
    result SecurityError HashTokenProvider :=
  _ ← validate_material secret salts;
  Ok {| source := Static secret; salts := salts; algorithm := a |}.
Definition with_secret (secret : list byte) (salts : list (list byte)) : result SecurityError HashTokenProvider :=
  with_material secret salts Sha256.
Definition from_secret (secret : list byte) : result SecurityError HashTokenProvider :=
  with_material secret [str_bytes "appcore-salt-1"; str_bytes "appcore-salt-2"] Sha256.
Definition from_keyring (salts : list (list byte)) (now_ms : N) : op keyring SecurityError HashTokenProvider :=
  material ← op_map_err (λ _, SecretUnavailable) (resolve_active now_ms);
  _ ← op_lift (validate_material (secret material) salts);
  mret {| source := KeyringSource; salts := salts; algorithm := Sha256 |}.

Definition manager (p : HashTokenProvider) (secret : list byte) : result SecurityError AdvancedTokenManager :=
  ok_or InvalidToken (manager_new secret (salts p) (algorithm p)).
Definition active_manager (p : HashTokenProvider) (now_ms : N) :
    op keyring SecurityError (AdvancedTokenManager * option string) :=
  match source p with
  | Static s => m ← op_lift (manager p s); mret (m, None)
  | KeyringSource =>
    material ← op_map_err (λ _, SecretUnavailable) (resolve_active now_ms);
    m ← op_lift (manager p (secret material));
    mret (m, Some (key_id (metadata material)))
  end.
Definition validation_manager (p : HashTokenProvider) (token : list byte) (now_ms : N) :
    op keyring SecurityError (AdvancedTokenManager * list byte) :=
  match source p with
  | Static s => m ← op_lift (manager p s); mret (m, token)
  | KeyringSource =>
    '(id, inner) ← op_lift (unwrap_keyring_token token);
    material ← op_map_err (λ _, VerificationFailed) (resolve_for_validation id now_ms);
    m ← op_lift (manager p (secret material));
    mret (m, inner)
  end.
(** [str::from_utf8]. *)
Definition token_str (token : list byte) : result SecurityError string :=
  let s := String.string_of_list_byte token in if utf8_valid s then Ok s else Err InvalidToken.

Definition hash_seal (p : HashTokenProvider) (now : N) (payload : list byte) (c : TokenClaims) :
    op keyring SecurityError (list byte) :=
  '(m, id) ← active_manager p now;
  token ← op_lift (ok_or InvalidToken (seal_token_bytes m payload (generate_options c) now));
  mret (wrap_keyring_token id (str_bytes token)).
Definition hash_open (p : HashTokenProvider) (now : N) (token : list byte) (c : TokenClaims) :
    op keyring SecurityError (list byte) :=
  '(m, token) ← validation_manager p token now;
  s ← op_lift (token_str token);
  op_lift (ok_or InvalidToken (open_token_bytes m s (validate_options c) now)).
Definition hash_sign (p : HashTokenProvider) (now : N) (payload : list byte) (c : TokenClaims) :
    op keyring SecurityError (list byte) :=
  '(m, id) ← active_manager p now;
  token ← op_lift (ok_or InvalidToken (generate_token_bytes m payload (generate_options c) now));
  mret (wrap_keyring_token id (str_bytes token)).
Definition hash_verify (p : HashTokenProvider) (now : N) (payload signature : list byte) (c : TokenClaims) :
    op keyring SecurityError () :=
  '(m, signature) ← validation_manager p signature now;
  s ← op_lift (token_str signature);
  verified ← op_lift (ok_or VerificationFailed (validate_token_bytes m s (validate_options c) now));
  if bool_decide (verified = payload) then mret () else op_fail VerificationFailed.
Definition hash_token_provider (p : HashTokenProvider) (now : N) : TokenProvider keyring :=
  {| seal := hash_seal p now; open := hash_open p now; sign := hash_sign p now; verify := hash_verify p now |}.
End Provider.

(** ** The key of a token *)

Lemma string_of_bytes_app x y :
  String.string_of_list_byte (x ++ y) = String.string_of_list_byte x +:+ String.string_of_list_byte y.
Proof. induction x as [|b x IH]; [done|]. change (String (Ascii.ascii_of_byte b) (String.string_of_list_byte (x ++ y)) = String (Ascii.ascii_of_byte b) (String.string_of_list_byte x +:+ String.string_of_list_byte y)). by rewrite IH. Qed.
Lemma wrapped_text id token :
  String.string_of_list_byte (wrap_keyring_token (Some id) token)
  = KEYRING_TOKEN_PREFIX +:+ (id +:+ String "." (String.string_of_list_byte token)).
Proof.
  unfold wrap_keyring_token. rewrite !string_of_bytes_app. unfold str_bytes.
  by rewrite !String.string_of_list_byte_of_string.
Qed.
Lemma unwrap_wrap id token :
  str_free "." id → id ≠ EmptyString → utf8_valid id = true → token ≠ EmptyString →
  unwrap_keyring_token (wrap_keyring_token (Some id) (str_bytes token)) = Ok (id, str_bytes token).
Proof.
  intros Hf Hid Hu Ht. unfold unwrap_keyring_token. rewrite wrapped_text, strip_prefix_app. cbn [ok_or mbind result_bind].
  rewrite split_once_app by done. cbn. rewrite Hu. unfold str_bytes.
  rewrite String.string_of_list_byte_of_string, !bool_decide_eq_false_2 by done. done.
Qed.
(** A key id with a dot is cut at it. *)
Lemma unwrap_dotted a b token :
  str_free "." a →
  unwrap_keyring_token (wrap_keyring_token (Some (a +:+ String "." b)) (str_bytes token)) =
  if negb (utf8_valid a) then Err InvalidToken
  else if bool_decide (a = EmptyString) then Err InvalidToken
  else Ok (a, str_bytes (b +:+ String "." token)).
Proof.
  intros Hf. unfold unwrap_keyring_token. rewrite wrapped_text, strip_prefix_app. cbn [ok_or mbind result_bind].
  rewrite string_app_assoc, string_app_cons, split_once_app by done. cbn. destruct (utf8_valid a); [|done]. cbn.
  rewrite (bool_decide_eq_false_2 (_ +:+ _ = _)); [|by destruct b]. rewrite orb_false_r. unfold str_bytes.
  by rewrite String.string_of_list_byte_of_string.
Qed.

Section Keys.
Context `{HashTokenLibrary} `{!HashTokenLaws}.
Context (p : HashTokenProvider) (Hp : source p = KeyringSource).

(** A signature names the active key and holds a token of the library under its
    secret. *)
Lemma sign_under_active (d d1 : keyring) m now payload c signature :
  issuing (files d) m → hash_sign p now payload c d = (Ok signature, d1) →
  ∃ manager token,
    manager_new (secret m) (salts p) (algorithm p) = Some manager ∧
    generate_token_bytes manager payload (generate_options c) now = Some token ∧
    signature = wrap_keyring_token (Some (key_id (metadata m))) (str_bytes token).
Proof.
  intros Hm. unfold hash_sign, active_manager. rewrite Hp. unfold op_map_err.
  pose proof (resolve_active_spec m now d Hm) as Hr. unfold mbind, op_bind, op_lift, manager.
  destruct (resolve_active now d) as [[r|e] d2]; [|done]. destruct Hr as [_ ->]. cbn [map_err].
  destruct (manager_new (secret m) (salts p) (algorithm p)) as [mg|]; [|done]. cbn.
  destruct (generate_token_bytes mg payload (generate_options c) now) as [t|] eqn:Ht; [|done].
  cbn. intros [= <- _]. eauto.
Qed.

(** Verification asks the keyring for the key that the signature names. *)
Lemma verify_resolves (d d1 : keyring) now payload signature c :
  hash_verify p now payload signature c d = (Ok (), d1) →
  ∃ id inner m d2, unwrap_keyring_token signature = Ok (id, inner) ∧ resolve_for_validation id now d = (Ok m, d2).
Proof.
  unfold hash_verify, validation_manager. rewrite Hp. unfold op_map_err, mbind, op_bind, op_lift.
  destruct (unwrap_keyring_token signature) as [[id inner]|]; [|done].
  destruct (resolve_for_validation id now d) as [[m|e] d2] eqn:Hr; [|done]. intros _. by exists id, inner, m, d2.
Qed.

Lemma verify_calm fs m now t payload c token manager :
  manager_new (secret m) (salts p) (algorithm p) = Some manager →
  generate_token_bytes manager payload (generate_options c) t = Some token →
  token_alive (generate_options c) t now →
  str_free "." (key_id (metadata m)) → stores fs m → validate_for_validation m now = Ok () →
  hash_verify p now payload (wrap_keyring_token (Some (key_id (metadata m))) (str_bytes token)) c (calm fs)
  = (Ok (), calm fs).
Proof.
  intros Hmg Hg Ha Hf Hm Hv. destruct (generated_text _ _ _ _ _ Hg) as [Hne Hu].
  assert (validate_key_id (key_id (metadata m)) = Ok ()) as Hid by (destruct Hm as (_ & Hm & _); apply Hm).
  destruct (valid_key_id_plain _ Hid) as [Hid1 Hid2].
  unfold hash_verify, validation_manager. rewrite Hp, unwrap_wrap by (done || by apply utf8_valid_ascii, graphic_ascii).
  erewrite op_ok_bind; cycle 1.
  { rewrite op_lift_ok. cbv beta iota.
    erewrite op_ok_bind by by apply op_map_err_ok, resolve_for_validation_calm. unfold HashToken.manager. rewrite Hmg. done. }
  unfold token_str, str_bytes. rewrite String.string_of_list_byte_of_string, Hu. rewrite op_lift_ok.
  pose proof (generated_validates _ _ _ _ _ _ Hg Ha) as Hval. cbn in Hval. unfold validate_options. rewrite Hval.
  cbn [ok_or]. rewrite op_lift_ok. by rewrite bool_decide_eq_true_2.
Qed.

(** A signature made with the keyring, under the active key, verifies as long
    as the library finds its token alive and that key, with the same secret,
    validates: also when it was deprecated in the meantime, and in other
    processes. Once the key is on file as revoked nothing verifies against the
    signature any more, whatever fails. *)
Theorem keyring_tokens_die_with_their_key (d d1 : keyring) m now payload c signature :
  issuing (files d) m → str_free "." (key_id (metadata m)) →
  hash_sign p now payload c d = (Ok signature, d1) →
  (∀ fs m' now', stores fs m' → key_id (metadata m') = key_id (metadata m) → secret m' = secret m →
     validate_for_validation m' now' = Ok () → token_alive (generate_options c) now now' →
     hash_verify p now' payload signature c (calm fs) = (Ok (), calm fs)) ∧
  (∀ earlier accesses payload' c' now', Forall (brings ∅) earlier →
     let d' := (run earlier disk_new).2 in
     is_revoked d' (key_id (metadata m)) →
     (hash_verify p now' payload' signature c' (restart accesses d')).1 ≠ Ok ()).
Proof.
  intros Hm Hf Hs. destruct (sign_under_active _ _ _ _ _ _ _ Hm Hs) as (mg & token & Hmg & Hg & ->). split.
  - intros fs m' now' Hm' Hid Hsec Hv Ha. rewrite <- Hid in *. rewrite <- Hsec in Hmg. by eapply verify_calm.
  - intros earlier accesses payload' c' now' He d' Hr Hv.
    destruct (run_sound ∅ earlier disk_new sound_empty He) as [Hd _].
    destruct (hash_verify p now' payload' _ c' (restart accesses d')) as [r d2] eqn:E. cbn in Hv. subst r.
    apply verify_resolves in E as (id & inner & m2 & d3 & Hu & Hres).
    destruct (generated_text _ _ _ _ _ Hg) as [Hne _].
    assert (validate_key_id (key_id (metadata m)) = Ok ()) as Hid by (destruct Hm as [[_ ?] _]; done).
    destruct (valid_key_id_plain _ Hid) as [Hid1 Hid2].
    rewrite unwrap_wrap in Hu by (done || by apply utf8_valid_ascii, graphic_ascii). injection Hu as <- <-.
    pose proof (resolve_for_validation_sound {[key_id (metadata m)]} (key_id (metadata m)) now' (restart accesses d')) as Hsound.
    unfold on in Hsound. rewrite Hres in Hsound.
    destruct Hsound as [Hsd Hk]; [by apply sound_with_revoked|].
    apply resolve_for_validation_reads in Hres. cbn in Hres.
    apply (holds_key_sound _ _ _ _ Hd) in Hres as (_ & Hi & _). set_solver.
Qed.

(** The keyring accepts key ids with a dot, but a signature under such a key
    names, when it is read back, the part before the dot: unless there is a key
    of that name it is rejected, although it was made with the active key. *)
Theorem dotted_key_tokens_are_rejected (d d1 : keyring) m now payload c signature a b :
  issuing (files d) m → key_id (metadata m) = a +:+ String "." b → str_free "." a →
  hash_sign p now payload c d = (Ok signature, d1) →
  ∀ d' now', files d' !! KeyFile a = None → (hash_verify p now' payload signature c d').1 ≠ Ok ().
Proof.
  intros Hm Hid Hf Hs d' now' Ha Hv.
  destruct (sign_under_active _ _ _ _ _ _ _ Hm Hs) as (mg & token & Hmg & Hg & ->).
  destruct (hash_verify p now' payload _ c d') as [r d2] eqn:E. cbn in Hv. subst r.
  apply verify_resolves in E as (id & inner & m2 & d3 & Hu & Hres). rewrite Hid, unwrap_dotted in Hu by done.
  destruct (negb (utf8_valid a)); [done|]. case_bool_decide; [done|]. injection Hu as <- <-.
  apply resolve_for_validation_reads in Hres as (bytes & Hb & _). congruence.
Qed.
End Keys.

(** ** A library of texts *)

Module Demo.
Definition token (secret payload : list byte) : string := "T" +:+ hex_encode secret +:+ "." +:+ hex_encode payload.
Definition read (secret : list byte) (s : string) : option (list byte) :=
  rest ← strip_prefix ("T" +:+ hex_encode secret +:+ ".") s;
  if bool_decide (rest = EmptyString) then Some [] else hex_decode rest.
#[export] Instance library : HashTokenLibrary := {|
  Algorithm := (); Sha256 := (); AdvancedTokenManager := list byte;
  manager_new s _ _ := Some s;
  generate_token_bytes m p _ _ := Some (token m p);
  validate_token_bytes m s _ _ := read m s;
  seal_token_bytes m p _ _ := Some (token m p);
  open_token_bytes m s _ _ := read m s;
  token_alive _ _ _ := True;
|}.
#[export] Instance library_laws : HashTokenLaws.
Proof.
  split.
  - intros m p o t s [= <-]. split; [done|]. apply utf8_valid_ascii. unfold token. rewrite !str_ascii_app.
    split; [by repeat split|]. split; [|split; [by repeat split|]];
      (apply graphic_ascii; eapply str_all_impl; [|apply hex_encode_chars]; apply byte_class; vm_compute; reflexivity).
  - intros m p o t s t' [= <-] _. cbn. unfold read, token. rewrite <- !string_app_assoc, strip_prefix_app. cbn.
    destruct p as [|b p]; [done|]. rewrite bool_decide_eq_false_2 by done. by rewrite hex_decode_encode.
Qed.

Definition provider : HashTokenProvider := {| source := KeyringSource; salts := [str_bytes "salt"]; algorithm := Sha256 |}.
Definition claims : TokenClaims := {| issuer := "appcore"; audience := "runtime"; salt := "command"; ttl_ms := 60000 |}.
(** A keyring whose active key is [id]. *)
Definition installed (id : string) : keyring :=
  (Keyring.run [(Open, []); (Install (Keyring.Demo.material id Byte.x41) 10, [])] disk_new).2.
Definition signature (id : string) (payload : list byte) : list byte :=
  match (hash_sign provider 20 payload claims (installed id)).1 with Ok s => s | Err _ => [] end.
Definition history : list (command * list access) :=
  [(Open, []); (Install (Keyring.Demo.material "k1" Byte.x41) 10, []); (Rotate (Keyring.Demo.material "k2" Byte.x42) 11, [])].
Definition rotated : keyring := (Keyring.run history disk_new).2.
Definition ended : list (command * list access) := history ++ [(Revoke "k1", [])].
Definition revoked : keyring := (Keyring.run ended disk_new).2.
End Demo.
#[local] Existing Instances Demo.library Demo.library_laws Tokens.Demo.claims_json Tokens.Demo.claims_json_laws.

Lemma installed_issuing id :
  validate_key_id id = Ok () →
  (Keyring.run [(Open, []); (Install (Keyring.Demo.material id Byte.x41) 10, [])] disk_new).2 = Demo.installed id →
  files (Demo.installed id) !! ActiveKey = Some (str_bytes (id +:+ String LF EmptyString)) →
  files (Demo.installed id) !! KeyFile id = Some (str_bytes (format_secret_material (Keyring.Demo.material id Byte.x41))) →
  issuing (files (Demo.installed id)) (Keyring.Demo.material id Byte.x41).
Proof.
  intros Hid _ Ha Hk. split; split; [done..|]. split; [|vm_compute; discriminate].
  split; [done|vm_compute; discriminate..].
Qed.

Lemma revoked_on_file d m :
  files d !! KeyFile (key_id (metadata m)) = Some (str_bytes (format_secret_material m)) → storable m →
  key_status (metadata m) = Revoked → is_revoked d (key_id (metadata m)).
Proof. intros Hf Hm Hs. exists m. split; [|done]. eexists. split; [exact Hf|]. by apply parse_format. Qed.

(** Signed under the key [k1]; it is deprecated by a rotation, then revoked. *)
Lemma keyring_tokens_die_with_their_key_witness :
  let payload := str_bytes "payload" in
  let signature := Demo.signature "k1" payload in
  signature ≠ [] ∧
  hash_verify Demo.provider 30 payload signature Demo.claims (calm (files Demo.rotated)) = (Ok (), calm (files Demo.rotated)) ∧
  is_revoked Demo.revoked "k1" ∧
  (hash_verify Demo.provider 30 payload signature Demo.claims (restart [] Demo.revoked)).1 ≠ Ok ().
Proof.
  intros payload signature.
  assert (issuing (files (Demo.installed "k1")) (Keyring.Demo.material "k1" Byte.x41)) as Hi
    by (apply installed_issuing; vm_compute; reflexivity).
  assert (is_revoked Demo.revoked "k1") as Hr.
  { apply (revoked_on_file _ (with_status Revoked (Keyring.Demo.material "k1" Byte.x41)));
      [vm_compute; reflexivity|split; vm_compute; (reflexivity || discriminate)|reflexivity]. }
  destruct (keyring_tokens_die_with_their_key Demo.provider eq_refl (Demo.installed "k1") (Demo.installed "k1")
    (Keyring.Demo.material "k1" Byte.x41) 20 payload Demo.claims signature Hi) as [H1 H2];
    [by repeat split|vm_compute; reflexivity|].
  split; [vm_compute; discriminate|]. split; [|split; [exact Hr|]].
  - apply (H1 _ (with_status Deprecated (Keyring.Demo.material "k1" Byte.x41))); [|done|done|done|done].
    split; [vm_compute; reflexivity|]. split; [|vm_compute; discriminate].
    split; [vm_compute; reflexivity|vm_compute; discriminate..].
  - apply (H2 Demo.ended []); [|exact Hr]. repeat constructor; try (vm_compute; discriminate); set_solver.
Defined.

Lemma dotted_key_tokens_are_rejected_witness :
  let payload := str_bytes "payload" in
  validate_key_id "prod.2026" = Ok () ∧ Demo.signature "prod.2026" payload ≠ [] ∧
  (hash_verify Demo.provider 20 payload (Demo.signature "prod.2026" payload) Demo.claims (Demo.installed "prod.2026")).1 ≠ Ok ().
Proof.
  intros payload. split; [reflexivity|]. split; [vm_compute; discriminate|].
  assert (issuing (files (Demo.installed "prod.2026")) (Keyring.Demo.material "prod.2026" Byte.x41)) as Hi
    by (apply installed_issuing; vm_compute; reflexivity).
  refine (dotted_key_tokens_are_rejected Demo.provider eq_refl (Demo.installed "prod.2026") (Demo.installed "prod.2026")
    (Keyring.Demo.material "prod.2026" Byte.x41) 20 payload Demo.claims _ "prod" "2026" Hi eq_refl _ _ _ 20 _);
    [by repeat split|vm_compute; reflexivity|vm_compute; reflexivity].
Defined.

(** A command token of the keyring's provider. *)
Lemma issued_token_permits_only_its_request_witness :
  let d := Demo.installed "k1" in
  let token := match (create_v1_with_jti_and_hash (H := hash_token_provider Demo.provider 20) Demo.claims "command"
    (Some "restart"%string) None None 20 1000 None None d).1 with Ok t => t | Err _ => EmptyString end in
  let validate purpose name now := (validate_and_get_claims (H := hash_token_provider Demo.provider 20) Demo.claims
    token purpose name now None d).1 in
  let c := issued_claims "command" (Some "restart"%string) None None 20 1000 None None in
  validate "command"%string (Some "restart"%string) 500 = Ok c ∧
  validate "query"%string (Some "restart"%string) 500 ≠ Ok c ∧
  validate "command"%string (Some "stop"%string) 500 ≠ Ok c ∧
  validate "command"%string (Some "restart"%string) 1020 ≠ Ok c.
Proof.
  intros d token validate c. subst validate. cbv beta.
  assert (issuing (files d) (Keyring.Demo.material "k1" Byte.x41)) as Hi by (apply installed_issuing; vm_compute; reflexivity).
  assert (∀ p' name' now', (validate_and_get_claims (H := hash_token_provider Demo.provider 20) Demo.claims
    token p' name' now' None d).1 = Ok c ↔
    c = c ∧ p' = "command"%string ∧ now' < sat_add64 20 1000 ∧
    (None = Some "*"%string ∨ "command"%string ∈ ["sync"; "peer"]%string ∨ name' = Some "restart"%string) ∧
    (None (A := string) = None ∨ None = None (A := string))) as Hall.
  { intros p' name' now'.
    apply (issued_token_permits_only_its_request (H := hash_token_provider Demo.provider 20) Demo.claims "command"
      (Some "restart"%string) None None 20 1000 None None d d d token p' name' now' None c).
    - vm_compute. reflexivity.
    - intros payload s Hs. destruct (sign_under_active Demo.provider eq_refl d d _ 20 payload Demo.claims s Hi Hs)
        as (mg & t & Hmg & Hg & ->).
      split; [done|]. change d with (calm (files d)) at 1.
      cbn [verify hash_token_provider]. rewrite (verify_calm Demo.provider eq_refl _ (Keyring.Demo.material "k1" Byte.x41) 20 20 _ _ _ mg);
        [done|done|done|done|by repeat split|apply Hi|done]. }
  split_and!; [apply Hall; split_and!; [done|done|done|by right; right|by left]|rewrite Hall; intros (_ & [=] & _)| |].
  - rewrite Hall. intros (_ & _ & _ & [[=]|[Hp|[=]]] & _).
    rewrite !elem_of_cons, elem_of_nil in Hp. by destruct Hp as [[=]|[[=]|[]]].
  - rewrite Hall. intros (_ & _ & Hn & _). by vm_compute in Hn.
Defined.
