(* ===== verification/GatewayAuth.v ===== *)
(** Who may connect to the gateway ([crates/appcore-gateway/src/authorization.rs],
    [service.rs]): the tenant and the identities of an upgrade request, the
    credential that must be bound to them, and its single use.

    The gateway verifies credentials with a [Tokens.TokenProvider] and records
    their replay ids in a [NonceStore.PeerNonceStore]; the state of both is the
    state of a handler. What an accepted upgrade starts is
    [GatewayRouter.worker_connect] or [client_connect]. *)

From S2P Require Import Prelude.
From S2P Require Import Text.
From S2P Require Import Types.
From S2P Require Import Contracts.
From S2P Require Import Encoding.
From S2P Require Import DemoText.
From S2P Require Import Files.
From S2P Require Import Keyring.
From S2P Require Import NonceStore.
From S2P Require Import PeerValidation.
From S2P Require Import Tokens.
From S2P Require Import Gateway.
From S2P Require Import GatewayMesh.
From S2P Require Import GatewayRouter.
From S2P Require Import GatewayRuns.
From S2P Require Import HashToken.

Local Open Scope N_scope.

(** ** [authorization.rs] *)

Definition GATEWAY_CONNECTION_TOKEN_TTL_MS : N := 60000.
Definition GATEWAY_TOKEN_CLOCK_SKEW_MS : N := 5000.

Definition gateway_token_claims : TokenClaims :=
  {| issuer := "appcore"; audience := "gateway"; salt := "peer"; ttl_ms := GATEWAY_CONNECTION_TOKEN_TTL_MS |}.

(** [dedup]: of equal neighbours the first stays. *)
Fixpoint dedup (l : list string) : list string :=
  match l with
  | a :: ((b :: _) as l') => if bool_decide (a = b) then dedup l' else a :: dedup l'
  | _ => l
  end.
Definition encode_capabilities (capabilities : list string) : string :=
  hex_encode (flat_map framed capabilities).

Section Hashes.
Context (sha256 : list byte → list byte).

Definition connection_details (name tenant_id : string) (identity : option string) (payload : string)
    (subject audience : option string) : RequestValidationDetails :=
  {| req_purpose := "peer"; req_name := name; req_id := tenant_id; req_idempotency_key := identity;
     req_payload := payload; req_subject := subject; req_audience := audience |}.
Definition connection_hash (name tenant_id : string) (identity : option string) (payload : string)
    (subject audience : option string) : string :=
  compute_request_hash sha256 (connection_details name tenant_id identity payload subject audience).
Definition sorted_capabilities (capabilities : list string) : list string :=
  dedup (merge_sort String.le capabilities).
Definition worker_connection_hash (tenant_id cluster_id installation_id core_id : string) (capabilities : list string) :
    string :=
  connection_hash "gateway.worker.v2" tenant_id (Some installation_id)
    (encode_capabilities (sorted_capabilities capabilities)) (Some core_id) (Some cluster_id).
Definition client_connection_hash (tenant_id cluster_id device_id : string) : string :=
  connection_hash "gateway.client.v2" tenant_id (Some device_id) "" None (Some cluster_id).
End Hashes.

Section Service.
Context (sha256 : list byte → list byte) `{!GatewayJson} `{ClaimsJson}.
Context {S : Type} `{!TokenProvider S} {T : Type} `{!PeerNonceStore T}.

(** The state of the credentials: the provider's and the replay store's. *)
Definition on_provider {E A} (o : op S E A) : op (S * T) E A := λ s,
  let '(r, p) := o s.1 in (r, (p, s.2)).
Definition on_replay {E A} (o : op T E A) : op (S * T) E A := λ s,
  let '(r, t) := o s.2 in (r, (s.1, t)).

Definition authenticate_connection (env : nonce_env) (token expected_hash : string) (now_ms : N) :
    op (S * T) GatewayError RuntimeTokenClaims :=
  claims ← op_map_err (λ _, Authentication "connection token is invalid")
    (on_provider (validate_and_get_claims gateway_token_claims token "peer" None now_ms (Some expected_hash)));
  jti ← op_lift (ok_or (Authentication "connection token has no replay id") (jti claims));
  if bool_decide (request_hash claims ≠ Some expected_hash)
     || (sat_add64 now_ms GATEWAY_TOKEN_CLOCK_SKEW_MS <? issued_at_ms claims)
     || (Tokens.expires_at_ms claims <=? issued_at_ms claims)
     || (GATEWAY_CONNECTION_TOKEN_TTL_MS <? Tokens.expires_at_ms claims - issued_at_ms claims) then
    op_fail (Authentication "connection token claims are invalid")
  else
    _ ← op_map_err (λ _, Authentication "connection token replay rejected")
      (on_replay (check_and_record env jti (Tokens.expires_at_ms claims) now_ms));
    mret claims.

Definition authenticate_mesh_request (token : string) (q : MeshPeerRequest) (now_ms : N) : op (S * T) GatewayError () :=
  expected ← op_lift (map_err (λ _, Protocol "mesh request metadata is invalid") (expected_request_hash sha256 q));
  claims ← op_map_err (λ _, Authentication "mesh token is invalid")
    (on_provider (validate_and_get_claims gateway_token_claims token "peer" None now_ms expected));
  if bool_decide (expected ≠ None) && bool_decide (request_hash claims ≠ expected) then
    op_fail (Forbidden "mesh token is not bound to the request")
  else if bool_decide (mesh_bearer_token q ≠ Some token) then
    op_fail (Authentication "forwarded mesh credential mismatch")
  else mret ().

(** ** [service.rs] *)

Record ConnectionParams := {
  param_tenant : option string;
  param_cluster : option string;
  param_installation : option string;
  param_core : option string;
  param_device : option string;
  param_token : option string;
  param_capabilities : option string;
}.
(** The headers that are read, as text where they are text. *)
Record HeaderMap := { host : option string; authorization : option string }.

(** [strip_suffix]. *)
Definition strip_suffix (suffix s : string) : option string :=
  let n := (String.length s - String.length suffix)%nat in
  if bool_decide (str_drop n s = suffix) then Some (str_take n s) else None.
Definition ok_of {E A} (r : result E A) : option A := match r with Ok a => Some a | Err _ => None end.
Definition valid_tenant (value : string) : option string := ok_of (distributed_identifier_new "TenantId" value).
Definition valid_cluster (value : string) : option string := ok_of (distributed_identifier_new "ClusterId" value).
Definition valid_core (value : string) : option string := ok_of (distributed_identifier_new "CoreId" value).
Definition valid_device (value : string) : option string := ok_of (distributed_identifier_new "InstanceId" value).

Definition resolve_host_tenant (headers : HeaderMap) (domain_suffix : string) : option string :=
  host ← host headers;
  let host := match split_once ":" host with Some (h, _) => h | None => host end in
  rest ← strip_suffix domain_suffix host;
  prefix ← strip_suffix "." rest;
  valid_tenant prefix.
Definition resolve_tenant (headers : HeaderMap) (params : ConnectionParams) (domain_suffix : string) : option string :=
  match resolve_host_tenant headers domain_suffix with
  | Some t => Some t
  | None => t ← param_tenant params; valid_tenant t
  end.
Definition resolve_request_tenant (w : world) (headers : HeaderMap) (params : ConnectionParams) : option string :=
  match resolve_host_tenant headers (domain_suffix (config w)) with
  | Some t => Some t
  | None => if is_loopback (ip (bind_address (config w))) then t ← param_tenant params; valid_tenant t else None
  end.

(** The loop of [parse_capabilities]: the first of equal ones stays. *)
Fixpoint collect_capabilities (values : list string) (capabilities : list string) : result string (list string) :=
  match values with
  | [] => Ok capabilities
  | v :: values' =>
    c ← map_err (λ _, "Invalid capability"%string) (identifier_new "CapabilityName" (trim v));
    collect_capabilities values' (if bool_decide (c ∈ capabilities) then capabilities else capabilities ++ [c])
  end.
Definition parse_capabilities (value : option string) : result string (list string) :=
  match value with
  | None => Ok []
  | Some value =>
    let values := split_on "," value in
    if bool_decide (MAX_GATEWAY_CAPABILITIES < length values)%nat then Err "Too many capabilities"%string
    else collect_capabilities values []
  end.

Definition extract_token (headers : HeaderMap) : option string :=
  value ← authorization headers;
  match strip_prefix "Bearer " value with Some t => Some t | None => strip_prefix "bearer " value end.

Inductive UpgradeError := QueryNotAllowed | MissingCredentials | InvalidCredentials.
Definition insecure_claims (now_ms : N) : RuntimeTokenClaims :=
  {| version := "v1"; purpose := "peer"; command_name := None; scope := None; subject := None;
     issued_at_ms := now_ms; Tokens.expires_at_ms := u64_max; jti := None; request_hash := None |}.
Definition authenticate_upgrade (w : world) (env : nonce_env) (headers : HeaderMap) (params : ConnectionParams)
    (expected_hash : string) (now_ms : N) : op (S * T) UpgradeError RuntimeTokenClaims :=
  if bool_decide (param_token params ≠ None) then op_fail QueryNotAllowed
  else if negb (require_auth (config w)) then mret (insecure_claims now_ms)
  else
    token ← op_lift (ok_or MissingCredentials (extract_token headers));
    op_map_err (λ _, InvalidCredentials) (authenticate_connection env token expected_hash now_ms).

(** The answer to a request: refused, or what the connection or the relay starts
    with. *)
Inductive Response :=
| Refused (status : N) (body : string)
| WorkerUpgrade (ctx : WorkerSocketContext)
| ClientUpgrade (tenant cluster : string) (claims : RuntimeTokenClaims)
| RelayRequest (q : MeshPeerRequest).
Definition upgrade_refused (e : UpgradeError) : Response :=
  match e with
  | QueryNotAllowed => Refused 400 "Query credentials are not accepted"
  | MissingCredentials => Refused 401 "Missing credentials"
  | InvalidCredentials => Refused 403 "Invalid credentials"
  end.
(** A handler ends with its answer, at the first [return] or at its end. *)
Definition handler := op (S * T) Response Response.
Definition respond (h : handler) (s : S * T) : Response * (S * T) :=
  let '(r, s) := h s in (match r with Ok a => a | Err a => a end, s).
Definition required {A} (what : string) (o : option A) : op (S * T) Response A := op_lift (ok_or (Refused 400 what) o).

Definition mesh_peer_relay_handler (w : world) (headers : HeaderMap) (q : MeshPeerRequest) (now_ms : N) : handler :=
  if shutdown w then op_fail (Refused 503 "Gateway is shutting down")
  else if negb (is_ok (validate_schema sha256 q)) then op_fail (Refused 400 "Invalid mesh request")
  else
    _ ← (if require_auth (config w) then
           token ← op_lift (ok_or (Refused 401 "Missing credentials") (extract_token headers));
           op_map_err (λ _, Refused 403 "Invalid credentials") (authenticate_mesh_request token q now_ms)
         else mret ());
    mret (RelayRequest q).
Definition worker_connect_handler (w : world) (env : nonce_env) (headers : HeaderMap) (params : ConnectionParams)
    (now_ms : N) : handler :=
  if shutdown w then op_fail (Refused 503 "Gateway is shutting down")
  else
    tenant ← required "Missing or invalid tenant" (resolve_request_tenant w headers params);
    cluster ← required "Missing or invalid cluster" (c ← param_cluster params; valid_cluster c);
    installation ← required "Missing or invalid installation"
      (i ← param_installation params; ok_of (contract_identifier_new "InstallationId" i));
    core ← required "Missing or invalid core" (c ← param_core params; valid_core c);
    capabilities ← op_lift (map_err (Refused 400) (parse_capabilities (param_capabilities params)));
    claims ← op_map_err upgrade_refused
      (authenticate_upgrade w env headers params
        (worker_connection_hash sha256 tenant cluster installation core capabilities) now_ms);
    mret (WorkerUpgrade {| ctx_tenant_id := tenant; ctx_cluster_id := cluster; ctx_installation_id := installation;
                           ctx_core_id := core; ctx_capabilities := capabilities;
                           ctx_expires_at_ms := Tokens.expires_at_ms claims |}).
Definition client_connect_handler (w : world) (env : nonce_env) (headers : HeaderMap) (params : ConnectionParams)
    (now_ms : N) : handler :=
  if shutdown w then op_fail (Refused 503 "Gateway is shutting down")
  else
    tenant ← required "Missing or invalid tenant" (resolve_request_tenant w headers params);
    cluster ← required "Missing or invalid cluster" (c ← param_cluster params; valid_cluster c);
    device ← required "Missing or invalid device" (d ← param_device params; valid_device d);
    claims ← op_map_err upgrade_refused
      (authenticate_upgrade w env headers params (client_connection_hash sha256 tenant cluster device) now_ms);
    mret (ClientUpgrade tenant cluster claims).

(** The requests that the routes serve. *)
Inductive request :=
| WorkerConnectRequest (env : nonce_env) (headers : HeaderMap) (params : ConnectionParams)
| ClientConnectRequest (env : nonce_env) (headers : HeaderMap) (params : ConnectionParams)
| MeshRelayRequest (headers : HeaderMap) (q : MeshPeerRequest).
Definition route (w : world) (r : request) (now_ms : N) : handler :=
  match r with
  | WorkerConnectRequest env headers params => worker_connect_handler w env headers params now_ms
  | ClientConnectRequest env headers params => client_connect_handler w env headers params now_ms
  | MeshRelayRequest headers q => mesh_peer_relay_handler w headers q now_ms
  end.
Definition serve (s : S * T) (c : world * request * N) : S * T := (respond (route c.1.1 c.1.2 c.2) s).2.
End Service.

(** ** The hash binds the identity *)

Lemma framed_not_empty s x : framed s ++ x ≠ [].
Proof.
  intros H. apply (f_equal length) in H. unfold framed in H. rewrite !length_app, length_be_bytes in H. simpl in H. lia.
Qed.
Lemma frames_inj l l' : Forall fits l → Forall fits l' → flat_map framed l = flat_map framed l' → l = l'.
Proof.
  intros Hl. revert l'. induction Hl as [|s l Hs Hl IH]; intros l' Hl' H; destruct Hl' as [|s' l' Hs' Hl']; cbn [flat_map] in H.
  - done.
  - symmetry in H. by apply framed_not_empty in H.
  - by apply framed_not_empty in H.
  - apply framed_app_inj in H as [-> H]; [|done..]. f_equal. by apply IH.
Qed.
Lemma dedup_elem c l : c ∈ dedup l ↔ c ∈ l.
Proof.
  induction l as [|a [|b l] IH]; [done..|]. change (dedup (a :: b :: l))
    with (if bool_decide (a = b) then dedup (b :: l) else a :: dedup (b :: l)).
  case_bool_decide as Hab; [rewrite IH; subst; set_solver|]. rewrite !elem_of_cons in *. tauto.
Qed.
Lemma dedup_length l : (length (dedup l) ≤ length l)%nat.
Proof.
  induction l as [|a [|b l] IH]; [done..|]. change (dedup (a :: b :: l))
    with (if bool_decide (a = b) then dedup (b :: l) else a :: dedup (b :: l)).
  case_bool_decide; cbn [length] in *; lia.
Qed.
Lemma sorted_capabilities_elem c l : c ∈ sorted_capabilities l ↔ c ∈ l.
Proof. unfold sorted_capabilities. by rewrite dedup_elem, merge_sort_Permutation. Qed.
Lemma sorted_capabilities_length l : (length (sorted_capabilities l) ≤ length l)%nat.
Proof.
  unfold sorted_capabilities. pose proof (dedup_length (merge_sort String.le l)). by rewrite (Permutation_length (merge_sort_Permutation String.le l)) in H.
Qed.

(** The fields of a worker connection, as their hash takes them. *)
Definition worker_details (tenant cluster installation core : string) (caps : list string) : RequestValidationDetails :=
  connection_details "gateway.worker.v2" tenant (Some installation) (encode_capabilities (sorted_capabilities caps))
    (Some core) (Some cluster).
Record worker_fits (tenant cluster installation core : string) (caps : list string) : Prop := {
  fits_details : representable (worker_details tenant cluster installation core caps);
  fits_capabilities : Forall fits caps;
}.
Lemma worker_connection_hash_inj sha256 t cl i co caps t' cl' i' co' caps' :
  worker_fits t cl i co caps → worker_fits t' cl' i' co' caps' →
  worker_connection_hash sha256 t cl i co caps = worker_connection_hash sha256 t' cl' i' co' caps' →
  (t = t' ∧ cl = cl' ∧ i = i' ∧ co = co' ∧ ∀ c, c ∈ caps ↔ c ∈ caps') ∨ ∃ x y, x ≠ y ∧ sha256 x = sha256 y.
Proof.
  intros [H1 F1] [H2 F2] H. apply compute_request_hash_inj in H as [H|H]; [|by right|done..]. left.
  injection H as -> -> Hc -> ->. split_and!; [done..|]. intros c.
  rewrite <- (sorted_capabilities_elem c caps), <- (sorted_capabilities_elem c caps').
  apply hex_encode_inj, frames_inj in Hc; [by rewrite Hc|..]; rewrite Forall_forall in *;
    intros x Hx; rewrite sorted_capabilities_elem in Hx; auto.
Qed.

(** ** What a handler lets through fits *)

Lemma small_fits s n : str_len s ≤ n → n ≤ u64_max → fits s.
Proof. unfold fits. lia. Qed.
Lemma distributed_length kind v s : distributed_identifier_new kind v = Ok s → str_len s ≤ 80.
Proof.
  unfold distributed_identifier_new, validate_distributed_identifier.
  destruct (str_len v <? 2); [done|]. destruct (N.ltb_spec MAX_DISTRIBUTED_IDENTIFIER_LEN (str_len v)) as [|Hl]; [done|].
  destruct v; [done|]. destruct (_ && _); [done|]. destruct (str_any _ _); [done|]. by intros [= <-].
Qed.
Lemma identifier_length kind v s : identifier_new kind v = Ok s → str_len s ≤ 128.
Proof.
  unfold identifier_new. destruct (validate_identifier kind v) as [[]|] eqn:E; [|done]. intros [= <-].
  by apply validate_identifier_ok in E as (_ & ? & _).
Qed.
Lemma contract_identifier_length field v s : contract_identifier_new field v = Ok s → str_len s ≤ 128.
Proof.
  unfold contract_identifier_new, validate_contract_identifier, validate_text, reject.
  destruct (bool_decide _); [done|]. cbn. destruct (N.ltb_spec 128 (str_len v)); [done|]. cbn.
  destruct (any_control v); [done|]. cbn. destruct (_ || _); [done|]. by intros [= <-].
Qed.
Lemma collect_capabilities_spec values caps caps' :
  collect_capabilities values caps = Ok caps' →
  Forall (λ c, str_len c ≤ 128) caps →
  Forall (λ c, str_len c ≤ 128) caps' ∧ (length caps' ≤ length caps + length values)%nat.
Proof.
  revert caps. induction values as [|v values IH]; intros caps; cbn [collect_capabilities].
  - intros [= <-] Hc. split; [done|lia].
  - destruct (identifier_new "CapabilityName" (trim v)) as [c|] eqn:Hv; [|done]. cbn. intros H Hc.
    apply identifier_length in Hv. apply IH in H as [H1 H2].
    + split; [done|]. cbn [length]. case_bool_decide; [lia|]. rewrite length_app in H2. simpl in H2. lia.
    + case_bool_decide; [done|]. apply Forall_app. by split; [|apply Forall_singleton].
Qed.
Lemma parse_capabilities_spec value caps :
  parse_capabilities value = Ok caps → Forall (λ c, str_len c ≤ 128) caps ∧ (length caps ≤ 64)%nat.
Proof.
  destruct value as [v|]; cbn [parse_capabilities]; [|intros [= <-]; split; [done|simpl; lia]].
  case_bool_decide as Hl; [done|]. intros H. apply collect_capabilities_spec in H as [H1 H2]; [|done].
  unfold MAX_GATEWAY_CAPABILITIES in Hl. simpl in H2. split; [done|lia].
Qed.
Lemma frames_length l n :
  Forall (λ c, str_len c ≤ 128) l → (length l ≤ n)%nat → lenN (flat_map framed l) ≤ N.of_nat n * 136.
Proof.
  intros Hl. revert n. induction Hl as [|c l Hc Hl IH]; intros n Hn; [simpl; lia|].
  destruct n as [|n]; [simpl in Hn; lia|]. cbn [flat_map length] in *. specialize (IH n ltac:(lia)).
  pose proof (length_str_bytes c) as Hb. rewrite length_app. unfold framed at 1. rewrite length_app, length_be_bytes. lia.
Qed.
Lemma worker_fits_small t cl i co caps :
  str_len t ≤ 80 → str_len cl ≤ 80 → str_len i ≤ 128 → str_len co ≤ 80 →
  Forall (λ c, str_len c ≤ 128) caps → (length caps ≤ 64)%nat → worker_fits t cl i co caps.
Proof.
  intros H1 H2 H3 H4 Hc Hn.
  assert (str_len (encode_capabilities (sorted_capabilities caps)) ≤ 20000) as He.
  { unfold encode_capabilities. rewrite length_hex_encode.
    assert (Forall (λ c, str_len c ≤ 128) (sorted_capabilities caps)) as Hs.
    { rewrite Forall_forall in *. intros x Hx. rewrite sorted_capabilities_elem in Hx. auto. }
    pose proof (sorted_capabilities_length caps). pose proof (frames_length (sorted_capabilities caps) 64 Hs). lia. }
  split; [|eapply Forall_impl; [exact Hc|]; intros c; cbn; intros; by apply (small_fits _ 128)].
  split; cbn; unfold fits_opt; intros; simplify_eq/=; try done;
    (eapply small_fits; [eassumption|by vm_compute]) || (by vm_compute).
Qed.

(** ** Credentials *)

Section Credentials.
Context (sha256 : list byte → list byte) `{!GatewayJson} `{ClaimsJson} `{!ClaimsJsonLaws}.
Context {S : Type} `{!TokenProvider S} {T : Type} `{!PeerNonceStore T, !PeerNonceStoreLaws T}.
Implicit Type s : S * T.

(** A replay id stays in the store whatever is served. *)
Definition recorded (id : string) (until : N) s : Prop := remembers s.2 id until.

Lemma keeps_map_err {A E F} (I : S * T → Prop) (f : E → F) (o : op (S * T) E A) :
  keeps I o → keeps I (op_map_err f o).
Proof. intros Ho s Hs. specialize (Ho s Hs). unfold op_map_err. by destruct (o s). Qed.
Lemma keeps_provider {A E} id until (o : op S E A) : keeps (recorded id until) (on_provider (T := T) o).
Proof. intros s Hs. unfold on_provider. by destruct (o s.1). Qed.
Lemma keeps_replay env id until jti e now :
  now < until → keeps (recorded id until) (on_replay (S := S) (check_and_record env jti e now)).
Proof.
  intros Hn s Hs. pose proof (remembered_stable env id until jti e now s.2 Hs Hn) as Hr.
  unfold on_replay. by destruct (check_and_record env jti e now s.2).
Qed.
Lemma keeps_authenticate env id until token hash now :
  now < until → keeps (recorded id until) (authenticate_connection (S := S) (T := T) env token hash now).
Proof.
  intros Hn. unfold authenticate_connection. apply keeps_bind; [by apply keeps_map_err, keeps_provider|intros c].
  apply keeps_bind; [apply keeps_lift|intros j]. destruct (_ || _); [apply keeps_fail|].
  apply keeps_bind; [by apply keeps_map_err, keeps_replay|intros []; apply keeps_ret].
Qed.
Lemma keeps_route id until w r now :
  now < until → keeps (recorded id until) (route sha256 (S := S) (T := T) w r now).
Proof.
  assert (∀ env headers params hash, now < until →
    keeps (recorded id until) (authenticate_upgrade (S := S) (T := T) w env headers params hash now)) as Hup.
  { intros env headers params hash Hn. unfold authenticate_upgrade. case_bool_decide; [apply keeps_fail|].
    destruct (negb _); [apply keeps_ret|]. apply keeps_bind; [apply keeps_lift|intros t].
    by apply keeps_map_err, keeps_authenticate. }
  intros Hn. destruct r as [env headers params|env headers params|headers q]; cbn [route].
  - unfold worker_connect_handler, required. destruct (shutdown w); [apply keeps_fail|].
    do 5 (apply keeps_bind; [apply keeps_lift|intros ?]).
    apply keeps_bind; [by apply keeps_map_err, Hup|intros ?; apply keeps_ret].
  - unfold client_connect_handler, required. destruct (shutdown w); [apply keeps_fail|].
    do 3 (apply keeps_bind; [apply keeps_lift|intros ?]).
    apply keeps_bind; [by apply keeps_map_err, Hup|intros ?; apply keeps_ret].
  - unfold mesh_peer_relay_handler. destruct (shutdown w); [apply keeps_fail|]. destruct (negb _); [apply keeps_fail|].
    apply keeps_bind; [|intros ?; apply keeps_ret]. destruct (require_auth _); [|apply keeps_ret].
    apply keeps_bind; [apply keeps_lift|intros t]. apply keeps_map_err. unfold authenticate_mesh_request.
    apply keeps_bind; [apply keeps_lift|intros e]. apply keeps_bind; [by apply keeps_map_err, keeps_provider|intros c].
    destruct (_ && _); [apply keeps_fail|]. case_bool_decide; [apply keeps_fail|apply keeps_ret].
Qed.
Lemma keeps_respond I (h : handler (S := S) (T := T)) s : keeps I h → I s → I (respond h s).2.
Proof. intros Hh Hs. specialize (Hh s Hs). unfold respond. by destruct (h s). Qed.
Lemma keeps_serve id until calls s :
  (∀ c, c ∈ calls → c.2 < until) → recorded id until s → recorded id until (foldl (serve sha256) s calls).
Proof.
  revert s. induction calls as [|c calls IH]; intros s Hc Hs; [done|]. cbn [foldl]. apply IH.
  - intros c' Hc'. apply Hc. by right.
  - unfold serve; apply (keeps_respond (recorded id until)); [apply keeps_route, Hc; by left|done].
Qed.

(** What an accepted connection credential is. *)
Record credential (token : string) (hash : string) (now : N) (c : RuntimeTokenClaims) (id : string) : Prop := {
  cred_payload : ∃ payload signature, parse_v1_token token = Some (payload, signature) ∧
    claims_from_slice payload = Some c;
  cred_hash : request_hash c = Some hash;
  cred_id : jti c = Some id;
  cred_alive : now < Tokens.expires_at_ms c;
}.
Lemma authenticate_connection_ok env token hash now s s' c :
  authenticate_connection (S := S) (T := T) env token hash now s = (Ok c, s') →
  ∃ id, credential token hash now c id ∧
    check_and_record env id (Tokens.expires_at_ms c) now s.2 = (Ok (), s'.2).
Proof.
  unfold authenticate_connection, op_map_err, on_provider, on_replay.
  destruct (validate_and_get_claims gateway_token_claims token "peer" None now (Some hash) s.1) as [r p] eqn:Hv.
  unfold mbind, op_bind, op_lift. rewrite Hv. destruct r as [c'|]; [|done]. cbn [map_err].
  destruct (jti c') as [id|] eqn:Hj; [|done]. cbn [ok_or]. destruct (_ || _) eqn:E; [done|]. cbn [snd].
  destruct (check_and_record env id (Tokens.expires_at_ms c') now s.2) as [r t] eqn:Hr.
  destruct r as [[]|]; [|done]. cbn. intros [= -> <-]. exists id. split; [|done].
  apply orb_false_iff in E as [E _]. apply orb_false_iff in E as [E _]. apply orb_false_iff in E as [E _].
  apply bool_decide_eq_false, dec_stable in E.
  assert ((validate_and_get_claims gateway_token_claims token "peer" None now (Some hash) s.1).1 = Ok c) as Hok by by rewrite Hv.
  apply token_accepted_iff in Hok as (payload & signature & Hp & _ & Hd & [_ _ Ha _ _]). split; eauto.
Qed.

Definition is_upgrade (a : Response) : Prop :=
  match a with WorkerUpgrade _ | ClientUpgrade _ _ _ => True | _ => False end.
Definition request_headers (r : request (T := T)) : HeaderMap :=
  match r with
  | WorkerConnectRequest _ headers _ | ClientConnectRequest _ headers _ | MeshRelayRequest headers _ => headers
  end.

Lemma respond_lift {A} (r : result Response A) (k : A → op (S * T) Response Response) s a s' :
  respond (op_lift r ≫= k) s = (a, s') → is_upgrade a →
  (∀ e, r = Err e → ¬ is_upgrade e) → ∃ x, r = Ok x ∧ respond (k x) s = (a, s').
Proof.
  intros Hr Ha He. destruct r as [x|e]; [eauto|]. unfold respond, mbind, op_bind, op_lift in Hr. injection Hr as <- <-.
  by destruct (He e).
Qed.
Lemma respond_required {A} what (o : option A) (k : A → op (S * T) Response Response) s a s' :
  respond (required what o ≫= k) s = (a, s') → is_upgrade a → ∃ x, o = Some x ∧ respond (k x) s = (a, s').
Proof.
  intros Hr Ha. apply respond_lift in Hr as (x & Hx & Hr); [|done|].
  - destruct o as [y|]; [|done]. injection Hx as <-. eauto.
  - intros e. destruct o; [done|]. cbn. by intros [= <-] [].
Qed.
(** The end of both handlers. *)
Lemma respond_authenticated w env headers params hash now (k : RuntimeTokenClaims → Response) s a s' :
  require_auth (config w) = true →
  respond (c ← op_map_err upgrade_refused (authenticate_upgrade w env headers params hash now); mret (k c)) s = (a, s') →
  is_upgrade a →
  ∃ token c, extract_token headers = Some token ∧ a = k c ∧
    authenticate_connection (S := S) (T := T) env token hash now s = (Ok c, s').
Proof.
  intros Hauth Hr Ha. unfold respond, mbind, op_bind, op_map_err, authenticate_upgrade in Hr. rewrite Hauth in Hr.
  case_bool_decide; [by injection Hr as <- <-|]. cbn [negb] in Hr.
  destruct (extract_token headers) as [token|]; [|by injection Hr as <- <-]. cbn [ok_or] in Hr. rewrite op_lift_ok in Hr. unfold op_map_err in Hr.
  destruct (authenticate_connection env token hash now s) as [[c|e] s1] eqn:Hc; cbn in Hr; injection Hr as <- <-; [|done].
  eauto.
Qed.
Lemma worker_upgrade w env headers params now s a s' :
  require_auth (config w) = true →
  respond (worker_connect_handler sha256 w env headers params now) s = (a, s') → is_upgrade a →
  ∃ ctx token c, a = WorkerUpgrade ctx ∧ extract_token headers = Some token ∧
    worker_fits (ctx_tenant_id ctx) (ctx_cluster_id ctx) (ctx_installation_id ctx) (ctx_core_id ctx) (ctx_capabilities ctx) ∧
    authenticate_connection (S := S) (T := T) env token
      (worker_connection_hash sha256 (ctx_tenant_id ctx) (ctx_cluster_id ctx) (ctx_installation_id ctx)
         (ctx_core_id ctx) (ctx_capabilities ctx)) now s = (Ok c, s').
Proof.
  intros Hauth Hr Ha. unfold worker_connect_handler in Hr.
  destruct (shutdown w); [by injection Hr as <- <-|].
  apply respond_required in Hr as (tenant & Ht & Hr); [|done].
  apply respond_required in Hr as (cluster & Hcl & Hr); [|done].
  apply respond_required in Hr as (installation & Hi & Hr); [|done].
  apply respond_required in Hr as (core & Hco & Hr); [|done].
  apply respond_lift in Hr as (caps & Hcaps & Hr); [|done|intros e; destruct (parse_capabilities _); [done|by intros [= <-] []]].
  apply respond_authenticated in Hr as (token & c & Hx & -> & Hc); [|done|done].
  eexists _, token, c. split; [reflexivity|]. split_and!; [done| |exact Hc]. cbn.
  assert (∀ kind v r, ok_of (distributed_identifier_new kind v) = Some r → str_len r ≤ 80) as Hlen.
  { intros kind v r. destruct (distributed_identifier_new kind v) eqn:E; [|done]. intros [= <-]. by eapply distributed_length. }
  assert (str_len tenant ≤ 80) as Htl.
  { unfold resolve_request_tenant in Ht. destruct (resolve_host_tenant headers _) as [t|] eqn:E.
    - injection Ht as ->. unfold resolve_host_tenant in E. repeat (apply bind_Some in E as (? & _ & E)). by eapply Hlen.
    - destruct (is_loopback _); [|done]. apply bind_Some in Ht as (? & _ & Ht). by eapply Hlen. }
  apply bind_Some in Hcl as (? & _ & Hcl). apply bind_Some in Hco as (? & _ & Hco). apply bind_Some in Hi as (? & _ & Hi).
  assert (parse_capabilities (param_capabilities params) = Ok caps) as Hp by (by destruct (parse_capabilities _); simplify_eq/=).
  apply parse_capabilities_spec in Hp as [Hp1 Hp2].
  apply worker_fits_small; [done|by eapply Hlen| |by eapply Hlen|done|done].
  destruct (contract_identifier_new _ _) eqn:E; [|done]. injection Hi as <-. by eapply contract_identifier_length.
Qed.
Lemma route_upgrade w r now s a s' :
  require_auth (config w) = true → respond (route sha256 w r now) s = (a, s') → is_upgrade a →
  ∃ env token hash c, extract_token (request_headers r) = Some token ∧
    authenticate_connection (S := S) (T := T) env token hash now s = (Ok c, s').
Proof.
  intros Hauth Hr Ha. destruct r as [env headers params|env headers params|headers q]; cbn [route request_headers] in *.
  - destruct (worker_upgrade _ _ _ _ _ _ _ _ Hauth Hr Ha) as (ctx & token & c & _ & Ht & _ & Hc). eauto 10.
  - unfold client_connect_handler in Hr. destruct (shutdown w); [by injection Hr as <- <-|].
    do 3 (apply respond_required in Hr as (? & _ & Hr); [|done]).
    apply respond_authenticated in Hr as (token & c & Hx & _ & Hc); [|done|done]. eauto 10.
  - unfold mesh_peer_relay_handler, respond, op_fail in Hr. destruct (shutdown w); [by injection Hr as <- <-|].
    destruct (negb (is_ok _)); [by injection Hr as <- <-|]. unfold mbind, op_bind, op_map_err, op_lift in Hr.
    destruct (require_auth _); [|by injection Hr as <- <-]. destruct (extract_token headers) as [t|]; cbn in Hr;
      [|by injection Hr as <- <-]. by destruct (authenticate_mesh_request sha256 t q now s) as [[[]|] ?]; injection Hr as <- <-.
Qed.

End Credentials.

(** ** Witness *)

Module Demo.
Definition provider : HashTokenProvider (H := HashToken.Demo.library) :=
  {| source := Static (repeat Byte.x41 16); salts := [str_bytes "salt"]; algorithm := Sha256 (HashTokenLibrary := HashToken.Demo.library) |}.
Definition sha256 (b : list byte) : list byte := be_bytes 2 (lenN b mod 65536).
Definition gateway : world := world_new GatewayRuns.Demo.cfg 1.
Definition hash : string := worker_connection_hash sha256 "tenant-a" "cluster-a" "inst-a" "core-a" ["compute"; "query"]%string.
#[local] Instance provider_at : TokenProvider (Files.disk Keyring.keyring_file) :=
  hash_token_provider (H := HashToken.Demo.library) provider 5.
#[local] Existing Instance Tokens.Demo.claims_json.
(** A credential issued at a time. *)
Definition token (issued : N) : string :=
  match (create_v1_with_jti_and_hash gateway_token_claims "peer" None None None issued 60000 (Some "jti-1"%string) (Some hash)
           disk_new).1 with Ok t => t | Err _ => EmptyString end.
Definition headers (issued : N) : HeaderMap :=
  {| host := Some "tenant-a.gateway.test:8080"%string; authorization := Some ("Bearer " +:+ token issued) |}.
Definition params (capabilities : string) : ConnectionParams :=
  {| param_tenant := None; param_cluster := Some "cluster-a"%string; param_installation := Some "inst-a"%string;
     param_core := Some "core-a"%string; param_device := None; param_token := None;
     param_capabilities := Some capabilities |}.
(** The replay store that a gateway has by default. *)
Definition start : Files.disk Keyring.keyring_file * Bounded.ReplayState := (disk_new, Bounded.new Bounded.config_default).
Definition connect (issued : N) (capabilities : string) (now : N) (s : Files.disk Keyring.keyring_file * Bounded.ReplayState) :
    Response * (Files.disk Keyring.keyring_file * Bounded.ReplayState) :=
  respond (worker_connect_handler sha256 gateway (false : nonce_env (S := Bounded.ReplayState)) (headers issued)
    (params capabilities) now) s.
End Demo.
#[local] Existing Instances Demo.provider_at Tokens.Demo.claims_json Tokens.Demo.claims_json_laws GatewayRuns.Demo.json.


(** The default replay store keeps an id for 60 s, a credential that is dated up
    to 5 s in the future lives longer: then it opens a second connection. *)
Lemma future_token_connects_twice :
  let first := Demo.connect 5006 "query, compute" 6 Demo.start in
  is_upgrade first.1 ∧ is_upgrade (Demo.connect 5006 "query, compute" 60006 first.2).1.
Proof. vm_compute. done. Qed.
