(* ===== verification/Dnt.v ===== *)
(** The DNT container ([crates/appcore-dnt/src]): identifiers ([ids.rs]), flags
    ([flags.rs]), errors ([error.rs]) and the header ([header.rs]).

    A parser consumes its input: its state is what the cursor of the source has
    not passed yet. *)

From S2P Require Import Prelude.
From S2P Require Import Text.
From S2P Require Import Types.
From S2P Require Import Contracts.
From S2P Require Import Encoding.

Local Open Scope N_scope.

(** ** [error.rs] *)

Inductive DntError :=
| InvalidFormat | UnsupportedVersion | PayloadTooLarge | InvalidFlags | ContextMismatch | KeyUnavailable
| AuthenticationFailed | CodecUnavailable | CodecFailed | Io.
#[export] Instance DntError_eq_dec : EqDecision DntError.
Proof. solve_decision. Defined.
Inductive DntKeyError := NotFound | Unavailable | InvalidKey | Forbidden.
Inductive CodecError := EncodeFailed | DecodeFailed | CodecPayloadTooLarge.
Abbreviation DntResult := (result DntError).

Definition dnt_error_of_key (e : DntKeyError) : DntError :=
  match e with
  | NotFound | Unavailable => KeyUnavailable
  | InvalidKey => KeyUnavailable
  | Forbidden => ContextMismatch
  end.
Definition dnt_error_of_codec (_ : CodecError) : DntError := CodecFailed.

(** ** [ids.rs] *)

Definition dnt_id_byte (allow_slash : bool) (c : ascii) : bool :=
  is_ascii_alphanumeric c || bool_decide (c = "."%char) || bool_decide (c = "-"%char) || bool_decide (c = "_"%char)
  || (allow_slash && bool_decide (c = "/"%char)).
Definition validate_id (value : string) (max : N) (allow_slash : bool) : DntResult () :=
  if bool_decide (value = EmptyString) || (max <? str_len value) then Err InvalidFormat
  else if str_all (dnt_id_byte allow_slash) value && negb (bool_decide (str_first value = Some "/"%char))
          && negb (bool_decide (str_last value = Some "/"%char)) then Ok ()
  else Err InvalidFormat.
Definition content_type_new (value : string) : DntResult string := _ ← validate_id value 128 true; Ok value.
Definition codec_id_new (value : string) : DntResult string := _ ← validate_id value 64 false; Ok value.
Definition key_id_new (value : string) : DntResult string := _ ← validate_id value 128 false; Ok value.

(** ** [flags.rs]: 32-bit words *)

Definition DNT_FLAG_PAYLOAD_DEFLATE : N := 1.
Definition DNT_INTERNAL_FLAG_MASK : N := 65535.
Definition DNT_USER_FLAG_MASK : N := 4294901760.
Definition DNT_USER_FLAG_OFFSET : N := 16.
Definition DNT_USER_FLAG_COUNT : N := 16.
Definition KNOWN_INTERNAL_FLAGS : N := DNT_FLAG_PAYLOAD_DEFLATE.

Definition validate_flags (flags : N) : DntResult () :=
  if N.ldiff (N.land flags DNT_INTERNAL_FLAG_MASK) KNOWN_INTERNAL_FLAGS =? 0 then Ok () else Err InvalidFlags.
Definition flags_from_bits (bits : N) : DntResult N := _ ← validate_flags bits; Ok bits.
Definition internal_bits (flags : N) : N := N.land flags DNT_INTERNAL_FLAG_MASK.
Definition user_bits (flags : N) : N := N.land flags DNT_USER_FLAG_MASK.
Definition dnt_user_flag (index : N) : DntResult N :=
  if DNT_USER_FLAG_COUNT <=? index then Err InvalidFlags else Ok (N.shiftl 1 (DNT_USER_FLAG_OFFSET + index)).
Definition with_user_flag (flags index : N) : DntResult N := f ← dnt_user_flag index; Ok (N.lor flags f).
Definition compact_payload (flags : N) : N := N.lor flags DNT_FLAG_PAYLOAD_DEFLATE.
Definition dnt_compose_flags (internal user : N) : DntResult N :=
  if negb (N.ldiff internal KNOWN_INTERNAL_FLAGS =? 0) || negb (N.ldiff user DNT_USER_FLAG_MASK =? 0) then Err InvalidFlags
  else Ok (N.lor internal user).

(** ** [header.rs] *)

Definition DNT_MAGIC : list byte := str_bytes "APDNT" ++ [byte_of_N 0; byte_of_N 0; byte_of_N 1].
Definition DNT_ENVELOPE_VERSION_V1 : N := 1.
Definition DNT_MAX_HEADER_BYTES : N := 65536.
Definition DNT_MAX_ENCRYPTED_METADATA_BYTES : N := 65536.
Definition MIN_PREFIX_BYTES : nat := 14.
Definition NONCE_BYTES : nat := 24.
Definition HASH_BYTES : nat := 32.

Inductive DntAlgorithm := XChaCha20Poly1305.
Definition algorithm_id (a : DntAlgorithm) : N := match a with XChaCha20Poly1305 => 1 end.
Definition algorithm_from_id (value : N) : DntResult DntAlgorithm :=
  if value =? 1 then Ok XChaCha20Poly1305 else Err UnsupportedVersion.

(** The fields of a header that are encoded; [DntHeader] adds its length. *)
Record HeaderParts := {
  flags : N;
  algorithm : DntAlgorithm;
  application_id : string;
  tenant_id : option string;
  content_type : string;
  codec_id : string;
  key_id : string;
  schema_version : N;
  created_at_ms : N;
  payload_length : N;
  nonce : list byte;
  payload_hash : list byte;
  public_metadata : list byte;
  encrypted_metadata_length : N;
}.
Record DntHeader := { envelope_version : N; header_length : N; parts : HeaderParts }.

Definition checked_u32 (n : N) (e : DntError) : DntResult N := if u32_max <? n then Err e else Ok n.
Definition put_text (value : string) : DntResult (list byte) :=
  if u16_max <? str_len value then Err InvalidFormat else Ok (be_bytes 2 (str_len value) ++ str_bytes value).
Definition put_optional_text (value : option string) : DntResult (list byte) :=
  match value with Some v => put_text v | None => Ok (be_bytes 2 0) end.

(** The header after its length, which is patched in at the end. *)
Definition encode_body (p : HeaderParts) : DntResult (list byte) :=
  n ← checked_u32 (lenN (public_metadata p)) InvalidFormat;
  application ← put_text (application_id p);
  tenant ← put_optional_text (tenant_id p);
  content ← put_text (content_type p);
  codec ← put_text (codec_id p);
  key ← put_text (key_id p);
  Ok (be_bytes 4 (flags p) ++ be_bytes 2 (algorithm_id (algorithm p)) ++ be_bytes 4 (schema_version p)
      ++ be_bytes 8 (created_at_ms p) ++ be_bytes 8 (payload_length p) ++ nonce p ++ payload_hash p
      ++ be_bytes 4 n ++ be_bytes 4 (encrypted_metadata_length p)
      ++ application ++ tenant ++ content ++ codec ++ key ++ public_metadata p).
Definition header_bytes (length : N) (body : list byte) : list byte :=
  DNT_MAGIC ++ be_bytes 2 DNT_ENVELOPE_VERSION_V1 ++ be_bytes 4 length ++ body.
Definition encode_header (p : HeaderParts) : DntResult (list byte) :=
  if (DNT_MAX_HEADER_BYTES <? lenN (public_metadata p))
     || (DNT_MAX_ENCRYPTED_METADATA_BYTES <? encrypted_metadata_length p) then Err PayloadTooLarge
  else
    body ← encode_body p;
    let unpatched := header_bytes 0 body in
    if DNT_MAX_HEADER_BYTES <? lenN unpatched then Err InvalidFormat
    else
      length ← checked_u32 (lenN unpatched) InvalidFormat;
      Ok (header_bytes length body).

Abbreviation parser := (op (list byte) DntError).
Definition take_bytes (n : N) : parser (list byte) := λ input,
  if lenN input <? n then (Err InvalidFormat, input) else (Ok (take (N.to_nat n) input), drop (N.to_nat n) input).
Definition take_uint (bytes : N) : parser N := b ← take_bytes bytes; mret (from_be b).
Definition take_str (length : N) : parser string :=
  b ← take_bytes length;
  let s := String.string_of_list_byte b in
  if utf8_valid s then mret s else op_fail InvalidFormat.
Definition take_text : parser string :=
  length ← take_uint 2; if length =? 0 then op_fail InvalidFormat else take_str length.
Definition take_optional_text : parser (option string) :=
  length ← take_uint 2; if length =? 0 then mret None else s ← take_str length; mret (Some s).
(** [.map_err(|_| DntError::InvalidFormat)]. *)
Definition format_error {E A} (r : result E A) : DntResult A := map_err (λ _, InvalidFormat) r.

Definition parse_parts : parser HeaderParts :=
  flags ← take_uint 4;
  _ ← op_lift (validate_flags flags);
  a ← take_uint 2;
  algorithm ← op_lift (algorithm_from_id a);
  schema_version ← take_uint 4;
  created_at_ms ← take_uint 8;
  payload_length ← take_uint 8;
  nonce ← take_bytes (N.of_nat NONCE_BYTES);
  payload_hash ← take_bytes (N.of_nat HASH_BYTES);
  public_metadata_length ← take_uint 4;
  encrypted_metadata_length ← take_uint 4;
  if DNT_MAX_ENCRYPTED_METADATA_BYTES <? encrypted_metadata_length then op_fail PayloadTooLarge
  else
    application ← take_text;
    application_id ← op_lift (format_error (contract_identifier_new "application_id" application));
    tenant ← take_optional_text;
    tenant_id ← op_lift (match tenant with
                         | Some t => format_error (Some <$> distributed_identifier_new "TenantId" t)
                         | None => Ok None
                         end);
    content ← take_text;
    content_type ← op_lift (content_type_new content);
    codec ← take_text;
    codec_id ← op_lift (codec_id_new codec);
    key ← take_text;
    key_id ← op_lift (key_id_new key);
    public_metadata ← take_bytes public_metadata_length;
    rest ← op_get;
    if bool_decide (rest ≠ []) then op_fail InvalidFormat
    else
      mret {| flags := flags; algorithm := algorithm; application_id := application_id; tenant_id := tenant_id;
              content_type := content_type; codec_id := codec_id; key_id := key_id; schema_version := schema_version;
              created_at_ms := created_at_ms; payload_length := payload_length; nonce := nonce;
              payload_hash := payload_hash; public_metadata := public_metadata;
              encrypted_metadata_length := encrypted_metadata_length |}.
Definition parse_header (input : list byte) (header_length : N) : DntResult DntHeader :=
  p ← (parse_parts (drop MIN_PREFIX_BYTES input)).1;
  Ok {| envelope_version := DNT_ENVELOPE_VERSION_V1; header_length := header_length; parts := p |}.
(** [input[from..from + bytes]] as a number, for an input that is long enough. *)
Definition read_uint (from bytes : nat) (input : list byte) : N := from_be (take bytes (drop from input)).
Definition inspect_header (input : list byte) : DntResult DntHeader :=
  if (lenN input <? N.of_nat MIN_PREFIX_BYTES) || bool_decide (take 8 input ≠ DNT_MAGIC) then Err InvalidFormat
  else if bool_decide (read_uint 8 2 input ≠ DNT_ENVELOPE_VERSION_V1) then Err UnsupportedVersion
  else
    let length := read_uint 10 4 input in
    if (length <? N.of_nat MIN_PREFIX_BYTES) || (DNT_MAX_HEADER_BYTES <? length) || (lenN input <? length)
    then Err InvalidFormat
    else parse_header (take (N.to_nat length) input) length.

(** ** Parsing what was put, and putting what was parsed *)

Lemma ok_inj {E A} (a b : A) : Ok (E := E) a = Ok b → a = b.
Proof. congruence. Qed.
Lemma from_be_aux_acc acc l : from_be_aux acc l = acc * 256 ^ lenN l + from_be l.
Proof.
  unfold from_be. revert acc. induction l as [|b l IH]; intros acc; [cbn; lia|]. cbn [from_be_aux length].
  rewrite IH, (IH (0 * 256 + _)). rewrite Nat2N.inj_succ, N.pow_succ_r'. lia.
Qed.
Lemma from_be_lt l : from_be l < 256 ^ lenN l.
Proof.
  induction l as [|b l IH]; [vm_compute; reflexivity|]. unfold from_be in *. cbn [from_be_aux length].
  rewrite from_be_aux_acc, Nat2N.inj_succ, N.pow_succ_r'. pose proof (Byte.to_N_bounded b). unfold from_be. nia.
Qed.
Lemma be_bytes_from_be l : be_bytes (length l) (from_be l) = l.
Proof.
  induction l as [|b l IH]; [done|]. pose proof (from_be_lt l) as Hlt.
  assert (from_be (b :: l) = Byte.to_N b * 256 ^ lenN l + from_be l) as ->.
  { unfold from_be at 1. cbn [from_be_aux]. by rewrite from_be_aux_acc. }
  cbn [length be_bytes]. assert (256 ^ lenN l ≠ 0) by (apply N.pow_nonzero; lia).
  rewrite <- (be_bytes_mod (length l) (length l)) by done.
  rewrite N.add_comm, N.Div0.mod_add, N.mod_small, IH by done.
  rewrite N.div_add, N.div_small by done. by rewrite N.add_0_l, byte_of_N_to_N.
Qed.

Lemma take_bytes_app x rest : take_bytes (lenN x) (x ++ rest) = (Ok x, rest).
Proof.
  unfold take_bytes. rewrite (proj2 (N.ltb_ge _ _)) by (rewrite length_app; lia).
  rewrite Nat2N.id. by rewrite take_app_length, drop_app_length.
Qed.
Lemma take_bytes_inv n input x rest : take_bytes n input = (Ok x, rest) → input = x ++ rest ∧ lenN x = n.
Proof.
  unfold take_bytes. destruct (N.ltb_spec (lenN input) n); [done|]. intros [= <- <-].
  rewrite take_drop, length_take. split; [done|lia].
Qed.
Lemma take_uint_app k n rest : n < 256 ^ N.of_nat k → take_uint (N.of_nat k) (be_bytes k n ++ rest) = (Ok n, rest).
Proof.
  intros Hn. unfold take_uint. erewrite op_ok_bind; [|rewrite <- (length_be_bytes k n) at 1; apply take_bytes_app].
  by rewrite from_be_be_bytes.
Qed.
Lemma take_uint_inv k input n rest :
  take_uint (N.of_nat k) input = (Ok n, rest) → input = be_bytes k n ++ rest ∧ n < 256 ^ N.of_nat k.
Proof.
  unfold take_uint, mbind, op_bind. destruct (take_bytes _ input) as [[b|e] r] eqn:Hb; [|done].
  apply take_bytes_inv in Hb as [-> Hl]. cbn. intros [= <- <-].
  assert (length b = k) as <- by lia. split; [by rewrite be_bytes_from_be|apply from_be_lt].
Qed.
Lemma take_str_app s rest : utf8_valid s = true → take_str (str_len s) (str_bytes s ++ rest) = (Ok s, rest).
Proof.
  intros Hs. unfold take_str. erewrite op_ok_bind; [|rewrite <- length_str_bytes; apply take_bytes_app].
  unfold str_bytes. by rewrite String.string_of_list_byte_of_string, Hs.
Qed.
Lemma take_str_inv n input s rest :
  take_str n input = (Ok s, rest) → input = str_bytes s ++ rest ∧ str_len s = n ∧ utf8_valid s = true.
Proof.
  unfold take_str, mbind, op_bind. destruct (take_bytes n input) as [[b|e] r] eqn:Hb; [|done].
  apply take_bytes_inv in Hb as [-> Hl]. destruct (utf8_valid _) eqn:Hu; [|done]. cbn. intros [= <- <-].
  assert (str_bytes (String.string_of_list_byte b) = b) as Hb
    by (unfold str_bytes; apply String.list_byte_of_string_of_list_byte).
  rewrite Hb, <- length_str_bytes, Hb. done.
Qed.
Lemma put_text_inv s t : put_text s = Ok t → t = be_bytes 2 (str_len s) ++ str_bytes s ∧ str_len s ≤ u16_max.
Proof. unfold put_text. destruct (N.ltb_spec u16_max (str_len s)); [done|]. by intros [= <-]. Qed.
Lemma put_text_ok s : str_len s ≤ u16_max → put_text s = Ok (be_bytes 2 (str_len s) ++ str_bytes s).
Proof. intros Hs. unfold put_text. by rewrite (proj2 (N.ltb_ge _ _)). Qed.
Lemma str_len_zero s : str_len s = 0 → s = EmptyString.
Proof. destruct s; [done|]. unfold str_len. simpl. lia. Qed.

Lemma take_text_put s t rest : put_text s = Ok t → s ≠ EmptyString → utf8_valid s = true → take_text (t ++ rest) = (Ok s, rest).
Proof.
  intros Hp Hne Hu. apply put_text_inv in Hp as [-> Hl]. unfold take_text. rewrite <- app_assoc.
  erewrite op_ok_bind; [|apply (take_uint_app 2), u16_fits, Hl].
  destruct (N.eqb_spec (str_len s) 0) as [E%str_len_zero|]; [done|]. by apply take_str_app.
Qed.
Lemma take_text_inv input s rest :
  take_text input = (Ok s, rest) → utf8_valid s = true ∧ ∃ t, put_text s = Ok t ∧ input = t ++ rest.
Proof.
  unfold take_text, mbind, op_bind. destruct (take_uint 2 input) as [[n|e] r] eqn:Hn; [|done].
  apply (take_uint_inv 2) in Hn as [-> Hn]. destruct (N.eqb_spec n 0) as [|Hz]; [done|]. intros Hs.
  apply take_str_inv in Hs as (-> & <- & Hu). split; [done|]. eexists. rewrite put_text_ok; [|unfold u16_max; cbn in Hn; lia].
  split; [done|]. by rewrite <- app_assoc.
Qed.
Lemma take_optional_put o t rest :
  put_optional_text o = Ok t → (∀ s, o = Some s → s ≠ EmptyString ∧ utf8_valid s = true) →
  take_optional_text (t ++ rest) = (Ok o, rest).
Proof.
  destruct o as [s|]; cbn [put_optional_text]; intros Hp Ho.
  - destruct (Ho s eq_refl) as [Hne Hu]. apply put_text_inv in Hp as [-> Hl]. unfold take_optional_text. rewrite <- app_assoc.
    erewrite op_ok_bind; [|apply (take_uint_app 2), u16_fits, Hl].
    destruct (N.eqb_spec (str_len s) 0) as [E%str_len_zero|]; [done|]. by erewrite op_ok_bind by by apply take_str_app.
  - injection Hp as <-. unfold take_optional_text. erewrite op_ok_bind; [|by apply (take_uint_app 2)]. done.
Qed.
Lemma take_optional_inv input o rest :
  take_optional_text input = (Ok o, rest) →
  (∀ s, o = Some s → utf8_valid s = true) ∧ ∃ t, put_optional_text o = Ok t ∧ input = t ++ rest.
Proof.
  unfold take_optional_text, mbind, op_bind. destruct (take_uint 2 input) as [[n|e] r] eqn:Hn; [|done].
  apply (take_uint_inv 2) in Hn as [-> Hn]. destruct (N.eqb_spec n 0) as [->|Hz].
  - cbn. intros [= <- <-]. split; [done|]. by eexists.
  - destruct (take_str n r) as [[s|e] r'] eqn:Hs; [|done]. cbn. intros [= <- <-].
    apply take_str_inv in Hs as (-> & <- & Hu). split; [by intros s' [= <-]|]. eexists. cbn [put_optional_text].
    rewrite put_text_ok; [|unfold u16_max; cbn in Hn; lia]. split; [done|]. by rewrite <- app_assoc.
Qed.

(** ** The header is canonical *)

(** What the types of a header guarantee: the widths of its integers, the
    lengths of its arrays, and identifiers that were validated. *)
Record header_typed (p : HeaderParts) : Prop := {
  typed_flags : flags p ≤ u32_max ∧ validate_flags (flags p) = Ok ();
  typed_application : contract_identifier_new "application_id" (application_id p) = Ok (application_id p);
  typed_tenant t : tenant_id p = Some t → distributed_identifier_new "TenantId" t = Ok t;
  typed_content : content_type_new (content_type p) = Ok (content_type p);
  typed_codec : codec_id_new (codec_id p) = Ok (codec_id p);
  typed_key : key_id_new (key_id p) = Ok (key_id p);
  typed_utf8 : Forall (λ s, utf8_valid s = true)
    (application_id p :: content_type p :: codec_id p :: key_id p :: option_list (tenant_id p));
  typed_schema : schema_version p ≤ u32_max;
  typed_created : created_at_ms p ≤ u64_max;
  typed_payload : payload_length p ≤ u64_max;
  typed_metadata : encrypted_metadata_length p ≤ DNT_MAX_ENCRYPTED_METADATA_BYTES;
  typed_nonce : length (nonce p) = NONCE_BYTES;
  typed_hash : length (payload_hash p) = HASH_BYTES;
}.

Lemma u32_bytes n : n ≤ u32_max → n < 256 ^ N.of_nat 4.
Proof. unfold u32_max. intros. change (256 ^ N.of_nat 4) with 4294967296. lia. Qed.
Lemma below_u32 n : n < 256 ^ N.of_nat 4 → n ≤ u32_max.
Proof. unfold u32_max. change (256 ^ N.of_nat 4) with 4294967296. lia. Qed.
Lemma below_u64 n : n < 256 ^ N.of_nat 8 → n ≤ u64_max.
Proof. unfold u64_max. change (256 ^ N.of_nat 8) with 18446744073709551616. lia. Qed.
Lemma validate_id_not_empty value max slash : validate_id value max slash = Ok () → value ≠ EmptyString.
Proof. intros H ->. done. Qed.
Lemma dnt_id_ne f v max slash : (∀ s, f s = (_ ← validate_id s max slash; Ok s)) → f v = Ok v → v ≠ EmptyString.
Proof. intros Hf Hv. rewrite Hf in Hv. eapply (validate_id_not_empty v max slash). by destruct (validate_id v max slash) as [[]|]. Qed.
Lemma application_not_empty field v : contract_identifier_new field v = Ok v → v ≠ EmptyString.
Proof. intros H ->. done. Qed.
Lemma distributed_not_empty kind v : distributed_identifier_new kind v = Ok v → v ≠ EmptyString.
Proof. intros H ->. done. Qed.

Ltac parse_uint := erewrite op_ok_bind; [|apply take_uint_app; first [by apply u32_bytes|by apply u64_fits|done]].
Lemma parse_encoded_parts p body : header_typed p → encode_body p = Ok body → parse_parts body = (Ok p, []).
Proof.
  intros [[Hf1 Hf2] Ha Ht Hc Hd Hk Hu Hs Hcr Hp Hm Hn Hh].
  apply Forall_cons in Hu as [Ua Hu]. apply Forall_cons in Hu as [Uc Hu]. apply Forall_cons in Hu as [Ud Hu].
  apply Forall_cons in Hu as [Uk Hu]. unfold encode_body, checked_u32.
  destruct (N.ltb_spec u32_max (lenN (public_metadata p))) as [|Hpm]; [done|]. cbn [mbind result_bind].
  destruct (put_text (application_id p)) as [ta|] eqn:Ea; [|done].
  destruct (put_optional_text (tenant_id p)) as [tt|] eqn:Et; [|done].
  destruct (put_text (content_type p)) as [tc|] eqn:Ec; [|done].
  destruct (put_text (codec_id p)) as [td|] eqn:Ed; [|done].
  destruct (put_text (key_id p)) as [tk|] eqn:Ek; [|done].
  cbn [mbind result_bind]. intros Hb. apply ok_inj in Hb as <-. unfold parse_parts.
  change 4 with (N.of_nat 4). change 2 with (N.of_nat 2). change 8 with (N.of_nat 8).
  parse_uint. rewrite Hf2, op_lift_ok. erewrite op_ok_bind; [|by apply take_uint_app; destruct (algorithm p)].
  assert (algorithm_from_id (algorithm_id (algorithm p)) = Ok (algorithm p)) as -> by by destruct (algorithm p).
  rewrite op_lift_ok. do 3 parse_uint.
  rewrite <- Hn at 1. erewrite op_ok_bind by apply take_bytes_app.
  rewrite <- Hh at 1. erewrite op_ok_bind by apply take_bytes_app.
  parse_uint. erewrite op_ok_bind; [|apply take_uint_app, u32_bytes; unfold DNT_MAX_ENCRYPTED_METADATA_BYTES, u32_max in *; lia].
  rewrite (proj2 (N.ltb_ge _ _)) by done.
  erewrite op_ok_bind; [|apply (take_text_put _ _ _ Ea); [by eapply application_not_empty|done]].
  rewrite Ha. cbn [format_error map_err]. rewrite op_lift_ok.
  erewrite op_ok_bind; [|apply (take_optional_put _ _ _ Et)]; cycle 1.
  { intros t E. split; [by eapply distributed_not_empty, Ht|]. rewrite E in Hu. by apply Forall_cons in Hu as [? _]. }
  assert (match tenant_id p with
          | Some t => format_error (Some <$> distributed_identifier_new "TenantId" t)
          | None => Ok None
          end = Ok (tenant_id p)) as -> by (destruct (tenant_id p) as [t|]; [by rewrite (Ht t)|done]).
  rewrite op_lift_ok.
  erewrite op_ok_bind; [|apply (take_text_put _ _ _ Ec); [by eapply (dnt_id_ne content_type_new)|done]].
  rewrite Hc, op_lift_ok.
  erewrite op_ok_bind; [|apply (take_text_put _ _ _ Ed); [by eapply (dnt_id_ne codec_id_new)|done]].
  rewrite Hd, op_lift_ok.
  erewrite op_ok_bind; [|apply (take_text_put _ _ _ Ek); [by eapply (dnt_id_ne key_id_new)|done]].
  rewrite Hk, op_lift_ok. rewrite <- (app_nil_r (public_metadata p)) at 2.
  erewrite op_ok_bind by apply take_bytes_app. rewrite op_get_bind. by destruct p.
Qed.

Lemma header_bytes_length n body : lenN (header_bytes n body) = 14 + lenN body.
Proof. unfold header_bytes. rewrite !length_app, !length_be_bytes. change (length DNT_MAGIC) with 8%nat. lia. Qed.
Lemma header_bytes_magic n body : take 8 (header_bytes n body) = DNT_MAGIC.
Proof. done. Qed.
Lemma header_bytes_version n body : read_uint 8 2 (header_bytes n body) = DNT_ENVELOPE_VERSION_V1.
Proof. done. Qed.
Lemma header_bytes_size n body : n ≤ u32_max → read_uint 10 4 (header_bytes n body) = n.
Proof.
  intros Hn. unfold read_uint. change (take 4 (drop 10 (header_bytes n body))) with (be_bytes 4 n).
  apply from_be_be_bytes. by apply u32_bytes.
Qed.
Lemma header_bytes_body n body : drop MIN_PREFIX_BYTES (header_bytes n body) = body.
Proof. done. Qed.
(** An input that begins as a header is one. *)
Lemma header_bytes_inv input :
  (14 ≤ length input)%nat → take 8 input = DNT_MAGIC → read_uint 8 2 input = DNT_ENVELOPE_VERSION_V1 →
  input = header_bytes (read_uint 10 4 input) (drop MIN_PREFIX_BYTES input).
Proof.
  intros Hl Hm Hv. unfold header_bytes, read_uint in *.
  assert (be_bytes 2 DNT_ENVELOPE_VERSION_V1 = take 2 (drop 8 input)) as ->.
  { rewrite <- Hv. assert (length (take 2 (drop 8 input)) = 2%nat) as E by (rewrite length_take, length_drop; lia).
    rewrite <- E at 1. apply be_bytes_from_be. }
  assert (be_bytes 4 (from_be (take 4 (drop 10 input))) = take 4 (drop 10 input)) as ->.
  { assert (length (take 4 (drop 10 input)) = 4%nat) as E by (rewrite length_take, length_drop; lia).
    rewrite <- E at 1. apply be_bytes_from_be. }
  rewrite <- Hm. unfold MIN_PREFIX_BYTES.
  rewrite <- (take_drop 8 input) at 1. f_equal. rewrite <- (take_drop 2 (drop 8 input)) at 1. f_equal.
  rewrite drop_drop. rewrite <- (take_drop 4 (drop (8 + 2) input)) at 1. f_equal. by rewrite drop_drop.
Qed.

Lemma encode_header_ok p bytes :
  encode_header p = Ok bytes →
  ∃ body, encode_body p = Ok body ∧ bytes = header_bytes (lenN bytes) body ∧ lenN bytes ≤ DNT_MAX_HEADER_BYTES.
Proof.
  unfold encode_header. destruct (_ || _); [done|]. destruct (encode_body p) as [body|] eqn:Hb; [|done].
  cbn [mbind result_bind]. cbv zeta. destruct (N.ltb_spec DNT_MAX_HEADER_BYTES (lenN (header_bytes 0 body))) as [|Hl]; [done|].
  unfold checked_u32. destruct (u32_max <? _); [done|]. cbn [mbind result_bind]. intros H. apply ok_inj in H as <-.
  exists body. rewrite !header_bytes_length in *. done.
Qed.

Lemma inspect_encoded p bytes rest :
  header_typed p → encode_header p = Ok bytes →
  inspect_header (bytes ++ rest) = Ok {| envelope_version := 1; header_length := lenN bytes; parts := p |}.
Proof.
  intros Hp He. apply encode_header_ok in He as (body & Hb & Hbytes & Hl).
  assert (lenN bytes ≤ u32_max) as Hu by (unfold DNT_MAX_HEADER_BYTES, u32_max in *; lia).
  assert (14 ≤ lenN bytes) as Hmin by (rewrite Hbytes, header_bytes_length; lia).
  assert (∀ n k, (n + k ≤ 14)%nat → take k (drop n (bytes ++ rest)) = take k (drop n bytes)) as Hprefix.
  { intros n k Hnk. rewrite drop_app_le by lia. apply take_app_le. rewrite length_drop. lia. }
  unfold inspect_header, read_uint. rewrite (proj2 (N.ltb_ge _ _)) by (rewrite length_app; unfold MIN_PREFIX_BYTES; lia).
  assert (take 8 bytes = DNT_MAGIC) as Hm by (rewrite Hbytes; apply header_bytes_magic).
  assert (read_uint 8 2 bytes = DNT_ENVELOPE_VERSION_V1) as Hv by (rewrite Hbytes; apply header_bytes_version).
  assert (read_uint 10 4 bytes = lenN bytes) as Hsize by (rewrite Hbytes at 1; by apply header_bytes_size).
  rewrite (bool_decide_eq_false_2 (take 8 (bytes ++ rest) ≠ _)); [|intros []; pose proof (Hprefix 0%nat 8%nat) as E; rewrite !drop_0 in E; by rewrite E by lia].
  cbn [orb]. rewrite bool_decide_eq_false_2; [|intros []; unfold read_uint in Hv; by rewrite Hprefix by lia].
  cbv zeta. unfold read_uint in Hsize. rewrite Hprefix, Hsize by lia.
  rewrite !(proj2 (N.ltb_ge _ _)); [|rewrite length_app; lia|done|unfold MIN_PREFIX_BYTES; lia].
  cbn [orb]. rewrite Nat2N.id, take_app_length. unfold parse_header.
  assert (drop MIN_PREFIX_BYTES bytes = body) as -> by (rewrite Hbytes; apply header_bytes_body).
  by rewrite (parse_encoded_parts p body).
Qed.

Lemma checked_id_inv {E} (r : result E ()) (v s : string) : (_ ← r; Ok v) = Ok s → s = v ∧ (_ ← r; Ok v) = Ok v.
Proof. destruct r as [[]|]; [|done]. by intros [= <-]. Qed.
Lemma application_inv v s :
  format_error (contract_identifier_new "application_id" v) = Ok s → s = v ∧ contract_identifier_new "application_id" v = Ok v.
Proof.
  unfold format_error, contract_identifier_new. destruct (validate_contract_identifier _ v) as [[]|]; [|done]. cbn. intros H. by apply ok_inj in H as <-.
Qed.
Lemma tenant_inv v o :
  match v with
  | Some t => format_error (Some <$> distributed_identifier_new "TenantId" t)
  | None => Ok None
  end = Ok o → o = v ∧ ∀ t, v = Some t → distributed_identifier_new "TenantId" t = Ok t.
Proof.
  destruct v as [t|]; [|by intros [= <-]]. unfold format_error, distributed_identifier_new.
  destruct (validate_distributed_identifier "TenantId" t) as [[]|] eqn:E; [|done]. cbn. intros H. apply ok_inj in H as <-.
  split; [done|]. intros t' [= <-]. by rewrite E.
Qed.

Lemma encode_body_public p body : encode_body p = Ok body → (length (public_metadata p) ≤ length body)%nat.
Proof.
  unfold encode_body. destruct (checked_u32 _ _); [|done]. cbn [mbind result_bind].
  destruct (put_text (application_id p)); [|done]. destruct (put_optional_text (tenant_id p)); [|done].
  destruct (put_text (content_type p)); [|done]. destruct (put_text (codec_id p)); [|done].
  destruct (put_text (key_id p)); [|done]. cbn [mbind result_bind]. intros H. apply ok_inj in H as <-.
  rewrite !length_app. lia.
Qed.

Ltac next_uint H n Hn :=
  let s := fresh "s" in
  apply op_bind_inv in H as (n & s & Hn & H); apply take_uint_inv in Hn as [-> Hn].
Lemma parse_parts_inv input p rest :
  parse_parts input = (Ok p, rest) → rest = [] ∧ encode_body p = Ok input ∧ header_typed p.
Proof.
  unfold parse_parts. change 4 with (N.of_nat 4). change 2 with (N.of_nat 2). change 8 with (N.of_nat 8). intros H.
  next_uint H fl Hfl. apply op_lift_inv in H as ([] & Hvf & H).
  next_uint H a Ha. apply op_lift_inv in H as (al & Hal & H).
  next_uint H sv Hsv. next_uint H cr Hcr. next_uint H pl Hpl.
  apply op_bind_inv in H as (no & s4 & Hno & H). apply take_bytes_inv in Hno as [-> Hno].
  apply op_bind_inv in H as (ha & s5 & Hha & H). apply take_bytes_inv in Hha as [-> Hha].
  next_uint H pm Hpm. next_uint H em Hem.
  destruct (N.ltb_spec DNT_MAX_ENCRYPTED_METADATA_BYTES em) as [|Hem']; [done|].
  apply op_bind_inv in H as (ap & s8 & Hap & H). apply take_text_inv in Hap as (Uap & tap & Hap & ->).
  apply op_lift_inv in H as (ap' & Happ & H). apply application_inv in Happ as [-> Happ].
  apply op_bind_inv in H as (te & s9 & Hte & H). apply take_optional_inv in Hte as (Ute & tte & Hte & ->).
  apply op_lift_inv in H as (te' & Htt & H). apply tenant_inv in Htt as [-> Htt].
  apply op_bind_inv in H as (ct & s10 & Hct & H). apply take_text_inv in Hct as (Uct & tct & Hct & ->).
  apply op_lift_inv in H as (ct' & Hctt & H). apply checked_id_inv in Hctt as [-> Hctt].
  apply op_bind_inv in H as (co & s11 & Hco & H). apply take_text_inv in Hco as (Uco & tco & Hco & ->).
  apply op_lift_inv in H as (co' & Hcoo & H). apply checked_id_inv in Hcoo as [-> Hcoo].
  apply op_bind_inv in H as (ke & s12 & Hke & H). apply take_text_inv in Hke as (Uke & tke & Hke & ->).
  apply op_lift_inv in H as (ke' & Hkee & H). apply checked_id_inv in Hkee as [-> Hkee].
  apply op_bind_inv in H as (me & s13 & Hme & H). apply take_bytes_inv in Hme as [-> Hme].
  rewrite op_get_bind in H. case_bool_decide as Hr; [done|]. subst s13.
  apply pair_equal_spec in H as [H <-]. apply ok_inj in H as <-. split; [done|]. split.
  - unfold encode_body, checked_u32. cbn [public_metadata application_id tenant_id content_type codec_id key_id flags algorithm
      schema_version created_at_ms payload_length nonce payload_hash encrypted_metadata_length].
    rewrite Hme. rewrite (proj2 (N.ltb_ge _ _)) by by apply below_u32. rewrite Hap, Hte, Hct, Hco, Hke.
    cbn [mbind result_bind]. rewrite app_nil_r. assert (algorithm_id al = a) as ->; [|done].
    revert Hal. unfold algorithm_from_id. destruct (N.eqb_spec a 1) as [->|]; [|done]. by destruct al.
  - split; cbn; try done; try (by apply below_u32); try (by apply below_u64); try lia.
    + split; [by apply below_u32|done].
    + repeat (apply Forall_cons_2; [done|]). destruct te as [t|]; cbn; [|done].
      apply Forall_cons_2; [by apply Ute|done].
Qed.

Lemma inspect_inv input h :
  inspect_header input = Ok h →
  ∃ bytes rest, input = bytes ++ rest ∧ encode_header (parts h) = Ok bytes ∧ header_length h = lenN bytes ∧
    envelope_version h = 1 ∧ header_typed (parts h).
Proof.
  unfold inspect_header.
  destruct (N.ltb_spec (lenN input) (N.of_nat MIN_PREFIX_BYTES)) as [|Hl]; [done|]. cbn [orb].
  case_bool_decide as Hm; [done|]. case_bool_decide as Hv; [done|]. cbv zeta.
  destruct (N.ltb_spec (read_uint 10 4 input) (N.of_nat MIN_PREFIX_BYTES)) as [|Hmin]; [done|].
  destruct (N.ltb_spec DNT_MAX_HEADER_BYTES (read_uint 10 4 input)) as [|Hmax]; [done|].
  destruct (N.ltb_spec (lenN input) (read_uint 10 4 input)) as [|Hlen]; [done|]. cbn [orb].
  set (n := read_uint 10 4 input) in *. set (bytes := take (N.to_nat n) input).
  assert (length bytes = N.to_nat n) as Hbl by (unfold bytes; rewrite length_take; lia).
  unfold parse_header. destruct (parse_parts (drop MIN_PREFIX_BYTES bytes)) as [[p|e] rest] eqn:Hp; [|done].
  cbn. intros Hok. apply ok_inj in Hok as <-. apply parse_parts_inv in Hp as (-> & Hbody & Hty). cbn.
  assert (∀ i k, (i + k ≤ 14)%nat → take k (drop i bytes) = take k (drop i input)) as Hprefix.
  { intros i k Hik. unfold bytes, MIN_PREFIX_BYTES in *. rewrite <- (take_drop (N.to_nat n) input) at 2.
    symmetry. rewrite drop_app_le by lia. apply take_app_le. rewrite length_drop. lia. }
  assert (bytes = header_bytes n (drop MIN_PREFIX_BYTES bytes)) as Hbytes.
  { rewrite (header_bytes_inv bytes) at 1; unfold read_uint, MIN_PREFIX_BYTES in *; rewrite ?Hprefix by lia; [done|lia| |done].
    pose proof (Hprefix 0%nat 8%nat) as E. rewrite !drop_0 in E. rewrite E by lia. done. }
  exists bytes, (drop (N.to_nat n) input). split_and!; [symmetry; apply take_drop| |lia|done|done].
  unfold encode_header. rewrite !(proj2 (N.ltb_ge _ _)).
  - cbn [orb]. rewrite Hbody. cbn [mbind result_bind]. cbv zeta.
    assert (lenN (header_bytes 0 (drop MIN_PREFIX_BYTES bytes)) = n) as Hn.
    { rewrite header_bytes_length, length_drop. unfold MIN_PREFIX_BYTES in *. lia. }
    rewrite Hn, (proj2 (N.ltb_ge _ _)) by done. unfold checked_u32.
    rewrite (proj2 (N.ltb_ge _ _)) by (unfold DNT_MAX_HEADER_BYTES, u32_max in *; lia).
    cbn [mbind result_bind]. by rewrite <- Hbytes.
  - apply (typed_metadata _ Hty).
  - apply encode_body_public in Hbody. rewrite length_drop in Hbody. unfold DNT_MAX_HEADER_BYTES in *. lia.
Qed.

(** The header is canonical. What is encoded is read back from the beginning
    of any input, with its length; and an input that is accepted begins with
    the encoding of exactly the fields that were read, whose length was stated:
    no two inputs with different headers are read as the same, and every field
    that is read satisfies the invariants of its type. *)
Theorem headers_are_canonical :
  (∀ p bytes rest, header_typed p → encode_header p = Ok bytes →
     inspect_header (bytes ++ rest) = Ok {| envelope_version := 1; header_length := lenN bytes; parts := p |}) ∧
  (∀ input h, inspect_header input = Ok h →
     ∃ bytes rest, input = bytes ++ rest ∧ encode_header (parts h) = Ok bytes ∧ header_length h = lenN bytes ∧
       envelope_version h = 1 ∧ header_typed (parts h)).
Proof.
  split; [intros p bytes rest; apply inspect_encoded|apply inspect_inv].
Qed.

(** A header with every field, followed by other bytes. *)
Definition demo_parts : HeaderParts :=
  {| flags := 65537; algorithm := XChaCha20Poly1305; application_id := "notes"; tenant_id := Some "acme"%string;
     content_type := "text/plain"; codec_id := "bytes"; key_id := "k.1"; schema_version := 3; created_at_ms := 1000;
     payload_length := 5; nonce := repeat x07 24; payload_hash := repeat x08 32; public_metadata := str_bytes "p";
     encrypted_metadata_length := 4 |}.
Definition demo_bytes : list byte := match encode_header demo_parts with Ok b => b | Err _ => [] end.
Lemma demo_parts_typed : header_typed demo_parts.
Proof.
  split.
  - split; vm_compute; [discriminate|reflexivity].
  - reflexivity.
  - intros t E. injection E as <-. vm_compute. reflexivity.
  - vm_compute. reflexivity.
  - vm_compute. reflexivity.
  - vm_compute. reflexivity.
  - cbn [application_id content_type codec_id key_id tenant_id demo_parts option_list].
    repeat (apply Forall_cons; split; [reflexivity|]). by apply Forall_nil.
  - discriminate.
  - discriminate.
  - discriminate.
  - discriminate.
  - reflexivity.
  - reflexivity.
Qed.
Lemma headers_are_canonical_witness :
  inspect_header (demo_bytes ++ str_bytes "rest") =
    Ok {| envelope_version := 1; header_length := 142; parts := demo_parts |} ∧
  ∃ bytes rest, demo_bytes ++ str_bytes "rest" = bytes ++ rest ∧ encode_header demo_parts = Ok bytes ∧ 142 = lenN bytes ∧
    1 = 1 ∧ header_typed demo_parts.
Proof.
  assert (encode_header demo_parts = Ok demo_bytes) as He by (vm_compute; reflexivity).
  assert (lenN demo_bytes = 142) as Hl by (vm_compute; reflexivity).
  pose proof (proj1 headers_are_canonical demo_parts demo_bytes (str_bytes "rest") demo_parts_typed He) as Hi. rewrite Hl in Hi.
  split; [exact Hi|]. exact (proj2 headers_are_canonical _ _ Hi).
Defined.
