(* ===== verification/DntEnvelope.v ===== *)
(** Sealing and opening DNT envelopes ([crates/appcore-dnt/src]): key providers
    and codecs ([crypto.rs], [codec.rs]), the cipher and the keyed digest
    ([cipher.rs]), compression ([compression.rs]), the plaintext layout
    ([plaintext.rs]), the operations ([model.rs], [migration.rs]) and their files
    ([io.rs]).

    XChaCha20-Poly1305, HMAC-SHA-256 and zlib are the class [DntPrimitives] with
    their documented behaviour as [DntPrimitivesLaws]. Wiping buffers before an
    error is returned has no effect in the model. *)

From S2P Require Import Prelude.
From S2P Require Import Text.
From S2P Require Import Types.
From S2P Require Import Contracts.
From S2P Require Import Encoding.
From S2P Require Import Files.
From S2P Require Import Dnt.

Local Open Scope N_scope.

(** ** Code outside the repository *)

(** [chacha20poly1305] with the tag behind the ciphertext, and detached; [hmac]
    with SHA-256; [flate2]: reading stops after a number of bytes. *)
Class DntPrimitives := {
  aead_encrypt : list byte → list byte → list byte → list byte → option (list byte);
  aead_decrypt : list byte → list byte → list byte → list byte → option (list byte);
  aead_decrypt_detached : list byte → list byte → list byte → list byte → list byte → option (list byte);
  hmac_sha256 : list byte → list byte → list byte;
  zlib_compress : list byte → option (list byte);
  zlib_read : list byte → N → option (list byte);
}.
Definition AEAD_TAG_BYTES : nat := 16.
Class DntPrimitivesLaws `{DntPrimitives} := {
  (* What decrypts is what encryption gave for the same key, nonce and data. *)
  aead_decrypt_spec k n aad c m : aead_decrypt k n aad c = Some m ↔ aead_encrypt k n aad m = Some c;
  aead_length k n aad m c : aead_encrypt k n aad m = Some c → length c = (length m + AEAD_TAG_BYTES)%nat;
  (* A message has at most 2^32 - 1 blocks of 64 bytes. *)
  aead_limit k n aad m c : aead_encrypt k n aad m = Some c → lenN m ≤ 274877906880;
  aead_detached k n aad c tag :
    length tag = AEAD_TAG_BYTES → aead_decrypt_detached k n aad c tag = aead_decrypt k n aad (c ++ tag);
  hmac_length k m : length (hmac_sha256 k m) = HASH_BYTES;
  zlib_roundtrip m c limit : zlib_compress m = Some c → lenN m ≤ limit → zlib_read c limit = Some m;
}.

(** ** Options, contexts, keys and codecs *)

Record DntContext := {
  context_application : string; context_tenant : option string; context_content : string;
  context_codec : string; context_schema : N;
}.
Definition context_from_header (h : DntHeader) : DntContext :=
  {| context_application := application_id (parts h); context_tenant := tenant_id (parts h);
     context_content := content_type (parts h); context_codec := codec_id (parts h);
     context_schema := schema_version (parts h) |}.
Record DntSealOptions := {
  seal_application : string;
  seal_tenant : option string;
  seal_content : string;
  seal_schema : N;
  seal_key : string;
  seal_created : N;
  seal_public : list byte;
  seal_encrypted : list byte;
  seal_flags : N;
  seal_max : option N;
}.
Definition with_flags (f : N) (o : DntSealOptions) : DntSealOptions :=
  {| seal_application := seal_application o; seal_tenant := seal_tenant o; seal_content := seal_content o;
     seal_schema := seal_schema o; seal_key := seal_key o; seal_created := seal_created o; seal_public := seal_public o;
     seal_encrypted := seal_encrypted o; seal_flags := f; seal_max := seal_max o |}.
Definition seal_compact_payload (o : DntSealOptions) : DntSealOptions :=
  with_flags (N.lor (seal_flags o) DNT_FLAG_PAYLOAD_DEFLATE) o.
Definition seal_with_user_flag (o : DntSealOptions) (index : N) : DntResult DntSealOptions :=
  f ← flags_from_bits (seal_flags o);
  f ← with_user_flag f index;
  Ok (with_flags f o).
Record DntOpenOptions := {
  open_application : string; open_tenant : option string; open_content : string; open_max : option N;
}.
Record OpenedDnt := { opened_header : DntHeader; opened_payload : list byte; opened_metadata : list byte }.

Definition SecretKey : Type := list byte.
Definition secret_key_from_slice (bytes : list byte) : result DntKeyError SecretKey :=
  if bool_decide (length bytes ≠ 32%nat) then Err InvalidKey else Ok bytes.
(** [DntKeyProvider]. *)
Definition key_provider : Type := string → DntContext → result DntKeyError SecretKey.
Definition static_provider (keys : gmap string SecretKey) : key_provider := λ id _, ok_or NotFound (keys !! id).

(** [DntCodec]. *)
Record DntCodec := {
  own_codec_id : string;
  matches_codec_id : string → bool;
  encode : list byte → result CodecError (list byte);
  decode_owned : list byte → result CodecError (list byte);
}.
Definition BytesCodec : DntCodec :=
  {| own_codec_id := "bytes"; matches_codec_id id := bool_decide (id = "bytes"%string); encode b := Ok b; decode_owned b := Ok b |}.
Definition IdentityJsonCodec : DntCodec :=
  {| own_codec_id := "json"; matches_codec_id id := bool_decide (id = "json"%string); encode b := Ok b; decode_owned b := Ok b |}.

Definition enforce_max (actual : N) (max : option N) : DntResult () :=
  match max with Some m => if m <? actual then Err PayloadTooLarge else Ok () | None => Ok () end.

Section Envelope.
Context `{DntPrimitives}.

(** ** [cipher.rs] *)

Definition encrypt (key nonce aad plaintext : list byte) : DntResult (list byte) :=
  ok_or AuthenticationFailed (aead_encrypt key nonce aad plaintext).
Definition decrypt (key nonce aad ciphertext : list byte) : DntResult (list byte) :=
  ok_or AuthenticationFailed (aead_decrypt key nonce aad ciphertext).
(** The buffer with the ciphertext decrypted in place, and where the plaintext is. *)
Definition decrypt_owned_in_place (key nonce : list byte) (header_len : nat) (input : list byte) :
    DntResult (list byte * (nat * nat)) :=
  if bool_decide (length input < header_len)%nat then Err InvalidFormat
  else
    let aad := take header_len input in
    let with_tag := drop header_len input in
    if bool_decide (length with_tag < AEAD_TAG_BYTES)%nat then Err InvalidFormat
    else
      let tag_start := (length with_tag - AEAD_TAG_BYTES)%nat in
      plaintext ← ok_or AuthenticationFailed
        (aead_decrypt_detached key nonce aad (take tag_start with_tag) (drop tag_start with_tag));
      Ok (aad ++ plaintext ++ drop tag_start with_tag, (header_len, header_len + tag_start)%nat).
Definition derive_payload_digest_key (key : list byte) : list byte :=
  hmac_sha256 key (str_bytes "appcore-dnt-payload-digest-key-v1").
Definition payload_digest (key payload : list byte) : list byte :=
  hmac_sha256 (derive_payload_digest_key key)
    (str_bytes "appcore-dnt-payload-digest-v1" ++ be_bytes 8 (lenN payload) ++ payload).
Definition verify_payload_digest (key payload expected : list byte) : bool :=
  bool_decide (payload_digest key payload = expected).

(** ** [compression.rs] *)

Definition is_compacted (flags : N) : bool := negb (N.land flags DNT_FLAG_PAYLOAD_DEFLATE =? 0).
Definition compression_from_flags (flags : N) : DntResult bool := _ ← validate_flags flags; Ok (is_compacted flags).
Definition encode_payload (flags : N) (encoded : list byte) (max : option N) : DntResult (list byte) :=
  deflate ← compression_from_flags flags;
  if deflate : bool then
    compacted ← ok_or CodecFailed (zlib_compress encoded);
    _ ← enforce_max (lenN compacted) max;
    Ok compacted
  else Ok encoded.
Definition inflate_bounded (input : list byte) (max : option N) : DntResult (list byte) :=
  match max with
  | None => Err PayloadTooLarge
  | Some m =>
    output ← ok_or CodecFailed (zlib_read input (sat_add64 m 1));
    _ ← enforce_max (lenN output) (Some m);
    Ok output
  end.
Definition decode_payload (flags : N) (stored : list byte) (max : option N) : DntResult (list byte) :=
  deflate ← compression_from_flags flags;
  if deflate : bool then inflate_bounded stored max else Ok stored.

(** ** [plaintext.rs] *)

Definition encode_plaintext (metadata payload : list byte) : DntResult (list byte) :=
  n ← checked_u32 (lenN metadata) PayloadTooLarge;
  Ok (be_bytes 4 n ++ metadata ++ payload).
(** [slice.get(from..to)]. *)
Definition slice_get (from to : nat) (l : list byte) : option (list byte) :=
  if bool_decide (from ≤ to ≤ length l)%nat then Some (take (to - from) (drop from l)) else None.
Definition decode_plaintext_ranges (plaintext : list byte) (h : DntHeader) : DntResult ((nat * nat) * nat) :=
  prefix ← ok_or InvalidFormat (slice_get 0 4 plaintext);
  let metadata_len := from_be prefix in
  if negb (metadata_len =? encrypted_metadata_length (parts h)) then Err AuthenticationFailed
  else
    let payload_start := (4 + N.to_nat metadata_len)%nat in
    metadata ← ok_or InvalidFormat (slice_get 4 payload_start plaintext);
    payload ← ok_or InvalidFormat (slice_get payload_start (length plaintext) plaintext);
    if negb (lenN payload =? payload_length (parts h)) then Err AuthenticationFailed
    else Ok ((4, 4 + length metadata)%nat, payload_start).

(** ** [model.rs] *)

Definition sealed_context (codec : DntCodec) (o : DntSealOptions) : DntContext :=
  {| context_application := seal_application o; context_tenant := seal_tenant o; context_content := seal_content o;
     context_codec := own_codec_id codec; context_schema := seal_schema o |}.
(** The header of [seal]. *)
Definition sealed_parts (codec : DntCodec) (o : DntSealOptions) (key nonce stored : list byte) (metadata_length : N) : HeaderParts :=
  {| flags := seal_flags o; algorithm := XChaCha20Poly1305; application_id := seal_application o;
     tenant_id := seal_tenant o; content_type := seal_content o; codec_id := own_codec_id codec;
     key_id := seal_key o; schema_version := seal_schema o; created_at_ms := seal_created o;
     payload_length := lenN stored; nonce := nonce; payload_hash := payload_digest key stored;
     public_metadata := seal_public o; encrypted_metadata_length := metadata_length |}.
(** [random]: what the generator of the system returns. *)
Definition random_nonce (random : option (list byte)) : DntResult (list byte) := ok_or Io random.
Definition seal (payload : list byte) (provider : key_provider) (codec : DntCodec) (random : option (list byte))
    (o : DntSealOptions) : DntResult (list byte) :=
  _ ← enforce_max (lenN payload) (seal_max o);
  _ ← validate_flags (seal_flags o);
  encoded ← map_err dnt_error_of_codec (encode codec payload);
  _ ← enforce_max (lenN encoded) (seal_max o);
  stored ← encode_payload (seal_flags o) encoded (seal_max o);
  _ ← enforce_max (lenN stored) (seal_max o);
  metadata_length ← checked_u32 (lenN (seal_encrypted o)) PayloadTooLarge;
  key ← map_err dnt_error_of_key (provider (seal_key o) (sealed_context codec o));
  nonce ← random_nonce random;
  header ← encode_header (sealed_parts codec o key nonce stored metadata_length);
  plaintext ← encode_plaintext (seal_encrypted o) stored;
  ciphertext ← encrypt key nonce header plaintext;
  Ok (header ++ ciphertext).

(** [AuthenticatedDnt]: the payload is a range of the buffer. *)
Record AuthenticatedDnt := {
  auth_header : DntHeader; auth_metadata : list byte; buffer : list byte; payload_start : nat; payload_end : nat;
}.
Definition range (from to : nat) (l : list byte) : list byte := take (to - from) (drop from l).
Definition stored_payload (a : AuthenticatedDnt) : list byte := range (payload_start a) (payload_end a) (buffer a).
(** The payload is copied to the front, the rest up to its old end is wiped and
    the buffer is cut. *)
Definition take_payload_buffer (a : AuthenticatedDnt) : list byte :=
  let payload_len := (payload_end a - payload_start a)%nat in
  let moved := if bool_decide (payload_start a ≠ 0%nat) then stored_payload a ++ drop payload_len (buffer a) else buffer a in
  let wiped := take payload_len moved ++ replicate (payload_end a - payload_len) x00 ++ drop (payload_end a) moved in
  take payload_len wiped.

Definition validate_header_context (h : DntHeader) (codec : DntCodec) (o : DntOpenOptions) : DntResult () :=
  if bool_decide (application_id (parts h) ≠ open_application o) || bool_decide (tenant_id (parts h) ≠ open_tenant o)
     || bool_decide (content_type (parts h) ≠ open_content o) then Err ContextMismatch
  else if negb (matches_codec_id codec (codec_id (parts h))) then Err CodecUnavailable
  else Ok ().
(** What both ways of opening do before they decrypt. *)
Definition inspect_for (input : list byte) (codec : DntCodec) (o : DntOpenOptions) : DntResult DntHeader :=
  h ← inspect_header input;
  _ ← validate_header_context h codec o;
  _ ← enforce_max (payload_length (parts h)) (open_max o);
  Ok h.
Definition authenticate_internal (input : list byte) (provider : key_provider) (codec : DntCodec) (o : DntOpenOptions) :
    DntResult AuthenticatedDnt :=
  h ← inspect_for input codec o;
  let header_len := N.to_nat (header_length h) in
  ciphertext ← ok_or InvalidFormat (slice_get header_len (length input) input);
  if bool_decide (ciphertext = []) then Err InvalidFormat
  else
    key ← map_err dnt_error_of_key (provider (key_id (parts h)) (context_from_header h));
    plaintext ← decrypt key (nonce (parts h)) (take header_len input) ciphertext;
    ranges ← decode_plaintext_ranges plaintext h;
    let '((from, to), start) := ranges in
    if negb (verify_payload_digest key (drop start plaintext) (payload_hash (parts h))) then Err AuthenticationFailed
    else
      Ok {| auth_header := h; auth_metadata := range from to plaintext; buffer := plaintext;
            payload_start := start; payload_end := length plaintext |}.
Definition authenticate_owned_internal (input : list byte) (provider : key_provider) (codec : DntCodec) (o : DntOpenOptions) :
    DntResult AuthenticatedDnt :=
  h ← inspect_for input codec o;
  let header_len := N.to_nat (header_length h) in
  if bool_decide (length input ≤ header_len)%nat then Err InvalidFormat
  else
    key ← map_err dnt_error_of_key (provider (key_id (parts h)) (context_from_header h));
    decrypted ← decrypt_owned_in_place key (nonce (parts h)) header_len input;
    let '(input, (first, last)) := decrypted in
    ranges ← decode_plaintext_ranges (range first last input) h;
    let '((from, to), start) := ranges in
    let start := (first + start)%nat in
    if negb (verify_payload_digest key (range start last input) (payload_hash (parts h))) then Err AuthenticationFailed
    else
      Ok {| auth_header := h; auth_metadata := range (first + from) (first + to) input; buffer := input;
            payload_start := start; payload_end := last |}.

Definition open_authenticated (a : AuthenticatedDnt) (codec : DntCodec) (o : DntOpenOptions) : DntResult OpenedDnt :=
  payload ←
    (if is_compacted (flags (parts (auth_header a))) then
       encoded ← decode_payload (flags (parts (auth_header a))) (stored_payload a) (open_max o);
       map_err dnt_error_of_codec (decode_owned codec encoded)
     else map_err dnt_error_of_codec (decode_owned codec (take_payload_buffer a)));
  _ ← enforce_max (lenN payload) (open_max o);
  Ok {| opened_header := auth_header a; opened_payload := payload; opened_metadata := auth_metadata a |}.
Definition open (input : list byte) (provider : key_provider) (codec : DntCodec) (o : DntOpenOptions) : DntResult OpenedDnt :=
  a ← authenticate_internal input provider codec o;
  open_authenticated a codec o.
Definition open_owned (input : list byte) (provider : key_provider) (codec : DntCodec) (o : DntOpenOptions) : DntResult OpenedDnt :=
  a ← authenticate_owned_internal input provider codec o;
  open_authenticated a codec o.
(** The header of a [VerifiedDnt]. *)
Definition verify (input : list byte) (provider : key_provider) (codec : DntCodec) (o : DntOpenOptions) : DntResult DntHeader :=
  a ← authenticate_internal input provider codec o;
  _ ← (if is_compacted (flags (parts (auth_header a))) then
         _ ← decode_payload (flags (parts (auth_header a))) (stored_payload a) (open_max o); Ok ()
       else Ok ());
  Ok (auth_header a).

(** ** [migration.rs] *)

Definition options_from_opened (opened : OpenedDnt) (key : string) (max : option N) : DntSealOptions :=
  let p := parts (opened_header opened) in
  {| seal_application := application_id p; seal_tenant := tenant_id p; seal_content := content_type p;
     seal_schema := schema_version p; seal_key := key; seal_created := created_at_ms p;
     seal_public := public_metadata p; seal_encrypted := opened_metadata opened;
     seal_flags := flags p; seal_max := max |}.
Definition reseal (input : list byte) (provider : key_provider) (codec : DntCodec) (random : option (list byte))
    (o : DntOpenOptions) (new_key : option string) : DntResult (list byte) :=
  opened ← open input provider codec o;
  let key := default (key_id (parts (opened_header opened))) new_key in
  seal (opened_payload opened) provider codec random (options_from_opened opened key (open_max o)).
Definition rekey (input : list byte) (provider : key_provider) (codec : DntCodec) (random : option (list byte))
    (o : DntOpenOptions) (new_key : string) : DntResult (list byte) :=
  reseal input provider codec random o (Some new_key).
Definition migrate_envelope (input : list byte) (provider : key_provider) (codec : DntCodec) (random : option (list byte))
    (o : DntOpenOptions) : DntResult (list byte) :=
  reseal input provider codec random o None.

(** ** [io.rs] *)

Definition max_envelope_bytes (o : DntOpenOptions) : DntResult N :=
  max ← ok_or PayloadTooLarge (open_max o);
  ok_or PayloadTooLarge
    (with_header ← checked_add64 max DNT_MAX_HEADER_BYTES;
     with_metadata ← checked_add64 with_header DNT_MAX_ENCRYPTED_METADATA_BYTES;
     checked_add64 with_metadata 20).

Abbreviation dnt_disk := (disk string).
(** [reject_symlink] and the metadata of the open file are accesses that may
    fail; there are no links in the model. *)
Definition dnt_failed (_ : string) : DntError := Io.
Definition read_bounded (path : string) (max_bytes : N) : op dnt_disk DntError (list byte) :=
  _ ← probe dnt_failed;
  content ← read_file dnt_failed path;
  match content with
  | None => op_fail Io
  | Some bytes =>
    _ ← probe dnt_failed;
    if max_bytes <? lenN bytes then op_fail PayloadTooLarge
    else
      _ ← op_lift (ok_or PayloadTooLarge (checked_add64 max_bytes 1));
      _ ← probe dnt_failed;
      mret bytes
  end.
(** [create_new], [write_all] and [sync_all] on the temporary file, the rename
    and the sync of the directory. *)
Definition write_and_rename (path : string) (bytes : list byte) : op dnt_disk DntError () :=
  replace_file dnt_failed 3 path bytes.
(** A failed write removes the temporary file, whatever comes of it. *)
Definition or_remove_temporary (o : op dnt_disk DntError ()) : op dnt_disk DntError () := λ d,
  match o d with
  | (Ok tt, d) => (Ok (), d)
  | (Err e, d) => (Err e, (probe dnt_failed d).2)
  end.
(** The directories and the check of the path come first. *)
Definition atomic_replace (path : string) (bytes : list byte) : op dnt_disk DntError () :=
  _ ← probes dnt_failed 2;
  or_remove_temporary (write_and_rename path bytes).
Definition write_atomic (path : string) (payload : list byte) (provider : key_provider) (codec : DntCodec)
    (random : option (list byte)) (sealing : DntSealOptions) (opening : DntOpenOptions) : op dnt_disk DntError () :=
  envelope ← op_lift (seal payload provider codec random sealing);
  _ ← op_lift (verify envelope provider codec opening);
  atomic_replace path envelope.
Definition read_verified (path : string) (provider : key_provider) (codec : DntCodec) (o : DntOpenOptions) :
    op dnt_disk DntError OpenedDnt :=
  max ← op_lift (max_envelope_bytes o);
  bytes ← read_bounded path max;
  op_lift (open_owned bytes provider codec o).
End Envelope.

(** ** Ranges and the plaintext layout *)

Lemma range_app l m r : range (length l) (length l + length m) (l ++ m ++ r) = m.
Proof. unfold range. rewrite drop_app_length. replace (_ - _)%nat with (length m) by lia. apply take_app_length. Qed.
Lemma range_suffix l m : range (length l) (length (l ++ m)) (l ++ m) = m.
Proof. unfold range. rewrite drop_app_length, length_app. replace (_ - _)%nat with (length m) by lia. apply firstn_all. Qed.
Lemma range_shift from to l r : range (length l + from) (length l + to) (l ++ r) = range from to r.
Proof.
  unfold range. rewrite drop_app_ge by lia. replace (_ + from - _)%nat with from by lia.
  by replace (_ + to - _)%nat with (to - from)%nat by lia.
Qed.
Lemma range_within from to l r : (to ≤ length l)%nat → range from to (l ++ r) = range from to l.
Proof.
  intros Ht. unfold range. destruct (decide (from ≤ length l)%nat) as [Hf|Hf].
  - rewrite drop_app_le by done. apply take_app_le. rewrite length_drop. lia.
  - replace (to - from)%nat with 0%nat by lia. done.
Qed.
Lemma range_all from l : range from (length l) l = drop from l.
Proof. unfold range. apply take_ge. by rewrite length_drop. Qed.
Lemma slice_get_all n l : (n ≤ length l)%nat → slice_get n (length l) l = Some (drop n l).
Proof.
  intros Hn. unfold slice_get. rewrite bool_decide_eq_true_2 by lia. f_equal. apply take_ge. by rewrite length_drop.
Qed.
Lemma slice_get_Some from to l x : slice_get from to l = Some x → x = range from to l ∧ (from ≤ to ≤ length l)%nat.
Proof. unfold slice_get. case_bool_decide; [|done]. by intros [= <-]. Qed.

(** The payload buffer is the payload, whatever the buffer holds around it. *)
Definition in_buffer (a : AuthenticatedDnt) : Prop := (payload_start a ≤ payload_end a ≤ length (buffer a))%nat.
Lemma take_payload_buffer_stored a : in_buffer a → take_payload_buffer a = stored_payload a.
Proof.
  intros [Hs He]. unfold take_payload_buffer. assert (length (stored_payload a) = payload_end a - payload_start a)%nat as Hl.
  { unfold stored_payload, range. rewrite length_take, length_drop. lia. }
  cbv zeta. case_bool_decide as Hz.
  - rewrite take_app_le by (rewrite length_take, length_app; lia). rewrite take_take, Nat.min_id. rewrite <- Hl. apply take_app_length.
  - rewrite take_app_le by (rewrite length_take; lia). rewrite take_take, Nat.min_id. unfold stored_payload, range.
    by rewrite Hz, drop_0.
Qed.

(** The plaintext of an envelope. *)
Definition layout (metadata stored : list byte) : list byte := be_bytes 4 (lenN metadata) ++ metadata ++ stored.
Lemma length_layout md st : length (layout md st) = (4 + length md + length st)%nat.
Proof. unfold layout. rewrite !length_app, length_be_bytes. lia. Qed.
Lemma layout_metadata md st : range 4 (4 + length md) (layout md st) = md.
Proof. unfold layout. rewrite <- (length_be_bytes 4 (lenN md)) at 1 2. apply range_app. Qed.
Lemma layout_metadata_get md st : slice_get 4 (4 + length md) (layout md st) = Some md.
Proof.
  unfold slice_get. rewrite bool_decide_eq_true_2 by (rewrite length_layout; lia). f_equal. apply layout_metadata.
Qed.
Lemma layout_stored md st : drop (4 + length md) (layout md st) = st.
Proof.
  unfold layout. rewrite app_assoc. rewrite <- (length_be_bytes 4 (lenN md)) at 1. rewrite <- length_app. apply drop_app_length.
Qed.
Lemma layout_length_prefix md st : slice_get 0 4 (layout md st) = Some (be_bytes 4 (lenN md)).
Proof. unfold slice_get. rewrite bool_decide_eq_true_2; [done|]. rewrite length_layout. lia. Qed.
Lemma decode_layout md st h :
  lenN md ≤ u32_max → encrypted_metadata_length (parts h) = lenN md → payload_length (parts h) = lenN st →
  decode_plaintext_ranges (layout md st) h = Ok ((4, 4 + length md), 4 + length md)%nat.
Proof.
  intros Hu Hm Hp. unfold decode_plaintext_ranges. rewrite layout_length_prefix. cbn [ok_or mbind result_bind]. cbv zeta.
  rewrite from_be_be_bytes by by apply u32_bytes. rewrite Hm, N.eqb_refl, Nat2N.id. cbn [negb].
  rewrite layout_metadata_get. cbn [ok_or mbind result_bind].
  rewrite slice_get_all by (rewrite length_layout; lia). rewrite layout_stored. cbn [ok_or mbind result_bind].
  by rewrite Hp, N.eqb_refl.
Qed.
Lemma decode_plaintext_inv plaintext h from to start :
  decode_plaintext_ranges plaintext h = Ok ((from, to), start) →
  ∃ md st, plaintext = layout md st ∧ from = 4%nat ∧ to = (4 + length md)%nat ∧ start = (4 + length md)%nat ∧
    encrypted_metadata_length (parts h) = lenN md ∧ payload_length (parts h) = lenN st ∧ lenN md ≤ u32_max.
Proof.
  unfold decode_plaintext_ranges. destruct (slice_get 0 4 plaintext) as [prefix|] eqn:Hp; [|done].
  apply slice_get_Some in Hp as [-> Hp]. cbn [ok_or mbind result_bind]. cbv zeta.
  destruct (N.eqb_spec (from_be (range 0 4 plaintext)) (encrypted_metadata_length (parts h))) as [Hm|]; [|done]. cbn [negb].
  destruct (slice_get 4 _ plaintext) as [md|] eqn:Hmd; [|done]. apply slice_get_Some in Hmd as [-> Hmd].
  cbn [ok_or mbind result_bind]. rewrite slice_get_all by lia. cbn [ok_or mbind result_bind].
  destruct (N.eqb_spec (lenN (drop (4 + N.to_nat (from_be (range 0 4 plaintext))) plaintext)) (payload_length (parts h))) as [Hl|]; [|done].
  cbn [negb]. intros Hok. apply ok_inj in Hok. injection Hok as <- <- <-.
  set (n := from_be (range 0 4 plaintext)) in *. set (md := range 4 (4 + N.to_nat n) plaintext).
  assert (length md = N.to_nat n) as Hlen by (unfold md, range; rewrite length_take, length_drop; lia).
  exists md, (drop (4 + N.to_nat n) plaintext). rewrite Hlen.
  split_and!; try done; [|exact (f_equal (Nat.add 4) Hlen)|by rewrite N2Nat.id|rewrite N2Nat.id].
  - unfold layout. assert (lenN md = n) as -> by lia.
    assert (be_bytes 4 n = range 0 4 plaintext) as ->.
    { assert (length (range 0 4 plaintext) = 4%nat) as E by (unfold range; rewrite length_take, length_drop; lia).
      unfold n. rewrite <- E at 1. apply be_bytes_from_be. }
    unfold md, range. rewrite <- (take_drop 4 plaintext) at 1. f_equal. rewrite <- (take_drop (N.to_nat n) (drop 4 plaintext)) at 1.
    rewrite drop_drop. by replace (4 + N.to_nat n - 4)%nat with (N.to_nat n) by lia.
  - assert (length (range 0 4 plaintext) = 4%nat) as E by (unfold range; rewrite length_take, length_drop; lia).
    apply below_u32. pose proof (from_be_lt (range 0 4 plaintext)) as Hlt. by rewrite E in Hlt.
Qed.

(** ** Both ways of opening *)

Section Opening.
Context `{DntPrimitivesLaws}.
Implicit Type a b : AuthenticatedDnt.

Lemma inspect_for_inv input codec o h :
  inspect_for input codec o = Ok h →
  inspect_header input = Ok h ∧ validate_header_context h codec o = Ok () ∧ enforce_max (payload_length (parts h)) (open_max o) = Ok ().
Proof.
  unfold inspect_for. destruct (inspect_header input) as [h'|]; [|done]. cbn.
  destruct (validate_header_context h' codec o) as [[]|] eqn:Hc; [|done]. cbn.
  destruct (enforce_max _ _) as [[]|] eqn:Hm; [|done]. cbn. by intros [= <-].
Qed.
Lemma decrypt_short key n aad c : (length c < AEAD_TAG_BYTES)%nat → decrypt key n aad c = Err AuthenticationFailed.
Proof.
  intros Hc. unfold decrypt. destruct (aead_decrypt key n aad c) as [m|] eqn:Hd; [|done].
  apply aead_decrypt_spec, aead_length in Hd. lia.
Qed.
(** Decryption in place leaves the plaintext between the header and the tag. *)
Lemma decrypt_owned_spec key n hb c :
  (AEAD_TAG_BYTES ≤ length c)%nat →
  decrypt_owned_in_place key n (length hb) (hb ++ c) =
  (plaintext ← decrypt key n hb c;
   Ok (hb ++ plaintext ++ drop (length plaintext) c, (length hb, length hb + length plaintext)%nat)).
Proof.
  intros Hc. unfold decrypt_owned_in_place, decrypt. rewrite bool_decide_eq_false_2 by (rewrite length_app; lia).
  rewrite take_app_length, drop_app_length. cbv zeta. rewrite bool_decide_eq_false_2 by lia.
  rewrite aead_detached by (rewrite length_drop; lia). rewrite take_drop.
  destruct (aead_decrypt key n hb c) as [m|] eqn:Hd; [|done]. cbn. apply aead_decrypt_spec, aead_length in Hd.
  by replace (length c - AEAD_TAG_BYTES)%nat with (length m) by lia.
Qed.

(** The two ways of authenticating agree, but on a ciphertext without a tag. *)
Definition no_tag (input : list byte) : Prop :=
  ∃ h, inspect_header input = Ok h ∧ (length input < N.to_nat (header_length h) + AEAD_TAG_BYTES)%nat.
Lemma authenticate_agree input provider codec o :
  match authenticate_internal input provider codec o, authenticate_owned_internal input provider codec o with
  | Ok a, Ok b => auth_header a = auth_header b ∧ auth_metadata a = auth_metadata b ∧
                  stored_payload a = stored_payload b ∧ in_buffer a ∧ in_buffer b
  | Err e, Err e' => e = e' ∨ (e = AuthenticationFailed ∧ e' = InvalidFormat ∧ no_tag input)
  | _, _ => False
  end.
Proof.
  unfold authenticate_internal, authenticate_owned_internal.
  destruct (inspect_for input codec o) as [h|] eqn:Hi; [|by left]. cbn [mbind result_bind]. cbv zeta.
  apply inspect_for_inv in Hi as (Hi & _ & _). pose proof Hi as Hh. apply inspect_inv in Hh as (hb & c & -> & _ & Hl & _).
  rewrite Hl, Nat2N.id. rewrite slice_get_all by (rewrite length_app; lia). rewrite drop_app_length, take_app_length.
  cbn [ok_or mbind result_bind]. destruct (decide (c = [])) as [->|Hc].
  { rewrite bool_decide_eq_true_2, bool_decide_eq_true_2 by (rewrite ?app_nil_r; lia || done). by left. }
  rewrite bool_decide_eq_false_2 by done.
  rewrite bool_decide_eq_false_2 by (destruct c; [done|]; rewrite length_app; cbn [length]; lia).
  destruct (map_err _ (provider _ _)) as [key|] eqn:Hk; [|by left]. cbn [mbind result_bind].
  destruct (decide (length c < AEAD_TAG_BYTES)%nat) as [Hshort|Htag].
  { rewrite decrypt_short by done. unfold decrypt_owned_in_place. rewrite bool_decide_eq_false_2 by (rewrite length_app; lia).
    rewrite drop_app_length. cbv zeta. rewrite bool_decide_eq_true_2 by done. right. split_and!; [done|done|].
    exists h. split; [done|]. rewrite Hl, length_app, Nat2N.id. lia. }
  rewrite decrypt_owned_spec by lia. destruct (decrypt key _ hb c) as [m|]; [|by left]. cbn [mbind result_bind].
  rewrite range_app. destruct (decode_plaintext_ranges m h) as [[[from to] start]|] eqn:Hd; [|by left].
  cbn [mbind result_bind]. apply decode_plaintext_inv in Hd as (md & st & -> & -> & -> & -> & _ & _ & _).
  pose proof (length_layout md st) as Hlen. rewrite range_shift, range_within by lia. rewrite range_all, layout_stored.
  destruct (negb _); [by left|].
  cbn [auth_header auth_metadata]. rewrite range_shift, range_within by lia.
  split_and!; try done; unfold stored_payload, in_buffer; cbn [buffer payload_start payload_end];
    [by rewrite range_shift, range_within|lia..|rewrite !length_app; lia].
Qed.
Lemma open_authenticated_same a b codec o :
  auth_header a = auth_header b → auth_metadata a = auth_metadata b → stored_payload a = stored_payload b →
  in_buffer a → in_buffer b → open_authenticated a codec o = open_authenticated b codec o.
Proof.
  intros Hh Hm Hp Ha Hb. unfold open_authenticated. by rewrite Hh, Hm, !take_payload_buffer_stored, Hp.
Qed.

(** ** What authentication accepts *)

(** [input] is the header [h] and the encryption under [key], bound to that
    header, of the metadata and the stored payload that the header describes. *)
Record authentic (input : list byte) (h : DntHeader) (key metadata stored : list byte) : Prop := {
  authentic_bytes :
    ∃ bytes c, input = bytes ++ c ∧ encode_header (parts h) = Ok bytes ∧ header_length h = lenN bytes ∧
      aead_encrypt key (nonce (parts h)) bytes (layout metadata stored) = Some c;
  authentic_version : envelope_version h = 1;
  authentic_typed : header_typed (parts h);
  authentic_metadata : encrypted_metadata_length (parts h) = lenN metadata;
  authentic_payload : payload_length (parts h) = lenN stored;
  authentic_digest : payload_digest key stored = payload_hash (parts h);
}.
Definition authenticated (h : DntHeader) (metadata stored : list byte) : AuthenticatedDnt :=
  {| auth_header := h; auth_metadata := metadata; buffer := layout metadata stored;
     payload_start := 4 + length metadata; payload_end := length (layout metadata stored) |}.
Lemma authenticated_stored h md st : stored_payload (authenticated h md st) = st.
Proof. unfold stored_payload. cbn [buffer payload_start payload_end authenticated]. by rewrite range_all, layout_stored. Qed.
Lemma authenticated_in_buffer h md st : in_buffer (authenticated h md st).
Proof. unfold in_buffer. cbn [buffer payload_start payload_end authenticated]. rewrite length_layout. lia. Qed.
Lemma authenticated_taken h md st : take_payload_buffer (authenticated h md st) = st.
Proof. rewrite take_payload_buffer_stored by apply authenticated_in_buffer. apply authenticated_stored. Qed.

Lemma authenticate_inv input provider codec o a :
  authenticate_internal input provider codec o = Ok a →
  ∃ h key md st, a = authenticated h md st ∧ authentic input h key md st ∧
    validate_header_context h codec o = Ok () ∧ enforce_max (lenN st) (open_max o) = Ok () ∧
    provider (key_id (parts h)) (context_from_header h) = Ok key.
Proof.
  unfold authenticate_internal. destruct (inspect_for input codec o) as [h|] eqn:Hi; [|done]. cbn [mbind result_bind]. cbv zeta.
  apply inspect_for_inv in Hi as (Hi & Hctx & Hmax). apply inspect_inv in Hi as (hb & c & -> & He & Hl & Hv & Hty).
  rewrite Hl, Nat2N.id. rewrite slice_get_all by (rewrite length_app; lia). rewrite drop_app_length, take_app_length.
  cbn [ok_or mbind result_bind]. destruct (bool_decide (c = [])); [done|].
  destruct (provider _ _) as [key|] eqn:Hk; [|done]. cbn [map_err mbind result_bind]. unfold decrypt.
  destruct (aead_decrypt key _ hb c) as [m|] eqn:Hd; [|done]. apply aead_decrypt_spec in Hd. cbn [ok_or mbind result_bind].
  destruct (decode_plaintext_ranges m h) as [[[from to] start]|] eqn:Hr; [|done]. cbn [mbind result_bind].
  apply decode_plaintext_inv in Hr as (md & st & -> & -> & -> & -> & Hmd & Hst & _).
  rewrite layout_stored, layout_metadata. destruct (verify_payload_digest key st _) eqn:Hdig; [|done]. cbn [negb].
  apply bool_decide_eq_true in Hdig. intros Hok. apply ok_inj in Hok as <-. rewrite Hst in Hmax.
  exists h, key, md, st. split_and!; try done. split; [by exists hb, c|done..].
Qed.
Lemma authentic_inspect input h key md st : authentic input h key md st → inspect_header input = Ok h.
Proof.
  intros [(hb & c & -> & He & Hl & _) Hv Hty _ _ _]. rewrite (inspect_encoded (parts h) hb c Hty He).
  destruct h; cbn in *. by rewrite Hv, Hl.
Qed.
Lemma authenticate_ok input h key md st provider codec o :
  authentic input h key md st → validate_header_context h codec o = Ok () → enforce_max (lenN st) (open_max o) = Ok () →
  provider (key_id (parts h)) (context_from_header h) = Ok key →
  authenticate_internal input provider codec o = Ok (authenticated h md st).
Proof.
  intros Hauth Hctx Hmax Hk. pose proof (authentic_inspect _ _ _ _ _ Hauth) as Hi.
  destruct Hauth as [(hb & c & -> & He & Hl & Henc) Hv Hty Hmd Hst Hdig].
  unfold authenticate_internal, inspect_for. rewrite Hi. cbn [mbind result_bind]. rewrite Hctx. cbn [mbind result_bind].
  rewrite Hst, Hmax. cbn [mbind result_bind]. cbv zeta. rewrite Hl, Nat2N.id.
  rewrite slice_get_all by (rewrite length_app; lia). rewrite drop_app_length, take_app_length. cbn [ok_or mbind result_bind].
  pose proof (aead_length _ _ _ _ _ Henc) as Hlen. unfold AEAD_TAG_BYTES in Hlen.
  rewrite bool_decide_eq_false_2 by (intros ->; cbn in Hlen; lia). rewrite Hk. cbn [map_err mbind result_bind].
  unfold decrypt. rewrite (proj2 (aead_decrypt_spec _ _ _ _ _) Henc). cbn [ok_or mbind result_bind].
  rewrite decode_layout by (done || (rewrite <- Hmd; pose proof (typed_metadata _ Hty); unfold DNT_MAX_ENCRYPTED_METADATA_BYTES, u32_max in *; lia)).
  cbn [mbind result_bind]. rewrite layout_stored, layout_metadata. unfold verify_payload_digest.
  by rewrite bool_decide_eq_true_2.
Qed.

(** ** Sealing *)

(** What the types of the options guarantee. *)
Record seal_typed (o : DntSealOptions) : Prop := {
  sealed_flags : seal_flags o ≤ u32_max;
  sealed_application : contract_identifier_new "application_id" (seal_application o) = Ok (seal_application o);
  sealed_tenant t : seal_tenant o = Some t → distributed_identifier_new "TenantId" t = Ok t;
  sealed_content : content_type_new (seal_content o) = Ok (seal_content o);
  sealed_key : key_id_new (seal_key o) = Ok (seal_key o);
  sealed_utf8 : Forall (λ s, utf8_valid s = true)
    (seal_application o :: seal_content o :: seal_key o :: option_list (seal_tenant o));
  sealed_schema : seal_schema o ≤ u32_max;
  sealed_created : seal_created o ≤ u64_max;
  sealed_max m : seal_max o = Some m → m ≤ u64_max;
}.
(** A codec with a valid identifier of its own, which decodes what it encoded. *)
Record codec_sound (codec : DntCodec) : Prop := {
  codec_id_valid : codec_id_new (own_codec_id codec) = Ok (own_codec_id codec);
  codec_id_utf8 : utf8_valid (own_codec_id codec) = true;
  codec_matches : matches_codec_id codec (own_codec_id codec) = true;
  codec_roundtrip p e : encode codec p = Ok e → decode_owned codec e = Ok p;
}.
Definition nonce_drawn (random : option (list byte)) : Prop := ∀ n, random = Some n → length n = NONCE_BYTES.

Lemma checked_u32_inv n e m : checked_u32 n e = Ok m → m = n ∧ n ≤ u32_max.
Proof. unfold checked_u32. destruct (N.ltb_spec u32_max n); [done|]. by intros [= <-]. Qed.
Lemma encode_plaintext_inv md st pt : encode_plaintext md st = Ok pt → pt = layout md st.
Proof.
  unfold encode_plaintext. destruct (checked_u32 (lenN md) PayloadTooLarge) as [n|] eqn:Hn; [|done].
  apply checked_u32_inv in Hn as [-> _]. intros H1. apply ok_inj in H1 as <-. done.
Qed.
Lemma payload_roundtrip flags encoded max stored :
  encode_payload flags encoded max = Ok stored → enforce_max (lenN encoded) max = Ok () →
  (∀ m, max = Some m → m ≤ u64_max) → (is_compacted flags = true → max ≠ None) →
  decode_payload flags stored max = Ok encoded.
Proof.
  unfold encode_payload, decode_payload. destruct (compression_from_flags flags) as [deflate|] eqn:Hc; [|done].
  cbn [mbind result_bind]. unfold compression_from_flags in Hc. destruct (validate_flags flags); [|done].
  apply ok_inj in Hc as <-. destruct (is_compacted flags); [|by intros [= ->]].
  destruct (zlib_compress encoded) as [z|] eqn:Hz; [|done]. cbn [ok_or mbind result_bind].
  destruct (enforce_max (lenN z) max); [|done]. cbn. intros [= ->] Hmax Hty Hsome.
  destruct max as [m|]; [|by destruct Hsome]. unfold inflate_bounded, enforce_max in *.
  destruct (N.ltb_spec m (lenN encoded)) as [|Hle]; [done|].
  rewrite (zlib_roundtrip _ _ (sat_add64 m 1) Hz) by (specialize (Hty m eq_refl); unfold sat_add; lia). cbn [ok_or mbind result_bind].
  by rewrite (proj2 (N.ltb_ge _ _)).
Qed.
Lemma encode_payload_plain flags encoded max stored :
  encode_payload flags encoded max = Ok stored → is_compacted flags = false → stored = encoded.
Proof.
  unfold encode_payload, compression_from_flags. destruct (validate_flags flags); [|done]. cbn. intros Hs Hf.
  rewrite Hf in Hs. by injection Hs.
Qed.

Lemma encode_header_metadata p bytes : encode_header p = Ok bytes → encrypted_metadata_length p ≤ DNT_MAX_ENCRYPTED_METADATA_BYTES.
Proof.
  unfold encode_header. destruct (N.ltb_spec DNT_MAX_ENCRYPTED_METADATA_BYTES (encrypted_metadata_length p)); [|done].
  by rewrite orb_true_r.
Qed.
(** The header that [seal] writes. *)
Definition sealed_header (codec : DntCodec) (o : DntSealOptions) (key nonce stored bytes : list byte) : DntHeader :=
  {| envelope_version := 1; header_length := lenN bytes;
     parts := sealed_parts codec o key nonce stored (lenN (seal_encrypted o)) |}.
Lemma seal_inv payload provider codec random o env :
  seal payload provider codec random o = Ok env →
  ∃ encoded stored key nonce bytes c,
    enforce_max (lenN payload) (seal_max o) = Ok () ∧ validate_flags (seal_flags o) = Ok () ∧
    encode codec payload = Ok encoded ∧ enforce_max (lenN encoded) (seal_max o) = Ok () ∧
    encode_payload (seal_flags o) encoded (seal_max o) = Ok stored ∧ enforce_max (lenN stored) (seal_max o) = Ok () ∧
    provider (seal_key o) (sealed_context codec o) = Ok key ∧ random = Some nonce ∧
    encode_header (parts (sealed_header codec o key nonce stored bytes)) = Ok bytes ∧
    aead_encrypt key nonce bytes (layout (seal_encrypted o) stored) = Some c ∧ env = bytes ++ c.
Proof.
  unfold seal. destruct (enforce_max (lenN payload) _) as [[]|] eqn:H1; [|done]. cbn [mbind result_bind].
  destruct (validate_flags (seal_flags o)) as [[]|] eqn:H2; [|done]. cbn [mbind result_bind].
  destruct (encode codec payload) as [encoded|] eqn:H3; [|done]. cbn [map_err mbind result_bind].
  destruct (enforce_max (lenN encoded) _) as [[]|] eqn:H4; [|done]. cbn [mbind result_bind].
  destruct (encode_payload _ encoded _) as [stored|] eqn:H5; [|done]. cbn [mbind result_bind].
  destruct (enforce_max (lenN stored) _) as [[]|] eqn:H6; [|done]. cbn [mbind result_bind].
  destruct (checked_u32 _ _) as [n|] eqn:Hn; [|done]. apply checked_u32_inv in Hn as [-> Hn]. cbn [mbind result_bind].
  destruct (provider _ _) as [key|] eqn:H7; [|done]. cbn [map_err mbind result_bind].
  destruct random as [nonce|]; [|done]. cbn [random_nonce ok_or mbind result_bind].
  destruct (encode_header _) as [bytes|] eqn:H8; [|done]. cbn [mbind result_bind].
  destruct (encode_plaintext _ stored) as [pt|] eqn:H9; [|done]. apply encode_plaintext_inv in H9 as ->. cbn [mbind result_bind].
  unfold encrypt. destruct (aead_encrypt _ _ _ _) as [c|] eqn:H10; [|done]. cbn. intros Hok. apply ok_inj in Hok as <-.
  by exists encoded, stored, key, nonce, bytes, c.
Qed.
Lemma sealed_authentic codec o key nonce stored bytes c :
  seal_typed o → codec_sound codec → length nonce = NONCE_BYTES → validate_flags (seal_flags o) = Ok () →
  encode_header (parts (sealed_header codec o key nonce stored bytes)) = Ok bytes →
  aead_encrypt key nonce bytes (layout (seal_encrypted o) stored) = Some c →
  authentic (bytes ++ c) (sealed_header codec o key nonce stored bytes) key (seal_encrypted o) stored.
Proof.
  intros [Hf Ha Ht Hc Hk Hu Hs Hcr _] [Hd Hdu _ _] Hn Hflags He Henc.
  apply Forall_cons in Hu as [Ua Hu]. apply Forall_cons in Hu as [Uc Hu]. apply Forall_cons in Hu as [Uk Hu].
  split; try done; [by exists bytes, c|]. apply encode_header_metadata in He. apply aead_limit in Henc. rewrite length_layout in Henc.
  split; cbn in *; try done; [by repeat (apply Forall_cons; split)|unfold u64_max; lia|apply hmac_length].
Qed.

(** Opening for the context of the sealing, under the same bound. *)
Definition opening_for (o : DntSealOptions) : DntOpenOptions :=
  {| open_application := seal_application o; open_tenant := seal_tenant o; open_content := seal_content o; open_max := seal_max o |}.
Lemma validate_context_ok h codec o :
  application_id (parts h) = open_application o → tenant_id (parts h) = open_tenant o →
  content_type (parts h) = open_content o → matches_codec_id codec (codec_id (parts h)) = true →
  validate_header_context h codec o = Ok ().
Proof.
  intros H1 H2 H3 H4. unfold validate_header_context. rewrite !bool_decide_eq_false_2 by (intros []; done). by rewrite H4.
Qed.
Lemma validate_context_inv h codec o :
  validate_header_context h codec o = Ok () →
  application_id (parts h) = open_application o ∧ tenant_id (parts h) = open_tenant o ∧
  content_type (parts h) = open_content o ∧ matches_codec_id codec (codec_id (parts h)) = true.
Proof.
  unfold validate_header_context. destruct (bool_decide_reflect (application_id (parts h) ≠ open_application o)) as [|H1]; [done|].
  destruct (bool_decide_reflect (tenant_id (parts h) ≠ open_tenant o)) as [|H2]; [done|].
  destruct (bool_decide_reflect (content_type (parts h) ≠ open_content o)) as [|H3]; [done|]. cbn [orb].
  destruct (matches_codec_id _ _); [|done]. intros _. split_and!; try done; by apply dec_stable.
Qed.
Lemma open_authenticated_plain h md st codec o payload :
  is_compacted (flags (parts h)) = false → decode_owned codec st = Ok payload → enforce_max (lenN payload) (open_max o) = Ok () →
  open_authenticated (authenticated h md st) codec o =
  Ok {| opened_header := h; opened_payload := payload; opened_metadata := md |}.
Proof.
  intros Hf Hd Hm. unfold open_authenticated. rewrite authenticated_taken. cbn [auth_header authenticated]. rewrite Hf, Hd.
  cbn [map_err mbind result_bind]. by rewrite Hm.
Qed.
Lemma open_authenticated_compacted h md st codec o encoded payload :
  is_compacted (flags (parts h)) = true → decode_payload (flags (parts h)) st (open_max o) = Ok encoded →
  decode_owned codec encoded = Ok payload → enforce_max (lenN payload) (open_max o) = Ok () →
  open_authenticated (authenticated h md st) codec o =
  Ok {| opened_header := h; opened_payload := payload; opened_metadata := md |}.
Proof.
  intros Hf Hp Hd Hm. unfold open_authenticated. rewrite authenticated_stored. cbn [auth_header authenticated]. rewrite Hf, Hp.
  cbn [mbind result_bind]. rewrite Hd. cbn [map_err mbind result_bind]. by rewrite Hm.
Qed.

(** Opening gives back what was sealed, under the header that was written. *)
Lemma open_seal payload provider codec random o env :
  seal_typed o → codec_sound codec → nonce_drawn random → (is_compacted (seal_flags o) = true → seal_max o ≠ None) →
  seal payload provider codec random o = Ok env →
  ∃ key nonce stored bytes,
    provider (seal_key o) (sealed_context codec o) = Ok key ∧
    open env provider codec (opening_for o) =
    Ok {| opened_header := sealed_header codec o key nonce stored bytes;
          opened_payload := payload; opened_metadata := seal_encrypted o |}.
Proof.
  intros Hty Hcodec Hrandom Hbound Hs.
  apply seal_inv in Hs as (encoded & stored & key & nonce & bytes & c & Hm & Hf & He & Hme & Hst & Hms & Hk & -> & Hh & Henc & ->).
  exists key, nonce, stored, bytes. split; [done|]. unfold open.
  rewrite (authenticate_ok _ (sealed_header codec o key nonce stored bytes) key (seal_encrypted o) stored);
    [|by apply sealed_authentic; auto|apply validate_context_ok; try done; apply Hcodec|done|done].
  cbn [mbind result_bind]. pose proof (payload_roundtrip _ _ _ _ Hst Hme (sealed_max o Hty) Hbound) as Hdec.
  pose proof (codec_roundtrip _ Hcodec _ _ He) as Hback.
  destruct (is_compacted (seal_flags o)) eqn:Hc.
  - by apply (open_authenticated_compacted _ _ _ _ _ encoded).
  - apply open_authenticated_plain; [done|by rewrite (encode_payload_plain _ _ _ _ Hst Hc)|done].
Qed.

Lemma open_inv input provider codec o x :
  open input provider codec o = Ok x →
  ∃ key st, authentic input (opened_header x) key (opened_metadata x) st ∧
    validate_header_context (opened_header x) codec o = Ok () ∧
    provider (key_id (parts (opened_header x))) (context_from_header (opened_header x)) = Ok key ∧
    enforce_max (lenN (opened_payload x)) (open_max o) = Ok () ∧
    (encoded ← decode_payload (flags (parts (opened_header x))) st (open_max o);
     map_err dnt_error_of_codec (decode_owned codec encoded)) = Ok (opened_payload x) ∧
    (is_compacted (flags (parts (opened_header x))) = true → open_max o ≠ None).
Proof.
  unfold open. destruct (authenticate_internal input provider codec o) as [a|] eqn:Ha; [|done]. cbn [mbind result_bind].
  apply authenticate_inv in Ha as (h & key & md & st & -> & Hauth & Hctx & Hm & Hk). unfold open_authenticated.
  rewrite authenticated_stored, authenticated_taken. cbn [auth_header auth_metadata authenticated]. intros Hx.
  assert (validate_flags (flags (parts h)) = Ok ()) as Hflags by apply (typed_flags _ (authentic_typed _ _ _ _ _ Hauth)).
  destruct (is_compacted (flags (parts h))) eqn:Hc.
  - destruct (decode_payload _ st _) as [encoded|] eqn:Hd; [|done]. cbn [mbind result_bind] in Hx.
    destruct (decode_owned codec encoded) as [p|] eqn:Hp; [|done]. cbn [map_err mbind result_bind] in Hx.
    destruct (enforce_max (lenN p) _) as [[]|] eqn:Hmp; [|done]. cbn [mbind result_bind] in Hx. apply ok_inj in Hx as <-.
    exists key, st. cbn. split_and!; try done; [by rewrite Hd; cbn; rewrite Hp|]. intros _ E.
    unfold decode_payload, compression_from_flags in Hd. rewrite Hflags in Hd. cbn in Hd. by rewrite Hc, E in Hd.
  - destruct (decode_owned codec st) as [p|] eqn:Hp; [|done]. cbn [map_err mbind result_bind] in Hx.
    destruct (enforce_max (lenN p) _) as [[]|] eqn:Hmp; [|done]. cbn [mbind result_bind] in Hx. apply ok_inj in Hx as <-.
    exists key, st. cbn. split_and!; try done; [|by rewrite Hc]. unfold decode_payload, compression_from_flags.
    rewrite Hflags. cbn. rewrite Hc. cbn. by rewrite Hp.
Qed.

(** Sealing again what was opened: every field is typed. *)
Definition key_typed (key : string) : Prop := key_id_new key = Ok key ∧ utf8_valid key = true.
Lemma options_from_opened_typed h md p key max :
  header_typed (parts h) → key_typed key → (∀ m, max = Some m → m ≤ u64_max) →
  seal_typed (options_from_opened {| opened_header := h; opened_payload := p; opened_metadata := md |} key max).
Proof.
  intros [[Hf _] Ha Ht Hc Hd _ Hu Hs Hcr _ _ _ _] [Hk Huk] Hm.
  apply Forall_cons in Hu as [Ua Hu]. apply Forall_cons in Hu as [Uc Hu]. apply Forall_cons in Hu as [_ Hu].
  apply Forall_cons in Hu as [_ Hu]. split; cbn; try done. by repeat (apply Forall_cons; split).
Qed.
Lemma reseal_inv input provider codec random o new_key env :
  codec_sound codec → nonce_drawn random → (∀ m, open_max o = Some m → m ≤ u64_max) →
  (∀ key, new_key = Some key → key_typed key) →
  reseal input provider codec random o new_key = Ok env →
  ∃ x key nonce stored bytes,
    open input provider codec o = Ok x ∧
    (let sealing := options_from_opened x (default (key_id (parts (opened_header x))) new_key) (open_max o) in
     provider (seal_key sealing) (sealed_context codec sealing) = Ok key ∧
     open env provider codec o =
     Ok {| opened_header := sealed_header codec sealing key nonce stored bytes;
           opened_payload := opened_payload x; opened_metadata := opened_metadata x |}).
Proof.
  intros Hcodec Hrandom Hmax Hkey. unfold reseal. destruct (open input provider codec o) as [x|] eqn:Hx; [|done].
  cbn [mbind result_bind]. cbv zeta. intros Hs. destruct (open_inv _ _ _ _ _ Hx) as (key & st & Hauth & Hctx & _ & _ & _ & Hbound).
  apply validate_context_inv in Hctx as (Happ & Hten & Hcon & _). pose proof (authentic_typed _ _ _ _ _ Hauth) as Hty.
  apply open_seal in Hs as (key' & nonce & stored & bytes & Hk & Ho); [|destruct x; apply options_from_opened_typed; try done..|done|done|done].
  - exists x, key', nonce, stored, bytes. split_and!; [done|done|]. etrans; [|exact Ho]. f_equal. destruct o. cbn in *. unfold opening_for. cbn. congruence.
  - destruct new_key as [k|]; cbn; [by apply Hkey|]. split; [apply Hty|]. pose proof (typed_utf8 _ Hty) as Hu.
    by do 3 apply Forall_cons in Hu as [_ Hu]; apply Forall_cons in Hu as [? _].
Qed.

(** C16: A sealed envelope opens to what was sealed: the payload, the metadata and
    a header with the context, the flags, the time and the key of the options,
    in which the codec's own identifier is recorded; and the key that sealed is
    the one that is resolved to open it. A compacted payload needs a bound. *)
Theorem sealed_envelope_opens payload provider codec random o env :
  seal_typed o → codec_sound codec → nonce_drawn random → (is_compacted (seal_flags o) = true → seal_max o ≠ None) →
  seal payload provider codec random o = Ok env →
  ∃ key nonce stored bytes,
    provider (seal_key o) (sealed_context codec o) = Ok key ∧
    open env provider codec (opening_for o) =
    Ok {| opened_header := sealed_header codec o key nonce stored bytes;
          opened_payload := payload; opened_metadata := seal_encrypted o |}.
Proof. apply open_seal. Qed.

(** C15: Only authentic envelopes open. An input that opens is the canonical
    encoding of the header that is returned, followed by the encryption, under the
    key that the provider resolves for that header's key id and context and with
    exactly those header bytes as associated data, of the metadata returned and a
    stored payload whose keyed digest is in the header and which decodes to
    the payload; its application, tenant and content type are those asked for. *)
Theorem only_authentic_envelopes_open input provider codec o x :
  open input provider codec o = Ok x →
  ∃ key stored,
    authentic input (opened_header x) key (opened_metadata x) stored ∧
    provider (key_id (parts (opened_header x))) (context_from_header (opened_header x)) = Ok key ∧
    application_id (parts (opened_header x)) = open_application o ∧ tenant_id (parts (opened_header x)) = open_tenant o ∧
    content_type (parts (opened_header x)) = open_content o ∧
    (encoded ← decode_payload (flags (parts (opened_header x))) stored (open_max o);
     map_err dnt_error_of_codec (decode_owned codec encoded)) = Ok (opened_payload x).
Proof.
  intros Hx. apply open_inv in Hx as (key & st & Hauth & Hctx & Hk & _ & Hp & _).
  apply validate_context_inv in Hctx as (? & ? & ? & _). by exists key, st.
Qed.

(** Opening in place, in the buffer of the file, gives the result of opening
    into a new buffer. The only difference is the error for a ciphertext that is
    too short for a tag. *)
Theorem opening_in_place_agrees input provider codec o :
  match open input provider codec o, open_owned input provider codec o with
  | Ok x, Ok y => x = y
  | Err e, Err e' => e = e' ∨ (e = AuthenticationFailed ∧ e' = InvalidFormat ∧ no_tag input)
  | _, _ => False
  end.
Proof.
  unfold open, open_owned. pose proof (authenticate_agree input provider codec o) as Ha.
  destruct (authenticate_internal _ _ _ _) as [a|e], (authenticate_owned_internal _ _ _ _) as [b|e']; try done.
  destruct Ha as (Hh & Hm & Hp & Hba & Hbb). cbn [mbind result_bind]. rewrite (open_authenticated_same a b) by done.
  destruct (open_authenticated b codec o); [done|by left].
Qed.

(** Rotation keeps the content. A rekeyed envelope opens, for the same
    options, to the payload and metadata of the old one, under a header that differs
    in the key id alone, but for the nonce, the digest and the sizes; its key is the
    one the provider has under the new id. *)
Theorem rekeyed_envelope_keeps_content input provider codec random o new_key env :
  codec_sound codec → nonce_drawn random → (∀ m, open_max o = Some m → m ≤ u64_max) → key_typed new_key →
  rekey input provider codec random o new_key = Ok env →
  ∃ x key nonce stored bytes,
    open input provider codec o = Ok x ∧
    (let sealing := options_from_opened x new_key (open_max o) in
     provider new_key (sealed_context codec sealing) = Ok key ∧
     open env provider codec o =
     Ok {| opened_header := sealed_header codec sealing key nonce stored bytes;
           opened_payload := opened_payload x; opened_metadata := opened_metadata x |}).
Proof. intros Hc Hr Hm Hk. apply reseal_inv; [done..|]. by intros k [= <-]. Qed.

(** ** Files *)

Implicit Type fs : gmap string (list byte).
(** The bound that the reader takes for whole envelopes. *)
Definition envelope_bound (m : N) : N := m + DNT_MAX_HEADER_BYTES + DNT_MAX_ENCRYPTED_METADATA_BYTES + 20.
Lemma max_envelope_bytes_ok o m :
  open_max o = Some m → envelope_bound m ≤ u64_max → max_envelope_bytes o = Ok (envelope_bound m).
Proof.
  intros Ho Hm. unfold max_envelope_bytes, envelope_bound, checked_add in *. rewrite Ho. cbn [ok_or mbind result_bind].
  rewrite (proj2 (N.leb_le _ _)) by lia. cbn [mbind option_bind]. rewrite (proj2 (N.leb_le _ _)) by lia. cbn [mbind option_bind].
  by rewrite (proj2 (N.leb_le _ _)).
Qed.
Lemma sealed_envelope_fits payload provider codec random o env m :
  seal payload provider codec random o = Ok env → seal_max o = Some m → lenN env ≤ envelope_bound m.
Proof.
  intros Hs Hm. apply seal_inv in Hs as (encoded & stored & key & nonce & bytes & c & _ & _ & _ & _ & _ & Hst & _ & _ & He & Henc & ->).
  rewrite Hm in Hst. unfold enforce_max in Hst. destruct (N.ltb_spec m (lenN stored)); [done|].
  pose proof (encode_header_metadata _ _ He) as Hmd. apply encode_header_ok in He as (body & _ & _ & Hh). cbn in Hmd.
  apply aead_length in Henc. rewrite length_layout in Henc. rewrite length_app. unfold envelope_bound, AEAD_TAG_BYTES in *. lia.
Qed.
Lemma verify_opened input provider codec o x :
  open input provider codec o = Ok x → verify input provider codec o = Ok (opened_header x).
Proof.
  unfold open, verify. destruct (authenticate_internal _ _ _ _) as [a|]; [|done]. cbn [mbind result_bind]. unfold open_authenticated.
  destruct (is_compacted _); [destruct (decode_payload _ _ _) as [e|]; [|done]; cbn [mbind result_bind]|].
  1: destruct (decode_owned codec e) as [q|]; [|done].
  2: destruct (decode_owned codec _) as [q|]; [|done].
  all: cbn [map_err mbind result_bind]; destruct (enforce_max (lenN q) _); [|done]; cbn; by intros [= <-].
Qed.
Lemma open_owned_ok input provider codec o x :
  open input provider codec o = Ok x → open_owned input provider codec o = Ok x.
Proof.
  unfold open, open_owned. pose proof (authenticate_agree input provider codec o) as Ha.
  destruct (authenticate_internal _ _ _ _) as [a|e], (authenticate_owned_internal _ _ _ _) as [b|e']; try done.
  destruct Ha as (Hh & Hm & Hp & Hba & Hbb). cbn [mbind result_bind]. by rewrite (open_authenticated_same a b).
Qed.

Lemma calm_dnt_read path max fs bytes :
  fs !! path = Some bytes → lenN bytes ≤ max → max + 1 ≤ u64_max → read_bounded path max (calm fs) = (Ok bytes, calm fs).
Proof.
  intros Hf Hl Hm. unfold read_bounded. erewrite op_ok_bind by apply calm_probe. erewrite op_ok_bind by apply calm_read.
  rewrite Hf. erewrite op_ok_bind by apply calm_probe. rewrite (proj2 (N.ltb_ge _ _)) by done.
  unfold checked_add. by rewrite (proj2 (N.leb_le _ _)).
Qed.
Lemma read_verified_calm path provider codec o x fs bytes m :
  fs !! path = Some bytes → open bytes provider codec o = Ok x → open_max o = Some m → lenN bytes ≤ envelope_bound m →
  envelope_bound m + 1 ≤ u64_max → read_verified path provider codec o (calm fs) = (Ok x, calm fs).
Proof.
  intros Hf Hx Hm Hl Hu. unfold read_verified. rewrite (max_envelope_bytes_ok _ m) by (done || lia). rewrite op_lift_ok.
  erewrite op_ok_bind by by apply calm_dnt_read. by rewrite (open_owned_ok _ _ _ _ _ Hx).
Qed.

(** A write leaves the files as they were, or with the new envelope. *)
Lemma atomic_replace_spec path env fs :
  triple (λ fs', fs' = fs ∨ fs' = <[path := env]> fs) (λ fs', fs' = fs) (atomic_replace path env) (λ _ fs', fs' = <[path := env]> fs).
Proof.
  unfold atomic_replace. eapply (triple_bind _ _ _ _ (λ _ fs', fs' = fs)); [by apply triple_probes; left|intros []].
  intros d Hd. unfold or_remove_temporary.
  assert (triple (λ fs', fs' = fs ∨ fs' = <[path := env]> fs) (λ fs', fs' = fs) (write_and_rename path env) (λ _ fs', fs' = <[path := env]> fs)) as Hw.
  { apply triple_replace; intros ? ->; [split_and!; by auto|by right]. }
  specialize (Hw d Hd). destruct (write_and_rename path env d) as [[[]|e] d']; [done|].
  assert (triple (λ fs', fs' = fs ∨ fs' = <[path := env]> fs) (λ fs', fs' = fs ∨ fs' = <[path := env]> fs) (probe dnt_failed) (λ _ fs', fs' = fs ∨ fs' = <[path := env]> fs)) as Hp
    by by apply triple_probe.
  specialize (Hp d' Hw). by destruct (probe dnt_failed d') as [[]].
Qed.
Lemma write_atomic_cases path payload provider codec random sealing opening d :
  let '(r, d1) := write_atomic path payload provider codec random sealing opening d in
  (is_ok r = false ∧ files d1 = files d) ∨
  (∃ env, seal payload provider codec random sealing = Ok env ∧ files d1 = <[path := env]> (files d)).
Proof.
  unfold write_atomic. destruct (seal _ _ _ _ _) as [env|]; [|by left]. rewrite op_lift_ok.
  destruct (verify _ _ _ _); [|by left]. rewrite op_lift_ok.
  pose proof (atomic_replace_spec path env (files d) d eq_refl) as Hr.
  destruct (atomic_replace path env d) as [[[]|e] d1]; [right; by exists env|].
  destruct Hr as [Hr|Hr]; [by left|right; by exists env].
Qed.

(** A DNT file is never torn. Whatever fails, and wherever the process dies,
    a write leaves the file as it was and reports a failure, or leaves an envelope that
    is read back as the payload and the metadata that were written; no other
    file changes. The bound on the payload is also the bound on the file that the
    reader derives from it. *)
Theorem dnt_file_is_never_torn path payload provider codec random sealing m d :
  seal_typed sealing → codec_sound codec → nonce_drawn random → seal_max sealing = Some m → envelope_bound m + 1 ≤ u64_max →
  let '(r, d1) := write_atomic path payload provider codec random sealing (opening_for sealing) d in
  (is_ok r = false ∧ files d1 = files d) ∨
  ((∀ other, other ≠ path → files d1 !! other = files d !! other) ∧
   ∃ key nonce stored bytes,
     read_verified path provider codec (opening_for sealing) (calm (files d1)) =
     (Ok {| opened_header := sealed_header codec sealing key nonce stored bytes;
            opened_payload := payload; opened_metadata := seal_encrypted sealing |}, calm (files d1))).
Proof.
  intros Hty Hc Hn Hm Hu. pose proof (write_atomic_cases path payload provider codec random sealing (opening_for sealing) d) as Hw.
  destruct (write_atomic _ _ _ _ _ _ _ d) as [r d1]. destruct Hw as [Hw|(env & Hs & Hf)]; [by left|right]. rewrite Hf.
  split; [intros other Ho; by apply lookup_insert_ne|].
  pose proof (sealed_envelope_fits _ _ _ _ _ _ _ Hs Hm) as Hl.
  apply open_seal in Hs as (key & nonce & stored & bytes & _ & Hx); [|done..|by rewrite Hm].
  exists key, nonce, stored, bytes. eapply read_verified_calm; [apply lookup_insert_eq|exact Hx|done|done|done].
Qed.
End Opening.

(** ** A concrete run *)

Module DntDemo.
(** A cipher without secrecy, whose tag depends on the key, the nonce, the data
    and the message. *)
Definition checksum (l : list byte) : N := fold_left (λ acc b, (acc * 31 + Byte.to_N b + 1) mod 18446744073709551557) l 7.
Definition tag (k n aad m : list byte) : list byte := be_bytes 16 (checksum (k ++ n) * checksum (aad ++ n) + checksum m).
Definition demo_encrypt (k n aad m : list byte) : option (list byte) :=
  if lenN m <=? 274877906880 then Some (m ++ tag k n aad m) else None.
Definition demo_decrypt (k n aad c : list byte) : option (list byte) :=
  let m := take (length c - AEAD_TAG_BYTES) c in
  if bool_decide (demo_encrypt k n aad m = Some c) then Some m else None.
(** Compaction that drops nothing, under the first byte of zlib. *)
Definition demo_inflate (c : list byte) (limit : N) : option (list byte) :=
  match c with
  | x78 :: m => Some (if lenN m <=? limit then m else take (N.to_nat limit) m)
  | _ => None
  end.
#[local] Instance primitives : DntPrimitives := {|
  aead_encrypt := demo_encrypt;
  aead_decrypt := demo_decrypt;
  aead_decrypt_detached k n aad c t := demo_decrypt k n aad (c ++ t);
  hmac_sha256 k m := be_bytes 32 (checksum k * 31 + checksum m);
  zlib_compress m := Some (x78 :: m);
  zlib_read := demo_inflate;
|}.
Lemma length_tag k n aad m : length (tag k n aad m) = AEAD_TAG_BYTES.
Proof. apply length_be_bytes. Qed.
Lemma untag k n aad m : take (length (m ++ tag k n aad m) - AEAD_TAG_BYTES) (m ++ tag k n aad m) = m.
Proof. rewrite length_app, length_tag, Nat.add_sub. apply take_app_length. Qed.
Lemma demo_encrypt_inv k n aad m c : demo_encrypt k n aad m = Some c → c = m ++ tag k n aad m ∧ lenN m ≤ 274877906880.
Proof. unfold demo_encrypt. destruct (N.leb_spec (lenN m) 274877906880); [|done]. intros E. by apply (inj Some) in E as <-. Qed.
Lemma demo_decrypt_spec k n aad c m : demo_decrypt k n aad c = Some m ↔ demo_encrypt k n aad m = Some c.
Proof.
  unfold demo_decrypt. cbv zeta. split.
  - case_bool_decide as E; [|done]. by intros [= <-].
  - intros E. pose proof (demo_encrypt_inv _ _ _ _ _ E) as [-> _]. rewrite untag. by rewrite bool_decide_eq_true_2.
Qed.
#[local] Instance primitives_laws : DntPrimitivesLaws.
Proof.
  split.
  - exact demo_decrypt_spec.
  - intros k n aad m c [-> _]%demo_encrypt_inv. by rewrite length_app, length_tag.
  - by intros k n aad m c [_ H]%demo_encrypt_inv.
  - done.
  - intros k m. apply length_be_bytes.
  - intros m c limit [= <-] Hl. cbn. by rewrite (proj2 (N.leb_le _ _)).
Qed.

Definition old_key : SecretKey := repeat x01 32.
Definition new_key : SecretKey := repeat x02 32.
Definition keys : key_provider := static_provider {["k1"%string := old_key; "k2"%string := new_key]}.
Definition bytes_of (s : string) : list byte := str_bytes s.
Definition sealing (max : option N) (flags : N) : DntSealOptions :=
  {| seal_application := "notes"; seal_tenant := Some "acme"%string; seal_content := "text/plain"; seal_schema := 3;
     seal_key := "k1"; seal_created := 1000; seal_public := bytes_of "p"; seal_encrypted := bytes_of "meta";
     seal_flags := flags; seal_max := max |}.
Definition drawn : option (list byte) := Some (repeat x07 24).
Definition envelope (max : option N) (flags : N) : list byte :=
  match seal (bytes_of "hello") keys BytesCodec drawn (sealing max flags) with Ok e => e | Err _ => [] end.
Lemma sealing_typed max flags : flags ≤ 1 → (∀ m, max = Some m → m ≤ u64_max) → seal_typed (sealing max flags).
Proof.
  intros Hf Hm. split; cbn; try done; [unfold u32_max; lia|by intros t [= <-]|by repeat (apply Forall_cons; split)].
Qed.
Lemma drawn_length : nonce_drawn drawn.
Proof. by intros n [= <-]. Qed.
Lemma bytes_codec_sound : codec_sound BytesCodec.
Proof. split; [done..|]. intros p e. cbn. by intros [= ->]. Qed.
Lemma sealed_here : seal (bytes_of "hello") keys BytesCodec drawn (sealing (Some 64) 1) = Ok (envelope (Some 64) 1).
Proof. vm_compute. reflexivity. Qed.

(** Without a bound a compacted payload is sealed and cannot be opened. *)
Example unbounded_compaction_does_not_open :
  seal (bytes_of "hello") keys BytesCodec drawn (sealing None 1) = Ok (envelope None 1) ∧
  open (envelope None 1) keys BytesCodec (opening_for (sealing None 1)) = Err PayloadTooLarge.
Proof. vm_compute. split; reflexivity. Qed.

Definition options : DntOpenOptions := opening_for (sealing (Some 64) 1).
Definition opened : OpenedDnt :=
  match open (envelope (Some 64) 1) keys BytesCodec options with
  | Ok x => x
  | Err _ => {| opened_header := sealed_header BytesCodec (sealing None 0) [] [] [] []; opened_payload := []; opened_metadata := [] |}
  end.
Lemma opened_here : open (envelope (Some 64) 1) keys BytesCodec options = Ok opened.
Proof. vm_compute. reflexivity. Qed.
Lemma small_bound m : options.(open_max) = Some m → m ≤ u64_max.
Proof. intros [= <-]. vm_compute. discriminate. Qed.

Lemma sealed_envelope_opens_witness :
  lenN (envelope (Some 64) 1) = 171 ∧
  ∃ key nonce stored bytes,
    keys "k1"%string (sealed_context BytesCodec (sealing (Some 64) 1)) = Ok key ∧
    open (envelope (Some 64) 1) keys BytesCodec options =
    Ok {| opened_header := sealed_header BytesCodec (sealing (Some 64) 1) key nonce stored bytes;
          opened_payload := bytes_of "hello"; opened_metadata := bytes_of "meta" |}.
Proof.
  split; [vm_compute; reflexivity|].
  apply (sealed_envelope_opens (bytes_of "hello") keys BytesCodec drawn (sealing (Some 64) 1) (envelope (Some 64) 1));
    [apply sealing_typed; [lia|exact small_bound]|exact bytes_codec_sound|exact drawn_length|done|exact sealed_here].
Defined.

Lemma only_authentic_envelopes_open_witness :
  opened_payload opened = bytes_of "hello" ∧
  ∃ key stored,
    authentic (envelope (Some 64) 1) (opened_header opened) key (opened_metadata opened) stored ∧
    keys (key_id (parts (opened_header opened))) (context_from_header (opened_header opened)) = Ok key ∧
    application_id (parts (opened_header opened)) = "notes"%string ∧ tenant_id (parts (opened_header opened)) = Some "acme"%string ∧
    content_type (parts (opened_header opened)) = "text/plain"%string ∧
    (encoded ← decode_payload (flags (parts (opened_header opened))) stored (Some 64);
     map_err dnt_error_of_codec (decode_owned BytesCodec encoded)) = Ok (opened_payload opened).
Proof.
  split; [vm_compute; reflexivity|].
  exact (only_authentic_envelopes_open (envelope (Some 64) 1) keys BytesCodec options opened opened_here).
Defined.

(** Of an envelope cut behind its header, by where the tag should be. *)
Definition cut : list byte := take (length (envelope (Some 64) 1) - 20) (envelope (Some 64) 1).
Lemma opening_in_place_agrees_witness :
  open cut keys BytesCodec options = Err AuthenticationFailed ∧ open_owned cut keys BytesCodec options = Err InvalidFormat ∧
  no_tag cut ∧ open_owned (envelope (Some 64) 1) keys BytesCodec options = Ok opened.
Proof.
  pose proof (opening_in_place_agrees cut keys BytesCodec options) as Hcut.
  pose proof (opening_in_place_agrees (envelope (Some 64) 1) keys BytesCodec options) as Hwhole.
  assert (open cut keys BytesCodec options = Err AuthenticationFailed) as H1 by (vm_compute; reflexivity).
  assert (open_owned cut keys BytesCodec options = Err InvalidFormat) as H2 by (vm_compute; reflexivity).
  rewrite H1, H2 in Hcut. rewrite opened_here in Hwhole. split; [exact H1|]. split; [exact H2|].
  destruct Hcut as [E|(_ & _ & Hn)]; [discriminate E|]. split; [exact Hn|].
  destruct (open_owned _ _ _ _) as [y|e]; [by rewrite Hwhole|destruct Hwhole].
Defined.

Definition rekeyed : list byte :=
  match rekey (envelope (Some 64) 1) keys BytesCodec drawn options "k2" with Ok e => e | Err _ => [] end.
Lemma rekeyed_here : rekey (envelope (Some 64) 1) keys BytesCodec drawn options "k2" = Ok rekeyed.
Proof. vm_compute. reflexivity. Qed.
Lemma rekeyed_envelope_keeps_content_witness :
  bool_decide (rekeyed = envelope (Some 64) 1) = false ∧
  ∃ x key nonce stored bytes,
    open (envelope (Some 64) 1) keys BytesCodec options = Ok x ∧
    (let sealing := options_from_opened x "k2" (Some 64) in
     keys "k2"%string (sealed_context BytesCodec sealing) = Ok key ∧
     open rekeyed keys BytesCodec options =
     Ok {| opened_header := sealed_header BytesCodec sealing key nonce stored bytes;
           opened_payload := opened_payload x; opened_metadata := opened_metadata x |}).
Proof.
  split; [vm_compute; reflexivity|].
  apply (rekeyed_envelope_keeps_content (envelope (Some 64) 1) keys BytesCodec drawn options "k2" rekeyed);
    [exact bytes_codec_sound|exact drawn_length|exact small_bound|split; vm_compute; reflexivity|exact rekeyed_here].
Defined.

(** The process dies after the rename: the caller sees a failure, the file is new. *)
Definition before : disk string :=
  {| files := {["a"%string := bytes_of "old"]}; script := repeat Works 5 ++ [DiesLate]; dead := false |}.
Definition written : result DntError () * disk string :=
  write_atomic "a" (bytes_of "hello") keys BytesCodec drawn (sealing (Some 64) 1) options before.
Lemma dnt_file_is_never_torn_witness :
  written.1 = Err Io ∧ files written.2 !! "a"%string = Some (envelope (Some 64) 1) ∧
  ∃ x, opened_payload x = bytes_of "hello" ∧ read_verified "a" keys BytesCodec options (calm (files written.2)) = (Ok x, calm (files written.2)).
Proof.
  pose proof (dnt_file_is_never_torn "a" (bytes_of "hello") keys BytesCodec drawn (sealing (Some 64) 1) 64 before) as H.
  assert (written.1 = Err Io) as H1 by (vm_compute; reflexivity).
  assert (files written.2 !! "a"%string = Some (envelope (Some 64) 1)) as H2 by (vm_compute; reflexivity).
  split; [exact H1|]. split; [exact H2|]. change (write_atomic _ _ _ _ _ _ _ _) with written in H.
  destruct written as [r d1]. cbn [fst snd] in *.
  destruct H as [(_ & Hf)|(_ & key & nonce & stored & bytes & Hx)];
    [apply sealing_typed; [lia|exact small_bound]|exact bytes_codec_sound|exact drawn_length|reflexivity|vm_compute; discriminate| |].
  - rewrite Hf in H2. vm_compute in H2. discriminate H2.
  - eexists. split; [|exact Hx]. reflexivity.
Defined.
End DntDemo.
