(* ===== verification/ArgsSpec.v ===== *)
(** The command-line specifications of [crates/appcore-args/src]: errors
    ([error.rs]), raw words ([raw.rs]), specifications and their validation
    ([spec.rs], [spec_validation.rs]), values ([value_parser.rs]) and suggestions
    ([suggestion.rs]).

    Words are UTF-8 texts; a [char] is the text of its bytes. The builder methods
    of the specifications are the constructors of the records. *)

From Stdlib Require Import DecimalString.
From S2P Require Import Prelude.
From S2P Require Import Text.
From S2P Require Import Types.
From S2P Require Import Contracts.

Local Open Scope N_scope.

(** ** [error.rs] *)

Inductive CliErrorKind :=
| InvalidInput | InvalidSpecification | UnknownOption | UnexpectedArgument | MissingCommand | MissingOption
| MissingValue | InvalidValue | DuplicateOption | OptionConflict | MissingRequirement.
#[export] Instance CliErrorKind_eq_dec : EqDecision CliErrorKind.
Proof. solve_decision. Defined.
Record CliError := { error_kind : CliErrorKind; error_message : string }.
#[export] Instance CliError_eq_dec : EqDecision CliError.
Proof. solve_decision. Defined.
Definition cli_error {A} (k : CliErrorKind) (message : string) : result CliError A :=
  Err {| error_kind := k; error_message := message |}.

Definition quoted (s : string) : string := "`" +:+ s +:+ "`".
Definition quoted_option (s : string) : string := "`--" +:+ s +:+ "`".

(** ** [raw.rs] *)

Record ArgLimits := { max_words : N; max_word_bytes : N; max_total_bytes : N }.
Definition ArgLimits_default : ArgLimits :=
  {| max_words := 1024; max_word_bytes := 65536; max_total_bytes := 1048576 |}.

Definition validate_raw_word (value : string) (count total : N) (limits : ArgLimits) : result CliError () :=
  if max_words limits <=? count then
    cli_error InvalidInput ("argument count exceeds limit of " +:+ show_u64 (max_words limits))
  else if max_word_bytes limits <? str_len value then
    cli_error InvalidInput
      ("argument " +:+ show_u64 (count + 1) +:+ " exceeds byte limit of " +:+ show_u64 (max_word_bytes limits))
  else if max_total_bytes limits <? sat_add64 total (str_len value) then
    cli_error InvalidInput ("total argument bytes exceed limit of " +:+ show_u64 (max_total_bytes limits))
  else if str_contains (String "000" EmptyString) value then
    cli_error InvalidInput ("argument " +:+ show_u64 (count + 1) +:+ " contains a NUL byte")
  else Ok ().
(** The loop of [parse_with_limits], with what it has retained. *)
Fixpoint ingest (limits : ArgLimits) (words : list string) (total : N) (args : list string) : result CliError (list string) :=
  match args with
  | [] => Ok words
  | value :: args' =>
    _ ← validate_raw_word value (lenN words) total limits;
    ingest limits (words ++ [value]) (sat_add64 total (str_len value)) args'
  end.
Definition parse_with_limits (args : list string) (limits : ArgLimits) : result CliError (list string) :=
  ingest limits [] 0 args.
Definition raw_parse (args : list string) : result CliError (list string) := parse_with_limits args ArgLimits_default.
(** [from_os_words]: a word of the environment is any bytes but NUL. *)
Fixpoint ingest_os (limits : ArgLimits) (index : N) (words : list string) (total : N) (args : list string) :
    result CliError (list string) :=
  match args with
  | [] => Ok words
  | word :: args' =>
    if negb (utf8_valid word) then cli_error InvalidInput ("argument " +:+ show_u64 (index + 1) +:+ " is not valid UTF-8")
    else
      _ ← validate_raw_word word (lenN words) total limits;
      ingest_os limits (index + 1) (words ++ [word]) (sat_add64 total (str_len word)) args'
  end.
Definition from_os_words (args : list string) (limits : ArgLimits) : result CliError (list string) :=
  ingest_os limits 0 [] 0 args.

(** ** [spec.rs] *)

Inductive ValueMode := Forbidden | Required | Optional.
#[export] Instance ValueMode_eq_dec : EqDecision ValueMode.
Proof. solve_decision. Defined.
Inductive ValueType := StringType | BoolType | I64Type | U64Type.
#[export] Instance ValueType_eq_dec : EqDecision ValueType.
Proof. solve_decision. Defined.
Definition show_value_type (t : ValueType) : string :=
  match t with
  | StringType => "text"
  | BoolType => "true or false"
  | I64Type => "a signed integer"
  | U64Type => "an unsigned integer"
  end.

Record OptionSpec := {
  long : string; short : option string; value_mode : ValueMode; value_name : string; value_type : ValueType;
  possible_values : list string; option_about : string; required : bool; repeatable : bool;
  detached_optional_value : bool; terminal : bool; option_hidden : bool; conflicts_with : list string; requires : list string;
}.
Definition option_new (name : string) (mode : ValueMode) : OptionSpec :=
  {| long := name; short := None; value_mode := mode; value_name := "VALUE"; value_type := StringType;
     possible_values := []; option_about := ""; required := false; repeatable := false;
     detached_optional_value := false; terminal := false; option_hidden := false; conflicts_with := []; requires := [] |}.
Definition flag (name : string) : OptionSpec := option_new name Forbidden.
Definition value (name : string) : OptionSpec := option_new name Required.
Record ArgumentSpec := {
  argument_name : string; argument_about : string; argument_type : ValueType; argument_values : list string;
  argument_required : bool; multiple : bool;
}.
Definition argument_new (name : string) : ArgumentSpec :=
  {| argument_name := name; argument_about := ""; argument_type := StringType; argument_values := [];
     argument_required := false; multiple := false |}.
Inductive CommandSpec := {
  command_name : string; aliases : list string; command_about : string; subcommands : list CommandSpec;
  command_options : list OptionSpec; command_arguments : list ArgumentSpec; subcommand_required : bool; command_hidden : bool;
}.
Definition command_new (name : string) : CommandSpec :=
  {| command_name := name; aliases := []; command_about := ""; subcommands := []; command_options := [];
     command_arguments := []; subcommand_required := false; command_hidden := false |}.
Record CliSpec := {
  cli_name : string; cli_about : string; version : option string; commands : list CommandSpec;
  options : list OptionSpec; arguments : list ArgumentSpec; command_required : bool;
}.
Definition cli_new (name : string) : CliSpec :=
  {| cli_name := name; cli_about := ""; version := None; commands := []; options := []; arguments := []; command_required := false |}.

Definition names (c : CommandSpec) : list string := command_name c :: aliases c.
(** [CommandSpec::matches]. *)
Definition command_matches (word : string) (c : CommandSpec) : bool :=
  bool_decide (command_name c = word) || existsb (λ a, bool_decide (a = word)) (aliases c).

(** ** [spec_validation.rs] *)

Definition SpecError : Type := string.
Abbreviation SpecResult := (result SpecError).

Definition name_byte (c : ascii) : bool :=
  is_ascii_alphanumeric c || bool_decide (c = "-"%char) || bool_decide (c = "_"%char) || bool_decide (c = "."%char).
Definition validate_name (kind name : string) : SpecResult () :=
  if negb (bool_decide (name = EmptyString)) && str_all name_byte name then Ok ()
  else Err ("invalid " +:+ kind +:+ " name " +:+ quoted name).
(** [HashSet::insert] that must be new. *)
Definition insert_new (e : SpecError) (x : string) (seen : gset string) : SpecResult (gset string) :=
  if bool_decide (x ∈ seen) then Err e else Ok ({[x]} ∪ seen).
(** [for x in xs { state = f(x, state)? }]. *)
Fixpoint try_fold {A S} (f : A → S → SpecResult S) (l : list A) (s : S) : SpecResult S :=
  match l with
  | [] => Ok s
  | a :: l' => s ← f a s; try_fold f l' s
  end.

Definition duplicate_command (path name : string) : SpecError :=
  "duplicate command or alias " +:+ quoted name +:+ " under " +:+ quoted path.
Definition validate_command_name (path name : string) (seen : gset string) : SpecResult (gset string) :=
  _ ← validate_name "command alias" name;
  insert_new (duplicate_command path name) name seen.
Definition validate_commands (path : string) (cs : list CommandSpec) : SpecResult () :=
  _ ← try_fold (λ c seen, _ ← validate_name "command" (command_name c);
                          try_fold (validate_command_name path) (names c) seen) cs ∅;
  Ok ().

Definition validate_possible_values (values : list string) (owner : string) : SpecResult () :=
  _ ← try_fold (λ v seen,
        if bool_decide (v = EmptyString) then Err (owner +:+ " contains an empty possible value")
        else insert_new (owner +:+ " contains duplicate possible value " +:+ quoted v) v seen) values (∅ : gset string);
  Ok ().

(** [short == '-' || short.is_whitespace() || !short.is_ascii()]; a character
    that is not ASCII has more than one byte. *)
Definition invalid_short (s : string) : bool :=
  match s with
  | String c EmptyString => bool_decide (c = "-"%char) || white1 c || (128 <=? Ascii.N_of_ascii c)
  | _ => true
  end.
Definition seen_options : Type := gset string * gset string.
Definition validate_option (path : string) (o : OptionSpec) (seen : seen_options) : SpecResult seen_options :=
  _ ← validate_name "option" (long o);
  longs ← insert_new ("duplicate option " +:+ quoted_option (long o) +:+ " under " +:+ quoted path) (long o) seen.1;
  shorts ← match short o with
           | Some s =>
             if invalid_short s then Err ("invalid short option `-" +:+ s +:+ "` under " +:+ quoted path)
             else insert_new ("duplicate short option `-" +:+ s +:+ "` under " +:+ quoted path) s seen.2
           | None => Ok seen.2
           end;
  _ ← (if bool_decide (value_mode o = Forbidden)
          && (negb (bool_decide (possible_values o = [])) || negb (bool_decide (value_type o = StringType)))
       then Err ("flag " +:+ quoted_option (long o) +:+ " cannot declare value validation")
       else Ok ());
  _ ← validate_possible_values (possible_values o) ("option " +:+ quoted_option (long o));
  Ok (longs, shorts).
Definition validate_option_relationships (path : string) (o : OptionSpec) (visible : gset string) : SpecResult () :=
  try_fold (λ related _,
    if bool_decide (related = long o) || negb (bool_decide (related ∈ visible)) then
      Err ("option " +:+ quoted_option (long o) +:+ " references unknown or self option " +:+ quoted_option related
           +:+ " under " +:+ quoted path)
    else Ok ()) (conflicts_with o ++ requires o) ().
Definition validate_options (path : string) (os inherited : list OptionSpec) : SpecResult () :=
  seen ← try_fold (validate_option path) os
    (list_to_set (long <$> inherited), list_to_set (omap short inherited));
  try_fold (λ o _, validate_option_relationships path o seen.1) os ().

(** The names seen and whether an optional argument was; [last] is computed from
    the arguments behind the current one. *)
Fixpoint validate_arguments_loop (path : string) (args : list ArgumentSpec) (seen : gset string) (optional_seen : bool) : SpecResult () :=
  match args with
  | [] => Ok ()
  | a :: rest =>
    _ ← validate_name "argument" (argument_name a);
    seen ← insert_new ("duplicate argument " +:+ quoted (argument_name a) +:+ " under " +:+ quoted path) (argument_name a) seen;
    if argument_required a && optional_seen then
      Err ("required argument " +:+ quoted (argument_name a) +:+ " follows an optional argument under " +:+ quoted path)
    else
      let optional_seen := optional_seen || negb (argument_required a) in
      if multiple a && negb (bool_decide (rest = [])) then
        Err ("variadic argument " +:+ quoted (argument_name a) +:+ " must be last under " +:+ quoted path)
      else
        _ ← validate_possible_values (argument_values a) ("argument " +:+ quoted (argument_name a));
        validate_arguments_loop path rest seen optional_seen
  end.
Definition validate_arguments (path : string) (args : list ArgumentSpec) : SpecResult () :=
  validate_arguments_loop path args ∅ false.

(** What [validate_scope] does before it visits the commands of the scope. *)
Definition validate_level (path : string) (cs : list CommandSpec) (os : list OptionSpec) (args : list ArgumentSpec)
    (inherited : list OptionSpec) : SpecResult () :=
  _ ← validate_commands path cs;
  _ ← validate_options path os inherited;
  validate_arguments path args.
Fixpoint validate_command_scope (path : string) (inherited : list OptionSpec) (c : CommandSpec) : SpecResult () :=
  let path := path +:+ " " +:+ command_name c in
  _ ← validate_level path (subcommands c) (command_options c) (command_arguments c) inherited;
  (fix visit (cs : list CommandSpec) : SpecResult () :=
     match cs with
     | [] => Ok ()
     | c' :: cs' => _ ← validate_command_scope path (inherited ++ command_options c) c'; visit cs'
     end) (subcommands c).
Definition validate_scope (path : string) (cs : list CommandSpec) (os : list OptionSpec) (args : list ArgumentSpec)
    (inherited : list OptionSpec) : SpecResult () :=
  _ ← validate_level path cs os args inherited;
  try_fold (λ c _, validate_command_scope path (inherited ++ os) c) cs ().
Definition validate_spec (spec : CliSpec) : SpecResult () :=
  _ ← validate_name "CLI" (cli_name spec);
  validate_scope (cli_name spec) (commands spec) (options spec) (arguments spec) [].

(** ** [suggestion.rs] *)

Definition MAX_SUGGESTION_BYTES : N := 128.
(** The cells of [current] behind one that is known, from the row above. *)
Fixpoint next_row (l : ascii) (right : list ascii) (previous : list nat) (cell : nat) : list nat :=
  match right, previous with
  | r :: right', diagonal :: ((above :: _) as previous') =>
    let c := (diagonal + (if bool_decide (l = r) then 0 else 1)) `min` (above + 1) `min` (cell + 1) in
    c :: next_row l right' previous' c
  | _, _ => []
  end%nat.
Fixpoint edit_rows (left : list ascii) (index : nat) (right : list ascii) (previous : list nat) : list nat :=
  match left with
  | [] => previous
  | l :: left' => edit_rows left' (S index) right (S index :: next_row l right previous (S index))
  end.
Definition edit_distance_bytes (left right : list ascii) : nat :=
  default 0%nat (edit_rows left 0 right (seq 0 (S (length right))) !! length right).
Definition edit_distance (left right : string) : nat :=
  edit_distance_bytes (String.list_ascii_of_string left) (String.list_ascii_of_string right).
Definition accepted_distance (length : N) : nat :=
  if length <=? 4 then 1%nat else if length <=? 8 then 2%nat else 3%nat.
(** [min_by_key]: the first of the least. *)
Fixpoint min_by_key (l : list (nat * string)) : option (nat * string) :=
  match l with
  | [] => None
  | x :: l' =>
    match min_by_key l' with
    | Some y => if bool_decide (y.1 < x.1)%nat || (bool_decide (y.1 = x.1) && (str_len y.2 <? str_len x.2)) then Some y else Some x
    | None => Some x
    end
  end.
Definition closest (input : string) (candidates : list string) : option string :=
  if MAX_SUGGESTION_BYTES <? str_len input then None
  else
    snd <$> min_by_key (omap (λ c,
      let distance := edit_distance input c in
      if bool_decide (distance ≤ accepted_distance (N.max (str_len input) (str_len c)))%nat then Some (distance, c) else None)
      (List.filter (λ c, str_len c <=? MAX_SUGGESTION_BYTES) candidates)).
Definition append_suggestion (message : string) (suggestion : option string) (prefix : string) : string :=
  match suggestion with
  | Some s => message +:+ "; did you mean `" +:+ prefix +:+ s +:+ "`?"
  | None => message
  end.

(** ** [value_parser.rs] *)

(** [str::parse::<i64>]. *)
Definition i64_magnitude (negative : bool) (digits : string) : bool :=
  match digits with
  | EmptyString => false
  | _ =>
    match NilEmpty.uint_of_string digits with
    | Some d => N.of_uint d <=? (if negative then 9223372036854775808 else 9223372036854775807)
    | None => false
    end
  end.
Definition is_i64 (s : string) : bool :=
  match s with
  | String "-" digits => i64_magnitude true digits
  | String "+" digits => i64_magnitude false digits
  | _ => i64_magnitude false s
  end.
Definition typed_value (v : string) (t : ValueType) : bool :=
  match t with
  | StringType => true
  | BoolType => bool_decide (v = "true"%string) || bool_decide (v = "false"%string)
  | I64Type => is_i64 v
  | U64Type => bool_decide (is_Some (parse_u64 v))
  end.
Definition validate_value (v : string) (t : ValueType) (possible : list string) (owner : string) : result CliError () :=
  if negb (typed_value v t) then
    cli_error InvalidValue ("invalid value " +:+ quoted v +:+ " for " +:+ quoted owner +:+ "; expected " +:+ show_value_type t)
  else if negb (bool_decide (possible = [])) && negb (bool_decide (v ∈ possible)) then
    cli_error InvalidValue
      (append_suggestion ("invalid value " +:+ quoted v +:+ " for " +:+ quoted owner +:+ "; expected one of: "
                          +:+ String.concat ", " possible) (closest v possible) "")
  else Ok ().

(** ** The limits of the words *)

Fixpoint total_bytes (words : list string) : N :=
  match words with [] => 0 | w :: words' => str_len w + total_bytes words' end.
(** What the limits admit, without reading a word behind the first that they refuse. *)
Record within_limits (limits : ArgLimits) (words : list string) : Prop := {
  limit_count : lenN words ≤ max_words limits;
  limit_each : Forall (λ w, str_len w ≤ max_word_bytes limits ∧ str_contains (String "000" EmptyString) w = false) words;
  limit_total : total_bytes words ≤ max_total_bytes limits;
}.
Lemma total_bytes_app l k : total_bytes (l ++ k) = total_bytes l + total_bytes k.
Proof. induction l as [|w l IH]; [done|]. cbn. rewrite IH. lia. Qed.
Lemma validate_raw_word_ok v n total limits :
  validate_raw_word v n total limits = Ok () ↔
  n < max_words limits ∧ str_len v ≤ max_word_bytes limits ∧ sat_add64 total (str_len v) ≤ max_total_bytes limits ∧
  str_contains (String "000" EmptyString) v = false.
Proof.
  unfold validate_raw_word. destruct (N.leb_spec (max_words limits) n); [split; [done|lia]|].
  destruct (N.ltb_spec (max_word_bytes limits) (str_len v)); [split; [done|lia]|].
  destruct (N.ltb_spec (max_total_bytes limits) (sat_add64 total (str_len v))); [split; [done|lia]|].
  destruct (str_contains _ v); [split; [done|by intros (_ & _ & _ & ?)]|done].
Qed.
Lemma ingest_spec limits words args :
  max_total_bytes limits < u64_max → within_limits limits words →
  match ingest limits words (total_bytes words) args with
  | Ok ws => ws = words ++ args ∧ within_limits limits ws
  | Err e => ¬ within_limits limits (words ++ args)
  end.
Proof.
  intros Hm. revert words. induction args as [|v args IH]; intros words Hw; cbn [ingest]; [by rewrite app_nil_r|].
  destruct Hw as [Hc He Ht]. pose proof (validate_raw_word_ok v (lenN words) (total_bytes words) limits) as Hv.
  destruct (validate_raw_word _ _ _ _) as [[]|e]; cbn [mbind result_bind].
  - apply proj1 in Hv. specialize (Hv eq_refl) as (H1 & H2 & H3 & H4).
    assert (sat_add64 (total_bytes words) (str_len v) = total_bytes (words ++ [v])) as Htot.
    { rewrite total_bytes_app. cbn. unfold sat_add in *. lia. }
    rewrite Htot in *. rewrite (cons_middle v words args), app_assoc. apply IH. split; [rewrite length_app; cbn; lia| |done].
    apply Forall_app. split; [done|]. by apply Forall_cons.
  - intros [Hc' He' Ht']. assert (Err e = Ok ()) as [=]. apply Hv. rewrite length_app in Hc'. cbn in Hc'.
    apply Forall_app in He' as [_ [[H1 H2] _]%Forall_cons]. rewrite total_bytes_app in Ht'. cbn in Ht'.
    split_and!; [lia|done| |done]. unfold sat_add. lia.
Qed.
Lemma within_limits_nil limits : within_limits limits [].
Proof. split; [cbn; lia|by constructor|cbn; lia]. Qed.
Lemma parse_with_limits_spec args limits :
  max_total_bytes limits < u64_max →
  match parse_with_limits args limits with
  | Ok ws => ws = args ∧ within_limits limits ws
  | Err _ => ¬ within_limits limits args
  end.
Proof. intros Hm. apply (ingest_spec limits [] args Hm), within_limits_nil. Qed.

Lemma raw_errors limits words total args e : ingest limits words total args = Err e → error_kind e = InvalidInput.
Proof.
  revert words total. induction args as [|v args IH]; intros words total; [done|]. cbn [ingest].
  destruct (validate_raw_word _ _ _ _) as [[]|e'] eqn:Hv; cbn [mbind result_bind]; [apply IH|]. intros [= <-].
  unfold validate_raw_word, cli_error in Hv. by repeat case_match; simplify_eq.
Qed.

(** ** Values *)

Definition admissible (v : string) (t : ValueType) (possible : list string) : Prop :=
  typed_value v t = true ∧ (possible = [] ∨ v ∈ possible).
Lemma validate_value_ok v t possible owner : validate_value v t possible owner = Ok () ↔ admissible v t possible.
Proof.
  unfold validate_value, admissible. destruct (typed_value v t); cbn [negb]; [|split; [done|by intros [? _]]].
  destruct (decide (possible = [])) as [->|Hp]; [rewrite bool_decide_eq_true_2 by done; split; auto|].
  rewrite (bool_decide_eq_false_2 (possible = [])) by done. cbn [negb andb].
  destruct (decide (v ∈ possible)) as [Hv|Hv].
  - rewrite bool_decide_eq_true_2 by done. split; auto.
  - rewrite bool_decide_eq_false_2 by done. split; [done|]. by intros [_ [?|?]].
Qed.

(** ** The edit distance *)

(** Scripts of single edits, with their cost. *)
Inductive edits {A} : list A → list A → nat → Prop :=
| edits_nil : edits [] [] 0
| edits_keep a l r n : edits l r n → edits (a :: l) (a :: r) n
| edits_replace a b l r n : edits l r n → edits (a :: l) (b :: r) (S n)
| edits_delete a l r n : edits l r n → edits (a :: l) r (S n)
| edits_insert b l r n : edits l r n → edits l (b :: r) (S n).

Lemma edits_app {A} (l r l' r' : list A) n m : edits l r n → edits l' r' m → edits (l ++ l') (r ++ r') (n + m).
Proof. induction 1; intros H'; cbn; auto using @edits. Qed.
Lemma edits_rev {A} (l r : list A) n : edits l r n → edits (rev l) (rev r) n.
Proof.
  induction 1; cbn; [constructor|..].
  - rewrite <- (Nat.add_0_r n). apply edits_app; [done|]. repeat constructor.
  - rewrite <- Nat.add_1_r. apply edits_app; [done|]. repeat constructor.
  - rewrite <- Nat.add_1_r. rewrite <- (app_nil_r (rev r)). apply edits_app; [done|]. repeat constructor.
  - rewrite <- Nat.add_1_r. rewrite <- (app_nil_r (rev l)). apply edits_app; [done|]. repeat constructor.
Qed.

(** The least cost, by the recursion that the rows tabulate. *)
Fixpoint least (l : list ascii) : list ascii → nat :=
  fix inner (r : list ascii) : nat :=
    match l, r with
    | [], _ => length r
    | _, [] => length l
    | a :: l', b :: r' => (least l' r' + (if bool_decide (a = b) then 0 else 1)) `min` (least l' r + 1) `min` (inner r' + 1)
    end%nat.
Lemma least_nil r : least [] r = length r.
Proof. by destruct r. Qed.
Lemma least_cons_nil a l : least (a :: l) [] = S (length l).
Proof. done. Qed.
Lemma least_cons a l b r :
  least (a :: l) (b :: r) =
  ((least l r + (if bool_decide (a = b) then 0 else 1)) `min` (least l (b :: r) + 1) `min` (least (a :: l) r + 1))%nat.
Proof. done. Qed.
Lemma edits_all_deleted {A} (l : list A) : edits l [] (length l).
Proof. induction l; cbn; by constructor. Qed.
Lemma edits_all_inserted {A} (r : list A) : edits [] r (length r).
Proof. induction r; cbn; by constructor. Qed.
Lemma edits_least l r : edits l r (least l r).
Proof.
  revert r. induction l as [|a l IHl]; intros r; [rewrite least_nil; apply edits_all_inserted|].
  induction r as [|b r IHr]; [apply edits_all_deleted|]. rewrite least_cons.
  pose proof (edits_delete a _ _ _ (IHl (b :: r))) as Hd. pose proof (edits_insert b _ _ _ IHr) as Hi.
  assert (edits (a :: l) (b :: r) (least l r + (if bool_decide (a = b) then 0 else 1))) as Hs.
  { case_bool_decide as E; [subst; rewrite Nat.add_0_r; by constructor|rewrite Nat.add_1_r; by constructor]. }
  rewrite !Nat.add_1_r in *. destruct (Nat.min_spec (least l r + (if bool_decide (a = b) then 0 else 1)) (S (least l (b :: r)))) as [[_ ->]|[_ ->]];
    match goal with |- context [Nat.min ?x ?y] => destruct (Nat.min_spec x y) as [[_ ->]|[_ ->]] end; done.
Qed.
Lemma least_le l r n : edits l r n → (least l r ≤ n)%nat.
Proof.
  induction 1 as [|a l r n _ IH|a b l r n _ IH|a l r n _ IH|b l r n _ IH]; [done|..].
  - rewrite least_cons, bool_decide_eq_true_2 by done. lia.
  - rewrite least_cons. case_bool_decide; lia.
  - destruct r as [|b r]; [rewrite least_cons_nil; destruct l; cbn in *; lia|]. rewrite least_cons. lia.
  - destruct l as [|a l]; [rewrite least_nil in *; cbn; lia|]. rewrite least_cons. lia.
Qed.

(** The row behind the prefix [lp] of the left text: its cells from the prefix
    [rp] of the right text on. *)
Definition row (lp rp right : list ascii) : list nat :=
  (λ k, least (rev lp) (rev (rp ++ take k right))) <$> seq 0 (S (length right)).
Lemma row_cons lp rp r right :
  row lp rp (r :: right) = least (rev lp) (rev rp) :: row lp (rp ++ [r]) right.
Proof.
  unfold row. cbn [length]. rewrite <- cons_seq, fmap_cons. cbn [take]. rewrite app_nil_r. f_equal.
  rewrite <- fmap_S_seq, <- list_fmap_compose. apply list_fmap_ext. intros i k _. cbn. by rewrite <- app_assoc.
Qed.
Lemma row_nil lp rp : row lp rp [] = [least (rev lp) (rev rp)].
Proof. unfold row. cbn. by rewrite app_nil_r. Qed.
Lemma next_row_spec l lp rp right :
  least (rev (lp ++ [l])) (rev rp) :: next_row l right (row lp rp right) (least (rev (lp ++ [l])) (rev rp)) =
  row (lp ++ [l]) rp right.
Proof.
  revert rp. induction right as [|r right IH]; intros rp; [by rewrite !row_nil|].
  rewrite row_cons, (row_cons (lp ++ [l])). f_equal. rewrite <- IH. cbn [next_row].
  assert (∃ tl, row lp (rp ++ [r]) right = least (rev lp) (rev (rp ++ [r])) :: tl) as [tl Htl].
  { destruct right; [rewrite row_nil|rewrite row_cons]; eauto. }
  rewrite Htl. cbv zeta. rewrite <- Htl.
  assert (least (rev (lp ++ [l])) (rev (rp ++ [r])) =
    ((least (rev lp) (rev rp) + (if bool_decide (l = r) then 0 else 1)) `min` (least (rev lp) (rev (rp ++ [r])) + 1)
     `min` (least (rev (lp ++ [l])) (rev rp) + 1))%nat) as ->; [|done].
  rewrite !rev_app_distr. cbn [rev app]. apply least_cons.
Qed.
Lemma edit_rows_spec left lp right :
  edit_rows left (length lp) right (row lp [] right) = row (lp ++ left) [] right.
Proof.
  revert lp. induction left as [|l left IH]; intros lp; [by rewrite app_nil_r|]. cbn [edit_rows].
  assert (S (length lp) = least (rev (lp ++ [l])) (rev [])) as E.
  { rewrite rev_app_distr. cbn [rev app]. by rewrite least_cons_nil, length_rev. }
  rewrite E at 2 3. rewrite next_row_spec. replace (S (length lp)) with (length (lp ++ [l])) by (rewrite length_app; cbn; lia).
  rewrite IH. by rewrite <- app_assoc.
Qed.
Lemma row_first right : row [] [] right = seq 0 (S (length right)).
Proof.
  unfold row. rewrite <- (list_fmap_id (seq 0 _)) at 2. apply list_fmap_ext. intros i k Hk.
  apply lookup_seq in Hk as [-> Hk].
  change (least [] (rev (take (0 + i) right)) = (0 + i)%nat). rewrite least_nil, length_rev, length_take. lia.
Qed.
Lemma edit_distance_least left right : edit_distance_bytes left right = least (rev left) (rev right).
Proof.
  unfold edit_distance_bytes. rewrite <- row_first. pose proof (edit_rows_spec left [] right) as E. cbn [length app] in E.
  rewrite E. unfold row. rewrite list_lookup_fmap, lookup_seq_lt by lia. cbn. by rewrite firstn_all.
Qed.
Lemma edit_distance_minimal left right :
  edits left right (edit_distance_bytes left right) ∧ ∀ n, edits left right n → (edit_distance_bytes left right ≤ n)%nat.
Proof.
  rewrite edit_distance_least. split.
  - rewrite <- (rev_involutive left) at 1. rewrite <- (rev_involutive right) at 1. apply edits_rev, edits_least.
  - intros n Hn. by apply least_le, edits_rev.
Qed.

(** ** What validation establishes *)

Definition valid_name (name : string) : Prop := name ≠ EmptyString ∧ str_all name_byte name = true.
Lemma validate_name_ok kind name : validate_name kind name = Ok () → valid_name name.
Proof.
  unfold validate_name. destruct (decide (name = EmptyString)) as [->|Hn]; [done|]. rewrite bool_decide_eq_false_2 by done. cbn [negb andb].
  by destruct (str_all name_byte name) eqn:E.
Qed.
Lemma insert_new_ok e x seen s : insert_new e x seen = Ok s → x ∉ seen ∧ s = {[x]} ∪ seen.
Proof. unfold insert_new. case_bool_decide; [done|]. by intros [= <-]. Qed.
(** A loop that ends keeps what each round keeps. *)
Lemma try_fold_ind {A S} (P : list A → S → Prop) f l s s' :
  P [] s → (∀ before a s1 s2, P before s1 → f a s1 = Ok s2 → P (before ++ [a]) s2) → try_fold f l s = Ok s' → P l s'.
Proof.
  intros H0 Hstep. assert (∀ before s1, P before s1 → try_fold f l s1 = Ok s' → P (before ++ l) s') as H; [|by apply (H [])].
  induction l as [|a l IH]; intros before s1 Hb; cbn [try_fold]; [intros [= <-]; by rewrite app_nil_r|].
  destruct (f a s1) as [s2|] eqn:Hf; [|done]. cbn [mbind result_bind]. intros Hl.
  rewrite (cons_middle a before l), app_assoc. eapply IH; [|done]. by eapply Hstep.
Qed.
Lemma try_fold_all {A} (f : A → () → SpecResult ()) l a : try_fold f l () = Ok () → a ∈ l → f a () = Ok ().
Proof.
  induction l as [|b l IH]; [by intros _ ?%not_elem_of_nil|]. cbn [try_fold].
  destruct (f b ()) as [[]|] eqn:Hf; [|done]. cbn [mbind result_bind]. intros Hl [->|Ha]%elem_of_cons; [done|by apply IH].
Qed.
Lemma NoDup_snoc {A} (l : list A) x : NoDup l → x ∉ l → NoDup (l ++ [x]).
Proof. intros Hl Hx. apply NoDup_app. split_and!; [done|by intros y Hy ->%list_elem_of_singleton|apply NoDup_singleton]. Qed.

Lemma Forall_snoc_intro {A} (P : A → Prop) l x : Forall P l → P x → Forall P (l ++ [x]).
Proof. intros Hl Hx. apply Forall_app. split; [done|]. by apply Forall_singleton. Qed.

(** The names [seen] are those of [l], all of them new. *)
Definition collects (l : list string) (seen : gset string) : Prop := NoDup l ∧ ∀ x, x ∈ seen ↔ x ∈ l.
Lemma collects_insert e l seen x s : collects l seen → insert_new e x seen = Ok s → collects (l ++ [x]) s.
Proof.
  intros [Hn Hs] [Hx ->]%insert_new_ok. rewrite Hs in Hx. split; [by apply NoDup_snoc|].
  intros y. rewrite elem_of_union, elem_of_singleton, elem_of_app, list_elem_of_singleton, Hs. tauto.
Qed.

Lemma validate_commands_ok path cs :
  validate_commands path cs = Ok () → NoDup (flat_map names cs) ∧ Forall (λ c, valid_name (command_name c)) cs.
Proof.
  unfold validate_commands. destruct (try_fold _ cs ∅) as [seen|] eqn:Hf; [|done]. intros _.
  apply (try_fold_ind (λ before seen, collects (flat_map names before) seen ∧ Forall (λ c, valid_name (command_name c)) before)) in Hf.
  - by destruct Hf as [[? _] ?].
  - split; [|by constructor]. split; [by constructor|]. set_solver.
  - intros before c s1 s2 [Hb Hv] Hc. destruct (validate_name "command" (command_name c)) as [[]|] eqn:Hn; [|done].
    cbn [mbind result_bind] in Hc. apply validate_name_ok in Hn.
    apply (try_fold_ind (λ k seen, collects (flat_map names before ++ k) seen)) in Hc.
    + rewrite flat_map_app. cbn [flat_map]. rewrite app_nil_r. split; [done|]. by apply Forall_snoc_intro.
    + by rewrite app_nil_r.
    + intros k n s3 s4 Hk Hs. unfold validate_command_name in Hs. destruct (validate_name _ n) as [[]|]; [|done].
      rewrite app_assoc. by eapply collects_insert.
Qed.

Record options_sound (visible : list OptionSpec) : Prop := {
  longs_distinct : NoDup (long <$> visible);
  shorts_distinct : NoDup (omap short visible);
  longs_valid : Forall (λ o, valid_name (long o)) visible;
  relations_visible : ∀ o r, o ∈ visible → r ∈ conflicts_with o ++ requires o → r ≠ long o ∧ r ∈ long <$> visible;
}.
Definition options_collected (visible : list OptionSpec) (seen : seen_options) : Prop :=
  collects (long <$> visible) seen.1 ∧ collects (omap short visible) seen.2 ∧ Forall (λ o, valid_name (long o)) visible.
Lemma validate_option_collects path visible o s1 s2 :
  options_collected visible s1 → validate_option path o s1 = Ok s2 → options_collected (visible ++ [o]) s2.
Proof.
  intros (Hl & Hs & Hv). unfold validate_option. destruct (validate_name _ _) as [[]|] eqn:Hn; [|done].
  apply validate_name_ok in Hn. cbn [mbind result_bind].
  destruct (insert_new _ (long o) s1.1) as [longs|] eqn:Hil; [|done]. cbn [mbind result_bind].
  destruct (match short o with Some _ => _ | None => _ end) as [shorts|] eqn:His; [|done]. cbn [mbind result_bind].
  destruct (if bool_decide _ && _ then _ else _) as [[]|]; [|done]. cbn [mbind result_bind].
  destruct (validate_possible_values _ _) as [[]|]; [|done]. cbn. intros [= <-].
  unfold options_collected. cbn [fst snd]. rewrite fmap_app, omap_app. split_and!.
  - by eapply collects_insert.
  - cbn [omap list_omap]. destruct (short o) as [s|].
    + destruct (invalid_short s); [done|]. by eapply collects_insert.
    + injection His as <-. by rewrite app_nil_r.
  - by apply Forall_snoc_intro.
Qed.
Lemma validate_options_ok path os inherited :
  options_sound inherited → validate_options path os inherited = Ok () → options_sound (inherited ++ os).
Proof.
  intros [Hl Hs Hv Hr]. unfold validate_options. destruct (try_fold _ os _) as [seen|] eqn:Hf; [|done]. cbn [mbind result_bind].
  apply (try_fold_ind (λ before, options_collected (inherited ++ before))) in Hf; cycle 1.
  { rewrite app_nil_r. split_and!; [| |done]; split; try done; intros x; cbn [fst snd]; by rewrite elem_of_list_to_set. }
  { intros before o s1 s2 Hb Ho. rewrite app_assoc. by eapply validate_option_collects. }
  destruct Hf as ([Hnl Hml] & [Hns _] & Hval). intros Hrel. split; [done..|].
  intros o r [Ho|Ho]%elem_of_app Hin.
  - destruct (Hr o r Ho Hin) as [? Hin']. split; [done|]. rewrite fmap_app. by apply elem_of_app; left.
  - eapply try_fold_all in Hrel; [|exact Ho]. unfold validate_option_relationships in Hrel.
    eapply try_fold_all in Hrel; [|exact Hin]. cbn in Hrel.
    destruct (decide (r = long o)) as [->|Hne]; [by rewrite bool_decide_eq_true_2 in Hrel|].
    split; [done|]. apply Hml. destruct (decide (r ∈ seen.1)) as [|Hn]; [done|].
    by rewrite (bool_decide_eq_false_2 (r = _)), (bool_decide_eq_false_2 (r ∈ _)) in Hrel.
Qed.

Record arguments_sound (args : list ArgumentSpec) : Prop := {
  arguments_distinct : NoDup (argument_name <$> args);
  required_first i j a b :
    args !! i = Some a → args !! j = Some b → (i < j)%nat → argument_required b = true → argument_required a = true;
  variadic_last i a : args !! i = Some a → multiple a = true → S i = length args;
}.
Lemma validate_arguments_loop_ok path args seen optional_seen :
  validate_arguments_loop path args seen optional_seen = Ok () →
  arguments_sound args ∧ (∀ a, a ∈ args → argument_name a ∉ seen) ∧
  (optional_seen = true → ∀ a, a ∈ args → argument_required a = false).
Proof.
  revert seen optional_seen. induction args as [|a args IH]; intros seen os; cbn [validate_arguments_loop].
  { intros _. split_and!; [split; [by constructor|done|done]|by intros a ?%not_elem_of_nil|by intros _ a ?%not_elem_of_nil]. }
  destruct (validate_name _ _) as [[]|]; [|done]. cbn [mbind result_bind].
  destruct (insert_new _ _ seen) as [seen'|] eqn:Hi; [|done]. apply insert_new_ok in Hi as [Hi ->]. cbn [mbind result_bind].
  destruct (argument_required a && os) eqn:Hr; [done|]. cbv zeta.
  destruct (multiple a && negb (bool_decide (args = []))) eqn:Hm; [done|].
  destruct (validate_possible_values _ _) as [[]|]; [|done]. cbn [mbind result_bind].
  intros ([Hd Hf Hl] & Hseen & Hopt)%IH. split_and!.
  - split.
    + cbn. constructor; [|done]. intros (b & Hb & Hin)%list_elem_of_fmap. apply Hseen in Hin. rewrite <- Hb in Hin. set_solver.
    + intros [|i] [|j] x y Hx Hy Hij; [lia| |lia|]; cbn in Hx, Hy.
      * injection Hx as <-. intros Hreq. destruct (argument_required a) eqn:Ha; [done|].
        apply list_elem_of_lookup_2, Hopt in Hy; [congruence|by rewrite orb_true_r].
      * intros Hreq. eapply (Hf i j); [done..|lia|done].
    + intros [|i] x Hx Hmx; cbn in Hx.
      * injection Hx as <-. rewrite Hmx in Hm. cbn in Hm. by destruct args.
      * cbn. f_equal. by eapply Hl.
  - intros b [->|Hb]%elem_of_cons; [done|]. apply Hseen in Hb. set_solver.
  - intros -> b [->|Hb]%elem_of_cons; [by rewrite andb_true_r in Hr|]. by apply Hopt.
Qed.

(** A path of commands below a scope, and what is visible at its end. *)
Fixpoint in_chain (cs : list CommandSpec) (path : list CommandSpec) : Prop :=
  match path with
  | [] => True
  | c :: path' => c ∈ cs ∧ in_chain (subcommands c) path'
  end.
Definition path_commands (cs : list CommandSpec) (path : list CommandSpec) : list CommandSpec :=
  match last path with Some c => subcommands c | None => cs end.
Definition path_arguments (args : list ArgumentSpec) (path : list CommandSpec) : list ArgumentSpec :=
  match last path with Some c => command_arguments c | None => args end.
Definition path_options (spec : CliSpec) (path : list CommandSpec) : list OptionSpec :=
  options spec ++ flat_map command_options path.
Lemma path_commands_cons cs c path : path_commands cs (c :: path) = path_commands (subcommands c) path.
Proof.
  unfold path_commands. destruct path as [|d path]; [done|].
  change (last (c :: d :: path)) with (last (d :: path)). destruct (last (d :: path)) eqn:E; [done|]. by apply last_None in E.
Qed.
Lemma path_arguments_cons args c path : path_arguments args (c :: path) = path_arguments (command_arguments c) path.
Proof.
  unfold path_arguments. destruct path as [|d path]; [done|].
  change (last (c :: d :: path)) with (last (d :: path)). destruct (last (d :: path)) eqn:E; [done|]. by apply last_None in E.
Qed.
Lemma path_commands_snoc cs path c : path_commands cs (path ++ [c]) = subcommands c.
Proof. unfold path_commands. by rewrite last_snoc. Qed.
Lemma path_arguments_snoc args path c : path_arguments args (path ++ [c]) = command_arguments c.
Proof. unfold path_arguments. by rewrite last_snoc. Qed.
Lemma path_options_snoc spec path c : path_options spec (path ++ [c]) = path_options spec path ++ command_options c.
Proof. unfold path_options. rewrite flat_map_app. cbn. by rewrite app_nil_r, app_assoc. Qed.
Lemma in_chain_snoc cs path c : in_chain cs (path ++ [c]) ↔ in_chain cs path ∧ c ∈ path_commands cs path.
Proof.
  revert cs. induction path as [|d path IH]; intros cs; [cbn; unfold path_commands; cbn; tauto|].
  cbn [app in_chain]. rewrite IH, path_commands_cons. tauto.
Qed.

Record scope_sound (visible : list OptionSpec) (cs : list CommandSpec) (args : list ArgumentSpec) : Prop := {
  scope_options : options_sound visible;
  scope_commands : NoDup (flat_map names cs);
  scope_command_names : Forall (λ c, valid_name (command_name c)) cs;
  scope_arguments : arguments_sound args;
}.
Lemma validate_level_ok path cs os args inherited :
  options_sound inherited → validate_level path cs os args inherited = Ok () → scope_sound (inherited ++ os) cs args.
Proof.
  intros Hi. unfold validate_level. destruct (validate_commands path cs) as [[]|] eqn:Hc; [|done].
  destruct (validate_options path os inherited) as [[]|] eqn:Ho; [|done]. cbn. intros Ha.
  apply validate_commands_ok in Hc as [Hc Hn]. split; [by eapply validate_options_ok|done|done|].
  by apply validate_arguments_loop_ok in Ha as [? _].
Qed.
Lemma validate_command_scope_eq path inherited c :
  validate_command_scope path inherited c =
  (_ ← validate_level (path +:+ " " +:+ command_name c) (subcommands c) (command_options c) (command_arguments c) inherited;
   try_fold (λ c' _, validate_command_scope (path +:+ " " +:+ command_name c) (inherited ++ command_options c) c') (subcommands c) ()).
Proof.
  destruct c as [n al ab subs os args r h]. cbn [validate_command_scope subcommands command_name command_options command_arguments].
  destruct (validate_level _ _ _ _ _); [|done]. cbn [mbind result_bind]. induction subs as [|c' subs IH]; [done|].
  cbn [try_fold]. destruct (validate_command_scope _ _ c') as [[]|]; [|done]. cbn [mbind result_bind]. apply IH.
Qed.
Lemma validate_command_scope_ok path inherited c rest :
  options_sound inherited → validate_command_scope path inherited c = Ok () → in_chain (subcommands c) rest →
  scope_sound (inherited ++ command_options c ++ flat_map command_options rest)
    (path_commands (subcommands c) rest) (path_arguments (command_arguments c) rest).
Proof.
  revert path inherited c. induction rest as [|d rest IH]; intros path inherited c Hi; rewrite validate_command_scope_eq;
    (destruct (validate_level _ _ _ _ _) as [[]|] eqn:Hl; [|discriminate]); cbn [mbind result_bind]; intros Hf Hc;
    apply (validate_level_ok _ _ _ _ _ Hi) in Hl.
  - cbn. by rewrite app_nil_r.
  - destruct Hc as [Hd Hrest]. eapply try_fold_all in Hf; [|exact Hd]. cbn in Hf.
    rewrite path_commands_cons, path_arguments_cons. cbn [flat_map]. rewrite (app_assoc inherited).
    eapply IH; [apply Hl|exact Hf|exact Hrest].
Qed.
Lemma options_sound_nil : options_sound [].
Proof. split; [by constructor..|]. by intros o r ?%not_elem_of_nil. Qed.
Lemma validate_spec_ok spec path :
  validate_spec spec = Ok () → in_chain (commands spec) path →
  scope_sound (path_options spec path) (path_commands (commands spec) path) (path_arguments (arguments spec) path).
Proof.
  unfold validate_spec, validate_scope. destruct (validate_name _ _) as [[]|]; [|done]. cbn [mbind result_bind].
  destruct (validate_level _ _ _ _ _) as [[]|] eqn:Hl; [|done]. cbn [mbind result_bind]. intros Hf Hc.
  apply validate_level_ok in Hl; [|apply options_sound_nil]. cbn [app] in *. destruct path as [|c path].
  - unfold path_options. cbn [flat_map]. by rewrite app_nil_r.
  - destruct Hc as [Hin Hc]. eapply try_fold_all in Hf; [|exact Hin]. cbn in Hf.
    rewrite path_commands_cons, path_arguments_cons. unfold path_options. cbn [flat_map].
    eapply validate_command_scope_ok; [apply Hl|exact Hf|exact Hc].
Qed.

(** ** Results *)

(** A specification that passes validation is unambiguous along every path of
    commands: at its end no two commands share a name or an alias, no two
    visible options a long or a short name, options refer to other visible options only,
    no required argument follows an optional one, and only the last repeats. *)
Theorem validated_spec_is_unambiguous spec path :
  validate_spec spec = Ok () → in_chain (commands spec) path →
  scope_sound (path_options spec path) (path_commands (commands spec) path) (path_arguments (arguments spec) path).
Proof. apply validate_spec_ok. Qed.

(** The words that are retained are the words given, and they are retained
    exactly when their number, the bytes of each and their sum are within
    the limits and none has a NUL. *)
Theorem raw_words_stay_in_limits args limits :
  max_total_bytes limits < u64_max →
  match parse_with_limits args limits with
  | Ok ws => ws = args ∧ within_limits limits ws
  | Err e => error_kind e = InvalidInput ∧ ¬ within_limits limits args
  end.
Proof.
  intros Hm. pose proof (parse_with_limits_spec args limits Hm) as H. destruct (parse_with_limits args limits) as [ws|e] eqn:Hp; [done|].
  split; [|done]. by eapply raw_errors.
Qed.

(** C21: The distance of a suggestion is the Levenshtein distance: there is a
    script of insertions, deletions and replacements of bytes with that cost,
    and none is cheaper. *)
Theorem edit_distance_is_minimal left right :
  let bytes := String.list_ascii_of_string in
  edits (bytes left) (bytes right) (edit_distance left right) ∧
  ∀ n, edits (bytes left) (bytes right) n → (edit_distance left right ≤ n)%nat.
Proof. apply edit_distance_minimal. Qed.
