(* ===== verification/ArgsParser.v ===== *)
(** The command-line parser of [crates/appcore-args/src] ([parser.rs] and the
    option values of [value_parser.rs]).

    The index into the words is the list of the words from it on. Reading the
    value of an option consumes the next word or not, which is the boolean of
    [option_value]: the loop is structural. *)

From S2P Require Import Prelude.
From S2P Require Import Text.
From S2P Require Import Types.
From S2P Require Import ArgsSpec.

(** ** Characters *)

Definition continuation (c : ascii) : bool := cont 128 191 c.
(** The characters of a text, behind the bytes that continue one. *)
Fixpoint chars_behind (s : string) : string * list string :=
  match s with
  | EmptyString => (EmptyString, [])
  | String c s' =>
    let '(tail, cs) := chars_behind s' in
    if continuation c then (String c tail, cs) else (EmptyString, String c tail :: cs)
  end.
Definition chars (s : string) : list string := (chars_behind s).2.

(** ** The state of the parser *)

Record ParsedOption := { parsed_name : string; parsed_value : option string }.
#[export] Instance ParsedOption_eq_dec : EqDecision ParsedOption.
Proof. solve_decision. Defined.
Record ParsedCli := {
  command_path : list string; parsed_options : list ParsedOption; positionals : list string; passthrough : list string;
}.
#[export] Instance ParsedCli_eq_dec : EqDecision ParsedCli.
Proof. solve_decision. Defined.

Definition has_flag (p : ParsedCli) (name : string) : bool :=
  existsb (λ o, bool_decide (parsed_name o = name)) (parsed_options p).
(** Of the last occurrence. *)
Definition option_value_of (p : ParsedCli) (name : string) : option string :=
  o ← List.find (λ o, bool_decide (parsed_name o = name)) (rev (parsed_options p));
  parsed_value o.
Definition option_values (p : ParsedCli) (name : string) : list string :=
  omap parsed_value (List.filter (λ o, bool_decide (parsed_name o = name)) (parsed_options p)).
Definition option_occurrences (p : ParsedCli) (name : string) : nat :=
  length (List.filter (λ o, bool_decide (parsed_name o = name)) (parsed_options p)).

(** [ParseState], whose last four fields are those of the result. *)
Record ParseState := { entered : list CommandSpec; collected : ParsedCli }.
Definition no_words : ParsedCli := {| command_path := []; parsed_options := []; positionals := []; passthrough := [] |}.
Definition state_new : ParseState := {| entered := []; collected := no_words |}.
Abbreviation parsing := (op ParseState CliError).
Definition fail_with {A} (k : CliErrorKind) (message : string) : parsing A :=
  op_fail {| error_kind := k; error_message := message |}.

Definition add_command (c : CommandSpec) (s : ParseState) : ParseState :=
  let p := collected s in
  {| entered := entered s ++ [c];
     collected := {| command_path := command_path p ++ [command_name c]; parsed_options := parsed_options p;
                     positionals := positionals p; passthrough := passthrough p |} |}.
Definition add_option (o : ParsedOption) (s : ParseState) : ParseState :=
  let p := collected s in
  {| entered := entered s;
     collected := {| command_path := command_path p; parsed_options := parsed_options p ++ [o];
                     positionals := positionals p; passthrough := passthrough p |} |}.
Definition add_positional (v : string) (s : ParseState) : ParseState :=
  let p := collected s in
  {| entered := entered s;
     collected := {| command_path := command_path p; parsed_options := parsed_options p;
                     positionals := positionals p ++ [v]; passthrough := passthrough p |} |}.
Definition add_passthrough (vs : list string) (s : ParseState) : ParseState :=
  let p := collected s in
  {| entered := entered s;
     collected := {| command_path := command_path p; parsed_options := parsed_options p;
                     positionals := positionals p; passthrough := passthrough p ++ vs |} |}.

Section Parser.
Variable spec : CliSpec.

Definition available_commands (s : ParseState) : list CommandSpec :=
  match last (entered s) with Some c => subcommands c | None => commands spec end.
Definition active_arguments (s : ParseState) : list ArgumentSpec :=
  match last (entered s) with Some c => command_arguments c | None => arguments spec end.
Definition visible_options (s : ParseState) : list OptionSpec := options spec ++ flat_map command_options (entered s).
Definition find_long_option (s : ParseState) (name : string) : option OptionSpec :=
  List.find (λ o, bool_decide (long o = name)) (rev (visible_options s)).
Definition find_short_option (s : ParseState) (c : string) : option OptionSpec :=
  List.find (λ o, bool_decide (short o = Some c)) (rev (visible_options s)).
Definition enter_command (word : string) : parsing bool :=
  s ← op_get;
  match List.find (command_matches word) (available_commands s) with
  | Some c => _ ← op_modify (add_command c); mret true
  | None => mret false
  end.

Definition validate_option_value (o : OptionSpec) (v : string) : result CliError () :=
  validate_value v (value_type o) (possible_values o) ("--" +:+ long o).
Definition push_option (o : OptionSpec) (v : option string) : parsing () :=
  s ← op_get;
  if negb (repeatable o) && existsb (λ p, bool_decide (parsed_name p = long o)) (parsed_options (collected s)) then
    fail_with DuplicateOption ("option " +:+ quoted_option (long o) +:+ " cannot be repeated")
  else
    _ ← op_lift (match v with Some v => validate_option_value o v | None => Ok () end);
    op_modify (add_option {| parsed_name := long o; parsed_value := v |}).

(** The argument that the next positional word is for. *)
Definition argument_at (args : list ArgumentSpec) (n : nat) : option ArgumentSpec :=
  match args !! n with
  | Some a => Some a
  | None => a ← last args; if multiple a then Some a else None
  end.
Definition next_argument (s : ParseState) : option ArgumentSpec :=
  argument_at (active_arguments s) (length (positionals (collected s))).
Definition validate_argument_value (a : ArgumentSpec) (v : string) : result CliError () :=
  validate_value v (argument_type a) (argument_values a) (argument_name a).
Definition push_positional (v : string) : parsing () :=
  s ← op_get;
  match next_argument s with
  | None =>
    if bool_decide (positionals (collected s) = []) && negb (bool_decide (available_commands s = [])) then
      fail_with UnexpectedArgument
        (append_suggestion ("unknown command " +:+ quoted v)
           (closest v (flat_map names (List.filter (λ c, negb (command_hidden c)) (available_commands s)))) "")
    else fail_with UnexpectedArgument ("unexpected argument " +:+ quoted v)
  | Some a =>
    _ ← op_lift (validate_argument_value a v);
    op_modify (add_positional v)
  end.
Definition accepts_negative_positional (s : ParseState) (v : string) : bool :=
  match next_argument s with
  | None => false
  | Some a =>
    bool_decide (argument_type a = I64Type) && is_i64 v
    && match chars v !! 1%nat with Some c => bool_decide (find_short_option s c = None) | None => true end
  end.

(** ** [value_parser.rs] *)

(** The value of an option that may take one, and whether it was the next word. *)
Definition optional_value (rest : list string) (inline : option string) (o : OptionSpec) : option string * bool :=
  if bool_decide (is_Some inline) || negb (detached_optional_value o) then (inline, false)
  else
    match rest with
    | [] => (None, false)
    | candidate :: _ => if is_ok (validate_option_value o candidate) then (Some candidate, true) else (None, false)
    end.
Definition option_value (rest : list string) (inline : option string) (o : OptionSpec) (is_short : bool) :
    result CliError (option string * bool) :=
  match value_mode o with
  | Forbidden =>
    if bool_decide (is_Some inline) && negb is_short then
      cli_error InvalidValue ("option " +:+ quoted_option (long o) +:+ " does not accept a value")
    else Ok (None, false)
  | Optional => Ok (optional_value rest inline o)
  | Required =>
    match inline, rest with
    | Some v, _ => Ok (Some v, false)
    | None, v :: _ => Ok (Some v, true)
    | None, [] => cli_error MissingValue ("option " +:+ quoted_option (long o) +:+ " requires a value")
    end
  end.

(** ** The words *)

(** The name of a long option and its attached value. *)
Definition split_long (word : string) : string * option string :=
  let raw := default EmptyString (strip_prefix "--" word) in
  match split_once "=" raw with Some (name, v) => (name, Some v) | None => (raw, None) end.
(** Both options return whether they consumed the next word. *)
Definition parse_long_option (word : string) (rest : list string) : parsing bool :=
  let '(name, inline) := split_long word in
  if bool_decide (name = EmptyString) then fail_with UnknownOption "empty long option is not accepted"
  else
    s ← op_get;
    match find_long_option s name with
    | None =>
      fail_with UnknownOption
        (append_suggestion ("unknown option " +:+ quoted_option name)
           (closest name (long <$> List.filter (λ o, negb (option_hidden o)) (visible_options s))) "--")
    | Some o =>
      found ← op_lift (option_value rest inline o false);
      _ ← push_option o found.1;
      mret found.2
    end.
(** What follows a short option in its word. *)
Definition remainder (cs : list string) : option string :=
  match cs with
  | [] => None
  | _ => let s := String.concat "" cs in Some (default s (strip_prefix "=" s))
  end.
Fixpoint parse_short_loop (cs : list string) (rest : list string) : parsing bool :=
  match cs with
  | [] => mret false
  | c :: cs' =>
    s ← op_get;
    match find_short_option s c with
    | None => fail_with UnknownOption ("unknown option `-" +:+ c +:+ "`")
    | Some o =>
      found ← op_lift (option_value rest (remainder cs') o true);
      _ ← push_option o found.1;
      if bool_decide (value_mode o ≠ Forbidden) then mret found.2 else parse_short_loop cs' rest
    end
  end.
Definition parse_short_options (word : string) (rest : list string) : parsing bool :=
  parse_short_loop (chars (default EmptyString (strip_prefix "-" word))) rest.

Definition is_long (word : string) : bool := str_prefix "--" word.
Definition is_short_option (word : string) : bool :=
  str_prefix "-" word && negb (str_prefix "--" word) && (1 <? str_len word)%N.
(** One word that is not [--]: whether the next word was consumed with it. *)
Definition parse_word (word : string) (rest : list string) : parsing bool :=
  s ← op_get;
  if is_long word then parse_long_option word rest
  else if is_short_option word && negb (accepts_negative_positional s word) then parse_short_options word rest
  else
    is_command ← (if bool_decide (positionals (collected s) = []) then enter_command word else mret false);
    if is_command : bool then mret false else _ ← push_positional word; mret false.
Fixpoint parse_words (words : list string) : parsing () :=
  match words with
  | [] => mret ()
  | word :: rest =>
    if bool_decide (word = "--"%string) then op_modify (add_passthrough rest)
    else
      consumed ← parse_word word rest;
      if consumed : bool then
        match rest with [] => mret () | _ :: rest' => parse_words rest' end
      else parse_words rest
  end.

(** ** The end of the line *)

Definition present (s : ParseState) : list string := parsed_name <$> parsed_options (collected s).
Definition has_terminal_option (s : ParseState) : bool :=
  existsb (λ o, terminal o && bool_decide (long o ∈ present s)) (visible_options s).
Definition validate_required_command (s : ParseState) : result CliError () :=
  let required := match last (entered s) with Some c => subcommand_required c | None => command_required spec end in
  if required && negb (bool_decide (available_commands s = [])) then
    cli_error MissingCommand
      ("a command is required after " +:+
       quoted (if bool_decide (command_path (collected s) = []) then cli_name spec
               else String.concat " " (command_path (collected s))))
  else Ok ().
Definition missing_argument (s : ParseState) (i : nat) (a : ArgumentSpec) : bool :=
  argument_required a && bool_decide (length (positionals (collected s)) ≤ i)%nat.
Fixpoint validate_required_from (s : ParseState) (i : nat) (args : list ArgumentSpec) : result CliError () :=
  match args with
  | [] => Ok ()
  | a :: args' =>
    if missing_argument s i a then
      cli_error MissingValue ("missing required argument `<" +:+ argument_name a +:+ ">`")
    else validate_required_from s (S i) args'
  end.
Definition validate_required_arguments (s : ParseState) : result CliError () :=
  validate_required_from s 0 (active_arguments s).
Definition validate_rules_of (given : list string) (o : OptionSpec) : result CliError () :=
  if required o && negb (bool_decide (long o ∈ given)) then
    cli_error MissingOption ("required option " +:+ quoted_option (long o) +:+ " was not provided")
  else if negb (bool_decide (long o ∈ given)) then Ok ()
  else
    match List.find (λ n, bool_decide (n ∈ given)) (conflicts_with o) with
    | Some conflict =>
      cli_error OptionConflict ("option " +:+ quoted_option (long o) +:+ " conflicts with " +:+ quoted_option conflict)
    | None =>
      match List.find (λ n, negb (bool_decide (n ∈ given))) (requires o) with
      | Some needed => cli_error MissingRequirement ("option " +:+ quoted_option (long o) +:+ " requires " +:+ quoted_option needed)
      | None => Ok ()
      end
    end.
Fixpoint validate_rules (given : list string) (os : list OptionSpec) : result CliError () :=
  match os with
  | [] => Ok ()
  | o :: os' => _ ← validate_rules_of given o; validate_rules given os'
  end.
Definition validate_option_rules (s : ParseState) : result CliError () := validate_rules (present s) (visible_options s).
Definition finish (s : ParseState) : result CliError ParsedCli :=
  if has_terminal_option s then Ok (collected s)
  else
    _ ← validate_required_command s;
    _ ← validate_required_arguments s;
    _ ← validate_option_rules s;
    Ok (collected s).

Definition parse (words : list string) : result CliError ParsedCli :=
  _ ← map_err (λ e, {| error_kind := InvalidSpecification; error_message := e |}) (validate_spec spec);
  match parse_words words state_new with
  | (Ok tt, s) => finish s
  | (Err e, _) => Err e
  end.
End Parser.
