(* ===== verification/ArgsLines.v ===== *)
(** What the command-line parser accepts, and that a well-formed line parses back.

    [well_formed] and [complete] describe a parsed line by the specification
    alone; ArgsParser.v has the definitions of the parser. *)

From S2P Require Import Prelude.
From S2P Require Import Text.
From S2P Require Import Types.
From S2P Require Import ArgsSpec.
From S2P Require Import ArgsParser.

Section Lines.
Variable spec : CliSpec.
Implicit Type path : list CommandSpec.
Implicit Type p : ParsedCli.

(** ** Lines that a specification describes *)

Definition mode_fits (o : OptionSpec) (v : option string) : Prop :=
  match value_mode o, v with
  | Forbidden, Some _ | Required, None => False
  | _, _ => True
  end.
Definition option_fits (o : OptionSpec) (v : option string) : Prop :=
  mode_fits o v ∧ ∀ x, v = Some x → admissible x (value_type o) (possible_values o).
Record well_formed (path : list CommandSpec) (p : ParsedCli) : Prop := {
  wf_path : in_chain (commands spec) path;
  wf_names : command_path p = command_name <$> path;
  wf_options : Forall (λ q, ∃ o, o ∈ path_options spec path ∧ long o = parsed_name q ∧ option_fits o (parsed_value q)) (parsed_options p);
  wf_once : ∀ o, o ∈ path_options spec path → repeatable o = false → (option_occurrences p (long o) ≤ 1)%nat;
  wf_positionals : ∀ i v, positionals p !! i = Some v →
    ∃ a, argument_at (path_arguments (arguments spec) path) i = Some a ∧ admissible v (argument_type a) (argument_values a);
}.
Definition given (p : ParsedCli) : list string := parsed_name <$> parsed_options p.
Definition terminal_given (path : list CommandSpec) (p : ParsedCli) : Prop :=
  ∃ o, o ∈ path_options spec path ∧ terminal o = true ∧ long o ∈ given p.
Definition wants_command (path : list CommandSpec) : bool :=
  match last path with Some c => subcommand_required c | None => command_required spec end.
Record rules_kept (path : list CommandSpec) (p : ParsedCli) : Prop := {
  command_given : wants_command path = true → path_commands (commands spec) path = [];
  arguments_given i a :
    path_arguments (arguments spec) path !! i = Some a → argument_required a = true → (i < length (positionals p))%nat;
  options_given o : o ∈ path_options spec path → required o = true → long o ∈ given p;
  no_conflict o n : o ∈ path_options spec path → long o ∈ given p → n ∈ conflicts_with o → n ∉ given p;
  requirements_met o n : o ∈ path_options spec path → long o ∈ given p → n ∈ requires o → n ∈ given p;
}.
(** A terminal option, such as help, lifts the rules on what must be there. *)
Definition complete (path : list CommandSpec) (p : ParsedCli) : Prop := terminal_given path p ∨ rules_kept path p.

(** ** The end of the line *)

Lemma existsb_exists_elem {A} (f : A → bool) l : existsb f l = true ↔ ∃ x, x ∈ l ∧ f x = true.
Proof. rewrite existsb_exists. by setoid_rewrite list_elem_of_In. Qed.
Lemma found_elem {A} (f : A → bool) l x : List.find f l = Some x → x ∈ l ∧ f x = true.
Proof. intros [H1 H2]%find_some. by rewrite list_elem_of_In. Qed.
Lemma find_none_elem {A} (f : A → bool) l x : List.find f l = None → x ∈ l → f x = false.
Proof. intros H Hx. eapply find_none in H; [done|]. by apply list_elem_of_In. Qed.

Lemma required_command_ok path p :
  validate_required_command spec {| entered := path; collected := p |} = Ok () ↔
  (wants_command path = true → path_commands (commands spec) path = []).
Proof.
  unfold validate_required_command, wants_command. change (available_commands spec _) with (path_commands (commands spec) path).
  cbn [entered]. destruct (match last path with Some c => _ | None => _ end); cbn [andb]; [|by split].
  destruct (decide (path_commands (commands spec) path = [])) as [E|E].
  - rewrite bool_decide_eq_true_2 by done. by split.
  - rewrite (bool_decide_eq_false_2 (path_commands _ _ = [])) by done. split; [done|]. intros H. by specialize (H eq_refl).
Qed.
Lemma required_from_ok s k args :
  validate_required_from s k args = Ok () ↔
  ∀ i a, args !! i = Some a → argument_required a = true → (k + i < length (positionals (collected s)))%nat.
Proof.
  revert k. induction args as [|a args IH]; intros k; cbn [validate_required_from]; [by split|].
  unfold missing_argument. destruct (argument_required a) eqn:Ha; cbn [andb].
  - case_bool_decide as Hk.
    + split; [done|]. intros H. specialize (H 0%nat a eq_refl Ha). lia.
    + rewrite IH. split.
      * intros H [|i] b Hb Hr; cbn in Hb; [lia|]. specialize (H i b Hb Hr). lia.
      * intros H i b Hb Hr. specialize (H (S i) b Hb Hr). lia.
  - rewrite IH. split.
    + intros H [|i] b Hb Hr; cbn in Hb; [congruence|]. specialize (H i b Hb Hr). lia.
    + intros H i b Hb Hr. specialize (H (S i) b Hb Hr). lia.
Qed.
Lemma rules_of_ok g o :
  validate_rules_of g o = Ok () ↔
  (required o = true → long o ∈ g) ∧
  (long o ∈ g → (∀ n, n ∈ conflicts_with o → n ∉ g) ∧ (∀ n, n ∈ requires o → n ∈ g)).
Proof.
  unfold validate_rules_of. destruct (decide (long o ∈ g)) as [Ho|Ho].
  - rewrite bool_decide_eq_true_2 by done. cbn [negb]. rewrite andb_false_r.
    destruct (List.find _ (conflicts_with o)) as [c|] eqn:Hc.
    { split; [done|]. intros [_ H]. apply found_elem in Hc as [Hc Hg]. apply bool_decide_eq_true in Hg.
      by destruct (H Ho) as [H1 _]; destruct (H1 c Hc). }
    destruct (List.find _ (requires o)) as [n|] eqn:Hn.
    { split; [done|]. intros [_ H]. apply found_elem in Hn as [Hn Hg]. apply negb_true_iff, bool_decide_eq_false in Hg.
      by destruct (H Ho) as [_ H1]; specialize (H1 n Hn). }
    split; [|done]. intros _. split; [done|]. intros _. split; intros n Hin.
    + eapply find_none_elem in Hc; [|exact Hin]. by apply bool_decide_eq_false in Hc.
    + eapply find_none_elem in Hn; [|exact Hin]. by apply negb_false_iff, bool_decide_eq_true in Hn.
  - rewrite bool_decide_eq_false_2 by done. cbn [negb]. rewrite andb_true_r. destruct (required o); [|by split].
    split; [done|]. intros [H _]. by destruct Ho; apply H.
Qed.
Lemma rules_ok g os : validate_rules g os = Ok () ↔ ∀ o, o ∈ os → validate_rules_of g o = Ok ().
Proof.
  induction os as [|o os IH]; cbn [validate_rules]; [split; [by intros _ o ?%not_elem_of_nil|done]|].
  destruct (validate_rules_of g o) as [[]|e] eqn:Ho; cbn [mbind result_bind].
  - rewrite IH. split; [intros H o' [->|?]%elem_of_cons; auto|intros H o' ?; apply H; by right].
  - split; [done|]. intros H. specialize (H o ltac:(by left)). congruence.
Qed.
Lemma terminal_ok path p : has_terminal_option spec {| entered := path; collected := p |} = true ↔ terminal_given path p.
Proof.
  unfold has_terminal_option. rewrite existsb_exists_elem. split.
  - intros (o & Ho & Ht). apply andb_true_iff in Ht as [Ht Hp]. apply bool_decide_eq_true in Hp. by exists o.
  - intros (o & Ho & Ht & Hp). exists o. split; [done|]. rewrite Ht. cbn. by apply bool_decide_eq_true.
Qed.
Lemma finish_line_spec path p : finish spec {| entered := path; collected := p |} = Ok p ↔ complete path p.
Proof.
  unfold finish, complete. pose proof (terminal_ok path p) as Ht. destruct (has_terminal_option _ _).
  { split; [|done]. intros _. left. by apply Ht. }
  assert (¬ terminal_given path p) as Hno by (intros H; by apply Ht in H).
  pose proof (required_command_ok path p) as H1. destruct (validate_required_command _ _) as [[]|]; cbn [mbind result_bind];
    [|split; [done|intros [?|[H _ _ _ _]]; [done|by apply H1 in H]]]. apply proj1 in H1. specialize (H1 eq_refl).
  unfold validate_required_arguments. change (active_arguments spec _) with (path_arguments (arguments spec) path).
  pose proof (required_from_ok {| entered := path; collected := p |} 0 (path_arguments (arguments spec) path)) as H2.
  destruct (validate_required_from _ _ _) as [[]|]; cbn [mbind result_bind];
    [|split; [done|intros [?|[_ H _ _ _]]; [done|by apply H2 in H]]]. apply proj1 in H2. specialize (H2 eq_refl).
  unfold validate_option_rules. change (present _) with (given p). change (visible_options spec _) with (path_options spec path).
  pose proof (rules_ok (given p) (path_options spec path)) as H3. setoid_rewrite rules_of_ok in H3.
  destruct (validate_rules _ _) as [[]|]; cbn [mbind result_bind].
  - apply proj1 in H3. specialize (H3 eq_refl). split; [|done]. intros _. right. split; [done|exact H2|..].
    + intros o Ho. by apply H3.
    + intros o n Ho Hg. by apply (H3 o Ho).
    + intros o n Ho Hg. by apply (H3 o Ho).
  - split; [done|]. intros [?|[_ _ Hr Hc Hm]]; [done|]. enough (Err e = Ok ()) by done. apply H3. intros o Ho. split; [by apply Hr|].
    intros Hg. split; [intros n; by apply (Hc o)|intros n; by apply (Hm o)].
Qed.
Lemma finish_ok s p : finish spec s = Ok p → p = collected s ∧ complete (entered s) p.
Proof.
  intros Hf. assert (p = collected s) as ->.
  { unfold finish in Hf. destruct (has_terminal_option _ _); [congruence|]. destruct (validate_required_command _ _); [|done].
    destruct (validate_required_arguments _ _); [|done]. destruct (validate_option_rules _ _); [|done]. cbn in Hf. congruence. }
  split; [done|]. destruct s as [path p]. by apply finish_line_spec.
Qed.

(** ** What a loop over the words collects *)

Hypothesis valid : validate_spec spec = Ok ().

Lemma NoDup_fmap_eq {A B} (f : A → B) l x y : NoDup (f <$> l) → x ∈ l → y ∈ l → f x = f y → x = y.
Proof.
  intros Hn [i Hi]%list_elem_of_lookup [j Hj]%list_elem_of_lookup E.
  assert (i = j) as ->; [|congruence]. eapply NoDup_lookup; [exact Hn|by rewrite list_lookup_fmap, Hi|].
  by rewrite list_lookup_fmap, Hj, E.
Qed.
Lemma same_long path o o' :
  in_chain (commands spec) path → o ∈ path_options spec path → o' ∈ path_options spec path → long o = long o' → o = o'.
Proof. intros Hp Ho Ho'. eapply NoDup_fmap_eq; [apply (validate_spec_ok spec path valid Hp)|done..]. Qed.

Definition collected_well (s : ParseState) : Prop := well_formed (entered s) (collected s).

Lemma count_snoc p q name :
  option_occurrences (collected (add_option q {| entered := []; collected := p |})) name =
  (option_occurrences p name + (if bool_decide (parsed_name q = name) then 1 else 0))%nat.
Proof.
  unfold option_occurrences. cbn [collected add_option parsed_options]. rewrite List.filter_app, length_app. f_equal.
  cbn [List.filter]. by case_bool_decide.
Qed.
Lemma count_zero p name : name ∉ given p → option_occurrences p name = 0%nat.
Proof.
  unfold option_occurrences, given. induction (parsed_options p) as [|q qs IH]; [done|]. rewrite fmap_cons, not_elem_of_cons.
  intros [Hn Hq]. cbn [List.filter]. rewrite bool_decide_eq_false_2 by done. by apply IH.
Qed.
Lemma not_given_exists p name : existsb (λ q, bool_decide (parsed_name q = name)) (parsed_options p) = false → name ∉ given p.
Proof.
  intros He Hin. apply list_elem_of_fmap in Hin as (q & -> & Hq). enough (existsb (λ q', bool_decide (parsed_name q' = parsed_name q)) (parsed_options p) = true) by congruence.
  apply existsb_exists_elem. exists q. split; [done|]. by apply bool_decide_eq_true.
Qed.
Lemma find_long_ok s name o : find_long_option spec s name = Some o → o ∈ visible_options spec s ∧ long o = name.
Proof. intros [H1 H2%bool_decide_eq_true]%found_elem. split; [|done]. by apply list_elem_of_In, in_rev, list_elem_of_In in H1. Qed.
Lemma find_short_ok s c o : find_short_option spec s c = Some o → o ∈ visible_options spec s.
Proof. intros [H1 _]%found_elem. by apply list_elem_of_In, in_rev, list_elem_of_In in H1. Qed.
Lemma option_value_mode rest inline o is_short v took : option_value rest inline o is_short = Ok (v, took) → mode_fits o v.
Proof.
  unfold option_value, mode_fits. destruct (value_mode o).
  - destruct (_ && _); [done|]. by intros [= <- _].
  - destruct inline; [by intros [= <- _]|]. destruct rest; [done|]. by intros [= <- _].
  - done.
Qed.

Lemma push_option_well s o v :
  collected_well s → o ∈ visible_options spec s → mode_fits o v → collected_well (push_option o v s).2.
Proof.
  intros [Hp Hn Ho H1 Ha] Hin Hm. unfold push_option. rewrite op_get_bind.
  destruct (negb (repeatable o) && _) eqn:Hdup; [by split|].
  destruct (match v with Some v => _ | None => Ok () end) as [[]|e] eqn:Hv; [|by split]. rewrite op_lift_ok.
  destruct s as [path p]. split; cbn [collected entered add_option op_modify snd parsed_options command_path positionals] in *; try done.
  - apply Forall_snoc_intro; [done|]. exists o. split; [done|]. split; [done|]. split; [done|].
    cbn. intros x ->. by apply validate_value_ok in Hv.
  - intros o' Ho' Hr. pose proof (count_snoc p {| parsed_name := long o; parsed_value := v |} (long o')) as E.
    unfold option_occurrences in *. cbn [collected add_option parsed_options parsed_name] in *. rewrite E.
    case_bool_decide as Hl; [|specialize (H1 o' Ho' Hr); lia].
    assert (o' = o) as -> by by eapply same_long. rewrite Hr in Hdup. cbn in Hdup.
    pose proof (count_zero p (long o) (not_given_exists _ _ Hdup)) as Hz. unfold option_occurrences in Hz. rewrite Hz. lia.
Qed.
Lemma enter_command_well s word :
  collected_well s → positionals (collected s) = [] → collected_well (enter_command spec word s).2.
Proof.
  intros [Hp Hn Ho H1 Ha] Hempty. unfold enter_command. rewrite op_get_bind.
  destruct (List.find _ _) as [c|] eqn:Hf; [|by split]. rewrite op_modify_bind. cbn [snd mret op_ret].
  apply found_elem in Hf as [Hc _]. destruct s as [path p]. change (c ∈ path_commands (commands spec) path) in Hc.
  assert (in_chain (commands spec) (path ++ [c])) as Hchain by by apply in_chain_snoc.
  split; cbn [collected entered add_command parsed_options command_path positionals] in *.
  - done.
  - by rewrite fmap_app, Hn.
  - eapply Forall_impl; [exact Ho|]. intros q (o & Hin & ?). exists o. split; [|done]. rewrite path_options_snoc. by apply elem_of_app; left.
  - intros o Hin Hr. unfold option_occurrences in *. cbn [parsed_options]. destruct (decide (long o ∈ given p)) as [Hg|Hg].
    + apply list_elem_of_fmap in Hg as (q & Hq & Hin'). rewrite Forall_forall in Ho. destruct (Ho q Hin') as (o' & Ho' & Hl & _).
      assert (o = o') as ->; [|by apply H1]. eapply same_long; [exact Hchain|done|rewrite path_options_snoc; by apply elem_of_app; left|congruence].
    + pose proof (count_zero p (long o) Hg) as Hz. unfold option_occurrences in Hz. rewrite Hz. lia.
  - rewrite Hempty. done.
Qed.
Lemma push_positional_well s v : collected_well s → collected_well (push_positional spec v s).2.
Proof.
  intros Hw. unfold push_positional. rewrite op_get_bind. destruct (next_argument spec s) as [a|] eqn:Hnext.
  2: { by destruct (_ && _). }
  destruct (validate_argument_value a v) as [[]|e] eqn:Hv; [|done]. rewrite op_lift_ok.
  destruct Hw as [Hp Hn Ho H1 Ha]. destruct s as [path p].
  split; cbn [collected entered add_positional op_modify snd parsed_options command_path positionals] in *; try done.
  intros i x Hi. apply lookup_app_Some in Hi as [Hi|[Hi Hx]]; [by apply Ha|].
  destruct (i - length (positionals p))%nat as [|k] eqn:Hk; [|done]. injection Hx as <-.
  assert (i = length (positionals p)) as -> by lia. exists a. split; [exact Hnext|]. by apply validate_value_ok in Hv.
Qed.
Lemma parse_short_well cs rest s : collected_well s → collected_well (parse_short_loop spec cs rest s).2.
Proof.
  revert s. induction cs as [|c cs IH]; intros s Hs; [done|]. cbn [parse_short_loop]. rewrite op_get_bind.
  destruct (find_short_option spec s c) as [o|] eqn:Hf; [|done]. apply find_short_ok in Hf.
  destruct (option_value rest (remainder cs) o true) as [[v took]|] eqn:Hv; [|done]. rewrite op_lift_ok. cbn [fst snd].
  apply option_value_mode in Hv. pose proof (push_option_well s o v Hs Hf Hv) as Hw.
  unfold mbind at 1, op_bind. destruct (push_option o v s) as [[[]|e] s']; [|done]. cbn [snd] in Hw.
  case_bool_decide; [done|by apply IH].
Qed.
Lemma parse_long_well word rest s : collected_well s → collected_well (parse_long_option spec word rest s).2.
Proof.
  intros Hs. unfold parse_long_option. destruct (split_long word) as [name inline]. case_bool_decide; [done|]. rewrite op_get_bind.
  destruct (find_long_option spec s name) as [o|] eqn:Hf; [|done]. apply find_long_ok in Hf as [Hf _].
  destruct (option_value rest inline o false) as [[v took]|] eqn:Hv; [|done]. rewrite op_lift_ok. cbn [fst snd].
  apply option_value_mode in Hv. pose proof (push_option_well s o v Hs Hf Hv) as Hw.
  unfold mbind, op_bind. by destruct (push_option o v s) as [[[]|e] s'].
Qed.
Lemma parse_word_well word rest : keeps collected_well (parse_word spec word rest).
Proof.
  intros s Hs. unfold parse_word. rewrite op_get_bind. destruct (is_long word); [by apply parse_long_well|].
  destruct (_ && _); [by apply parse_short_well|]. case_bool_decide as He.
  - pose proof (enter_command_well s word Hs He) as Hw. unfold mbind at 1, op_bind.
    destruct (enter_command spec word s) as [[[]|e] s']; [done| |done]. cbn [snd] in Hw.
    pose proof (push_positional_well s' word Hw) as Hw'. unfold mbind, op_bind. by destruct (push_positional spec word s') as [[[]|e] s''].
  - rewrite op_ret_bind. pose proof (push_positional_well s word Hs) as Hw'. unfold mbind, op_bind.
    by destruct (push_positional spec word s) as [[[]|e] s''].
Qed.
Lemma parse_words_well words s : collected_well s → collected_well (parse_words spec words s).2.
Proof.
  revert s. induction words as [words IH] using (well_founded_induction (well_founded_ltof _ length)). intros s Hs.
  destruct words as [|word rest]; [done|]. cbn [parse_words]. case_bool_decide; [by destruct Hs|].
  pose proof (parse_word_well word rest s Hs) as Hw. unfold mbind at 1, op_bind.
  destruct (parse_word spec word rest s) as [[[]|e] s']; [|apply IH; [unfold ltof; cbn; lia|done]|done].
  destruct rest as [|next rest]; [done|]. apply IH; [unfold ltof; cbn; lia|done].
Qed.
Lemma state_new_well : collected_well state_new.
Proof. by split; cbn; auto. Qed.

(** Only [--] fills the passthrough words. *)
Definition passes (ws : list string) (s : ParseState) : Prop := passthrough (collected s) = ws.
Lemma push_option_passes ws o v : keeps (passes ws) (push_option o v).
Proof.
  apply keeps_get_bind. intros s Hs. destruct (_ && _); [done|]. apply (keeps_bind (passes ws)); [apply keeps_lift| |done].
  intros _. by apply keeps_modify.
Qed.
Lemma push_positional_passes ws v : keeps (passes ws) (push_positional spec v).
Proof.
  apply keeps_get_bind. intros s Hs. destruct (next_argument spec s); [|by destruct (_ && _)].
  apply (keeps_bind (passes ws)); [apply keeps_lift| |done]. intros _. by apply keeps_modify.
Qed.
Lemma parse_short_passes ws cs rest : keeps (passes ws) (parse_short_loop spec cs rest).
Proof.
  induction cs as [|c cs IH]; [apply keeps_ret|]. apply keeps_get_bind. intros s Hs. destruct (find_short_option spec s c); [|done].
  apply (keeps_bind (passes ws)); [apply keeps_lift| |done]. intros f. apply keeps_bind; [apply push_option_passes|]. intros _.
  case_bool_decide; [apply keeps_ret|exact IH].
Qed.
Lemma parse_word_passes ws word rest : keeps (passes ws) (parse_word spec word rest).
Proof.
  apply keeps_get_bind. intros s Hs. destruct (is_long word).
  { unfold parse_long_option. destruct (split_long word). case_bool_decide; [done|]. rewrite op_get_bind.
    destruct (find_long_option _ _ _); [|done]. apply (keeps_bind (passes ws)); [apply keeps_lift| |done].
    intros f. apply keeps_bind; [apply push_option_passes|]. intros _. apply keeps_ret. }
  destruct (_ && _); [by apply parse_short_passes|]. apply (keeps_bind (passes ws)); [| |done].
  - case_bool_decide; [|apply keeps_ret]. apply keeps_get_bind. intros s' Hs'. by destruct (List.find _ _).
  - intros []; [apply keeps_ret|]. apply keeps_bind; [apply push_positional_passes|]. intros _. apply keeps_ret.
Qed.
Lemma parse_words_passes words s :
  passes [] s →
  let ws := passthrough (collected (parse_words spec words s).2) in ws = [] ∨ ∃ before, words = before ++ "--"%string :: ws.
Proof.
  revert s. induction words as [words IH] using (well_founded_induction (well_founded_ltof _ length)). intros s Hs.
  destruct words as [|word rest]; [by left|]. cbn [parse_words]. case_bool_decide as Hw.
  { subst word. right. exists []. cbn. by rewrite Hs. }
  pose proof (parse_word_passes [] word rest s Hs) as Hp. unfold mbind at 1 2, op_bind.
  assert (∀ more k s', (length more ≤ length rest)%nat → rest = k ++ more → passes [] s' →
    let ws := passthrough (collected (parse_words spec more s').2) in ws = [] ∨ ∃ before, word :: rest = before ++ "--"%string :: ws) as Hmore.
  { intros more k s' Hl -> Hs'. destruct (IH more) with (s := s') as [H|[before H]]; [unfold ltof; cbn; lia|done|by left|].
    right. exists (word :: k ++ before). rewrite H at 1. by rewrite <- app_comm_cons, <- app_assoc. }
  destruct (parse_word spec word rest s) as [[[]|e] s']; cbn [snd] in Hp; [|by apply (Hmore rest [])|by left].
  destruct rest as [|next rest]; [by left|]. apply (Hmore rest [next]); [cbn; lia|done|done].
Qed.

(** ** A line for a parse *)

Definition render_option (q : ParsedOption) : string :=
  "--" +:+ parsed_name q +:+ match parsed_value q with Some v => "=" +:+ v | None => EmptyString end.
Definition render (p : ParsedCli) : list string :=
  command_path p ++ (render_option <$> parsed_options p) ++ positionals p ++
  match passthrough p with [] => [] | ws => "--"%string :: ws end.
Definition no_dash (w : string) : Prop := str_prefix "-" w = false.
(** The parses that can be written down: no word of it is taken for an option, the
    first positional word for a command, or the word behind an option for its value. *)
Record plain_line (path : list CommandSpec) (p : ParsedCli) : Prop := {
  plain_commands : Forall no_dash (command_path p);
  plain_positionals : Forall no_dash (positionals p);
  plain_first v : head (positionals p) = Some v → existsb (command_matches v) (path_commands (commands spec) path) = false;
  plain_values q o : q ∈ parsed_options p → parsed_value q = None → o ∈ path_options spec path → long o = parsed_name q →
    value_mode o = Optional → detached_optional_value o = false;
}.

Lemma no_dash_word w : no_dash w → is_long w = false ∧ is_short_option w = false ∧ w ≠ "--"%string.
Proof.
  unfold no_dash, is_long, is_short_option. destruct w as [|c w]; [done|]. cbn [str_prefix]. rewrite andb_true_r. intros E.
  rewrite E. split_and!; [done|done|]. intros [= -> _]. by rewrite bool_decide_eq_true_2 in E.
Qed.
Lemma parse_words_plain word rest s s' :
  word ≠ "--"%string → parse_word spec word rest s = (Ok false, s') → parse_words spec (word :: rest) s = parse_words spec rest s'.
Proof. intros Hw Hp. cbn [parse_words]. rewrite bool_decide_eq_false_2 by done. unfold mbind at 1, op_bind. by rewrite Hp. Qed.

(** Commands: the first that matches a name is the one that has it. *)
Lemma matches_names c word : command_matches word c = true ↔ word ∈ names c.
Proof.
  unfold command_matches, names. rewrite orb_true_iff, bool_decide_eq_true, existsb_exists_elem, elem_of_cons. split.
  - intros [<-|(a & Ha & ->%bool_decide_eq_true)]; auto.
  - intros [->|Ha]; [by left|]. right. exists word. split; [done|]. by apply bool_decide_eq_true.
Qed.
Lemma same_name cs c c' word : NoDup (flat_map names cs) → c ∈ cs → c' ∈ cs → word ∈ names c → word ∈ names c' → c = c'.
Proof.
  induction cs as [|d cs IH]; [by intros _ ?%not_elem_of_nil|]. cbn [flat_map]. intros (_ & Hd & Hn)%NoDup_app.
  assert (∀ e, e ∈ cs → word ∈ names e → word ∈ names d → False) as Hx.
  { intros e He Hw Hwd. apply (Hd word Hwd). apply list_elem_of_In, in_flat_map. exists e. by rewrite <- !list_elem_of_In. }
  intros [->|Hc]%elem_of_cons [->|Hc']%elem_of_cons Hw Hw'; [done|by destruct (Hx c')|by destruct (Hx c)|by apply IH].
Qed.
Lemma find_command path c :
  in_chain (commands spec) (path ++ [c]) →
  List.find (command_matches (command_name c)) (path_commands (commands spec) path) = Some c.
Proof.
  intros [Hp Hc]%in_chain_snoc. pose proof (scope_commands _ _ _ (validate_spec_ok spec path valid Hp)) as Hn.
  assert (command_name c ∈ names c) as Hname by by left.
  destruct (List.find _ _) as [c'|] eqn:Hf.
  - apply found_elem in Hf as [Hc' Hm]. apply matches_names in Hm. f_equal. by eapply same_name.
  - eapply find_none_elem in Hf; [|exact Hc]. apply matches_names in Hname. congruence.
Qed.
Definition at_path (path : list CommandSpec) : ParseState :=
  {| entered := path;
     collected := {| command_path := command_name <$> path; parsed_options := []; positionals := []; passthrough := [] |} |}.
Lemma parse_commands done_path path rest :
  in_chain (commands spec) (done_path ++ path) → Forall no_dash (command_name <$> path) →
  parse_words spec ((command_name <$> path) ++ rest) (at_path done_path) = parse_words spec rest (at_path (done_path ++ path)).
Proof.
  revert done_path. induction path as [|c path IH]; intros dp Hc Hd; [by rewrite app_nil_r|].
  rewrite fmap_cons in *. apply Forall_cons in Hd as [Hd Hrest]. destruct (no_dash_word _ Hd) as (Hl & Hs & Hne).
  rewrite (cons_middle c dp path), app_assoc in Hc |- *. rewrite <- IH by done. rewrite <- app_comm_cons. apply parse_words_plain; [done|].
  unfold parse_word. rewrite op_get_bind, Hl, Hs. cbn [andb]. cbn [collected at_path positionals]. rewrite bool_decide_eq_true_2 by done.
  assert (in_chain (commands spec) (dp ++ [c])) as Hc1.
  { clear -Hc. revert Hc. generalize (commands spec). generalize (dp ++ [c]). intros l. induction l as [|d l IH]; intros cs; [done|].
    cbn. intros [? ?]. split; [done|]. by apply IH. }
  unfold enter_command. rewrite op_bind_assoc, op_get_bind. change (available_commands spec _) with (path_commands (commands spec) dp).
  rewrite find_command by done. rewrite op_bind_assoc, op_modify_bind, op_ret_bind. unfold mret, op_ret. f_equal.
  unfold add_command, at_path. cbn. by rewrite fmap_app.
Qed.

(** Options, each with its value attached. *)
Lemma str_all_free f c s : str_all f s = true → f c = false → str_free c s.
Proof.
  intros Hs Hc. induction s as [|x s IH]; [done|]. cbn in *. apply andb_true_iff in Hs as [Hx Hs].
  split; [by intros ->; congruence|by apply IH].
Qed.
Lemma split_once_free c s : str_free c s → split_once c s = None.
Proof.
  induction s as [|x s IH]; [done|]. intros [Hx Hs]. cbn. rewrite bool_decide_eq_false_2 by done. by rewrite IH.
Qed.
Lemma split_rendered q : valid_name (parsed_name q) → split_long (render_option q) = (parsed_name q, parsed_value q).
Proof.
  intros [_ Hn]. assert (str_free "=" (parsed_name q)) as Hf by (by eapply str_all_free). unfold split_long, render_option.
  rewrite strip_prefix_app. unfold default, id. destruct (parsed_value q) as [v|].
  - change ("=" +:+ v) with (String "=" v). by rewrite split_once_app.
  - rewrite string_app_empty_r. by rewrite split_once_free.
Qed.
Lemma find_long_visible s o :
  in_chain (commands spec) (entered s) → o ∈ visible_options spec s → find_long_option spec s (long o) = Some o.
Proof.
  intros Hc Ho. destruct (find_long_option spec s (long o)) as [o'|] eqn:Hf.
  - apply find_long_ok in Hf as [Hf Hl]. f_equal. by eapply same_long.
  - unfold find_long_option in Hf. eapply (find_none_elem _ _ o) in Hf; [cbn in Hf; by rewrite bool_decide_eq_true_2 in Hf|].
    by rewrite list_elem_of_In, <- in_rev, <- list_elem_of_In.
Qed.
Lemma option_value_attached rest o v :
  mode_fits o v → (v = None → value_mode o = Optional → detached_optional_value o = false) →
  option_value rest v o false = Ok (v, false).
Proof.
  unfold mode_fits, option_value. destruct (value_mode o); destruct v as [v|]; try done.
  intros _ Hd. unfold optional_value. by rewrite Hd.
Qed.
Lemma not_given_existsb p name : name ∉ given p → existsb (λ q, bool_decide (parsed_name q = name)) (parsed_options p) = false.
Proof.
  intros Hn. apply not_true_iff_false. intros (q & Hq & E%bool_decide_eq_true)%existsb_exists_elem.
  destruct Hn. apply list_elem_of_fmap. by exists q.
Qed.
Lemma parse_rendered_option q o rest s :
  in_chain (commands spec) (entered s) → o ∈ visible_options spec s → long o = parsed_name q → option_fits o (parsed_value q) →
  (repeatable o = false → parsed_name q ∉ given (collected s)) →
  (parsed_value q = None → value_mode o = Optional → detached_optional_value o = false) →
  parse_words spec (render_option q :: rest) s = parse_words spec rest (add_option q s).
Proof.
  intros Hc Ho Hl [Hm Hv] Hd Hp.
  assert (valid_name (parsed_name q)) as Hname.
  { rewrite <- Hl. pose proof (scope_options _ _ _ (validate_spec_ok spec _ valid Hc)) as Hs.
    eapply (proj1 (Forall_forall _ _)) in Ho; [exact Ho|apply Hs]. }
  assert (is_long (render_option q) = true) as Hlong by (apply str_prefix_spec; by eexists).
  apply parse_words_plain.
  { unfold render_option. destruct Hname as [Hne _]. by destruct (parsed_name q). }
  unfold parse_word. rewrite op_get_bind, Hlong. unfold parse_long_option. rewrite split_rendered by done.
  rewrite bool_decide_eq_false_2 by apply Hname. rewrite op_get_bind, <- Hl, find_long_visible by done.
  rewrite option_value_attached by done. rewrite op_lift_ok. cbn [fst snd].
  assert (push_option o (parsed_value q) s = (Ok (), add_option q s)) as Hpush; [|by erewrite op_ok_bind by exact Hpush].
  unfold push_option. rewrite op_get_bind.
  assert (negb (repeatable o) && existsb (λ q', bool_decide (parsed_name q' = long o)) (parsed_options (collected s)) = false) as ->.
  { destruct (repeatable o); [done|]. cbn. apply not_given_existsb. rewrite Hl. by apply Hd. }
  assert (match parsed_value q with Some v => validate_option_value o v | None => Ok () end = Ok ()) as ->.
  { destruct (parsed_value q) as [v|]; [|done]. apply validate_value_ok. by apply Hv. }
  rewrite op_lift_ok. unfold op_modify. f_equal. f_equal. destruct q. cbn in *. by rewrite Hl.
Qed.
Definition with_options (path : list CommandSpec) (qs : list ParsedOption) : ParseState :=
  {| entered := path;
     collected := {| command_path := command_name <$> path; parsed_options := qs; positionals := []; passthrough := [] |} |}.
Lemma parse_rendered_options path p before after rest :
  well_formed path p → plain_line path p → parsed_options p = before ++ after →
  parse_words spec ((render_option <$> after) ++ rest) (with_options path before) =
  parse_words spec rest (with_options path (parsed_options p)).
Proof.
  intros Hw Hp. revert before. induction after as [|q after IH]; intros before Hsplit.
  { by rewrite Hsplit, app_nil_r. }
  rewrite fmap_cons, <- app_comm_cons.
  destruct (proj1 (Forall_forall _ _) (wf_options _ _ Hw) q) as (o & Ho & Hl & Hfit); [rewrite Hsplit; set_solver|].
  rewrite (parse_rendered_option q o); [|apply Hw|done..| |].
  - change (add_option q (with_options path before)) with (with_options path (before ++ [q])). apply IH. by rewrite <- app_assoc.
  - intros Hr Hin. pose proof (wf_once _ _ Hw o Ho Hr) as Hone. unfold option_occurrences in Hone.
    rewrite Hsplit, List.filter_app, length_app in Hone. cbn [List.filter] in Hone.
    rewrite bool_decide_eq_true_2 in Hone by done. cbn [length] in Hone.
    apply list_elem_of_fmap in Hin as (q' & Hq' & Hin). cbn [collected with_options parsed_options] in Hin.
    apply list_elem_of_In in Hin. assert (In q' (List.filter (λ x, bool_decide (parsed_name x = long o)) before)) as Hf.
    { apply filter_In. split; [done|]. apply bool_decide_eq_true. congruence. }
    destruct (List.filter _ before); [done|]. cbn in Hone. lia.
  - intros Hv. eapply (plain_values path p Hp q); [rewrite Hsplit; set_solver|done..].
Qed.

(** Positional words. *)
Definition with_positionals (path : list CommandSpec) (qs : list ParsedOption) (vs : list string) : ParseState :=
  {| entered := path;
     collected := {| command_path := command_name <$> path; parsed_options := qs; positionals := vs; passthrough := [] |} |}.
Lemma parse_positionals path p before after rest :
  well_formed path p → plain_line path p → positionals p = before ++ after →
  parse_words spec (after ++ rest) (with_positionals path (parsed_options p) before) =
  parse_words spec rest (with_positionals path (parsed_options p) (positionals p)).
Proof.
  intros Hw Hp. revert before. induction after as [|v after IH]; intros before Hsplit; [by rewrite Hsplit, app_nil_r|].
  assert (no_dash v) as Hd by (eapply (proj1 (Forall_forall _ _)); [apply (plain_positionals _ _ Hp)|rewrite Hsplit; set_solver]).
  destruct (no_dash_word _ Hd) as (Hl & Hs & Hne). rewrite <- app_comm_cons.
  rewrite (parse_words_plain _ _ _ (with_positionals path (parsed_options p) (before ++ [v]))); [|done|].
  { apply IH. by rewrite <- app_assoc. }
  destruct (wf_positionals _ _ Hw (length before) v) as (a & Ha & Hadm).
  { rewrite Hsplit. by rewrite list_lookup_middle. }
  assert (push_positional spec v (with_positionals path (parsed_options p) before) =
          (Ok (), with_positionals path (parsed_options p) (before ++ [v]))) as Hpush.
  { unfold push_positional. rewrite op_get_bind.
    change (next_argument spec _) with (argument_at (path_arguments (arguments spec) path) (length before)). rewrite Ha.
    assert (validate_argument_value a v = Ok ()) as -> by by apply validate_value_ok. by rewrite op_lift_ok. }
  unfold parse_word. rewrite op_get_bind, Hl, Hs. cbn [andb].
  assert ((if bool_decide (positionals (collected (with_positionals path (parsed_options p) before)) = []) then enter_command spec v else mret false)
    (with_positionals path (parsed_options p) before) = (Ok false, with_positionals path (parsed_options p) before)) as He.
  { destruct before as [|b before]; [|done]. rewrite bool_decide_eq_true_2 by done. unfold enter_command. rewrite op_get_bind.
    change (available_commands spec _) with (path_commands (commands spec) path).
    destruct (List.find _ _) as [c|] eqn:Hf; [|done]. apply found_elem in Hf as [Hc Hm].
    pose proof (plain_first _ _ Hp v) as Hx. rewrite Hsplit in Hx. specialize (Hx eq_refl).
    assert (existsb (command_matches v) (path_commands (commands spec) path) = true) by (apply existsb_exists_elem; eauto). congruence. }
  erewrite op_ok_bind by exact He. cbn beta iota. by erewrite op_ok_bind by exact Hpush.
Qed.
Lemma parse_render path p :
  well_formed path p → plain_line path p → complete path p → parse spec (render p) = Ok p.
Proof.
  intros Hw Hp Hc. unfold parse. rewrite valid. cbn [map_err mbind result_bind]. unfold render. rewrite (wf_names _ _ Hw).
  change state_new with (at_path []). rewrite parse_commands; [|apply Hw|rewrite <- (wf_names _ _ Hw); apply Hp]. cbn [app].
  change (at_path path) with (with_options path []). rewrite (parse_rendered_options path p []) by done.
  change (with_options path (parsed_options p)) with (with_positionals path (parsed_options p) []).
  rewrite (parse_positionals path p []) by done. pose proof (wf_names _ _ Hw) as Hn.
  assert (finish spec {| entered := path; collected := p |} = Ok p) as Hf by by apply finish_line_spec.
  destruct p as [cp os vs ws]. cbn [command_path parsed_options positionals passthrough] in *. subst cp.
  by destruct ws as [|w ws].
Qed.
Lemma parse_accepts words p :
  parse spec words = Ok p →
  (∃ path, well_formed path p ∧ complete path p) ∧
  (passthrough p = [] ∨ ∃ before, words = before ++ "--"%string :: passthrough p).
Proof.
  unfold parse. rewrite valid. cbn [map_err mbind result_bind].
  pose proof (parse_words_well words state_new state_new_well) as Hw. pose proof (parse_words_passes words state_new eq_refl) as Hp.
  destruct (parse_words spec words state_new) as [[[]|e] s]; [|done]. cbn [snd] in *. intros Hf.
  apply finish_ok in Hf as [-> Hc]. split; [|exact Hp]. by exists (entered s).
Qed.
End Lines.

(** ** Results *)

Lemma parse_validates spec words p : parse spec words = Ok p → validate_spec spec = Ok ().
Proof. unfold parse. by destruct (validate_spec spec) as [[]|]. Qed.


(** C19: Every well-formed line is accepted, as itself: written with its commands by
    name, its values attached, its positional words and then those to pass
    through, it is parsed to the same commands, options and words, if no word of it reads
    as something else. *)
Theorem rendered_lines_parse_back spec path p :
  validate_spec spec = Ok () → well_formed spec path p → plain_line spec path p → complete spec path p →
  parse spec (render p) = Ok p.
Proof. intros Hv. by apply parse_render. Qed.

Module ArgsDemo.
Definition verbose : OptionSpec :=
  {| long := "verbose"; short := Some "v"%string; value_mode := Forbidden; value_name := "VALUE"; value_type := StringType;
     possible_values := []; option_about := ""; required := false; repeatable := true; detached_optional_value := false;
     terminal := false; option_hidden := false; conflicts_with := []; requires := [] |}.
Definition mode : OptionSpec :=
  {| long := "mode"; short := Some "m"%string; value_mode := Required; value_name := "VALUE"; value_type := StringType;
     possible_values := ["fast"; "safe"]%string; option_about := ""; required := true; repeatable := false; detached_optional_value := false;
     terminal := false; option_hidden := false; conflicts_with := []; requires := ["verbose"%string] |}.
Definition offset : ArgumentSpec :=
  {| argument_name := "offset"; argument_about := ""; argument_type := I64Type; argument_values := [];
     argument_required := true; multiple := true |}.
Definition shift (name : string) : CommandSpec :=
  {| command_name := name; aliases := ["s"%string]; command_about := ""; subcommands := []; command_options := [mode];
     command_arguments := [offset]; subcommand_required := false; command_hidden := false |}.
Definition app (command : string) : CliSpec :=
  {| cli_name := "app"; cli_about := ""; version := None; commands := [shift command]; options := [verbose];
     arguments := []; command_required := true |}.
Definition words : list string := ["-v"; "s"; "-vmfast"; "-12"; "7"; "--"; "-x"]%string.
Definition line : ParsedCli :=
  {| command_path := ["shift"%string];
     parsed_options := [{| parsed_name := "verbose"; parsed_value := None |}; {| parsed_name := "verbose"; parsed_value := None |};
                        {| parsed_name := "mode"; parsed_value := Some "fast"%string |}];
     positionals := ["-12"; "7"]%string; passthrough := ["-x"%string] |}.
Lemma words_parsed : parse (app "shift") words = Ok line.
Proof. vm_compute. reflexivity. Qed.

Definition plain : ParsedCli :=
  {| command_path := ["shift"%string];
     parsed_options := [{| parsed_name := "verbose"; parsed_value := None |}; {| parsed_name := "mode"; parsed_value := Some "safe"%string |}];
     positionals := ["12"%string]; passthrough := [] |}.
Lemma plain_parsed : parse (app "shift") ["shift"; "--verbose"; "--mode"; "safe"; "12"]%string = Ok plain.
Proof. vm_compute. reflexivity. Qed.
Lemma plain_described :
  ∃ path, well_formed (app "shift") path plain ∧ complete (app "shift") path plain ∧ plain_line (app "shift") path plain.
Proof.
  destruct (parse_accepts (app "shift") (parse_validates _ _ _ plain_parsed) _ _ plain_parsed) as [(path & Hw & Hc) _].
  exists path. split; [done|]. split; [done|]. pose proof (wf_names _ _ _ Hw) as Hn. pose proof (wf_path _ _ _ Hw) as Hp.
  destruct path as [|c [|]]; [done| |done]. destruct Hp as [->%list_elem_of_singleton _]. split.
  - by repeat constructor.
  - by repeat constructor.
  - intros v [= <-]. done.
  - intros q o [->|[->|[]%not_elem_of_nil]%elem_of_cons]%elem_of_cons; [|done].
    intros _ [->|[->|[]%not_elem_of_nil]%elem_of_cons]%elem_of_cons; done.
Qed.
Lemma rendered_lines_parse_back_witness :
  render plain = ["shift"; "--verbose"; "--mode=safe"; "12"]%string ∧ parse (app "shift") (render plain) = Ok plain.
Proof.
  split; [reflexivity|]. destruct plain_described as (path & Hw & Hc & Hp).
  exact (rendered_lines_parse_back (app "shift") path plain (parse_validates _ _ _ plain_parsed) Hw Hp Hc).
Defined.

(** A command whose name begins with a dash passes validation and cannot be
    entered by its name. *)
Example dashed_command_cannot_be_entered :
  validate_spec (app "-x") = Ok () ∧ is_ok (parse (app "-x") ["-x"; "-vmfast"; "7"]%string) = false ∧
  is_ok (parse (app "-x") ["s"; "-vmfast"; "7"]%string) = true.
Proof. vm_compute. repeat split; reflexivity. Qed.
End ArgsDemo.
