(* ===== verification/ArgsCompletion.v ===== *)
(** Shell completion of command lines ([crates/appcore-args/src/completion.rs]): a
    second reading of the words, which must agree with the parser's. *)

From S2P Require Import Prelude.
From S2P Require Import Text.
From S2P Require Import Types.
From S2P Require Import ArgsSpec.
From S2P Require Import ArgsParser.
From S2P Require Import ArgsLines.

(** ** Requests and candidates *)

Record CompletionRequest := { request_words : list string; cursor_word : nat }.
Inductive CompletionKind := CommandKind | OptionKind | ValueKind.
Record CompletionCandidate := { candidate_value : string; description : string; kind : CompletionKind }.

(** [CompletionContext]. *)
Record CompletionContext := {
  context_commands : list CommandSpec; used_options : gset string; context_positionals : nat;
  pending_value : option OptionSpec; context_passthrough : bool;
}.
Definition context_new : CompletionContext :=
  {| context_commands := []; used_options := ∅; context_positionals := 0; pending_value := None; context_passthrough := false |}.

Section Completion.
Variable spec : CliSpec.
Implicit Type c : CompletionContext.

Definition commands_here (c : CompletionContext) : list CommandSpec :=
  match last (context_commands c) with Some d => subcommands d | None => commands spec end.
Definition arguments_here (c : CompletionContext) : list ArgumentSpec :=
  match last (context_commands c) with Some d => command_arguments d | None => arguments spec end.
Definition next_argument_here (c : CompletionContext) : option ArgumentSpec :=
  match arguments_here c !! context_positionals c with
  | Some a => Some a
  | None => a ← last (arguments_here c); if multiple a then Some a else None
  end.
Definition options_here (c : CompletionContext) : list OptionSpec := options spec ++ flat_map command_options (context_commands c).
Definition long_here (c : CompletionContext) (name : string) : option OptionSpec :=
  List.find (λ o, bool_decide (long o = name)) (rev (options_here c)).
Definition short_here (c : CompletionContext) (s : string) : option OptionSpec :=
  List.find (λ o, bool_decide (short o = Some s)) (rev (options_here c)).
Definition negative_here (c : CompletionContext) (v : string) : bool :=
  match next_argument_here c with
  | None => false
  | Some a =>
    bool_decide (argument_type a = I64Type) && is_i64 v
    && match chars v !! 1%nat with Some x => bool_decide (short_here c x = None) | None => true end
  end.

(** ** [analyze] *)

Definition use_option (name : string) (pending : option OptionSpec) (c : CompletionContext) : CompletionContext :=
  {| context_commands := context_commands c; used_options := {[name]} ∪ used_options c;
     context_positionals := context_positionals c; pending_value := pending; context_passthrough := context_passthrough c |}.
Definition take_pending (c : CompletionContext) : CompletionContext :=
  {| context_commands := context_commands c; used_options := used_options c;
     context_positionals := context_positionals c; pending_value := None; context_passthrough := context_passthrough c |}.
Definition consume_long (raw : string) (c : CompletionContext) : CompletionContext :=
  let '(name, has_value) := match split_once "=" raw with Some (n, _) => (n, true) | None => (raw, false) end in
  match long_here c name with
  | Some o =>
    use_option (long o) (if bool_decide (value_mode o = Required) && negb has_value then Some o else pending_value c) c
  | None => c
  end.
Fixpoint consume_short_loop (cs : list string) (c : CompletionContext) : CompletionContext :=
  match cs with
  | [] => c
  | x :: cs' =>
    match short_here c x with
    | None => c
    | Some o =>
      if bool_decide (value_mode o ≠ Forbidden) then
        use_option (long o) (if bool_decide (cs' = []) && bool_decide (value_mode o = Required) then Some o else pending_value c) c
      else consume_short_loop cs' (use_option (long o) (pending_value c) c)
    end
  end.
(** [trim_start_matches('-')]. *)
Fixpoint trim_dashes (s : string) : string :=
  match s with
  | String x s' => if bool_decide (x = "-"%char) then trim_dashes s' else s
  | EmptyString => EmptyString
  end.
Definition consume_short (word : string) (c : CompletionContext) : CompletionContext :=
  consume_short_loop (chars (trim_dashes word)) c.
Definition consume_plain (word : string) (c : CompletionContext) : CompletionContext :=
  let count := {| context_commands := context_commands c; used_options := used_options c;
                  context_positionals := S (context_positionals c); pending_value := pending_value c;
                  context_passthrough := context_passthrough c |} in
  if bool_decide (context_positionals c = 0%nat) then
    match List.find (command_matches word) (commands_here c) with
    | Some d =>
      {| context_commands := context_commands c ++ [d]; used_options := used_options c;
         context_positionals := context_positionals c; pending_value := pending_value c;
         context_passthrough := context_passthrough c |}
    | None => count
    end
  else count.
(** The context behind a word, and whether the words end with it. *)
Definition consume (word : string) (c : CompletionContext) : CompletionContext * bool :=
  match pending_value c with
  | Some _ => (take_pending c, false)
  | None =>
    if bool_decide (word = "--"%string) then
      ({| context_commands := context_commands c; used_options := used_options c;
          context_positionals := context_positionals c; pending_value := None; context_passthrough := true |}, true)
    else
      match strip_prefix "--" word with
      | Some raw => (consume_long raw c, false)
      | None =>
        if str_prefix "-" word && (1 <? str_len word)%N && negb (negative_here c word) then (consume_short word c, false)
        else (consume_plain word c, false)
      end
  end.
Fixpoint analyze_from (c : CompletionContext) (words : list string) : CompletionContext :=
  match words with
  | [] => c
  | word :: rest => let '(c', stop) := consume word c in if stop : bool then c' else analyze_from c' rest
  end.
Definition analyze (words : list string) : CompletionContext := analyze_from context_new words.

(** ** Candidates *)

Definition normalize_words (r : CompletionRequest) : list string * nat :=
  match request_words r with
  | w :: rest => if bool_decide (w = cli_name spec) then (rest, (cursor_word r - 1)%nat) else (request_words r, cursor_word r)
  | [] => ([], cursor_word r)
  end.
Definition long_inline_value (prefix : string) : option (string * string) :=
  raw ← strip_prefix "--" prefix; split_once "=" raw.
Definition value_candidates (values : list string) (prefix : string) (long_option : option string) : list CompletionCandidate :=
  (λ v, {| candidate_value := match long_option with Some n => "--" +:+ n +:+ "=" +:+ v | None => v end;
           description := ""; kind := ValueKind |}) <$> List.filter (str_prefix prefix) values.
Definition command_candidates (prefix : string) (c : CompletionContext) : list CompletionCandidate :=
  if (0 <? context_positionals c)%nat then []
  else
    (λ d, {| candidate_value := command_name d; description := command_about d; kind := CommandKind |})
      <$> List.filter (λ d, negb (command_hidden d) && str_prefix prefix (command_name d)) (commands_here c).
Definition candidates_of (prefix : string) (c : CompletionContext) (o : OptionSpec) : list CompletionCandidate :=
  if negb (repeatable o) && bool_decide (long o ∈ used_options c) then []
  else
    let candidate v := if str_prefix prefix v then [{| candidate_value := v; description := option_about o; kind := OptionKind |}] else [] in
    candidate ("--" +:+ long o) ++ match short o with Some s => candidate ("-" +:+ s) | None => [] end.
Definition option_candidates (prefix : string) (c : CompletionContext) : list CompletionCandidate :=
  flat_map (candidates_of prefix c) (List.filter (λ o, negb (option_hidden o)) (options_here c)).
Definition argument_candidates (prefix : string) (c : CompletionContext) : list CompletionCandidate :=
  match next_argument_here c with Some a => value_candidates (argument_values a) prefix None | None => [] end.
Definition candidates_at (c : CompletionContext) (prefix : string) : list CompletionCandidate :=
  if context_passthrough c then []
  else
    match long_inline_value prefix with
    | Some (name, value_prefix) =>
      match long_here c name with Some o => value_candidates (possible_values o) value_prefix (Some name) | None => [] end
    | None =>
      match pending_value c with
      | Some o => value_candidates (possible_values o) prefix None
      | None =>
        if str_prefix "-" prefix then option_candidates prefix c ++ argument_candidates prefix c
        else command_candidates prefix c ++ argument_candidates prefix c
      end
    end.
Definition complete_words (r : CompletionRequest) : list CompletionCandidate :=
  if negb (is_ok (validate_spec spec)) then []
  else
    let '(words, cursor) := normalize_words r in
    candidates_at (analyze (take cursor words)) (default EmptyString (words !! cursor)).

(** ** Agreement with the parser *)

(** The context of a state of the parser. *)
Record mirrors (s : ParseState) (c : CompletionContext) : Prop := {
  same_commands : context_commands c = entered s;
  same_used : ∀ x, x ∈ used_options c ↔ x ∈ present s;
  same_positionals : context_positionals c = length (positionals (collected s));
  nothing_pending : pending_value c = None;
  not_passed : context_passthrough c = false;
}.
(** Completion does not know the optional values that are separate words. *)
Definition attached_only : Prop := ∀ path o, in_chain (commands spec) path → o ∈ path_options spec path → detached_optional_value o = false.

Section Mirror.
Context {s : ParseState} {c : CompletionContext} (Hm : mirrors s c).
Lemma mirror_commands : commands_here c = available_commands spec s.
Proof. unfold commands_here. by rewrite (same_commands _ _ Hm). Qed.
Lemma mirror_argument : next_argument_here c = next_argument spec s.
Proof.
  unfold next_argument_here, next_argument, argument_at, arguments_here, active_arguments.
  by rewrite (same_commands _ _ Hm), (same_positionals _ _ Hm).
Qed.
Lemma mirror_long name : long_here c name = find_long_option spec s name.
Proof. unfold long_here, options_here. by rewrite (same_commands _ _ Hm). Qed.
Lemma mirror_short x : short_here c x = find_short_option spec s x.
Proof. unfold short_here, options_here. by rewrite (same_commands _ _ Hm). Qed.
Lemma mirror_negative v : negative_here c v = accepts_negative_positional spec s v.
Proof.
  unfold negative_here, accepts_negative_positional. rewrite mirror_argument. destruct (next_argument spec s); [|done].
  f_equal. destruct (chars v !! 1%nat); [|done]. by rewrite mirror_short.
Qed.
Lemma mirror_option q : mirrors (add_option q s) (use_option (parsed_name q) None c).
Proof.
  destruct Hm as [H1 H2 H3 H4 H5]. split; cbn; try done. intros x. unfold present in *. cbn [collected add_option parsed_options].
  rewrite fmap_app, elem_of_union, elem_of_singleton, elem_of_app, H2. cbn. rewrite list_elem_of_singleton. tauto.
Qed.
End Mirror.

Lemma push_option_adds o v s s' : push_option o v s = (Ok (), s') → s' = add_option {| parsed_name := long o; parsed_value := v |} s.
Proof.
  unfold push_option. rewrite op_get_bind. destruct (_ && _); [done|].
  destruct (match v with Some v => _ | None => Ok () end) as [[]|]; [|done]. rewrite op_lift_ok. by intros [= <-].
Qed.
(** Without detached values, an option takes the next word when it needs one and has none. *)
Lemma option_value_took rest inline o is_short v took :
  detached_optional_value o = false → option_value rest inline o is_short = Ok (v, took) →
  took = bool_decide (value_mode o = Required) && bool_decide (inline = None) ∧ (took = true → rest ≠ []).
Proof.
  intros Hd. unfold option_value, optional_value. destruct (value_mode o); cbn [andb].
  - rewrite (bool_decide_eq_false_2 (Forbidden = Required)) by done. destruct (_ && _); [done|]. by intros [= _ <-].
  - rewrite (bool_decide_eq_true_2 (Required = Required)) by done. destruct inline as [x|]; [by intros [= _ <-]|]. destruct rest; [done|]. by intros [= _ <-].
  - rewrite (bool_decide_eq_false_2 (Optional = Required)) by done. rewrite Hd, orb_true_r. by intros [= _ <-].
Qed.

(** What one reading of a word must give for the other. *)
Definition follows (took : bool) (s' : ParseState) (rest : list string) (c' : CompletionContext) : Prop :=
  if took then pending_value c' ≠ None ∧ mirrors s' (take_pending c') ∧ rest ≠ [] else mirrors s' c'.
Lemma option_follows s c o v took (needs : bool) rest :
  mirrors s c → (took = true → rest ≠ []) → took = bool_decide (value_mode o = Required) && needs →
  follows took (add_option {| parsed_name := long o; parsed_value := v |} s) rest
    (use_option (long o) (if bool_decide (value_mode o = Required) && needs then Some o else pending_value c) c).
Proof.
  intros Hm Hrest ->. pose proof (mirror_option Hm {| parsed_name := long o; parsed_value := v |}) as Ho. cbn [parsed_name] in Ho.
  unfold follows. destruct (bool_decide _ && needs) eqn:E.
  - split; [done|]. split; [exact Ho|by apply Hrest].
  - by rewrite (nothing_pending _ _ Hm).
Qed.
Lemma long_follows s c word rest took s' :
  mirrors s c → (∀ o, o ∈ visible_options spec s → detached_optional_value o = false) →
  parse_long_option spec word rest s = (Ok took, s') →
  follows took s' rest (consume_long (default EmptyString (strip_prefix "--" word)) c).
Proof.
  intros Hm Hd. unfold parse_long_option, split_long, consume_long. set (raw := default EmptyString _).
  destruct (match split_once "=" raw with Some (n, v) => (n, Some v) | None => (raw, None) end) as [name inline] eqn:Hs.
  assert (match split_once "=" raw with Some (n, _) => (n, true) | None => (raw, false) end = (name, bool_decide (is_Some inline))) as ->.
  { destruct (split_once "=" raw) as [[n v]|]; by injection Hs as <- <-. }
  case_bool_decide; [done|]. rewrite op_get_bind, (mirror_long Hm).
  destruct (find_long_option spec s name) as [o|] eqn:Hf; [|done]. apply find_long_ok in Hf as [Hf _].
  destruct (option_value rest inline o false) as [[v t]|] eqn:Hv; [|done]. rewrite op_lift_ok. cbn [fst snd].
  unfold mbind, op_bind. destruct (push_option o v s) as [[[]|] s1] eqn:Hp; [|done]. apply push_option_adds in Hp as ->.
  unfold mret, op_ret. intros [= <- <-]. apply option_value_took in Hv as [Ht Hr]; [|by apply Hd].
  apply option_follows; [done|done|]. rewrite Ht. f_equal. destruct inline; [by rewrite bool_decide_eq_false_2|done].
Qed.
Lemma short_follows cs s c rest took s' :
  mirrors s c → (∀ o, o ∈ visible_options spec s → detached_optional_value o = false) →
  parse_short_loop spec cs rest s = (Ok took, s') → follows took s' rest (consume_short_loop cs c).
Proof.
  revert s c. induction cs as [|x cs IH]; intros s c Hm Hd; cbn [parse_short_loop consume_short_loop].
  { unfold mret, op_ret. by intros [= <- <-]. }
  rewrite op_get_bind, (mirror_short Hm). destruct (find_short_option spec s x) as [o|] eqn:Hf; [|done].
  apply find_short_ok in Hf. destruct (option_value rest (remainder cs) o true) as [[v t]|] eqn:Hv; [|done].
  rewrite op_lift_ok. cbn [fst snd]. unfold mbind at 1, op_bind.
  destruct (push_option o v s) as [[[]|] s1] eqn:Hp; [|done]. apply push_option_adds in Hp as ->.
  apply option_value_took in Hv as [Ht Hr]; [|by apply Hd].
  destruct (bool_decide (value_mode o ≠ Forbidden)).
  - unfold mret, op_ret. intros [= <- <-]. rewrite andb_comm. apply option_follows; [done|done|]. rewrite Ht. f_equal. by destruct cs.
  - apply IH; [|exact Hd]. rewrite (nothing_pending _ _ Hm). apply (mirror_option Hm {| parsed_name := long o; parsed_value := v |}).
Qed.
Lemma trim_short word : is_short_option word = true → trim_dashes word = default EmptyString (strip_prefix "-" word).
Proof.
  unfold is_short_option. destruct word as [|x [|y w]]; [done|..]; unfold strip_prefix; cbn [str_prefix].
  - intros [_ H]%andb_true_iff. done.
  - rewrite !andb_true_r. intros [[Hx Hy]%andb_true_iff _]%andb_true_iff. rewrite Hx in *. apply bool_decide_eq_true in Hx as <-.
    cbn in Hy. cbn [default trim_dashes str_drop String.length].
    destruct (bool_decide_reflect (y = "-"%char)) as [->|]; [by rewrite bool_decide_eq_true_2 in Hy|done].
Qed.
Lemma plain_follows s c word s' took :
  mirrors s c →
  (is_command ← (if bool_decide (positionals (collected s) = []) then enter_command spec word else mret false);
   if is_command : bool then mret false else _ ← push_positional spec word; mret false) s = (Ok took, s') →
  took = false ∧ mirrors s' (consume_plain word c).
Proof.
  intros Hm. unfold consume_plain. rewrite (same_positionals _ _ Hm), (mirror_commands Hm).
  assert (∀ s1 t, (_ ← push_positional spec word; mret false) s = (Ok t, s1) → t = false ∧ mirrors s1
    {| context_commands := context_commands c; used_options := used_options c;
       context_positionals := S (length (positionals (collected s))); pending_value := pending_value c;
       context_passthrough := context_passthrough c |}) as Hpos.
  { intros s1 t. unfold mbind at 1, op_bind. unfold push_positional. rewrite op_get_bind.
    destruct (next_argument spec s) as [a|]; [|by destruct (_ && _)]. destruct (validate_argument_value a word) as [[]|]; [|done].
    rewrite op_lift_ok. unfold mret, op_ret, op_modify. intros [= <- <-]. split; [done|]. destruct Hm as [H1 H2 H3 H4 H5].
    split; cbn; try done. rewrite length_app. cbn. lia. }
  destruct (decide (positionals (collected s) = [])) as [He|He].
  - rewrite !bool_decide_eq_true_2 by (done || by rewrite He). unfold enter_command. rewrite op_bind_assoc, op_get_bind.
    destruct (List.find _ _) as [d|].
    + rewrite op_bind_assoc, op_modify_bind, op_ret_bind. unfold mret, op_ret. intros [= <- <-]. split; [done|].
      destruct Hm as [H1 H2 H3 H4 H5]. split; cbn; try done. by rewrite H1.
    + rewrite op_ret_bind. apply Hpos.
  - rewrite (bool_decide_eq_false_2 (positionals (collected s) = [])) by done.
    rewrite (bool_decide_eq_false_2 (length _ = 0%nat)) by by destruct (positionals (collected s)).
    rewrite op_ret_bind. apply Hpos.
Qed.
Lemma word_follows s c word rest took s' :
  mirrors s c → (∀ o, o ∈ visible_options spec s → detached_optional_value o = false) → word ≠ "--"%string →
  parse_word spec word rest s = (Ok took, s') → ∃ c', consume word c = (c', false) ∧ follows took s' rest c'.
Proof.
  intros Hm Hd Hw. unfold parse_word, consume. rewrite op_get_bind, (nothing_pending _ _ Hm), (mirror_negative Hm).
  rewrite (bool_decide_eq_false_2 (word = "--"%string)) by done. unfold is_long. destruct (str_prefix "--" word) eqn:Hl.
  { intros Hp. eapply long_follows in Hp; [|done|done]. unfold strip_prefix in *. rewrite Hl in *. eauto. }
  unfold strip_prefix. rewrite Hl. destruct (is_short_option word && negb (accepts_negative_positional spec s word)) eqn:Hs.
  - intros Hp. eapply short_follows in Hp; [|exact Hm|exact Hd]. apply andb_true_iff in Hs as [Hs Hn].
    rewrite <- trim_short in Hp by done. unfold is_short_option in Hs. rewrite Hl in Hs. cbn [negb] in Hs. rewrite andb_true_r in Hs.
    rewrite Hs, Hn. cbn [andb]. eexists. split; [done|exact Hp].
  - intros Hp. eapply plain_follows in Hp as [-> Hp]; [|exact Hm]. unfold is_short_option in Hs. rewrite Hl in Hs. cbn [negb] in Hs.
    rewrite andb_true_r in Hs. rewrite Hs. eexists. split; [done|exact Hp].
Qed.

(** What both know at the end; the parser knows what was passed through. *)
Record agrees (s : ParseState) (c : CompletionContext) : Prop := {
  agree_commands : context_commands c = entered s;
  agree_used : ∀ x, x ∈ used_options c ↔ x ∈ present s;
  agree_positionals : context_positionals c = length (positionals (collected s));
  agree_pending : pending_value c = None;
  agree_passed : context_passthrough c = false → passthrough (collected s) = [];
}.
Lemma words_follow words s c s' :
  validate_spec spec = Ok () → attached_only → mirrors s c → collected_well spec s → passes [] s →
  parse_words spec words s = (Ok (), s') → agrees s' (analyze_from c words).
Proof.
  intros Hv Ha. revert s c. induction words as [words IH] using (well_founded_induction (well_founded_ltof _ length)). intros s c Hm Hw Hp.
  destruct words as [|word rest].
  { cbn. unfold mret, op_ret. intros [= <-]. by destruct Hm. }
  cbn [parse_words analyze_from]. case_bool_decide as Hd.
  { subst word. unfold op_modify. intros [= <-]. unfold consume. rewrite (nothing_pending _ _ Hm).
    rewrite (bool_decide_eq_true_2 ("--"%string = "--"%string)) by done. by destruct Hm. }
  unfold mbind at 1, op_bind. destruct (parse_word spec word rest s) as [[took|] s1] eqn:Hword; [|done]. intros Hr.
  pose proof (parse_word_well spec Hv word rest s Hw) as Hw1. pose proof (parse_word_passes spec [] word rest s Hp) as Hp1.
  rewrite Hword in Hw1, Hp1. cbn [snd] in *.
  eapply word_follows in Hword as (c' & -> & Hf); [|done|intros o Ho; eapply Ha; [apply (wf_path _ _ _ Hw)|exact Ho]|done].
  destruct took; cbn [follows] in Hf.
  - destruct Hf as (Hpend & Hm1 & Hne). destruct rest as [|next rest]; [done|]. cbn [analyze_from]. unfold consume.
    destruct (pending_value c'); [|done]. eapply IH; [unfold ltof; cbn; lia|exact Hm1|done|done|done].
  - eapply IH; [unfold ltof; cbn; lia|exact Hf|done|done|done].
Qed.

Lemma offered_options prefix c x :
  x ∈ option_candidates prefix c →
  ∃ o, o ∈ options_here c ∧ (repeatable o = true ∨ long o ∉ used_options c) ∧
    (candidate_value x = "--" +:+ long o ∨ ∃ t, short o = Some t ∧ candidate_value x = "-" +:+ t).
Proof.
  unfold option_candidates. rewrite list_elem_of_In, in_flat_map. intros (o & Ho & Hx). apply filter_In in Ho as [Ho _].
  rewrite <- list_elem_of_In in Ho. rewrite <- list_elem_of_In in Hx. exists o. split; [done|]. unfold candidates_of in Hx.
  destruct (negb (repeatable o) && bool_decide (long o ∈ used_options c)) eqn:E; [by apply not_elem_of_nil in Hx|]. split.
  { destruct (repeatable o); [by left|]. right. cbn in E. by apply bool_decide_eq_false in E. }
  apply elem_of_app in Hx as [Hx|Hx].
  - left. destruct (str_prefix _ _); [|by apply not_elem_of_nil in Hx]. by apply list_elem_of_singleton in Hx as ->.
  - right. destruct (short o) as [t|]; [|by apply not_elem_of_nil in Hx]. exists t. split; [done|].
    destruct (str_prefix _ _); [|by apply not_elem_of_nil in Hx]. by apply list_elem_of_singleton in Hx as ->.
Qed.
End Completion.
Lemma mirrors_new : mirrors state_new context_new.
Proof. split; try done. intros x. cbn. set_solver. Qed.


Module CompletionDemo.
Definition spec : CliSpec := ArgsDemo.app "shift".
Definition behind : ParseState := (parse_words spec ["-v"; "s"; "-m"; "fast"; "7"]%string state_new).2.
Lemma attached : attached_only spec.
Proof.
  intros path o Hp [->%list_elem_of_singleton|Ho]%elem_of_app; [done|]. apply list_elem_of_In, in_flat_map in Ho as (c & Hc & Ho).
  destruct path as [|c1 [|c2 path]]; cbn in Hp; [done| |by destruct Hp as (->%list_elem_of_singleton & ?%not_elem_of_nil & _)].
  destruct Hp as [->%list_elem_of_singleton _]. destruct Hc as [<-|[]]. by destruct Ho as [<-|[]].
Qed.

(** The value of an optional option in a word of its own: the parser takes it, and
    completion counts it as a positional word and offers no command any more. *)
Definition level : OptionSpec :=
  {| long := "level"; short := None; value_mode := Optional; value_name := "VALUE"; value_type := U64Type;
     possible_values := []; option_about := ""; required := false; repeatable := false; detached_optional_value := true;
     terminal := false; option_hidden := false; conflicts_with := []; requires := [] |}.
Definition detached_spec : CliSpec :=
  {| cli_name := "app"; cli_about := ""; version := None; commands := [command_new "run"]; options := [level];
     arguments := []; command_required := true |}.
Example detached_value_hides_commands :
  parse detached_spec ["--level"; "3"; "run"]%string =
    Ok {| command_path := ["run"%string]; parsed_options := [{| parsed_name := "level"; parsed_value := Some "3"%string |}];
          positionals := []; passthrough := [] |} ∧
  complete_words detached_spec {| request_words := ["--level"; "3"; ""]%string; cursor_word := 2 |} = [] ∧
  candidate_value <$> complete_words detached_spec {| request_words := ["--level=3"; ""]%string; cursor_word := 1 |} = ["run"%string].
Proof. vm_compute. repeat split; reflexivity. Qed.
End CompletionDemo.
