(* ===== verification/StorageTree.v ===== *)
(** The file system under the storage provider and the operations on it
    ([crates/appcore-storage/src/storage_file_fs.rs], [storage_tree.rs]): paths
    and their components, links, exclusive creation, renames of files and of
    whole directories, and the bounded walk over a tree.

    A path is the list of the names from the root of the file system, with no
    link on it; a tree gives what is at each path. Each access takes an outcome
    from the script of Files.v, so that it may fail and the process may die at
    every access, and bytes reach a file one at a time. *)

From S2P Require Import Prelude.
From S2P Require Import Text.
From S2P Require Import Types.
From S2P Require Import Files.

Local Open Scope N_scope.

(** ** Errors *)

Inductive StorageError :=
| NotAvailable
| RepositoryNotFound (name : string)
| MigrationFailed (reason : string)
| TransactionFailed (name : string)
| TransactionsUnsupported
| BackupFailed (name : string)
| InvalidPath (path : string)
| SecurityFailed (name : string)
| AuthUnavailable (name : string).
#[export] Instance StorageError_eq_dec : EqDecision StorageError.
Proof. solve_decision. Defined.

(** ** Paths *)

Abbreviation path := (list string).

(** [Path::components] of a text. *)
Inductive component := RootDir | CurDir | ParentDir | Normal (name : string).
#[export] Instance component_eq_dec : EqDecision component.
Proof. solve_decision. Defined.
Definition component_of (part : string) : option component :=
  if bool_decide (part = EmptyString) then None
  else if bool_decide (part = "."%string) then None
  else if bool_decide (part = ".."%string) then Some ParentDir
  else Some (Normal part).
Definition is_absolute (text : string) : bool := str_prefix "/" text.
(** A first part [.] of a relative path is kept, the others are skipped. *)
Definition components (text : string) : list component :=
  let parts := split_on "/" text in
  if is_absolute text then RootDir :: omap component_of parts
  else match parts with
       | "."%string :: rest => CurDir :: omap component_of rest
       | _ => omap component_of parts
       end.
Definition normal_name (c : component) : option string :=
  match c with Normal name => Some name | _ => None end.

Definition parent (p : path) : path := take (pred (length p)) p.
Definition file_name (p : path) : option string := last p.
Definition with_file_name (p : path) (name : string) : path := parent p ++ [name].
(** The text of an absolute path, and of a relative one. *)
Definition relative_text (p : path) : string := String.concat "/" p.
Definition path_text (p : path) : string := "/" +:+ relative_text p.

(** What is left of [q] below [p]. *)
Fixpoint below (p q : path) : option path :=
  match p, q with
  | [], _ => Some q
  | x :: p', y :: q' => if decide (x = y) then below p' q' else None
  | _ :: _, [] => None
  end.

Lemma below_spec p q r : below p q = Some r ↔ q = p ++ r.
Proof.
  revert q. induction p as [|x p IH]; intros [|y q]; cbn; [naive_solver..|].
  case_decide as Hx; [subst; rewrite IH; naive_solver|naive_solver].
Qed.
Lemma below_app p r : below p (p ++ r) = Some r.
Proof. by apply below_spec. Qed.
Lemma below_none p q : below p q = None ↔ ∀ r, q ≠ p ++ r.
Proof.
  destruct (below p q) as [r|] eqn:Hb; [apply below_spec in Hb; naive_solver|].
  split; [|done]. intros _ r ->. by rewrite below_app in Hb.
Qed.

(** Neither path is at or below the other. *)
Definition apart (p q : path) : Prop := below p q = None ∧ below q p = None.
Lemma apart_sym p q : apart p q → apart q p.
Proof. by intros [??]. Qed.
Lemma apart_app p q r s : apart p q → p ++ r ≠ q ++ s.
Proof.
  intros [H1 H2] He. rewrite below_none in H1, H2.
  apply (app_eq_inv p r q s) in He as [(k & -> & _)|(k & -> & _)]; [by eapply H2|by eapply H1].
Qed.
Lemma apart_below p q r : apart p q → below p (q ++ r) = None.
Proof. intros H. apply below_none. intros s Hs. by eapply apart_app; [exact H|]. Qed.
Lemma apart_apps p q r s : apart p q → apart (p ++ r) (q ++ s).
Proof.
  intros H. split; apply below_none; intros k; rewrite <- app_assoc; [by apply not_eq_sym, apart_app|by apply apart_app].
Qed.
Lemma apart_irrefl p : ¬ apart p p.
Proof. intros [H _]. rewrite <- (app_nil_r p) in H at 2. by rewrite below_app in H. Qed.
Lemma apart_siblings p x y r s : x ≠ y → apart (p ++ x :: r) (p ++ y :: s).
Proof.
  intros Hxy. split; apply below_none; intros k; rewrite <- app_assoc; intros He%app_inv_head;
    injection He as He; by subst.
Qed.

(** ** Trees *)

Inductive node := NFile (content : list byte) | NDirectory | NLink | NOther.
#[export] Instance node_eq_dec : EqDecision node.
Proof. solve_decision. Defined.
Abbreviation tree := (gmap path node).
Abbreviation fs_disk := (gdisk path node).

Definition is_dir (fs : tree) (p : path) : bool := bool_decide (fs !! p = Some NDirectory).
(** A path through something that is not a directory. *)
Definition blocked (fs : tree) (p : path) : bool :=
  existsb (λ k, match fs !! take k p with None | Some NDirectory => false | Some _ => true end) (seq 0 (length p)).

(** The tree at a path, and a tree put there. *)
Definition subtree (p : path) (fs : tree) : tree :=
  list_to_map (omap (λ qn, (λ r, (r, qn.2)) <$> below p qn.1) (map_to_list fs)).
Definition graft (p : path) (t : tree) : tree := kmap (p ++.) t.
Definition drop_tree (p : path) (fs : tree) : tree := filter (λ qn, below p qn.1 = None) fs.
Definition move_tree (src dst : path) (fs : tree) : tree :=
  graft dst (subtree src fs) ∪ drop_tree src (drop_tree dst fs).

#[export] Instance path_app_inj (p : path) : Inj (=) (=) (p ++.).
Proof. intros x y. apply app_inv_head. Qed.

Lemma elem_of_subtree_list (p : path) (fs : tree) r n :
  (r, n) ∈ omap (λ qn : path * node, (λ r, (r, qn.2)) <$> below p qn.1) (map_to_list fs) ↔ fs !! (p ++ r) = Some n.
Proof.
  rewrite list_elem_of_omap. split.
  - intros ([q m] & Hq & Hb). cbn in Hb. apply fmap_Some in Hb as (r' & Hr & [= -> ->]).
    apply below_spec in Hr as ->. by apply elem_of_map_to_list in Hq.
  - intros Hn. exists (p ++ r, n). split; [by apply elem_of_map_to_list|]. cbn. by rewrite below_app.
Qed.
Lemma subtree_list_nodup (p : path) (fs : tree) :
  NoDup (omap (λ qn : path * node, (λ r, (r, qn.2)) <$> below p qn.1) (map_to_list fs)).*1.
Proof.
  pose proof (NoDup_fst_map_to_list fs) as Hnd. revert Hnd.
  induction (map_to_list fs) as [|[q n] l IH]; [by constructor|]. cbn. intros [Hn Hnd]%NoDup_cons.
  destruct (below p q) as [r|] eqn:Hb; cbn; [|by apply IH].
  apply NoDup_cons. split; [|by apply IH]. intros Hr. apply list_elem_of_fmap in Hr as ([r' m] & Hm & Hin).
  cbn in Hm. subst r'. apply list_elem_of_omap in Hin as ([q' m'] & Hq' & Hb'). cbn in Hb'.
  apply fmap_Some in Hb' as (r' & Hr' & [= -> ->]). apply below_spec in Hb, Hr'. subst.
  apply Hn. apply list_elem_of_fmap. by exists (p ++ r', m').
Qed.
Lemma lookup_subtree p fs r : subtree p fs !! r = fs !! (p ++ r).
Proof.
  apply option_eq. intros n. unfold subtree.
  rewrite <- elem_of_list_to_map by apply subtree_list_nodup. apply elem_of_subtree_list.
Qed.
Lemma lookup_graft p t r : graft p t !! (p ++ r) = t !! r.
Proof. unfold graft. apply (lookup_kmap (p ++.)). Qed.
Lemma lookup_graft_none p t q : below p q = None → graft p t !! q = None.
Proof.
  intros Hq. unfold graft. apply lookup_kmap_None; [apply _|]. intros r ->. by rewrite below_app in Hq.
Qed.
Lemma lookup_drop p fs q : below p q = None → drop_tree p fs !! q = fs !! q.
Proof.
  intros Hq. unfold drop_tree. rewrite map_lookup_filter. destruct (fs !! q); cbn; [|done]. by rewrite option_guard_True.
Qed.
Lemma lookup_drop_below p fs r : drop_tree p fs !! (p ++ r) = None.
Proof.
  unfold drop_tree. apply map_lookup_filter_None. right. intros x _. cbn. by rewrite below_app.
Qed.

(** What a rename of a tree does at each path. *)
Lemma lookup_move_dst src dst fs r : move_tree src dst fs !! (dst ++ r) = fs !! (src ++ r) ∨ ¬ apart src dst.
Proof.
  destruct (decide (below src dst = None)); [|right; by intros [? ?]].
  destruct (decide (below dst src = None)); [|right; by intros [? ?]]. left.
  unfold move_tree. rewrite lookup_union, lookup_graft, lookup_subtree.
  assert (Ha : apart src dst) by done.
  rewrite lookup_drop by (by apply apart_below). rewrite lookup_drop_below. by destruct (fs !! _).
Qed.
Lemma subtree_move_dst src dst fs : apart src dst → subtree dst (move_tree src dst fs) = subtree src fs.
Proof.
  intros Ha. apply map_eq. intros r. rewrite !lookup_subtree. by destruct (lookup_move_dst src dst fs r).
Qed.
Lemma subtree_move_src src dst fs : apart src dst → subtree src (move_tree src dst fs) = ∅.
Proof.
  intros Ha. apply map_eq. intros r. rewrite lookup_subtree, lookup_empty. unfold move_tree.
  rewrite lookup_union, lookup_graft_none by (by apply apart_below, apart_sym). by rewrite lookup_drop_below.
Qed.
Lemma lookup_move_other src dst fs q :
  below src q = None → below dst q = None → move_tree src dst fs !! q = fs !! q.
Proof.
  intros H1 H2. unfold move_tree. rewrite lookup_union, lookup_graft_none by done.
  rewrite lookup_drop by done. rewrite lookup_drop by done. by destruct (fs !! q).
Qed.
(** A file has nothing below it, so that moving it is a delete and an insert. *)
Lemma subtree_none p fs : subtree p fs = ∅ ↔ ∀ r, fs !! (p ++ r) = None.
Proof.
  split; [intros Hs r; by rewrite <- lookup_subtree, Hs|].
  intros Hs. apply map_eq. intros r. rewrite lookup_subtree, lookup_empty. apply Hs.
Qed.
Lemma subtree_root p fs : subtree p fs !! [] = fs !! p.
Proof. by rewrite lookup_subtree, app_nil_r. Qed.

(** Trees at paths apart from the one that changes stay. *)
Lemma subtree_ext p fs fs' : (∀ r, fs' !! (p ++ r) = fs !! (p ++ r)) → subtree p fs' = subtree p fs.
Proof. intros H. apply map_eq. intros r. by rewrite !lookup_subtree. Qed.
Lemma subtree_insert_other p q n fs : below p q = None → subtree p (<[q := n]> fs) = subtree p fs.
Proof.
  intros Hb. apply subtree_ext. intros r. rewrite lookup_insert_ne; [done|]. intros ->. by rewrite below_app in Hb.
Qed.
Lemma subtree_insert_below p r n fs : subtree p (<[p ++ r := n]> fs) = <[r := n]> (subtree p fs).
Proof.
  apply map_eq. intros s. rewrite lookup_subtree. destruct (decide (r = s)) as [->|Hr].
  - by by rewrite !lookup_insert_eq.
  - rewrite !lookup_insert_ne; [by rewrite lookup_subtree|done|]. by intros ?%app_inv_head.
Qed.
Lemma subtree_drop_other p q fs : apart q p → subtree p (drop_tree q fs) = subtree p fs.
Proof. intros Ha. apply subtree_ext. intros r. apply lookup_drop. by apply apart_below. Qed.
Lemma subtree_drop_same p fs : subtree p (drop_tree p fs) = ∅.
Proof. apply subtree_none. intros r. apply lookup_drop_below. Qed.

(** ** Accesses *)

Section Accesses.
Context {E : Type} (failed : string → E).

(** An access that reads the tree, and one that changes it when it may. *)
Definition observe {A} (f : tree → result E A) : op fs_disk E A :=
  _ ← probe failed; d ← op_get; op_lift (f (files d)).
Definition change (reason : string) (f : tree → option tree) : op fs_disk E () :=
  d ← op_get;
  match f (files d) with
  | Some fs => update_files failed (λ _, fs)
  | None => op_fail (failed reason)
  end.

(** [symlink_metadata]: nothing when there is no entry. *)
Definition metadata (p : path) (fs : tree) : result E (option node) :=
  match fs !! p with
  | Some n => Ok (Some n)
  | None => if blocked fs p then Err (failed "Not a directory") else Ok None
  end.
Definition symlink_metadata (p : path) : op fs_disk E (option node) := observe (metadata p).

Definition create_dir (p : path) : op fs_disk E () :=
  change "File exists" (λ fs,
    if bool_decide (fs !! p = None) && is_dir fs (parent p) then Some (<[p := NDirectory]> fs) else None).
(** [create_dir_all]: the directories on the way that are missing. *)
Fixpoint create_dirs_on (prefixes : list path) : op fs_disk E () :=
  match prefixes with
  | [] => mret ()
  | p :: rest =>
    d ← op_get;
    _ ← match files d !! p with
        | Some NDirectory => probe failed
        | _ => create_dir p
        end;
    create_dirs_on rest
  end.
Definition create_dir_all (p : path) : op fs_disk E () :=
  create_dirs_on (map (λ k, take k p) (seq 1 (length p))).

(** Opening a file that must not exist yet. *)
Definition open_new (p : path) : op fs_disk E () :=
  change "File exists" (λ fs,
    if bool_decide (fs !! p = None) && is_dir fs (parent p) then Some (<[p := NFile []]> fs) else None).
(** [create_new_file] with its check of the opened file. *)
Definition create_new_file (p : path) : op fs_disk E () := _ ← open_new p; probe failed.
Definition append_byte (p : path) (b : byte) (fs : tree) : tree :=
  alter (λ n, match n with NFile c => NFile (c ++ [b]) | _ => n end) p fs.
Definition write_all (p : path) (bytes : list byte) : op fs_disk E () :=
  op_iter (λ b, update_files failed (append_byte p b)) bytes.
(** [open_regular_file] and [read_to_end]. *)
Definition file_content (p : path) (fs : tree) : result E (list byte) :=
  match fs !! p with
  | Some (NFile b) => Ok b
  | _ => Err (failed "filesystem object type is not allowed")
  end.
Definition read_regular_file (p : path) : op fs_disk E (list byte) :=
  _ ← probes failed 2; observe (file_content p).

(** A rename replaces a file, and an empty directory by a directory. *)
Definition rename_allowed (src dst : path) (fs : tree) : bool :=
  match fs !! src, fs !! dst with
  | None, _ => false
  | Some _, None => is_dir fs (parent dst) && bool_decide (below src dst = None)
  | Some NDirectory, Some NDirectory =>
    bool_decide (below src dst = None) && bool_decide (below dst src = None) &&
    bool_decide (size (subtree dst fs) = 1%nat)
  | Some NDirectory, Some _ | Some _, Some NDirectory => false
  | Some _, Some _ => true
  end.
Definition rename (src dst : path) : op fs_disk E () :=
  change "rename" (λ fs, if rename_allowed src dst fs then Some (move_tree src dst fs) else None).
Definition remove_file (p : path) : op fs_disk E () :=
  change "remove" (λ fs,
    match fs !! p with Some NDirectory | None => None | Some _ => Some (delete p fs) end).
(** [remove_dir_all]: what a directory holds goes before it. *)
Definition deeper (p q : path) : Prop := (length q ≤ length p)%nat.
#[local] Instance deeper_dec : RelDecision deeper.
Proof. intros p q. unfold deeper. apply _. Defined.
Definition contents_below (p : path) (fs : tree) : list path :=
  merge_sort deeper (filter (λ q, below p q ≠ None ∧ q ≠ p) (map_to_list fs).*1).
Definition remove_dir_all (p : path) : op fs_disk E () :=
  _ ← probe failed;
  d ← op_get;
  if is_dir (files d) p then
    _ ← op_iter (λ q, update_files failed (delete q)) (contents_below p (files d));
    update_files failed (delete p)
  else op_fail (failed "Not a directory").

Definition sync_directory (p : path) : op fs_disk E () :=
  _ ← probes failed 2;
  observe (λ fs, if is_dir fs p then Ok () else Err (failed "filesystem object type is not allowed")).
Definition fsync_parent (p : path) : op fs_disk E () := sync_directory (parent p).

Definition reject_link_if_present (p : path) : op fs_disk E () :=
  m ← symlink_metadata p;
  match m with
  | Some NLink => op_fail (failed "refusing to replace a filesystem link")
  | _ => mret ()
  end.
(** [write_atomic_file_inner] as the program is built: no injected fault. *)
Definition write_atomic_file (tmp final_path : path) (bytes : list byte) : op fs_disk E () :=
  _ ← create_new_file tmp;
  _ ← write_all tmp bytes;
  _ ← probe failed;
  _ ← reject_link_if_present final_path;
  _ ← rename tmp final_path;
  fsync_parent final_path.
End Accesses.

(** ** [storage_file_fs.rs] on paths of the provider *)

Abbreviation storage_op A := (op fs_disk StorageError A).
Abbreviation unavailable := (λ _ : string, NotAvailable).

Definition ensure_real_directory (p : path) : storage_op () :=
  m ← symlink_metadata unavailable p;
  match m with
  | None => op_fail NotAvailable
  | Some NDirectory => mret ()
  | Some _ => op_fail (InvalidPath (path_text p))
  end.
Definition create_real_directory_all (p : path) : storage_op () :=
  m ← symlink_metadata unavailable p;
  match m with
  | Some _ => ensure_real_directory p
  | None =>
    _ ← create_dir_all unavailable p;
    ensure_real_directory p
  end.
Definition path_exists_no_follow (p : path) : storage_op bool :=
  m ← symlink_metadata unavailable p;
  match m with
  | Some NLink => op_fail (InvalidPath (path_text p))
  | Some _ => mret true
  | None => mret false
  end.
(** The answer when the metadata cannot be read is no. *)
Definition path_is_real_directory (p : path) : storage_op bool := λ d,
  match symlink_metadata unavailable p d with
  | (Ok m, d') => (Ok (bool_decide (m = Some NDirectory)), d')
  | (Err _, d') => (Ok false, d')
  end.

Fixpoint resolve_components (relative : string) (current : path) (cs : list component) : storage_op path :=
  match cs with
  | [] => mret current
  | Normal part :: rest =>
    m ← symlink_metadata unavailable (current ++ [part]);
    match m with
    | Some NLink => op_fail (InvalidPath relative)
    | _ => resolve_components relative (current ++ [part]) rest
    end
  | CurDir :: rest => resolve_components relative current rest
  | _ => op_fail (InvalidPath relative)
  end.
Definition resolve_under_root (root : path) (relative : string) : storage_op path :=
  if bool_decide (relative = EmptyString) || is_absolute relative then op_fail (InvalidPath relative)
  else
    m ← symlink_metadata unavailable root;
    match m with
    | None | Some NDirectory => resolve_components relative root (components relative)
    | Some _ => op_fail (InvalidPath (path_text root))
    end.

(** The process and thread that name a temporary file. *)
Record process := { pid : N; thread_id : string }.
Fixpoint str_filter (f : ascii → bool) (s : string) : string :=
  match s with
  | EmptyString => EmptyString
  | String c s' => if f c then String c (str_filter f s') else str_filter f s'
  end.
(** [tmp_path_for] with the value that the process-wide counter gives. *)
Definition tmp_path_for (self : process) (counter : N) (p : path) : path :=
  with_file_name p
    (default "tmp"%string (file_name p) +:+ "." +:+ show_u64 (pid self) +:+ "_" +:+
     str_filter is_ascii_alphanumeric (thread_id self) +:+ "_" +:+ show_u64 counter +:+ ".tmp").

(** ** [storage_tree.rs] *)

Definition MAX_STORAGE_TREE_DEPTH : nat := 128.
Definition MAX_STORAGE_TREE_DIRECTORIES : N := 16384.
Definition MAX_STORAGE_TREE_ENTRIES : N := 200000.

Inductive StorageTreeEntryKind := KindFile | KindDirectory | KindLink | KindOther.
#[export] Instance StorageTreeEntryKind_eq_dec : EqDecision StorageTreeEntryKind.
Proof. solve_decision. Defined.
Record StorageTreeEntry := { entry_path : path; kind : StorageTreeEntryKind }.
Definition kind_of (n : node) : StorageTreeEntryKind :=
  match n with NFile _ => KindFile | NDirectory => KindDirectory | NLink => KindLink | NOther => KindOther end.
Definition limit_error (limit : string) : StorageError :=
  InvalidPath ("storage traversal " +:+ limit +:+ " limit exceeded").

Definition children (dir : path) (fs : tree) : list string :=
  omap (λ q, match below dir q with Some [name] => Some name | _ => None end) (map_to_list fs).*1.

(** The order in which the operating system lists a directory. *)
Class DirectoryOrder := directory_order : path → list string → list string.
Class DirectoryOrderLaws `{DirectoryOrder} := directory_order_perm : ∀ p names, directory_order p names ≡ₚ names.

Section Walk.
Context `{DirectoryOrder}.

Definition read_dir (dir : path) : storage_op (list string) :=
  observe unavailable (λ fs, if is_dir fs dir then Ok (directory_order dir (children dir fs)) else Err NotAvailable).

(** The directories to read with their depths, the directories counted and the
    entries found. *)
Record walk := { pending : list (path * nat); directory_count : N; entries : list StorageTreeEntry }.

Definition push_entry (p : path) (n : node) (w : walk) : walk :=
  {| pending := pending w; directory_count := directory_count w;
     entries := entries w ++ [{| entry_path := p; kind := kind_of n |}] |}.
Definition push_directory (p : path) (depth : nat) (w : walk) : walk :=
  {| pending := (p, depth) :: pending w; directory_count := directory_count w + 1; entries := entries w |}.
Definition visit_entry (dir : path) (depth : nat) (w : walk) (name : string) : storage_op walk :=
  _ ← probe unavailable;
  if MAX_STORAGE_TREE_ENTRIES <=? lenN (entries w) then op_fail (limit_error "entry")
  else
    let p := dir ++ [name] in
    m ← symlink_metadata unavailable p;
    match m with
    | None => op_fail NotAvailable
    | Some NDirectory =>
      if (MAX_STORAGE_TREE_DEPTH <=? depth)%nat then op_fail (limit_error "depth")
      else if MAX_STORAGE_TREE_DIRECTORIES <? directory_count w + 1 then op_fail (limit_error "directory")
      else mret (push_entry p NDirectory (push_directory p (S depth) w))
    | Some n => mret (push_entry p n w)
    end.
Fixpoint visit_entries (dir : path) (depth : nat) (w : walk) (names : list string) : storage_op walk :=
  match names with
  | [] => mret w
  | name :: rest => w' ← visit_entry dir depth w name; visit_entries dir depth w' rest
  end.
(** One directory at a time, the last one found first. *)
Fixpoint walk_tree (fuel : nat) (w : walk) : storage_op (list StorageTreeEntry) :=
  match pending w, fuel with
  | [], _ => mret (entries w)
  | _, O => op_fail (limit_error "directory")
  | (dir, depth) :: rest, S fuel' =>
    _ ← ensure_real_directory dir;
    names ← read_dir dir;
    w' ← visit_entries dir depth
           {| pending := rest; directory_count := directory_count w; entries := entries w |} names;
    walk_tree fuel' w'
  end.
Definition walk_from (root : path) : walk := {| pending := [(root, O)]; directory_count := 1; entries := [] |}.
Definition bounded_tree_entries (root : path) : storage_op (list StorageTreeEntry) :=
  _ ← ensure_real_directory root;
  walk_tree (N.to_nat MAX_STORAGE_TREE_DIRECTORIES) (walk_from root).
End Walk.
