(* ===== verification/StorageWalk.v ===== *)
(** What the accesses of StorageTree.v leave, as triples over the tree, and the
    bounded walk: its fuel is enough, and it lists each entry once. *)

From S2P Require Import Prelude.
From S2P Require Import Text.
From S2P Require Import Types.
From S2P Require Import Files.
From S2P Require Import StorageTree.

Local Open Scope N_scope.

(** ** Triples of the accesses *)

Section Accesses.
Context {E : Type} {failed : string → E} (X : tree → Prop).
Implicit Types V W : tree → Prop.

Lemma triple_observe {A} V (f : tree → result E A) :
  (∀ fs, V fs → X fs) → triple X V (observe failed f) (λ a fs, V fs ∧ f fs = Ok a).
Proof.
  intros HV. unfold observe. apply (triple_bind _ _ _ _ (λ _, V)); [by apply triple_probe|intros []].
  apply hoare_get_bind. intros d Hd. apply hoare_lift. intros s ->. unfold on.
  destruct (f (files d)) eqn:Hf; [done|by apply HV].
Qed.
Lemma triple_change V W reason f :
  (∀ fs, V fs → X fs) → (∀ fs fs', V fs → f fs = Some fs' → X fs' ∧ W fs') →
  triple X V (change failed reason f) (λ _, W).
Proof.
  intros HV Hf. unfold change. apply hoare_get_bind. intros d Hd. destruct (f (files d)) as [fs'|] eqn:Hfs.
  - apply (hoare_pre _ (on V)); [|by intros ? ->].
    apply triple_update. intros fs Hv. destruct (Hf _ _ Hd Hfs). by split_and!; [apply HV|..].
  - apply hoare_fail. intros s ->. by apply HV.
Qed.
(** An operation that changes nothing may be studied on one tree. *)
Lemma triple_fixed {A} V (o : op fs_disk E A) (Q : A → tree → Prop) :
  (∀ fs, V fs → triple X (eq fs) o (λ a fs', fs' = fs ∧ Q a fs)) →
  triple X V o (λ a fs', V fs' ∧ Q a fs').
Proof.
  intros Ho d Hd. specialize (Ho _ Hd d eq_refl). destruct (o d) as [[a|e] d']; [|done].
  unfold on in *. destruct Ho as [-> ?]. done.
Qed.
(** The state before may be fixed. *)
Lemma triple_each {A} V (o : op fs_disk E A) (Q : A → tree → Prop) :
  (∀ fs, V fs → triple X (eq fs) o Q) → triple X V o Q.
Proof. intros Ho d Hd. exact (Ho _ Hd d eq_refl). Qed.
Lemma triple_post {A} V (o : op fs_disk E A) (Q Q' : A → tree → Prop) :
  triple X V o Q → (∀ a fs, Q a fs → Q' a fs) → triple X V o Q'.
Proof. intros Ho HQ d Hd. specialize (Ho d Hd). destruct (o d) as [[a|e] d']; [by apply HQ|done]. Qed.
Lemma triple_get_bind {A} V (k : fs_disk → op fs_disk E A) Q :
  (∀ d, V (files d) → triple X (eq (files d)) (k d) Q) → triple X V (op_get ≫= k) Q.
Proof.
  intros Hk. apply hoare_get_bind. intros d Hd. apply (hoare_pre _ (on (eq (files d)))); [by apply Hk|].
  by intros ? ->.
Qed.
Lemma triple_iter {A} V (f : A → op fs_disk E ()) l :
  (∀ fs, V fs → X fs) → (∀ a, triple X V (f a) (λ _, V)) → triple X V (op_iter f l) (λ _, V).
Proof.
  intros HV Hf. induction l as [|a l IH]; cbn [op_iter]; [by apply hoare_ret|].
  apply (triple_bind _ _ _ _ (λ _, V)); [apply Hf|by intros []].
Qed.

Lemma triple_metadata V p :
  (∀ fs, V fs → X fs) → triple X V (symlink_metadata failed p) (λ m fs, V fs ∧ fs !! p = m).
Proof.
  intros HV. eapply triple_post; [by apply triple_observe|]. intros m fs [Hv Hm]. split; [done|].
  unfold metadata in Hm. destruct (fs !! p); [by injection Hm|]. by destruct (blocked fs p); [|injection Hm].
Qed.
Lemma triple_read_regular V p :
  (∀ fs, V fs → X fs) → triple X V (read_regular_file failed p) (λ b fs, V fs ∧ fs !! p = Some (NFile b)).
Proof.
  intros HV. unfold read_regular_file. apply (triple_bind _ _ _ _ (λ _, V)); [by apply triple_probes|intros []].
  eapply triple_post; [by apply triple_observe|]. intros b fs [Hv Hb]. split; [done|].
  unfold file_content in Hb. by destruct (fs !! p) as [[]|]; try done; injection Hb as ->.
Qed.
Lemma triple_sync V p :
  (∀ fs, V fs → X fs) → triple X V (sync_directory failed p) (λ _ fs, V fs ∧ fs !! p = Some NDirectory).
Proof.
  intros HV. unfold sync_directory. apply (triple_bind _ _ _ _ (λ _, V)); [by apply triple_probes|intros []].
  eapply triple_post; [by apply triple_observe|]. intros [] fs [Hv Hb]. split; [done|].
  unfold is_dir in Hb. by case_bool_decide.
Qed.
Lemma triple_sync_keep V p : (∀ fs, V fs → X fs) → triple X V (sync_directory failed p) (λ _, V).
Proof. intros HV. eapply triple_post; [by apply triple_sync|]. by intros ? ? []. Qed.
Lemma triple_create_dir V W p :
  (∀ fs, V fs → X fs) →
  (∀ fs, V fs → fs !! p = None → fs !! parent p = Some NDirectory →
         X (<[p := NDirectory]> fs) ∧ W (<[p := NDirectory]> fs)) →
  triple X V (create_dir failed p) (λ _, W).
Proof.
  intros HV Hp. apply triple_change; [done|]. intros fs fs' Hv Hf.
  unfold is_dir in Hf. destruct (decide (fs !! p = None)) as [Hn|Hn].
  - rewrite (bool_decide_eq_true_2 _ Hn) in Hf. cbn in Hf.
    destruct (decide (fs !! parent p = Some NDirectory)) as [Hd|Hd].
    + rewrite (bool_decide_eq_true_2 _ Hd) in Hf. injection Hf as <-. by apply Hp.
    + by rewrite (bool_decide_eq_false_2 _ Hd) in Hf.
  - by rewrite (bool_decide_eq_false_2 _ Hn) in Hf.
Qed.
Lemma triple_create_dirs V ps :
  (∀ fs, V fs → X fs) → 
  (∀ p fs, p ∈ ps → V fs → fs !! p = None → fs !! parent p = Some NDirectory → V (<[p := NDirectory]> fs)) →
  triple X V (create_dirs_on failed ps) (λ _ fs, V fs ∧ ∀ p, last ps = Some p → fs !! p = Some NDirectory).
Proof.
  intros HV. revert V HV. induction ps as [|p ps IH]; intros V HV Hp; cbn [create_dirs_on]; [by apply hoare_ret|].
  apply triple_get_bind. intros d Hd.
  apply (triple_bind _ _ _ _ (λ _ fs, V fs ∧ fs !! p = Some NDirectory)).
  - assert (Hc : triple X (eq (files d)) (create_dir failed p) (λ _ fs, V fs ∧ fs !! p = Some NDirectory)).
    { apply triple_create_dir; [by intros ? <-; apply HV|]. intros fs <- Hn Hpar.
      assert (HV' : V (<[p := NDirectory]> (files d))) by (apply Hp; [left|done..]).
      split_and!; [by apply HV|done|by rewrite lookup_insert_eq]. }
    destruct (files d !! p) as [[]|] eqn:Hf; try exact Hc.
    apply (triple_post _ _ (λ _, eq (files d))); [apply triple_probe; by intros ? <-; apply HV|by intros ? ? <-].
  - intros []. destruct ps as [|q ps]; [apply hoare_ret; intros s []; split; [done|by intros ? [= <-]]|].
    eapply triple_post; [apply (IH (λ fs, V fs ∧ fs !! p = Some NDirectory))|].
    + intros fs [? _]. by apply HV.
    + intros x fs Hx [Hv Hd'] Hn Hpar. split; [apply Hp; [by right|done..]|].
      destruct (decide (x = p)) as [->|Hxp]; [by rewrite lookup_insert_eq|by rewrite lookup_insert_ne].
    + intros [] fs [[? _] Hl]. done.
Qed.

(** Bytes that are written are appended to the file. *)
Lemma triple_write_all V W p c bytes :
  (∀ fs c', V fs → fs !! p = Some (NFile c) → X (<[p := NFile c']> fs)) →
  (∀ fs, V fs → fs !! p = Some (NFile c) → W (<[p := NFile (c ++ bytes)]> fs)) →
  triple X (λ fs, V fs ∧ fs !! p = Some (NFile c)) (write_all failed p bytes) (λ _, W).
Proof.
  intros HX HW. unfold write_all.
  assert (Hgo : ∀ done rest, bytes = done ++ rest →
    triple X (λ fs, ∃ fs0, V fs0 ∧ fs0 !! p = Some (NFile c) ∧ fs = <[p := NFile (c ++ done)]> fs0)
      (op_iter (λ b, update_files failed (append_byte p b)) rest) (λ _, W)).
  { intros l rest. revert l. induction rest as [|b rest IH]; intros l Hl; cbn [op_iter].
    - apply hoare_ret. intros s (fs0 & Hv & Hf & Hs). rewrite app_nil_r in Hl. subst l.
      unfold on. rewrite Hs. by apply HW.
    - apply (triple_bind _ _ _ _ (λ _ fs, ∃ fs0, V fs0 ∧ fs0 !! p = Some (NFile c) ∧ fs = <[p := NFile (c ++ l ++ [b])]> fs0));
        [|intros []; apply IH; by rewrite Hl, <- app_assoc].
      apply triple_update. intros fs (fs0 & Hv & Hf & ->).
      assert (Ha : append_byte p b (<[p := NFile (c ++ l)]> fs0) = <[p := NFile (c ++ l ++ [b])]> fs0).
      { unfold append_byte. apply map_eq. intros q. destruct (decide (q = p)) as [->|Hq].
        - rewrite lookup_alter_eq, !lookup_insert_eq. cbn. by rewrite app_assoc.
        - by rewrite lookup_alter_ne, !lookup_insert_ne. }
      rewrite Ha. split_and!; [by apply HX..|by exists fs0]. }
  eapply triple_pre; [apply (Hgo []); done|]. intros fs [Hv Hf]. exists fs. split_and!; [done..|].
  by rewrite app_nil_r, insert_id.
Qed.
Lemma triple_open_new V W p :
  (∀ fs, V fs → X fs) →
  (∀ fs, V fs → fs !! p = None → fs !! parent p = Some NDirectory → W (<[p := NFile []]> fs)) →
  (∀ fs, W fs → X fs) → triple X V (open_new failed p) (λ _, W).
Proof.
  intros HV Hp HW. apply triple_change; [done|]. intros fs fs' Hv Hf. unfold is_dir in Hf.
  destruct (decide (fs !! p = None)) as [Hn|Hn]; [|by rewrite (bool_decide_eq_false_2 _ Hn) in Hf].
  rewrite (bool_decide_eq_true_2 _ Hn) in Hf. cbn in Hf.
  destruct (decide (fs !! parent p = Some NDirectory)) as [Hd|Hd]; [|by rewrite (bool_decide_eq_false_2 _ Hd) in Hf].
  rewrite (bool_decide_eq_true_2 _ Hd) in Hf. injection Hf as <-. pose proof (Hp _ Hv Hn Hd). by split; [apply HW|].
Qed.
Lemma triple_create_file V W p :
  (∀ fs, V fs → X fs) →
  (∀ fs, V fs → fs !! p = None → fs !! parent p = Some NDirectory → W (<[p := NFile []]> fs)) →
  (∀ fs, W fs → X fs) → triple X V (create_new_file failed p) (λ _, W).
Proof.
  intros HV Hp HW. unfold create_new_file. apply (triple_bind _ _ _ _ (λ _, W)); [by apply triple_open_new|intros []].
  by apply triple_probe.
Qed.
Lemma triple_rename V W src dst :
  (∀ fs, V fs → X fs) →
  (∀ fs, V fs → rename_allowed src dst fs = true → X (move_tree src dst fs) ∧ W (move_tree src dst fs)) →
  triple X V (rename failed src dst) (λ _, W).
Proof.
  intros HV Hr. apply triple_change; [done|]. intros fs fs' Hv Hf.
  destruct (rename_allowed src dst fs) eqn:Ha; [|done]. injection Hf as <-. by apply Hr.
Qed.
End Accesses.

(** Removing a directory leaves it in place until all below it is gone. *)
Lemma triple_remove_dir_all {E} (failed : string → E) (X : tree → Prop) p fs1 :
  X fs1 → X (drop_tree p fs1) →
  (∀ fs, (∀ q, below p q = None → fs !! q = fs1 !! q) → fs !! p = Some NDirectory → X fs) →
  triple X (eq fs1) (remove_dir_all failed p) (λ _ fs, fs = drop_tree p fs1).
Proof.
  intros H1 H2 Hmid. unfold remove_dir_all. apply (triple_bind _ _ _ _ (λ _, eq fs1)); [by apply triple_probe; intros ? <-|].
  intros []. apply triple_get_bind. intros d Hd. rewrite <- Hd. unfold is_dir.
  destruct (decide (fs1 !! p = Some NDirectory)) as [Hp|Hp];
    [rewrite bool_decide_eq_true_2 by done|rewrite bool_decide_eq_false_2 by done; by apply triple_fail; intros ? <-].
  assert (Hlist : ∀ q, q ∈ contents_below p fs1 ↔ is_Some (fs1 !! q) ∧ below p q ≠ None ∧ q ≠ p).
  { intros q. unfold contents_below. rewrite merge_sort_Permutation, list_elem_of_filter.
    assert (Hk : q ∈ (map_to_list fs1).*1 ↔ is_Some (fs1 !! q)).
    { rewrite list_elem_of_fmap. split.
      - intros ([q' n] & -> & Hin). apply elem_of_map_to_list in Hin. by exists n.
      - intros [n Hn]. exists (q, n). split; [done|]. by apply elem_of_map_to_list. }
    rewrite Hk. naive_solver. }
  assert (Hgo : ∀ rest, (∀ q, q ∈ rest → below p q ≠ None ∧ q ≠ p) →
    triple X (λ fs, (∀ q, below p q = None → fs !! q = fs1 !! q) ∧ fs !! p = Some NDirectory ∧
                    ∀ q, below p q ≠ None → q ≠ p → q ∉ rest → fs !! q = None)
      (op_iter (λ q, update_files failed (delete q)) rest)
      (λ _ fs, (∀ q, below p q = None → fs !! q = fs1 !! q) ∧ fs !! p = Some NDirectory ∧
               ∀ q, below p q ≠ None → q ≠ p → fs !! q = None)).
  { induction rest as [|x rest IH]; intros Hrest; cbn [op_iter].
    - apply hoare_ret. intros s (Ha & Hb & Hc). split_and!; [done..|]. intros q Hq Hne. by apply Hc, not_elem_of_nil.
    - destruct (Hrest x) as [Hx Hxp]; [by left|].
      apply (triple_bind _ _ _ _ (λ _ fs, (∀ q, below p q = None → fs !! q = fs1 !! q) ∧ fs !! p = Some NDirectory ∧
        ∀ q, below p q ≠ None → q ≠ p → q ∉ rest → fs !! q = None));
        [|intros []; apply IH; intros q Hq; apply Hrest; by right].
      apply triple_update. intros fs (Ha & Hb & Hc). 
      assert (Ha' : ∀ q, below p q = None → delete x fs !! q = fs1 !! q).
      { intros q Hq. rewrite lookup_delete_ne; [by apply Ha|]. by intros ->. }
      assert (Hb' : delete x fs !! p = Some NDirectory) by (by rewrite lookup_delete_ne).
      split_and!; [by apply Hmid|by apply Hmid|done..|]. intros q Hq Hne Hin.
      destruct (decide (q = x)) as [->|Hqx]; [by rewrite lookup_delete_eq|rewrite lookup_delete_ne by done].
      apply Hc; [done..|]. intros Hin'%elem_of_cons. naive_solver. }
  eapply triple_bind.
  - apply (triple_pre _ _ _ _ _ (Hgo (contents_below p fs1) (λ q Hq, proj2 (proj1 (Hlist q) Hq)))).
    intros fs <-. split_and!; [done..|]. intros q Hq Hne Hin. destruct (fs1 !! q) eqn:Hf; [|done].
    exfalso. apply Hin, Hlist. split_and!; [by eexists|done..].
  - intros []. apply triple_update. intros fs (Ha & Hb & Hc).
    assert (Hdrop : delete p fs = drop_tree p fs1).
    { apply map_eq. intros q. destruct (below p q) as [r|] eqn:Hq.
      - apply below_spec in Hq as ->. rewrite lookup_drop_below. destruct (decide (r = [])) as [->|Hr].
        + by rewrite app_nil_r, lookup_delete_eq.
        + assert (Hne : p ++ r ≠ p) by (intros He; apply Hr; by rewrite <- (app_nil_r p) in He at 2; apply app_inv_head in He).
          rewrite lookup_delete_ne by done. apply Hc; [by rewrite below_app|done].
      - rewrite lookup_drop by done. rewrite lookup_delete_ne; [by apply Ha|]. intros <-.
        rewrite <- (app_nil_r p) in Hq at 2. by rewrite below_app in Hq. }
    rewrite Hdrop. split_and!; [by apply Hmid|done..].
Qed.

(** ** Paths of the provider *)

Section Paths.
Context (X : tree → Prop).
Implicit Types V W : tree → Prop.

Lemma ensure_real_directory_spec V p :
  (∀ fs, V fs → X fs) → triple X V (ensure_real_directory p) (λ _ fs, V fs ∧ fs !! p = Some NDirectory).
Proof.
  intros HV. unfold ensure_real_directory. eapply triple_bind; [by apply triple_metadata|]. cbn beta. intros m.
  destruct m as [[]|]; try (by apply hoare_fail; intros s [Hv _]; apply HV). by apply hoare_ret.
Qed.
Lemma path_exists_spec V p :
  (∀ fs, V fs → X fs) →
  triple X V (path_exists_no_follow p) (λ b fs, V fs ∧ fs !! p ≠ Some NLink ∧ (b = true ↔ is_Some (fs !! p))).
Proof.
  intros HV. unfold path_exists_no_follow. eapply triple_bind; [by apply triple_metadata|]. cbn beta. intros m.
  destruct m as [[]|]; try (by apply hoare_fail; intros s [Hv _]; apply HV);
    apply hoare_ret; intros s [Hv Hp]; unfold on; rewrite Hp; (split_and!; [done..|]).
  1-3: by split; [intros _; eexists|].
  split; [done|by intros [? ?]].
Qed.

(** A text that stays below the root, and the names it leads through. *)
Definition confined (relative : string) (names : path) : Prop :=
  relative ≠ EmptyString ∧ is_absolute relative = false ∧
  Forall (λ c, c = CurDir ∨ ∃ name, c = Normal name) (components relative) ∧
  names = omap normal_name (components relative).

Lemma resolve_components_spec V relative current cs :
  (∀ fs, V fs → X fs) →
  triple X V (resolve_components relative current cs)
    (λ q fs, V fs ∧ Forall (λ c, c = CurDir ∨ ∃ name, c = Normal name) cs ∧ q = current ++ omap normal_name cs ∧
             ∀ k, (0 < k ≤ length (omap normal_name cs))%nat → fs !! (current ++ take k (omap normal_name cs)) ≠ Some NLink).
Proof.
  revert V current. induction cs as [|c cs IH]; intros V current HV; cbn [resolve_components].
  - apply hoare_ret. intros s Hv. unfold on. cbn. rewrite app_nil_r. split_and!; [done..|]. intros k. cbn. lia.
  - destruct c as [| | |part].
    1,3: by apply hoare_fail; intros s Hv; apply HV.
    + eapply triple_post; [by apply IH|]. intros q fs (Hv & Hall & -> & Hl). cbn. split_and!; [done| |done..].
      constructor; [by left|done].
    + eapply triple_bind; [by apply triple_metadata|]. cbn beta. intros m.
      assert (Hgo : m ≠ Some NLink → triple X (λ fs, V fs ∧ fs !! (current ++ [part]) = m)
        (resolve_components relative (current ++ [part]) cs)
        (λ q fs, V fs ∧ Forall (λ c, c = CurDir ∨ ∃ name, c = Normal name) (Normal part :: cs) ∧
                 q = current ++ omap normal_name (Normal part :: cs) ∧
                 ∀ k, (0 < k ≤ length (omap normal_name (Normal part :: cs)))%nat →
                      fs !! (current ++ take k (omap normal_name (Normal part :: cs))) ≠ Some NLink)).
      { intros Hm. eapply triple_post; [apply IH; by intros fs []; apply HV|].
        intros q fs ((Hv & Hp) & Hall & -> & Hl). cbn. rewrite <- app_assoc. split_and!; [done| |done|].
        - constructor; [right; by exists part|done].
        - intros [|k] Hk; [lia|]. destruct k as [|k]; [intros Hx; apply Hm; rewrite <- Hx, <- Hp; done|].
          specialize (Hl (S k)). rewrite <- app_assoc in Hl. apply Hl. cbn in *. lia. }
      destruct m as [[]|]; try (by apply Hgo). by apply hoare_fail; intros s [Hv _]; apply HV.
Qed.
Lemma resolve_spec V root relative :
  (∀ fs, V fs → X fs) →
  triple X V (resolve_under_root root relative)
    (λ q fs, V fs ∧ ∃ names, confined relative names ∧ q = root ++ names ∧
             (∀ k, (k ≤ length names)%nat → fs !! (root ++ take k names) ≠ Some NLink) ∧
             (fs !! root = None ∨ fs !! root = Some NDirectory)).
Proof.
  intros HV. unfold resolve_under_root.
  destruct (bool_decide (relative = EmptyString) || is_absolute relative) eqn:He; [by apply hoare_fail; intros s Hv; apply HV|].
  apply orb_false_iff in He as [He Ha]. apply bool_decide_eq_false in He.
  eapply triple_bind; [by apply triple_metadata|]. cbn beta. intros m.
  assert (Hgo : m = None ∨ m = Some NDirectory → triple X (λ fs, V fs ∧ fs !! root = m)
    (resolve_components relative root (components relative))
    (λ q fs, V fs ∧ ∃ names, confined relative names ∧ q = root ++ names ∧
             (∀ k, (k ≤ length names)%nat → fs !! (root ++ take k names) ≠ Some NLink) ∧
             (fs !! root = None ∨ fs !! root = Some NDirectory))).
  { intros Hm. eapply triple_post; [apply resolve_components_spec; by intros fs []; apply HV|].
    intros q fs ((Hv & Hr) & Hall & -> & Hl). split; [done|]. eexists. split_and!; [done|done| |by rewrite Hr].
    intros [|k] Hk; [rewrite take_0, app_nil_r, Hr; by destruct Hm as [-> | ->]|]. apply Hl. lia. }
  destruct m as [[]|]; try (by apply hoare_fail; intros s [Hv _]; apply HV); apply Hgo; auto.
Qed.

(** Names are plain: no way leads out through them. *)
Definition plain_name (name : string) : Prop :=
  name ≠ EmptyString ∧ name ≠ "."%string ∧ name ≠ ".."%string ∧ str_free "/" name.
Lemma split_on_parts c s : Forall (str_free c) (split_on c s).
Proof.
  induction s as [|b s IH]; cbn [split_on]; [by repeat constructor|].
  case_bool_decide as Hb; [by constructor|].
  destruct (split_on c s) as [|t l]; [by repeat constructor|]. apply Forall_cons in IH as [Ht Hl]. constructor; [|done].
  by split.
Qed.
Lemma component_plain part name :
  str_free "/" part → component_of part = Some (Normal name) → plain_name name.
Proof.
  unfold component_of. intros Hf. repeat case_bool_decide; intros [= <-]. by split_and!.
Qed.
Lemma confined_plain relative names : confined relative names → Forall plain_name names.
Proof.
  intros (_ & _ & _ & ->). rewrite Forall_forall. intros name Hn.
  apply list_elem_of_omap in Hn as ([| | |n] & Hin & Hc); try done. cbn in Hc. injection Hc as ->.
  assert (Hp : Normal name ∈ omap component_of (split_on "/" relative)).
  { unfold components in Hin. destruct (is_absolute relative).
    - apply elem_of_cons in Hin as [Hin|Hin]; done.
    - destruct (split_on "/" relative) as [|p l] eqn:Hs; [done|].
      destruct (decide (p = "."%string)) as [->|Hp]; [|by destruct p as [|[[] [] [] [] [] [] [] []] []]].
      cbn in Hin. apply elem_of_cons in Hin as [Hin|Hin]; [done|]. cbn. done. }
  apply list_elem_of_omap in Hp as (part & Hin' & Hc).
  eapply component_plain; [|done]. pose proof (split_on_parts "/" relative) as Hall.
  rewrite Forall_forall in Hall. by apply Hall.
Qed.
End Paths.

(** ** The walk *)

(** The entries strictly below a directory. *)
Definition inside (dir : path) (q : path) : Prop := ∃ name r, q = dir ++ name :: r.
#[export] Instance inside_dec dir q : Decision (inside dir q).
Proof.
  destruct (below dir q) as [[|name r]|] eqn:Hb.
  - right. intros (name & r & ->). by rewrite below_app in Hb.
  - left. exists name, r. by apply below_spec.
  - right. intros (name & r & ->). by rewrite below_app in Hb.
Defined.
Definition strictly_below (dir : path) (fs : tree) : list path := filter (inside dir) (map_to_list fs).*1.

Lemma elem_of_keys (fs : tree) q : q ∈ (map_to_list fs).*1 ↔ is_Some (fs !! q).
Proof.
  rewrite list_elem_of_fmap. split.
  - intros ([q' n] & -> & Hin). apply elem_of_map_to_list in Hin. by exists n.
  - intros [n Hn]. exists (q, n). split; [done|]. by apply elem_of_map_to_list.
Qed.
Lemma elem_of_strictly_below dir fs q : q ∈ strictly_below dir fs ↔ inside dir q ∧ is_Some (fs !! q).
Proof. unfold strictly_below. by rewrite list_elem_of_filter, elem_of_keys. Qed.
Lemma strictly_below_nodup dir fs : NoDup (strictly_below dir fs).
Proof. apply NoDup_filter, NoDup_fst_map_to_list. Qed.
Lemma elem_of_children dir fs name : name ∈ children dir fs ↔ is_Some (fs !! (dir ++ [name])).
Proof.
  unfold children. rewrite list_elem_of_omap. split.
  - intros (q & Hq & Hb). apply elem_of_keys in Hq. destruct (below dir q) as [[|x [|]]|] eqn:Hd; try done.
    injection Hb as ->. apply below_spec in Hd as ->. done.
  - intros Hs. exists (dir ++ [name]). split; [by apply elem_of_keys|]. by rewrite below_app.
Qed.
Lemma children_nodup dir fs : NoDup (children dir fs).
Proof.
  unfold children. pose proof (NoDup_fst_map_to_list fs) as Hnd. revert Hnd.
  induction ((map_to_list fs).*1) as [|q l IH]; [by constructor|]. intros [Hq Hnd]%NoDup_cons. cbn.
  destruct (below dir q) as [[|x [|]]|] eqn:Hd; try by apply IH. apply NoDup_cons. split; [|by apply IH].
  intros (q' & Hq' & Hb)%list_elem_of_omap. destruct (below dir q') as [[|y [|]]|] eqn:Hd'; try done.
  injection Hb as ->. apply below_spec in Hd, Hd'. by subst.
Qed.

(** Below the root, what holds an entry is a directory. *)
Definition parents_exist (root : path) (fs : tree) : Prop :=
  ∀ r name, is_Some (fs !! (root ++ r ++ [name])) → fs !! (root ++ r) = Some NDirectory.

Definition with_below (fs : tree) (p : path) : list path := p :: strictly_below p fs.
Lemma parents_exist_prefix root fs r s :
  parents_exist root fs → is_Some (fs !! (root ++ r ++ s)) → s ≠ [] → fs !! (root ++ r) = Some NDirectory.
Proof.
  intros Hp. revert r. induction s as [|x s IH]; intros r Hs Hne; [done|].
  destruct s as [|y s]; [by apply Hp in Hs|]. apply (Hp r x).
  exists NDirectory. apply IH; [|done]. by rewrite <- app_assoc.
Qed.
Lemma parents_exist_app p q fs : parents_exist p fs → parents_exist (p ++ q) fs.
Proof.
  intros Hp r n Hs. rewrite <- app_assoc. apply (Hp (q ++ r) n). by rewrite <- !app_assoc in *.
Qed.

(** Every entry is in a directory. *)
Definition rooted (fs : tree) : Prop := parents_exist [] fs.
Lemma rooted_below root fs : rooted fs → parents_exist root fs.
Proof. intros Hr r name Hs. apply (Hr (root ++ r) name). by rewrite <- app_assoc. Qed.
Lemma parent_snoc (p : path) name : parent (p ++ [name]) = p.
Proof. unfold parent. rewrite length_app. cbn. replace (pred _) with (length p) by lia. apply take_app_length. Qed.
Lemma rooted_insert fs p n :
  rooted fs → fs !! p = None → fs !! parent p = Some NDirectory → rooted (<[p := n]> fs).
Proof.
  intros Hr Hn Hd r name Hs. cbn in *. destruct (decide (r ++ [name] = p)) as [<-|Hp].
  - rewrite parent_snoc in Hd. rewrite lookup_insert_ne; [done|]. intros Hx. apply (f_equal length) in Hx.
    rewrite length_app in Hx. cbn in Hx. lia.
  - rewrite lookup_insert_ne in Hs by done. apply Hr in Hs. cbn in Hs. rewrite lookup_insert_ne; [done|].
    intros <-. congruence.
Qed.
Lemma rooted_none fs p r : rooted fs → fs !! p ≠ Some NDirectory → r ≠ [] → fs !! (p ++ r) = None.
Proof.
  intros Hr Hp Hne. destruct (fs !! (p ++ r)) eqn:Hs; [|done]. exfalso. apply Hp.
  apply (parents_exist_prefix [] fs p r); [done|by eexists|done].
Qed.
Lemma rooted_prefix fs p r : rooted fs → is_Some (fs !! (p ++ r)) → r ≠ [] → fs !! p = Some NDirectory.
Proof. intros Hr Hs Hne. by apply (parents_exist_prefix [] fs p r). Qed.

Lemma rooted_replace fs p n m : rooted fs → fs !! p = Some m → m ≠ NDirectory → rooted (<[p := n]> fs).
Proof.
  intros Hr Hm Hd r name Hs. cbn in *. assert (Hr' : fs !! r = Some NDirectory).
  { apply (Hr r name). cbn. destruct (decide (r ++ [name] = p)) as [<-|Hp]; [by eexists|]. by rewrite lookup_insert_ne in Hs. }
  rewrite lookup_insert_ne; [done|]. intros <-. congruence.
Qed.
(** A file that is renamed over a sibling takes its place. *)
Lemma move_file fs dir a b n :
  rooted fs → a ≠ b → fs !! (dir ++ [a]) = None → fs !! (dir ++ [b]) ≠ Some NDirectory →
  move_tree (dir ++ [a]) (dir ++ [b]) (<[dir ++ [a] := n]> fs) = <[dir ++ [b] := n]> fs.
Proof.
  intros Hr Hab Ha Hb. assert (Hap : apart (dir ++ [a]) (dir ++ [b])) by (by apply apart_siblings).
  assert (Hne : dir ++ [a] ≠ dir ++ [b]) by (intros [=]%app_inv_head; done).
  assert (Hna : ∀ r, r ≠ [] → fs !! ((dir ++ [a]) ++ r) = None).
  { intros r Hn. apply rooted_none; [done|by rewrite Ha|done]. }
  assert (Hself : ∀ (p r : path), r ≠ [] → p ≠ p ++ r).
  { intros p [|x r] Hn Hp; [done|]. apply (f_equal length) in Hp. rewrite length_app in Hp. cbn in Hp. lia. }
  apply map_eq. intros q. destruct (below (dir ++ [b]) q) as [r|] eqn:Hqb.
  - apply below_spec in Hqb as ->. destruct (lookup_move_dst (dir ++ [a]) (dir ++ [b]) (<[dir ++ [a]:=n]> fs) r) as [->|]; [|done].
    destruct (decide (r = [])) as [->|Hn]; [by rewrite !app_nil_r, !lookup_insert_eq|].
    rewrite !lookup_insert_ne by (by apply Hself). rewrite Hna by done. symmetry. by apply rooted_none.
  - destruct (below (dir ++ [a]) q) as [r|] eqn:Hqa.
    + apply below_spec in Hqa as ->. rewrite <- lookup_subtree, subtree_move_src, lookup_empty by done.
      rewrite lookup_insert_ne by (apply not_eq_sym; rewrite <- (app_nil_r (dir ++ [b])); by apply apart_app).
      destruct (decide (r = [])) as [->|Hn]; [by rewrite app_nil_r|by rewrite Hna].
    + rewrite lookup_move_other by done.
      assert (Hout : ∀ p, below p q = None → p ≠ q).
      { intros p Hp <-. pose proof (below_app p []) as Hs. rewrite app_nil_r in Hs. congruence. }
      by rewrite !lookup_insert_ne by (by apply Hout).
Qed.

Lemma strictly_below_children root fs r :
  parents_exist root fs →
  strictly_below (root ++ r) fs ≡ₚ
  concat (map (λ name, with_below fs (root ++ r ++ [name])) (children (root ++ r) fs)).
Proof.
  intros Hp. apply NoDup_Permutation.
  - apply strictly_below_nodup.
  - pose proof (children_nodup (root ++ r) fs) as Hnd. revert Hnd.
    generalize (children (root ++ r) fs) as names. intros names.
    induction names as [|x names IH]; [by constructor|]. intros [Hx Hnd]%NoDup_cons. cbn [map concat].
    apply NoDup_app. split_and!; [|intros q Hq Hq'|by apply IH].
    + apply NoDup_cons. split; [|apply strictly_below_nodup]. intros [(y & s & Hy) _]%elem_of_strictly_below.
      rewrite <- !app_assoc in Hy. apply app_inv_head in Hy. apply (f_equal length) in Hy.
      rewrite !length_app in Hy. cbn in Hy. lia.
    + apply list_elem_of_In, in_concat in Hq' as (l & Hl & Hq'). apply in_map_iff in Hl as (y & <- & Hy).
      rewrite <- list_elem_of_In in Hq'. rewrite <- list_elem_of_In in Hy.
      assert (Hstart : ∀ z q, q ∈ with_below fs (root ++ r ++ [z]) → ∃ s, q = root ++ r ++ z :: s).
      { intros z q' [->|[(a & s & ->) _]%elem_of_strictly_below]%elem_of_cons; [by exists []|].
        exists (a :: s). by rewrite <- !app_assoc. }
      apply Hstart in Hq as (s & ->), Hq' as (s' & Hs'). rewrite !app_assoc in Hs'.
      apply app_inv_head in Hs' as [= -> _]. done.
  - intros q. rewrite elem_of_strictly_below. split.
    + intros [(x & s & ->) Hs]. apply list_elem_of_In, in_concat. exists (with_below fs (root ++ r ++ [x])).
      assert (Hc : x ∈ children (root ++ r) fs).
      { apply elem_of_children. destruct s as [|y s]; [done|]. exists NDirectory. rewrite <- app_assoc.
        apply (parents_exist_prefix root fs (r ++ [x]) (y :: s)); [done| |done]. by rewrite <- !app_assoc, <- ?app_assoc in *. }
      split; [apply in_map_iff; exists x; split; [done|by apply list_elem_of_In]|].
      apply list_elem_of_In. unfold with_below. destruct s as [|y s]; [rewrite <- app_assoc; by left|right].
      apply elem_of_strictly_below. split; [|done]. exists y, s. by rewrite <- !app_assoc.
    + intros (l & Hl & Hq)%list_elem_of_In%in_concat. apply in_map_iff in Hl as (x & <- & Hx).
      rewrite <- list_elem_of_In in Hq. rewrite <- list_elem_of_In in Hx. apply elem_of_children in Hx.
      apply elem_of_cons in Hq as [->|Hq].
      * split; [exists x, []; by rewrite <- app_assoc|by rewrite app_assoc].
      * apply elem_of_strictly_below in Hq as [(y & s & ->) Hs]. split; [|done].
        exists x, (y :: s). by rewrite <- !app_assoc.
Qed.

Lemma perm_swap_front {A} (l m k : list A) : l ++ m ++ k ≡ₚ (m ++ l) ++ k.
Proof. rewrite app_assoc. apply Permutation_app_tail, Permutation_app_comm. Qed.

Section Walking.
Context `{DirectoryOrderLaws} (X : tree → Prop) (root : path) (fs : tree).
Context (Hroot : parents_exist root fs) (HX : X fs).

(** What the walk has found and what is still below the directories to read. *)
Definition found (w : walk) : list path :=
  map entry_path (entries w) ++ concat (map (λ dp, strictly_below dp.1 fs) (pending w)).
Definition kinds_right (es : list StorageTreeEntry) : Prop :=
  Forall (λ e, ∃ n, fs !! entry_path e = Some n ∧ kind e = kind_of n) es.
Definition walk_good (w : walk) : Prop :=
  Forall (λ dp, ∃ r, dp.1 = root ++ r) (pending w) ∧ kinds_right (entries w) ∧
  directory_count w ≤ MAX_STORAGE_TREE_DIRECTORIES.

(** The state of an operation that changes nothing. *)
Ltac same_tree :=
  let s := fresh "s" in let Hs := fresh "Hs" in
  intros s Hs; unfold on in *; first [rewrite <- Hs|rewrite <- (proj1 Hs)].
Lemma found_push_entry p n w : found (push_entry p n w) ≡ₚ p :: found w.
Proof.
  unfold found, push_entry. cbn. rewrite map_app, <- app_assoc. cbn. by rewrite <- Permutation_middle.
Qed.
Lemma found_push_directory p depth w : found (push_directory p depth w) ≡ₚ strictly_below p fs ++ found w.
Proof.
  unfold found, push_directory. cbn. rewrite !app_assoc. apply Permutation_app_tail, Permutation_app_comm.
Qed.
Lemma strictly_below_file r n : fs !! (root ++ r) = Some n → n ≠ NDirectory → strictly_below (root ++ r) fs = [].
Proof.
  intros Hn Hd. destruct (strictly_below (root ++ r) fs) as [|q l] eqn:Hs; [done|].
  assert (Hq : q ∈ strictly_below (root ++ r) fs) by (rewrite Hs; left).
  apply elem_of_strictly_below in Hq as [(x & s & ->) Hq]. exfalso. apply Hd.
  rewrite <- app_assoc in Hq. apply (parents_exist_prefix root fs r (x :: s)) in Hq; [|done..]. congruence.
Qed.

Lemma visit_entry_spec r depth w name :
  walk_good w →
  triple X (eq fs) (visit_entry (root ++ r) depth w name)
    (λ w' fs', fs' = fs ∧ walk_good w' ∧ found w' ≡ₚ with_below fs (root ++ r ++ [name]) ++ found w).
Proof.
  intros (Hp & Hk & Hc). unfold visit_entry.
  apply (triple_bind _ _ _ _ (λ _, eq fs)); [by apply triple_probe; intros ? <-|intros []].
  destruct (_ <=? _); [by apply hoare_fail; same_tree|].
  eapply triple_bind; [by apply triple_metadata; intros ? <-|]. cbn beta. intros m.
  apply (triple_assume _ _ _ _ (fs !! ((root ++ r) ++ [name]) = m)); [by intros ? [<- ?]|]. intros Hm.
  rewrite <- app_assoc in Hm |- *.
  assert (Hfile : ∀ n, m = Some n → n ≠ NDirectory →
    triple X (λ fs', fs = fs' ∧ fs' !! (root ++ r ++ [name]) = m) (mret (push_entry (root ++ r ++ [name]) n w) : storage_op walk)
      (λ w' fs', fs' = fs ∧ walk_good w' ∧ found w' ≡ₚ with_below fs (root ++ r ++ [name]) ++ found w)).
  { intros n -> Hn. apply hoare_ret. same_tree. split_and!; [done| |].
    - split_and!; [done| |done]. apply Forall_app. split; [done|]. apply Forall_singleton. by exists n.
    - rewrite found_push_entry. unfold with_below. by rewrite (strictly_below_file _ n). }
  destruct m as [n|]; [|by apply hoare_fail; same_tree].
  destruct n as [b| | |]; try (by apply Hfile).
  destruct (_ <=? _)%nat; [by apply hoare_fail; same_tree|].
  destruct (N.ltb_spec MAX_STORAGE_TREE_DIRECTORIES (directory_count w + 1)); [by apply hoare_fail; same_tree|].
  apply hoare_ret. same_tree. split_and!; [done| |].
  - split_and!; [| |done]; cbn; [constructor; [by eexists|done]|].
    apply Forall_app. split; [done|]. apply Forall_singleton. by exists NDirectory.
  - by rewrite found_push_entry, found_push_directory.
Qed.
Lemma visit_entries_spec r depth w names :
  walk_good w →
  triple X (eq fs) (visit_entries (root ++ r) depth w names)
    (λ w' fs', fs' = fs ∧ walk_good w' ∧
               found w' ≡ₚ concat (map (λ name, with_below fs (root ++ r ++ [name])) names) ++ found w).
Proof.
  revert w. induction names as [|name names IH]; intros w Hw; cbn [visit_entries]; [by apply hoare_ret; same_tree|].
  eapply triple_bind; [by apply visit_entry_spec|]. cbn beta. intros w'.
  apply (triple_assume _ _ _ _ (walk_good w' ∧ found w' ≡ₚ with_below fs (root ++ r ++ [name]) ++ found w)); [by intros ? []|].
  intros [Hw' Hf]. apply (triple_pre _ _ (eq fs)); [|by intros ? [-> _]].
  eapply triple_post; [by apply IH|]. intros w'' fs' (-> & Hw'' & Hf'). split_and!; [done..|].
  rewrite Hf', Hf. apply perm_swap_front.
Qed.
Lemma read_dir_spec dir :
  triple X (eq fs) (read_dir dir) (λ names fs', fs' = fs ∧ names ≡ₚ children dir fs).
Proof.
  unfold read_dir. eapply triple_post; [by apply triple_observe; intros ? <-|]. intros names fs' [<- Hn].
  split; [done|]. destruct (is_dir fs dir); [|done]. injection Hn as <-. apply directory_order_perm.
Qed.
Lemma walk_tree_spec fuel w :
  walk_good w →
  triple X (eq fs) (walk_tree fuel w) (λ es fs', fs' = fs ∧ kinds_right es ∧ map entry_path es ≡ₚ found w).
Proof.
  revert w. induction fuel as [|fuel IH]; intros w Hw; cbn [walk_tree]; destruct (pending w) as [|[dir depth] rest] eqn:Hp.
  - apply hoare_ret. same_tree. split_and!; [done|apply Hw|]. unfold found. rewrite Hp. cbn. by rewrite app_nil_r.
  - by apply hoare_fail; same_tree.
  - apply hoare_ret. same_tree. split_and!; [done|apply Hw|]. unfold found. rewrite Hp. cbn. by rewrite app_nil_r.
  - destruct Hw as (Hall & Hk & Hc). rewrite Hp in Hall. apply Forall_cons in Hall as [[r Hr] Hall]. cbn in Hr. subst dir.
    apply (triple_bind _ _ _ _ (λ _, eq fs)).
    { eapply triple_post; [by apply ensure_real_directory_spec; intros ? <-|]. by intros ? ? [<- _]. }
    intros []. eapply triple_bind; [apply read_dir_spec|]. cbn beta. intros names.
    apply (triple_assume _ _ _ _ (names ≡ₚ children (root ++ r) fs)); [by intros ? []|]. intros Hn.
    apply (triple_pre _ _ (eq fs)); [|by intros ? [-> _]].
    eapply triple_bind; [by apply visit_entries_spec|]. cbn beta. intros w'.
    pose (w0 := {| pending := rest; directory_count := directory_count w; entries := entries w |}).
    apply (triple_assume _ _ _ _
      (walk_good w' ∧ found w' ≡ₚ concat (map (λ name, with_below fs (root ++ r ++ [name])) names) ++ found w0));
      [by intros ? []|].
    intros [Hw' Hf]. apply (triple_pre _ _ (eq fs)); [|by intros ? [-> _]].
    eapply triple_post; [by apply IH|]. intros es fs' (-> & Hes & Hfound). split_and!; [done..|].
    rewrite Hfound, Hf. unfold found, w0. rewrite Hp. cbn [map concat fst pending entries]. rewrite Hn.
    rewrite <- (strictly_below_children root fs r Hroot). rewrite (app_assoc (map _ _)). apply perm_swap_front.
Qed.
End Walking.

(** Nothing is changed by a walk, whatever the tree looks like. *)
Section Reading.
Context `{DirectoryOrder} (X V : tree → Prop) (HV : ∀ fs, V fs → X fs).
Abbreviation reads o := (hoare (on V) o (λ _, on V) (λ _, on X)).

Lemma visit_entry_reads dir depth w name : reads (visit_entry dir depth w name).
Proof.
  unfold visit_entry. apply (triple_bind _ _ _ _ (λ _, V)); [by apply triple_probe|intros []].
  destruct (_ <=? _); [by apply triple_fail|]. apply (triple_bind _ _ _ _ (λ _, V)).
  { eapply triple_post; [by apply triple_metadata|]. by intros ? ? []. }
  intros [[]|]; try (by apply triple_fail); try by apply hoare_ret.
  destruct (_ <=? _)%nat; [by apply triple_fail|]. destruct (_ <? _); [by apply triple_fail|by apply hoare_ret].
Qed.
Lemma visit_entries_reads dir depth w names : reads (visit_entries dir depth w names).
Proof.
  revert w. induction names as [|name names IH]; intros w; cbn [visit_entries]; [by apply hoare_ret|].
  apply (triple_bind _ _ _ _ (λ _, V)); [apply visit_entry_reads|intros w'; apply IH].
Qed.
Lemma walk_tree_reads fuel w : reads (walk_tree fuel w).
Proof.
  revert w. induction fuel as [|fuel IH]; intros w; cbn [walk_tree]; destruct (pending w) as [|[dir depth] rest];
    [by apply hoare_ret|by apply triple_fail|by apply hoare_ret|].
  apply (triple_bind _ _ _ _ (λ _, V)).
  { eapply triple_post; [by apply ensure_real_directory_spec|]. by intros ? ? []. }
  intros []. apply (triple_bind _ _ _ _ (λ _, V)).
  { unfold read_dir. eapply triple_post; [by apply triple_observe|]. by intros ? ? []. }
  intros names. apply (triple_bind _ _ _ _ (λ _, V)); [apply visit_entries_reads|intros w'; apply IH].
Qed.
Lemma bounded_tree_entries_reads root : reads (bounded_tree_entries root).
Proof.
  unfold bounded_tree_entries. apply (triple_bind _ _ _ _ (λ _, V)); [|intros []; apply walk_tree_reads].
  eapply triple_post; [by apply ensure_real_directory_spec|]. by intros ? ? [].
Qed.
End Reading.

(** The walk lists every entry below the root once, with its kind. *)
Lemma bounded_tree_entries_spec `{DirectoryOrderLaws} X V root :
  (∀ fs, V fs → X fs) → (∀ fs, V fs → parents_exist root fs) →
  triple X V (bounded_tree_entries root)
    (λ es fs, V fs ∧ kinds_right fs es ∧ map entry_path es ≡ₚ strictly_below root fs).
Proof.
  intros HV Hr. apply triple_fixed. intros fs Hfs. unfold bounded_tree_entries.
  apply (triple_bind _ _ _ _ (λ _, eq fs)).
  { eapply triple_post; [apply ensure_real_directory_spec; intros ? <-; by apply HV|]. by intros ? ? [<- _]. }
  intros []. eapply triple_post; [apply (walk_tree_spec X root fs); [by apply Hr|by apply HV|]|].
  - unfold walk_good, walk_from. cbn. split_and!; [|by constructor|done].
    apply Forall_singleton. exists []. by rewrite app_nil_r.
  - intros es fs' (-> & Hk & Hf). split_and!; [done..|]. rewrite Hf. unfold found, walk_from. cbn. by rewrite app_nil_r.
Qed.

(** ** The fuel of the walk *)

(** Directories that are still to be read or may still be found. *)
Definition walk_measure (w : walk) : nat :=
  length (pending w) + N.to_nat (MAX_STORAGE_TREE_DIRECTORIES - directory_count w).

Lemma op_bind_same {S E A B} (m : op S E A) (k k' : A → op S E B) s :
  (∀ a s', m s = (Ok a, s') → k a s' = k' a s') → (m ≫= k) s = (m ≫= k') s.
Proof.
  intros Hk. destruct (m s) as [[a|e] s'] eqn:Hm.
  - rewrite !(op_ok_bind _ _ _ _ _ Hm). by apply Hk.
  - by rewrite !(op_err_bind _ _ _ _ _ Hm).
Qed.
Lemma visit_entry_measure dir depth w name d w' d' :
  directory_count w ≤ MAX_STORAGE_TREE_DIRECTORIES → visit_entry dir depth w name d = (Ok w', d') →
  walk_measure w' = walk_measure w ∧ directory_count w' ≤ MAX_STORAGE_TREE_DIRECTORIES.
Proof.
  intros Hw Hv. unfold visit_entry in Hv. apply op_bind_inv in Hv as ([] & d1 & _ & Hv).
  destruct (_ <=? _); [done|]. apply op_bind_inv in Hv as (m & d2 & _ & Hv).
  destruct m as [[]|]; try done.
  1,3,4: by injection Hv as <- _.
  destruct (_ <=? _)%nat; [done|].
  destruct (N.ltb_spec MAX_STORAGE_TREE_DIRECTORIES (directory_count w + 1)); [done|].
  injection Hv as <- _. unfold walk_measure, push_entry, push_directory. cbn [pending directory_count length]. lia.
Qed.
Lemma visit_entries_measure dir depth w names d w' d' :
  directory_count w ≤ MAX_STORAGE_TREE_DIRECTORIES → visit_entries dir depth w names d = (Ok w', d') →
  walk_measure w' = walk_measure w ∧ directory_count w' ≤ MAX_STORAGE_TREE_DIRECTORIES.
Proof.
  revert w d. induction names as [|name names IH]; intros w d Hw Hv; cbn [visit_entries] in Hv; [by injection Hv as <- _|].
  apply op_bind_inv in Hv as (w1 & d1 & H1 & H2). apply visit_entry_measure in H1 as [<- H1]; [|done].
  by eapply IH.
Qed.
Lemma walk_tree_fuel `{DirectoryOrder} fuel more w d :
  directory_count w ≤ MAX_STORAGE_TREE_DIRECTORIES → (walk_measure w ≤ fuel)%nat →
  walk_tree (fuel + more) w d = walk_tree fuel w d.
Proof.
  revert w d. induction fuel as [|fuel IH]; intros w d Hc Hm.
  - cbn [Nat.add]. destruct (pending w) as [|dp l] eqn:Hp; [destruct more; cbn [walk_tree]; by rewrite Hp|].
    unfold walk_measure in Hm. rewrite Hp in Hm. cbn in Hm. lia.
  - cbn [Nat.add walk_tree]. destruct (pending w) as [|[dir depth] rest] eqn:Hp; [done|].
    apply op_bind_same. intros [] d1 _. apply op_bind_same. intros names d2 _.
    apply op_bind_same. intros w' d3 Hv. apply visit_entries_measure in Hv as [Hv Hc']; [|done].
    apply IH; [done|]. rewrite Hv. unfold walk_measure in *. rewrite Hp in Hm. cbn in *. lia.
Qed.
(** The walk never ends for want of fuel: more of it changes nothing. *)
Lemma walk_from_fuel `{DirectoryOrder} more root d :
  walk_tree (N.to_nat MAX_STORAGE_TREE_DIRECTORIES + more) (walk_from root) d =
  walk_tree (N.to_nat MAX_STORAGE_TREE_DIRECTORIES) (walk_from root) d.
Proof. apply walk_tree_fuel; [done|]. unfold walk_measure, walk_from. cbn [pending directory_count length]. unfold MAX_STORAGE_TREE_DIRECTORIES. lia. Qed.
