(* ===== verification/Storage.v ===== *)
(** The local file provider ([crates/appcore-storage/src/storage_file.rs]): its
    roots and its lock, the resolution of interrupted restores that precedes
    every use, atomic writes and reads below the data root, single-file
    backups, temporary files, and the provider contract of [storage.rs].

    The files are those of StorageTree.v. The name of a temporary file and the
    clock are arguments; the lock is an access, since an operation that holds
    it is alone. *)

From S2P Require Import Prelude.
From S2P Require Import Text.
From S2P Require Import Types.
From S2P Require Import Files.
From S2P Require Import Tokens.
From S2P Require Import StorageTree.
From S2P Require Import StorageWalk.

Local Open Scope N_scope.

Inductive StorageStatus := Online | Degraded | ReadOnly | Offline.
#[export] Instance StorageStatus_eq_dec : EqDecision StorageStatus.
Proof. solve_decision. Defined.
Record StorageHealth := { health_status : StorageStatus; health_message : option string }.

Record FileStorageProvider := { storage_path : path; backup_path : path; opened : bool }.
Definition provider_new (storage backup : path) : FileStorageProvider :=
  {| storage_path := storage; backup_path := backup; opened := false |}.

(** The lock and the two roots that a restore keeps are siblings of the data root. *)
Definition sibling_path (p : path) (suffix : string) : result StorageError path :=
  match file_name p with
  | Some name => Ok (with_file_name p (name +:+ "." +:+ suffix))
  | None => Err (InvalidPath (path_text p))
  end.

(** An operation that leaves its result to what follows, whatever it is. *)
Definition attempt {A} (o : storage_op A) : storage_op (result StorageError A) := λ d,
  let '(r, d') := o d in (Ok r, d').

Section Provider.
Context `{DirectoryOrder} (self : FileStorageProvider).

Definition lock_path : result StorageError path := sibling_path (storage_path self) "lock".
Definition restore_pending_path : result StorageError path := sibling_path (storage_path self) "restore.pending".
Definition restore_previous_path : result StorageError path := sibling_path (storage_path self) "restore.previous".

(** [open_lock_file], then the exclusive lock. *)
Definition open_lock_file (p : path) : storage_op () :=
  _ ← change unavailable "lock" (λ fs,
        match fs !! p with
        | None => if is_dir fs (parent p) then Some (<[p := NFile []]> fs) else None
        | Some (NFile _) => Some fs
        | Some _ => None
        end);
  probe unavailable.
Definition acquire_operation_lock : storage_op () :=
  p ← op_lift lock_path;
  _ ← open_lock_file p;
  probe unavailable.
Definition with_storage_lock {A} (operation : storage_op A) : storage_op A :=
  _ ← acquire_operation_lock; operation.

(** ** Interrupted restores *)

Definition real_directory_exists (p : path) : storage_op bool :=
  there ← path_exists_no_follow p;
  if there : bool then _ ← ensure_real_directory p; mret true else mret false.
Definition promote_root (pending previous : path) : storage_op () :=
  here ← real_directory_exists (storage_path self);
  if here : bool then mret ()
  else
    ready ← real_directory_exists pending;
    if ready : bool then rename unavailable pending (storage_path self)
    else
      kept ← real_directory_exists previous;
      if kept : bool then rename unavailable previous (storage_path self) else mret ().
Definition remove_leftover (p : path) : storage_op () :=
  here ← real_directory_exists (storage_path self);
  if here : bool then
    left_over ← real_directory_exists p;
    if left_over : bool then remove_dir_all unavailable p else mret ()
  else mret ().
Definition recover_restore_locked : storage_op () :=
  pending ← op_lift restore_pending_path;
  previous ← op_lift restore_previous_path;
  _ ← promote_root pending previous;
  _ ← remove_leftover pending;
  _ ← remove_leftover previous;
  here ← real_directory_exists (storage_path self);
  if here : bool then fsync_parent unavailable (storage_path self) else mret ().
Definition recover_snapshot_restore : storage_op () := with_storage_lock recover_restore_locked.

Definition create_dirs : storage_op () :=
  _ ← create_dir_all unavailable (parent (storage_path self));
  _ ← create_real_directory_all (backup_path self);
  there ← path_exists_no_follow (storage_path self);
  _ ← (if there : bool then ensure_real_directory (storage_path self) else mret ());
  _ ← recover_snapshot_restore;
  create_real_directory_all (storage_path self).

(** ** Files below the data root *)

Definition resolve_storage (relative : string) : storage_op path := resolve_under_root (storage_path self) relative.
Definition resolve_backup (relative : string) : storage_op path := resolve_under_root (backup_path self) relative.

Definition write_bytes_atomic (proc : process) (counter : N) (name : string) (bytes : list byte) : storage_op () :=
  _ ← resolve_storage name;
  with_storage_lock (
    full ← resolve_storage name;
    _ ← create_dir_all unavailable (parent full);
    full ← resolve_storage name;
    write_atomic_file (λ _, TransactionFailed name) (tmp_path_for proc counter full) full bytes).
Definition write_bytes := write_bytes_atomic.

Definition read_bytes (name : string) : storage_op (list byte) :=
  _ ← resolve_storage name;
  with_storage_lock (
    full ← resolve_storage name;
    read_regular_file (λ _, RepositoryNotFound name) full).
(** One byte above the bound tells that there are more. *)
Definition read_bytes_bounded (name : string) (max_bytes : N) : storage_op (list byte) :=
  _ ← resolve_storage name;
  with_storage_lock (
    full ← resolve_storage name;
    _ ← probes (λ _, RepositoryNotFound name) 2;
    bytes ← observe (λ _, RepositoryNotFound name) (file_content (λ _, RepositoryNotFound name) full);
    if max_bytes <? lenN bytes then op_fail (TransactionFailed name)
    else
      read_limit ← op_lift (ok_or (TransactionFailed name) (checked_add64 max_bytes 1));
      _ ← probe (λ _, RepositoryNotFound name);
      let bytes := if lenN bytes <=? read_limit then bytes else take (N.to_nat read_limit) bytes in
      if max_bytes <? lenN bytes then op_fail (TransactionFailed name) else mret bytes).
Definition exists_path (name : string) : storage_op bool :=
  _ ← resolve_storage name;
  with_storage_lock (full ← resolve_storage name; path_exists_no_follow full).

Definition backup_file_atomic (proc : process) (counter : N) (source backup_name : string) : storage_op () :=
  _ ← resolve_storage source;
  _ ← resolve_backup backup_name;
  with_storage_lock (
    source_full ← resolve_storage source;
    there ← path_exists_no_follow source_full;
    if there : bool then
      backup_full ← resolve_backup backup_name;
      _ ← create_dir_all (λ _, BackupFailed backup_name) (parent backup_full);
      backup_full ← resolve_backup backup_name;
      bytes ← read_regular_file (λ _, BackupFailed backup_name) source_full;
      write_atomic_file (λ _, BackupFailed backup_name) (tmp_path_for proc counter backup_full) backup_full bytes
    else op_fail (RepositoryNotFound source)).
Definition backup_file := backup_file_atomic.

(** *** Sealed by a token provider *)

Section Secure.
Context (seal open : list byte → TokenClaims → result SecurityError (list byte)).
Definition write_secure_bytes (proc : process) (counter : N) (name : string) (bytes : list byte) (claims : TokenClaims) :
    storage_op () :=
  sealed ← op_lift (map_err (λ _, SecurityFailed name) (seal bytes claims));
  write_bytes_atomic proc counter name sealed.
Definition read_secure_bytes (name : string) (claims : TokenClaims) : storage_op (list byte) :=
  sealed ← read_bytes name;
  op_lift (map_err (λ _, SecurityFailed name) (open sealed claims)).
End Secure.
Definition require_auth_provider {P} (name : string) (provider : option P) : result StorageError P :=
  ok_or (AuthUnavailable name) provider.
Definition write_auth_required_bytes (proc : process) (counter : N) (name : string) (bytes : list byte)
    (provider : option (list byte → TokenClaims → result SecurityError (list byte))) (claims : TokenClaims) : storage_op () :=
  seal ← op_lift (require_auth_provider name provider);
  write_secure_bytes seal proc counter name bytes claims.
Definition read_auth_required_bytes (name : string)
    (provider : option (list byte → TokenClaims → result SecurityError (list byte))) (claims : TokenClaims) :
    storage_op (list byte) :=
  open ← op_lift (require_auth_provider name provider);
  read_secure_bytes open name claims.

(** *** Temporary files *)

Definition str_ends_with (suffix s : string) : bool :=
  bool_decide (str_drop (String.length s - String.length suffix) s = suffix).
Definition temporary_name (p : path) : bool :=
  match file_name p with Some name => str_ends_with ".tmp" name | None => false end.
Definition is_temporary (e : StorageTreeEntry) : bool :=
  bool_decide (kind e = KindFile) && temporary_name (entry_path e).
Fixpoint remove_temporary (es : list StorageTreeEntry) (removed : N) : storage_op N :=
  match es with
  | [] => mret removed
  | e :: rest =>
    if is_temporary e then
      _ ← remove_file unavailable (entry_path e);
      remove_temporary rest (removed + 1)
    else remove_temporary rest removed
  end.
Definition cleanup_tmp_in_dir (root : path) : storage_op N :=
  there ← path_exists_no_follow root;
  if there : bool then
    es ← bounded_tree_entries root;
    remove_temporary es 0
  else mret 0.
Definition cleanup_temp_files : storage_op N :=
  with_storage_lock (
    removed ← cleanup_tmp_in_dir (storage_path self);
    more ← cleanup_tmp_in_dir (backup_path self);
    mret (removed + more)).
Definition count_tmp_in_dir (root : path) : storage_op N :=
  there ← path_exists_no_follow root;
  if there : bool then
    es ← bounded_tree_entries root;
    mret (lenN (filter (λ e, is_temporary e = true) es))
  else mret 0.

(** *** The provider contract *)

Definition both_real : storage_op bool :=
  data ← path_is_real_directory (storage_path self);
  if data : bool then path_is_real_directory (backup_path self) else mret false.
Definition status : storage_op StorageStatus :=
  ok ← both_real;
  mret (if ok : bool then Online else Offline).
Definition health : storage_op StorageHealth :=
  ok ← both_real;
  if ok : bool then
    data ← attempt (count_tmp_in_dir (storage_path self));
    backups ← attempt (count_tmp_in_dir (backup_path self));
    match data, backups with
    | Ok n, Ok m =>
      let orphan_tmp := sat_add64 n m in
      mret (if 0 <? orphan_tmp
            then {| health_status := Degraded; health_message := Some ("found " +:+ show_u64 orphan_tmp +:+ " orphan temp files") |}
            else {| health_status := Online; health_message := None |})
    | _, _ => mret {| health_status := Degraded; health_message := Some "temporary file scan failed"%string |}
    end
  else mret {| health_status := Degraded; health_message := Some "storage or backup path is missing"%string |}.
Definition open_provider : storage_op FileStorageProvider :=
  _ ← create_dirs;
  mret {| storage_path := storage_path self; backup_path := backup_path self; opened := true |}.
Definition close_provider : FileStorageProvider :=
  {| storage_path := storage_path self; backup_path := backup_path self; opened := false |}.
(** No unit of work is ever returned. *)
Definition begin_transaction : StorageError :=
  if opened self then TransactionsUnsupported else NotAvailable.
End Provider.

(** ** Triples of the provider's steps *)

Section Steps.
Context `{DirectoryOrder} (X : tree → Prop).
Implicit Types V W : tree → Prop.

Lemma real_directory_exists_spec V p :
  (∀ fs, V fs → X fs) →
  triple X V (real_directory_exists p)
    (λ b fs, V fs ∧ if b : bool then fs !! p = Some NDirectory else fs !! p = None).
Proof.
  intros HV. unfold real_directory_exists. eapply triple_bind; [by apply path_exists_spec|]. cbn beta. intros [].
  - apply (triple_bind _ _ _ _ (λ _ fs, V fs ∧ fs !! p = Some NDirectory)).
    + eapply triple_post; [apply ensure_real_directory_spec; by intros fs []; apply HV|]. by intros ? ? [[? _] ?].
    + intros []. by apply hoare_ret.
  - apply hoare_ret. intros s (Hv & _ & Hb). split; [done|]. destruct (files s !! p) eqn:Hp; [|done].
    assert (false = true) by (apply Hb; by eexists). done.
Qed.
(** The lock file is made when it is missing; everything else stays. *)
Lemma acquire_spec (self : FileStorageProvider) V W :
  (∀ fs, V fs → X fs) → (∀ fs, W fs → X fs) →
  (∀ fs lock, V fs → lock_path self = Ok lock → (∃ b, fs !! lock = Some (NFile b)) → W fs) →
  (∀ fs lock, V fs → lock_path self = Ok lock → fs !! lock = None → fs !! parent lock = Some NDirectory →
              W (<[lock := NFile []]> fs)) →
  triple X V (acquire_operation_lock self) (λ _, W).
Proof.
  intros HV HW Hkeep Hmake. unfold acquire_operation_lock.
  destruct (lock_path self) as [lock|e] eqn:Hl; [|by apply hoare_lift_err; intros s Hv; apply HV].
  apply hoare_lift_ok. apply (triple_bind _ _ _ _ (λ _, W)); [|intros []; by apply triple_probe].
  unfold open_lock_file. apply (triple_bind _ _ _ _ (λ _, W)); [|intros []; by apply triple_probe].
  apply triple_change; [done|]. intros fs fs' Hv Hf.
  assert (Hw : W fs'); [|by split; [apply HW|]].
  destruct (fs !! lock) as [[b| | |]|] eqn:Hfs; try done.
  - injection Hf as <-. eapply Hkeep; [done..|]. by eexists.
  - unfold is_dir in Hf. destruct (decide (fs !! parent lock = Some NDirectory)) as [Hd|Hd].
    + rewrite (bool_decide_eq_true_2 _ Hd) in Hf. injection Hf as <-. by apply Hmake.
    + by rewrite (bool_decide_eq_false_2 _ Hd) in Hf.
Qed.
Lemma storage_lock_spec {A} (self : FileStorageProvider) V W (o : storage_op A) Q :
  (∀ fs, V fs → X fs) → (∀ fs, W fs → X fs) →
  (∀ fs lock, V fs → lock_path self = Ok lock → (∃ b, fs !! lock = Some (NFile b)) → W fs) →
  (∀ fs lock, V fs → lock_path self = Ok lock → fs !! lock = None → fs !! parent lock = Some NDirectory →
              W (<[lock := NFile []]> fs)) →
  triple X W o Q → triple X V (with_storage_lock self o) Q.
Proof.
  intros HV HW Hkeep Hmake Ho. apply (triple_bind _ _ _ _ (λ _, W)); [by apply acquire_spec|intros []; exact Ho].
Qed.
End Steps.

(** ** Atomic writes *)

Lemma string_app_neq s t : t ≠ EmptyString → s +:+ t ≠ s.
Proof.
  intros Ht Hs. apply (f_equal String.length) in Hs. rewrite string_length_app in Hs.
  destruct t; [done|]. cbn in Hs. lia.
Qed.
Definition tmp_tail (proc : process) (counter : N) : string :=
  "." +:+ show_u64 (pid proc) +:+ "_" +:+ str_filter is_ascii_alphanumeric (thread_id proc) +:+ "_" +:+
  show_u64 counter +:+ ".tmp".
Lemma tmp_path_for_snoc proc counter (dir : path) name :
  tmp_path_for proc counter (dir ++ [name]) = dir ++ [name +:+ tmp_tail proc counter].
Proof. unfold tmp_path_for, with_file_name, file_name. by rewrite parent_snoc, last_snoc. Qed.

Lemma sibling_path_ok p suffix q :
  sibling_path p suffix = Ok q → ∃ d n, p = d ++ [n] ∧ q = d ++ [n +:+ "." +:+ suffix].
Proof.
  unfold sibling_path, file_name. destruct p as [|x l] using rev_ind; [done|].
  rewrite last_snoc. intros [= <-]. exists l, x. unfold with_file_name. by rewrite parent_snoc.
Qed.
Lemma sibling_apart p suffix q r : sibling_path p suffix = Ok q → apart (p ++ r) q.
Proof.
  intros (d & n & -> & ->)%sibling_path_ok. rewrite <- (app_nil_r (d ++ [_ +:+ _])). apply apart_apps, apart_siblings.
  by apply not_eq_sym, string_app_neq.
Qed.
Lemma apart_neq p q : apart p q → p ≠ q.
Proof. intros Ha ->. by apply apart_irrefl in Ha. Qed.

(** What a write may leave: the new bytes or what was there, the directories on
    the way, the lock, and a temporary file. *)
Record written (fs0 : tree) (lock tmp full : path) (bytes : list byte) (fs : tree) : Prop := {
  written_rooted : rooted fs;
  written_at q : q ≠ tmp →
    fs !! q = fs0 !! q ∨
    (fs0 !! q = None ∧ (q = lock ∧ fs !! q = Some (NFile []) ∨ inside q full ∧ fs !! q = Some NDirectory)) ∨
    (q = full ∧ fs !! q = Some (NFile bytes) ∧ fs0 !! q ≠ Some NDirectory);
}.

Section Writing.
Context (self : FileStorageProvider) (proc : process) (counter : N) (name : string) (bytes : list byte).
Context (front : path) (last_name : string) (lock : path) (fs0 : tree).
Context (Hconf : confined name (front ++ [last_name])) (Hlock : lock_path self = Ok lock) (Hroot : rooted fs0).

#[local] Definition dir : path := storage_path self ++ front.
#[local] Definition full : path := dir ++ [last_name].
#[local] Definition tmp : path := dir ++ [last_name +:+ tmp_tail proc counter].

Definition made (fs : tree) : Prop :=
  rooted fs ∧ ∀ q, fs !! q = fs0 !! q ∨
    (fs0 !! q = None ∧ (q = lock ∧ fs !! q = Some (NFile []) ∨ inside q full ∧ fs !! q = Some NDirectory)).
Abbreviation ended := (written fs0 lock tmp full bytes).

Lemma made_ended fs : made fs → ended fs.
Proof. intros [Hr Hq]. constructor; [done|]. intros q _. destruct (Hq q) as [?|?]; auto. Qed.
Lemma made_start : made fs0.
Proof. split; [done|]. auto. Qed.
Lemma lock_not_inside : ¬ inside lock full.
Proof.
  intros (x & r & Hx). unfold full, dir in Hx. rewrite <- app_assoc in Hx.
  destruct (sibling_apart _ _ _ (front ++ [last_name]) Hlock) as [_ Hb]. by rewrite Hx, below_app in Hb.
Qed.
Lemma made_lock fs : made fs → fs !! lock = None → fs !! parent lock = Some NDirectory → made (<[lock := NFile []]> fs).
Proof.
  intros [Hr Hq] Hn Hd. split; [by apply rooted_insert|]. intros q. destruct (decide (q = lock)) as [->|Hne].
  - rewrite lookup_insert_eq. destruct (Hq lock) as [Heq|[Hn0 _]]; [right; rewrite <- Heq|right]; auto.
  - rewrite lookup_insert_ne by done. apply Hq.
Qed.
Lemma made_dir p fs :
  inside p full → made fs → fs !! p = None → fs !! parent p = Some NDirectory → made (<[p := NDirectory]> fs).
Proof.
  intros Hin [Hr Hq] Hn Hd. split; [by apply rooted_insert|]. intros q. destruct (decide (q = p)) as [->|Hne].
  - rewrite lookup_insert_eq. destruct (Hq p) as [Heq|[Hn0 _]]; [right; rewrite <- Heq|right]; auto.
  - rewrite lookup_insert_ne by done. apply Hq.
Qed.
Lemma tmp_not_full : tmp ≠ full.
Proof. unfold tmp, full. intros [= Hx]%app_inv_head. by apply (string_app_neq last_name (tmp_tail proc counter)). Qed.

(** The state while the temporary file is there, and after the rename. *)
Definition with_tmp (c : list byte) (fs : tree) : Prop :=
  ∃ fs1, made fs1 ∧ fs1 !! tmp = None ∧ fs1 !! dir = Some NDirectory ∧ fs = <[tmp := NFile c]> fs1.
Definition renamed (fs : tree) : Prop :=
  ∃ fs1, made fs1 ∧ fs1 !! tmp = None ∧ fs1 !! full ≠ Some NDirectory ∧ fs1 !! dir = Some NDirectory ∧
         fs = <[full := NFile bytes]> fs1.

Lemma parent_full : parent full = dir.
Proof. apply parent_snoc. Qed.
Lemma parent_tmp : parent tmp = dir.
Proof. apply parent_snoc. Qed.
Lemma with_tmp_ended c fs : with_tmp c fs → ended fs.
Proof.
  intros (fs1 & [Hr Hq] & Hn & Hd & ->). constructor; [apply rooted_insert; by rewrite ?parent_tmp|].
  intros q Hne. rewrite lookup_insert_ne by done. destruct (Hq q) as [?|?]; auto.
Qed.
Lemma renamed_ended fs : renamed fs → ended fs.
Proof.
  intros (fs1 & [Hr Hq] & Hn & Hd & Hdir & ->). constructor.
  - destruct (fs1 !! full) as [n|] eqn:Hf; [apply (rooted_replace _ _ _ n); [done..|congruence]|].
    apply rooted_insert; by rewrite ?parent_full.
  - intros q Hne. destruct (decide (q = full)) as [->|Hf].
    + right. right. rewrite lookup_insert_eq. split_and!; [done..|].
      destruct (Hq full) as [<-|[Hx _]]; [done|by rewrite Hx].
    + rewrite lookup_insert_ne by done. destruct (Hq q) as [?|?]; auto.
Qed.

Lemma resolved V :
  (∀ fs, V fs → ended fs) → triple ended V (resolve_storage self name) (λ q fs, V fs ∧ q = full).
Proof.
  intros HV. unfold resolve_storage. eapply triple_post; [by apply resolve_spec|].
  intros q fs (Hv & names & (_ & _ & _ & ->) & -> & _). split; [done|]. destruct Hconf as (_ & _ & _ & <-).
  unfold full, dir. by rewrite <- app_assoc.
Qed.
Lemma make_parent V :
  (∀ fs, V fs → made fs) → triple ended V (create_dir_all unavailable (parent full)) (λ _, made).
Proof.
  intros HV. unfold create_dir_all. apply (triple_pre _ _ made); [|done].
  eapply triple_post; [apply triple_create_dirs|].
  - by apply made_ended.
  - intros p fs Hp Hm Hn Hd. apply made_dir; [|done..]. apply list_elem_of_fmap in Hp as (k & -> & Hk).
    rewrite parent_full. destruct (drop k dir) as [|x r] eqn:Hdr.
    + exists last_name, []. unfold full. f_equal. rewrite <- (take_drop k dir) at 1. by rewrite Hdr, app_nil_r.
    + exists x, (r ++ [last_name]). unfold full. rewrite <- (take_drop k dir) at 1. by rewrite Hdr, <- app_assoc.
  - by intros ? ? [? _].
Qed.
Lemma put_in_place :
  triple ended made (write_atomic_file (λ _, TransactionFailed name) tmp full bytes) (λ _, renamed).
Proof.
  unfold write_atomic_file. apply (triple_bind _ _ _ _ (λ _, with_tmp [])).
  { apply triple_create_file; [by apply made_ended| |by apply with_tmp_ended].
    intros fs Hm Hn Hd. rewrite parent_tmp in Hd. by exists fs. }
  intros []. apply (triple_bind _ _ _ _ (λ _, with_tmp bytes)).
  { apply (triple_pre _ _ (λ fs, (∃ c, with_tmp c fs) ∧ fs !! tmp = Some (NFile []))).
    - apply triple_write_all.
      + intros fs c [c' (fs1 & Hm & Hn & Hd & ->)] _. apply (with_tmp_ended c). exists fs1. split_and!; [done..|].
        by rewrite insert_insert_eq.
      + intros fs [c' (fs1 & Hm & Hn & Hd & ->)] _. exists fs1. split_and!; [done..|]. by rewrite insert_insert_eq.
    - intros fs Hw. split; [by eexists|]. destruct Hw as (fs1 & _ & _ & _ & ->). by rewrite lookup_insert_eq. }
  intros []. apply (triple_bind _ _ _ _ (λ _, with_tmp bytes)); [by apply triple_probe, with_tmp_ended|].
  intros []. apply (triple_bind _ _ _ _ (λ _, with_tmp bytes)).
  { unfold reject_link_if_present. eapply triple_bind; [by apply triple_metadata, with_tmp_ended|]. cbn beta.
    intros m. assert (Hgo : triple ended (λ fs, with_tmp bytes fs ∧ fs !! full = m) (mret () : storage_op ()) (λ _, with_tmp bytes))
      by (by apply hoare_ret; intros s []).
    destruct m as [[]|]; try exact Hgo. apply hoare_fail. intros s [Hw _]. by eapply with_tmp_ended. }
  intros []. apply (triple_bind _ _ _ _ (λ _, renamed)).
  - assert (Hmove : ∀ fs, with_tmp bytes fs → rename_allowed tmp full fs = true → renamed (move_tree tmp full fs)).
    { intros fs (fs1 & Hm & Hn & Hd & ->) Ha. exists fs1.
      assert (Hf : fs1 !! full ≠ Some NDirectory).
      { intros Hf. unfold rename_allowed in Ha. rewrite lookup_insert_eq in Ha.
        rewrite lookup_insert_ne in Ha by apply tmp_not_full. by rewrite Hf in Ha. }
      split_and!; [done..|]. apply move_file; [apply Hm| |done..]. by apply string_app_neq. }
    apply triple_rename; [apply with_tmp_ended|]. intros fs Hw Ha. by split; [apply renamed_ended|]; apply Hmove.
  - intros []. unfold fsync_parent. apply triple_sync_keep. apply renamed_ended.
Qed.
Lemma write_spec :
  triple ended (eq fs0) (write_bytes_atomic self proc counter name bytes) (λ _, renamed).
Proof.
  unfold write_bytes_atomic. assert (Hs : ∀ fs, fs0 = fs → ended fs) by (intros ? <-; apply made_ended, made_start).
  eapply triple_bind; [by apply resolved|]. cbn beta. intros q.
  apply (storage_lock_spec _ _ _ made).
  - intros fs [<- _]. by apply Hs.
  - by apply made_ended.
  - intros fs l [<- _] _ _. apply made_start.
  - intros fs l [<- _] Hl Hn Hd. rewrite Hlock in Hl. injection Hl as <-. by apply made_lock; [apply made_start|..].
  - eapply triple_bind; [apply resolved, made_ended|]. cbn beta. intros f.
    apply (triple_assume _ _ _ _ (f = full)); [by intros ? []|]. intros ->.
    apply (triple_bind _ _ _ _ (λ _, made)); [apply make_parent; by intros ? []|]. intros [].
    eapply triple_bind; [apply resolved, made_ended|]. cbn beta. intros f.
    apply (triple_assume _ _ _ _ (f = full)); [by intros ? []|]. intros ->.
    apply (triple_pre _ _ made); [|by intros ? []].
    assert (Ht : tmp_path_for proc counter full = tmp) by apply tmp_path_for_snoc. rewrite Ht. apply put_in_place.
Qed.
End Writing.

(** ** A process whose accesses all work *)

Lemma calm_observe {E A} (failed : string → E) (f : tree → result E A) fs : observe failed f (calm fs) = (f fs, calm fs).
Proof. done. Qed.
Lemma calm_metadata {E} (failed : string → E) p fs n :
  fs !! p = Some n → symlink_metadata failed p (calm fs) = (Ok (Some n), calm fs).
Proof. intros Hp. unfold symlink_metadata. rewrite calm_observe. unfold metadata. by rewrite Hp. Qed.
Lemma calm_resolve_components fs relative current cs :
  rooted fs → Forall (λ c, c = CurDir ∨ ∃ name, c = Normal name) cs →
  (∃ n, fs !! (current ++ omap normal_name cs) = Some n ∧ n ≠ NLink) →
  resolve_components relative current cs (calm fs) = (Ok (current ++ omap normal_name cs), calm fs).
Proof.
  intros Hr. revert current. induction cs as [|c cs IH]; intros current Hall (n & Hn & Hl); [by rewrite app_nil_r|].
  apply Forall_cons in Hall as [[->|[part ->]] Hall]; cbn [resolve_components omap list_omap normal_name].
  - apply IH; [done|]. by exists n.
  - cbn in Hn. assert (Hpart : ∃ m, fs !! (current ++ [part]) = Some m ∧ m ≠ NLink).
    { destruct (omap normal_name cs) as [|x l] eqn:Ho; [by exists n|]. exists NDirectory. split; [|done].
      apply (rooted_prefix _ _ (x :: l)); [done| |done]. rewrite <- app_assoc. by exists n. }
    destruct Hpart as (m & Hm & Hml). erewrite op_ok_bind by (by apply calm_metadata).
    replace (current ++ part :: omap normal_name cs) with ((current ++ [part]) ++ omap normal_name cs) in * by (by rewrite <- app_assoc).
    destruct m as [b| | |]; try done; apply IH; [done|by exists n|done|by exists n|done|by exists n].
Qed.
Lemma calm_resolve fs root relative names :
  rooted fs → confined relative names → fs !! root = Some NDirectory →
  (∃ n, fs !! (root ++ names) = Some n ∧ n ≠ NLink) →
  resolve_under_root root relative (calm fs) = (Ok (root ++ names), calm fs).
Proof.
  intros Hr (He & Ha & Hall & ->) Hd Hn. unfold resolve_under_root.
  rewrite (bool_decide_eq_false_2 _ He), Ha. cbn [orb].
  erewrite op_ok_bind by (by apply calm_metadata). by apply calm_resolve_components.
Qed.
Lemma calm_with_lock {A} (self : FileStorageProvider) (o : storage_op A) lock b fs :
  lock_path self = Ok lock → fs !! lock = Some (NFile b) → with_storage_lock self o (calm fs) = o (calm fs).
Proof.
  intros Hl Hf. unfold with_storage_lock, acquire_operation_lock. rewrite Hl.
  assert (Ho : open_lock_file lock (calm fs) = (Ok (), calm fs)).
  { unfold open_lock_file, change. rewrite op_bind_assoc, op_get_bind. cbn [files calm]. rewrite Hf. done. }
  rewrite op_bind_assoc, op_lift_ok, op_bind_assoc. by rewrite (op_ok_bind _ _ _ _ _ Ho).
Qed.
Lemma calm_read_bytes self name names lock b c fs :
  rooted fs → confined name names → names ≠ [] → lock_path self = Ok lock → fs !! lock = Some (NFile b) →
  fs !! (storage_path self ++ names) = Some (NFile c) → read_bytes self name (calm fs) = (Ok c, calm fs).
Proof.
  intros Hr Hc Hne Hl Hlf Hf. assert (Hd : fs !! storage_path self = Some NDirectory)
    by (apply (rooted_prefix _ _ names); [done|by eexists|done]).
  assert (Hres : resolve_storage self name (calm fs) = (Ok (storage_path self ++ names), calm fs))
    by (apply calm_resolve; [done..|by exists (NFile c)]).
  unfold read_bytes. rewrite (op_ok_bind _ _ _ _ _ Hres), (calm_with_lock _ _ _ _ _ Hl Hlf), (op_ok_bind _ _ _ _ _ Hres).
  unfold read_regular_file. rewrite (op_ok_bind _ _ _ _ _ (calm_probes _ _ _)), calm_observe. unfold file_content. by rewrite Hf.
Qed.

(** The lock is a file once an operation has held it. *)
Section LockKept.
Context (self : FileStorageProvider) (lock : path) (Hlock : lock_path self = Ok lock).
Definition lock_there (fs : tree) : Prop := ∃ b, fs !! lock = Some (NFile b).
Abbreviation anything := (λ _ : tree, True).

Lemma lock_there_insert p n fs : lock_there fs → fs !! p = None → lock_there (<[p := n]> fs).
Proof. intros [b Hb] Hn. exists b. rewrite lookup_insert_ne; [done|]. intros ->. congruence. Qed.
Lemma lock_there_write {E} (failed : string → E) tmp full bytes :
  below tmp lock = None → below full lock = None →
  triple anything lock_there (write_atomic_file failed tmp full bytes) (λ _, lock_there).
Proof.
  intros Ht Hf. unfold write_atomic_file. apply (triple_bind _ _ _ _ (λ _, lock_there)).
  { apply triple_create_file; [done| |done]. intros fs Hl Hn _. by apply lock_there_insert. }
  intros []. apply (triple_bind _ _ _ _ (λ _, lock_there)).
  { apply triple_iter; [done|]. intros b. apply triple_update. intros fs [c Hc]. split_and!; [done..|].
    unfold lock_there, append_byte. destruct (decide (tmp = lock)) as [->|Hne].
    - exists (c ++ [b]). by rewrite lookup_alter_eq, Hc.
    - exists c. by rewrite lookup_alter_ne. }
  intros []. apply (triple_bind _ _ _ _ (λ _, lock_there)); [by apply triple_probe|]. intros [].
  apply (triple_bind _ _ _ _ (λ _, lock_there)).
  { unfold reject_link_if_present. eapply triple_bind; [by apply triple_metadata|]. cbn beta. intros m.
    destruct m as [[]|]; try (by apply hoare_ret; intros s []); by apply hoare_fail. }
  intros []. apply (triple_bind _ _ _ _ (λ _, lock_there)).
  - apply triple_rename; [done|]. intros fs [b Hb] _. split; [done|]. exists b. by rewrite lookup_move_other.
  - intros []. unfold fsync_parent. by apply triple_sync_keep.
Qed.
Lemma lock_there_after_write `{DirectoryOrder} proc counter name bytes front last_name :
  confined name (front ++ [last_name]) →
  triple anything anything (write_bytes_atomic self proc counter name bytes) (λ _, lock_there).
Proof.
  intros Hc. assert (Hfull : ∀ V, triple anything V (resolve_storage self name)
    (λ q fs, V fs ∧ q = (storage_path self ++ front) ++ [last_name])).
  { intros V. eapply triple_post; [by apply resolve_spec|]. intros q fs (Hv & names & (_ & _ & _ & ->) & -> & _).
    split; [done|]. destruct Hc as (_ & _ & _ & <-). by rewrite <- app_assoc. }
  unfold write_bytes_atomic. eapply triple_bind; [apply Hfull|]. cbn beta. intros q.
  apply (storage_lock_spec _ _ _ lock_there); [done..| | |].
  - intros fs l _ Hl (b & Hb). rewrite Hlock in Hl. injection Hl as <-. by exists b.
  - intros fs l _ Hl Hn _. rewrite Hlock in Hl. injection Hl as <-. exists []. by rewrite lookup_insert_eq.
  - eapply triple_bind; [apply Hfull|]. cbn beta. intros f.
    apply (triple_bind _ _ _ _ (λ _, lock_there)).
    { apply (triple_pre _ _ lock_there); [|by intros ? []]. unfold create_dir_all.
      eapply triple_post; [apply triple_create_dirs; [done|]|by intros ? ? []].
      intros p fs _ Hl Hn _. by apply lock_there_insert. }
    intros []. eapply triple_bind; [apply Hfull|]. cbn beta. intros f'.
    apply (triple_assume _ _ _ _ (f' = (storage_path self ++ front) ++ [last_name])); [by intros ? []|]. intros ->.
    apply (triple_pre _ _ lock_there); [|by intros ? []]. rewrite tmp_path_for_snoc, <- !app_assoc.
    by apply lock_there_write; eapply sibling_apart.
Qed.
End LockKept.

(** ** Temporary files *)

Lemma rooted_delete fs p : rooted fs → fs !! p ≠ Some NDirectory → rooted (delete p fs).
Proof.
  intros Hr Hp r name Hs. cbn in *. destruct (decide (r ++ [name] = p)) as [<-|Hne]; [rewrite lookup_delete_eq in Hs; by destruct Hs|].
  rewrite lookup_delete_ne in Hs by done. apply Hr in Hs. cbn in Hs. rewrite lookup_delete_ne; [done|]. by intros <-.
Qed.

Section Cleanup.
Context `{DirectoryOrderLaws} (self : FileStorageProvider) (lock : path) (Hlock : lock_path self = Ok lock) (fs0 : tree).

(** A regular file below one of the roots whose name ends in [.tmp]. *)
Definition temporary_file (q : path) : Prop :=
  (∃ b, fs0 !! q = Some (NFile b)) ∧ temporary_name q = true ∧ (inside (storage_path self) q ∨ inside (backup_path self) q).
Definition cleaned (fs : tree) : Prop :=
  rooted fs ∧ ∀ q, fs !! q = fs0 !! q ∨ (fs !! q = None ∧ temporary_file q) ∨
    (q = lock ∧ fs0 !! q = None ∧ ∃ b, fs !! q = Some (NFile b)).
(** No temporary file is left below a root. *)
Definition swept (root : path) (fs : tree) : Prop :=
  ∀ q b, inside root q → fs0 !! q = Some (NFile b) → temporary_name q = true → fs !! q = None.
Abbreviation triple V o Q := (hoare (on V) o (λ r, on (Q r)) (λ _, on cleaned)).

Lemma cleaned_delete fs p : cleaned fs → temporary_file p → cleaned (delete p fs).
Proof.
  intros [Hr Hq] Ht. split.
  - apply rooted_delete; [done|]. intros Hd. destruct Ht as [[b Hb] _].
    destruct (Hq p) as [Heq|[[Heq _]|(_ & Heq & _)]]; congruence.
  - intros q. destruct (decide (q = p)) as [->|Hne]; [right; left; by rewrite lookup_delete_eq|by rewrite lookup_delete_ne].
Qed.
Lemma remove_temporary_spec W es removed :
  (∀ fs p, W fs → W (delete p fs)) → Forall (λ e, is_temporary e = true → temporary_file (entry_path e)) es →
  triple (λ fs, cleaned fs ∧ W fs) (remove_temporary es removed)
    (λ _ fs, (cleaned fs ∧ W fs) ∧ Forall (λ e, is_temporary e = true → fs !! entry_path e = None) es).
Proof.
  intros HW. revert removed W HW. induction es as [|e es IH]; intros removed W HW Hes; cbn [remove_temporary];
    [by apply hoare_ret|]. apply Forall_cons in Hes as [He Hes].
  destruct (is_temporary e) eqn:Ht.
  - apply (triple_bind _ _ _ _ (λ _ fs, cleaned fs ∧ W fs ∧ fs !! entry_path e = None)).
    { apply triple_change; [by intros fs []|]. intros fs fs' [Hc Hw] Hf.
      assert (Hfs' : fs' = delete (entry_path e) fs) by (destruct (fs !! entry_path e) as [[]|]; by simplify_eq).
      subst fs'. assert (Hc' : cleaned (delete (entry_path e) fs)) by (by apply cleaned_delete; [|apply He]).
      split_and!; [done..|by apply HW|by rewrite lookup_delete_eq]. }
    intros []. eapply triple_post; [apply (IH (removed + 1) (λ fs, W fs ∧ fs !! entry_path e = None)); [|done]|].
    + intros fs p [Hw Hn]. split; [by apply HW|]. by rewrite lookup_delete_None; right.
    + intros n fs [(Hc & Hw & Hn) Hall]. split_and!; [done..|]. by constructor.
  - eapply triple_post; [by apply IH|]. intros n fs [Hc Hall]. split; [done|]. constructor; [by rewrite Ht|done].
Qed.
Lemma lock_not_temporary : temporary_name lock = false.
Proof.
  apply sibling_path_ok in Hlock as (d & n & _ & ->). unfold temporary_name, file_name. rewrite last_snoc.
  unfold str_ends_with. apply bool_decide_eq_false_2. intros Hd.
  apply (f_equal (str_drop 1)) in Hd. rewrite str_drop_drop in Hd. revert Hd.
  rewrite string_length_app. replace (_ - _ + 1)%nat with (String.length n + 2)%nat by
    (change (String.length ("." +:+ "lock")) with 5%nat; change (String.length ".tmp") with 4%nat; lia).
  rewrite <- str_drop_drop, str_drop_app. done.
Qed.
Lemma found_temporary root fs es e :
  cleaned fs → root = storage_path self ∨ root = backup_path self →
  kinds_right fs es ∧ e ∈ es ∧ entry_path e ∈ strictly_below root fs → is_temporary e = true →
  temporary_file (entry_path e).
Proof.
  intros [Hr Hc] Hroot (Hk & He & [Hin _]%elem_of_strictly_below) Ht.
  unfold is_temporary in Ht. apply andb_true_iff in Ht as [Hkind Hname]. apply bool_decide_eq_true in Hkind.
  destruct ((proj1 (Forall_forall _ _)) Hk e He) as (m & Hm & Hkm).
  rewrite Hkind in Hkm. destruct m as [b| | |]; try done.
  split_and!; [|done|by destruct Hroot as [->| ->]; auto].
  destruct (Hc (entry_path e)) as [Heq|[[Heq _]|(Hq & _)]]; [exists b; congruence|congruence|].
  rewrite Hq, lock_not_temporary in Hname. done.
Qed.
Lemma cleanup_dir_spec W root :
  (∀ fs p, W fs → W (delete p fs)) → root = storage_path self ∨ root = backup_path self →
  triple (λ fs, cleaned fs ∧ W fs) (cleanup_tmp_in_dir root) (λ _ fs, (cleaned fs ∧ W fs) ∧ swept root fs).
Proof.
  intros HW Hroot. unfold cleanup_tmp_in_dir. eapply triple_bind; [apply path_exists_spec; by intros fs []|].
  cbn beta. intros [].
  - apply (triple_pre _ _ (λ fs, cleaned fs ∧ W fs)); [|by intros fs []].
    eapply triple_bind; [apply bounded_tree_entries_spec; [by intros fs []|]|].
    { intros fs [[Hr _] _]. by apply rooted_below. }
    cbn beta. intros es. apply triple_each. intros fs ([Hc Hw] & Hk & Hp).
    eapply triple_post; [apply (triple_pre _ _ (λ fs', cleaned fs' ∧ (W fs' ∧ ∀ q, fs !! q = None → fs' !! q = None)));
      [apply remove_temporary_spec|by intros ? <-]|].
    + intros fs' p [Hw' Hn]. split; [by apply HW|]. intros q Hq. rewrite lookup_delete_None. right. by apply Hn.
    + apply Forall_forall. intros e He Ht. eapply (found_temporary root fs es); [done|done| |done].
      split_and!; [done..|]. rewrite <- Hp. by apply list_elem_of_In, in_map, list_elem_of_In.
    + intros n fs' [(Hc' & Hw' & Hn) Hall]. split; [done|]. intros q b Hin Hq Ht.
      destruct (fs !! q) as [m|] eqn:Hm; [|by apply Hn].
      assert (He : q ∈ map entry_path es) by (rewrite Hp; by apply elem_of_strictly_below).
      apply list_elem_of_In, in_map_iff in He as (e & <- & He). rewrite Forall_forall in Hall.
      apply list_elem_of_In in He. apply (Hall e He). unfold is_temporary. rewrite Ht.
      destruct ((proj1 (Forall_forall _ _)) Hk e He) as (m' & Hm' & Hkind).
      destruct Hc as [_ Hc]. destruct (Hc (entry_path e)) as [Heq|[[Heq _]|(_ & Heq & _)]]; [|congruence..].
      rewrite Heq, Hq in Hm'. injection Hm' as <-. by rewrite Hkind.
  - apply hoare_ret. intros s ([Hc Hw] & _ & Hb). split; [done|]. intros q b Hin Hq Ht.
    destruct Hc as [Hr Hall]. destruct Hin as (x & r & ->). apply rooted_none; [done| |done].
    intros Hd. assert (false = true) by (apply Hb; by eexists). done.
Qed.
Lemma cleanup_spec (Hroot : rooted fs0) :
  triple (eq fs0) (cleanup_temp_files self) (λ _ fs, cleaned fs ∧ swept (storage_path self) fs ∧ swept (backup_path self) fs).
Proof.
  assert (Hstart : cleaned fs0) by (split; [done|auto]).
  unfold cleanup_temp_files. apply (storage_lock_spec _ _ _ cleaned).
  - by intros fs <-.
  - done.
  - by intros fs l <- _ _.
  - intros fs l <- Hl Hn Hd. rewrite Hlock in Hl. injection Hl as <-. split; [by apply rooted_insert|]. intros q.
    destruct (decide (q = lock)) as [->|Hne]; [rewrite lookup_insert_eq; eauto 6|rewrite lookup_insert_ne by done; auto].
  - apply (triple_bind _ _ _ _ (λ _ fs, cleaned fs ∧ swept (storage_path self) fs)).
    { eapply triple_post; [apply (triple_pre _ _ (λ fs, cleaned fs ∧ True));
        [apply cleanup_dir_spec; auto|by intros fs]|]. by intros n fs [[? _] ?]. }
    intros n. apply (triple_bind _ _ _ _ (λ _ fs, (cleaned fs ∧ swept (storage_path self) fs) ∧ swept (backup_path self) fs)).
    + apply cleanup_dir_spec; [|auto]. intros fs p Hs q b Hin Hq Ht. rewrite lookup_delete_None. right. by eapply Hs.
    + intros m. apply hoare_ret. by intros s [[? ?] ?].
Qed.
End Cleanup.

(** ** Properties *)

(** C11: an atomic write either leaves its target as it was or puts the whole
    of the new bytes there, whatever fails and whenever the process dies. No
    other entry changes or goes away: only the lock, missing directories on the
    way and one temporary file below the data root may be new. When the write
    succeeds the bytes are there and the temporary file is gone. *)
Theorem write_is_atomic `{DirectoryOrder} self proc counter name bytes front last_name lock accesses fs :
  rooted fs → lock_path self = Ok lock → confined name (front ++ [last_name]) →
  let full := storage_path self ++ front ++ [last_name] in
  let tmp := storage_path self ++ front ++ [last_name +:+ tmp_tail proc counter] in
  let (r, d) := write_bytes_atomic self proc counter name bytes (restart accesses (calm fs)) in
  written fs lock tmp full bytes (files d) ∧
  (r = Ok () → files d !! full = Some (NFile bytes) ∧ (files d !! tmp = None)).
Proof.
  intros Hr Hl Hc full0 tmp0.
  assert (Hf : full0 = full self front last_name) by (unfold full0, full, dir; by rewrite <- app_assoc).
  assert (Ht : tmp0 = tmp self proc counter front last_name) by (unfold tmp0, tmp, dir; by rewrite <- app_assoc).
  rewrite Hf, Ht. clear full0 tmp0 Hf Ht.
  pose proof (write_spec self proc counter name bytes front last_name lock fs Hc Hl Hr (restart accesses (calm fs)) eq_refl) as Hw.
  destruct (write_bytes_atomic _ _ _ _ _ _) as [[[]|e] d]; [|by split].
  pose proof (renamed_ended self proc counter bytes front last_name lock fs _ Hw) as He.
  destruct Hw as (fs1 & Hm & Hn & Hd & Hdir & Hfs). split; [done|]. intros _.
  rewrite Hfs, lookup_insert_eq, lookup_insert_ne by (apply not_eq_sym, tmp_not_full). done.
Qed.

(** What a successful write stored is what a later read in a process
    whose accesses work returns, whatever the accesses of the write did. *)
Theorem written_bytes_are_read_back `{DirectoryOrder} self proc counter name bytes names accesses fs d :
  rooted fs → confined name names → names ≠ [] →
  write_bytes_atomic self proc counter name bytes (restart accesses (calm fs)) = (Ok (), d) →
  read_bytes self name (restart [] d) = (Ok bytes, restart [] d).
Proof.
  intros Hr Hc Hne Hw. destruct names as [|last_name front] using rev_ind; [done|].
  destruct (lock_path self) as [lock|e] eqn:Hl.
  - pose proof (write_spec self proc counter name bytes front last_name lock fs Hc Hl Hr (restart accesses (calm fs)) eq_refl) as H1.
    pose proof (lock_there_after_write self lock Hl proc counter name bytes front last_name Hc (restart accesses (calm fs)) I) as H2.
    rewrite Hw in H1, H2. pose proof (written_rooted _ _ _ _ _ _ (renamed_ended _ _ _ _ _ _ _ _ _ H1)) as Hr'.
    destruct H2 as [b Hb]. destruct H1 as (fs1 & _ & _ & _ & _ & Hfs).
    apply (calm_read_bytes self name (front ++ [last_name]) lock b); [done..|].
    rewrite Hfs. rewrite app_assoc. by rewrite lookup_insert_eq.
  - exfalso. unfold write_bytes_atomic in Hw. apply op_bind_inv in Hw as (q & d1 & _ & Hw).
    unfold with_storage_lock, acquire_operation_lock in Hw. rewrite Hl in Hw. done.
Qed.

(** A cleanup removes nothing but regular files below the two roots whose name
    ends in [.tmp], whatever fails on the way; when it succeeds none is left. *)
Theorem cleanup_removes_temporary_files `{DirectoryOrderLaws} self lock accesses fs :
  rooted fs → lock_path self = Ok lock →
  let (r, d) := cleanup_temp_files self (restart accesses (calm fs)) in
  cleaned self lock fs (files d) ∧
  (is_ok r = true → swept fs (storage_path self) (files d) ∧ swept fs (backup_path self) (files d)).
Proof.
  intros Hr Hl. pose proof (cleanup_spec self lock Hl fs Hr (restart accesses (calm fs)) eq_refl) as Hc.
  destruct (cleanup_temp_files _ _) as [[n|e] d]; [|by split].
  destruct Hc as (? & ? & ?). by split.
Qed.

(** A check that every entry is in a directory. *)
Definition rooted_check (fs : tree) : bool :=
  forallb (λ q, match q with [] => true | _ => is_dir fs (parent q) end) (map_to_list fs).*1.
Lemma rooted_check_sound fs : rooted_check fs = true → rooted fs.
Proof.
  unfold rooted_check. rewrite forallb_forall. intros Hall r name Hs. cbn in *.
  assert (Hin : r ++ [name] ∈ (map_to_list fs).*1) by (by apply elem_of_keys).
  apply list_elem_of_In, Hall in Hin. destruct (r ++ [name]) eqn:Hr; [by destruct r|]. rewrite <- Hr, parent_snoc in Hin.
  unfold is_dir in Hin. by apply bool_decide_eq_true in Hin.
Qed.

Lemma ok_run {S E A} (o : result E A * S) a : o.1 = Ok a → o = (Ok a, o.2).
Proof. destruct o. by intros [= ->]. Qed.

(** ** An example *)

Module StorageDemo.
#[local] Instance order : DirectoryOrder := λ _ names, names.
#[local] Instance order_laws : DirectoryOrderLaws.
Proof. by intros p names. Qed.
Definition provider : FileStorageProvider := provider_new ["srv"; "data"]%string ["srv"; "backups"]%string.
Definition proc : process := {| pid := 7; thread_id := "ThreadId(1)" |}.
Definition bytes_of (s : string) : list byte := String.list_byte_of_string s.
Definition disk0 : tree :=
  list_to_map [([], NDirectory); (["srv"], NDirectory); (["srv"; "data"], NDirectory); (["srv"; "backups"], NDirectory);
               (["srv"; "data"; "state.txt"], NFile (bytes_of "old"))]%string.

Lemma disk0_rooted : rooted disk0.
Proof. by apply rooted_check_sound; vm_compute. Qed.

(** The second byte of the write fails: the temporary file stays. *)
Definition failing : list access :=
  repeat Works 14 ++ [Fails "disk full"%string].
Lemma failed_write_keeps_the_file :
  let (r, d) := write_bytes_atomic provider proc 0 "state.txt" (bytes_of "new") (restart failing (calm disk0)) in
  r = Err (TransactionFailed "state.txt") ∧ files d !! ["srv"; "data"; "state.txt"]%string = Some (NFile (bytes_of "old")) ∧
  files d !! ["srv"; "data"; "state.txt.7_ThreadId1_0.tmp"]%string = Some (NFile (bytes_of "n")).
Proof. vm_compute. split_and!; reflexivity. Qed.

Definition confined_check (text : string) (names : path) : bool :=
  negb (bool_decide (text = EmptyString)) && negb (is_absolute text) &&
  forallb (λ c, match c with CurDir | Normal _ => true | _ => false end) (components text) &&
  bool_decide (names = omap normal_name (components text)).
Lemma confined_text text names : confined_check text names = true → confined text names.
Proof.
  unfold confined_check. intros [[[H1 H2]%andb_true_iff H3]%andb_true_iff H4]%andb_true_iff.
  apply negb_true_iff in H1, H2. apply bool_decide_eq_false in H1. apply bool_decide_eq_true in H4.
  split_and!; [done..| |done]. rewrite Forall_forall. intros c Hc. rewrite forallb_forall in H3.
  apply list_elem_of_In, H3 in Hc. destruct c as [| | |n]; [done|by left|done|right; by exists n].
Qed.
Lemma write_is_atomic_witness :
  let full := ["srv"; "data"; "a"; "b.txt"]%string in
  let tmp := ["srv"; "data"; "a"; "b.txt.7_ThreadId1_0.tmp"]%string in
  let (r, d) := write_bytes_atomic provider proc 0 "a/b.txt" (bytes_of "new") (restart failing (calm disk0)) in
  written disk0 ["srv"; "data.lock"]%string tmp full (bytes_of "new") (files d) ∧
  (r = Ok () → files d !! full = Some (NFile (bytes_of "new")) ∧ files d !! tmp = None).
Proof.
  exact (write_is_atomic provider proc 0 "a/b.txt" (bytes_of "new") ["a"%string] "b.txt" ["srv"; "data.lock"]%string failing disk0
    disk0_rooted eq_refl (confined_text "a/b.txt" ["a"; "b.txt"]%string eq_refl)).
Defined.

Definition after_write : fs_disk :=
  (write_bytes_atomic provider proc 0 "./a//b.txt" (bytes_of "new") (restart [Works; Works] (calm disk0))).2.
Lemma written_bytes_are_read_back_witness :
  read_bytes provider "./a//b.txt" (restart [] after_write) = (Ok (bytes_of "new"), restart [] after_write).
Proof.
  apply (written_bytes_are_read_back provider proc 0 "./a//b.txt" (bytes_of "new") ["a"; "b.txt"]%string [Works; Works] disk0).
  - exact disk0_rooted.
  - by apply confined_text.
  - done.
  - by apply ok_run; vm_compute.
Defined.

(** The path [.] resolves to the data root itself: a write to it fails, but its
    temporary file stays next to the root, where no cleanup looks. *)
Lemma dot_write_leaves_a_file_outside :
  let (r, d) := write_bytes_atomic provider proc 0 "." (bytes_of "x") (calm disk0) in
  let (r', d') := cleanup_temp_files provider d in
  r = Err (TransactionFailed ".") ∧ r' = Ok 0 ∧
  files d' !! ["srv"; "data.7_ThreadId1_0.tmp"]%string = Some (NFile (bytes_of "x")).
Proof. vm_compute. split_and!; reflexivity. Qed.
(** A live file whose name ends in [.tmp] is stored and then cleaned away. *)
Lemma cleanup_removes_live_files :
  let (r, d) := write_bytes_atomic provider proc 0 "report.tmp" (bytes_of "x") (calm disk0) in
  let (r', d') := cleanup_temp_files provider d in
  r = Ok () ∧ r' = Ok 1 ∧ files d' !! ["srv"; "data"; "report.tmp"]%string = None.
Proof. vm_compute. split_and!; reflexivity. Qed.
End StorageDemo.
