(* ===== verification/StorageBackup.v ===== *)
(** Whole-provider backups ([crates/appcore-storage/src/storage_backup.rs] and
    [storage_backup_list.rs]): checksummed snapshots made in a staging directory,
    their verification, the restore through a swap of directories, and the
    catalogue.

    The hash, the JSON form of a manifest, the clock and the creation times of
    files are parameters. *)

From S2P Require Import Prelude.
From S2P Require Import Text.
From S2P Require Import Types.
From S2P Require Import Encoding.
From S2P Require Import Files.
From S2P Require Import StorageTree.
From S2P Require Import StorageWalk.
From S2P Require Import Storage.

Local Open Scope N_scope.

Definition STORAGE_BACKUP_FORMAT_V1 : string := "appcore-storage-backup-v1".
Definition BACKUP_MANIFEST : string := "manifest.json".
Definition BACKUP_DATA : string := "data".
Definition MAX_BACKUP_FILES : N := 100000.
Definition MAX_BACKUP_MANIFEST_BYTES : N := 16777216.

Record StorageBackupManifestFileV1 := { manifest_path : string; manifest_size : N; manifest_sha256 : string }.
Record StorageBackupManifestV1 := {
  format : string; manifest_name : string; created_at_ms : N; manifest_files : list StorageBackupManifestFileV1 }.
Record BackupDescriptor := { backup_name : string; backup_created_at_ms : N }.
#[export] Instance BackupDescriptor_eq_dec : EqDecision BackupDescriptor.
Proof. solve_decision. Defined.
#[export] Instance StorageBackupManifestFileV1_eq_dec : EqDecision StorageBackupManifestFileV1.
Proof. solve_decision. Defined.
#[export] Instance StorageBackupManifestV1_eq_dec : EqDecision StorageBackupManifestV1.
Proof. solve_decision. Defined.
Definition descriptor (m : StorageBackupManifestV1) : BackupDescriptor :=
  {| backup_name := manifest_name m; backup_created_at_ms := created_at_ms m |}.

(** SHA-256 and [serde_json] on manifests. *)
Class BackupCodec := {
  sha256 : list byte → list byte;
  manifest_to_json : StorageBackupManifestV1 → option (list byte);
  manifest_of_json : list byte → option StorageBackupManifestV1;
}.
Class BackupCodecLaws `{BackupCodec} :=
  manifest_json_back : ∀ m b, manifest_to_json m = Some b → manifest_of_json b = Some m.

(** ** Names and paths *)

Definition validate_backup_name (name : string) : result StorageError () :=
  if bool_decide (name = EmptyString) || negb (length (components name) =? 1)%nat || str_prefix "." name
  then Err (InvalidPath name)
  else match components name with
       | Normal _ :: _ => Ok ()
       | _ => Err (InvalidPath name)
       end.
Definition validated_manifest_path (text : string) : result StorageError path :=
  if bool_decide (text = EmptyString) || is_absolute text ||
     existsb (λ c, match c with Normal _ => false | _ => true end) (components text)
  then Err (InvalidPath text)
  else Ok (omap normal_name (components text)).
Definition portable_path (p : path) : result StorageError string :=
  let text := relative_text p in
  if bool_decide (text = EmptyString) then Err (InvalidPath text) else Ok text.

(** [Path::with_extension]: what stands before the last dot is kept. *)
Fixpoint rsplit_dot (s : string) : option (string * string) :=
  match s with
  | EmptyString => None
  | String c s' =>
    match rsplit_dot s' with
    | Some (a, b) => Some (String c a, b)
    | None => if bool_decide (c = "."%char) then Some (EmptyString, s') else None
    end
  end.
Definition file_stem (name : string) : string :=
  match rsplit_dot name with
  | Some (before, _) => if bool_decide (before = EmptyString) then name else before
  | None => name
  end.
Definition with_extension (p : path) (extension : string) : path :=
  match file_name p with
  | Some name => with_file_name p (file_stem name +:+ "." +:+ extension)
  | None => p
  end.
Definition snapshot_staging_path (proc : process) (counter : N) (p : path) : path :=
  with_extension (tmp_path_for proc counter p) "snapshot.tmp".

(** [Ord] on paths compares name by name; on texts, byte by byte. *)
Fixpoint path_leb (p q : path) : bool :=
  match p, q with
  | [], _ => true
  | _ :: _, [] => false
  | x :: p', y :: q' => if decide (x = y) then path_leb p' q' else String.leb x y
  end.
Definition path_le (p q : path) : Prop := path_leb p q = true.
#[export] Instance path_le_dec : RelDecision path_le.
Proof. intros p q. unfold path_le. apply _. Defined.

Fixpoint op_map {A B} (f : A → storage_op B) (l : list A) : storage_op (list B) :=
  match l with
  | [] => mret []
  | a :: rest => b ← f a; bs ← op_map f rest; mret (b :: bs)
  end.

Section Backup.
Context `{DirectoryOrder} `{BackupCodec}.

(** ** Trees of files *)

Fixpoint regular_files (root : path) (es : list StorageTreeEntry) : result StorageError (list path) :=
  match es with
  | [] => Ok []
  | e :: rest =>
    match kind e with
    | KindLink => Err (InvalidPath (path_text (entry_path e)))
    | KindFile =>
      p ← ok_or (InvalidPath (path_text (entry_path e))) (below root (entry_path e));
      ps ← regular_files root rest;
      Ok (p :: ps)
    | _ => regular_files root rest
    end
  end.
Definition collect_regular_files (root : path) : storage_op (list path) :=
  es ← bounded_tree_entries root;
  op_lift (regular_files root es).
Definition reject_symlink_tree (root : path) : storage_op () := _ ← collect_regular_files root; mret ().

Fixpoint linked (es : list StorageTreeEntry) : option path :=
  match es with
  | [] => None
  | e :: rest => if decide (kind e = KindLink) then Some (entry_path e) else linked rest
  end.
Definition sync_directory_tree (root : path) : storage_op () :=
  es ← bounded_tree_entries root;
  match linked es with
  | Some p => op_fail (InvalidPath (path_text p))
  | None =>
    let directories := root :: map entry_path (filter (λ e, kind e = KindDirectory) es) in
    op_iter (sync_directory unavailable) (reverse directories)
  end.

Definition copy_and_sync (source destination : path) : storage_op () :=
  bytes ← read_regular_file unavailable source;
  _ ← create_new_file unavailable destination;
  _ ← write_all unavailable destination bytes;
  probe unavailable.
Definition hash_of (bytes : list byte) : N * string := (N.min (lenN bytes) u64_max, hex_encode (sha256 bytes)).
Definition hash_file (p : path) : storage_op (N * string) :=
  bytes ← read_regular_file unavailable p;
  mret (hash_of bytes).

(** ** Manifests *)

Definition write_manifest (proc : process) (counter : N) (root : path) (m : StorageBackupManifestV1) : storage_op () :=
  bytes ← op_lift (ok_or (BackupFailed (manifest_name m)) (manifest_to_json m));
  let p := root ++ [BACKUP_MANIFEST] in
  write_atomic_file (λ _, BackupFailed (manifest_name m)) (tmp_path_for proc counter p) p bytes.
Definition read_manifest (root : path) (name : string) : storage_op StorageBackupManifestV1 :=
  bytes ← read_regular_file (λ _, BackupFailed name) (root ++ [BACKUP_MANIFEST]);
  if MAX_BACKUP_MANIFEST_BYTES <? lenN bytes then op_fail (BackupFailed name)
  else op_lift (ok_or (BackupFailed name) (manifest_of_json bytes)).

Fixpoint verify_files (name : string) (data_root : path) (previous : option string)
    (files : list StorageBackupManifestFileV1) : storage_op () :=
  match files with
  | [] => mret ()
  | e :: rest =>
    relative ← op_lift (validated_manifest_path (manifest_path e));
    if match previous with Some p => String.leb (manifest_path e) p | None => false end
    then op_fail (BackupFailed name)
    else
      found ← hash_file (data_root ++ relative);
      if bool_decide (found = (manifest_size e, manifest_sha256 e))
      then verify_files name data_root (Some (manifest_path e)) rest
      else op_fail (BackupFailed name)
  end.
Definition verify_manifest (name : string) (data_root : path) (m : StorageBackupManifestV1) : storage_op () :=
  if negb (bool_decide (format m = STORAGE_BACKUP_FORMAT_V1)) || negb (bool_decide (manifest_name m = name)) ||
     (MAX_BACKUP_FILES <? lenN (manifest_files m))
  then op_fail (BackupFailed name)
  else
    _ ← verify_files name data_root None (manifest_files m);
    actual ← collect_regular_files data_root;
    if negb (lenN actual =? lenN (manifest_files m)) then op_fail (BackupFailed name) else mret ().

Section Provider.
Context (self : FileStorageProvider).

(** ** Snapshots *)

Definition copy_snapshot_file (source_root destination_root relative : path) : storage_op StorageBackupManifestFileV1 :=
  portable ← op_lift (portable_path relative);
  source ← resolve_under_root source_root portable;
  destination ← resolve_under_root destination_root portable;
  _ ← create_dir_all (λ _, BackupFailed (relative_text relative)) (parent destination);
  _ ← ensure_real_directory (parent destination);
  _ ← copy_and_sync source destination;
  found ← hash_file destination;
  mret {| manifest_path := portable; manifest_size := found.1; manifest_sha256 := found.2 |}.
Definition populate_snapshot (proc : process) (counter now : N) (name : string) (staging : path) :
    storage_op StorageBackupManifestV1 :=
  let data_root := staging ++ [BACKUP_DATA] in
  _ ← create_dir (λ _, BackupFailed name) data_root;
  collected ← collect_regular_files (storage_path self);
  let files := merge_sort path_le collected in
  if MAX_BACKUP_FILES <? lenN files then op_fail (BackupFailed name)
  else
    listed ← op_map (copy_snapshot_file (storage_path self) data_root) files;
    let m := {| format := STORAGE_BACKUP_FORMAT_V1; manifest_name := name; created_at_ms := now; manifest_files := listed |} in
    _ ← write_manifest proc counter staging m;
    _ ← sync_directory_tree data_root;
    _ ← sync_directory (λ _, BackupFailed name) staging;
    mret m.

(** The roots are compared as the file system resolves them. *)
Definition canonicalize (p : path) : storage_op path :=
  observe unavailable (λ fs, match fs !! p with Some _ => Ok p | None => Err NotAvailable end).
Definition reject_overlapping_roots (storage backup : path) : storage_op () :=
  storage ← canonicalize storage;
  backup ← canonicalize backup;
  if decide (below backup storage = None ∧ below storage backup = None) then mret ()
  else op_fail (InvalidPath (path_text backup)).

(** The counter names the staging directory, the next one the manifest. *)
Definition create_snapshot_locked (proc : process) (counter now : N) (name : string) : storage_op BackupDescriptor :=
  _ ← op_lift (validate_backup_name name);
  _ ← reject_overlapping_roots (storage_path self) (backup_path self);
  final_path ← resolve_under_root (backup_path self) name;
  there ← path_exists_no_follow final_path;
  if there : bool then op_fail (BackupFailed name)
  else
    let staging := snapshot_staging_path proc counter final_path in
    _ ← create_dir (λ _, BackupFailed name) staging;
    _ ← ensure_real_directory staging;
    made ← attempt (populate_snapshot proc (counter + 1) now name staging);
    _ ← (if is_ok made then mret () else _ ← attempt (remove_dir_all unavailable staging); mret ());
    manifest ← op_lift made;
    there ← path_exists_no_follow final_path;
    if there : bool then op_fail (BackupFailed name)
    else
      _ ← ensure_real_directory staging;
      _ ← rename (λ _, BackupFailed name) staging final_path;
      _ ← fsync_parent (λ _, BackupFailed name) final_path;
      mret (descriptor manifest).
Definition create_snapshot_backup (proc : process) (counter now : N) (name : string) : storage_op BackupDescriptor :=
  _ ← create_dirs self;
  with_storage_lock self (create_snapshot_locked proc counter now name).

(** ** Verification and restore *)

Definition load_verified_backup (name : string) : storage_op (path * StorageBackupManifestV1) :=
  _ ← op_lift (validate_backup_name name);
  root ← resolve_under_root (backup_path self) name;
  _ ← reject_symlink_tree root;
  m ← read_manifest root name;
  _ ← verify_manifest name (root ++ [BACKUP_DATA]) m;
  mret (root, m).
Definition verify_snapshot_backup (name : string) : storage_op BackupDescriptor :=
  with_storage_lock self (loaded ← load_verified_backup name; mret (descriptor loaded.2)).

Definition copy_verified_file (source_root destination_root : path) (e : StorageBackupManifestFileV1) : storage_op () :=
  _ ← op_lift (validated_manifest_path (manifest_path e));
  source ← resolve_under_root source_root (manifest_path e);
  destination ← resolve_under_root destination_root (manifest_path e);
  _ ← create_dir_all unavailable (parent destination);
  _ ← ensure_real_directory (parent destination);
  copy_and_sync source destination.
Definition copy_verified_tree (source_root destination_root : path) (m : StorageBackupManifestV1) : storage_op () :=
  there ← path_exists_no_follow destination_root;
  _ ← (if there : bool then
         _ ← ensure_real_directory destination_root; remove_dir_all unavailable destination_root
       else mret ());
  _ ← create_dir unavailable destination_root;
  _ ← op_iter (copy_verified_file source_root destination_root) (manifest_files m);
  sync_directory_tree destination_root.
Definition restore_snapshot_locked (name : string) : storage_op BackupDescriptor :=
  let failed := λ _ : string, BackupFailed name in
  _ ← recover_restore_locked self;
  loaded ← load_verified_backup name;
  let '(backup_root, manifest) := loaded in
  pending ← op_lift (restore_pending_path self);
  previous ← op_lift (restore_previous_path self);
  _ ← copy_verified_tree (backup_root ++ [BACKUP_DATA]) pending manifest;
  _ ← fsync_parent failed pending;
  _ ← rename failed (storage_path self) previous;
  _ ← fsync_parent failed previous;
  swapped ← attempt (rename unavailable pending (storage_path self));
  if is_ok swapped then
    _ ← fsync_parent failed (storage_path self);
    _ ← remove_dir_all failed previous;
    _ ← fsync_parent failed (storage_path self);
    mret (descriptor manifest)
  else
    _ ← attempt (rename unavailable previous (storage_path self));
    op_fail (BackupFailed name).
Definition restore_snapshot_backup (name : string) : storage_op BackupDescriptor :=
  _ ← create_dirs self;
  with_storage_lock self (restore_snapshot_locked name).

(** ** The catalogue *)

Definition descriptor_le (a b : BackupDescriptor) : Prop :=
  backup_created_at_ms a < backup_created_at_ms b ∨
  (backup_created_at_ms a = backup_created_at_ms b ∧ String.le (backup_name a) (backup_name b)).
#[local] Instance descriptor_le_dec : RelDecision descriptor_le.
Proof. intros a b. unfold descriptor_le. apply _. Defined.

(** [metadata_created_at_ms] of a file, when the system tells it. *)
Context (created : path → option N).
Definition list_entry (root : path) (name : string) : storage_op (option BackupDescriptor) :=
  if str_ends_with ".tmp" name then mret None
  else
    let p := root ++ [name] in
    m ← attempt (symlink_metadata unavailable p);
    match m with
    | Ok (Some NDirectory) =>
      m ← attempt (read_manifest p name);
      mret match m with
           | Ok m =>
             if bool_decide (format m = STORAGE_BACKUP_FORMAT_V1) && bool_decide (manifest_name m = name)
             then Some (descriptor m) else None
           | Err _ => None
           end
    | Ok (Some (NFile _)) =>
      mret ((λ at_ms, {| backup_name := name; backup_created_at_ms := at_ms |}) <$> created p)
    | _ => mret None
    end.
Definition list_backup_descriptors (root : path) : storage_op (list BackupDescriptor) :=
  names ← attempt (_ ← ensure_real_directory root; read_dir root);
  match names with
  | Ok names =>
    found ← op_map (list_entry root) names;
    mret (merge_sort descriptor_le (omap id found))
  | Err _ => mret []
  end.
Definition list_backups : storage_op (list BackupDescriptor) :=
  listed ← attempt (with_storage_lock self (list_backup_descriptors (backup_path self)));
  mret (match listed with Ok l => l | Err _ => [] end).
End Provider.
End Backup.

(** ** An example *)

Module BackupDemo.
#[export] Instance order : DirectoryOrder := λ _ names, names.
#[export] Instance order_laws : DirectoryOrderLaws.
Proof. by intros p names. Qed.
Definition line (s : string) : string := s +:+ String LF EmptyString.
Definition manifest_text (m : StorageBackupManifestV1) : string :=
  line (format m) +:+ line (manifest_name m) +:+ line (show_u64 (created_at_ms m)) +:+
  String.concat "" (map (λ e, line (manifest_path e) +:+ line (show_u64 (manifest_size e)) +:+ line (manifest_sha256 e))
                        (manifest_files m)).
Fixpoint parse_files (l : list string) : option (list StorageBackupManifestFileV1) :=
  match l with
  | [last_line] => if bool_decide (last_line = EmptyString) then Some [] else None
  | p :: size :: sha :: rest =>
    n ← parse_u64 size; es ← parse_files rest;
    Some ({| manifest_path := p; manifest_size := n; manifest_sha256 := sha |} :: es)
  | _ => None
  end.
Definition parse_manifest (b : list byte) : option StorageBackupManifestV1 :=
  match split_on LF (String.string_of_list_byte b) with
  | f :: n :: t :: rest =>
    at_ms ← parse_u64 t; es ← parse_files rest;
    Some {| format := f; manifest_name := n; created_at_ms := at_ms; manifest_files := es |}
  | _ => None
  end.
(** A text form that is used when it reads back, and a small checksum. *)
#[export] Instance codec : BackupCodec := {|
  sha256 := λ b, [byte_of_N (fold_left (λ acc x, acc * 31 + Byte.to_N x + 1) b 7)];
  manifest_to_json := λ m, let b := str_bytes (manifest_text m) in if decide (parse_manifest b = Some m) then Some b else None;
  manifest_of_json := parse_manifest;
|}.
#[export] Instance codec_laws : BackupCodecLaws.
Proof. intros m b. cbn. case_decide; [|done]. by intros [= <-]. Qed.

Definition provider : FileStorageProvider := provider_new ["srv"; "data"]%string ["srv"; "backups"]%string.
Definition proc : process := {| pid := 7; thread_id := "ThreadId(1)" |}.
Definition bytes_of (s : string) : list byte := String.list_byte_of_string s.
Definition file (s : string) : node := NFile (bytes_of s).
Definition with_files (l : list (path * node)) : tree :=
  list_to_map ([([], NDirectory); (["srv"], NDirectory); (["srv"; "data"], NDirectory); (["srv"; "backups"], NDirectory)]%string ++ l).
Definition no_times : path → option N := λ _, None.

(** The files of a snapshot are listed name by name, and its verification
    compares their paths as texts: with a directory and a file whose name goes
    on with a character before the slash, the snapshot is made and listed but
    can neither be verified nor restored. *)
Definition dotted : tree :=
  with_files [(["srv"; "data"; "a"], NDirectory); (["srv"; "data"; "a"; "b"], file "x"); (["srv"; "data"; "a.txt"], file "y")]%string.
Lemma dotted_snapshot_cannot_be_restored :
  let (made, d) := create_snapshot_backup provider proc 0 5 "snap" (calm dotted) in
  let snap := {| backup_name := "snap"; backup_created_at_ms := 5 |} in
  made = Ok snap ∧ (list_backups provider no_times d).1 = Ok [snap] ∧
  (verify_snapshot_backup provider "snap" d).1 = Err (BackupFailed "snap") ∧
  (restore_snapshot_backup provider "snap" d).1 = Err (BackupFailed "snap").
Proof. vm_compute. split_and!; reflexivity. Qed.

(** A temporary file that a crash left is part of the next snapshot; the
    cleanup of temporary files then takes it out of the snapshot, which no
    longer verifies. *)
Definition orphaned : tree := with_files [(["srv"; "data"; "s.7_T_0.tmp"], file "x"); (["srv"; "data"; "s"], file "y")]%string.
Lemma cleanup_breaks_a_snapshot :
  let (made, d) := create_snapshot_backup provider proc 0 5 "snap" (calm orphaned) in
  let (cleaned, d') := cleanup_temp_files provider d in
  is_ok made = true ∧ (verify_snapshot_backup provider "snap" d).1 = made ∧ cleaned = Ok 2 ∧
  is_ok (verify_snapshot_backup provider "snap" d').1 = false.
Proof. vm_compute. split_and!; reflexivity. Qed.

(** Names that a snapshot takes but the catalogue does not show. *)
Lemma accepted_names_are_not_listed :
  let (made, d) := create_snapshot_backup provider proc 0 5 "a/" (calm (with_files [])) in
  let (made', d') := create_snapshot_backup provider proc 2 6 "b.tmp" d in
  is_ok made = true ∧ is_ok made' = true ∧ (list_backups provider no_times d').1 = Ok [] ∧
  (verify_snapshot_backup provider "a/" d').1 = made.
Proof. vm_compute. split_and!; reflexivity. Qed.
End BackupDemo.
