(* ===== verification/StorageVerify.v ===== *)
(** What the steps of StorageBackup.v that only read establish: the regular
    files of a tree, and what a verified backup consists of. *)

From S2P Require Import Prelude.
From S2P Require Import Text.
From S2P Require Import Types.
From S2P Require Import Files.
From S2P Require Import StorageTree.
From S2P Require Import StorageWalk.
From S2P Require Import Storage.
From S2P Require Import StorageBackup.

Local Open Scope N_scope.

(** The regular files below a directory, each once. *)
Definition files_below (root : path) (fs : tree) (ps : list path) : Prop :=
  NoDup ps ∧ (∀ rel, rel ∈ ps ↔ rel ≠ [] ∧ ∃ b, fs !! (root ++ rel) = Some (NFile b)) ∧
  ∀ rel, rel ≠ [] → fs !! (root ++ rel) ≠ Some NLink.

Lemma regular_files_spec root fs es ps :
  kinds_right fs es → NoDup (map entry_path es) → Forall (λ e, inside root (entry_path e)) es →
  regular_files root es = Ok ps →
  NoDup ps ∧ Forall (λ e, kind e ≠ KindLink) es ∧
  ∀ rel, rel ∈ ps ↔ (root ++ rel) ∈ map entry_path es ∧ ∃ b, fs !! (root ++ rel) = Some (NFile b).
Proof.
  revert ps. induction es as [|e es IH]; intros ps Hk Hnd Hin; cbn [regular_files map].
  - intros [= <-]. split_and!; [constructor|done|]. intros rel. rewrite !elem_of_nil. naive_solver.
  - apply Forall_cons in Hk as [(n & Hn & Hkind) Hk]. apply NoDup_cons in Hnd as [He Hnd].
    apply Forall_cons in Hin as [(x & r & Hx) Hin]. rewrite Hx, below_app.
    assert (Hskip : kind e ≠ KindFile → kind e ≠ KindLink → regular_files root es = Ok ps →
      NoDup ps ∧ Forall (λ e, kind e ≠ KindLink) (e :: es) ∧
      ∀ rel, rel ∈ ps ↔ (root ++ rel) ∈ (root ++ x :: r) :: map entry_path es ∧ ∃ b, fs !! (root ++ rel) = Some (NFile b)).
    { intros Hf Hl Hps. apply IH in Hps as (H1 & H2 & H3); [|done..]. split_and!; [done|by constructor|].
      intros rel. rewrite H3, elem_of_cons. split; [naive_solver|]. intros [[Heq|?] [b Hb]]; [|eauto].
      rewrite Heq, <- Hx, Hn in Hb. injection Hb as ->. by rewrite Hkind in Hf. }
    destruct (kind e) eqn:Hke; try (by apply Hskip); [|done]. clear Hskip. cbn [ok_or mbind result_bind].
    destruct (regular_files root es) as [qs|] eqn:Hqs; cbn [mbind result_bind]; [|done]. intros [= <-].
    destruct (IH qs) as (H1 & H2 & H3); [done..|]. rewrite Hx in He. split_and!.
    + apply NoDup_cons. split; [|done]. rewrite H3. by intros [? _].
    + constructor; [by rewrite Hke|done].
    + destruct n as [b| | |]; try done. rewrite Hx in Hn. intros rel. rewrite !elem_of_cons, H3. split.
      * intros [->|[? ?]]; [|auto]. split; [by left|by exists b].
      * intros [[Heq|?] Hb]; [left; by apply app_inv_head in Heq|auto].
Qed.
Lemma collect_regular_files_spec `{DirectoryOrderLaws} (X V : tree → Prop) root :
  (∀ fs, V fs → X fs) → (∀ fs, V fs → parents_exist root fs) →
  triple X V (collect_regular_files root) (λ ps fs, V fs ∧ files_below root fs ps).
Proof.
  intros HV Hr. unfold collect_regular_files. eapply triple_bind; [by apply bounded_tree_entries_spec|]. cbn beta.
  intros es. eapply triple_post; [apply triple_lift; by intros fs []; apply HV|].
  intros ps fs [(Hv & Hk & Hp) Hps]. split; [done|].
  assert (Hin : ∀ q, q ∈ map entry_path es ↔ inside root q ∧ is_Some (fs !! q))
    by (intros q; by rewrite Hp, elem_of_strictly_below).
  apply (regular_files_spec root fs) in Hps as (H1 & H2 & H3); [|done| |].
  - split_and!; [done| |].
    + intros rel. rewrite H3, Hin. split.
      * intros [[(x & r & Hx) _] Hb]. split; [|done]. intros ->. apply app_inv_head in Hx. done.
      * intros [Hne [b Hb]]. split; [|by exists b]. split; [|by eexists]. destruct rel as [|x r]; [done|]. by exists x, r.
    + intros rel Hne Hl. assert (He : root ++ rel ∈ map entry_path es).
      { apply Hin. split; [|by eexists]. destruct rel as [|x r]; [done|]. by exists x, r. }
      apply list_elem_of_In, in_map_iff in He as (e & He & Hine). apply list_elem_of_In in Hine.
      rewrite Forall_forall in H2. apply (H2 e Hine). destruct ((proj1 (Forall_forall _ _)) Hk e Hine) as (m & Hm & ->).
      rewrite He, Hl in Hm. by injection Hm as <-.
  - rewrite Hp. apply strictly_below_nodup.
  - apply Forall_forall. intros e He. apply Hin. by apply list_elem_of_In, in_map, list_elem_of_In.
Qed.

(** ** Verified backups *)

Section Verified.
Context `{DirectoryOrderLaws} `{BackupCodec} (X : tree → Prop).
Implicit Types V W : tree → Prop.

(** The file of an entry is there with its size and digest. *)
Definition entry_holds (data_root : path) (fs : tree) (e : StorageBackupManifestFileV1) (rel : path) : Prop :=
  validated_manifest_path (manifest_path e) = Ok rel ∧
  ∃ b, fs !! (data_root ++ rel) = Some (NFile b) ∧ hash_of b = (manifest_size e, manifest_sha256 e).
Definition text_lt (s t : string) : Prop := String.leb t s = false.
(** What a verification establishes of the files under the data directory. *)
Record verified (name : string) (data_root : path) (fs : tree) (m : StorageBackupManifestV1) : Prop := {
  verified_format : format m = STORAGE_BACKUP_FORMAT_V1;
  verified_name : manifest_name m = name;
  verified_sorted : Sorted text_lt (map manifest_path (manifest_files m));
  verified_entries : ∃ rels, Forall2 (entry_holds data_root fs) (manifest_files m) rels;
  verified_count : ∃ ps, files_below data_root fs ps ∧ length ps = length (manifest_files m);
}.

Lemma hash_file_spec V p :
  (∀ fs, V fs → X fs) → triple X V (hash_file p) (λ h fs, V fs ∧ ∃ b, fs !! p = Some (NFile b) ∧ h = hash_of b).
Proof.
  intros HV. unfold hash_file. eapply triple_bind; [by apply triple_read_regular|]. cbn beta. intros b.
  apply hoare_ret. intros s [Hv Hb]. split; [done|]. by exists b.
Qed.
Lemma verify_files_spec V name data_root previous fs :
  (∀ fs, V fs → X fs) →
  triple X V (verify_files name data_root previous fs)
    (λ _ t, V t ∧ (∃ rels, Forall2 (entry_holds data_root t) fs rels) ∧
            Sorted text_lt (map manifest_path fs) ∧ (∀ p, previous = Some p → HdRel text_lt p (map manifest_path fs))).
Proof.
  revert V previous. induction fs as [|e fs IH]; intros V previous HV; cbn [verify_files].
  - apply hoare_ret. intros s Hv. split_and!; [done|by exists []|constructor|constructor].
  - destruct (validated_manifest_path (manifest_path e)) as [rel|err] eqn:Hrel;
      [|by apply hoare_lift_err; intros s Hv; apply HV].
    apply hoare_lift_ok. destruct (match previous with Some p => _ | None => false end) eqn:Hprev;
      [by apply hoare_fail; intros s Hv; apply HV|].
    eapply triple_bind; [by apply hash_file_spec|]. cbn beta. intros h.
    destruct (decide (h = (manifest_size e, manifest_sha256 e))) as [->|Hh];
      [rewrite bool_decide_eq_true_2 by done|
       rewrite bool_decide_eq_false_2 by done; by apply hoare_fail; intros s [Hv _]; apply HV].
    eapply triple_post; [apply IH; by intros t []; apply HV|].
    intros [] t ((Hv & b & Hb & Hhash) & (rels & Hrels) & Hs & Hd). split_and!; [done| | |].
    + exists (rel :: rels). constructor; [|done]. split; [done|]. by exists b.
    + cbn. constructor; [done|]. by apply Hd.
    + intros p ->. constructor. exact Hprev.
Qed.
Lemma verify_manifest_spec V name data_root m :
  (∀ fs, V fs → X fs) → (∀ fs, V fs → parents_exist data_root fs) →
  triple X V (verify_manifest name data_root m) (λ _ fs, V fs ∧ verified name data_root fs m).
Proof.
  intros HV Hr. unfold verify_manifest. destruct (_ || _ || _) eqn:Hc; [by apply hoare_fail; intros s Hv; apply HV|].
  apply orb_false_iff in Hc as [[Hfmt Hnm]%orb_false_iff _].
  apply negb_false_iff, bool_decide_eq_true in Hfmt, Hnm.
  eapply triple_bind; [by apply verify_files_spec|]. cbn beta. intros [].
  eapply triple_bind; [apply collect_regular_files_spec; intros fs []; auto|]. cbn beta. intros ps.
  destruct (N.eqb_spec (lenN ps) (lenN (manifest_files m))) as [Hl|Hl]; cbn [negb];
    [|by apply hoare_fail; intros s [[Hv _] _]; apply HV].
  apply hoare_ret. intros s ((Hv & He & Hs & _) & Hp). split; [done|].
  constructor; [done..|]. exists ps. split; [done|]. lia.
Qed.
Lemma read_manifest_spec V root name :
  (∀ fs, V fs → X fs) →
  triple X V (read_manifest root name)
    (λ m fs, V fs ∧ ∃ b, fs !! (root ++ [BACKUP_MANIFEST]) = Some (NFile b) ∧ manifest_of_json b = Some m).
Proof.
  intros HV. unfold read_manifest. eapply triple_bind; [by apply triple_read_regular|]. cbn beta. intros b.
  destruct (_ <? _); [by apply hoare_fail; intros s [Hv _]; apply HV|].
  eapply triple_post; [apply triple_lift; by intros fs []; apply HV|].
  intros m fs [[Hv Hb] Hm]. split; [done|]. exists b. split; [done|]. by destruct (manifest_of_json b); [injection Hm as ->|].
Qed.
Lemma load_verified_spec (self : FileStorageProvider) V name :
  (∀ fs, V fs → X fs) → (∀ fs, V fs → parents_exist (backup_path self) fs) →
  triple X V (load_verified_backup self name)
    (λ loaded fs, V fs ∧ ∃ names b, confined name names ∧ loaded.1 = backup_path self ++ names ∧
       fs !! (loaded.1 ++ [BACKUP_MANIFEST]) = Some (NFile b) ∧ manifest_of_json b = Some loaded.2 ∧
       verified name (loaded.1 ++ [BACKUP_DATA]) fs loaded.2).
Proof.
  intros HV Hr. unfold load_verified_backup.
  destruct (validate_backup_name name) as [[]|e]; [|by apply hoare_lift_err; intros s Hv; apply HV].
  apply hoare_lift_ok. eapply triple_bind; [by apply resolve_spec|]. cbn beta. intros root.
  apply triple_each. intros fs (Hv & names & Hc & -> & _ & _).
  assert (HX : ∀ t, fs = t → X t) by (intros ? <-; by apply HV).
  assert (Hp : ∀ q, parents_exist (backup_path self ++ q) fs).
  { intros q. by apply parents_exist_app, Hr. }
  apply (triple_bind _ _ _ _ (λ _, eq fs)).
  { unfold reject_symlink_tree. eapply triple_bind; [apply collect_regular_files_spec; [done|by intros ? <-]|].
    intros ps. apply hoare_ret. by intros s [? _]. }
  intros []. eapply triple_bind; [by apply read_manifest_spec|]. cbn beta. intros m.
  eapply triple_bind; [apply verify_manifest_spec; [by intros t [<- _]; apply HV|]|].
  { intros t [<- _]. rewrite <- app_assoc. apply Hp. }
  cbn beta. intros []. apply hoare_ret. intros s ([Heq (b & Hb & Hm)] & Hver). split; [by rewrite <- Heq|]. by exists names, b.
Qed.
End Verified.
