(* ===== verification/StorageCopy.v ===== *)
(** Copies of files from one directory to another, as snapshots and restores
    make them: the copy holds the files copied so far and nothing else but
    directories, whatever else the two operations keep meanwhile. *)

From S2P Require Import Prelude.
From S2P Require Import Text.
From S2P Require Import Types.
From S2P Require Import Files.
From S2P Require Import StorageTree.
From S2P Require Import StorageWalk.
From S2P Require Import Storage.
From S2P Require Import StorageBackup.
From S2P Require Import StorageVerify.

Local Open Scope N_scope.

(** Entries that are not at or below a path stay. *)
Definition changes_below (p : path) (fs fs' : tree) : Prop := ∀ q, below p q = None → fs' !! q = fs !! q.
Lemma changes_subtree p q fs fs' : apart p q → changes_below p fs fs' → subtree q fs' = subtree q fs.
Proof. intros Ha Hc. apply subtree_ext. intros r. apply Hc. by apply apart_below. Qed.
Lemma changes_drop p fs : changes_below p fs (drop_tree p fs).
Proof. intros q Hq. by apply lookup_drop. Qed.
Lemma changes_insert p r n fs : changes_below p fs (<[p ++ r := n]> fs).
Proof. intros q Hq. rewrite lookup_insert_ne; [done|]. intros <-. by rewrite below_app in Hq. Qed.
Lemma changes_insert_root p n fs : changes_below p fs (<[p := n]> fs).
Proof. rewrite <- (app_nil_r p) at 2. apply changes_insert. Qed.

Section Copy.
Context (source dest : path) (X Base : tree → Prop) (fs0 : tree).
Context (Hbase_X : ∀ fs, Base fs → X fs).
Context (Hbase_below : ∀ fs fs', Base fs → changes_below dest fs fs' → fs' !! dest = Some NDirectory → Base fs').
Context (Hbase_source : ∀ fs r, Base fs → fs !! (source ++ r) = fs0 !! (source ++ r)).
Context (Hbase_prefix : ∀ fs k r, Base fs →
  is_Some (fs !! take k (dest ++ r)) ∨ k = O ∨ ∃ s, take k (dest ++ r) = dest ++ s).

(** The files copied so far are those of the source, and there are no others. *)
Definition copying (copied : list path) (fs : tree) : Prop :=
  (Base fs ∧ fs !! dest = Some NDirectory) ∧ NoDup copied ∧
  (∀ r n, fs !! (dest ++ r) = Some n →
     n = NDirectory ∨ ∃ b, n = NFile b ∧ r ∈ copied ∧ fs0 !! (source ++ r) = Some (NFile b)) ∧
  (∀ r, r ∈ copied → ∃ b, fs !! (dest ++ r) = Some (NFile b) ∧ fs0 !! (source ++ r) = Some (NFile b)).
(** The file being copied. *)
Definition copying_file (copied : list path) (rel : path) (c : list byte) (fs : tree) : Prop :=
  ∃ fs1, copying copied fs1 ∧ fs1 !! (dest ++ rel) = None ∧ fs = <[dest ++ rel := NFile c]> fs1.

Lemma copying_X (copied : list path) fs : copying copied fs → X fs.
Proof. intros [[? _] _]. by apply Hbase_X. Qed.
Lemma insert_base (r : path) (n : node) (fs : tree) :
  Base fs ∧ fs !! dest = Some NDirectory → fs !! (dest ++ r) = None →
  Base (<[dest ++ r := n]> fs) ∧ <[dest ++ r := n]> fs !! dest = Some NDirectory.
Proof.
  intros [Hb Hd] Hn. assert (Hd' : <[dest ++ r := n]> fs !! dest = Some NDirectory)
    by (rewrite lookup_insert_ne; [done|intros He; congruence]).
  split; [|done]. eapply Hbase_below; [done|apply changes_insert|done].
Qed.
Lemma copying_directory (copied : list path) (r : path) (fs : tree) :
  copying copied fs → fs !! (dest ++ r) = None → copying copied (<[dest ++ r := NDirectory]> fs).
Proof.
  intros (Hrest & Hnd & Hall & Hdone) Hn. split; [by apply insert_base|split_and!; [done| |]].
  - intros s m. destruct (decide (r = s)) as [->|Hne].
    + rewrite lookup_insert_eq. intros [= <-]. by left.
    + rewrite lookup_insert_ne by (by intros ?%app_inv_head). apply Hall.
  - intros s Hs. destruct (Hdone s Hs) as (b & Hb & Hb0). exists b. split; [|done].
    rewrite lookup_insert_ne; [done|]. intros ?%app_inv_head. subst. congruence.
Qed.
Lemma copying_file_X (copied : list path) rel c fs : copying_file copied rel c fs → X fs.
Proof. intros (fs1 & (Hrest & _) & Hn & ->). by apply Hbase_X, insert_base. Qed.
Lemma copied_file (copied : list path) rel b fs :
  copying_file copied rel b fs → fs0 !! (source ++ rel) = Some (NFile b) → copying (rel :: copied) fs.
Proof.
  intros (fs1 & (Hrest & Hnd & Hall & Hdone) & Hn & ->) Hb0. split; [by apply insert_base|split_and!].
  - apply NoDup_cons. split; [|done]. intros Hin. apply Hdone in Hin as (c & Hc & _). congruence.
  - intros s m. destruct (decide (rel = s)) as [<-|Hne].
    + rewrite lookup_insert_eq. intros [= <-]. right. exists b. split_and!; [done|by left|done].
    + rewrite lookup_insert_ne by (by intros ?%app_inv_head). intros Hm.
      destruct (Hall s m Hm) as [?|(c & ? & ? & ?)]; [by left|right]. exists c. split_and!; [done|by right|done].
  - intros s [->|Hs]%elem_of_cons; [exists b; by rewrite lookup_insert_eq|].
    destruct (Hdone s Hs) as (c & Hc & Hc0). exists c. split; [|done].
    rewrite lookup_insert_ne; [done|]. intros ?%app_inv_head. subst. congruence.
Qed.

(** The three steps of a copy. *)
Lemma make_copy_parent {E} (failed : string → E) (copied : list path) rel :
  triple X (copying copied) (create_dir_all failed (parent (dest ++ rel))) (λ _, copying copied).
Proof.
  unfold create_dir_all. eapply triple_post; [apply triple_create_dirs|by intros ? ? []].
  - apply copying_X.
  - intros p fs Hp Hc Hn _. apply list_elem_of_fmap in Hp as (k & -> & Hk). apply elem_of_seq in Hk.
    unfold parent in *. rewrite take_take in *.
    destruct (Hbase_prefix fs (k `min` pred (length (dest ++ rel))) rel) as [[m Hm]|[Hz|(s & Hs)]].
    + apply Hc.
    + congruence.
    + rewrite length_take in Hk. lia.
    + rewrite Hs in *. by apply copying_directory.
Qed.
Lemma ensure_copy_parent (copied : list path) p :
  triple X (copying copied) (ensure_real_directory p) (λ _, copying copied).
Proof. eapply triple_post; [apply ensure_real_directory_spec, copying_X|by intros ? ? []]. Qed.
Lemma copy_and_sync_spec (copied : list path) rel :
  triple X (copying copied) (copy_and_sync (source ++ rel) (dest ++ rel)) (λ _, copying (rel :: copied)).
Proof.
  unfold copy_and_sync. eapply triple_bind; [apply triple_read_regular, copying_X|]. cbn beta. intros b.
  apply (triple_assume _ _ _ _ (fs0 !! (source ++ rel) = Some (NFile b))).
  { intros fs [Hc <-]. symmetry. apply Hbase_source, Hc. }
  intros Hb. apply (triple_bind _ _ _ _ (λ _, copying_file copied rel [])).
  { apply triple_create_file; [by intros fs []; eapply copying_X| |apply copying_file_X].
    intros fs [Hc _] Hn _. by exists fs. }
  intros []. apply (triple_bind _ _ _ _ (λ _, copying_file copied rel b)).
  { apply (triple_pre _ _ (λ fs, (∃ c, copying_file copied rel c fs) ∧ fs !! (dest ++ rel) = Some (NFile []))).
    - apply triple_write_all.
      + intros fs c [c' (fs1 & Hc & Hn & ->)] _. apply (copying_file_X copied rel c). exists fs1. split_and!; [done..|].
        by rewrite insert_insert_eq.
      + intros fs [c' (fs1 & Hc & Hn & ->)] _. exists fs1. split_and!; [done..|]. by rewrite insert_insert_eq.
    - intros fs Hf. split; [by eexists|]. destruct Hf as (fs1 & _ & _ & ->). by rewrite lookup_insert_eq. }
  intros []. apply (triple_post _ _ _ (λ _, copying_file copied rel b)); [apply triple_probe, copying_file_X|].
  intros [] fs Hf. by eapply copied_file.
Qed.

(** The tree holds the files of the source and nothing else but directories. *)
Definition same_files (T : tree) : Prop :=
  T !! [] = Some NDirectory ∧
  (∀ r b, r ≠ [] → T !! r = Some (NFile b) ↔ fs0 !! (source ++ r) = Some (NFile b)) ∧
  (∀ r n, T !! r = Some n → n = NDirectory ∨ ∃ b, n = NFile b).
Lemma fresh_copy fs : Base fs → subtree dest fs = ∅ → copying [] (<[dest := NDirectory]> fs).
Proof.
  intros Hb He. split; [split|split_and!].
  - eapply Hbase_below; [done|apply changes_insert_root|by rewrite lookup_insert_eq].
  - by rewrite lookup_insert_eq.
  - constructor.
  - intros r n. destruct (decide (r = [])) as [->|Hne]; [rewrite app_nil_r, lookup_insert_eq; intros [= <-]; by left|].
    rewrite lookup_insert_ne by (intros Hx; apply Hne, (app_inv_head dest); by rewrite app_nil_r).
    rewrite <- lookup_subtree, He, lookup_empty. done.
  - intros r Hin. by apply not_elem_of_nil in Hin.
Qed.
Lemma copy_complete (rels ps all : list path) fs :
  all ≡ₚ rels → copying all fs → files_below source fs0 ps → length ps = length rels → same_files (subtree dest fs).
Proof.
  intros Hall ((Hb & Hd) & Hnd & Hin & Hdone) (_ & Hps & _) Hlen.
  assert (Hsub : all ⊆ ps).
  { intros r Hr'. destruct (Hdone r Hr') as (b & Hfb & Hb0). apply Hps. split; [|by exists b].
    intros ->. rewrite app_nil_r in Hfb. congruence. }
  assert (Hperm : all ≡ₚ ps).
  { apply submseteq_length_Permutation; [by apply NoDup_submseteq|]. rewrite Hall. lia. }
  split_and!.
  - by rewrite subtree_root.
  - intros r b Hne. rewrite lookup_subtree. split; intros Hfb.
    + destruct (Hin r _ Hfb) as [?|(c & [= <-] & _ & ?)]; done.
    + assert (Hr' : r ∈ all) by (rewrite Hperm; apply Hps; split; [done|by exists b]).
      destruct (Hdone r Hr') as (c & Hc & Hc0). congruence.
  - intros r n. rewrite lookup_subtree. intros Hn. destruct (Hin r n Hn) as [?|(b & -> & _)]; eauto.
Qed.
End Copy.

Lemma sync_tree_reads `{DirectoryOrder} (X V : tree → Prop) root :
  (∀ fs, V fs → X fs) → triple X V (sync_directory_tree root) (λ _, V).
Proof.
  intros HV. unfold sync_directory_tree.
  apply (triple_bind _ _ _ _ (λ _, V)); [by apply bounded_tree_entries_reads|]. intros es.
  destruct (linked es); [by apply triple_fail|]. apply triple_iter; [done|]. intros p. by apply triple_sync_keep.
Qed.
