(* ===== verification/StorageRestore.v ===== *)
(** Restores that are interrupted (the directory swap of
    [restore_snapshot_locked] and [recover_restore_locked] in
    [crates/appcore-storage/src/storage_backup.rs]): whatever fails and whenever
    the process dies, the data root is the old tree or the whole restored one
    after the next recovery. *)

From S2P Require Import Prelude.
From S2P Require Import Text.
From S2P Require Import Types.
From S2P Require Import Encoding.
From S2P Require Import Files.
From S2P Require Import StorageTree.
From S2P Require Import StorageWalk.
From S2P Require Import Storage.
From S2P Require Import StorageBackup.
From S2P Require Import StorageVerify.
From S2P Require Import StorageCopy.

Local Open Scope N_scope.

(** Nothing at a path, or a directory. *)
Definition tidy (p : path) (fs : tree) : Prop := subtree p fs = ∅ ∨ fs !! p = Some NDirectory.
Lemma tidy_same p fs fs' : subtree p fs' = subtree p fs → tidy p fs → tidy p fs'.
Proof. unfold tidy. intros Hs. rewrite <- (subtree_root p fs), <- (subtree_root p fs'), Hs. done. Qed.
Lemma tidy_none p fs : tidy p fs → fs !! p = None → subtree p fs = ∅.
Proof. intros [?|Hp] Hn; [done|congruence]. Qed.
Lemma subtree_empty_root p fs : subtree p fs = ∅ → fs !! p = None.
Proof. intros Hs. by rewrite <- subtree_root, Hs. Qed.

Lemma tidy_absent p fs : rooted fs → fs !! p = None → tidy p fs.
Proof.
  intros Hr Hn. left. apply subtree_none. intros r. destruct (decide (r = [])) as [->|Hne]; [by rewrite app_nil_r|].
  apply rooted_none; [done|by rewrite Hn|done].
Qed.

Section Roots.
Context (self : FileStorageProvider) (lock pending previous : path).
Context (Hlock : lock_path self = Ok lock).
Context (Hpending : restore_pending_path self = Ok pending).
Context (Hprevious : restore_previous_path self = Ok previous).
Abbreviation data := (storage_path self).

Lemma roots_names : ∃ d n, data = d ++ [n] ∧ lock = d ++ [n +:+ ".lock"] ∧
  pending = d ++ [n +:+ ".restore.pending"] ∧ previous = d ++ [n +:+ ".restore.previous"].
Proof.
  apply sibling_path_ok in Hlock as (d & n & Hd & ->), Hpending as (d2 & n2 & Hd2 & ->), Hprevious as (d3 & n3 & Hd3 & ->).
  rewrite Hd in Hd2, Hd3. apply app_inj_2 in Hd2 as [<- [= <-]]; [|done]. apply app_inj_2 in Hd3 as [<- [= <-]]; [|done].
  by exists d, n.
Qed.
Lemma sibling_suffixes d n s t : s ≠ t → apart (d ++ [n +:+ s]) (d ++ [n +:+ t] : path).
Proof. intros Hst. apply apart_siblings. by intros ?%(inj _). Qed.
Lemma apart_data_lock : apart data lock.
Proof. rewrite <- (app_nil_r data). by eapply sibling_apart. Qed.
Lemma apart_data_pending : apart data pending.
Proof. rewrite <- (app_nil_r data). by eapply sibling_apart. Qed.
Lemma apart_data_previous : apart data previous.
Proof. rewrite <- (app_nil_r data). by eapply sibling_apart. Qed.
Lemma apart_pending_previous : apart pending previous.
Proof. destruct roots_names as (d & n & _ & _ & -> & ->). by apply sibling_suffixes. Qed.
Lemma apart_pending_lock : apart pending lock.
Proof. destruct roots_names as (d & n & _ & -> & -> & _). by apply sibling_suffixes. Qed.
Lemma apart_previous_lock : apart previous lock.
Proof. destruct roots_names as (d & n & _ & -> & _ & ->). by apply sibling_suffixes. Qed.
Lemma parents_same : parent pending = parent data ∧ parent previous = parent data ∧ parent lock = parent data.
Proof. destruct roots_names as (d & n & -> & -> & -> & ->). by rewrite !parent_snoc. Qed.

Context (fs0 : tree) (old : tree) (Hold : old !! [] = Some NDirectory).

(** The entries that no restore touches. *)
Definition outside (q : path) : Prop :=
  below data q = None ∧ below pending q = None ∧ below previous q = None ∧ q ≠ lock.
Definition frame (fs : tree) : Prop := ∀ q, outside q → fs !! q = fs0 !! q.
Definition lockish (fs : tree) : Prop := fs !! lock = None ∨ ∃ b, fs !! lock = Some (NFile b).

(** The data root in place, or moved away with its successor ready. *)
Definition at_rest (T fs : tree) : Prop :=
  frame fs ∧ lockish fs ∧ subtree data fs = T ∧ tidy pending fs ∧ tidy previous fs.
Definition half (T fs : tree) : Prop :=
  frame fs ∧ lockish fs ∧ subtree data fs = ∅ ∧ subtree pending fs = T ∧ subtree previous fs = old.
Definition settled (T fs : tree) : Prop :=
  at_rest T fs ∧ subtree pending fs = ∅ ∧ subtree previous fs = ∅.

Lemma changes_frame p fs fs' :
  p = data ∨ p = pending ∨ p = previous → changes_below p fs fs' → frame fs → frame fs'.
Proof. intros Hp Hc Hf q Hq. rewrite Hc; [by apply Hf|]. destruct Hq as (? & ? & ? & _). naive_solver. Qed.
Lemma changes_lockish p fs fs' :
  p = data ∨ p = pending ∨ p = previous → changes_below p fs fs' → lockish fs → lockish fs'.
Proof.
  intros Hp Hc Hl. unfold lockish. rewrite Hc; [done|].
  pose proof apart_data_lock as [? _]. pose proof apart_pending_lock as [? _]. pose proof apart_previous_lock as [? _].
  naive_solver.
Qed.
Lemma at_rest_root T fs : at_rest T fs → T !! [] = Some NDirectory → fs !! data = Some NDirectory.
Proof. intros (_ & _ & <- & _) HT. by rewrite subtree_root in HT. Qed.
Lemma rest_changes_pending T fs fs' :
  changes_below pending fs fs' → tidy pending fs' → at_rest T fs → at_rest T fs'.
Proof.
  intros Hc Ht (Hf & Hl & Hd & _ & Hp). split_and!; [apply (changes_frame pending fs); auto|apply (changes_lockish pending fs); auto| |done|].
  - rewrite <- Hd. eapply changes_subtree; [apply apart_sym, apart_data_pending|done].
  - eapply tidy_same; [|done]. eapply changes_subtree; [apply apart_pending_previous|done].
Qed.
Lemma rest_changes_previous T fs fs' :
  changes_below previous fs fs' → tidy previous fs' → at_rest T fs → at_rest T fs'.
Proof.
  intros Hc Ht (Hf & Hl & Hd & Hp & _). split_and!; [apply (changes_frame previous fs); auto|apply (changes_lockish previous fs); auto| | |done].
  - rewrite <- Hd. eapply changes_subtree; [apply apart_sym, apart_data_previous|done].
  - eapply tidy_same; [|done]. eapply changes_subtree; [apply apart_sym, apart_pending_previous|done].
Qed.
Lemma move_frame src dst fs :
  (src = data ∨ src = pending ∨ src = previous) → (dst = data ∨ dst = pending ∨ dst = previous) →
  frame fs → lockish fs → frame (move_tree src dst fs) ∧ lockish (move_tree src dst fs).
Proof.
  intros Hs Hd Hf Hl. split.
  - intros q Hq. pose proof Hq as (? & ? & ? & _). rewrite lookup_move_other by naive_solver. by apply Hf.
  - pose proof apart_data_lock as [? _]. pose proof apart_pending_lock as [? _]. pose proof apart_previous_lock as [? _].
    unfold lockish. by rewrite lookup_move_other by naive_solver.
Qed.
Lemma subtree_move_other src dst p fs : apart src p → apart dst p → subtree p (move_tree src dst fs) = subtree p fs.
Proof. intros Hs Hd. apply subtree_ext. intros r. apply lookup_move_other; by apply apart_below. Qed.

(** The two renames of a swap, and the way back. *)
Lemma move_away T fs :
  at_rest old fs → subtree pending fs = T → half T (move_tree data previous fs).
Proof.
  intros (Hf & Hl & Hd & _ & _) Hp. destruct (move_frame data previous fs) as [Hf' Hl']; [auto..|].
  split_and!; [done|done|by apply subtree_move_src, apart_data_previous| |].
  - rewrite <- Hp. apply subtree_move_other; [apply apart_data_pending|apply apart_sym, apart_pending_previous].
  - rewrite <- Hd. apply subtree_move_dst, apart_data_previous.
Qed.
Lemma move_in T fs : half T fs → T !! [] = Some NDirectory →
  at_rest T (move_tree pending data fs) ∧ subtree pending (move_tree pending data fs) = ∅ ∧
  subtree previous (move_tree pending data fs) = old.
Proof.
  intros (Hf & Hl & Hd & Hp & Hq) HT. destruct (move_frame pending data fs) as [Hf' Hl']; [auto..|].
  assert (Hpre : subtree previous (move_tree pending data fs) = old).
  { rewrite <- Hq. apply subtree_move_other; [apply apart_pending_previous|apply apart_data_previous]. }
  assert (Hpen : subtree pending (move_tree pending data fs) = ∅) by apply subtree_move_src, apart_sym, apart_data_pending.
  split_and!; [split_and!|done|done]; [done|done| |by left|].
  - rewrite <- Hp. apply subtree_move_dst, apart_sym, apart_data_pending.
  - right. by rewrite <- subtree_root, Hpre.
Qed.
Lemma move_back fs :
  frame fs → lockish fs → tidy pending fs → subtree previous fs = old → at_rest old (move_tree previous data fs).
Proof.
  intros Hf Hl Hp Hq. destruct (move_frame previous data fs) as [Hf' Hl']; [auto..|].
  split_and!; [done|done| | |].
  - rewrite <- Hq. apply subtree_move_dst, apart_sym, apart_data_previous.
  - eapply tidy_same; [|done]. apply subtree_move_other; [apply apart_sym, apart_pending_previous|apply apart_data_pending].
  - left. apply subtree_move_src, apart_sym, apart_data_previous.
Qed.

(** The directories above the roots are there. *)
Context (Hroot0 : rooted fs0) (Hdata0 : fs0 !! data = Some NDirectory).
Lemma ancestors k fs : frame fs → (k ≤ length (parent data))%nat → fs !! take k (parent data) = Some NDirectory.
Proof.
  intros Hf Hk. destruct roots_names as (d & n & Hd & Hl & Hp & Hq). rewrite Hd, parent_snoc in *.
  rewrite Hf.
  - apply (rooted_prefix _ _ (drop k d ++ [n])); [done| |by destruct (drop k d)].
    rewrite app_assoc, take_drop. by eexists.
  - assert (Hlen : ∀ x, below (d ++ [x]) (take k d) = None).
    { intros x. apply below_none. intros t Ht. apply (f_equal length) in Ht. rewrite !length_app, length_take in Ht. cbn [length] in Ht. lia. }
    unfold outside. rewrite Hd, Hl, Hp, Hq. split_and!; [apply Hlen..|]. intros He. specialize (Hlen (n +:+ ".lock")).
    rewrite He in Hlen. rewrite <- (app_nil_r (d ++ [_])) in Hlen at 2. by rewrite below_app in Hlen.
Qed.

(** ** Recovery *)

Section Recovery.
Context `{DirectoryOrder} (X : tree → Prop) (T : tree) (HT : T !! [] = Some NDirectory).
Context (HX : ∀ fs, at_rest T fs → X fs).

Lemma at_rest_exists p :
  triple X (λ fs, at_rest T fs) (real_directory_exists p)
    (λ b fs, at_rest T fs ∧ if b : bool then fs !! p = Some NDirectory else fs !! p = None).
Proof. by apply real_directory_exists_spec. Qed.
Lemma data_there fs : at_rest T fs → fs !! data ≠ None.
Proof. intros Hr Hn. eapply at_rest_root in Hr; [congruence|done]. Qed.

Lemma remove_leftover_spec p other fs1 :
  (p = pending ∧ other = previous ∨ p = previous ∧ other = pending) → at_rest T fs1 →
  triple X (eq fs1) (remove_leftover self p)
    (λ _ fs, at_rest T fs ∧ subtree p fs = ∅ ∧ subtree other fs = subtree other fs1).
Proof.
  intros Hp Hr. assert (HX1 : ∀ fs, fs1 = fs → X fs) by (intros ? <-; by apply HX).
  assert (Hkeep : ∀ fs, changes_below p fs1 fs → tidy p fs → at_rest T fs).
  { intros fs Hc Ht. destruct Hp as [[-> ->]|[-> ->]]; [by eapply rest_changes_pending|by eapply rest_changes_previous]. }
  assert (Ha : apart p other).
  { destruct Hp as [[-> ->]|[-> ->]]; [apply apart_pending_previous|apply apart_sym, apart_pending_previous]. }
  unfold remove_leftover. eapply triple_bind; [by apply real_directory_exists_spec|]. cbn beta. intros [].
  - eapply triple_bind; [apply real_directory_exists_spec; intros fs [? _]; by apply HX1|]. cbn beta. intros [].
    + apply (triple_pre _ _ (eq fs1)); [|by intros ? [[<- _] _]].
      eapply triple_post; [apply triple_remove_dir_all|].
      * by apply HX.
      * apply HX, Hkeep; [apply changes_drop|]. left. apply subtree_drop_same.
      * intros fs Hc Hd. apply HX, Hkeep; [done|]. by right.
      * intros ? ? ->. split_and!; [|apply subtree_drop_same|by apply subtree_drop_other].
        apply Hkeep; [apply changes_drop|]. left. apply subtree_drop_same.
    + apply hoare_ret. intros s [[Heq _] Hn]. unfold on. rewrite <- Heq in *. split_and!; [done| |done].
      apply tidy_none; [|done]. destruct Hr as (_ & _ & _ & ? & ?). by destruct Hp as [[-> _]|[-> _]].
  - apply hoare_ret. intros s [Heq Hn]. rewrite <- Heq in Hn. by apply data_there in Hr.
Qed.
Lemma finish_recovery :
  triple X (at_rest T)
    (_ ← remove_leftover self pending;
     _ ← remove_leftover self previous;
     here ← real_directory_exists data;
     if here : bool then fsync_parent unavailable data else mret ())
    (λ _, settled T).
Proof.
  apply triple_each. intros fs1 H1. eapply triple_bind; [apply (remove_leftover_spec pending previous); [by left|done]|].
  cbn beta. intros []. apply triple_each. intros fs2 (H2 & Hp & _).
  eapply triple_bind; [apply (remove_leftover_spec previous pending); [by right|done]|].
  cbn beta. intros []. apply (triple_pre _ _ (settled T)).
  - eapply triple_bind; [apply real_directory_exists_spec; intros fs []; by apply HX|]. cbn beta.
    assert (HXs : ∀ fs, settled T fs → X fs) by (intros fs []; by apply HX).
    intros []; [|by apply hoare_ret; intros s []].
    apply (triple_pre _ _ (settled T)); [|by intros ? []]. by apply triple_sync_keep.
  - intros fs (H3 & Hq & Hpq). split_and!; [done| |done]. by rewrite Hpq.
Qed.
Lemma recover_with V : (∀ fs, V fs → X fs) → triple X V (promote_root self pending previous) (λ _, at_rest T) →
  triple X V (recover_restore_locked self) (λ _, settled T).
Proof.
  intros HV Hpr. unfold recover_restore_locked. rewrite Hpending, Hprevious.
  apply hoare_lift_ok, hoare_lift_ok. eapply triple_bind; [exact Hpr|]. intros []. apply finish_recovery.
Qed.
Lemma recover_at_rest : triple X (at_rest T) (recover_restore_locked self) (λ _, settled T).
Proof.
  apply recover_with; [done|]. unfold promote_root. eapply triple_bind; [by apply real_directory_exists_spec|]. cbn beta.
  intros []; [by apply hoare_ret; intros s []|].
  intros s [Hr Hn]. by apply data_there in Hr.
Qed.
Lemma recover_half (HH : ∀ fs, half T fs → X fs) : triple X (half T) (recover_restore_locked self) (λ _, settled T).
Proof.
  apply recover_with; [done|]. unfold promote_root. eapply triple_bind; [by apply real_directory_exists_spec|]. cbn beta.
  intros [].
  { intros s [(_ & _ & Hd & _) Hn]. apply subtree_empty_root in Hd. unfold on in *. congruence. }
  eapply triple_bind; [apply real_directory_exists_spec; by intros fs []; apply HH|]. cbn beta. intros [].
  - apply triple_rename; [by intros fs [[? _] _]; apply HH|]. intros fs [[Hh _] _] _.
    apply move_in in Hh as (Hr & _ & _); [|done]. split; [by apply HX|done].
  - intros s [[(_ & _ & _ & Hp & _) _] Hn]. unfold on in *. rewrite <- Hp, subtree_root in HT. congruence.
Qed.
End Recovery.

(** ** The copy that is swapped in *)

Section Copying.
Context `{DirectoryOrder} `{BackupCodec} (source : path) (X : tree → Prop).
Context (Hsource : ∀ r, outside (source ++ r)).
Context (HX : ∀ fs, at_rest old fs → X fs).

(** The old tree in place, and nothing kept aside. *)
Definition ready (fs : tree) : Prop := at_rest old fs ∧ subtree previous fs = ∅.
Lemma ready_X fs : ready fs → X fs.
Proof. intros [? _]. by apply HX. Qed.
Lemma ready_below fs fs' :
  ready fs → changes_below pending fs fs' → fs' !! pending = Some NDirectory → ready fs'.
Proof.
  intros [Hr Hp] Hc Hd. split; [|rewrite <- Hp; by eapply changes_subtree; [apply apart_pending_previous|]].
  eapply rest_changes_pending; [done|by right|done].
Qed.
Lemma ready_source fs r : ready fs → fs !! (source ++ r) = fs0 !! (source ++ r).
Proof. intros [Hr _]. apply Hr, Hsource. Qed.
(** A prefix of a path in the copy is an ancestor that is there, or in the copy. *)
Lemma ready_prefix fs k r :
  ready fs → is_Some (fs !! take k (pending ++ r)) ∨ k = O ∨ ∃ s, take k (pending ++ r) = pending ++ s.
Proof.
  intros [[Hf _] _]. destruct roots_names as (d & n & Hd & Hl & Hp & Hq). pose proof (ancestors k fs Hf) as Ha.
  rewrite Hd, parent_snoc in Ha. destruct (decide (k ≤ length d)%nat) as [Hk|Hk].
  - left. rewrite Hp, <- app_assoc, take_app_le by done. rewrite Ha by done. by eexists.
  - right. right. exists (take (k - length pending) r). rewrite take_app, take_ge; [done|].
    rewrite Hp, length_app. cbn [length]. lia.
Qed.
Abbreviation copying := (StorageCopy.copying source pending ready fs0).
Abbreviation restored := (same_files source fs0).

Lemma validated_confined text rel names :
  validated_manifest_path text = Ok rel → confined text names → names = rel.
Proof.
  unfold validated_manifest_path. destruct (_ || _ || _); [done|]. intros [= <-] (_ & _ & _ & ->). done.
Qed.
Lemma copy_file_spec (copied : list path) e rel :
  validated_manifest_path (manifest_path e) = Ok rel →
  triple X (copying copied) (copy_verified_file source pending e) (λ _, copying (rel :: copied)).
Proof.
  intros Hrel. unfold copy_verified_file. rewrite Hrel. apply hoare_lift_ok.
  assert (Hc_X : ∀ fs, copying copied fs → X fs) by (intros fs [[? _] _]; by apply ready_X).
  assert (Hres : ∀ root, triple X (copying copied) (resolve_under_root root (manifest_path e))
    (λ q fs, copying copied fs ∧ q = root ++ rel)).
  { intros root. eapply triple_post; [by apply resolve_spec|].
    intros q fs (Hc & names & Hconf & -> & _). split; [done|]. by rewrite (validated_confined _ _ _ Hrel Hconf). }
  eapply triple_bind; [apply Hres|]. cbn beta. intros q.
  apply (triple_assume _ _ _ _ (q = source ++ rel)); [by intros ? []|]. intros ->.
  apply (triple_pre _ _ (copying copied)); [|by intros ? []].
  eapply triple_bind; [apply Hres|]. cbn beta. intros q.
  apply (triple_assume _ _ _ _ (q = pending ++ rel)); [by intros ? []|]. intros ->.
  apply (triple_pre _ _ (copying copied)); [|by intros ? []].
  apply (triple_bind _ _ _ _ (λ _, copying copied)).
  { apply make_copy_parent; [apply ready_X|apply ready_below|apply ready_prefix]. }
  intros []. apply (triple_bind _ _ _ _ (λ _, copying copied)); [apply ensure_copy_parent, ready_X|intros []].
  apply copy_and_sync_spec; [apply ready_X|apply ready_below|apply ready_source].
Qed.
Lemma copy_files_spec es rels :
  Forall2 (λ e rel, validated_manifest_path (manifest_path e) = Ok rel) es rels → ∀ copied : list path,
  triple X (copying copied) (op_iter (copy_verified_file source pending) es)
    (λ _ fs, ∃ all, all ≡ₚ rels ++ copied ∧ copying all fs).
Proof.
  induction 1 as [|e rel es rels He Hes IH]; intros copied; cbn [op_iter].
  - apply hoare_ret. intros s Hc. by exists copied.
  - apply (triple_bind _ _ _ _ (λ _, copying (rel :: copied))); [by apply copy_file_spec|intros []].
    eapply triple_post; [apply IH|]. intros [] fs (all & Hall & Hc). exists all. split; [|done].
    rewrite Hall. cbn. by rewrite Permutation_middle.
Qed.
Lemma emptied_pending fs1 : ready fs1 → fs1 !! pending = Some NDirectory →
  triple X (eq fs1) (remove_dir_all unavailable pending) (λ _ fs, ready fs ∧ subtree pending fs = ∅).
Proof.
  intros [Hr Hp] Hd. assert (Hdrop : ready (drop_tree pending fs1)).
  { split; [|rewrite <- Hp; apply subtree_drop_other, apart_pending_previous].
    eapply rest_changes_pending; [apply changes_drop|left; apply subtree_drop_same|done]. }
  eapply triple_post; [apply triple_remove_dir_all; [by apply HX|by apply ready_X|]|].
  - intros fs Hc Hd'. apply HX. eapply rest_changes_pending; [done|by right|done].
  - intros [] fs ->. split; [done|apply subtree_drop_same].
Qed.
Lemma copy_verified_tree_spec m rels ps :
  Forall2 (λ e rel, validated_manifest_path (manifest_path e) = Ok rel) (manifest_files m) rels →
  files_below source fs0 ps → length ps = length (manifest_files m) →
  triple X ready (copy_verified_tree source pending m) (λ _ fs, ready fs ∧ restored (subtree pending fs)).
Proof.
  intros Hrels Hps Hlen. unfold copy_verified_tree.
  eapply triple_bind; [apply path_exists_spec, ready_X|]. cbn beta. intros there.
  apply (triple_bind _ _ _ _ (λ _ fs, ready fs ∧ subtree pending fs = ∅)).
  { destruct there.
    - apply (triple_bind _ _ _ _ (λ _ fs, ready fs ∧ fs !! pending = Some NDirectory)).
      + eapply triple_post; [apply ensure_real_directory_spec; intros fs []; by apply ready_X|]. by intros ? ? [[? _] ?].
      + intros []. apply triple_each. intros fs [Hr Hd]. by apply emptied_pending.
    - apply hoare_ret. intros s (Hr & _ & Hn). split; [done|]. destruct Hr as [(_ & _ & _ & Ht & _) _].
      apply tidy_none; [done|]. destruct (files s !! pending) eqn:Hf; [|done]. assert (false = true) by (apply Hn; by eexists). done. }
  intros []. apply (triple_bind _ _ _ _ (λ _, copying [])).
  { apply triple_create_dir; [by intros fs []; apply ready_X|]. intros fs [Hr He] _ _.
    assert (Hc : copying [] (<[pending := NDirectory]> fs)) by (by apply fresh_copy; [apply ready_below|..]).
    split; [by apply ready_X, Hc|done]. }
  intros []. eapply triple_bind; [by apply copy_files_spec|]. cbn beta. intros [].
  apply (triple_post _ _ _ (λ _ fs, ∃ all, all ≡ₚ rels ++ [] ∧ copying all fs));
    [apply sync_tree_reads; intros fs (all & _ & Hc); by apply ready_X, Hc|].
  intros [] fs (all & Hall & Hc). split; [apply Hc|]. rewrite app_nil_r in Hall. eapply copy_complete; [done..|].
  rewrite Hlen. by eapply Forall2_length.
Qed.
End Copying.

(** ** The provider's steps *)

Section Steps.
Context `{DirectoryOrder} (X : tree → Prop) (T : tree) (HT : T !! [] = Some NDirectory).
Context (HX : ∀ fs, at_rest T fs → X fs).

Lemma rest_lock fs : at_rest T fs → at_rest T (<[lock := NFile []]> fs).
Proof.
  intros (Hf & Hl & Hd & Hp & Hq). assert (Hs : ∀ p, apart p lock → subtree p (<[lock := NFile []]> fs) = subtree p fs)
    by (intros p [? _]; by apply subtree_insert_other).
  split_and!.
  - intros q Hqo. rewrite lookup_insert_ne; [by apply Hf|]. intros <-. by destruct Hqo as (_ & _ & _ & ?).
  - right. exists []. by rewrite lookup_insert_eq.
  - rewrite Hs; [done|apply apart_data_lock].
  - eapply tidy_same; [apply Hs, apart_pending_lock|done].
  - eapply tidy_same; [apply Hs, apart_previous_lock|done].
Qed.
Lemma half_lock fs : half T fs → half T (<[lock := NFile []]> fs).
Proof.
  intros (Hf & Hl & Hd & Hp & Hq). assert (Hs : ∀ p, apart p lock → subtree p (<[lock := NFile []]> fs) = subtree p fs)
    by (intros p [? _]; by apply subtree_insert_other).
  split_and!.
  - intros q Hqo. rewrite lookup_insert_ne; [by apply Hf|]. intros <-. by destruct Hqo as (_ & _ & _ & ?).
  - right. exists []. by rewrite lookup_insert_eq.
  - rewrite Hs; [done|apply apart_data_lock].
  - rewrite Hs; [done|apply apart_pending_lock].
  - rewrite Hs; [done|apply apart_previous_lock].
Qed.
Lemma locked_at_rest {A} (o : storage_op A) Q :
  triple X (at_rest T) o Q → triple X (at_rest T) (with_storage_lock self o) Q.
Proof.
  apply storage_lock_spec; [done..|].
  intros fs l Hr Hl _ _. rewrite Hlock in Hl. injection Hl as <-. by apply rest_lock.
Qed.
Lemma make_data_parent : triple X (at_rest T) (create_dir_all unavailable (parent data)) (λ _, at_rest T).
Proof.
  unfold create_dir_all. eapply triple_post; [apply triple_create_dirs; [done|]|by intros ? ? []].
  intros p fs Hp Hr Hn _. apply list_elem_of_fmap in Hp as (k & -> & Hk). apply elem_of_seq in Hk.
  rewrite ancestors in Hn; [done|apply Hr|lia].
Qed.
Lemma keep_real_directory p V :
  (∀ fs, V fs → X fs) → (∀ fs, V fs → fs !! p ≠ None) → triple X V (create_real_directory_all p) (λ _, V).
Proof.
  intros HV Hp. unfold create_real_directory_all. eapply triple_bind; [by apply triple_metadata|]. cbn beta. intros [n|].
  - apply (triple_pre _ _ V); [|by intros ? []]. eapply triple_post; [by apply ensure_real_directory_spec|by intros ? ? []].
  - intros s [Hv Hn]. by apply Hp in Hv.
Qed.
Lemma backup_there fs : (∀ r, outside (backup_path self ++ r)) → fs0 !! backup_path self = Some NDirectory →
  frame fs → fs !! backup_path self ≠ None.
Proof. intros Ho Hb Hf. rewrite Hf; [by rewrite Hb|]. specialize (Ho []). by rewrite app_nil_r in Ho. Qed.
Lemma create_dirs_spec :
  (∀ r, outside (backup_path self ++ r)) → fs0 !! backup_path self = Some NDirectory →
  triple X (at_rest T) (create_dirs self) (λ _, settled T).
Proof.
  intros Ho Hb. unfold create_dirs. apply (triple_bind _ _ _ _ (λ _, at_rest T)); [apply make_data_parent|intros []].
  apply (triple_bind _ _ _ _ (λ _, at_rest T)); [|intros []].
  { apply keep_real_directory; [done|]. intros fs Hr. apply backup_there; [done..|apply Hr]. }
  apply (triple_bind _ _ _ _ (λ _, at_rest T)); [|intros there].
  { eapply triple_post; [by apply path_exists_spec|by intros ? ? []]. }
  apply (triple_bind _ _ _ _ (λ _, at_rest T)); [|intros []].
  { destruct there; [|by apply hoare_ret]. eapply triple_post; [by apply ensure_real_directory_spec|by intros ? ? []]. }
  apply (triple_bind _ _ _ _ (λ _, settled T)); [|intros []].
  { unfold recover_snapshot_restore. by apply locked_at_rest, recover_at_rest. }
  apply keep_real_directory; [intros fs []; by apply HX|]. intros fs [Hr _]. by apply (data_there T).
Qed.
End Steps.

(** ** The restore *)

Section Restore.
Context `{DirectoryOrderLaws} `{BackupCodec} (name : string).
Context (Hbackup : ∀ r, outside (backup_path self ++ r)) (Hbdir : fs0 !! backup_path self = Some NDirectory).

(** Where the data of the backup is. *)
Definition backup_root : path := backup_path self ++ omap normal_name (components name).
Definition backup_source : path := backup_root ++ [BACKUP_DATA].
Abbreviation new := (same_files backup_source fs0).
(** The old tree or the whole of the new one, in place or about to be. *)
Definition swapped (fs : tree) : Prop :=
  ∃ T, new T ∧ at_rest T fs ∧ subtree pending fs = ∅ ∧ subtree previous fs = old.
Definition swapping (fs : tree) : Prop := ∃ T, new T ∧ half T fs.
Definition whole (fs : tree) : Prop := at_rest old fs ∨ ∃ T, new T ∧ (half T fs ∨ at_rest T fs).
Definition finished (fs : tree) : Prop := ∃ T, new T ∧ settled T fs.

Lemma source_outside r : outside (backup_source ++ r).
Proof. unfold backup_source, backup_root. rewrite <- !app_assoc. apply Hbackup. Qed.
Lemma whole_old fs : at_rest old fs → whole fs.
Proof. by left. Qed.
Lemma swapping_whole fs : swapping fs → whole fs.
Proof. intros (T & ? & ?). right. exists T. auto. Qed.
Lemma swapped_whole fs : swapped fs → whole fs.
Proof. intros (T & ? & ? & _). right. exists T. auto. Qed.
Lemma finished_whole fs : finished fs → whole fs.
Proof. intros (T & ? & ? & _). right. exists T. auto. Qed.

Lemma triple_attempt {A : Type} (V : tree → Prop) (o : storage_op A) (Q : A → tree → Prop) (Y Z : tree → Prop) :
  triple Y V o Q → triple Z V (attempt o) (λ r fs, match r with Ok a => Q a fs | Err _ => Y fs end).
Proof. intros Ho d Hd. specialize (Ho d Hd). unfold attempt. by destruct (o d) as [[a|e] d']. Qed.

(** What the verification of the backup says of the tree at the start. *)
Lemma loaded_source fs :
  frame fs → ∀ loaded, (∃ names b, confined name names ∧ loaded.1 = backup_path self ++ names ∧
     fs !! (loaded.1 ++ [BACKUP_MANIFEST]) = Some (NFile b) ∧ manifest_of_json b = Some loaded.2 ∧
     verified name (loaded.1 ++ [BACKUP_DATA]) fs loaded.2) →
  loaded.1 = backup_root ∧
  (∃ rels, Forall2 (λ e rel, validated_manifest_path (manifest_path e) = Ok rel) (manifest_files loaded.2) rels) ∧
  ∃ ps, files_below backup_source fs0 ps ∧ length ps = length (manifest_files loaded.2).
Proof.
  intros Hf [root m] (names & b & (_ & _ & _ & ->) & Hroot & _ & _ & Hv). cbn in *. subst root.
  split; [done|]. destruct (verified_entries _ _ _ _ Hv) as [rels Hrels]. split.
  - exists rels. eapply Forall2_impl; [exact Hrels|]. by intros e rel [? _].
  - destruct (verified_count _ _ _ _ Hv) as (ps & (Hnd & Hps & Hl) & Hlen). exists ps. split; [|done].
    assert (Hsame : ∀ rel, fs !! (backup_source ++ rel) = fs0 !! (backup_source ++ rel)) by (intros rel; apply Hf, source_outside).
    split_and!; [done| |].
    + intros rel. rewrite Hps. fold backup_root backup_source. by rewrite Hsame.
    + intros rel Hne. rewrite <- Hsame. by apply Hl.
Qed.
Lemma load_at_rest :
  triple whole (settled old) (load_verified_backup self name)
    (λ loaded fs, settled old fs ∧ loaded.1 = backup_root ∧
       (∃ rels, Forall2 (λ e rel, validated_manifest_path (manifest_path e) = Ok rel) (manifest_files loaded.2) rels) ∧
       ∃ ps, files_below backup_source fs0 ps ∧ length ps = length (manifest_files loaded.2)).
Proof.
  eapply triple_post; [apply load_verified_spec|].
  - intros fs []. by apply whole_old.
  - intros fs [Hr _] r x Hs. assert (Hf : frame fs) by apply Hr. rewrite Hf in Hs by apply Hbackup.
    rewrite Hf by apply Hbackup. by apply (rooted_below (backup_path self)) in Hs.
  - intros loaded fs [Hs Hload]. split; [done|]. eapply loaded_source; [apply Hs|exact Hload].
Qed.

Lemma swap_out : triple whole (λ fs, (at_rest old fs ∧ subtree previous fs = ∅) ∧ new (subtree pending fs))
  (rename (λ _, BackupFailed name) data previous) (λ _, swapping).
Proof.
  apply triple_rename; [intros fs [[? _] _]; by apply whole_old|]. intros fs [[Hr _] Hnew] _.
  assert (Hs : swapping (move_tree data previous fs)) by (eexists; split; [exact Hnew|by apply move_away]).
  split; [by apply swapping_whole|done].
Qed.
Lemma swap_in : triple whole swapping (attempt (rename unavailable pending data))
  (λ r fs, if is_ok r then swapped fs else swapping fs ∨ swapped fs).
Proof.
  eapply triple_post; [apply (triple_attempt _ _ (λ _, swapped) (λ fs, swapping fs ∨ swapped fs)); apply triple_rename; [by left|]|].
  - intros fs (T & Hnew & Hh) _. assert (HT : T !! [] = Some NDirectory) by apply Hnew.
    assert (Hs : swapped (move_tree pending data fs)) by (exists T; split; [done|]; by apply move_in).
    split; [by right|done].
  - by intros [[]|e] fs.
Qed.
Lemma swap_back : triple whole (λ fs, swapping fs ∨ swapped fs)
  (_ ← attempt (rename unavailable previous data); op_fail (BackupFailed name) : storage_op BackupDescriptor) (λ _, finished).
Proof.
  assert (HV : ∀ fs, swapping fs ∨ swapped fs → whole fs) by (intros fs [?|?]; [by apply swapping_whole|by apply swapped_whole]).
  apply (triple_bind _ _ _ _ (λ _, whole)).
  - eapply triple_post; [apply (triple_attempt _ _ (λ _, whole) whole); apply triple_rename; [done|]|by intros [[]|e] fs].
    intros fs Hs _. assert (Hback : at_rest old (move_tree previous data fs)).
    { destruct Hs as [(T & Hnew & Hf & Hl & Hd & Hp & Hq)|(T & Hnew & (Hf & Hl & Hd & Hp & _) & _ & Hq)].
      - apply move_back; [done|done| |done]. right. rewrite <- subtree_root, Hp. apply Hnew.
      - by apply move_back. }
    by split; apply whole_old.
  - intros _. by apply triple_fail.
Qed.
Lemma drop_previous : triple whole swapped (remove_dir_all (λ _, BackupFailed name) previous) (λ _, finished).
Proof.
  apply triple_each. intros fs (T & Hnew & Hr & Hp & Hq).
  assert (Hkeep : ∀ fs', changes_below previous fs fs' → tidy previous fs' → at_rest T fs') by
    (intros fs' ? ?; by eapply rest_changes_previous).
  assert (Hat : ∀ fs', at_rest T fs' → whole fs') by (intros fs' ?; right; exists T; auto).
  eapply triple_post; [apply triple_remove_dir_all|].
  - by apply Hat.
  - apply Hat, Hkeep; [apply changes_drop|]. left. apply subtree_drop_same.
  - intros fs' Hc Hd. apply Hat, Hkeep; [done|]. by right.
  - intros [] fs' ->. exists T. split; [done|]. split_and!.
    + apply Hkeep; [apply changes_drop|]. left. apply subtree_drop_same.
    + rewrite <- Hp. apply subtree_drop_other, apart_sym, apart_pending_previous.
    + apply subtree_drop_same.
Qed.
Lemma restore_locked_spec : triple whole (at_rest old) (restore_snapshot_locked self name) (λ _, finished).
Proof.
  unfold restore_snapshot_locked. apply (triple_bind _ _ _ _ (λ _, settled old)); [by apply recover_at_rest, whole_old|intros []].
  eapply triple_bind; [apply load_at_rest|]. cbn beta. intros [root m]. cbn [fst snd].
  apply (triple_assume _ _ _ _ (root = backup_root ∧
    (∃ rels, Forall2 (λ e rel, validated_manifest_path (manifest_path e) = Ok rel) (manifest_files m) rels) ∧
    ∃ ps, files_below backup_source fs0 ps ∧ length ps = length (manifest_files m))); [by intros ? []|].
  intros (-> & (rels & Hrels) & ps & Hps & Hlen). rewrite Hpending, Hprevious. apply hoare_lift_ok, hoare_lift_ok.
  apply (triple_bind _ _ _ _ (λ _ fs, (at_rest old fs ∧ subtree previous fs = ∅) ∧ new (subtree pending fs))).
  { apply (triple_pre _ _ (ready)); [|intros fs [(? & _ & ?) _]; done].
    eapply copy_verified_tree_spec; [apply source_outside|apply whole_old|exact Hrels|exact Hps|exact Hlen]. }
  intros []. apply (triple_bind _ _ _ _ (λ _ fs, (at_rest old fs ∧ subtree previous fs = ∅) ∧ new (subtree pending fs))).
  { apply triple_sync_keep. intros fs [[? _] _]. by apply whole_old. }
  intros []. apply (triple_bind _ _ _ _ (λ _, swapping)); [apply swap_out|intros []].
  apply (triple_bind _ _ _ _ (λ _, swapping)); [apply triple_sync_keep, swapping_whole|intros []].
  eapply triple_bind; [apply swap_in|]. cbn beta. intros r. destruct (is_ok r); [|apply swap_back].
  apply (triple_bind _ _ _ _ (λ _, swapped)); [apply triple_sync_keep, swapped_whole|intros []].
  apply (triple_bind _ _ _ _ (λ _, finished)); [apply drop_previous|intros []].
  apply (triple_bind _ _ _ _ (λ _, finished)); [apply triple_sync_keep, finished_whole|intros []].
  by apply hoare_ret.
Qed.
Lemma restore_spec : triple whole (at_rest old) (restore_snapshot_backup self name) (λ _, finished).
Proof.
  unfold restore_snapshot_backup. apply (triple_bind _ _ _ _ (λ _, settled old)); [by apply create_dirs_spec; [|apply whole_old|..]|intros []].
  apply (triple_pre _ _ (at_rest old)); [|by intros fs []]. apply locked_at_rest; [apply whole_old|apply restore_locked_spec].
Qed.

(** What a recovery leaves of it. *)
Definition settled_whole (fs : tree) : Prop := settled old fs ∨ finished fs.
Lemma locked_half T Q :
  new T → triple whole (half T) (recover_restore_locked self) Q →
  triple whole (half T) (with_storage_lock self (recover_restore_locked self)) Q.
Proof.
  intros Hnew. assert (Hh : ∀ fs, half T fs → whole fs) by (intros fs Hh; apply swapping_whole; by exists T).
  apply storage_lock_spec; [done..|].
  intros fs l Hhalf Hlk _ _. rewrite Hlock in Hlk. injection Hlk as <-. by apply half_lock.
Qed.
Lemma recover_spec : triple whole whole (recover_snapshot_restore self) (λ _, settled_whole).
Proof.
  unfold recover_snapshot_restore. apply triple_each. intros fs [Hr|(T & Hnew & [Hh|Hr])].
  - apply (triple_pre _ _ (at_rest old)); [|by intros ? <-].
    eapply triple_post; [apply locked_at_rest; [apply whole_old|apply recover_at_rest; [done|apply whole_old]]|]. by left.
  - assert (HT : T !! [] = Some NDirectory) by apply Hnew. apply (triple_pre _ _ (half T)); [|by intros ? <-].
    eapply triple_post; [apply locked_half; [done|apply (recover_half _ T); [done|..]]|].
    + intros fs' ?. right. exists T. auto.
    + intros fs' ?. right. exists T. auto.
    + intros [] fs' Hs. right. by exists T.
  - assert (HT : T !! [] = Some NDirectory) by apply Hnew. apply (triple_pre _ _ (at_rest T)); [|by intros ? <-].
    assert (Hat : ∀ fs', at_rest T fs' → whole fs') by (intros fs' ?; right; exists T; auto).
    eapply triple_post; [apply locked_at_rest; [done|by apply recover_at_rest]|]. intros [] fs' Hs. right. by exists T.
Qed.
End Restore.

(** ** A recovery whose accesses work succeeds *)

Section Calm.
Context `{DirectoryOrder}.
Definition succeeds {A : Type} (V : tree → Prop) (o : storage_op A) : Prop :=
  ∀ fs, V fs → ∃ a fs', o (calm fs) = (Ok a, calm fs').
Lemma succeeds_bind {A B : Type} (X V : tree → Prop) (m : storage_op A) (k : A → storage_op B) (R : A → tree → Prop) :
  succeeds V m → triple X V m R → (∀ a, succeeds (R a) (k a)) → succeeds V (m ≫= k).
Proof.
  intros Hm Ht Hk fs Hv. destruct (Hm fs Hv) as (a & fs' & Hrun). specialize (Ht (calm fs) Hv). rewrite Hrun in Ht.
  destruct (Hk a fs' Ht) as (b & fs'' & Hrun'). exists b, fs''. by rewrite (op_ok_bind _ _ _ _ _ Hrun).
Qed.
Lemma succeeds_ret {A : Type} (V : tree → Prop) (a : A) : succeeds V (mret a : storage_op A).
Proof. intros fs _. by exists a, fs. Qed.
Lemma succeeds_change (V : tree → Prop) reason f :
  (∀ fs, V fs → is_Some (f fs)) → succeeds V (change unavailable reason f).
Proof.
  intros Hf fs Hv. destruct (Hf fs Hv) as [fs' Hfs']. exists (), fs'. unfold change. rewrite op_get_bind. cbn [files calm].
  by rewrite Hfs'.
Qed.
Lemma not_blocked p fs :
  frame fs → p = data ∨ p = pending ∨ p = previous → blocked fs p = false.
Proof.
  intros Hf Hp. unfold blocked. apply not_true_iff_false. intros Hb. apply existsb_exists in Hb as (k & Hk & Hb).
  apply in_seq in Hk. destruct roots_names as (d & n & Hd & _ & Hpe & Hpr). pose proof (ancestors k fs Hf) as Ha.
  rewrite Hd, parent_snoc in Ha.
  assert (Htake : take k p = take k d ∧ (k ≤ length d)%nat).
  { destruct Hp as [-> | [-> | ->]]; rewrite ?Hd, ?Hpe, ?Hpr, length_app in *; cbn [length] in *; (split; [apply take_app_le|]; lia). }
  destruct Htake as [Ht Hle]. by rewrite Ht, Ha in Hb.
Qed.
Lemma rde_succeeds p V :
  (∀ fs, V fs → frame fs) → p = data ∨ p = pending ∨ p = previous →
  (∀ fs, V fs → fs !! p = None ∨ fs !! p = Some NDirectory) → succeeds V (real_directory_exists p).
Proof.
  intros HV Hp Hd fs Hv. unfold real_directory_exists, path_exists_no_follow.
  assert (Hm : symlink_metadata unavailable p (calm fs) = (Ok (fs !! p), calm fs)).
  { unfold symlink_metadata. rewrite calm_observe. unfold metadata. rewrite (not_blocked p fs (HV fs Hv) Hp).
    by destruct (fs !! p). }
  rewrite op_bind_assoc, (op_ok_bind _ _ _ _ _ Hm). destruct (Hd fs Hv) as [Hn|Hn]; rewrite Hn; [by exists false, fs|].
  rewrite op_ret_bind. unfold ensure_real_directory. rewrite op_bind_assoc, (op_ok_bind _ _ _ _ _ Hm), Hn. by exists true, fs.
Qed.
Lemma iter_deletes_succeeds (qs : list path) V : succeeds V (op_iter (λ q, update_files unavailable (delete q)) qs).
Proof.
  intros fs _. revert fs. induction qs as [|q qs IH]; intros fs; [by exists (), fs|]. cbn [op_iter].
  destruct (IH (delete q fs)) as (a & fs' & Hrun). exists a, fs'. exact Hrun.
Qed.
Lemma remove_dir_succeeds p V : (∀ fs, V fs → fs !! p = Some NDirectory) → succeeds V (remove_dir_all unavailable p).
Proof.
  intros Hp fs Hv. unfold remove_dir_all. rewrite (op_ok_bind _ _ _ _ _ (calm_probe _ _)), op_get_bind. cbn [files calm].
  unfold is_dir. rewrite bool_decide_eq_true_2 by (by apply Hp).
  destruct (iter_deletes_succeeds (contents_below p fs) (λ _, True) fs I) as ([] & fs' & Hrun).
  exists (), (delete p fs'). by rewrite (op_ok_bind _ _ _ _ _ Hrun).
Qed.
Lemma sync_parent_succeeds V : (∀ fs, V fs → frame fs) → succeeds V (fsync_parent unavailable data).
Proof.
  intros HV fs Hv. exists (), fs. unfold fsync_parent, sync_directory. rewrite (op_ok_bind _ _ _ _ _ (calm_probes _ _ _)), calm_observe.
  unfold is_dir. rewrite bool_decide_eq_true_2; [done|]. pose proof (ancestors (length (parent data)) fs (HV fs Hv)) as Ha.
  rewrite take_ge in Ha by done. by apply Ha.
Qed.
Lemma tidy_here p fs : tidy p fs → fs !! p = None ∨ fs !! p = Some NDirectory.
Proof. intros [Hn|?]; [left; by apply subtree_empty_root|by right]. Qed.

Abbreviation anything := (λ _ : tree, True).
Section Tree.
Context (T : tree) (HT : T !! [] = Some NDirectory).
Lemma remove_leftover_succeeds p V :
  (∀ fs, V fs → at_rest T fs) → p = pending ∨ p = previous → succeeds V (remove_leftover self p).
Proof.
  intros HV Hp. unfold remove_leftover. eapply (succeeds_bind anything); [|by apply real_directory_exists_spec|].
  - apply rde_succeeds; [intros fs Hv; apply (HV fs Hv)|auto|]. intros fs Hv. right. by eapply at_rest_root; [apply HV|].
  - cbn beta. intros []; [|apply succeeds_ret]. eapply (succeeds_bind anything); [|by apply real_directory_exists_spec|].
    + apply rde_succeeds; [intros fs [Hv _]; apply (HV fs Hv)|auto|]. intros fs [Hv _]. apply tidy_here.
      destruct (HV fs Hv) as (_ & _ & _ & ? & ?). by destruct Hp as [-> | ->].
    + cbn beta. intros []; [|apply succeeds_ret]. apply remove_dir_succeeds. by intros fs [_ ?].
Qed.
Lemma promote_succeeds V : (∀ fs, V fs → at_rest T fs ∨ half T fs) → succeeds V (promote_root self pending previous).
Proof.
  intros HV. assert (Hf : ∀ fs, V fs → frame fs) by (intros fs Hv; by destruct (HV fs Hv) as [[? _]|[? _]]).
  unfold promote_root. eapply (succeeds_bind anything); [|by apply real_directory_exists_spec|].
  { apply rde_succeeds; [done|auto|]. intros fs Hv. destruct (HV fs Hv) as [Hr|(_ & _ & Hd & _)].
    - right. by eapply at_rest_root. - left. by apply subtree_empty_root. }
  cbn beta. intros []; [apply succeeds_ret|].
  assert (HV' : ∀ fs, V fs ∧ fs !! data = None → half T fs ∧ fs !! pending = Some NDirectory).
  { intros fs [Hv Hn]. destruct (HV fs Hv) as [Hr|Hh]; [exfalso; by eapply data_there|].
    split; [done|]. destruct Hh as (_ & _ & _ & Hp & _). by rewrite <- subtree_root, Hp. }
  eapply (succeeds_bind anything); [|by apply real_directory_exists_spec|].
  { apply rde_succeeds; [intros fs []; auto|auto|]. intros fs Hv. right. by apply HV'. }
  cbn beta. intros [].
  - apply succeeds_change. intros fs [Hv Hp]. destruct (HV' fs Hv) as [(Hfr & _) _]. destruct Hv as [_ Hn].
    unfold rename_allowed. rewrite Hp, Hn. unfold is_dir.
    pose proof (ancestors (length (parent data)) fs Hfr) as Ha. rewrite take_ge in Ha by done.
    rewrite (bool_decide_eq_true_2 (fs !! parent data = _)) by (by apply Ha).
    rewrite bool_decide_eq_true_2 by apply apart_data_pending. by eexists.
  - intros fs [Hv Hn]. destruct (HV' fs Hv) as [_ Hp]. congruence.
Qed.
Lemma promote_spec : triple anything (λ fs, at_rest T fs ∨ half T fs) (promote_root self pending previous) (λ _, at_rest T).
Proof.
  unfold promote_root. eapply triple_bind; [by apply real_directory_exists_spec|]. cbn beta. intros [].
  - apply hoare_ret. intros s [[Hr|(_ & _ & Hd & _)] Hs]; [done|]. apply subtree_empty_root in Hd. unfold on in *. congruence.
  - eapply triple_bind; [by apply real_directory_exists_spec|]. cbn beta. intros [].
    + apply triple_rename; [done|]. intros fs [[[Hr|Hh] Hn] _] _; [by eapply data_there in Hr|].
      split; [done|]. by apply move_in.
    + intros s [[[Hr|(_ & _ & _ & Hp & _)] Hn] Hpn]; [by eapply data_there in Hr|].
      unfold on in *. rewrite <- Hp, subtree_root in HT. congruence.
Qed.
Lemma recover_succeeds V :
  (∀ fs, V fs → at_rest T fs ∨ half T fs) → succeeds V (recover_restore_locked self).
Proof.
  intros HV. unfold recover_restore_locked. rewrite Hpending, Hprevious. intros fs Hv. rewrite !op_lift_ok. revert fs Hv.
  apply (succeeds_bind anything _ _ _ (λ _, at_rest T)); [by apply promote_succeeds|by apply (triple_pre _ _ _ _ _ promote_spec)|].
  intros []. apply (succeeds_bind anything _ _ _ (λ _, at_rest T)); [by apply remove_leftover_succeeds; auto| |].
  { apply triple_each. intros fs Hr. eapply triple_post; [by apply (remove_leftover_spec anything T HT (λ _ _, I) pending previous); [by left|]|].
    by intros ? ? []. }
  intros []. apply (succeeds_bind anything _ _ _ (λ _, at_rest T)); [by apply remove_leftover_succeeds; auto| |].
  { apply triple_each. intros fs Hr. eapply triple_post; [by apply (remove_leftover_spec anything T HT (λ _ _, I) previous pending); [by right|]|].
    by intros ? ? []. }
  intros []. eapply (succeeds_bind anything); [|by apply real_directory_exists_spec|].
  - apply rde_succeeds; [by intros fs []|auto|]. intros fs Hr. right. by eapply at_rest_root.
  - cbn beta. intros []; [|apply succeeds_ret]. apply sync_parent_succeeds. by intros fs [[] _].
Qed.
Lemma lock_succeeds V : (∀ fs, V fs → frame fs ∧ lockish fs) → succeeds V (acquire_operation_lock self).
Proof.
  intros HV fs Hv. destruct (HV fs Hv) as [Hf Hl]. unfold acquire_operation_lock. rewrite Hlock, op_lift_ok.
  unfold open_lock_file, change. rewrite op_bind_assoc, op_bind_assoc, op_get_bind. cbn [files calm].
  destruct Hl as [Hn|[b Hb]].
  - rewrite Hn. pose proof (ancestors (length (parent data)) fs Hf) as Ha. rewrite take_ge in Ha by done.
    destruct parents_same as (_ & _ & Hpl). unfold is_dir. rewrite Hpl, bool_decide_eq_true_2 by (by apply Ha).
    by exists (), (<[lock := NFile []]> fs).
  - rewrite Hb. by exists (), fs.
Qed.
End Tree.

(** With the lock taken, from any state a restore leaves. *)
Context `{BackupCodec} (name : string) (Hbackup : ∀ r, outside (backup_path self ++ r)).
Lemma whole_cases fs : whole name fs →
  ∃ T, T !! [] = Some NDirectory ∧ (at_rest T fs ∨ half T fs) ∧ (T = old ∨ same_files (backup_source name) fs0 T).
Proof.
  intros [Hr|(T & Hnew & Hh)]; [exists old; auto|]. exists T. split_and!; [apply Hnew|naive_solver|auto].
Qed.
Lemma locked_succeeds fs :
  whole name fs → ∃ d, recover_snapshot_restore self (calm fs) = (Ok (), d) ∧ settled_whole name (files d) ∧ d = calm (files d).
Proof.
  intros Hw. pose proof (recover_spec name (calm fs) Hw) as Hspec.
  destruct (whole_cases fs Hw) as (T & HT & Hcases & _).
  assert (Hs : succeeds (λ fs', fs' = fs) (with_storage_lock self (recover_restore_locked self))).
  { unfold with_storage_lock.
    apply (succeeds_bind anything _ _ _ (λ _ fs', at_rest T fs' ∨ half T fs')).
    - apply lock_succeeds. intros ? ->. by destruct Hcases as [(? & ? & _)|(? & ? & _)].
    - apply acquire_spec; [done|done| |]; intros fs' l -> Hl; [by intros _|intros _ _].
      rewrite Hlock in Hl. injection Hl as <-. destruct Hcases; [left; by apply rest_lock|right; by apply half_lock].
    - intros []. by apply recover_succeeds with T. }
  destruct (Hs fs eq_refl) as ([] & fs' & Hrun). unfold recover_snapshot_restore in *. rewrite Hrun in Hspec |- *.
  by exists (calm fs').
Qed.
End Calm.
End Roots.

(** ** Properties *)

(** A provider whose data root and backup root are there, and in whose way
    nothing but directories stands. *)
Record restorable (self : FileStorageProvider) (lock pending previous : path) (fs : tree) : Prop := {
  restorable_lock : lock_path self = Ok lock;
  restorable_pending : restore_pending_path self = Ok pending;
  restorable_previous : restore_previous_path self = Ok previous;
  restorable_rooted : rooted fs;
  restorable_data : fs !! storage_path self = Some NDirectory;
  restorable_backup : fs !! backup_path self = Some NDirectory;
  restorable_apart : apart (storage_path self) (backup_path self) ∧ apart pending (backup_path self) ∧
                     apart previous (backup_path self) ∧ apart lock (backup_path self);
  restorable_lock_file : fs !! lock = None ∨ ∃ b, fs !! lock = Some (NFile b);
  restorable_tidy : tidy pending fs ∧ tidy previous fs;
}.
Section Restorable.
Context `{DirectoryOrderLaws} `{BackupCodec} (self : FileStorageProvider) (lock pending previous : path) (fs : tree).
Context (Hr : restorable self lock pending previous fs).
Lemma restorable_outside r : outside self lock pending previous (backup_path self ++ r).
Proof.
  destruct (restorable_apart _ _ _ _ _ Hr) as (H1' & H2' & H3' & H4'). split_and!; [by apply apart_below..|].
  intros He. rewrite <- (app_nil_r lock) in He. by apply (apart_app lock (backup_path self) [] r) in H4'.
Qed.
Lemma restorable_at_rest : at_rest self lock pending previous fs (subtree (storage_path self) fs) fs.
Proof. destruct (restorable_tidy _ _ _ _ _ Hr). split_and!; [done|apply (restorable_lock_file _ _ _ _ _ Hr)|done..]. Qed.
Lemma restorable_root : subtree (storage_path self) fs !! [] = Some NDirectory.
Proof. rewrite subtree_root. apply (restorable_data _ _ _ _ _ Hr). Qed.

Abbreviation old := (subtree (storage_path self) fs).
Lemma restore_run name accesses :
  let (r, d) := restore_snapshot_backup self name (restart accesses (calm fs)) in
  match r with
  | Ok _ => finished self lock pending previous fs name (files d)
  | Err _ => whole self lock pending previous fs old name (files d)
  end.
Proof.
  pose proof (restore_spec self lock pending previous (restorable_lock _ _ _ _ _ Hr) (restorable_pending _ _ _ _ _ Hr)
    (restorable_previous _ _ _ _ _ Hr) fs old restorable_root (restorable_rooted _ _ _ _ _ Hr) (restorable_data _ _ _ _ _ Hr)
    name restorable_outside (restorable_backup _ _ _ _ _ Hr) (restart accesses (calm fs)) restorable_at_rest) as Hs.
  by destruct (restore_snapshot_backup _ _ _) as [[a|e] d].
Qed.
Lemma restore_whole name accesses :
  whole self lock pending previous fs old name (files (restore_snapshot_backup self name (restart accesses (calm fs))).2).
Proof.
  pose proof (restore_run name accesses) as Hs. destruct (restore_snapshot_backup _ _ _) as [[a|e] d]; [|done].
  by apply finished_whole.
Qed.
End Restorable.

(** The files that recoveries leave which may be interrupted themselves. *)
Definition recover_after (self : FileStorageProvider) (recoveries : list (list access)) (fs : tree) : tree :=
  foldl (λ fs accesses, files (recover_snapshot_restore self (restart accesses (calm fs))).2) fs recoveries.
Lemma recover_after_whole `{DirectoryOrderLaws} `{BackupCodec} self lock pending previous name fs0 recoveries fs :
  restorable self lock pending previous fs0 →
  whole self lock pending previous fs0 (subtree (storage_path self) fs0) name fs →
  whole self lock pending previous fs0 (subtree (storage_path self) fs0) name (recover_after self recoveries fs).
Proof.
  intros Hr. revert fs. induction recoveries as [|accesses recoveries IH]; intros fs Hw; [done|]. cbn. apply IH.
  pose proof (recover_spec self lock pending previous (restorable_lock _ _ _ _ _ Hr) (restorable_pending _ _ _ _ _ Hr)
    (restorable_previous _ _ _ _ _ Hr) fs0 (subtree (storage_path self) fs0) (restorable_root _ _ _ _ _ Hr)
    name (restart accesses (calm fs)) Hw) as Hs.
  destruct (recover_snapshot_restore _ _) as [[[]|e] d]; [|done].
  destruct Hs as [[? _]|Hf]; [by apply whole_old|by apply finished_whole].
Qed.

(** C9: a restore is all or nothing across crashes. Whatever fails during a
    restore, whenever the process dies in it, and however often the recoveries
    after it are interrupted too, a recovery whose accesses work succeeds and
    leaves as data root either exactly the tree that was there, or a tree with
    exactly the files of the backup. The leftovers of the swap are gone, and no
    entry outside the data root and its siblings has changed. *)
Theorem interrupted_restore_is_whole `{DirectoryOrderLaws} `{BackupCodec}
    self lock pending previous name accesses recoveries fs :
  restorable self lock pending previous fs →
  let after := files (restore_snapshot_backup self name (restart accesses (calm fs))).2 in
  let (r, d) := recover_snapshot_restore self (calm (recover_after self recoveries after)) in
  r = Ok () ∧
  (subtree (storage_path self) (files d) = subtree (storage_path self) fs ∨
   same_files (backup_source self name) fs (subtree (storage_path self) (files d))) ∧
  (subtree pending (files d) = ∅ ∧ subtree previous (files d) = ∅) ∧
  (∀ q, outside self lock pending previous q → files d !! q = fs !! q).
Proof.
  intros Hr after. pose proof (restore_whole self lock pending previous fs Hr name accesses) as Hw.
  apply (recover_after_whole _ _ _ _ _ _ recoveries _ Hr) in Hw. fold after in Hw.
  destruct (locked_succeeds self lock pending previous (restorable_lock _ _ _ _ _ Hr) (restorable_pending _ _ _ _ _ Hr)
    (restorable_previous _ _ _ _ _ Hr) fs _ (restorable_root _ _ _ _ _ Hr) (restorable_rooted _ _ _ _ _ Hr)
    (restorable_data _ _ _ _ _ Hr) name _ Hw) as (d & -> & Hs & _).
  split; [done|]. destruct Hs as [((Hf & _ & Hd & _) & Hp & Hq)|(T & Hnew & (Hf & _ & Hd & _) & Hp & Hq)].
  - split_and!; [by left|done..].
  - split_and!; [by right; rewrite Hd|done..].
Qed.

(** A restore that reports success has replaced the whole data root by
    the files of the backup, whatever its accesses did on the way, and removed
    what it kept of the old one. *)
Theorem restored_root_has_the_backup `{DirectoryOrderLaws} `{BackupCodec} self lock pending previous name accesses fs r d :
  restorable self lock pending previous fs →
  restore_snapshot_backup self name (restart accesses (calm fs)) = (Ok r, d) →
  same_files (backup_source self name) fs (subtree (storage_path self) (files d)) ∧
  subtree pending (files d) = ∅ ∧ subtree previous (files d) = ∅.
Proof.
  intros Hr Hrun. pose proof (restore_run self lock pending previous fs Hr name accesses) as Hs. rewrite Hrun in Hs.
  destruct Hs as (T & Hnew & (_ & _ & Hd & _) & Hp & Hq). by rewrite Hd.
Qed.

Module RestoreDemo.
Import StorageBackup.BackupDemo.
Definition two_files : tree :=
  with_files [(["srv"; "data"; "a"], NDirectory); (["srv"; "data"; "a"; "b"], file "x"); (["srv"; "data"; "c"], file "yz")]%string.
(** A snapshot is taken and the data changed. *)
Definition changed : tree :=
  <[["srv"; "data"; "c"]%string := file "new"]> (files (create_snapshot_backup provider proc 0 5 "snap" (calm two_files)).2).
Definition pending_root : path := ["srv"; "data.restore.pending"]%string.
Definition previous_root : path := ["srv"; "data.restore.previous"]%string.
Lemma changed_restorable : restorable provider ["srv"; "data.lock"]%string pending_root previous_root changed.
Proof.
  constructor; try (vm_compute; reflexivity).
  - apply rooted_check_sound. by vm_compute.
  - split_and!; by vm_compute.
  - right. exists []. by vm_compute.
  - split; apply tidy_absent; first [by apply rooted_check_sound; vm_compute | by vm_compute].
Qed.
(** The process dies between the two renames, and again in the recovery. *)
Definition dying : list access := repeat Works 134 ++ [Dies].
Definition dying_again : list (list access) := [repeat Works 6 ++ [DiesLate]; [Fails "busy"%string]].
Definition interrupted : tree := files (restore_snapshot_backup provider "snap" (restart dying (calm changed))).2.
Lemma interrupted_here :
  interrupted !! ["srv"; "data"]%string = None ∧ interrupted !! pending_root = Some NDirectory ∧
  interrupted !! previous_root = Some NDirectory.
Proof. vm_compute. split_and!; reflexivity. Qed.
Lemma interrupted_restore_is_whole_witness :
  let after := files (restore_snapshot_backup provider "snap" (restart dying (calm changed))).2 in
  let (r, d) := recover_snapshot_restore provider (calm (recover_after provider dying_again after)) in
  r = Ok () ∧
  (subtree (storage_path provider) (files d) = subtree (storage_path provider) changed ∨
   same_files (backup_source provider "snap") changed (subtree (storage_path provider) (files d))) ∧
  (subtree pending_root (files d) = ∅ ∧ subtree previous_root (files d) = ∅) ∧
  (∀ q, outside provider ["srv"; "data.lock"]%string pending_root previous_root q → files d !! q = changed !! q).
Proof.
  exact (interrupted_restore_is_whole provider ["srv"; "data.lock"]%string pending_root previous_root "snap" dying dying_again
    changed changed_restorable).
Defined.
Lemma restored_root_has_the_backup_witness :
  let d := (restore_snapshot_backup provider "snap" (restart [Works] (calm changed))).2 in
  same_files (backup_source provider "snap") changed (subtree (storage_path provider) (files d)) ∧
  subtree pending_root (files d) = ∅ ∧ subtree previous_root (files d) = ∅.
Proof.
  apply (restored_root_has_the_backup provider ["srv"; "data.lock"]%string pending_root previous_root "snap" [Works] changed
    {| backup_name := "snap"; backup_created_at_ms := 5 |} _ changed_restorable).
  by apply ok_run; vm_compute.
Defined.
End RestoreDemo.
