(* ===== verification/StorageSnapshot.v ===== *)
(** Snapshots ([create_snapshot_locked] in
    [crates/appcore-storage/src/storage_backup.rs]): a snapshot that succeeds
    holds exactly the files of the data root, one that fails leaves nothing but
    its staging directory, and a snapshot that is restored gives the files back. *)

From S2P Require Import Prelude.
From S2P Require Import Text.
From S2P Require Import Types.
From S2P Require Import Encoding.
From S2P Require Import Files.
From S2P Require Import StorageTree.
From S2P Require Import StorageWalk.
From S2P Require Import Storage.
From S2P Require Import StorageBackup.
From S2P Require Import StorageVerify.
From S2P Require Import StorageCopy.
From S2P Require Import StorageRestore.

Local Open Scope N_scope.

(** ** Names that come back from their text *)

Lemma split_relative_text p : Forall plain_name p → p ≠ [] → split_on "/" (relative_text p) = p.
Proof.
  unfold relative_text. intros Hp. induction Hp as [|x l (_ & _ & _ & Hx) Hl IH]; [done|]. intros _.
  destruct l as [|y l]; [by apply split_on_free|].
  assert (Hc : String.concat "/" (x :: y :: l) = x +:+ String "/" (String.concat "/" (y :: l))) by done.
  rewrite Hc, split_on_app by done. f_equal. by apply IH.
Qed.
Lemma component_of_plain name : plain_name name → component_of name = Some (Normal name).
Proof. intros (H1 & H2 & H3 & _). unfold component_of. by rewrite !bool_decide_eq_false_2. Qed.
Lemma relative_text_names p :
  Forall plain_name p → p ≠ [] → omap normal_name (components (relative_text p)) = p.
Proof.
  intros Hp Hne. unfold components. rewrite split_relative_text by done.
  assert (Hmap : ∀ l, Forall plain_name l → omap normal_name (omap component_of l) = l).
  { intros l Hl. induction Hl as [|x l Hx Hl IH]; [done|]. cbn. rewrite component_of_plain by done. cbn. by rewrite IH. }
  destruct (is_absolute (relative_text p)); [by apply Hmap|].
  destruct p as [|x l]; [done|]. apply Forall_cons in Hp as [(H1 & H2 & H3 & H4) Hl].
  transitivity (omap normal_name (omap component_of (x :: l))); [|by apply Hmap; constructor; [split_and!|]].
  by destruct x as [|[[] [] [] [] [] [] [] []] []].
Qed.

(** ** The staging directory *)

Lemma rsplit_dot_tmp s : rsplit_dot (s +:+ ".tmp") = Some (s, "tmp"%string).
Proof. induction s as [|c s IH]; [done|]. cbn [rsplit_dot]. rewrite string_app_cons. cbn [rsplit_dot]. by rewrite IH. Qed.
Definition staging_name (proc : process) (counter : N) (name : string) : string :=
  name +:+ "." +:+ show_u64 (pid proc) +:+ "_" +:+ str_filter is_ascii_alphanumeric (thread_id proc) +:+ "_" +:+
  show_u64 counter +:+ ".snapshot.tmp".
Lemma snapshot_staging_path_snoc proc counter (dir : path) name :
  snapshot_staging_path proc counter (dir ++ [name]) = dir ++ [staging_name proc counter name].
Proof.
  unfold snapshot_staging_path, with_extension, with_file_name, file_name. rewrite tmp_path_for_snoc, last_snoc, parent_snoc.
  do 2 f_equal. unfold tmp_tail, file_stem.
  pose (s := name +:+ "." +:+ show_u64 (pid proc) +:+ "_" +:+ str_filter is_ascii_alphanumeric (thread_id proc) +:+ "_" +:+ show_u64 counter).
  assert (Hs : name +:+ "." +:+ show_u64 (pid proc) +:+ "_" +:+ str_filter is_ascii_alphanumeric (thread_id proc) +:+ "_" +:+
               show_u64 counter +:+ ".tmp" = s +:+ ".tmp") by (unfold s; by rewrite !string_app_assoc).
  rewrite Hs, rsplit_dot_tmp. rewrite bool_decide_eq_false_2.
  - unfold staging_name, s. by rewrite !string_app_assoc.
  - unfold s. by destruct name.
Qed.

(** A write to one place keeps what does not depend on it. *)
Lemma write_atomic_keeps {E} (failed : string → E) (X V : tree → Prop) tmp full bytes :
  (∀ fs, V fs → X fs) →
  (∀ fs fs', V fs → (∀ q, below tmp q = None → below full q = None → fs' !! q = fs !! q) → V fs') →
  triple X V (write_atomic_file failed tmp full bytes) (λ _, V).
Proof.
  intros HV Hstable. assert (Hins : ∀ fs n, V fs → V (<[tmp := n]> fs)).
  { intros fs n Hv. apply (Hstable fs); [done|]. intros q Hq _. by apply changes_insert_root. }
  unfold write_atomic_file. apply (triple_bind _ _ _ _ (λ _, V)).
  { apply triple_create_file; [done| |done]. intros fs Hv _ _. by apply Hins. }
  intros []. apply (triple_bind _ _ _ _ (λ _, V)).
  { apply triple_iter; [done|]. intros b. apply triple_update. intros fs Hv.
    assert (Hv' : V (append_byte tmp b fs)); [|split_and!; auto].
    apply (Hstable fs); [done|]. intros q Hq _. unfold append_byte. rewrite lookup_alter_ne; [done|].
    intros <-. rewrite <- (app_nil_r tmp) in Hq at 2. by rewrite below_app in Hq. }
  intros []. apply (triple_bind _ _ _ _ (λ _, V)); [by apply triple_probe|]. intros [].
  apply (triple_bind _ _ _ _ (λ _, V)).
  { unfold reject_link_if_present. eapply triple_bind; [by apply triple_metadata|]. cbn beta. intros m.
    destruct m as [[]|]; try (by apply hoare_ret; intros s []); apply triple_fail; intros fs []; auto. }
  intros []. apply (triple_bind _ _ _ _ (λ _, V)).
  - apply triple_rename; [done|]. intros fs Hv _.
    assert (Hv' : V (move_tree tmp full fs)); [|split; auto]. apply (Hstable fs); [done|]. intros q. apply lookup_move_other.
  - intros []. by apply triple_sync_keep.
Qed.

Section Snapshot.
Context `{DirectoryOrderLaws} `{BackupCodec} (proc : process) (counter now : N) (name : string).
Context (self : FileStorageProvider) (final_name : string) (fs1 : tree).
Context (Hname : omap normal_name (components name) = [final_name]).
Context (Hdata : parents_exist (storage_path self) fs1) (Hback : parents_exist (backup_path self) fs1).
Context (Happart : apart (storage_path self) (backup_path self)).
Context (Hancestors : ∀ k, (0 < k ≤ length (backup_path self))%nat → is_Some (fs1 !! take k (backup_path self))).
Context (Hplain : ∀ r, is_Some (fs1 !! (storage_path self ++ r)) → Forall plain_name r).

Abbreviation data := (storage_path self).
Definition final_root : path := backup_path self ++ [final_name].
Definition staging : path := backup_path self ++ [staging_name proc counter final_name].
Definition staged_data : path := staging ++ [BACKUP_DATA].

(** Entries apart from the staging directory and the snapshot stay. *)
Definition untouched (fs : tree) : Prop :=
  ∀ q, below staging q = None → below final_root q = None → fs !! q = fs1 !! q.
Definition staged (fs : tree) : Prop := changes_below staging fs1 fs ∧ fs !! staging = Some NDirectory.
Abbreviation copied_here := (StorageCopy.copying data staged_data staged fs1).

Lemma staging_apart_final : apart staging final_root.
Proof. apply apart_siblings. unfold staging_name. by apply string_app_neq. Qed.
Lemma staged_untouched fs : staged fs → untouched fs.
Proof. intros [Hc _] q Hq _. by apply Hc. Qed.
Lemma data_apart r s : below (backup_path self ++ r) (data ++ s) = None.
Proof. rewrite <- (app_nil_r (backup_path self ++ r)). apply apart_sym in Happart. 
  apply below_none. intros t Ht. rewrite <- !app_assoc in Ht. symmetry in Ht. by eapply apart_app in Ht. Qed.
Lemma below_staged q : below staging q = None → below staged_data q = None.
Proof.
  rewrite !below_none. intros Hq r ->. apply (Hq (BACKUP_DATA :: r)). unfold staged_data. by rewrite <- app_assoc.
Qed.
Lemma staged_below fs fs' :
  staged fs → changes_below staged_data fs fs' → fs' !! staged_data = Some NDirectory → staged fs'.
Proof.
  intros [Hc Hd] Hc' _. split.
  - intros q Hq. rewrite Hc' by (by apply below_staged). by apply Hc.
  - rewrite Hc'; [done|]. apply below_none. intros r Hr. unfold staged_data in Hr. rewrite <- app_assoc in Hr.
    rewrite <- (app_nil_r staging) in Hr at 1. by apply app_inv_head in Hr.
Qed.
Lemma staged_source fs r : staged fs → fs !! (data ++ r) = fs1 !! (data ++ r).
Proof. intros [Hc _]. apply Hc. apply data_apart. Qed.
Lemma staged_prefix fs k r :
  staged fs → is_Some (fs !! take k (staged_data ++ r)) ∨ k = O ∨ ∃ s, take k (staged_data ++ r) = staged_data ++ s.
Proof.
  intros [Hc Hd]. destruct (decide (k ≤ length (backup_path self))%nat) as [Hk|Hk].
  - destruct k as [|k]; [auto|]. left. unfold staged_data, staging. rewrite <- !app_assoc, take_app_le by done.
    rewrite Hc; [apply Hancestors; lia|]. apply below_none. intros t Ht. apply (f_equal length) in Ht.
    unfold staging in Ht. rewrite !length_app, length_take in Ht. cbn [length] in Ht. lia.
  - destruct (decide (k = S (length (backup_path self)))) as [->|Hk'].
    + left. exists NDirectory. rewrite <- Hd. f_equal. unfold staged_data, staging. rewrite <- !app_assoc. rewrite take_app.
      rewrite take_ge by lia. f_equal. by replace (_ - _)%nat with 1%nat by lia.
    + right. right. exists (take (k - length staged_data) r). rewrite take_app, take_ge; [done|].
      unfold staged_data, staging. rewrite !length_app. cbn [length]. lia.
Qed.
Lemma copied_untouched (copied : list path) fs : copied_here copied fs → untouched fs.
Proof. intros [[? _] _]. by apply staged_untouched. Qed.

Lemma copy_snapshot_file_spec (copied : list path) rel :
  rel ≠ [] → Forall plain_name rel →
  triple untouched (copied_here copied) (copy_snapshot_file data staged_data rel) (λ _, copied_here (rel :: copied)).
Proof.
  intros Hne Hpl. unfold copy_snapshot_file, portable_path.
  case_bool_decide as He; [by apply hoare_lift_err; intros s Hc; eapply copied_untouched|]. apply hoare_lift_ok.
  assert (Hres : ∀ root, triple untouched (copied_here copied) (resolve_under_root root (relative_text rel))
    (λ q fs, copied_here copied fs ∧ q = root ++ rel)).
  { intros root. eapply triple_post; [apply resolve_spec, copied_untouched|].
    intros q fs (Hc & names & (_ & _ & _ & ->) & -> & _). by rewrite relative_text_names. }
  eapply triple_bind; [apply Hres|]. cbn beta. intros q.
  apply (triple_assume _ _ _ _ (q = data ++ rel)); [by intros ? []|]. intros ->.
  apply (triple_pre _ _ (copied_here copied)); [|by intros ? []].
  eapply triple_bind; [apply Hres|]. cbn beta. intros q.
  apply (triple_assume _ _ _ _ (q = staged_data ++ rel)); [by intros ? []|]. intros ->.
  apply (triple_pre _ _ (copied_here copied)); [|by intros ? []].
  apply (triple_bind _ _ _ _ (λ _, copied_here copied)).
  { apply make_copy_parent; [apply staged_untouched|apply staged_below|apply staged_prefix]. }
  intros []. apply (triple_bind _ _ _ _ (λ _, copied_here copied)); [apply ensure_copy_parent, staged_untouched|intros []].
  apply (triple_bind _ _ _ _ (λ _, copied_here (rel :: copied))).
  { apply copy_and_sync_spec; [apply staged_untouched|apply staged_below|apply staged_source]. }
  intros []. eapply triple_bind; [apply hash_file_spec, copied_untouched|]. intros h. apply hoare_ret. by intros s [? _].
Qed.
Lemma copy_snapshot_files_spec rels :
  Forall (λ rel, rel ≠ [] ∧ Forall plain_name rel) rels → ∀ copied : list path,
  triple untouched (copied_here copied) (op_map (copy_snapshot_file data staged_data) rels)
    (λ _ fs, ∃ all, all ≡ₚ rels ++ copied ∧ copied_here all fs).
Proof.
  induction 1 as [|rel rels [Hne Hpl] Hrels IH]; intros copied; cbn [op_map].
  - apply hoare_ret. intros s Hc. by exists copied.
  - apply (triple_bind _ _ _ _ (λ _, copied_here (rel :: copied))); [by apply copy_snapshot_file_spec|intros e].
    eapply triple_bind; [apply IH|]. cbn beta. intros es. apply hoare_ret. intros s (all & Hall & Hc). exists all.
    split; [|done]. rewrite Hall. cbn. by rewrite Permutation_middle.
Qed.

(** The copy with the files of the data root. *)
Definition filled (fs : tree) : Prop := staged fs ∧ same_files data fs1 (subtree staged_data fs).
Lemma filled_untouched fs : filled fs → untouched fs.
Proof. intros [? _]. by apply staged_untouched. Qed.
Lemma below_manifest x q : below staging q = None → below (staging ++ [x]) q = None.
Proof. rewrite !below_none. intros Hq r ->. apply (Hq (x :: r)). by rewrite <- app_assoc. Qed.
Lemma filled_stable x fs fs' :
  x ≠ BACKUP_DATA → BACKUP_MANIFEST ≠ BACKUP_DATA → filled fs →
  (∀ q, below (staging ++ [x]) q = None → below (staging ++ [BACKUP_MANIFEST]) q = None → fs' !! q = fs !! q) → filled fs'.
Proof.
  intros Hx Hm [[Hc Hd] Hs] Hsame. assert (Hshort : ∀ y, below (staging ++ [y]) staging = None).
  { intros y. apply below_none. intros r Hr. rewrite <- app_assoc, <- (app_nil_r staging) in Hr at 1.
    by apply app_inv_head in Hr. }
  split; [split|].
  - intros q Hq. rewrite Hsame by (by apply below_manifest). by apply Hc.
  - by rewrite Hsame.
  - assert (Hsub : subtree staged_data fs' = subtree staged_data fs); [|by rewrite Hsub].
    apply subtree_ext. intros r. apply Hsame; by apply apart_below, apart_siblings.
Qed.
Lemma write_manifest_spec m n :
  triple untouched filled (write_manifest proc n staging m) (λ _, filled).
Proof.
  unfold write_manifest. destruct (manifest_to_json m) as [bytes|]; cbn [ok_or];
    [apply hoare_lift_ok|by apply hoare_lift_err; intros s Hf; apply filled_untouched].
  rewrite tmp_path_for_snoc. apply write_atomic_keeps; [apply filled_untouched|].
  intros fs fs' Hf Hsame. by eapply filled_stable; [| |exact Hf|exact Hsame].
Qed.

Lemma staging_empty : fs1 !! staging = None → ∀ r, fs1 !! (staging ++ r) = None.
Proof.
  intros Hn r. destruct (decide (r = [])) as [->|Hne]; [by rewrite app_nil_r|].
  destruct (fs1 !! (staging ++ r)) eqn:Hf; [|done]. exfalso. unfold staging in Hf. rewrite <- app_assoc in Hf.
  pose proof (parents_exist_prefix (backup_path self) fs1 [staging_name proc counter final_name] r Hback) as Hp.
  fold staging in Hp. rewrite Hp in Hn; [done|by rewrite Hf|done].
Qed.
Lemma staged_start fs : fs1 !! staging = None → fs = <[staging := NDirectory]> fs1 →
  staged fs ∧ subtree staged_data fs = ∅.
Proof.
  intros Hn ->. split; [split; [apply changes_insert_root|by rewrite lookup_insert_eq]|].
  apply subtree_none. intros r. unfold staged_data. rewrite <- app_assoc. rewrite lookup_insert_ne.
  - by apply staging_empty.
  - intros He. rewrite <- (app_nil_r staging) in He at 1. by apply app_inv_head in He.
Qed.
Lemma collected_plain fs ps :
  staged fs → files_below data fs ps → files_below data fs1 ps ∧ Forall (λ rel, rel ≠ [] ∧ Forall plain_name rel) ps.
Proof.
  intros Hst (Hnd & Hps & Hl). assert (Hsame : ∀ r, fs !! (data ++ r) = fs1 !! (data ++ r)) by (intros r; by apply staged_source).
  split; [split_and!; [done| |]|].
  - intros rel. by rewrite Hps, Hsame.
  - intros rel Hne. rewrite <- Hsame. by apply Hl.
  - apply Forall_forall. intros rel Hrel. apply Hps in Hrel as [Hne [b Hb]]. split; [done|]. apply Hplain.
    rewrite <- Hsame, Hb. by eexists.
Qed.
Lemma populate_snapshot_spec n :
  fs1 !! staging = None →
  triple untouched (λ fs, fs = <[staging := NDirectory]> fs1) (populate_snapshot self proc n now name staging) (λ _, filled).
Proof.
  intros Hn. unfold populate_snapshot. fold staged_data. apply (triple_bind _ _ _ _ (λ _, copied_here [])).
  { apply triple_create_dir.
    - intros fs Hfs. by apply staged_untouched, (staged_start fs).
    - intros fs Hfs _ _. destruct (staged_start fs Hn Hfs) as [Hst He].
      assert (Hc : copied_here [] (<[staged_data := NDirectory]> fs)) by (by apply fresh_copy; [apply staged_below|..]).
      split; [by eapply copied_untouched|done]. }
  intros []. eapply triple_bind; [apply collect_regular_files_spec; [apply copied_untouched|]|].
  { intros fs [[Hst _] _] r x Hs. rewrite staged_source in Hs |- * by done. by apply Hdata in Hs. }
  cbn beta. intros ps. apply (triple_assume _ _ _ _ (files_below data fs1 ps ∧ Forall (λ rel, rel ≠ [] ∧ Forall plain_name rel) ps)).
  { intros fs [[[Hst _] _] Hps]. by eapply collected_plain. }
  intros [Hps Hpl]. apply (triple_pre _ _ (copied_here [])); [|by intros ? []].
  destruct (_ <? _); [by apply triple_fail, copied_untouched|].
  pose proof (merge_sort_Permutation path_le ps) as Hsort.
  eapply triple_bind; [apply copy_snapshot_files_spec; by rewrite Hsort|]. cbn beta. intros listed.
  apply (triple_pre _ _ filled).
  - apply (triple_bind _ _ _ _ (λ _, filled)); [apply write_manifest_spec|intros []].
    apply (triple_bind _ _ _ _ (λ _, filled)); [apply sync_tree_reads, filled_untouched|intros []].
    apply (triple_bind _ _ _ _ (λ _, filled)); [apply triple_sync_keep, filled_untouched|intros []].
    by apply hoare_ret.
  - intros fs (all & Hall & Hc). split; [apply Hc|]. rewrite app_nil_r in Hall.
    eapply copy_complete; [exact Hall|exact Hc|exact Hps|]. by rewrite Hsort.
Qed.

(** The snapshot in place. *)
Definition final_data : path := final_root ++ [BACKUP_DATA].
Definition taken (fs : tree) : Prop := untouched fs ∧ same_files data fs1 (subtree final_data fs).
Lemma publish_spec :
  triple untouched filled (rename (λ _, BackupFailed name) staging final_root) (λ _, taken).
Proof.
  apply triple_rename; [apply filled_untouched|]. intros fs [Hst Hs] _.
  assert (Hu : untouched (move_tree staging final_root fs)).
  { intros q Hq Hf. rewrite lookup_move_other by done. by apply Hst. }
  split; [done|]. split; [done|].
  assert (Hsub : subtree final_data (move_tree staging final_root fs) = subtree staged_data fs); [|by rewrite Hsub].
  apply map_eq. intros r. rewrite !lookup_subtree. unfold final_data, staged_data. rewrite <- !app_assoc.
  destruct (lookup_move_dst staging final_root fs ([BACKUP_DATA] ++ r)) as [->|Hn]; [done|].
  exfalso. apply Hn, staging_apart_final.
Qed.
Lemma discard_staging V :
  (∀ fs, V fs → untouched fs) →
  triple untouched V (attempt (remove_dir_all unavailable staging)) (λ _, untouched).
Proof.
  intros HV. apply triple_each. intros fs Hv. apply HV in Hv.
  assert (Hkeep : ∀ fs', changes_below staging fs fs' → untouched fs').
  { intros fs' Hc q Hq Hf. rewrite Hc by done. by apply Hv. }
  eapply triple_post; [apply (triple_attempt _ _ (λ _, untouched) untouched)|by intros [[]|e] t].
  eapply triple_post; [apply triple_remove_dir_all; [done|apply Hkeep, changes_drop|intros t Hc _; by apply Hkeep]|].
  intros [] t ->. apply Hkeep, changes_drop.
Qed.
Lemma create_snapshot_locked_spec :
  triple untouched (eq fs1) (create_snapshot_locked self proc counter now name) (λ _, taken).
Proof.
  assert (Hu : ∀ fs, fs1 = fs → untouched fs) by (by intros fs <- q).
  unfold create_snapshot_locked. destruct (validate_backup_name name) as [[]|e]; [|by apply hoare_lift_err; intros s Hs; apply Hu].
  apply hoare_lift_ok. apply (triple_bind _ _ _ _ (λ _, eq fs1)).
  { unfold reject_overlapping_roots, canonicalize.
    apply (triple_bind _ _ _ _ (λ _, eq fs1)); [eapply triple_post; [by apply triple_observe|by intros ? ? []]|intros st].
    apply (triple_bind _ _ _ _ (λ _, eq fs1)); [eapply triple_post; [by apply triple_observe|by intros ? ? []]|intros bk].
    case_decide; [by apply hoare_ret|by apply triple_fail]. }
  intros []. eapply triple_bind; [by apply resolve_spec|]. cbn beta. intros q.
  apply (triple_assume _ _ _ _ (q = final_root)).
  { intros fs (_ & names & (_ & _ & _ & ->) & -> & _). by rewrite Hname. }
  intros ->. apply (triple_pre _ _ (eq fs1)); [|by intros fs []].
  apply (triple_bind _ _ _ _ (λ _, eq fs1)); [eapply triple_post; [by apply path_exists_spec|by intros ? ? []]|].
  intros []; [by apply triple_fail|].
  assert (Hst : snapshot_staging_path proc counter final_root = staging) by apply snapshot_staging_path_snoc. rewrite !Hst.
  apply (triple_bind _ _ _ _ (λ _ fs, fs1 !! staging = None ∧ fs = <[staging := NDirectory]> fs1)).
  { apply triple_create_dir; [done|]. intros fs <- Hn _. split; [|done]. by apply staged_untouched, (staged_start _ Hn). }
  intros []. apply (triple_assume _ _ _ _ (fs1 !! staging = None)); [by intros fs []|]. intros Hn.
  pose (V := λ fs : tree, fs = <[staging := NDirectory]> fs1).
  assert (HV : ∀ fs, V fs → untouched fs) by (intros fs Hfs; by apply staged_untouched, (staged_start fs Hn)).
  apply (triple_pre _ _ V); [|by intros fs []].
  apply (triple_bind _ _ _ _ (λ _, V)); [eapply triple_post; [by apply ensure_real_directory_spec|by intros ? ? []]|intros []].
  eapply triple_bind; [eapply (triple_attempt _ _ (λ _, filled) untouched); by apply populate_snapshot_spec|].
  cbn beta. intros [m|e]; cbn [is_ok].
  - apply (triple_bind _ _ _ _ (λ _, filled)); [by apply hoare_ret|intros []]. apply hoare_lift_ok.
    apply (triple_bind _ _ _ _ (λ _, filled)).
    { eapply triple_post; [apply path_exists_spec, filled_untouched|by intros ? ? []]. }
    intros []; [apply triple_fail, filled_untouched|].
    apply (triple_bind _ _ _ _ (λ _, filled)).
    { eapply triple_post; [apply ensure_real_directory_spec, filled_untouched|by intros ? ? []]. }
    intros []. apply (triple_bind _ _ _ _ (λ _, taken)); [apply publish_spec|intros []].
    apply (triple_bind _ _ _ _ (λ _, taken)); [apply triple_sync_keep; by intros fs []|intros []]. by apply hoare_ret.
  - apply (triple_bind _ _ _ _ (λ _, untouched)).
    { apply (triple_bind _ _ _ _ (λ _, untouched)); [by apply discard_staging|intros ?; by apply hoare_ret]. }
    intros []. by apply hoare_lift_err.
Qed.
End Snapshot.

(** ** Properties *)

Lemma validate_backup_name_ok name :
  validate_backup_name name = Ok () → ∃ final_name, omap normal_name (components name) = [final_name].
Proof.
  unfold validate_backup_name. destruct (bool_decide _ || _ || _) eqn:Hc; [done|].
  apply orb_false_iff in Hc as [[_ Hl]%orb_false_iff _]. apply negb_false_iff, Nat.eqb_eq in Hl.
  destruct (components name) as [|[| | |x] [|]]; try done. intros _. by exists x.
Qed.

(** Names as the operating system has them. *)
Definition plain_tree (fs : tree) : Prop := ∀ q, is_Some (fs !! q) → Forall plain_name q.

Section Snapshots.
Context `{DirectoryOrderLaws} `{BackupCodec} (self : FileStorageProvider) (lock pending previous : path) (fs0 : tree).
Context (Hr : restorable self lock pending previous fs0) (Hplain : plain_tree fs0).
Abbreviation data := (storage_path self).
Abbreviation old := (subtree (storage_path self) fs0).
Abbreviation resting := (at_rest self lock pending previous fs0 old).

(** A snapshot leaves the data root and every other entry of the backup root. *)
Definition snapshot_frame (proc : process) (counter : N) (final_name : string) (fs : tree) : Prop :=
  subtree data fs = old ∧
  ∀ q, outside self lock pending previous q →
    below (staging proc counter self final_name) q = None → below (final_root self final_name) q = None → fs !! q = fs0 !! q.
Lemma resting_source fs : resting fs → ∀ r, fs !! (data ++ r) = fs0 !! (data ++ r).
Proof. intros (_ & _ & Hd & _) r. by rewrite <- !lookup_subtree, Hd. Qed.
Lemma untouched_frame proc counter final_name fs fs' :
  resting fs → untouched proc counter self final_name fs fs' → snapshot_frame proc counter final_name fs'.
Proof.
  intros Hrest Hu. destruct (restorable_apart _ _ _ _ _ Hr) as (Ha & _). split.
  - destruct Hrest as (_ & _ & <- & _). apply subtree_ext. intros r.
    apply Hu; by apply data_apart.
  - intros q Hq Hs Hf. rewrite Hu by done. by apply Hrest.
Qed.
Lemma backup_ancestors k fs :
  resting fs → (0 < k ≤ length (backup_path self))%nat → is_Some (fs !! take k (backup_path self)).
Proof.
  intros (Hf & _) Hk. assert (Hshort : ∀ p, apart p (backup_path self) → below p (take k (backup_path self)) = None).
  { intros p [Hp _]. rewrite !below_none in *. intros r Hx. apply (Hp (r ++ drop k (backup_path self))).
    by rewrite app_assoc, <- Hx, take_drop. }
  destruct (restorable_apart _ _ _ _ _ Hr) as (H1' & H2' & H3' & H4'). rewrite Hf.
  - destruct (drop k (backup_path self)) as [|x l] eqn:Hd.
    + assert (Hlen : length (drop k (backup_path self)) = O) by (by rewrite Hd). rewrite length_drop in Hlen.
      rewrite take_ge by lia. rewrite (restorable_backup _ _ _ _ _ Hr). by eexists.
    + exists NDirectory. apply (rooted_prefix _ _ (x :: l)); [apply (restorable_rooted _ _ _ _ _ Hr)| |done].
      rewrite <- Hd, take_drop, (restorable_backup _ _ _ _ _ Hr). by eexists.
  - split_and!; [by apply Hshort..|]. intros He. apply Hshort in H4'. rewrite He in H4'.
    rewrite <- (app_nil_r lock) in H4' at 2. by rewrite below_app in H4'.
Qed.
Lemma snapshot_locked proc counter now name final_name :
  omap normal_name (components name) = [final_name] →
  triple (snapshot_frame proc counter final_name) resting (create_snapshot_locked self proc counter now name)
    (λ _ fs, snapshot_frame proc counter final_name fs ∧ same_files data fs0 (subtree (backup_source self name) fs)).
Proof.
  intros Hname. apply triple_each. intros fs1 Hrest. pose proof (resting_source fs1 Hrest) as Hsame.
  destruct (restorable_apart _ _ _ _ _ Hr) as (Ha & _).
  assert (Hframe : ∀ r, fs1 !! (backup_path self ++ r) = fs0 !! (backup_path self ++ r)).
  { intros r. apply Hrest. by apply (restorable_outside self lock pending previous fs0). }
  assert (Hspec : triple (untouched proc counter self final_name fs1) (eq fs1) (create_snapshot_locked self proc counter now name)
    (λ _, taken proc counter self final_name fs1)).
  { apply create_snapshot_locked_spec; [done| | |done| |].
    - intros r x Hs. rewrite Hsame in Hs |- *. by apply (rooted_below data fs0 (restorable_rooted _ _ _ _ _ Hr)) in Hs.
    - intros r x Hs. rewrite Hframe in Hs |- *. by apply (rooted_below (backup_path self) fs0 (restorable_rooted _ _ _ _ _ Hr)) in Hs.
    - intros k. by apply backup_ancestors.
    - intros r Hs. rewrite Hsame in Hs. apply Hplain in Hs. by apply Forall_app in Hs as [_ ?]. }
  intros d Hd. specialize (Hspec d Hd). destruct (create_snapshot_locked _ _ _ _ _ _) as [[a|e] d'].
  - destruct Hspec as [Hu Hs]. split; [by eapply untouched_frame|].
    assert (Hsrc : backup_source self name = final_data self final_name) by (unfold backup_source, backup_root; by rewrite Hname).
    unfold on. rewrite Hsrc. destruct Hs as (Hd0 & Hfiles & Hkinds). split_and!; [done| |done].
    intros r b Hne. by rewrite Hfiles, Hsame.
  - by eapply untouched_frame.
Qed.
Lemma snapshot_spec proc counter now name final_name :
  omap normal_name (components name) = [final_name] →
  triple (snapshot_frame proc counter final_name) resting (create_snapshot_backup self proc counter now name)
    (λ _ fs, snapshot_frame proc counter final_name fs ∧ same_files data fs0 (subtree (backup_source self name) fs)).
Proof.
  intros Hname. assert (HX : ∀ fs, resting fs → snapshot_frame proc counter final_name fs).
  { intros fs Hrest. by apply (untouched_frame proc counter final_name fs fs). }
  unfold create_snapshot_backup. apply (triple_bind _ _ _ _ (λ _, resting)).
  - eapply triple_post; [apply (create_dirs_spec self lock pending previous)|by intros ? ? []];
      try apply Hr; [apply (restorable_root self lock pending previous fs0 Hr)|done|apply (restorable_outside self lock pending previous fs0 Hr)].
  - intros []. apply locked_at_rest; [apply Hr|apply Hr|apply Hr|done|by apply snapshot_locked].
Qed.
End Snapshots.

(** a snapshot that reports success holds exactly the files of the data
    root, whatever its accesses did; and whatever happens to a snapshot, the data
    root and every entry outside the snapshot, its staging directory and the
    siblings of the data root stay as they were. *)
Theorem snapshot_has_the_files `{DirectoryOrderLaws} `{BackupCodec}
    self lock pending previous proc counter now name final_name accesses fs :
  restorable self lock pending previous fs → plain_tree fs → omap normal_name (components name) = [final_name] →
  let (r, d) := create_snapshot_backup self proc counter now name (restart accesses (calm fs)) in
  snapshot_frame self lock pending previous fs proc counter final_name (files d) ∧
  (is_ok r = true → same_files (storage_path self) fs (subtree (backup_source self name) (files d))).
Proof.
  intros Hr Hplain Hname.
  pose proof (snapshot_spec self lock pending previous fs Hr Hplain proc counter now name final_name Hname
    (restart accesses (calm fs)) (restorable_at_rest _ _ _ _ _ Hr)) as Hs.
  destruct (create_snapshot_backup _ _ _ _ _ _) as [[a|e] d]; [by destruct Hs; split|by split].
Qed.

(** C10: a snapshot gives the files back. After a snapshot that succeeded,
    and whatever else happens to the provider as long as the files of the
    snapshot stay, a restore that succeeds leaves a data root with exactly the
    files of the time of the snapshot, with their contents. *)
Theorem restored_snapshot_gives_the_files_back `{DirectoryOrderLaws} `{BackupCodec}
    self lock pending previous proc counter now name final_name accesses accesses' fs fs' made d restored d' :
  restorable self lock pending previous fs → plain_tree fs → omap normal_name (components name) = [final_name] →
  create_snapshot_backup self proc counter now name (restart accesses (calm fs)) = (Ok made, d) →
  restorable self lock pending previous fs' →
  (∀ q, fs' !! (backup_source self name ++ q) = files d !! (backup_source self name ++ q)) →
  restore_snapshot_backup self name (restart accesses' (calm fs')) = (Ok restored, d') →
  ∀ q b, q ≠ [] → files d' !! (storage_path self ++ q) = Some (NFile b) ↔ fs !! (storage_path self ++ q) = Some (NFile b).
Proof.
  intros Hr Hplain Hname Hmade Hr' Hsame Hrun q b Hne.
  pose proof (snapshot_spec self lock pending previous fs Hr Hplain proc counter now name final_name Hname
    (restart accesses (calm fs)) (restorable_at_rest _ _ _ _ _ Hr)) as Hs. rewrite Hmade in Hs.
  destruct Hs as [_ (_ & Hfiles & _)].
  pose proof (restore_run self lock pending previous fs' Hr' name accesses') as Hs'. rewrite Hrun in Hs'.
  destruct Hs' as (T & (_ & Hback & _) & (_ & _ & <- & _) & _).
  rewrite <- lookup_subtree, Hback, Hsame, <- lookup_subtree by done. by apply Hfiles.
Qed.

(** A check that all names are plain. *)
Definition plain_nameb (name : string) : bool :=
  negb (bool_decide (name ∈ [""; "."; ".."]%string)) && bool_decide (split_on "/" name = [name]).
Definition plain_check (fs : tree) : bool := forallb (forallb plain_nameb) (map_to_list fs).*1.
Lemma plain_check_sound fs : plain_check fs = true → plain_tree fs.
Proof.
  unfold plain_check. rewrite forallb_forall. intros Hall q Hq. apply elem_of_keys, list_elem_of_In, Hall in Hq.
  rewrite forallb_forall in Hq. apply Forall_forall. intros name Hn. apply list_elem_of_In, Hq in Hn.
  unfold plain_nameb in Hn. apply andb_true_iff in Hn as [H1 H2].
  apply negb_true_iff, bool_decide_eq_false in H1. apply bool_decide_eq_true in H2.
  assert (Hf : str_free "/"%char name).
  { pose proof (split_on_parts "/" name) as Hp. rewrite H2 in Hp. by inversion Hp. }
  split_and!; [..|done]; intros ->; apply H1; set_solver.
Qed.

Module SnapshotDemo.
Import StorageBackup.BackupDemo.
Import StorageRestore.RestoreDemo.
Definition lock_file : path := ["srv"; "data.lock"]%string.
Lemma two_files_restorable : restorable provider lock_file pending_root previous_root two_files.
Proof.
  constructor; try (vm_compute; reflexivity).
  - apply rooted_check_sound. by vm_compute.
  - split_and!; by vm_compute.
  - left. by vm_compute.
  - split; apply tidy_absent; first [by apply rooted_check_sound; vm_compute | by vm_compute].
Qed.
Lemma two_files_plain : plain_tree two_files.
Proof. apply plain_check_sound. by vm_compute. Qed.
(** A snapshot whose copy fails on the way. *)
Definition failing : list access := repeat Works 60 ++ [Fails "disk full"%string].
Lemma snapshot_fails_here : is_ok (create_snapshot_backup provider proc 0 5 "snap" (restart failing (calm two_files))).1 = false.
Proof. by vm_compute. Qed.
Lemma snapshot_has_the_files_witness :
  let (r, d) := create_snapshot_backup provider proc 0 5 "snap" (restart failing (calm two_files)) in
  snapshot_frame provider lock_file pending_root previous_root two_files proc 0 "snap" (files d) ∧
  (is_ok r = true → same_files (storage_path provider) two_files (subtree (backup_source provider "snap") (files d))).
Proof.
  pose proof (snapshot_has_the_files provider lock_file pending_root previous_root proc 0 5 "snap" "snap" failing two_files
    two_files_restorable two_files_plain eq_refl) as Hs. exact Hs.
Defined.

Definition made_here : result StorageError BackupDescriptor * fs_disk :=
  create_snapshot_backup provider proc 0 5 "snap" (restart [] (calm two_files)).
Definition restored_here : result StorageError BackupDescriptor * fs_disk :=
  restore_snapshot_backup provider "snap" (restart [Works] (calm changed)).
Lemma changed_keeps q :
  changed !! (backup_source provider "snap" ++ q) = files made_here.2 !! (backup_source provider "snap" ++ q).
Proof. unfold changed. rewrite lookup_insert_ne; [reflexivity|]. vm_compute. discriminate. Qed.
Lemma restored_snapshot_gives_the_files_back_witness :
  files restored_here.2 !! (storage_path provider ++ ["c"%string]) = Some (NFile (bytes_of "yz")) ↔
  two_files !! (storage_path provider ++ ["c"%string]) = Some (NFile (bytes_of "yz")).
Proof.
  apply (restored_snapshot_gives_the_files_back provider lock_file pending_root previous_root proc 0 5 "snap" "snap" [] [Works]
    two_files changed {| backup_name := "snap"; backup_created_at_ms := 5 |} made_here.2
    {| backup_name := "snap"; backup_created_at_ms := 5 |} restored_here.2).
  - exact two_files_restorable.
  - exact two_files_plain.
  - reflexivity.
  - by apply ok_run; vm_compute.
  - exact changed_restorable.
  - exact changed_keeps.
  - by apply ok_run; vm_compute.
  - discriminate.
Defined.
End SnapshotDemo.
