(* ===== verification/StorageSealed.v ===== *)
(** Sealed objects on the file provider
    ([crates/appcore-storage/src/storage_dnt.rs]): DNT envelopes written, read,
    verified and rotated below the data root. The snapshot and the secret store
    are this store under a type of their own.

    The envelopes are those of DntEnvelope.v, the files those of Storage.v. The
    clock, the bytes of the random generator and the name of the temporary file
    are arguments. *)

From S2P Require Import Prelude.
From S2P Require Import Text.
From S2P Require Import Types.
From S2P Require Import Contracts.
From S2P Require Import Encoding.
From S2P Require Import Files.
From S2P Require Import Tokens.
From S2P Require Import StorageTree.
From S2P Require Import StorageWalk.
From S2P Require Import Storage.
From S2P Require Import Dnt.
From S2P Require Import DntEnvelope.

Local Open Scope N_scope.

Record SealedStoragePolicy := {
  policy_application : string;
  policy_tenant : option string;
  policy_content : string;
  policy_schema : N;
  policy_key : string;
  policy_max : N;
  policy_public : list byte;
}.
Definition open_options (p : SealedStoragePolicy) : DntOpenOptions :=
  {| open_application := policy_application p; open_tenant := policy_tenant p; open_content := policy_content p;
     open_max := Some (policy_max p) |}.
Definition seal_options (p : SealedStoragePolicy) (now_ms : N) (metadata : list byte) : DntSealOptions :=
  {| seal_application := policy_application p; seal_tenant := policy_tenant p; seal_content := policy_content p;
     seal_schema := policy_schema p; seal_key := policy_key p; seal_created := now_ms; seal_public := policy_public p;
     seal_encrypted := metadata; seal_flags := 0; seal_max := Some (policy_max p) |}.

Definition map_dnt_error (e : DntError) : StorageError :=
  match e with
  | Io => TransactionFailed "dnt"
  | KeyUnavailable | AuthenticationFailed | ContextMismatch => SecurityFailed "dnt"
  | _ => InvalidPath "dnt"
  end.

(** [DntFileObjectStore]. *)
Record DntFileObjectStore := {
  store_provider : FileStorageProvider;
  store_keys : key_provider;
  store_codec : DntCodec;
  store_policy : SealedStoragePolicy;
}.

Section Store.
Context `{DirectoryOrder} `{DntPrimitives} (store : DntFileObjectStore).
Abbreviation keys := (store_keys store).
Abbreviation codec := (store_codec store).
Abbreviation policy := (store_policy store).
Abbreviation provider := (store_provider store).

Definition write_object_with_flags (proc : process) (counter now_ms : N) (random : option (list byte)) (name : string)
    (payload : list byte) (f : N) : storage_op () :=
  let options := with_flags f (seal_options policy now_ms []) in
  envelope ← op_lift (map_err map_dnt_error (seal payload keys codec random options));
  _ ← op_lift (map_err map_dnt_error (verify envelope keys codec (open_options policy)));
  write_bytes_atomic provider proc counter name envelope.
Definition write_object_compact (proc : process) (counter now_ms : N) (random : option (list byte)) (name : string)
    (payload : list byte) : storage_op () :=
  write_object_with_flags proc counter now_ms random name payload DNT_FLAG_PAYLOAD_DEFLATE.
Definition write_object (proc : process) (counter now_ms : N) (random : option (list byte)) (name : string)
    (payload : list byte) : storage_op () :=
  write_object_with_flags proc counter now_ms random name payload 0.
(** What every reading operation starts with. *)
Definition read_envelope (name : string) : storage_op (list byte) :=
  max ← op_lift (map_err map_dnt_error (max_envelope_bytes (open_options policy)));
  read_bytes_bounded provider name max.
Definition read_object (name : string) : storage_op (list byte) :=
  bytes ← read_envelope name;
  opened ← op_lift (map_err map_dnt_error (open_owned bytes keys codec (open_options policy)));
  mret (opened_payload opened).
Definition verify_object (name : string) : storage_op () :=
  bytes ← read_envelope name;
  _ ← op_lift (map_err map_dnt_error (verify bytes keys codec (open_options policy)));
  mret ().
Definition rekey_object (proc : process) (counter : N) (random : option (list byte)) (name new_key_id : string) :
    storage_op () :=
  bytes ← read_envelope name;
  _ ← op_lift (map_err map_dnt_error (inspect_header bytes));
  rotated ← op_lift (map_err map_dnt_error (rekey bytes keys codec random (open_options policy) new_key_id));
  _ ← op_lift (map_err map_dnt_error (verify rotated keys codec (open_options policy)));
  write_bytes_atomic provider proc counter name rotated.
End Store.

(** ** Objects that are there *)

(** The file of an object, and the lock that the first operation leaves. *)
Record object_there (self : FileStorageProvider) (lock : path) (name : string) (names : path) (env : list byte) (fs : tree) : Prop := {
  there_rooted : rooted fs;
  there_name : confined name names;
  there_nonempty : names ≠ [];
  there_lock : lock_path self = Ok lock ∧ ∃ b, fs !! lock = Some (NFile b);
  there_file : fs !! (storage_path self ++ names) = Some (NFile env);
}.

Section Bounded.
Context `{DirectoryOrder} (self : FileStorageProvider) (lock : path) (name : string) (names : path).
Abbreviation there := (object_there self lock name names).

Lemma calm_read_bounded_bytes max env fs :
  there env fs → max + 1 ≤ u64_max →
  read_bytes_bounded self name max (calm fs) = (if max <? lenN env then Err (TransactionFailed name) else Ok env, calm fs).
Proof.
  intros [Hr Hc Hne (Hl & b & Hlf) Hf] Hmax.
  assert (Hd : fs !! storage_path self = Some NDirectory) by (apply (rooted_prefix _ _ names); [done|by eexists|done]).
  assert (Hres : resolve_storage self name (calm fs) = (Ok (storage_path self ++ names), calm fs))
    by (apply calm_resolve; [done..|by exists (NFile env)]).
  unfold read_bytes_bounded. rewrite (op_ok_bind _ _ _ _ _ Hres), (calm_with_lock _ _ _ _ _ Hl Hlf), (op_ok_bind _ _ _ _ _ Hres).
  rewrite (op_ok_bind _ _ _ _ _ (calm_probes _ _ _)).
  assert (Ho : observe (λ _, RepositoryNotFound name) (file_content (λ _, RepositoryNotFound name) (storage_path self ++ names)) (calm fs)
    = (Ok env, calm fs)) by (rewrite calm_observe; unfold file_content; by rewrite Hf).
  rewrite (op_ok_bind _ _ _ _ _ Ho). destruct (N.ltb_spec max (lenN env)) as [|Hlen]; [done|]. unfold checked_add.
  rewrite (proj2 (N.leb_le _ _)) by done. cbn [ok_or]. rewrite op_lift_ok, (op_ok_bind _ _ _ _ _ (calm_probe _ _)).
  rewrite (proj2 (N.leb_le _ (max + 1))) by lia. by rewrite (proj2 (N.ltb_ge _ _)).
Qed.

(** A read that succeeds, whatever its accesses do, is one of the file. *)
Lemma read_bounded_keeps max env fs :
  there env fs →
  triple (eq fs) (eq fs) (read_bytes_bounded self name max) (λ bytes fs', fs = fs' ∧ bytes = env ∧ lenN env ≤ max ∧ max + 1 ≤ u64_max).
Proof.
  intros [Hr Hc Hne (Hl & b & Hlf) Hf].
  assert (Hres : triple (eq fs) (eq fs) (resolve_storage self name) (λ q fs', fs = fs' ∧ q = storage_path self ++ names)).
  { eapply triple_post; [by apply resolve_spec|]. intros q fs' (<- & names' & (_ & _ & _ & ->) & -> & _).
    split; [done|]. by destruct Hc as (_ & _ & _ & <-). }
  unfold read_bytes_bounded. eapply triple_bind; [exact Hres|]. cbn beta. intros q.
  apply (storage_lock_spec _ _ _ (eq fs)); [by intros ? []|done|by intros ? ? []| |].
  - intros fs' l [<- _] Hl' Hn _. rewrite Hl in Hl'. injection Hl' as <-. congruence.
  - eapply triple_bind; [exact Hres|]. cbn beta. intros f.
    apply (triple_assume _ _ _ _ (f = storage_path self ++ names)); [by intros ? []|]. intros ->.
    apply (triple_pre _ _ (eq fs)); [|by intros ? []].
    apply (triple_bind _ _ _ _ (λ _, eq fs)); [by apply triple_probes|]. intros [].
    eapply triple_bind; [by apply triple_observe|]. cbn beta. intros bytes.
    apply (triple_assume _ _ _ _ (bytes = env)).
    { intros ? [<- Hb]. unfold file_content in Hb. rewrite Hf in Hb. by injection Hb as <-. }
    intros ->. apply (triple_pre _ _ (eq fs)); [|by intros ? []]. destruct (N.ltb_spec max (lenN env)); [by apply triple_fail|].
    eapply triple_bind; [by apply triple_lift|]. cbn beta. intros limit.
    apply (triple_assume _ _ _ _ (limit = max + 1 ∧ max + 1 ≤ u64_max)).
    { intros ? [_ Hb]. unfold checked_add in Hb. destruct (N.leb_spec (max + 1) u64_max); [|done].
      cbn in Hb. injection Hb as <-. by split. }
    intros [-> Hmax]. apply (triple_pre _ _ (eq fs)); [|by intros ? []].
    apply (triple_bind _ _ _ _ (λ _, eq fs)); [by apply triple_probe|]. intros []. cbv zeta.
    rewrite (proj2 (N.leb_le _ (max + 1))) by lia. rewrite (proj2 (N.ltb_ge _ _)) by done.
    apply hoare_ret. intros s Hs. unfold on in *. by split_and!.
Qed.

(** A write leaves the object, with the old or the new bytes. *)
Lemma write_keeps_object proc counter bytes env d :
  there env (files d) →
  let (r, d') := write_bytes_atomic self proc counter name bytes d in
  ∃ env', there env' (files d') ∧ (env' = env ∨ env' = bytes) ∧ (r = Ok () → env' = bytes).
Proof.
  intros [Hr Hc Hne (Hl & b & Hlf) Hf]. destruct names as [|last_name front _] eqn:Hnames using rev_ind; [done|].
  pose proof (write_spec self proc counter name bytes front last_name lock (files d) Hc Hl Hr d eq_refl) as Hw.
  pose proof (lock_there_after_write self lock Hl proc counter name bytes front last_name Hc d I) as Hlock.
  rewrite app_assoc in Hf.
  destruct (write_bytes_atomic _ _ _ _ _ _) as [[[]|e] d'].
  - exists bytes. pose proof (written_rooted _ _ _ _ _ _ (renamed_ended _ _ _ _ _ _ _ _ _ Hw)) as Hr'.
    split; [|by auto]. split; try done. destruct Hw as (fs1 & _ & _ & _ & _ & ->). rewrite app_assoc. by rewrite lookup_insert_eq.
  - destruct Hw as [Hr' Hat].
    assert (Hsib : ∀ r, storage_path self ++ r ≠ lock) by (intros r; by eapply apart_neq, sibling_apart).
    destruct (Hat lock) as [Hk|[[Hk _]|(Hk & _)]];
      [unfold Storage.tmp, Storage.dir; rewrite <- app_assoc; by apply not_eq_sym, Hsib| |congruence|].
    2: by unfold Storage.full, Storage.dir in Hk; rewrite <- app_assoc in Hk; apply eq_sym, Hsib in Hk.
    destruct (Hat ((storage_path self ++ front) ++ [last_name])) as [Hfile|[[Hfile _]|(_ & Hfile & _)]];
      [apply not_eq_sym, tmp_not_full|exists env|congruence|exists bytes].
    all: split; [|by split; [auto|]].
    all: split; [done..| |by rewrite app_assoc, Hfile]; split; [done|exists b; by rewrite Hk].
Qed.
Lemma written_object_there proc counter bytes d d' :
  rooted (files d) → confined name names → names ≠ [] →
  write_bytes_atomic self proc counter name bytes d = (Ok (), d') → lock_path self = Ok lock → there bytes (files d').
Proof.
  intros Hr Hc Hne Hrun Hl. destruct names as [|last_name front _] eqn:Hnames using rev_ind; [done|].
  pose proof (write_spec self proc counter name bytes front last_name lock (files d) Hc Hl Hr d eq_refl) as Hw.
  pose proof (lock_there_after_write self lock Hl proc counter name bytes front last_name Hc d I) as Hlock.
  rewrite Hrun in Hw, Hlock. pose proof (written_rooted _ _ _ _ _ _ (renamed_ended _ _ _ _ _ _ _ _ _ Hw)) as Hr'.
  split; try done. destruct Hw as (fs1 & _ & _ & _ & _ & ->). rewrite app_assoc. by rewrite lookup_insert_eq.
Qed.
Lemma write_needs_lock proc counter bytes d d' :
  write_bytes_atomic self proc counter name bytes d = (Ok (), d') → ∃ l, lock_path self = Ok l.
Proof.
  intros Hw. unfold write_bytes_atomic in Hw. apply op_bind_inv in Hw as (q & d1 & _ & Hw).
  unfold with_storage_lock, acquire_operation_lock in Hw. destruct (lock_path self); [eauto|done].
Qed.
End Bounded.

Section Objects.
Context `{DirectoryOrder} `{DntPrimitivesLaws} (store : DntFileObjectStore) (lock : path) (name : string) (names : path).
Abbreviation there := (object_there (store_provider store) lock name names).
Abbreviation bound := (envelope_bound (policy_max (store_policy store))).
Abbreviation opens env x := (open env (store_keys store) (store_codec store) (open_options (store_policy store)) = Ok x).
Context (Hbound : bound + 1 ≤ u64_max).

Lemma store_bound : max_envelope_bytes (open_options (store_policy store)) = Ok bound.
Proof. apply max_envelope_bytes_ok; [done|lia]. Qed.
(** What a read makes of the bytes it finds. *)
Definition payload_of (env : list byte) : result StorageError (list byte) :=
  bytes ← (if bound <? lenN env then Err (TransactionFailed name) else Ok env);
  opened ← map_err map_dnt_error (open_owned bytes (store_keys store) (store_codec store) (open_options (store_policy store)));
  Ok (opened_payload opened).
Lemma calm_read_payload env fs : there env fs → read_object store name (calm fs) = (payload_of env, calm fs).
Proof.
  intros Ht. unfold read_object, read_envelope, payload_of. rewrite store_bound. cbn [map_err]. rewrite op_bind_assoc, op_lift_ok.
  pose proof (calm_read_bounded_bytes _ _ _ _ bound _ _ Ht Hbound) as Hread. destruct (bound <? lenN env).
  - by rewrite (op_err_bind _ _ _ _ _ Hread).
  - rewrite (op_ok_bind _ _ _ _ _ Hread). cbn [mbind result_bind].
    by destruct (open_owned _ _ _ _).
Qed.
Lemma calm_read_object env x fs :
  there env fs → lenN env ≤ bound → opens env x → read_object store name (calm fs) = (Ok (opened_payload x), calm fs).
Proof.
  intros Ht Hl Hx. rewrite (calm_read_payload env) by done. unfold payload_of. rewrite (proj2 (N.ltb_ge _ _)) by done.
  cbn [mbind result_bind]. by rewrite (open_owned_ok _ _ _ _ _ Hx).
Qed.
Lemma envelope_keeps env fs :
  there env fs →
  triple (eq fs) (eq fs) (read_envelope store name) (λ bytes fs', fs = fs' ∧ bytes = env ∧ lenN env ≤ bound).
Proof.
  intros Ht. unfold read_envelope. rewrite store_bound. cbn [map_err].
  eapply triple_bind; [by apply triple_lift|]. cbn beta. intros max.
  apply (triple_assume _ _ _ _ (max = bound)); [by intros ? [_ [= ->]]|]. intros ->.
  apply (triple_pre _ _ (eq fs)); [|by intros ? []].
  eapply triple_post; [by eapply (read_bounded_keeps _ lock name names)|]. by intros ? ? (? & ? & ? & ?).
Qed.

Lemma rekeyed_fits random new_key env env' :
  rekey env (store_keys store) (store_codec store) random (open_options (store_policy store)) new_key = Ok env' → lenN env' ≤ bound.
Proof.
  unfold rekey, reseal. destruct (open env _ _ _) as [x|]; [|done]. cbn [mbind result_bind]. intros Hs.
  by apply (sealed_envelope_fits _ _ _ _ _ _ _ Hs).
Qed.
End Objects.

(** ** Properties *)

(** rotating the key of a sealed object never loses it. Whatever fails in
    [rekey_object], and wherever the process dies in it, the object is read back
    with the payload it had; and when the rotation succeeds it is sealed under
    the new key. *)
Theorem interrupted_rekey_keeps_object `{DirectoryOrder} `{DntPrimitivesLaws} store lock proc counter random name names new_key env
    accesses fs payload :
  codec_sound (store_codec store) → nonce_drawn random → key_typed new_key →
  envelope_bound (policy_max (store_policy store)) + 1 ≤ u64_max →
  object_there (store_provider store) lock name names env fs → read_object store name (calm fs) = (Ok payload, calm fs) →
  let (r, d) := rekey_object store proc counter random name new_key (restart accesses (calm fs)) in
  read_object store name (calm (files d)) = (Ok payload, calm (files d)) ∧
  (r = Ok () → ∃ env' h, files d !! (storage_path (store_provider store) ++ names) = Some (NFile env') ∧
     inspect_header env' = Ok h ∧ key_id (parts h) = new_key).
Proof.
  intros Hcodec Hrandom Hkey Hbound Ht Hread. unfold rekey_object.
  pose proof (envelope_keeps store lock name names Hbound env fs Ht (restart accesses (calm fs)) eq_refl) as He.
  destruct (read_envelope store name _) as [[bytes|e] d] eqn:Hrun.
  2: { rewrite (op_err_bind _ _ _ _ _ Hrun). by rewrite <- He. }
  destruct He as (Hfs & -> & Hlen). rewrite (op_ok_bind _ _ _ _ _ Hrun). subst fs.
  destruct (inspect_header env) as [h|e]; [|done]. cbn [map_err]. rewrite op_lift_ok.
  destruct (rekey env _ _ _ _ _) as [rotated|e] eqn:Hre; [|done]. cbn [map_err]. rewrite op_lift_ok.
  destruct (verify rotated _ _ _) as [?|e]; [|done]. cbn [map_err]. rewrite op_lift_ok.
  pose proof (rekeyed_fits _ _ _ _ _ Hre) as Hfits.
  apply rekeyed_envelope_keeps_content in Hre as (x & key & nonce & stored & bytes & Hx & _ & Ho); [|try done..].
  2: { intros m [= <-]. unfold envelope_bound in Hbound. lia. }
  rewrite (calm_read_object store lock name names Hbound env x _ Ht Hlen Hx) in Hread. injection Hread as <-.
  pose proof (write_keeps_object _ _ _ _ proc counter rotated env d Ht) as Hw.
  destruct (write_bytes_atomic _ _ _ _ _ _) as [r d']. destruct Hw as (env' & Ht' & Hcases & Hok). split.
  - destruct Hcases as [->| ->]; [by eapply (calm_read_object store lock name names Hbound env)|].
    by rewrite (calm_read_object store lock name names Hbound rotated _ _ Ht' Hfits Ho).
  - intros Hr. specialize (Hok Hr) as ->. apply open_inv in Ho as (key' & st & Hauth & _).
    eexists rotated, _. split; [apply Ht'|]. by apply authentic_inspect in Hauth.
Qed.

(** a sealed object is never torn. What a successful write sealed, plainly or
    compacted, is what a later read returns; and whatever fails in a write, and
    wherever the process dies in it, an object that was there before is read
    back with its old payload or with the new one. *)
Theorem sealed_write_is_atomic `{DirectoryOrder} `{DntPrimitivesLaws} store proc counter now random name names payload f accesses fs :
  seal_typed (with_flags f (seal_options (store_policy store) now [])) → codec_sound (store_codec store) → nonce_drawn random →
  envelope_bound (policy_max (store_policy store)) + 1 ≤ u64_max → rooted fs → confined name names → names ≠ [] →
  let (r, d) := write_object_with_flags store proc counter now random name payload f (restart accesses (calm fs)) in
  (r = Ok () → read_object store name (calm (files d)) = (Ok payload, calm (files d))) ∧
  (∀ lock env old, object_there (store_provider store) lock name names env fs → read_object store name (calm fs) = (Ok old, calm fs) →
     read_object store name (calm (files d)) = (Ok old, calm (files d)) ∨
     read_object store name (calm (files d)) = (Ok payload, calm (files d))).
Proof.
  intros Hty Hcodec Hrandom Hbound Hr Hc Hne. unfold write_object_with_flags.
  destruct (seal _ _ _ _ _) as [env'|e] eqn:Hs; [|by split; [|by intros; left]]. cbn [map_err]. rewrite op_lift_ok.
  destruct (verify env' _ _ _) as [?|e]; [|by split; [|by intros; left]]. cbn [map_err]. rewrite op_lift_ok.
  pose proof (sealed_envelope_fits _ _ _ _ _ _ _ Hs eq_refl) as Hfits.
  apply open_seal in Hs as (key & nonce & stored & bytes & _ & Hx); [|done..].
  destruct (write_bytes_atomic _ _ _ _ _ _) as [r d] eqn:Hw. split.
  - intros ->. destruct (write_needs_lock _ _ _ _ _ _ _ Hw) as [lock Hl].
    assert (Ht : object_there (store_provider store) lock name names env' (files d))
      by exact (written_object_there _ lock name names proc counter env' (restart accesses (calm fs)) d Hr Hc Hne Hw Hl).
    by rewrite (calm_read_object store lock name names Hbound env' _ _ Ht Hfits Hx).
  - intros lock env old Ht Hread. pose proof (write_keeps_object _ _ _ _ proc counter env' env (restart accesses (calm fs)) Ht) as Hk.
    rewrite Hw in Hk. destruct Hk as (env'' & Ht' & [->| ->] & _).
    + left. rewrite (calm_read_payload store lock name names Hbound env) in Hread |- * by done. by injection Hread as ->.
    + right. by rewrite (calm_read_object store lock name names Hbound env' _ _ Ht' Hfits Hx).
Qed.

(** ** An example *)

Module SealedDemo.
#[local] Existing Instance Storage.StorageDemo.order.
#[local] Existing Instance DntEnvelope.DntDemo.primitives.
#[local] Existing Instance DntEnvelope.DntDemo.primitives_laws.
Definition policy : SealedStoragePolicy :=
  {| policy_application := "notes"; policy_tenant := Some "acme"%string; policy_content := "text/plain"; policy_schema := 3;
     policy_key := "k1"; policy_max := 64; policy_public := str_bytes "p" |}.
Definition store : DntFileObjectStore :=
  {| store_provider := StorageDemo.provider; store_keys := DntDemo.keys; store_codec := BytesCodec; store_policy := policy |}.
Definition payload : list byte := str_bytes "hello".
(** The second access of the write of the temporary file fails. *)
Definition interrupted : list access := repeat Works 14 ++ [Fails "disk full"%string].
Definition written : fs_disk :=
  (write_object_compact store StorageDemo.proc 0 1000 DntDemo.drawn "objects/a.dntb" payload (calm StorageDemo.disk0)).2.

Lemma policy_seals f : f ≤ 1 → seal_typed (with_flags f (seal_options policy 1000 [])).
Proof.
  intros Hf. split; cbn; try done; [unfold u32_max; lia|by intros t [= <-]|by repeat (apply Forall_cons; split)|].
  intros m [= <-]. unfold u64_max. lia.
Qed.
Lemma policy_bound : envelope_bound (policy_max policy) + 1 ≤ u64_max.
Proof. vm_compute. discriminate. Qed.
Lemma object_path : confined "objects/a.dntb" ["objects"; "a.dntb"]%string.
Proof. by apply StorageDemo.confined_text. Qed.
Lemma sealed_write_is_atomic_witness :
  let (r, d) := write_object_with_flags store StorageDemo.proc 0 1000 DntDemo.drawn "objects/a.dntb" payload 1
    (restart interrupted (calm StorageDemo.disk0)) in
  (r = Ok () → read_object store "objects/a.dntb" (calm (files d)) = (Ok payload, calm (files d))) ∧
  (∀ lock env old, object_there (store_provider store) lock "objects/a.dntb" ["objects"; "a.dntb"]%string env StorageDemo.disk0 →
     read_object store "objects/a.dntb" (calm StorageDemo.disk0) = (Ok old, calm StorageDemo.disk0) →
     read_object store "objects/a.dntb" (calm (files d)) = (Ok old, calm (files d)) ∨
     read_object store "objects/a.dntb" (calm (files d)) = (Ok payload, calm (files d))).
Proof.
  exact (sealed_write_is_atomic store StorageDemo.proc 0 1000 DntDemo.drawn "objects/a.dntb" ["objects"; "a.dntb"]%string payload 1
    interrupted StorageDemo.disk0 (policy_seals 1 (N.le_refl 1)) DntDemo.bytes_codec_sound DntDemo.drawn_length policy_bound
    StorageDemo.disk0_rooted object_path ltac:(discriminate)).
Defined.

Definition sealed_bytes : list byte :=
  match files written !! ["srv"; "data"; "objects"; "a.dntb"]%string with Some (NFile b) => b | _ => [] end.
Lemma written_there :
  object_there (store_provider store) ["srv"; "data.lock"]%string "objects/a.dntb" ["objects"; "a.dntb"]%string sealed_bytes (files written).
Proof.
  split; [by apply rooted_check_sound; vm_compute|exact object_path|done|split; [done|exists []; by vm_compute]|by vm_compute].
Qed.
Lemma interrupted_rekey_keeps_object_witness :
  let (r, d) := rekey_object store StorageDemo.proc 1 DntDemo.drawn "objects/a.dntb" "k2" (restart [Works; Works] (calm (files written))) in
  read_object store "objects/a.dntb" (calm (files d)) = (Ok payload, calm (files d)) ∧
  (r = Ok () → ∃ env' h, files d !! (storage_path (store_provider store) ++ ["objects"; "a.dntb"]%string) = Some (NFile env') ∧
     inspect_header env' = Ok h ∧ key_id (parts h) = "k2"%string).
Proof.
  pose proof (interrupted_rekey_keeps_object store ["srv"; "data.lock"]%string StorageDemo.proc 1 DntDemo.drawn "objects/a.dntb"
    ["objects"; "a.dntb"]%string "k2" sealed_bytes [Works; Works] (files written) payload DntDemo.bytes_codec_sound DntDemo.drawn_length
    (conj eq_refl eq_refl) policy_bound written_there) as Hs.
  apply Hs. by apply ok_run; vm_compute.
Defined.
Lemma rekey_succeeds_here :
  (rekey_object store StorageDemo.proc 1 DntDemo.drawn "objects/a.dntb" "k2" (calm (files written))).1 = Ok ().
Proof. by vm_compute. Qed.
End SealedDemo.
