(* ===== verification/HttpTransport.v ===== *)
(** The bounded HTTP client of the runtime ([crates/appcore-transport/src]):
    targets ([target.rs]), requests, headers and errors ([types.rs]), the
    response parser with its limits ([response.rs]) and the exchange over a
    stream ([client.rs]).

    Bytes are texts. The socket is a list of outcomes of its reads; flate2's
    decoder is a parameter; DNS, TCP and TLS are outside. *)

From S2P Require Import Prelude.
From S2P Require Import Types.
From S2P Require Import Text.
From S2P Require Import Encoding.
From S2P Require Import HttpText.

Local Open Scope N_scope.

(** ** [types.rs] *)

Inductive TransportError :=
| InvalidRequest (reason : string) | Dns (reason : string) | ConnectionRefused | Timeout | Cancelled | Tls (reason : string)
| RequestTooLarge (max : N) | ResponseTooLarge (max : N) | InvalidResponse (reason : string) | TruncatedResponse
| Io (reason : string).
#[export] Instance TransportError_eq_dec : EqDecision TransportError.
Proof. solve_decision. Defined.
Abbreviation TransportResult := (result TransportError).
(** [Display]. *)
Definition transport_error_text (e : TransportError) : string :=
  match e with
  | InvalidRequest reason => "invalid transport request: " +:+ reason
  | Dns reason => "DNS resolution failed: " +:+ reason
  | ConnectionRefused => "connection refused"
  | Timeout => "transport timed out"
  | Cancelled => "transport cancelled"
  | Tls reason => "TLS transport failed: " +:+ reason
  | RequestTooLarge max => "request body exceeds " +:+ show_u64 max +:+ " bytes"
  | ResponseTooLarge max => "response body exceeds " +:+ show_u64 max +:+ " bytes"
  | InvalidResponse reason => "invalid HTTP response: " +:+ reason
  | TruncatedResponse => "truncated HTTP response"
  | Io reason => "transport I/O failed: " +:+ reason
  end.

Record HttpHeader := { header_name : string; header_text : string; sensitive : bool }.
Definition header_byte (c : ascii) : bool := is_ascii_alphanumeric c || bool_decide (c = "-"%char).
Definition header_build (name value : string) (sensitive : bool) : TransportResult HttpHeader :=
  if bool_decide (name = EmptyString) || negb (str_all header_byte name) || any_control value
  then Err (InvalidRequest "invalid HTTP header")
  else Ok {| header_name := name; header_text := value; sensitive := sensitive |}.
Definition header_new (name value : string) : TransportResult HttpHeader := header_build name value false.
Definition header_sensitive (name value : string) : TransportResult HttpHeader := header_build name value true.
Definition is_sensitive_header (name : string) : bool :=
  bool_decide (to_ascii_lowercase name ∈
    ["authorization"; "proxy-authorization"; "cookie"; "set-cookie"; "x-api-key"; "x-auth-token"]%string).
(** The value that [Debug] shows. *)
Definition header_shown (h : HttpHeader) : string :=
  if sensitive h || is_sensitive_header (header_name h) then "REDACTED" else header_text h.

Record HttpRequest := { method : string; headers : list HttpHeader; body : string }.
Definition valid_method (method : string) : bool :=
  negb (bool_decide (method = EmptyString)) && str_all is_ascii_uppercase method.
Definition request_new (method body : string) : TransportResult HttpRequest :=
  if negb (valid_method method) then Err (InvalidRequest "HTTP method must use uppercase ASCII")
  else Ok {| method := method; headers := []; body := body |}.
Definition with_header (h : HttpHeader) (r : HttpRequest) : HttpRequest :=
  {| method := method r; headers := headers r ++ [h]; body := body r |}.
Record HttpClientConfig := { timeout_ms : N; max_request_bytes : N; max_response_bytes : N; max_header_bytes : N }.
Definition client_config_default : HttpClientConfig :=
  {| timeout_ms := 5000; max_request_bytes := 1048576; max_response_bytes := 1048576; max_header_bytes := 32768 |}.
Record HttpResponse := { response_status : N; response_headers : list (string * string); response_body : string }.
#[export] Instance HttpResponse_eq_dec : EqDecision HttpResponse.
Proof. solve_decision. Defined.

(** ** [target.rs] *)

Inductive HttpScheme := Http | Https.
Record HttpTarget := { scheme : HttpScheme; host : string; port : N; path : string }.
Definition default_port (s : HttpScheme) : N := match s with Http => 80 | Https => 443 end.
Definition parse_scheme (base_url : string) : TransportResult (HttpScheme * string) :=
  match strip_prefix "http://" base_url with
  | Some base => Ok (Http, base)
  | None =>
    match strip_prefix "https://" base_url with
    | Some base => Ok (Https, base)
    | None => Err (InvalidRequest "URL must use http:// or https://")
    end
  end.
Definition parse_port (value : string) : TransportResult N := ok_or (InvalidRequest "invalid port") (parse_u16 value).
Fixpoint count_char (c : ascii) (s : string) : nat :=
  match s with EmptyString => 0 | String x s' => (if bool_decide (x = c) then 1 else 0) + count_char c s' end.
(** At most one colon is left where the last one is looked for. *)
Definition parse_authority (authority : string) (s : HttpScheme) : TransportResult (string * N) :=
  match strip_prefix "[" authority with
  | Some rest =>
    '(host, suffix) ← ok_or (InvalidRequest "invalid IPv6 authority") (split_once "]" rest);
    port ← match strip_prefix ":" suffix with
           | Some value => parse_port value
           | None => if bool_decide (suffix = EmptyString) then Ok (default_port s) else Err (InvalidRequest "invalid IPv6 authority")
           end;
    Ok (host, port)
  | None =>
    if (1 <? count_char ":" authority)%nat then Err (InvalidRequest "IPv6 hosts require brackets")
    else match split_once ":" authority with
         | Some (host, port) => port ← parse_port port; Ok (host, port)
         | None => Ok (authority, default_port s)
         end
  end.
(** [trim_start_matches('/')]. *)
Fixpoint trim_start_slashes (s : string) : string :=
  match s with String c s' => if bool_decide (c = "/"%char) then trim_start_slashes s' else s | EmptyString => s end.
Definition join_paths (base path : string) : string :=
  let base := trim_slashes base in
  let path := trim_start_slashes path in
  if bool_decide (base = EmptyString) then "/" +:+ path
  else if bool_decide (path = EmptyString) then base
  else base +:+ "/" +:+ path.
Definition starts_with_slash (s : string) : bool := str_prefix "/" s.
Definition target_parse (base_url request_path : string) : TransportResult HttpTarget :=
  '(scheme, base) ← parse_scheme base_url;
  let '(authority, base_path) :=
    match split_once "/" base with Some (authority, path) => (authority, "/" +:+ path) | None => (base, EmptyString) end in
  '(host, port) ← parse_authority authority scheme;
  let path := join_paths base_path request_path in
  if bool_decide (host = EmptyString) || any_control host || negb (starts_with_slash path) || any_control path
  then Err (InvalidRequest "invalid HTTP target")
  else Ok {| scheme := scheme; host := host; port := port; path := path |}.
Definition authority (t : HttpTarget) : string :=
  let host := if (0 <? count_char ":" (host t))%nat then "[" +:+ host t +:+ "]" else host t in
  if port t =? default_port (scheme t) then host else host +:+ ":" +:+ show_u64 (port t).

(** ** [response.rs] *)

(** [usize::from_str_radix(_, 16)]. *)
Fixpoint hex_digits (n : N) (s : string) : option N :=
  match s with
  | EmptyString => Some n
  | String c s' =>
    d ← hex_value c;
    let n := 16 * n + d in
    if n <=? u64_max then hex_digits n s' else None
  end.
Definition parse_hex (s : string) : option N :=
  let digits := match s with String "+" s' => s' | _ => s end in
  if bool_decide (digits = EmptyString) then None else hex_digits 0 digits.

Definition header_value (headers : list (string * string)) (name : string) : option string :=
  snd <$> List.find (λ h, bool_decide (h.1 = name)) headers.
Definition has_header (headers : list (string * string)) (name value : string) : bool :=
  match header_value headers name with Some v => bool_decide (to_ascii_lowercase v = value) | None => false end.
Definition parse_header_line (line : string) : TransportResult (string * string) :=
  '(name, value) ← ok_or (InvalidResponse "malformed response header") (split_once ":" line);
  Ok (to_ascii_lowercase (trim name), trim value).
Fixpoint parse_header_lines (l : list string) : TransportResult (list (string * string)) :=
  match l with
  | [] => Ok []
  | line :: l' => h ← parse_header_line line; hs ← parse_header_lines l'; Ok (h :: hs)
  end.
Definition parse_headers (header_text : string) : TransportResult (N * list (string * string)) :=
  match lines header_text with
  | [] => Err (InvalidResponse "missing status line")
  | status_line :: l =>
    word ← ok_or (InvalidResponse "missing status code") (split_words EmptyString status_line !! 1%nat);
    status ← ok_or (InvalidResponse "invalid status code") (parse_u16 word);
    headers ← parse_header_lines l;
    Ok (status, headers)
  end.
Definition parse_usize : string → option N := parse_u64.
Definition validate_content_length (headers : list (string * string)) (encoded : string) : TransportResult () :=
  match header_value headers "content-length" with
  | None => Ok ()
  | Some value =>
    expected ← ok_or (InvalidResponse "invalid content length") (parse_usize value);
    if str_len encoded <? expected then Err TruncatedResponse
    else if expected <? str_len encoded then Err (InvalidResponse "response exceeds declared content length")
    else Ok ()
  end.
(** The text before a semicolon. *)
Definition before_semicolon (s : string) : string := match split_once ";" s with Some (a, _) => a | None => s end.
(** [rest] is the input from [cursor] on. A round takes at least a line end, so
    the length of the input is fuel enough ([decode_chunks_fuel]). *)
Fixpoint decode_chunks (fuel : nat) (max_bytes cursor : N) (output rest : string) : TransportResult string :=
  match fuel with
  | O => Err TruncatedResponse
  | S fuel =>
    '(line, rest) ← ok_or TruncatedResponse (split_at CRLF rest);
    if negb (utf8_valid line) then Err (InvalidResponse "invalid chunk size")
    else
      size ← ok_or (InvalidResponse "invalid chunk size") (parse_hex (before_semicolon line));
      let cursor := cursor + str_len line + 2 in
      if size =? 0 then Ok output
      else if u64_max <? cursor + size then Err (InvalidResponse "chunk overflow")
      else if str_len rest <? size + 2 then Err TruncatedResponse
      else
        let chunk := str_take (N.to_nat size) rest in
        match strip_prefix CRLF (str_drop (N.to_nat size) rest) with
        | None => Err TruncatedResponse
        | Some rest =>
          if max_bytes <? str_len output + size then Err (ResponseTooLarge max_bytes)
          else decode_chunks fuel max_bytes (cursor + size + 2) (output +:+ chunk) rest
        end
  end.
Definition decode_chunked (input : string) (max_bytes : N) : TransportResult string :=
  decode_chunks (S (String.length input)) max_bytes 0 EmptyString input.

Section Response.
(** What flate2 decodes of a gzip body, and the error after it. *)
Context (gunzip : string → string * option string).

Definition decode_gzip_limited (input : string) (max_bytes : N) : TransportResult string :=
  let '(output, error) := gunzip input in
  if max_bytes <? str_len output then Err (ResponseTooLarge max_bytes)
  else match error with
       | Some e => Err (InvalidResponse ("malformed gzip body: " +:+ e))
       | None => Ok output
       end.
(** [gzip] is flate2's fast compression. *)
Definition encode_gzip_if_smaller (gzip : string → result string string) (input : string) : TransportResult (option string) :=
  encoded ← map_err Io (gzip input);
  Ok (if str_len encoded <? str_len input then Some encoded else None).
Definition parse_response (raw : string) (max_header_bytes max_response_bytes : N) : TransportResult HttpResponse :=
  '(header_text, encoded) ← ok_or (InvalidResponse "missing headers") (split_blank_line raw);
  if max_header_bytes <? str_len header_text then Err (InvalidResponse "headers exceed configured limit")
  else if negb (utf8_valid header_text) then Err (InvalidResponse "headers are not UTF-8")
  else
    '(status, headers) ← parse_headers header_text;
    body ← if has_header headers "transfer-encoding" "chunked" then decode_chunked encoded max_response_bytes
           else
             _ ← validate_content_length headers encoded;
             if max_response_bytes <? str_len encoded then Err (ResponseTooLarge max_response_bytes) else Ok encoded;
    body ← if has_header headers "content-encoding" "gzip" then decode_gzip_limited body max_response_bytes else Ok body;
    Ok {| response_status := status; response_headers := headers; response_body := body |}.

(** ** [client.rs] *)

Definition reserved_header (name : string) : bool :=
  bool_decide (to_ascii_lowercase name ∈ ["host"; "content-length"; "connection"]%string).
Fixpoint encode_headers (l : list HttpHeader) : TransportResult string :=
  match l with
  | [] => Ok EmptyString
  | h :: l =>
    if reserved_header (header_name h) then Err (InvalidRequest ("reserved request header: " +:+ header_name h))
    else rest ← encode_headers l; Ok (header_name h +:+ ": " +:+ header_text h +:+ CRLF +:+ rest)
  end.
Definition encode_request_head (t : HttpTarget) (r : HttpRequest) : TransportResult string :=
  headers ← encode_headers (headers r);
  Ok (method r +:+ " " +:+ path t +:+ " HTTP/1.1" +:+ CRLF +:+ "Host: " +:+ authority t +:+ CRLF +:+ headers +:+
      "Content-Length: " +:+ show_u64 (str_len (body r)) +:+ CRLF +:+ "Connection: close" +:+ CRLF +:+ CRLF).

(** The kind of an error of the operating system, with its text. *)
Inductive IoError := TimedOut | WouldBlock | Refused | OtherIo (text : string).
Definition map_io_error (e : IoError) : TransportError :=
  match e with
  | TimedOut | WouldBlock => Timeout
  | Refused => ConnectionRefused
  | OtherIo text => Io text
  end.
(** A round of the reading loop: whether the caller had cancelled before it, and
    what the read gave; nothing read is the end. *)
Record ReadStep := { cancelled_before : bool; read_outcome : result IoError string }.
Definition check_cancelled (cancelled : bool) : TransportResult () := if cancelled then Err Cancelled else Ok ().
Definition max_raw (c : HttpClientConfig) : N := sat_add64 (sat_add64 (max_header_bytes c) (max_response_bytes c)) 1.
Fixpoint read_loop (c : HttpClientConfig) (raw : string) (steps : list ReadStep) : TransportResult string :=
  match steps with
  | [] => Ok raw
  | s :: steps =>
    _ ← check_cancelled (cancelled_before s);
    chunk ← map_err map_io_error (read_outcome s);
    if bool_decide (chunk = EmptyString) then Ok raw
    else if max_raw c <? str_len raw + str_len chunk then Err (ResponseTooLarge (max_response_bytes c))
    else read_loop c (raw +:+ chunk) steps
  end.
Definition read_bounded (c : HttpClientConfig) (steps : list ReadStep) : TransportResult string :=
  raw ← read_loop c EmptyString steps;
  if bool_decide (raw = EmptyString) then Err (InvalidResponse "empty response") else Ok raw.

(** A connection: the bytes written to it, and what its reads will give. *)
Record Connection := { cancelled_connected : bool; write_head : result IoError (); write_body : result IoError ();
                       cancelled_written : bool; reads : list ReadStep }.
(** The exchange, with the bytes the server was sent. *)
Definition exchange (t : HttpTarget) (r : HttpRequest) (c : HttpClientConfig) (s : Connection) : TransportResult HttpResponse * string :=
  match encode_request_head t r with
  | Err e => (Err e, EmptyString)
  | Ok head =>
    match write_head s, write_body s with
    | Err e, _ => (Err (map_io_error e), EmptyString)
    | Ok _, Err e => (Err (map_io_error e), head)
    | Ok _, Ok _ =>
      (_ ← check_cancelled (cancelled_written s);
       raw ← read_bounded c (reads s);
       parse_response raw (max_header_bytes c) (max_response_bytes c), head +:+ body r)
    end
  end.
(** [connect] is name resolution, TCP and, for https, the TLS handshake. *)
Definition send (cancelled : bool) (connect : HttpTarget → N → TransportResult Connection) (t : HttpTarget) (r : HttpRequest)
    (c : HttpClientConfig) : TransportResult HttpResponse * string :=
  if cancelled then (Err Cancelled, EmptyString)
  else if max_request_bytes c <? str_len (body r) then (Err (RequestTooLarge (max_request_bytes c)), EmptyString)
  else
    match connect t (N.max (timeout_ms c) 1) with
    | Err e => (Err e, EmptyString)
    | Ok s => if cancelled_connected s then (Err Cancelled, EmptyString) else exchange t r c s
    end.
End Response.

(** ** Chunked bodies *)

(** A chunk as it is sent: the text of its size line and its data. *)
Definition chunk_text (c : string * string) : string := c.1 +:+ CRLF +:+ c.2 +:+ CRLF.
Definition chunks_text (l : list (string * string)) : string := foldr (λ c t, chunk_text c +:+ t) EmptyString l.
Definition chunks_data (l : list (string * string)) : string := foldr (λ c t, c.2 +:+ t) EmptyString l.
(** A size line, with its extensions, that announces [n] bytes. *)
Definition size_line (line : string) (n : N) : Prop :=
  str_free CR line ∧ utf8_valid line = true ∧ parse_hex (before_semicolon line) = Some n.
Definition chunk_ok (c : string * string) : Prop := size_line c.1 (str_len c.2) ∧ c.2 ≠ EmptyString.

Lemma str_len_app s t : str_len (s +:+ t) = str_len s + str_len t.
Proof. unfold str_len. rewrite string_length_app. lia. Qed.
Lemma str_len_take_whole s t : str_take (N.to_nat (str_len s)) (s +:+ t) = s.
Proof. unfold str_len. rewrite Nat2N.id. apply str_take_app. Qed.
Lemma str_len_drop_whole s t : str_drop (N.to_nat (str_len s)) (s +:+ t) = t.
Proof. unfold str_len. rewrite Nat2N.id. apply str_drop_app. Qed.
Lemma str_len_nonzero s : s ≠ EmptyString → str_len s ≠ 0.
Proof. destruct s; [done|]. intros _. unfold str_len. cbn. lia. Qed.
Lemma split_at_line line t : str_free CR line → split_at CRLF (line +:+ CRLF +:+ t) = Some (line, t).
Proof.
  induction line as [|c line IH].
  - intros _. rewrite string_app_nil. pose proof (strip_prefix_app CRLF t) as Hp.
    change (CRLF +:+ t) with (String CR (String LF t)) in *. cbn [split_at]. by rewrite Hp.
  - intros [Hc Hl]. rewrite !string_app_cons. cbn [split_at].
    assert (str_prefix CRLF (String c (line +:+ CRLF +:+ t)) = false) as Hp.
    { cbv -[bool_decide CR]. by rewrite (bool_decide_eq_false_2 (CR = c)) by congruence. }
    unfold strip_prefix. rewrite Hp. by rewrite IH.
Qed.

(** A round that reads a chunk, and the rounds that stop. *)
Lemma decode_one_chunk fuel max cursor output line data t :
  size_line line (str_len data) → data ≠ EmptyString → str_len output + str_len data ≤ max →
  cursor + str_len line + 2 + str_len data ≤ u64_max →
  decode_chunks (S fuel) max cursor output (line +:+ CRLF +:+ data +:+ CRLF +:+ t) =
    decode_chunks fuel max (cursor + str_len line + 2 + str_len data + 2) (output +:+ data) t.
Proof.
  intros (Hfree & Hutf & Hsize) Hdata Hmax Hcur. cbn [decode_chunks]. rewrite split_at_line by done.
  cbn [ok_or mbind result_bind]. rewrite Hutf. cbn [negb]. rewrite Hsize. cbn [ok_or mbind result_bind].
  rewrite (proj2 (N.eqb_neq _ _)) by by apply str_len_nonzero. rewrite (proj2 (N.ltb_ge _ _)) by lia.
  rewrite (proj2 (N.ltb_ge _ _)) by (rewrite !str_len_app; change (str_len CRLF) with 2; lia).
  rewrite str_len_drop_whole, strip_prefix_app, (proj2 (N.ltb_ge _ _)), str_len_take_whole by lia. done.
Qed.
Lemma decode_last_chunk fuel max cursor output line t :
  size_line line 0 → decode_chunks (S fuel) max cursor output (line +:+ CRLF +:+ t) = Ok output.
Proof.
  intros (Hfree & Hutf & Hsize). cbn [decode_chunks]. rewrite split_at_line by done.
  cbn [ok_or mbind result_bind]. rewrite Hutf. cbn [negb]. by rewrite Hsize.
Qed.
Lemma decode_no_line fuel max cursor output rest :
  split_at CRLF rest = None → decode_chunks fuel max cursor output rest = Err TruncatedResponse.
Proof. destruct fuel; [done|]. cbn [decode_chunks]. by intros ->. Qed.

Lemma chunks_read l last trailer max fuel cursor output :
  Forall chunk_ok l → size_line last 0 → str_len output + str_len (chunks_data l) ≤ max →
  cursor + str_len (chunks_text l) ≤ u64_max → (length l < fuel)%nat →
  decode_chunks fuel max cursor output (chunks_text l +:+ last +:+ CRLF +:+ trailer) = Ok (output +:+ chunks_data l).
Proof.
  intros Hl Hlast. revert fuel cursor output. induction Hl as [|[line data] l [Hsz Hne] Hl IH]; intros fuel cursor output Hmax Hcur Hfuel.
  - destruct fuel as [|fuel]; [lia|]. cbn [chunks_text chunks_data foldr] in *. rewrite string_app_nil, string_app_empty_r.
    by apply decode_last_chunk.
  - destruct fuel as [|fuel]; [cbn in Hfuel; lia|]. cbn [chunks_text chunks_data foldr fst snd] in *. fold (chunks_text l) (chunks_data l) in *.
    unfold chunk_text in *. cbn [fst snd] in *. rewrite !str_len_app in *. change (str_len CRLF) with 2 in *.
    rewrite !string_app_assoc, decode_one_chunk by (done || lia). rewrite IH by (cbn in Hfuel; lia || rewrite ?str_len_app; lia).
    by rewrite !string_app_assoc.
Qed.
Lemma chunks_length l : Forall chunk_ok l → (length l ≤ String.length (chunks_text l))%nat.
Proof.
  induction 1 as [|[line data] l [_ Hne] Hl IH]; [done|]. cbn [chunks_text foldr length]. fold (chunks_text l).
  unfold chunk_text. cbn [fst snd]. rewrite !string_length_app. change (String.length CRLF) with 2%nat. lia.
Qed.
(** A line that is cut. *)
Lemma split_cut_line line t p q :
  str_free CR line → p +:+ q = line +:+ CRLF +:+ t →
  split_at CRLF p = None ∨ ∃ p', p = line +:+ CRLF +:+ p' ∧ p' +:+ q = t.
Proof.
  intros Hfree Hpq. pose proof (split_at_line line t Hfree) as Hs. rewrite <- Hpq in Hs.
  destruct (decide (String.length p < String.length line + String.length CRLF)%nat) as [Hl|Hl].
  - left. by eapply split_at_cut.
  - right. rewrite <- string_app_assoc in Hpq. apply string_app_cases in Hpq as [(p' & -> & ->)|(a' & Ha & Hx & _)].
    + exists p'. by rewrite string_app_assoc.
    + exfalso. apply Hl. apply (f_equal String.length) in Hx. rewrite !string_length_app in Hx.
      destruct a' as [|? ?]; [done|]. change (String.length CRLF) with 2%nat in *. cbn in Hx. lia.
Qed.
Lemma chunks_cut l last max fuel cursor output p q :
  Forall chunk_ok l → size_line last 0 → str_len output + str_len (chunks_data l) ≤ max →
  cursor + str_len (chunks_text l) ≤ u64_max →
  p +:+ q = chunks_text l +:+ last +:+ CRLF → q ≠ EmptyString →
  decode_chunks fuel max cursor output p = Err TruncatedResponse.
Proof.
  intros Hl Hlast. revert fuel cursor output p. induction Hl as [|[line data] l [Hsz Hne] Hl IH]; intros fuel cursor output p Hmax Hcur Hpq Hq.
  - cbn [chunks_text foldr] in Hpq. rewrite string_app_nil in Hpq. destruct Hlast as (Hfree & _).
    rewrite <- (string_app_empty_r CRLF) in Hpq. apply split_cut_line in Hpq as [Hn|(p' & -> & Hp)]; [by apply decode_no_line| |done].
    destruct p', q; done.
  - cbn [chunks_text chunks_data foldr fst snd] in *. fold (chunks_text l) (chunks_data l) in *.
    unfold chunk_text in *. cbn [fst snd] in *. rewrite !str_len_app in *. change (str_len CRLF) with 2 in *.
    rewrite !string_app_assoc in Hpq. pose proof Hsz as (Hfree & Hutf & Hsize).
    apply split_cut_line in Hpq as [Hn|(p' & -> & Hp)]; [by apply decode_no_line| |done].
    destruct fuel as [|fuel]; [done|].
    rewrite <- (string_app_assoc data CRLF) in Hp. apply string_app_cases in Hp as [(p2 & -> & Hp2)|(a' & Ha & Hx & _)].
    + rewrite (string_app_assoc data CRLF p2), decode_one_chunk by (done || lia). apply IH; [rewrite str_len_app; lia|lia|done|done].
    + cbn [decode_chunks]. rewrite split_at_line by done. cbn [ok_or mbind result_bind]. rewrite Hutf. cbn [negb]. rewrite Hsize.
      cbn [ok_or mbind result_bind]. rewrite (proj2 (N.eqb_neq _ _)) by by apply str_len_nonzero.
      rewrite (proj2 (N.ltb_ge _ _)) by lia. rewrite (proj2 (N.ltb_lt _ _)); [done|].
      apply (f_equal str_len) in Hx. rewrite !str_len_app in Hx. change (str_len CRLF) with 2 in Hx.
      apply str_len_nonzero in Ha. lia.
Qed.
(** The length of the input is fuel enough. *)
Lemma decode_chunks_fuel fuel fuel' max cursor output rest :
  (String.length rest < fuel)%nat → (String.length rest < fuel')%nat →
  decode_chunks fuel max cursor output rest = decode_chunks fuel' max cursor output rest.
Proof.
  revert fuel' cursor output rest. induction fuel as [|fuel IH]; intros fuel' cursor output rest Hf Hf'; [lia|].
  destruct fuel' as [|fuel']; [lia|]. cbn [decode_chunks].
  destruct (split_at CRLF rest) as [[line rest1]|] eqn:Hs; [|done]. cbn [ok_or mbind result_bind].
  apply split_at_Some in Hs. destruct (negb _); [done|]. destruct (parse_hex _) as [size|]; [|done]. cbn [ok_or mbind result_bind].
  destruct (size =? 0); [done|]. destruct (_ <? _); [done|]. destruct (_ <? _); [done|].
  destruct (strip_prefix CRLF (str_drop (N.to_nat size) rest1)) as [rest2|] eqn:Hp; [|done]. destruct (_ <? _); [done|].
  apply strip_prefix_Some, (f_equal String.length) in Hp. rewrite str_length_drop, string_length_app in Hp.
  change (String.length CRLF) with 2%nat in Hp. rewrite Hs, !string_length_app in Hf, Hf'.
  change (String.length CRLF) with 2%nat in Hf, Hf'. apply IH; lia.
Qed.
Lemma decode_chunks_bounded fuel max cursor output rest out :
  str_len output ≤ max → decode_chunks fuel max cursor output rest = Ok out → str_len out ≤ max.
Proof.
  revert cursor output rest. induction fuel as [|fuel IH]; intros cursor output rest Ho; cbn [decode_chunks]; [done|].
  destruct (split_at CRLF rest) as [[line rest1]|]; [|done]. cbn [ok_or mbind result_bind].
  destruct (negb _); [done|]. destruct (parse_hex _) as [size|]; [|done]. cbn [ok_or mbind result_bind].
  destruct (size =? 0); [by intros [= <-]|]. destruct (_ <? _); [done|]. destruct (_ <? _) eqn:Hlen; [done|].
  destruct (strip_prefix CRLF _) as [rest2|]; [|done]. destruct (max <? _) eqn:Hmax; [done|]. apply N.ltb_ge in Hmax, Hlen.
  apply IH. rewrite str_len_app. etransitivity; [|exact Hmax]. apply N.add_le_mono_l. unfold str_len. rewrite str_length_take. lia.
Qed.

(** ** Whole responses *)

(** A head ends at its empty line. *)
Definition is_head (head : string) : Prop := split_blank_line (head +:+ CRLF +:+ CRLF) = Some (head, EmptyString).
(** The framing of a body under the headers of a response. *)
Inductive framed (hs : list (string * string)) : string → string → Prop :=
| framed_chunked l last :
    has_header hs "transfer-encoding" "chunked" = true → Forall chunk_ok l → size_line last 0 →
    str_len (chunks_text l) ≤ u64_max → framed hs (chunks_text l +:+ last +:+ CRLF) (chunks_data l)
| framed_length body value :
    has_header hs "transfer-encoding" "chunked" = false → header_value hs "content-length" = Some value →
    parse_usize value = Some (str_len body) → framed hs body body.

Section Responses.
Context (gunzip : string → string * option string).
Abbreviation parse_response := (parse_response gunzip).

Lemma head_found head t : is_head head → split_blank_line (head +:+ CRLF +:+ CRLF +:+ t) = Some (head, t).
Proof.
  intros Hh. apply (split_at_grow _ _ t) in Hh. by rewrite !string_app_assoc, string_app_nil in Hh.
Qed.
Lemma head_cut head t p q :
  is_head head → p +:+ q = head +:+ CRLF +:+ CRLF +:+ t →
  split_blank_line p = None ∨ ∃ p', p = head +:+ CRLF +:+ CRLF +:+ p' ∧ p' +:+ q = t.
Proof.
  intros Hh Hpq. pose proof (head_found head t Hh) as Hs. rewrite <- Hpq in Hs.
  destruct (decide (String.length p < String.length head + String.length (CRLF +:+ CRLF))%nat) as [Hl|Hl].
  - left. by eapply split_at_cut.
  - right. rewrite <- (string_app_assoc CRLF), <- string_app_assoc in Hpq. apply string_app_cases in Hpq as [(p' & -> & ->)|(a' & Ha & Hx & _)].
    + exists p'. by rewrite !string_app_assoc.
    + exfalso. apply Hl. apply (f_equal String.length) in Hx. rewrite !string_length_app in *.
      change (String.length CRLF) with 2%nat in *. destruct a' as [|? ?]; [done|]. cbn in Hx. lia.
Qed.
Lemma framed_whole hs encoded body max max_header head status :
  is_head head → utf8_valid head = true → parse_headers head = Ok (status, hs) → framed hs encoded body →
  has_header hs "content-encoding" "gzip" = false → str_len head ≤ max_header → str_len body ≤ max →
  parse_response (head +:+ CRLF +:+ CRLF +:+ encoded) max_header max =
    Ok {| response_status := status; response_headers := hs; response_body := body |}.
Proof.
  intros Hh Hu Hp Hf Hg Hlh Hlb. unfold HttpTransport.parse_response. rewrite head_found by done. cbn [ok_or mbind result_bind].
  rewrite (proj2 (N.ltb_ge _ _)), Hu by done. cbn [negb]. rewrite Hp. cbn [mbind result_bind].
  destruct Hf as [l last Hc Hl Hlast Hsz|body value Hc Hv Hn]; rewrite Hc.
  - unfold decode_chunked.
    rewrite <- (string_app_empty_r CRLF). rewrite chunks_read; [cbn [mbind result_bind]; by rewrite Hg| |done|by cbn|by cbn|].
    { done. } { rewrite !string_length_app. pose proof (chunks_length l Hl). lia. }
  - unfold validate_content_length. rewrite Hv. cbn [mbind result_bind ok_or]. rewrite Hn. cbn [mbind result_bind ok_or].
    rewrite !(proj2 (N.ltb_ge _ _)) by (done || lia).
    cbn [mbind result_bind]. by rewrite Hg.
Qed.
Lemma framed_cut hs encoded body max max_header head status p q :
  is_head head → parse_headers head = Ok (status, hs) → framed hs encoded body → str_len body ≤ max →
  p +:+ q = head +:+ CRLF +:+ CRLF +:+ encoded → q ≠ EmptyString → ∃ e, parse_response p max_header max = Err e.
Proof.
  intros Hh Hp Hf Hlb Hpq Hq. unfold HttpTransport.parse_response.
  apply head_cut in Hpq as [->|(p' & -> & Hp')]; [by eexists| |done]. rewrite head_found by done. cbn [ok_or mbind result_bind].
  destruct (_ <? _); [by eexists|]. destruct (negb _); [by eexists|]. rewrite Hp. cbn [mbind result_bind].
  destruct Hf as [l last Hc Hl Hlast Hsz|body value Hc Hv Hn]; rewrite Hc.
  - unfold decode_chunked. rewrite (chunks_cut l last max _ 0 EmptyString p' q) by (done || by cbn). by eexists.
  - unfold validate_content_length. rewrite Hv. cbn [mbind result_bind ok_or]. rewrite Hn. cbn [mbind result_bind ok_or].
    apply str_len_nonzero in Hq. assert (str_len p' < str_len body) as Hlt by (rewrite <- Hp', str_len_app; lia).
    rewrite (proj2 (N.ltb_lt _ _) Hlt). by eexists.
Qed.


(** Whatever a server sends, and however its gzip body expands: what is kept of
    a response is within the limits of the client. *)
Theorem responses_are_bounded raw max_header max r :
  parse_response raw max_header max = Ok r → str_len (response_body r) ≤ max.
Proof.
  unfold HttpTransport.parse_response. destruct (split_blank_line raw) as [[head encoded]|]; [|done]. cbn [ok_or mbind result_bind].
  destruct (_ <? _); [done|]. destruct (negb _); [done|]. destruct (parse_headers head) as [[status hs]|]; [|done]. cbn [mbind result_bind].
  set (plain := if has_header hs "transfer-encoding" "chunked" then _ else _).
  assert (∀ b, plain = Ok b → str_len b ≤ max) as Hplain.
  { intros b. unfold plain, decode_chunked. destruct (has_header hs _ _); [apply decode_chunks_bounded, N.le_0_l|].
    destruct (validate_content_length _ _); [|done]. cbn [mbind result_bind].
    destruct (max <? str_len encoded) eqn:Hm; [done|]. apply N.ltb_ge in Hm. by intros [= <-]. }
  destruct plain as [b|]; [|done]. specialize (Hplain b eq_refl). cbn [mbind result_bind].
  destruct (has_header hs "content-encoding" _); [|by intros [= <-]].
  unfold decode_gzip_limited. destruct (gunzip b) as [out error]. destruct (max <? str_len out) eqn:Hm; [done|].
  apply N.ltb_ge in Hm. destruct error; [done|]. by intros [= <-].
Qed.
End Responses.

(** ** Request heads *)

Definition header_line (h : HttpHeader) : string := header_name h +:+ ": " +:+ header_text h.
Definition request_lines (t : HttpTarget) (r : HttpRequest) : list string :=
  [method r +:+ " " +:+ path t +:+ " HTTP/1.1"; "Host: " +:+ authority t] ++ map header_line (headers r) ++
  ["Content-Length: " +:+ show_u64 (str_len (body r)); "Connection: close"].
Lemma header_byte_clean : header_byte CR = false ∧ header_byte LF = false.
Proof. split; reflexivity. Qed.
Lemma built_header_clean n v s h :
  header_build n v s = Ok h → clean (header_name h) ∧ header_name h ≠ EmptyString ∧ clean (header_text h).
Proof.
  unfold header_build. case_bool_decide as Hn; [done|]. destruct (str_all header_byte n) eqn:Hb; [|done].
  destruct (any_control v) eqn:Hv; [done|]. intros [= <-]. split_and!; [by apply (clean_all header_byte)|done|by apply clean_control].
Qed.
Lemma encode_headers_lines l s : encode_headers l = Ok s → s = crlf_lines (map header_line l) ∧ Forall (λ h, reserved_header (header_name h) = false) l.
Proof.
  revert s. induction l as [|h l IH]; intros s; cbn [encode_headers map crlf_lines]; [by intros [= <-]|].
  destruct (reserved_header _) eqn:Hr; [done|]. destruct (encode_headers l) as [s'|]; [|done]. cbn. intros [= <-].
  destruct (IH s' eq_refl) as [-> Hall]. split; [unfold header_line; by rewrite !string_app_assoc|by constructor].
Qed.
Lemma encode_head_lines t r head :
  encode_request_head t r = Ok head →
  head = crlf_lines (request_lines t r) +:+ CRLF ∧ Forall (λ h, reserved_header (header_name h) = false) (headers r).
Proof.
  unfold encode_request_head. destruct (encode_headers (headers r)) as [s|] eqn:Hs; [|done]. cbn. intros [= <-].
  apply encode_headers_lines in Hs as [-> Hall]. split; [|done]. unfold request_lines. cbn [app crlf_lines].
  assert (∀ l l', crlf_lines (l ++ l') = crlf_lines l +:+ crlf_lines l') as Happ.
  { intros l l'. induction l as [|x l IH]; [done|]. cbn [app crlf_lines]. by rewrite IH, !string_app_assoc. }
  rewrite Happ. cbn [crlf_lines]. rewrite !string_app_assoc. by rewrite string_app_nil.
Qed.

(** What a parsed target is made of. *)
Lemma target_parse_ok base rp t :
  target_parse base rp = Ok t → host t ≠ EmptyString ∧ any_control (host t) = false ∧ starts_with_slash (path t) = true ∧
    any_control (path t) = false.
Proof.
  unfold target_parse. destruct (parse_scheme base) as [[s b]|]; [|done]. cbn [mbind result_bind].
  destruct (match split_once "/" b with Some _ => _ | None => _ end) as [au bp].
  destruct (parse_authority au s) as [[h p]|]; [|done]. cbn [mbind result_bind]. case_bool_decide; [done|].
  destruct (any_control h) eqn:Hh; [done|]. destruct (starts_with_slash _) eqn:Hs; [|done].
  destruct (any_control (join_paths _ _)) eqn:Hp; [done|]. cbn. by intros [= <-].
Qed.
Lemma authority_clean t : any_control (host t) = false → clean (authority t).
Proof.
  intros Hh%clean_control. unfold authority. assert (clean "[" ∧ clean "]" ∧ clean ":") as (H1 & H2 & H3) by (split_and!; by apply clean_text).
  assert (clean (if (0 <? count_char ":" (host t))%nat then "[" +:+ host t +:+ "]" else host t)) as Hc
    by (destruct (_ <? _)%nat; [by rewrite !clean_app|done]).
  destruct (_ =? _); [done|]. rewrite !clean_app. pose proof (clean_u64 (port t)). tauto.
Qed.
Lemma request_lines_clean t r :
  any_control (host t) = false → any_control (path t) = false → valid_method (method r) = true →
  Forall (λ h, ∃ n v s, header_build n v s = Ok h) (headers r) → Forall (λ s, clean s ∧ s ≠ EmptyString) (request_lines t r).
Proof.
  intros Hh Hp Hm Hhs. unfold valid_method in Hm. apply andb_true_iff in Hm as [Hne%negb_true_iff%bool_decide_eq_false Hm].
  unfold request_lines. apply Forall_app. split; [|apply Forall_app; split].
  - apply Forall_cons_2; [|apply Forall_singleton]; rewrite !clean_app.
    + split; [|by destruct (method r)].
      split_and!; [by apply (clean_all is_ascii_uppercase)|by apply clean_text|by apply clean_control|by apply clean_text].
    + split; [|done]. split; [by apply clean_text|by apply authority_clean].
  - apply Forall_fmap. eapply Forall_impl; [exact Hhs|]. intros h (n & v & s & Hb). apply built_header_clean in Hb as (H1 & H2 & H3).
    unfold compose, header_line. rewrite !clean_app. split; [split_and!; [done|by apply clean_text|done]|]. by destruct (header_name h).
  - apply Forall_cons_2; [|apply Forall_singleton]; rewrite ?clean_app.
    + split; [|done]. split; [by apply clean_text|apply clean_u64].
    + split; [by apply clean_text|done].
Qed.

(** The bytes of a request say what the request is and nothing more. For every
    target the parser accepts and every request built from validated parts, the
    head that is sent consists, line by line, of the request line, the host, the
    given headers in order, the length of the body and [Connection: close]; no
    value can end a line or the head, so that what follows the first empty line
    is exactly the body; and no given header is a second host, length or
    connection header. *)
Theorem request_heads_carry_no_more base rp t r head :
  target_parse base rp = Ok t → valid_method (method r) = true →
  Forall (λ h, ∃ n v s, header_build n v s = Ok h) (headers r) → encode_request_head t r = Ok head →
  lines head = request_lines t r ++ [EmptyString] ∧
  (∃ text, head = text +:+ CRLF +:+ CRLF ∧ split_blank_line (head +:+ body r) = Some (text, body r)) ∧
  Forall (λ h, reserved_header (header_name h) = false) (headers r).
Proof.
  intros (_ & Hh & _ & Hp)%target_parse_ok Hm Hhs [-> Hres]%encode_head_lines.
  pose proof (request_lines_clean t r Hh Hp Hm Hhs) as Hclean. split_and!; [| |done].
  - rewrite crlf_lines_read; [done|]. eapply Forall_impl; [exact Hclean|]. by intros s [? ?].
  - destruct (crlf_lines_end _ _ Hclean) as (text & Htext). exists text.
    destruct (Htext EmptyString) as [H1 _]. rewrite !string_app_empty_r in H1. split; [exact H1|].
    rewrite string_app_assoc. apply Htext.
Qed.

(** ** Exchanges *)

Definition piece (s : string) : ReadStep := {| cancelled_before := false; read_outcome := Ok s |}.
Definition concat_pieces (l : list string) : string := foldr (λ s t, s +:+ t) EmptyString l.
Lemma read_pieces c raw l :
  Forall (λ s, s ≠ EmptyString) l → str_len raw + str_len (concat_pieces l) ≤ max_raw c →
  read_loop c raw (map piece l) = Ok (raw +:+ concat_pieces l).
Proof.
  intros Hl. revert raw. induction Hl as [|s l Hs Hl IH]; intros raw Hmax; cbn [map read_loop concat_pieces foldr].
  - by rewrite string_app_empty_r.
  - fold (concat_pieces l) in *. cbn [concat_pieces foldr] in Hmax. fold (concat_pieces l) in Hmax. rewrite str_len_app in Hmax.
    cbn [piece cancelled_before read_outcome check_cancelled mbind result_bind map_err].
    rewrite bool_decide_eq_false_2, (proj2 (N.ltb_ge _ _)) by (done || lia).
    rewrite IH by (rewrite str_len_app; lia). by rewrite string_app_assoc.
Qed.
(** No more is read than the limits of the client allow. *)
Lemma read_loop_bounded c raw steps out : str_len raw ≤ max_raw c → read_loop c raw steps = Ok out → str_len out ≤ max_raw c.
Proof.
  revert raw. induction steps as [|s steps IH]; intros raw Hraw; cbn [read_loop]; [by intros [= <-]|].
  unfold check_cancelled. destruct (cancelled_before s); [done|]. cbn [mbind result_bind].
  destruct (read_outcome s) as [chunk|]; [|done]. cbn [map_err mbind result_bind]. case_bool_decide; [by intros [= <-]|].
  destruct (_ <? _) eqn:Hm; [done|]. apply N.ltb_ge in Hm. apply IH. by rewrite str_len_app.
Qed.

(** An exchange gives the answer of the server or an error: when the reads,
    in whatever pieces, bring a framed response within the limits, the exchange
    returns it; when the connection ends before, it fails. *)
Theorem exchange_is_whole_or_fails gunzip t r c head0 pieces head status hs encoded body q :
  encode_request_head t r = Ok head0 →
  is_head head → utf8_valid head = true → parse_headers head = Ok (status, hs) → framed hs encoded body →
  has_header hs "content-encoding" "gzip" = false → str_len head ≤ max_header_bytes c → str_len body ≤ max_response_bytes c →
  Forall (λ s, s ≠ EmptyString) pieces → concat_pieces pieces +:+ q = head +:+ CRLF +:+ CRLF +:+ encoded →
  str_len (concat_pieces pieces) ≤ max_raw c →
  let server := {| cancelled_connected := false; write_head := Ok (); write_body := Ok (); cancelled_written := false;
                   reads := map piece pieces |} in
  match exchange gunzip t r c server with
  | (answer, sent) =>
    sent = head0 +:+ HttpTransport.body r ∧
    (q = EmptyString → answer = Ok {| response_status := status; response_headers := hs; response_body := body |}) ∧
    (q ≠ EmptyString → ∃ e, answer = Err e)
  end.
Proof.
  intros Hhead Hh Hu Hp Hf Hg Hlh Hlb Hpieces Hpq Hmax. unfold exchange. rewrite Hhead.
  cbn [write_head write_body cancelled_written reads check_cancelled mbind result_bind]. split; [done|].
  unfold read_bounded. rewrite read_pieces by done. cbn [mbind result_bind]. rewrite string_app_nil.
  case_bool_decide as Hempty.
  - split; [|by eexists]. intros ->. exfalso. rewrite Hempty, !string_app_nil in Hpq.
    destruct head; [by destruct (CRLF +:+ CRLF +:+ encoded) eqn:?|done].
  - cbn [mbind result_bind]. split.
    + intros ->. rewrite string_app_empty_r in Hpq. rewrite Hpq. by apply framed_whole.
    + intros Hq. by eapply framed_cut.
Qed.

(** ** A concrete exchange *)

Module TransportDemo.
Definition gunzip (s : string) : string * option string := (s, None).
Definition head : string := "HTTP/1.1 200 OK" +:+ CRLF +:+ "Transfer-Encoding: chunked".
Definition headers : list (string * string) := [("transfer-encoding", "chunked")]%string.
Definition chunks : list (string * string) := [("5", "hello"); ("B;name=x", " and world!")]%string.
Definition encoded : string := chunks_text chunks +:+ "0" +:+ CRLF.
Definition base : string := "http://[::1]:8080/api/".
Definition target : TransportResult HttpTarget := target_parse base "/v1/query".
End TransportDemo.

(** The target, and the size limit against a body that is one byte too long. *)
Example demo_target :
  TransportDemo.target = Ok {| scheme := Http; host := "::1"; port := 8080; path := "/api/v1/query" |} ∧
  authority <$> TransportDemo.target = Ok "[::1]:8080"%string ∧
  parse_response TransportDemo.gunzip (TransportDemo.head +:+ CRLF +:+ CRLF +:+ TransportDemo.encoded) 100 15 = Err (ResponseTooLarge 15).
Proof. split_and!; vm_compute; reflexivity. Qed.
