(* ===== verification/StorageRemote.v ===== *)
(** Storage sealed by a remote service
    ([crates/appcore-storage/src/storage_auth_remote.rs]): requests and responses,
    the tokens that carry them, the HTTP exchange of the client, the work of the
    service, and the two operations of the file provider that use them.

    Token providers are the class [TokenProvider] of Tokens.v on a state of their
    own; JSON is the class [AuthJson]. The network is an operation that takes the
    text of a request to the chunks that are read back; clocks, the process id and
    the counter of nonces are arguments. *)

From S2P Require Import Prelude.
From S2P Require Import Text.
From S2P Require Import HttpText.
From S2P Require Import Types.
From S2P Require Import Encoding.
From S2P Require Import DemoText.
From S2P Require Import Files.
From S2P Require Import Tokens.
From S2P Require Import HashToken.
From S2P Require Import Keyring.
From S2P Require Import StorageTree.
From S2P Require Import StorageWalk.
From S2P Require Import Storage.

Local Open Scope N_scope.

Definition AUTH_REMOTE_SCHEMA : string := "appcore.auth-remote.v1".
Definition AUTH_REMOTE_ENDPOINT : string := "/auth/storage".
Definition DEFAULT_AUTH_REMOTE_MAX_BYTES : N := 1048576.
Definition DEFAULT_AUTH_REMOTE_TTL_MS : N := 10000.
Definition DEFAULT_AUTH_REMOTE_TIMEOUT_MS : N := 5000.

Record AuthRemoteRequest := {
  request_schema : string;
  request_resource : string;
  request_operation : string;
  request_nonce : string;
  request_issued_at_ms : N;
  request_expires_at_ms : N;
  request_payload_hex : string;
}.
Record AuthRemoteResponse := {
  response_schema : string;
  response_status : string;
  response_nonce : string;
  response_expires_at_ms : N;
  response_payload_hex : string;
}.

(** [serde_json] on the two records. *)
Class AuthJson := {
  request_to_vec : AuthRemoteRequest → option (list byte);
  request_from_slice : list byte → option AuthRemoteRequest;
  response_to_vec : AuthRemoteResponse → option (list byte);
  response_from_slice : list byte → option AuthRemoteResponse;
}.
Class AuthJsonLaws `{AuthJson} := {
  request_roundtrip r b : request_to_vec r = Some b → request_from_slice b = Some r;
  response_roundtrip r b : response_to_vec r = Some b → response_from_slice b = Some r;
}.

(** ** Validation *)

Definition validate_operation (operation : string) : result StorageError () :=
  if bool_decide (operation = "seal"%string) || bool_decide (operation = "open"%string) then Ok ()
  else Err (SecurityFailed operation).
Definition validate_resource (resource : string) : result StorageError () :=
  if bool_decide (resource = EmptyString) || (256 <? str_len resource) || is_absolute resource then Err (InvalidPath resource)
  else if existsb (λ c, match c with ParentDir | RootDir => true | _ => false end) (components resource)
  then Err (InvalidPath resource)
  else Ok ().
Definition validate_auth_resource := validate_resource.
Definition validate_request (r : AuthRemoteRequest) (now_ms max_payload_bytes : N) : result StorageError () :=
  if negb (bool_decide (request_schema r = AUTH_REMOTE_SCHEMA)) || (request_expires_at_ms r <=? now_ms)
  then Err (SecurityFailed (request_resource r))
  else if bool_decide (request_nonce r = EmptyString) || (request_expires_at_ms r <=? request_issued_at_ms r)
  then Err (SecurityFailed (request_resource r))
  else
    _ ← validate_resource (request_resource r);
    _ ← validate_operation (request_operation r);
    if max_payload_bytes <? str_len (request_payload_hex r) / 2 then Err (SecurityFailed (request_resource r)) else Ok ().
Definition validate_response (r : AuthRemoteResponse) (expected_nonce : string) (now_ms : N) : result StorageError () :=
  if negb (bool_decide (response_schema r = AUTH_REMOTE_SCHEMA)) || negb (bool_decide (response_status r = "ok"%string))
  then Err (SecurityFailed "auth response")
  else if negb (bool_decide (response_nonce r = expected_nonce)) || (response_expires_at_ms r <=? now_ms)
  then Err (SecurityFailed "auth response")
  else Ok ().

(** [now_ms], the process id and the counter. *)
Definition make_nonce (now_ms pid counter : N) : string :=
  show_u64 now_ms +:+ "-" +:+ show_u64 pid +:+ "-" +:+ show_u64 counter.
Definition make_auth_request (resource operation : string) (payload : list byte) (now_ms pid counter : N) :
    result StorageError AuthRemoteRequest :=
  _ ← validate_resource resource;
  _ ← validate_operation operation;
  Ok {| request_schema := AUTH_REMOTE_SCHEMA; request_resource := resource; request_operation := operation;
        request_nonce := make_nonce now_ms pid counter; request_issued_at_ms := now_ms;
        request_expires_at_ms := sat_add64 now_ms DEFAULT_AUTH_REMOTE_TTL_MS; request_payload_hex := hex_encode payload |}.

Definition transport_claims (ttl : N) : TokenClaims :=
  {| issuer := "appcore-runtime-host"; audience := "appcore-auth-server"; salt := "auth-remote-transport-v1"; ttl_ms := ttl |}.
Definition data_claims : TokenClaims :=
  {| issuer := "appcore-auth-server"; audience := "appcore-auth-storage"; salt := "auth-remote-data-v1"; ttl_ms := 0 |}.

(** ** Tokens *)

Section Protocol.
Context `{AuthJson} {S : Type} `{TokenProvider S}.

(** [String::from_utf8]. *)
Definition utf8_text (e : StorageError) (bytes : list byte) : result StorageError string :=
  let text := String.string_of_list_byte bytes in if utf8_valid text then Ok text else Err e.
Definition seal_transport (e : StorageError) (payload : option (list byte)) : op S StorageError string :=
  payload ← op_lift (ok_or e payload);
  token ← op_map_err (λ _, e) (seal payload (transport_claims DEFAULT_AUTH_REMOTE_TTL_MS));
  op_lift (utf8_text e token).
Definition seal_remote_request (r : AuthRemoteRequest) : op S StorageError string :=
  seal_transport (SecurityFailed (request_resource r)) (request_to_vec r).
Definition open_remote_request (token : string) (now_ms : N) : op S StorageError AuthRemoteRequest :=
  bytes ← op_map_err (λ _, SecurityFailed "auth transport") (open (str_bytes token) (transport_claims DEFAULT_AUTH_REMOTE_TTL_MS));
  request ← op_lift (ok_or (SecurityFailed "auth request") (request_from_slice bytes));
  _ ← op_lift (validate_request request now_ms DEFAULT_AUTH_REMOTE_MAX_BYTES);
  mret request.
Definition seal_remote_response (r : AuthRemoteResponse) : op S StorageError string :=
  seal_transport (SecurityFailed (response_nonce r)) (response_to_vec r).
Definition open_remote_response (token expected_nonce : string) (now_ms : N) : op S StorageError (list byte) :=
  bytes ← op_map_err (λ _, SecurityFailed "auth response") (open (str_bytes token) (transport_claims DEFAULT_AUTH_REMOTE_TTL_MS));
  response ← op_lift (ok_or (SecurityFailed "auth response") (response_from_slice bytes));
  _ ← op_lift (validate_response response expected_nonce now_ms);
  op_lift (ok_or (SecurityFailed (response_nonce response)) (hex_bytes (response_payload_hex response))).
Definition process_remote_request (r : AuthRemoteRequest) : op S StorageError AuthRemoteResponse :=
  payload ← op_lift (ok_or (SecurityFailed (request_resource r)) (hex_bytes (request_payload_hex r)));
  output ←
    (if bool_decide (request_operation r = "seal"%string)
     then op_map_err (λ _, SecurityFailed (request_resource r)) (seal payload data_claims)
     else if bool_decide (request_operation r = "open"%string)
     then op_map_err (λ _, SecurityFailed (request_resource r)) (open payload data_claims)
     else op_fail (SecurityFailed (request_resource r)));
  mret {| response_schema := AUTH_REMOTE_SCHEMA; response_status := "ok"; response_nonce := request_nonce r;
          response_expires_at_ms := request_expires_at_ms r; response_payload_hex := hex_encode output |}.
End Protocol.

(** ** HTTP *)

Definition http_request (host body : string) : string :=
  ("POST " +:+ AUTH_REMOTE_ENDPOINT +:+ " HTTP/1.1") +:+ CRLF +:+ ("Host: " +:+ host) +:+ CRLF +:+
  "Content-Type: text/plain" +:+ CRLF +:+ ("Content-Length: " +:+ show_u64 (str_len body)) +:+ CRLF +:+
  "Connection: close" +:+ CRLF +:+ CRLF +:+ body.

(** A read of the socket: some bytes, or a failure; the end is the end of the list. *)
Inductive chunk := Chunk (bytes : list byte) | ReadFailed.
Fixpoint read_limited (out : list byte) (max_bytes : N) (chunks : list chunk) : result StorageError (list byte) :=
  match chunks with
  | [] => Ok out
  | Chunk bytes :: rest =>
    let out := out ++ bytes in
    if max_bytes <? lenN out then Err (SecurityFailed "auth response too large") else read_limited out max_bytes rest
  | ReadFailed :: _ => Err (AuthUnavailable "auth-server")
  end.

Definition http_status (head : string) : result StorageError N :=
  line ← ok_or (SecurityFailed "missing auth status") (hd_error (lines head));
  word ← ok_or (SecurityFailed "missing auth status") (split_words EmptyString line !! 1%nat);
  ok_or (SecurityFailed "invalid auth status") (parse_u16 word).
Definition parse_http_response (text : string) : result StorageError string :=
  '(head, body) ← ok_or (SecurityFailed "malformed auth response") (split_blank_line text);
  status ← http_status head;
  if (200 <=? status) && (status <? 300) then Ok body
  else if status =? 503 then Err (AuthUnavailable "auth-server")
  else Err (SecurityFailed ("auth status " +:+ show_u64 status)).
Definition read_http_response (max_bytes : N) (chunks : list chunk) : result StorageError string :=
  raw ← read_limited [] max_bytes chunks;
  text ← utf8_text (SecurityFailed "auth response") raw;
  parse_http_response text.

(** ** The client *)

(** An operation on one part of the state. *)
Definition on_left {A B E X} (o : op A E X) : op (A * B) E X := λ s,
  let '(r, a) := o s.1 in (r, (a, s.2)).
Definition on_right {A B E X} (o : op B E X) : op (A * B) E X := λ s,
  let '(r, b) := o s.2 in (r, (s.1, b)).

(** The token provider of the client is the instance below. *)
Record RemoteAuthStorageClient := { address : string; timeout_ms : N; max_response_bytes : N }.
Definition client_new (address : string) : RemoteAuthStorageClient :=
  {| address := address; timeout_ms := DEFAULT_AUTH_REMOTE_TIMEOUT_MS; max_response_bytes := DEFAULT_AUTH_REMOTE_MAX_BYTES |}.
Definition with_timeout_ms (timeout : N) (c : RemoteAuthStorageClient) : RemoteAuthStorageClient :=
  {| address := address c; timeout_ms := timeout; max_response_bytes := max_response_bytes c |}.
(** [from_secret_file] with the bytes that are read. *)
Definition from_secret_file `{HashTokenLibrary} (address file : string) (raw : option (list byte)) :
    result StorageError (RemoteAuthStorageClient * HashTokenProvider) :=
  raw ← ok_or (AuthUnavailable file) raw;
  material ← map_err (λ _, SecurityFailed file) (parse_secret_material raw);
  provider ← map_err (λ _, SecurityFailed file) (from_secret (secret material));
  Ok (client_new address, provider).

(** The readings of the process: the clock when the request is made and when the
    response is opened, the process id and the counter. *)
Record readings := { asked_at : N; answered_at : N; process_id : N; nonce_counter : N }.

Section Client.
Context `{AuthJson} {S W : Type} `{TokenProvider S}.
(** Connecting, writing the request and reading until the end, with the timeout. *)
Context (exchange : string → N → string → op W () (list chunk)) (c : RemoteAuthStorageClient).

Definition post_token (token : string) : op W StorageError string :=
  chunks ← op_map_err (λ _, AuthUnavailable (address c)) (exchange (address c) (timeout_ms c) (http_request (address c) token));
  op_lift (read_http_response (max_response_bytes c) chunks).
Definition call (now : readings) (resource operation : string) (payload : list byte) : op (S * W) StorageError (list byte) :=
  request ← op_lift (make_auth_request resource operation payload (asked_at now) (process_id now) (nonce_counter now));
  token ← on_left (seal_remote_request request);
  response ← on_right (post_token token);
  on_left (open_remote_response response (request_nonce request) (answered_at now)).
Definition seal_resource (now : readings) (resource : string) (bytes : list byte) := call now resource "seal" bytes.
Definition open_resource (now : readings) (resource : string) (sealed : list byte) := call now resource "open" sealed.
End Client.

(** ** Files sealed by the service (storage_file.rs) *)

Definition require_remote_auth_client {C} (name : string) (client : option C) : result StorageError C :=
  ok_or (AuthUnavailable name) client.

Section Files.
Context `{DirectoryOrder} `{AuthJson} {S W : Type} `{TokenProvider S}.
Context (exchange : string → N → string → op W () (list chunk)) (self : FileStorageProvider).

Definition write_remote_auth_required_bytes (proc : process) (counter : N) (now : readings) (name : string) (bytes : list byte)
    (client : option RemoteAuthStorageClient) : op ((S * W) * fs_disk) StorageError () :=
  client ← op_lift (require_remote_auth_client name client);
  sealed ← on_left (seal_resource exchange client now name bytes);
  on_right (write_bytes_atomic self proc counter name sealed).
Definition read_remote_auth_required_bytes (now : readings) (name : string) (client : option RemoteAuthStorageClient) :
    op ((S * W) * fs_disk) StorageError (list byte) :=
  client ← op_lift (require_remote_auth_client name client);
  sealed ← on_right (read_bytes self name);
  on_left (open_resource exchange client now name sealed).
End Files.

(** ** The service *)

(** The service of a deployment, as the tests build it: the three steps in a row. *)
Definition service `{AuthJson} {T D} `{TokenProvider T} `{TokenProvider D} (token : string) (now_ms : N) : op (T * D) StorageError string :=
  request ← on_left (open_remote_request token now_ms);
  response ← on_right (process_remote_request request);
  on_left (seal_remote_response response).

(** Opening under some claims gives nothing but what was sealed under them. *)
Class Faithful (A B : Type) `{TokenProvider A} `{TokenProvider B} (c : TokenClaims) : Prop :=
  faithful p (s s' : A) t (u : B) q (u' : B) : seal p c s = (Ok t, s') → open t c u = (Ok q, u') → q = p.

Lemma on_left_inv {A B E X} (o : op A E X) (s : A * B) x s' :
  on_left o s = (Ok x, s') → o s.1 = (Ok x, s'.1) ∧ s'.2 = s.2.
Proof. unfold on_left. destruct (o s.1) as [r a]. by intros [= -> <-]. Qed.
Lemma on_right_inv {A B E X} (o : op B E X) (s : A * B) x s' :
  on_right o s = (Ok x, s') → o s.2 = (Ok x, s'.2) ∧ s'.1 = s.1.
Proof. unfold on_right. destruct (o s.2) as [r a]. by intros [= -> <-]. Qed.
Lemma op_map_err_inv {S E F A} (f : E → F) (o : op S E A) s a s' : op_map_err f o s = (Ok a, s') → o s = (Ok a, s').
Proof. unfold op_map_err. destruct (o s) as [[?|?] s0]; cbn; [by intros [= -> ->]|done]. Qed.
Lemma ok_or_inv {E A} (e : E) (o : option A) a : ok_or e o = Ok a → o = Some a.
Proof. destruct o; cbn; [by intros [= ->]|done]. Qed.
Lemma utf8_text_inv e bytes text : utf8_text e bytes = Ok text → str_bytes text = bytes.
Proof.
  unfold utf8_text. destruct (utf8_valid _); [|done]. intros [= <-]. apply String.list_byte_of_string_of_list_byte.
Qed.

Section Service.
Context `{AuthJsonLaws} {S T D : Type} `{TokenProvider S} `{TokenProvider T} `{TokenProvider D}.
Context {asks : Faithful S T (transport_claims DEFAULT_AUTH_REMOTE_TTL_MS)} {answers : Faithful T S (transport_claims DEFAULT_AUTH_REMOTE_TTL_MS)}.
Context (exchange : string → N → string → op (T * D) () (list chunk)) (c : RemoteAuthStorageClient).

(** A network that carries requests to the service: what the client reads as a
    success is the answer of the service at some time. *)
Definition carries : Prop := ∀ token w chunks w' body,
  exchange (address c) (timeout_ms c) (http_request (address c) token) w = (Ok chunks, w') →
  read_http_response (max_response_bytes c) chunks = Ok body →
  ∃ now_ms w'', service token now_ms w = (Ok body, w'').
Context (Hcarries : carries).

Lemma seal_transport_inv {A} `{TokenProvider A} e payload token (s s' : A) :
  seal_transport e payload s = (Ok token, s') →
  ∃ b, payload = Some b ∧ seal b (transport_claims DEFAULT_AUTH_REMOTE_TTL_MS) s = (Ok (str_bytes token), s').
Proof.
  unfold seal_transport. intros (b & Hb & Hrest)%op_lift_inv. apply ok_or_inv in Hb as ->.
  apply op_bind_inv in Hrest as (t & s1 & Ht & Hrest). apply op_map_err_inv in Ht. injection Hrest as Hrest <-.
  apply utf8_text_inv in Hrest as <-. eauto.
Qed.
Lemma call_is_served now resource operation payload (st : S * (T * D)) out st' :
  call exchange c now resource operation payload st = (Ok out, st') →
  ∃ (d d' : D), (operation = "seal"%string ∧ seal payload data_claims d = (Ok out, d')) ∨
                (operation = "open"%string ∧ open payload data_claims d = (Ok out, d')).
Proof.
  unfold call. intros (request & Hreq & Hrest)%op_lift_inv.
  apply op_bind_inv in Hrest as (token & s1 & Htok & Hrest). apply on_left_inv in Htok as [Htok _].
  apply op_bind_inv in Hrest as (body & s2 & Hpost & Hopen). apply on_right_inv in Hpost as [Hpost _]. apply on_left_inv in Hopen as [Hopen _].
  unfold post_token in Hpost. apply op_bind_inv in Hpost as (chunks & w1 & Hex & Hread). apply op_map_err_inv in Hex. injection Hread as Hread _.
  destruct (Hcarries _ _ _ _ _ Hex Hread) as (now_ms & w2 & Hserved). unfold service in Hserved.
  apply op_bind_inv in Hserved as (request' & w3 & Hrequest & Hserved). apply on_left_inv in Hrequest as [Hrequest _].
  apply op_bind_inv in Hserved as (response & w4 & Hwork & Hanswer). apply on_right_inv in Hwork as [Hwork _]. apply on_left_inv in Hanswer as [Hanswer _].
  apply seal_transport_inv in Htok as (b & Hb & Hsealed). apply seal_transport_inv in Hanswer as (b' & Hb' & Hsealed').
  (* The service reads the request of the client. *)
  unfold open_remote_request in Hrequest. apply op_bind_inv in Hrequest as (b1 & t1 & Ho & Hrequest). apply op_map_err_inv in Ho.
  apply (asks _ _ _ _ _ _ _ Hsealed) in Ho as ->. apply op_lift_inv in Hrequest as (r & Hr & Hrequest).
  apply ok_or_inv in Hr. rewrite (request_roundtrip _ _ Hb) in Hr. injection Hr as <-.
  apply op_lift_inv in Hrequest as (? & _ & Hrequest). injection Hrequest as <- _.
  (* The client reads the response of the service. *)
  unfold open_remote_response in Hopen. apply op_bind_inv in Hopen as (b2 & t2 & Ho & Hopen). apply op_map_err_inv in Ho.
  apply (answers _ _ _ _ _ _ _ Hsealed') in Ho as ->. apply op_lift_inv in Hopen as (r & Hr & Hopen).
  apply ok_or_inv in Hr. rewrite (response_roundtrip _ _ Hb') in Hr. injection Hr as <-.
  apply op_lift_inv in Hopen as (? & _ & Hopen). injection Hopen as Hout _. apply ok_or_inv in Hout.
  (* What the service did for it. *)
  assert (Hpayload : request_operation request = operation ∧ hex_bytes (request_payload_hex request) = Some payload).
  { unfold make_auth_request in Hreq. destruct (validate_resource _); [|done]. destruct (validate_operation _); [|done].
    injection Hreq as <-. cbn. by rewrite hex_bytes_encode. }
  destruct Hpayload as [Hoperation Hpayload].
  unfold process_remote_request in Hwork. rewrite Hpayload, Hoperation in Hwork. cbn [ok_or] in Hwork. rewrite op_lift_ok in Hwork.
  apply op_bind_inv in Hwork as (output & d1 & Hdone & Hwork). injection Hwork as <- _. cbn in Hout.
  rewrite hex_bytes_encode in Hout. injection Hout as <-. eexists _, _.
  destruct (bool_decide_reflect (operation = "seal"%string)) as [->|_]; [left|].
  - split; [done|]. by apply op_map_err_inv in Hdone.
  - destruct (bool_decide_reflect (operation = "open"%string)) as [->|_]; [right|done].
    split; [done|]. by apply op_map_err_inv in Hdone.
Qed.
End Service.

(** ** Properties *)

(** bytes stored through the remote service come back as they were. When a
    sealed write succeeded - whatever its accesses did - and a later read
    succeeds, at any later state of the client and of the service, the read
    returns the bytes that were written, provided that the network carries
    requests to the service and that tokens open to nothing but what was sealed. *)
Theorem remote_storage_returns_what_was_stored `{DirectoryOrder} `{AuthJsonLaws} {S T D : Type}
    `{TokenProvider S} `{TokenProvider T} `{TokenProvider D}
    {asks : Faithful S T (transport_claims DEFAULT_AUTH_REMOTE_TTL_MS)}
    {answers : Faithful T S (transport_claims DEFAULT_AUTH_REMOTE_TTL_MS)} {keeps : Faithful D D data_claims}
    (exchange : string → N → string → op (T * D) () (list chunk)) self c proc counter now later name names bytes got
    accesses fs (world world1 world2 : S * (T * D)) d st :
  carries exchange c → rooted fs → confined name names → names ≠ [] →
  write_remote_auth_required_bytes exchange self proc counter now name bytes (Some c) (world, restart accesses (calm fs)) = (Ok (), (world1, d)) →
  read_remote_auth_required_bytes exchange self later name (Some c) (world2, restart [] d) = (Ok got, st) →
  got = bytes.
Proof.
  intros Hcarries Hr Hc Hne Hw Hg. unfold write_remote_auth_required_bytes in Hw. cbn [require_remote_auth_client ok_or] in Hw.
  rewrite op_lift_ok in Hw. apply op_bind_inv in Hw as (sealed & s1 & Hs & Hw).
  apply on_left_inv in Hs as [Hs Hd]. apply on_right_inv in Hw as [Hw _]. rewrite Hd in Hw. cbn in Hs, Hw.
  unfold read_remote_auth_required_bytes in Hg. cbn [require_remote_auth_client ok_or] in Hg. rewrite op_lift_ok in Hg.
  apply op_bind_inv in Hg as (found & s2 & Hf & Hg). apply on_right_inv in Hf as [Hf _]. cbn in Hf. apply on_left_inv in Hg as [Hg _].
  pose proof (written_bytes_are_read_back self proc counter name sealed names accesses fs d Hr Hc Hne Hw) as Hback.
  rewrite Hback in Hf. injection Hf as <- _.
  apply (call_is_served exchange c Hcarries) in Hs as (d1 & d2 & [[_ Hs]|[? _]]); [|done].
  apply (call_is_served exchange c Hcarries) in Hg as (d3 & d4 & [[? _]|[_ Hg]]); [done|].
  by apply (keeps _ _ _ _ _ _ _ Hs) in Hg.
Qed.

(** ** An example *)

Module RemoteDemo.
#[local] Existing Instance Storage.StorageDemo.order.
(** Tokens are hexadecimal texts behind the salt of their claims. *)
Definition demo_seal (p : list byte) (c : TokenClaims) : list byte := str_bytes (salt c +:+ "." +:+ hex_encode p).
Definition demo_open (t : list byte) (c : TokenClaims) : option (list byte) :=
  hex ← strip_prefix (salt c +:+ ".") (String.string_of_list_byte t); hex_bytes hex.
#[local] Instance demo_provider : TokenProvider N := {|
  seal p c s := (Ok (demo_seal p c), s + 1);
  open t c s := (ok_or InvalidToken (demo_open t c), s);
  sign p c s := (Err (Unsupported "sign"), s);
  verify p t c s := (Err (Unsupported "verify"), s);
|}.
#[local] Instance demo_faithful c : Faithful N N c.
Proof.
  intros p s s' t u q u'. cbn. intros [= <- _] [= Hq _]. apply ok_or_inv in Hq. unfold demo_open, demo_seal, str_bytes in Hq.
  rewrite String.string_of_list_byte_of_string, <- string_app_assoc, strip_prefix_app in Hq. cbn in Hq.
  rewrite hex_bytes_encode in Hq. by injection Hq.
Qed.

(** Records as lists of their fields. *)
Definition text_of {A} `{Countable A} (a : A) : list byte := str_bytes (pos_text (encode a)).
Definition of_bytes {A} `{Countable A} (b : list byte) : option A := decode (text_pos (String.string_of_list_byte b)).
Lemma of_text_of {A} `{Countable A} (a : A) : of_bytes (text_of a) = Some a.
Proof.
  unfold of_bytes, text_of, str_bytes. by rewrite String.string_of_list_byte_of_string, text_pos_text, decode_encode.
Qed.
#[local] Instance demo_json : AuthJson := {|
  request_to_vec r := Some (text_of (request_schema r, request_resource r, request_operation r, request_nonce r,
    request_issued_at_ms r, request_expires_at_ms r, request_payload_hex r));
  request_from_slice b := '(s, r, o, n, i, e, p) ← of_bytes b;
    Some {| request_schema := s; request_resource := r; request_operation := o; request_nonce := n;
            request_issued_at_ms := i; request_expires_at_ms := e; request_payload_hex := p |};
  response_to_vec r := Some (text_of (response_schema r, response_status r, response_nonce r, response_expires_at_ms r, response_payload_hex r));
  response_from_slice b := '(s, t, n, e, p) ← of_bytes b;
    Some {| response_schema := s; response_status := t; response_nonce := n; response_expires_at_ms := e; response_payload_hex := p |};
|}.
#[local] Instance demo_json_laws : AuthJsonLaws.
Proof.
  split; intros [] b [= <-]; cbn; rewrite of_text_of; reflexivity.
Qed.

(** The service behind its socket, ten milliseconds after the client asked. *)
Definition answer_text (r : result StorageError string) : string :=
  match r with
  | Ok body => "HTTP/1.1 200 OK" +:+ CRLF +:+ CRLF +:+ body
  | Err _ => "HTTP/1.1 401 Unauthorized" +:+ CRLF +:+ CRLF
  end.
Definition demo_exchange (host : string) (timeout : N) (text : string) : op (N * N) () (list chunk) := λ w,
  match split_blank_line text with
  | None => (Err (), w)
  | Some (_, token) =>
    let '(r, w') := service token 1010 w in (Ok [Chunk (str_bytes (answer_text r))], w')
  end.
Definition client : RemoteAuthStorageClient := client_new "auth:8443".
Lemma request_body token : ∃ head, split_blank_line (http_request "auth:8443" token) = Some (head, token).
Proof.
  assert (Hf : str_free CR ("Content-Length: " +:+ show_u64 (str_len token))).
  { rewrite str_free_app. split; [by vm_compute|]. apply str_digits_free; [apply show_u64_digits|left; by vm_compute]. }
  assert (Hlines : ∀ a l, str_free CR a → (∃ x t, l = String x t ∧ x ≠ CR) → (∃ h', split_blank_line l = Some (h', token)) →
    ∃ h', split_blank_line (a +:+ CRLF +:+ l) = Some (h', token)).
  { intros line l Ha (x & t & -> & Hx) [h' Hh]. rewrite split_skip_line, Hh by done. eauto. }
  unfold http_request. apply Hlines; [by vm_compute|by eexists _, _|]. apply Hlines; [by vm_compute|by eexists _, _|].
  apply Hlines; [by vm_compute|by eexists _, _|]. apply Hlines; [done|by eexists _, _|].
  eexists. apply split_at_blank. by vm_compute.
Qed.
Lemma client_carried : carries (T := N) (D := N) demo_exchange client.
Proof.
  intros token w chunks w' body. unfold demo_exchange. change (address client) with "auth:8443"%string.
  destruct (request_body token) as [head ->].
  destruct (service token 1010 w) as [[text|e] w2] eqn:Hs; intros [= <- _]; unfold read_http_response; cbn [read_limited mbind result_bind app].
  - destruct (_ <? _); [done|]. cbn [mbind result_bind]. unfold utf8_text, str_bytes. rewrite String.string_of_list_byte_of_string.
    destruct (utf8_valid _); [|done]. cbn [mbind result_bind]. unfold parse_http_response, answer_text. rewrite split_at_blank by by vm_compute.
    replace (http_status "HTTP/1.1 200 OK") with (Ok (E := StorageError) 200) by by vm_compute. cbn. intros [= ->]. eauto.
  - assert (Hf : ∀ m, parse_http_response (answer_text (Err e)) = Ok m → False) by by vm_compute.
    destruct (_ <? _); [done|]. cbn [mbind result_bind]. unfold utf8_text, str_bytes. rewrite String.string_of_list_byte_of_string.
    destruct (utf8_valid _); [|done]. cbn [mbind result_bind]. by intros ?%Hf.
Qed.
Definition asking : readings := {| asked_at := 1000; answered_at := 1020; process_id := 7; nonce_counter := 0 |}.
Definition asking_again : readings := {| asked_at := 1000; answered_at := 1020; process_id := 7; nonce_counter := 1 |}.
Definition secret : list byte := str_bytes "classified".
Definition stored : result StorageError () * ((N * (N * N)) * fs_disk) :=
  write_remote_auth_required_bytes demo_exchange StorageDemo.provider StorageDemo.proc 0 asking "secure/record.bin" secret (Some client)
    ((0, (0, 0)), restart [Works] (calm StorageDemo.disk0)).
Definition fetched : result StorageError (list byte) * ((N * (N * N)) * fs_disk) :=
  read_remote_auth_required_bytes demo_exchange StorageDemo.provider asking_again "secure/record.bin" (Some client)
    ((5, (6, 7)), restart [] stored.2.2).
Definition bytes_or_none (r : result StorageError (list byte)) : list byte := match r with Ok b => b | Err _ => [] end.
Definition fetched_bytes : list byte := bytes_or_none fetched.1.
#[local] Opaque write_remote_auth_required_bytes read_remote_auth_required_bytes.
Lemma ok_pair {A B C D E} (o : result E A * (B * C * D)) a : o.1 = Ok a → o = (Ok a, (o.2.1, o.2.2)).
Proof. destruct o as [r [[? ?] ?]]. cbn. by intros ->. Qed.
Lemma record_path : confined "secure/record.bin" ["secure"; "record.bin"]%string.
Proof. by apply StorageDemo.confined_text. Qed.
Lemma stored_here : stored.1 = Ok ().
Proof. by vm_compute. Qed.
Lemma fetched_here : fetched.1 = Ok fetched_bytes.
Proof. by vm_compute. Qed.
Lemma remote_storage_returns_what_was_stored_witness : stored.1 = Ok () ∧ fetched.1 = Ok fetched_bytes ∧ fetched_bytes = secret.
Proof.
  split; [exact stored_here|]. split; [exact fetched_here|].
  apply (remote_storage_returns_what_was_stored demo_exchange StorageDemo.provider client StorageDemo.proc 0 asking asking_again
    "secure/record.bin" ["secure"; "record.bin"]%string secret fetched_bytes [Works] StorageDemo.disk0 (0, (0, 0)) stored.2.1 (5, (6, 7))
    stored.2.2 fetched.2 client_carried StorageDemo.disk0_rooted record_path ltac:(discriminate)).
  - exact (ok_pair stored () stored_here).
  - exact (ok_run fetched fetched_bytes fetched_here).
Defined.
End RemoteDemo.
