(* ===== verification/StorageManifest.v ===== *)
(** Corruption-detection manifests
    ([crates/appcore-storage/src/manifest.rs]): the digests of a set of files
    below a directory, and their verification.

    SHA-256 is a parameter, and so is what the system resolves a path to when
    there are links on it, and the order in which a hash map is iterated. *)

From S2P Require Import Prelude.
From S2P Require Import Text.
From S2P Require Import Types.
From S2P Require Import Encoding.
From S2P Require Import Files.
From S2P Require Import StorageTree.
From S2P Require Import StorageWalk.
From S2P Require Import Storage.

Local Open Scope N_scope.

(** Where the system gets to on a path, following its links; a path without
    links leads to itself. *)
Class PathResolution := real_path : tree → path → option path.
Class PathResolutionLaws `{PathResolution} :=
  real_path_plain fs p :
    (∀ k, fs !! take k p ≠ Some NLink) → real_path fs p = match fs !! p with Some _ => Some p | None => None end.

Record ManifestFileEntry := { entry_hash : string; entry_size : N }.
#[export] Instance ManifestFileEntry_eq_dec : EqDecision ManifestFileEntry.
Proof. solve_decision. Defined.
Record StorageManifest := {
  schema_version : string;
  app_id : string;
  node_id : string;
  manifest_created_at_ms : N;
  runtime_version : string;
  manifest_entries : gmap string ManifestFileEntry;
}.

Section Manifest.
Context `{PathResolution} (sha256 : list byte → list byte).

Definition resolve_path (root : path) (relative : string) : result StorageError path :=
  if is_absolute relative then Err (InvalidPath relative)
  else if existsb (λ c, match c with ParentDir | RootDir => true | _ => false end) (components relative)
  then Err (InvalidPath relative)
  else Ok (root ++ omap normal_name (components relative)).
(** [Path::exists]: an error reads as no. *)
Definition path_exists (p : path) : storage_op bool := λ d,
  match observe (λ _, NotAvailable) (λ fs, Ok (bool_decide (real_path fs p ≠ None))) d with
  | (Ok b, d) => (Ok b, d)
  | (Err _, d) => (Ok false, d)
  end.
(** What opening a path and reading to the end gives. *)
Definition followed_content (p : path) (fs : tree) : result StorageError (list byte) :=
  match real_path fs p ≫= (fs !!.) with
  | Some (NFile b) => Ok b
  | Some NDirectory => Err (TransactionFailed "Is a directory")
  | _ => Err (TransactionFailed "No such file or directory")
  end.
Definition file_entry (bytes : list byte) : ManifestFileEntry :=
  {| entry_hash := hex_encode (sha256 bytes); entry_size := lenN bytes |}.
Definition compute_file_sha256 (p : path) : storage_op ManifestFileEntry :=
  _ ← probe TransactionFailed;
  bytes ← observe TransactionFailed (followed_content p);
  mret (file_entry bytes).

Fixpoint generate_files (root : path) (files : gmap string ManifestFileEntry) (file_paths : list string) :
    storage_op (gmap string ManifestFileEntry) :=
  match file_paths with
  | [] => mret files
  | rel_path :: rest =>
    full_path ← op_lift (resolve_path root rel_path);
    there ← path_exists full_path;
    if there : bool then
      e ← compute_file_sha256 full_path;
      generate_files root (<[rel_path := e]> files) rest
    else op_fail (RepositoryNotFound rel_path)
  end.
Definition generate (app node runtime : string) (created : N) (root : path) (file_paths : list string) : storage_op StorageManifest :=
  files ← generate_files root ∅ file_paths;
  mret {| schema_version := "1"; app_id := app; node_id := node; manifest_created_at_ms := created;
          runtime_version := runtime; manifest_entries := files |}.

Fixpoint verify_entries (root : path) (entries : list (string * ManifestFileEntry)) : storage_op () :=
  match entries with
  | [] => mret ()
  | (rel_path, e) :: rest =>
    full_path ← op_lift (resolve_path root rel_path);
    there ← path_exists full_path;
    if there : bool then
      actual ← compute_file_sha256 full_path;
      if negb (entry_size actual =? entry_size e) then
        op_fail (TransactionFailed ("File size mismatch: " +:+ rel_path +:+ ". Expected " +:+ show_u64 (entry_size e) +:+
          ", got " +:+ show_u64 (entry_size actual)))
      else if negb (bool_decide (entry_hash actual = entry_hash e)) then
        op_fail (TransactionFailed ("File hash mismatch: " +:+ rel_path +:+ ". Expected " +:+ entry_hash e +:+
          ", got " +:+ entry_hash actual))
      else verify_entries root rest
    else op_fail (RepositoryNotFound ("File missing: " +:+ rel_path))
  end.
(** The order is the one in which the map is iterated. *)
Definition verify (order : gmap string ManifestFileEntry → list (string * ManifestFileEntry)) (m : StorageManifest) (root : path) :
    storage_op () :=
  if bool_decide (schema_version m = "1"%string) then verify_entries root (order (manifest_entries m))
  else op_fail (MigrationFailed ("Incompatible schema version: expected 1, found " +:+ schema_version m)).

(** ** What both passes look at *)

Definition recorded (root : path) (fs : tree) (rel_path : string) (e : ManifestFileEntry) : Prop :=
  ∃ p b, resolve_path root rel_path = Ok p ∧ real_path fs p ≫= (fs !!.) = Some (NFile b) ∧ e = file_entry b.

Lemma path_exists_keeps p fs : triple (eq fs) (eq fs) (path_exists p) (λ _, eq fs).
Proof.
  intros d Hd. unfold path_exists.
  assert (Ho : triple (eq fs) (eq fs) (observe (λ _, NotAvailable) (λ fs', Ok (bool_decide (real_path fs' p ≠ None))))
    (λ b fs', eq fs fs' ∧ Ok (bool_decide (real_path fs' p ≠ None)) = Ok (E := StorageError) b)) by by apply triple_observe.
  specialize (Ho d Hd).
  destruct (observe _ _ d) as [[b|e] d']; [by destruct Ho|done].
Qed.
Lemma compute_reads p fs :
  triple (eq fs) (eq fs) (compute_file_sha256 p) (λ e fs', fs = fs' ∧ ∃ b, real_path fs p ≫= (fs !!.) = Some (NFile b) ∧ e = file_entry b).
Proof.
  unfold compute_file_sha256. apply (triple_bind _ _ _ _ (λ _, eq fs)); [by apply triple_probe|]. intros [].
  eapply triple_bind; [by apply triple_observe|]. cbn beta. intros b. apply hoare_ret. intros s [Hs Hb]. unfold on in *. rewrite <- Hs in Hb.
  split; [exact Hs|]. exists b. unfold followed_content in Hb. destruct (real_path fs p ≫= _) as [[]|]; try done. by injection Hb as ->.
Qed.
Lemma generate_files_spec root file_paths files fs :
  (∀ r e, files !! r = Some e → recorded root fs r e) →
  triple (eq fs) (eq fs) (generate_files root files file_paths)
    (λ files' fs', fs = fs' ∧ (∀ r e, files' !! r = Some e → recorded root fs r e) ∧
      (∀ r, is_Some (files' !! r) ↔ r ∈ file_paths ∨ is_Some (files !! r))).
Proof.
  revert files. induction file_paths as [|r rest IH]; intros files Hfiles; cbn [generate_files].
  { apply hoare_ret. intros s Hs. split_and!; [done..|]. intros r. set_solver. }
  eapply triple_bind; [by apply triple_lift|]. cbn beta. intros p.
  apply (triple_assume _ _ _ _ (resolve_path root r = Ok p)); [by intros ? []|]. intros Hp.
  apply (triple_pre _ _ (eq fs)); [|by intros ? []].
  eapply triple_bind; [apply path_exists_keeps|]. intros [|]; [|by apply triple_fail].
  eapply triple_bind; [apply compute_reads|]. cbn beta. intros e.
  apply (triple_assume _ _ _ _ (∃ b, real_path fs p ≫= (fs !!.) = Some (NFile b) ∧ e = file_entry b)); [by intros ? []|].
  intros (b & Hb & He). apply (triple_pre _ _ (eq fs)); [|by intros ? []].
  eapply triple_post; [apply IH|].
  - intros r' e' [[<- <-]|[_ Hr]]%lookup_insert_Some; [by exists p, b|by apply Hfiles].
  - cbn beta. intros files' fs' (<- & Hrec & Hdom). split_and!; [done..|]. intros r'. rewrite Hdom, lookup_insert_is_Some, elem_of_cons.
    destruct (decide (r = r')); naive_solver.
Qed.
Lemma verify_entries_spec root entries fs :
  triple (eq fs) (eq fs) (verify_entries root entries) (λ _ fs', fs = fs' ∧ ∀ r e, (r, e) ∈ entries → recorded root fs r e).
Proof.
  induction entries as [|[r e] rest IH]; cbn [verify_entries].
  { apply hoare_ret. intros s Hs. split; [done|]. intros r e He. by apply elem_of_nil in He. }
  eapply triple_bind; [by apply triple_lift|]. cbn beta. intros p.
  apply (triple_assume _ _ _ _ (resolve_path root r = Ok p)); [by intros ? []|]. intros Hp.
  apply (triple_pre _ _ (eq fs)); [|by intros ? []].
  eapply triple_bind; [apply path_exists_keeps|]. intros [|]; [|by apply triple_fail].
  eapply triple_bind; [apply compute_reads|]. cbn beta. intros a.
  apply (triple_assume _ _ _ _ (∃ b, real_path fs p ≫= (fs !!.) = Some (NFile b) ∧ a = file_entry b)); [by intros ? []|].
  intros (b & Hb & ->). apply (triple_pre _ _ (eq fs)); [|by intros ? []].
  destruct (N.eqb_spec (entry_size (file_entry b)) (entry_size e)) as [Hs|]; [|by apply triple_fail]. cbn [negb].
  destruct (bool_decide_reflect (entry_hash (file_entry b) = entry_hash e)) as [Hh|]; [|by apply triple_fail]. cbn [negb].
  eapply triple_post; [exact IH|]. cbn beta. intros [] fs' [<- Hrest]. split; [done|].
  intros r' e' [[= -> ->]|Hin]%elem_of_cons; [|by apply Hrest]. exists p, b. split_and!; [done..|].
  destruct e. cbn in *. by rewrite <- Hs, <- Hh.
Qed.
End Manifest.

(** ** Properties *)

Section Verified.
Context `{PathResolution} (sha256 : list byte → list byte).
Context (order : gmap string ManifestFileEntry → list (string * ManifestFileEntry)) (order_perm : ∀ m, order m ≡ₚ map_to_list m).

Lemma generated_files app node runtime created root file_paths accesses fs m d :
  generate sha256 app node runtime created root file_paths (restart accesses (calm fs)) = (Ok m, d) →
  schema_version m = "1"%string ∧ (∀ r e, manifest_entries m !! r = Some e → recorded sha256 root fs r e) ∧
  (∀ r, is_Some (manifest_entries m !! r) ↔ r ∈ file_paths).
Proof.
  unfold generate. intros (files & d1 & Hf & Hm)%op_bind_inv. injection Hm as <- _.
  assert (Hempty : ∀ r e, (∅ : gmap string ManifestFileEntry) !! r = Some e → recorded sha256 root fs r e)
    by (intros r e; by rewrite lookup_empty).
  pose proof (generate_files_spec sha256 root file_paths ∅ fs Hempty (restart accesses (calm fs)) eq_refl) as Hs.
  rewrite Hf in Hs. destruct Hs as (_ & Hrec & Hdom). split_and!; [done..|]. intros r. cbn. rewrite Hdom, lookup_empty.
  split; [by intros [?|[]]|by auto].
Qed.

(** A manifest tells a changed file. When it was generated and later verified, each
    file it was made of is there both times, and with the same size and digest. *)
Theorem verified_files_have_their_digests app node runtime created root file_paths accesses accesses' fs fs' m d d' r :
  generate sha256 app node runtime created root file_paths (restart accesses (calm fs)) = (Ok m, d) →
  verify sha256 order m root (restart accesses' (calm fs')) = (Ok (), d') → r ∈ file_paths →
  ∃ p b b', resolve_path root r = Ok p ∧ real_path fs p ≫= (fs !!.) = Some (NFile b) ∧
    real_path fs' p ≫= (fs' !!.) = Some (NFile b') ∧ sha256 b = sha256 b' ∧ lenN b = lenN b'.
Proof.
  intros (Hv & Hrec & Hdom)%generated_files Hver Hin. unfold verify in Hver. rewrite (bool_decide_eq_true_2 _ Hv) in Hver.
  pose proof (verify_entries_spec sha256 root (order (manifest_entries m)) fs' (restart accesses' (calm fs')) eq_refl) as Hs.
  rewrite Hver in Hs. destruct Hs as [_ Hall]. apply Hdom in Hin as [e He].
  destruct (Hrec _ _ He) as (p & b & Hp & Hb & ->).
  destruct (Hall r (file_entry sha256 b)) as (p' & b' & Hp' & Hb' & Heq); [by rewrite order_perm, elem_of_map_to_list|].
  rewrite Hp in Hp'. injection Hp' as <-. exists p, b, b'. injection Heq as Hh Hl. split_and!; [done..|by apply hex_encode_inj|done].
Qed.
(** And it accepts the files as they were. *)
Theorem unchanged_files_verify app node runtime created root file_paths accesses fs m d :
  generate sha256 app node runtime created root file_paths (restart accesses (calm fs)) = (Ok m, d) →
  verify sha256 order m root (calm fs) = (Ok (), calm fs).
Proof.
  intros (Hv & Hrec & _)%generated_files. unfold verify. rewrite (bool_decide_eq_true_2 _ Hv).
  assert (Hall : ∀ r e, (r, e) ∈ order (manifest_entries m) → recorded sha256 root fs r e)
    by (intros r e; rewrite order_perm, elem_of_map_to_list; apply Hrec).
  clear Hrec. induction (order (manifest_entries m)) as [|[r e] rest IH]; [done|]. cbn [verify_entries].
  destruct (Hall r e) as (p & b & Hp & Hb & ->); [set_solver|]. rewrite Hp, op_lift_ok.
  assert (He : path_exists p (calm fs) = (Ok true, calm fs)).
  { unfold path_exists. rewrite calm_observe. rewrite bool_decide_eq_true_2; [done|]. intros Hn. by rewrite Hn in Hb. }
  rewrite (op_ok_bind _ _ _ _ _ He).
  assert (Hc : compute_file_sha256 sha256 p (calm fs) = (Ok (file_entry sha256 b), calm fs)).
  { unfold compute_file_sha256. rewrite (op_ok_bind _ _ _ _ _ (calm_probe _ _)).
    assert (Ho : observe TransactionFailed (followed_content p) (calm fs) = (Ok b, calm fs))
      by (rewrite calm_observe; unfold followed_content; by rewrite Hb).
    by rewrite (op_ok_bind _ _ _ _ _ Ho). }
  rewrite (op_ok_bind _ _ _ _ _ Hc), N.eqb_refl, bool_decide_eq_true_2 by done. apply IH. set_solver.
Qed.
End Verified.
