(* ===== verification/HttpCommand.v ===== *)
(** Commands over HTTP ([crates/appcore-api/src]): the contract of requests and
    responses ([command_contract.rs]), bearer tokens ([http/auth.rs]), traces
    ([http/trace.rs]), the mapping of results ([http/response.rs]) and the
    handler ([http/command.rs]), with the runs of many requests in flight.

    The runtime behind the handler is the controller of Controller.v. The token
    verifier is an operation on a state of its own, the capability policy a
    function; the clock is read into arguments. Routing, body limits and JSON
    decoding are axum's. *)

From S2P Require Import Prelude.
From S2P Require Import Text.
From S2P Require Import Types.
From S2P Require Import Encoding.
From S2P Require Import Tokens.
From S2P Require Import Records.
From S2P Require Import Journal.
From S2P Require Import Lifecycle.
From S2P Require Import Idempotency.
From S2P Require Import Operations.
From S2P Require Import Controller.

Local Open Scope N_scope.

(** ** [command_contract.rs] *)

Record CommandRequest := {
  req_command_name : string;
  req_command_id : string;
  req_key : option string;
  req_command_payload : string;
}.
Record CommandResponseEvent := { response_event_name : string; response_event_id : string }.
Record CommandResponse := {
  response_accepted : bool;
  response_message : option string;
  response_events : list CommandResponseEvent;
}.
Inductive CommandRequestValidationError :=
| EmptyCommandName | EmptyCommandId | PayloadTooLarge | MissingIdempotencyKey | InvalidIdempotencyKey
| InvalidCommandName | InvalidCommandId.

Definition response_accept (events : list CommandResponseEvent) : CommandResponse :=
  {| response_accepted := true; response_message := None; response_events := events |}.
Definition response_reject (message : string) : CommandResponse :=
  {| response_accepted := false; response_message := Some message; response_events := [] |}.

Definition token_byte (c : ascii) : bool :=
  is_ascii_alphanumeric c || bool_decide (c ∈ ["."; "_"; ":"; "-"]%char).
Definition is_valid_token (value : string) : bool := str_all token_byte value.
Definition blank (value : string) : bool := bool_decide (trim value = EmptyString).
Definition requires_idempotency_key (name : string) : bool := negb (bool_decide (name = "runtime.ping"%string)).
Definition command_validate (r : CommandRequest) (max_payload_bytes : N) : result CommandRequestValidationError () :=
  if blank (req_command_name r) then Err EmptyCommandName
  else if blank (req_command_id r) then Err EmptyCommandId
  else if (128 <? str_len (req_command_name r)) || negb (is_valid_token (req_command_name r)) then Err InvalidCommandName
  else if (128 <? str_len (req_command_id r)) || negb (is_valid_token (req_command_id r)) then Err InvalidCommandId
  else if requires_idempotency_key (req_command_name r) && bool_decide (req_key r = None) then Err MissingIdempotencyKey
  else
    _ ← match req_key r with
        | Some key => if blank key || (128 <? str_len key) || negb (is_valid_token key) then Err InvalidIdempotencyKey else Ok ()
        | None => Ok ()
        end;
    if max_payload_bytes <? str_len (req_command_payload r) then Err PayloadTooLarge else Ok ().

Definition validation_error_to_runtime_error (e : CommandRequestValidationError) : RuntimeError :=
  InvalidRequest "command"
    match e with
    | EmptyCommandName => "empty_command_name"
    | EmptyCommandId => "empty_command_id"
    | PayloadTooLarge => "payload_too_large"
    | MissingIdempotencyKey => "missing_idempotency_key"
    | InvalidIdempotencyKey => "invalid_idempotency_key"
    | InvalidCommandName => "invalid_command_name"
    | InvalidCommandId => "invalid_command_id"
    end.
Definition to_envelope_unchecked (r : CommandRequest) (app node : string) (issued : N) : RuntimeResult CommandEnvelope :=
  name ← identifier_new "CommandName" (req_command_name r);
  command_envelope_new name (req_command_id r) app node issued (req_key r) (str_bytes (req_command_payload r)).
Definition to_envelope (r : CommandRequest) (app node : string) (issued max_payload_bytes : N) : RuntimeResult CommandEnvelope :=
  _ ← map_err validation_error_to_runtime_error (command_validate r max_payload_bytes);
  to_envelope_unchecked r app node issued.
Definition with_trace (c : CommandEnvelope) (t : TraceContext) : CommandEnvelope :=
  {| command_name := command_name c; cmd_id := cmd_id c; cmd_app_id := cmd_app_id c; cmd_node_id := cmd_node_id c;
     issued_at_ms := issued_at_ms c; idempotency_key := idempotency_key c; cmd_payload := cmd_payload c; cmd_trace := Some t |}.

(** ** [http/response.rs] *)

Definition reply (B : Type) : Type := N * B.
Definition command_not_configured : reply CommandResponse := (501, response_reject "command dispatcher not configured").
Definition command_unauthorized (message : string) : reply CommandResponse := (401, response_reject message).
Definition command_forbidden (message : string) : reply CommandResponse := (403, response_reject message).
Definition command_result_to_response (r : CommandResult) : CommandResponse :=
  let events := map (λ e, {| response_event_name := event_name e; response_event_id := event_id e |}) (result_events r) in
  if accepted r then response_accept events
  else {| response_accepted := false; response_message := result_message r; response_events := events |}.
(** [debug] is [{error:?}]. *)
Definition map_dispatch_error (debug : RuntimeError → string) (e : RuntimeError) : reply CommandResponse :=
  (match e with
   | HandlerNotFound _ | Types.EmptyCommandId => 400
   | InvalidRequest "command" "payload_too_large" => 413
   | InvalidRequest "command" _ => 400
   | IdempotencyConflict _ => 409
   | IdempotencyPending _ => 429
   | _ => 500
   end, response_reject (debug e)).

(** ** [http/auth.rs] *)

(** Header names in lower case, in order, with their bytes. *)
Abbreviation HeaderMap := (list (string * list byte)).
Definition header_all (headers : HeaderMap) (name : string) : list (list byte) :=
  (filter (λ h, h.1 = name) headers).*2.
(** [HeaderValue::to_str]: visible ASCII and tabs. *)
Definition visible (b : byte) : bool :=
  let n := Byte.to_N b in ((32 <=? n) && (n <? 127)) || (n =? 9).
Definition header_str (value : list byte) : option string :=
  if forallb visible value then Some (String.string_of_list_byte value) else None.
Definition extract_bearer_token (headers : HeaderMap) : option string :=
  match header_all headers "authorization" with
  | [value] =>
    auth ← header_str value;
    token ← strip_prefix "Bearer " auth;
    if bool_decide (token = EmptyString) then None else Some token
  | _ => None
  end.

(** [CommandTokenVerifier]: the two checks with the details of a request. *)
Record CommandTokenVerifier (V : Type) := {
  verify_command_token_with_request : string → string → option RequestValidationDetails → op V CommandTokenError ();
  verify_query_token_with_request : string → string → option RequestValidationDetails → op V CommandTokenError ();
}.
Arguments verify_command_token_with_request {V}.
Arguments verify_query_token_with_request {V}.
Record HttpCommandAuth (V : Type) := { require_token : bool; public_status : bool; verifier : option (CommandTokenVerifier V) }.
Arguments require_token {V}.
Arguments public_status {V}.
Arguments verifier {V}.
Definition auth_default {V} : HttpCommandAuth V := {| require_token := true; public_status := false; verifier := None |}.
Definition insecure_local_for_testing {V} : HttpCommandAuth V :=
  {| require_token := false; public_status := false; verifier := None |}.

Definition command_details (r : CommandRequest) : RequestValidationDetails :=
  {| req_purpose := "command"; req_name := req_command_name r; req_id := req_command_id r;
     req_idempotency_key := req_key r; req_payload := req_command_payload r; req_subject := None; req_audience := None |}.
(** A refusal is the reply. *)
Definition authorize_command {V} (auth : HttpCommandAuth V) (headers : HeaderMap) (r : CommandRequest) :
    op V (reply CommandResponse) () :=
  if negb (require_token auth) then mret ()
  else
    token ← op_lift (ok_or (command_unauthorized "missing bearer token") (extract_bearer_token headers));
    v ← op_lift (ok_or (command_unauthorized "token verifier not configured") (verifier auth));
    op_map_err (λ e, match e with
                     | Tokens.Forbidden => command_forbidden "command not allowed for token"
                     | Tokens.InvalidFormat | Tokens.Unauthorized => command_unauthorized "invalid bearer token"
                     end)
      (verify_command_token_with_request v token (req_command_name r) (Some (command_details r))).

(** ** [http/state.rs], [http/trace.rs] *)

Inductive CommandCapabilityPolicyError :=
| CapabilityNotDeclared | MissingKey | RequiresLeader | LeaseExpired | StaleEpoch | ReadOnly | PolicyRejected (message : string).
Record CommandCapabilityPolicy := {
  policy_command : string → option string → N → result CommandCapabilityPolicyError ();
  policy_query : string → N → result CommandCapabilityPolicyError ();
}.
Definition map_policy_error (e : CommandCapabilityPolicyError) : reply CommandResponse :=
  match e with
  | CapabilityNotDeclared => (403, response_reject "capability_not_declared")
  | MissingKey => (400, response_reject "missing_idempotency_key")
  | RequiresLeader => (409, response_reject "requires_leader")
  | LeaseExpired => (409, response_reject "leader_lease_expired")
  | StaleEpoch => (409, response_reject "leader_lease_stale_epoch")
  | ReadOnly => (403, response_reject "operation_mode_read_only")
  | PolicyRejected message => (403, response_reject message)
  end.

Record RuntimeStaticInfo := {
  info_app_id : string;
  info_node_id : string;
  info_tenant_id : string;
  info_cluster_id : string;
  info_core_id : string;
  info_operation_mode : string;
  storage_status : string;
  security_ok : bool;
  api_enabled : bool;
  sync_enabled : bool;
  sync_role : string;
  sync_log_len : N;
  sync_log_path : option string;
  sync_checkpoint_path : option string;
  sync_peers : list string;
  sync_dns_enabled : bool;
  sync_dns_seeds : list string;
  sync_dns_default_port : N;
  idempotency_ttl_ms : N;
  idempotency_path : option string;
}.
(** What the handlers share and does not change: the identity of the instance
    (of the controller), the static information, the policies. *)
Record HttpState (V : Type) := {
  app_id : string;
  node_id : string;
  static_info : RuntimeStaticInfo;
  command_policy : option CommandCapabilityPolicy;
  auth : HttpCommandAuth V;
  max_payload_bytes : N;
}.
Arguments app_id {V}.
Arguments node_id {V}.
Arguments static_info {V}.
Arguments command_policy {V}.
Arguments auth {V}.
Arguments max_payload_bytes {V}.

Definition optional_header (headers : HeaderMap) (name : string) : option (option string) :=
  match header_all headers name with
  | [] => Some None
  | value :: _ => s ← header_str value; Some (Some s)
  end.
Definition request_trace (headers : HeaderMap) (operation : string) (info : RuntimeStaticInfo) : option TraceContext :=
  t ← optional_header headers "x-appcore-trace-id";
  s ← optional_header headers "x-appcore-span-id";
  match
    core ← distributed_identifier_new "CoreId" (info_core_id info);
    tenant ← distributed_identifier_new "TenantId" (info_tenant_id info);
    trace_new (default operation t) (default operation s) core core tenant
  with Ok trace => Some trace | Err _ => None end.

(** ** [http/command.rs] *)


Section Handler.
Context {S : Type} `{!IdempotencyStore S} {V Ctx W : Type}.
Context (sha256 : list byte → list byte).
Context (record_json : OperationalJournalRecord → result string string).
Context (envelope_json : JournalEnvelope → result string string).
Context (debug : RuntimeError → string).
Context (result_json : CommandResult → result string string).
Context (result_of_json : string → result string CommandResult).
Context (st : HttpState V) (instance : RuntimeInstance Ctx W).

Abbreviation push_entry := (push_entry sha256 record_json envelope_json debug).
Abbreviation pre_dispatch := (pre_dispatch sha256 record_json envelope_json debug result_of_json).
Abbreviation post_dispatch := (post_dispatch sha256 record_json envelope_json debug result_json).
Abbreviation system_step := (Controller.step sha256 record_json envelope_json debug result_json result_of_json instance).
Abbreviation dispatch_error := (map_dispatch_error debug).
Abbreviation Reply := (reply CommandResponse).

(** The readings of the clock and the accesses of a request that arrives. *)
Record CommandIo := {
  started_at : N;
  issued_at : N;
  policy_at : N;
  rejection_io : AuditIo;
  pre_io : DispatchIo (S := S);
}.

Definition audit_command_authorization_rejection (io : CommandIo) (headers : HeaderMap) (r : CommandRequest)
    (t : RuntimeController S) : RuntimeController S :=
  let '(id, name) :=
    match command_validate r (max_payload_bytes st) with
    | Ok _ => (req_command_id r, req_command_name r)
    | Err _ => ("invalid-command-id", "invalid-command")
    end%string in
  let trace := request_trace headers id (static_info st) in
  with_operations t
    (push_entry (rejection_io io)
       (entry_with_trace
          (entry_with_message
             (entry_with_scope
                (audit_entry_new CategoryCommand id name (started_at io) (Operations.completed_at (rejection_io io)) Rejected)
                (app_id st) (node_id st))
             (Some "command authorization rejected"%string))
          trace)
       (operations t)).

(** The part of [dispatch_command_request] under the first lock; a reply ends it. *)
Definition enter_dispatch (io : CommandIo) (r : CommandRequest) (trace : TraceContext) :
    op (RuntimeController S) Reply CommandEnvelope :=
  envelope ← op_lift (map_err dispatch_error (to_envelope r (app_id st) (node_id st) (issued_at io) (max_payload_bytes st)));
  trace ← op_lift (map_err dispatch_error (with_command_id trace (req_command_id r)));
  let envelope := with_trace envelope trace in
  _ ← match command_policy st with
      | Some policy =>
        op_lift (map_err map_policy_error (policy_command policy (command_name envelope) (idempotency_key envelope) (policy_at io)))
      | None => mret ()
      end;
  outcome ← op_map_err dispatch_error (pre_dispatch (pre_io io) envelope);
  match outcome with
  | None => mret envelope
  | Some (Ok result) => op_fail (200, command_result_to_response result)
  | Some (Err e) => op_fail (dispatch_error e)
  end.
(** The handler up to the call of the instance. *)
Definition admit_command (io : CommandIo) (headers : HeaderMap) (r : CommandRequest) :
    op (V * option (RuntimeController S)) Reply CommandEnvelope := λ '(v, t),
  match authorize_command (auth st) headers r v with
  | (Err rejection, v) => (Err rejection, (v, audit_command_authorization_rejection io headers r <$> t))
  | (Ok _, v) =>
    match t with
    | None => (Err command_not_configured, (v, None))
    | Some t =>
      match request_trace headers (req_command_id r) (static_info st) with
      | None => (Err (400, response_reject "trace context invalid"), (v, Some t))
      | Some trace => let '(x, t) := enter_dispatch io r trace t in (x, (v, Some t))
      end
    end
  end.
(** After the call: the second lock, then the reply. *)
Definition finish_reply (r : RuntimeResult CommandResult) (posted : RuntimeResult ()) : Reply :=
  match posted, r with
  | Err e, _ | Ok _, Err e => dispatch_error e
  | Ok _, Ok result => (200, command_result_to_response result)
  end.
(** A handler that panics ends the blocking task. *)
Definition command_panicked : Reply := (500, response_reject "command dispatch failed").
Definition command_handler (io : CommandIo) (post_io : DispatchIo (S := S)) (ctx : Ctx) (panics : option W) (headers : HeaderMap)
    (r : CommandRequest) (s : (V * option (RuntimeController S)) * W) : Reply * ((V * option (RuntimeController S)) * W) :=
  let '(vt, w) := s in
  match admit_command io headers r vt with
  | (Err early, vt) => (early, (vt, w))
  | (Ok c, (v, t)) =>
    match panics with
    | Some w => (command_panicked, ((v, t), w))
    | None =>
      let '(x, w) := instance_dispatch_command instance c ctx w in
      match t with
      | Some t => let '(posted, t) := post_dispatch post_io c x t in (finish_reply x posted, ((v, Some t), w))
      | None => (command_not_configured, ((v, None), w))
      end
    end
  end.

(** ** Requests in flight

    Each request holds the lock of the controller while it is admitted and while
    it is finished, and runs its handler without it. *)

Record HttpSystem := { tokens : V; runtime : System (S := S) (W := W); replies : gmap nat Reply }.
Inductive HttpStep :=
| HttpLifecycle (e : RuntimeLifecycleEvent)
| HttpArrives (id : nat) (io : CommandIo) (headers : HeaderMap) (r : CommandRequest)
| HttpRuns (id : nat) (ctx : Ctx)
| HttpPanics (id : nat) (w : W)
| HttpFinishes (id : nat) (io : DispatchIo (S := S)).

Definition with_core (t : RuntimeController S) (s : System (S := S) (W := W)) : System (S := S) (W := W) :=
  {| core := t; world := world s; in_flight := in_flight s; executed := executed s |}.
Definition with_request (id : nat) (c : CommandEnvelope) (s : System (S := S) (W := W)) : System (S := S) (W := W) :=
  {| core := core s; world := world s; in_flight := <[id := {| command := c; answer := None |}]> (in_flight s); executed := executed s |}.
Definition http_step (x : HttpStep) (s : HttpSystem) : HttpSystem :=
  match x with
  | HttpLifecycle e =>
    {| tokens := tokens s; runtime := system_step (LifecycleEvent e) (runtime s); replies := replies s |}
  | HttpArrives id io headers r =>
    match in_flight (runtime s) !! id with
    | Some _ => s
    | None =>
      let '(x, (v, t)) := admit_command io headers r (tokens s, Some (core (runtime s))) in
      let runtime := with_core (default (core (runtime s)) t) (runtime s) in
      match x with
      | Ok c => {| tokens := v; runtime := with_request id c runtime; replies := replies s |}
      | Err early => {| tokens := v; runtime := runtime; replies := <[id := early]> (replies s) |}
      end
    end
  | HttpRuns id ctx =>
    {| tokens := tokens s; runtime := system_step (RunHandler id ctx) (runtime s); replies := replies s |}
  | HttpPanics id w =>
    match in_flight (runtime s) !! id with
    | Some {| answer := None |} =>
      {| tokens := tokens s; runtime := system_step (HandlerPanics id w) (runtime s); replies := <[id := command_panicked]> (replies s) |}
    | _ => s
    end
  | HttpFinishes id io =>
    match in_flight (runtime s) !! id with
    | Some {| command := c; answer := Some x |} =>
      {| tokens := tokens s; runtime := system_step (PostDispatch id io) (runtime s);
         replies := <[id := finish_reply x (post_dispatch io c x (core (runtime s))).1]> (replies s) |}
    | _ => s
    end
  end.
Definition http_start (v : V) (store : S) (w : W) : HttpSystem := {| tokens := v; runtime := start store w; replies := ∅ |}.
Definition http_run (l : list HttpStep) (s : HttpSystem) : HttpSystem := foldl (λ s x, http_step x s) s l.
End Handler.

Section Facts.
Context {S : Type} `{!IdempotencyStore S} {V Ctx W : Type}.
Context (sha256 : list byte → list byte).
Context (record_json : OperationalJournalRecord → result string string).
Context (envelope_json : JournalEnvelope → result string string).
Context (debug : RuntimeError → string).
Context (result_json : CommandResult → result string string).
Context (result_of_json : string → result string CommandResult).
Context (st : HttpState V) (instance : RuntimeInstance Ctx W).
Abbreviation pre_dispatch := (pre_dispatch sha256 record_json envelope_json debug result_of_json).
Abbreviation admit_command := (admit_command sha256 record_json envelope_json debug result_of_json st).
Abbreviation enter_dispatch := (enter_dispatch sha256 record_json envelope_json debug result_of_json st).
Abbreviation http_step := (http_step sha256 record_json envelope_json debug result_json result_of_json st instance).
Abbreviation http_run := (http_run sha256 record_json envelope_json debug result_json result_of_json st instance).

(** The token of a request, where one is required, was accepted for it. *)
Definition token_accepted (headers : HeaderMap) (r : CommandRequest) : Prop :=
  require_token (auth st) = true →
  ∃ token ver v, extract_bearer_token headers = Some token ∧ verifier (auth st) = Some ver ∧
    (verify_command_token_with_request ver token (req_command_name r) (Some (command_details r)) v).1 = Ok ().
(** All that stands between a request and its handler. *)
Record admitted (io : CommandIo (S := S)) (headers : HeaderMap) (r : CommandRequest) (c : CommandEnvelope) : Prop := {
  admitted_token : token_accepted headers r;
  admitted_valid : command_validate r (max_payload_bytes st) = Ok ();
  admitted_command : command_name c = req_command_name r ∧ cmd_id c = req_command_id r ∧ idempotency_key c = req_key r ∧
    cmd_payload c = str_bytes (req_command_payload r);
  admitted_policy p : command_policy st = Some p → policy_command p (req_command_name r) (req_key r) (policy_at io) = Ok ();
  admitted_ready : ∃ l, check_lifecycle_readiness l = None;
}.

Lemma result_bind_inv {E A B} (m : result E A) (k : A → result E B) b : m ≫= k = Ok b → ∃ a, m = Ok a ∧ k a = Ok b.
Proof. destruct m; [eauto|done]. Qed.
Lemma authorize_ok headers r v v' :
  authorize_command (auth st) headers r v = (Ok (), v') → token_accepted headers r.
Proof.
  unfold authorize_command, token_accepted. destruct (require_token (auth st)); [|done]. cbn [negb]. intros Ha _.
  destruct (extract_bearer_token headers) as [token|]; [|done]. cbn [ok_or] in Ha. rewrite op_lift_ok in Ha.
  destruct (verifier (auth st)) as [ver|]; [|done]. cbn [ok_or] in Ha. rewrite op_lift_ok in Ha.
  exists token, ver, v. split_and!; [done..|]. unfold op_map_err in Ha.
  destruct (verify_command_token_with_request _ _ _ _ _) as [[[]|e] ?]; [done|]. by destruct e.
Qed.
Lemma authorize_refused headers r v rejection v' :
  authorize_command (auth st) headers r v = (Err rejection, v') → rejection.1 = 401 ∨ rejection.1 = 403.
Proof.
  unfold authorize_command. destruct (negb _); [done|]. destruct (extract_bearer_token headers); cbn [ok_or];
    [rewrite op_lift_ok|intros [= <- _]; by left].
  destruct (verifier (auth st)); cbn [ok_or]; [rewrite op_lift_ok|intros [= <- _]; by left].
  unfold op_map_err. destruct (verify_command_token_with_request _ _ _ _ _) as [[[]|e] ?]; [done|].
  intros [= <- _]. destruct e; by auto.
Qed.
Lemma envelope_of r app node issued max c :
  to_envelope r app node issued max = Ok c →
  command_validate r max = Ok () ∧ command_name c = req_command_name r ∧ cmd_id c = req_command_id r ∧
  idempotency_key c = req_key r ∧ cmd_payload c = str_bytes (req_command_payload r).
Proof.
  unfold to_envelope, to_envelope_unchecked, command_envelope_new. intros Hc.
  apply result_bind_inv in Hc as ([] & Hv & Hc). apply result_bind_inv in Hc as (name & Hn & Hc).
  apply result_bind_inv in Hn as (? & _ & Hn). injection Hn as <-.
  do 5 apply result_bind_inv in Hc as (? & _ & Hc). injection Hc as <-.
  by destruct (command_validate r max) as [[]|].
Qed.
Lemma pre_dispatch_ready io c (t t' : RuntimeController S) :
  pre_dispatch io c t = (Ok None, t') → check_lifecycle_readiness (lifecycle t) = None.
Proof.
  unfold Controller.pre_dispatch, record_audit. autorewrite with op.
  destruct (check_lifecycle_readiness (lifecycle t)); [|done]. by autorewrite with op.
Qed.
Lemma enter_dispatch_ok io headers r trace t c t' :
  token_accepted headers r → enter_dispatch io r trace t = (Ok c, t') → admitted io headers r c.
Proof.
  intros Htok. unfold HttpCommand.enter_dispatch. intros (envelope & He & Hrest)%op_lift_inv.
  destruct (to_envelope _ _ _ _ _) as [c0|] eqn:Hc; [|done]. injection He as <-.
  apply envelope_of in Hc as (Hv & Hname & Hid & Hkey & Hpayload).
  apply op_lift_inv in Hrest as (tr & _ & Hrest). apply op_bind_inv in Hrest as ([] & t1 & Hpol & Hrest).
  apply op_bind_inv in Hrest as (outcome & t2 & Hpre & Hrest).
  assert (Hpre' : pre_dispatch (pre_io io) (with_trace c0 tr) t1 = (Ok outcome, t2)).
  { unfold op_map_err in Hpre. destruct (pre_dispatch _ _ _) as [[]]; [by injection Hpre as -> ->|done]. }
  destruct outcome as [[]|]; [done..|]. injection Hrest as <- _. split; cbn; [done..| |].
  - intros p Hp. rewrite Hp in Hpol. cbn in Hpol. rewrite Hname, Hkey in Hpol.
    by destruct (policy_command p _ _ _) as [[]|].
  - eexists. by eapply pre_dispatch_ready.
Qed.
Lemma admit_ok io headers r v t c v' t' :
  admit_command io headers r (v, t) = (Ok c, (v', t')) → admitted io headers r c.
Proof.
  unfold HttpCommand.admit_command. destruct (authorize_command _ _ _ _) as [[[]|] v1] eqn:Ha; [|done].
  destruct t as [t|]; [|done]. destruct (request_trace _ _ _) as [trace|]; [|done].
  destruct (enter_dispatch io r trace t) as [x t1] eqn:He. intros [= -> <- <-].
  by eapply enter_dispatch_ok; [eapply authorize_ok|].
Qed.

(** Every command in flight or executed was admitted for a request of the run. *)
Definition from_request (l : list (HttpStep (S := S) (Ctx := Ctx) (W := W))) (c : CommandEnvelope) : Prop :=
  ∃ id io headers r, HttpArrives id io headers r ∈ l ∧ admitted io headers r c.
Definition accounted (l : list (HttpStep (S := S) (Ctx := Ctx) (W := W))) (s : HttpSystem (S := S) (V := V) (W := W)) : Prop :=
  (∀ id q, in_flight (runtime s) !! id = Some q → from_request l (command q)) ∧
  (∀ c, c ∈ executed (runtime s) → from_request l c).
Lemma from_request_more l l' c : from_request l c → from_request (l ++ l') c.
Proof. intros (id & io & h & r & Hin & Ha). exists id, io, h, r. split; [set_solver|done]. Qed.
Lemma http_step_accounted l x s : accounted l s → accounted (l ++ [x]) (http_step x s).
Proof.
  intros [Hf He]. assert (Hf' : ∀ id q, in_flight (runtime s) !! id = Some q → from_request (l ++ [x]) (command q))
    by (intros; by eapply from_request_more, Hf). assert (He' : ∀ c, c ∈ executed (runtime s) → from_request (l ++ [x]) c)
    by (intros; by apply from_request_more, He). clear Hf He.
  destruct x as [e|id io headers r|id ctx|id w|id io]; cbn [HttpCommand.http_step].
  - done.
  - destruct (in_flight (runtime s) !! id) as [q|] eqn:Hid; [done|].
    destruct (admit_command io headers r _) as [[c|early] [v t]] eqn:Ha; [|done]. apply admit_ok in Ha. split; [|done].
    intros id' q. cbn. intros [[<- <-]|[_ Hq]]%lookup_insert_Some; [|by eapply Hf'].
    exists id, io, headers, r. split; [set_solver|done].
  - cbn [step runtime]. destruct (in_flight (runtime s) !! id) as [[c [a|]]|] eqn:Hid; [done| |done].
    destruct (instance_dispatch_command instance c ctx _) as [x w]. split; cbn.
    + intros id' q [[<- <-]|[_ Hq]]%lookup_insert_Some; [by apply Hf' in Hid|by eapply Hf'].
    + intros c' [Hc| ->%list_elem_of_singleton]%elem_of_app; [by apply He'|by apply Hf' in Hid].
  - destruct (in_flight (runtime s) !! id) as [[c [a|]]|] eqn:Hid; [done| |done]. cbn [step runtime]. rewrite Hid. split; cbn.
    + intros id' q [_ Hq]%lookup_delete_Some. by eapply Hf'.
    + intros c' [Hc| ->%list_elem_of_singleton]%elem_of_app; [by apply He'|by apply Hf' in Hid].
  - destruct (in_flight (runtime s) !! id) as [[c [a|]]|] eqn:Hid; [|done..]. cbn [step runtime]. rewrite Hid. split; cbn; [|done].
    intros id' q [_ Hq]%lookup_delete_Some. by eapply Hf'.
Qed.
Lemma http_run_accounted l l' s : accounted l s → accounted (l ++ l') (http_run l' s).
Proof.
  revert l s. induction l' as [|x l' IH]; intros l s Hs; [by rewrite app_nil_r|].
  rewrite (app_assoc l [x] l' : l ++ x :: l' = _). by apply IH, http_step_accounted.
Qed.

End Facts.

(** ** A concrete host *)

Module HttpDemo.
Definition verify (token name : string) (details : option RequestValidationDetails) : op nat CommandTokenError () :=
  _ ← op_modify Datatypes.S;
  if bool_decide (token = "secret") then mret ()
  else if bool_decide (token = "reader") then op_fail Tokens.Forbidden else op_fail Tokens.Unauthorized.
Definition token_verifier : CommandTokenVerifier nat :=
  {| verify_command_token_with_request := verify; verify_query_token_with_request := verify |}.
Definition policy : CommandCapabilityPolicy :=
  {| policy_command name _ _ := if bool_decide (name = "pay") then Ok () else Err CapabilityNotDeclared;
     policy_query name _ := if bool_decide (name = "balance") then Ok () else Err CapabilityNotDeclared |}.
Definition info : RuntimeStaticInfo :=
  {| info_app_id := "app"; info_node_id := "node"; info_tenant_id := "tenant-a"; info_cluster_id := "cluster-a";
     info_core_id := "core-a"; info_operation_mode := "normal"; storage_status := "Online"; security_ok := true;
     api_enabled := true; sync_enabled := false; sync_role := "none"; sync_log_len := 0; sync_log_path := None;
     sync_checkpoint_path := None; sync_peers := []; sync_dns_enabled := false; sync_dns_seeds := [];
     sync_dns_default_port := 0; idempotency_ttl_ms := 0; idempotency_path := None |}.
Definition state : HttpState nat :=
  {| app_id := "app"; node_id := "node"; static_info := info;
     command_policy := Some policy;
     auth := {| require_token := true; public_status := false; verifier := Some token_verifier |};
     max_payload_bytes := 64 |}.
Definition io : CommandIo (S := Memory.t) :=
  {| started_at := 1; issued_at := 2; policy_at := 3; rejection_io := Controller.Demo.audit; pre_io := Controller.Demo.io |}.
Definition bearer (token : string) : HeaderMap := [("authorization"%string, str_bytes ("Bearer " ++ token))].
Definition request (name id : string) : CommandRequest :=
  {| req_command_name := name; req_command_id := id; req_key := Some "k"%string; req_command_payload := "p" |}.
Abbreviation run := (http_run Controller.Demo.sha Controller.Demo.record_json Controller.Demo.envelope_json Controller.Demo.debug
  Controller.Demo.result_json Controller.Demo.result_of_json state Controller.Demo.instance).
Definition boot : list (HttpStep (S := Memory.t) (Ctx := ()) (W := nat)) :=
  map HttpLifecycle [ConfigLoaded; SecurityChecked; StorageOpened; ApiStarted].
Definition steps : list HttpStep :=
  boot ++
  [HttpArrives 0 io [] (request "pay" "c0"); HttpArrives 1 io (bearer "guess") (request "pay" "c1");
   HttpArrives 2 io (bearer "reader") (request "pay" "c2"); HttpArrives 3 io (bearer "secret") (request "refund" "c3");
   HttpArrives 4 io (bearer "secret") (request "a..b" "c4"); HttpArrives 5 io (bearer "secret") (request "pay" "c5");
   HttpArrives 6 io (bearer "secret") (request "pay" "c6"); HttpRuns 5 (); HttpFinishes 5 Controller.Demo.io;
   HttpArrives 7 io (bearer "secret") (request "pay" "c7")].
Definition final := run steps (http_start 0%nat (∅ : Memory.t) 0%nat).
End HttpDemo.

(** Of eight requests one runs: no token, an unknown one, one without the
    permission, an undeclared capability, a name that [validate] lets through
    and [CommandName] does not (500, where the other invalid names are 400), a
    duplicate while the first is pending (429), and the retry that gets the
    recorded answer. *)
Example demo_replies :
  (λ id, fst <$> replies HttpDemo.final !! id) <$> [0; 1; 2; 3; 4; 5; 6; 7]%nat =
    [Some 401; Some 401; Some 403; Some 403; Some 500; Some 200; Some 429; Some 200] ∧
  world (runtime HttpDemo.final) = 1%nat ∧ map cmd_id (executed (runtime HttpDemo.final)) = ["c5"%string] ∧
  tokens HttpDemo.final = 7%nat.
Proof. split_and!; vm_compute; reflexivity. Qed.
Example dotted_name_is_a_server_error (debug : RuntimeError → string) :
  let r := HttpDemo.request "a..b" "c" in
  command_validate r 64 = Ok () ∧
  to_envelope r "app" "node" 0 64 = Err (InvalidIdentifier "CommandName" "a..b" "path_traversal") ∧
  (map_dispatch_error debug (InvalidIdentifier "CommandName" "a..b" "path_traversal")).1 = 500.
Proof. split_and!; reflexivity. Qed.
