(* ===== verification/HttpQuery.v ===== *)
(** Queries and status over HTTP ([crates/appcore-api/src]): the contract of
    queries ([query_contract.rs]), the router of application queries
    ([router.rs], [api.rs]), the query handler with the projections of the
    runtime ([http/query.rs]) and the status, health and diagnostics handlers
    ([http/handlers.rs]) with their authorization ([http/auth.rs]).

    JSON texts are serde_json's: its serializers and its parser are parameters.
    A handler runs alone; the readings of the clock and of the shared counters
    are arguments. *)

From S2P Require Import Prelude.
From S2P Require Import Text.
From S2P Require Import Types.
From S2P Require Import Encoding.
From S2P Require Import Contracts.
From S2P Require Import Tokens.
From S2P Require Import Records.
From S2P Require Import Journal.
From S2P Require Import Lifecycle.
From S2P Require Import Idempotency.
From S2P Require Import Operations.
From S2P Require Import Controller.
From S2P Require Import HttpCommand.

Local Open Scope N_scope.

(** ** Values *)

(** [serde_json::Value]; a number is a [u64], a negative [i64] or a float. *)
Inductive Number := PosInt (n : N) | NegInt (z : Z) | Float (text : string).
Inductive Value :=
| VNull | VBool (b : bool) | VNumber (n : Number) | VString (s : string)
| VArray (l : list Value) | VObject (fields : list (string * Value)).
Definition value_get (key : string) (v : Value) : option Value :=
  match v with
  | VObject fields => snd <$> head (filter (λ f, f.1 = key) fields)
  | _ => None
  end.
Definition as_u64 (v : Value) : option N := match v with VNumber (PosInt n) => Some n | _ => None end.
Definition json_text (o : option string) : Value := match o with Some s => VString s | None => VNull end.
Definition json_num (n : N) : Value := VNumber (PosInt n).

(** ** [query_contract.rs] *)

Record QueryRequest := { query_name : string; query_id : string; query_payload : Value }.
Record QueryResponse := { query_ok : bool; query_message : option string; response_payload : Value }.
Inductive QueryRequestValidationError :=
| EmptyQueryName | EmptyQueryId | InvalidQueryName | InvalidQueryId | QueryPayloadTooLarge.
Definition answer_ok (payload : Value) : QueryResponse :=
  {| query_ok := true; query_message := None; response_payload := payload |}.
Definition answer_rejected (message : string) : QueryResponse :=
  {| query_ok := false; query_message := Some message; response_payload := VObject [] |}.

(** ** [api.rs], [router.rs] *)

Inductive ApiMethod := MethodCommand | MethodQuery | MethodHealth.
Record ApiRequest := { api_method : ApiMethod; api_path : string; api_payload : list byte }.
Record ApiResponse := { status_code : N; api_response_payload : list byte }.
(** Endpoints work on the state of the application; [None] is a panic. *)
Abbreviation Endpoint W := (ApiRequest → W → option (RuntimeResult ApiResponse) * W).
Record ApiRouter (W : Type) := { command_endpoint : option (Endpoint W); queries : gmap string (Endpoint W) }.
Arguments command_endpoint {W}.
Arguments queries {W}.
Definition router_new {W} : ApiRouter W := {| command_endpoint := None; queries := ∅ |}.
Definition set_command_endpoint {W} (e : Endpoint W) (r : ApiRouter W) : ApiRouter W :=
  {| command_endpoint := Some e; queries := queries r |}.
Definition register_query {W} (name : string) (e : Endpoint W) : op (ApiRouter W) RuntimeError () := λ r,
  match queries r !! name with
  | Some _ => (Err (RegistryItemAlreadyRegistered "query" name), r)
  | None => (Ok (), {| command_endpoint := command_endpoint r; queries := <[name := e]> (queries r) |})
  end.
Definition has_query {W} (name : string) (r : ApiRouter W) : bool := bool_decide (is_Some (queries r !! name)).
Definition query_names {W} (r : ApiRouter W) : list string := btree_elements (dom (queries r)).
Definition dispatch_query {W} (r : ApiRouter W) (name : string) (q : ApiRequest) (w : W) : option (RuntimeResult ApiResponse) * W :=
  match queries r !! name with
  | None => (Some (Err (RegistryItemNotFound "query" name)), w)
  | Some e => e q w
  end.
Definition router_dispatch_command {W} (r : ApiRouter W) (q : ApiRequest) (w : W) : option (RuntimeResult ApiResponse) * W :=
  match command_endpoint r with
  | None => (Some (Err (MissingConfiguration "command_endpoint")), w)
  | Some e => e q w
  end.

(** ** Live readings

    The shared values that the handlers read, at the time they read them. *)

(** What the handlers ask of the supervisor (the calls also evaluate its watchdog). *)
Record SupervisorView := {
  supervisor_progress_json : N → Value;
  supervisor_json : Value;
  supervisor_healthy : N → bool;
}.
Record LiveState := {
  live_sync_log : option N;
  live_ticks : option N;
  live_mode : option RuntimeOperationalMode;
  live_supervisor : option SupervisorView;
}.

Definition audit_outcome_debug (o : AuditOutcome) : string :=
  match o with Accepted => "Accepted" | Rejected => "Rejected" | AuditError => "Error" end.
Definition trace_id_json (t : option TraceContext) : Value := json_text (trace_id <$> t).
Definition span_id_json (t : option TraceContext) : Value := json_text (span_id <$> t).

Section Queries.
Context {S : Type} `{!IdempotencyStore S} {V W : Type}.
Context (sha256 : list byte → list byte).
Context (record_json : OperationalJournalRecord → result string string).
Context (envelope_json : JournalEnvelope → result string string).
Context (debug : RuntimeError → string).
(** serde_json: a value as bytes, as a string, from bytes; a derived serializer;
    [String::from_utf8_lossy]. *)
Context (to_vec : Value → option (list byte)) (to_string : Value → option string) (from_slice : list byte → option Value).
Context (entry_json : AuditEntry → Value) (from_utf8_lossy : list byte → string).
Context (st : HttpState V) (router : option (ApiRouter W)) (live : LiveState).

Abbreviation push_entry := (push_entry sha256 record_json envelope_json debug).
Abbreviation Reply := (reply QueryResponse).
Abbreviation Core := (option (RuntimeController S)).

Definition payload_bytes (r : QueryRequest) : list byte := default [] (to_vec (query_payload r)).
Definition query_validate (r : QueryRequest) (max_payload_bytes : N) : result QueryRequestValidationError () :=
  if blank (query_name r) then Err EmptyQueryName
  else if blank (query_id r) then Err EmptyQueryId
  else if (128 <? str_len (query_name r)) || negb (is_valid_token (query_name r)) then Err InvalidQueryName
  else if (128 <? str_len (query_id r)) || negb (is_valid_token (query_id r)) then Err InvalidQueryId
  else if max_payload_bytes <? lenN (payload_bytes r) then Err QueryPayloadTooLarge
  else Ok ().

(** *** Authorization *)

Definition query_details (r : QueryRequest) : RequestValidationDetails :=
  {| req_purpose := "query"; req_name := query_name r; req_id := query_id r; req_idempotency_key := None;
     req_payload := default EmptyString (to_string (query_payload r)); req_subject := None; req_audience := None |}.
Definition authorize_query (headers : HeaderMap) (r : QueryRequest) : op V Reply () :=
  if negb (require_token (auth st)) then mret ()
  else
    token ← op_lift (ok_or (401, answer_rejected "missing bearer token") (extract_bearer_token headers));
    v ← op_lift (ok_or (401, answer_rejected "token verifier not configured") (verifier (auth st)));
    op_map_err (λ e, match e with
                     | Tokens.Forbidden => (403, answer_rejected "query not allowed for token")
                     | _ => (401, answer_rejected "invalid bearer token")
                     end)
      (verify_query_token_with_request v token (query_name r) (Some (query_details r))).
Definition status_error (e : CommandTokenError) : N := match e with Tokens.Forbidden => 403 | _ => 401 end.
Definition authorize_private_status (headers : HeaderMap) (name : string) : op V N () :=
  token ← op_lift (ok_or 401 (extract_bearer_token headers));
  v ← op_lift (ok_or 401 (verifier (auth st)));
  op_map_err status_error (verify_query_token_with_request v token name None).
(** Whether the caller may see the private status. *)
Definition authorize_status (headers : HeaderMap) : op V N bool :=
  if negb (public_status (auth st)) then
    token ← op_lift (ok_or 401 (extract_bearer_token headers));
    v ← op_lift (ok_or 401 (verifier (auth st)));
    _ ← op_map_err status_error (verify_query_token_with_request v token "runtime.status" None);
    mret true
  else
    match extract_bearer_token headers, verifier (auth st) with
    | Some token, Some v => λ s,
      match verify_query_token_with_request v token "runtime.status" None s with
      | (Ok _, s) => (Ok true, s)
      | (Err _, s) => (Ok false, s)
      end
    | _, _ => mret false
    end.

(** *** The projections of the runtime *)

Definition current_operation_mode : string := default (info_operation_mode (static_info st)) (mode_as_str <$> live_mode live).
(** [Debug] of a state is its name. *)
Definition lifecycle_text (c : Core) : string :=
  match c with Some t => as_state_name (current (lifecycle t)) | None => "Restricted" end.
Definition visible_sync_log_len : N := default (sync_log_len (static_info st)) (live_sync_log live).
Definition ticks_json : Value := match live_ticks live with Some n => json_num n | None => VNull end.
Definition handle_runtime_status_query (c : Core) : Value :=
  let i := static_info st in
  VObject
    [("app_id", VString (info_app_id i)); ("node_id", VString (info_node_id i)); ("tenant_id", VString (info_tenant_id i));
     ("cluster_id", VString (info_cluster_id i)); ("core_id", VString (info_core_id i));
     ("operation_mode", VString current_operation_mode); ("lifecycle", VString (lifecycle_text c));
     ("storage_status", VString (storage_status i)); ("security_ok", VBool (security_ok i));
     ("api_enabled", VBool (api_enabled i)); ("sync_enabled", VBool (sync_enabled i)); ("sync_role", VString (sync_role i));
     ("sync_log_len", json_num visible_sync_log_len); ("tick_count", ticks_json)]%string.
Definition handle_runtime_sync_query : Value :=
  let i := static_info st in
  VObject
    [("sync_enabled", VBool (sync_enabled i)); ("sync_role", VString (sync_role i));
     ("sync_log_len", json_num visible_sync_log_len); ("sync_log_path", json_text (sync_log_path i));
     ("sync_checkpoint_path", json_text (sync_checkpoint_path i)); ("sync_peers", VArray (map VString (sync_peers i)));
     ("sync_dns_enabled", VBool (sync_dns_enabled i)); ("sync_dns_seeds", VArray (map VString (sync_dns_seeds i)));
     ("sync_dns_default_port", json_num (sync_dns_default_port i))]%string.
Definition handle_runtime_idempotency_query (env : store_env (S := S)) (c : Core) : Value :=
  let i := static_info st in
  VObject
    [("idempotency_len", json_num match c with Some t => store_len env (idempotency t) | None => 0 end);
     ("ttl_ms", json_num (idempotency_ttl_ms i)); ("idempotency_path", json_text (idempotency_path i))]%string.
Definition record_value (r : AuditRecord) : Value :=
  VObject
    [("command_id", VString (audit_command_id r)); ("command_name", VString (audit_command_name r));
     ("app_id", VString (audit_app_id r)); ("node_id", VString (audit_node_id r)); ("timestamp_ms", json_num (audit_timestamp_ms r));
     ("outcome", VString (audit_outcome_debug (audit_outcome r))); ("message", json_text (audit_message r));
     ("trace_id", trace_id_json (audit_trace r)); ("span_id", span_id_json (audit_trace r))]%string.
Definition event_value (e : EventEnvelope) : Value :=
  VObject
    [("event_name", VString (event_name e)); ("event_id", VString (event_id e)); ("app_id", VString (event_app_id e));
     ("node_id", VString (event_node_id e)); ("occurred_at_ms", json_num (occurred_at_ms e));
     ("trace_id", trace_id_json (event_trace e)); ("span_id", span_id_json (event_trace e))]%string.
(** [items[start..]] with [start = items.len().saturating_sub(limit)]. *)
Definition handle_runtime_audit_query (c : Core) (limit : nat) : Value :=
  let log := match c with Some t => audit_log (operations t) | None => audit_log_new end in
  VObject
    [("records", VArray (map record_value (last_of limit (audit_records log))));
     ("entries", VArray (map entry_json (last_of limit (audit_entries log))))]%string.
Definition handle_runtime_events_query (c : Core) (limit : nat) : Value :=
  let items := match c with Some t => bus_events (event_bus (operations t)) | None => [] end in
  VObject [("events", VArray (map event_value (last_of limit items)))]%string.
Definition parse_limit (r : QueryRequest) : result N nat :=
  match value_get "limit" (query_payload r) with
  | None => Ok 20%nat
  | Some value =>
    match as_u64 value with
    | None => Err 400
    | Some limit => if limit =? 0 then Err 400 else Ok (N.to_nat (if 1000 <? limit then 1000 else limit))
    end
  end.

(** *** Dispatch *)

Definition is_runtime_query (name : string) : bool :=
  bool_decide (name ∈ ["runtime.status"; "runtime.sync"; "runtime.idempotency"; "runtime.audit"; "runtime.events"]%string).
Definition api_payload_to_json (payload : list byte) : Value :=
  if bool_decide (payload = []) then VObject []
  else default (VObject [("payload"%string, VString (from_utf8_lossy payload))]) (from_slice payload).
Definition api_response_to_query_response (r : ApiResponse) : QueryResponse :=
  if (200 <=? status_code r) && (status_code r <? 300) then answer_ok (api_payload_to_json (api_response_payload r))
  else answer_rejected "query rejected by app".
Definition api_request_from_query (r : QueryRequest) : result N ApiRequest :=
  payload ← ok_or 400 (to_vec (query_payload r));
  Ok {| api_method := MethodQuery; api_path := query_name r; api_payload := payload |}.
(** [None]: the endpoint panics. *)
Definition dispatch_app_query_request (r : QueryRequest) (w : W) : option (result N QueryResponse) * W :=
  match router with
  | None => (Some (Ok (answer_rejected "query not found")), w)
  | Some router =>
    match (request ← api_request_from_query r; name ← map_err (λ _, 400) (identifier_new "QueryName" (query_name r)); Ok (request, name)) with
    | Err status => (Some (Err status), w)
    | Ok (request, name) =>
      let '(answer, w) := dispatch_query router name request w in
      (match answer with
       | None => None
       | Some (Ok response) => Some (Ok (api_response_to_query_response response))
       | Some (Err (RegistryItemNotFound _ _)) => Some (Ok (answer_rejected "query not found"))
       | Some (Err _) => Some (Err 500)
       end, w)
    end
  end.
Definition dispatch_query_request (env : store_env (S := S)) (r : QueryRequest) (c : Core) (w : W) :
    option (result N QueryResponse) * W :=
  let payload_of (handle : nat → Value) := limit ← parse_limit r; Ok (answer_ok (handle limit)) in
  match query_validate r (max_payload_bytes st) with
  | Err QueryPayloadTooLarge => (Some (Err 413), w)
  | Err _ => (Some (Err 400), w)
  | Ok _ =>
    if bool_decide (query_name r = "runtime.status") then (Some (Ok (answer_ok (handle_runtime_status_query c))), w)
    else if bool_decide (query_name r = "runtime.sync") then (Some (Ok (answer_ok handle_runtime_sync_query)), w)
    else if bool_decide (query_name r = "runtime.idempotency") then
      (Some (Ok (answer_ok (handle_runtime_idempotency_query env c))), w)
    else if bool_decide (query_name r = "runtime.audit") then (Some (payload_of (handle_runtime_audit_query c)), w)
    else if bool_decide (query_name r = "runtime.events") then (Some (payload_of (handle_runtime_events_query c)), w)
    else dispatch_app_query_request r w
  end.

(** *** The handlers *)

Record QueryIo := { query_started_at : N; capability_at : N; query_audit_io : AuditIo; len_env : store_env (S := S) }.

Definition audit_query (io : QueryIo) (r : QueryRequest) (outcome : AuditOutcome) (message : option string)
    (trace : TraceContext) (c : Core) : Core :=
  t ← c;
  Some (with_operations t
    (push_entry (query_audit_io io)
       (entry_with_trace
          (entry_with_message
             (entry_with_scope
                (audit_entry_new CategoryQuery (query_id r) (query_name r) (query_started_at io)
                   (Operations.completed_at (query_audit_io io)) outcome)
                (app_id st) (node_id st))
             message)
          (Some trace))
       (operations t))).
Definition validate_http_query (r : QueryRequest) : option Reply :=
  match query_validate r (max_payload_bytes st) with
  | Ok _ => None
  | Err e => Some (match e with QueryPayloadTooLarge => 413 | _ => 400 end, answer_rejected "query request invalid")
  end.
Definition map_query_policy_error (e : CommandCapabilityPolicyError) : Reply :=
  match e with
  | CapabilityNotDeclared => (403, answer_rejected "capability_not_declared")
  | MissingKey => (400, answer_rejected "missing_idempotency_key")
  | RequiresLeader => (409, answer_rejected "requires_leader")
  | LeaseExpired => (409, answer_rejected "leader_lease_expired")
  | StaleEpoch => (409, answer_rejected "leader_lease_stale_epoch")
  | ReadOnly => (403, answer_rejected "operation_mode_read_only")
  | PolicyRejected _ => (403, answer_rejected "capability_rejected")
  end.
(** The refusal of the capability policy; the audit of it is in the handler. *)
Definition capability_refusal (io : QueryIo) (r : QueryRequest) : option Reply :=
  if is_runtime_query (query_name r) then None
  else
    policy ← command_policy st;
    match policy_query policy (query_name r) (capability_at io) with
    | Ok _ => None
    | Err e => Some (map_query_policy_error e)
    end.
Definition authorize_application_capability (io : QueryIo) (r : QueryRequest) (trace : TraceContext) (c : Core) :
    option Reply * Core :=
  match capability_refusal io r with
  | Some refusal => (Some refusal, audit_query io r Rejected (Some "query capability policy rejected"%string) trace c)
  | None => (None, c)
  end.
Definition query_handler (io : QueryIo) (headers : HeaderMap) (r : QueryRequest) (s : V * Core * W) : Reply * (V * Core * W) :=
  let '(v, c, w) := s in
  match validate_http_query r with
  | Some refusal => (refusal, s)
  | None =>
    match request_trace headers (query_id r) (static_info st) with
    | None => ((400, answer_rejected "trace context invalid"), s)
    | Some trace =>
      match authorize_query headers r v with
      | (Err refusal, v) => (refusal, (v, audit_query io r Rejected (Some "query authorization rejected"%string) trace c, w))
      | (Ok _, v) =>
        match authorize_application_capability io r trace c with
        | (Some refusal, c) => (refusal, (v, c, w))
        | (None, c) =>
          match dispatch_query_request (len_env io) r c w with
          | (None, w) =>
            ((500, answer_rejected "query dispatch failed"),
             (v, audit_query io r AuditError (Some "query dispatch failed"%string) trace c, w))
          | (Some (Ok response), w) =>
            ((200, response),
             (v, audit_query io r (if query_ok response then Accepted else Rejected) (query_message response) trace c, w))
          | (Some (Err status), w) =>
            ((status, answer_rejected "query request invalid"),
             (v, audit_query io r AuditError (Some ("query failed with HTTP status " +:+ show_u64 status)) trace c, w))
          end
        end
      end
    end
  end.

(** A reply without a body is [None]. *)
Abbreviation StatusReply := (N * option Value)%type.
Definition public_status_response (c : Core) : StatusReply :=
  (200, Some (VObject [("status", VString "online"); ("lifecycle", VString (lifecycle_text c))]%string)).
Definition private_status_json (now : N) (c : Core) : Value :=
  match handle_runtime_status_query c with
  | VObject fields =>
    VObject (fields ++ [("supervisor"%string,
      match live_supervisor live with Some s => supervisor_progress_json s now | None => VNull end)])
  | v => v
  end.
Definition private_status_response (now : N) (c : Core) : StatusReply := (200, Some (private_status_json now c)).
Definition status_handler (now : N) (headers : HeaderMap) (c : Core) (v : V) : StatusReply * V :=
  match authorize_status headers v with
  | (Err status, v) => ((status, None), v)
  | (Ok true, v) => (private_status_response now c, v)
  | (Ok false, v) => (public_status_response c, v)
  end.
Definition public_status_handler (c : Core) : StatusReply :=
  if negb (public_status (auth st)) then (401, None) else public_status_response c.
Definition private_status_handler (now : N) (headers : HeaderMap) (c : Core) (v : V) : StatusReply * V :=
  match authorize_private_status headers "runtime.status" v with
  | (Ok _, v) => (private_status_response now c, v)
  | (Err status, v) => ((status, None), v)
  end.
Definition diagnostics_json (now : N) (c : Core) : Value :=
  let i := static_info st in
  VObject
    [("status", private_status_json now c);
     ("sync", VObject
        [("log_path", json_text (sync_log_path i)); ("checkpoint_path", json_text (sync_checkpoint_path i));
         ("peers", VArray (map VString (sync_peers i))); ("dns_enabled", VBool (sync_dns_enabled i));
         ("dns_seeds", VArray (map VString (sync_dns_seeds i))); ("dns_default_port", json_num (sync_dns_default_port i))]);
     ("idempotency", VObject
        [("ttl_ms", json_num (idempotency_ttl_ms i)); ("path", json_text (idempotency_path i))]);
     ("supervisor", match live_supervisor live with Some s => supervisor_json s | None => VNull end)]%string.
Definition diagnostics_handler (now : N) (headers : HeaderMap) (c : Core) (v : V) : StatusReply * V :=
  match authorize_private_status headers "runtime.diagnostics" v with
  | (Ok _, v) => ((200, Some (diagnostics_json now c)), v)
  | (Err status, v) => ((status, None), v)
  end.
Definition runtime_is_healthy (now : N) (c : Core) : bool :=
  security_ok (static_info st) && bool_decide (storage_status (static_info st) = "Online"%string)
  && match c with Some t => bool_decide (current (lifecycle t) = Running) | None => true end
  && match live_supervisor live with Some s => supervisor_healthy s now | None => true end.
Definition health_handler (now : N) (c : Core) : StatusReply :=
  let healthy := runtime_is_healthy now c in
  (if healthy then 200 else 503,
   Some (VObject
     [("status", VString (if healthy then "healthy" else "unhealthy"));
      ("supervisor", match live_supervisor live with Some s => supervisor_progress_json s now | None => VNull end)]%string)).
(** The routes of the versions before v1. *)
Definition update_required_handler : N * string := (426, "NO MORE SUPPORTED PLEASE UPDATE"%string).

(** ** What a query can do *)

(** The token of a query, where one is required, was accepted for it. *)
Definition query_token_accepted (headers : HeaderMap) (r : QueryRequest) : Prop :=
  require_token (auth st) = true →
  ∃ token ver v, extract_bearer_token headers = Some token ∧ verifier (auth st) = Some ver ∧
    (verify_query_token_with_request ver token (query_name r) (Some (query_details r)) v).1 = Ok ().
(** All that stands between a query and its execution. *)
Record query_admitted (io : QueryIo) (headers : HeaderMap) (r : QueryRequest) : Prop := {
  query_admitted_token : query_token_accepted headers r;
  query_admitted_valid : query_validate r (max_payload_bytes st) = Ok ();
  query_admitted_policy p : command_policy st = Some p → is_runtime_query (query_name r) = false →
    policy_query p (query_name r) (capability_at io) = Ok ();
}.
(** One entry on the request, with the outcome of the reply. *)
Definition audited (io : QueryIo) (r : QueryRequest) (answer : Reply) (t t' : RuntimeController S) : Prop :=
  ∃ e, t' = with_operations t (push_entry (query_audit_io io) e (operations t)) ∧
    category e = CategoryQuery ∧ operation_id e = query_id r ∧ operation_name e = query_name r ∧
    entry_app_id e = Some (app_id st) ∧ entry_node_id e = Some (node_id st) ∧
    (entry_outcome e = Accepted ↔ answer.1 = 200 ∧ query_ok answer.2 = true).

Lemma authorize_query_ok headers r v v' : authorize_query headers r v = (Ok (), v') → query_token_accepted headers r.
Proof.
  unfold authorize_query, query_token_accepted. destruct (require_token (auth st)); [|done]. cbn [negb]. intros Ha _.
  destruct (extract_bearer_token headers) as [token|]; [|done]. cbn [ok_or] in Ha. rewrite op_lift_ok in Ha.
  destruct (verifier (auth st)) as [ver|]; [|done]. cbn [ok_or] in Ha. rewrite op_lift_ok in Ha.
  exists token, ver, v. split_and!; [done..|]. unfold op_map_err in Ha.
  destruct (verify_query_token_with_request _ _ _ _ _) as [[[]|e] ?]; [done|]. by destruct e.
Qed.
Lemma authorize_query_refused headers r v answer v' : authorize_query headers r v = (Err answer, v') → query_ok answer.2 = false.
Proof.
  unfold authorize_query. destruct (negb _); [done|]. destruct (extract_bearer_token headers); cbn [ok_or];
    [rewrite op_lift_ok|by intros [= <- _]].
  destruct (verifier (auth st)); cbn [ok_or]; [rewrite op_lift_ok|by intros [= <- _]].
  unfold op_map_err. destruct (verify_query_token_with_request _ _ _ _ _) as [[[]|e] ?]; [done|].
  intros [= <- _]. by destruct e.
Qed.
Lemma policy_refused e : query_ok (map_query_policy_error e).2 = false.
Proof. by destruct e. Qed.
Lemma capability_allowed io r p :
  capability_refusal io r = None → command_policy st = Some p → is_runtime_query (query_name r) = false →
  policy_query p (query_name r) (capability_at io) = Ok ().
Proof.
  unfold capability_refusal. intros Hc Hp Hr. rewrite Hr, Hp in Hc. cbn in Hc.
  by destruct (policy_query p _ _) as [[]|].
Qed.
Lemma capability_refused io r answer : capability_refusal io r = Some answer → query_ok answer.2 = false.
Proof.
  unfold capability_refusal. destruct (is_runtime_query _); [done|]. destruct (command_policy st) as [p|]; [|done]. cbn.
  destruct (policy_query p _ _); [done|]. intros [= <-]. apply policy_refused.
Qed.
Lemma audit_query_audited io r outcome message trace answer t :
  (outcome = Accepted ↔ answer.1 = 200 ∧ query_ok answer.2 = true) →
  ∃ t', audit_query io r outcome message trace (Some t) = Some t' ∧ audited io r answer t t'.
Proof. intros Ho. eexists. split; [done|]. eexists. split; [done|]. by split_and!. Qed.
Lemma not_runtime_query name :
  name ≠ "runtime.status"%string → name ≠ "runtime.sync"%string → name ≠ "runtime.idempotency"%string →
  name ≠ "runtime.audit"%string → name ≠ "runtime.events"%string → is_runtime_query name = false.
Proof. intros. unfold is_runtime_query. apply bool_decide_eq_false_2. set_solver. Qed.

(** The endpoint that a query ran, and what it made of the application. *)
Definition ran_endpoint (r : QueryRequest) (w w' : W) : Prop :=
  is_runtime_query (query_name r) = false ∧
  ∃ rt e payload, router = Some rt ∧ queries rt !! query_name r = Some e ∧ to_vec (query_payload r) = Some payload ∧
    w' = (e {| api_method := MethodQuery; api_path := query_name r; api_payload := payload |} w).2.
Lemma dispatch_app_world r w :
  is_runtime_query (query_name r) = false →
  (dispatch_app_query_request r w).2 = w ∨ ran_endpoint r w (dispatch_app_query_request r w).2.
Proof.
  intros Hname. unfold dispatch_app_query_request. destruct router as [rt|] eqn:Hrt; [|by left].
  unfold api_request_from_query. destruct (to_vec (query_payload r)) as [payload|] eqn:Hp; [|by left]. cbn.
  destruct (identifier_new _ _) as [name|] eqn:Hid; [|by left]. cbn.
  assert (name = query_name r) as ->.
  { unfold identifier_new in Hid. by destruct (validate_identifier _ _); [injection Hid as <-|]. }
  unfold dispatch_query. destruct (queries rt !! query_name r) as [e|] eqn:He; [|by left].
  right. split; [done|]. exists rt, e, payload. split_and!; [done..|]. by destruct (e _ w).
Qed.
Lemma dispatch_world env r c w :
  (dispatch_query_request env r c w).2 = w ∨ ran_endpoint r w (dispatch_query_request env r c w).2.
Proof.
  unfold dispatch_query_request. destruct (query_validate _ _) as [|[]]; [|by left..].
  repeat (case_bool_decide; [by left|]). apply dispatch_app_world. by apply not_runtime_query.
Qed.


(** *** The history of a runtime *)

Lemma last_of_last_of {A} n m (l : list A) : (n ≤ m)%nat → last_of n (last_of m l) = last_of n l.
Proof. intros. unfold last_of. rewrite drop_drop, length_drop. f_equal. lia. Qed.
Lemma parse_limit_bounds r n : parse_limit r = Ok n → (1 ≤ n ≤ 1000)%nat.
Proof.
  unfold parse_limit. destruct (value_get _ _) as [value|]; [|intros [= <-]; lia].
  destruct (as_u64 value) as [limit|]; [|done]. destruct (N.eqb_spec limit 0); [done|]. intros [= <-].
  destruct (N.ltb_spec 1000 limit); lia.
Qed.

(** [runtime.audit] and [runtime.events] answer the end of the history: the last
    records, entries and events of everything the instance recorded, oldest
    first, between 1 and 1,000 of each as the request asks; the bound of the
    log does not show. *)
Theorem history_queries_answer_the_latest (l : list OperationCall) (r : QueryRequest) (t : RuntimeController S) n :
  operations t = foldl (λ o c, run_operation sha256 record_json envelope_json debug c o) operations_new l →
  parse_limit r = Ok n →
  (1 ≤ n ≤ 1000)%nat ∧
  handle_runtime_audit_query (Some t) n =
    VObject [("records", VArray (map record_value (last_of n (recorded_records l))));
             ("entries", VArray (map entry_json (last_of n (recorded_entries l))))]%string ∧
  handle_runtime_events_query (Some t) n = VObject [("events"%string, VArray (map event_value (last_of n (recorded_events l))))].
Proof.
  intros Ht Hn%parse_limit_bounds. split; [done|]. unfold handle_runtime_audit_query, handle_runtime_events_query. rewrite Ht.
  destruct (operational_history_is_recent sha256 record_json envelope_json debug l) as [(Hr & He & Hb) _].
  rewrite Hr, He, Hb, !last_of_last_of by (unfold MAX_AUDIT_RECORDS, MAX_EVENTS; lia). done.
Qed.

(** *** Status *)

Definition status_token_accepted (headers : HeaderMap) (name : string) : Prop :=
  ∃ token ver v, extract_bearer_token headers = Some token ∧ verifier (auth st) = Some ver ∧
    (verify_query_token_with_request ver token name None v).1 = Ok ().
Lemma private_status_ok headers name v :
  match authorize_private_status headers name v with
  | (Ok _, _) => status_token_accepted headers name
  | (Err n, _) => n = 401 ∨ n = 403
  end.
Proof.
  unfold authorize_private_status, status_token_accepted. destruct (extract_bearer_token headers) as [token|]; cbn [ok_or];
    [rewrite op_lift_ok|by left].
  destruct (verifier (auth st)) as [ver|]; cbn [ok_or]; [rewrite op_lift_ok|by left].
  unfold op_map_err. destruct (verify_query_token_with_request ver token name None v) as [[[]|e] v'] eqn:Hv.
  - exists token, ver, v. by rewrite Hv.
  - destruct e; cbn; auto.
Qed.
Lemma authorize_status_ok headers v :
  match authorize_status headers v with
  | (Ok true, _) => status_token_accepted headers "runtime.status"
  | (Ok false, _) => public_status (auth st) = true
  | (Err n, _) => (n = 401 ∨ n = 403) ∧ public_status (auth st) = false
  end.
Proof.
  unfold authorize_status. destruct (public_status (auth st)); cbn [negb].
  - destruct (extract_bearer_token headers) as [token|] eqn:Ht; [|done]. destruct (verifier (auth st)) as [ver|] eqn:Hver; [|done].
    destruct (verify_query_token_with_request ver token _ None v) as [[[]|e] v'] eqn:Hv; [|done].
    exists token, ver, v. by rewrite Hv.
  - pose proof (private_status_ok headers "runtime.status" v) as Hp. unfold authorize_private_status in Hp.
    destruct (extract_bearer_token headers) as [token|]; cbn [ok_or] in *; [rewrite op_lift_ok in Hp; rewrite op_lift_ok|by auto].
    destruct (verifier (auth st)) as [ver|]; cbn [ok_or] in *; [rewrite op_lift_ok in Hp; rewrite op_lift_ok|by auto].
    unfold mbind, op_bind. destruct (op_map_err _ _ _) as [[[]|n] v']; auto.
Qed.

(** What a status request reveals depends on its token. The private status and
    the diagnostics are answered only where the verifier accepts the token for
    [runtime.status] and [runtime.diagnostics]; every other caller gets 401 or
    403 without a body or, where the host made its status public, the two
    fields of the public status. *)
Theorem private_status_needs_a_token now headers (c : Core) v :
  (let answer := (status_handler now headers c v).1 in
   answer = private_status_response now c ∧ status_token_accepted headers "runtime.status" ∨
   answer = public_status_response c ∧ public_status (auth st) = true ∨
   (answer = (401, None) ∨ answer = (403, None)) ∧ public_status (auth st) = false) ∧
  (let answer := (private_status_handler now headers c v).1 in
   answer = private_status_response now c ∧ status_token_accepted headers "runtime.status" ∨
   answer = (401, None) ∨ answer = (403, None)) ∧
  (let answer := (diagnostics_handler now headers c v).1 in
   answer = (200, Some (diagnostics_json now c)) ∧ status_token_accepted headers "runtime.diagnostics" ∨
   answer = (401, None) ∨ answer = (403, None)) ∧
  (public_status (auth st) = false → public_status_handler c = (401, None)).
Proof.
  unfold status_handler, private_status_handler, diagnostics_handler, public_status_handler.
  pose proof (authorize_status_ok headers v) as Hs. pose proof (private_status_ok headers "runtime.status" v) as Hp.
  pose proof (private_status_ok headers "runtime.diagnostics" v) as Hd. split_and!.
  - destruct (authorize_status headers v) as [[[]|n] v'] eqn:?; cbn; [auto..|]. destruct Hs as [[-> | ->] ?]; auto.
  - destruct (authorize_private_status headers "runtime.status" v) as [[?|n] v']; cbn; [auto|]. destruct Hp as [-> | ->]; auto.
  - destruct (authorize_private_status headers "runtime.diagnostics" v) as [[?|n] v']; cbn; [auto|]. destruct Hd as [-> | ->]; auto.
  - by intros ->.
Qed.
End Queries.

(** ** A concrete host *)

Module QueryDemo.
Definition balance : Endpoint nat := λ r w, (Some (Ok {| status_code := 200; api_response_payload := [] |}), Datatypes.S w).
Definition broken : Endpoint nat := λ r w, (None, w).
Definition app_router : ApiRouter nat :=
  (register_query "broken" broken (register_query "balance" balance router_new).2).2.
Definition live : LiveState := {| live_sync_log := None; live_ticks := Some 3; live_mode := None; live_supervisor := None |}.
Definition handle := query_handler Controller.Demo.sha Controller.Demo.record_json Controller.Demo.envelope_json Controller.Demo.debug
  (S := Memory.t) (W := nat) (λ _, Some []) (λ _, Some EmptyString) (λ _, None) (λ _, VNull) (λ _, EmptyString)
  HttpDemo.state (Some app_router) live.
Definition io : QueryIo (S := Memory.t) :=
  {| query_started_at := 1; capability_at := 2; query_audit_io := Controller.Demo.audit; len_env := () |}.
Definition request (name : string) (limit : Value) : QueryRequest :=
  {| query_name := name; query_id := "q"; query_payload := VObject [("limit"%string, limit)] |}.
Definition start := (0%nat, Some (core (start (W := nat) (∅ : Memory.t) 0%nat)), 0%nat).
Definition status_of (x : reply QueryResponse * (nat * option (RuntimeController Memory.t) * nat)) : N * bool * nat * option nat :=
  match x with
  | ((n, answer), (_, c, w)) => (n, query_ok answer, w, (λ t, length (audit_entries (audit_log (operations t)))) <$> c)
  end.
End QueryDemo.

(** Status, application state and audited entries of: a query without a token,
    one of the application, one the policy does not declare, and one of the
    runtime with a limit of 0. *)
Example demo_queries :
  (λ '(headers, r), QueryDemo.status_of (QueryDemo.handle QueryDemo.io headers r QueryDemo.start)) <$>
    [([], QueryDemo.request "balance" VNull); (HttpDemo.bearer "secret", QueryDemo.request "balance" VNull);
     (HttpDemo.bearer "secret", QueryDemo.request "broken" VNull);
     (HttpDemo.bearer "secret", QueryDemo.request "runtime.audit" (json_num 0));
     (HttpDemo.bearer "secret", QueryDemo.request "runtime.audit" (json_num 5000))] =
    [(401, false, 0%nat, Some 1%nat); (200, true, 1%nat, Some 1%nat); (403, false, 0%nat, Some 1%nat);
     (400, false, 0%nat, Some 1%nat); (200, true, 0%nat, Some 1%nat)].
Proof. vm_compute. reflexivity. Qed.
