(* ===== verification/PeerRpcHost.v ===== *)
(** The host side of peer RPC ([crates/appcore-peer-rpc/src]): the credentials
    of peers ([authentication.rs]), the advertisement of a core
    ([advertisement.rs]) and the routes of the host ([host.rs]).

    A handler works on the state of the authenticator, of the nonce store and of
    the application, in this order. JSON, gzip and SHA-256 are parameters; axum's
    routing is outside. *)

From S2P Require Import Prelude.
From S2P Require Import Text.
From S2P Require Import Types.
From S2P Require Import Encoding.
From S2P Require Import Contracts.
From S2P Require Import Distributed.
From S2P Require Import NonceStore.
From S2P Require Import PeerValidation.
From S2P Require Import Tokens.
From S2P Require Import HttpText.
From S2P Require Import HttpTransport.
From S2P Require Import HttpCommand.

Local Open Scope N_scope.

Definition COMPRESSION_THRESHOLD_BYTES : N := 1024.

(** ** [transport.rs]: errors and compression *)

Definition map_transport_error (e : TransportError) : PeerRpcError.t :=
  match e with
  | ResponseTooLarge _ | RequestTooLarge _ => PeerRpcError.PayloadTooLarge
  | Timeout | ConnectionRefused | Dns _ | Cancelled => PeerRpcError.EndpointUnavailable
  | InvalidResponse reason => PeerRpcError.InvalidResponse reason
  | TruncatedResponse => PeerRpcError.InvalidResponse "truncated HTTP response"
  | other => PeerRpcError.Transport (transport_error_text other)
  end.
Definition gzip_decode_limited (gunzip : string → string * option string) (input : string) (max : N) : result PeerRpcError.t string :=
  map_err map_transport_error (decode_gzip_limited gunzip input max).
Definition gzip_if_beneficial (gzip : string → result string string) (input : string) : result PeerRpcError.t (option string) :=
  if str_len input <? COMPRESSION_THRESHOLD_BYTES then Ok None
  else map_err map_transport_error (encode_gzip_if_smaller gzip input).

(** ** [authentication.rs] *)

(** [PeerRpcAuthenticator] and [PeerRpcTokenIssuer] on a state of their own. *)
Class PeerRpcAuthenticator (A : Type) := authenticate : option string → option string → N → op A PeerRpcError.t ().
Class PeerRpcTokenIssuer (I : Type) := issue_peer_token : string → option string → N → N → op I PeerRpcError.t string.

Definition peer_auth_error (e : CommandTokenError) : PeerRpcError.t :=
  match e with
  | Tokens.Forbidden => PeerRpcError.Forbidden
  | Tokens.InvalidFormat | Tokens.Unauthorized => PeerRpcError.Unauthorized
  end.
(** [new]: the claims are scoped to peer RPC. *)
Definition peer_claims (claims : TokenClaims) : TokenClaims :=
  {| issuer := issuer claims; audience := audience claims; salt := "peer"; ttl_ms := ttl_ms claims |}.
Definition bare_token (token : string) : string :=
  match strip_prefix "Bearer " token with
  | Some t => t
  | None => default token (strip_prefix "bearer " token)
  end.
Section Credentials.
Context {P : Type} `{TokenProvider P} `{ClaimsJson} (claims : TokenClaims).

Definition hash_token_authenticate (token expected_request_hash : option string) (now_ms : N) : op P PeerRpcError.t () :=
  token ← op_lift (ok_or PeerRpcError.Unauthorized token);
  c ← op_map_err peer_auth_error
        (validate_and_get_claims (peer_claims claims) (bare_token token) "peer" None now_ms expected_request_hash);
  if bool_decide (is_Some expected_request_hash) && bool_decide (request_hash c = None) then op_fail PeerRpcError.Forbidden
  else mret ().
Definition hash_token_issue (request_id : string) (request_hash : option string) (now_ms ttl_ms : N) : op P PeerRpcError.t string :=
  op_map_err peer_auth_error
    (create_v1_with_jti_and_hash (peer_claims claims) "peer" None (Some "*"%string) (Some LOCAL_ADMIN_SUBJECT) now_ms ttl_ms
       (Some request_id) request_hash).
Definition HashTokenPeerAuthenticator : PeerRpcAuthenticator P := hash_token_authenticate.
Definition HashTokenPeerTokenIssuer : PeerRpcTokenIssuer P := hash_token_issue.
End Credentials.
(** The authenticator and the issuer of tests. *)
Definition AllowPeerAuthenticator {A} : PeerRpcAuthenticator A := λ _ _ _, mret ().
Definition StaticPeerRpcTokenIssuer {I} (token : string) : PeerRpcTokenIssuer I := λ _ _ _ _,
  if utf8_valid token then mret token else op_fail PeerRpcError.Unauthorized.

(** ** [advertisement.rs] *)

Record PeerIdentityV1 := {
  peer_tenant_id : string; peer_cluster_id : string; peer_core_id : string; peer_instance_id : string; peer_kind : string;
  peer_protocol_version : N; peer_app_id : string; peer_app_family : string; peer_sync_group : string;
  peer_runtime_contract : N; peer_node_id : string;
}.
Record PeerCapabilityV1 := {
  cap_name : string; cap_version : string; cap_mode : string; cap_visibility : string; cap_requires_leader : bool;
  cap_read_only : bool; cap_idempotency_required : bool;
}.
Record PeerEndpointV1 := { end_name : string; end_url : string; end_protocol : string; end_metadata : gmap string string }.
Record PeerAdvertisementV1 := {
  adv_schema_version : N; adv_identity : PeerIdentityV1; adv_app_name : string; adv_app_version : string;
  adv_runtime_min_version : string; adv_runtime_max_version : option string; adv_capabilities : list PeerCapabilityV1;
  adv_endpoints : list PeerEndpointV1; adv_metadata : gmap string string;
}.
Definition identity_from_core (i : CoreIdentity) : PeerIdentityV1 :=
  {| peer_tenant_id := Types.tenant_id i; peer_cluster_id := Types.cluster_id i; peer_core_id := Types.core_id i;
     peer_instance_id := Types.instance_id i; peer_kind := Types.core_kind i; peer_protocol_version := Types.protocol_version i;
     peer_app_id := Types.app_id (Types.runtime i); peer_app_family := Types.app_family (Types.runtime i);
     peer_sync_group := Types.sync_group (Types.runtime i); peer_runtime_contract := Types.runtime_contract (Types.runtime i);
     peer_node_id := Types.node_id (Types.runtime i) |}.
Definition capability_mode_text (m : Distributed.CapabilityMode) : string :=
  match m with Distributed.Query => "query" | Distributed.Command => "command" | Distributed.Stream => "stream" end.
Definition capability_visibility_text (v : Distributed.CapabilityVisibility) : string :=
  match v with Local => "local" | Cluster => "cluster" | Tenant => "tenant" end.
Definition capability_from_core (c : CapabilityDescriptor) : PeerCapabilityV1 :=
  {| cap_name := name c; cap_version := Distributed.version c; cap_mode := capability_mode_text (mode c);
     cap_visibility := capability_visibility_text (visibility c); cap_requires_leader := Distributed.requires_leader (requirements c);
     cap_read_only := read_only (requirements c); cap_idempotency_required := Distributed.idempotency_required (requirements c) |}.
Definition endpoint_from_core (e : PeerEndpoint) : PeerEndpointV1 :=
  {| end_name := endpoint_name e; end_url := url e; end_protocol := protocol e; end_metadata := endpoint_metadata e |}.
Definition advertisement_from_manifest (m : DistributedCoreManifest) : PeerAdvertisementV1 :=
  {| adv_schema_version := 1; adv_identity := identity_from_core (Distributed.identity m); adv_app_name := app_name m;
     adv_app_version := app_version m; adv_runtime_min_version := runtime_min_version m;
     adv_runtime_max_version := runtime_max_version m; adv_capabilities := map capability_from_core (capabilities m);
     adv_endpoints := map endpoint_from_core (endpoints m); adv_metadata := metadata m |}.

(** ** [host.rs] *)

(** [PeerHealthResponse]. *)
Record PeerHealthResponse := { health_ok : bool; health_core_id : string; health_tenant_id : string; health_cluster_id : string }.
(** serde_json on the messages of the protocol; a parser may fail with a text. *)
Class PeerJson := {
  peer_envelope_to_vec : PeerRpcEnvelope → string;
  peer_envelope_from_slice : string → result string PeerRpcEnvelope;
  peer_response_to_vec : PeerRpcResponse → string;
  peer_response_from_slice : string → result string PeerRpcResponse;
  health_to_vec : PeerHealthResponse → string;
  health_from_slice : string → result string PeerHealthResponse;
  manifest_to_vec : PeerAdvertisementV1 → string;
  manifest_from_slice : string → result string PeerAdvertisementV1;
}.
Class PeerJsonLaws `{PeerJson} := {
  peer_envelope_roundtrip e : peer_envelope_from_slice (peer_envelope_to_vec e) = Ok e;
  peer_response_roundtrip r : peer_response_from_slice (peer_response_to_vec r) = Ok r;
}.

Record PeerReply := { reply_status : N; reply_gzip : bool; reply_body : string }.
Inductive PeerRpcKind := KindQuery | KindCommand.
(** A dispatcher works on the state of the application; [None] is a panic. *)
Class PeerRpcDispatcher (W : Type) := dispatch_peer : PeerRpcKind → PeerRpcEnvelope → W → option (result PeerRpcError.t PeerRpcResponse) * W.

Definition first_header (headers : HeaderMap) (name : string) : option (list byte) := hd_error (header_all headers name).
Definition bearer_token (headers : HeaderMap) : option string := value ← first_header headers "authorization"; header_str value.
(** One entry of [accept-encoding]. *)
Definition quality_is_zero (parameter : string) : bool :=
  match strip_prefix "q=" (trim parameter) with
  | Some quality => bool_decide (trim quality = "0"%string) || bool_decide (trim quality = "0.0"%string)
  | None => false
  end.
Definition entry_accepts_gzip (encoding : string) : bool :=
  match split_on ";" (trim encoding) with
  | [] => false
  | name :: parameters => bool_decide (to_ascii_lowercase (trim name) = "gzip"%string) && negb (existsb quality_is_zero parameters)
  end.
Definition accepts_gzip (headers : HeaderMap) : bool :=
  match (value ← first_header headers "accept-encoding"; header_str value) with
  | Some value => existsb entry_accepts_gzip (split_on "," value)
  | None => false
  end.
Definition peer_error_status (e : PeerRpcError.t) : N :=
  match e with
  | PeerRpcError.Unauthorized => 401
  | PeerRpcError.Forbidden => 403
  | PeerRpcError.EndpointUnavailable | PeerRpcError.NonceCacheFull => 503
  | PeerRpcError.PayloadTooLarge => 413
  | PeerRpcError.ProtocolMismatch => 409
  | PeerRpcError.TenantMismatch | PeerRpcError.ClusterMismatch | PeerRpcError.TargetMismatch | PeerRpcError.Expired
  | PeerRpcError.NonceReplay | PeerRpcError.InvalidBodyHash | PeerRpcError.InvalidResponse _ | PeerRpcError.Transport _
  | PeerRpcError.InvalidEnvelope _ => 400
  end.
Definition peer_error_code (e : PeerRpcError.t) : string :=
  match e with
  | PeerRpcError.PayloadTooLarge => "payload_too_large"
  | PeerRpcError.Unauthorized => "unauthorized"
  | PeerRpcError.Forbidden => "forbidden"
  | PeerRpcError.EndpointUnavailable => "endpoint_unavailable"
  | PeerRpcError.TenantMismatch => "tenant_mismatch"
  | PeerRpcError.ClusterMismatch => "cluster_mismatch"
  | PeerRpcError.TargetMismatch => "target_mismatch"
  | PeerRpcError.ProtocolMismatch => "protocol_mismatch"
  | PeerRpcError.Expired => "expired"
  | PeerRpcError.NonceReplay => "nonce_replay"
  | PeerRpcError.NonceCacheFull => "nonce_cache_full"
  | PeerRpcError.InvalidBodyHash => "invalid_body_hash"
  | PeerRpcError.InvalidResponse _ => "invalid_response"
  | PeerRpcError.Transport _ => "transport"
  | PeerRpcError.InvalidEnvelope _ => "invalid_envelope"
  end.

Record PeerRpcHttpState := { manifest : DistributedCoreManifest; validator : PeerRpcValidator }.

Section Host.
Context {A S W : Type} `{!PeerRpcAuthenticator A} `{!PeerNonceStore S} `{!PeerRpcDispatcher W} `{!PeerJson}.
Context (sha256 : list byte → list byte) (gzip : string → result string string) (gunzip : string → string * option string).
Context (st : PeerRpcHttpState).

Definition json_reply (status : N) (body : string) : PeerReply := {| reply_status := status; reply_gzip := false; reply_body := body |}.
Definition peer_error_response (request_id : string) (e : PeerRpcError.t) : PeerReply :=
  json_reply (peer_error_status e) (peer_response_to_vec (rpc_response_rejected request_id (peer_error_code e))).
Definition peer_json_response (status : N) (body : string) (allow_gzip : bool) : PeerReply :=
  if allow_gzip then
    match gzip_if_beneficial gzip body with
    | Ok (Some compressed) => {| reply_status := status; reply_gzip := true; reply_body := compressed |}
    | _ => json_reply status body
    end
  else json_reply status body.

Definition peer_health_handler (headers : HeaderMap) (now_ms : N) (a : A) : PeerReply * A :=
  match authenticate (bearer_token headers) None now_ms a with
  | (Ok _, a) =>
    let i := Distributed.identity (manifest st) in
    (json_reply 200 (health_to_vec {| health_ok := true; health_core_id := Types.core_id i; health_tenant_id := Types.tenant_id i;
                                      health_cluster_id := Types.cluster_id i |}), a)
  | (Err e, a) => (peer_error_response "health" e, a)
  end.
Definition peer_manifest_handler (headers : HeaderMap) (now_ms : N) (a : A) : PeerReply * A :=
  match authenticate (bearer_token headers) None now_ms a with
  | (Ok _, a) => (json_reply 200 (manifest_to_vec (advertisement_from_manifest (manifest st))), a)
  | (Err e, a) => (peer_error_response "manifest" e, a)
  end.
Definition decode_peer_envelope (headers : HeaderMap) (body : string) : result PeerRpcError.t PeerRpcEnvelope :=
  let max := max_envelope_bytes (PeerValidation.config (validator st)) in
  decoded ← match first_header headers "content-encoding" with
            | None => if max <? str_len body then Err PeerRpcError.PayloadTooLarge else Ok body
            | Some value =>
              if bool_decide (to_ascii_lowercase (String.string_of_list_byte value) = "gzip"%string)
              then gzip_decode_limited gunzip body max
              else Err (PeerRpcError.InvalidEnvelope "unsupported_content_encoding")
            end;
  map_err PeerRpcError.InvalidEnvelope (peer_envelope_from_slice decoded).
(** The checks of [handle_peer_envelope] before the dispatch. *)
Definition admit_peer_envelope (env : nonce_env (S := S)) (headers : HeaderMap) (e : PeerRpcEnvelope) (now_ms : N) :
    op (A * S) PeerRpcError.t () := λ '(a, s),
  match authenticate (bearer_token headers) (Some (envelope_signing_hash sha256 e)) now_ms a with
  | (Err error, a) => (Err error, (a, s))
  | (Ok _, a) => let '(r, s) := PeerValidation.validate sha256 (validator st) env e now_ms s in (r, (a, s))
  end.
Definition handle_peer_envelope (env : nonce_env (S := S)) (headers : HeaderMap) (e : PeerRpcEnvelope) (kind : PeerRpcKind) (now_ms : N)
    (x : A * S * W) : PeerReply * (A * S * W) :=
  let '(a, s, w) := x in
  match admit_peer_envelope env headers e now_ms (a, s) with
  | (Err error, (a, s)) => (peer_error_response (request_id e) error, (a, s, w))
  | (Ok _, (a, s)) =>
    let '(answer, w) := dispatch_peer kind e w in
    (match default (Err (PeerRpcError.Transport "peer dispatcher panicked")) answer with
     | Ok response => peer_json_response 200 (peer_response_to_vec response) (accepts_gzip headers)
     | Err error => peer_error_response (request_id e) error
     end, (a, s, w))
  end.
(** [peer_query_handler] and [peer_command_handler]. *)
Definition peer_envelope_handler (kind : PeerRpcKind) (env : nonce_env (S := S)) (headers : HeaderMap) (body : string) (now_ms : N)
    (x : A * S * W) : PeerReply * (A * S * W) :=
  match decode_peer_envelope headers body with
  | Err error => (peer_error_response "invalid" error, x)
  | Ok e => handle_peer_envelope env headers e kind now_ms x
  end.
End Host.

(** ** The calls that a host serves *)

Record PeerCall (E : Type) := { call_kind : PeerRpcKind; call_env : E; call_headers : HeaderMap; call_body : string; call_at : N }.
Arguments call_kind {E}.
Arguments call_env {E}.
Arguments call_headers {E}.
Arguments call_body {E}.
Arguments call_at {E}.

Section Calls.
Context {A S W : Type} `{!PeerRpcAuthenticator A} `{!PeerNonceStore S} `{!PeerNonceStoreLaws S} `{!PeerRpcDispatcher W} `{!PeerJson}.
Context (sha256 : list byte → list byte) (gzip : string → result string string) (gunzip : string → string * option string).
Context (st : PeerRpcHttpState).
Abbreviation admission := (admit_peer_envelope sha256 st).

Definition serve_call (c : PeerCall (nonce_env (S := S))) (x : A * S * W) : PeerReply * (A * S * W) :=
  peer_envelope_handler sha256 gzip gunzip st (call_kind c) (call_env c) (call_headers c) (call_body c) (call_at c) x.
Definition serve_calls (l : list (PeerCall (nonce_env (S := S)))) (x : A * S * W) : A * S * W := foldl (λ x c, (serve_call c x).2) x l.
(** The envelope that a call hands to the application. *)
Definition dispatched (c : PeerCall (nonce_env (S := S))) (x : A * S * W) : option PeerRpcEnvelope :=
  match decode_peer_envelope gunzip st (call_headers c) (call_body c) with
  | Ok e => match (admission (call_env c) (call_headers c) e (call_at c) x.1).1 with Ok _ => Some e | Err _ => None end
  | Err _ => None
  end.

Lemma peer_admitted_ok env headers e now x x' :
  admission env headers e now x = (Ok (), x') →
  (authenticate (bearer_token headers) (Some (envelope_signing_hash sha256 e)) now x.1).1 = Ok () ∧
  PeerValidation.validate sha256 (validator st) env e now x.2 = (Ok (), x'.2).
Proof.
  unfold admit_peer_envelope. destruct x as [a s]. cbn. destruct (authenticate _ _ _ a) as [[[]|] a']; [|done].
  destruct (PeerValidation.validate _ _ _ _ _ s) as [r s']. by intros [= -> <-].
Qed.
Lemma admit_remembers env headers e now x n t :
  remembers x.2 n t → now < t → remembers (admission env headers e now x).2.2 n t.
Proof.
  intros Hr Hlt. unfold admit_peer_envelope. destruct x as [a s]. destruct (authenticate _ _ _ a) as [[[]|] a']; [|done].
  pose proof (validate_remembers sha256 (validator st) env e now s n t Hr Hlt) as Hv.
  by destruct (PeerValidation.validate _ _ _ _ _ s) as [r s'].
Qed.
(** A call leaves the nonce store as its admission does. *)
Lemma serve_call_store c x :
  (serve_call c x).2.1.2 =
    match decode_peer_envelope gunzip st (call_headers c) (call_body c) with
    | Ok e => (admission (call_env c) (call_headers c) e (call_at c) x.1).2.2
    | Err _ => x.1.2
    end.
Proof.
  destruct x as [[a s] w]. unfold serve_call, peer_envelope_handler. destruct (decode_peer_envelope _ _ _ _) as [e|]; [|done].
  unfold handle_peer_envelope. cbn [fst]. destruct (admission _ _ _ _ _) as [[[]|err] [a' s']]; [|done].
  by destruct (dispatch_peer _ _ w) as [answer w'].
Qed.
Lemma serve_calls_remembers l x n t :
  remembers x.1.2 n t → (∀ c, c ∈ l → call_at c < t) → remembers (serve_calls l x).1.2 n t.
Proof.
  unfold serve_calls. revert x. induction l as [|c l IH]; intros x Hr Hl; [done|]. cbn [foldl]. apply IH; [|intros; apply Hl; set_solver].
  rewrite serve_call_store. destruct (decode_peer_envelope _ _ _ _) as [e|]; [|done].
  apply admit_remembers; [done|]. apply Hl. set_solver.
Qed.
Lemma dispatched_admitted c x e :
  dispatched c x = Some e →
  (authenticate (bearer_token (call_headers c)) (Some (envelope_signing_hash sha256 e)) (call_at c) x.1.1).1 = Ok () ∧
  admissible sha256 (validator st) e (call_at c) ∧
  remembers (serve_call c x).2.1.2 (nonce e) (retention x.1.2 (nonce_expires_at_ms (validator st) e (call_at c)) (call_at c)) ∧
  (PeerValidation.validate sha256 (validator st) (call_env c) e (call_at c) x.1.2).1 = Ok ().
Proof.
  unfold dispatched. pose proof (serve_call_store c x) as Hs. destruct (decode_peer_envelope _ _ _ _) as [e'|]; [|done].
  destruct (admission _ _ _ _ _) as [[[]|] x'] eqn:Ha; [|done]. intros [= ->]. apply peer_admitted_ok in Ha as [Hauth Hv].
  pose proof (validate_accepted _ _ _ _ _ _ _ Hv) as [Hadm Hr]. rewrite Hs, Hv. done.
Qed.

(** An envelope that is dispatched was authenticated for its own signing hash
    and is admissible; and its nonce is good for one dispatch, whatever is served
    in between, until the store forgets it. *)
Theorem dispatched_once c1 c2 l x e1 e2 :
  dispatched c1 x = Some e1 → dispatched c2 (serve_calls l (serve_call c1 x).2) = Some e2 → nonce e2 = nonce e1 →
  (∀ c, c ∈ l → call_at c ≤ call_at c2) →
  retention x.1.2 (nonce_expires_at_ms (validator st) e1 (call_at c1)) (call_at c1) ≤ call_at c2.
Proof.
  intros (_ & _ & Hr & _)%dispatched_admitted (_ & _ & _ & Hv)%dispatched_admitted Hn Hl.
  destruct (N.le_gt_cases (retention x.1.2 (nonce_expires_at_ms (validator st) e1 (call_at c1)) (call_at c1)) (call_at c2)) as [|Hlt]; [done|].
  exfalso. eapply (remembered_nonce_refused sha256); [rewrite Hn|exact Hlt|exact Hv].
  apply serve_calls_remembers; [exact Hr|]. intros c Hc. specialize (Hl c Hc). lia.
Qed.
End Calls.

(** ** Signed requests *)

Section Signed.
Context {P S W : Type} `{TokenProvider P} `{ClaimsJson} `{!ClaimsJsonLaws}.
Context `{!PeerNonceStore S} `{!PeerNonceStoreLaws S} `{!PeerRpcDispatcher W} `{!PeerJson}.
Context (sha256 : list byte → list byte) (gzip : string → result string string) (gunzip : string → string * option string).
Context (st : PeerRpcHttpState) (claims : TokenClaims).
#[local] Instance host_authenticator : PeerRpcAuthenticator P := HashTokenPeerAuthenticator claims.
Abbreviation dispatched := (dispatched (A := P) (S := S) (W := W) sha256 gunzip st).
Abbreviation serve_call := (serve_call (A := P) (S := S) (W := W) sha256 gzip gunzip st).
Abbreviation serve_calls := (serve_calls (A := P) (S := S) (W := W) sha256 gzip gunzip st).

Lemma accepted_for_hash token e0 rid issued ttl (p0 p1 p : P) now hash :
  hash_token_issue claims rid (Some e0) issued ttl p0 = (Ok token, p1) →
  (hash_token_authenticate claims (Some ("Bearer " +:+ token)) (Some hash) now p).1 = Ok () → hash = e0.
Proof.
  unfold hash_token_issue, hash_token_authenticate, op_map_err. intros Hi Ha.
  destruct (create_v1_with_jti_and_hash _ _ _ _ _ _ _ _ _ p0) as [[tok|] p1'] eqn:Hc; [|done]. cbn in Hi. injection Hi as -> ->.
  apply create_v1_issues in Hc as [_ (signature & _ & ->)].
  cbn [ok_or] in Ha. rewrite op_lift_ok in Ha. unfold bare_token in Ha. rewrite strip_prefix_app in Ha.
  unfold mbind, op_bind in Ha.
  destruct (validate_and_get_claims _ _ "peer" None now (Some hash) p) as [[c|] p'] eqn:Hv; [|done].
  pose proof (f_equal fst Hv) as Hacc. cbn [fst] in Hacc. apply token_accepted_iff in Hacc as (payload & sg & Hp & _ & Hd & Hc).
  apply parse_token_text_payload in Hp as ->; [|apply claims_not_empty]. rewrite claims_roundtrip in Hd. injection Hd as <-.
  destruct (acc_hash _ _ _ _ _ Hc) as [Hn|Hh]; cbn in *; congruence.
Qed.
Definition collision : Prop := ∃ x y, x ≠ y ∧ sha256 x = sha256 y.
(** Equal signing hashes and honest body hashes: equal envelopes. *)
Lemma signing_hash_determines e e0 :
  PeerValidation.representable e → PeerValidation.representable e0 → envelope_signing_hash sha256 e = envelope_signing_hash sha256 e0 →
  body_hash e = payload_hash sha256 (payload e) → body_hash e0 = payload_hash sha256 (payload e0) → e = e0 ∨ collision.
Proof.
  intros Hr Hr0 Hh%hex_encode_inj Hb Hb0.
  destruct (decide (signing_preimage e = signing_preimage e0)) as [Hpre|Hpre]; [|right; by exists (signing_preimage e), (signing_preimage e0)].
  pose proof (signing_preimage_inj _ _ Hr Hr0 Hpre) as Hw.
  assert (body_hash e = body_hash e0) as Hbody by exact (f_equal body_hash Hw).
  rewrite Hb, Hb0 in Hbody. apply hex_encode_inj in Hbody.
  destruct (decide (payload e = payload e0)) as [Hp|Hp]; [|right; by exists (payload e), (payload e0)].
  left. clear - Hw Hp. destruct e, e0. injection Hw. cbn in Hp. intros. by subst.
Qed.
(** A call that brings the credential in its header. *)
Definition brings (token : string) (c : PeerCall (nonce_env (S := S))) : Prop := bearer_token (call_headers c) = Some ("Bearer " +:+ token).

End Signed.
