(* ===== verification/PeerRpcClient.v ===== *)
(** The client side of peer RPC ([crates/appcore-peer-rpc/src]): envelopes with
    fresh nonces, credentials bound to them, attempts and waits ([client.rs]),
    and the transport over [appcore-transport] ([transport.rs]).

    A client works on the state of the token issuer, of the transport and on the
    process-wide counter of nonces; the readings of the clock and of the
    cancellation flag are arguments. *)

From S2P Require Import Prelude.
From S2P Require Import Text.
From S2P Require Import Types.
From S2P Require Import Redaction.
From S2P Require Import Records.
From S2P Require Import Encoding.
From S2P Require Import Distributed.
From S2P Require Import NonceStore.
From S2P Require Import PeerValidation.
From S2P Require Import Capabilities.
From S2P Require Import Tokens.
From S2P Require Import GatewayMesh.
From S2P Require Import HttpText.
From S2P Require Import HttpTransport.
From S2P Require Import HttpCommand.
From S2P Require Import PeerRpcHost.
From S2P Require Import DemoText.
From S2P Require Import Files.
From S2P Require Import Keyring.
From S2P Require Import HashToken.

Local Open Scope N_scope.

Definition MAX_HTTP_HEADER_BYTES : N := 32768.

(** ** [client.rs] *)

Record PeerRpcRetryPolicy := { max_attempts : N; initial_backoff_ms : N; max_backoff_ms : N }.
Definition retry_policy_default : PeerRpcRetryPolicy := {| max_attempts := 2; initial_backoff_ms := 50; max_backoff_ms := 500 |}.
Record PeerRpcClientConfig := {
  request_timeout_ms : N; envelope_ttl_ms : N; client_max_response_bytes : N; retry_policy : PeerRpcRetryPolicy;
}.
Definition peer_client_config_default : PeerRpcClientConfig :=
  {| request_timeout_ms := 5000; envelope_ttl_ms := 60000; client_max_response_bytes := 1048576; retry_policy := retry_policy_default |}.

(** [PeerTransportProvider::send_cancellable]; the cancellation flag is part of the state. *)
Class PeerTransportProvider (T : Type) := send_cancellable : string → PeerRpcHttpRequest → op T PeerRpcError.t PeerRpcHttpResponse.

(** What an attempt reads: whether the client is cancelled before it, the clock
    for the envelope and for the token, and whether the client is cancelled
    during a wait. *)
Record AttemptIo := { is_cancelled : bool; built_at : N; token_at : N; cancelled_in_wait : N → bool }.

Definition http_status_error (status_code : N) : PeerRpcError.t :=
  if status_code =? 401 then PeerRpcError.Unauthorized
  else if status_code =? 403 then PeerRpcError.Forbidden
  else if status_code =? 409 then PeerRpcError.ProtocolMismatch
  else if status_code =? 413 then PeerRpcError.PayloadTooLarge
  else if (status_code =? 408) || (status_code =? 429) || ((500 <=? status_code) && (status_code <=? 599))
  then PeerRpcError.EndpointUnavailable
  else PeerRpcError.InvalidResponse ("http_status=" +:+ show_u64 status_code).
Definition is_success (status_code : N) : bool := (200 <=? status_code) && (status_code <? 300).
Definition peer_error_is_retryable (e : PeerRpcError.t) : bool :=
  match e with PeerRpcError.EndpointUnavailable | PeerRpcError.Transport _ => true | _ => false end.
Definition outbound_nonce (request_id : string) (now_ms pid counter : N) : string :=
  request_id +:+ "-" +:+ show_u64 now_ms +:+ "-" +:+ show_u64 pid +:+ "-" +:+ show_u64 counter.
(** [fetch_add] on the counter of the process. *)
Definition next_outbound_nonce (request_id : string) (now_ms pid : N) : op N PeerRpcError.t string := λ counter,
  (Ok (outbound_nonce request_id now_ms pid counter), (counter + 1) mod 2 ^ 64).
Definition call_path (k : PeerRpcCallKind) : string := match k with QueryCall => PEER_QUERY_PATH | CommandCall => PEER_COMMAND_PATH end.

Record PeerRpcClient := { source_identity : CoreIdentity; client_config : PeerRpcClientConfig; process_id : N }.

Section Client.
Context {I T : Type} `{!PeerRpcTokenIssuer I} `{!PeerTransportProvider T} {J : PeerJson}.
Context (sha256 : list byte → list byte) (self : PeerRpcClient).
Abbreviation State := (I * T * N)%type.

Definition on_issuer {X} (o : op I PeerRpcError.t X) : op State PeerRpcError.t X := λ '(i, t, n), let '(r, i) := o i in (r, (i, t, n)).
Definition on_transport {X} (o : op T PeerRpcError.t X) : op State PeerRpcError.t X := λ '(i, t, n), let '(r, t) := o t in (r, (i, t, n)).
Definition on_counter {X} (o : op N PeerRpcError.t X) : op State PeerRpcError.t X := λ '(i, t, n), let '(r, n) := o n in (r, (i, t, n)).

(** [PeerRpcEnvelope::new], with the version of the source. *)
Definition envelope_of (r : PeerRpcOutboundRequest) (now_ms : N) (nonce : string) : PeerRpcEnvelope :=
  let i := source_identity self in
  {| PeerValidation.request_id := outbound_request_id r; env_trace_id := default (outbound_request_id r) (trace_id <$> outbound_trace r);
     env_protocol_version := Types.protocol_version i; source_core_id := Types.core_id i;
     PeerValidation.target_core_id := Capabilities.target_core_id r; env_tenant_id := Types.tenant_id i;
     env_cluster_id := Types.cluster_id i; PeerValidation.timestamp_ms := now_ms;
     PeerValidation.expires_at_ms := sat_add64 now_ms (N.max (envelope_ttl_ms (client_config self)) 1); PeerValidation.nonce := nonce;
     PeerValidation.capability := outbound_capability r; PeerValidation.payload := outbound_payload r;
     PeerValidation.idempotency_key := outbound_idempotency_key r; body_hash := payload_hash sha256 (outbound_payload r);
     env_trace := outbound_trace r |}.
Definition build_envelope (r : PeerRpcOutboundRequest) (now_ms : N) : op State PeerRpcError.t PeerRpcEnvelope :=
  nonce ← on_counter (next_outbound_nonce (outbound_request_id r) now_ms (process_id self));
  mret (envelope_of r now_ms nonce).
Definition http_request (method path : string) (body : list byte) (token : string) : PeerRpcHttpRequest :=
  {| http_method := method; http_path := path; http_body := body; http_bearer_token := Some token;
     http_timeout_ms := request_timeout_ms (client_config self);
     http_max_response_bytes := client_max_response_bytes (client_config self) |}.
Definition call_peer_once (endpoint_url : string) (kind : PeerRpcCallKind) (io : AttemptIo) (r : PeerRpcOutboundRequest) :
    op State PeerRpcError.t PeerRpcResponse :=
  envelope ← build_envelope r (built_at io);
  token ← on_issuer (issue_peer_token (PeerValidation.request_id envelope) (Some (envelope_signing_hash sha256 envelope)) (token_at io)
                       (envelope_ttl_ms (client_config self)));
  response ← on_transport (send_cancellable endpoint_url
                (http_request "POST" (call_path kind) (str_bytes (peer_envelope_to_vec envelope)) token));
  if negb (is_success (http_status_code response)) then op_fail (http_status_error (http_status_code response))
  else
    response ← op_lift (map_err PeerRpcError.InvalidResponse
                  (peer_response_from_slice (String.string_of_list_byte (http_response_body response))));
    if negb (bool_decide (rpc_request_id response = outbound_request_id r))
    then op_fail (PeerRpcError.InvalidResponse "peer response request_id mismatch")
    else mret response.

Definition next_backoff (backoff_ms : N) : N :=
  N.min (sat_mul u64_max backoff_ms 2) (max_backoff_ms (retry_policy (client_config self))).
(** [attempts] attempts are left; [attempt] counts those made. *)
Fixpoint call_attempts (endpoint_url : string) (kind : PeerRpcCallKind) (r : PeerRpcOutboundRequest) (io : nat → AttemptIo)
    (attempts attempt : nat) (backoff_ms : N) (last_error : PeerRpcError.t) : op State PeerRpcError.t PeerRpcResponse := λ s,
  match attempts with
  | O => (Err last_error, s)
  | S attempts =>
    if is_cancelled (io attempt) then (Err PeerRpcError.EndpointUnavailable, s)
    else match call_peer_once endpoint_url kind (io attempt) r s with
         | (Ok response, s) => (Ok response, s)
         | (Err e, s) =>
           if negb (peer_error_is_retryable e) then (Err e, s)
           else match attempts with
                | O => (Err e, s)
                | S _ =>
                  if cancelled_in_wait (io attempt) backoff_ms then (Err PeerRpcError.EndpointUnavailable, s)
                  else call_attempts endpoint_url kind r io attempts (S attempt) (next_backoff backoff_ms) e s
                end
         end
  end.
Definition attempts_of (kind : PeerRpcCallKind) (r : PeerRpcOutboundRequest) : N :=
  match kind, outbound_idempotency_key r with
  | CommandCall, None => 1
  | _, _ => N.max (max_attempts (retry_policy (client_config self))) 1
  end.
Definition call_peer (endpoint_url : string) (kind : PeerRpcCallKind) (r : PeerRpcOutboundRequest) (io : nat → AttemptIo) :
    op State PeerRpcError.t PeerRpcResponse :=
  call_attempts endpoint_url kind r io (N.to_nat (attempts_of kind r)) 0 (initial_backoff_ms (retry_policy (client_config self)))
    PeerRpcError.EndpointUnavailable.
(** [query] and [command]. *)
Definition peer_query (endpoint_url : string) := call_peer endpoint_url QueryCall.
Definition peer_command (endpoint_url : string) := call_peer endpoint_url CommandCall.

(** The loop of the diagnostics, which repeats after every failure. *)
Fixpoint send_attempts (endpoint_url : string) (q : PeerRpcHttpRequest) (io : nat → AttemptIo) (attempts attempt : nat) (backoff_ms : N)
    (last_error : PeerRpcError.t) : op State PeerRpcError.t PeerRpcHttpResponse := λ s,
  match attempts with
  | O => (Err last_error, s)
  | S attempts =>
    let '(x, s) := on_transport (send_cancellable endpoint_url q) s in
    let again e :=
      match attempts with
      | O => (Err e, s)
      | S _ =>
        if cancelled_in_wait (io attempt) backoff_ms then (Err PeerRpcError.EndpointUnavailable, s)
        else send_attempts endpoint_url q io attempts (S attempt) (next_backoff backoff_ms) e s
      end in
    match x with
    | Ok response => if is_success (http_status_code response) then (Ok response, s) else again (http_status_error (http_status_code response))
    | Err e => again e
    end
  end.
Definition send_with_retry (endpoint_url : string) (q : PeerRpcHttpRequest) (io : nat → AttemptIo) : op State PeerRpcError.t PeerRpcHttpResponse :=
  send_attempts endpoint_url q io (N.to_nat (N.max (max_attempts (retry_policy (client_config self))) 1)) 0
    (initial_backoff_ms (retry_policy (client_config self))) PeerRpcError.EndpointUnavailable.
(** A diagnostic request: its id names what it reads, the process and the time. *)
Definition diagnostic {X} (what path : string) (parse : string → result string X) (endpoint_url : string) (id_at token_at : N)
    (io : nat → AttemptIo) : op State PeerRpcError.t X :=
  token ← on_issuer (issue_peer_token (what +:+ "-" +:+ show_u64 (process_id self) +:+ "-" +:+ show_u64 id_at) None token_at
                       (envelope_ttl_ms (client_config self)));
  response ← send_with_retry endpoint_url (http_request "GET" path [] token) io;
  op_lift (map_err PeerRpcError.InvalidResponse (parse (String.string_of_list_byte (http_response_body response)))).
Definition peer_health := diagnostic "health" PEER_HEALTH_PATH health_from_slice.
Definition peer_advertisement := diagnostic "manifest" PEER_MANIFEST_PATH manifest_from_slice.
End Client.

(** ** [transport.rs] *)

Section StdTransport.
Context (gzip : string → result string string) (gunzip : string → string * option string).

Definition validate_peer_http_request (q : PeerRpcHttpRequest) : result PeerRpcError.t () :=
  if negb (valid_method (http_method q)) then Err (PeerRpcError.Transport "invalid HTTP method")
  else match http_bearer_token q with
       | Some token =>
         if bool_decide (token = EmptyString) || any_control token then Err (PeerRpcError.Transport "invalid bearer credential") else Ok ()
       | None => Ok ()
       end.
Definition compress_request_body (body : string) : result PeerRpcError.t (string * bool) :=
  if str_len body <? COMPRESSION_THRESHOLD_BYTES then Ok (body, false)
  else
    compressed ← map_err map_transport_error (encode_gzip_if_smaller gzip body);
    Ok (match compressed with Some compressed => (compressed, true) | None => (body, false) end).
Definition build_request (q : PeerRpcHttpRequest) (body : string) (compressed : bool) : result PeerRpcError.t HttpRequest :=
  map_err map_transport_error
    (request ← request_new (http_method q) body;
     content_type ← header_new "Content-Type" "application/json";
     accept ← header_new "Accept" "application/json";
     accept_encoding ← header_new "Accept-Encoding" "gzip";
     let request := with_header accept_encoding (with_header accept (with_header content_type request)) in
     request ← (if compressed then encoding ← header_new "Content-Encoding" "gzip"; Ok (with_header encoding request) else Ok request);
     match http_bearer_token q with
     | Some token => credential ← header_sensitive "Authorization" ("Bearer " +:+ token); Ok (with_header credential request)
     | None => Ok request
     end).
Definition transport_config (q : PeerRpcHttpRequest) : HttpClientConfig :=
  {| timeout_ms := N.max (http_timeout_ms q) 1;
     max_request_bytes := sat_add64 (lenN (http_body q)) MAX_ENVELOPE_OVERHEAD_BYTES;
     max_response_bytes := http_max_response_bytes q; max_header_bytes := MAX_HTTP_HEADER_BYTES |}.
(** The answer, with the bytes that were sent. *)
Definition send_request (cancelled : bool) (connect : HttpTarget → N → TransportResult Connection) (base_url : string)
    (q : PeerRpcHttpRequest) : result PeerRpcError.t PeerRpcHttpResponse * string :=
  let prepared :=
    _ ← validate_peer_http_request q;
    target ← map_err map_transport_error (target_parse base_url (http_path q));
    '(body, compressed) ← compress_request_body (String.string_of_list_byte (http_body q));
    request ← build_request q body compressed;
    Ok (target, request) in
  match prepared with
  | Err e => (Err e, EmptyString)
  | Ok (target, request) =>
    let '(answer, sent) := send gunzip cancelled connect target request (transport_config q) in
    (response ← map_err map_transport_error answer;
     Ok {| http_status_code := response_status response; http_response_body := str_bytes (response_body response) |}, sent)
  end.
End StdTransport.

(** ** Attempts *)

(** A transport that keeps what it was given. *)
#[export] Instance logged {T} `{!PeerTransportProvider T} : PeerTransportProvider (T * list PeerRpcHttpRequest) := λ url q '(t, log),
  let '(r, t) := send_cancellable url q t in (r, (t, log ++ [q])).

Lemma str_free_suffix c (s t x y : string) :
  str_free c x → str_free c y → s +:+ String c x = t +:+ String c y → x = y.
Proof.
  assert (∀ (u x y : string), str_free c y → String c y = u +:+ String c x → x = y) as Hone.
  { intros [|a u] x' y' Hy; rewrite ?string_app_nil, ?string_app_cons; [by intros [= ->]|]. intros [= _ ->].
    apply str_free_app in Hy as [_ [? _]]. done. }
  intros Hx Hy [(p & -> & He)|(p & _ & -> & He)]%string_app_cases; [by eapply Hone|]. symmetry. by eapply Hone.
Qed.
Lemma digits_no_dash n : str_free "-" (show_u64 n).
Proof. apply str_digits_free; [apply show_u64_digits|left; by vm_compute]. Qed.
Lemma show_u64_inj n m : n ≤ u64_max → m ≤ u64_max → show_u64 n = show_u64 m → n = m.
Proof. intros Hn Hm H. pose proof (parse_show_u64 n Hn) as Hp. rewrite H, parse_show_u64 in Hp by done. congruence. Qed.
(** Different readings of the counter give different nonces. *)
Lemma outbound_nonce_inj rid now pid n rid' now' pid' m :
  n ≤ u64_max → m ≤ u64_max → outbound_nonce rid now pid n = outbound_nonce rid' now' pid' m → n = m.
Proof.
  intros Hn Hm H. apply show_u64_inj; [done..|]. unfold outbound_nonce in H.
  eapply (str_free_suffix "-" (rid +:+ "-" +:+ show_u64 now +:+ "-" +:+ show_u64 pid) (rid' +:+ "-" +:+ show_u64 now' +:+ "-" +:+ show_u64 pid'));
    [apply digits_no_dash..|]. by rewrite !string_app_assoc.
Qed.

Section Attempts.
Context {I T : Type} `{!PeerRpcTokenIssuer I} `{!PeerTransportProvider T} {J : PeerJson}.
Context (sha256 : list byte → list byte) (self : PeerRpcClient).
Abbreviation LoggedState := (I * (T * list PeerRpcHttpRequest) * N)%type.

(** The request [q] carries the envelope [e] for the call [r]. *)
Record carries (kind : PeerRpcCallKind) (r : PeerRpcOutboundRequest) (q : PeerRpcHttpRequest) (e : PeerRpcEnvelope) : Prop := {
  carries_body : http_body q = str_bytes (peer_envelope_to_vec e);
  carries_path : http_path q = call_path kind;
  carries_call : ∃ now nonce, e = envelope_of sha256 self r now nonce;
}.
(** What an attempt adds to the log, with the reading of the counter. *)
Lemma one_attempt url kind io r (s s' : LoggedState) x :
  call_peer_once sha256 self url kind io r s = (x, s') →
  let nonce := outbound_nonce (outbound_request_id r) (built_at io) (process_id self) s.2 in
  s'.2 = (s.2 + 1) mod 2 ^ 64 ∧
  (s'.1.2.2 = s.1.2.2 ∨ ∃ q, s'.1.2.2 = s.1.2.2 ++ [q] ∧ carries kind r q (envelope_of sha256 self r (built_at io) nonce)) ∧
  (∀ response, x = Ok response → rpc_request_id response = outbound_request_id r).
Proof.
  destruct s as [[i [t log]] n]. intros H nonce. unfold call_peer_once, build_envelope, on_counter, on_issuer, on_transport, next_outbound_nonce in H.
  unfold mbind, op_bind, mret, op_ret in H. cbn [fst snd] in *. fold nonce in H.
  set (e := envelope_of sha256 self r (built_at io) nonce) in *.
  destruct (issue_peer_token _ _ _ _ i) as [[token|err] i']; [|injection H as <- <-; cbn; by split_and!; auto].
  unfold send_cancellable at 1, logged in H. destruct (send_cancellable _ _ t) as [[response|err] t']; cbn in H.
  - assert (∃ q, log ++ [http_request self "POST" (call_path kind) (str_bytes (peer_envelope_to_vec e)) token] = log ++ [q] ∧ carries kind r q e) as Hq.
    { eexists. split; [done|]. split; [done..|]. by exists (built_at io), nonce. }
    destruct (negb (is_success _)); [injection H as <- <-; cbn; by split_and!; auto|].
    destruct (map_err _ _) as [answer|]; cbn in H; [|injection H as <- <-; cbn; by split_and!; auto].
    case_bool_decide as Hid; cbn in H; injection H as <- <-; cbn; [|by split_and!; auto]. split_and!; [done|by auto|]. by intros ? [= <-].
  - injection H as <- <-. cbn. split_and!; [done| |done]. right. eexists. split; [done|]. split; [done..|]. by exists (built_at io), nonce.
Qed.

(** The nonce of [e] was drawn with the counter at [c]. *)
Definition drawn (r : PeerRpcOutboundRequest) (c : N) (e : PeerRpcEnvelope) : Prop :=
  c ≤ u64_max ∧ ∃ now, PeerValidation.nonce e = outbound_nonce (outbound_request_id r) now (process_id self) c.
(** The requests that were sent, with their envelopes: at most [n], each for the
    call, with nonces drawn from the counter at [c] on, all different. *)
Record sent_for (kind : PeerRpcCallKind) (r : PeerRpcOutboundRequest) (n : nat) (c : N) (sent : list (PeerRpcHttpRequest * PeerRpcEnvelope)) : Prop := {
  sent_count : (length sent ≤ n)%nat;
  sent_carry qe : qe ∈ sent → carries kind r qe.1 qe.2;
  sent_drawn qe : qe ∈ sent → ∃ c', c ≤ c' ∧ drawn r c' qe.2;
  sent_fresh : NoDup (map (λ qe, PeerValidation.nonce qe.2) sent);
}.
Lemma sent_none kind r n c : sent_for kind r n c [].
Proof. split; [cbn; lia|by intros ? ?%elem_of_nil..|apply NoDup_nil_2]. Qed.
Lemma sent_more kind r n n' c c' sent : (n ≤ n')%nat → c' ≤ c → sent_for kind r n c sent → sent_for kind r n' c' sent.
Proof.
  intros Hn Hc [H1 H2 H3 H4]. split; [lia|done| |done]. intros qe (c2 & ? & ?)%H3. exists c2. split; [lia|done].
Qed.
Lemma sent_cons kind r n c q e sent :
  carries kind r q e → drawn r c e → sent_for kind r n (c + 1) sent → sent_for kind r (S n) c ((q, e) :: sent).
Proof.
  intros Hq [Hc (now & Hd)] [H1 H2 H3 H4]. split; [cbn; lia| | |].
  - intros qe [->|?]%elem_of_cons; [done|by apply H2].
  - intros qe [->|Hqe]%elem_of_cons; [exists c; split; [lia|by split; [|exists now]]|].
    destruct (H3 _ Hqe) as (c2 & ? & ?). exists c2. split; [lia|done].
  - cbn [map]. apply NoDup_cons. split; [|done]. intros (qe & Hn & Hqe)%list_elem_of_fmap. cbn in Hn.
    destruct (H3 _ Hqe) as (c2 & ? & ? & now2 & Hd2). rewrite Hd, Hd2 in Hn. apply outbound_nonce_inj in Hn; lia.
Qed.
Lemma attempts_log url kind r io n k backoff last (s s' : LoggedState) x :
  call_attempts sha256 self url kind r io n k backoff last s = (x, s') → s.2 + N.of_nat n ≤ 2 ^ 64 →
  (∃ sent, s'.1.2.2 = s.1.2.2 ++ sent.*1 ∧ sent_for kind r n s.2 sent) ∧
  (∀ response, x = Ok response → rpc_request_id response = outbound_request_id r).
Proof.
  revert k backoff last s. induction n as [|n IH]; intros k backoff last s; cbn [call_attempts]; intros H Hc.
  - injection H as <- <-. split; [|done]. exists []. rewrite app_nil_r. split; [done|apply sent_none].
  - destruct (is_cancelled (io k)).
    { injection H as <- <-. split; [|done]. exists []. rewrite app_nil_r. split; [done|apply sent_none]. }
    destruct (call_peer_once sha256 self url kind (io k) r s) as [y s1] eqn:Hone.
    apply one_attempt in Hone as (Hn & Hlog & Hid).
    set (nonce := outbound_nonce (outbound_request_id r) (built_at (io k)) (process_id self) s.2) in *.
    set (e := envelope_of sha256 self r (built_at (io k)) nonce) in *.
    (* what one attempt and the attempts after it have sent *)
    assert (Hboth : ∀ rest, sent_for kind r n (s.2 + 1) rest →
      ∃ sent, s1.1.2.2 ++ rest.*1 = s.1.2.2 ++ sent.*1 ∧ sent_for kind r (S n) s.2 sent).
    { intros rest Hrest. destruct Hlog as [->|(q & -> & Hq)].
      - exists rest. split; [done|]. by eapply sent_more; [| |exact Hrest]; lia.
      - exists ((q, e) :: rest). split; [by rewrite <- app_assoc|]. apply sent_cons; [done| |done].
        split; [unfold u64_max in *; lia|]. by exists (built_at (io k)). }
    assert (Hstop : ∃ sent, s1.1.2.2 = s.1.2.2 ++ sent.*1 ∧ sent_for kind r (S n) s.2 sent).
    { destruct (Hboth [] (sent_none _ _ _ _)) as (sent & Hs & ?). rewrite app_nil_r in Hs. by exists sent. }
    destruct y as [answer|err]; [injection H as <- <-; split; [done|by intros ? [= <-]; apply Hid]|].
    destruct (negb _); [by injection H as <- <-|]. destruct n as [|n]; [by injection H as <- <-|].
    destruct (cancelled_in_wait _ _); [by injection H as <- <-|].
    rewrite N.mod_small in Hn by lia. apply IH in H as [(rest & Hs' & Hrest) Hx]; [|lia]. split; [|done].
    rewrite Hn in Hrest. destruct (Hboth rest Hrest) as (sent & Hs & Hsent). exists sent. by rewrite Hs', Hs.
Qed.

(** C3: what a client sends for a call. Whatever the network and the issuer do:
    a call sends at most its configured number of requests, and a command
    without an idempotency key is sent once at most, also when the answer is
    lost; every request that is sent carries this call - its id, target,
    capability, payload and key - for its route, under a nonce of its own; and
    an answer that is returned is an answer to this id. *)
Theorem calls_are_sent_within_their_attempts url kind r io (s : LoggedState) :
  s.2 + attempts_of self kind r ≤ 2 ^ 64 →
  match call_peer sha256 self url kind r io s with
  | (x, s') =>
    (∃ sent, s'.1.2.2 = s.1.2.2 ++ sent.*1 ∧
       N.of_nat (length sent) ≤ N.max (max_attempts (retry_policy (client_config self))) 1 ∧
       (kind = CommandCall → outbound_idempotency_key r = None → (length sent ≤ 1)%nat) ∧
       (∀ q e, (q, e) ∈ sent → carries kind r q e) ∧ NoDup (map (λ qe, PeerValidation.nonce qe.2) sent)) ∧
    (∀ response, x = Ok response → rpc_request_id response = outbound_request_id r)
  end.
Proof.
  intros Hc. destruct (call_peer _ _ _ _ _ _ s) as [x s'] eqn:H. unfold call_peer in H.
  apply attempts_log in H as [(sent & Hs & [H1 H2 H3 H4]) Hx]; [|lia]. split; [|done]. exists sent. split_and!; [done| | |by intros q e ?%H2|done].
  - unfold attempts_of in H1. destruct kind, (outbound_idempotency_key r); lia.
  - intros -> Hk. unfold attempts_of in H1. rewrite Hk in H1. lia.
Qed.
End Attempts.

(** ** A concrete client and host *)

Module PeerDemo.
#[export] Instance envelope_eq_dec : EqDecision PeerRpcEnvelope.
Proof. solve_decision. Defined.
#[export] Instance envelope_countable : Countable PeerRpcEnvelope.
Proof.
  apply (inj_countable'
    (λ e, ((PeerValidation.request_id e, env_trace_id e, env_protocol_version e, source_core_id e, PeerValidation.target_core_id e),
           (env_tenant_id e, env_cluster_id e, timestamp_ms e, PeerValidation.expires_at_ms e, PeerValidation.nonce e),
           (PeerValidation.capability e, PeerValidation.payload e, PeerValidation.idempotency_key e, body_hash e, env_trace e)))
    (λ '((a, b, c, d, e), (f, g, h, i, j), (k, l, m, n, o)), Build_PeerRpcEnvelope a b c d e f g h i j k l m n o)).
  by intros [].
Defined.
#[export] Instance peer_response_countable : Countable PeerRpcResponse.
Proof.
  apply (inj_countable' (λ r, (rpc_ok r, rpc_request_id r, rpc_payload r, rpc_error r))
    (λ '(a, b, c, d), Build_PeerRpcResponse a b c d)).
  by intros [].
Defined.
Definition as_text {A} `{Countable A} (a : A) : string := String "{" (pos_text (encode a)).
#[export] Instance json : PeerJson := {|
  peer_envelope_to_vec := as_text; peer_envelope_from_slice := of_text "envelope"%string;
  peer_response_to_vec := as_text; peer_response_from_slice := of_text "response"%string;
  health_to_vec _ := "health"%string; health_from_slice _ := Err "health"%string;
  manifest_to_vec _ := "manifest"%string; manifest_from_slice _ := Err "manifest"%string;
|}.
#[export] Instance json_laws : PeerJsonLaws.
Proof. by split; intros; apply of_to_text. Qed.
(** A hash without collisions. *)
Definition sha256 (b : list byte) : list byte := b.
Definition provider : HashTokenProvider (H := HashToken.Demo.library) :=
  {| source := Static (repeat Byte.x41 16); salts := [str_bytes "salt"]; algorithm := Sha256 (HashTokenLibrary := HashToken.Demo.library) |}.
#[export] Instance tokens_at : TokenProvider (Files.disk Keyring.keyring_file) :=
  hash_token_provider (H := HashToken.Demo.library) provider 5.
#[export] Existing Instance Tokens.Demo.claims_json.
#[export] Existing Instance Tokens.Demo.claims_json_laws.
Definition claims : TokenClaims := {| issuer := "appcore"; audience := "peer"; salt := "any"; ttl_ms := 60000 |}.
#[export] Instance issuer_at : PeerRpcTokenIssuer (Files.disk Keyring.keyring_file) := HashTokenPeerTokenIssuer claims.
(** The application counts the envelopes it is given. *)
#[export] Instance application : PeerRpcDispatcher nat := λ _ e w,
  (Some (Ok (rpc_response_ok (PeerValidation.request_id e) [x01])), Datatypes.S w).
Definition core (id : string) : CoreIdentity :=
  {| Types.tenant_id := "tenant-a"; Types.cluster_id := "cluster-a"; Types.core_id := id; Types.instance_id := "inst-a"; Types.core_kind := "app";
     Types.protocol_version := 1;
     Types.runtime := {| Types.app_id := "app"; Types.app_family := "fam"; Types.sync_group := "grp"; Types.runtime_contract := 1;
                         Types.node_id := "node" |} |}.
Definition host : PeerRpcHttpState :=
  {| manifest := {| Distributed.identity := core "core-b"; app_name := "app"; app_version := "1"; runtime_min_version := "1";
                    runtime_max_version := None; capabilities := []; endpoints := []; Distributed.metadata := ∅ |};
     validator := PeerValidation.Demo.v |}.
Definition gzip (s : string) : result string string := Ok s.
Definition gunzip (s : string) : string * option string := (s, None).
Abbreviation HostState := (Files.disk Keyring.keyring_file * NonceStore.Memory.MemoryState * nat)%type.
(** The network: how many answers it will lose, and the host behind it. *)
Definition arriving (q : PeerRpcHttpRequest) : PeerCall bool :=
  {| call_kind := if bool_decide (http_path q = PEER_COMMAND_PATH) then KindCommand else KindQuery; call_env := false;
     call_headers := [("authorization"%string, str_bytes ("Bearer " +:+ default EmptyString (http_bearer_token q)))];
     call_body := String.string_of_list_byte (http_body q); call_at := 1000 |}.
Abbreviation deliver := (serve_call (A := Files.disk Keyring.keyring_file) (S := NonceStore.Memory.MemoryState) (W := nat)
  (PeerRpcAuthenticator0 := HashTokenPeerAuthenticator claims) sha256 gzip gunzip host).
#[export] Instance network : PeerTransportProvider (nat * HostState) := λ _ q '(losses, x),
  let '(reply, x) := deliver (arriving q) x in
  match losses with
  | O => (Ok {| http_status_code := reply_status reply; http_response_body := str_bytes (reply_body reply) |}, (O, x))
  | Datatypes.S losses => (Err PeerRpcError.EndpointUnavailable, (losses, x))
  end.
Definition client : PeerRpcClient := {| source_identity := core "core-a"; client_config := peer_client_config_default; process_id := 7 |}.
Definition io (_ : nat) : AttemptIo :=
  {| is_cancelled := false; built_at := 900; token_at := 900; cancelled_in_wait := λ _, false |}.
Definition request (key : option string) : PeerRpcOutboundRequest :=
  {| outbound_request_id := "req-1"; Capabilities.target_core_id := "core-b"; outbound_capability := "math.add"; outbound_payload := [x02];
     outbound_idempotency_key := key; outbound_trace := None |}.
Definition host_start : HostState := (Files.disk_new, NonceStore.Memory.empty, 0%nat).
(** The state of the client: its issuer, the network that loses answers, the counter. *)
Definition start (losses : nat) : Files.disk Keyring.keyring_file * ((nat * HostState) * list PeerRpcHttpRequest) * N :=
  (Files.disk_new, ((losses, host_start), []), 41).
Definition command (key : option string) (losses : nat) :=
  call_peer sha256 client "http://core-b" CommandCall (request key) io (start losses).
Definition outcome (key : option string) (losses : nat) :=
  let '(x, s) := command key losses in (x, length s.1.2.2, s.1.2.1.2.2).
(** The envelope of the first attempt, its credential and its arrival. *)
Definition envelope : PeerRpcEnvelope :=
  envelope_of sha256 client (request None) 900 (outbound_nonce "req-1" 900 7 41).
Definition token : string :=
  match (hash_token_issue claims "req-1" (Some (envelope_signing_hash sha256 envelope)) 900 60000 Files.disk_new).1 with
  | Ok t => t
  | Err _ => EmptyString
  end.
Definition issued_tokens : Files.disk Keyring.keyring_file :=
  (hash_token_issue claims "req-1" (Some (envelope_signing_hash sha256 envelope)) 900 60000 Files.disk_new).2.
Definition arrival : PeerCall bool :=
  arriving (http_request client "POST" PEER_COMMAND_PATH (str_bytes (peer_envelope_to_vec envelope)) token).
Abbreviation dispatched := (dispatched (A := Files.disk Keyring.keyring_file) (PeerRpcAuthenticator0 := HashTokenPeerAuthenticator claims) (S := NonceStore.Memory.MemoryState) (W := nat) sha256 gunzip host).
Abbreviation serve_calls := (serve_calls (A := Files.disk Keyring.keyring_file) (PeerRpcAuthenticator0 := HashTokenPeerAuthenticator claims) (S := NonceStore.Memory.MemoryState) (W := nat) sha256 gzip gunzip host).
Lemma token_issued :
  hash_token_issue claims "req-1" (Some (envelope_signing_hash sha256 envelope)) 900 60000 Files.disk_new = (Ok token, issued_tokens).
Proof.
  assert (token ≠ EmptyString) as Hne by (apply (bool_decide_unpack _); vm_compute; exact I). revert Hne. unfold token, issued_tokens.
  by destruct (hash_token_issue claims "req-1" _ 900 60000 Files.disk_new) as [[t|]].
Qed.
Lemma envelope_representable : PeerValidation.representable envelope.
Proof. split; unfold fits_opt; try done; vm_compute; discriminate. Qed.
Lemma no_collision : ¬ collision sha256.
Proof. intros (x & y & Hne & He). by apply Hne. Qed.
End PeerDemo.
Import PeerDemo.

(** A command is answered; when the answer is lost it runs without an answer if
    it has no key, and is sent and run a second time if it has one. *)
Example demo_commands :
  outcome None 0 = (Ok (rpc_response_ok "req-1" [x01]), 1%nat, 1%nat) ∧
  outcome None 1 = (Err PeerRpcError.EndpointUnavailable, 1%nat, 1%nat) ∧
  outcome (Some "k"%string) 1 = (Ok (rpc_response_ok "req-1" [x01]), 2%nat, 2%nat).
Proof. split_and!; vm_compute; reflexivity. Qed.

Lemma calls_are_sent_within_their_attempts_witness :
  let s := (command None 1).2 in
  ∃ sent : list (PeerRpcHttpRequest * PeerRpcEnvelope), s.1.2.2 = sent.*1 ∧ (length sent ≤ 1)%nat ∧
    ∀ q e, (q, e) ∈ sent → carries sha256 client CommandCall (request None) q e.
Proof.
  pose proof (calls_are_sent_within_their_attempts sha256 client "http://core-b" CommandCall (request None) io (start 1)) as H.
  unfold command. destruct (call_peer _ _ _ _ _ _ (start 1)) as [x s].
  destruct H as [(sent & Hs & _ & H1 & H2 & _) _]; [vm_compute; discriminate|]. exists sent. split_and!; [exact Hs|by apply H1|exact H2].
Defined.
