(* ===== verification/Coordination.v ===== *)
(** The coordination stores of control planes
    ([crates/appcore-provider/src/coordination.rs]): the schema metadata, its
    text and migrations, the store in memory, and the file store with its
    atomic replacement, backups and restores.

    The files are those of StorageTree.v: every access may fail and the process
    may die at each. A path is given behind its symbolic links, except that of
    the metadata, which must not be one. The process id and the values that the
    counter of temporary names gives are arguments. *)

From S2P Require Import Prelude.
From S2P Require Import Text.
From S2P Require Import Types.
From S2P Require Import Files.
From S2P Require Import StorageTree.
From S2P Require Import StorageWalk.
From S2P Require Import Storage.
From S2P Require Import Lease.

Local Open Scope N_scope.

Definition COORDINATION_SCHEMA_VERSION : N := 2.
Definition COORDINATION_TABLES : list string :=
  ["audit"; "capabilities"; "jobs"; "leases"; "runtime_instances"; "runtime_versions"; "schema_migrations"; "tenants"]%string.
Definition STORE_FORMAT : string := "appcore.coordination-store.v1".
Definition METADATA_FILE : string := "coordination-schema.meta".

(** ** The contract of stores *)

(** [CoordinationStoreProvider]; [health] may use accesses of its own. *)
Class CoordinationStoreProvider (S : Type) := {
  schema_version : op S ProviderError N;
  store_health : op S ProviderError ();
}.
Definition ensure_compatible {S} `{!CoordinationStoreProvider S} : op S ProviderError () :=
  _ ← store_health;
  actual ← schema_version;
  if actual <? COORDINATION_SCHEMA_VERSION then
    op_fail (invalid ("coordination schema " +:+ show_u64 actual +:+ " is older than required schema " +:+
                      show_u64 COORDINATION_SCHEMA_VERSION))
  else mret ().

Record InMemoryCoordinationStore := { memory_schema_version : N; healthy : bool }.
Definition with_schema_version (version : N) : InMemoryCoordinationStore := {| memory_schema_version := version; healthy := true |}.
Definition in_memory_default : InMemoryCoordinationStore := with_schema_version COORDINATION_SCHEMA_VERSION.
Definition set_healthy (b : bool) : op InMemoryCoordinationStore ProviderError () :=
  op_modify (λ s, {| memory_schema_version := memory_schema_version s; healthy := b |}).
#[export] Instance in_memory_store : CoordinationStoreProvider InMemoryCoordinationStore := {|
  schema_version := s ← op_get; mret (memory_schema_version s);
  store_health :=
    s ← op_get;
    if healthy s then mret () else op_fail (initialization "in-memory coordination store is unhealthy");
|}.

(** ** Metadata *)

Record CoordinationMetadata := { version : N; tables : list string }.
#[export] Instance CoordinationMetadata_eq_dec : EqDecision CoordinationMetadata.
Proof. solve_decision. Defined.
Definition latest : CoordinationMetadata := {| version := COORDINATION_SCHEMA_VERSION; tables := COORDINATION_TABLES |}.
Definition migrate_metadata (md : CoordinationMetadata) : ProviderResult CoordinationMetadata :=
  if COORDINATION_SCHEMA_VERSION <? version md then
    Err (invalid ("coordination schema " +:+ show_u64 (version md) +:+ " is newer than supported schema " +:+
                  show_u64 COORDINATION_SCHEMA_VERSION))
  else if version md =? 0 then Err (invalid "coordination schema version must be positive")
  else Ok latest.
Definition validate_metadata (md : CoordinationMetadata) : ProviderResult () :=
  if COORDINATION_SCHEMA_VERSION <? version md then Err (invalid "coordination schema is newer than this Runtime")
  else if negb (bool_decide (tables md = COORDINATION_TABLES))
  then Err (invalid "coordination table allowlist does not match schema V2")
  else Ok ().

(** What the lines of a metadata file have set. *)
Record fields := { f_format : option string; f_version : option N; f_tables : option (list string) }.
Fixpoint parse_fields (ls : list string) (f : fields) : ProviderResult fields :=
  match ls with
  | [] => Ok f
  | line :: ls =>
    match split_once "=" line with
    | None => Err (invalid "invalid coordination metadata")
    | Some (key, value) =>
      if bool_decide (key = "format"%string) then
        parse_fields ls {| f_format := Some value; f_version := f_version f; f_tables := f_tables f |}
      else if bool_decide (key = "version"%string) then
        match parse_u64 value with
        | None => Err (invalid "invalid coordination schema version")
        | Some v => parse_fields ls {| f_format := f_format f; f_version := Some v; f_tables := f_tables f |}
        end
      else if bool_decide (key = "tables"%string) then
        parse_fields ls {| f_format := f_format f; f_version := f_version f; f_tables := Some (split_on "," value) |}
      else Err (invalid ("unknown coordination metadata field: " +:+ key))
    end
  end.
Definition parse_metadata (contents : string) : ProviderResult CoordinationMetadata :=
  f ← parse_fields (filter (λ line, trim line ≠ EmptyString) (lines contents))
        {| f_format := None; f_version := None; f_tables := None |};
  if negb (bool_decide (f_format f = Some STORE_FORMAT)) then Err (invalid "unsupported coordination metadata format")
  else
    v ← ok_or (invalid "missing coordination schema version") (f_version f);
    ts ← ok_or (invalid "missing coordination table allowlist") (f_tables f);
    Ok {| version := v; tables := ts |}.
Definition newline : string := String LF EmptyString.
Definition render_metadata (md : CoordinationMetadata) : string :=
  "format=" +:+ STORE_FORMAT +:+ newline +:+ "version=" +:+ show_u64 (version md) +:+ newline +:+
  "tables=" +:+ String.concat "," (tables md) +:+ newline.

(** ** Files *)

Abbreviation store_op A := (op fs_disk ProviderError A).
Definition failing (what reason : string) : ProviderError := initialization (what +:+ ": " +:+ reason).

Definition reject_symlink (p : path) : store_op () :=
  m ← symlink_metadata (failing "coordination path inspection failed") p;
  match m with
  | Some NLink => op_fail (invalid "coordination path cannot be a symlink")
  | _ => mret ()
  end.
(** The last access sets the permissions. *)
Definition prepare_root (root : path) : store_op () :=
  _ ← reject_symlink root;
  _ ← create_dir_all (failing "coordination directory failed") root;
  probe (failing "coordination directory permissions failed").
(** [fs::read_to_string]. *)
Definition read_to_string (what : string) (p : path) : store_op string :=
  _ ← probes (failing what) 2;
  bytes ← observe (failing what) (file_content (failing what) p);
  let text := String.string_of_list_byte bytes in
  if utf8_valid text then mret text else op_fail (failing what "stream did not contain valid UTF-8").
(** An operation, and what is done when it fails; what that answers is ignored. *)
Definition or_else {S E A} (o : op S E A) (cleanup : op S E ()) : op S E A := λ s,
  match o s with
  | (Ok a, s) => (Ok a, s)
  | (Err e, s) => (Err e, (cleanup s).2)
  end.
Definition temp_name (pid n : N) : string := ".coordination." +:+ show_u64 pid +:+ "." +:+ show_u64 n +:+ ".tmp".
Definition write_and_replace (temp p : path) (bytes : list byte) : store_op () :=
  _ ← open_new (failing "coordination temp create failed") temp;
  _ ← write_all (failing "coordination metadata write failed") temp bytes;
  _ ← probe (failing "coordination metadata write failed");
  _ ← rename (failing "coordination metadata replace failed") temp p;
  probes (failing "coordination directory sync failed") 2.
Definition write_atomic (pid n : N) (p : path) (bytes : list byte) : store_op () :=
  _ ← create_dir_all (failing "coordination parent failed") (parent p);
  let temp := parent p ++ [temp_name pid n] in
  or_else (write_and_replace temp p bytes) (remove_file (failing "coordination temp remove failed") temp).

(** ** The file store *)

Record FileCoordinationStore := { root : path; metadata_path : path }.
Definition store_at (root : path) : FileCoordinationStore := {| root := root; metadata_path := root ++ [METADATA_FILE] |}.

Section Store.
Context (self : FileCoordinationStore).

Definition read_metadata : store_op CoordinationMetadata :=
  _ ← reject_symlink (metadata_path self);
  contents ← read_to_string "coordination metadata read failed" (metadata_path self);
  op_lift (parse_metadata contents).
(** [Path::exists]: it follows links, and answers no when it fails. *)
Definition metadata_exists (link_leads : bool) : store_op bool := λ d,
  match symlink_metadata (failing "exists") (metadata_path self) d with
  | (Ok (Some NLink), d) => (Ok link_leads, d)
  | (Ok (Some _), d) => (Ok true, d)
  | (Ok None, d) | (Err _, d) => (Ok false, d)
  end.
Definition migrate (link_leads : bool) (pid n : N) : store_op () :=
  there ← metadata_exists link_leads;
  md ← ((if there : bool then current ← read_metadata; op_lift (migrate_metadata current) else mret latest)
        : store_op CoordinationMetadata);
  write_atomic pid n (metadata_path self) (String.list_byte_of_string (render_metadata md)).
(** The provider contract. *)
#[local] Instance file_store : CoordinationStoreProvider fs_disk := {|
  schema_version := md ← read_metadata; mret (version md);
  store_health :=
    _ ← reject_symlink (root self);
    md ← read_metadata;
    op_lift (validate_metadata md);
|}.
Definition backup_to (pid n : N) (destination : path) : store_op () :=
  md ← read_metadata;
  _ ← (op_lift (validate_metadata md) : store_op ());
  write_atomic pid n destination (String.list_byte_of_string (render_metadata md)).
(** The two writes take two values of the counter. *)
Definition restore_from (link_leads : bool) (pid n n' : N) (source : path) : store_op () :=
  contents ← read_to_string "coordination backup read failed" source;
  md ← op_lift (parse_metadata contents);
  _ ← (op_lift (validate_metadata md) : store_op ());
  _ ← write_atomic pid n (metadata_path self) (String.list_byte_of_string (render_metadata md));
  migrate link_leads pid n'.
End Store.
Definition open_store (link_leads : bool) (pid n : N) (root : path) : store_op FileCoordinationStore :=
  _ ← prepare_root root;
  let store := store_at root in
  _ ← migrate store link_leads pid n;
  _ ← ensure_compatible (CoordinationStoreProvider0 := file_store store);
  mret store.

(** ** The text of metadata *)

Definition table_name (s : string) : Prop := str_free "," s ∧ str_free LF s ∧ str_free CR s.
Definition representable (md : CoordinationMetadata) : Prop :=
  version md ≤ u64_max ∧ tables md ≠ [] ∧ Forall table_name (tables md).

Lemma split_on_concat c ts : ts ≠ [] → Forall (str_free c) ts → split_on c (String.concat (String c EmptyString) ts) = ts.
Proof.
  intros Hne Hts. induction Hts as [|t ts Ht Hts IH]; [done|]. destruct ts as [|t' ts]; [by apply split_on_free|].
  change (String.concat ?s (t :: t' :: ts)) with (t +:+ String c (String.concat s (t' :: ts))).
  rewrite split_on_app by done. by rewrite IH.
Qed.
Lemma str_free_concat c sep ts : str_free c sep → Forall (str_free c) ts → str_free c (String.concat sep ts).
Proof.
  intros Hs Hts. induction Hts as [|t ts Ht Hts IH]; [done|]. destruct ts as [|t' ts]; [done|].
  change (str_free c (t +:+ sep +:+ String.concat sep (t' :: ts))). by rewrite !str_free_app.
Qed.
Lemma metadata_line s t : str_free LF s → str_free CR s → lines (s +:+ newline +:+ t) = s :: lines t.
Proof. intros. by apply lines_cons. Qed.
Lemma lines_last s : str_free LF s → str_free CR s → lines (s +:+ newline) = [s].
Proof. intros. by apply (metadata_line s EmptyString). Qed.

(** Metadata that is rendered is parsed back. *)
Theorem metadata_roundtrip md : representable md → parse_metadata (render_metadata md) = Ok md.
Proof.
  destruct md as [v ts]. intros (Hv & Hne & Hts). cbn in *.
  assert (str_free LF (show_u64 v) ∧ str_free CR (show_u64 v)) as [Hl Hr].
  { split; (apply str_digits_free; [apply show_u64_digits|]); left; by vm_compute. }
  assert (Forall (str_free LF) ts ∧ Forall (str_free CR) ts ∧ Forall (str_free ",") ts) as (H1 & H2 & H3).
  { split_and!; (eapply Forall_impl; [exact Hts|]); by intros ? (? & ? & ?). }
  unfold parse_metadata, render_metadata. cbn [version tables].
  rewrite <- (string_app_assoc "format=" STORE_FORMAT), <- (string_app_assoc "version=" (show_u64 v)),
    <- (string_app_assoc "tables=" (String.concat "," ts)).
  rewrite metadata_line, metadata_line, lines_last by
    (first [by vm_compute; repeat split; discriminate
           |rewrite str_free_app; split; [by vm_compute; repeat split; discriminate|done || by apply str_free_concat]]).
  rewrite !filter_cons_True, filter_nil by (by apply trim_not_empty; vm_compute).
  assert (∀ x y ls f, parse_u64 x = Some y → parse_fields (("version=" +:+ x) :: ls) f =
    parse_fields ls {| f_format := f_format f; f_version := Some y; f_tables := f_tables f |}) as Hversion.
  { intros x y ls f Hy. change (match parse_u64 x with Some w =>
      parse_fields ls {| f_format := f_format f; f_version := Some w; f_tables := f_tables f |} | None => Err (invalid "invalid coordination schema version") end
      = parse_fields ls {| f_format := f_format f; f_version := Some y; f_tables := f_tables f |}). by rewrite Hy. }
  change (parse_fields (("format=" +:+ ?x) :: ?ls) ?f) with
    (parse_fields ls {| f_format := Some x; f_version := f_version f; f_tables := f_tables f |}).
  rewrite (Hversion _ v) by (by apply parse_show_u64).
  change (parse_fields ["tables=" +:+ ?x] ?f) with
    (@Ok ProviderError _ {| f_format := f_format f; f_version := f_version f; f_tables := Some (split_on "," x) |}). cbn.
  rewrite bool_decide_eq_true_2 by done. cbn. by rewrite split_on_concat.
Qed.

(** ** Atomic writes *)

Lemma temp_name_head pid n : ∃ s, temp_name pid n = String "." s.
Proof. by eexists. Qed.

Section Writing.
Context (m : path) (ok : option node → Prop).
Context (Hm : ∀ pid n, file_name m ≠ Some (temp_name pid n)).
(** The tree, when what is at [m] is as it may be. *)
Definition kept (fs : tree) : Prop := rooted fs ∧ ok (fs !! m).

Lemma kept_insert fs p nd : kept fs → fs !! p = None → fs !! parent p = Some NDirectory → (p = m → ok (Some nd)) → kept (<[p := nd]> fs).
Proof.
  intros [Hr Ho] Hn Hd Hp. split; [by apply rooted_insert|]. destruct (decide (p = m)) as [->|].
  - rewrite lookup_insert_eq. by apply Hp.
  - by rewrite lookup_insert_ne.
Qed.
Lemma triple_or_else {A : Type} (V : tree → Prop) (o : store_op A) (c : store_op ()) (Q : A → tree → Prop) :
  triple kept V o Q → triple kept kept c (λ _, kept) → triple kept V (or_else o c) Q.
Proof.
  intros Ho Hc d Hd. specialize (Ho d Hd). unfold or_else. destruct (o d) as [[a|e] d']; [done|].
  specialize (Hc d' Ho). by destruct (c d') as [[]].
Qed.

Section Target.
Context (pid n : N) (dir : path) (name : string) (bytes : list byte).
Context (Hname : name ≠ temp_name pid n) (Hbytes : dir ++ [name] = m → ok (Some (NFile bytes))).
Context (Hdir : ok None → below m dir = None).
#[local] Abbreviation full := (dir ++ [name]).
#[local] Abbreviation tmp := (dir ++ [temp_name pid n]).

Definition holding (c : list byte) (fs : tree) : Prop :=
  ∃ fs1, kept fs1 ∧ fs1 !! tmp = None ∧ fs1 !! dir = Some NDirectory ∧ fs = <[tmp := NFile c]> fs1.
Definition replaced (fs : tree) : Prop := kept fs ∧ fs !! full = Some (NFile bytes).

Lemma tmp_not_m : tmp ≠ m.
Proof. intros He. apply (Hm pid n). rewrite <- He. apply last_snoc. Qed.
Lemma holding_kept c fs : holding c fs → kept fs.
Proof. intros (fs1 & Hk & Hn & Hd & ->). apply kept_insert; rewrite ?parent_snoc; [done..|]. by intros ?%tmp_not_m. Qed.
Lemma holding_moved fs : holding bytes fs → rename_allowed tmp full fs = true → replaced (move_tree tmp full fs).
Proof.
  intros (fs1 & [Hr Ho] & Hn & Hd & ->) Ha.
  assert (Hne : tmp ≠ full) by (intros [=]%app_inv_head; congruence).
  assert (Hf : fs1 !! full ≠ Some NDirectory).
  { intros Hf. unfold rename_allowed in Ha. rewrite lookup_insert_eq, lookup_insert_ne, Hf in Ha; done. }
  rewrite move_file by (done || by apply not_eq_sym). split; [|by rewrite lookup_insert_eq].
  destruct (fs1 !! full) as [nd|] eqn:Hfull; [|apply kept_insert; by rewrite ?parent_snoc].
  split; [apply (rooted_replace _ _ _ nd); [done..|congruence]|].
  destruct (decide (full = m)) as [He|]; [|by rewrite lookup_insert_ne]. rewrite <- He, lookup_insert_eq. by apply Hbytes.
Qed.
Lemma made_directories what : triple kept kept (create_dir_all (failing what) dir) (λ _, kept).
Proof.
  unfold create_dir_all. eapply triple_post; [apply triple_create_dirs; [done|]|by intros ? ? []].
  intros p fs (k & -> & _)%list_elem_of_fmap Hk Hn Hd. apply kept_insert; [done..|]. intros He.
  destruct Hk as [_ Ho]. rewrite <- He, Hn in Ho. apply Hdir in Ho. rewrite <- He in Ho.
  rewrite <- (take_drop k dir) in Ho at 2. by rewrite below_app in Ho.
Qed.
Lemma write_atomic_spec : triple kept kept (write_atomic pid n full bytes) (λ _, replaced).
Proof.
  unfold write_atomic. rewrite parent_snoc.
  apply (triple_bind _ _ _ _ (λ _, kept)); [apply made_directories|intros []]. apply triple_or_else.
  - unfold write_and_replace. apply (triple_bind _ _ _ _ (λ _, holding [])).
    { apply triple_open_new; [done| |apply holding_kept]. intros fs Hk Hn Hd. rewrite parent_snoc in Hd. by exists fs. }
    intros []. apply (triple_bind _ _ _ _ (λ _, holding bytes)).
    { apply (triple_pre _ _ (λ fs, (∃ c, holding c fs) ∧ fs !! tmp = Some (NFile []))).
      - apply triple_write_all.
        + intros fs c [c' (fs1 & Hk & Hn & Hd & ->)] _. apply (holding_kept c). exists fs1. by rewrite insert_insert_eq.
        + intros fs [c' (fs1 & Hk & Hn & Hd & ->)] _. exists fs1. by rewrite insert_insert_eq.
      - intros fs Hh. split; [by eexists|]. destruct Hh as (fs1 & _ & _ & _ & ->). by rewrite lookup_insert_eq. }
    intros []. apply (triple_bind _ _ _ _ (λ _, holding bytes)); [by apply triple_probe, holding_kept|].
    intros []. apply (triple_bind _ _ _ _ (λ _, replaced)); [|intros []; by apply triple_probes; intros ? []].
    apply triple_rename; [apply holding_kept|]. intros fs Hh Ha. by destruct (holding_moved _ Hh Ha) as [? ?].
  - apply triple_change; [done|]. intros fs fs' [Hr Ho] Hf.
    assert (Hk : kept (delete tmp fs)).
    { split; [apply rooted_delete; [done|]; by intros Hx; rewrite Hx in Hf|]. rewrite lookup_delete_ne; [done|apply tmp_not_m]. }
    by destruct (fs !! tmp) as [[]|]; try done; injection Hf as <-.
Qed.
End Target.
End Writing.

(** ** What a store keeps *)

(** Bytes that read as a metadata. *)
Definition reads (b : list byte) (md : CoordinationMetadata) : Prop :=
  utf8_valid (String.string_of_list_byte b) = true ∧ parse_metadata (String.string_of_list_byte b) = Ok md.
Definition rendered (md : CoordinationMetadata) : list byte := String.list_byte_of_string (render_metadata md).
Definition present (o : option node) : Prop :=
  ∃ b md, o = Some (NFile b) ∧ reads b md ∧ validate_metadata md = Ok ().
(** No metadata yet, or one that is whole and valid. *)
Definition valid (o : option node) : Prop := o = None ∨ present o.

Lemma validated md : validate_metadata md = Ok () → version md ≤ 2 ∧ tables md = COORDINATION_TABLES.
Proof.
  unfold validate_metadata, COORDINATION_SCHEMA_VERSION. destruct (N.ltb_spec 2 (version md)); [done|].
  by case_bool_decide.
Qed.
Lemma rendered_present md : validate_metadata md = Ok () → present (Some (NFile (rendered md))).
Proof.
  intros Hv. exists (rendered md), md. split_and!; [done| |done]. unfold reads, rendered.
  rewrite String.string_of_list_byte_of_string. destruct (validated _ Hv) as [Hle Ht]. split.
  - destruct md as [v ts]. cbn in *. subst ts. assert (v = 0 ∨ v = 1 ∨ v = 2) as [->|[->| ->]] by lia; by vm_compute.
  - apply metadata_roundtrip. split_and!; [unfold u64_max; lia|by rewrite Ht|]. rewrite Ht.
    repeat (apply Forall_cons_2; [vm_compute; repeat split; discriminate|]). by apply Forall_nil_2.
Qed.
Lemma migrated md md' : migrate_metadata md = Ok md' → md' = latest.
Proof. unfold migrate_metadata. destruct (_ <? _); [done|]. destruct (_ =? _); [done|]. by intros [= <-]. Qed.

Section Keeping.
Context (dir : path).
#[local] Abbreviation self := (store_at dir).
#[local] Abbreviation m := (metadata_path self).
#[local] Abbreviation good := (kept m valid).

Lemma metadata_not_temp pid n : file_name m ≠ Some (temp_name pid n).
Proof. cbn [metadata_path store_at]. unfold file_name. rewrite last_snoc. intros [= H]. Qed.
Lemma below_root : below m dir = None.
Proof.
  apply below_none. intros r Hr. apply (f_equal length) in Hr. cbn [metadata_path store_at] in Hr.
  rewrite !length_app in Hr. cbn in Hr. lia.
Qed.
Lemma triple_reject X V p : (∀ fs, V fs → X fs) → triple X V (reject_symlink p) (λ _, V).
Proof.
  intros HV. unfold reject_symlink. eapply triple_bind; [by apply triple_metadata|]. cbn beta. intros o.
  destruct o as [[]|]; try (by apply hoare_ret; intros ? []). apply hoare_fail. intros ? [Hv _]. by apply HV.
Qed.
Lemma triple_read_text X V what p :
  (∀ fs, V fs → X fs) →
  triple X V (read_to_string what p)
    (λ t fs, V fs ∧ ∃ b, fs !! p = Some (NFile b) ∧ utf8_valid (String.string_of_list_byte b) = true ∧ t = String.string_of_list_byte b).
Proof.
  intros HV. unfold read_to_string. apply (triple_bind _ _ _ _ (λ _, V)); [by apply triple_probes|intros []].
  eapply triple_bind; [by apply triple_observe|]. cbn beta. intros b.
  destruct (utf8_valid _) eqn:Hu; [apply hoare_ret|apply hoare_fail; intros ? [Hv _]; by apply HV].
  intros s [Hv Hb]. split; [done|]. exists b. split_and!; [|done..].
  unfold file_content in Hb. by destruct (files s !! p) as [[]|]; try done; injection Hb as ->.
Qed.
Lemma triple_read_metadata X V :
  (∀ fs, V fs → X fs) → triple X V (read_metadata self) (λ md fs, V fs ∧ ∃ b, fs !! m = Some (NFile b) ∧ reads b md).
Proof.
  intros HV. unfold read_metadata. apply (triple_bind _ _ _ _ (λ _, V)); [by apply triple_reject|intros []].
  eapply triple_bind; [by apply triple_read_text|]. cbn beta. intros t.
  eapply triple_post; [apply triple_lift|]; [by intros fs [Hv _]; apply HV|].
  intros md fs [(Hv & b & Hb & Hu & ->) Hp]. split; [done|]. by exists b.
Qed.
Lemma put_metadata pid n md :
  validate_metadata md = Ok () → triple good good (write_atomic pid n m (rendered md)) (λ _, replaced m valid dir METADATA_FILE (rendered md)).
Proof.
  intros Hv. apply write_atomic_spec; [exact metadata_not_temp|done| |].
  - intros _. right. by apply rendered_present.
  - intros _. exact below_root.
Qed.
Lemma migrate_spec leads pid n :
  triple good good (migrate self leads pid n) (λ _, replaced m valid dir METADATA_FILE (rendered latest)).
Proof.
  unfold migrate. apply (triple_bind _ _ _ _ (λ _, good)).
  { intros d Hd. unfold metadata_exists.
    pose proof (triple_metadata (failed := failing "exists") good good m (λ _ H, H) d Hd) as Hs.
    destruct (symlink_metadata _ _ d) as [[[[]|]|] d']; try exact (proj1 Hs); exact Hs. }
  intros there. apply (triple_bind _ _ _ _ (λ md fs, good fs ∧ md = latest)).
  - destruct there; [|by apply hoare_ret]. eapply triple_bind; [by apply triple_read_metadata|]. cbn beta. intros md.
    eapply triple_post; [apply triple_lift|]; [by intros fs []|]. by intros md' fs [[? _] ?%migrated].
  - intros md. apply (triple_assume _ _ _ _ (md = latest)); [by intros ? []|]. intros ->.
    apply (triple_pre _ _ good); [|by intros ? []]. by apply put_metadata.
Qed.

Lemma ensure_compatible_keeps X V : (∀ fs, V fs → X fs) → triple X V (ensure_compatible (CoordinationStoreProvider0 := file_store self)) (λ _, V).
Proof.
  intros HV. unfold ensure_compatible. cbn [store_health schema_version file_store].
  apply (triple_bind _ _ _ _ (λ _, V)).
  - apply (triple_bind _ _ _ _ (λ _, V)); [by apply triple_reject|intros []].
    eapply triple_bind; [by apply triple_read_metadata|]. cbn beta. intros md.
    eapply triple_post; [apply triple_lift; by intros ? [? _]; apply HV|]. by intros ? ? [[? _] _].
  - intros []. apply (triple_bind _ _ _ _ (λ _, V)).
    + eapply triple_bind; [by apply triple_read_metadata|]. cbn beta. intros md. by apply hoare_ret; intros ? [? _].
    + intros v. by destruct (v <? _); [apply triple_fail|apply hoare_ret].
Qed.
Lemma open_spec leads pid n :
  triple good good (open_store leads pid n dir) (λ s fs, replaced m valid dir METADATA_FILE (rendered latest) fs ∧ s = self).
Proof.
  unfold open_store, prepare_root.
  apply (triple_bind _ _ _ _ (λ _, good)).
  { apply (triple_bind _ _ _ _ (λ _, good)); [by apply triple_reject|intros []].
    apply (triple_bind _ _ _ _ (λ _, good)); [apply made_directories; intros _; exact below_root|intros []]. by apply triple_probe. }
  intros []. eapply triple_bind; [apply migrate_spec|]. cbn beta. intros [].
  apply (triple_bind _ _ _ _ (λ _, replaced m valid dir METADATA_FILE (rendered latest))); [|intros []; by apply hoare_ret].
  apply ensure_compatible_keeps. by intros ? [].
Qed.
Lemma restore_from_spec leads pid n n' source :
  triple good good (restore_from self leads pid n n' source) (λ _, replaced m valid dir METADATA_FILE (rendered latest)).
Proof.
  unfold restore_from. eapply triple_bind; [by apply triple_read_text|]. cbn beta. intros t.
  apply (triple_pre _ _ good); [|by intros ? []].
  eapply triple_bind; [by apply triple_lift|]. cbn beta. intros md. apply (triple_pre _ _ good); [|by intros ? []].
  eapply triple_bind; [by apply triple_lift|]. cbn beta. intros [].
  apply (triple_assume _ _ _ _ (validate_metadata md = Ok ())); [by intros ? []|]. intros Hv.
  apply (triple_pre _ _ good); [|by intros ? []].
  eapply triple_bind; [by apply put_metadata|]. cbn beta. intros [].
  apply (triple_pre _ _ good); [apply migrate_spec|by intros ? []].
Qed.
(** A backup holds the metadata that was read; nothing else is touched there. *)
Lemma backup_spec pid n to name :
  name ≠ temp_name pid n →
  triple good good (backup_to self pid n (to ++ [name]))
    (λ _ fs, good fs ∧ ∃ md, validate_metadata md = Ok () ∧ fs !! (to ++ [name]) = Some (NFile (rendered md))).
Proof.
  intros Hn. unfold backup_to. eapply triple_bind; [by apply triple_read_metadata|]. cbn beta. intros md.
  eapply triple_bind; [by apply triple_lift; intros ? []|]. cbn beta. intros [].
  apply (triple_assume _ _ _ _ (validate_metadata md = Ok ())); [by intros ? []|]. intros Hv.
  apply (triple_pre _ _ (kept m present)).
  - eapply hoare_weaken; [apply (write_atomic_spec m present metadata_not_temp pid n to name (rendered md) Hn)|done| |].
    + intros _. by apply rendered_present.
    + by intros (b & md' & [=] & _).
    + intros [] d [[Hr Hp] Hb]. split; [by split; [|right]|]. by exists md.
    + intros e d [Hr Hp]. by split; [|right].
  - intros fs [[[Hr _] (b & Hb & Hreads)] _]. split; [done|]. by exists b, md.
Qed.
Lemma latest_answers fs : kept m valid fs → fs !! m = Some (NFile (rendered latest)) →
  store_health (CoordinationStoreProvider := file_store self) (calm fs) = (Ok (), calm fs) ∧
  schema_version (CoordinationStoreProvider := file_store self) (calm fs) = (Ok COORDINATION_SCHEMA_VERSION, calm fs).
Proof.
  intros [Hr _] Hf. assert (Hd : fs !! dir = Some NDirectory) by (apply (rooted_prefix fs dir [METADATA_FILE]); [done|by eexists|done]).
  assert (Hread : read_metadata self (calm fs) = (Ok latest, calm fs)).
  { unfold read_metadata, reject_symlink. rewrite op_bind_assoc.
    erewrite op_ok_bind by (by apply calm_metadata). erewrite op_ok_bind by done.
    unfold read_to_string. rewrite op_bind_assoc. erewrite op_ok_bind by apply calm_probes. rewrite op_bind_assoc.
    erewrite op_ok_bind by (rewrite calm_observe; unfold file_content; by rewrite Hf). by vm_compute. }
  split; cbn [store_health schema_version file_store].
  - unfold reject_symlink. rewrite op_bind_assoc. erewrite op_ok_bind by (by apply calm_metadata).
    erewrite op_ok_bind by done. by erewrite op_ok_bind by exact Hread.
  - by erewrite op_ok_bind by exact Hread.
Qed.
End Keeping.

(** ** A process whose accesses all work *)

Lemma calm_create_dirs {E} (failed : string → E) ps fs :
  Forall (λ p, fs !! p = Some NDirectory) ps → create_dirs_on failed ps (calm fs) = (Ok (), calm fs).
Proof.
  induction 1 as [|p ps Hp Hps IH]; [done|]. cbn [create_dirs_on]. rewrite op_get_bind. cbn [files calm]. rewrite Hp.
  by erewrite op_ok_bind by apply calm_probe.
Qed.
Lemma calm_create_dir_all {E} (failed : string → E) p fs :
  rooted fs → fs !! p = Some NDirectory → create_dir_all failed p (calm fs) = (Ok (), calm fs).
Proof.
  intros Hr Hp. apply calm_create_dirs. apply Forall_fmap, Forall_forall. intros k _. cbn.
  destruct (drop k p) as [|x r] eqn:Hd; [by rewrite <- (take_drop k p), Hd, app_nil_r in Hp|].
  apply (rooted_prefix _ _ (x :: r)); [done| |done]. rewrite <- Hd, take_drop. by eexists.
Qed.
Lemma calm_write_all {E} (failed : string → E) p bytes c fs :
  write_all failed p bytes (calm (<[p := NFile c]> fs)) = (Ok (), calm (<[p := NFile (c ++ bytes)]> fs)).
Proof.
  revert c. induction bytes as [|b bytes IH]; intros c; [by rewrite app_nil_r|]. unfold write_all. cbn [op_iter].
  erewrite op_ok_bind; [|by unfold update_files, access_files, append_byte; cbn; rewrite alter_insert_eq].
  change (write_all failed p bytes (calm (<[p:=NFile (c ++ [b])]> fs)) = (Ok (), calm (<[p:=NFile (c ++ b :: bytes)]> fs))).
  by rewrite IH, <- app_assoc.
Qed.
Lemma calm_write_atomic pid n dir name bytes fs :
  rooted fs → fs !! dir = Some NDirectory → fs !! (dir ++ [temp_name pid n]) = None → name ≠ temp_name pid n →
  fs !! (dir ++ [name]) ≠ Some NDirectory →
  write_atomic pid n (dir ++ [name]) bytes (calm fs) = (Ok (), calm (<[dir ++ [name] := NFile bytes]> fs)).
Proof.
  intros Hr Hd Ht Hname Hfull. unfold write_atomic. rewrite parent_snoc.
  erewrite op_ok_bind by (by apply calm_create_dir_all). unfold or_else, write_and_replace.
  set (tmp := dir ++ [temp_name pid n]) in *.
  assert (Hopen : open_new (failing "coordination temp create failed") tmp (calm fs) = (Ok (), calm (<[tmp := NFile []]> fs))).
  { unfold open_new, change. rewrite op_get_bind. cbn [files calm]. rewrite (bool_decide_eq_true_2 _ Ht).
    unfold is_dir, tmp. rewrite parent_snoc, (bool_decide_eq_true_2 _ Hd). done. }
  erewrite op_ok_bind by exact Hopen. erewrite op_ok_bind by apply calm_write_all. erewrite op_ok_bind by apply calm_probe.
  assert (Hne : tmp ≠ dir ++ [name]) by (intros [=]%app_inv_head; congruence).
  assert (Hren : rename (failing "coordination metadata replace failed") tmp (dir ++ [name]) (calm (<[tmp := NFile bytes]> fs)) =
                 (Ok (), calm (<[dir ++ [name] := NFile bytes]> fs))).
  { unfold rename, change. rewrite op_get_bind. cbn [files calm]. unfold rename_allowed. rewrite lookup_insert_eq, lookup_insert_ne by done.
    assert (Hmove : move_tree tmp (dir ++ [name]) (<[tmp := NFile bytes]> fs) = <[dir ++ [name] := NFile bytes]> fs)
      by (apply move_file; [done|by apply not_eq_sym|done..]).
    destruct (fs !! (dir ++ [name])) as [[]|] eqn:Hf; try done; try (by rewrite Hmove).
    unfold is_dir. rewrite parent_snoc, lookup_insert_ne, (bool_decide_eq_true_2 _ Hd).
    - destruct (apart_siblings dir (temp_name pid n) name [] []) as [Hb _]; [by apply not_eq_sym|].
      by rewrite (bool_decide_eq_true_2 _ Hb), Hmove.
    - intros He. apply (f_equal length) in He. unfold tmp in He. rewrite length_app in He. cbn in He. lia. }
  erewrite op_ok_bind by exact Hren. by rewrite calm_probes.
Qed.

(** ** Properties *)

Inductive call := OpenStore | BackupTo (to : path) (name : string) | RestoreFrom (source : path).
(** A call in a process of its own, with the outcomes of its accesses. *)
Record event := { called : call; accesses : list access; link_leads : bool; event_pid : N; first_temp : N; second_temp : N }.
Definition run_event (dir : path) (e : event) (d : fs_disk) : result ProviderError () * fs_disk :=
  let d := restart (accesses e) d in
  match called e with
  | OpenStore => (_ ← open_store (link_leads e) (event_pid e) (first_temp e) dir; mret ()) d
  | BackupTo to name => backup_to (store_at dir) (event_pid e) (first_temp e) (to ++ [name]) d
  | RestoreFrom source => restore_from (store_at dir) (link_leads e) (event_pid e) (first_temp e) (second_temp e) source d
  end.
Definition run_events (dir : path) (l : list event) (d : fs_disk) : fs_disk := foldl (λ d e, (run_event dir e d).2) d l.
(** A backup is not written over its own temporary file. *)
Definition well_named (e : event) : Prop :=
  match called e with BackupTo _ name => name ≠ temp_name (event_pid e) (first_temp e) | _ => True end.

Lemma run_event_keeps dir e d :
  well_named e → kept (metadata_path (store_at dir)) valid (files d) →
  let '(r, d') := run_event dir e d in
  kept (metadata_path (store_at dir)) valid (files d') ∧
  (r = Ok () → match called e with
   | BackupTo to name => ∃ md, validate_metadata md = Ok () ∧ files d' !! (to ++ [name]) = Some (NFile (rendered md))
   | _ => files d' !! metadata_path (store_at dir) = Some (NFile (rendered latest))
   end).
Proof.
  intros Hn Hk. unfold run_event, well_named in *. set (d0 := restart (accesses e) d).
  assert (on (kept (metadata_path (store_at dir)) valid) d0) as Hd0 by done. destruct (called e) as [|to name|source].
  - pose proof (open_spec dir (link_leads e) (event_pid e) (first_temp e) d0 Hd0) as Hs. unfold mbind, op_bind.
    destruct (open_store _ _ _ _ d0) as [[s|err] d']; [|by split]. destruct Hs as [[? ?] _]. by split.
  - pose proof (backup_spec dir (event_pid e) (first_temp e) to name Hn d0 Hd0) as Hs.
    destruct (backup_to _ _ _ _ d0) as [[[]|err] d']; [|by split]. destruct Hs as [? ?]. by split.
  - pose proof (restore_from_spec dir (link_leads e) (event_pid e) (first_temp e) (second_temp e) source d0 Hd0) as Hs.
    destruct (restore_from _ _ _ _ _ _ d0) as [[[]|err] d']; [|by split]. destruct Hs as [? ?]. by split.
Qed.

(** A coordination store is never torn. However often it is opened, backed
    up and restored, whatever fails in these calls and wherever their processes
    die, the metadata stays absent or whole and valid for this release. A call
    that succeeds has done its work: after an open or a restore the metadata is
    that of the latest schema, which a later process finds healthy and
    compatible, and after a backup the destination holds valid metadata. *)
Theorem coordination_store_survives dir l fs :
  kept (metadata_path (store_at dir)) valid fs → Forall well_named l →
  let d := run_events dir l (calm fs) in
  kept (metadata_path (store_at dir)) valid (files d) ∧
  ∀ e d', well_named e → run_event dir e d = (Ok (), d') →
    match called e with
    | BackupTo to name => ∃ md, validate_metadata md = Ok () ∧ files d' !! (to ++ [name]) = Some (NFile (rendered md))
    | _ => files d' !! metadata_path (store_at dir) = Some (NFile (rendered latest)) ∧
           ensure_compatible (CoordinationStoreProvider0 := file_store (store_at dir)) (calm (files d')) = (Ok (), calm (files d'))
    end.
Proof.
  intros Hk Hl. assert (kept (metadata_path (store_at dir)) valid (files (run_events dir l (calm fs)))) as Hd.
  { assert (kept (metadata_path (store_at dir)) valid (files (calm fs))) as Hc by done. revert Hc.
    generalize (calm fs). induction Hl as [|e l He Hl IH]; intros d Hd; [done|]. apply IH.
    pose proof (run_event_keeps dir e d He Hd) as Hs. by destruct (run_event dir e d) as [r d'], Hs. }
  split; [done|]. intros e d' He Hrun. pose proof (run_event_keeps dir e _ He Hd) as Hs. rewrite Hrun in Hs.
  destruct Hs as [Hk' Hok]. specialize (Hok eq_refl). destruct (called e); [|done|]; split; try done;
    destruct (latest_answers dir _ Hk' Hok) as [Hh Hv]; unfold ensure_compatible;
    erewrite op_ok_bind by exact Hh; by erewrite op_ok_bind by exact Hv.
Qed.

(** A store without metadata, or with metadata of a version that this release
    migrates, is opened by a process whose accesses work. *)
Theorem sound_store_opens dir leads pid n fs :
  rooted fs → fs !! dir = Some NDirectory → fs !! (dir ++ [temp_name pid n]) = None →
  (fs !! metadata_path (store_at dir) = None ∨
   ∃ b md, fs !! metadata_path (store_at dir) = Some (NFile b) ∧ reads b md ∧ 1 ≤ version md ≤ COORDINATION_SCHEMA_VERSION) →
  open_store leads pid n dir (calm fs) =
    (Ok (store_at dir), calm (<[metadata_path (store_at dir) := NFile (rendered latest)]> fs)).
Proof.
  intros Hr Hd Ht Hm. unfold open_store, prepare_root.
  assert (Hroot : (∀ g, g !! dir = Some NDirectory → reject_symlink dir (calm g) = (Ok (), calm g))).
  { intros g Hg. unfold reject_symlink. by erewrite op_ok_bind by (by apply calm_metadata). }
  rewrite op_bind_assoc. erewrite op_ok_bind by (by apply Hroot). rewrite op_bind_assoc.
  erewrite op_ok_bind by (by apply calm_create_dir_all). erewrite op_ok_bind by apply calm_probe.
  set (m := metadata_path (store_at dir)) in *.
  assert (Hmig : migrate (store_at dir) leads pid n (calm fs) = (Ok (), calm (<[m := NFile (rendered latest)]> fs))).
  { unfold migrate. assert (Hw : write_atomic pid n m (rendered latest) (calm fs) = (Ok (), calm (<[m := NFile (rendered latest)]> fs))).
    { apply calm_write_atomic; [done..|]. change (fs !! m ≠ Some NDirectory). by destruct Hm as [->|(b & md & -> & _)]. }
    destruct Hm as [Hm|(b & md & Hm & [Hu Hp] & Hv)].
    - assert (He : metadata_exists (store_at dir) leads (calm fs) = (Ok false, calm fs)).
      { unfold metadata_exists, symlink_metadata. rewrite calm_observe. fold m. unfold metadata. rewrite Hm.
        by destruct (blocked fs m). }
      erewrite op_ok_bind by exact He. by erewrite op_ok_bind by done.
    - assert (He : metadata_exists (store_at dir) leads (calm fs) = (Ok true, calm fs)).
      { unfold metadata_exists. fold m. by erewrite calm_metadata by exact Hm. }
      erewrite op_ok_bind by exact He. cbn iota. rewrite op_bind_assoc.
      assert (Hread : read_metadata (store_at dir) (calm fs) = (Ok md, calm fs)).
      { unfold read_metadata, reject_symlink. rewrite op_bind_assoc. fold m.
        erewrite op_ok_bind by (by apply calm_metadata). erewrite op_ok_bind by done.
        unfold read_to_string. rewrite op_bind_assoc. erewrite op_ok_bind by apply calm_probes. rewrite op_bind_assoc.
        erewrite op_ok_bind by (rewrite calm_observe; unfold file_content; by rewrite Hm).
        rewrite Hu. erewrite op_ok_bind by done. by rewrite Hp. }
      erewrite op_ok_bind by exact Hread. unfold migrate_metadata.
      destruct (N.ltb_spec COORDINATION_SCHEMA_VERSION (version md)); [lia|]. destruct (N.eqb_spec (version md) 0); [lia|]. done. }
  erewrite op_ok_bind by exact Hmig.
  assert (Hk : kept m valid (<[m := NFile (rendered latest)]> fs)).
  { split; [|rewrite lookup_insert_eq; right; by apply rendered_present].
    assert (Hp : parent m = dir) by apply parent_snoc.
    destruct Hm as [Hm|(b & md & Hm & _)]; [by apply rooted_insert; [..|by rewrite Hp]|by apply (rooted_replace _ _ _ (NFile b))]. }
  destruct (latest_answers dir _ Hk) as [Hh Hs]; [by rewrite lookup_insert_eq|]. unfold ensure_compatible.
  rewrite op_bind_assoc. erewrite op_ok_bind by exact Hh. rewrite op_bind_assoc. by erewrite op_ok_bind by exact Hs.
Qed.

(** ** An example *)

Module CoordinationDemo.
Definition dir : path := ["srv"; "control"]%string.
Definition bytes_of (s : string) : list byte := String.list_byte_of_string s.
Definition with_files (l : list (path * node)) : tree :=
  list_to_map ([([], NDirectory); (["srv"], NDirectory)]%string ++ l).
Definition empty_tree : tree := with_files [].
Lemma empty_kept : kept (metadata_path (store_at dir)) valid empty_tree.
Proof. split; [by apply rooted_check_sound; vm_compute|]. left. by vm_compute. Qed.

Definition event_of (c : call) (accesses : list access) (k : N) : event :=
  {| called := c; accesses := accesses; link_leads := false; event_pid := 7; first_temp := k; second_temp := k + 1 |}.
(** An open that dies while it writes, one that works, a backup whose directory
    sync fails, and a restore that dies before its second write. *)
Definition history : list event :=
  [event_of OpenStore (repeat Works 20 ++ [Dies]) 1; event_of OpenStore [] 2;
   event_of (BackupTo ["srv"] "backup.meta")%string [] 3; event_of (RestoreFrom ["srv"; "backup.meta"]%string) (repeat Works 180 ++ [DiesLate]) 4].
Lemma history_well_named : Forall well_named history.
Proof. repeat (apply Forall_cons_2; [done|]). by apply Forall_nil_2. Qed.
Example demo_history :
  let d := run_events dir history (calm empty_tree) in
  dead d = true ∧ files d !! metadata_path (store_at dir) = Some (NFile (rendered latest)) ∧
  files d !! ["srv"; "backup.meta"]%string = Some (NFile (rendered latest)).
Proof. vm_compute. split_and!; reflexivity. Qed.

(** A backup of version 0 is valid metadata, so a restore puts it in place of
    the good one and only then fails: the store cannot be opened any more. *)
Definition zero : CoordinationMetadata := {| version := 0; tables := COORDINATION_TABLES |}.
Definition with_zero_backup : tree :=
  with_files [(dir, NDirectory); (metadata_path (store_at dir), NFile (rendered latest)); (["srv"; "old.meta"]%string, NFile (rendered zero))].
Example version_zero_backup_breaks_the_store :
  let '(r, d) := restore_from (store_at dir) false 7 1 2 ["srv"; "old.meta"]%string (calm with_zero_backup) in
  r = Err (invalid "coordination schema version must be positive") ∧
  files d !! metadata_path (store_at dir) = Some (NFile (rendered zero)) ∧
  (open_store false 7 3 dir d).1 = Err (invalid "coordination schema version must be positive").
Proof. vm_compute. split_and!; reflexivity. Qed.
(** A metadata file that cannot be inspected counts as absent: the metadata of
    a newer release, which an open refuses, is then replaced. *)
Definition newer : tree :=
  with_files [(dir, NDirectory); (metadata_path (store_at dir), NFile (rendered {| version := 3; tables := ["new"%string] |}))].
Example uninspected_metadata_is_replaced :
  is_ok (open_store false 7 1 dir (calm newer)).1 = false ∧
  let '(r, d) := open_store false 7 1 dir (restart (repeat Works 4 ++ [Fails "Input/output error"%string]) (calm newer)) in
  is_ok r = true ∧ files d !! metadata_path (store_at dir) = Some (NFile (rendered latest)).
Proof. vm_compute. split_and!; reflexivity. Qed.
End CoordinationDemo.
Import CoordinationDemo.

Lemma coordination_store_survives_witness :
  let d := run_events dir history (calm empty_tree) in
  kept (metadata_path (store_at dir)) valid (files d) ∧
  files (run_event dir (event_of OpenStore [] 9) d).2 !! metadata_path (store_at dir) = Some (NFile (rendered latest)).
Proof.
  destruct (coordination_store_survives dir history empty_tree empty_kept history_well_named) as [Hk Hok]. split; [exact Hk|].
  specialize (Hok (event_of OpenStore [] 9) (run_event dir (event_of OpenStore [] 9) (run_events dir history (calm empty_tree))).2 I).
  apply Hok, ok_run. vm_compute. reflexivity.
Defined.
Lemma sound_store_opens_witness :
  open_store false 7 1 dir (calm (with_files [(dir, NDirectory)])) =
    (Ok (store_at dir), calm (<[metadata_path (store_at dir) := NFile (rendered latest)]> (with_files [(dir, NDirectory)]))).
Proof.
  apply sound_store_opens; [by apply rooted_check_sound; vm_compute|by vm_compute|by vm_compute|left; by vm_compute].
Defined.
Lemma metadata_roundtrip_witness : parse_metadata (render_metadata latest) = Ok latest.
Proof.
  apply metadata_roundtrip. split_and!; [vm_compute; discriminate|done|].
  repeat (apply Forall_cons_2; [vm_compute; repeat split; discriminate|]). by apply Forall_nil_2.
Defined.
